(* ===== verification/_CoqProject ===== *)
-Q . S2P
Prelude.v
JoinLattice.v
EdgeFunctionUtils.v
Table.v
JumpFunctions.v
EquivalenceClassMap.v
Compressor.v
IDEProblem.v
FlowFunctions.v
FlowEdgeFunctionCache.v
FlowEdgeFunctionCacheCorrect.v
IDESolverAPIMixin.v
IDESolver.v
DefaultSemiRing.v
IDESolverEffects.v
IDESolverFixpoint.v
IDESolverPaths.v
IDESolverValues.v
SolverResults.v
TypeStateDescriptions.v
IDETypeStateAnalysis.v
IFDS.v
FrameworkProperties.v
IDESolverExample.v
IDESolverCorrect.v
ServiceProperties.v
TypeStateProperties.v
IterativeIDESolver.v
IterativeIDESolverRules.v
IterativeIDESolverComplete.v
IterativeIDESolverPhase1.v
IterativeIDESolverCorrect.v
IterativeIDESolverGC.v
IterativeIDESolverSolve.v
FlowEdgeFunctionCacheNG.v
FlowEdgeFunctionCacheNGCorrect.v
CacheProperties.v
IntraMonoSolver.v
IntraMonoSolverCorrect.v
InterMonoSolver.v
InterMonoSolverCorrect.v
MonoProperties.v
SCCGeneric.v
SCCGenericCorrect.v
SCCGenericIterative.v
VTA.v
SCCProperties.v
UnionFind.v
Andersen.v
AndersenEdges.v
AndersenPointees.v
AndersenMerge.v
AndersenPropagate.v
AndersenCalls.v
PointerProperties.v
UnionFindAA.v
UnionFindAACorrect.v
CallingContextAA.v
CallingContextAACorrect.v
BottomupUnionFindAA.v
UnionFindProperties.v
Graph.v
DFAMinimizer.v
EquivalentGraph.v
GraphProperties.v
ExplodedSuperGraph.v
ExplodedSuperGraphCorrect.v
PathSensitivity.v
PathSensitivityCorrect.v
PathsGraph.v
PathsLoops.v
PathsFinish.v
PathProperties.v
Z3PathSensitivity.v
Z3FilterCorrect.v
Z3FlattenCorrect.v
Z3PathProperties.v
LLVMPathConstraints.v
LLVMPathConstraintsCorrect.v
