(* ===== verification/Prelude.v ===== *)
(** * PhASAR: a verification library for the data-flow core

    PhASAR is a static-analysis framework for LLVM IR. This development models
    the parts of it that decide the result of an analysis - the IFDS/IDE solvers
    and everything they are made of, the monotone framework, the type-state
    analysis as a client, strongly connected components and what is built on
    them - and proves what each part computes. Paths below are relative to
    src/include/phasar/ unless they start with lib/.

    ** Conventions

    - A C++ class is a [Record] of its data members in a Module of the same name;
      a member function is a [Definition] that takes and returns the state. A loop
      over a range is [for_each] (below). Nodes, functions and facts are arbitrary
      countable types: the code is generic in them too.
    - [std::unordered_map] and [DenseMap] are [gmap]s. Where the code iterates over
      one, the order is a parameter with the law that it enumerates the keys, or
      the order of [map_to_list], and the theorems do not depend on it.
    - Machine integers are [Z] with the wrap-around written out where it can
      matter (packed keys, compressor ids, Pearce's counters, call-string limits,
      the polling interval); exceptions are values of [Outcome].
    - [while] loops take fuel and return [option]. No theorem is about "if it
      returns" alone: for every loop there is a theorem that enough fuel gives a
      result, by an explicit bound or by a well-founded measure (the height of the
      lattice of edge functions over the finitely many facts that can occur).
    - What is not under src/ (LLVM, the C++ library beyond its containers) and what
      a client overrides (analysis problems, lattices, control-flow graphs) is a
      parameter: a [Record] of operations and a [Class] of the laws the code
      relies on. The example programs are instances, on which the witnesses of the
      theorems evaluate the model.

    ** The files, and the source they model

    Lattices, edge functions, tables:
    - JoinLattice: Utils/JoinLattice.h, Domain/BinaryDomain.h, LatticeDomain.h.
    - EdgeFunctionUtils: DataFlow/IfdsIde/EdgeFunctionUtils.h and the dispatch of
      EdgeFunction.h ([compose], [joinWith], [JoinEdgeFunction_create]).
    - Table, JumpFunctions, EquivalenceClassMap, Compressor: Utils/Table.h,
      Solver/JumpFunctions.h, Utils/EquivalenceClassMap.h, Utils/Compressor.h.
    - DefaultSemiRing: Utils/SemiRing.h on a constant propagation.

    The IFDS/IDE framework (DataFlow/IfdsIde/):
    - IDEProblem: the problem and ICFG interfaces, configuration flags, seeds.
    - FlowFunctions: the flow-function templates.
    - FlowEdgeFunctionCache and FlowEdgeFunctionCacheNG, with their Correct files:
      the two memo tables between a solver and its problem.
    - IDESolver: Solver/IDESolver.h, both phases; IDESolverAPIMixin: the ways to
      drive it (stepping, predicates, timeouts, cancellation). IDESolverEffects
      says what each operation does to the state; IDESolverFixpoint relates the
      jump functions to the tabulation rules; IDESolverPaths adds termination and
      the valid paths, IDESolverValues phase two; IDESolverCorrect puts the theorems
      together, on the program of IDESolverExample.
    - IFDS: IFDSTabulationProblem.h and IfdsToIdeProblemAdapter.h.
    - SolverResults: the queries on the solved table.
    - IterativeIDESolver: Solver/IterativeIDESolver.h, IterativeIDESolverBase.h,
      StaticIDESolverConfig.h, WorkListTraits.h. IterativeIDESolverRules, -Complete
      and -Phase1 treat phase one and its termination, -Correct compares it with the
      IDESolver, -GC treats the garbage collector and -Solve phase two.

    The type-state analysis (PhasarLLVM/DataFlow/IfdsIde/Problems/ under include
    and lib): TypeStateDescriptions (the state machines), IDETypeStateAnalysis
    (edge and flow functions and the alias caches behind them).

    The monotone framework (DataFlow/Mono/): IntraMonoSolver, InterMonoSolver with
    CallStringCTX, and in IntraMonoSolverCorrect the abstract work-list system both
    refine.

    Graphs: SCCGeneric (Utils/SCCGeneric.h: Pearce's algorithm, recursive and
    iterative, and the orders of the components) with SCCGenericCorrect for the
    recursive variant and SCCGenericIterative for the iterative one and the orders;
    VTA (lib/PhasarLLVM/ControlFlow/VTA/TypePropagator.cpp, Resolver/VTAResolver.cpp).

    Graph (Utils/AdjacencyList.h, GraphTraits.h), DFAMinimizer (DFAMinimizer.h) and
    EquivalentGraph: reversing a graph, merging equivalent vertices, and the graph of
    the classes.

    Path sensitivity (DataFlow/PathSensitivity/): ExplodedSuperGraph
    (ExplodedSuperGraph.h and the hook of Solver/PathAwareIDESolver.h), the graph of
    recorded edges, and PathSensitivity (PathSensitivityManagerMixin.h,
    PathSensitivityManagerBase.h), which traces paths back through it.
    ExplodedSuperGraphCorrect says what the nodes stand for; PathSensitivityCorrect
    relates the graph under construction to the paths of the supergraph; PathsGraph,
    PathsLoops and PathsFinish treat a whole query and its fuel, the recordings for
    which it never ends, and the reversal with minimization and the limit on the
    depth; PathProperties has the results.

    Z3PathSensitivity (Z3BasedPathSensitvityManager.h, .cpp, FlowPath.h and the
    filters of paths) filters that graph with an SMT solver and reports feasible
    paths; Z3's expressions and its solver, and the path constraints of edges, are
    [Class]es it is written against. Z3FilterCorrect (with the labels of paths) and
    Z3FlattenCorrect treat the two passes, Z3PathProperties has the results.
    LLVMPathConstraints (lib/PhasarLLVM/DataFlow/PathSensitivity/
    LLVMPathConstraints.cpp) translates the branches of a program to constraints,
    LLVMPathConstraintsCorrect says which.

    Pointer analyses: UnionFind (Utils/UnionFind.h); Andersen (lib/PhasarLLVM/
    Pointer/AndersenOTFAA.cpp: the constraint solver), with AndersenEdges,
    -Pointees, -Merge, -Propagate and -Calls for what an added edge, a new pointee,
    a merge, an iteration (with its termination) and a call do, and
    PointerProperties for runs. UnionFindAA (Pointer/UnionFindAA.h, PointerAssignmentGraph.h and
    RawAAResult.h), CallingContextAA (CallingContextConstructor.h and the analysis
    that uses it) and BottomupUnionFindAA (BottomupUnionFindAA.h) are the alias
    analyses that only join classes. UnionFindAACorrect says when classes are the
    components of a relation, and of which for the first analyses;
    CallingContextAACorrect and UnionFindProperties treat the others.

    The theorems of the last files of a group (..Properties, ..Correct) are the
    group's results.

    ** How the parts interact

    A client implements the problem interface. The cache asks it for flow and edge
    functions and remembers them; the solver asks the cache ([cache_refines_problem]
    and [cache_ng_refines_problem] say that it may ask the problem instead, which is
    how the solvers are modelled). The solver propagates path edges along the ICFG,
    extends and combines edge functions through the semiring, keeps the results in
    [JumpFunctions] and [Table]s, and answers queries through [SolverResults]. The
    API mixin drives any solver given as its three steps. The type-state analysis
    is one problem; the resolver of the variable type analysis, which runs on the
    components of its type graph, is one way to get the call graph of an ICFG.

    ** What the theorems show

    - IDESolver: phase one ends, within a bound, in the least solution of the
      tabulation rules; the jump functions are upper bounds of the functions along
      all valid paths, and their join for distributive problems; values are the
      joins over the seeds; for IFDS problems, reachability; unbalanced returns,
      end summaries and interrupted runs.
    - IterativeIDESolver: least solution, values and termination, agreement with
      the IDESolver on comparable inputs, exact reference counts whose functions are
      candidates of the garbage collector, and a collector that takes exactly the
      candidates without pending jobs that call no candidate that has some.
    - Services: caches and maps refine their specifications; ids round-trip.
    - Building blocks: lattices, composition and joins of edge functions, with the
      points where they throw; what the three tables of [JumpFunctions] hold after
      every sequence of insertions and removals.
    - Type-state: the state of a file handle along every path, by the edge functions
      the analysis answers with; composition and joins; transparent alias caches.
    - Monotone framework: least solution of the data-flow equations, agreement of
      the two solvers, the meaning of call strings, and the call edge that is
      queued forever.
    - Graphs: components, topological orders, exact call targets; reversal is an
      involution up to order; minimization keeps the labelled paths.
    - Andersen solver: every sequence of calls returns and gives points-to sets
      below every solution of its inclusion constraints; they are a solution when
      pointees come before the constraints of their node, a copy when its pointers
      have not been merged into others. Both restrictions are necessary.
    - Path sensitivity: recorded edges whose source has a node are represented by
      links between nodes of the right statement and fact; a query returns, without
      circles, and holds only paths of the supergraph, all of them when it has no
      cycle; a limit on the depth cuts them off where it says. When the first
      recorded edge enters a loop, no query returns. With a solver that decides the
      constraints, the paths reported are exactly the feasible ones (but at an exit
      those with an open call are lost), and the filter keeps them all. The
      translation of branches is not changed by what it remembers.
    - Union-find analyses: which edges connect the variables that alias, for the
      plain, the indirection-sensitive, the context-sensitive and the bottom-up
      analysis; longer contexts and bottom-up summaries can miss aliases.

    ** Not modelled, and why

    Loading, querying and printing LLVM IR (LLVMProjectIRDB, LLVMBasedICFG, type
    hierarchies, debug information, IR-to-source): views of LLVM's data structures,
    which enter as parameters. The translation of LLVM IR into the calls of the
    Andersen solver or the notifications of the union-find analyses; alias analyses
    that wrap LLVM's or SVF's. The client analyses other than type-state.
    Logging, statistics, performance counters, printing; the command-line tools and
    passes. Memory management (allocation policies, reference counting of edge
    functions, move semantics), which does not change results. Of the components
    that are modelled, the manifest names the operations left out. *)
From Stdlib Require Export ZArith Lia.
From stdpp Require Export base option list gmap fin_maps.

(** * Notation scope and hint databases *)

Declare Scope phasar_scope.
Delimit Scope phasar_scope with phasar.

Create HintDb phasar_lattice.
Create Rewrite HintDb phasar_lattice_eqs.
Create Rewrite HintDb phasar_tables.

(** * Tactics shared by the development *)

(** Split every conjunction and existential of the context. *)
Ltac split_hyps :=
  repeat match goal with
  | H : _ /\ _ |- _ => destruct H
  | H : exists _, _ |- _ => destruct H
  | H : prod _ _ |- _ => destruct H
  end.

(** Case analysis on every [match]/[if] scrutinee of the goal. *)
Ltac case_all := repeat (case_match; simplify_eq/=; try done).

(** * Iteration: the [for] loops of the program *)

(** [for_each l body s] is a range-based loop that threads the state [s]
    through [body], in the order of [l]. *)
Definition for_each {A S : Type} (l : list A) (body : A → S → S) (s : S) : S :=
  foldl (λ s x, body x s) s l.

Section for_each.
Context {A S : Type}.
Implicit Types (l : list A) (body : A → S → S) (s : S).

Lemma for_each_nil body s : for_each [] body s = s.
Proof. done. Qed.

Lemma for_each_cons x l body s :
  for_each (x :: l) body s = for_each l body (body x s).
Proof. done. Qed.

Lemma for_each_app l1 l2 body s :
  for_each (l1 ++ l2) body s = for_each l2 body (for_each l1 body s).
Proof. unfold for_each. by rewrite foldl_app. Qed.

(** A predicate every iteration preserves holds at the end. *)
Lemma for_each_inv (I : S → Prop) l body s :
  I s → (∀ x s', x ∈ l → I s' → I (body x s')) → I (for_each l body s).
Proof.
  revert s. induction l as [|x l IH]; intros s Hs Hstep; [done|].
  rewrite for_each_cons. apply IH; [apply Hstep; set_solver|].
  intros y s' Hy. apply Hstep. set_solver.
Qed.

(** A relation every iteration respects relates the two ends. *)
Lemma for_each_rel (R : S → S → Prop) `{!PreOrder R} l body s :
  (∀ x s', x ∈ l → R s' (body x s')) → R s (for_each l body s).
Proof.
  intros Hstep. apply (for_each_inv (R s)); [done|].
  intros x s' Hx Hs'. etrans; eauto.
Qed.

(** Induction over the elements iterated so far. *)
Lemma for_each_ind (I : list A → S → Prop) l body s :
  I [] s → (∀ l1 x s', x ∈ l → I l1 s' → I (l1 ++ [x]) (body x s')) → I l (for_each l body s).
Proof.
  intros H0. induction l as [|x l IH] using rev_ind; intros Hstep; [done|].
  rewrite for_each_app, for_each_cons, for_each_nil. apply Hstep; [set_solver|].
  apply IH. intros l1 y s' Hy. apply Hstep. set_solver.
Qed.

(** What the iteration of one element establishes holds at the end, when the
    later iterations keep it. *)
Lemma for_each_reach (I Q : S → Prop) x l body s :
  x ∈ l → I s →
  (∀ y s', y ∈ l → I s' → I (body y s')) →
  (∀ s', I s' → Q (body x s')) →
  (∀ y s', y ∈ l → I s' → Q s' → Q (body y s')) →
  Q (for_each l body s).
Proof.
  intros Hx Hs HI Hest Hkeep.
  apply list_elem_of_split in Hx as (l1 & l2 & ->).
  rewrite for_each_app, for_each_cons.
  assert (I (for_each l1 body s)) as HI1.
  { apply for_each_inv; [done|]. intros y s' Hy. apply HI. set_solver. }
  apply (for_each_inv (λ s', I s' ∧ Q s')).
  - split; [apply HI; set_solver | by apply Hest].
  - intros y s' Hy [HIs HQs]. split; [apply HI | apply Hkeep]; set_solver.
Qed.
End for_each.

(** * Association vectors: [SmallVector<pair<K, V>>] searched by [find_if] *)

Section assoc.
Context {K V : Type} `{EqDecision K}.
Implicit Types (l : list (K * V)).

(** [find_if(l, first == k)]. *)
Fixpoint assoc_find (k : K) l : option V :=
  match l with
  | [] => None
  | (k', v) :: l => if decide (k' = k) then Some v else assoc_find k l
  end.

(** Overwrite the entry of [k] if there is one, append one otherwise. *)
Fixpoint assoc_upsert (k : K) (v : V) l : list (K * V) :=
  match l with
  | [] => [(k, v)]
  | (k', v') :: l =>
      if decide (k' = k) then (k', v) :: l else (k', v') :: assoc_upsert k v l
  end.

(** Erase the first entry of [k], if there is one. *)
Fixpoint assoc_erase (k : K) l : list (K * V) :=
  match l with
  | [] => []
  | (k', v') :: l => if decide (k' = k) then l else (k', v') :: assoc_erase k l
  end.

Lemma assoc_find_upsert_eq k v l : assoc_find k (assoc_upsert k v l) = Some v.
Proof. induction l as [|[k' v'] l IH]; simpl; repeat (case_decide; simpl); congruence. Qed.

Lemma assoc_find_upsert_ne k k' v l :
  k ≠ k' → assoc_find k' (assoc_upsert k v l) = assoc_find k' l.
Proof.
  intros Hne. induction l as [|[k0 v0] l IH]; simpl; repeat (case_decide; simpl); congruence.
Qed.

Lemma assoc_find_upsert k k' v l :
  assoc_find k' (assoc_upsert k v l) = if decide (k = k') then Some v else assoc_find k' l.
Proof.
  case_decide; subst; [apply assoc_find_upsert_eq | by apply assoc_find_upsert_ne].
Qed.

Lemma assoc_upsert_keys k v l x :
  x ∈ (assoc_upsert k v l).*1 ↔ x = k ∨ x ∈ l.*1.
Proof.
  induction l as [|[k0 v0] l IH]; simpl; [set_solver|].
  case_decide; simpl; set_solver.
Qed.

Lemma assoc_upsert_NoDup k v l : NoDup l.*1 → NoDup (assoc_upsert k v l).*1.
Proof.
  induction l as [|[k0 v0] l IH]; simpl.
  { intros. apply NoDup_singleton. }
  intros [Hk0 Hl]%NoDup_cons. case_decide; simpl; apply NoDup_cons; [done|].
  split; [|by apply IH]. rewrite assoc_upsert_keys. by intros [->|?].
Qed.

Lemma assoc_find_erase_ne k k' l : k ≠ k' → assoc_find k' (assoc_erase k l) = assoc_find k' l.
Proof.
  intros Hne. induction l as [|[k0 v0] l IH]; simpl; [done|].
  destruct (decide (k0 = k)) as [->|Hk]; simpl.
  - by rewrite decide_False.
  - by rewrite IH.
Qed.

Lemma assoc_erase_keys k l x : x ∈ (assoc_erase k l).*1 → x ∈ l.*1.
Proof. induction l as [|[k0 v0] l IH]; simpl; [done|]. case_decide; simpl; set_solver. Qed.

Lemma assoc_erase_NoDup k l : NoDup l.*1 → NoDup (assoc_erase k l).*1.
Proof.
  induction l as [|[k0 v0] l IH]; simpl; [done|]. intros [Hk0 Hl]%NoDup_cons. case_decide; [done|].
  simpl. apply NoDup_cons. split; [|by apply IH]. by intros ?%assoc_erase_keys.
Qed.

Lemma assoc_find_elem k v l : assoc_find k l = Some v → (k, v) ∈ l.
Proof.
  induction l as [|[k0 v0] l IH]; simpl; [done|].
  case_decide; intros; simplify_eq; set_solver.
Qed.

Lemma assoc_find_None k l : assoc_find k l = None ↔ k ∉ l.*1.
Proof.
  induction l as [|[k0 v0] l IH]; simpl; [set_solver|].
  case_decide; subst; set_solver.
Qed.

(** Erasing, from a list without duplicate keys. *)
Lemma assoc_find_erase k k' l :
  NoDup l.*1 → assoc_find k' (assoc_erase k l) = if decide (k = k') then None else assoc_find k' l.
Proof.
  intros Hnd. case_decide as Hk; [|by apply assoc_find_erase_ne]. subst k'. apply assoc_find_None.
  induction l as [|[k0 v0] l IH]; simpl in *; [set_solver|]. apply NoDup_cons in Hnd as [Hk0 Hl].
  case_decide; [by subst|]. simpl. set_solver.
Qed.

Lemma assoc_elem_find k v l : NoDup l.*1 → (k, v) ∈ l → assoc_find k l = Some v.
Proof.
  induction l as [|[k0 v0] l IH]; simpl; [set_solver|].
  intros [Hk0 Hl]%NoDup_cons [[= -> ->]|Hin]%elem_of_cons; [by rewrite decide_True|].
  rewrite decide_False; [by apply IH|].
  intros ->. apply Hk0. apply list_elem_of_fmap. by exists (k, v).
Qed.
End assoc.

#[export] Hint Resolve assoc_upsert_NoDup assoc_find_elem assoc_elem_find : phasar.

(** Inserting the entries of a map one by one is a left-biased union. *)
Lemma for_each_insert_union {K V} `{Countable K} (m m0 : gmap K V) :
  for_each (map_to_list m) (λ Entry m, <[Entry.1 := Entry.2]> m) m0 = m ∪ m0.
Proof.
  assert (∀ l (m0 : gmap K V) k, NoDup l.*1 →
    for_each l (λ Entry m, <[Entry.1 := Entry.2]> m) m0 !! k =
      match assoc_find k l with Some v => Some v | None => m0 !! k end) as Hl.
  { clear. intros l. induction l as [|[k v] l IH]; intros m0 k0 Hd; [done|].
    apply NoDup_cons in Hd as [Hk Hd]. rewrite for_each_cons, IH by done. simpl.
    destruct (decide (k = k0)) as [->|Hne]; [|by rewrite lookup_insert_ne].
    apply assoc_find_None in Hk. simpl in *. by rewrite Hk, lookup_insert_eq. }
  apply map_eq. intros k. rewrite Hl by apply NoDup_fst_map_to_list.
  rewrite lookup_union. destruct (m !! k) as [v|] eqn:Hm.
  - rewrite (assoc_elem_find k v); [by destruct (m0 !! k)|apply NoDup_fst_map_to_list|].
    by apply elem_of_map_to_list.
  - rewrite (proj2 (assoc_find_None k _)); [by destruct (m0 !! k)|].
    intros ([k' v] & -> & Hin)%list_elem_of_fmap. apply elem_of_map_to_list in Hin. naive_solver.
Qed.

(** * Folding a join over a list *)

Lemma foldr_ext_in {A B} (f g : A → B → B) (b : B) (l : list A) :
  (∀ x y, x ∈ l → f x y = g x y) → foldr f b l = foldr g b l.
Proof.
  induction l as [|x l IH]; intros H; simpl; [done|].
  rewrite H by set_solver. f_equal. apply IH. intros. apply H. set_solver.
Qed.

(** * Measures: sums over a list *)

Definition sum_of {A} (h : A → nat) (l : list A) : nat := foldr (λ x k, h x + k) 0 l.

Lemma sum_of_ext {A} (h h' : A → nat) (l : list A) : (∀ x, h x = h' x) → sum_of h l = sum_of h' l.
Proof. intros Hh. apply foldr_ext_in. intros x y _. by rewrite Hh. Qed.

Lemma sum_of_le_const {A} (h : A → nat) (l : list A) (c : nat) :
  (∀ x, x ∈ l → h x ≤ c) → sum_of h l ≤ length l * c.
Proof.
  induction l as [|x l IH]; simpl; intros Hc; [done|].
  pose proof (Hc x ltac:(by left)). assert (sum_of h l ≤ length l * c); [|lia].
  apply IH. intros y Hy. apply Hc. by right.
Qed.

Lemma sum_of_lt {A} (h h' : A → nat) (l : list A) (x : A) :
  x ∈ l → h' x < h x → (∀ y, h' y ≤ h y) → sum_of h' l < sum_of h l.
Proof.
  intros Hx Hlt Hle. assert (∀ l, sum_of h' l ≤ sum_of h l) as Hmono.
  { clear Hx l. induction l as [|y l IH]; simpl; [done|]. specialize (Hle y). lia. }
  induction l as [|y l IH]; [by apply elem_of_nil in Hx|]. simpl.
  apply elem_of_cons in Hx as [->|Hx].
  - specialize (Hmono l). lia.
  - specialize (IH Hx). specialize (Hle y). lia.
Qed.

(** * Computations that may throw *)

(** The outcome of an operation: a value, or a C++ exception that leaves it. *)
Inductive Outcome (A : Type) :=
  | Returns (a : A)
  | Throws.
Arguments Returns {A} a.
Arguments Throws {A}.

Definition outcome_bind {A B} (m : Outcome A) (k : A → Outcome B) : Outcome B :=
  match m with Returns a => k a | Throws => Throws end.

(** Unwrapping an [std::optional] or a variant alternative. *)
Definition get_or_throw {A} (o : option A) : Outcome A :=
  match o with Some a => Returns a | None => Throws end.

Notation "x <-? m ; k" := (outcome_bind m (λ x, k))
  (at level 100, m at next level, right associativity) : phasar_scope.

Lemma outcome_bind_Returns {A B} (m : Outcome A) (k : A → Outcome B) b :
  outcome_bind m k = Returns b ↔ ∃ a, m = Returns a ∧ k a = Returns b.
Proof. destruct m; simpl; naive_solver. Qed.
