(* ===== verification/JoinLattice.v ===== *)
(** Join lattices of analysis values: [JoinLatticeTraits] and the two value
    domains the framework ships, [BinaryDomain] and [LatticeDomain<L>].

    PhASAR turns lattices upside down with respect to its names: [Top] is the
    least element (no information), [Bottom] the greatest one, and [join] goes
    from [Top] towards [Bottom]. *)
From S2P Require Import Prelude.

(** * The interface: [JoinLatticeTraits<L>] *)

Class JoinLatticeTraits (L : Type) := {
  top : L;
  bottom : L;
  join : L → L → L
}.

(** What a client of a join lattice relies on. *)
Class JoinLatticeLaws (L : Type) `{JoinLatticeTraits L} : Prop := {
  join_assoc (x y z : L) : join x (join y z) = join (join x y) z;
  join_comm (x y : L) : join x y = join y x;
  join_idemp (x : L) : join x x = x;
  join_top_l (x : L) : join top x = x;
  join_bottom_l (x : L) : join bottom x = bottom
}.

(** The order the join induces. *)
Definition lat_le {L : Type} `{JoinLatticeTraits L} (x y : L) : Prop := join x y = y.

Infix "⊑ₗ" := lat_le (at level 70) : phasar_scope.
#[export] Instance lat_le_dec {L} `{JoinLatticeTraits L, EqDecision L} (x y : L) :
  Decision (lat_le x y).
Proof. unfold lat_le. apply _. Defined.

(** * [BinaryDomain] (Domain/BinaryDomain.h) *)

Module BinaryDomain.
Inductive t := BOTTOM | TOP.

#[global] Instance t_eq_dec : EqDecision t.
Proof. solve_decision. Defined.

Definition join (LHS RHS : t) : t := if decide (LHS = RHS) then LHS else BOTTOM.

#[global] Instance traits : JoinLatticeTraits t :=
  {| top := TOP; bottom := BOTTOM; JoinLattice.join := join |}.
End BinaryDomain.

(** * [LatticeDomain<L>] (Domain/LatticeDomain.h) *)

(** [std::variant<Top, L, Bottom>]. *)
Inductive LatticeDomain (L : Type) :=
  | Top
  | Value (v : L)
  | Bottom.
Arguments Top {L}.
Arguments Value {L} v.
Arguments Bottom {L}.

Module LatticeDomainOps.
Section ops.
Context {L : Type} `{EqDecision L}.
Implicit Types (x y : LatticeDomain L).

Definition isBottom x : bool := match x with Bottom => true | _ => false end.
Definition isTop x : bool := match x with Top => true | _ => false end.
Definition getValueOrNull x : option L := match x with Value v => Some v | _ => None end.

(** The alternative's index in the variant. *)
Definition index x : nat := match x with Top => 0 | Value _ => 1 | Bottom => 2 end.

(** [operator==(const LatticeDomain &)]. *)
Definition eqb x y : bool :=
  if decide (index x ≠ index y) then false
  else match getValueOrNull x with
       | Some a => match getValueOrNull y with
                   | Some b => bool_decide (a = b)
                   | None => false
                   end
       | None => true
       end.

(** [onValue(Transform)]: applies the transformation to a held value. *)
Definition onValue (Transform : L → L) x : LatticeDomain L :=
  match getValueOrNull x with Some v => Value (Transform v) | None => x end.

(** [operator<]: [Top] below every value below [Bottom]; [None] is the
    [llvm_unreachable] at its end. *)
Definition ltb (ltL : L → L → bool) x y : option bool :=
  if isTop y then Some false
  else if isTop x then Some true
  else match getValueOrNull x, getValueOrNull y with
       | Some a, Some b => Some (ltL a b)
       | None, _ => if isBottom x then Some false
                    else if isBottom y then Some true else None
       | Some _, None => if isBottom y then Some true else None
       end.

(** [JoinLatticeTraits<LatticeDomain<L>>::join]. The element type may
    provide a join of its own, found by argument-dependent lookup. *)
Definition join (adl_join : option (L → L → LatticeDomain L)) x y : LatticeDomain L :=
  if isTop x || eqb x y then y
  else if isTop y then x
  else match adl_join, getValueOrNull x, getValueOrNull y with
       | Some j, Some a, Some b => j a b
       | _, _, _ => Bottom
       end.

(** [NonTopBotValue<LatticeDomain<L>>::unwrap]: [std::get<L>], which
    throws for [Top] and [Bottom]. *)
Definition unwrap x : option L := getValueOrNull x.
End ops.

(** The lattice of an element type without a join of its own. *)
#[global] Instance traits {L} `{EqDecision L} : JoinLatticeTraits (LatticeDomain L) :=
  {| top := Top; bottom := Bottom; JoinLattice.join := join None |}.

#[global] Instance t_eq_dec {L} `{EqDecision L} : EqDecision (LatticeDomain L).
Proof. solve_decision. Defined.
End LatticeDomainOps.

(** * Lemmas of the order *)

Section order.
Context {L : Type} `{JoinLatticeLaws L}.
Implicit Types x y z : L.
Local Open Scope phasar_scope.

#[global] Instance lat_le_preorder : PreOrder (lat_le (L := L)).
Proof.
  split.
  - intros x. apply join_idemp.
  - intros x y z Hxy Hyz. unfold lat_le in *. rewrite <- Hyz, join_assoc. by rewrite Hxy.
Qed.

#[global] Instance lat_le_antisymm : AntiSymm (=) (lat_le (L := L)).
Proof. intros x y Hxy Hyx. unfold lat_le in *. rewrite <- Hxy, join_comm. done. Qed.

Lemma join_top_r x : join x top = x.
Proof. rewrite join_comm. apply join_top_l. Qed.
Lemma join_bottom_r x : join x bottom = bottom.
Proof. rewrite join_comm. apply join_bottom_l. Qed.

Lemma lat_le_top x : top ⊑ₗ x.
Proof. apply join_top_l. Qed.
Lemma lat_le_bottom x : x ⊑ₗ bottom.
Proof. apply join_bottom_r. Qed.

Lemma join_ub_l x y : x ⊑ₗ join x y.
Proof. unfold lat_le. by rewrite join_assoc, join_idemp. Qed.
Lemma join_ub_r x y : y ⊑ₗ join x y.
Proof. rewrite join_comm. apply join_ub_l. Qed.

Lemma join_lub x y z : join x y ⊑ₗ z ↔ x ⊑ₗ z ∧ y ⊑ₗ z.
Proof.
  split.
  - intros Hz. split; (transitivity (join x y); [|done]);
      [apply join_ub_l | apply join_ub_r].
  - unfold lat_le. intros [Hx Hy]. by rewrite <- join_assoc, Hy.
Qed.

#[global] Instance join_mono : Proper (lat_le ==> lat_le ==> lat_le) (join (L := L)).
Proof.
  intros x x' Hx y y' Hy. apply join_lub. split.
  - transitivity x'; [done | apply join_ub_l].
  - transitivity y'; [done | apply join_ub_r].
Qed.

Lemma bottom_le_inv x : bottom ⊑ₗ x → x = bottom.
Proof. intros Hx. unfold lat_le in Hx. by rewrite <- Hx, join_bottom_l. Qed.
Lemma le_top_inv x : x ⊑ₗ top → x = top.
Proof. intros Hx. unfold lat_le in Hx. by rewrite join_top_r in Hx. Qed.

(** The join of a vector of values. *)
Lemma foldl_join_le_acc (l : list L) x y : x ⊑ₗ y → foldl join x l ⊑ₗ foldl join y l.
Proof. revert x y. induction l as [|a l IH]; simpl; [done|]. intros. apply IH. by f_equiv. Qed.

Lemma foldl_join_ub_acc (l : list L) x : x ⊑ₗ foldl join x l.
Proof.
  revert x. induction l as [|a l IH]; intros x; simpl; [done|]. etrans; [|apply IH].
  apply join_ub_l.
Qed.

Lemma foldl_join_ub (l : list L) x a : a ∈ l → a ⊑ₗ foldl join x l.
Proof.
  revert x. induction l as [|b l IH]; intros x; simpl; [set_solver|].
  intros [->|Ha]%elem_of_cons; [|by apply IH].
  etrans; [|apply foldl_join_ub_acc]. apply join_ub_r.
Qed.

Lemma foldl_join_lub (l : list L) x z :
  foldl join x l ⊑ₗ z ↔ x ⊑ₗ z ∧ ∀ a, a ∈ l → a ⊑ₗ z.
Proof.
  revert x. induction l as [|b l IH]; intros x; simpl; [set_solver|].
  rewrite IH, join_lub. set_solver.
Qed.
End order.

#[export] Hint Resolve join_ub_l join_ub_r lat_le_top lat_le_bottom : phasar_lattice.
#[export] Hint Extern 0 (lat_le ?x ?x) => reflexivity : phasar_lattice.
#[export] Hint Rewrite @join_top_l @join_top_r @join_bottom_l @join_bottom_r @join_idemp
  using typeclasses eauto : phasar_lattice_eqs.

(** * The two domains are join lattices *)

#[export] Instance BinaryDomain_laws : JoinLatticeLaws BinaryDomain.t.
Proof. split; intros; repeat (match goal with x : BinaryDomain.t |- _ => destruct x end); done. Qed.

Module LatticeDomainFacts.
Import LatticeDomainOps.
Section facts.
Context {L : Type} `{EqDecision L}.
Implicit Types (x y : LatticeDomain L).

Lemma eqb_spec x y : eqb x y = bool_decide (x = y).
Proof.
  destruct x, y; unfold eqb; simpl; repeat case_decide; try done; try lia;
    repeat case_bool_decide; try done; congruence.
Qed.

Lemma join_flat x y :
  join None x y = if isTop x || bool_decide (x = y) then y else if isTop y then x else Bottom.
Proof. unfold join. by rewrite eqb_spec. Qed.

#[global] Instance LatticeDomain_laws : JoinLatticeLaws (LatticeDomain L).
Proof.
  split; intros; unfold JoinLattice.join, top, bottom, traits; rewrite ?join_flat;
    repeat (match goal with x : LatticeDomain L |- _ => destruct x end);
    simpl; repeat (case_bool_decide; simplify_eq/=); try done; congruence.
Qed.

(** An element join that is itself a semilattice operation on the values
    lifts to a join lattice (the [has_adl_join] branch). *)
Lemma join_adl_laws (j : L → L → LatticeDomain L) :
  (∀ a, j a a = Value a) → (∀ a b, j a b = j b a) →
  (∀ a b c, join (Some j) (Value a) (j b c) = join (Some j) (j a b) (Value c)) →
  (∀ a b, j a b ≠ Top) →
  @JoinLatticeLaws (LatticeDomain L)
    {| top := Top; bottom := Bottom; JoinLattice.join := join (Some j) |}.
Proof.
  intros Hidem Hcomm Hassoc Htop.
  assert (∀ a b, join (Some j) (Value a) (Value b) = j a b) as Hj.
  { intros a b. unfold join. rewrite eqb_spec. simpl. case_bool_decide; simplify_eq; eauto. }
  assert (∀ x, join (Some j) Top x = x) as Htl by done.
  assert (∀ x, join (Some j) x Top = x) as Htr by (by intros []).
  assert (∀ x, join (Some j) Bottom x = Bottom) as Hbl by (by intros []).
  assert (∀ x, join (Some j) x Bottom = Bottom) as Hbr by (by intros []).
  split; simpl; intros;
    repeat (match goal with x : LatticeDomain L |- _ => destruct x end);
    rewrite ?Htl, ?Htr, ?Hbl, ?Hbr, ?Hj; eauto.
Qed.

Section ltb.
Context (ltL : L → L → bool).
Hypothesis ltL_irrefl : ∀ a, ltL a a = false.
Hypothesis ltL_trans : ∀ a b c, ltL a b = true → ltL b c = true → ltL a c = true.
Hypothesis ltL_total : ∀ a b, ltL a b = false → ltL b a = false → a = b.

Lemma ltb_defined x y : is_Some (ltb ltL x y).
Proof. destruct x, y; unfold ltb; simpl; eauto. Qed.

Lemma ltb_irrefl x : ltb ltL x x = Some false.
Proof. destruct x; unfold ltb; simpl; rewrite ?ltL_irrefl; done. Qed.

Lemma ltb_trans x y z :
  ltb ltL x y = Some true → ltb ltL y z = Some true → ltb ltL x z = Some true.
Proof.
  destruct x, y, z; unfold ltb; simpl; try done.
  intros [=] [=]. f_equal. eauto.
Qed.

Lemma ltb_total x y : ltb ltL x y = Some false → ltb ltL y x = Some false → x = y.
Proof. destruct x, y; unfold ltb; simpl; try done. intros [=] [=]. f_equal. eauto. Qed.
End ltb.
End facts.
End LatticeDomainFacts.
Export LatticeDomainFacts.
