(* ===== verification/EdgeFunctionUtils.v ===== *)
(** Edge functions: the functions of [EdgeFunctionUtils.h], composed and joined
    through the type-erased [EdgeFunction<L>] of [EdgeFunction.h].

    An edge function is a value of [EdgeFunction]; the analysis' own edge
    functions are the constructor [UserEF], whose operations are the class
    [UserEdgeFunctions]. [compose] and [joinWith] return an [Outcome], because
    [NonTopBotValue<L>::unwrap] throws on [Top] and [Bottom]. *)
From S2P Require Import Prelude JoinLattice.

Local Open Scope phasar_scope.

(** [NonTopBotValue<L>]: the type of the stored constants. *)
Class NonTopBotValue (L V : Type) := {
  unwrap : L → option V;
  wrap : V → L
}.

Class NonTopBotValueLaws (L V : Type) `{NonTopBotValue L V, JoinLatticeTraits L} : Prop := {
  unwrap_wrap (v : V) : unwrap (wrap v) = Some v;
  wrap_unwrap (x : L) (v : V) : unwrap x = Some v → wrap v = x;
  unwrap_None (x : L) : unwrap x = None → x = top ∨ x = bottom
}.

(** The stored constants leave out [top]: as for [LatticeDomain], not for the
    primary template, which stores any value of the lattice. *)
Class NonTopValueLaws (L V : Type) `{NonTopBotValue L V, JoinLatticeTraits L} : Prop :=
  wrap_not_top (v : V) : wrap v ≠ top.

(** The primary template: [unwrap] is the identity. *)
Definition NonTopBotValue_primary {L} : NonTopBotValue L L := {| unwrap := Some; wrap := id |}.

#[export] Instance NonTopBotValue_primary_laws {L} `{JoinLatticeTraits L} :
  @NonTopBotValueLaws L L NonTopBotValue_primary _.
Proof. split; simpl; naive_solver. Qed.

#[export] Instance LatticeDomain_NonTopBot {A} : NonTopBotValue (LatticeDomain A) A :=
  {| unwrap := LatticeDomainOps.unwrap; wrap := Value |}.

#[export] Instance LatticeDomain_NonTopBot_laws {A} `{EqDecision A} :
  NonTopBotValueLaws (LatticeDomain A) A.
Proof. split; [done| |]; intros []; naive_solver. Qed.
#[export] Instance LatticeDomain_NonTop {A} `{EqDecision A} : NonTopValueLaws (LatticeDomain A) A.
Proof. done. Qed.

(** * The edge functions *)

(** The two composers of the framework: the local class of
    [JoinEdgeFunction::compose], and the class an analysis derives from
    [EdgeFunctionComposer] to give its own join. *)
Inductive ComposerKind := DefaultJoinEdgeFunctionComposer | DerivedComposer.

Inductive EdgeFunction (L V U : Type) :=
  | EdgeIdentity
  | ConstantEdgeFunction (v : V)
  | AllBottom
  | AllTop
  | EdgeFunctionComposer (k : ComposerKind) (First Second : EdgeFunction L V U)
  | JoinEdgeFunction (Seed : L) (OtherEF : list (EdgeFunction L V U))
  | UserEF (u : U).
Arguments EdgeIdentity {L V U}.
Arguments ConstantEdgeFunction {L V U} v.
Arguments AllBottom {L V U}.
Arguments AllTop {L V U}.
Arguments EdgeFunctionComposer {L V U} k First Second.
Arguments JoinEdgeFunction {L V U} Seed OtherEF.
Arguments UserEF {L V U} u.

(** The induction principle that goes into [OtherEF]. *)
Section ind.
Context {L V U : Type} (P : EdgeFunction L V U → Prop).
Hypothesis H_id : P EdgeIdentity.
Hypothesis H_const : ∀ v, P (ConstantEdgeFunction v).
Hypothesis H_bot : P AllBottom.
Hypothesis H_top : P AllTop.
Hypothesis H_comp : ∀ k f g, P f → P g → P (EdgeFunctionComposer k f g).
Hypothesis H_join : ∀ s fs, Forall P fs → P (JoinEdgeFunction s fs).
Hypothesis H_user : ∀ u, P (UserEF u).

Fixpoint EdgeFunction_ind' (f : EdgeFunction L V U) : P f :=
  match f with
  | EdgeIdentity => H_id
  | ConstantEdgeFunction v => H_const v
  | AllBottom => H_bot
  | AllTop => H_top
  | EdgeFunctionComposer k f g =>
      H_comp k f g (EdgeFunction_ind' f) (EdgeFunction_ind' g)
  | JoinEdgeFunction s fs =>
      H_join s fs ((fix go (l : list (EdgeFunction L V U)) : Forall P l :=
        match l with
        | [] => Forall_nil_2 P
        | e :: l => Forall_cons_2 P e l (EdgeFunction_ind' e) (go l)
        end) fs)
  | UserEF u => H_user u
  end.
End ind.

#[export] Instance ComposerKind_eq_dec : EqDecision ComposerKind.
Proof. solve_decision. Defined.

(** [operator==] of [EdgeFunction]: same concrete type and equal members. *)
#[export] Instance EdgeFunction_eq_dec {L V U} `{EqDecision L, EqDecision V, EqDecision U} :
  EqDecision (EdgeFunction L V U).
Proof.
  refine (fix go (f g : EdgeFunction L V U) {struct f} : Decision (f = g) :=
    match f, g with
    | EdgeIdentity, EdgeIdentity => left eq_refl
    | ConstantEdgeFunction v, ConstantEdgeFunction w => cast_if (decide (v = w))
    | AllBottom, AllBottom => left eq_refl
    | AllTop, AllTop => left eq_refl
    | EdgeFunctionComposer k f1 f2, EdgeFunctionComposer k' g1 g2 =>
        cast_if_and3 (decide (k = k')) (go f1 g1) (go f2 g2)
    | JoinEdgeFunction s fs, JoinEdgeFunction s' gs =>
        cast_if_and (decide (s = s')) (List.list_eq_dec go fs gs)
    | UserEF u, UserEF w => cast_if (decide (u = w))
    | _, _ => right _
    end); clear go; abstract congruence.
Defined.

(** The edge functions an analysis defines itself: what [computeTarget] and
    [isConstant] need, and the operations that build edge functions. *)
Class UserTargets (L U : Type) := {
  user_computeTarget : U → L → L;
  user_isConstant : U → bool
}.
Class UserEdgeFunctions (L V U : Type) `{UserTargets L U} := {
  user_compose : U → EdgeFunction L V U → Outcome (EdgeFunction L V U);
  user_join : U → EdgeFunction L V U → Outcome (EdgeFunction L V U);
  (** [join] of the class the analysis derives from [EdgeFunctionComposer] *)
  derived_composer_join :
    EdgeFunction L V U → EdgeFunction L V U → EdgeFunction L V U → Outcome (EdgeFunction L V U)
}.

(** [std::set_union] of two ranges, under the comparison [lt]. *)
Fixpoint set_union {A} (lt : A → A → bool) (l1 : list A) : list A → list A :=
  fix go l2 :=
    match l1, l2 with
    | [], _ => l2
    | _, [] => l1
    | x :: l1', y :: l2' =>
        if lt y x then y :: go l2'
        else if lt x y then x :: set_union lt l1' l2
        else x :: set_union lt l1' l2'
    end.

Section evaluation.
Context {L V U : Type} `{EqDecision L}.
Context `{JoinLatticeTraits L, NonTopBotValue L V} {targets : UserTargets L U}.
Abbreviation EF := (EdgeFunction L V U).
Implicit Types (f g This SecondFunction OtherFunction : EF) (x : L).

Definition isa_EdgeIdentity f : bool := match f with EdgeIdentity => true | _ => false end.
Definition isa_AllBottom f : bool := match f with AllBottom => true | _ => false end.
Definition isa_AllTop f : bool := match f with AllTop => true | _ => false end.

(** [EdgeFunction::isConstant]: [false] where the class does not define it. *)
Definition isConstant f : bool :=
  match f with
  | ConstantEdgeFunction _ | AllBottom | AllTop => true
  | UserEF u => user_isConstant u
  | EdgeIdentity | EdgeFunctionComposer _ _ _ | JoinEdgeFunction _ _ => false
  end.

(** [EdgeFunction::computeTarget]; the loop of [JoinEdgeFunction] stops at
    [bottom]. *)
Fixpoint computeTarget f x {struct f} : L :=
  match f with
  | EdgeIdentity => x
  | ConstantEdgeFunction v => wrap v
  | AllBottom => bottom
  | AllTop => top
  | EdgeFunctionComposer _ First Second => computeTarget Second (computeTarget First x)
  | JoinEdgeFunction Seed OtherEF =>
      (fix go (Val : L) (efs : list EF) : L :=
        match efs with
        | [] => Val
        | ef :: efs =>
            let Val := join Val (computeTarget ef x) in
            if decide (Val = bottom) then Val else go Val efs
        end) Seed OtherEF
  | UserEF u => user_computeTarget u x
  end.

(** [defaultComposeOrNull(EdgeFunctionRef<ConcreteEF>, ...)]. *)
Definition defaultComposeOrNull_ref This SecondFunction : option EF :=
  if isa_EdgeIdentity SecondFunction then Some This
  else if isConstant SecondFunction then Some SecondFunction
  else None.

End evaluation.

Section operations.
Context {L V U : Type} `{EqDecision L, EqDecision V, EqDecision U}.
Context `{JoinLatticeTraits L, NonTopBotValue L V} {targets : UserTargets L U}.
Context `{!UserEdgeFunctions L V U}.
Abbreviation EF := (EdgeFunction L V U).
Implicit Types (f g This SecondFunction OtherFunction : EF) (x : L).

(** Compile-time parameters: the bound of [JoinEdgeFunction<L, N>], the
    comparison [operator<] of [EdgeFunction], and
    [EdgeFunctionBase::IsSOOCandidate<ConstantEdgeFunction>]. *)
Context (N : nat) (ef_ltb : EF → EF → bool) (IsSOOCandidate : bool).

(** ** Composition *)

(** [AllBottom::compose]. *)
Definition AllBottom_compose SecondFunction : Outcome EF :=
  if isConstant SecondFunction then Returns SecondFunction
  else
    let ConstVal := computeTarget SecondFunction bottom in
    if decide (ConstVal = bottom) then Returns AllBottom
    else v <-? get_or_throw (unwrap ConstVal); Returns (ConstantEdgeFunction v).

(** [AllTop::compose]. *)
Definition AllTop_compose SecondFunction : EF :=
  if isConstant SecondFunction then SecondFunction else AllTop.

(** [ConstantEdgeFunction::compose]. *)
Definition ConstantEdgeFunction_compose (v : V) SecondFunction : Outcome EF :=
  let This := ConstantEdgeFunction v in
  match defaultComposeOrNull_ref This SecondFunction with
  | Some Default => Returns Default
  | None =>
      let ConstVal := computeTarget SecondFunction (wrap v) in
      if negb IsSOOCandidate && bool_decide (ConstVal = wrap v) then Returns This
      else if decide (bottom = ConstVal) then Returns AllBottom
      else if decide (top = ConstVal) then Returns AllTop
      else w <-? get_or_throw (unwrap ConstVal); Returns (ConstantEdgeFunction w)
  end.

(** [EdgeFunction::composeWith]. *)
Fixpoint compose This SecondFunction {struct This} : Outcome EF :=
  match This with
  | EdgeIdentity => Returns SecondFunction
  | ConstantEdgeFunction v => ConstantEdgeFunction_compose v SecondFunction
  | AllBottom => AllBottom_compose SecondFunction
  | AllTop => Returns (AllTop_compose SecondFunction)
  | EdgeFunctionComposer _ First Second =>
      match defaultComposeOrNull_ref This SecondFunction with
      | Some Default => Returns Default
      | None => Inner <-? compose Second SecondFunction; compose First Inner
      end
  | JoinEdgeFunction _ _ =>
      match defaultComposeOrNull_ref This SecondFunction with
      | Some Default => Returns Default
      | None =>
          Returns (EdgeFunctionComposer DefaultJoinEdgeFunctionComposer This SecondFunction)
      end
  | UserEF u => user_compose u SecondFunction
  end.

(** [defaultComposeOrNull(const EdgeFunction<L> &, ...)]: the overload on two
    type-erased functions. *)
Definition defaultComposeOrNull This SecondFunction : Outcome (option EF) :=
  if isa_EdgeIdentity SecondFunction then Returns (Some This)
  else if isConstant SecondFunction || isa_EdgeIdentity This then Returns (Some SecondFunction)
  else if isa_AllTop This then Returns (Some This)
  else if isa_AllBottom This then
    (f <-? AllBottom_compose SecondFunction; Returns (Some f))
  else Returns None.

(** ** Join *)

(** The lambda [GetEFArrayAndSeed] of [JoinEdgeFunction::create]. *)
Definition getEFArrayAndSeed f : list EF * L :=
  match f with
  | JoinEdgeFunction Seed OtherEF => (OtherEF, Seed)
  | _ => ([f], top)
  end.

(** [JoinEdgeFunction::create]. *)
Definition JoinEdgeFunction_create LHS RHS : EF :=
  let '(LVec, LSeed) := getEFArrayAndSeed LHS in
  let '(RVec, RSeed) := getEFArrayAndSeed RHS in
  let JoinSeed := join LSeed RSeed in
  if decide (JoinSeed = bottom) then AllBottom
  else
    let JoinVec := set_union ef_ltb LVec RVec in
    if decide (N < length JoinVec) then AllBottom
    else JoinEdgeFunction JoinSeed JoinVec.

(** [defaultJoinOrNull<L, n>(EdgeFunctionRef<ConcreteEF>, ...)], where [L]
    has [JoinLatticeTraits]. *)
Definition defaultJoinOrNull_ref (n : nat) This OtherFunction : option EF :=
  if isa_AllBottom OtherFunction then Some OtherFunction
  else if isa_AllTop OtherFunction || bool_decide (OtherFunction = This) then Some This
  else if isa_EdgeIdentity OtherFunction then
    if decide (0 < n) then Some (JoinEdgeFunction_create This OtherFunction)
    else Some AllBottom
  else None.

(** [defaultJoinOrNull<L, n>(const EdgeFunction<L> &, ...)]. *)
Definition defaultJoinOrNull (n : nat) This OtherFunction : option EF :=
  if isa_AllBottom OtherFunction || isa_AllTop This then Some OtherFunction
  else if isa_AllTop OtherFunction || bool_decide (OtherFunction = This) || isa_AllBottom This
  then Some This
  else if isa_EdgeIdentity OtherFunction then
    if decide (0 < n) then Some (JoinEdgeFunction_create This OtherFunction)
    else Some AllBottom
  else None.

(** [EdgeFunctionComposer]'s joins. *)
Definition Composer_join (k : ComposerKind) First Second OtherFunction : Outcome EF :=
  let This := EdgeFunctionComposer k First Second in
  match k with
  | DefaultJoinEdgeFunctionComposer =>
      if isa_AllBottom OtherFunction then Returns OtherFunction
      else if isa_AllTop OtherFunction || bool_decide (OtherFunction = This) then Returns This
      else Returns (JoinEdgeFunction_create This OtherFunction)
  | DerivedComposer => derived_composer_join First Second OtherFunction
  end.

(** [JoinEdgeFunction::join]. *)
Definition JoinEdgeFunction_join (Seed : L) (OtherEF : list EF) OtherFunction : EF :=
  let This := JoinEdgeFunction Seed OtherEF in
  match defaultJoinOrNull_ref N This OtherFunction with
  | Some Default => Default
  | None => JoinEdgeFunction_create This OtherFunction
  end.

(** [ConstantEdgeFunction::join]; [ask] is the dispatch
    [OtherFunction.joinWith(This)] for a function that is not constant. *)
Definition ConstantEdgeFunction_join (ask : EF → EF → Outcome EF) (v : V) OtherFunction :
    Outcome EF :=
  let This := ConstantEdgeFunction v in
  match defaultJoinOrNull_ref 0 This OtherFunction with
  | Some Default => Returns Default
  | None =>
      if isa_EdgeIdentity OtherFunction then Returns AllBottom
      else if negb (isConstant OtherFunction) then ask OtherFunction This
      else
        let OtherVal := computeTarget OtherFunction bottom in
        let JoinedVal := join (wrap v) OtherVal in
        if decide (bottom = JoinedVal) then Returns AllBottom
        else if negb IsSOOCandidate && bool_decide (JoinedVal = OtherVal) then
          Returns OtherFunction
        else if negb IsSOOCandidate && bool_decide (JoinedVal = wrap v) then Returns This
        else w <-? get_or_throw (unwrap JoinedVal); Returns (ConstantEdgeFunction w)
  end.

(** The functions whose join asks no other function. *)
Definition join_leaf This OtherFunction : Outcome EF :=
  match This with
  | AllBottom => Returns This
  | AllTop => Returns OtherFunction
  | EdgeFunctionComposer k First Second => Composer_join k First Second OtherFunction
  | JoinEdgeFunction Seed OtherEF => Returns (JoinEdgeFunction_join Seed OtherEF OtherFunction)
  | UserEF u => user_join u OtherFunction
  | EdgeIdentity | ConstantEdgeFunction _ => Returns This
  end.

(** [EdgeIdentity::join]. *)
Definition EdgeIdentity_join (ask : EF → EF → Outcome EF) OtherFunction : Outcome EF :=
  if isa_EdgeIdentity OtherFunction || isa_AllTop OtherFunction then Returns EdgeIdentity
  else if isa_AllBottom OtherFunction then Returns OtherFunction
  else ask OtherFunction EdgeIdentity.

(** [EdgeFunction::joinWith]. [EdgeIdentity] asks the other function, which
    may be a constant; a constant asks only functions that are neither. *)
Definition joinWith This OtherFunction : Outcome EF :=
  let join_const v g := ConstantEdgeFunction_join join_leaf v g in
  let ask f g :=
    match f with ConstantEdgeFunction v => join_const v g | _ => join_leaf f g end in
  match This with
  | EdgeIdentity => EdgeIdentity_join ask OtherFunction
  | ConstantEdgeFunction v => join_const v OtherFunction
  | _ => join_leaf This OtherFunction
  end.

(** [EdgeFunction::depth] / [EdgeFunctionComposer::depth]. *)
Fixpoint depth f : nat :=
  match f with
  | EdgeFunctionComposer _ First Second => depth First + depth Second
  | _ => 1
  end.
End operations.

(** * Laws of the analysis' own edge functions *)

Class UserComposeLaws (L V U : Type)
    `{JoinLatticeTraits L, EqDecision L, NonTopBotValue L V, UserTargets L U,
      !UserEdgeFunctions L V U} : Prop := {
  user_constant (u : U) (x y : L) :
    user_isConstant u = true → user_computeTarget u x = user_computeTarget u y;
  user_compose_sound (u : U) (g h : EdgeFunction L V U) :
    user_compose u g = Returns h →
    ∀ x, computeTarget h x = computeTarget g (user_computeTarget u x)
}.

Class UserJoinLaws (L V U : Type)
    `{JoinLatticeTraits L, EqDecision L, NonTopBotValue L V, UserTargets L U,
      !UserEdgeFunctions L V U} : Prop := {
  user_join_ub (u : U) (g h : EdgeFunction L V U) :
    user_join u g = Returns h →
    ∀ x, user_computeTarget u x ⊑ₗ computeTarget h x ∧ computeTarget g x ⊑ₗ computeTarget h x;
  derived_join_ub (f1 f2 g h : EdgeFunction L V U) :
    derived_composer_join f1 f2 g = Returns h →
    ∀ x, computeTarget f2 (computeTarget f1 x) ⊑ₗ computeTarget h x ∧
         computeTarget g x ⊑ₗ computeTarget h x
}.

(** An analysis without edge functions of its own. *)
#[export] Instance NoUserTargets {L} : UserTargets L Empty_set := {|
  user_computeTarget (u : Empty_set) := match u with end;
  user_isConstant (u : Empty_set) := match u with end
|}.
#[export] Instance NoUserEdgeFunctions {L V} : UserEdgeFunctions L V Empty_set := {|
  user_compose (u : Empty_set) := match u with end;
  user_join (u : Empty_set) := match u with end;
  derived_composer_join _ _ _ := Returns AllBottom
|}.

Section set_union.
Context {A : Type} (lt : A → A → bool).

Lemma set_union_sub l1 l2 x : x ∈ set_union lt l1 l2 → x ∈ l1 ∨ x ∈ l2.
Proof.
  revert l2. induction l1 as [|a l1 IH1]; intros l2.
  { destruct l2; simpl; auto. }
  induction l2 as [|b l2 IH2]; simpl; [auto|].
  repeat case_match; rewrite !elem_of_cons; intros [->|Hx]; auto.
  - apply IH2 in Hx. rewrite elem_of_cons in Hx. tauto.
  - apply IH1 in Hx. rewrite ?elem_of_cons in Hx. tauto.
  - apply IH1 in Hx. rewrite ?elem_of_cons in Hx. tauto.
Qed.

Hypothesis lt_connected : ∀ x y, lt x y = false → lt y x = false → x = y.

(** Nothing is lost, whether or not the ranges are sorted. *)
Lemma set_union_elem l1 l2 x : x ∈ set_union lt l1 l2 ↔ x ∈ l1 ∨ x ∈ l2.
Proof.
  split; [apply set_union_sub|]. revert l2. induction l1 as [|a l1 IH1]; intros l2.
  { destruct l2; simpl; set_solver. }
  induction l2 as [|b l2 IH2]; simpl; [set_solver|].
  repeat case_match; rewrite !elem_of_cons.
  - rewrite elem_of_cons in IH2. tauto.
  - intros [[->|Hx]|Hx]; auto; right; apply IH1; rewrite ?elem_of_cons; tauto.
  - assert (a = b) as <- by (by apply lt_connected).
    intros [[->|Hx]|[->|Hx]]; auto.
Qed.
End set_union.

Section laws.
Context {L V U : Type} `{EqDecision L, EqDecision V, EqDecision U}.
Context `{JoinLatticeLaws L, !NonTopBotValue L V, !NonTopBotValueLaws L V}.
Context {targets : UserTargets L U} `{!UserEdgeFunctions L V U}.
Context `{!UserComposeLaws L V U, !UserJoinLaws L V U}.
Abbreviation EF := (EdgeFunction L V U).
Context (N : nat) (ef_ltb : EF → EF → bool) (IsSOOCandidate : bool).
Implicit Types (f g h : EF) (x y : L).

Abbreviation compose := (compose IsSOOCandidate).
Abbreviation joinWith := (joinWith N ef_ltb IsSOOCandidate).

(** [isConstant] keeps its documented promise. *)
Lemma isConstant_spec f x y : isConstant f = true → computeTarget f x = computeTarget f y.
Proof. destruct f; simpl; try done. apply user_constant. Qed.

(** The loop of [JoinEdgeFunction::computeTarget], stopping early at
    [bottom], computes the join of all the members. *)
Lemma JoinEdgeFunction_computeTarget s (fs : list EF) x :
  computeTarget (JoinEdgeFunction s fs) x = foldl join s ((λ f, computeTarget f x) <$> fs).
Proof.
  simpl. revert s. induction fs as [|f fs IH]; intros s; simpl; [done|].
  rewrite IH. case_decide as Hb; [|done]. rewrite Hb. symmetry.
  apply bottom_le_inv, foldl_join_ub_acc.
Qed.

(** ** Composition *)

Lemma defaultComposeOrNull_ref_sound f g h x :
  defaultComposeOrNull_ref f g = Some h → computeTarget h x = computeTarget g (computeTarget f x).
Proof.
  unfold defaultComposeOrNull_ref. intros. repeat case_match; simplify_eq.
  - by destruct g.
  - by apply isConstant_spec.
Qed.

Lemma AllBottom_compose_sound g h x :
  AllBottom_compose g = Returns h → computeTarget h x = computeTarget g bottom.
Proof.
  unfold AllBottom_compose. case_match; [intros; simplify_eq; by apply isConstant_spec|].
  case_decide as Hb; [by intros; simplify_eq|].
  destruct (unwrap _) as [v|] eqn:Hu; simpl; intros; simplify_eq/=. by apply wrap_unwrap.
Qed.

Lemma ConstantEdgeFunction_compose_sound v g h x :
  ConstantEdgeFunction_compose IsSOOCandidate v g = Returns h →
  computeTarget h x = computeTarget g (wrap v).
Proof.
  unfold ConstantEdgeFunction_compose.
  destruct (defaultComposeOrNull_ref _ g) as [d|] eqn:Hd.
  { intros; simplify_eq. by apply (defaultComposeOrNull_ref_sound _ _ _ x) in Hd. }
  case_match eqn:Hsame.
  { apply andb_prop in Hsame as [_ Hsame%bool_decide_eq_true]. by intros; simplify_eq. }
  destruct (decide (bottom = _)) as [Hb|_]; [intros [= <-]; exact Hb|].
  destruct (decide (top = _)) as [Ht|_]; [intros [= <-]; exact Ht|].
  destruct (unwrap _) as [w|] eqn:Hu; simpl; intros; simplify_eq/=. by apply wrap_unwrap.
Qed.

(** No [AllTop] at the front of the function: [AllTop] is the marker of an
    unreached edge, never a function a path starts with. *)
Fixpoint starts_reached f : bool :=
  match f with
  | AllTop => false
  | EdgeFunctionComposer _ f1 f2 => starts_reached f1 && starts_reached f2
  | _ => true
  end.

Lemma compose_sound f g h x :
  starts_reached f = true → compose f g = Returns h →
  computeTarget h x = computeTarget g (computeTarget f x).
Proof.
  revert g h x. induction f as [|v| | |k f1 f2 IH1 IH2|s fs _|u] using EdgeFunction_ind';
    intros g h x Hr Hc; simpl in Hr.
  - by simplify_eq/=.
  - by apply ConstantEdgeFunction_compose_sound with (x := x) in Hc.
  - by apply AllBottom_compose_sound with (x := x) in Hc.
  - done.
  - apply andb_prop in Hr as [Hr1 Hr2]. simpl in Hc.
    destruct (defaultComposeOrNull_ref _ g) as [d|] eqn:Hd.
    { simplify_eq. by apply (defaultComposeOrNull_ref_sound _ _ _ x) in Hd. }
    apply outcome_bind_Returns in Hc as (i & Hi & Hc).
    rewrite (IH1 _ _ _ Hr1 Hc), (IH2 _ _ _ Hr2 Hi). done.
  - simpl in Hc. destruct (defaultComposeOrNull_ref _ g) as [d|] eqn:Hd; simplify_eq.
    + by apply (defaultComposeOrNull_ref_sound _ _ _ x) in Hd.
    + done.
  - by apply (user_compose_sound u g h Hc x).
Qed.

(** [AllTop::compose] is exact for the functions that keep [top], and for the
    constant ones. *)
Lemma AllTop_compose_exact g x :
  isConstant g = true ∨ computeTarget g top = top ↔
  computeTarget (AllTop_compose g) x = computeTarget g (computeTarget (AllTop : EF) x).
Proof.
  unfold AllTop_compose. destruct (isConstant g) eqn:Hc; simpl; split.
  - intros _. by apply isConstant_spec.
  - by left.
  - by intros [|].
  - by right.
Qed.

(** ** No exception *)

Context `{!NonTopValueLaws L V}.

(** The function maps no reached value to [top]. *)
Definition keeps_reached f : Prop := ∀ x, x ≠ top → computeTarget f x ≠ top.

Lemma compose_unwrap_defined g x :
  keeps_reached g → x ≠ top → computeTarget g x ≠ bottom →
  is_Some (unwrap (computeTarget g x)).
Proof.
  intros Hk Hx Hb. destruct (unwrap _) eqn:Hu; [done|].
  apply unwrap_None in Hu as [Ht|]; [|done]. by apply Hk in Ht.
Qed.

(** Built from the framework's own edge functions, each of which maps no
    reached value to [top]. *)
Fixpoint composes_without_throw f : Prop :=
  match f with
  | EdgeFunctionComposer _ f1 f2 => composes_without_throw f1 ∧ composes_without_throw f2
  | UserEF _ | AllTop => False
  | _ => keeps_reached f
  end.

Lemma composes_without_throw_keeps f : composes_without_throw f → keeps_reached f.
Proof.
  induction f as [|v| | |k f1 f2 IH1 IH2|s fs _|u] using EdgeFunction_ind'; simpl; try done.
  intros [H1 H2] x Hx. simpl. apply IH2, IH1; done.
Qed.

Lemma composes_without_throw_reached f : composes_without_throw f → starts_reached f = true.
Proof.
  induction f as [|v| | |k f1 f2 IH1 IH2|s fs _|u] using EdgeFunction_ind'; simpl; try done.
  intros [H1 H2]. by rewrite IH1, IH2.
Qed.

Lemma compose_returns f g :
  bottom (L := L) ≠ top → composes_without_throw f → keeps_reached g →
  ∃ h, compose f g = Returns h.
Proof.
  intros Hbt. revert g. induction f as [|v| | |k f1 f2 IH1 IH2|s fs _|u]
    using EdgeFunction_ind'; intros g Hf Hg; simpl in *; try done; eauto.
  - unfold ConstantEdgeFunction_compose. repeat (case_match; eauto).
    destruct (compose_unwrap_defined g (wrap v)) as [w Hw]; eauto using wrap_not_top.
    rewrite Hw. simpl. eauto.
  - unfold AllBottom_compose. repeat (case_match; eauto).
    destruct (compose_unwrap_defined g bottom) as [w Hw]; eauto. rewrite Hw. simpl. eauto.
  - destruct Hf as [Hf1 Hf2]. case_match; [by eauto|].
    destruct (IH2 g Hf2 Hg) as [i Hi]. rewrite Hi. simpl. apply IH1; [done|].
    intros x Hx. rewrite (compose_sound f2 g i x); [|by apply composes_without_throw_reached|done].
    by apply Hg, composes_without_throw_keeps.
  - case_match; eauto.
Qed.

(** The exception: [AllBottom] composed with a function that maps [bottom] to
    [top]. *)
Lemma AllBottom_compose_throws g :
  bottom (L := L) ≠ top →
  isConstant g = false → computeTarget g bottom = top → compose AllBottom g = Throws.
Proof.
  intros Hbt Hc Ht. simpl. unfold AllBottom_compose. rewrite Hc, Ht.
  rewrite decide_False by congruence.
  destruct (unwrap top) as [w|] eqn:Hu; [|done].
  apply wrap_unwrap in Hu. by apply wrap_not_top in Hu.
Qed.

(** ** Join *)

Hypothesis ef_ltb_connected : ∀ f g, ef_ltb f g = false → ef_ltb g f = false → f = g.

(** [h] is above both [f] and [g]: the contract documented for [joinWith]. *)
Definition ef_ub f g h : Prop :=
  ∀ x, computeTarget f x ⊑ₗ computeTarget h x ∧ computeTarget g x ⊑ₗ computeTarget h x.

Lemma ef_ub_sym f g h : ef_ub f g h → ef_ub g f h.
Proof. intros Hub x. destruct (Hub x). done. Qed.

Lemma ef_ub_bottom f g : ef_ub f g AllBottom.
Proof. intros x. auto with phasar_lattice. Qed.

Lemma ef_ub_refl f : ef_ub f f f.
Proof. done. Qed.

Lemma ef_ub_top_r f : ef_ub f AllTop f.
Proof. intros x. auto with phasar_lattice. Qed.

Lemma getEFArrayAndSeed_spec f x :
  computeTarget f x ⊑ₗ
    foldl join (getEFArrayAndSeed f).2 ((λ e, computeTarget e x) <$> (getEFArrayAndSeed f).1).
Proof.
  destruct f as [| | | | |s fs|]; cbn [getEFArrayAndSeed fst snd];
    [..|by rewrite <- JoinEdgeFunction_computeTarget|]; simpl; by autorewrite with phasar_lattice_eqs.
Qed.

Lemma JoinEdgeFunction_create_ub f g : ef_ub f g (JoinEdgeFunction_create N ef_ltb f g).
Proof.
  unfold JoinEdgeFunction_create.
  destruct (getEFArrayAndSeed f) as [fs s] eqn:Hf.
  destruct (getEFArrayAndSeed g) as [gs t] eqn:Hg.
  case_decide; [apply ef_ub_bottom|]. case_decide; [apply ef_ub_bottom|].
  intros x. pose proof (getEFArrayAndSeed_spec f x) as Hfx.
  pose proof (getEFArrayAndSeed_spec g x) as Hgx. rewrite Hf in Hfx. rewrite Hg in Hgx.
  simpl in Hfx, Hgx. rewrite JoinEdgeFunction_computeTarget.
  split; (etrans; [eassumption|]); apply foldl_join_lub; split.
  - etrans; [apply (join_ub_l s t) | apply foldl_join_ub_acc].
  - intros a (e & -> & He)%list_elem_of_fmap. apply foldl_join_ub, list_elem_of_fmap.
    exists e. split; [done|]. apply set_union_elem; auto.
  - etrans; [apply (join_ub_r s t) | apply foldl_join_ub_acc].
  - intros a (e & -> & He)%list_elem_of_fmap. apply foldl_join_ub, list_elem_of_fmap.
    exists e. split; [done|]. apply set_union_elem; auto.
Qed.

Lemma defaultJoinOrNull_ref_ub n f g h :
  defaultJoinOrNull_ref N ef_ltb n f g = Some h → ef_ub f g h.
Proof.
  unfold defaultJoinOrNull_ref. intros Hd.
  destruct (isa_AllBottom g) eqn:Hb; simplify_eq/=.
  { destruct h; try done. apply ef_ub_bottom. }
  destruct (isa_AllTop g) eqn:Ht; simplify_eq/=.
  { destruct g; try done. apply ef_ub_top_r. }
  case_bool_decide; simplify_eq; [apply ef_ub_refl|].
  destruct (isa_EdgeIdentity g); [|done]. case_decide; simplify_eq.
  - apply JoinEdgeFunction_create_ub.
  - apply ef_ub_bottom.
Qed.

Lemma Composer_join_ub k f1 f2 g h :
  Composer_join N ef_ltb k f1 f2 g = Returns h → ef_ub (EdgeFunctionComposer k f1 f2) g h.
Proof.
  destruct k; unfold Composer_join; [|intros Hj x; by apply (derived_join_ub f1 f2 g h)].
  destruct (isa_AllBottom g) eqn:Hb.
  { intros; simplify_eq. destruct h; try done. apply ef_ub_bottom. }
  destruct (isa_AllTop g) eqn:Ht; simpl.
  { intros; simplify_eq. destruct g; try done. apply ef_ub_top_r. }
  case_bool_decide; intros; simplify_eq; [apply ef_ub_refl|].
  apply JoinEdgeFunction_create_ub.
Qed.

Lemma JoinEdgeFunction_join_ub s fs g :
  ef_ub (JoinEdgeFunction s fs) g (JoinEdgeFunction_join N ef_ltb s fs g).
Proof.
  unfold JoinEdgeFunction_join. case_match eqn:Hd.
  - by apply defaultJoinOrNull_ref_ub in Hd.
  - apply JoinEdgeFunction_create_ub.
Qed.

Lemma join_leaf_ub f g h :
  match f with EdgeIdentity | ConstantEdgeFunction _ => False | _ => True end →
  join_leaf N ef_ltb f g = Returns h → ef_ub f g h.
Proof.
  destruct f; simpl; intros Hf Hj; try done; simplify_eq.
  - intros x. auto with phasar_lattice.
  - apply ef_ub_sym, ef_ub_top_r.
  - by apply Composer_join_ub.
  - apply JoinEdgeFunction_join_ub.
  - intros x. by apply (user_join_ub u g h).
Qed.

Lemma ConstantEdgeFunction_join_ub v g h :
  ConstantEdgeFunction_join N ef_ltb IsSOOCandidate (join_leaf N ef_ltb) v g = Returns h →
  ef_ub (ConstantEdgeFunction v) g h.
Proof.
  unfold ConstantEdgeFunction_join.
  destruct (defaultJoinOrNull_ref _ _ _ _ g) as [d|] eqn:Hd.
  { intros; simplify_eq. by apply defaultJoinOrNull_ref_ub in Hd. }
  destruct (isa_EdgeIdentity g) eqn:Hid.
  { intros; simplify_eq. apply ef_ub_bottom. }
  destruct (isConstant g) eqn:Hc; simpl.
  2:{ intros Hj. apply ef_ub_sym, join_leaf_ub; [by destruct g|done]. }
  assert (∀ x, computeTarget g x = computeTarget g bottom) as Hg.
  { intros x. by apply isConstant_spec. }
  destruct (decide (bottom = _)) as [Hb|_]; [intros; simplify_eq; apply ef_ub_bottom|].
  case_match eqn:Hs1.
  { apply andb_prop in Hs1 as [_ Hs1%bool_decide_eq_true]. intros; simplify_eq.
    intros x. split; [|done]. simpl. rewrite (Hg x), <- Hs1. apply join_ub_l. }
  case_match eqn:Hs2.
  { apply andb_prop in Hs2 as [_ Hs2%bool_decide_eq_true]. intros; simplify_eq.
    intros x. split; [done|]. simpl. rewrite (Hg x), <- Hs2. apply join_ub_r. }
  destruct (unwrap _) as [w|] eqn:Hu; simpl; intros; simplify_eq.
  apply wrap_unwrap in Hu. intros x. simpl. rewrite Hu, (Hg x).
  auto with phasar_lattice.
Qed.

Lemma joinWith_ub f g h : joinWith f g = Returns h → ef_ub f g h.
Proof.
  destruct f as [|v| | |k f1 f2|s fs|u]; unfold joinWith.
  - unfold EdgeIdentity_join. destruct g as [|v| | |k f1 f2|s fs|u]; cbn -[ConstantEdgeFunction_join join_leaf]; intros Hj; simplify_eq.
    + apply ef_ub_refl.
    + by apply ef_ub_sym, ConstantEdgeFunction_join_ub.
    + apply ef_ub_bottom.
    + apply ef_ub_top_r.
    + by apply ef_ub_sym, join_leaf_ub.
    + by apply ef_ub_sym, join_leaf_ub.
    + by apply ef_ub_sym, join_leaf_ub.
  - apply ConstantEdgeFunction_join_ub.
  - by apply join_leaf_ub.
  - by apply join_leaf_ub.
  - by apply join_leaf_ub.
  - by apply join_leaf_ub.
  - by apply join_leaf_ub.
Qed.

(** ** The size bound of [JoinEdgeFunction<L, N>] *)

Fixpoint join_bounded f : bool :=
  match f with
  | JoinEdgeFunction _ fs => bool_decide (length fs ≤ N)
  | EdgeFunctionComposer _ f1 f2 => join_bounded f1 && join_bounded f2
  | _ => true
  end.

Lemma JoinEdgeFunction_create_bounded f g :
  join_bounded (JoinEdgeFunction_create N ef_ltb f g) = true.
Proof.
  unfold JoinEdgeFunction_create.
  destruct (getEFArrayAndSeed f), (getEFArrayAndSeed g). repeat (case_decide; [done|]).
  simpl. apply bool_decide_eq_true. lia.
Qed.
End laws.
