(* ===== verification/Table.v ===== *)
(** [Table<R, C, V>] (Utils/Table.h): a two-level hash map.

    [std::unordered_map] is a [gmap]; the iteration order of the C++ map is
    unspecified, and the order of [cellVec] below stands for any order. The
    state of a table is returned by the operations that change it; [get] on a
    mutable table inserts the default value when the cell is missing, as
    [operator[]] of the map does. *)
From S2P Require Import Prelude.

Notation Table R C V := (gmap R (gmap C V)).

Module Table.
Section ops.
Context {R C V : Type} `{Countable R, Countable C}.
Implicit Types (t : Table R C V) (r : R) (c : C) (v : V).

(** The row of a key, [Tab[r]] without the insertion. *)
Definition row t r : gmap C V := default ∅ (t !! r).

Definition lookup t r c : option V := t !! r ≫= λ m, m !! c.

(** [insert(Row, Column, Val)]: [Tab[Row][Column] = Val]. *)
Definition insert t r c v : Table R C V := <[r := <[c := v]> (row t r)]> t.

Definition clear (_ : Table R C V) : Table R C V := ∅.

Definition contains t r c : bool :=
  match t !! r with
  | Some m => bool_decide (is_Some (m !! c))
  | None => false
  end.

Definition containsRow t r : bool := bool_decide (is_Some (t !! r)).

Definition containsColumn t c : bool :=
  existsb (λ kv, bool_decide (is_Some (kv.2 !! c))) (map_to_list t).

(** [V &get(R, C)] on a mutable table: the value, and the table in which the
    cell exists. *)
Definition get (dflt : V) t r c : V * Table R C V :=
  match lookup t r c with
  | Some v => (v, t)
  | None => (dflt, insert t r c dflt)
  end.

(** [get(R, C) const], [getOrDefault] and [tryGet]. *)
Definition getOrDefault (dflt : V) t r c : V :=
  match t !! r with
  | None => dflt
  | Some m => match m !! c with None => dflt | Some v => v end
  end.

Definition tryGet t r c : option V :=
  match t !! r with
  | None => None
  | Some m => match m !! c with None => None | Some v => Some v end
  end.

(** Assignment through the reference [get] returns. *)
Definition update (dflt : V) (f : V → V) t r c : Table R C V :=
  let '(v, t') := get dflt t r c in insert t' r c (f v).

(** [V remove(R, C)]: the removed value; an emptied row is erased. *)
Definition remove (dflt : V) t r c : V * Table R C V :=
  match t !! r with
  | None => (dflt, t)
  | Some m =>
      match m !! c with
      | None => (dflt, t)
      | Some v =>
          let m' := delete c m in
          (v, if decide (m' = ∅) then delete r t else <[r := m']> t)
      end
  end.

Definition removeRow t r : Table R C V := delete r t.

(** [cellSet], [cellVec] and [foreachCell]: all the cells. *)
Definition cellVec t : list (R * C * V) :=
  '(r, m) ← map_to_list t; '(c, v) ← map_to_list m; [(r, c, v)].

(** [column(c)]. *)
Definition column t c : gmap R V := omap (λ m : gmap C V, m !! c) t.
End ops.
End Table.

Section facts.
Import Table.
Context {R C V : Type} `{Countable R, Countable C}.
Implicit Types (t : Table R C V) (r : R) (c : C) (v d : V).

Lemma table_lookup_insert t r c v r' c' :
  Table.lookup (Table.insert t r c v) r' c' =
    if decide (r = r' ∧ c = c') then Some v else Table.lookup t r' c'.
Proof.
  unfold Table.lookup, Table.insert, Table.row.
  destruct (decide (r = r')) as [<-|Hr].
  - rewrite lookup_insert_eq. simpl. destruct (decide (c = c')) as [<-|Hc].
    + rewrite lookup_insert_eq, decide_True; done.
    + rewrite lookup_insert_ne, decide_False by naive_solver. by destruct (t !! r).
  - rewrite lookup_insert_ne, decide_False by naive_solver. done.
Qed.

Lemma table_lookup_insert_eq t r c v : Table.lookup (Table.insert t r c v) r c = Some v.
Proof. by rewrite table_lookup_insert, decide_True. Qed.

Lemma table_lookup_insert_ne t r c v r' c' :
  (r, c) ≠ (r', c') → Table.lookup (Table.insert t r c v) r' c' = Table.lookup t r' c'.
Proof. intros. rewrite table_lookup_insert, decide_False; naive_solver. Qed.

Lemma table_lookup_empty r c : Table.lookup (∅ : Table R C V) r c = None.
Proof. unfold Table.lookup. by rewrite lookup_empty. Qed.

Lemma table_contains_spec t r c : Table.contains t r c = bool_decide (is_Some (Table.lookup t r c)).
Proof. unfold Table.contains, Table.lookup. by destruct (t !! r). Qed.

Lemma table_getOrDefault_spec d t r c : Table.getOrDefault d t r c = default d (Table.lookup t r c).
Proof. unfold Table.getOrDefault, Table.lookup. destruct (t !! r) as [m|]; simpl; [by destruct (m !! c)|done]. Qed.

Lemma table_tryGet_spec t r c : Table.tryGet t r c = Table.lookup t r c.
Proof. unfold Table.tryGet, Table.lookup. destruct (t !! r) as [m|]; simpl; [by destruct (m !! c)|done]. Qed.

Lemma table_get_spec d t r c :
  (Table.get d t r c).1 = default d (Table.lookup t r c) ∧
  ∀ r' c', Table.lookup (Table.get d t r c).2 r' c' =
    if decide (r = r' ∧ c = c') then Some (default d (Table.lookup t r c))
    else Table.lookup t r' c'.
Proof.
  unfold Table.get. destruct (Table.lookup t r c) eqn:Hl; simpl; (split; [done|]); intros r' c'.
  - case_decide as He; [|done]. by destruct He as [<- <-].
  - apply table_lookup_insert.
Qed.

Lemma table_lookup_update d f t r c r' c' :
  Table.lookup (Table.update d f t r c) r' c' =
    if decide (r = r' ∧ c = c') then Some (f (default d (Table.lookup t r c)))
    else Table.lookup t r' c'.
Proof.
  unfold Table.update. destruct (table_get_spec d t r c) as [Hv Ht].
  destruct (Table.get d t r c) as [v t']. simpl in *. subst v.
  rewrite table_lookup_insert, Ht. by case_decide.
Qed.

Lemma table_remove_spec d t r c :
  (Table.remove d t r c).1 = default d (Table.lookup t r c) ∧
  ∀ r' c', Table.lookup (Table.remove d t r c).2 r' c' =
    if decide (r = r' ∧ c = c') then None else Table.lookup t r' c'.
Proof.
  unfold Table.remove, Table.lookup. destruct (t !! r) as [m|] eqn:Hr; simpl.
  2:{ split; [done|]. intros r' c'. case_decide as He; [|done]. destruct He as [<- <-]. by rewrite Hr. }
  destruct (m !! c) as [v|] eqn:Hc; simpl.
  2:{ split; [done|]. intros r' c'. case_decide as He; [|done]. destruct He as [<- <-]. by rewrite Hr. }
  split; [done|]. intros r' c'. destruct (decide (delete c m = ∅)) as [Hm|Hm].
  - destruct (decide (r = r')) as [<-|Hne].
    + rewrite lookup_delete_eq, Hr. simpl. case_decide as He; [done|].
      symmetry. rewrite <- (lookup_delete_ne m c c') by naive_solver. by rewrite Hm, lookup_empty.
    + rewrite lookup_delete_ne, decide_False by naive_solver. done.
  - destruct (decide (r = r')) as [<-|Hne].
    + rewrite lookup_insert_eq, Hr. simpl. rewrite lookup_delete.
      repeat case_decide; naive_solver.
    + rewrite lookup_insert_ne, decide_False by naive_solver. done.
Qed.

Lemma table_removeRow_spec t r r' c' :
  Table.lookup (Table.removeRow t r) r' c' = if decide (r = r') then None else Table.lookup t r' c'.
Proof. unfold Table.removeRow, Table.lookup. rewrite lookup_delete. by case_decide. Qed.

(** A row that survives the removal of one of its cells has another cell. *)
Lemma table_remove_row d t r c v :
  Table.lookup t r c = Some v → Table.containsRow (Table.remove d t r c).2 r = true →
  ∃ c0, Table.contains (Table.remove d t r c).2 r c0 = true.
Proof.
  intros Hl. apply bind_Some in Hl as (m & Hr & Hc). unfold Table.remove. rewrite Hr, Hc. simpl.
  unfold Table.containsRow, Table.contains.
  destruct (decide (delete c m = ∅)) as [Hm|Hm].
  - rewrite lookup_delete_eq. rewrite bool_decide_eq_true. by intros [? [=]].
  - intros _. rewrite lookup_insert_eq. destruct (map_choose _ Hm) as (c0 & w & Hc0).
    exists c0. apply bool_decide_eq_true. by exists w.
Qed.

Lemma table_cellVec_elem t r c v : (r, c, v) ∈ Table.cellVec t ↔ Table.lookup t r c = Some v.
Proof.
  unfold Table.cellVec, Table.lookup. split.
  - intros ([r' m] & Hm & Hrm)%list_elem_of_bind. apply elem_of_map_to_list in Hrm.
    apply list_elem_of_bind in Hm as ([c' v'] & Hcv & Hm).
    apply elem_of_map_to_list in Hm. apply list_elem_of_singleton in Hcv. simplify_eq.
    by rewrite Hrm.
  - intros (m & Hr & Hc)%bind_Some. apply list_elem_of_bind. exists (r, m).
    split; [|by apply elem_of_map_to_list]. apply list_elem_of_bind. exists (c, v).
    split; [by apply list_elem_of_singleton | by apply elem_of_map_to_list].
Qed.

Lemma table_column_spec t c r : Table.column t c !! r = Table.lookup t r c.
Proof. unfold Table.column, Table.lookup. by rewrite lookup_omap. Qed.
End facts.

#[export] Hint Rewrite @table_lookup_insert @table_lookup_update @table_lookup_empty
  @table_contains_spec @table_getOrDefault_spec @table_tryGet_spec
  @table_removeRow_spec @table_column_spec using typeclasses eauto : phasar_tables.
