(* ===== verification/JumpFunctions.v ===== *)
(** [JumpFunctions] (DataFlow/IfdsIde/Solver/JumpFunctions.h): the three tables
    in which the IDE solver keeps its jump functions.

    A jump function goes from a source fact at the start of a function to a
    target fact at a node. It is stored three times, so that it can be found
    from its target ([reverseLookup]), from its source ([forwardLookup]), and by
    its target node ([lookupByTarget]). [wf] says that the three tables agree;
    [jf_lookup] is the map they implement. *)
From S2P Require Import Prelude Table.

Section JumpFunctions.
Context {D N EF : Type} `{Countable D, Countable N}.

Record JumpFunctions := {
  (** target node and value to [(source value, function)] *)
  NonEmptyReverseLookup : Table N D (list (D * EF));
  (** source value and target node to [(target value, function)] *)
  NonEmptyForwardLookup : Table D N (list (D * EF));
  (** target node to a table of source value, target value, function *)
  NonEmptyLookupByTargetNode : gmap N (Table D D EF)
}.

Definition empty : JumpFunctions :=
  {| NonEmptyReverseLookup := ∅; NonEmptyForwardLookup := ∅; NonEmptyLookupByTargetNode := ∅ |}.

Implicit Types (jf : JumpFunctions) (SourceVal TargetVal d : D) (Target n : N) (EdgeFunc : EF).

(** [llvm::isa<AllTop<l_t>>(EdgeFunc)]. *)
Context (isAllTop : EF → bool).

(** [addFunction]. The default function is not stored; an existing entry is
    overwritten. *)
Definition addFunction SourceVal Target TargetVal EdgeFunc jf : JumpFunctions :=
  if isAllTop EdgeFunc then jf
  else {|
    NonEmptyReverseLookup :=
      Table.update [] (assoc_upsert SourceVal EdgeFunc)
        (NonEmptyReverseLookup jf) Target TargetVal;
    NonEmptyForwardLookup :=
      Table.update [] (assoc_upsert TargetVal EdgeFunc)
        (NonEmptyForwardLookup jf) SourceVal Target;
    NonEmptyLookupByTargetNode :=
      <[Target := Table.insert (default ∅ (NonEmptyLookupByTargetNode jf !! Target))
                    SourceVal TargetVal EdgeFunc]> (NonEmptyLookupByTargetNode jf)
  |}.

Definition reverseLookup Target TargetVal jf : option (list (D * EF)) :=
  if Table.contains (NonEmptyReverseLookup jf) Target TargetVal
  then Some (Table.get [] (NonEmptyReverseLookup jf) Target TargetVal).1
  else None.

Definition forwardLookup SourceVal Target jf : option (list (D * EF)) :=
  if Table.contains (NonEmptyForwardLookup jf) SourceVal Target
  then Some (Table.get [] (NonEmptyForwardLookup jf) SourceVal Target).1
  else None.

(** [lookupByTarget] creates the entry of the node it is asked for. *)
Definition lookupByTarget Target jf : Table D D EF * JumpFunctions :=
  let t := default ∅ (NonEmptyLookupByTargetNode jf !! Target) in
  (t, {| NonEmptyReverseLookup := NonEmptyReverseLookup jf;
         NonEmptyForwardLookup := NonEmptyForwardLookup jf;
         NonEmptyLookupByTargetNode := <[Target := t]> (NonEmptyLookupByTargetNode jf) |}).

(** The functions [foreachEdgeFunction] passes to its handler. *)
Definition foreachEdgeFunction jf : list EF :=
  '(_, _, TargetFactAndEF) ← Table.cellVec (NonEmptyForwardLookup jf); TargetFactAndEF.*2.

(** [removeFunction]: the result of erasing [Target] from the last table. *)
Definition removeFunction SourceVal Target TargetVal jf : bool * JumpFunctions :=
  (bool_decide (is_Some (NonEmptyLookupByTargetNode jf !! Target)),
   {| NonEmptyReverseLookup :=
        Table.update [] (assoc_erase SourceVal) (NonEmptyReverseLookup jf) Target TargetVal;
      NonEmptyForwardLookup :=
        Table.update [] (assoc_erase TargetVal) (NonEmptyForwardLookup jf) SourceVal Target;
      NonEmptyLookupByTargetNode := delete Target (NonEmptyLookupByTargetNode jf) |}).

Definition clear (_ : JumpFunctions) : JumpFunctions := empty.

(** * The map the tables implement *)

Definition jf_lookup jf d n TargetVal : option EF :=
  reverseLookup n TargetVal jf ≫= assoc_find d.

(** The three views of one jump function agree, and no vector holds a key
    twice. *)
Record wf jf : Prop := {
  wf_forward d n d' :
    forwardLookup d n jf ≫= assoc_find d' = jf_lookup jf d n d';
  wf_byTarget d n d' :
    (NonEmptyLookupByTargetNode jf !! n ≫= λ t, Table.lookup t d d') = jf_lookup jf d n d';
  wf_reverse_NoDup n d l : reverseLookup n d jf = Some l → NoDup l.*1;
  wf_forward_NoDup d n l : forwardLookup d n jf = Some l → NoDup l.*1
}.

(** ** Lemmas *)

Lemma reverseLookup_spec n d jf :
  reverseLookup n d jf = Table.lookup (NonEmptyReverseLookup jf) n d.
Proof.
  unfold reverseLookup. rewrite table_contains_spec, (proj1 (table_get_spec _ _ _ _)).
  case_bool_decide as Hs; [by destruct Hs as [l ->]|].
  by apply eq_None_not_Some in Hs.
Qed.

Lemma forwardLookup_spec d n jf :
  forwardLookup d n jf = Table.lookup (NonEmptyForwardLookup jf) d n.
Proof.
  unfold forwardLookup. rewrite table_contains_spec, (proj1 (table_get_spec _ _ _ _)).
  case_bool_decide as Hs; [by destruct Hs as [l ->]|].
  by apply eq_None_not_Some in Hs.
Qed.

Lemma jf_lookup_empty d n d' : jf_lookup empty d n d' = None.
Proof. unfold jf_lookup. by rewrite reverseLookup_spec. Qed.

Lemma wf_empty : wf empty.
Proof. split; intros; rewrite ?forwardLookup_spec, ?reverseLookup_spec in *; done. Qed.

Lemma jf_lookup_add d n d' f jf d0 n0 d0' :
  jf_lookup (addFunction d n d' f jf) d0 n0 d0' =
    if isAllTop f then jf_lookup jf d0 n0 d0'
    else if decide (d = d0 ∧ n = n0 ∧ d' = d0') then Some f else jf_lookup jf d0 n0 d0'.
Proof.
  unfold jf_lookup, addFunction. rewrite !reverseLookup_spec.
  destruct (isAllTop f); [done|]. simpl. autorewrite with phasar_tables.
  destruct (decide (n = n0 ∧ d' = d0')) as [[<- <-]|Hne]; simpl.
  - rewrite assoc_find_upsert. destruct (decide (d = d0)) as [<-|Hd].
    + by rewrite decide_True.
    + rewrite decide_False by naive_solver. by destruct (Table.lookup _ _ _).
  - by rewrite decide_False by naive_solver.
Qed.

Lemma wf_add d n d' f jf : wf jf → wf (addFunction d n d' f jf).
Proof.
  intros [Hf Ht Hr1 Hf1]. unfold addFunction. destruct (isAllTop f) eqn:Htop; [by split|].
  assert (∀ jf', jf' = addFunction d n d' f jf → ∀ d0 n0 d0',
    jf_lookup jf' d0 n0 d0' =
    if decide (d = d0 ∧ n = n0 ∧ d' = d0') then Some f else jf_lookup jf d0 n0 d0') as Hl.
  { intros ? -> *. by rewrite jf_lookup_add, Htop. }
  split.
  - intros d0 n0 d0'. rewrite (Hl _) by (by unfold addFunction; rewrite Htop).
    rewrite forwardLookup_spec. simpl. autorewrite with phasar_tables.
    destruct (decide (d = d0 ∧ n = n0)) as [[<- <-]|Hne]; simpl.
    + rewrite assoc_find_upsert. destruct (decide (d' = d0')) as [<-|Hd'].
      * by rewrite decide_True.
      * rewrite decide_False by naive_solver. rewrite <- Hf, forwardLookup_spec.
        by destruct (Table.lookup _ _ _).
    + rewrite decide_False by naive_solver. by rewrite <- Hf, forwardLookup_spec.
  - intros d0 n0 d0'. rewrite (Hl _) by (by unfold addFunction; rewrite Htop). simpl.
    destruct (decide (n = n0)) as [<-|Hn].
    + rewrite lookup_insert_eq. simpl. autorewrite with phasar_tables.
      destruct (decide (d = d0 ∧ d' = d0')) as [[<- <-]|Hne].
      * by rewrite decide_True.
      * rewrite decide_False by naive_solver. rewrite <- Ht.
        by destruct (NonEmptyLookupByTargetNode jf !! n).
    + rewrite lookup_insert_ne, decide_False by naive_solver. done.
  - intros n0 d0' l. rewrite reverseLookup_spec. simpl. autorewrite with phasar_tables.
    case_decide; intros; simplify_eq.
    + apply assoc_upsert_NoDup. destruct (Table.lookup _ _ _) eqn:E; simpl.
      * eapply Hr1. by rewrite reverseLookup_spec.
      * constructor.
    + eapply Hr1. by rewrite reverseLookup_spec.
  - intros d0 n0 l. rewrite forwardLookup_spec. simpl. autorewrite with phasar_tables.
    case_decide; intros; simplify_eq.
    + apply assoc_upsert_NoDup. destruct (Table.lookup _ _ _) eqn:E; simpl.
      * eapply Hf1. by rewrite forwardLookup_spec.
      * constructor.
    + eapply Hf1. by rewrite forwardLookup_spec.
Qed.

(** What the lookups return, in terms of the map. *)
Lemma reverseLookup_elem n d' jf l d f :
  wf jf → reverseLookup n d' jf = Some l → (d, f) ∈ l ↔ jf_lookup jf d n d' = Some f.
Proof.
  intros Hwf Hl. unfold jf_lookup. rewrite Hl. simpl. split.
  - apply assoc_elem_find. by eapply wf_reverse_NoDup.
  - apply assoc_find_elem.
Qed.

Lemma forwardLookup_elem n d jf l d' f :
  wf jf → forwardLookup d n jf = Some l → (d', f) ∈ l ↔ jf_lookup jf d n d' = Some f.
Proof.
  intros Hwf Hl. rewrite <- (wf_forward _ Hwf), Hl. simpl. split.
  - apply assoc_elem_find. by eapply wf_forward_NoDup.
  - apply assoc_find_elem.
Qed.

Lemma lookupByTarget_spec n jf d d' :
  wf jf → Table.lookup (lookupByTarget n jf).1 d d' = jf_lookup jf d n d'.
Proof.
  intros Hwf. rewrite <- (wf_byTarget _ Hwf). simpl.
  by destruct (NonEmptyLookupByTargetNode jf !! n); simpl; rewrite ?table_lookup_empty.
Qed.

Lemma jf_lookup_lookupByTarget n jf d n' d' :
  jf_lookup (lookupByTarget n jf).2 d n' d' = jf_lookup jf d n' d'.
Proof. done. Qed.

Lemma wf_lookupByTarget n jf : wf jf → wf (lookupByTarget n jf).2.
Proof.
  intros [Hf Ht Hr1 Hf1]. split; try done. intros d n0 d'.
  rewrite jf_lookup_lookupByTarget, <- Ht. simpl.
  destruct (decide (n = n0)) as [<-|Hn].
  - rewrite lookup_insert_eq. simpl.
    by destruct (NonEmptyLookupByTargetNode jf !! n); simpl; rewrite ?table_lookup_empty.
  - by rewrite lookup_insert_ne.
Qed.

Lemma foreachEdgeFunction_elem jf f :
  wf jf → f ∈ foreachEdgeFunction jf ↔ ∃ d n d', jf_lookup jf d n d' = Some f.
Proof.
  intros Hwf. unfold foreachEdgeFunction. split.
  - intros ([[d n] l] & Hfl & Hl)%list_elem_of_bind.
    apply table_cellVec_elem in Hl. rewrite <- forwardLookup_spec in Hl.
    apply list_elem_of_fmap in Hfl as ([d' f'] & -> & Hin).
    exists d, n, d'. by apply (forwardLookup_elem n d jf l).
  - intros (d & n & d' & Hl). rewrite <- (wf_forward _ Hwf) in Hl.
    apply bind_Some in Hl as (l & Hl & Hin). rewrite forwardLookup_spec in Hl.
    apply list_elem_of_bind. exists (d, n, l). split; [|by apply table_cellVec_elem].
    apply list_elem_of_fmap. exists (d', f). split; [done|]. by apply assoc_find_elem.
Qed.
(** * Single operations on the three tables *)

(** The function that the third table has. *)
Definition target_lookup jf d n TargetVal : option EF :=
  NonEmptyLookupByTargetNode jf !! n ≫= λ t, Table.lookup t d TargetVal.

(** The vectors hold no key twice. *)
Definition keys_unique jf : Prop :=
  (∀ n d l, reverseLookup n d jf = Some l → NoDup l.*1) ∧ (∀ d n l, forwardLookup d n jf = Some l → NoDup l.*1).

Lemma forward_find_add d n d' f jf d0 n0 d0' :
  forwardLookup d0 n0 (addFunction d n d' f jf) ≫= assoc_find d0' =
    if isAllTop f then forwardLookup d0 n0 jf ≫= assoc_find d0'
    else if decide (d = d0 ∧ n = n0 ∧ d' = d0') then Some f else forwardLookup d0 n0 jf ≫= assoc_find d0'.
Proof.
  unfold addFunction. rewrite !forwardLookup_spec. destruct (isAllTop f); [done|]. simpl.
  autorewrite with phasar_tables. destruct (decide (d = d0 ∧ n = n0)) as [[<- <-]|Hne]; simpl.
  - rewrite assoc_find_upsert. destruct (decide (d' = d0')) as [<-|Hd']; [by rewrite decide_True|].
    rewrite decide_False by naive_solver. by destruct (Table.lookup _ _ _).
  - by rewrite decide_False by naive_solver.
Qed.

Lemma target_lookup_add d n d' f jf d0 n0 d0' :
  target_lookup (addFunction d n d' f jf) d0 n0 d0' =
    if isAllTop f then target_lookup jf d0 n0 d0'
    else if decide (d = d0 ∧ n = n0 ∧ d' = d0') then Some f else target_lookup jf d0 n0 d0'.
Proof.
  unfold target_lookup, addFunction. destruct (isAllTop f); [done|]. simpl.
  destruct (decide (n = n0)) as [<-|Hn].
  - rewrite lookup_insert_eq. simpl. autorewrite with phasar_tables.
    destruct (decide (d = d0 ∧ d' = d0')) as [[<- <-]|Hne]; [by rewrite decide_True|].
    rewrite decide_False by naive_solver. by destruct (NonEmptyLookupByTargetNode jf !! n).
  - by rewrite lookup_insert_ne, decide_False by naive_solver.
Qed.

Lemma keys_unique_add d n d' f jf : keys_unique jf → keys_unique (addFunction d n d' f jf).
Proof.
  intros [Hr Hf]. unfold addFunction. destruct (isAllTop f); [done|].
  assert (∀ {K1 K2} `{Countable K1, Countable K2} (t : Table K1 K2 (list (D * EF))) a b k,
    (∀ a b l, Table.lookup t a b = Some l → NoDup l.*1) →
    ∀ a' b' l, Table.lookup (Table.update [] (assoc_upsert k f) t a b) a' b' = Some l → NoDup l.*1) as Hup.
  { intros K1 K2 ???? t a b k Ht a' b' l. rewrite table_lookup_update. case_decide; [|apply Ht].
    intros [= <-]. apply assoc_upsert_NoDup. destruct (Table.lookup t a b) eqn:Hl; [by eapply Ht|constructor]. }
  setoid_rewrite reverseLookup_spec in Hr. setoid_rewrite forwardLookup_spec in Hf.
  split; intros a b l; rewrite ?reverseLookup_spec, ?forwardLookup_spec; by apply Hup.
Qed.

Lemma reverse_find_remove d n d' jf d0 n0 d0' :
  keys_unique jf →
  jf_lookup (removeFunction d n d' jf).2 d0 n0 d0' =
    if decide (d = d0 ∧ n = n0 ∧ d' = d0') then None else jf_lookup jf d0 n0 d0'.
Proof.
  intros [Hr _]. unfold jf_lookup. setoid_rewrite reverseLookup_spec in Hr. rewrite !reverseLookup_spec. simpl.
  rewrite table_lookup_update. destruct (decide (n = n0 ∧ d' = d0')) as [[<- <-]|Hne]; simpl.
  - destruct (Table.lookup _ n d') as [l|] eqn:Hl; simpl; [|by case_decide].
    rewrite assoc_find_erase by (by eapply Hr). repeat case_decide; naive_solver.
  - by rewrite decide_False by naive_solver.
Qed.

Lemma forward_find_remove d n d' jf d0 n0 d0' :
  keys_unique jf →
  forwardLookup d0 n0 (removeFunction d n d' jf).2 ≫= assoc_find d0' =
    if decide (d = d0 ∧ n = n0 ∧ d' = d0') then None else forwardLookup d0 n0 jf ≫= assoc_find d0'.
Proof.
  intros [_ Hf]. setoid_rewrite forwardLookup_spec in Hf. rewrite !forwardLookup_spec. simpl.
  rewrite table_lookup_update. destruct (decide (d = d0 ∧ n = n0)) as [[<- <-]|Hne]; simpl.
  - destruct (Table.lookup _ d n) as [l|] eqn:Hl; simpl; [|by case_decide].
    rewrite assoc_find_erase by (by eapply Hf). repeat case_decide; naive_solver.
  - by rewrite decide_False by naive_solver.
Qed.

Lemma target_lookup_remove d n d' jf d0 n0 d0' :
  target_lookup (removeFunction d n d' jf).2 d0 n0 d0' = if decide (n = n0) then None else target_lookup jf d0 n0 d0'.
Proof.
  unfold target_lookup. simpl. case_decide as Hn; [subst; by rewrite lookup_delete_eq|by rewrite lookup_delete_ne].
Qed.

Lemma keys_unique_remove d n d' jf : keys_unique jf → keys_unique (removeFunction d n d' jf).2.
Proof.
  intros [Hr Hf].
  assert (∀ {K1 K2} `{Countable K1, Countable K2} (t : Table K1 K2 (list (D * EF))) a b k,
    (∀ a b l, Table.lookup t a b = Some l → NoDup l.*1) →
    ∀ a' b' l, Table.lookup (Table.update [] (assoc_erase k) t a b) a' b' = Some l → NoDup l.*1) as Hup.
  { intros K1 K2 ???? t a b k Ht a' b' l. rewrite table_lookup_update. case_decide; [|apply Ht].
    intros [= <-]. apply assoc_erase_NoDup. destruct (Table.lookup t a b) eqn:Hl; [by eapply Ht|constructor]. }
  setoid_rewrite reverseLookup_spec in Hr. setoid_rewrite forwardLookup_spec in Hf.
  split; intros a b l; rewrite ?reverseLookup_spec, ?forwardLookup_spec; by apply Hup.
Qed.

Lemma target_lookup_lookupByTarget n jf d0 n0 d0' :
  target_lookup (lookupByTarget n jf).2 d0 n0 d0' = target_lookup jf d0 n0 d0'
  ∧ Table.lookup (lookupByTarget n jf).1 d0 d0' = target_lookup jf d0 n d0'.
Proof.
  unfold target_lookup. simpl. split.
  - destruct (decide (n = n0)) as [<-|Hn]; [rewrite lookup_insert_eq|by rewrite lookup_insert_ne].
    simpl. by destruct (NonEmptyLookupByTargetNode jf !! n); simpl; rewrite ?table_lookup_empty.
  - by destruct (NonEmptyLookupByTargetNode jf !! n); simpl; rewrite ?table_lookup_empty.
Qed.
End JumpFunctions.
Arguments JumpFunctions D N EF {_ _ _ _}.

#[export] Hint Resolve wf_empty wf_add wf_lookupByTarget : phasar.

(** * Sequences of operations *)

Inductive jf_op (D N EF : Type) :=
  | OpAdd (SourceVal : D) (Target : N) (TargetVal : D) (f : EF)
  | OpRemove (SourceVal : D) (Target : N) (TargetVal : D)
  | OpLookupByTarget (Target : N)
  | OpClear.
Arguments OpAdd {D N EF} _ _ _ _.
Arguments OpRemove {D N EF} _ _ _.
Arguments OpLookupByTarget {D N EF} _.
Arguments OpClear {D N EF}.

Section sequences.
Context {D N EF : Type} `{Countable D, Countable N}.
Context (isAllTop : EF → bool).
Implicit Types (ops : list (jf_op D N EF)) (d : D) (n : N).

Definition jf_step (o : jf_op D N EF) (jf : JumpFunctions D N EF) : JumpFunctions D N EF :=
  match o with
  | OpAdd d n d' f => addFunction isAllTop d n d' f jf
  | OpRemove d n d' => (removeFunction d n d' jf).2
  | OpLookupByTarget n => (lookupByTarget n jf).2
  | OpClear => clear jf
  end.

(** The function added last for an edge, if it was not removed since; [erased] are
    the edges that a removal takes away. *)
Definition last_step (erased : D → N → D → bool) d n d' (o : jf_op D N EF) (v : option EF) : option EF :=
  match o with
  | OpAdd d0 n0 d0' f0 => if isAllTop f0 then v else if decide (d0 = d ∧ n0 = n ∧ d0' = d') then Some f0 else v
  | OpRemove d0 n0 d0' => if erased d0 n0 d0' then None else v
  | OpLookupByTarget _ => v
  | OpClear => None
  end.
Definition last_added (erased : D → N → D → bool) ops d n d' : option EF :=
  for_each ops (last_step erased d n d') None.

Lemma last_added_snoc erased ops o d n d' :
  last_added erased (ops ++ [o]) d n d' = last_step erased d n d' o (last_added erased ops d n d').
Proof. unfold last_added. by rewrite for_each_app. Qed.

(** A removal takes away its edge; in the third table, all edges to its node. *)
Definition stored ops d n d' : option EF :=
  last_added (λ d0 n0 d0', bool_decide (d0 = d ∧ n0 = n ∧ d0' = d')) ops d n d'.
Definition stored_at_target ops d n d' : option EF :=
  last_added (λ _ n0 _, bool_decide (n0 = n)) ops d n d'.

Lemma jf_run ops :
  let jf := for_each ops jf_step empty in
  keys_unique jf
  ∧ (∀ d n d', jf_lookup jf d n d' = stored ops d n d')
  ∧ (∀ d n d', forwardLookup d n jf ≫= assoc_find d' = stored ops d n d')
  ∧ ∀ d n d', target_lookup jf d n d' = stored_at_target ops d n d'.
Proof.
  apply (for_each_ind (λ l (jf : JumpFunctions D N EF), keys_unique jf
    ∧ (∀ d n d', jf_lookup jf d n d' = stored l d n d')
    ∧ (∀ d n d', forwardLookup d n jf ≫= assoc_find d' = stored l d n d')
    ∧ ∀ d n d', target_lookup jf d n d' = stored_at_target l d n d')).
  - split_and!; done.
  - intros l o jf _ (Hu & Hr & Hf & Ht). unfold stored, stored_at_target in *.
    destruct o as [d0 n0 d0' f0|d0 n0 d0'|n0|]; cbn [jf_step].
    + split; [by apply keys_unique_add|]. split_and!; intros d n d'; rewrite last_added_snoc; cbn [last_step].
      * by rewrite jf_lookup_add, Hr.
      * by rewrite forward_find_add, Hf.
      * by rewrite target_lookup_add, Ht.
    + split; [by apply keys_unique_remove|].
      split_and!; intros d n d'; rewrite last_added_snoc; cbn [last_step].
      * rewrite reverse_find_remove, Hr by done. case_decide; by case_bool_decide.
      * rewrite forward_find_remove, Hf by done. case_decide; by case_bool_decide.
      * rewrite target_lookup_remove, Ht. case_decide; by case_bool_decide.
    + split; [done|]. split_and!; intros d n d'; rewrite last_added_snoc; [apply Hr|apply Hf|].
      by rewrite (proj1 (target_lookup_lookupByTarget _ _ _ _ _)).
    + split; [done|]. split_and!; intros d n d'; by rewrite last_added_snoc.
Qed.

(** What is stored was added, and is not [AllTop]. *)
Lemma stored_not_top ops d n d' f : stored ops d n d' = Some f → isAllTop f = false.
Proof.
  revert f. unfold stored, last_added, last_step.
  apply (for_each_inv (λ v : option EF, ∀ f, v = Some f → isAllTop f = false)); [done|].
  intros o v _ Hv f. destruct o as [d0 n0 d0' f0|d0 n0 d0'|n0|]; [|case_bool_decide; [done|apply Hv]|apply Hv|done].
  destruct (isAllTop f0) eqn:Hf0; [apply Hv|]. case_decide; [by intros [= <-]|apply Hv].
Qed.

(** Without removals at a node the two agree there. *)
Lemma stored_at_target_eq ops d n d' :
  (∀ d0 d0', OpRemove d0 n d0' ∉ ops) → stored_at_target ops d n d' = stored ops d n d'.
Proof.
  unfold stored, stored_at_target. induction ops as [|o ops IH] using rev_ind; [done|]. intros Hno.
  rewrite !last_added_snoc, <- IH by set_solver.
  destruct o as [|d0 n0 d0'| |]; try done.
  cbn [last_step]. rewrite !bool_decide_false; [done|..]; intros Heq; apply (Hno d0 d0'); naive_solver set_solver.
Qed.
End sequences.
