(* ===== verification/EquivalenceClassMap.v ===== *)
(** [EquivalenceClassMap] and [EquivalenceClassMapNG] (Utils/EquivalenceClassMap.h):
    maps that group their keys by the value they are mapped to. The first keeps a
    vector of (key set, value) buckets, the second two parallel vectors. Both are
    used as memo tables through [getOrInsertLazy]. *)
From S2P Require Import Prelude.

(** * [EquivalenceClassMap] *)

Module EquivalenceClassMap.
Section ops.
Context {K V : Type} `{Countable K, EqDecision V}.

(** [StoredData]. *)
Abbreviation t := (list (gset K * V)).
Implicit Types (StoredData : t) (Key : K) (Val : V).

(** [insert] and [try_emplace]: the flag says whether the key is new in the
    class of its value. *)
Fixpoint try_emplace Key Val StoredData : t * bool :=
  match StoredData with
  | [] => ([({[Key]}, Val)], true)
  | (KS, W) :: l =>
      if decide (W = Val) then ((KS ∪ {[Key]}, W) :: l, bool_decide (Key ∉ KS))
      else let '(l, b) := try_emplace Key Val l in ((KS, W) :: l, b)
  end.

Definition insert_range (l : list (K * V)) StoredData : t :=
  for_each l (λ KVPair StoredData, (try_emplace KVPair.1 KVPair.2 StoredData).1) StoredData.

(** [find]: the first class that holds the key. *)
Fixpoint find Key StoredData : option (gset K * V) :=
  match StoredData with
  | [] => None
  | (KS, W) :: l => if decide (Key ∈ KS) then Some (KS, W) else find Key l
  end.

Definition findValue Key StoredData : option V := snd <$> find Key StoredData.

Definition count Key StoredData : nat := if find Key StoredData then 1 else 0.

(** [getOrInsertLazy]: the value, the new map and whether it was a hit
    ([OnHit] is called instead of [MakeV]). *)
Definition getOrInsertLazy Key (MakeV : V) StoredData : V * t * bool :=
  match findValue Key StoredData with
  | Some StoredVal => (StoredVal, StoredData, true)
  | None => (MakeV, (try_emplace Key MakeV StoredData).1, false)
  end.

Definition numEquivalenceClasses StoredData : nat := length StoredData.
Definition clear (_ : t) : t := [].
End ops.
End EquivalenceClassMap.

(** * [EquivalenceClassMapNG] *)

Module EquivalenceClassMapNG.
Section ops.
Context {K V : Type} `{Countable K, EqDecision V}.

Record t := mk { Values : list V; Keys : list (gset K) }.
Implicit Types (m : t) (Key : K) (Value : V).

Definition empty : t := mk [] [].

(** The loop of [insert]: the index of the first equal value. *)
Definition indexOfValue Value m : option nat := fst <$> list_find (λ W, W = Value) (Values m).

(** [insert]: the index the returned iterator stands at, and whether the key
    is new in its class. *)
Definition insert Key Value m : nat * bool * t :=
  match indexOfValue Value m with
  | Some Idx =>
      let KS := default ∅ (Keys m !! Idx) in
      (Idx, bool_decide (Key ∉ KS), mk (Values m) (<[Idx := KS ∪ {[Key]}]> (Keys m)))
  | None => (length (Values m), true, mk (Values m ++ [Value]) (Keys m ++ [{[Key]}]))
  end.

(** [find]: the index of the first class with the key. *)
Definition find Key m : option nat := fst <$> list_find (λ KS : gset K, Key ∈ KS) (Keys m).

Definition getOrInsertLazy Key (MakeV : V) m : V * t * bool :=
  match find Key m with
  | Some Idx => (default MakeV (Values m !! Idx), m, true)
  | None =>
      let '(Idx, _, m) := insert Key MakeV m in (default MakeV (Values m !! Idx), m, false)
  end.

Definition numEquivalenceClasses m : nat := length (Values m).
Definition clear (_ : t) : t := empty.
End ops.
Arguments t K V {_ _}.
End EquivalenceClassMapNG.

(** * Lemmas *)

Section facts.
Context {K V : Type} `{Countable K, EqDecision V}.
Import EquivalenceClassMap.
Implicit Types (l : list (gset K * V)) (k : K) (v : V).

(** The keys of two classes are disjoint, and no two classes have one value. *)
Definition classes l : Prop :=
  NoDup l.*2 ∧ ∀ i j KS W S' W' k,
    l !! i = Some (KS, W) → l !! j = Some (S', W') → k ∈ KS → k ∈ S' → i = j.

Lemma find_elem k l c : find k l = Some c → c ∈ l ∧ k ∈ c.1.
Proof.
  induction l as [|[KS W] l IH]; simpl; [done|]. destruct (decide _).
  - intros [= <-]. split; [left|done].
  - intros Hf. destruct (IH Hf). split; [by right|done].
Qed.

Lemma find_None k l : find k l = None ↔ ∀ c, c ∈ l → k ∉ c.1.
Proof.
  induction l as [|[KS W] l IH]; simpl.
  - split; [|done]. intros _ c Hc. by apply not_elem_of_nil in Hc.
  - destruct (decide (k ∈ KS)) as [Hk|Hk].
    + split; [done|]. intros Hall. by destruct (Hall (KS, W) ltac:(left)).
    + rewrite IH. split.
      * intros Hall c Hc. apply elem_of_cons in Hc as [->|Hc]; [done|by apply Hall].
      * intros Hall c Hc. apply Hall. by right.
Qed.

(** The values of [try_emplace]: a new class goes to the back. *)
Lemma try_emplace_values k v l :
  (try_emplace k v l).1.*2 = if decide (v ∈ l.*2) then l.*2 else l.*2 ++ [v].
Proof.
  induction l as [|[KS W] l IH]; csimpl; [done|].
  destruct (decide (W = v)) as [->|Hne]; csimpl.
  { by rewrite decide_True by left. }
  destruct (try_emplace k v l) as [l' b] eqn:E. csimpl in *. rewrite IH.
  destruct (decide (v ∈ l.*2)) as [Hin|Hin].
  - by rewrite decide_True by by right.
  - rewrite decide_False; [done|]. by intros [->|]%elem_of_cons.
Qed.

(** [find] after [try_emplace] of a key that was not there. *)
Lemma findValue_try_emplace k v l k' :
  find k l = None →
  findValue k' (try_emplace k v l).1 = if decide (k' = k) then Some v else findValue k' l.
Proof.
  unfold findValue. induction l as [|[KS W] l IH]; simpl; intros Hk.
  - destruct (decide (k' = k)) as [->|]; [by rewrite decide_True by set_solver|].
    by rewrite decide_False by set_solver.
  - destruct (decide (k ∈ KS)) as [|HkS]; [done|].
    destruct (decide (W = v)) as [->|Hne]; simpl.
    + destruct (decide (k' = k)) as [->|Hkk]; [by rewrite decide_True by set_solver|].
      destruct (decide (k' ∈ KS)); [by rewrite decide_True by set_solver|].
      by rewrite decide_False by set_solver.
    + specialize (IH Hk). destruct (try_emplace k v l) as [l' b]. simpl in *.
      destruct (decide (k' ∈ KS)) as [Hin|]; [|done].
      by rewrite decide_False by congruence.
Qed.

Lemma try_emplace_lookup k v l i KS W :
  (try_emplace k v l).1 !! i = Some (KS, W) →
  (∃ S0, l !! i = Some (S0, W) ∧ KS = S0) ∨
  (W = v ∧ ((∃ S0, l !! i = Some (S0, W) ∧ KS = S0 ∪ {[k]}) ∨ (i = length l ∧ KS = {[k]}))).
Proof.
  revert i. induction l as [|[S1 W1] l IH]; simpl; intros i Hi.
  - destruct i; [|done]. injection Hi as <- <-. by auto.
  - destruct (decide (W1 = v)) as [->|Hne].
    + destruct i as [|i]; [injection Hi as <- <-; eauto 6|]. left. by eauto.
    + destruct (try_emplace k v l) as [l' b]. simpl in *.
      destruct i as [|i]; [injection Hi as <- <-; by eauto|].
      destruct (IH i Hi) as [?|[-> [?|[-> ->]]]]; [by eauto|by eauto 6|by auto].
Qed.

Lemma try_emplace_classes k v l : find k l = None → classes l → classes (try_emplace k v l).1.
Proof.
  intros Hk [Hnd Hdis]. assert (NoDup (try_emplace k v l).1.*2) as Hnd'.
  { rewrite try_emplace_values. destruct (decide _) as [|Hin]; [done|].
    apply NoDup_app. split; [done|]. split; [|apply NoDup_singleton].
    intros x Hx. rewrite list_elem_of_singleton. congruence. }
  split; [done|]. intros i j KS W S' W' k' Hi Hj HS HS'.
  assert (∀ i KS W, l !! i = Some (KS, W) → k ∉ KS) as HkS.
  { intros i0 S0 W0 Hl. rewrite find_None in Hk.
    by apply (Hk (S0, W0)), list_elem_of_lookup_2 with i0. }
  destruct (decide (W = W')) as [<-|HW].
  { eapply NoDup_lookup; [exact Hnd'| |]; rewrite list_lookup_fmap; [by rewrite Hi|by rewrite Hj]. }
  apply try_emplace_lookup in Hi as [(S0 & Hi & ->)|[-> Hi]];
    apply try_emplace_lookup in Hj as [(S0' & Hj & ->)|[-> Hj]]; [by eapply Hdis| | |done].
  - destruct Hj as [(S1 & Hj & ->)|[-> ->]].
    + apply elem_of_union in HS' as [HS'|Heq%elem_of_singleton]; [by eapply Hdis|].
      subst k'. by destruct (HkS _ _ _ Hi).
    + apply elem_of_singleton in HS' as ->. by destruct (HkS _ _ _ Hi).
  - destruct Hi as [(S1 & Hi & ->)|[-> ->]].
    + apply elem_of_union in HS as [HS|Heq%elem_of_singleton]; [by eapply Hdis|].
      subst k'. by destruct (HkS _ _ _ Hj).
    + apply elem_of_singleton in HS as ->. by destruct (HkS _ _ _ Hj).
Qed.

Lemma getOrInsertLazy_classes k v l : classes l → classes (getOrInsertLazy k v l).1.2.
Proof.
  unfold getOrInsertLazy, findValue. destruct (find k l) eqn:Hk; simpl; [done|].
  by apply try_emplace_classes.
Qed.

Lemma findValue_getOrInsertLazy k v l k' :
  findValue k' (getOrInsertLazy k v l).1.2 =
  if decide (k' = k) then Some (default v (findValue k l)) else findValue k' l.
Proof.
  unfold getOrInsertLazy. destruct (findValue k l) as [w|] eqn:Hk; simpl.
  - destruct (decide (k' = k)) as [->|]; [done|done].
  - apply findValue_try_emplace. unfold findValue in Hk. by destruct (find k l).
Qed.

Lemma getOrInsertLazy_value k v l : (getOrInsertLazy k v l).1.1 = default v (findValue k l).
Proof. unfold getOrInsertLazy. by destruct (findValue k l). Qed.
End facts.

(** * The two maps are the same *)

Section NG.
Context {K V : Type} `{Countable K, EqDecision V}.
Implicit Types (m : EquivalenceClassMapNG.t K V) (l : list (gset K * V)) (k : K) (v : V).

(** The buckets the parallel vectors stand for. *)
Definition represents m l : Prop := EquivalenceClassMapNG.Values m = l.*2 ∧ EquivalenceClassMapNG.Keys m = l.*1.

Lemma represents_find m l k :
  represents m l →
  match EquivalenceClassMapNG.find k m with
  | Some Idx => ∃ c, l !! Idx = Some c ∧ EquivalenceClassMap.find k l = Some c
  | None => EquivalenceClassMap.find k l = None
  end.
Proof.
  intros [_ HK]. unfold EquivalenceClassMapNG.find. rewrite HK. clear HK m.
  induction l as [|[KS W] l IH]; csimpl; [done|].
  destruct (decide (k ∈ KS)); csimpl; [by eauto|].
  destruct (list_find _ l.*1) as [[i c]|]; csimpl in *; done.
Qed.

Lemma represents_insert m l k v :
  represents m l →
  represents (EquivalenceClassMapNG.insert k v m).2 (EquivalenceClassMap.try_emplace k v l).1 ∧
  (EquivalenceClassMapNG.insert k v m).1.2 = (EquivalenceClassMap.try_emplace k v l).2 ∧
  EquivalenceClassMapNG.Values (EquivalenceClassMapNG.insert k v m).2 !! (EquivalenceClassMapNG.insert k v m).1.1 = Some v.
Proof.
  destruct m as [Vs Ks]. unfold represents, EquivalenceClassMapNG.insert, EquivalenceClassMapNG.indexOfValue. csimpl. intros [-> ->].
  induction l as [|[KS W] l IH]; csimpl; [done|].
  destruct (decide (W = v)) as [->|Hne]; csimpl; [done|].
  destruct (EquivalenceClassMap.try_emplace k v l) as [l' b].
  destruct (list_find _ l.*2) as [[i w]|]; csimpl in *.
  - destruct IH as ((HV & HK) & Hb & Hl). split_and!; [by rewrite HV|by rewrite HK|done..].
  - destruct IH as ((HV & HK) & Hb & Hl). split_and!; [by rewrite HV|by rewrite HK|done..].
Qed.

Lemma represents_getOrInsertLazy m l k v :
  represents m l →
  represents (EquivalenceClassMapNG.getOrInsertLazy k v m).1.2 (EquivalenceClassMap.getOrInsertLazy k v l).1.2 ∧
  (EquivalenceClassMapNG.getOrInsertLazy k v m).1.1 = (EquivalenceClassMap.getOrInsertLazy k v l).1.1 ∧
  (EquivalenceClassMapNG.getOrInsertLazy k v m).2 = (EquivalenceClassMap.getOrInsertLazy k v l).2.
Proof.
  intros Hr. pose proof (represents_find m l k Hr) as Hf.
  unfold EquivalenceClassMapNG.getOrInsertLazy, EquivalenceClassMap.getOrInsertLazy, EquivalenceClassMap.findValue. destruct (EquivalenceClassMapNG.find k m) as [Idx|].
  - destruct Hf as ([KS W] & Hl & ->). simpl. split; [done|]. split; [|done].
    destruct Hr as [-> _]. by rewrite list_lookup_fmap, Hl.
  - rewrite Hf. destruct (represents_insert m l k v Hr) as (Hr' & _ & Hv). simpl.
    destruct (EquivalenceClassMapNG.insert k v m) as [[Idx b] m']. simpl in *. by rewrite Hv.
Qed.
End NG.

Section NG_facts.
Context {K V : Type} `{Countable K, EqDecision V}.
Implicit Types (m : EquivalenceClassMapNG.t K V) (l : list (gset K * V)) (k : K) (v : V).

(** A map that represents buckets finds what the buckets hold. *)
Definition ng_value k m : option V :=
  EquivalenceClassMapNG.find k m ≫= λ Idx, EquivalenceClassMapNG.Values m !! Idx.

Definition ng_wf m : Prop := ∃ l, represents m l.

Lemma ng_wf_empty : ng_wf EquivalenceClassMapNG.empty.
Proof. by exists []. Qed.

Lemma represents_value m l k : represents m l → ng_value k m = EquivalenceClassMap.findValue k l.
Proof.
  intros Hr. pose proof (represents_find m l k Hr) as Hf. unfold ng_value, EquivalenceClassMap.findValue.
  destruct (EquivalenceClassMapNG.find k m) as [Idx|]; simpl; [|by rewrite Hf].
  destruct Hf as ([KS W] & Hl & ->). destruct Hr as [-> _]. by rewrite list_lookup_fmap, Hl.
Qed.

Lemma ng_getOrInsertLazy m k v :
  ng_wf m →
  let '(r, m', hit) := EquivalenceClassMapNG.getOrInsertLazy k v m in
  ng_wf m' ∧ r = default v (ng_value k m) ∧ hit = bool_decide (is_Some (ng_value k m)) ∧
  ∀ k', ng_value k' m' = if decide (k' = k) then Some (default v (ng_value k m)) else ng_value k' m.
Proof.
  intros [l Hr]. destruct (represents_getOrInsertLazy m l k v Hr) as (Hr' & Hv & Hh).
  destruct (EquivalenceClassMapNG.getOrInsertLazy k v m) as [[r m'] hit]. simpl in *.
  rewrite (represents_value m l k Hr). split; [by eexists|].
  split; [by rewrite Hv, getOrInsertLazy_value|]. split.
  - rewrite Hh. unfold EquivalenceClassMap.getOrInsertLazy.
    destruct (EquivalenceClassMap.findValue k l); [by rewrite bool_decide_true by eauto|].
    by rewrite bool_decide_false by (intros []; done).
  - intros k'. rewrite (represents_value m' _ k' Hr'), (represents_value m l k' Hr).
    apply findValue_getOrInsertLazy.
Qed.
End NG_facts.
