(* ===== verification/Compressor.v ===== *)
(** Utils/Compressor.h: sequential 32-bit ids for objects, in the two
    specialisations for types that are cheap to copy ([ByValue]) and others
    ([ByRef]), and the packing of two ids into one key
    ([IterativeIDESolver::combineIds]). *)
From S2P Require Import Prelude.

(** [IdT(Size)] with [IdT = uint32_t]. *)
Definition IdT (Size : nat) : Z := (Z.of_nat Size mod 2 ^ 32)%Z.

(** * Types that are passed by value *)

Module ByValue.
Section ops.
Context {T : Type} `{Countable T}.

Record Compressor := mk { ToInt : gmap T Z; FromInt : list T }.
Implicit Types (c : Compressor) (Elem : T).

Definition empty : Compressor := mk ∅ [].
Definition size c : nat := length (FromInt c).

(** [insert]: [try_emplace] with the next id. *)
Definition insert Elem c : Z * bool * Compressor :=
  match ToInt c !! Elem with
  | Some Id => (Id, false, c)
  | None =>
      let Id := IdT (size c) in
      (Id, true, mk (<[Elem := Id]> (ToInt c)) (FromInt c ++ [Elem]))
  end.

Definition getOrInsert Elem c : Z * Compressor :=
  match ToInt c !! Elem with
  | Some Id => (Id, c)
  | None =>
      let Id := IdT (size c) in (Id, mk (<[Elem := Id]> (ToInt c)) (FromInt c ++ [Elem]))
  end.

(** An id that no object is mapped to. *)
Definition insertDummy Elem c : Z * Compressor :=
  (IdT (size c), mk (ToInt c) (FromInt c ++ [Elem])).

Definition getOrNull Elem c : option Z := ToInt c !! Elem.

(** [None] where the assertion of [get] fails. *)
Definition get Elem c : option Z := ToInt c !! Elem.

Definition inbounds (Idx : Z) c : bool := bool_decide (Z.to_nat Idx < size c).

(** [operator[]]; [None] where its assertion fails. *)
Definition at_ (Idx : Z) c : option T := FromInt c !! Z.to_nat Idx.

Definition enumerate c : list (Z * T) := imap (λ k x, (IdT k, x)) (FromInt c).
Definition clear c : Compressor := empty.
End ops.
Arguments Compressor T {_ _}.
End ByValue.

(** * Types that are passed by reference *)

Module ByRef.
Section ops.
Context {T : Type} `{EqDecision T}.

(** [FromInt] is a [std::deque], whose elements keep their address when it grows:
    an address is a position. [ToInt] maps addresses to ids, but hashes and
    compares the objects at the addresses ([DSI]). *)
Record Compressor := mk { ToInt : list (nat * Z); FromInt : list T }.
Implicit Types (c : Compressor) (Elem : T).

Definition empty : Compressor := mk [] [].
Definition size c : nat := length (FromInt c).

(** [ToInt.find(&Elem)]: the entry whose address holds an equal object. *)
Definition find Elem c : option Z :=
  (λ kv, kv.2.2) <$> list_find (λ e : nat * Z, FromInt c !! e.1 = Some Elem) (ToInt c).

(** [insert(T &&)]. *)
Definition insert Elem c : Z * bool * Compressor :=
  match find Elem c with
  | Some Id => (Id, false, c)
  | None =>
      let Ret := IdT (size c) in
      let Ins := size c in
      (Ret, true, mk ((Ins, Ret) :: ToInt c) (FromInt c ++ [Elem]))
  end.

Definition getOrInsert Elem c : Z * Compressor :=
  match find Elem c with
  | Some Id => (Id, c)
  | None =>
      let Ret := IdT (size c) in
      let Ins := size c in
      (Ret, mk ((Ins, Ret) :: ToInt c) (FromInt c ++ [Elem]))
  end.

Definition insertDummy Elem c : Z * Compressor :=
  (IdT (size c), mk (ToInt c) (FromInt c ++ [Elem])).

Definition getOrNull Elem c : option Z := find Elem c.
Definition get Elem c : option Z := find Elem c.
Definition inbounds (Idx : Z) c : bool := bool_decide (Z.to_nat Idx < size c).
Definition at_ (Idx : Z) c : option T := FromInt c !! Z.to_nat Idx.
Definition enumerate c : list (Z * T) := imap (λ k x, (IdT k, x)) (FromInt c).
Definition clear c : Compressor := empty.
End ops.
Arguments Compressor T : clear implicits.
End ByRef.

(** * Values that are their own ids *)

Module NoneCompressor.
Section ops.
Context {T : Type}.
Implicit Types (Elem Val : T).
Definition getOrInsert Val : T := Val.
Definition insert Elem : T * bool := (Elem, false).
Definition getOrNull Elem : option T := Some Elem.
Definition get Elem : T := Elem.
Definition inbounds (Idx : T) : bool := true.
Definition at_ Val : T := Val.
Definition size : nat := 0.
End ops.
End NoneCompressor.

(** * Keys of two ids (IterativeIDESolver.h) *)

(** [(uint64_t(LHS) << 32) | RHS]. *)
Definition combineIds (LHS RHS : Z) : Z := Z.lor (Z.shiftl LHS 32 mod 2 ^ 64) RHS.

(** [{uint32_t(Id >> 32), uint32_t(Id & UINT32_MAX)}]. *)
Definition splitId (Id : Z) : Z * Z :=
  (Z.shiftr Id 32 mod 2 ^ 32, Z.land Id (2 ^ 32 - 1) mod 2 ^ 32)%Z.

Definition is_id (i : Z) : Prop := (0 ≤ i < 2 ^ 32)%Z.

Lemma combineIds_value i j : is_id i → is_id j → combineIds i j = (i * 2 ^ 32 + j)%Z.
Proof.
  unfold is_id, combineIds. intros Hi Hj. rewrite Z.shiftl_mul_pow2 by lia.
  rewrite Z.mod_small by lia. rewrite <- Z.shiftl_mul_pow2 by lia. symmetry.
  apply Z.add_nocarry_lor, Z.bits_inj'. intros n Hn.
  rewrite Z.land_spec, Z.shiftl_spec, Z.bits_0 by lia. destruct (decide (n < 32)%Z).
  - by rewrite Z.testbit_neg_r by lia.
  - rewrite (Z.bits_above_log2 j n), andb_false_r; [done|lia|].
    destruct (decide (j = 0)%Z) as [->|]; [simpl; lia|]. apply Z.lt_le_trans with 32%Z; [|lia].
    apply Z.log2_lt_pow2; lia.
Qed.

Lemma splitId_combineIds i j : is_id i → is_id j → splitId (combineIds i j) = (i, j).
Proof.
  intros Hi Hj. rewrite combineIds_value by done. unfold is_id, splitId in *.
  change (2 ^ 32 - 1)%Z with (Z.ones 32). rewrite Z.land_ones, Z.shiftr_div_pow2 by lia. f_equal.
  - rewrite Z.div_add_l, Z.div_small, Z.add_0_r by lia. by apply Z.mod_small.
  - assert ((i * 2 ^ 32 + j) mod 2 ^ 32 = j)%Z as -> by (rewrite Z.add_comm, Z.mod_add by lia;
      by apply Z.mod_small). by apply Z.mod_small.
Qed.

Lemma combineIds_inj i j i' j' :
  is_id i → is_id j → is_id i' → is_id j' → combineIds i j = combineIds i' j' → i = i' ∧ j = j'.
Proof.
  intros Hi Hj Hi' Hj' Heq. apply (f_equal splitId) in Heq.
  rewrite !splitId_combineIds in Heq by done. by simplify_eq.
Qed.

(** * The compressors *)

Section by_value.
Context {T : Type} `{Countable T}.
Abbreviation Comp := (ByValue.Compressor T).
Implicit Types (c : Comp) (x y : T) (i j : Z).

(** Ids are positions below [2 ^ 32]. *)
Record comp_wf c : Prop := {
  cw_size : (Z.of_nat (ByValue.size c) ≤ 2 ^ 32)%Z;
  cw_at x i : ByValue.ToInt c !! x = Some i →
    ∃ k, i = Z.of_nat k ∧ ByValue.FromInt c !! k = Some x
}.

Lemma comp_wf_empty : comp_wf ByValue.empty.
Proof. split; [unfold ByValue.size; simpl; lia|]. intros x i. simpl. by rewrite lookup_empty. Qed.

Lemma comp_wf_range c x i :
  comp_wf c → ByValue.ToInt c !! x = Some i → is_id i ∧ ByValue.inbounds i c = true ∧ ByValue.at_ i c = Some x.
Proof.
  intros [Hs Ha] Hi. destruct (Ha x i Hi) as (k & -> & Hk). unfold ByValue.at_, ByValue.inbounds, is_id.
  pose proof (lookup_lt_Some _ _ _ Hk) as Hlt. unfold ByValue.size in *. rewrite Nat2Z.id.
  split; [lia|]. split; [by apply bool_decide_eq_true|done].
Qed.

Lemma comp_wf_inj c x y i :
  comp_wf c → ByValue.ToInt c !! x = Some i → ByValue.ToInt c !! y = Some i → x = y.
Proof.
  intros Hc Hx Hy. destruct (comp_wf_range c x i Hc Hx) as (_ & _ & Hax).
  destruct (comp_wf_range c y i Hc Hy) as (_ & _ & Hay). congruence.
Qed.

(** A later compressor: ids are never taken back. *)
Record comp_ext c c' : Prop := {
  ce_ToInt : ByValue.ToInt c ⊆ ByValue.ToInt c';
  ce_FromInt : ByValue.FromInt c `prefix_of` ByValue.FromInt c'
}.

#[export] Instance comp_ext_preorder : PreOrder comp_ext.
Proof.
  split; [by split|]. intros c1 c2 c3 [] []. split.
  - by transitivity (ByValue.ToInt c2).
  - by transitivity (ByValue.FromInt c2).
Qed.

Lemma getOrInsert_size x c :
  ByValue.size c ≤ ByValue.size (ByValue.getOrInsert x c).2 ≤ S (ByValue.size c).
Proof.
  unfold ByValue.getOrInsert, ByValue.size. destruct (ByValue.ToInt c !! x); simpl; [lia|].
  rewrite length_app. simpl. lia.
Qed.

Lemma getOrInsert_spec x c :
  comp_wf c → (Z.of_nat (ByValue.size c) < 2 ^ 32)%Z →
  let '(i, c') := ByValue.getOrInsert x c in
  comp_wf c' ∧ comp_ext c c' ∧ ByValue.ToInt c' !! x = Some i ∧
  (∀ y, y ≠ x → ByValue.ToInt c' !! y = ByValue.ToInt c !! y).
Proof.
  intros Hc Hs. unfold ByValue.getOrInsert. destruct (ByValue.ToInt c !! x) as [i|] eqn:Hx.
  { split; [done|]. split; [done|]. done. }
  unfold IdT. rewrite Z.mod_small by lia. split; [|split; [split; simpl|]].
  - split.
    + unfold ByValue.size in *. simpl. rewrite length_app. simpl. lia.
    + simpl. intros y j. destruct (decide (x = y)) as [<-|Hne].
      * rewrite lookup_insert_eq. intros [= <-]. exists (ByValue.size c). split; [done|].
        rewrite lookup_app_r by done. by rewrite Nat.sub_diag.
      * rewrite lookup_insert_ne by done. intros (k & -> & Hk)%(cw_at _ Hc). exists k. split; [done|].
        by apply lookup_app_l_Some.
  - by apply insert_subseteq.
  - by apply prefix_app_r.
  - simpl. split; [apply lookup_insert_eq|]. intros y Hne. by rewrite lookup_insert_ne.
Qed.
End by_value.

(** ** Runs of operations, on both representations *)

Inductive CompressorOp (T : Type) :=
  | OpGetOrInsert (Elem : T)
  | OpInsert (Elem : T)
  | OpInsertDummy (Elem : T)
  | OpGetOrNull (Elem : T)
  | OpAt (Idx : Z)
  | OpEnumerate
  | OpClear.
Arguments OpGetOrInsert {T} Elem.
Arguments OpInsert {T} Elem.
Arguments OpInsertDummy {T} Elem.
Arguments OpGetOrNull {T} Elem.
Arguments OpAt {T} Idx.
Arguments OpEnumerate {T}.
Arguments OpClear {T}.

Inductive CompressorResult (T : Type) :=
  | RId (Id : option Z) (Inserted : bool)
  | RElem (Elem : option T)
  | RAll (Elems : list (Z * T)).
Arguments RId {T} Id Inserted.
Arguments RElem {T} Elem.
Arguments RAll {T} Elems.

Section runs.
Context {T : Type} `{Countable T}.
Implicit Types (op : CompressorOp T) (c : ByValue.Compressor T) (m : ByRef.Compressor T).

Definition run_value op c : CompressorResult T * ByValue.Compressor T :=
  match op with
  | OpGetOrInsert x => let '(i, c) := ByValue.getOrInsert x c in (RId (Some i) false, c)
  | OpInsert x => let '(i, b, c) := ByValue.insert x c in (RId (Some i) b, c)
  | OpInsertDummy x => let '(i, c) := ByValue.insertDummy x c in (RId (Some i) false, c)
  | OpGetOrNull x => (RId (ByValue.getOrNull x c) false, c)
  | OpAt i => (RElem (ByValue.at_ i c), c)
  | OpEnumerate => (RAll (ByValue.enumerate c), c)
  | OpClear => (RElem None, ByValue.clear c)
  end.

Definition run_ref op m : CompressorResult T * ByRef.Compressor T :=
  match op with
  | OpGetOrInsert x => let '(i, m) := ByRef.getOrInsert x m in (RId (Some i) false, m)
  | OpInsert x => let '(i, b, m) := ByRef.insert x m in (RId (Some i) b, m)
  | OpInsertDummy x => let '(i, m) := ByRef.insertDummy x m in (RId (Some i) false, m)
  | OpGetOrNull x => (RId (ByRef.getOrNull x m) false, m)
  | OpAt i => (RElem (ByRef.at_ i m), m)
  | OpEnumerate => (RAll (ByRef.enumerate m), m)
  | OpClear => (RElem None, ByRef.clear m)
  end.

Fixpoint run_all {S R Op : Type} (run : Op → S → R * S) (ops : list Op) (s : S) : list R * S :=
  match ops with
  | [] => ([], s)
  | op :: ops => let '(r, s) := run op s in let '(rs, s) := run_all run ops s in (r :: rs, s)
  end.

(** The two hold the same objects, and map them to the same ids. *)
Record comp_sim c m : Prop := {
  cs_FromInt : ByRef.FromInt m = ByValue.FromInt c;
  cs_find x : ByRef.find x m = ByValue.ToInt c !! x;
  cs_addr k i : (k, i) ∈ ByRef.ToInt m → k < ByRef.size m
}.


(** Where [find] looks after an object was appended. *)
Lemma find_grow x y m l :
  (∀ e, e ∈ ByRef.ToInt m → e.1 < ByRef.size m) →
  ByRef.find x (ByRef.mk (l ++ ByRef.ToInt m) (ByRef.FromInt m ++ [y])) =
  match ByRef.find x (ByRef.mk l (ByRef.FromInt m ++ [y])) with
  | Some i => Some i
  | None => ByRef.find x m
  end.
Proof.
  intros Hl. unfold ByRef.find. simpl.
  assert (list_find (λ e : nat * Z, (ByRef.FromInt m ++ [y]) !! e.1 = Some x) (ByRef.ToInt m) =
          list_find (λ e : nat * Z, ByRef.FromInt m !! e.1 = Some x) (ByRef.ToInt m)) as Heq.
  { clear l. unfold ByRef.size in Hl. induction (ByRef.ToInt m) as [|e l IH]; [done|]. simpl.
    assert ((ByRef.FromInt m ++ [y]) !! e.1 = ByRef.FromInt m !! e.1) as Hlk
      by (apply lookup_app_l, Hl; set_solver).
    rewrite IH by (intros e' He'; apply Hl; set_solver).
    destruct (decide _), (decide _); try done; congruence. }
  induction l as [|e l IH]; simpl; [by rewrite Heq|]. destruct (decide _); [done|].
  destruct (list_find _ l) as [[k e']|]; simpl in *;
    destruct (list_find _ (l ++ _)) as [[k' e'']|]; simpl in *; congruence.
Qed.

Lemma insert_sim x c m :
  comp_sim c m → ByValue.ToInt c !! x = None →
  comp_sim (ByValue.mk (<[x := IdT (ByValue.size c)]> (ByValue.ToInt c)) (ByValue.FromInt c ++ [x]))
    (ByRef.mk ((ByRef.size m, IdT (ByRef.size m)) :: ByRef.ToInt m) (ByRef.FromInt m ++ [x])).
Proof.
  intros [HF Hf Ha] Hx. split; simpl.
  - by rewrite HF.
  - intros y. change (?e :: ByRef.ToInt m) with ([e] ++ ByRef.ToInt m).
    rewrite find_grow by (intros [k i]; apply Ha). unfold ByRef.find at 1. simpl.
    assert ((ByRef.FromInt m ++ [x]) !! ByRef.size m = Some x) as ->.
    { unfold ByRef.size. rewrite lookup_app_r by done. by rewrite Nat.sub_diag. }
    destruct (decide (x = y)) as [<-|Hne].
    + rewrite decide_True by done. simpl. rewrite lookup_insert_eq. unfold ByRef.size, ByValue.size. by rewrite HF.
    + rewrite decide_False by congruence. simpl. rewrite lookup_insert_ne by done. apply Hf.
  - intros k i. unfold ByRef.size in *. simpl. rewrite length_app. simpl.
    intros [[= -> ->]|Hin]%elem_of_cons; [lia|]. specialize (Ha k i Hin). lia.
Qed.

Lemma run_sim op c m :
  comp_sim c m → let '(r, c') := run_value op c in let '(r', m') := run_ref op m in
  r = r' ∧ comp_sim c' m'.
Proof.
  intros Hs. pose proof Hs as [HF Hf Ha].
  assert (ByRef.size m = ByValue.size c) as Hsz by (unfold ByRef.size, ByValue.size; by rewrite HF).
  destruct op as [x|x|x|x|i| |]; simpl.
  - unfold ByValue.getOrInsert, ByRef.getOrInsert. rewrite Hf.
    destruct (ByValue.ToInt c !! x) eqn:Hx; [done|]. split; [by rewrite Hsz|]. by apply insert_sim.
  - unfold ByValue.insert, ByRef.insert. rewrite Hf.
    destruct (ByValue.ToInt c !! x) eqn:Hx; [done|]. split; [by rewrite Hsz|]. by apply insert_sim.
  - split; [by rewrite Hsz|]. split; simpl.
    + by rewrite HF.
    + intros y. change (ByRef.ToInt m) with ([] ++ ByRef.ToInt m) at 1.
      rewrite find_grow by (intros [k i]; apply Ha). apply Hf.
    + intros k i Hin. unfold ByRef.size in *. simpl. rewrite length_app. specialize (Ha k i Hin). lia.
  - split; [|done]. unfold ByRef.getOrNull, ByValue.getOrNull. by rewrite Hf.
  - split; [|done]. unfold ByRef.at_, ByValue.at_. by rewrite HF.
  - split; [|done]. unfold ByRef.enumerate, ByValue.enumerate. by rewrite HF.
  - split; [done|]. split; [done| |by intros k i ?%elem_of_nil]. intros x. simpl. by rewrite lookup_empty.
Qed.

Lemma empty_sim : comp_sim ByValue.empty ByRef.empty.
Proof. split; [done| |by intros k i ?%elem_of_nil]. intros x. simpl. by rewrite lookup_empty. Qed.

Lemma run_all_sim ops c m :
  comp_sim c m → (run_all run_value ops c).1 = (run_all run_ref ops m).1 ∧
  comp_sim (run_all run_value ops c).2 (run_all run_ref ops m).2.
Proof.
  revert c m. induction ops as [|op ops IH]; intros c m Hs; simpl; [done|].
  pose proof (run_sim op c m Hs) as Hr. destruct (run_value op c) as [r c1], (run_ref op m) as [r' m1].
  destruct Hr as [<- Hs1]. destruct (IH c1 m1 Hs1) as [Heq Hs'].
  destruct (run_all run_value ops c1), (run_all run_ref ops m1). simpl in *. by rewrite Heq.
Qed.

(** Operations that map at most [2 ^ 32] objects keep the invariant. *)
Lemma run_value_wf op c :
  comp_wf c → (Z.of_nat (ByValue.size c) < 2 ^ 32)%Z → comp_wf (run_value op c).2.
Proof.
  intros Hc Hs. destruct op as [x|x|x|x|i| |]; simpl; try done.
  - pose proof (getOrInsert_spec x c Hc Hs) as Hg. destruct (ByValue.getOrInsert x c). apply Hg.
  - pose proof (getOrInsert_spec x c Hc Hs) as Hg.
    unfold ByValue.getOrInsert, ByValue.insert in *. by destruct (ByValue.ToInt c !! x); apply Hg.
  - destruct Hc as [Hs' Ha]. split.
    + unfold ByValue.size in *. simpl. rewrite length_app. simpl. lia.
    + intros y j Hj. destruct (Ha y j Hj) as (k & -> & Hk). exists k. split; [done|].
      by apply lookup_app_l_Some.
Qed.

Lemma run_value_size op c : ByValue.size (run_value op c).2 ≤ S (ByValue.size c).
Proof.
  unfold ByValue.size. destruct op as [x|x|x|x|i| |]; simpl; try lia.
  - unfold ByValue.getOrInsert. destruct (ByValue.ToInt c !! x); simpl; [lia|]. rewrite length_app. simpl. lia.
  - unfold ByValue.insert. destruct (ByValue.ToInt c !! x); simpl; [lia|]. rewrite length_app. simpl. lia.
  - rewrite length_app. simpl. lia.
Qed.

Lemma run_all_wf ops c :
  comp_wf c → (Z.of_nat (ByValue.size c + length ops) ≤ 2 ^ 32)%Z →
  comp_wf (run_all run_value ops c).2 ∧
  ByValue.size (run_all run_value ops c).2 ≤ ByValue.size c + length ops.
Proof.
  revert c. induction ops as [|op ops IH]; intros c Hc Hs; simpl in *; [split; [done|lia]|].
  pose proof (run_value_size op c) as Hsz. pose proof (run_value_wf op c Hc ltac:(lia)) as Hw.
  destruct (run_value op c) as [r c1]. simpl in *.
  destruct (IH c1 Hw ltac:(lia)) as [Hw' Hs']. destruct (run_all run_value ops c1). simpl in *.
  split; [done|lia].
Qed.
End runs.
