(* ===== verification/IDEProblem.v ===== *)
(** The interfaces the IFDS/IDE solvers are written against: the solver's
    configuration flags, the inter-procedural control-flow graph ([ICFG]), the
    semiring of edge functions ([SemiRing]), the tabulation problem
    ([IDETabulationProblem]) and its initial seeds ([InitialSeeds]). *)
From S2P Require Import Prelude JoinLattice.

(** * Flags (Utils/EnumFlags.h) and [IFDSIDESolverConfig] *)

Module EnumFlags.
(** The underlying type is [uint32_t]: [~] flips 32 bits. *)
Definition bits : Z := 32.
Definition complement (x : Z) : Z := Z.ldiff (Z.ones bits) x.
Definition setFlag (This Flag : Z) : Z := Z.lor This Flag.
Definition unsetFlag (This Flag : Z) : Z := Z.land This (complement Flag).
Definition setFlagTo (This Flag : Z) (Set_ : bool) : Z :=
  if Set_ then setFlag This Flag else unsetFlag This Flag.
Definition hasFlag (This Flag : Z) : bool := bool_decide (Z.land This Flag = Flag).
End EnumFlags.

Module IFDSIDESolverConfig.
Import EnumFlags.
Inductive SolverConfigOptions :=
  | None_ | FollowReturnsPastSeeds | AutoAddZero | ComputeValues | RecordEdges | EmitESG
  | ComputePersistedSummaries | All.

Definition value (o : SolverConfigOptions) : Z :=
  match o with
  | None_ => 0 | FollowReturnsPastSeeds => 1 | AutoAddZero => 2 | ComputeValues => 4
  | RecordEdges => 8 | EmitESG => 16 | ComputePersistedSummaries => 32
  | All => Z.ones 32
  end%Z.

(** The configuration is its options word. *)
Definition t := Z.
Definition has (c : t) (o : SolverConfigOptions) : bool := hasFlag c (value o).
Definition set (c : t) (o : SolverConfigOptions) (b : bool) : t := setFlagTo c (value o) b.
(** Default: [AutoAddZero | ComputeValues]. *)
Definition default_config : t := Z.lor (value AutoAddZero) (value ComputeValues).

Definition followReturnsPastSeeds (c : t) : bool := has c FollowReturnsPastSeeds.
Definition autoAddZero (c : t) : bool := has c AutoAddZero.
Definition computeValues (c : t) : bool := has c ComputeValues.
Definition recordEdges (c : t) : bool := has c RecordEdges.
Definition emitESG (c : t) : bool := has c EmitESG.
End IFDSIDESolverConfig.

Section EnumFlags_facts.
Import EnumFlags IFDSIDESolverConfig.
Local Open Scope Z_scope.

Lemma hasFlag_spec c f : hasFlag c f = true ↔ ∀ i, Z.testbit f i = true → Z.testbit c i = true.
Proof.
  unfold hasFlag. rewrite bool_decide_eq_true. split.
  - intros Hc i Hi. assert (Z.testbit (Z.land c f) i = true) as Hl by congruence.
    rewrite Z.land_spec in Hl. by apply andb_prop in Hl as [? _].
  - intros Hc. apply Z.bits_inj. intros i. rewrite Z.land_spec.
    destruct (Z.testbit f i) eqn:Hf; [by rewrite Hc | apply andb_false_r].
Qed.

Lemma setFlag_has c f : hasFlag (setFlag c f) f = true.
Proof. apply hasFlag_spec. intros i Hi. unfold setFlag. rewrite Z.lor_spec, Hi. apply orb_true_r. Qed.

Lemma setFlagTo_testbit c f b i :
  0 ≤ i < 32 →
  Z.testbit (setFlagTo c f b) i = if Z.testbit f i then b else Z.testbit c i.
Proof.
  intros Hi. unfold setFlagTo, setFlag, unsetFlag, complement, bits. destruct b.
  - rewrite Z.lor_spec. destruct (Z.testbit f i); [apply orb_true_r | apply orb_false_r].
  - rewrite Z.land_spec, Z.ldiff_spec, Z.ones_spec_low by lia.
    destruct (Z.testbit f i); simpl; [apply andb_false_r | apply andb_true_r].
Qed.

(** The single-bit options: which bit an option is. *)
Definition option_bit (o : SolverConfigOptions) : option Z :=
  match o with
  | FollowReturnsPastSeeds => Some 0 | AutoAddZero => Some 1 | ComputeValues => Some 2
  | RecordEdges => Some 3 | EmitESG => Some 4 | ComputePersistedSummaries => Some 5
  | None_ | All => None
  end.

Lemma value_bit o b : option_bit o = Some b → value o = 2 ^ b ∧ 0 ≤ b < 32.
Proof. destruct o; intros [=<-]; (split; [reflexivity | lia]). Qed.

Lemma has_bit c o b : option_bit o = Some b → has c o = Z.testbit c b.
Proof.
  intros Ho. destruct (value_bit o b Ho) as [Hv Hb]. unfold has. apply eq_bool_prop_intro.
  rewrite !Is_true_true, hasFlag_spec, Hv. split.
  - intros Hc. apply Hc, Z.pow2_bits_true. lia.
  - intros Hc i Hi. destruct (decide (i = b)) as [->|Hne]; [done|].
    rewrite Z.pow2_bits_false in Hi by lia. done.
Qed.
End EnumFlags_facts.

(** * The inter-procedural control-flow graph *)

(** What the solvers ask of an [ICFG] (ControlFlow/ICFG.h and CFG.h), with nodes
    [N], functions [F] and facts [D]. [getSparseNextUser] is present when the
    ICFG has sparse graphs ([has_getSparseCFG_v]): the next user of a fact after
    a node of a function, if it is unique. *)
Record ICFG (N D F : Type) := {
  getSuccsOf : N → list N;
  isCallSite : N → bool;
  isExitInst : N → bool;
  isStartPoint : N → bool;
  getFunctionOf : N → F;
  getStartPointsOf : F → list N;
  getCalleesOfCallAt : N → list F;
  getReturnSitesOfCallAt : N → list N;
  getCallersOf : F → list N;
  getCallsFromWithin : F → list N;
  allNonCallStartNodes : list N;
  getSparseNextUser : option (F → D → N → option N)
}.
Arguments getSuccsOf {N D F} _ _.
Arguments isCallSite {N D F} _ _.
Arguments isExitInst {N D F} _ _.
Arguments isStartPoint {N D F} _ _.
Arguments getFunctionOf {N D F} _ _.
Arguments getStartPointsOf {N D F} _ _.
Arguments getCalleesOfCallAt {N D F} _ _.
Arguments getReturnSitesOfCallAt {N D F} _ _.
Arguments getCallersOf {N D F} _ _.
Arguments getCallsFromWithin {N D F} _ _.
Arguments allNonCallStartNodes {N D F} _.
Arguments getSparseNextUser {N D F} _.

(** What the solver relies on: a function has at most one start point, which
    lies in the function (as for LLVM's entry blocks), and which is not among
    the nodes [allNonCallStartNodes] names. *)
Class ICFGLaws {N D F} (ICF : ICFG N D F) : Prop := {
  start_unique (f : F) (sp sp' : N) :
    sp ∈ getStartPointsOf ICF f → sp' ∈ getStartPointsOf ICF f → sp = sp';
  start_function (f : F) (sp : N) :
    sp ∈ getStartPointsOf ICF f → getFunctionOf ICF sp = f;
  start_not_other (f : F) (sp : N) :
    sp ∈ getStartPointsOf ICF f → sp ∉ allNonCallStartNodes ICF
}.

(** * The semiring of edge functions (Utils/SemiRing.h) *)

Class SemiRing (L EF : Type) := {
  extend : EF → EF → EF;
  combine : EF → EF → EF;
  identity : EF;
  allTopFunction : EF;
  (** [llvm::isa<AllTop<l_t>>] *)
  isAllTop : EF → bool;
  computeTarget : EF → L → L
}.

(** [f] is below [g]: combining [f] into [g] changes nothing. *)
Definition ef_le {L EF} `{SemiRing L EF} (f g : EF) : Prop := combine f g = g.
Infix "⊑ₑ" := ef_le (at level 70) : phasar_scope.

(** What the fixpoint computation relies on. *)
Class SemiRingLaws (L EF : Type) `{SemiRing L EF} : Prop := {
  combine_assoc (f g h : EF) : combine f (combine g h) = combine (combine f g) h;
  combine_comm (f g : EF) : combine f g = combine g f;
  combine_idemp (f : EF) : combine f f = f;
  combine_top_l (f : EF) : combine allTopFunction f = f;
  isAllTop_spec (f : EF) : isAllTop f = true ↔ f = allTopFunction;
  extend_mono (f f' g g' : EF) :
    combine f f' = f' → combine g g' = g' → combine (extend f g) (extend f' g') = extend f' g'
}.

(** Distributive problems: extending commutes with combining. *)
Class SemiRingDistributive (L EF : Type) `{SemiRing L EF} : Prop := {
  extend_combine_l (f g h : EF) :
    extend (combine f g) h = combine (extend f h) (extend g h);
  extend_combine_r (f g h : EF) :
    extend f (combine g h) = combine (extend f g) (extend f h)
}.

Section SemiRing_facts.
Context {L EF : Type} `{SemiRingLaws L EF}.
Implicit Types f g h : EF.
Local Open Scope phasar_scope.

#[export] Instance ef_le_preorder : PreOrder (ef_le (EF := EF)).
Proof.
  split.
  - intros f. apply combine_idemp.
  - intros f g h Hfg Hgh. unfold ef_le in *. rewrite <- Hgh, combine_assoc. by rewrite Hfg.
Qed.

#[export] Instance ef_le_antisymm : AntiSymm (=) (ef_le (EF := EF)).
Proof. intros f g Hfg Hgf. unfold ef_le in *. rewrite <- Hfg, combine_comm. done. Qed.

Lemma combine_top_r f : combine f allTopFunction = f.
Proof. rewrite combine_comm. apply combine_top_l. Qed.

Lemma ef_le_top f : allTopFunction ⊑ₑ f.
Proof. apply combine_top_l. Qed.

Lemma ef_le_top_inv f : f ⊑ₑ allTopFunction → f = allTopFunction.
Proof. unfold ef_le. by rewrite combine_top_r. Qed.

Lemma combine_ub_l f g : f ⊑ₑ combine f g.
Proof. unfold ef_le. by rewrite combine_assoc, combine_idemp. Qed.
Lemma combine_ub_r f g : g ⊑ₑ combine f g.
Proof. rewrite combine_comm. apply combine_ub_l. Qed.

Lemma combine_lub f g h : combine f g ⊑ₑ h ↔ f ⊑ₑ h ∧ g ⊑ₑ h.
Proof.
  split.
  - intros Hh. split; (transitivity (combine f g); [|done]);
      [apply combine_ub_l | apply combine_ub_r].
  - unfold ef_le. intros [Hf Hg]. by rewrite <- combine_assoc, Hg.
Qed.

Lemma combine_le_mono f f' g g' : f ⊑ₑ f' → g ⊑ₑ g' → combine f g ⊑ₑ combine f' g'.
Proof.
  intros Hf Hg. apply combine_lub. split.
  - transitivity f'; [done | apply combine_ub_l].
  - transitivity g'; [done | apply combine_ub_r].
Qed.

Lemma extend_le_mono f f' g g' : f ⊑ₑ f' → g ⊑ₑ g' → extend f g ⊑ₑ extend f' g'.
Proof. apply extend_mono. Qed.

#[export] Instance extend_proper : Proper (ef_le ==> ef_le ==> ef_le) (extend (EF := EF)).
Proof. intros f f' Hf g g' Hg. by apply extend_le_mono. Qed.
#[export] Instance combine_proper : Proper (ef_le ==> ef_le ==> ef_le) (combine (EF := EF)).
Proof. intros f f' Hf g g' Hg. by apply combine_le_mono. Qed.
End SemiRing_facts.

#[export] Hint Resolve combine_ub_l combine_ub_r ef_le_top extend_le_mono : phasar.

(** * Initial seeds (DataFlow/IfdsIde/InitialSeeds.h) *)

Module InitialSeeds.
Section seeds.
Context {N D L : Type} `{Countable N, Countable D}.

(** [GeneralizedSeeds = std::map<N, std::map<D, L>>]. *)
Abbreviation t := (gmap N (gmap D L)).
Implicit Types (Seeds : t).

(** The constructor from [std::map<N, std::set<D>>], for [BinaryDomain]. *)
Definition of_sets (BOTTOM : L) (Seeds : gmap N (gset D)) : t :=
  omap (λ Facts : gset D,
    if decide (Facts = ∅) then None else Some (gset_to_gmap BOTTOM Facts)) Seeds.

(** [addSeed]: [Seeds[Node].insert_or_assign(Fact, Value)]. *)
Definition addSeed (Node : N) (Fact : D) (Value : L) Seeds : t :=
  <[Node := <[Fact := Value]> (default ∅ (Seeds !! Node))]> Seeds.

Definition countInitialSeeds Seeds : nat :=
  foldr (λ kv n, size kv.2 + n) 0 (map_to_list Seeds).

Definition countInitialSeedsAt Seeds (Node : N) : nat :=
  match Seeds !! Node with Some Facts => size Facts | None => 0 end.

Definition containsInitialSeedsFor Seeds (Node : N) : bool :=
  bool_decide (is_Some (Seeds !! Node)).

Definition empty Seeds : bool := bool_decide (Seeds = ∅).

(** A fact seeded at a node, with its value. *)
Definition seeded Seeds (Node : N) (Fact : D) (Value : L) : Prop :=
  ∃ Facts, Seeds !! Node = Some Facts ∧ Facts !! Fact = Some Value.

Lemma seeded_addSeed Node Fact Value Seeds n d v :
  seeded (addSeed Node Fact Value Seeds) n d v ↔
  if decide (n = Node ∧ d = Fact) then v = Value else seeded Seeds n d v.
Proof.
  unfold seeded, addSeed. destruct (decide (n = Node)) as [->|Hn].
  - rewrite lookup_insert_eq. destruct (decide (d = Fact)) as [->|Hd].
    + rewrite decide_True by done. split.
      * intros (Facts & [= <-] & Hv). rewrite lookup_insert_eq in Hv. congruence.
      * intros ->. eexists. split; [done|]. apply lookup_insert_eq.
    + rewrite decide_False by naive_solver. split.
      * intros (Facts & [= <-] & Hv). rewrite lookup_insert_ne in Hv by done.
        destruct (Seeds !! Node) as [m|]; [by eauto | done].
      * intros (Facts & HF & Hv). rewrite HF. eexists. split; [done|].
        by rewrite lookup_insert_ne.
  - rewrite lookup_insert_ne, decide_False by naive_solver. done.
Qed.

Lemma countInitialSeeds_add Node Fact Value Seeds :
  countInitialSeedsAt (addSeed Node Fact Value Seeds) Node =
  match Seeds !! Node ≫= λ Facts, Facts !! Fact with
  | Some _ => countInitialSeedsAt Seeds Node
  | None => S (countInitialSeedsAt Seeds Node)
  end.
Proof.
  unfold countInitialSeedsAt, addSeed. rewrite lookup_insert_eq.
  destruct (Seeds !! Node) as [m|] eqn:Hm; simpl.
  - destruct (m !! Fact) as [v|] eqn:Hf.
    + by rewrite map_size_insert_Some by eauto.
    + by rewrite map_size_insert_None.
  - by rewrite map_size_insert_None, map_size_empty.
Qed.
End seeds.
End InitialSeeds.

(** * The tabulation problem (DataFlow/IfdsIde/IDETabulationProblem.h) *)

(** The flow functions return a [Container], a [std::set] of facts. *)
Record IDETabulationProblem (N D F L EF : Type) `{Countable N, Countable D} := {
  (* FlowFunctions *)
  getNormalFlowFunction : N → N → D → gset D;
  getCallFlowFunction : N → F → D → gset D;
  getRetFlowFunction : N → F → N → N → D → gset D;
  getCallToRetFlowFunction : N → N → list F → D → gset D;
  getSummaryFlowFunction : N → F → option (D → gset D);
  (* EdgeFunctions *)
  getNormalEdgeFunction : N → D → N → D → EF;
  getCallEdgeFunction : N → D → F → D → EF;
  getReturnEdgeFunction : N → F → N → D → N → D → EF;
  getCallToRetEdgeFunction : N → D → N → D → list F → EF;
  getSummaryEdgeFunction : N → D → N → D → EF;
  (* the problem itself *)
  getZeroValue : D;
  isZeroValue : D → bool;
  initialSeeds : gmap N (gmap D L);
  getIFDSIDESolverConfig : IFDSIDESolverConfig.t
}.
Arguments getNormalFlowFunction {N D F L EF _ _ _ _} _.
Arguments getCallFlowFunction {N D F L EF _ _ _ _} _.
Arguments getRetFlowFunction {N D F L EF _ _ _ _} _.
Arguments getCallToRetFlowFunction {N D F L EF _ _ _ _} _.
Arguments getSummaryFlowFunction {N D F L EF _ _ _ _} _.
Arguments getNormalEdgeFunction {N D F L EF _ _ _ _} _.
Arguments getCallEdgeFunction {N D F L EF _ _ _ _} _.
Arguments getReturnEdgeFunction {N D F L EF _ _ _ _} _.
Arguments getCallToRetEdgeFunction {N D F L EF _ _ _ _} _.
Arguments getSummaryEdgeFunction {N D F L EF _ _ _ _} _.
Arguments getZeroValue {N D F L EF _ _ _ _} _.
Arguments isZeroValue {N D F L EF _ _ _ _} _.
Arguments initialSeeds {N D F L EF _ _ _ _} _.
Arguments getIFDSIDESolverConfig {N D F L EF _ _ _ _} _.

(** [ZeroedFlowFunction] (FlowFunctions.h): keeps the zero fact alive. *)
Definition ZeroedFlowFunction {D} `{Countable D} (Delegate : D → gset D) (ZeroValue : D)
    (Source : D) : gset D :=
  if decide (Source = ZeroValue) then Delegate Source ∪ {[ZeroValue]} else Delegate Source.
