(* ===== verification/FlowFunctions.v ===== *)
(** The flow-function templates (DataFlow/IfdsIde/FlowFunctions.h): the factories of
    [FlowFunctionTemplates] an analysis builds its flow functions from. A flow
    function maps a fact to the set of facts it flows to ([computeTargets]); what a
    node does to all the facts that hold before it is its [lift] to sets. *)
From S2P Require Import Prelude JoinLattice IDEProblem.

Module FlowFunctionTemplates.
Section templates.
Context {D : Type} `{Countable D}.
Abbreviation FlowFunction := (D → gset D).
Implicit Types (Source FactToGenerate From FactToKill : D).

(** [detail::makeContainer]: inserts the facts of a range. *)
Definition makeContainer (Rng : list D) : gset D :=
  for_each Rng (λ Fact C, {[Fact]} ∪ C) ∅.

Definition identityFlow : FlowFunction := λ Source, {[Source]}.

Definition lambdaFlow (F : D → gset D) : FlowFunction := λ Source, F Source.

(** ** Gen flow functions *)

Definition generateFlow FactToGenerate From : FlowFunction := λ Source,
  if decide (Source = From) then {[Source; FactToGenerate]} else {[Source]}.

Definition generateFlowIf FactToGenerate (Predicate : D → bool) : FlowFunction := λ Source,
  if Predicate Source then {[Source; FactToGenerate]} else {[Source]}.

Definition generateManyFlows (FactsToGenerate : list D) From : FlowFunction :=
  let GenValues := makeContainer FactsToGenerate in
  λ Source, if decide (Source = From) then {[Source]} ∪ GenValues else {[Source]}.

(** ** Kill flow functions *)

Definition killFlow FactToKill : FlowFunction := λ Source,
  if decide (Source = FactToKill) then ∅ else {[Source]}.

Definition killFlowIf (Predicate : D → bool) : FlowFunction := λ Source,
  if Predicate Source then ∅ else {[Source]}.

Definition killManyFlows (FactsToKill : list D) : FlowFunction :=
  let KillValues := makeContainer FactsToKill in
  λ Source, if decide (Source ∈ KillValues) then ∅ else {[Source]}.

Definition killAllFlows : FlowFunction := λ _, ∅.

(** ** Gen-and-kill flow functions *)

Definition generateFlowAndKillAllOthers FactToGenerate From : FlowFunction := λ Source,
  if decide (Source = From) then {[Source; FactToGenerate]} else ∅.

(** The constructor inserts [From] into the generated facts. *)
Definition generateManyFlowsAndKillAllOthers (FactsToGenerate : list D) From : FlowFunction :=
  let GenValues := {[From]} ∪ makeContainer FactsToGenerate in
  λ Source, if decide (Source = From) then GenValues else ∅.

(** ** Miscellaneous flow functions *)

Definition transferFlow FactToGenerate From : FlowFunction := λ Source,
  if decide (Source = From) then {[Source; FactToGenerate]}
  else if decide (Source = FactToGenerate) then ∅
  else {[Source]}.

(** The smaller result is inserted into the larger one. *)
Definition unionFlows (OneFF OtherFF : FlowFunction) : FlowFunction := λ Source,
  let OneRet := OneFF Source in
  let OtherRet := OtherFF Source in
  let '(OneRet, OtherRet) :=
    if decide (size OneRet < size OtherRet) then (OtherRet, OneRet) else (OneRet, OtherRet) in
  OneRet ∪ OtherRet.
End templates.
End FlowFunctionTemplates.

(** * Their effect on sets of facts *)

Section lift.
Context {D : Type} `{Countable D}.
Import FlowFunctionTemplates.
Implicit Types (f g : D → gset D) (X Y : gset D) (a b x y : D).

(** The facts that hold after a node, when those of [X] hold before it. *)
Definition lift f X : gset D := set_bind f X.

Lemma elem_of_lift f X y : y ∈ lift f X ↔ ∃ x, x ∈ X ∧ y ∈ f x.
Proof. unfold lift. rewrite elem_of_set_bind. done. Qed.

(** Flow functions are distributive. *)
Lemma lift_union f X Y : lift f (X ∪ Y) = lift f X ∪ lift f Y.
Proof. apply set_eq. intros y. rewrite elem_of_union, !elem_of_lift. set_solver. Qed.

Lemma makeContainer_spec (l : list D) x : x ∈ makeContainer l ↔ x ∈ l.
Proof.
  unfold makeContainer. assert (∀ C, x ∈ for_each l (λ Fact C, {[Fact]} ∪ C) C ↔ x ∈ l ∨ x ∈ C) as ->; [|set_solver].
  induction l as [|y l IH]; intros C; [set_solver|]. rewrite for_each_cons, IH. set_solver.
Qed.

Lemma unionFlows_eq f g x : unionFlows f g x = f x ∪ g x.
Proof. unfold unionFlows. destruct (decide _); [apply (comm_L (∪))|done]. Qed.

(** Facts that are kept: each flows to itself only. *)
Lemma lift_filter f (P : D → Prop) `{∀ x, Decision (P x)} X :
  (∀ x, f x = if decide (P x) then {[x]} else ∅) → lift f X = filter P X.
Proof.
  intros Hf. apply set_eq. intros y. rewrite elem_of_lift, elem_of_filter. split.
  - intros (x & Hx & Hy). rewrite Hf in Hy. destruct (decide (P x)); [|set_solver].
    by apply elem_of_singleton in Hy as ->.
  - intros [HP Hy]. exists y. split; [done|]. rewrite Hf, decide_True by done. set_solver.
Qed.

(** Facts [G] generated from the fact [a], all others flowing through [h]. *)
Lemma lift_from f h a (G : gset D) X :
  (∀ x, f x = if decide (x = a) then {[x]} ∪ G else h x) → h a = {[a]} →
  lift f X = lift h X ∪ (if decide (a ∈ X) then G else ∅).
Proof.
  intros Hf Hh. apply set_eq. intros y. rewrite elem_of_union, !elem_of_lift. split.
  - intros (x & Hx & Hy). rewrite Hf in Hy. destruct (decide (x = a)) as [->|].
    + rewrite decide_True by done. apply elem_of_union in Hy as [Hy|Hy]; [left|by right].
      exists a. by rewrite Hh.
    + left. by exists x.
  - intros [(x & Hx & Hy)|Hy].
    + exists x. split; [done|]. rewrite Hf. destruct (decide (x = a)) as [->|]; [|done].
      rewrite Hh in Hy. set_solver.
    + destruct (decide (a ∈ X)); [|set_solver]. exists a. split; [done|].
      rewrite Hf, decide_True by done. set_solver.
Qed.

Lemma lift_identity X : lift identityFlow X = X.
Proof. unfold lift, identityFlow. set_solver. Qed.

Lemma lift_generateFlow a b X :
  lift (generateFlow a b) X = X ∪ (if decide (b ∈ X) then {[a]} else ∅).
Proof. rewrite (lift_from _ identityFlow b {[a]}), lift_identity by done. done. Qed.

Lemma lift_generateManyFlows l b X :
  lift (generateManyFlows l b) X = X ∪ (if decide (b ∈ X) then list_to_set l else ∅).
Proof.
  rewrite (lift_from _ identityFlow b (makeContainer l)), lift_identity by done.
  f_equal. destruct (decide _); [|done]. apply set_eq. intros x.
  by rewrite makeContainer_spec, elem_of_list_to_set.
Qed.

Lemma lift_killFlow a X : lift (killFlow a) X = X ∖ {[a]}.
Proof.
  rewrite (lift_filter _ (λ x, x ≠ a)); [|intros x; unfold killFlow; repeat destruct (decide _); done].
  apply set_eq. intros x. rewrite elem_of_filter. set_solver.
Qed.

Lemma lift_killManyFlows l X : lift (killManyFlows l) X = X ∖ list_to_set l.
Proof.
  rewrite (lift_filter _ (λ x, x ∉ makeContainer l));
    [|intros x; unfold killManyFlows; repeat destruct (decide _); done].
  apply set_eq. intros x. rewrite elem_of_filter, makeContainer_spec, elem_of_difference, elem_of_list_to_set.
  naive_solver.
Qed.

Lemma lift_transferFlow a b X :
  lift (transferFlow a b) X = if decide (b ∈ X) then X ∪ {[a]} else X ∖ {[a]}.
Proof.
  destruct (decide (a = b)) as [->|Hab].
  - assert (∀ x, transferFlow b b x = {[x]}) as Hid.
    { intros x. unfold transferFlow. repeat destruct (decide _); set_solver. }
    transitivity X; [|destruct (decide _); set_solver].
    apply set_eq. intros y. rewrite elem_of_lift. setoid_rewrite Hid. set_solver.
  - rewrite (lift_from _ (killFlow a) b {[a]}), lift_killFlow; [|done|].
    + destruct (decide (b ∈ X)); apply set_eq; intros x; destruct (decide (x = a)); set_solver.
    + unfold killFlow. by rewrite decide_False.
Qed.

Lemma lift_generateFlowAndKillAllOthers a b X :
  lift (generateFlowAndKillAllOthers a b) X = if decide (b ∈ X) then {[b; a]} else ∅.
Proof.
  apply set_eq. intros y. rewrite elem_of_lift. unfold generateFlowAndKillAllOthers. split.
  - intros (x & Hx & Hy). destruct (decide (x = b)) as [->|]; [|set_solver]. by rewrite decide_True.
  - destruct (decide (b ∈ X)); [|set_solver]. intros Hy. exists b. by rewrite decide_True.
Qed.

Lemma lift_unionFlows f g X : lift (unionFlows f g) X = lift f X ∪ lift g X.
Proof.
  apply set_eq. intros y. rewrite elem_of_union, !elem_of_lift.
  setoid_rewrite unionFlows_eq. set_solver.
Qed.

Lemma lift_zeroed f z X :
  lift (ZeroedFlowFunction f z) X = lift f X ∪ (if decide (z ∈ X) then {[z]} else ∅).
Proof.
  apply set_eq. intros y. rewrite elem_of_union, !elem_of_lift. unfold ZeroedFlowFunction. split.
  - intros (x & Hx & Hy). destruct (decide (x = z)) as [->|]; [|left; by exists x].
    rewrite decide_True by done. apply elem_of_union in Hy as [Hy|Hy]; [left; by exists z|by right].
  - intros [(x & Hx & Hy)|Hy].
    + exists x. split; [done|]. destruct (decide (x = z)); set_solver.
    + destruct (decide (z ∈ X)); [|set_solver]. exists z. rewrite decide_True by done. set_solver.
Qed.
End lift.
