(* ===== verification/FlowEdgeFunctionCache.v ===== *)
(** [FlowEdgeFunctionCache] (DataFlow/IfdsIde/Solver/FlowEdgeFunctionCache.h): the
    memo tables the solver asks for flow and edge functions, with the key
    compressor that packs two LLVM values into one 64-bit key. Statements and
    facts are LLVM values ([n_t] and [d_t] are pointers to [llvm::Value]); the
    queries are the arguments of the ten [get*Function] methods.

    The model keeps a log [Constructed] of the factory calls a cache makes, in
    place of the [*_Construction] counters. The C++ [ZFFOwner] only owns the
    wrapped flow functions. *)
From S2P Require Import Prelude JoinLattice EquivalenceClassMap IDEProblem.

(** * The key compressor *)

Module KeyCompressor.
Section ops.
Context {V : Type} `{Countable V}.

(** [LLVMMapKeyCompressor::getCompressedID]: the ids are [uint32_t]s, given
    out in order from 1. *)
Definition getCompressedID (Key : V) (Map : gmap V Z) : Z * gmap V Z :=
  match Map !! Key with
  | Some id => (id, Map)
  | None => let id := ((Z.of_nat (size Map) + 1) mod 2 ^ 32)%Z in (id, <[Key := id]> Map)
  end.

(** [createEdgeFunctionInstKey] and [createEdgeFunctionNodeKey]. *)
Definition createKey (Lhs Rhs : V) (Map : gmap V Z) : Z * gmap V Z :=
  let Val := 0%Z in
  let '(l, Map) := getCompressedID Lhs Map in
  let Val := Z.lor Val l in
  let Val := (Z.shiftl Val 32 mod 2 ^ 64)%Z in
  let '(r, Map) := getCompressedID Rhs Map in
  (Z.lor Val r, Map).
End ops.
End KeyCompressor.

(** * The cache *)

Section cache.
Context {V N D F L EF : Type} `{Countable V, Countable N, Countable D, Countable F, EqDecision EF}.
(** The upcasts to [const llvm::Value *]. *)
Context (nval : N → V) (dval : D → V).
Context (Problem : IDETabulationProblem N D F L EF).
Abbreviation FlowFunctionType := (D → gset D).

(** [NormalEdgeFlowData]. *)
Record NormalEdgeFlowData := mkData {
  FlowFuncPtr : option FlowFunctionType;
  EdgeFunctionMap : EquivalenceClassMapNG.t Z EF
}.

(** The methods that ask the cache. *)
Inductive Query :=
  | QNormalFF (Curr Succ : N)
  | QCallFF (CallSite : N) (DestFun : F)
  | QRetFF (CallSite : N) (CalleeFun : F) (ExitInst RetSite : N)
  | QCallToRetFF (CallSite RetSite : N) (Callees : list F)
  | QSummaryFF (CallSite : N) (DestFun : F)
  | QNormalEF (Curr : N) (CurrNode : D) (Succ : N) (SuccNode : D)
  | QCallEF (CallSite : N) (SrcNode : D) (DestinationFunction : F) (DestNode : D)
  | QReturnEF (CallSite : N) (CalleeFunction : F) (ExitInst : N) (ExitNode : D)
      (RetSite : N) (RetNode : D)
  | QCallToRetEF (CallSite : N) (CallNode : D) (RetSite : N) (RetSiteNode : D) (Callees : list F)
  | QSummaryEF (CallSite : N) (CallNode : D) (RetSite : N) (RetSiteNode : D).

Record FlowEdgeFunctionCache := mkCache {
  Compressor : gmap V Z;
  NormalFunctionCache : gmap Z NormalEdgeFlowData;
  CallFlowFunctionCache : gmap (N * F) FlowFunctionType;
  ReturnFlowFunctionCache : gmap (N * F * N * N) FlowFunctionType;
  CallEdgeFunctionCache : gmap (N * D * F * D) EF;
  ReturnEdgeFunctionCache : gmap (N * F * N * D * N * D) EF;
  SummaryEdgeFunctionCache : gmap (N * D * N * D) EF;
  Constructed : list Query
}.
Implicit Types (c : FlowEdgeFunctionCache).

Definition emptyCache : FlowEdgeFunctionCache := mkCache ∅ ∅ ∅ ∅ ∅ ∅ ∅ [].

(** The function [AutoAddZero] wraps. *)
Definition wrapZero (FF : FlowFunctionType) : FlowFunctionType :=
  if IFDSIDESolverConfig.autoAddZero (getIFDSIDESolverConfig Problem)
  then ZeroedFlowFunction FF (getZeroValue Problem) else FF.

(** [NormalFunctionCache[Key]]: a default entry where there is none. *)
Definition normalEntry (Key : Z) c : NormalEdgeFlowData :=
  default (mkData None EquivalenceClassMapNG.empty) (NormalFunctionCache c !! Key).

Definition set_normal (Map : gmap V Z) (Key : Z) (data : NormalEdgeFlowData) (log : list Query) c :
    FlowEdgeFunctionCache :=
  mkCache Map (<[Key := data]> (NormalFunctionCache c)) (CallFlowFunctionCache c)
    (ReturnFlowFunctionCache c) (CallEdgeFunctionCache c) (ReturnEdgeFunctionCache c)
    (SummaryEdgeFunctionCache c) (Constructed c ++ log).

(** [getNormalFlowFunction] and [getCallToRetFlowFunction] share their cache;
    [q] is what the log records, [FF] what the problem returns. *)
Definition getSharedFlowFunction (q : Query) (Lhs Rhs : N) (FF : FlowFunctionType) c :
    FlowFunctionType * FlowEdgeFunctionCache :=
  let '(Key, Map) := KeyCompressor.createKey (nval Lhs) (nval Rhs) (Compressor c) in
  let FE := normalEntry Key c in
  match FlowFuncPtr FE with
  | Some FF => (FF, set_normal Map Key FE [] c)
  | None =>
      let FF := wrapZero FF in
      (FF, set_normal Map Key (mkData (Some FF) (EdgeFunctionMap FE)) [q] c)
  end.

Definition getNormalFlowFunction' (Curr Succ : N) c :=
  getSharedFlowFunction (QNormalFF Curr Succ) Curr Succ
    (getNormalFlowFunction Problem Curr Succ) c.
Definition getCallToRetFlowFunction' (CallSite RetSite : N) (Callees : list F) c :=
  getSharedFlowFunction (QCallToRetFF CallSite RetSite Callees) CallSite RetSite
    (getCallToRetFlowFunction Problem CallSite RetSite Callees) c.

(** [getNormalEdgeFunction] and [getCallToRetEdgeFunction]. *)
Definition getSharedEdgeFunction (q : Query) (Lhs : N) (LNode : D) (Rhs : N) (RNode : D)
    (MakeEF : EF) c : EF * FlowEdgeFunctionCache :=
  let '(OuterMapKey, Map) := KeyCompressor.createKey (nval Lhs) (nval Rhs) (Compressor c) in
  let FE := normalEntry OuterMapKey c in
  let '(NodeKey, Map) := KeyCompressor.createKey (dval LNode) (dval RNode) Map in
  let '(Ret, m, Hit) := EquivalenceClassMapNG.getOrInsertLazy NodeKey MakeEF (EdgeFunctionMap FE) in
  (Ret, set_normal Map OuterMapKey (mkData (FlowFuncPtr FE) m) (if Hit : bool then [] else [q]) c).

Definition getNormalEdgeFunction' (Curr : N) (CurrNode : D) (Succ : N) (SuccNode : D) c :=
  getSharedEdgeFunction (QNormalEF Curr CurrNode Succ SuccNode) Curr CurrNode Succ SuccNode
    (getNormalEdgeFunction Problem Curr CurrNode Succ SuccNode) c.
Definition getCallToRetEdgeFunction' (CallSite : N) (CallNode : D) (RetSite : N) (RetSiteNode : D)
    (Callees : list F) c :=
  getSharedEdgeFunction (QCallToRetEF CallSite CallNode RetSite RetSiteNode Callees)
    CallSite CallNode RetSite RetSiteNode
    (getCallToRetEdgeFunction Problem CallSite CallNode RetSite RetSiteNode Callees) c.

(** [std::map::try_emplace] with a lazily made value. *)
Definition try_emplace {K A} `{Countable K} (Key : K) (mk : A) (m : gmap K A) : A * bool * gmap K A :=
  match m !! Key with
  | Some a => (a, false, m)
  | None => (mk, true, <[Key := mk]> m)
  end.

Definition getCallFlowFunction' (CallSite : N) (DestFun : F) c :=
  let '(FF, Inserted, m) := try_emplace (CallSite, DestFun)
    (wrapZero (getCallFlowFunction Problem CallSite DestFun)) (CallFlowFunctionCache c) in
  (FF, mkCache (Compressor c) (NormalFunctionCache c) m (ReturnFlowFunctionCache c)
    (CallEdgeFunctionCache c) (ReturnEdgeFunctionCache c) (SummaryEdgeFunctionCache c)
    (Constructed c ++ if Inserted : bool then [QCallFF CallSite DestFun] else [])).

Definition getRetFlowFunction' (CallSite : N) (CalleeFun : F) (ExitInst RetSite : N) c :=
  let '(FF, Inserted, m) := try_emplace (CallSite, CalleeFun, ExitInst, RetSite)
    (wrapZero (getRetFlowFunction Problem CallSite CalleeFun ExitInst RetSite))
    (ReturnFlowFunctionCache c) in
  (FF, mkCache (Compressor c) (NormalFunctionCache c) (CallFlowFunctionCache c) m
    (CallEdgeFunctionCache c) (ReturnEdgeFunctionCache c) (SummaryEdgeFunctionCache c)
    (Constructed c ++ if Inserted : bool then [QRetFF CallSite CalleeFun ExitInst RetSite] else [])).

Definition getCallEdgeFunction' (CallSite : N) (SrcNode : D) (DestinationFunction : F)
    (DestNode : D) c :=
  let '(Ret, Inserted, m) := try_emplace (CallSite, SrcNode, DestinationFunction, DestNode)
    (getCallEdgeFunction Problem CallSite SrcNode DestinationFunction DestNode)
    (CallEdgeFunctionCache c) in
  (Ret, mkCache (Compressor c) (NormalFunctionCache c) (CallFlowFunctionCache c)
    (ReturnFlowFunctionCache c) m (ReturnEdgeFunctionCache c) (SummaryEdgeFunctionCache c)
    (Constructed c ++
      if Inserted : bool then [QCallEF CallSite SrcNode DestinationFunction DestNode] else [])).

Definition getReturnEdgeFunction' (CallSite : N) (CalleeFunction : F) (ExitInst : N)
    (ExitNode : D) (RetSite : N) (RetNode : D) c :=
  let '(Ret, Inserted, m) :=
    try_emplace (CallSite, CalleeFunction, ExitInst, ExitNode, RetSite, RetNode)
      (getReturnEdgeFunction Problem CallSite CalleeFunction ExitInst ExitNode RetSite RetNode)
      (ReturnEdgeFunctionCache c) in
  (Ret, mkCache (Compressor c) (NormalFunctionCache c) (CallFlowFunctionCache c)
    (ReturnFlowFunctionCache c) (CallEdgeFunctionCache c) m (SummaryEdgeFunctionCache c)
    (Constructed c ++ if Inserted : bool
      then [QReturnEF CallSite CalleeFunction ExitInst ExitNode RetSite RetNode] else [])).

Definition getSummaryEdgeFunction' (CallSite : N) (CallNode : D) (RetSite : N) (RetSiteNode : D) c :=
  let '(Ret, Inserted, m) := try_emplace (CallSite, CallNode, RetSite, RetSiteNode)
    (getSummaryEdgeFunction Problem CallSite CallNode RetSite RetSiteNode)
    (SummaryEdgeFunctionCache c) in
  (Ret, mkCache (Compressor c) (NormalFunctionCache c) (CallFlowFunctionCache c)
    (ReturnFlowFunctionCache c) (CallEdgeFunctionCache c) (ReturnEdgeFunctionCache c) m
    (Constructed c ++
      if Inserted : bool then [QSummaryEF CallSite CallNode RetSite RetSiteNode] else [])).

(** [getSummaryFlowFunction] does not cache, and does not add zero. *)
Definition getSummaryFlowFunction' (CallSite : N) (DestFun : F) c :=
  (getSummaryFlowFunction Problem CallSite DestFun,
   mkCache (Compressor c) (NormalFunctionCache c) (CallFlowFunctionCache c)
     (ReturnFlowFunctionCache c) (CallEdgeFunctionCache c) (ReturnEdgeFunctionCache c)
     (SummaryEdgeFunctionCache c) (Constructed c ++ [QSummaryFF CallSite DestFun])).

(** ** The cache as a server of queries *)

Inductive Answer :=
  | Flow (FF : FlowFunctionType)
  | SummaryFlow (FF : option FlowFunctionType)
  | Edge (f : EF).

Definition ask (q : Query) c : Answer * FlowEdgeFunctionCache :=
  match q with
  | QNormalFF a b => let '(r, c) := getNormalFlowFunction' a b c in (Flow r, c)
  | QCallFF a b => let '(r, c) := getCallFlowFunction' a b c in (Flow r, c)
  | QRetFF a b x y => let '(r, c) := getRetFlowFunction' a b x y c in (Flow r, c)
  | QCallToRetFF a b l => let '(r, c) := getCallToRetFlowFunction' a b l c in (Flow r, c)
  | QSummaryFF a b => let '(r, c) := getSummaryFlowFunction' a b c in (SummaryFlow r, c)
  | QNormalEF a x b y => let '(r, c) := getNormalEdgeFunction' a x b y c in (Edge r, c)
  | QCallEF a x g y => let '(r, c) := getCallEdgeFunction' a x g y c in (Edge r, c)
  | QReturnEF a g e x b y => let '(r, c) := getReturnEdgeFunction' a g e x b y c in (Edge r, c)
  | QCallToRetEF a x b y l => let '(r, c) := getCallToRetEdgeFunction' a x b y l c in (Edge r, c)
  | QSummaryEF a x b y => let '(r, c) := getSummaryEdgeFunction' a x b y c in (Edge r, c)
  end.

Fixpoint ask_all (qs : list Query) c : list Answer * FlowEdgeFunctionCache :=
  match qs with
  | [] => ([], c)
  | q :: qs =>
      let '(a, c) := ask q c in let '(l, c) := ask_all qs c in (a :: l, c)
  end.

(** What the problem answers, without a cache. *)
Definition answer (q : Query) : Answer :=
  match q with
  | QNormalFF a b => Flow (wrapZero (getNormalFlowFunction Problem a b))
  | QCallFF a b => Flow (wrapZero (getCallFlowFunction Problem a b))
  | QRetFF a b x y => Flow (wrapZero (getRetFlowFunction Problem a b x y))
  | QCallToRetFF a b l => Flow (wrapZero (getCallToRetFlowFunction Problem a b l))
  | QSummaryFF a b => SummaryFlow (getSummaryFlowFunction Problem a b)
  | QNormalEF a x b y => Edge (getNormalEdgeFunction Problem a x b y)
  | QCallEF a x g y => Edge (getCallEdgeFunction Problem a x g y)
  | QReturnEF a g e x b y => Edge (getReturnEdgeFunction Problem a g e x b y)
  | QCallToRetEF a x b y l => Edge (getCallToRetEdgeFunction Problem a x b y l)
  | QSummaryEF a x b y => Edge (getSummaryEdgeFunction Problem a x b y)
  end.
End cache.
