(* ===== verification/FlowEdgeFunctionCacheCorrect.v ===== *)
(** The cache of flow and edge functions answers every query as the problem
    would, and asks the problem at most once per function. *)
From S2P Require Import Prelude JoinLattice EquivalenceClassMap IDEProblem FlowEdgeFunctionCache.

(** * Keys *)

Section keys.
Context {V : Type} `{Countable V} (U : gset V).
Hypothesis HU : (Z.of_nat (size U) < 2 ^ 32)%Z.
Implicit Types (Map : gmap V Z) (a b : V).
Local Open Scope Z_scope.

(** Every id given out is one of [1 .. size Map], and no two values share one. *)
Record compressor_ok Map : Prop := {
  comp_range a i : Map !! a = Some i → a ∈ U ∧ 1 ≤ i ≤ Z.of_nat (size Map);
  comp_inj a b i : Map !! a = Some i → Map !! b = Some i → a = b
}.

Lemma compressor_empty : compressor_ok ∅.
Proof. split; intros *; by rewrite lookup_empty. Qed.

Lemma compressor_size Map : compressor_ok Map → Z.of_nat (size Map) ≤ Z.of_nat (size U).
Proof.
  intros Hc. rewrite <- size_dom. apply inj_le, subseteq_size. intros a.
  rewrite elem_of_dom. intros [i Hi]. by eapply comp_range.
Qed.

Lemma getCompressedID_ok a Map :
  compressor_ok Map → a ∈ U →
  let '(i, Map') := KeyCompressor.getCompressedID a Map in
  compressor_ok Map' ∧ Map ⊆ Map' ∧ Map' !! a = Some i.
Proof.
  intros Hc Ha. unfold KeyCompressor.getCompressedID.
  destruct (Map !! a) as [i|] eqn:Hl; [done|].
  assert (Z.of_nat (size Map) + 1 ≤ Z.of_nat (size U)) as Hs.
  { assert (size (dom Map ∪ {[a]}) ≤ size U)%nat as Hle.
    { apply subseteq_size. intros b [[i Hi]%elem_of_dom| ->%elem_of_singleton]%elem_of_union; [|done].
      by eapply comp_range. }
    rewrite size_union, size_dom, size_singleton in Hle; [lia|].
    apply disjoint_singleton_r. by apply not_elem_of_dom. }
  rewrite Z.mod_small by lia. split; [|split; [by apply insert_subseteq|apply lookup_insert_eq]].
  split.
  - intros b j. rewrite map_size_insert_None by done. destruct (decide (a = b)) as [<-|Hne].
    + rewrite lookup_insert_eq. intros [= <-]. split; [done|lia].
    + rewrite lookup_insert_ne by done. intros Hj. destruct (comp_range _ Hc b j Hj). split; [done|lia].
  - intros b b' j. destruct (decide (a = b)) as [<-|Hne], (decide (a = b')) as [<-|Hne']; try done.
    + rewrite lookup_insert_eq, lookup_insert_ne by done. intros [= <-] Hj.
      destruct (comp_range _ Hc b' _ Hj). lia.
    + rewrite lookup_insert_eq, lookup_insert_ne by done. intros Hj [= <-].
      destruct (comp_range _ Hc b _ Hj). lia.
    + rewrite !lookup_insert_ne by done. apply (comp_inj _ Hc).
Qed.

(** [k] is the key of the two values. *)
Definition keyed Map a b (k : Z) : Prop :=
  ∃ i j, Map !! a = Some i ∧ Map !! b = Some j ∧ k = i * 2 ^ 32 + j.

Lemma keyed_mono Map Map' a b k : Map ⊆ Map' → keyed Map a b k → keyed Map' a b k.
Proof.
  intros Hsub (i & j & Hi & Hj & ->). exists i, j.
  split; [by eapply lookup_weaken|]. split; [by eapply lookup_weaken|done].
Qed.

Lemma keyed_fun Map a b k k' : keyed Map a b k → keyed Map a b k' → k = k'.
Proof. intros (i & j & Hi & Hj & ->) (i' & j' & Hi' & Hj' & ->). congruence. Qed.

Lemma keyed_inj Map a b a' b' k :
  compressor_ok Map → keyed Map a b k → keyed Map a' b' k → a = a' ∧ b = b'.
Proof.
  intros Hc (i & j & Hi & Hj & ->) (i' & j' & Hi' & Hj' & Heq).
  pose proof (compressor_size _ Hc) as Hs.
  destruct (comp_range _ Hc _ _ Hi), (comp_range _ Hc _ _ Hj),
    (comp_range _ Hc _ _ Hi'), (comp_range _ Hc _ _ Hj').
  assert (i = i' ∧ j = j') as [-> ->] by lia.
  split; [by apply (comp_inj _ Hc _ _ i')|by apply (comp_inj _ Hc _ _ j')].
Qed.

Lemma pack_key i j : 0 ≤ i < 2 ^ 32 → 0 ≤ j < 2 ^ 32 →
  Z.lor (Z.shiftl i 32 mod 2 ^ 64) j = i * 2 ^ 32 + j.
Proof.
  intros Hi Hj. rewrite Z.shiftl_mul_pow2 by lia. rewrite Z.mod_small by lia.
  rewrite <- Z.shiftl_mul_pow2 by lia. symmetry. apply Z.add_nocarry_lor, Z.bits_inj'. intros n Hn.
  rewrite Z.land_spec, Z.shiftl_spec, Z.bits_0 by lia. destruct (decide (n < 32)).
  - by rewrite Z.testbit_neg_r by lia.
  - rewrite (Z.bits_above_log2 j n), andb_false_r; [done|lia|].
    destruct (decide (j = 0)) as [->|]; [simpl; lia|]. apply Z.lt_le_trans with 32; [|lia].
    apply Z.log2_lt_pow2; lia.
Qed.

Lemma createKey_ok a b Map :
  compressor_ok Map → a ∈ U → b ∈ U →
  let '(k, Map') := KeyCompressor.createKey a b Map in
  compressor_ok Map' ∧ Map ⊆ Map' ∧ keyed Map' a b k.
Proof.
  intros Hc Ha Hb. unfold KeyCompressor.createKey.
  pose proof (getCompressedID_ok a Map Hc Ha) as H1.
  destruct (KeyCompressor.getCompressedID a Map) as [i Map1]. destruct H1 as (Hc1 & Hs1 & Hi).
  pose proof (getCompressedID_ok b Map1 Hc1 Hb) as H2.
  destruct (KeyCompressor.getCompressedID b Map1) as [j Map2]. destruct H2 as (Hc2 & Hs2 & Hj).
  assert (Map2 !! a = Some i) as Hi2 by by eapply lookup_weaken.
  pose proof (compressor_size _ Hc2) as Hsz.
  destruct (comp_range _ Hc2 _ _ Hi2), (comp_range _ Hc2 _ _ Hj).
  split; [done|]. split; [by transitivity Map1|]. exists i, j.
  split; [done|]. split; [done|]. rewrite Z.lor_0_l. apply pack_key; lia.
Qed.
End keys.

(** * The invariant *)

Section invariant.
Context {V N D F L EF : Type} `{Countable V, Countable N, Countable D, Countable F, EqDecision EF}.
Context (nval : N → V) (dval : D → V) `{!Inj (=) (=) nval, !Inj (=) (=) dval}.
Context (ICF : ICFG N D F) (Problem : IDETabulationProblem N D F L EF).
Context (U : gset V) (HU : (Z.of_nat (size U) < 2 ^ 32)%Z).
Abbreviation Cache := (FlowEdgeFunctionCache (V := V) (N := N) (D := D) (F := F) (EF := EF)).
Abbreviation Query := (Query (N := N) (D := D) (F := F)).
Abbreviation answer := (answer Problem).
Abbreviation ask := (ask nval dval Problem).
Implicit Types (c : Cache) (q : Query).

(** How the solver asks: normal functions for nodes that are no call sites,
    call-to-return functions for call sites with the callees found there. *)
Definition well_keyed q : Prop :=
  match q with
  | QNormalFF a _ | QNormalEF a _ _ _ => isCallSite ICF a = false
  | QCallToRetFF a _ l | QCallToRetEF a _ _ _ l =>
      isCallSite ICF a = true ∧ l = getCalleesOfCallAt ICF a
  | _ => True
  end.

(** The values that queries compress lie in [U]. *)
Definition in_values q : Prop :=
  match q with
  | QNormalFF a b | QCallToRetFF a b _ => nval a ∈ U ∧ nval b ∈ U
  | QNormalEF a x b y | QCallToRetEF a x b y _ =>
      (nval a ∈ U ∧ nval b ∈ U) ∧ dval x ∈ U ∧ dval y ∈ U
  | _ => True
  end.

(** What an entry of the shared cache holds. *)
Definition sharedFF (a b : N) : D → gset D :=
  wrapZero Problem (if isCallSite ICF a
    then getCallToRetFlowFunction Problem a b (getCalleesOfCallAt ICF a)
    else getNormalFlowFunction Problem a b).
Definition sharedEF (a : N) (x : D) (b : N) (y : D) : EF :=
  if isCallSite ICF a then getCallToRetEdgeFunction Problem a x b y (getCalleesOfCallAt ICF a)
  else getNormalEdgeFunction Problem a x b y.

Record entry_ok (Map : gmap V Z) (k : Z) (data : NormalEdgeFlowData) : Prop := {
  entry_key : ∃ a b, keyed Map (nval a) (nval b) k;
  entry_wf : ng_wf (EdgeFunctionMap data);
  entry_flow a b f :
    keyed Map (nval a) (nval b) k → FlowFuncPtr data = Some f → f = sharedFF a b;
  entry_edge a b nk v :
    keyed Map (nval a) (nval b) k → ng_value nk (EdgeFunctionMap data) = Some v →
    ∃ x y, keyed Map (dval x) (dval y) nk ∧ v = sharedEF a x b y
}.

Record cache_ok c : Prop := {
  ok_compressor : compressor_ok U (Compressor c);
  ok_normal k data : NormalFunctionCache c !! k = Some data → entry_ok (Compressor c) k data;
  ok_call a g f : CallFlowFunctionCache c !! (a, g) = Some f → answer (QCallFF a g) = Flow f;
  ok_ret a g e r f :
    ReturnFlowFunctionCache c !! (a, g, e, r) = Some f → answer (QRetFF a g e r) = Flow f;
  ok_callEF a x g y f :
    CallEdgeFunctionCache c !! (a, x, g, y) = Some f → answer (QCallEF a x g y) = Edge f;
  ok_returnEF a g e x r y f :
    ReturnEdgeFunctionCache c !! (a, g, e, x, r, y) = Some f →
    answer (QReturnEF a g e x r y) = Edge f;
  ok_summaryEF a x r y f :
    SummaryEdgeFunctionCache c !! (a, x, r, y) = Some f → answer (QSummaryEF a x r y) = Edge f
}.

Lemma emptyCache_ok : cache_ok emptyCache.
Proof. split; simpl; [apply compressor_empty|..]; intros *; by rewrite lookup_empty. Qed.

(** The entry at a key, when the key is that of [(a, b)]. *)
Lemma entry_ok_keyed Map k data a b :
  compressor_ok U Map → keyed Map (nval a) (nval b) k →
  ng_wf (EdgeFunctionMap data) →
  (∀ f, FlowFuncPtr data = Some f → f = sharedFF a b) →
  (∀ nk v, ng_value nk (EdgeFunctionMap data) = Some v →
    ∃ x y, keyed Map (dval x) (dval y) nk ∧ v = sharedEF a x b y) →
  entry_ok Map k data.
Proof.
  intros Hc Hk Hwf Hff Hef.
  assert (∀ a' b', keyed Map (nval a') (nval b') k → a' = a ∧ b' = b) as Hinj.
  { intros a' b' Hk'. by destruct (keyed_inj U HU _ _ _ _ _ _ Hc Hk' Hk) as [->%(inj nval) ->%(inj nval)]. }
  split; [by eauto|done|..].
  - intros a' b' f [-> ->]%Hinj. apply Hff.
  - intros a' b' nk v [-> ->]%Hinj. apply Hef.
Qed.

Lemma entry_ok_mono Map Map' k data :
  compressor_ok U Map' → Map ⊆ Map' → entry_ok Map k data → entry_ok Map' k data.
Proof.
  intros Hc Hsub [(a & b & Hk) Hwf Hff Hef].
  apply (entry_ok_keyed _ _ _ a b); [done|by eapply keyed_mono|done|by eauto|].
  intros nk v (x & y & Hxy & ->)%(Hef a b); [|done]. exists x, y. split; [by eapply keyed_mono|done].
Qed.

Lemma normalEntry_ok c Map a b k :
  cache_ok c → compressor_ok U Map → Compressor c ⊆ Map → keyed Map (nval a) (nval b) k →
  entry_ok Map k (normalEntry k c).
Proof.
  intros Hc Hm Hsub Hk. unfold normalEntry.
  destruct (NormalFunctionCache c !! k) as [data|] eqn:Hl; simpl.
  - eapply entry_ok_mono; [done|exact Hsub|]. by apply (ok_normal _ Hc).
  - apply (entry_ok_keyed _ _ _ a b); [done|done|apply ng_wf_empty|done|done].
Qed.

Lemma set_normal_ok c Map k data log :
  cache_ok c → compressor_ok U Map → Compressor c ⊆ Map → entry_ok Map k data →
  cache_ok (set_normal Map k data log c).
Proof.
  intros Hc Hm Hsub He. destruct Hc as [Hcomp Hnorm]. split; simpl; [done| |done..].
  intros k' data'. destruct (decide (k = k')) as [<-|Hne].
  - rewrite lookup_insert_eq. by intros [= <-].
  - rewrite lookup_insert_ne by done. intros Hl. eapply entry_ok_mono; [done|exact Hsub|]. by apply Hnorm.
Qed.

(** The functions of a well-keyed query are the shared ones. *)
Lemma shared_normal a b : isCallSite ICF a = false →
  sharedFF a b = wrapZero Problem (getNormalFlowFunction Problem a b) ∧
  ∀ x y, sharedEF a x b y = getNormalEdgeFunction Problem a x b y.
Proof. unfold sharedFF, sharedEF. by intros ->. Qed.

Lemma shared_callToRet a b l : isCallSite ICF a = true ∧ l = getCalleesOfCallAt ICF a →
  sharedFF a b = wrapZero Problem (getCallToRetFlowFunction Problem a b l) ∧
  ∀ x y, sharedEF a x b y = getCallToRetEdgeFunction Problem a x b y l.
Proof. unfold sharedFF, sharedEF. by intros [-> ->]. Qed.

Lemma getSharedFlowFunction_ok c q a b FF :
  cache_ok c → nval a ∈ U → nval b ∈ U → sharedFF a b = wrapZero Problem FF →
  let '(r, c') := getSharedFlowFunction nval Problem q a b FF c in
  cache_ok c' ∧ r = wrapZero Problem FF.
Proof.
  intros Hc Ha Hb HFF. unfold getSharedFlowFunction.
  pose proof (createKey_ok U HU _ _ _ (ok_compressor _ Hc) Ha Hb) as Hk.
  destruct (KeyCompressor.createKey _ _ _) as [k Map]. destruct Hk as (Hm & Hsub & Hk).
  pose proof (normalEntry_ok c Map a b k Hc Hm Hsub Hk) as He.
  destruct (FlowFuncPtr (normalEntry k c)) as [f|] eqn:Hf.
  - split; [by apply set_normal_ok|]. rewrite <- HFF. by apply (entry_flow _ _ _ He).
  - split; [|done]. apply set_normal_ok; [done..|].
    apply (entry_ok_keyed _ _ _ a b); [done|done|apply He| |].
    + intros f [= <-]. done.
    + intros nk v. by apply (entry_edge _ _ _ He).
Qed.

Lemma getSharedEdgeFunction_ok c q a x b y f :
  cache_ok c → nval a ∈ U → nval b ∈ U → dval x ∈ U → dval y ∈ U → sharedEF a x b y = f →
  let '(r, c') := getSharedEdgeFunction nval dval q a x b y f c in
  cache_ok c' ∧ r = f.
Proof.
  intros Hc Ha Hb Hx Hy Hf. unfold getSharedEdgeFunction.
  pose proof (createKey_ok U HU _ _ _ (ok_compressor _ Hc) Ha Hb) as Hk.
  destruct (KeyCompressor.createKey _ _ _) as [k Map]. destruct Hk as (Hm & Hsub & Hk).
  pose proof (createKey_ok U HU _ _ _ Hm Hx Hy) as Hn.
  destruct (KeyCompressor.createKey (dval x) _ _) as [nk Map']. destruct Hn as (Hm' & Hsub' & Hn).
  assert (Compressor c ⊆ Map') as Hsub2 by by transitivity Map.
  assert (keyed Map' (nval a) (nval b) k) as Hk' by (by apply (keyed_mono Map)).
  pose proof (normalEntry_ok c Map' a b k Hc Hm' Hsub2 Hk') as He.
  pose proof (ng_getOrInsertLazy (EdgeFunctionMap (normalEntry k c)) nk f (entry_wf _ _ _ He)) as Hng.
  destruct (EquivalenceClassMapNG.getOrInsertLazy _ _ _) as [[r m] hit].
  destruct Hng as (Hwf & -> & -> & Hval).
  assert (default f (ng_value nk (EdgeFunctionMap (normalEntry k c))) = f) as Hr.
  { destruct (ng_value nk _) as [v|] eqn:Hv; [|done]. simpl.
    destruct (entry_edge _ _ _ He a b nk v Hk' Hv) as (x' & y' & Hxy & ->).
    by destruct (keyed_inj U HU _ _ _ _ _ _ Hm' Hxy Hn) as [->%(inj dval) ->%(inj dval)]. }
  split; [|exact Hr]. apply set_normal_ok; [done..|].
  apply (entry_ok_keyed _ _ _ a b); [done..| |].
  - intros g. by apply (entry_flow _ _ _ He).
  - simpl. intros nk' v. rewrite Hval, Hr. destruct (decide (nk' = nk)) as [->|].
    + intros [= <-]. by exists x, y.
    + by apply (entry_edge _ _ _ He).
Qed.

Lemma try_emplace_ok {K A} `{Countable K} (k : K) (v : A) m :
  (∀ w, m !! k = Some w → w = v) →
  let '(r, ins, m') := try_emplace k v m in
  r = v ∧ m' = <[k := v]> m ∧ ins = bool_decide (m !! k = None).
Proof.
  intros Hv. unfold try_emplace. destruct (m !! k) as [w|] eqn:Hk; [|done].
  assert (w = v) as -> by by apply Hv.
  split; [done|]. split; [|done]. by rewrite insert_id.
Qed.

(** One cache that is a [std::map]. *)
Ltac ask_plain Hc ok :=
  let Hok := fresh in let w := fresh in let Hw := fresh in
  match goal with |- context [try_emplace ?k ?v ?m] =>
    pose proof (try_emplace_ok k v m) as Hok; destruct (try_emplace k v m) as [[? ?] ?]
  end;
  destruct Hok as (-> & -> & _);
    [intros w Hw; apply (ok _ Hc) in Hw; simpl in Hw; congruence|];
  split; [|done]; destruct Hc; split; simpl; try done;
  intros *; rewrite lookup_insert_Some; naive_solver.

(** The shared cache, with what the lemma of the shared getter says. *)
Ltac ask_shared lem :=
  let Hok := fresh in
  pose proof lem as Hok;
  match type of Hok with context [match ?t with (_, _) => _ end] => destruct t as [? ?] end;
  by destruct Hok as [? ->].

Lemma ask_ok c q :
  cache_ok c → well_keyed q → in_values q → let '(r, c') := ask q c in cache_ok c' ∧ r = answer q.
Proof.
  intros Hc Hq Hin.
  destruct q as [a b|a g|a g e r|a b l|a g|a x b y|a x g y|a g e x r y|a x b y l|a x r y]; simpl in *.
  - destruct Hin, (shared_normal a b Hq) as [Hs _]. unfold getNormalFlowFunction'.
    ask_shared (getSharedFlowFunction_ok c (QNormalFF a b) a b _ Hc ltac:(done) ltac:(done) Hs).
  - unfold getCallFlowFunction'. ask_plain Hc ok_call.
  - unfold getRetFlowFunction'. ask_plain Hc ok_ret.
  - destruct Hin, (shared_callToRet a b l Hq) as [Hs _]. unfold getCallToRetFlowFunction'.
    ask_shared (getSharedFlowFunction_ok c (QCallToRetFF a b l) a b _ Hc ltac:(done) ltac:(done) Hs).
  - split; [|done]. destruct Hc. by split.
  - destruct Hin as [[] []], (shared_normal a b Hq) as [_ Hs]. unfold getNormalEdgeFunction'.
    ask_shared (getSharedEdgeFunction_ok c (QNormalEF a x b y) a x b y _ Hc
      ltac:(done) ltac:(done) ltac:(done) ltac:(done) (Hs x y)).
  - unfold getCallEdgeFunction'. ask_plain Hc ok_callEF.
  - unfold getReturnEdgeFunction'. ask_plain Hc ok_returnEF.
  - destruct Hin as [[] []], (shared_callToRet a b l Hq) as [_ Hs]. unfold getCallToRetEdgeFunction'.
    ask_shared (getSharedEdgeFunction_ok c (QCallToRetEF a x b y l) a x b y _ Hc
      ltac:(done) ltac:(done) ltac:(done) ltac:(done) (Hs x y)).
  - unfold getSummaryEdgeFunction'. ask_plain Hc ok_summaryEF.
Qed.

(** ** Each function is made at most once *)

(** The cache has an answer to the query. *)
Definition in_cache q c : Prop :=
  match q with
  | QNormalFF a b | QCallToRetFF a b _ => ∃ k data,
      keyed (Compressor c) (nval a) (nval b) k ∧ NormalFunctionCache c !! k = Some data ∧
      is_Some (FlowFuncPtr data)
  | QNormalEF a x b y | QCallToRetEF a x b y _ => ∃ k nk data,
      keyed (Compressor c) (nval a) (nval b) k ∧ keyed (Compressor c) (dval x) (dval y) nk ∧
      NormalFunctionCache c !! k = Some data ∧ is_Some (ng_value nk (EdgeFunctionMap data))
  | QCallFF a g => is_Some (CallFlowFunctionCache c !! (a, g))
  | QRetFF a g e r => is_Some (ReturnFlowFunctionCache c !! (a, g, e, r))
  | QCallEF a x g y => is_Some (CallEdgeFunctionCache c !! (a, x, g, y))
  | QReturnEF a g e x r y => is_Some (ReturnEdgeFunctionCache c !! (a, g, e, x, r, y))
  | QSummaryEF a x r y => is_Some (SummaryEdgeFunctionCache c !! (a, x, r, y))
  | QSummaryFF _ _ => False
  end.

Definition cacheable q : bool := match q with QSummaryFF _ _ => false | _ => true end.

(** The caches only grow. *)
Record grows c c' : Prop := {
  gr_comp : Compressor c ⊆ Compressor c';
  gr_normal k data : NormalFunctionCache c !! k = Some data →
    ∃ data', NormalFunctionCache c' !! k = Some data' ∧
      (is_Some (FlowFuncPtr data) → is_Some (FlowFuncPtr data')) ∧
      ∀ nk, is_Some (ng_value nk (EdgeFunctionMap data)) →
        is_Some (ng_value nk (EdgeFunctionMap data'));
  gr_call : CallFlowFunctionCache c ⊆ CallFlowFunctionCache c';
  gr_ret : ReturnFlowFunctionCache c ⊆ ReturnFlowFunctionCache c';
  gr_callEF : CallEdgeFunctionCache c ⊆ CallEdgeFunctionCache c';
  gr_returnEF : ReturnEdgeFunctionCache c ⊆ ReturnEdgeFunctionCache c';
  gr_summaryEF : SummaryEdgeFunctionCache c ⊆ SummaryEdgeFunctionCache c'
}.

Lemma is_Some_subseteq {K A} `{Countable K} (m m' : gmap K A) k :
  m ⊆ m' → is_Some (m !! k) → is_Some (m' !! k).
Proof. intros Hm [v Hv]. exists v. by eapply lookup_weaken. Qed.

Lemma in_cache_grows q c c' : grows c c' → in_cache q c → in_cache q c'.
Proof.
  intros Hg.
  assert (∀ a b k, keyed (Compressor c) a b k → keyed (Compressor c') a b k) as Hk.
  { intros *. apply keyed_mono, Hg. }
  destruct q; simpl; try (by apply is_Some_subseteq, Hg).
  - intros (k & data & Hkey & Hl & Hf). destruct (gr_normal _ _ Hg _ _ Hl) as (data' & Hl' & Hff & _).
    exists k, data'. auto.
  - intros (k & data & Hkey & Hl & Hf). destruct (gr_normal _ _ Hg _ _ Hl) as (data' & Hl' & Hff & _).
    exists k, data'. auto.
  - done.
  - intros (k & nk & data & Hkey & Hnk & Hl & Hf).
    destruct (gr_normal _ _ Hg _ _ Hl) as (data' & Hl' & _ & Hef). exists k, nk, data'. auto.
  - intros (k & nk & data & Hkey & Hnk & Hl & Hf).
    destruct (gr_normal _ _ Hg _ _ Hl) as (data' & Hl' & _ & Hef). exists k, nk, data'. auto.
Qed.

(** What one query does to the log: it is recorded if it was not in the cache. *)
Record recorded q c c' : Prop := {
  rec_grows : grows c c';
  rec_log : Constructed c' = Constructed c ∨
    (Constructed c' = Constructed c ++ [q] ∧ (cacheable q = true → ¬ in_cache q c));
  rec_in : cacheable q = true → in_cache q c'
}.

Lemma set_normal_grows c Map k data log :
  Compressor c ⊆ Map →
  (is_Some (FlowFuncPtr (normalEntry k c)) → is_Some (FlowFuncPtr data)) →
  (∀ nk, is_Some (ng_value nk (EdgeFunctionMap (normalEntry k c))) →
    is_Some (ng_value nk (EdgeFunctionMap data))) →
  grows c (set_normal Map k data log c).
Proof.
  intros Hsub Hff Hef. split; simpl; [done| |done..]. intros k' data' Hl.
  destruct (decide (k = k')) as [<-|Hne].
  - rewrite lookup_insert_eq. exists data. unfold normalEntry in *. by rewrite Hl in *.
  - rewrite lookup_insert_ne by done. by exists data'.
Qed.

Lemma getSharedFlowFunction_recorded c q a b FF :
  cache_ok c → nval a ∈ U → nval b ∈ U →
  (∀ c, in_cache q c ↔ in_cache (QNormalFF a b) c) →
  recorded q c (getSharedFlowFunction nval Problem q a b FF c).2.
Proof.
  intros Hc Ha Hb Hq. unfold getSharedFlowFunction.
  pose proof (createKey_ok U HU _ _ _ (ok_compressor _ Hc) Ha Hb) as Hk.
  destruct (KeyCompressor.createKey _ _ _) as [k Map]. destruct Hk as (Hm & Hsub & Hk).
  destruct (FlowFuncPtr (normalEntry k c)) as [f|] eqn:Hf; simpl; split.
  - by apply set_normal_grows.
  - left. simpl. by rewrite app_nil_r.
  - intros _. apply Hq. exists k, (normalEntry k c). simpl. rewrite lookup_insert_eq, Hf. by eauto.
  - by apply set_normal_grows.
  - right. split; [done|]. intros _ (k' & data & Hk' & Hl & Hs)%Hq.
    rewrite (keyed_fun _ _ _ _ _ (keyed_mono _ _ _ _ _ Hsub Hk') Hk) in Hl.
    unfold normalEntry in Hf. rewrite Hl in Hf. simpl in Hf. rewrite Hf in Hs. by destruct Hs.
  - intros _. apply Hq. eexists k, _. simpl. rewrite lookup_insert_eq. by eauto.
Qed.

Lemma getSharedEdgeFunction_recorded c q a x b y f :
  cache_ok c → nval a ∈ U → nval b ∈ U → dval x ∈ U → dval y ∈ U →
  (∀ c, in_cache q c ↔ in_cache (QNormalEF a x b y) c) →
  recorded q c (getSharedEdgeFunction nval dval q a x b y f c).2.
Proof.
  intros Hc Ha Hb Hx Hy Hq. unfold getSharedEdgeFunction.
  pose proof (createKey_ok U HU _ _ _ (ok_compressor _ Hc) Ha Hb) as Hk.
  destruct (KeyCompressor.createKey _ _ _) as [k Map]. destruct Hk as (Hm & Hsub & Hk).
  pose proof (createKey_ok U HU _ _ _ Hm Hx Hy) as Hn.
  destruct (KeyCompressor.createKey (dval x) _ _) as [nk Map']. destruct Hn as (Hm' & Hsub' & Hn).
  assert (Compressor c ⊆ Map') as Hsub2 by by transitivity Map.
  assert (keyed Map' (nval a) (nval b) k) as Hk' by (by apply (keyed_mono Map)).
  pose proof (normalEntry_ok c Map' a b k Hc Hm' Hsub2 Hk') as He.
  pose proof (ng_getOrInsertLazy (EdgeFunctionMap (normalEntry k c)) nk f (entry_wf _ _ _ He)) as Hng.
  destruct (EquivalenceClassMapNG.getOrInsertLazy _ _ _) as [[r m] hit].
  destruct Hng as (Hwf & _ & -> & Hval). simpl. split.
  - apply set_normal_grows; [done|done|]. simpl. intros nk' Hs. rewrite Hval.
    destruct (decide _); [by eauto|done].
  - case_bool_decide as Hhit; [left; simpl; by rewrite app_nil_r|]. right. split; [done|].
    intros _ (k' & nk' & data & Hk2 & Hn2 & Hl & Hs)%Hq. apply Hhit.
    rewrite <- (keyed_fun _ _ _ _ _ (keyed_mono _ _ _ _ _ Hsub2 Hk2) Hk').
    rewrite <- (keyed_fun _ _ _ _ _ (keyed_mono _ _ _ _ _ Hsub2 Hn2) Hn).
    unfold normalEntry. by rewrite Hl.
  - intros _. apply Hq. eexists k, nk, _. simpl. rewrite lookup_insert_eq.
    split; [done|]. split; [done|]. split; [done|]. simpl. rewrite Hval, decide_True by done. by eauto.
Qed.

Lemma grows_refl c : grows c c.
Proof. split; [done| |done..]. intros k data Hl. by exists data. Qed.

Lemma try_emplace_recorded {K A} `{Countable K} (k : K) (v : A) (m : gmap K A) :
  let '(_, ins, m') := try_emplace k v m in
  m ⊆ m' ∧ is_Some (m' !! k) ∧ (ins = true → ¬ is_Some (m !! k)).
Proof.
  unfold try_emplace. destruct (m !! k) as [w|] eqn:Hk; [by eauto|].
  split; [by apply insert_subseteq|]. rewrite lookup_insert_eq.
  split; [by eauto|]. by intros _ [].
Qed.

Ltac recorded_plain :=
  let Hs := fresh in let Hi := fresh in let Hn := fresh in
  let ins := fresh in let data := fresh in let Hl := fresh in
  match goal with |- context [try_emplace ?k ?v ?m] =>
    pose proof (try_emplace_recorded k v m) as Hs; destruct (try_emplace k v m) as [[? ins] ?]
  end;
  destruct Hs as (Hs & Hi & Hn); split; simpl;
    [split; simpl; try done; intros ? data Hl; by exists data
    |destruct ins; [right; split; [done|intros _; by apply Hn]|left; by rewrite app_nil_r]
    |by intros _].

Lemma ask_recorded c q : cache_ok c → in_values q → recorded q c (ask q c).2.
Proof.
  intros Hc Hin.
  destruct q as [a b|a g|a g e r|a b l|a g|a x b y|a x g y|a g e x r y|a x b y l|a x r y]; simpl in *.
  - destruct Hin. unfold getNormalFlowFunction'.
    pose proof (getSharedFlowFunction_recorded c (QNormalFF a b) a b
      (getNormalFlowFunction Problem a b) Hc ltac:(done) ltac:(done) ltac:(done)) as Hr.
    by destruct (getSharedFlowFunction _ _ _ _ _ _ _).
  - unfold getCallFlowFunction'. recorded_plain.
  - unfold getRetFlowFunction'. recorded_plain.
  - destruct Hin. unfold getCallToRetFlowFunction'.
    pose proof (getSharedFlowFunction_recorded c (QCallToRetFF a b l) a b
      (getCallToRetFlowFunction Problem a b l) Hc ltac:(done) ltac:(done) ltac:(done)) as Hr.
    by destruct (getSharedFlowFunction _ _ _ _ _ _ _).
  - split; [|by right|done]. split; simpl; [done| |done..]. intros k data Hl. by exists data.
  - destruct Hin as [[] []]. unfold getNormalEdgeFunction'.
    pose proof (getSharedEdgeFunction_recorded c (QNormalEF a x b y) a x b y
      (getNormalEdgeFunction Problem a x b y) Hc
      ltac:(done) ltac:(done) ltac:(done) ltac:(done) ltac:(done)) as Hr.
    by destruct (getSharedEdgeFunction _ _ _ _ _ _ _ _ _).
  - unfold getCallEdgeFunction'. recorded_plain.
  - unfold getReturnEdgeFunction'. recorded_plain.
  - destruct Hin as [[] []]. unfold getCallToRetEdgeFunction'.
    pose proof (getSharedEdgeFunction_recorded c (QCallToRetEF a x b y l) a x b y
      (getCallToRetEdgeFunction Problem a x b y l) Hc
      ltac:(done) ltac:(done) ltac:(done) ltac:(done) ltac:(done)) as Hr.
    by destruct (getSharedEdgeFunction _ _ _ _ _ _ _ _ _).
  - unfold getSummaryEdgeFunction'. recorded_plain.
Qed.

(** The log of a cache: everything recorded is in the cache, and nothing twice. *)
Definition log_ok c : Prop :=
  (∀ q, q ∈ Constructed c → cacheable q = true → in_cache q c) ∧
  NoDup (filter (λ q, cacheable q = true) (Constructed c)).

Lemma recorded_log q c c' : recorded q c c' → log_ok c → log_ok c'.
Proof.
  intros [Hg Hlog Hin] [Hcached Hnd]. split.
  - intros q' Hq' Hca. destruct Hlog as [Hl|[Hl _]]; rewrite Hl in Hq'.
    + by eapply in_cache_grows, Hcached.
    + apply elem_of_app in Hq' as [Hq'| ->%list_elem_of_singleton]; [|by apply Hin].
      by eapply in_cache_grows, Hcached.
  - destruct Hlog as [-> |[-> Hn]]; [done|]. rewrite filter_app. apply NoDup_app.
    split; [done|]. rewrite filter_cons. destruct (decide _) as [Hca|]; [|split; [|apply NoDup_nil_2]].
    + split; [|apply NoDup_singleton]. intros q' [_ Hq']%list_elem_of_filter ->%list_elem_of_singleton.
      by apply Hn, Hcached.
    + intros q' _ Hq'. by apply not_elem_of_nil in Hq'.
Qed.

Lemma ask_all_ok (qs : list Query) c :
  cache_ok c → log_ok c → Forall (λ q, well_keyed q ∧ in_values q) qs →
  let '(l, c') := ask_all nval dval Problem qs c in
  l = answer <$> qs ∧ cache_ok c' ∧ log_ok c'.
Proof.
  revert c. induction qs as [|q qs IH]; intros c Hc Hl Hall; simpl; [done|].
  apply Forall_cons in Hall as [[Hk Hv] Hall].
  pose proof (ask_ok c q Hc Hk Hv) as Hok. pose proof (ask_recorded c q Hc Hv) as Hr.
  destruct (ask q c) as [a c1]. destruct Hok as [Hc1 ->]. simpl in Hr.
  specialize (IH c1 Hc1 (recorded_log _ _ _ Hr Hl) Hall).
  destruct (ask_all nval dval Problem qs c1) as [l c2]. by destruct IH as (-> & ?).
Qed.
End invariant.
