(* ===== verification/IDESolverAPIMixin.v ===== *)
(** [IDESolverAPIMixin] (DataFlow/IfdsIde/Solver/IDESolverAPIMixin.h): driving a
    solver step by step, to the end, until a cancellation is requested, or until an
    atomic flag is set. The mixin is written against the three functions a solver
    provides: [doInitialize], [doNext] and [doFinalize].

    The clock and the cancellation request are the environment of a run: the
    [i]-th reading of [steady_clock] in nanoseconds, and the answer to the poll
    that follows it. The adjustment of the number of iterations is computed on
    binary64 floats, as in the code. A step that does something is [Some]: [doNext]
    returned [true]. *)
From Stdlib Require Import SpecFloat.
From S2P Require Import Prelude.

(** * Stepping *)

Section stepping.
Context {State : Type} (next : State → option State).
Implicit Types (s : State).

(** [continueImpl]: [while (next()) {}]; [None] when the fuel runs out before
    the work is done. *)
Fixpoint while_next (fuel : nat) s : option State :=
  match next s with
  | None => Some s
  | Some s' => match fuel with 0 => None | S fuel => while_next fuel s' end
  end.

(** [nextN]: at most [MaxNumIterations] steps, and whether work is left. *)
Fixpoint nextN (MaxNumIterations : nat) s : bool * State :=
  match MaxNumIterations with
  | 0 => (true, s)
  | S k => match next s with None => (false, s) | Some s' => nextN k s' end
  end.

Lemma while_next_fuel fuel fuel' s s' :
  while_next fuel s = Some s' → fuel ≤ fuel' → while_next fuel' s = Some s'.
Proof.
  revert fuel' s. induction fuel as [|fuel IH]; intros fuel' s Hw Hle.
  - simpl in Hw. destruct (next s) eqn:Hn; [done|]. destruct fuel'; simpl; by rewrite Hn.
  - destruct fuel' as [|fuel']; [lia|]. simpl in *. destruct (next s); [|done].
    apply IH; [done|lia].
Qed.

(** Two runs of the loop agree. *)
Lemma while_next_det fuel fuel' s s1 s2 :
  while_next fuel s = Some s1 → while_next fuel' s = Some s2 → s1 = s2.
Proof.
  intros H1 H2. destruct (Nat.le_ge_cases fuel fuel') as [Hle|Hle].
  - rewrite (while_next_fuel _ _ _ _ H1 Hle) in H2. congruence.
  - rewrite (while_next_fuel _ _ _ _ H2 Hle) in H1. congruence.
Qed.

(** A loop whose steps decrease a measure lexicographically ends. *)
Lemma while_next_terminates (I : State → Prop) (m1 m2 : State → nat) s :
  (∀ s s', I s → next s = Some s' → I s' ∧ (m1 s' < m1 s ∨ (m1 s' = m1 s ∧ m2 s' < m2 s))) →
  I s → ∃ fuel s', while_next fuel s = Some s'.
Proof.
  intros Hstep. remember (m1 s) as a eqn:Ha. revert s Ha.
  induction (lt_wf a) as [a _ IHa]. intros s.
  remember (m2 s) as b eqn:Hb. revert s Hb. induction (lt_wf b) as [b _ IHb].
  intros s Hb Ha HI. destruct (next s) as [t|] eqn:Hn.
  - destruct (Hstep s t HI Hn) as [HI' Hm].
    assert (∃ fuel s', while_next fuel t = Some s') as (fuel & s' & Hw).
    { destruct Hm as [Hm|[Hm1 Hm2]].
      - eapply (IHa (m1 t)); [by rewrite Ha|done|done].
      - eapply (IHb (m2 t)); [by rewrite Hb|done|congruence|done]. }
    exists (S fuel), s'. simpl. by rewrite Hn.
  - exists 0, s. simpl. by rewrite Hn.
Qed.

Lemma while_next_inv (I : State → Prop) fuel s s' :
  (∀ s s', next s = Some s' → I s → I s') → I s →
  while_next fuel s = Some s' → I s' ∧ next s' = None.
Proof.
  intros Hstep. revert s. induction fuel as [|fuel IH]; intros s HI; simpl.
  - destruct (next s) eqn:Hn; [done|]. by intros [= <-].
  - destruct (next s) as [t|] eqn:Hn; [|by intros [= <-]]. apply IH. by eapply Hstep.
Qed.

Lemma while_next_step fuel s s' r :
  next s = Some s' → while_next fuel s = Some r → while_next fuel s' = Some r.
Proof.
  intros Hn Hw. destruct fuel as [|fuel]; simpl in Hw; rewrite Hn in Hw; [done|].
  by apply (while_next_fuel fuel); [|lia].
Qed.

(** Stepping in portions does not change where the run ends. *)
Lemma nextN_while_next k fuel s r :
  while_next fuel s = Some r →
  while_next fuel (nextN k s).2 = Some r ∧ ((nextN k s).1 = false → (nextN k s).2 = r).
Proof.
  revert s. induction k as [|k IH]; intros s Hw; simpl; [done|].
  destruct (next s) as [t|] eqn:Hn.
  - apply IH. by eapply while_next_step.
  - simpl. split; [done|]. intros _. destruct fuel; simpl in Hw; rewrite Hn in Hw; congruence.
Qed.

Lemma nextN_done k s s' : nextN k s = (false, s') → while_next k s = Some s' ∧ next s' = None.
Proof.
  revert s. induction k as [|k IH]; intros s; simpl; [done|].
  destruct (next s) as [t|] eqn:Hn; [apply IH|]. by intros [= <-].
Qed.
End stepping.

(** * The float computations of [continueUntilImpl] *)

Module Adjust.
Local Open Scope Z_scope.
(** [double] is binary64. *)
Definition of_Z (z : Z) : spec_float := binary_normalize 53 1024 z 0 false.
Definition div : spec_float → spec_float → spec_float := SFdiv 53 1024.
Definition mul : spec_float → spec_float → spec_float := SFmul 53 1024.

(** [size_t(f)] truncates; undefined when the value does not fit. *)
Definition to_size_t (f : spec_float) : option Z :=
  match f with
  | S754_zero _ => Some 0
  | S754_finite s m e =>
      let v := if decide (0 ≤ e) then Z.pos m * 2 ^ e else Z.quot (Z.pos m) (2 ^ (- e)) in
      if decide (v = 0) then Some 0
      else if s then None else if decide (v < 2 ^ 64) then Some v else None
  | S754_infinity _ | S754_nan => None
  end.

(** [size_t NumIterations = Interval.count() * 500]. *)
Definition initial (Interval : Z) : Z := (Interval * 500) mod 2 ^ 64.

(** [DeltaTime.count()]: milliseconds, as a [double]. *)
Definition milliseconds (Delta : Z) : spec_float := div (of_Z Delta) (of_Z 1000000).

(** Adjust [NumIterations] after a portion that took [Delta] nanoseconds. *)
Definition adjust (NumIterations Interval Delta : Z) : option Z :=
  let IterationsPerMilli := div (of_Z NumIterations) (milliseconds Delta) in
  NewNumIterations ← to_size_t (mul IterationsPerMilli (of_Z Interval));
  Some ((NumIterations + (2 * NewNumIterations) mod 2 ^ 64) mod 2 ^ 64 / 3).
End Adjust.

(** * Running with cancellation *)

(** How a run comes out: [Stopped] with the result of the [*Impl] function. *)
Inductive Run (State : Type) :=
  | OutOfFuel
  | Undefined
  | Stopped (Done : bool) (s : State).
Arguments OutOfFuel {State}.
Arguments Undefined {State}.
Arguments Stopped {State} Done s.

(** The [std::optional] of the public functions. *)
Inductive Answer (State : Type) :=
  | Pending
  | UndefinedBehaviour
  | Nullopt (s : State)
  | Finalized (s : State).
Arguments Pending {State}.
Arguments UndefinedBehaviour {State}.
Arguments Nullopt {State} s.
Arguments Finalized {State} s.

Section mixin.
Context {State : Type}.
Context (doInitialize : State → State) (next : State → option State).
Context (doFinalize : State → option State).
(** The readings of the clock, and the answers of [CancellationRequested]. *)
Context (clock : nat → Z) (CancellationRequested : nat → Z → bool).
Implicit Types (s : State).

(** The loop of [continueUntilImpl]. *)
Fixpoint continueUntilLoop (fuel i : nat) (Start NumIterations Interval : Z) s : Run State :=
  match fuel with
  | 0 => OutOfFuel
  | S fuel =>
      let '(more, s) := nextN next (Z.to_nat NumIterations) s in
      let End := clock i in
      if more : bool then
        if CancellationRequested i End then Stopped false s
        else
          match Adjust.adjust NumIterations Interval (End - Start) with
          | Some NumIterations => continueUntilLoop fuel (S i) End NumIterations Interval s
          | None => Undefined
          end
      else Stopped (negb (CancellationRequested i End)) s
  end.

Definition continueUntilImpl (fuel i : nat) (Interval : Z) s : Run State :=
  continueUntilLoop fuel (S i) (clock i) (Adjust.initial Interval) Interval s.

Definition solveUntilImpl (fuel i : nat) (Interval : Z) s : Run State :=
  let s := doInitialize s in
  let TimeStamp := clock i in
  if CancellationRequested i TimeStamp then Stopped false s
  else continueUntilImpl fuel (S i) Interval s.

(** The lambda of [solveUntil] and [continueUntil]. *)
Definition finish (fin : State → option State) (r : Run State) : Answer State :=
  match r with
  | OutOfFuel => Pending
  | Undefined => UndefinedBehaviour
  | Stopped false s => Nullopt s
  | Stopped true s => match fin s with Some s => Finalized s | None => Pending end
  end.

Definition solveUntil (fuel i : nat) (Interval : Z) s : Answer State :=
  finish doFinalize (solveUntilImpl fuel i Interval s).
Definition continueUntil (fuel i : nat) (Interval : Z) s : Answer State :=
  finish doFinalize (continueUntilImpl fuel i Interval s).

(** [continueSolving]. *)
Definition continueSolving (fuel : nat) s : option State := while_next next fuel s ≫= doFinalize.

(** ** Asynchronous cancellation: [IsCancelled] is the [i]-th load. *)
Context (IsCancelled : nat → bool).

Fixpoint continueWithAsyncCancellationImpl (fuel i : nat) s : Run State :=
  match fuel with
  | 0 => OutOfFuel
  | S fuel =>
      match next s with
      | Some s =>
          if IsCancelled i then Stopped false s else continueWithAsyncCancellationImpl fuel (S i) s
      | None => Stopped (negb (IsCancelled i)) s
      end
  end.

Definition solveWithAsyncCancellationImpl (fuel i : nat) s : Run State :=
  let s := doInitialize s in
  if IsCancelled i then Stopped false s else continueWithAsyncCancellationImpl fuel (S i) s.

Definition solveWithAsyncCancellation (fuel i : nat) s : Answer State :=
  finish doFinalize (solveWithAsyncCancellationImpl fuel i s).
Definition continueWithAsyncCancellation (fuel i : nat) s : Answer State :=
  finish doFinalize (continueWithAsyncCancellationImpl fuel i s).
End mixin.

Section timeout.
Context {State : Type}.
Context (doInitialize : State → State) (next : State → option State).
Context (doFinalize : State → option State) (clock : nat → Z).

(** The request of [solveWithTimeout]: [Timeout] milliseconds since [Start]. *)
Definition timeout (Timeout Start : Z) (_ : nat) (TimeStamp : Z) : bool :=
  bool_decide (Timeout * 1000000 ≤ TimeStamp - Start)%Z.

Definition solveWithTimeout (fuel i : nat) (Timeout Interval : Z) (s : State) : Answer State :=
  solveUntil doInitialize next doFinalize clock (timeout Timeout (clock i)) fuel (S i) Interval s.
Definition continueWithTimeout (fuel i : nat) (Timeout Interval : Z) (s : State) : Answer State :=
  continueUntil next doFinalize clock (timeout Timeout (clock i)) fuel (S i) Interval s.
End timeout.

(** * What the runs do *)

Section facts.
Context {State : Type} (next : State → option State).
Context (clock : nat → Z) (CancellationRequested : nat → Z → bool) (IsCancelled : nat → bool).
Implicit Types (s r : State).
Abbreviation loop := (continueUntilLoop next clock CancellationRequested).
Abbreviation async := (continueWithAsyncCancellationImpl next IsCancelled).

(** A stopped run is on the way to the result, and has reached it when it says
    so. *)
Definition on_the_way (fuel : nat) r (x : Run State) : Prop :=
  match x with
  | Stopped d s => while_next next fuel s = Some r ∧ (d = true → s = r)
  | OutOfFuel | Undefined => True
  end.

Lemma continueUntilLoop_on_the_way F r fuel i Start Num Interval s :
  while_next next F s = Some r → on_the_way F r (loop fuel i Start Num Interval s).
Proof.
  revert i Start Num s. induction fuel as [|fuel IH]; intros i Start Num s Hw; simpl; [done|].
  destruct (nextN_while_next next (Z.to_nat Num) F s r Hw) as [Hw' Hd].
  destruct (nextN next (Z.to_nat Num) s) as [more s']. simpl in *. destruct more.
  - destruct (CancellationRequested i (clock i)); [done|].
    destruct (Adjust.adjust _ _ _); [by apply IH|done].
  - split; [done|]. intros _. by apply Hd.
Qed.

Lemma async_on_the_way F r fuel i s :
  while_next next F s = Some r → on_the_way F r (async fuel i s).
Proof.
  revert i s. induction fuel as [|fuel IH]; intros i s Hw; simpl; [done|].
  destruct (next s) as [t|] eqn:Hn.
  - assert (while_next next F t = Some r) as Hw' by by eapply while_next_step.
    destruct (IsCancelled i); [done|by apply IH].
  - split; [done|]. intros _. destruct F; simpl in Hw; rewrite Hn in Hw; congruence.
Qed.

(** A run that reports success has no work left. *)
Lemma continueUntilLoop_true fuel i Start Num Interval s s' :
  loop fuel i Start Num Interval s = Stopped true s' →
  next s' = None ∧ ∃ F, while_next next F s = Some s'.
Proof.
  revert i Start Num s. induction fuel as [|fuel IH]; intros i Start Num s; simpl; [done|].
  destruct (nextN next (Z.to_nat Num) s) as [more t] eqn:Hn. destruct more.
  - destruct (CancellationRequested i (clock i)); [done|].
    destruct (Adjust.adjust _ _ _) as [Num'|]; [|done]. intros Hl. destruct (IH _ _ _ _ Hl) as [Hd [F HF]].
    split; [done|]. exists (Z.to_nat Num + F). clear - Hn HF.
    revert s Hn. induction (Z.to_nat Num) as [|k IHk]; intros s; simpl; [by intros [= <-]|].
    destruct (next s) as [u|]; [apply IHk|done].
  - intros [= _ <-]. apply nextN_done in Hn as [Hw Hd]. by eauto.
Qed.

(** The loop ends at the first poll that asks for it. *)
Lemma continueUntilLoop_cancelled n fuel i Start Num Interval s :
  (∀ z, CancellationRequested n z = true) → i ≤ n → n < i + fuel →
  loop fuel i Start Num Interval s ≠ OutOfFuel.
Proof.
  intros Hn. revert i Start Num s. induction fuel as [|fuel IH]; intros i Start Num s Hi Hf; [lia|].
  simpl. destruct (nextN next (Z.to_nat Num) s) as [[] t]; [|done].
  destruct (CancellationRequested i (clock i)) eqn:Hc; [done|].
  destruct (Adjust.adjust _ _ _); [|done]. apply IH; [|lia].
  destruct (decide (i = n)) as [->|]; [by rewrite Hn in Hc|lia].
Qed.

(** Without a request, a run of a solver that ends and whose portions are never
    empty comes to the result. *)
Lemma async_returns F r fuel i s :
  while_next next F s = Some r → F < fuel → (∀ j, IsCancelled j = false) →
  async fuel i s = Stopped true r.
Proof.
  intros Hw Hf Hc. revert F i s Hw Hf. induction fuel as [|fuel IH]; intros F i s Hw Hf; [lia|].
  simpl. rewrite Hc. destruct F as [|F]; simpl in Hw; destruct (next s) as [t|] eqn:Hn.
  - done.
  - by injection Hw as ->.
  - apply (IH F); [done|lia].
  - by injection Hw as ->.
Qed.

(** An empty portion: when [NumIterations] is zero and the clock moves, it stays
    zero. *)
Definition ticks (Delta : Z) : Prop :=
  ∃ m e, Adjust.milliseconds Delta = S754_finite false m e.

Lemma adjust_zero Interval Delta :
  ticks Delta → (∃ m e, Adjust.of_Z Interval = S754_finite false m e) ∨ Interval = 0%Z →
  Adjust.adjust 0 Interval Delta = Some 0%Z.
Proof.
  intros (m & e & Hd) Hi. unfold Adjust.adjust. rewrite Hd.
  destruct Hi as [(m' & e' & Hi)| ->]; [by rewrite Hi|done].
Qed.

Lemma continueUntilLoop_stalls Interval fuel i Start s :
  (∃ m e, Adjust.of_Z Interval = S754_finite false m e) ∨ Interval = 0%Z →
  (∀ j z, CancellationRequested j z = false) → ticks (clock i - Start) →
  (∀ j, ticks (clock (S j) - clock j)) →
  loop fuel i Start 0 Interval s = OutOfFuel.
Proof.
  intros Hi Hc. revert i Start. induction fuel as [|fuel IH]; intros i Start Ht Htick; [done|].
  simpl. rewrite Hc, adjust_zero by done. by apply IH.
Qed.
End facts.
