(* ===== verification/IDESolver.v ===== *)
(** [IDESolver] (DataFlow/IfdsIde/Solver/IDESolver.h): the state of the solver
    and its operations, both phases.

    Phase I tabulates jump functions over a work list of path edges; phase II
    propagates values along them. The C++ vectors [WorkList] and [ValuePropWL]
    are used as stacks ([emplace_back], [back], [pop_back]): the head of the
    list is the back of the vector. The flow and edge functions are those of the
    [FlowEdgeFunctionCache], which returns what the problem returns (file
    FlowEdgeFunctionCache) and wraps the flow functions in [ZeroedFlowFunction]
    when [autoAddZero] is set. Performance counters ([PAMM_*], [FSummaryReuse])
    and log output are not part of the state. *)
From S2P Require Import Prelude JoinLattice Table JumpFunctions IDEProblem IDESolverAPIMixin.

(** * Path edges (Solver/PathEdge.h) *)

Record PathEdge (N D : Type) := mkPathEdge {
  factAtSource : D;
  getTarget : N;
  factAtTarget : D
}.
Arguments mkPathEdge {N D} _ _ _.
Arguments factAtSource {N D} _.
Arguments getTarget {N D} _.
Arguments factAtTarget {N D} _.

(** * Kinds of exploded-supergraph edges (Solver/ESGEdgeKind.h) *)

Inductive ESGEdgeKind :=
  | ESG_Normal | ESG_Call | ESG_CallToRet | ESG_SkipUnknownFn | ESG_Ret | ESG_Summary.

Definition isInterProc (Kind : ESGEdgeKind) : bool :=
  match Kind with ESG_Call | ESG_Ret => true | _ => false end.

(** * The state of the solver *)

Record IDESolver (N D F L EF : Type) `{Countable N, Countable D} := mkIDESolver {
  WorkList : list (PathEdge N D * EF);
  ValuePropWL : list (N * D);
  PathEdgeCount : nat;
  ComputedIntraPathEdges : Table N N (gmap D (gset D));
  ComputedInterPathEdges : Table N N (gmap D (gset D));
  JumpFn : JumpFunctions D N EF;
  IntermediateEdgeFunctions : gmap (N * D * N * D) (list EF);
  (** stores summaries that were queried before they were computed *)
  EndsummaryTab : Table N D (Table N D EF);
  (** edges going along calls *)
  IncomingTab : Table N D (gmap N (gset D));
  UnbalancedRetSites : gset N;
  Seeds : gmap N (gmap D L);
  ValTab : Table N D L;
  (** the calls of [applyUnbalancedRetFlowFunctionSideEffects], latest first *)
  UnbalancedSideEffects : list (F * N * D)
}.
Arguments mkIDESolver {N D F L EF _ _ _ _} _ _ _ _ _ _ _ _ _ _ _ _ _.
Arguments WorkList {N D F L EF _ _ _ _} _.
Arguments ValuePropWL {N D F L EF _ _ _ _} _.
Arguments PathEdgeCount {N D F L EF _ _ _ _} _.
Arguments ComputedIntraPathEdges {N D F L EF _ _ _ _} _.
Arguments ComputedInterPathEdges {N D F L EF _ _ _ _} _.
Arguments JumpFn {N D F L EF _ _ _ _} _.
Arguments IntermediateEdgeFunctions {N D F L EF _ _ _ _} _.
Arguments EndsummaryTab {N D F L EF _ _ _ _} _.
Arguments IncomingTab {N D F L EF _ _ _ _} _.
Arguments UnbalancedRetSites {N D F L EF _ _ _ _} _.
Arguments Seeds {N D F L EF _ _ _ _} _.
Arguments ValTab {N D F L EF _ _ _ _} _.
Arguments UnbalancedSideEffects {N D F L EF _ _ _ _} _.

(** Replacing one field. *)
Section setters.
Context {N D F L EF : Type} `{Countable N, Countable D}.
Abbreviation State := (IDESolver N D F L EF).

Definition set_WorkList f (s : State) : State :=
  let (wl, vwl, c, ia, ie, jf, ief, es, inc, u, sd, vt, se) := s in
  mkIDESolver (f wl) vwl c ia ie jf ief es inc u sd vt se.
Definition set_ValuePropWL f (s : State) : State :=
  let (wl, vwl, c, ia, ie, jf, ief, es, inc, u, sd, vt, se) := s in
  mkIDESolver wl (f vwl) c ia ie jf ief es inc u sd vt se.
Definition set_PathEdgeCount f (s : State) : State :=
  let (wl, vwl, c, ia, ie, jf, ief, es, inc, u, sd, vt, se) := s in
  mkIDESolver wl vwl (f c) ia ie jf ief es inc u sd vt se.
Definition set_ComputedIntraPathEdges f (s : State) : State :=
  let (wl, vwl, c, ia, ie, jf, ief, es, inc, u, sd, vt, se) := s in
  mkIDESolver wl vwl c (f ia) ie jf ief es inc u sd vt se.
Definition set_ComputedInterPathEdges f (s : State) : State :=
  let (wl, vwl, c, ia, ie, jf, ief, es, inc, u, sd, vt, se) := s in
  mkIDESolver wl vwl c ia (f ie) jf ief es inc u sd vt se.
Definition set_JumpFn f (s : State) : State :=
  let (wl, vwl, c, ia, ie, jf, ief, es, inc, u, sd, vt, se) := s in
  mkIDESolver wl vwl c ia ie (f jf) ief es inc u sd vt se.
Definition set_IntermediateEdgeFunctions f (s : State) : State :=
  let (wl, vwl, c, ia, ie, jf, ief, es, inc, u, sd, vt, se) := s in
  mkIDESolver wl vwl c ia ie jf (f ief) es inc u sd vt se.
Definition set_EndsummaryTab f (s : State) : State :=
  let (wl, vwl, c, ia, ie, jf, ief, es, inc, u, sd, vt, se) := s in
  mkIDESolver wl vwl c ia ie jf ief (f es) inc u sd vt se.
Definition set_IncomingTab f (s : State) : State :=
  let (wl, vwl, c, ia, ie, jf, ief, es, inc, u, sd, vt, se) := s in
  mkIDESolver wl vwl c ia ie jf ief es (f inc) u sd vt se.
Definition set_UnbalancedRetSites f (s : State) : State :=
  let (wl, vwl, c, ia, ie, jf, ief, es, inc, u, sd, vt, se) := s in
  mkIDESolver wl vwl c ia ie jf ief es inc (f u) sd vt se.
Definition set_Seeds f (s : State) : State :=
  let (wl, vwl, c, ia, ie, jf, ief, es, inc, u, sd, vt, se) := s in
  mkIDESolver wl vwl c ia ie jf ief es inc u (f sd) vt se.
Definition set_ValTab f (s : State) : State :=
  let (wl, vwl, c, ia, ie, jf, ief, es, inc, u, sd, vt, se) := s in
  mkIDESolver wl vwl c ia ie jf ief es inc u sd (f vt) se.
Definition set_UnbalancedSideEffects f (s : State) : State :=
  let (wl, vwl, c, ia, ie, jf, ief, es, inc, u, sd, vt, se) := s in
  mkIDESolver wl vwl c ia ie jf ief es inc u sd vt (f se).
End setters.

Section IDESolver.
Context {N D F L EF : Type} `{Countable N, Countable D, EqDecision EF, EqDecision L}.
Context `{JoinLatticeTraits L, SemiRing L EF}.
Context (ICF : ICFG N D F) (IDEProblem : IDETabulationProblem N D F L EF).
Abbreviation State := (IDESolver N D F L EF).
Abbreviation Edge := (PathEdge N D).
Implicit Types (st : State) (d : D) (n : N) (f : EF).

Definition ZeroValue : D := getZeroValue IDEProblem.
Definition SolverConfig : IFDSIDESolverConfig.t := getIFDSIDESolverConfig IDEProblem.
Definition AllTop : EF := allTopFunction.

(** ** The cached flow functions, with the zero fact added *)

Definition zeroed (FF : D → gset D) : D → gset D :=
  if IFDSIDESolverConfig.autoAddZero SolverConfig
  then ZeroedFlowFunction FF ZeroValue else FF.
Definition cachedNormalFF n nPrime : D → gset D :=
  zeroed (getNormalFlowFunction IDEProblem n nPrime).
Definition cachedCallFF n (Callee : F) : D → gset D :=
  zeroed (getCallFlowFunction IDEProblem n Callee).
Definition cachedRetFF n (Callee : F) (eP RetSite : N) : D → gset D :=
  zeroed (getRetFlowFunction IDEProblem n Callee eP RetSite).
Definition cachedCallToRetFF n (RetSite : N) (Callees : list F) : D → gset D :=
  zeroed (getCallToRetFlowFunction IDEProblem n RetSite Callees).

(** ** Small operations *)

(** [getNextUserOrNull]: only for ICFGs with sparse graphs, never for zero. *)
Definition getNextUserOrNull (Fun : F) (d3 : D) (n : N) : option N :=
  match getSparseNextUser ICF with
  | Some nextUserOrNull => if isZeroValue IDEProblem d3 then None else nextUserOrNull Fun d3 n
  | None => None
  end.

(** The lambda [GetNextUse]. *)
Definition GetNextUse (Fun : F) (n NPrime : N) (d3 : D) : N :=
  match getNextUserOrNull Fun d3 n with Some NextUser => NextUser | None => NPrime end.

Definition emplace_back (E : Edge) f : State → State :=
  set_WorkList (λ wl, (E, f) :: wl).

Definition saveEdges (SourceNode SinkStmt : N) (SourceVal : D) (DestVals : gset D)
    (Kind : ESGEdgeKind) st : State :=
  if negb (IFDSIDESolverConfig.recordEdges SolverConfig) then st
  else
    let ins T := Table.update ∅
      (λ m, <[SourceVal := default ∅ (m !! SourceVal) ∪ DestVals]> m) T SourceNode SinkStmt in
    if isInterProc Kind then set_ComputedInterPathEdges ins st
    else set_ComputedIntraPathEdges ins st.

(** [IntermediateEdgeFunctions[(n, d, n', d')].push_back(f)]. *)
Definition pushIntermediate (n : N) (d : D) (n' : N) (d' : D) f st : State :=
  set_IntermediateEdgeFunctions
    (λ m, <[(n, d, n', d') := default [] (m !! (n, d, n', d')) ++ [f]]> m) st.

(** [jumpFunction]: the stored function, [AllTop] if there is none. *)
Definition jumpFunction (E : Edge) st : EF :=
  match forwardLookup (factAtSource E) (getTarget E) (JumpFn st) with
  | Some Ref =>
      match assoc_find (factAtTarget E) Ref with Some Find => Find | None => AllTop end
  | None => AllTop
  end.

Definition addEndSummary (SP : N) (d1 : D) (eP : N) (d2 : D) f st : State :=
  set_EndsummaryTab (λ T, Table.update ∅ (λ inner, Table.insert inner eP d2 f) T SP d1) st.

(** [endSummary]: the cells of the inner table, which the lookup creates. *)
Definition endSummary (SP : N) (d3 : D) st : list (N * D * EF) * State :=
  let '(inner, T) := Table.get ∅ (EndsummaryTab st) SP d3 in
  (Table.cellVec inner, set_EndsummaryTab (λ _, T) st).

Definition incoming (d1 : D) (SP : N) st : gmap N (gset D) * State :=
  let '(m, T) := Table.get ∅ (IncomingTab st) SP d1 in
  (m, set_IncomingTab (λ _, T) st).

Definition addIncoming (SP : N) (d3 : D) (n : N) (d2 : D) st : State :=
  set_IncomingTab
    (λ T, Table.update ∅ (λ m, <[n := default ∅ (m !! n) ∪ {[d2]}]> m) T SP d3) st.

Definition restoreContextOnReturnedFact (CallSite : N) (d4 d5 : D) : D := d5.

(** ** Processing a normal node (lines 33-37 of the algorithm) *)

Definition processNormalFlow (E : Edge) st : State :=
  let f := jumpFunction E st in
  let d1 := factAtSource E in let n := getTarget E in let d2 := factAtTarget E in
  let Fun := getFunctionOf ICF n in
  for_each (getSuccsOf ICF n) (λ nPrime st,
    let Res := cachedNormalFF n nPrime d2 in
    let st := saveEdges n nPrime d2 Res ESG_Normal st in
    for_each (elements Res) (λ d3 st,
      let g := getNormalEdgeFunction IDEProblem n d2 nPrime d3 in
      let fPrime := extend f g in
      let DestN := GetNextUse Fun n nPrime d3 in
      let st := if IFDSIDESolverConfig.emitESG SolverConfig
                then pushIntermediate n d2 DestN d3 g st else st in
      emplace_back (mkPathEdge d1 DestN d3) fPrime st) st) st.

(** ** Processing a call (lines 13-20) *)

(** A special summary of the callee: propagated to the return sites. *)
Definition processCall_summary (d1 : D) (n : N) (d2 : D) f (Fun : F)
    (ReturnSiteNs : list N) (SpecialSum : D → gset D) st : State :=
  for_each ReturnSiteNs (λ ReturnSiteN st,
    let Res := SpecialSum d2 in
    let st := saveEdges n ReturnSiteN d2 Res ESG_Summary st in
    for_each (elements Res) (λ d3 st,
      let SumEdgFnE := getSummaryEdgeFunction IDEProblem n d2 ReturnSiteN d3 in
      let DestN := GetNextUse Fun n ReturnSiteN d3 in
      emplace_back (mkPathEdge d1 DestN d3) (extend f SumEdgFnE) st) st) st.

(** One end summary of the callee, applied at every return site. *)
Definition processCall_endSummary (d1 : D) (n : N) (d2 : D) f (Fun : F)
    (ReturnSiteNs : list N) (SCalledProcN : F) (d3 : D) (Entry : N * D * EF) st : State :=
  let '(eP, d4, fCalleeSummary) := Entry in
  for_each ReturnSiteNs (λ RetSiteN st,
    let ReturnedFacts := cachedRetFF n SCalledProcN eP RetSiteN d4 in
    let st := saveEdges eP RetSiteN d4 ReturnedFacts ESG_Ret st in
    for_each (elements ReturnedFacts) (λ d5 st,
      let f4 := getCallEdgeFunction IDEProblem n d2 SCalledProcN d3 in
      let f5 := getReturnEdgeFunction IDEProblem n SCalledProcN eP d4 RetSiteN d5 in
      let st := if IFDSIDESolverConfig.emitESG SolverConfig then
                  pushIntermediate eP d4 RetSiteN d5 f5
                    (for_each (getStartPointsOf ICF SCalledProcN)
                      (λ SP st, pushIntermediate n d2 SP d3 f4 st) st)
                else st in
      let fPrime := extend (extend f4 fCalleeSummary) f5 in
      let d5_restoredCtx := restoreContextOnReturnedFact n d2 d5 in
      let DestN := GetNextUse Fun n RetSiteN d5_restoredCtx in
      emplace_back (mkPathEdge d1 DestN d5_restoredCtx) (extend f fPrime) st) st) st.

(** A callee without a special summary: its body is entered, the incoming edge
    registered, and the end summaries found so far are applied. *)
Definition processCall_startPoint (d1 : D) (n : N) (d2 : D) f (Fun : F)
    (ReturnSiteNs : list N) (SCalledProcN : F) (Res : gset D) (SP : N) st : State :=
  let st := saveEdges n SP d2 Res ESG_Call st in
  for_each (elements Res) (λ d3 st,
    let st := emplace_back (mkPathEdge d3 SP d3) identity st in
    let st := addIncoming SP d3 n d2 st in
    let '(Entries, st) := endSummary SP d3 st in
    for_each Entries
      (processCall_endSummary d1 n d2 f Fun ReturnSiteNs SCalledProcN d3) st) st.

(** One callee; the flag is [HasNoCalleeInformation]. *)
Definition processCall_callee (d1 : D) (n : N) (d2 : D) f (Fun : F)
    (ReturnSiteNs : list N) (SCalledProcN : F) (bst : bool * State) : bool * State :=
  let '(HasNoCalleeInformation, st) := bst in
  match getSummaryFlowFunction IDEProblem n SCalledProcN with
  | Some SpecialSum =>
      (false, processCall_summary d1 n d2 f Fun ReturnSiteNs SpecialSum st)
  | None =>
      let Res := cachedCallFF n SCalledProcN d2 in
      for_each (getStartPointsOf ICF SCalledProcN) (λ SP bst,
        (false, processCall_startPoint d1 n d2 f Fun ReturnSiteNs SCalledProcN Res SP bst.2))
        (HasNoCalleeInformation, st)
  end.

(** Call-to-return flow. *)
Definition processCall_callToRet (d1 : D) (n : N) (d2 : D) f (Fun : F)
    (ReturnSiteNs : list N) (Callees : list F) (HasNoCalleeInformation : bool) st : State :=
  for_each ReturnSiteNs (λ ReturnSiteN st,
    let ReturnFacts := cachedCallToRetFF n ReturnSiteN Callees d2 in
    let st := saveEdges n ReturnSiteN d2 ReturnFacts
      (if HasNoCalleeInformation then ESG_SkipUnknownFn else ESG_CallToRet) st in
    for_each (elements ReturnFacts) (λ d3 st,
      let EdgeFnE := getCallToRetEdgeFunction IDEProblem n d2 ReturnSiteN d3 Callees in
      let st := if IFDSIDESolverConfig.emitESG SolverConfig
                then pushIntermediate n d2 ReturnSiteN d3 EdgeFnE st else st in
      let fPrime := extend f EdgeFnE in
      let DestN := GetNextUse Fun n ReturnSiteN d3 in
      emplace_back (mkPathEdge d1 DestN d3) fPrime st) st) st.

Definition processCall (E : Edge) st : State :=
  let d1 := factAtSource E in let n := getTarget E in let d2 := factAtTarget E in
  let f := jumpFunction E st in
  let ReturnSiteNs := getReturnSitesOfCallAt ICF n in
  let Callees := getCalleesOfCallAt ICF n in
  let Fun := getFunctionOf ICF n in
  let '(HasNoCalleeInformation, st) :=
    for_each Callees (processCall_callee d1 n d2 f Fun ReturnSiteNs) (true, st) in
  processCall_callToRet d1 n d2 f Fun ReturnSiteNs Callees HasNoCalleeInformation st.

(** ** Processing an exit (lines 21-32) *)

(** Registers the end summary at the start points and collects the incoming
    calls; a later start point overwrites the facts of a call site. *)
Definition processExit_incoming (StartPointsOf : list N) (d1 : D) (n : N) (d2 : D) f st :
    gmap N (gset D) * State :=
  for_each StartPointsOf (λ SP '(Inc, st),
    let st := addEndSummary SP d1 n d2 f st in
    let '(m, st) := incoming d1 SP st in
    (for_each (map_to_list m) (λ Entry Inc, <[Entry.1 := Entry.2]> Inc) Inc, st)) (∅, st).

(** The jump functions that come into the call [(c, d4)], extended over the
    call to the fact [d5] at the return site. *)
Definition processExit_propagate (c : N) (Fun : F) (RetSiteC : N) (d4 d5 : D) (fPrime : EF) st :
    State :=
  match reverseLookup c d4 (JumpFn st) with
  | Some RevLookupResult =>
      for_each RevLookupResult (λ '(d3, f3) st,
        if decide (f3 ≠ AllTop) then
          let d5_restoredCtx := restoreContextOnReturnedFact c d4 d5 in
          let DestN := GetNextUse Fun c RetSiteC d5_restoredCtx in
          emplace_back (mkPathEdge d3 DestN d5_restoredCtx) (extend f3 fPrime) st
        else st) st
  | None => st
  end.

(** One call site with its incoming facts. *)
Definition processExit_call (d1 : D) (n : N) (d2 : D) f (FunctionThatNeedsSummary : F)
    (Entry : N * gset D) st : State :=
  let c := Entry.1 in
  let Fun := getFunctionOf ICF c in
  for_each (getReturnSitesOfCallAt ICF c) (λ RetSiteC st,
    for_each (elements Entry.2) (λ d4 st,
      let Targets := cachedRetFF c FunctionThatNeedsSummary n RetSiteC d2 in
      let st := saveEdges n RetSiteC d2 Targets ESG_Ret st in
      for_each (elements Targets) (λ d5 st,
        let f4 := getCallEdgeFunction IDEProblem c d4 (getFunctionOf ICF n) d1 in
        let f5 := getReturnEdgeFunction IDEProblem c (getFunctionOf ICF n) n d2 RetSiteC d5 in
        let st := if IFDSIDESolverConfig.emitESG SolverConfig then
                    pushIntermediate n d2 RetSiteC d5 f5
                      (for_each (getStartPointsOf ICF (getFunctionOf ICF n))
                        (λ SP st, pushIntermediate c d4 SP d1 f4 st) st)
                  else st in
        let fPrime := extend (extend f4 f) f5 in
        processExit_propagate c Fun RetSiteC d4 d5 fPrime st) st) st) st.

Definition propagteUnbalancedReturnFlow (RetSiteC : N) (TargetVal : D) (EdgeFunc : EF) st : State :=
  emplace_back (mkPathEdge ZeroValue RetSiteC TargetVal) EdgeFunc st.

(** Returns past the seeds, to all the callers of the function. *)
Definition processExit_unbalanced (d1 : D) (n : N) (d2 : D) f (FunctionThatNeedsSummary : F) st :
    State :=
  let Callers := getCallersOf ICF FunctionThatNeedsSummary in
  let st := for_each Callers (λ Caller st,
    for_each (getReturnSitesOfCallAt ICF Caller) (λ RetSiteC st,
      let Targets := cachedRetFF Caller FunctionThatNeedsSummary n RetSiteC d2 in
      let st := saveEdges n RetSiteC d2 Targets ESG_Ret st in
      for_each (elements Targets) (λ d5 st,
        let f5 := getReturnEdgeFunction IDEProblem Caller (getFunctionOf ICF n) n d2 RetSiteC d5 in
        let st := if IFDSIDESolverConfig.emitESG SolverConfig
                  then pushIntermediate n d2 RetSiteC d5 f5 st else st in
        let st := propagteUnbalancedReturnFlow RetSiteC d5 (extend f f5) st in
        set_UnbalancedRetSites (λ u, {[RetSiteC]} ∪ u) st) st) st) st in
  if decide (Callers = [])
  then set_UnbalancedSideEffects (λ l, (FunctionThatNeedsSummary, n, d2) :: l) st
  else st.

Definition processExit (E : Edge) st : State :=
  let n := getTarget E in
  let f := jumpFunction E st in
  let FunctionThatNeedsSummary := getFunctionOf ICF n in
  let d1 := factAtSource E in
  let d2 := factAtTarget E in
  let StartPointsOf := getStartPointsOf ICF FunctionThatNeedsSummary in
  let '(Inc, st) := processExit_incoming StartPointsOf d1 n d2 f st in
  let st := for_each (map_to_list Inc) (processExit_call d1 n d2 f FunctionThatNeedsSummary) st in
  if IFDSIDESolverConfig.followReturnsPastSeeds SolverConfig && bool_decide (Inc = ∅)
  then processExit_unbalanced d1 n d2 f FunctionThatNeedsSummary st
  else st.

(** ** Propagation *)

Definition pathEdgeProcessingTask (E : Edge) st : State :=
  if negb (isCallSite ICF (getTarget E)) then
    let st := if isExitInst ICF (getTarget E) then processExit E st else st in
    if decide (getSuccsOf ICF (getTarget E) ≠ []) then processNormalFlow E st else st
  else processCall E st.

(** The lambda [JumpFnE] of [propagate]. *)
Definition JumpFnE (SourceVal : D) (Target : N) (TargetVal : D) st : EF :=
  match reverseLookup Target TargetVal (JumpFn st) with
  | Some JumpFnContainer =>
      match assoc_find SourceVal JumpFnContainer with Some f => f | None => AllTop end
  | None => AllTop
  end.

Definition propagate (SourceVal : D) (Target : N) (TargetVal : D) f st : State :=
  let JumpFnE := JumpFnE SourceVal Target TargetVal st in
  let fPrime := combine JumpFnE f in
  if decide (fPrime ≠ JumpFnE) then
    let st := set_JumpFn (addFunction isAllTop SourceVal Target TargetVal fPrime) st in
    let st := set_PathEdgeCount S st in
    pathEdgeProcessingTask (mkPathEdge SourceVal Target TargetVal) st
  else st.

(** ** Phase I: seeds and the work list *)

Definition submitInitialSeeds st : State :=
  let st := for_each (map_to_list (Seeds st)) (λ '(StartPoint, Facts) st,
    match Facts !! ZeroValue with
    | Some _ => st
    | None => set_Seeds (InitialSeeds.addSeed StartPoint ZeroValue bottom) st
    end) st in
  for_each (map_to_list (Seeds st)) (λ '(StartPoint, Facts) st,
    for_each (map_to_list Facts) (λ '(Fact, _) st,
      emplace_back (mkPathEdge Fact StartPoint Fact) identity st) st) st.

Definition doInitialize : State → State := submitInitialSeeds.

(** [doNext]: [None] when the work list is empty. *)
Definition doNext st : option State :=
  match WorkList st with
  | [] => None
  | (E, f) :: wl =>
      Some (propagate (factAtSource E) (getTarget E) (factAtTarget E) f
              (set_WorkList (λ _, wl) st))
  end.

(** ** Phase II: values *)

Definition val (NHashN : N) (NHashD : D) st : L :=
  if Table.contains (ValTab st) NHashN NHashD
  then (Table.get top (ValTab st) NHashN NHashD).1 else top.

Definition setVal (NHashN : N) (NHashD : D) (l : L) : State → State :=
  set_ValTab (λ T, Table.insert T NHashN NHashD l).

Definition joinValueAt (Unit : N) (Fact : D) (Curr NewVal : L) : L := join Curr NewVal.

Definition propagateValue (NHashN : N) (NHashD : D) (l : L) st : State :=
  let ValNHash := val NHashN NHashD st in
  let LPrime := joinValueAt NHashN NHashD ValNHash l in
  if decide (LPrime ≠ ValNHash)
  then set_ValuePropWL (λ wl, (NHashN, NHashD) :: wl) (setVal NHashN NHashD LPrime st)
  else st.

Definition propagateValueAtStart (NAndD : N * D) (Stmt : N) st : State :=
  let Fact := NAndD.2 in
  let Func := getFunctionOf ICF Stmt in
  for_each (getCallsFromWithin ICF Func) (λ CallSite st,
    match forwardLookup Fact CallSite (JumpFn st) with
    | None => st
    | Some LookupResults =>
        for_each LookupResults (λ '(dPrime, fPrime) st,
          let Val := val Stmt Fact st in
          propagateValue CallSite dPrime (computeTarget fPrime Val) st) st
    end) st.

Definition propagateValueAtCall (NAndD : N * D) (Stmt : N) st : State :=
  let Fact := NAndD.2 in
  for_each (getCalleesOfCallAt ICF Stmt) (λ Callee st,
    for_each (elements (cachedCallFF Stmt Callee Fact)) (λ dPrime st,
      let EdgeFn := getCallEdgeFunction IDEProblem Stmt Fact Callee dPrime in
      let st := if IFDSIDESolverConfig.emitESG SolverConfig then
                  for_each (getStartPointsOf ICF Callee)
                    (λ SP st, pushIntermediate Stmt Fact SP dPrime EdgeFn st) st
                else st in
      for_each (getStartPointsOf ICF Callee) (λ StartPoint st,
        propagateValue StartPoint dPrime (computeTarget EdgeFn (val Stmt Fact st)) st) st) st) st.

Definition valuePropagationTask (NAndD : N * D) st : State :=
  let n := NAndD.1 in
  let st :=
    if isStartPoint ICF n || InitialSeeds.containsInitialSeedsFor (Seeds st) n
       || bool_decide (n ∈ UnbalancedRetSites st)
    then propagateValueAtStart NAndD n st else st in
  if isCallSite ICF n then propagateValueAtCall NAndD n st else st.

Definition valueComputationTask (Values : list N) st : State :=
  for_each Values (λ n st,
    for_each (getStartPointsOf ICF (getFunctionOf ICF n)) (λ SP st,
      let '(LookupByTarget, jf) := lookupByTarget n (JumpFn st) in
      let st := set_JumpFn (λ _, jf) st in
      for_each (Table.cellVec LookupByTarget) (λ '(dPrime, d, fPrime) st,
        let TargetVal := val SP dPrime st in
        setVal n d (join (val n d st) (computeTarget fPrime TargetVal)) st) st) st) st.

Definition submitInitialValues st : State :=
  let AllSeeds := Seeds st in
  let AllSeeds := for_each (elements (UnbalancedRetSites st)) (λ UnbalancedRetSite AllSeeds,
    match AllSeeds !! UnbalancedRetSite with
    | Some _ => AllSeeds
    | None => <[UnbalancedRetSite := {[ZeroValue := top]}]> AllSeeds
    end) AllSeeds in
  for_each (map_to_list AllSeeds) (λ '(StartPoint, Facts) st,
    for_each (map_to_list Facts) (λ '(Fact, SeedValue) st,
      let OldVal := val StartPoint Fact st in
      let NewVal := join SeedValue OldVal in
      valuePropagationTask (StartPoint, Fact) (setVal StartPoint Fact NewVal st)) st) st.

(** One turn of the loop of [computeValues]; [None] when the list is empty. *)
Definition nextValue st : option State :=
  match ValuePropWL st with
  | [] => None
  | NAndD :: wl => Some (valuePropagationTask NAndD (set_ValuePropWL (λ _, wl) st))
  end.

(** ** Driving the solver (Solver/IDESolverAPIMixin.h) *)

Definition initialState : State :=
  mkIDESolver [] [] 0 ∅ ∅ JumpFunctions.empty ∅ ∅ ∅ ∅ (initialSeeds IDEProblem) ∅ [].

(** Phase I: [solveImpl]. *)
Definition solveImpl (fuel : nat) : option State := while_next doNext fuel (doInitialize initialState).

Definition computeValues (fuel : nat) st : option State :=
  st ← while_next nextValue fuel (submitInitialValues st);
  Some (valueComputationTask (allNonCallStartNodes ICF) st).

Definition finalizeInternal (fuel : nat) st : option State :=
  if IFDSIDESolverConfig.computeValues SolverConfig then computeValues fuel st else Some st.

(** [solve()]. *)
Definition solve (fuel : nat) : option State := st ← solveImpl fuel; finalizeInternal fuel st.
End IDESolver.
