(* ===== verification/DefaultSemiRing.v ===== *)
(** [DefaultSemiRing] (Utils/SemiRing.h) on the edge functions of a constant
    propagation: [EdgeIdentity], [ConstantEdgeFunction], [AllBottom] and [AllTop]
    over [LatticeDomain<A>]. [extend] and [combine] are [composeWith] and
    [joinWith] of EdgeFunctionUtils; the four kinds are closed under both, and
    satisfy the laws the IDE solver relies on. *)
From S2P Require Import Prelude JoinLattice IDEProblem EdgeFunctionUtils.

Inductive CoreEF (A : Type) :=
  | CIdentity
  | CConstant (a : A)
  | CBottom
  | CTop.
Arguments CIdentity {A}.
Arguments CConstant {A} a.
Arguments CBottom {A}.
Arguments CTop {A}.

#[export] Instance CoreEF_eq_dec {A} `{EqDecision A} : EqDecision (CoreEF A).
Proof. solve_decision. Defined.

Section DefaultSemiRing.
Context {A : Type} `{EqDecision A}.
Abbreviation EF := (EdgeFunction (LatticeDomain A) A Empty_set).

Definition embed (f : CoreEF A) : EF :=
  match f with
  | CIdentity => EdgeIdentity
  | CConstant a => ConstantEdgeFunction a
  | CBottom => AllBottom
  | CTop => AllTop
  end.

Definition project (r : Outcome EF) : CoreEF A :=
  match r with
  | Returns EdgeIdentity => CIdentity
  | Returns (ConstantEdgeFunction a) => CConstant a
  | Returns AllBottom => CBottom
  | _ => CTop
  end.

(** The constants of [LatticeDomain<A>] fit into a pointer for the [A] used
    here, and no comparison of functions is ever needed. *)
Definition compose_core (f g : CoreEF A) : Outcome EF := compose true (embed f) (embed g).
Definition joinWith_core (f g : CoreEF A) : Outcome EF :=
  joinWith 0 (λ _ _, false) true (embed f) (embed g).

(** The four kinds are closed under composition and join. *)
Lemma compose_core_closed f g : compose_core f g = Returns (embed (project (compose_core f g))).
Proof. by destruct f, g. Qed.

Lemma joinWith_core_constants a b :
  joinWith_core (CConstant a) (CConstant b) =
  Returns (if decide (a = b) then ConstantEdgeFunction a else AllBottom).
Proof.
  unfold joinWith_core, joinWith, ConstantEdgeFunction_join, defaultJoinOrNull_ref. simpl.
  destruct (decide (a = b)) as [->|Hab]; [by rewrite bool_decide_eq_true_2|].
  rewrite bool_decide_eq_false_2 by congruence. simpl.
  assert (LatticeDomainOps.join None (Value a) (Value b) = Bottom) as Hj.
  { rewrite join_flat. simpl. rewrite bool_decide_eq_false_2; [done|congruence]. }
  by rewrite decide_True.
Qed.

Lemma joinWith_core_closed f g : joinWith_core f g = Returns (embed (project (joinWith_core f g))).
Proof.
  destruct f as [|a| |], g as [|b| |]; try done.
  rewrite joinWith_core_constants. by case_decide.
Qed.

#[export] Instance DefaultSemiRing : SemiRing (LatticeDomain A) (CoreEF A) := {|
  extend f g := project (compose_core f g);
  combine f g := project (joinWith_core f g);
  identity := CIdentity;
  allTopFunction := CTop;
  isAllTop f := isa_AllTop (embed f);
  IDEProblem.computeTarget f := computeTarget (embed f)
|}.

Lemma combine_core f g :
  combine f g =
  match f, g with
  | CTop, _ => g
  | _, CTop => f
  | CBottom, _ | _, CBottom => CBottom
  | _, _ => if decide (f = g) then f else CBottom
  end.
Proof.
  destruct f as [|a| |], g as [|b| |]; try done.
  unfold combine, DefaultSemiRing. rewrite joinWith_core_constants.
  repeat case_decide; simplify_eq; done.
Qed.

Lemma extend_core f g :
  extend f g = match g with CIdentity => f | CConstant _ | CBottom | CTop => g end.
Proof. by destruct f, g. Qed.

#[export] Instance DefaultSemiRing_laws : SemiRingLaws (LatticeDomain A) (CoreEF A).
Proof.
  split.
  - intros f g h. rewrite !combine_core. destruct f, g, h; repeat case_decide; simplify_eq; done.
  - intros f g. rewrite !combine_core. destruct f, g; repeat case_decide; simplify_eq; done.
  - intros f. rewrite combine_core. destruct f; try done; by rewrite decide_True.
  - intros f. rewrite combine_core. by destruct f.
  - intros f. by destruct f.
  - intros f f' g g'. rewrite !combine_core, !extend_core.
    destruct f, f', g, g'; intros; repeat case_decide; simplify_eq; done.
Qed.

(** The semiring is exact on values: extending is composing, and combining is
    an upper bound. *)
Lemma extend_core_computeTarget f g x :
  f ≠ CTop → IDEProblem.computeTarget (extend f g) x =
             IDEProblem.computeTarget g (IDEProblem.computeTarget (L := LatticeDomain A) f x).
Proof. by destruct f, g. Qed.

(** The four kinds are monotone on values. *)
Lemma computeTarget_core_mono (f : CoreEF A) (x y : LatticeDomain A) :
  lat_le x y →
  lat_le (IDEProblem.computeTarget f x) (IDEProblem.computeTarget f y).
Proof. intros Hle. destruct f; simpl; [done|apply join_idemp..]. Qed.

(** Chains of edge functions are bounded: top, then identity or a constant, then bottom. *)
Definition core_height (f : CoreEF A) : nat :=
  match f with CTop => 2 | CIdentity | CConstant _ => 1 | CBottom => 0 end.

Lemma core_height_lt (f g : CoreEF A) :
  ef_le (L := LatticeDomain A) f g → f ≠ g → core_height g < core_height f.
Proof.
  unfold ef_le. rewrite combine_core.
  destruct f, g; intros Hle Hne; repeat case_decide; simplify_eq; simpl; lia.
Qed.
End DefaultSemiRing.
