(* ===== verification/IDESolverEffects.v ===== *)
(** What each operation of the first phase of the [IDESolver] does to the parts
    of its state that decide the result: which path edges it appends to the work
    list, which incoming call edges it registers, and that it leaves the jump
    functions, the end summaries and the seeds alone.

    [effect st st' W I] says so for one operation; effects compose along
    sequences and loops, so that every operation of [IDESolver] has one lemma
    [..._effect] that names the exploded-supergraph edges it follows. *)
From S2P Require Import Prelude JoinLattice Table JumpFunctions IDEProblem IDESolverAPIMixin IDESolver.

Lemma exists_app_singleton {A} (l : list A) (x : A) (Q : A → Prop) :
  (∃ y, y ∈ l ∧ Q y) ∨ Q x ↔ ∃ y, y ∈ l ++ [x] ∧ Q y.
Proof.
  split.
  - intros [(y & Hy & HQ)|HQ]; [exists y | exists x]; (split; [|done]); set_solver.
  - intros (y & [Hy|Hy]%elem_of_app & HQ); [by left; eauto|].
    apply list_elem_of_singleton in Hy as ->. by right.
Qed.

(** A loop over a flag and a state, whose state part does not read the flag. *)
Lemma for_each_snd {A B S} (l : list A) (body : A → B * S → B * S) (body' : A → S → S) bs :
  (∀ x bs, (body x bs).2 = body' x bs.2) → (for_each l body bs).2 = for_each l body' bs.2.
Proof.
  intros Hb. revert bs. induction l as [|x l IH]; intros bs; [done|].
  by rewrite !for_each_cons, IH, Hb.
Qed.

Section edges.
Context {N D F L EF : Type} `{Countable N, Countable D, EqDecision EF, EqDecision L}.
Context `{JoinLatticeTraits L, SemiRing L EF}.
Context (ICF : ICFG N D F) (P : IDETabulationProblem N D F L EF).

(** ** The edges of the exploded supergraph the solver follows *)

(** Edges inside a function: normal flow, special summaries, call-to-return. *)
Inductive local_edge (n : N) (d2 : D) : N → D → EF → Prop :=
  | local_normal nPrime d3 :
      isCallSite ICF n = false → nPrime ∈ getSuccsOf ICF n →
      d3 ∈ cachedNormalFF P n nPrime d2 →
      local_edge n d2 (GetNextUse ICF P (getFunctionOf ICF n) n nPrime d3) d3
        (getNormalEdgeFunction P n d2 nPrime d3)
  | local_summary Callee SpecialSum RetSite d3 :
      isCallSite ICF n = true → Callee ∈ getCalleesOfCallAt ICF n →
      getSummaryFlowFunction P n Callee = Some SpecialSum →
      RetSite ∈ getReturnSitesOfCallAt ICF n → d3 ∈ SpecialSum d2 →
      local_edge n d2 (GetNextUse ICF P (getFunctionOf ICF n) n RetSite d3) d3
        (getSummaryEdgeFunction P n d2 RetSite d3)
  | local_call_to_return RetSite d3 :
      isCallSite ICF n = true → RetSite ∈ getReturnSitesOfCallAt ICF n →
      d3 ∈ cachedCallToRetFF P n RetSite (getCalleesOfCallAt ICF n) d2 →
      local_edge n d2 (GetNextUse ICF P (getFunctionOf ICF n) n RetSite d3) d3
        (getCallToRetEdgeFunction P n d2 RetSite d3 (getCalleesOfCallAt ICF n)).

(** Edges from a call site into a callee without a special summary. *)
Definition call_edge (n : N) (d2 : D) (Callee : F) (SP : N) (d3 : D) : Prop :=
  isCallSite ICF n = true ∧ Callee ∈ getCalleesOfCallAt ICF n ∧
  getSummaryFlowFunction P n Callee = None ∧
  SP ∈ getStartPointsOf ICF Callee ∧ d3 ∈ cachedCallFF P n Callee d2.

(** Edges from the exit of a callee back to a return site, with the edge
    functions of the call and of the return. *)
Inductive return_edge (c : N) (d2 : D) (Callee : F) (d3 : D) (eP : N) (d4 : D) :
    N → D → EF → EF → Prop :=
  | return_edge_intro RetSite d5 :
      RetSite ∈ getReturnSitesOfCallAt ICF c → d5 ∈ cachedRetFF P c Callee eP RetSite d4 →
      return_edge c d2 Callee d3 eP d4 (GetNextUse ICF P (getFunctionOf ICF c) c RetSite d5) d5
        (getCallEdgeFunction P c d2 Callee d3)
        (getReturnEdgeFunction P c Callee eP d4 RetSite d5).

(** Returns to every caller of the function of an exit. *)
Inductive unbalanced_edge (n : N) (d2 : D) : N → D → EF → Prop :=
  | unbalanced_edge_intro Caller RetSite d5 :
      Caller ∈ getCallersOf ICF (getFunctionOf ICF n) →
      RetSite ∈ getReturnSitesOfCallAt ICF Caller →
      d5 ∈ cachedRetFF P Caller (getFunctionOf ICF n) n RetSite d2 →
      unbalanced_edge n d2 RetSite d5
        (getReturnEdgeFunction P Caller (getFunctionOf ICF n) n d2 RetSite d5).

Definition exit_node (n : N) : Prop := isCallSite ICF n = false ∧ isExitInst ICF n = true.

(** ** Views of the state *)

Abbreviation State := (IDESolver N D F L EF).
Implicit Types (st : State) (e : PathEdge N D * EF).

(** The stored jump function, [AllTop] if there is none. *)
Definition Jf st (d1 : D) (n : N) (d2 : D) : EF :=
  default AllTop (jf_lookup (JumpFn st) d1 n d2).

Definition es st (SP : N) (d : D) : Table N D EF :=
  default ∅ (Table.lookup (EndsummaryTab st) SP d).

Definition inc_map st (SP : N) (d : D) : gmap N (gset D) :=
  default ∅ (Table.lookup (IncomingTab st) SP d).

(** [(c, d2)] is registered as a call that enters [(SP, d3)]. *)
Definition inc st (SP : N) (d3 : D) (c : N) (d2 : D) : Prop :=
  ∃ S, inc_map st SP d3 !! c = Some S ∧ d2 ∈ S.

(** Every registered call site has a fact. *)
Definition inc_ne st : Prop := ∀ SP d c S, inc_map st SP d !! c = Some S → S ≠ ∅.

Record effect st st' (W : PathEdge N D * EF → Prop) (I : N → D → N → D → Prop) : Prop := {
  eff_JumpFn : JumpFn st' = JumpFn st;
  eff_Seeds : Seeds st' = Seeds st;
  eff_es SP d : es st' SP d = es st SP d;
  eff_WorkList e : e ∈ WorkList st' ↔ e ∈ WorkList st ∨ W e;
  eff_inc SP d c d2 : inc st' SP d c d2 ↔ inc st SP d c d2 ∨ I SP d c d2;
  eff_inc_ne : inc_ne st → inc_ne st'
}.

Definition noI (_ : N) (_ : D) (_ : N) (_ : D) : Prop := False.

Lemma effect_refl st : effect st st (λ _, False) noI.
Proof. split; try done; unfold noI; intros; tauto. Qed.

(** An effect, with equivalent descriptions. *)
Lemma effect_iff st st' W W' I I' :
  effect st st' W I → (∀ e, W e ↔ W' e) → (∀ SP d c d2, I SP d c d2 ↔ I' SP d c d2) →
  effect st st' W' I'.
Proof.
  intros [HJ HS HE HWL HInc Hne] HW HI. split; try done; intros.
  - by rewrite HWL, HW.
  - by rewrite HInc, HI.
Qed.

Lemma effect_trans st1 st2 st3 W W' I I' :
  effect st1 st2 W I → effect st2 st3 W' I' →
  effect st1 st3 (λ e, W e ∨ W' e) (λ SP d c d2, I SP d c d2 ∨ I' SP d c d2).
Proof.
  intros [HJ HS HE HWL HInc Hne] [HJ' HS' HE' HWL' HInc' Hne']. split; intros.
  - congruence.
  - congruence.
  - by rewrite HE'.
  - rewrite HWL', HWL. tauto.
  - rewrite HInc', HInc. tauto.
  - auto.
Qed.

Lemma effect_for_each {A} (l : list A) (body : A → State → State) st
    (W : A → PathEdge N D * EF → Prop) (I : A → N → D → N → D → Prop) :
  (∀ x st', x ∈ l → JumpFn st' = JumpFn st → (∀ SP d, es st' SP d = es st SP d) →
     effect st' (body x st') (W x) (I x)) →
  effect st (for_each l body st) (λ e, ∃ x, x ∈ l ∧ W x e)
    (λ SP d c d2, ∃ x, x ∈ l ∧ I x SP d c d2).
Proof.
  intros Hb. induction l as [|x l IH] using rev_ind.
  { eapply effect_iff; [apply effect_refl | | unfold noI]; intros.
    - split; [done | by intros (x & Hx%elem_of_nil & _)].
    - split; [done | by intros (x & Hx%elem_of_nil & _)]. }
  rewrite for_each_app, for_each_cons, for_each_nil.
  assert (effect st (for_each l body st) (λ e, ∃ x, x ∈ l ∧ W x e)
    (λ SP d c d2, ∃ x, x ∈ l ∧ I x SP d c d2)) as Hl.
  { apply IH. intros; apply Hb; [set_solver|done|done]. }
  eapply effect_iff; [eapply effect_trans; [exact Hl|] | |].
  - apply Hb; [set_solver | apply Hl | apply Hl].
  - intros e. apply (exists_app_singleton l x (λ y, W y e)).
  - intros SP d c d2. apply (exists_app_singleton l x (λ y, I y SP d c d2)).
Qed.

(** Operations that touch only bookkeeping have no effect. *)
Lemma effect_frame st st' :
  JumpFn st' = JumpFn st → Seeds st' = Seeds st → EndsummaryTab st' = EndsummaryTab st →
  WorkList st' = WorkList st → IncomingTab st' = IncomingTab st →
  effect st st' (λ _, False) noI.
Proof.
  intros HJ HS HE HW HI. split; try done.
  - intros. unfold es. by rewrite HE.
  - intros. rewrite HW. tauto.
  - intros. unfold inc, inc_map, noI. rewrite HI. tauto.
  - unfold inc_ne, inc_map. by rewrite HI.
Qed.

(** Preceding an effect by bookkeeping. *)
Lemma effect_after st st0 st' W I :
  effect st st0 (λ _, False) noI → effect st0 st' W I → effect st st' W I.
Proof.
  intros H1' H2'. eapply effect_iff; [eapply effect_trans; eassumption| |];
    unfold noI; intros; simpl; tauto.
Qed.

Lemma saveEdges_effect a b c S K st : effect st (saveEdges P a b c S K st) (λ _, False) noI.
Proof. unfold saveEdges. destruct st. repeat case_match; by apply effect_frame. Qed.

Lemma pushIntermediate_effect a b c d f st :
  effect st (pushIntermediate a b c d f st) (λ _, False) noI.
Proof. destruct st. by apply effect_frame. Qed.

Lemma pushIntermediate_SPs_effect a b d f SPs st :
  effect st (for_each SPs (λ SP st, pushIntermediate a b SP d f st) st) (λ _, False) noI.
Proof.
  eapply effect_iff; [apply effect_for_each; intros; apply pushIntermediate_effect| |];
    unfold noI; intros; (split; [by intros (? & _ & ?) | done]).
Qed.

Lemma emplace_back_effect E f st : effect st (emplace_back E f st) (λ e, e = (E, f)) noI.
Proof. destruct st. split; try done; unfold noI; set_solver. Qed.
End edges.

(** Close the bookkeeping part of an effect goal. *)
Ltac effect_bookkeeping :=
  first
    [ apply saveEdges_effect | apply pushIntermediate_effect | apply effect_refl
    | apply pushIntermediate_SPs_effect
    | case_match; effect_bookkeeping
    | eapply effect_after; [|effect_bookkeeping]; effect_bookkeeping ].

(** Loops that register no call. *)
Ltac noI_solve := intros; unfold noI; simpl; split; [intros; split_hyps; done | done].

(** A loop whose body is bookkeeping followed by [tac]. *)
Tactic Notation "effect_loop" tactic3(tac) :=
  apply effect_for_each; intros; cbv zeta;
  first [tac | eapply effect_after; [|tac]; [effect_bookkeeping]].

Section operations.
Context {N D F L EF : Type} `{Countable N, Countable D, EqDecision EF, EqDecision L}.
Context `{JoinLatticeTraits L, SemiRing L EF}.
Context (ICF : ICFG N D F) (P : IDETabulationProblem N D F L EF).
Abbreviation State := (IDESolver N D F L EF).
Implicit Types (st : State) (e : PathEdge N D * EF).

(** The edge a local edge function extends [f] to. *)
Definition out_edge (d1 : D) (f : EF) (n' : N) (d3 : D) (g : EF) : PathEdge N D * EF :=
  (mkPathEdge d1 n' d3, extend f g).

Lemma processNormalFlow_effect E st :
  isCallSite ICF (getTarget E) = false →
  effect st (processNormalFlow ICF P E st)
    (λ e, ∃ n' d3 g, local_edge ICF P (getTarget E) (factAtTarget E) n' d3 g ∧
                     e = out_edge (factAtSource E) (jumpFunction E st) n' d3 g) noI.
Proof.
  intros Hc. unfold processNormalFlow. eapply effect_iff.
  - effect_loop (effect_loop (apply emplace_back_effect)).
  - intros e. simpl. split.
    + intros (nPrime & Hn & d3 & Hd%elem_of_elements & ->).
      eexists _, _, _. split; [by apply local_normal | done].
    + intros (n' & d3 & g & He & ->). destruct He; [|congruence..].
      eexists; split; [done|]. eexists; split; [by apply elem_of_elements | done].
  - noI_solve.
Qed.

(** *** Calls *)

Lemma processCall_summary_effect d1 n d2 f Fun Rets Sum st :
  effect st (processCall_summary ICF P d1 n d2 f Fun Rets Sum st)
    (λ e, ∃ RetSite d3, RetSite ∈ Rets ∧ d3 ∈ Sum d2 ∧
       e = out_edge d1 f (GetNextUse ICF P Fun n RetSite d3) d3
             (getSummaryEdgeFunction P n d2 RetSite d3)) noI.
Proof.
  unfold processCall_summary. eapply effect_iff.
  - effect_loop (effect_loop (apply emplace_back_effect)).
  - intros e. simpl. setoid_rewrite elem_of_elements. naive_solver.
  - noI_solve.
Qed.

Lemma processCall_callToRet_effect d1 n d2 f Fun Rets Callees b st :
  effect st (processCall_callToRet ICF P d1 n d2 f Fun Rets Callees b st)
    (λ e, ∃ RetSite d3, RetSite ∈ Rets ∧ d3 ∈ cachedCallToRetFF P n RetSite Callees d2 ∧
       e = out_edge d1 f (GetNextUse ICF P Fun n RetSite d3) d3
             (getCallToRetEdgeFunction P n d2 RetSite d3 Callees)) noI.
Proof.
  unfold processCall_callToRet. eapply effect_iff.
  - effect_loop (effect_loop (apply emplace_back_effect)).
  - intros e. simpl. setoid_rewrite elem_of_elements. naive_solver.
  - noI_solve.
Qed.

(** The edge to a return site, over a call, its callee and its return. *)
Definition over_call (d1 : D) (f : EF) (n' : N) (d5 : D) (f4 fs f5 : EF) : PathEdge N D * EF :=
  (mkPathEdge d1 n' d5, extend f (extend (extend f4 fs) f5)).

Lemma processCall_endSummary_effect d1 n d2 f Callee d3 eP d4 fs st :
  effect st (processCall_endSummary ICF P d1 n d2 f (getFunctionOf ICF n)
               (getReturnSitesOfCallAt ICF n) Callee d3 (eP, d4, fs) st)
    (λ e, ∃ n' d5 f4 f5, return_edge ICF P n d2 Callee d3 eP d4 n' d5 f4 f5 ∧
                         e = over_call d1 f n' d5 f4 fs f5) noI.
Proof.
  unfold processCall_endSummary. eapply effect_iff.
  - effect_loop (effect_loop (apply emplace_back_effect)).
  - intros e. simpl. setoid_rewrite elem_of_elements. split.
    + intros (Ret & HR & d5 & Hd & ->). eexists _, _, _, _. split; [by apply return_edge_intro | done].
    + intros (n' & d5 & f4 & f5 & [Ret d5'] & ->). eauto.
  - noI_solve.
Qed.

Lemma addIncoming_effect SP d3 n d2 st :
  effect st (addIncoming SP d3 n d2 st) (λ _, False)
    (λ SP' d c d2', SP' = SP ∧ d = d3 ∧ c = n ∧ d2' = d2).
Proof.
  assert (∀ SP' d, inc_map (addIncoming SP d3 n d2 st) SP' d =
    if decide (SP = SP' ∧ d3 = d)
    then <[n := default ∅ (inc_map st SP d3 !! n) ∪ {[d2]}]> (inc_map st SP d3)
    else inc_map st SP' d) as Hm.
  { intros. unfold inc_map, addIncoming. destruct st. simpl. rewrite table_lookup_update.
    by case_decide. }
  split; try (by destruct st).
  - intros e. destruct st; simpl; tauto.
  - intros SP0 d c d2'. unfold inc. rewrite Hm.
    destruct (decide (SP = SP0 ∧ d3 = d)) as [[<- <-]|Hne].
    2:{ split; [by left | intros [?|(-> & -> & _)]; [done|naive_solver]]. }
    destruct (decide (c = n)) as [->|Hn].
    + rewrite lookup_insert_eq. split.
      * intros (S & [= <-] & [Hin|Hin%elem_of_singleton]%elem_of_union); [left|by right].
        destruct (inc_map st SP d3 !! n) as [S|]; [by exists S|set_solver].
      * intros [(S & -> & HS)|(_ & _ & _ & ->)]; (eexists; split; [done|]); set_solver.
    + rewrite lookup_insert_ne by done. split; [by left | by intros [?|(_ & _ & -> & _)]].
  - intros Hne SP' d c S. rewrite Hm. destruct (decide _); [|apply Hne].
    destruct (decide (c = n)) as [->|Hn].
    + rewrite lookup_insert_eq. intros [= <-]. set_solver.
    + rewrite lookup_insert_ne by done. apply Hne.
Qed.

Lemma endSummary_effect SP d3 st :
  effect st (endSummary SP d3 st).2 (λ _, False) noI ∧
  ∀ eP d4 fs, (eP, d4, fs) ∈ (endSummary SP d3 st).1 ↔
              Table.lookup (es st SP d3) eP d4 = Some fs.
Proof.
  unfold endSummary. destruct (table_get_spec ∅ (EndsummaryTab st) SP d3) as [Hv Ht].
  destruct (Table.get ∅ (EndsummaryTab st) SP d3) as [inner T]. simpl in *. split.
  - split; try (by destruct st).
    + intros SP' d. unfold es. destruct st. simpl in *. rewrite Ht. case_decide as Heq; [|done].
      destruct Heq as [<- <-]. done.
    + intros. destruct st. simpl. tauto.
    + intros. unfold inc, inc_map, noI. destruct st. simpl. tauto.
  - intros. rewrite table_cellVec_elem, Hv. done.
Qed.

(** What entering a callee at [SP] with the fact [d3] adds: its self-loop, and
    the returns through the end summaries of [(SP, d3)]. *)
Definition entered st d1 n d2 f Callee SP d3 e : Prop :=
  e = (mkPathEdge d3 SP d3, identity) ∨
  ∃ eP d4 fs n' d5 f4 f5,
    Table.lookup (es st SP d3) eP d4 = Some fs ∧
    return_edge ICF P n d2 Callee d3 eP d4 n' d5 f4 f5 ∧
    e = over_call d1 f n' d5 f4 fs f5.

Lemma entered_es st st' d1 n d2 f Callee SP d3 e :
  (∀ SP d, es st' SP d = es st SP d) →
  entered st' d1 n d2 f Callee SP d3 e ↔ entered st d1 n d2 f Callee SP d3 e.
Proof. intros Hes. unfold entered. by rewrite Hes. Qed.

Lemma processCall_startPoint_effect d1 n d2 f Callee Res SP st :
  effect st (processCall_startPoint ICF P d1 n d2 f (getFunctionOf ICF n)
               (getReturnSitesOfCallAt ICF n) Callee Res SP st)
    (λ e, ∃ d3, d3 ∈ Res ∧ entered st d1 n d2 f Callee SP d3 e)
    (λ SP' d c d2', SP' = SP ∧ d ∈ Res ∧ c = n ∧ d2' = d2).
Proof.
  unfold processCall_startPoint. cbv zeta.
  pose proof (saveEdges_effect P n SP d2 Res ESG_Call st) as Hsave.
  set (st0 := saveEdges P n SP d2 Res ESG_Call st) in *.
  eapply effect_iff; [eapply effect_after; [exact Hsave|]; apply effect_for_each| |].
  - intros d3 st' _ _ Hes.
    pose proof (emplace_back_effect (mkPathEdge d3 SP d3) identity st') as E1.
    set (st1 := emplace_back _ _ st') in *.
    pose proof (addIncoming_effect SP d3 n d2 st1) as E2.
    set (st2 := addIncoming SP d3 n d2 st1) in *.
    destruct (endSummary_effect SP d3 st2) as [E3 Hin].
    destruct (endSummary SP d3 st2) as [Entries st3] eqn:Heq. simpl in E3, Hin.
    assert (∀ SP d, es st2 SP d = es st SP d) as Hes2.
    { intros. by rewrite (eff_es _ _ _ _ E2), (eff_es _ _ _ _ E1), Hes, (eff_es _ _ _ _ Hsave). }
    eapply (effect_iff _ _ _ (entered st d1 n d2 f Callee SP d3) _
             (λ SP' d c d2', SP' = SP ∧ d = d3 ∧ c = n ∧ d2' = d2)).
    { eapply effect_trans; [exact E1|]. eapply effect_trans; [exact E2|].
      eapply effect_trans; [exact E3|].
      apply (effect_for_each Entries _ _
        (λ '(eP, d4, fs) e, ∃ n' d5 f4 f5, return_edge ICF P n d2 Callee d3 eP d4 n' d5 f4 f5 ∧
                              e = over_call d1 f n' d5 f4 fs f5) (λ _, noI)).
      intros [[eP d4] fs] ? _ _ _. apply processCall_endSummary_effect. }
    + intros e. simpl. unfold entered. rewrite <- Hes2. split.
      * intros [->|[[]|[[]|([[eP d4] fs] & Hx%Hin & n' & d5 & f4 & f5 & ?)]]]; [by left|].
        right. by exists eP, d4, fs, n', d5, f4, f5.
      * intros [->|(eP & d4 & fs & n' & d5 & f4 & f5 & Hx & ?)]; [by left|].
        right. right. right. exists (eP, d4, fs). split; [by apply Hin|]. by exists n', d5, f4, f5.
    + intros. unfold noI. split; [|tauto]. intros [[]|[?|[[]|(? & _ & [])]]]. tauto.
  - intros e. simpl. by setoid_rewrite elem_of_elements.
  - intros SP' d c d2'. simpl. setoid_rewrite elem_of_elements. naive_solver.
Qed.

(** The state part of [processCall_callee]. *)
Definition callee_state d1 n d2 f Callee st : State :=
  match getSummaryFlowFunction P n Callee with
  | Some SpecialSum =>
      processCall_summary ICF P d1 n d2 f (getFunctionOf ICF n) (getReturnSitesOfCallAt ICF n)
        SpecialSum st
  | None =>
      for_each (getStartPointsOf ICF Callee)
        (processCall_startPoint ICF P d1 n d2 f (getFunctionOf ICF n)
           (getReturnSitesOfCallAt ICF n) Callee (cachedCallFF P n Callee d2)) st
  end.

Lemma processCall_callee_snd d1 n d2 f Callee bst :
  (processCall_callee ICF P d1 n d2 f (getFunctionOf ICF n) (getReturnSitesOfCallAt ICF n)
     Callee bst).2 = callee_state d1 n d2 f Callee bst.2.
Proof.
  destruct bst as [b st]. unfold processCall_callee, callee_state.
  destruct (getSummaryFlowFunction P n Callee); [done|]. by apply for_each_snd.
Qed.

Definition callee_out st d1 n d2 f Callee e : Prop :=
  (∃ Sum RetSite d3, getSummaryFlowFunction P n Callee = Some Sum ∧
     RetSite ∈ getReturnSitesOfCallAt ICF n ∧ d3 ∈ Sum d2 ∧
     e = out_edge d1 f (GetNextUse ICF P (getFunctionOf ICF n) n RetSite d3) d3
           (getSummaryEdgeFunction P n d2 RetSite d3)) ∨
  (∃ SP d3, getSummaryFlowFunction P n Callee = None ∧ SP ∈ getStartPointsOf ICF Callee ∧
     d3 ∈ cachedCallFF P n Callee d2 ∧ entered st d1 n d2 f Callee SP d3 e).

Lemma callee_state_effect d1 n d2 f Callee st :
  effect st (callee_state d1 n d2 f Callee st) (callee_out st d1 n d2 f Callee)
    (λ SP d c d2', getSummaryFlowFunction P n Callee = None ∧
       SP ∈ getStartPointsOf ICF Callee ∧ d ∈ cachedCallFF P n Callee d2 ∧ c = n ∧ d2' = d2).
Proof.
  unfold callee_state, callee_out. destruct (getSummaryFlowFunction P n Callee) as [Sum|].
  - eapply effect_iff; [apply processCall_summary_effect| |].
    + intros e. split; [|naive_solver].
      intros (Ret & d3 & ?). left. by exists Sum, Ret, d3.
    + unfold noI. naive_solver.
  - eapply effect_iff; [apply effect_for_each with
      (W := λ SP e, ∃ d3, d3 ∈ cachedCallFF P n Callee d2 ∧ entered st d1 n d2 f Callee SP d3 e)
      (I := λ SP SP' d c d2', SP' = SP ∧ d ∈ cachedCallFF P n Callee d2 ∧ c = n ∧ d2' = d2)| |].
    + intros SP st' _ _ Hes.
      eapply effect_iff; [apply processCall_startPoint_effect| |intros; reflexivity].
      intros e. by setoid_rewrite (entered_es st st').
    + intros e. simpl. split; [|naive_solver].
      intros (SP & ? & d3 & ?). right. by exists SP, d3.
    + intros SP d c d2'. simpl. naive_solver.
Qed.

(** What processing a call adds to the work list. *)
Definition call_out st d1 n d2 f e : Prop :=
  (∃ n' d3 g, local_edge ICF P n d2 n' d3 g ∧ e = out_edge d1 f n' d3 g) ∨
  (∃ Callee SP d3, call_edge ICF P n d2 Callee SP d3 ∧ entered st d1 n d2 f Callee SP d3 e).

Lemma processCall_effect E st :
  isCallSite ICF (getTarget E) = true →
  effect st (processCall ICF P E st)
    (call_out st (factAtSource E) (getTarget E) (factAtTarget E) (jumpFunction E st))
    (λ SP d c d2', ∃ Callee, call_edge ICF P (getTarget E) (factAtTarget E) Callee SP d ∧
       c = getTarget E ∧ d2' = factAtTarget E).
Proof.
  intros Hc. unfold processCall. destruct E as [d1 n d2]. cbv zeta. simpl in *.
  set (f := jumpFunction _ st).
  pose proof (for_each_snd (getCalleesOfCallAt ICF n) _ _ (true, st)
    (processCall_callee_snd d1 n d2 f)) as Hsnd. simpl in Hsnd.
  destruct (for_each _ _ (true, st)) as [b st1]. simpl in Hsnd. subst st1.
  eapply effect_iff; [eapply effect_trans; [apply effect_for_each
    with (W := λ Callee, callee_out st d1 n d2 f Callee)
         (I := λ Callee SP d c d2', getSummaryFlowFunction P n Callee = None ∧
            SP ∈ getStartPointsOf ICF Callee ∧ d ∈ cachedCallFF P n Callee d2 ∧
            c = n ∧ d2' = d2)|apply processCall_callToRet_effect]| |].
  - intros Callee st' _ _ Hes. eapply effect_iff; [apply callee_state_effect| |intros; reflexivity].
    intros e. unfold callee_out. by setoid_rewrite (entered_es st st').
  - intros e. unfold callee_out, call_out. split.
    + intros [(Callee & HC & [(Sum & Ret & d3 & HS & HR & Hd & ->)
                            |(SP & d3 & HS & HSP & Hd & He)])|(Ret & d3 & HR & Hd & ->)].
      * left. eexists _, _, _. split; [by eapply local_summary | done].
      * right. exists Callee, SP, d3. done.
      * left. eexists _, _, _. split; [by eapply local_call_to_return | done].
    + intros [(n' & d3 & g & He & ->)|(Callee & SP & d3 & (_ & ? & ? & ? & ?) & He)].
      * destruct He as [|Callee Sum Ret d3|Ret d3]; [congruence| |right; by exists Ret, d3].
        left. exists Callee. split; [done|]. left. by exists Sum, Ret, d3.
      * left. exists Callee. split; [done|]. right. by exists SP, d3.
  - intros SP d c d2'. unfold noI, call_edge. naive_solver.
Qed.

(** *** Exits *)

Lemma addEndSummary_spec SP d1 eP d2 f st :
  let st' := addEndSummary SP d1 eP d2 f st in
  JumpFn st' = JumpFn st ∧ Seeds st' = Seeds st ∧ WorkList st' = WorkList st ∧
  IncomingTab st' = IncomingTab st ∧
  ∀ SP' d x d', Table.lookup (es st' SP' d) x d' =
    if decide (SP = SP' ∧ d1 = d ∧ eP = x ∧ d2 = d') then Some f
    else Table.lookup (es st SP' d) x d'.
Proof.
  destruct st. simpl. do 4 (split; [done|]). intros SP' d x d'. unfold es. simpl.
  rewrite table_lookup_update. destruct (decide (SP = SP' ∧ d1 = d)) as [[<- <-]|Hne].
  - simpl. rewrite table_lookup_insert. repeat destruct (decide _); naive_solver.
  - rewrite decide_False; [done | naive_solver].
Qed.

Lemma incoming_effect d1 SP st :
  (incoming d1 SP st).1 = inc_map st SP d1 ∧ effect st (incoming d1 SP st).2 (λ _, False) noI.
Proof.
  unfold incoming. destruct (table_get_spec ∅ (IncomingTab st) SP d1) as [Hv Ht].
  destruct (Table.get ∅ (IncomingTab st) SP d1) as [m T]. simpl in *. split; [done|].
  assert (∀ SP' d, inc_map (set_IncomingTab (λ _, T) st) SP' d = inc_map st SP' d) as Hm.
  { intros SP' d. unfold inc_map. destruct st. simpl in *. rewrite Ht.
    case_decide as Heq; [|done]. by destruct Heq as [<- <-]. }
  split; try (by destruct st).
  - intros e. destruct st. simpl. tauto.
  - intros. unfold inc, noI. rewrite Hm. tauto.
  - unfold inc_ne. by setoid_rewrite Hm.
Qed.

(** What [processExit_incoming] does at the start points [l], all the same. *)
Record collected (l : list N) d1 n d2 f st (Inc : gmap N (gset D)) st' : Prop := {
  col_JumpFn : JumpFn st' = JumpFn st;
  col_Seeds : Seeds st' = Seeds st;
  col_WorkList e : e ∈ WorkList st' ↔ e ∈ WorkList st;
  col_inc_map SP d : inc_map st' SP d = inc_map st SP d;
  col_es SP d x d' : Table.lookup (es st' SP d) x d' =
    if decide (SP ∈ l ∧ d = d1 ∧ x = n ∧ d' = d2) then Some f
    else Table.lookup (es st SP d) x d';
  col_Inc SP : SP ∈ l → Inc = inc_map st SP d1;
  col_nil : l = [] → Inc = ∅
}.

Lemma inc_map_get d1 SP st SP' d :
  inc_map (incoming d1 SP st).2 SP' d = inc_map st SP' d.
Proof.
  unfold incoming, inc_map. destruct (table_get_spec ∅ (IncomingTab st) SP d1) as [Hv Ht].
  destruct (Table.get ∅ (IncomingTab st) SP d1) as [m T]. destruct st. simpl in *. rewrite Ht.
  case_decide as Heq; [|done]. by destruct Heq as [<- <-].
Qed.

Lemma processExit_incoming_spec l d1 n d2 f st :
  (∀ SP SP', SP ∈ l → SP' ∈ l → SP = SP') →
  let r := processExit_incoming l d1 n d2 f st in collected l d1 n d2 f st r.1 r.2.
Proof.
  unfold processExit_incoming. induction l as [|SP l IH] using rev_ind; intros Hu.
  { split; try done. set_solver. }
  rewrite for_each_app, for_each_cons, for_each_nil. cbv zeta in *.
  assert (∀ SP SP', SP ∈ l → SP' ∈ l → SP = SP') as Hu' by set_solver.
  destruct (IH Hu') as [HJ HS HW HI HE HIn Hnil]. destruct (for_each l _ (∅, st)) as [Inc st1].
  simpl in *. clear IH.
  destruct (addEndSummary_spec SP d1 n d2 f st1) as (HJ2 & HS2 & HW2 & HI2 & HE2).
  set (st2 := addEndSummary SP d1 n d2 f st1) in *.
  destruct (incoming_effect d1 SP st2) as [Hm Heff]. pose proof (inc_map_get d1 SP st2) as Hg.
  assert (∀ SP' d, inc_map st2 SP' d = inc_map st SP' d) as Hi2.
  { intros. rewrite <- HI. unfold inc_map. by rewrite HI2. }
  destruct (incoming d1 SP st2) as [m st3]. simpl in *. destruct Heff as [EJ ES EE EW _ _].
  assert (for_each (map_to_list m) (λ Entry Inc, <[Entry.1:=Entry.2]> Inc) Inc
          = inc_map st SP d1) as HInc.
  { rewrite for_each_insert_union, Hm, Hi2. destruct l as [|SP0 l].
    - rewrite Hnil by done. apply map_union_empty.
    - rewrite (HIn SP0) by set_solver. rewrite (Hu SP0 SP) by set_solver. apply map_union_idemp. }
  split; simpl; try congruence.
  - intros e. rewrite EW, HW2, HW. tauto.
  - intros SP' d x d'. rewrite EE, HE2, HE. repeat destruct (decide _); set_solver.
  - intros SP' HSP'. rewrite HInc. by rewrite (Hu SP' SP) by set_solver.
  - intros Hl. by destruct l.
Qed.

Lemma processExit_propagate_effect c Fun Ret d4 d5 fPrime jf st :
  JumpFn st = jf → wf jf →
  effect st (processExit_propagate ICF P c Fun Ret d4 d5 fPrime st)
    (λ e, ∃ d3 f3, jf_lookup jf d3 c d4 = Some f3 ∧ f3 ≠ AllTop ∧
       e = (mkPathEdge d3 (GetNextUse ICF P Fun c Ret d5) d5, extend f3 fPrime)) noI.
Proof.
  intros <- Hwf. unfold processExit_propagate.
  destruct (reverseLookup c d4 (JumpFn st)) as [l|] eqn:Hl.
  - eapply effect_iff; [apply effect_for_each with
      (W := λ '(d3, f3) e, f3 ≠ AllTop ∧
        e = (mkPathEdge d3 (GetNextUse ICF P Fun c Ret d5) d5, extend f3 fPrime)) (I := λ _, noI)| |].
    + intros [d3 f3] st' _ _ _. destruct (decide (f3 ≠ AllTop)) as [Hne|Heq].
      * eapply effect_iff; [apply emplace_back_effect| |done]. intros e. simpl. tauto.
      * eapply effect_iff; [apply effect_refl| |done]. intros e. simpl. tauto.
    + intros e. split.
      * intros ([d3 f3] & Hin & Hne & ->). exists d3, f3.
        split; [by apply (reverseLookup_elem c d4 (JumpFn st) l)|done].
      * intros (d3 & f3 & Hin & Hne & ->). exists (d3, f3).
        split; [by apply (reverseLookup_elem c d4 (JumpFn st) l)|done].
    + noI_solve.
  - eapply effect_iff; [apply effect_refl| |done]. intros e. split; [done|].
    intros (d3 & f3 & Hin & _). unfold jf_lookup in Hin. by rewrite Hl in Hin.
Qed.

(** The returns of an exit to one call site. *)
Definition returned (jf : JumpFunctions D N EF) c d4 d1 n d2 f e : Prop :=
  ∃ n' d5 f4 f5 d3 f3,
    return_edge ICF P c d4 (getFunctionOf ICF n) d1 n d2 n' d5 f4 f5 ∧
    jf_lookup jf d3 c d4 = Some f3 ∧ f3 ≠ AllTop ∧ e = over_call d3 f3 n' d5 f4 f f5.

Lemma processExit_call_effect d1 n d2 f c S jf st :
  JumpFn st = jf → wf jf →
  effect st (processExit_call ICF P d1 n d2 f (getFunctionOf ICF n) (c, S) st)
    (λ e, ∃ d4, d4 ∈ S ∧ returned jf c d4 d1 n d2 f e) noI.
Proof.
  intros Hjf Hwf. unfold processExit_call. cbv zeta. simpl.
  set (f4 d4 := getCallEdgeFunction P c d4 (getFunctionOf ICF n) d1).
  set (f5 Ret d5 := getReturnEdgeFunction P c (getFunctionOf ICF n) n d2 Ret d5).
  eapply effect_iff; [apply effect_for_each with
    (W := λ Ret e, ∃ d4, d4 ∈ elements S ∧
      ∃ d5, d5 ∈ elements (cachedRetFF P c (getFunctionOf ICF n) n Ret d2) ∧
      ∃ d3 f3, jf_lookup jf d3 c d4 = Some f3 ∧ f3 ≠ AllTop ∧
        e = over_call d3 f3 (GetNextUse ICF P (getFunctionOf ICF c) c Ret d5) d5
              (f4 d4) f (f5 Ret d5)) (I := λ _, noI)| |].
  - intros Ret st1 _ HJ1 _.
    eapply effect_iff; [apply effect_for_each; intros d4 st2 _ HJ2 _| |].
    + eapply effect_after; [apply saveEdges_effect|].
      apply effect_for_each. intros d5 st3 _ HJ3 _.
      eapply effect_after; [|apply processExit_propagate_effect with (jf := jf); [|done]].
      * effect_bookkeeping.
      * rewrite (eff_JumpFn _ _ _ _ (saveEdges_effect _ _ _ _ _ _ _)) in HJ3.
        destruct (IFDSIDESolverConfig.emitESG _); [|congruence].
        rewrite (eff_JumpFn _ _ _ _ (pushIntermediate_effect _ _ _ _ _ _)),
          (eff_JumpFn _ _ _ _ (pushIntermediate_SPs_effect _ _ _ _ _ _)). congruence.
    + done.
    + noI_solve.
  - intros e. unfold returned. setoid_rewrite elem_of_elements. split.
    + intros (Ret & HR & d4 & H4 & d5 & H5 & d3 & f3 & Hl & Hne & ->).
      exists d4. split; [done|]. eexists _, _, _, _, d3, f3.
      split; [by apply return_edge_intro|done].
    + intros (d4 & H4 & n' & d5 & f4' & f5' & d3 & f3 & [Ret d5' HR H5] & Hl & Hne & ->).
      exists Ret. split; [done|]. exists d4. split; [done|]. exists d5'. split; [done|].
      by exists d3, f3.
  - noI_solve.
Qed.

Lemma propagteUnbalancedReturnFlow_effect Ret d5 f g st :
  effect st (set_UnbalancedRetSites g (propagteUnbalancedReturnFlow P Ret d5 f st))
    (λ e, e = (mkPathEdge (ZeroValue P) Ret d5, f)) noI.
Proof.
  destruct st. split; try done; unfold noI; set_solver.
Qed.

Lemma processExit_unbalanced_effect d1 n d2 f st :
  effect st (processExit_unbalanced ICF P d1 n d2 f (getFunctionOf ICF n) st)
    (λ e, ∃ n' d5 f5, unbalanced_edge ICF P n d2 n' d5 f5 ∧
                      e = out_edge (ZeroValue P) f n' d5 f5) noI.
Proof.
  unfold processExit_unbalanced. cbv zeta.
  set (st' := for_each _ _ st).
  assert (effect st st' (λ e, ∃ n' d5 f5, unbalanced_edge ICF P n d2 n' d5 f5 ∧
            e = out_edge (ZeroValue P) f n' d5 f5) noI) as Hst'.
  { eapply effect_iff; [apply effect_for_each; intros Caller st1 _ _ _;
      apply effect_for_each; intros Ret st2 _ _ _; eapply effect_after; [apply saveEdges_effect|];
      apply effect_for_each; intros d5 st3 _ _ _; eapply effect_after;
      [|apply propagteUnbalancedReturnFlow_effect]; effect_bookkeeping| |noI_solve].
    - intros e. simpl. setoid_rewrite elem_of_elements. split.
      + intros (Caller & HC & Ret & HR & d5 & H5 & ->).
        eexists _, _, _. split; [by eapply unbalanced_edge_intro | done].
      + intros (n' & d5 & f5 & [Caller Ret d5' HC HR H5] & ->).
        exists Caller. split; [done|]. exists Ret. split; [done|]. exists d5'. by eauto. }
  case_decide; [|done].
  eapply effect_iff; [eapply effect_trans; [exact Hst'|apply effect_frame; by destruct st']| |];
    unfold noI; intros; simpl; tauto.
Qed.

(** What processing an exit adds to the work list, from the collected calls. *)
Definition exit_out (jf : JumpFunctions D N EF) (Inc : gmap N (gset D)) d1 n d2 f e : Prop :=
  (∃ c d4 S, Inc !! c = Some S ∧ d4 ∈ S ∧ returned jf c d4 d1 n d2 f e) ∨
  (IFDSIDESolverConfig.followReturnsPastSeeds (SolverConfig P) = true ∧ Inc = ∅ ∧
   ∃ n' d5 f5, unbalanced_edge ICF P n d2 n' d5 f5 ∧ e = out_edge (ZeroValue P) f n' d5 f5).

Lemma processExit_spec d1 n d2 st :
  (∀ SP SP', SP ∈ getStartPointsOf ICF (getFunctionOf ICF n) →
             SP' ∈ getStartPointsOf ICF (getFunctionOf ICF n) → SP = SP') →
  wf (JumpFn st) →
  ∃ Inc st1,
    let f := jumpFunction (mkPathEdge d1 n d2) st in
    collected (getStartPointsOf ICF (getFunctionOf ICF n)) d1 n d2 f st Inc st1 ∧
    effect st1 (processExit ICF P (mkPathEdge d1 n d2) st)
      (exit_out (JumpFn st) Inc d1 n d2 f) noI.
Proof.
  intros Hu Hwf. unfold processExit. cbv zeta. simpl. set (f := jumpFunction _ st).
  pose proof (processExit_incoming_spec _ d1 n d2 f st Hu) as Hcol. cbv zeta in Hcol.
  destruct (processExit_incoming _ d1 n d2 f st) as [Inc st1]. simpl in Hcol.
  exists Inc, st1. split; [done|]. pose proof (col_JumpFn _ _ _ _ _ _ _ _ Hcol) as HJ.
  set (calls := for_each (map_to_list Inc) _ st1).
  assert (effect st1 calls (λ e, ∃ c d4 S, Inc !! c = Some S ∧ d4 ∈ S ∧
            returned (JumpFn st) c d4 d1 n d2 f e) noI) as Hcalls.
  { eapply effect_iff; [apply effect_for_each with
      (W := λ Entry e, ∃ d4, d4 ∈ Entry.2 ∧ returned (JumpFn st) Entry.1 d4 d1 n d2 f e)
      (I := λ _, noI)| |noI_solve].
    - intros [c S] st2 _ HJ2 _. apply processExit_call_effect; [congruence|done].
    - intros e. split.
      + intros ([c S] & Hin%elem_of_map_to_list & d4 & ? & ?). by exists c, d4, S.
      + intros (c & d4 & S & Hin & ? & ?). exists (c, S).
        split; [by apply elem_of_map_to_list | by exists d4]. }
  unfold exit_out.
  destruct (IFDSIDESolverConfig.followReturnsPastSeeds _); simpl;
    [case_bool_decide as HInc|].
  - eapply effect_iff; [eapply effect_trans;
      [exact Hcalls|apply processExit_unbalanced_effect]| |unfold noI; tauto].
    intros e. simpl. tauto.
  - eapply effect_iff; [exact Hcalls| |done]. intros e. simpl. tauto.
  - eapply effect_iff; [exact Hcalls| |done]. intros e. split; [by left|].
    intros [?|[[=] _]]. done.
Qed.
End operations.
