(* ===== verification/IDESolverFixpoint.v ===== *)
(** The first phase of the [IDESolver] computes a fixpoint.

    The jump functions it tabulates are related to the tabulation rules of the
    IDE algorithm, read as closure conditions: any predicate (or table) closed
    under the rules contains what the solver stores ([inv_sound]), and when the
    work list is empty the solver's own table is closed under them
    ([inv_complete]). Both are invariants of [doNext]. *)
From S2P Require Import Prelude JoinLattice Table JumpFunctions IDEProblem IDESolverAPIMixin IDESolver IDESolverEffects.

Section step.
Context {N D F L EF : Type} `{Countable N, Countable D, EqDecision EF, EqDecision L}.
Context `{JoinLatticeTraits L, !SemiRing L EF, !SemiRingLaws L EF}.
Context (ICF : ICFG N D F) (P : IDETabulationProblem N D F L EF) `{!ICFGLaws ICF}.
Abbreviation State := (IDESolver N D F L EF).
Implicit Types (st : State) (e : PathEdge N D * EF).
Local Open Scope phasar_scope.

#[export] Instance exit_node_dec n : Decision (exit_node ICF n).
Proof. unfold exit_node. apply _. Qed.

(** No call is registered that enters the function of [n] with [d1]. *)
Definition no_inc st (d1 : D) (n : N) : Prop :=
  ∀ SP c d4, SP ∈ getStartPointsOf ICF (getFunctionOf ICF n) → ¬ inc st SP d1 c d4.

(** What the task of one path edge does, [f] being its jump function. *)
Record processed (d1 : D) (n : N) (d2 : D) (f : EF) st st' : Prop := {
  pr_JumpFn : JumpFn st' = JumpFn st;
  pr_Seeds : Seeds st' = Seeds st;
  pr_es SP d x d' : Table.lookup (es st' SP d) x d' =
    if decide (exit_node ICF n ∧ SP ∈ getStartPointsOf ICF (getFunctionOf ICF n) ∧
               d = d1 ∧ x = n ∧ d' = d2)
    then Some f else Table.lookup (es st SP d) x d';
  pr_WorkList e : e ∈ WorkList st' ↔ e ∈ WorkList st ∨
    (∃ n' d3 g, local_edge ICF P n d2 n' d3 g ∧ e = out_edge d1 f n' d3 g) ∨
    (∃ Callee SP d3, call_edge ICF P n d2 Callee SP d3 ∧
       entered ICF P st d1 n d2 f Callee SP d3 e) ∨
    (exit_node ICF n ∧
       ((∃ SP c d4, SP ∈ getStartPointsOf ICF (getFunctionOf ICF n) ∧ inc st SP d1 c d4 ∧
          returned ICF P (JumpFn st) c d4 d1 n d2 f e) ∨
        (IFDSIDESolverConfig.followReturnsPastSeeds (SolverConfig P) = true ∧ no_inc st d1 n ∧
          ∃ n' d5 f5, unbalanced_edge ICF P n d2 n' d5 f5 ∧
                      e = out_edge (ZeroValue P) f n' d5 f5)));
  pr_inc SP d c d2' : inc st' SP d c d2' ↔ inc st SP d c d2' ∨
    ∃ Callee, call_edge ICF P n d2 Callee SP d ∧ c = n ∧ d2' = d2;
  pr_inc_ne : inc_ne st → inc_ne st'
}.

Lemma start_points_same Fun SP SP' :
  SP ∈ getStartPointsOf ICF Fun → SP' ∈ getStartPointsOf ICF Fun → SP = SP'.
Proof. apply start_unique. Qed.

Lemma jumpFunction_Jf d1 n d2 st :
  wf (JumpFn st) → jumpFunction (mkPathEdge d1 n d2) st = Jf st d1 n d2.
Proof.
  intros Hwf. unfold jumpFunction, Jf. simpl. rewrite <- (wf_forward _ Hwf).
  by destruct (forwardLookup d1 n (JumpFn st)).
Qed.

Lemma collected_inc l d1 n d2 f st Inc st1 c d4 :
  collected l d1 n d2 f st Inc st1 →
  (∃ S, Inc !! c = Some S ∧ d4 ∈ S) ↔ ∃ SP, SP ∈ l ∧ inc st SP d1 c d4.
Proof.
  intros Hcol. split.
  - intros (S & HS & Hd). destruct l as [|SP l].
    + by rewrite (col_nil _ _ _ _ _ _ _ _ Hcol) in HS.
    + exists SP. split; [set_solver|]. exists S.
      by rewrite <- (col_Inc _ _ _ _ _ _ _ _ Hcol) by set_solver.
  - intros (SP & HSP & S & HS & Hd). exists S. by rewrite (col_Inc _ _ _ _ _ _ _ _ Hcol SP).
Qed.

Lemma collected_empty l d1 n d2 f st Inc st1 :
  inc_ne st → collected l d1 n d2 f st Inc st1 →
  Inc = ∅ ↔ ∀ SP c d4, SP ∈ l → ¬ inc st SP d1 c d4.
Proof.
  intros Hne Hcol. split.
  - intros -> SP c d4 HSP Hi.
    destruct (proj2 (collected_inc _ _ _ _ _ _ _ _ c d4 Hcol)) as (S & HS & _); [by eauto|done].
  - intros Hno. destruct l as [|SP l]; [by apply (col_nil _ _ _ _ _ _ _ _ Hcol)|].
    apply map_eq. intros c. rewrite lookup_empty.
    destruct (Inc !! c) as [S|] eqn:HS; [|done]. exfalso.
    rewrite (col_Inc _ _ _ _ _ _ _ _ Hcol SP) in HS by set_solver.
    destruct (set_choose_L S (Hne _ _ _ _ HS)) as [d4 Hd].
    apply (Hno SP c d4); [set_solver|]. by exists S.
Qed.

(** A state change that only emits what the rules of a non-exit node allow. *)
Lemma effect_processed d1 n d2 f st st' W I :
  ¬ exit_node ICF n → effect st st' W I →
  (∀ e, W e ↔
    (∃ n' d3 g, local_edge ICF P n d2 n' d3 g ∧ e = out_edge d1 f n' d3 g) ∨
    (∃ Callee SP d3, call_edge ICF P n d2 Callee SP d3 ∧
       entered ICF P st d1 n d2 f Callee SP d3 e)) →
  (∀ SP d c d2', I SP d c d2' ↔
    ∃ Callee, call_edge ICF P n d2 Callee SP d ∧ c = n ∧ d2' = d2) →
  processed d1 n d2 f st st'.
Proof.
  intros Hne [HJ HS HE HW HI Hn] HWe HIe. split; try done.
  - intros. rewrite HE, decide_False by tauto. done.
  - intros e. rewrite HW, HWe. tauto.
  - intros. by rewrite HI, HIe.
Qed.

Lemma no_call_edge n d2 Callee SP d3 :
  isCallSite ICF n = false → ¬ call_edge ICF P n d2 Callee SP d3.
Proof. intros Hc (Hc' & _). congruence. Qed.

Lemma normal_processed d1 n d2 f st :
  isCallSite ICF n = false → isExitInst ICF n = false →
  jumpFunction (mkPathEdge d1 n d2) st = f →
  processed d1 n d2 f st (processNormalFlow ICF P (mkPathEdge d1 n d2) st).
Proof.
  intros Hc Hx <-. eapply effect_processed; [by unfold exit_node; rewrite Hx; intros []| | |].
  - by apply processNormalFlow_effect.
  - intros e. simpl. split; [by left|]. intros [?|(? & ? & ? & Hce & _)]; [done|].
    by apply no_call_edge in Hce.
  - intros. split; [done|]. intros (? & Hce & _). by apply no_call_edge in Hce.
Qed.

Lemma call_processed d1 n d2 f st :
  isCallSite ICF n = true → jumpFunction (mkPathEdge d1 n d2) st = f →
  processed d1 n d2 f st (processCall ICF P (mkPathEdge d1 n d2) st).
Proof.
  intros Hc <-. eapply effect_processed; [by unfold exit_node; rewrite Hc; intros []| | |].
  - by apply processCall_effect.
  - done.
  - done.
Qed.

(** Without successors there is no normal flow. *)
Lemma no_succs_local n d2 n' d3 g :
  isCallSite ICF n = false → getSuccsOf ICF n = [] → ¬ local_edge ICF P n d2 n' d3 g.
Proof.
  intros Hc Hs [? ? ? Hin|? ? ? ? Hc'|? ? Hc']; [|congruence..].
  rewrite Hs in Hin. by apply elem_of_nil in Hin.
Qed.

Lemma refl_processed d1 n d2 f st :
  isCallSite ICF n = false → isExitInst ICF n = false → getSuccsOf ICF n = [] →
  processed d1 n d2 f st st.
Proof.
  intros Hc Hx Hs. eapply effect_processed; [by unfold exit_node; rewrite Hx; intros []| | |].
  - apply effect_refl.
  - intros e. simpl. split; [done|]. intros [(? & ? & ? & Hl & _)|(? & ? & ? & Hce & _)].
    + by apply no_succs_local in Hl.
    + by apply no_call_edge in Hce.
  - intros. split; [done|]. intros (? & Hce & _). by apply no_call_edge in Hce.
Qed.

(** The normal flow of an exit, after its summary. *)
Lemma processNormalFlow_opt_effect d1 n d2 f st :
  isCallSite ICF n = false → jumpFunction (mkPathEdge d1 n d2) st = f →
  effect st (if decide (getSuccsOf ICF n ≠ [])
             then processNormalFlow ICF P (mkPathEdge d1 n d2) st else st)
    (λ e, ∃ n' d3 g, local_edge ICF P n d2 n' d3 g ∧ e = out_edge d1 f n' d3 g) noI.
Proof.
  intros Hc <-. case_decide as Hs; [by apply processNormalFlow_effect|].
  eapply effect_iff; [apply effect_refl| |done].
  intros e. split; [done|]. intros (? & ? & ? & Hl & _). by apply no_succs_local in Hl.
Qed.

Lemma exit_processed d1 n d2 f st :
  isCallSite ICF n = false → isExitInst ICF n = true → wf (JumpFn st) → inc_ne st →
  jumpFunction (mkPathEdge d1 n d2) st = f →
  processed d1 n d2 f st
    (let st' := processExit ICF P (mkPathEdge d1 n d2) st in
     if decide (getSuccsOf ICF n ≠ [])
     then processNormalFlow ICF P (mkPathEdge d1 n d2) st' else st').
Proof.
  intros Hc Hx Hwf Hne Hf. cbv zeta.
  destruct (processExit_spec ICF P d1 n d2 st (start_points_same _) Hwf) as (Inc & st1 & Hcol & Heff).
  rewrite Hf in *. set (st2 := processExit _ _ _ st) in *.
  pose proof (processNormalFlow_opt_effect d1 n d2 f st2 Hc) as Hnorm.
  set (st3 := if decide _ then _ else _) in *.
  assert (JumpFn st2 = JumpFn st) as HJ2.
  { rewrite (eff_JumpFn _ _ _ _ Heff). by destruct Hcol. }
  destruct Hnorm as [HJ HS HE HW HI Hn].
  { rewrite <- Hf. unfold jumpFunction. by rewrite HJ2. }
  assert (∀ c d4, (∃ S, Inc !! c = Some S ∧ d4 ∈ S) ↔ ∃ SP,
    SP ∈ getStartPointsOf ICF (getFunctionOf ICF n) ∧ inc st SP d1 c d4) as Hi
    by (intros; by eapply collected_inc).
  pose proof (collected_empty _ _ _ _ _ _ _ _ Hne Hcol) as Hempty.
  destruct Hcol as [CJ CS CW CI CE _ _]. destruct Heff as [EJ ES EE EW EI En].
  assert (exit_node ICF n) as Hexit by done.
  split.
  - congruence.
  - congruence.
  - intros. rewrite HE, EE, CE. repeat destruct (decide _); tauto.
  - intros e. rewrite HW, EW, CW. unfold exit_out, no_inc. rewrite Hempty.
    split.
    + intros [[?|[(c & d4 & S & HS' & Hd & Hr)|(Hfl & Hno & Hout)]]|Hl]; [by left|..]; right.
      * right. right. split; [done|]. left.
        destruct (proj1 (Hi c d4)) as (SP & HSP & Hin); [by eauto|]. by exists SP, c, d4.
      * right. right. split; [done|]. by right.
      * by left.
    + intros [?|[?|[(? & ? & ? & Hce & _)|[_ [(SP & c & d4 & HSP & Hin & Hr)|Hun]]]]].
      * tauto.
      * tauto.
      * by apply no_call_edge in Hce.
      * left. right. left. destruct (proj2 (Hi c d4)) as (S & HS' & Hd); [by eauto|].
        by exists c, d4, S.
      * tauto.
  - intros SP d c d2'. rewrite HI, EI. unfold noI. unfold inc. rewrite CI. split; [tauto|].
    intros [?|(? & Hce & _)]; [tauto|]. by apply no_call_edge in Hce.
  - intros _. apply Hn, En. unfold inc_ne. by setoid_rewrite CI.
Qed.

Lemma pathEdgeProcessingTask_processed d1 n d2 f st :
  wf (JumpFn st) → inc_ne st → jumpFunction (mkPathEdge d1 n d2) st = f →
  processed d1 n d2 f st (pathEdgeProcessingTask ICF P (mkPathEdge d1 n d2) st).
Proof.
  intros Hwf Hne Hf. unfold pathEdgeProcessingTask. simpl.
  destruct (isCallSite ICF n) eqn:Hc; simpl; [by apply call_processed|].
  destruct (isExitInst ICF n) eqn:Hx; [by apply exit_processed|].
  destruct (decide (getSuccsOf ICF n ≠ [])) as [|Hs%dec_stable];
    [by apply normal_processed | by apply refl_processed].
Qed.

(** The state after the jump function of a path edge has been updated. *)
Record updated (d1 : D) (n : N) (d2 : D) (f : EF) wl st st1 : Prop := {
  up_WorkList : WorkList st1 = wl;
  up_Seeds : Seeds st1 = Seeds st;
  up_EndsummaryTab : EndsummaryTab st1 = EndsummaryTab st;
  up_IncomingTab : IncomingTab st1 = IncomingTab st;
  up_wf : wf (JumpFn st1);
  up_jf d n' d' : jf_lookup (JumpFn st1) d n' d' =
    if decide (d = d1 ∧ n' = n ∧ d' = d2) then Some f else jf_lookup (JumpFn st) d n' d'
}.

(** One step either changes nothing but the work list, or stores a larger jump
    function and processes its path edge. *)
Lemma doNext_cases st st' :
  doNext ICF P st = Some st' → wf (JumpFn st) → inc_ne st →
  ∃ d1 n d2 f wl, WorkList st = (mkPathEdge d1 n d2, f) :: wl ∧
    let fPrime := combine (Jf st d1 n d2) f in
    (fPrime = Jf st d1 n d2 ∧ st' = set_WorkList (λ _, wl) st) ∨
    (fPrime ≠ Jf st d1 n d2 ∧ fPrime ≠ AllTop ∧
     ∃ st1, updated d1 n d2 fPrime wl st st1 ∧ processed d1 n d2 fPrime st1 st').
Proof.
  unfold doNext. intros Hnext Hwf Hne.
  destruct (WorkList st) as [|[[d1 n d2] f] wl] eqn:HWL; [done|]. injection Hnext as <-.
  exists d1, n, d2, f, wl. split; [done|]. unfold propagate. cbv zeta.
  change (factAtSource _) with d1. change (getTarget _) with n. change (factAtTarget _) with d2.
  set (st0 := set_WorkList (λ _, wl) st).
  assert (JumpFnE d1 n d2 st0 = Jf st d1 n d2) as ->.
  { unfold JumpFnE, Jf, jf_lookup, st0. destruct st. simpl.
    by destruct (reverseLookup n d2 JumpFn). }
  set (fPrime := combine _ f). case_decide as Hneq; [right|left; done].
  assert (fPrime ≠ AllTop) as Htop.
  { intros Htop. apply Hneq. unfold fPrime in *. rewrite Htop. symmetry.
    apply ef_le_top_inv. unfold AllTop in Htop. rewrite <- Htop. apply combine_ub_l. }
  split; [done|]. split; [done|].
  set (st1 := set_PathEdgeCount S _). exists st1.
  assert (isAllTop fPrime = false) as HisTop.
  { apply not_true_is_false. by rewrite isAllTop_spec. }
  assert (updated d1 n d2 fPrime wl st st1) as Hup.
  { split; try (by unfold st1, st0; destruct st).
    - unfold st1, st0. destruct st. simpl in *. by apply wf_add.
    - intros d n' d'. unfold st1, st0. destruct st. simpl in *. rewrite jf_lookup_add, HisTop.
      repeat destruct (decide _); naive_solver. }
  split; [done|]. apply pathEdgeProcessingTask_processed.
  - apply Hup.
  - unfold inc_ne, inc_map. by rewrite (up_IncomingTab _ _ _ _ _ _ _ Hup).
  - rewrite jumpFunction_Jf by apply Hup. unfold Jf.
    by rewrite (up_jf _ _ _ _ _ _ _ Hup), decide_True.
Qed.
End step.

(** * The tabulation rules *)

Section rules.
Context {N D F L EF : Type} `{Countable N, Countable D, EqDecision EF, EqDecision L}.
Context `{JoinLatticeTraits L, !SemiRing L EF}.
Context (ICF : ICFG N D F) (P : IDETabulationProblem N D F L EF).
Local Open Scope phasar_scope.

(** The facts the solver starts with: the seeds, and zero at every seeded node. *)
Definition seed_fact (SP : N) (d : D) : Prop :=
  ∃ Facts, initialSeeds P !! SP = Some Facts ∧ (d = ZeroValue P ∨ is_Some (Facts !! d)).

(** A predicate on path edges and jump functions that is closed under the rules
    of the algorithm; [unb d1 n] says when the exit [n] also returns to every
    caller. *)
Record closed_rules (unb : D → N → Prop) (R : D → N → D → EF → Prop) : Prop := {
  cr_seed SP d : seed_fact SP d → R d SP d identity;
  cr_local d1 n d2 f n' d3 g :
    R d1 n d2 f → f ≠ AllTop → local_edge ICF P n d2 n' d3 g → R d1 n' d3 (extend f g);
  cr_call d1 n d2 f Callee SP d3 :
    R d1 n d2 f → f ≠ AllTop → call_edge ICF P n d2 Callee SP d3 → R d3 SP d3 identity;
  cr_return d1 c d2 f Callee SP d3 eP d4 fs n' d5 f4 f5 :
    R d1 c d2 f → f ≠ AllTop → call_edge ICF P c d2 Callee SP d3 →
    R d3 eP d4 fs → fs ≠ AllTop → exit_node ICF eP → getFunctionOf ICF eP = Callee →
    return_edge ICF P c d2 Callee d3 eP d4 n' d5 f4 f5 →
    R d1 n' d5 (extend f (extend (extend f4 fs) f5));
  cr_unbalanced d1 eP d2 f n' d5 f5 :
    unb d1 eP → R d1 eP d2 f → f ≠ AllTop → exit_node ICF eP →
    unbalanced_edge ICF P eP d2 n' d5 f5 → R (ZeroValue P) n' d5 (extend f f5)
}.

(** Every combination of functions in [R] is in [R]. *)
Definition combine_closed (R : D → N → D → EF → Prop) : Prop :=
  ∀ d1 n d2 f g, R d1 n d2 f → R d1 n d2 g → R d1 n d2 (combine f g).

(** A table of jump functions, as the predicate of the functions below it. *)
Definition below (K : D → N → D → EF) (d1 : D) (n : N) (d2 : D) (f : EF) : Prop := f ⊑ₑ K d1 n d2.

(** A table is a solution of the rules when what they derive from it is below it. *)
Record solution (unb : D → N → Prop) (K : D → N → D → EF) : Prop := {
  sol_seed SP d : seed_fact SP d → identity ⊑ₑ K d SP d;
  sol_local d1 n d2 n' d3 g :
    K d1 n d2 ≠ AllTop → local_edge ICF P n d2 n' d3 g →
    extend (K d1 n d2) g ⊑ₑ K d1 n' d3;
  sol_call d1 n d2 Callee SP d3 :
    K d1 n d2 ≠ AllTop → call_edge ICF P n d2 Callee SP d3 → identity ⊑ₑ K d3 SP d3;
  sol_return d1 c d2 Callee SP d3 eP d4 n' d5 f4 f5 :
    K d1 c d2 ≠ AllTop → call_edge ICF P c d2 Callee SP d3 →
    K d3 eP d4 ≠ AllTop → exit_node ICF eP → getFunctionOf ICF eP = Callee →
    return_edge ICF P c d2 Callee d3 eP d4 n' d5 f4 f5 →
    extend (K d1 c d2) (extend (extend f4 (K d3 eP d4)) f5) ⊑ₑ K d1 n' d5;
  sol_unbalanced d1 eP d2 n' d5 f5 :
    unb d1 eP → K d1 eP d2 ≠ AllTop → exit_node ICF eP →
    unbalanced_edge ICF P eP d2 n' d5 f5 → extend (K d1 eP d2) f5 ⊑ₑ K (ZeroValue P) n' d5
}.

Context `{!SemiRingLaws L EF}.

Lemma below_ne_top K d1 n d2 f : below K d1 n d2 f → f ≠ AllTop → K d1 n d2 ≠ AllTop.
Proof.
  unfold below. intros Hle Hne Heq. apply Hne. rewrite Heq in Hle. by apply ef_le_top_inv.
Qed.

(** What is below a solution is closed under the rules. *)
Lemma solution_closed unb K : solution unb K → closed_rules unb (below K).
Proof.
  intros [Hs Hl Hc Hr Hu]. split; unfold below.
  - apply Hs.
  - intros d1 n d2 f n' d3 g Hf Hne He. transitivity (extend (K d1 n d2) g).
    + by apply extend_le_mono.
    + apply (Hl _ _ d2); [|done]. by apply (below_ne_top K _ _ _ f).
  - intros d1 n d2 f Callee SP d3 Hf Hne He.
    apply (Hc d1 n d2 Callee); [|done]. by apply (below_ne_top K _ _ _ f).
  - intros d1 c d2 f Callee SP d3 eP d4 fs n' d5 f4 f5 Hf Hne Hce Hfs Hnes Hx Hfe Hre.
    transitivity (extend (K d1 c d2) (extend (extend f4 (K d3 eP d4)) f5)).
    + repeat (apply extend_le_mono; try done).
    + eapply Hr; [|done| |done..]; by eapply below_ne_top.
  - intros d1 eP d2 f n' d5 f5 Hub Hf Hne Hx Hue. transitivity (extend (K d1 eP d2) f5).
    + by apply extend_le_mono.
    + eapply Hu; [done| |done..]. by eapply below_ne_top.
Qed.

Lemma below_combine_closed K : combine_closed (below K).
Proof. intros d1 n d2 f g. unfold below. intros. by apply combine_lub. Qed.
End rules.

(** * Everything the solver stores follows from the rules *)

Section sound.
Context {N D F L EF : Type} `{Countable N, Countable D, EqDecision EF, EqDecision L}.
Context `{JoinLatticeTraits L, !SemiRing L EF, !SemiRingLaws L EF}.
Context (ICF : ICFG N D F) (P : IDETabulationProblem N D F L EF) `{!ICFGLaws ICF}.
Abbreviation State := (IDESolver N D F L EF).
Implicit Types (st : State).
Context (R : D → N → D → EF → Prop).

(** The flag decides about unbalanced returns. *)
Definition unb_flag (_ : D) (_ : N) : Prop :=
  IFDSIDESolverConfig.followReturnsPastSeeds (SolverConfig P) = true.

Context (HR : closed_rules ICF P unb_flag R) (HC : combine_closed R).

Record inv_sound st : Prop := {
  is_wf : wf (JumpFn st);
  is_jf d1 n d2 f : jf_lookup (JumpFn st) d1 n d2 = Some f → R d1 n d2 f ∧ f ≠ AllTop;
  is_WorkList d1 n d2 f : (mkPathEdge d1 n d2, f) ∈ WorkList st → R d1 n d2 f;
  is_es SP d3 eP d4 fs : Table.lookup (es st SP d3) eP d4 = Some fs →
    R d3 eP d4 fs ∧ fs ≠ AllTop ∧ exit_node ICF eP ∧
    SP ∈ getStartPointsOf ICF (getFunctionOf ICF eP);
  is_inc SP d3 c d2 : inc st SP d3 c d2 → ∃ Callee, call_edge ICF P c d2 Callee SP d3;
  is_inc_jf SP d3 c d2 : inc st SP d3 c d2 → ∃ d0, is_Some (jf_lookup (JumpFn st) d0 c d2);
  is_inc_ne : inc_ne st
}.

(** The start point of a callee is the start point of its exits. *)
Lemma callee_of_start c d2 Callee SP d3 eP :
  call_edge ICF P c d2 Callee SP d3 → SP ∈ getStartPointsOf ICF (getFunctionOf ICF eP) →
  getFunctionOf ICF eP = Callee.
Proof.
  intros (_ & _ & _ & HSP & _) HeP.
  by rewrite <- (start_function Callee SP HSP), (start_function _ SP HeP).
Qed.

Lemma emitted_sound d1 n d2 f st st' E g :
  inv_sound st → R d1 n d2 f → f ≠ AllTop → processed ICF P d1 n d2 f st st' →
  (E, g) ∈ WorkList st' → R (factAtSource E) (getTarget E) (factAtTarget E) g.
Proof.
  intros Hinv Hf Hne Hpr Hin. apply (pr_WorkList _ _ _ _ _ _ _ _ Hpr) in Hin.
  destruct Hin as [Hin|[(n' & d3 & e & Hl & [= -> ->])|[(Callee & SP & d3 & Hce & Hen)|[Hx Hex]]]].
  - destruct E. by apply (is_WorkList _ Hinv).
  - by eapply (cr_local _ _ _ _ HR).
  - destruct Hen as [[= -> ->]|(eP & d4 & fs & n' & d5 & f4 & f5 & Hes & Hre & [= -> ->])].
    + by eapply (cr_call _ _ _ _ HR).
    + apply (is_es _ Hinv) in Hes as (Hfs & Hnes & Hx & HSP).
      eapply (cr_return _ _ _ _ HR); try done. by eapply callee_of_start.
  - destruct Hex as [(SP & c & d4 & HSP & Hi & Hr)|(Hfl & _ & n' & d5 & f5 & Hue & [= -> ->])].
    + destruct Hr as (n' & d5 & f4 & f5 & d3 & f3 & Hre & Hj & Hne3 & [= -> ->]).
      apply (is_inc _ Hinv) in Hi as [Callee Hce].
      assert (getFunctionOf ICF n = Callee) as <- by by eapply callee_of_start.
      eapply (cr_return _ _ _ _ HR); try done. by eapply (is_jf _ Hinv).
    + by eapply (cr_unbalanced _ _ _ _ HR).
Qed.

Lemma doNext_sound st st' : doNext ICF P st = Some st' → inv_sound st → inv_sound st'.
Proof.
  intros Hnext Hinv.
  destruct (doNext_cases ICF P st st' Hnext) as (d1 & n & d2 & f & wl & HWL & Hcase);
    [apply Hinv..|].
  assert (R d1 n d2 f) as HRf by (apply (is_WorkList _ Hinv); rewrite HWL; set_solver).
  destruct Hcase as [[_ ->]|(Hneq & Hne & st1 & Hup & Hpr)].
  { destruct Hinv as [Hw Hj HWLi HE HI HIj Hn]. split; try by destruct st.
    intros d1' n' d2' f' Hin. apply HWLi. rewrite HWL. destruct st. simpl in *. set_solver. }
  set (fPrime := combine (Jf st d1 n d2) f) in *.
  assert (R d1 n d2 fPrime) as HRfP.
  { unfold fPrime, Jf. destruct (jf_lookup (JumpFn st) d1 n d2) as [f0|] eqn:Hj; simpl.
    - apply HC; [|done]. by apply Hinv.
    - unfold AllTop. by rewrite combine_top_l. }
  assert (inv_sound st1) as Hinv1.
  { destruct Hup as [UW US UE UI Uw Uj]. split; unfold inc_ne, inc, es, inc_map.
    - done.
    - intros d n0 d' g. rewrite Uj. destruct (decide _) as [(-> & -> & ->)|_]; [|by apply Hinv].
      by intros [= <-].
    - rewrite UW. intros. apply (is_WorkList _ Hinv). rewrite HWL. set_solver.
    - rewrite UE. apply Hinv.
    - rewrite UI. apply Hinv.
    - rewrite UI. intros SP d3 c d2' Hi. destruct (is_inc_jf _ Hinv _ _ _ _ Hi) as [d0 Hd].
      exists d0. rewrite Uj. by destruct (decide _).
    - rewrite UI. apply Hinv. }
  pose proof (emitted_sound d1 n d2 fPrime st1 st') as Hem.
  destruct Hpr as [HJ HS HE HW HI Hn]; split.
  - rewrite HJ. apply Hup.
  - rewrite HJ. apply Hinv1.
  - intros d0 n0 d0' g Hin. by apply (Hem (mkPathEdge d0 n0 d0') g Hinv1).
  - intros SP d3 eP d4 fs. rewrite HE.
    destruct (decide _) as [(Hx & HSP & -> & -> & ->)|_]; [|apply Hinv1]. by intros [= <-].
  - intros SP d3 c d2'. rewrite HI. intros [Hi|(Callee & Hce & -> & ->)]; [|by eauto].
    by eapply (is_inc _ Hinv1).
  - intros SP d3 c d2'. rewrite HI, HJ. intros [Hi|(Callee & Hce & -> & ->)].
    + by eapply (is_inc_jf _ Hinv1).
    + exists d1. by rewrite (up_jf _ _ _ _ _ _ _ Hup), decide_True.
  - apply Hn, Hinv1.
Qed.
End sound.

(** * The initial state *)

Section initial.
Context {N D F L EF : Type} `{Countable N, Countable D, EqDecision EF, EqDecision L}.
Context `{JoinLatticeTraits L, !SemiRing L EF}.
Context (ICF : ICFG N D F) (P : IDETabulationProblem N D F L EF).
Abbreviation State := (IDESolver N D F L EF).
Implicit Types (st : State).

(** The seeds of a node, with the zero fact. *)
Definition zero_seed (Facts : gmap D L) : gmap D L :=
  match Facts !! ZeroValue P with Some _ => Facts | None => <[ZeroValue P := bottom]> Facts end.

Lemma zero_seed_lookup Facts d :
  zero_seed Facts !! d =
  match Facts !! d with
  | Some v => Some v | None => if decide (d = ZeroValue P) then Some bottom else None end.
Proof.
  unfold zero_seed. destruct (decide (d = ZeroValue P)) as [->|Hd].
  - destruct (Facts !! ZeroValue P) eqn:Hz; [done|]. by rewrite lookup_insert_eq.
  - destruct (Facts !! ZeroValue P); [by destruct (Facts !! d)|].
    rewrite lookup_insert_ne by done. by destruct (Facts !! d).
Qed.

Lemma set_Seeds_Seeds f st : Seeds (set_Seeds f st) = f (Seeds st).
Proof. by destruct st. Qed.

Lemma set_Seeds_id f st : f (Seeds st) = Seeds st → set_Seeds f st = st.
Proof. destruct st. simpl. by intros ->. Qed.

Lemma set_Seeds_compose f g st : set_Seeds g (set_Seeds f st) = set_Seeds (λ s, g (f s)) st.
Proof. by destruct st. Qed.

(** The first loop of [submitInitialSeeds] adds zero to every node. *)
Lemma add_zero_seeds st :
  for_each (map_to_list (Seeds st)) (λ '(StartPoint, Facts) st,
    match Facts !! ZeroValue P with
    | Some _ => st
    | None => set_Seeds (InitialSeeds.addSeed StartPoint (ZeroValue P) bottom) st
    end) st = set_Seeds (fmap zero_seed) st.
Proof.
  set (body := λ '(StartPoint, Facts) st, _).
  assert (∀ (l : list (N * gmap D L)) st, NoDup l.*1 →
    (∀ k v, (k, v) ∈ l → Seeds st !! k = Some v) →
    ∃ s, for_each l body st = set_Seeds (λ _, s) st ∧
      ∀ k, s !! k = match assoc_find k l with
                    | Some v => Some (zero_seed v) | None => Seeds st !! k end) as Hl.
  { clear st. intros l. induction l as [|[k v] l IH]; intros st Hd Hk.
    { exists (Seeds st). rewrite for_each_nil, set_Seeds_id; done. }
    apply NoDup_cons in Hd as [Hk0 Hd]. rewrite for_each_cons.
    assert (body (k, v) st = set_Seeds (λ s, <[k := zero_seed v]> s) st) as ->.
    { assert (Seeds st !! k = Some v) as Hkv by (apply Hk; set_solver).
      unfold body, zero_seed. destruct (v !! ZeroValue P).
      - rewrite set_Seeds_id; [done|]. by apply insert_id.
      - unfold InitialSeeds.addSeed. destruct st. simpl in *. by rewrite Hkv. }
    destruct (IH (set_Seeds (λ s, <[k := zero_seed v]> s) st)) as (s & -> & Hs).
    - done.
    - intros k' v' Hin. rewrite set_Seeds_Seeds, lookup_insert_ne.
      + apply Hk. set_solver.
      + intros <-. apply Hk0. apply list_elem_of_fmap. by exists (k, v').
    - exists s. split; [by rewrite set_Seeds_compose|]. intros k'. rewrite Hs, set_Seeds_Seeds.
      simpl. destruct (decide (k = k')) as [<-|Hne].
      + rewrite (proj2 (assoc_find_None k l)) by done. by rewrite lookup_insert_eq.
      + by rewrite lookup_insert_ne. }
  destruct (Hl (map_to_list (Seeds st)) st) as (s & -> & Hs).
  - apply NoDup_fst_map_to_list.
  - intros k v. apply elem_of_map_to_list.
  - enough (s = zero_seed <$> Seeds st) as -> by by destruct st.
    apply map_eq. intros k. rewrite Hs, lookup_fmap. clear Hs.
    destruct (Seeds st !! k) as [v|] eqn:Hk; simpl.
    + by rewrite (assoc_elem_find k v); [|apply NoDup_fst_map_to_list|apply elem_of_map_to_list].
    + rewrite (proj2 (assoc_find_None k _)); [done|].
      intros ([k' v] & -> & Hin)%list_elem_of_fmap. apply elem_of_map_to_list in Hin. simpl in *.
      congruence.
Qed.

(** The work list after [doInitialize]: the self-loops of the seeds. *)
Lemma doInitialize_effect :
  effect (set_Seeds (fmap zero_seed) (initialState P)) (doInitialize P (initialState P))
    (λ e, ∃ SP d, seed_fact P SP d ∧ e = (mkPathEdge d SP d, identity)) noI.
Proof.
  unfold doInitialize, submitInitialSeeds. rewrite add_zero_seeds.
  set (st := set_Seeds (fmap zero_seed) (initialState P)). cbv zeta.
  eapply effect_iff; [apply effect_for_each with
    (W := λ kv e, ∃ Fact, is_Some (kv.2 !! Fact) ∧
            e = (mkPathEdge Fact kv.1 Fact, identity)) (I := λ _, noI)| |noI_solve].
  - intros [SP Facts] st' _ _ _. eapply effect_iff; [apply effect_for_each with
      (W := λ kv e, e = (mkPathEdge kv.1 SP kv.1, identity)) (I := λ _, noI)| |noI_solve].
    + intros [d v] ? _ _ _. apply emplace_back_effect.
    + intros e. simpl. split.
      * intros ([d v] & Hin%elem_of_map_to_list & ->). exists d. by eauto.
      * intros (d & [v Hv] & ->). exists (d, v). split; [by apply elem_of_map_to_list|done].
  - intros e. unfold st. rewrite set_Seeds_Seeds. simpl. unfold seed_fact. split.
    + intros ([SP Facts] & Hin%elem_of_map_to_list & d & Hd & ->). simpl in *.
      rewrite lookup_fmap in Hin. destruct (initialSeeds P !! SP) as [Facts'|] eqn:HSP; [|done].
      injection Hin as <-. exists SP, d. split; [|done]. exists Facts'. split; [done|].
      rewrite zero_seed_lookup in Hd. destruct (Facts' !! d); [by right; eauto|].
      case_decide; [by left | by destruct Hd].
    + intros (SP & d & (Facts & HSP & Hd) & ->). exists (SP, zero_seed Facts).
      split; [apply elem_of_map_to_list; by rewrite lookup_fmap, HSP|].
      exists d. split; [|done]. simpl. rewrite zero_seed_lookup.
      destruct (Facts !! d); [by eauto|]. destruct Hd as [->|Hd]; [|by destruct Hd].
      by rewrite decide_True; eauto.
Qed.

Context `{!SemiRingLaws L EF, !ICFGLaws ICF}.

Lemma doInitialize_sound R :
  closed_rules ICF P (unb_flag P) R → inv_sound ICF P R (doInitialize P (initialState P)).
Proof.
  intros HR. destruct doInitialize_effect as [HJ HS HE HW HI Hn].
  split; unfold inc_ne; rewrite ?HJ.
  - apply wf_empty.
  - intros *. simpl. rewrite jf_lookup_empty. done.
  - intros d1 n d2 f Hin. apply HW in Hin. destruct Hin as [Hin|(SP & d & Hs & [= -> -> -> ->])].
    + by apply elem_of_nil in Hin.
    + by apply (cr_seed _ _ _ _ HR).
  - intros *. rewrite HE. unfold es. simpl. rewrite table_lookup_empty. simpl.
    by rewrite table_lookup_empty.
  - intros *. rewrite HI. intros [(S & HS' & _)|[]]. unfold inc_map in HS'. simpl in HS'.
    by rewrite table_lookup_empty in HS'.
  - intros *. rewrite HI. intros [(S & HS' & _)|[]]. unfold inc_map in HS'. simpl in HS'.
    by rewrite table_lookup_empty in HS'.
  - apply Hn. intros SP d c S. unfold inc_map. simpl. by rewrite table_lookup_empty.
Qed.

Lemma solveImpl_sound R fuel st :
  closed_rules ICF P (unb_flag P) R → combine_closed R →
  solveImpl ICF P fuel = Some st → inv_sound ICF P R st.
Proof.
  intros HR HC Hs. eapply while_next_inv; [|by apply doInitialize_sound|exact Hs].
  intros s s'. by apply doNext_sound.
Qed.
End initial.

(** * What the rules derive is stored, or still on the work list *)

Section complete.
Context {N D F L EF : Type} `{Countable N, Countable D, EqDecision EF, EqDecision L}.
Context `{JoinLatticeTraits L, !SemiRing L EF, !SemiRingLaws L EF}.
Context (ICF : ICFG N D F) (P : IDETabulationProblem N D F L EF) `{!ICFGLaws ICF}.
Abbreviation State := (IDESolver N D F L EF).
Implicit Types (st : State).
Local Open Scope phasar_scope.

(** [f] is below the stored jump function joined with the pending ones. *)
Definition covered st (d1 : D) (n : N) (d2 : D) (f : EF) : Prop :=
  ∀ k, Jf st d1 n d2 ⊑ₑ k → (∀ g, (mkPathEdge d1 n d2, g) ∈ WorkList st → g ⊑ₑ k) → f ⊑ₑ k.

Record inv_complete st : Prop := {
  ic_seed SP d : seed_fact P SP d → covered st d SP d identity;
  ic_local d1 n d2 f n' d3 g :
    jf_lookup (JumpFn st) d1 n d2 = Some f → local_edge ICF P n d2 n' d3 g →
    covered st d1 n' d3 (extend f g);
  ic_call d1 n d2 f Callee SP d3 :
    jf_lookup (JumpFn st) d1 n d2 = Some f → call_edge ICF P n d2 Callee SP d3 →
    covered st d3 SP d3 identity ∧ inc st SP d3 n d2;
  ic_exit d1 n d2 f SP :
    jf_lookup (JumpFn st) d1 n d2 = Some f → exit_node ICF n →
    SP ∈ getStartPointsOf ICF (getFunctionOf ICF n) →
    Table.lookup (es st SP d1) n d2 = Some f;
  ic_return d1 c d2 f Callee SP d3 eP d4 fs n' d5 f4 f5 :
    jf_lookup (JumpFn st) d1 c d2 = Some f → call_edge ICF P c d2 Callee SP d3 →
    Table.lookup (es st SP d3) eP d4 = Some fs →
    return_edge ICF P c d2 Callee d3 eP d4 n' d5 f4 f5 →
    covered st d1 n' d5 (extend f (extend (extend f4 fs) f5));
  ic_unbalanced d1 n d2 f n' d5 f5 :
    IFDSIDESolverConfig.followReturnsPastSeeds (SolverConfig P) = true →
    jf_lookup (JumpFn st) d1 n d2 = Some f → exit_node ICF n → no_inc ICF st d1 n →
    unbalanced_edge ICF P n d2 n' d5 f5 →
    covered st (ZeroValue P) n' d5 (extend f f5)
}.

Lemma covered_pending st d1 n d2 f : (mkPathEdge d1 n d2, f) ∈ WorkList st → covered st d1 n d2 f.
Proof. intros Hin k _ Hk. by apply Hk. Qed.

Lemma covered_mono st st' :
  (∀ d n d', Jf st d n d' ⊑ₑ Jf st' d n d') →
  (∀ d n d' g, (mkPathEdge d n d', g) ∈ WorkList st →
     (mkPathEdge d n d', g) ∈ WorkList st' ∨ g ⊑ₑ Jf st' d n d') →
  ∀ d n d' f, covered st d n d' f → covered st' d n d' f.
Proof.
  intros HJ HW d n d' f Hc k HJk Hk. apply Hc.
  - transitivity (Jf st' d n d'); [apply HJ | done].
  - intros g Hg. destruct (HW _ _ _ _ Hg) as [Hg'|Hg']; [by apply Hk|].
    by transitivity (Jf st' d n d').
Qed.

Definition trivial_rules (_ : D) (_ : N) (_ : D) (_ : EF) : Prop := True.

Lemma doNext_covered st st' d1 n d2 f wl :
  WorkList st = (mkPathEdge d1 n d2, f) :: wl →
  (combine (Jf st d1 n d2) f = Jf st d1 n d2 ∧ st' = set_WorkList (λ _, wl) st) ∨
  (∃ st1, updated d1 n d2 (combine (Jf st d1 n d2) f) wl st st1 ∧
          processed ICF P d1 n d2 (combine (Jf st d1 n d2) f) st1 st') →
  ∀ d n d' g, covered st d n d' g → covered st' d n d' g.
Proof.
  intros HWL Hcase. apply covered_mono.
  - intros d n0 d'. destruct Hcase as [[_ ->]|(st1 & Hup & Hpr)]; [by destruct st|].
    unfold Jf at 2. rewrite (pr_JumpFn _ _ _ _ _ _ _ _ Hpr), (up_jf _ _ _ _ _ _ _ Hup).
    destruct (decide _) as [(-> & -> & ->)|_]; [apply combine_ub_l | done].
  - intros d n0 d' g. rewrite HWL. intros [[= -> -> -> ->]|Hin]%elem_of_cons.
    + right. destruct Hcase as [[Heq ->]|(st1 & Hup & Hpr)].
      * replace (Jf (set_WorkList _ st) d1 n d2) with (Jf st d1 n d2) by by destruct st.
        rewrite <- Heq. apply combine_ub_r.
      * unfold Jf at 1. rewrite (pr_JumpFn _ _ _ _ _ _ _ _ Hpr), (up_jf _ _ _ _ _ _ _ Hup).
        rewrite decide_True by done. apply combine_ub_r.
    + left. destruct Hcase as [[_ ->]|(st1 & Hup & Hpr)]; [by destruct st|].
      apply (pr_WorkList _ _ _ _ _ _ _ _ Hpr). left. by rewrite (up_WorkList _ _ _ _ _ _ _ Hup).
Qed.

(** A step that stores [fP] for the path edge [(d1, n, d2)]. *)
Section storing.
Context (st st1 st' : State) (d1 : D) (n : N) (d2 : D) (fP : EF) (wl : list (PathEdge N D * EF)).
Context (Hup : updated d1 n d2 fP wl st st1) (Hpr : processed ICF P d1 n d2 fP st1 st').
Context (Hcov : ∀ d n d' g, covered st d n d' g → covered st' d n d' g).
Context (Hsound : inv_sound ICF P trivial_rules st).
Context (Hsound' : inv_sound ICF P trivial_rules st').
Context (Hinv : inv_complete st).

Lemma stored_jf d n' d' g : jf_lookup (JumpFn st') d n' d' = Some g →
  (d = d1 ∧ n' = n ∧ d' = d2 ∧ g = fP) ∨ jf_lookup (JumpFn st) d n' d' = Some g.
Proof.
  rewrite (pr_JumpFn _ _ _ _ _ _ _ _ Hpr), (up_jf _ _ _ _ _ _ _ Hup).
  destruct (decide _) as [(-> & -> & ->)|_]; [left; naive_solver|by right].
Qed.

Lemma stored_es SP d : es st1 SP d = es st SP d.
Proof. unfold es. by rewrite (up_EndsummaryTab _ _ _ _ _ _ _ Hup). Qed.

Lemma stored_inc SP d c d' : inc st SP d c d' → inc st1 SP d c d'.
Proof. unfold inc, inc_map. by rewrite (up_IncomingTab _ _ _ _ _ _ _ Hup). Qed.

Lemma stored_inc' SP d c d' : inc st SP d c d' → inc st' SP d c d'.
Proof. intros Hi. apply (pr_inc _ _ _ _ _ _ _ _ Hpr). left. by apply stored_inc. Qed.

(** What the task emits is pending. *)
Lemma stored_pending d n' d' g :
  (∀ e, e = (mkPathEdge d n' d', g) →
    (∃ n' d3 g, local_edge ICF P n d2 n' d3 g ∧ e = out_edge d1 fP n' d3 g) ∨
    (∃ Callee SP d3, call_edge ICF P n d2 Callee SP d3 ∧
       entered ICF P st1 d1 n d2 fP Callee SP d3 e) ∨
    (exit_node ICF n ∧
       ((∃ SP c d4, SP ∈ getStartPointsOf ICF (getFunctionOf ICF n) ∧ inc st1 SP d1 c d4 ∧
          returned ICF P (JumpFn st1) c d4 d1 n d2 fP e) ∨
        (IFDSIDESolverConfig.followReturnsPastSeeds (SolverConfig P) = true ∧
          no_inc ICF st1 d1 n ∧
          ∃ n' d5 f5, unbalanced_edge ICF P n d2 n' d5 f5 ∧
                      e = out_edge (ZeroValue P) fP n' d5 f5)))) →
  covered st' d n' d' g.
Proof.
  intros He. apply covered_pending, (pr_WorkList _ _ _ _ _ _ _ _ Hpr). right. by apply He.
Qed.

Lemma stored_local d n0 d' f n' d3 g :
  jf_lookup (JumpFn st') d n0 d' = Some f → local_edge ICF P n0 d' n' d3 g →
  covered st' d n' d3 (extend f g).
Proof.
  intros [(-> & -> & -> & ->)|Hold]%stored_jf Hl.
  - apply stored_pending. intros e ->. left. by eauto.
  - by eapply Hcov, (ic_local _ Hinv).
Qed.

Lemma stored_call d n0 d' f Callee SP d3 :
  jf_lookup (JumpFn st') d n0 d' = Some f → call_edge ICF P n0 d' Callee SP d3 →
  covered st' d3 SP d3 identity ∧ inc st' SP d3 n0 d'.
Proof.
  intros [(-> & -> & -> & ->)|Hold]%stored_jf Hce.
  - split.
    + apply stored_pending. intros e ->. right. left. exists Callee, SP, d3.
      split; [done|]. by left.
    + apply (pr_inc _ _ _ _ _ _ _ _ Hpr). right. by exists Callee.
  - destruct (ic_call _ Hinv _ _ _ _ _ _ _ Hold Hce) as [Hc Hi].
    split; [by apply Hcov | by apply stored_inc'].
Qed.

Lemma stored_exit d n0 d' f SP :
  jf_lookup (JumpFn st') d n0 d' = Some f → exit_node ICF n0 →
  SP ∈ getStartPointsOf ICF (getFunctionOf ICF n0) →
  Table.lookup (es st' SP d) n0 d' = Some f.
Proof.
  intros Hj Hx HSP. rewrite (pr_es _ _ _ _ _ _ _ _ Hpr).
  rewrite (pr_JumpFn _ _ _ _ _ _ _ _ Hpr), (up_jf _ _ _ _ _ _ _ Hup) in Hj.
  destruct (decide (d = d1 ∧ n0 = n ∧ d' = d2)) as [(-> & -> & ->)|Hne].
  - by rewrite decide_True.
  - rewrite decide_False by tauto. rewrite stored_es. by apply (ic_exit _ Hinv).
Qed.

Lemma stored_return d c d' f Callee SP d3 eP d4 fs n' d5 f4 f5 :
  jf_lookup (JumpFn st') d c d' = Some f → call_edge ICF P c d' Callee SP d3 →
  Table.lookup (es st' SP d3) eP d4 = Some fs →
  return_edge ICF P c d' Callee d3 eP d4 n' d5 f4 f5 →
  covered st' d n' d5 (extend f (extend (extend f4 fs) f5)).
Proof.
  intros Hj Hce Hes Hre. rewrite (pr_es _ _ _ _ _ _ _ _ Hpr) in Hes.
  destruct (decide _) as [(Hx & HSP & -> & -> & ->)|_].
  - (* a new end summary: the exit returns to the registered call *)
    injection Hes as <-. destruct (stored_jf _ _ _ _ Hj) as [(_ & -> & _ & _)|Hold].
    { destruct Hce as [Hc _], Hx as [Hx _]. congruence. }
    apply stored_pending. intros e ->. right. right. split; [done|]. left.
    exists SP, c, d'. split; [done|]. split.
    { by apply stored_inc, (ic_call _ Hinv _ _ _ _ _ _ _ Hold Hce). }
    assert (getFunctionOf ICF n = Callee) as <- by by eapply callee_of_start.
    exists n', d5, f4, f5, d, f. split; [done|].
    rewrite <- (pr_JumpFn _ _ _ _ _ _ _ _ Hpr). split; [done|]. split; [|done].
    by apply (is_jf _ _ _ _ Hsound' _ _ _ _ Hj).
  - (* a known end summary: a new call applies it *)
    destruct (stored_jf _ _ _ _ Hj) as [(-> & -> & -> & ->)|Hold].
    + apply stored_pending. intros e ->. right. left. exists Callee, SP, d3.
      split; [done|]. right. by exists eP, d4, fs, n', d5, f4, f5.
    + rewrite stored_es in Hes. by eapply Hcov, (ic_return _ Hinv).
Qed.

Lemma stored_unbalanced d n0 d' f n' d5 f5 :
  IFDSIDESolverConfig.followReturnsPastSeeds (SolverConfig P) = true →
  jf_lookup (JumpFn st') d n0 d' = Some f → exit_node ICF n0 → no_inc ICF st' d n0 →
  unbalanced_edge ICF P n0 d' n' d5 f5 →
  covered st' (ZeroValue P) n' d5 (extend f f5).
Proof.
  intros Hfl [(-> & -> & -> & ->)|Hold]%stored_jf Hx Hno Hue.
  - apply stored_pending. intros e ->. right. right. split; [done|]. right.
    split; [done|]. split; [|by exists n', d5, f5].
    intros SP c d4 HSP Hi. apply (Hno SP c d4 HSP). apply (pr_inc _ _ _ _ _ _ _ _ Hpr). by left.
  - eapply Hcov, (ic_unbalanced _ Hinv); try done.
    intros SP c d4 HSP Hi. apply (Hno SP c d4 HSP). by apply stored_inc'.
Qed.

Lemma stored_complete : inv_complete st'.
Proof.
  split.
  - intros. by apply Hcov, (ic_seed _ Hinv).
  - apply stored_local.
  - apply stored_call.
  - apply stored_exit.
  - apply stored_return.
  - apply stored_unbalanced.
Qed.
End storing.

Lemma trivial_closed : closed_rules ICF P (unb_flag P) trivial_rules.
Proof. split; done. Qed.

Lemma doNext_trivial_sound st st' :
  doNext ICF P st = Some st' →
  inv_sound ICF P trivial_rules st → inv_sound ICF P trivial_rules st'.
Proof. by apply (doNext_sound ICF P trivial_rules trivial_closed). Qed.

Lemma doNext_complete st st' :
  doNext ICF P st = Some st' → inv_sound ICF P trivial_rules st → inv_complete st → inv_complete st'.
Proof.
  intros Hnext Hsound Hinv.
  assert (inv_sound ICF P trivial_rules st') as Hsound'
    by by apply (doNext_trivial_sound st).
  destruct (doNext_cases ICF P st st' Hnext) as (d1 & n & d2 & f & wl & HWL & Hcase);
    [apply Hsound..|].
  pose proof (doNext_covered st st' d1 n d2 f wl HWL) as Hcov.
  destruct Hcase as [[Heq ->]|(Hneq & Hne & st1 & Hup & Hpr)].
  - specialize (Hcov (or_introl (conj Heq eq_refl))).
    destruct Hinv as [Hse Hlo Hca Hex Hre Hun]. clear Hnext HWL Hsound Hsound' Heq.
    destruct st; simpl in *; split; eauto.
    intros. split; [eapply Hcov, Hca | eapply Hca]; eauto.
  - specialize (Hcov (or_intror (ex_intro _ st1 (conj Hup Hpr)))).
    by eapply stored_complete.
Qed.

Lemma doInitialize_complete : inv_complete (doInitialize P (initialState P)).
Proof.
  destruct (doInitialize_effect P) as [HJ HS HE HW HI Hn].
  split; rewrite ?HJ; simpl; try by (intros *; rewrite jf_lookup_empty).
  - intros SP d Hs. apply covered_pending. apply HW. right. by exists SP, d.
Qed.

Lemma solveImpl_complete fuel st : solveImpl ICF P fuel = Some st → inv_complete st ∧ WorkList st = [].
Proof.
  intros Hs.
  destruct (while_next_inv (doNext ICF P)
    (λ s : State, inv_sound ICF P trivial_rules s ∧ inv_complete s) fuel (doInitialize P (initialState P)) st) as [[_ Hc] Hend]; [| |exact Hs|].
  - intros s s' Hnext [? ?]. split; [|by eapply doNext_complete].
    by apply (doNext_trivial_sound s).
  - split; [apply doInitialize_sound, trivial_closed | apply doInitialize_complete].
  - split; [done|]. unfold doNext in Hend. by destruct (WorkList st) as [|[]].
Qed.

(** An exit returns to all callers when no caller is known to the table. *)
Definition unb_unknown (K : D → N → D → EF) (d1 : D) (n : N) : Prop :=
  IFDSIDESolverConfig.followReturnsPastSeeds (SolverConfig P) = true ∧
  ∀ SP c d2 d0 Callee, SP ∈ getStartPointsOf ICF (getFunctionOf ICF n) →
    call_edge ICF P c d2 Callee SP d1 → K d0 c d2 = AllTop.

Lemma Jf_lookup st d1 n d2 :
  Jf st d1 n d2 ≠ AllTop → jf_lookup (JumpFn st) d1 n d2 = Some (Jf st d1 n d2).
Proof. unfold Jf. by destruct (jf_lookup (JumpFn st) d1 n d2). Qed.

Lemma covered_done st d1 n d2 f : WorkList st = [] → covered st d1 n d2 f → f ⊑ₑ Jf st d1 n d2.
Proof. intros HW Hc. apply Hc; [done|]. rewrite HW. by intros g Hg%elem_of_nil. Qed.

Lemma complete_solution st :
  inv_sound ICF P trivial_rules st → inv_complete st → WorkList st = [] →
  solution ICF P (unb_unknown (Jf st)) (Jf st).
Proof.
  intros Hs Hc HW. split.
  - intros. by apply covered_done, (ic_seed _ Hc).
  - intros d1 n d2 n' d3 g Hne%Jf_lookup He. by eapply covered_done, (ic_local _ Hc).
  - intros d1 n d2 Callee SP d3 Hne%Jf_lookup He. by eapply covered_done, (ic_call _ Hc).
  - intros d1 c d2 Callee SP d3 eP d4 n' d5 f4 f5 Hne%Jf_lookup Hce Hnes%Jf_lookup Hx Hf Hre.
    eapply covered_done; [done|]. eapply (ic_return _ Hc); try done.
    apply (ic_exit _ Hc); [done..|]. rewrite Hf. apply Hce.
  - intros d1 eP d2 n' d5 f5 [Hfl Hun] Hne%Jf_lookup Hx Hue. apply covered_done; [done|].
    eapply (ic_unbalanced _ Hc); try done. intros SP c d4 HSP Hi.
    destruct (is_inc _ _ _ _ Hs _ _ _ _ Hi) as [Callee Hce].
    destruct (is_inc_jf _ _ _ _ Hs _ _ _ _ Hi) as [d0 [g Hd]].
    assert (Jf st d0 c d4 = AllTop) as Htop by by eapply Hun.
    unfold Jf in Htop. rewrite Hd in Htop. simpl in Htop. subst g.
    by apply (is_jf _ _ _ _ Hs) in Hd as [_ ?].
Qed.

Lemma solveImpl_solution fuel st :
  solveImpl ICF P fuel = Some st → solution ICF P (unb_unknown (Jf st)) (Jf st).
Proof.
  intros Hs. destruct (solveImpl_complete fuel st Hs) as [Hc HW].
  apply complete_solution; [|done..].
  by apply (solveImpl_sound ICF P trivial_rules fuel st trivial_closed).
Qed.

(** The jump functions are below every solution of the rules. *)
Lemma solveImpl_least fuel st K :
  solveImpl ICF P fuel = Some st → solution ICF P (unb_flag P) K →
  ∀ d1 n d2, Jf st d1 n d2 ⊑ₑ K d1 n d2.
Proof.
  intros Hs HK d1 n d2.
  assert (inv_sound ICF P (below K) st) as Hinv.
  { apply (solveImpl_sound ICF P (below K) fuel st); [by apply solution_closed| |done].
    apply below_combine_closed. }
  unfold Jf. destruct (jf_lookup (JumpFn st) d1 n d2) as [f|] eqn:Hj; simpl.
  - by apply (is_jf _ _ _ _ Hinv) in Hj as [? _].
  - apply ef_le_top.
Qed.
End complete.
