(* ===== verification/IDESolverPaths.v ===== *)
(** The first phase of the [IDESolver] terminates when the facts that can occur
    are finitely many and the edge functions have no infinite ascending chains.

    Every step either shortens the work list or raises one jump function; the
    sum of the heights of the jump functions, then the length of the work list,
    decrease lexicographically.

    The first phase of the [IDESolver] computes the join over all valid paths.

    A path function is the composition of the edge functions along an
    interprocedurally valid, same-level path of the exploded supergraph. The jump
    functions are upper bounds of the path functions; for distributive problems
    they are their least upper bounds. *)
From S2P Require Import Prelude JoinLattice Table JumpFunctions IDEProblem IDESolverAPIMixin IDESolver.
From S2P Require Import IDESolverEffects IDESolverFixpoint.

(** Ascending chains of edge functions are bounded by a height. *)
Class EFHeight (L EF : Type) `{SemiRing L EF} := {
  height : EF → nat;
  height_lt f g : ef_le f g → f ≠ g → height g < height f
}.

Section termination.
Context {N D F L EF : Type} `{Countable N, Countable D, EqDecision EF, EqDecision L}.
Context `{JoinLatticeTraits L, !SemiRing L EF, !SemiRingLaws L EF, !EFHeight L EF}.
Context (ICF : ICFG N D F) (P : IDETabulationProblem N D F L EF) `{!ICFGLaws ICF}.
Abbreviation State := (IDESolver N D F L EF).
Implicit Types (st : State).
Local Open Scope phasar_scope.

(** The path edges that can occur lie in the finite set [U]. *)
Definition in_universe (U : gset (D * N * D)) (d1 : D) (n : N) (d2 : D) (_ : EF) : Prop :=
  (d1, n, d2) ∈ U.

Definition finite_problem (U : gset (D * N * D)) : Prop :=
  closed_rules ICF P (unb_flag P) (in_universe U).

(** The sum of the heights of the jump functions of a set of path edges. *)
Definition potential (l : list (D * N * D)) st : nat :=
  sum_of (λ x, height (Jf st x.1.1 x.1.2 x.2)) l.

Lemma potential_same l st st' :
  (∀ d1 n d2, Jf st' d1 n d2 = Jf st d1 n d2) → potential l st' = potential l st.
Proof. intros HJ. apply sum_of_ext. intros [[d1 n] d2]. by rewrite HJ. Qed.

Lemma potential_lt l st st' d1 n d2 :
  (d1, n, d2) ∈ l → Jf st d1 n d2 ⊑ₑ Jf st' d1 n d2 → Jf st d1 n d2 ≠ Jf st' d1 n d2 →
  (∀ d n' d', (d, n', d') ≠ (d1, n, d2) → Jf st' d n' d' = Jf st d n' d') →
  potential l st' < potential l st.
Proof.
  intros Hin Hle Hne Hsame. pose proof (height_lt _ _ Hle Hne) as Hh.
  apply (sum_of_lt _ _ _ (d1, n, d2)); [done..|]. intros [[d n'] d']. simpl.
  destruct (decide ((d, n', d') = (d1, n, d2))) as [[= -> -> ->]|Hx]; [lia|].
  by rewrite Hsame.
Qed.

Lemma in_universe_combine U : combine_closed (in_universe U).
Proof. by intros d1 n d2 f g. Qed.

(** Every step decreases the measure. *)
Lemma doNext_measure U st st' :
  finite_problem U → inv_sound ICF P (in_universe U) st → doNext ICF P st = Some st' →
  let m := potential (elements U) in
  m st' < m st ∨ (m st' = m st ∧ length (WorkList st') < length (WorkList st)).
Proof.
  intros HU Hs Hnext. cbv zeta.
  destruct (doNext_cases ICF P st st' Hnext) as (d1 & n & d2 & f & wl & HWL & Hcase);
    [apply Hs..|].
  destruct Hcase as [[_ ->]|(Hneq & _ & st1 & Hup & Hpr)].
  - right. split; [apply potential_same; by destruct st|]. rewrite HWL. destruct st. simpl. lia.
  - left. assert (∀ d n' d', Jf st' d n' d' =
      if decide (d = d1 ∧ n' = n ∧ d' = d2) then combine (Jf st d1 n d2) f else Jf st d n' d') as HJ.
    { intros. unfold Jf at 1. rewrite (pr_JumpFn _ _ _ _ _ _ _ _ Hpr).
      rewrite (up_jf _ _ _ _ _ _ _ Hup). by destruct (decide _). }
    apply (potential_lt _ st st' d1 n d2).
    + apply elem_of_elements. apply (is_WorkList _ _ _ _ Hs d1 n d2 f). rewrite HWL. set_solver.
    + rewrite HJ, decide_True by done. apply combine_ub_l.
    + rewrite HJ, decide_True by done. congruence.
    + intros d n' d' Hne. rewrite HJ, decide_False; naive_solver.
Qed.

Lemma solveImpl_terminates U :
  finite_problem U → ∃ fuel st, ∀ fuel', fuel ≤ fuel' → solveImpl ICF P fuel' = Some st.
Proof.
  intros HU.
  destruct (while_next_terminates (doNext ICF P) (inv_sound ICF P (in_universe U))
    (potential (elements U)) (λ st, length (WorkList st)) (doInitialize P (initialState P)))
    as (fuel & st & Hst).
  - intros s s' Hs Hnext. split; [|by apply doNext_measure].
    by apply (doNext_sound ICF P (in_universe U) HU (in_universe_combine U) s).
  - by apply doInitialize_sound.
  - exists fuel, st. intros fuel' Hle. by eapply while_next_fuel.
Qed.
End termination.

Section paths.
Context {N D F L EF : Type} `{Countable N, Countable D, EqDecision EF, EqDecision L}.
Context `{JoinLatticeTraits L, !SemiRing L EF, !SemiRingLaws L EF}.
Context (ICF : ICFG N D F) (P : IDETabulationProblem N D F L EF) `{!ICFGLaws ICF}.
Abbreviation State := (IDESolver N D F L EF).
Implicit Types (st : State).
Local Open Scope phasar_scope.

(** [f] is the composition of the edge functions along a valid path that starts
    with the fact [d1] at the start of its function and reaches [(n, d2)]. A
    path with the function [AllTop] is not continued. *)
Inductive path_fn : D → N → D → EF → Prop :=
  | path_seed SP d : seed_fact P SP d → path_fn d SP d identity
  | path_local d1 n d2 f n' d3 g :
      path_fn d1 n d2 f → f ≠ AllTop → local_edge ICF P n d2 n' d3 g →
      path_fn d1 n' d3 (extend f g)
  | path_call d1 n d2 f Callee SP d3 :
      path_fn d1 n d2 f → f ≠ AllTop → call_edge ICF P n d2 Callee SP d3 →
      path_fn d3 SP d3 identity
  | path_return d1 c d2 f Callee SP d3 eP d4 fs n' d5 f4 f5 :
      path_fn d1 c d2 f → f ≠ AllTop → call_edge ICF P c d2 Callee SP d3 →
      path_fn d3 eP d4 fs → fs ≠ AllTop → exit_node ICF eP → getFunctionOf ICF eP = Callee →
      return_edge ICF P c d2 Callee d3 eP d4 n' d5 f4 f5 →
      path_fn d1 n' d5 (extend f (extend (extend f4 fs) f5))
  | path_unbalanced d1 eP d2 f n' d5 f5 :
      unb_flag P d1 eP → path_fn d1 eP d2 f → f ≠ AllTop → exit_node ICF eP →
      unbalanced_edge ICF P eP d2 n' d5 f5 → path_fn (ZeroValue P) n' d5 (extend f f5).

(** Every solution of the rules is above the path functions. *)
Lemma path_fn_below K d1 n d2 f : solution ICF P (unb_flag P) K → path_fn d1 n d2 f → f ⊑ₑ K d1 n d2.
Proof.
  intros HK Hp. apply (solution_closed ICF P) in HK. change (below K d1 n d2 f).
  induction Hp; [eapply (cr_seed _ _ _ _ HK) | eapply (cr_local _ _ _ _ HK)
    | eapply (cr_call _ _ _ _ HK) | eapply (cr_return _ _ _ _ HK)
    | eapply (cr_unbalanced _ _ _ _ HK)]; eassumption.
Qed.

(** Finite joins of path functions. *)
Inductive joined (Q : EF → Prop) : EF → Prop :=
  | joined_one f : Q f → joined Q f
  | joined_combine f g : joined Q f → joined Q g → joined Q (combine f g).

Lemma joined_bound Q f k : joined Q f → (∀ g, Q g → g ⊑ₑ k) → f ⊑ₑ k.
Proof. intros Hf Hk. induction Hf; [by apply Hk|]. by apply combine_lub. Qed.

(** A join other than [AllTop] is a join of parts other than [AllTop]. *)
Lemma joined_nontop Q f : joined Q f → f ≠ AllTop → joined (λ g, Q g ∧ g ≠ AllTop) f.
Proof.
  induction 1 as [f HQ|f g Hf IHf Hg IHg]; intros Hne; [by constructor|].
  destruct (decide (f = AllTop)) as [->|Hf'].
  - unfold AllTop in *. rewrite combine_top_l in *. by apply IHg.
  - destruct (decide (g = AllTop)) as [->|Hg'].
    + unfold AllTop in *. rewrite combine_top_r in *. by apply IHf.
    + constructor; [by apply IHf | by apply IHg].
Qed.

Context `{!SemiRingDistributive L EF}.

Lemma joined_map Q Q' (h : EF → EF) f :
  (∀ f g, h (combine f g) = combine (h f) (h g)) → (∀ g, Q g → joined Q' (h g)) →
  joined Q f → joined Q' (h f).
Proof.
  intros Hh HQ. induction 1 as [f HQf|f g Hf IHf Hg IHg]; [by apply HQ|].
  rewrite Hh. by constructor.
Qed.

(** The functions that are joins of path functions follow the rules. *)
Definition joined_paths (d1 : D) (n : N) (d2 : D) : EF → Prop := joined (path_fn d1 n d2).

Lemma joined_paths_some d1 n d2 f :
  joined_paths d1 n d2 f → f ≠ AllTop → ∃ g, path_fn d1 n d2 g ∧ g ≠ AllTop.
Proof.
  intros Hf Hne. apply joined_nontop in Hf; [|done]. clear Hne. induction Hf as [g [Hg Hne]|]; eauto.
Qed.

Lemma joined_paths_closed : closed_rules ICF P (unb_flag P) joined_paths.
Proof.
  split; unfold joined_paths.
  - intros SP d Hs. constructor. by constructor.
  - intros d1 n d2 f n' d3 g Hf Hne0 Hl.
    apply joined_nontop in Hf; [|done].
    eapply (joined_map _ _ (λ f, extend f g)); [| |exact Hf]; [|intros f' [Hf' Hne]].
    + intros. apply extend_combine_l.
    + constructor. by eapply path_local.
  - intros d1 n d2 f Callee SP d3 Hf Hne Hce.
    destruct (joined_paths_some d1 n d2 f Hf Hne) as (g & Hg & Hneg).
    constructor. by eapply path_call.
  - intros d1 c d2 f Callee SP d3 eP d4 fs n' d5 f4 f5 Hf Hne Hce Hfs Hnes Hx Hfe Hre.
    apply joined_nontop in Hf; [|done]. apply joined_nontop in Hfs; [|done].
    eapply (joined_map _ _ (λ f, extend f _)); [| |exact Hf]; [|intros f' [Hf' Hne']].
    { intros. apply extend_combine_l. }
    eapply (joined_map _ _ (λ fs, extend f' (extend (extend f4 fs) f5)));
      [| |exact Hfs]; [|intros fs' [Hfs' Hnes']].
    { intros. by rewrite extend_combine_r, extend_combine_l, extend_combine_r. }
    constructor. by eapply path_return.
  - intros d1 eP d2 f n' d5 f5 Hfl Hf Hne0 Hx Hue.
    apply joined_nontop in Hf; [|done].
    eapply (joined_map _ _ (λ f, extend f f5)); [| |exact Hf]; [|intros f' [Hf' Hne]].
    + intros. apply extend_combine_l.
    + constructor. by eapply path_unbalanced.
Qed.

Lemma joined_paths_combine : combine_closed joined_paths.
Proof. intros d1 n d2 f g Hf Hg. by constructor. Qed.

Lemma solveImpl_joined fuel st d1 n d2 f :
  solveImpl ICF P fuel = Some st → jf_lookup (JumpFn st) d1 n d2 = Some f →
  joined (path_fn d1 n d2) f.
Proof.
  intros Hs Hj.
  pose proof (solveImpl_sound ICF P joined_paths fuel st joined_paths_closed
    joined_paths_combine Hs) as Hinv.
  by apply (is_jf _ _ _ _ Hinv) in Hj as [? _].
Qed.
End paths.
