(* ===== verification/IDESolverValues.v ===== *)
(** The second phase of the [IDESolver]: propagation of values over the jump
    functions of the calls ([valuePropagationTask]) and the final values of the
    other nodes ([valueComputationTask]).

    A task propagates along the value edges of one exploded node ([value_edge]);
    [propagates] describes it as a run over the list of these edges, on the two
    fields of the state it changes. The values computed are the least solution
    of the value rules ([value_solution]). *)
From S2P Require Import Prelude JoinLattice Table JumpFunctions IDEProblem IDESolverAPIMixin IDESolver IDESolverEffects IDESolverFixpoint IDESolverPaths.

(** Edge functions are monotone on values. *)
Class MonotoneEdgeFunctions (L EF : Type) `{JoinLatticeTraits L, SemiRing L EF} : Prop :=
  computeTarget_mono (f : EF) (x y : L) :
    lat_le x y → lat_le (computeTarget f x) (computeTarget f y).

Section value_edges.
Context {N D F L EF : Type} `{Countable N, Countable D, EqDecision EF, EqDecision L}.
Context `{JoinLatticeTraits L, !SemiRing L EF}.
Context (ICF : ICFG N D F) (P : IDETabulationProblem N D F L EF).
Abbreviation State := (IDESolver N D F L EF).
Implicit Types (st : State).
Local Open Scope phasar_scope.

(** Nodes whose values are propagated like those of a start point. *)
Definition start_like st (n : N) : Prop :=
  isStartPoint ICF n = true ∨ is_Some (Seeds st !! n) ∨ n ∈ UnbalancedRetSites st.

(** The edges along which the values of [(n, d)] are propagated. *)
Inductive value_edge st (n : N) (d : D) : N → D → EF → Prop :=
  | value_edge_start CallSite dPrime f :
      start_like st n → CallSite ∈ getCallsFromWithin ICF (getFunctionOf ICF n) →
      jf_lookup (JumpFn st) d CallSite dPrime = Some f →
      value_edge st n d CallSite dPrime f
  | value_edge_call Callee SP dPrime :
      isCallSite ICF n = true → Callee ∈ getCalleesOfCallAt ICF n →
      SP ∈ getStartPointsOf ICF Callee → dPrime ∈ cachedCallFF P n Callee d →
      value_edge st n d SP dPrime (getCallEdgeFunction P n d Callee dPrime).

(** ** The part of the state the propagation changes *)

Definition vval (T : Table N D L) (n : N) (d : D) : L := default top (Table.lookup T n d).

Definition vstate : Type := Table N D L * list (N * D).
Definition view st : vstate := (ValTab st, ValuePropWL st).

Lemma val_spec n d st : val n d st = vval (ValTab st) n d.
Proof.
  unfold val, vval. rewrite table_contains_spec, (proj1 (table_get_spec _ _ _ _)).
  case_bool_decide as Hs; [done|]. apply eq_None_not_Some in Hs. by rewrite Hs.
Qed.

Definition vprop (n : N) (d : D) (l : L) (v : vstate) : vstate :=
  let l' := join (vval v.1 n d) l in
  if decide (l' ≠ vval v.1 n d) then (Table.insert v.1 n d l', (n, d) :: v.2) else v.

(** Propagation of the value of [(n, d)] along a list of edges. *)
Definition vrun (n : N) (d : D) (l : list (N * D * EF)) : vstate → vstate :=
  for_each l (λ '(n', d', f) v, vprop n' d' (computeTarget f (vval v.1 n d)) v).

Record same_tables st st' : Prop := {
  sm_JumpFn : JumpFn st' = JumpFn st;
  sm_Seeds : Seeds st' = Seeds st;
  sm_Unbalanced : UnbalancedRetSites st' = UnbalancedRetSites st
}.

#[export] Instance same_tables_preorder : PreOrder same_tables.
Proof. split; [by intros st | intros st1 st2 st3 [] []; split; congruence]. Qed.

(** [st'] is [st] after the value of [(n, d)] was propagated along [E]. *)
Record propagates n d st st' (E : N → D → EF → Prop) : Prop := {
  pg_same : same_tables st st';
  pg_run : ∃ l, (∀ n' d' f, (n', d', f) ∈ l ↔ E n' d' f) ∧ view st' = vrun n d l (view st)
}.

Lemma propagates_refl n d st st' :
  same_tables st st' → view st' = view st → propagates n d st st' (λ _ _ _, False).
Proof. intros Hs Hv. split; [done|]. exists []. split; [set_solver|done]. Qed.

Lemma propagates_iff n d st st' E E' :
  propagates n d st st' E → (∀ n' d' f, E n' d' f ↔ E' n' d' f) → propagates n d st st' E'.
Proof.
  intros [Hs (l & Hl & Hv)] HE. split; [done|]. exists l. split; [|done].
  intros. by rewrite Hl, HE.
Qed.

Lemma propagates_trans n d st1 st2 st3 E E' :
  propagates n d st1 st2 E → propagates n d st2 st3 E' →
  propagates n d st1 st3 (λ n' d' f, E n' d' f ∨ E' n' d' f).
Proof.
  intros [Hs (l & Hl & Hv)] [Hs' (l' & Hl' & Hv')]. split; [by transitivity st2|].
  exists (l ++ l'). split.
  - intros. by rewrite elem_of_app, Hl, Hl'.
  - unfold vrun. by rewrite for_each_app, Hv', Hv.
Qed.

Lemma propagates_for_each {A} n d (l : list A) (body : A → State → State) st
    (E : A → N → D → EF → Prop) :
  (∀ x st', x ∈ l → same_tables st st' → propagates n d st' (body x st') (E x)) →
  propagates n d st (for_each l body st) (λ n' d' f, ∃ x, x ∈ l ∧ E x n' d' f).
Proof.
  intros Hb. induction l as [|x l IH] using rev_ind.
  { eapply propagates_iff; [by apply propagates_refl|]. intros n' d' f.
    split; [done | by intros (x & Hx%elem_of_nil & _)]. }
  rewrite for_each_app, for_each_cons, for_each_nil.
  assert (propagates n d st (for_each l body st) (λ n' d' f, ∃ x, x ∈ l ∧ E x n' d' f)) as Hl.
  { apply IH. intros. apply Hb; [set_solver|done]. }
  eapply propagates_iff; [eapply propagates_trans; [exact Hl|]|].
  - apply Hb; [set_solver | apply Hl].
  - intros n' d' f. apply (exists_app_singleton l x (λ y, E y n' d' f)).
Qed.

Lemma propagateValue_propagates n d n' d' f st :
  propagates n d st (propagateValue n' d' (computeTarget f (val n d st)) st)
    (λ n0 d0 f0, n0 = n' ∧ d0 = d' ∧ f0 = f).
Proof.
  split.
  - unfold propagateValue. cbv zeta. case_decide; [|done]. by destruct st.
  - exists [(n', d', f)]. split; [set_solver|].
    unfold vrun. rewrite for_each_cons, for_each_nil. unfold propagateValue, vprop, joinValueAt.
    rewrite !val_spec. cbv zeta. destruct st. simpl. by repeat destruct (decide _).
Qed.

Lemma propagates_after n d st st0 st' E :
  same_tables st st0 → view st0 = view st → propagates n d st0 st' E → propagates n d st st' E.
Proof.
  intros Hs Hv [Hs' (l & Hl & Hv')]. split; [by transitivity st0|]. exists l. by rewrite <- Hv.
Qed.

Lemma propagateValueAtStart_propagates n d st :
  wf (JumpFn st) →
  propagates n d st (propagateValueAtStart ICF (n, d) n st)
    (λ n' d' f, n' ∈ getCallsFromWithin ICF (getFunctionOf ICF n) ∧
                jf_lookup (JumpFn st) d n' d' = Some f).
Proof.
  intros Hwf. unfold propagateValueAtStart. cbv zeta. simpl.
  eapply propagates_iff; [apply propagates_for_each with
    (E := λ CallSite n' d' f, n' = CallSite ∧ jf_lookup (JumpFn st) d CallSite d' = Some f)|].
  - intros CallSite st' _ [HJ _ _]. rewrite HJ.
    destruct (forwardLookup d CallSite (JumpFn st)) as [l|] eqn:Hl.
    + eapply propagates_iff; [apply propagates_for_each with
        (E := λ '(dPrime, fPrime) n' d' f, n' = CallSite ∧ d' = dPrime ∧ f = fPrime)|].
      * intros [dPrime fPrime] ? _ _. apply propagateValue_propagates.
      * intros n' d' f. split.
        -- intros ([d0 f0] & Hin & -> & -> & ->). split; [done|].
           by apply (forwardLookup_elem CallSite d (JumpFn st) l).
        -- intros [-> Hj]. exists (d', f). split; [|done].
           by apply (forwardLookup_elem CallSite d (JumpFn st) l).
    + eapply propagates_iff; [by apply propagates_refl|]. intros n' d' f. split; [done|].
      intros [_ Hj]. rewrite <- (wf_forward _ Hwf), Hl in Hj. done.
  - intros n' d' f. simpl. naive_solver.
Qed.

Lemma pushIntermediate_same a b c d f st :
  same_tables st (pushIntermediate a b c d f st) ∧
  view (pushIntermediate a b c d f st) = view st.
Proof. by destruct st. Qed.

Lemma pushIntermediate_SPs_same a b d f SPs st :
  let st' := for_each SPs (λ SP st, pushIntermediate a b SP d f st) st in
  same_tables st st' ∧ view st' = view st.
Proof.
  cbv zeta. apply (for_each_inv (λ st', same_tables st st' ∧ view st' = view st)); [done|].
  intros SP st' _ [Hs Hv].
  destruct (pushIntermediate_same a b SP d f st') as [Hs' Hv']. split; [by transitivity st'|].
  by rewrite Hv'.
Qed.

Lemma propagateValueAtCall_propagates n d st :
  propagates n d st (propagateValueAtCall ICF P (n, d) n st)
    (λ n' d' f, ∃ Callee, Callee ∈ getCalleesOfCallAt ICF n ∧
       n' ∈ getStartPointsOf ICF Callee ∧ d' ∈ cachedCallFF P n Callee d ∧
       f = getCallEdgeFunction P n d Callee d').
Proof.
  unfold propagateValueAtCall. cbv zeta. simpl.
  eapply propagates_iff; [apply propagates_for_each; intros Callee st1 _ _;
    apply propagates_for_each; intros dPrime st2 _ _;
    eapply propagates_after; [..|apply propagates_for_each; intros SP st3 _ _;
      apply propagateValue_propagates]|].
  - destruct (IFDSIDESolverConfig.emitESG _); [|done]. apply pushIntermediate_SPs_same.
  - destruct (IFDSIDESolverConfig.emitESG _); [|done]. apply pushIntermediate_SPs_same.
  - intros n' d' f. simpl. setoid_rewrite elem_of_elements. split.
    + intros (Callee & HC & dPrime & Hd & SP & HSP & -> & -> & ->). by exists Callee.
    + intros (Callee & HC & HSP & Hd & ->). exists Callee. split; [done|].
      exists d'. split; [done|]. by exists n'.
Qed.

Lemma start_like_spec n st :
  isStartPoint ICF n || InitialSeeds.containsInitialSeedsFor (Seeds st) n
    || bool_decide (n ∈ UnbalancedRetSites st) = true ↔ start_like st n.
Proof.
  unfold start_like, InitialSeeds.containsInitialSeedsFor.
  rewrite !orb_true_iff, !bool_decide_eq_true. tauto.
Qed.

Lemma valuePropagationTask_propagates n d st :
  wf (JumpFn st) → propagates n d st (valuePropagationTask ICF P (n, d) st) (value_edge st n d).
Proof.
  intros Hwf. unfold valuePropagationTask. cbv zeta. simpl.
  set (st1 := if _ || _ then _ else st).
  assert (propagates n d st st1 (λ n' d' f, start_like st n ∧
    n' ∈ getCallsFromWithin ICF (getFunctionOf ICF n) ∧
    jf_lookup (JumpFn st) d n' d' = Some f)) as H1'.
  { unfold st1. pose proof (start_like_spec n st) as Hsl. destruct (_ || _).
    - eapply propagates_iff; [by apply propagateValueAtStart_propagates|]. simpl. tauto.
    - eapply propagates_iff; [by apply propagates_refl|].
      intros. split; [done|]. intros [Hst _]. by apply Hsl in Hst. }
  destruct (isCallSite ICF n) eqn:Hc.
  - eapply propagates_iff; [eapply propagates_trans;
      [exact H1'|apply propagateValueAtCall_propagates]|].
    intros n' d' f. simpl. split.
    + intros [(? & ? & ?)|(Callee & ? & ? & ? & ->)];
        [by apply value_edge_start | by apply value_edge_call].
    + intros [CallSite dPrime f' | Callee SP dPrime]; [left; done | right; by exists Callee].
  - eapply propagates_iff; [exact H1'|]. intros n' d' f. simpl. split.
    + intros (? & ? & ?). by apply value_edge_start.
    + intros [CallSite dPrime f' | Callee SP dPrime]; [done | congruence].
Qed.
End value_edges.

(** * Runs of the propagation *)

Section runs.
Context {N D L EF : Type} `{Countable N, Countable D, EqDecision EF, EqDecision L}.
Context `{JoinLatticeTraits L, !JoinLatticeLaws L, !SemiRing L EF}.
Abbreviation vstate := (vstate (N := N) (D := D) (L := L)).
Implicit Types (v : vstate).
Local Open Scope phasar_scope.

(** A later state of the propagation: values grew, the list of pending nodes
    grew, and a node whose value changed is pending. *)
Record vext v v' : Prop := {
  ve_le n d : vval v.1 n d ⊑ₗ vval v'.1 n d;
  ve_pending x : x ∈ v.2 → x ∈ v'.2;
  ve_changed n d : vval v.1 n d ≠ vval v'.1 n d → (n, d) ∈ v'.2
}.

#[export] Instance vext_preorder : PreOrder vext.
Proof.
  split; [done|]. intros v1 v2 v3 [L1 P1 C1] [L2 P2 C2]. split.
  - intros n d. by transitivity (vval v2.1 n d).
  - auto.
  - intros n d Hne. destruct (decide (vval v1.1 n d = vval v2.1 n d)) as [Heq|Hne'].
    + apply C2. congruence.
    + apply P2. by apply C1.
Qed.

Lemma vval_insert (T : Table N D L) n d l n' d' :
  vval (Table.insert T n d l) n' d' = if decide (n = n' ∧ d = d') then l else vval T n' d'.
Proof. unfold vval. autorewrite with phasar_tables. by case_decide. Qed.

Lemma vprop_vval n d l v n' d' :
  vval (vprop n d l v).1 n' d' =
  if decide (n = n' ∧ d = d') then join (vval v.1 n d) l else vval v.1 n' d'.
Proof.
  unfold vprop. cbv zeta. destruct (decide (join (vval v.1 n d) l ≠ vval v.1 n d)) as [Hne|Heq].
  - simpl. by rewrite vval_insert.
  - apply dec_stable in Heq. destruct (decide _) as [[<- <-]|_]; [|done]. by rewrite Heq.
Qed.

Lemma vprop_ext n d l v : vext v (vprop n d l v).
Proof.
  split.
  - intros n' d'. rewrite vprop_vval. destruct (decide _) as [[<- <-]|_]; [apply join_ub_l|done].
  - intros x Hx. unfold vprop. cbv zeta. destruct (decide _); simpl; [by right|done].
  - intros n' d'. rewrite vprop_vval. unfold vprop. cbv zeta.
    destruct (decide (n = n' ∧ d = d')) as [[<- <-]|_]; [|done].
    destruct (decide _) as [|Heq]; simpl; [set_solver|].
    apply dec_stable in Heq. congruence.
Qed.

Lemma vprop_ge n d l v : l ⊑ₗ vval (vprop n d l v).1 n d.
Proof. rewrite vprop_vval, decide_True by done. apply join_ub_r. Qed.

Lemma vrun_ext n d l v : vext v (vrun n d l v).
Proof.
  unfold vrun. apply for_each_rel; [apply _|]. intros [[n' d'] f] v' _. apply vprop_ext.
Qed.

(** After the run every edge is respected, or the node is pending again. *)
Lemma vrun_done n d l v n' d' f :
  (n', d', f) ∈ l →
  let v' := vrun n d l v in
  (n, d) ∈ v'.2 ∨ computeTarget f (vval v'.1 n d) ⊑ₗ vval v'.1 n' d'.
Proof.
  intros Hin. cbv zeta.
  set (Q v' := (n, d) ∈ v'.2 ∨ computeTarget f (vval v'.1 n d) ⊑ₗ vval v'.1 n' d').
  assert (∀ v1 v2, vext v1 v2 → (n, d) ∈ v1.2 ∨
    computeTarget f (vval v1.1 n d) ⊑ₗ vval v2.1 n' d' → Q v2) as HQ.
  { intros v1 v2 [L1 P1 C1] [Hp|Hle]; [left; auto|].
    destruct (decide (vval v1.1 n d = vval v2.1 n d)) as [Heq|Hne]; [right|left; auto].
    by rewrite <- Heq. }
  unfold vrun. apply (for_each_reach (λ _, True) Q (n', d', f)); try done.
  - intros v0 _. eapply HQ; [apply vprop_ext|]. right. apply vprop_ge.
  - intros [[n0 d0] f0] v0 _ _ [Hp|Hle]; (eapply HQ; [apply vprop_ext|]); [by left|right].
    transitivity (vval v0.1 n' d'); [done|]. apply vprop_ext.
Qed.

(** A run stays below what bounds the values it propagates. *)
Lemma vrun_below (V : N → D → L) n d l v :
  (∀ n' d', vval v.1 n' d' ⊑ₗ V n' d') →
  (∀ n' d' f x, (n', d', f) ∈ l → x ⊑ₗ V n d → computeTarget f x ⊑ₗ V n' d') →
  ∀ n' d', vval (vrun n d l v).1 n' d' ⊑ₗ V n' d'.
Proof.
  intros Hv Hl. unfold vrun.
  apply (for_each_inv (λ v : vstate, ∀ n' d', vval v.1 n' d' ⊑ₗ V n' d')); [done|].
  intros [[n1 d1] f1] v1 Hin Hv1 n2 d2. rewrite vprop_vval.
  destruct (decide _) as [[<- <-]|_]; [|done]. apply join_lub. split; [done|]. by eapply Hl.
Qed.

(** Pending nodes have a value. *)
Definition pending_valued v : Prop := ∀ n d, (n, d) ∈ v.2 → vval v.1 n d ≠ top.

Lemma vprop_pending n d l v : pending_valued v → pending_valued (vprop n d l v).
Proof.
  intros Hv n' d' Hin. rewrite vprop_vval. unfold vprop in Hin. cbv zeta in Hin.
  destruct (decide (join (vval v.1 n d) l ≠ vval v.1 n d)) as [Hne|Heq]; simpl in Hin.
  - destruct (decide _) as [[<- <-]|Hx].
    + intros Htop. apply Hne. rewrite Htop. symmetry. apply le_top_inv.
      rewrite <- Htop. apply join_ub_l.
    + apply Hv. set_solver.
  - apply dec_stable in Heq. destruct (decide _) as [[<- <-]|Hx]; [|by apply Hv].
    rewrite Heq. by apply Hv.
Qed.

Lemma vrun_pending n d l v : pending_valued v → pending_valued (vrun n d l v).
Proof.
  intros Hv. unfold vrun. apply (for_each_inv pending_valued); [done|].
  intros [[n1 d1] f1] v1 _. apply vprop_pending.
Qed.
End runs.

(** * The fixpoint of the value propagation *)

Section values.
Context {N D F L EF : Type} `{Countable N, Countable D, EqDecision EF, EqDecision L}.
Context `{JoinLatticeTraits L, !JoinLatticeLaws L, !SemiRing L EF}.
Context (ICF : ICFG N D F) (P : IDETabulationProblem N D F L EF).
Abbreviation State := (IDESolver N D F L EF).
Implicit Types (st : State).
Local Open Scope phasar_scope.

(** The seeds of the value propagation: those of the problem, and zero at the
    unbalanced return sites that have none. *)
Definition value_seed st (n : N) (d : D) (l : L) : Prop :=
  (∃ Facts, Seeds st !! n = Some Facts ∧ Facts !! d = Some l) ∨
  (Seeds st !! n = None ∧ n ∈ UnbalancedRetSites st ∧ d = ZeroValue P ∧ l = top).

(** A solution of the value rules over the jump functions of [st]. *)
Record value_solution st (V : N → D → L) : Prop := {
  vs_seed n d l : value_seed st n d l → l ⊑ₗ V n d;
  vs_edge n d n' d' f :
    (∃ l, value_seed st n d l) ∨ V n d ≠ top → value_edge ICF P st n d n' d' f →
    computeTarget f (V n d) ⊑ₗ V n' d'
}.

(** The value edges of the nodes in [A], and of those that have a value, are
    respected or pending. *)
Definition respected st (A : N → D → Prop) (skip : option (N * D)) : Prop :=
  ∀ n d, Some (n, d) ≠ skip → A n d ∨ val n d st ≠ top →
    (n, d) ∈ ValuePropWL st ∨
    ∀ n' d' f, value_edge ICF P st n d n' d' f →
      computeTarget f (val n d st) ⊑ₗ val n' d' st.

Lemma value_edge_same st st' n d n' d' f :
  same_tables st st' → value_edge ICF P st n d n' d' f → value_edge ICF P st' n d n' d' f.
Proof.
  intros [HJ HS HU] [CallSite dPrime f' Hsl HC Hj | Callee SP dPrime].
  - apply value_edge_start; [|done|congruence]. unfold start_like in *. by rewrite HS, HU.
  - by apply value_edge_call.
Qed.

Lemma same_tables_sym st st' : same_tables st st' → same_tables st' st.
Proof. by intros []; split. Qed.

(** The task of [(n, d)] respects its edges and keeps the other ones. *)
Lemma task_respected st (A : N → D → Prop) n d :
  wf (JumpFn st) → respected st A (Some (n, d)) →
  let st' := valuePropagationTask ICF P (n, d) st in
  respected st' (λ n' d', A n' d' ∨ (n' = n ∧ d' = d)) None ∧ same_tables st st' ∧
  vext (view st) (view st').
Proof.
  intros Hwf Hr. cbv zeta.
  destruct (valuePropagationTask_propagates ICF P n d st Hwf) as [Hsame (l & Hl & Hv)].
  set (st' := valuePropagationTask ICF P (n, d) st) in *.
  pose proof (vrun_ext n d l (view st)) as Hext. rewrite <- Hv in Hext.
  split; [|done]. intros n0 d0 _ Hact. unfold respected in Hr.
  setoid_rewrite val_spec in Hr. rewrite val_spec in *. setoid_rewrite val_spec.
  destruct Hext as [Hle Hp Hc]. simpl in *.
  destruct (decide ((n0, d0) ∈ ValuePropWL st')) as [Hin|Hnin]; [by left|right].
  assert (vval (ValTab st) n0 d0 = vval (ValTab st') n0 d0) as Hsv.
  { destruct (decide (vval (ValTab st) n0 d0 = vval (ValTab st') n0 d0)) as [|Hne]; [done|].
    by destruct Hnin; apply Hc. }
  intros n' d' f He. apply (value_edge_same st' st) in He; [|by apply same_tables_sym].
  destruct (decide ((n0, d0) = (n, d))) as [[= -> ->]|Hne].
  - apply Hl in He.
    destruct (vrun_done n d l (view st) n' d' f He) as [Hp'|Hd]; rewrite <- Hv in *; [|done].
    by destruct Hnin.
  - destruct (Hr n0 d0) as [Hp'|Hd]; [congruence| | |].
    + rewrite Hsv. naive_solver.
    + destruct Hnin. by apply Hp.
    + rewrite <- Hsv. transitivity (vval (ValTab st) n' d'); [by apply Hd|apply Hle].
Qed.

(** One step of the loop. *)
Lemma nextValue_respected st st' A :
  wf (JumpFn st) → nextValue ICF P st = Some st' → respected st A None →
  respected st' A None ∧ same_tables st st'.
Proof.
  unfold nextValue. intros Hwf Hnext Hr.
  destruct (ValuePropWL st) as [|[n d] wl] eqn:HWL; [done|]. injection Hnext as <-.
  set (st0 := set_ValuePropWL (λ _, wl) st).
  assert (same_tables st st0) as Hs0 by by destruct st.
  assert (∀ n d, val n d st0 = val n d st) as Hv0 by (intros; by destruct st).
  destruct (task_respected st0 A n d) as (Hr' & Hs' & Hext).
  - by rewrite (sm_JumpFn _ _ Hs0).
  - intros n0 d0 Hne Hact. rewrite Hv0 in *.
    destruct (Hr n0 d0) as [Hp|Hd]; [done|done| |].
    + left. rewrite HWL in Hp. apply elem_of_cons in Hp as [Heq|Hp]; [congruence|].
      unfold st0. by destruct st.
    + right. intros n' d' f He. rewrite !Hv0. apply Hd.
      apply (value_edge_same st0 st); [by apply same_tables_sym|done].
  - split; [|by transitivity st0]. intros n0 d0 Hne Hact. apply Hr'; [done|]. naive_solver.
Qed.

Lemma nextValue_same st st' :
  wf (JumpFn st) → nextValue ICF P st = Some st' → same_tables st st'.
Proof.
  unfold nextValue. intros Hwf Hnext.
  destruct (ValuePropWL st) as [|[n0 d0] wl]; [done|]. injection Hnext as <-.
  transitivity (set_ValuePropWL (λ _, wl) st); [by destruct st|].
  apply valuePropagationTask_propagates. by destruct st.
Qed.

Lemma nextValue_le st st' n d :
  wf (JumpFn st) → nextValue ICF P st = Some st' → val n d st ⊑ₗ val n d st'.
Proof.
  unfold nextValue. intros Hwf Hnext.
  destruct (ValuePropWL st) as [|[n0 d0] wl] eqn:HWL; [done|]. injection Hnext as <-.
  set (st0 := set_ValuePropWL (λ _, wl) st).
  assert (wf (JumpFn st0)) as Hwf0 by (unfold st0; by destruct st).
  destruct (valuePropagationTask_propagates ICF P n0 d0 st0 Hwf0) as [_ (l & _ & Hv)].
  pose proof (vrun_ext n0 d0 l (view st0)) as Hext. rewrite <- Hv in Hext.
  replace (val n d st) with (val n d st0) by by destruct st. rewrite !val_spec. apply Hext.
Qed.

(** ** The initial values *)

Lemma add_missing {V} (c : V) (l : list N) (m : gmap N V) n :
  for_each l (λ x m, match m !! x with Some _ => m | None => <[x := c]> m end) m !! n =
  match m !! n with Some v => Some v | None => if decide (n ∈ l) then Some c else None end.
Proof.
  revert m. induction l as [|x l IH]; intros m.
  { rewrite for_each_nil, decide_False by apply not_elem_of_nil. by destruct (m !! n). }
  rewrite for_each_cons, IH. destruct (m !! x) as [v|] eqn:Hx.
  - destruct (m !! n) eqn:Hn; [done|].
    destruct (decide (n ∈ l)), (decide (n ∈ x :: l)); try done; set_solver.
  - destruct (decide (x = n)) as [<-|Hne].
    + rewrite lookup_insert_eq, Hx. by rewrite decide_True by set_solver.
    + rewrite lookup_insert_ne by done. destruct (m !! n); [done|].
      destruct (decide (n ∈ l)), (decide (n ∈ x :: l)); try done; set_solver.
Qed.

Lemma AllSeeds_spec st n d l :
  let AllSeeds := for_each (elements (UnbalancedRetSites st)) (λ UnbalancedRetSite AllSeeds,
    match AllSeeds !! UnbalancedRetSite with
    | Some _ => AllSeeds
    | None => <[UnbalancedRetSite := {[ZeroValue P := top]}]> AllSeeds
    end) (Seeds st) in
  (∃ Facts, (n, Facts) ∈ map_to_list AllSeeds ∧ (d, l) ∈ map_to_list Facts) ↔ value_seed st n d l.
Proof.
  cbv zeta. setoid_rewrite elem_of_map_to_list. rewrite add_missing. unfold value_seed. split.
  - intros (Facts & HF & Hd). destruct (Seeds st !! n) as [Facts'|] eqn:Hn.
    + left. exists Facts'. split; [done|]. congruence.
    + right. destruct (decide _) as [Hin%elem_of_elements|]; [|done]. injection HF as <-.
      apply lookup_singleton_Some in Hd as [<- <-]. done.
  - intros [(Facts & -> & Hd)|(-> & Hin & -> & ->)]; [by exists Facts|].
    rewrite decide_True by by apply elem_of_elements. eexists. split; [done|].
    by apply lookup_singleton_Some.
Qed.

(** After the seeds in [A] have been submitted. *)
Record submitted st0 (A : N → D → L → Prop) st : Prop := {
  sb_same : same_tables st0 st;
  sb_respected : respected st (λ n d, ∃ l, A n d l) None;
  sb_seeds n d l : A n d l → l ⊑ₗ val n d st
}.

Lemma submitted_iff st0 A A' st :
  (∀ n d l, A n d l ↔ A' n d l) → submitted st0 A st → submitted st0 A' st.
Proof.
  intros HA [Hs Hr Hse]. split; [done| |].
  - intros n d Hne Hact. apply Hr; [done|]. by setoid_rewrite HA.
  - intros n d l. rewrite <- HA. apply Hse.
Qed.

Lemma val_setVal n d l st n' d' :
  val n' d' (setVal n d l st) = if decide (n = n' ∧ d = d') then l else val n' d' st.
Proof.
  rewrite !val_spec. replace (ValTab (setVal n d l st)) with (Table.insert (ValTab st) n d l)
    by by destruct st. apply vval_insert.
Qed.

Lemma setVal_same n d l st : same_tables st (setVal n d l st).
Proof. by destruct st. Qed.

Lemma submit_one st0 A st n d l :
  wf (JumpFn st0) → submitted st0 A st →
  submitted st0 (λ n' d' l', A n' d' l' ∨ (n' = n ∧ d' = d ∧ l' = l))
    (valuePropagationTask ICF P (n, d) (setVal n d (join l (val n d st)) st)).
Proof.
  intros Hwf [Hs Hr Hse]. set (st1 := setVal n d (join l (val n d st)) st).
  assert (same_tables st0 st1) as Hs1 by (transitivity st; [done|apply setVal_same]).
  assert (∀ n' d', val n' d' st ⊑ₗ val n' d' st1) as Hle.
  { intros n' d'. unfold st1. rewrite val_setVal.
    destruct (decide _) as [[<- <-]|_]; [apply join_ub_r|done]. }
  destruct (task_respected st1 (λ n d, ∃ l, A n d l) n d) as (Hr' & Hs' & Hext).
  - by rewrite (sm_JumpFn _ _ Hs1).
  - intros n0 d0 Hne Hact. assert (val n0 d0 st1 = val n0 d0 st) as Heq.
    { unfold st1. rewrite val_setVal, decide_False by naive_solver. done. }
    rewrite Heq in *. destruct (Hr n0 d0) as [Hp|Hd]; [done|done| |].
    + left. unfold st1. by destruct st.
    + right. intros n' d' f He. transitivity (val n' d' st); [|apply Hle]. apply Hd.
      apply (value_edge_same st1 st); [apply same_tables_sym, setVal_same|done].
  - set (st' := valuePropagationTask ICF P (n, d) st1) in *.
    assert (∀ n' d', val n' d' st1 ⊑ₗ val n' d' st') as Hle'.
    { intros. rewrite !val_spec. apply Hext. }
    split.
    + by transitivity st1.
    + intros n0 d0 Hne Hact. apply Hr'; [done|]. naive_solver.
    + intros n' d' l' [HA|(-> & -> & ->)]; (etransitivity; [|apply Hle']).
      * etransitivity; [by apply Hse|apply Hle].
      * unfold st1. rewrite val_setVal, decide_True by done. apply join_ub_l.
Qed.

Lemma submitInitialValues_submitted st :
  wf (JumpFn st) → respected st (λ _ _, False) None →
  submitted st (value_seed st) (submitInitialValues ICF P st).
Proof.
  intros Hwf Hr0. unfold submitInitialValues. cbv zeta. set (AllSeeds := for_each _ _ (Seeds st)).
  eapply submitted_iff; [intros n d l; apply (AllSeeds_spec st)|]. fold AllSeeds.
  apply (for_each_ind (λ ks, submitted st
    (λ n d l, ∃ Facts, (n, Facts) ∈ ks ∧ (d, l) ∈ map_to_list Facts))).
  { split; [done| |].
    - intros n d Hne Hact. apply Hr0; [done|]. destruct Hact as [(l & F0 & Hin & _)|?]; [|by right].
      by apply elem_of_nil in Hin.
    - intros n d l (F0 & Hin & _). by apply elem_of_nil in Hin. }
  intros ks [SP Facts] st1 _ Hst1.
  eapply (submitted_iff _ (λ n d l, (∃ Facts, (n, Facts) ∈ ks ∧ (d, l) ∈ map_to_list Facts) ∨
    (n = SP ∧ (d, l) ∈ map_to_list Facts))).
  { intros n d l. setoid_rewrite elem_of_app. setoid_rewrite list_elem_of_singleton.
    split; [intros [(F0 & ? & ?)|[-> ?]]; eauto|].
    intros (F0 & [?|[= -> ->]] & ?); eauto. }
  apply (for_each_ind (λ kd, submitted st (λ n d l,
    (∃ Facts, (n, Facts) ∈ ks ∧ (d, l) ∈ map_to_list Facts) ∨ (n = SP ∧ (d, l) ∈ kd)))).
  { eapply submitted_iff; [|exact Hst1]. intros. split; [by left|].
    intros [?|[_ Hin]]; [done|by apply elem_of_nil in Hin]. }
  intros kd [Fact SeedValue] st2 _ Hst2.
  eapply submitted_iff; [|apply submit_one; [done|exact Hst2]].
  intros n d l. simpl. rewrite elem_of_app, list_elem_of_singleton. naive_solver.
Qed.

(** ** The loop of [computeValues] *)

Lemma submitInitialValues_start st :
  wf (JumpFn st) → ValTab st = ∅ →
  submitted st (value_seed st) (submitInitialValues ICF P st).
Proof.
  intros Hwf HT. apply submitInitialValues_submitted; [done|]. intros n d _ [[]|Hne].
  destruct Hne. rewrite val_spec, HT. unfold vval. by rewrite table_lookup_empty.
Qed.

Lemma propagation_solution st fuel st' :
  wf (JumpFn st) → ValTab st = ∅ → while_next (nextValue ICF P) fuel (submitInitialValues ICF P st) = Some st' →
  same_tables st st' ∧ value_solution st' (λ n d, val n d st').
Proof.
  intros Hwf HT Hw.
  destruct (submitInitialValues_start st Hwf HT) as [Hs0 Hr0 Hse0].
  destruct (while_next_inv (nextValue ICF P) (λ s, same_tables st s ∧
    respected s (λ n d, ∃ l, value_seed st n d l) None ∧
    ∀ n d l, value_seed st n d l → l ⊑ₗ val n d s) fuel
    (submitInitialValues ICF P st) st') as [(Hs & Hr & Hse) Hend]; [|done|done|].
  { intros s s' Hnext (Hs & Hr & Hse).
    assert (wf (JumpFn s)) as Hwf' by by rewrite (sm_JumpFn _ _ Hs).
    destruct (nextValue_respected s s' _ Hwf' Hnext Hr) as [Hr' Hs'].
    split; [by transitivity s|]. split; [done|].
    intros n d l Hl. etransitivity; [by apply Hse|]. by eapply nextValue_le. }
  split; [done|]. assert (∀ n d l, value_seed st' n d l ↔ value_seed st n d l) as Hseed.
  { intros n d l. unfold value_seed. by destruct Hs as [_ -> ->]. }
  split.
  - intros n d l Hl. by apply Hse, Hseed.
  - intros n d n' d' f Hact He. destruct (Hr n d) as [Hp|Hd]; [done| | |by apply Hd].
    + destruct Hact as [(l & Hl)|?]; [left; exists l; by apply Hseed|by right].
    + unfold nextValue in Hend. destruct (ValuePropWL st'); [|done]. by apply elem_of_nil in Hp.
Qed.

(** ** Values stay below every solution *)

Definition values_below st (V : N → D → L) : Prop :=
  (∀ n d, val n d st ⊑ₗ V n d) ∧ pending_valued (view st).

Context `{!MonotoneEdgeFunctions L EF}.

Lemma value_solution_same st st' V :
  same_tables st st' → value_solution st V → value_solution st' V.
Proof.
  intros Hs [Hse He]. assert (∀ n d l, value_seed st' n d l → value_seed st n d l) as Hseed.
  { intros n d l. unfold value_seed. destruct Hs as [_ -> ->]. done. }
  split; [by eauto|]. intros n d n' d' f Hact Hve.
  apply He; [|eapply value_edge_same; [by apply same_tables_sym|done]].
  destruct Hact as [(l & Hl)|?]; [left; eauto|by right].
Qed.

Lemma task_below st V n d :
  wf (JumpFn st) → value_solution st V → values_below st V →
  (∃ l, value_seed st n d l) ∨ V n d ≠ top →
  values_below (valuePropagationTask ICF P (n, d) st) V.
Proof.
  intros Hwf [_ HV] [Hb Hp] Hact. unfold values_below in *. setoid_rewrite val_spec.
  setoid_rewrite val_spec in Hb.
  destruct (valuePropagationTask_propagates ICF P n d st Hwf) as [Hsame (l & Hl & Hv)].
  split.
  - change (ValTab ?s) with (view s).1. rewrite Hv. apply vrun_below; [done|].
    intros n' d' f x Hin%Hl Hx. transitivity (computeTarget f (V n d)).
    + by apply computeTarget_mono.
    + by apply HV.
  - rewrite Hv. by apply vrun_pending.
Qed.

Lemma nextValue_below st st' V :
  wf (JumpFn st) → nextValue ICF P st = Some st' → value_solution st V →
  values_below st V → values_below st' V.
Proof.
  unfold nextValue. intros Hwf Hnext HV [Hb Hp].
  destruct (ValuePropWL st) as [|[n d] wl] eqn:HWL; [done|]. injection Hnext as <-.
  set (st0 := set_ValuePropWL (λ _, wl) st).
  assert (same_tables st st0) as Hs0 by by destruct st.
  assert (∀ n d, val n d st0 = val n d st) as Hv0 by (intros; by destruct st).
  assert (V n d ≠ top) as Hne.
  { intros Heq. apply (Hp n d); [simpl; rewrite HWL; set_solver|].
    apply le_top_inv. rewrite <- Heq. change (ValTab st) with (view st).1 in *.
    specialize (Hb n d). by rewrite val_spec in Hb. }
  apply task_below; [by rewrite (sm_JumpFn _ _ Hs0)|by eapply value_solution_same| |by right].
  split; [intros; by rewrite Hv0|]. intros n0 d0 Hin.
  assert (view st0 = (ValTab st, wl)) as Hview by by destruct st.
  rewrite Hview in *. simpl in *. apply (Hp n0 d0). simpl. rewrite HWL. set_solver.
Qed.

Lemma submitInitialValues_below st V :
  wf (JumpFn st) → ValTab st = ∅ → ValuePropWL st = [] → value_solution st V →
  values_below (submitInitialValues ICF P st) V.
Proof.
  intros Hwf HT HW HV. unfold submitInitialValues. cbv zeta.
  set (AllSeeds := for_each _ _ (Seeds st)).
  enough (same_tables st (submitInitialValues ICF P st) ∧
          values_below (submitInitialValues ICF P st) V) by tauto.
  unfold submitInitialValues. cbv zeta. fold AllSeeds.
  apply (for_each_inv (λ s, same_tables st s ∧ values_below s V)).
  { split; [done|]. split.
    - intros n d. rewrite val_spec, HT. unfold vval. rewrite table_lookup_empty. apply lat_le_top.
    - intros n d. simpl. rewrite HW. by intros ?%elem_of_nil. }
  intros [SP Facts] s1 HSP H1'. apply (for_each_inv (λ s, same_tables st s ∧ values_below s V));
    [done|].
  intros [d l] s2 Hd [Hs [Hb Hp]].
  assert (value_seed st SP d l) as Hseed by (apply (AllSeeds_spec st); eauto).
  set (s3 := setVal SP d _ s2).
  assert (same_tables st s3) as Hs3 by (transitivity s2; [done|apply setVal_same]).
  assert (wf (JumpFn s3)) as Hwf3 by by rewrite (sm_JumpFn _ _ Hs3).
  split.
  - transitivity s3; [done|]. apply (valuePropagationTask_propagates ICF P SP d s3 Hwf3).
  - apply task_below; [done|by eapply value_solution_same| |].
    + split.
      * intros n' d'. unfold s3. rewrite val_setVal. destruct (decide _) as [[<- <-]|_]; [|done].
        apply join_lub. split; [by apply (vs_seed _ _ HV)|done].
      * intros n' d'. assert (view s3 = (Table.insert (ValTab s2) SP d (join l (val SP d s2)),
          ValuePropWL s2)) as -> by (unfold s3; by destruct s2). simpl. rewrite vval_insert.
        intros Hin. specialize (Hp n' d' Hin). simpl in Hp.
        destruct (decide _) as [[<- <-]|_]; [|done]. intros Htop. apply Hp, le_top_inv.
        rewrite <- Htop, val_spec. apply join_ub_r.
    + left. exists l. by unfold value_seed in *; destruct Hs3 as [_ -> ->].
Qed.

Lemma propagation_below st fuel st' V :
  wf (JumpFn st) → ValTab st = ∅ → ValuePropWL st = [] → value_solution st V →
  while_next (nextValue ICF P) fuel (submitInitialValues ICF P st) = Some st' →
  ∀ n d, val n d st' ⊑ₗ V n d.
Proof.
  intros Hwf HT HWL HV Hw.
  destruct (while_next_inv (nextValue ICF P) (λ s, same_tables st s ∧ values_below s V) fuel
    (submitInitialValues ICF P st) st') as [[_ [Hb _]] _]; [| |done|done].
  - intros s s' Hnext [Hs Hb].
    assert (wf (JumpFn s)) as Hwf' by by rewrite (sm_JumpFn _ _ Hs).
    split; [|by eapply nextValue_below; [| |by eapply value_solution_same|]].
    transitivity s; [done|].
    by eapply nextValue_same.
  - split; [apply submitInitialValues_start; done | by apply submitInitialValues_below].
Qed.
End values.

(** * The first phase leaves the values alone *)

Section values_frame.
Context {N D F L EF : Type} `{Countable N, Countable D, EqDecision EF, EqDecision L}.
Context `{JoinLatticeTraits L, !SemiRing L EF}.
Context (ICF : ICFG N D F) (P : IDETabulationProblem N D F L EF).
Abbreviation State := (IDESolver N D F L EF).
Implicit Types (st s : State).

Definition no_values st : Prop := ValTab st = ∅ ∧ ValuePropWL st = [].

(** A setter of another field. *)
Lemma no_values_same st s :
  ValTab s = ValTab st → ValuePropWL s = ValuePropWL st → no_values st → no_values s.
Proof. unfold no_values. by intros -> ->. Qed.

Lemma nv_emplace_back E f st : no_values st → no_values (emplace_back E f st).
Proof. apply no_values_same; by destruct st. Qed.
Lemma nv_pushIntermediate a b c d f st : no_values st → no_values (pushIntermediate a b c d f st).
Proof. apply no_values_same; by destruct st. Qed.
Lemma nv_saveEdges a b c d k st : no_values st → no_values (saveEdges P a b c d k st).
Proof. unfold saveEdges. apply no_values_same; repeat case_match; by destruct st. Qed.
Lemma nv_addEndSummary a b c d f st : no_values st → no_values (addEndSummary a b c d f st).
Proof. apply no_values_same; by destruct st. Qed.
Lemma nv_addIncoming a b c d st : no_values st → no_values (addIncoming a b c d st).
Proof. apply no_values_same; by destruct st. Qed.
Lemma nv_endSummary a b st : no_values st → no_values (endSummary a b st).2.
Proof. unfold endSummary. destruct (Table.get _ _ _ _). apply no_values_same; by destruct st. Qed.
Lemma nv_incoming a b st : no_values st → no_values (incoming a b st).2.
Proof. unfold incoming. destruct (Table.get _ _ _ _). apply no_values_same; by destruct st. Qed.
Lemma nv_UnbalancedRetSites f st : no_values st → no_values (set_UnbalancedRetSites f st).
Proof. apply no_values_same; by destruct st. Qed.
Lemma nv_UnbalancedSideEffects f st : no_values st → no_values (set_UnbalancedSideEffects f st).
Proof. apply no_values_same; by destruct st. Qed.
Lemma nv_JumpFn f st : no_values st → no_values (set_JumpFn f st).
Proof. apply no_values_same; by destruct st. Qed.
Lemma nv_PathEdgeCount f st : no_values st → no_values (set_PathEdgeCount f st).
Proof. apply no_values_same; by destruct st. Qed.
Lemma nv_WorkList f st : no_values st → no_values (set_WorkList f st).
Proof. apply no_values_same; by destruct st. Qed.
Lemma nv_Seeds f st : no_values st → no_values (set_Seeds f st).
Proof. apply no_values_same; by destruct st. Qed.
Lemma nv_for_each {A} (l : list A) (body : A → State → State) st :
  (∀ x s, no_values s → no_values (body x s)) → no_values st → no_values (for_each l body st).
Proof. intros Hb Hst. apply for_each_inv; auto. Qed.
End values_frame.

#[local] Hint Resolve nv_emplace_back nv_pushIntermediate nv_saveEdges nv_addEndSummary
  nv_addIncoming nv_UnbalancedRetSites nv_UnbalancedSideEffects nv_JumpFn nv_PathEdgeCount
  nv_WorkList nv_Seeds : no_values.

(** Loops and conditionals over operations that keep [no_values]. *)
Ltac no_values_loop :=
  repeat first
    [ solve [auto 3 with no_values]
    | apply nv_for_each; [intros|]; cbv beta zeta
    | case_match
    | apply nv_emplace_back | apply nv_pushIntermediate | apply nv_UnbalancedRetSites
    | apply nv_UnbalancedSideEffects ].

Section values_frame_ops.
Context {N D F L EF : Type} `{Countable N, Countable D, EqDecision EF, EqDecision L}.
Context `{JoinLatticeTraits L, !SemiRing L EF}.
Context (ICF : ICFG N D F) (P : IDETabulationProblem N D F L EF).
Abbreviation State := (IDESolver N D F L EF).
Implicit Types (st s : State).

Lemma nv_processNormalFlow E st : no_values st → no_values (processNormalFlow ICF P E st).
Proof. intros Hst. unfold processNormalFlow. no_values_loop. Qed.

Lemma nv_processCall_endSummary d1 n d2 f Fun Rets C d3 e st :
  no_values st → no_values (processCall_endSummary ICF P d1 n d2 f Fun Rets C d3 e st).
Proof. intros Hst. unfold processCall_endSummary. destruct e as [[eP d4] fs]. no_values_loop. Qed.

Lemma nv_processCall_startPoint d1 n d2 f Fun Rets C Res SP st :
  no_values st → no_values (processCall_startPoint ICF P d1 n d2 f Fun Rets C Res SP st).
Proof.
  intros Hst. unfold processCall_startPoint. apply nv_for_each; [|by apply nv_saveEdges].
  intros d3 s Hs. cbv zeta.
  pose proof (nv_endSummary SP d3 (addIncoming SP d3 n d2 (emplace_back (mkPathEdge d3 SP d3)
    identity s))) as He. destruct (endSummary SP d3 _) as [Entries s']. simpl in He.
  apply nv_for_each; [|by auto with no_values]. intros. by apply nv_processCall_endSummary.
Qed.

Lemma nv_processCall E st : no_values st → no_values (processCall ICF P E st).
Proof.
  intros Hst. unfold processCall. cbv zeta.
  destruct (for_each _ _ (true, st)) as [b s] eqn:Hs.
  assert (no_values s) as Hnv.
  { replace s with (b, s).2 by done. rewrite <- Hs.
    apply (for_each_inv (λ bst : bool * State, no_values bst.2)); [done|].
    intros Callee [b0 s0] _ Hs0. unfold processCall_callee. case_match; simpl.
    - unfold processCall_summary. no_values_loop.
    - apply (for_each_inv (λ bst : bool * State, no_values bst.2)); [done|].
      intros SP [b1 s1] _ Hs1. by apply nv_processCall_startPoint. }
  unfold processCall_callToRet. clear Hs. no_values_loop.
Qed.

Lemma nv_processExit E st : no_values st → no_values (processExit ICF P E st).
Proof.
  intros Hst. unfold processExit. cbv zeta.
  destruct (processExit_incoming _ _ _ _ _ st) as [Inc s] eqn:Hs.
  assert (no_values s) as Hnv.
  { replace s with (Inc, s).2 by done. rewrite <- Hs. unfold processExit_incoming.
    apply (for_each_inv (λ r : gmap N (gset D) * State, no_values r.2)); [done|].
    intros SP [Inc0 s0] _ Hs0. cbv zeta.
    pose proof (nv_incoming (factAtSource E) SP (addEndSummary SP (factAtSource E) (getTarget E)
      (factAtTarget E) (jumpFunction E st) s0)) as Hi.
    destruct (incoming _ _ _) as [m s1]. simpl in *. by apply Hi, nv_addEndSummary. }
  assert (no_values (for_each (map_to_list Inc) (processExit_call ICF P (factAtSource E)
    (getTarget E) (factAtTarget E) (jumpFunction E st) (getFunctionOf ICF (getTarget E))) s))
    as Hcalls.
  { clear Hs. apply nv_for_each; [|done]. intros [c S] s0 Hs0.
    unfold processExit_call, processExit_propagate. no_values_loop. }
  destruct (_ && _); [|done]. unfold processExit_unbalanced, propagteUnbalancedReturnFlow.
  cbv zeta. case_match; [apply nv_UnbalancedSideEffects|]; clear Hs; no_values_loop.
Qed.

Lemma nv_doNext st st' : doNext ICF P st = Some st' → no_values st → no_values st'.
Proof.
  unfold doNext. destruct (WorkList st) as [|[E f] wl]; [done|]. intros [= <-] Hst.
  unfold propagate. cbv zeta. case_decide; [|by apply nv_WorkList].
  unfold pathEdgeProcessingTask. repeat case_match; eauto 8 using nv_processCall, nv_processExit,
    nv_processNormalFlow with no_values.
Qed.

Lemma solveImpl_no_values fuel st : solveImpl ICF P fuel = Some st → no_values st.
Proof.
  unfold solveImpl. intros Hs.
  apply (while_next_inv (doNext ICF P) no_values fuel _ _ nv_doNext) in Hs as [Hs _]; [done|].
  unfold doInitialize, submitInitialSeeds. cbv zeta.
  assert (no_values (initialState P)) as H0' by done.
  apply nv_for_each; [|apply nv_for_each; [|done]].
  - intros [SP Facts] s Hs0. apply nv_for_each; [|done]. intros [d l] s1 Hs1. by apply nv_emplace_back.
  - intros [SP Facts] s Hs0. case_match; [done|]. by apply nv_Seeds.
Qed.
End values_frame_ops.

(** * The values of the other nodes *)

Section computation.
Context {N D F L EF : Type} `{Countable N, Countable D, EqDecision EF, EqDecision L}.
Context `{JoinLatticeTraits L, !JoinLatticeLaws L, !SemiRing L EF}.
Context (ICF : ICFG N D F) (P : IDETabulationProblem N D F L EF).
Abbreviation State := (IDESolver N D F L EF).
Implicit Types (st : State).
Local Open Scope phasar_scope.

(** What the jump functions contribute to the value of [(n, d)]. *)
Definition contribution st (n : N) (d : D) (x : L) : Prop :=
  ∃ SP dPrime f, SP ∈ getStartPointsOf ICF (getFunctionOf ICF n) ∧
    jf_lookup (JumpFn st) dPrime n d = Some f ∧ x = computeTarget f (val SP dPrime st).

(** [st'] has, at every node, the join of the value of [st] and of [C]. *)
Record joined_values st (C : N → D → L → Prop) st' : Prop := {
  jv_wf : wf (JumpFn st');
  jv_JumpFn d n d' : jf_lookup (JumpFn st') d n d' = jf_lookup (JumpFn st) d n d';
  jv_val n d k : val n d st' ⊑ₗ k ↔ val n d st ⊑ₗ k ∧ ∀ x, C n d x → x ⊑ₗ k
}.

Lemma joined_values_iff st C C' st' :
  (∀ n d x, C n d x ↔ C' n d x) → joined_values st C st' → joined_values st C' st'.
Proof.
  intros HC [Hw HJ Hv]. split; [done..|]. intros n d k. rewrite Hv. by setoid_rewrite HC.
Qed.

Lemma joined_values_same st C st' n d :
  joined_values st C st' → (∀ x, ¬ C n d x) → val n d st' = val n d st.
Proof.
  intros [_ _ Hv] Hno. apply (anti_symm lat_le).
  - apply (Hv n d). split; [done|]. intros x Hx. by destruct (Hno x).
  - by destruct (proj1 (Hv n d (val n d st'))).
Qed.

Lemma joined_values_set st C st' n d x :
  joined_values st C st' →
  joined_values st (λ n' d' x', C n' d' x' ∨ (n' = n ∧ d' = d ∧ x' = x))
    (setVal n d (join (val n d st') x) st').
Proof.
  intros [Hw HJ Hv]. assert (JumpFn (setVal n d (join (val n d st') x) st') = JumpFn st') as HJ'
    by by destruct st'.
  split; [by rewrite HJ'|by intros; rewrite HJ'|]. intros n' d' k. rewrite val_setVal.
  destruct (decide (n = n' ∧ d = d')) as [[<- <-]|Hne].
  - rewrite join_lub, Hv. split; [|by naive_solver].
    intros [[? ?] ?]. split; [done|]. intros x' [?|(_ & _ & ->)]; auto.
  - rewrite Hv. split; intros [? Hx]; (split; [done|]); intros x' Hx'; apply Hx; [|by left].
    destruct Hx' as [?|(-> & -> & _)]; [done|naive_solver].
Qed.

(** The cells of one node, the values of its start point being final. *)
Lemma cells_joined st C st' n SP (cells : list (D * D * EF)) :
  (∀ d x, ¬ C SP d x) → SP ≠ n → joined_values st C st' →
  joined_values st (λ n' d' x, C n' d' x ∨ (n' = n ∧ ∃ dPrime f,
      (dPrime, d', f) ∈ cells ∧ x = computeTarget f (val SP dPrime st)))
    (for_each cells (λ '(dPrime, d, fPrime) st,
      let TargetVal := val SP dPrime st in
      setVal n d (join (val n d st) (computeTarget fPrime TargetVal)) st) st').
Proof.
  intros HC Hne Hst'.
  apply (for_each_ind (λ cs, joined_values st (λ n' d' x, C n' d' x ∨ (n' = n ∧ ∃ dPrime f,
    (dPrime, d', f) ∈ cs ∧ x = computeTarget f (val SP dPrime st))))).
  { eapply joined_values_iff; [|exact Hst']. intros n0 d0 x. split; [by left|].
    intros [?|(_ & ? & ? & Hin & _)]; [done|by apply elem_of_nil in Hin]. }
  intros cs [[dPrime d] f] s _ Hs. cbv zeta.
  rewrite (joined_values_same _ _ _ SP dPrime Hs).
  2:{ intros x [Hx|[-> _]]; [by eapply HC|done]. }
  eapply joined_values_iff; [|by apply joined_values_set]. intros n0 d0 x. simpl.
  setoid_rewrite elem_of_app. setoid_rewrite list_elem_of_singleton. naive_solver.
Qed.

Lemma valueComputationTask_joined Values st :
  wf (JumpFn st) →
  (∀ n SP, n ∈ Values → SP ∈ getStartPointsOf ICF (getFunctionOf ICF n) → SP ∉ Values) →
  joined_values st (λ n d x, n ∈ Values ∧ contribution st n d x)
    (valueComputationTask ICF Values st).
Proof.
  intros Hwf HSP. unfold valueComputationTask.
  apply (for_each_ind (λ ks s, (∀ n, n ∈ ks → n ∈ Values) ∧
    joined_values st (λ n d x, n ∈ ks ∧ contribution st n d x) s)).
  { split; [set_solver|]. split; [done..|]. intros n d k.
    split; [|tauto]. intros ?. split; [done|]. by intros x [?%elem_of_nil _]. }
  intros ks n s Hn [Hks Hs]. split; [intros n0; rewrite elem_of_app, list_elem_of_singleton;
    by intros [?| ->]; auto|].
  eapply (joined_values_iff _ (λ n' d' x, (n' ∈ ks ∧ contribution st n' d' x) ∨
    (n' = n ∧ ∃ SP dPrime f, SP ∈ getStartPointsOf ICF (getFunctionOf ICF n) ∧
      jf_lookup (JumpFn st) dPrime n d' = Some f ∧ x = computeTarget f (val SP dPrime st)))).
  { intros n0 d0 x. unfold contribution. rewrite elem_of_app, list_elem_of_singleton.
    naive_solver. }
  apply (for_each_ind (λ sps, joined_values st (λ n' d' x, (n' ∈ ks ∧ contribution st n' d' x) ∨
    (n' = n ∧ ∃ SP dPrime f, SP ∈ sps ∧
      jf_lookup (JumpFn st) dPrime n d' = Some f ∧ x = computeTarget f (val SP dPrime st))))).
  { eapply joined_values_iff; [|exact Hs]. intros n0 d0 x. split; [by left|].
    intros [?|(_ & ? & ? & ? & Hin & _)]; [done|by apply elem_of_nil in Hin]. }
  intros sps SP s1 HSPin Hs1. clear Hs. cbv zeta.
  assert (SP ∉ Values) as HnV by by apply (HSP n).
  assert (SP ≠ n) as Hne by (intros ->; done).
  pose proof (jv_wf _ _ _ Hs1) as Hwf1. pose proof (jv_JumpFn _ _ _ Hs1) as HJ1.
  destruct (lookupByTarget n (JumpFn s1)) as [cells jf] eqn:Hlk.
  assert (jf = (lookupByTarget n (JumpFn s1)).2) as -> by by rewrite Hlk.
  assert (∀ dPrime d f, (dPrime, d, f) ∈ Table.cellVec cells ↔
    jf_lookup (JumpFn st) dPrime n d = Some f) as Hcells.
  { intros. rewrite table_cellVec_elem, <- HJ1, <- (lookupByTarget_spec n _ _ _ Hwf1). by rewrite Hlk. }
  eapply joined_values_iff; [|apply cells_joined with
    (C := λ n' d' x, (n' ∈ ks ∧ contribution st n' d' x) ∨ (n' = n ∧ ∃ SP dPrime f, SP ∈ sps ∧
      jf_lookup (JumpFn st) dPrime n d' = Some f ∧ x = computeTarget f (val SP dPrime st)))].
  - intros n0 d0 x. simpl. setoid_rewrite elem_of_app. setoid_rewrite list_elem_of_singleton.
    setoid_rewrite Hcells. naive_solver.
  - intros d x [[Hin _]|[Heq _]]; [by apply HnV, Hks|done].
  - done.
  - destruct Hs1 as [_ _ Hv]. assert (∀ n d, val n d (set_JumpFn
      (λ _, (lookupByTarget n (JumpFn s1)).2) s1) = val n d s1) as Hval by by destruct s1.
    split.
    + replace (JumpFn (set_JumpFn _ s1)) with (lookupByTarget n (JumpFn s1)).2 by by destruct s1.
      by apply wf_lookupByTarget.
    + replace (JumpFn (set_JumpFn _ s1)) with (lookupByTarget n (JumpFn s1)).2 by by destruct s1.
      intros. by rewrite jf_lookup_lookupByTarget.
    + intros n0 d0 k. rewrite <- Hv. by destruct s1.
Qed.
End computation.

(** * Termination of the value propagation *)

(** Ascending chains of values are bounded by a height. *)
Class LatticeHeight (L : Type) `{JoinLatticeTraits L} := {
  lat_height : L → nat;
  lat_height_lt x y : lat_le x y → x ≠ y → lat_height y < lat_height x
}.

Section value_termination.
Context {N D F L EF : Type} `{Countable N, Countable D, EqDecision EF, EqDecision L}.
Context `{JoinLatticeTraits L, !JoinLatticeLaws L, !LatticeHeight L, !SemiRing L EF}.
Context (ICF : ICFG N D F) (P : IDETabulationProblem N D F L EF).
Abbreviation State := (IDESolver N D F L EF).
Abbreviation vstate := (vstate (N := N) (D := D) (L := L)).
Implicit Types (st : State) (v : vstate).
Local Open Scope phasar_scope.

(** The nodes whose values can be propagated lie in the finite set [U]. *)
Definition finite_values st (U : gset (N * D)) : Prop :=
  (∀ n d l, value_seed P st n d l → (n, d) ∈ U) ∧
  ∀ n d n' d' f, (n, d) ∈ U → value_edge ICF P st n d n' d' f → (n', d') ∈ U.

Definition vpotential (U : gset (N * D)) v : nat :=
  sum_of (λ x, lat_height (vval v.1 x.1 x.2)) (elements U).

Definition pending_in (U : gset (N * D)) v : Prop := ∀ x, x ∈ v.2 → x ∈ U.

Lemma vprop_measure U n d l v :
  (n, d) ∈ U → vprop n d l v = v ∨ vpotential U (vprop n d l v) < vpotential U v.
Proof.
  intros Hin. destruct (decide (join (vval v.1 n d) l ≠ vval v.1 n d)) as [Hne|Heq].
  - right. apply (sum_of_lt _ _ _ (n, d)); simpl.
    + by apply elem_of_elements.
    + rewrite vprop_vval, decide_True by done. apply lat_height_lt; [apply join_ub_l|congruence].
    + intros [n' d']. simpl. rewrite vprop_vval. destruct (decide _) as [[<- <-]|_]; [|done].
      apply Nat.lt_le_incl, lat_height_lt; [apply join_ub_l|congruence].
  - left. unfold vprop. cbv zeta. by rewrite decide_False.
Qed.

Lemma vprop_pending_in U n d l v : (n, d) ∈ U → pending_in U v → pending_in U (vprop n d l v).
Proof.
  intros Hin Hp x. unfold vprop. cbv zeta. destruct (decide _); simpl; [|apply Hp].
  intros [->|Hx]%elem_of_cons; [done|by apply Hp].
Qed.

Lemma vrun_measure U n d l v :
  (∀ n' d' f, (n', d', f) ∈ l → (n', d') ∈ U) → pending_in U v →
  pending_in U (vrun n d l v) ∧
  (vrun n d l v = v ∨ vpotential U (vrun n d l v) < vpotential U v).
Proof.
  intros Hl Hp. unfold vrun. apply (for_each_inv (λ v', pending_in U v' ∧
    (v' = v ∨ vpotential U v' < vpotential U v))); [by split; [|left]|].
  intros [[n' d'] f] v' Hin [Hp' Hm]. specialize (Hl _ _ _ Hin).
  split; [by apply vprop_pending_in|].
  destruct (vprop_measure U n' d' (computeTarget f (vval v'.1 n d)) v' Hl) as [->|Hlt]; [done|].
  right. destruct Hm as [->|Hm]; [done|lia].
Qed.

Lemma finite_values_same st st' U : same_tables st st' → finite_values st U → finite_values st' U.
Proof.
  intros Hs [Hse He]. split.
  - intros n d l Hl. apply (Hse n d l). unfold value_seed in *. by destruct Hs as [_ <- <-].
  - intros n d n' d' f Hin Hve. eapply He; [exact Hin|].
    eapply value_edge_same; [by apply same_tables_sym|done].
Qed.

(** The task of a node of the universe. *)
Lemma task_measure U st n d :
  wf (JumpFn st) → finite_values st U → (n, d) ∈ U → pending_in U (view st) →
  let st' := valuePropagationTask ICF P (n, d) st in
  pending_in U (view st') ∧ same_tables st st' ∧
  (view st' = view st ∨ vpotential U (view st') < vpotential U (view st)).
Proof.
  intros Hwf [_ HU] Hin Hp. cbv zeta.
  destruct (valuePropagationTask_propagates ICF P n d st Hwf) as [Hs (l & Hl & ->)].
  destruct (vrun_measure U n d l (view st)) as [Hp' Hm]; [|done|done].
  intros n' d' f Hx%Hl. by eapply HU.
Qed.

Lemma nextValue_measure U st st' :
  wf (JumpFn st) → finite_values st U → pending_in U (view st) → nextValue ICF P st = Some st' →
  same_tables st st' ∧ pending_in U (view st') ∧
  (vpotential U (view st') < vpotential U (view st) ∨
   (vpotential U (view st') = vpotential U (view st) ∧
    length (ValuePropWL st') < length (ValuePropWL st))).
Proof.
  unfold nextValue. intros Hwf HU Hp Hnext.
  destruct (ValuePropWL st) as [|[n d] wl] eqn:HWL; [done|]. injection Hnext as <-.
  set (st0 := set_ValuePropWL (λ _, wl) st).
  assert (same_tables st st0) as Hs0 by by destruct st.
  assert (view st0 = (ValTab st, wl)) as Hv0 by by destruct st.
  assert (∀ x, x ∈ (n, d) :: wl → x ∈ U) as Hin.
  { intros x Hx. apply Hp. simpl. by rewrite HWL. }
  destruct (task_measure U st0 n d) as (Hp' & Hs' & Hm).
  - by rewrite (sm_JumpFn _ _ Hs0).
  - by eapply finite_values_same.
  - apply Hin. set_solver.
  - rewrite Hv0. intros x Hx. apply Hin. by right.
  - split; [by transitivity st0|]. split; [done|]. rewrite Hv0 in Hm.
    assert (vpotential U (ValTab st, wl) = vpotential U (view st)) as Hpot by done.
    destruct Hm as [Hm|Hm]; [right|left; lia]. split; [by rewrite Hm|].
    change (ValuePropWL ?s) with (view s).2 at 1. rewrite Hm. simpl. lia.
Qed.

Lemma submitInitialValues_pending U st :
  wf (JumpFn st) → finite_values st U → pending_in U (view st) →
  same_tables st (submitInitialValues ICF P st) ∧ pending_in U (view (submitInitialValues ICF P st)).
Proof.
  intros Hwf HU Hp. unfold submitInitialValues. cbv zeta. set (AllSeeds := for_each _ _ (Seeds st)).
  apply (for_each_inv (λ s, same_tables st s ∧ pending_in U (view s))); [done|].
  intros [SP Facts] s1 HSP H1'.
  apply (for_each_inv (λ s, same_tables st s ∧ pending_in U (view s))); [done|].
  intros [d l] s2 Hd [Hs Hp2].
  assert (value_seed P st SP d l) as Hseed by (apply (proj1 (AllSeeds_spec P st SP d l)); eauto).
  set (s3 := setVal SP d _ s2).
  assert (same_tables st s3) as Hs3 by (transitivity s2; [done|apply setVal_same]).
  destruct (task_measure U s3 SP d) as (Hp' & Hs' & _).
  - by rewrite (sm_JumpFn _ _ Hs3).
  - by eapply finite_values_same.
  - by apply (proj1 HU SP d l).
  - intros x. unfold s3. destruct s2. apply Hp2.
  - split; [by transitivity s3|done].
Qed.

Lemma computeValues_terminates U st :
  wf (JumpFn st) → finite_values st U → ValuePropWL st = [] →
  ∃ fuel st', ∀ fuel', fuel ≤ fuel' → IDESolver.computeValues ICF P fuel' st = Some st'.
Proof.
  intros Hwf HU HW.
  assert (pending_in U (view st)) as Hp by (intros x; simpl; rewrite HW; by intros ?%elem_of_nil).
  destruct (submitInitialValues_pending U st Hwf HU Hp) as [Hs0 Hp0].
  destruct (while_next_terminates (nextValue ICF P)
    (λ s, same_tables st s ∧ pending_in U (view s)) (λ s, vpotential U (view s))
    (λ s, length (ValuePropWL s)) (submitInitialValues ICF P st)) as (fuel & s & Hw); [|done|].
  - intros s s' [Hs Hps] Hnext.
    destruct (nextValue_measure U s s') as (Hs' & Hp' & Hm);
      [by rewrite (sm_JumpFn _ _ Hs)|by eapply finite_values_same|done|done|].
    split; [|done]. split; [by transitivity s|done].
  - exists fuel, (valueComputationTask ICF (allNonCallStartNodes ICF) s). intros fuel' Hle.
    unfold IDESolver.computeValues. by rewrite (while_next_fuel _ _ _ _ _ Hw Hle).
Qed.
End value_termination.
