(* ===== verification/SolverResults.v ===== *)
(** [SolverResults] and [OwningSolverResults] (DataFlow/IfdsIde/SolverResults.h):
    queries on the table of values the solver has computed. The string output of
    [dumpResults] and the queries at LLVM instructions are not modelled. *)
From S2P Require Import Prelude JoinLattice Table.

(** The table of results and the zero value. [getDefaultValue<l_t>()], the
    value-initialised [l_t] that lookups fall back to, is a parameter. *)
Record SolverResults (N D L : Type) `{Countable N, Countable D} := mkSolverResults {
  Results : Table N D L;
  ZV : D
}.
Arguments mkSolverResults {N D L _ _ _ _} _ _.
Arguments Results {N D L _ _ _ _} _.
Arguments ZV {N D L _ _ _ _} _.

Section SolverResults.
Context {N D L : Type} `{Countable N, Countable D}.
Context (defaultValue : L).
Implicit Types (self : SolverResults N D L) (Stmt : N) (Node : D).

Definition resultAt self Stmt Node : L := Table.getOrDefault defaultValue (Results self) Stmt Node.

(** [row(Stmt)], [resultsAt(Stmt)]. *)
Definition row self Stmt : gmap D L := Table.row (Results self) Stmt.

Definition resultsAt self Stmt (StripZero : bool) : gmap D L :=
  let Result := row self Stmt in if StripZero then delete (ZV self) Result else Result.

Definition containsNode self Stmt : bool := Table.containsRow (Results self) Stmt.

(** [ifdsResultsAt]: the facts of the row, whatever their value. *)
Definition ifdsResultsAt self Stmt : gset D := dom (row self Stmt).

Definition getAllResultEntries self : list (N * D * L) := Table.cellVec (Results self).

(** [foreachResultEntry]: the tuples the handler is called with. *)
Definition foreachResultEntry {S} (Handler : N * D * L → S → S) self : S → S :=
  for_each (map_to_list (Results self)) (λ '(Row, RowMap),
    for_each (map_to_list RowMap) (λ '(Col, Val), Handler (Row, Col, Val))).

(** ** Lemmas *)

Lemma row_lookup self Stmt Node : row self Stmt !! Node = Table.lookup (Results self) Stmt Node.
Proof. unfold row, Table.row, Table.lookup. by destruct (Results self !! Stmt). Qed.

Lemma resultAt_lookup self Stmt Node :
  resultAt self Stmt Node = default defaultValue (Table.lookup (Results self) Stmt Node).
Proof. unfold resultAt. apply table_getOrDefault_spec. Qed.

Lemma resultsAt_lookup self Stmt b Node :
  resultsAt self Stmt b !! Node =
  if decide (b = true ∧ Node = ZV self) then None else Table.lookup (Results self) Stmt Node.
Proof.
  unfold resultsAt. cbv zeta. destruct b.
  - rewrite lookup_delete, row_lookup.
    destruct (decide (ZV self = Node)) as [<-|Hne]; [by rewrite decide_True|].
    rewrite decide_False; [done|]. by intros [_ ->].
  - rewrite decide_False by naive_solver. apply row_lookup.
Qed.

Lemma ifdsResultsAt_elem self Stmt Node :
  Node ∈ ifdsResultsAt self Stmt ↔ is_Some (Table.lookup (Results self) Stmt Node).
Proof. unfold ifdsResultsAt. by rewrite elem_of_dom, row_lookup. Qed.

(** Iterating the entries is iterating the cell vector. *)
Lemma foreachResultEntry_cells {S} (Handler : N * D * L → S → S) self s :
  foreachResultEntry Handler self s = for_each (getAllResultEntries self) Handler s.
Proof.
  unfold foreachResultEntry, getAllResultEntries, Table.cellVec.
  generalize (map_to_list (Results self)) as rows. intros rows. revert s.
  induction rows as [|[Row RowMap] rows IH]; intros s; [done|].
  rewrite for_each_cons, IH. simpl. rewrite for_each_app. f_equal.
  generalize (map_to_list RowMap) as cols. intros cols. revert s.
  induction cols as [|[Col Val] cols IHc]; intros s; [done|].
  rewrite for_each_cons, IHc. done.
Qed.
End SolverResults.
