(* ===== verification/TypeStateDescriptions.v ===== *)
(** The type-state descriptions (PhasarLLVM/DataFlow/IfdsIde/Problems/
    TypeStateDescriptions/): finite state machines over the functions of an API,
    one Module per description, behind the interface [TypeStateDescription].

    The machines are the matrices of the code, indexed by the numbers of the
    tokens and the states. An index out of range is [None]: so is every lookup of
    the state [TOP], whose number is 42. *)
From stdpp Require Import strings.
From S2P Require Import Prelude JoinLattice.

Local Open Scope string_scope.

(** * The interface *)

(** Function names are [llvm::StringRef]s, parameters are numbered from 0 and the
    return value is -1. *)
Record TypeStateDescription (State CallSite : Type) := {
  isFactoryFunction : string → bool;
  isConsumingFunction : string → bool;
  isAPIFunction : string → bool;
  getNextState : string → State → option State;
  (** the overload that sees the call site *)
  getNextStateAt : string → State → CallSite → option State;
  getTypeNameOfInterest : string;
  getConsumerParamIdx : string → list Z;
  getFactoryParamIdx : string → list Z;
  bottom : State;
  top : State;
  uninit : State;
  error : State
}.
Arguments isFactoryFunction {State CallSite} _ _.
Arguments isConsumingFunction {State CallSite} _ _.
Arguments isAPIFunction {State CallSite} _ _.
Arguments getNextState {State CallSite} _ _ _.
Arguments getNextStateAt {State CallSite} _ _ _ _.
Arguments getTypeNameOfInterest {State CallSite} _.
Arguments getConsumerParamIdx {State CallSite} _ _.
Arguments getFactoryParamIdx {State CallSite} _ _.
Arguments bottom {State CallSite} _.
Arguments top {State CallSite} _.
Arguments uninit {State CallSite} _.
Arguments error {State CallSite} _.

(** What the descriptions share: a table of API functions with the parameters they
    work on, -1 for the return value. *)
Section table.
Context (Funcs : list (string * list Z)).

Definition table_isAPIFunction (F : string) : bool := bool_decide (is_Some (assoc_find F Funcs)).
Definition table_isFactoryFunction (F : string) : bool :=
  if table_isAPIFunction F
  then bool_decide ((-1)%Z ∈ default [] (assoc_find F Funcs)) else false.
Definition table_isConsumingFunction (F : string) : bool :=
  if table_isAPIFunction F
  then bool_decide ((-1)%Z ∉ default [] (assoc_find F Funcs)) else false.
Definition table_getConsumerParamIdx (F : string) : list Z :=
  if table_isConsumingFunction F then default [] (assoc_find F Funcs) else [].
(** Only the return value is generated. *)
Definition table_getFactoryParamIdx (F : string) : list Z :=
  if table_isFactoryFunction F then [(-1)%Z] else [].
End table.

(** [Delta[Token][State]]. *)
Definition delta {State} (Delta : list (list State)) (Token S : nat) : option State :=
  Delta !! Token ≫= λ Row, Row !! S.

(** * C file I/O *)

Module CSTDFILEIO.
Inductive State := TOP | UNINIT | OPENED | CLOSED | ERROR | BOT.
#[global] Instance State_eq_dec : EqDecision State.
Proof. solve_decision. Defined.

Definition int (s : State) : nat :=
  match s with TOP => 42 | UNINIT => 0 | OPENED => 1 | CLOSED => 2 | ERROR => 3 | BOT => 4 end.

(** [JoinLatticeTraits<CSTDFILEIOState>::join]. *)
Definition join (l r : State) : State :=
  if decide (l = TOP ∨ r = BOT) then r
  else if decide (l = BOT ∨ r = TOP) then l
  else BOT.
#[global] Instance traits : JoinLatticeTraits State :=
  {| JoinLattice.top := TOP; JoinLattice.bottom := BOT; JoinLattice.join := join |}.

Inductive Token := FOPEN | FCLOSE | STAR.
Definition token_int (t : Token) : nat := match t with FOPEN => 0 | FCLOSE => 1 | STAR => 2 end.

Definition Delta : list (list State) := [
  (* FOPEN *)  [OPENED; OPENED; OPENED; ERROR; OPENED];
  (* FCLOSE *) [ERROR; CLOSED; ERROR; ERROR; BOT];
  (* STAR *)   [ERROR; OPENED; ERROR; ERROR; BOT]
].

Definition getStdFileIOFuncs : list (string * list Z) := [
  ("fopen", [-1]); ("fdopen", [-1]); ("fclose", [0]); ("fread", [3]); ("fwrite", [3]);
  ("fgetc", [0]); ("fgetwc", [0]); ("fgets", [2]); ("getc", [0]); ("getwc", [0]);
  ("_IO_getc", [0]); ("ungetc", [1]); ("ungetwc", [1]); ("fputc", [1]); ("fputwc", [1]);
  ("fputs", [1]); ("putc", [1]); ("putwc", [1]); ("_IO_putc", [1]); ("fprintf", [0]);
  ("fwprintf", [0]); ("vfprintf", [0]); ("vfwprintf", [0]); ("__isoc99_fscanf", [0]);
  ("fscanf", [0]); ("fwscanf", [0]); ("vfscanf", [0]); ("vfwscanf", [0]); ("fflush", [0]);
  ("fseek", [0]); ("ftell", [0]); ("rewind", [0]); ("fgetpos", [0]); ("fsetpos", [0]);
  ("fileno", [0])
]%Z.

Definition funcNameToToken (F : string) : Token :=
  if decide (F = "fopen" ∨ F = "fdopen") then FOPEN
  else if decide (F = "fclose") then FCLOSE
  else STAR.

Definition getNextState (Tok : string) (s : State) : option State :=
  if table_isAPIFunction getStdFileIOFuncs Tok
  then delta Delta (token_int (funcNameToToken Tok)) (int s)
  else Some BOT.

Definition description {CallSite} : TypeStateDescription State CallSite := {|
  isFactoryFunction := table_isFactoryFunction getStdFileIOFuncs;
  isConsumingFunction := table_isConsumingFunction getStdFileIOFuncs;
  isAPIFunction := table_isAPIFunction getStdFileIOFuncs;
  TypeStateDescriptions.getNextState := getNextState;
  getNextStateAt Tok s _ := getNextState Tok s;
  getTypeNameOfInterest := "_IO_FILE";
  getConsumerParamIdx := table_getConsumerParamIdx getStdFileIOFuncs;
  getFactoryParamIdx := table_getFactoryParamIdx getStdFileIOFuncs;
  bottom := BOT; top := TOP; uninit := UNINIT; error := ERROR
|}.
End CSTDFILEIO.

(** * OpenSSL key derivation functions *)

Module OpenSSLEVPKDF.
Inductive State := TOP | UNINIT | KDF_FETCHED | ERROR | BOT.
#[global] Instance State_eq_dec : EqDecision State.
Proof. solve_decision. Defined.

Definition int (s : State) : nat :=
  match s with TOP => 42 | UNINIT => 0 | KDF_FETCHED => 1 | ERROR => 2 | BOT => 3 end.

Inductive Token := EVP_KDF_FETCH | EVP_KDF_FREE | STAR.
Definition token_int (t : Token) : nat :=
  match t with EVP_KDF_FETCH => 0 | EVP_KDF_FREE => 1 | STAR => 2 end.

Definition Delta : list (list State) := [
  (* EVP_KDF_FETCH *)    [KDF_FETCHED; ERROR; ERROR; KDF_FETCHED];
  (* EVP_KDF_CTX_FREE *) [ERROR; UNINIT; ERROR; BOT];
  (* STAR *)             [ERROR; KDF_FETCHED; ERROR; BOT]
].

Definition OpenSSLEVPKDFFuncs : list (string * list Z) :=
  [("EVP_KDF_fetch", [-1]); ("EVP_KDF_free", [0])]%Z.

Definition funcNameToToken (FuncName : string) : Token :=
  if decide (FuncName = "EVP_KDF_fetch") then EVP_KDF_FETCH
  else if decide (FuncName = "EVP_KDF_free") then EVP_KDF_FREE
  else STAR.

Definition getNextState (Tok : string) (s : State) : option State :=
  if table_isAPIFunction OpenSSLEVPKDFFuncs Tok
  then delta Delta (token_int (funcNameToToken Tok)) (int s)
  else Some BOT.

Definition description {CallSite} : TypeStateDescription State CallSite := {|
  isFactoryFunction := table_isFactoryFunction OpenSSLEVPKDFFuncs;
  isConsumingFunction := table_isConsumingFunction OpenSSLEVPKDFFuncs;
  isAPIFunction := table_isAPIFunction OpenSSLEVPKDFFuncs;
  TypeStateDescriptions.getNextState := getNextState;
  getNextStateAt Tok s _ := getNextState Tok s;
  getTypeNameOfInterest := "evp_kdf_st";
  getConsumerParamIdx := table_getConsumerParamIdx OpenSSLEVPKDFFuncs;
  getFactoryParamIdx := table_getFactoryParamIdx OpenSSLEVPKDFFuncs;
  bottom := BOT; top := TOP; uninit := UNINIT; error := ERROR
|}.
End OpenSSLEVPKDF.

(** * OpenSSL key derivation contexts *)

Module OpenSSLEVPKDFCTX.
Inductive State := TOP | UNINIT | CTX_ATTACHED | PARAM_INIT | DERIVED | ERROR | BOT.
#[global] Instance State_eq_dec : EqDecision State.
Proof. solve_decision. Defined.

Definition int (s : State) : nat :=
  match s with
  | TOP => 42 | UNINIT => 5 | CTX_ATTACHED => 1 | PARAM_INIT => 2 | DERIVED => 3 | ERROR => 4
  | BOT => 0
  end.

Inductive Token := EVP_KDF_CTX_NEW | EVP_KDF_CTX_SET_PARAMS | DERIVE | EVP_KDF_CTX_FREE | STAR.
#[global] Instance Token_eq_dec : EqDecision Token.
Proof. solve_decision. Defined.
Definition token_int (t : Token) : nat :=
  match t with
  | EVP_KDF_CTX_NEW => 0 | EVP_KDF_CTX_SET_PARAMS => 1 | DERIVE => 2 | EVP_KDF_CTX_FREE => 3
  | STAR => 4
  end.

Definition Delta : list (list State) := [
  (* EVP_KDF_CTX_NEW *)
  [CTX_ATTACHED; CTX_ATTACHED; CTX_ATTACHED; CTX_ATTACHED; ERROR; CTX_ATTACHED];
  (* EVP_KDF_CTX_SET_PARAMS *)
  [ERROR; PARAM_INIT; PARAM_INIT; PARAM_INIT; ERROR; ERROR];
  (* DERIVE *)
  [ERROR; ERROR; DERIVED; DERIVED; ERROR; ERROR];
  (* EVP_KDF_CTX_FREE *)
  [ERROR; UNINIT; UNINIT; UNINIT; ERROR; ERROR];
  (* STAR *)
  [ERROR; CTX_ATTACHED; PARAM_INIT; DERIVED; ERROR; ERROR]
].

Definition OpenSSLEVPKDFFuncs : list (string * list Z) := [
  ("EVP_KDF_CTX_new", [-1]); ("EVP_KDF_CTX_set_params", [0]); ("EVP_KDF_derive", [0]);
  ("EVP_KDF_CTX_free", [0])
]%Z.

Definition funcNameToToken (F : string) : Token :=
  if decide (F = "EVP_KDF_CTX_new") then EVP_KDF_CTX_NEW
  else if decide (F = "EVP_KDF_CTX_set_params") then EVP_KDF_CTX_SET_PARAMS
  else if decide (F = "EVP_KDF_derive") then DERIVE
  else if decide (F = "EVP_KDF_CTX_free") then EVP_KDF_CTX_FREE
  else STAR.

Definition getNextState (Tok : string) (s : State) : option State :=
  if table_isAPIFunction OpenSSLEVPKDFFuncs Tok
  then delta Delta (token_int (funcNameToToken Tok)) (int s)
  else Some BOT.

(** [KDFAnalysisResults.resultAt(CallSite, CallSite->getArgOperand(0))]. *)
Definition getNextStateAt {CallSite} (KDFResultAt : CallSite → OpenSSLEVPKDF.State)
    (Tok : string) (s : State) (cs : CallSite) : option State :=
  if table_isAPIFunction OpenSSLEVPKDFFuncs Tok then
    let NameToTok := funcNameToToken Tok in
    Ret ← delta Delta (token_int NameToTok) (int s);
    if decide (NameToTok = EVP_KDF_CTX_NEW ∧ KDFResultAt cs ≠ OpenSSLEVPKDF.KDF_FETCHED)
    then Some ERROR else Some Ret
  else Some BOT.

Definition description {CallSite} (KDFResultAt : CallSite → OpenSSLEVPKDF.State) :
    TypeStateDescription State CallSite := {|
  isFactoryFunction := table_isFactoryFunction OpenSSLEVPKDFFuncs;
  isConsumingFunction := table_isConsumingFunction OpenSSLEVPKDFFuncs;
  isAPIFunction := table_isAPIFunction OpenSSLEVPKDFFuncs;
  TypeStateDescriptions.getNextState := getNextState;
  TypeStateDescriptions.getNextStateAt := getNextStateAt KDFResultAt;
  getTypeNameOfInterest := "evp_kdf_ctx_st";
  getConsumerParamIdx := table_getConsumerParamIdx OpenSSLEVPKDFFuncs;
  getFactoryParamIdx := table_getFactoryParamIdx OpenSSLEVPKDFFuncs;
  bottom := BOT; top := TOP; uninit := UNINIT; error := ERROR
|}.
End OpenSSLEVPKDFCTX.

(** * The OpenSSL secure heap *)

Module OpenSSLSecureHeap.
Inductive State := TOP | BOT | UNINIT | ALLOCATED | ZEROED | FREED | ERROR.
#[global] Instance State_eq_dec : EqDecision State.
Proof. solve_decision. Defined.

Definition int (s : State) : nat :=
  match s with
  | TOP => 42 | BOT => 0 | UNINIT => 1 | ALLOCATED => 2 | ZEROED => 3 | FREED => 4 | ERROR => 5
  end.

Inductive Token := SECURE_MALLOC | SECURE_ZALLOC | SECURE_FREE | SECURE_CLEAR_FREE | STAR.
Definition token_int (t : Token) : nat :=
  match t with
  | SECURE_MALLOC => 0 | SECURE_ZALLOC => 1 | SECURE_FREE => 2 | SECURE_CLEAR_FREE => 3 | STAR => 4
  end.

Definition Delta : list (list State) := [
  (* SECURE_MALLOC *)     [ALLOCATED; ALLOCATED; ALLOCATED; ALLOCATED; ALLOCATED; ALLOCATED];
  (* SECURE_ZALLOC *)     [ZEROED; ZEROED; ZEROED; ZEROED; ZEROED; ZEROED];
  (* SECURE_FREE *)       [ERROR; ERROR; ERROR; FREED; ERROR; ERROR];
  (* SECURE_CLEAR_FREE *) [ERROR; ERROR; FREED; FREED; ERROR; ERROR];
  (* STAR *)              [BOT; UNINIT; ALLOCATED; ZEROED; FREED; ERROR]
].

Definition OpenSSLSecureHeapFuncs : list (string * list Z) := [
  ("CRYPTO_secure_malloc", [-1]); ("CRYPTO_secure_zalloc", [-1]); ("CRYPTO_secure_free", [0]);
  ("CRYPTO_secure_clear_free", [0])
]%Z.

Definition funcNameToToken (F : string) : Token :=
  if decide (F = "CRYPTO_secure_malloc") then SECURE_MALLOC
  else if decide (F = "CRYPTO_secure_zalloc") then SECURE_ZALLOC
  else if decide (F = "CRYPTO_secure_free") then SECURE_FREE
  else if decide (F = "CRYPTO_secure_clear_free") then SECURE_CLEAR_FREE
  else STAR.

Definition getNextState (Tok : string) (s : State) : option State :=
  if table_isAPIFunction OpenSSLSecureHeapFuncs Tok
  then delta Delta (token_int (funcNameToToken Tok)) (int s)
  else Some BOT.

(** [SecureHeapPropagationResults.resultAt(CallSite, INITIALIZED)] is
    [SecureHeapValue::INITIALIZED]. *)
Definition getNextStateAt {CallSite} (HeapInitializedAt : CallSite → bool)
    (Tok : string) (s : State) (cs : CallSite) : option State :=
  if table_isAPIFunction OpenSSLSecureHeapFuncs Tok then
    let Ftok := token_int (funcNameToToken Tok) in
    if negb (HeapInitializedAt cs) then Some ERROR else delta Delta Ftok (int s)
  else Some ERROR.

Definition description {CallSite} (HeapInitializedAt : CallSite → bool) :
    TypeStateDescription State CallSite := {|
  isFactoryFunction := table_isFactoryFunction OpenSSLSecureHeapFuncs;
  isConsumingFunction := table_isConsumingFunction OpenSSLSecureHeapFuncs;
  isAPIFunction := table_isAPIFunction OpenSSLSecureHeapFuncs;
  TypeStateDescriptions.getNextState := getNextState;
  TypeStateDescriptions.getNextStateAt := getNextStateAt HeapInitializedAt;
  getTypeNameOfInterest := "";
  getConsumerParamIdx := table_getConsumerParamIdx OpenSSLSecureHeapFuncs;
  getFactoryParamIdx := table_getFactoryParamIdx OpenSSLSecureHeapFuncs;
  bottom := BOT; top := TOP; uninit := UNINIT; error := ERROR
|}.
End OpenSSLSecureHeap.

(** * OpenSSL secure memory *)

Module OpenSSLSecureMemory.
Inductive State := TOP | BOT | ZEROED | FREED | ERROR | ALLOCATED.
#[global] Instance State_eq_dec : EqDecision State.
Proof. solve_decision. Defined.

Definition int (s : State) : nat :=
  match s with
  | TOP => 42 | BOT => 0 | ZEROED => 1 | FREED => 2 | ERROR => 3 | ALLOCATED => 4
  end.

Inductive Token := CRYPTO_MALLOC | CRYPTO_ZALLOC | CRYPTO_FREE | OPENSSL_CLEANSE | STAR.
#[global] Instance Token_eq_dec : EqDecision Token.
Proof. solve_decision. Defined.
Definition token_int (t : Token) : nat :=
  match t with
  | CRYPTO_MALLOC => 0 | CRYPTO_ZALLOC => 1 | CRYPTO_FREE => 2 | OPENSSL_CLEANSE => 3 | STAR => 4
  end.

Definition FactoryFuncs : list string := ["CRYPTO_malloc"; "CRYPTO_zalloc"].
Definition ConsumingFuncs : list (string * Z) := [("CRYPTO_free", 0); ("OPENSSL_cleanse", 0)]%Z.

(** [Delta[6][7]]: what the initializer leaves out is 0, which is [BOT]. *)
Definition Delta : list (list State) := [
  (* CRYPTO_malloc *)        [ALLOCATED; ALLOCATED; ALLOCATED; ERROR; ALLOCATED; BOT; BOT];
  (* CRYPTO_ZALLOC *)        [ZEROED; ZEROED; ZEROED; ERROR; ZEROED; BOT; BOT];
  (* CRYPTO_FREE *)          [ERROR; FREED; ERROR; ERROR; ERROR; BOT; BOT];
  (* OPENSSL_CLEANSE *)      [BOT; ZEROED; ERROR; ERROR; ZEROED; BOT; BOT];
  (* STAR (kills ZEROED) *)  [BOT; ALLOCATED; FREED; ERROR; ALLOCATED; BOT; BOT];
  [BOT; BOT; BOT; BOT; BOT; BOT; BOT]
].

Definition funcNameToToken (F : string) : Token :=
  if decide (F = "CRYPTO_malloc") then CRYPTO_MALLOC
  else if decide (F = "CRYPTO_zalloc") then CRYPTO_ZALLOC
  else if decide (F = "CRYPTO_free") then CRYPTO_FREE
  else if decide (F = "OPENSSL_cleanse") then OPENSSL_CLEANSE
  else STAR.

Definition isFactoryFunction (F : string) : bool := bool_decide (F ∈ FactoryFuncs).
Definition isConsumingFunction (F : string) : bool :=
  bool_decide (is_Some (assoc_find F ConsumingFuncs)).
Definition isAPIFunction (F : string) : bool := bool_decide (funcNameToToken F ≠ STAR).

Definition getNextState (Tok : string) (s : State) : option State :=
  let Token := funcNameToToken Tok in
  if decide (Token ≠ STAR) then delta Delta (token_int Token) (int s) else Some BOT.

Definition getConsumerParamIdx (F : string) : list Z :=
  match assoc_find F ConsumingFuncs with Some Idx => [Idx] | None => [] end.
Definition getFactoryParamIdx (F : string) : list Z := if isFactoryFunction F then [(-1)%Z] else [].

Definition description {CallSite} : TypeStateDescription State CallSite := {|
  TypeStateDescriptions.isFactoryFunction := isFactoryFunction;
  TypeStateDescriptions.isConsumingFunction := isConsumingFunction;
  TypeStateDescriptions.isAPIFunction := isAPIFunction;
  TypeStateDescriptions.getNextState := getNextState;
  getNextStateAt Tok s _ := getNextState Tok s;
  getTypeNameOfInterest := "";
  TypeStateDescriptions.getConsumerParamIdx := getConsumerParamIdx;
  TypeStateDescriptions.getFactoryParamIdx := getFactoryParamIdx;
  bottom := BOT; top := TOP; uninit := BOT; error := ERROR
|}.
End OpenSSLSecureMemory.
