(* ===== verification/IDETypeStateAnalysis.v ===== *)
(** The type-state analysis (Problems/IDETypeStateAnalysis.h, .cpp) over a type-state
    description whose states have [JoinLatticeTraits]: its edge functions, which run
    the description's state machine, its edge- and flow-function factories, and the
    two caches of alias information behind them.

    What the analysis asks LLVM, the alias analysis and the debug information is a
    parameter.

    The alias caches of the type-state analysis are transparent: when alias sets
    partition the values, a query is answered as with empty caches, whatever was
    asked before. *)
From stdpp Require Import strings.
From S2P Require Import Prelude TypeStateDescriptions JoinLattice EdgeFunctionUtils FlowFunctions.

(** * The edge functions *)

(** [TSEdgeFunction] and [TSConstant]; [operator==] compares the members. *)
Inductive TSFunction (State CallSite : Type) :=
  | TSEdgeFunction (Token : string) (cs : CallSite)
  | TSConstant (v : State).
Arguments TSEdgeFunction {State CallSite} Token cs.
Arguments TSConstant {State CallSite} v.

#[export] Instance TSFunction_eq_dec {State CallSite} `{EqDecision State, EqDecision CallSite} :
  EqDecision (TSFunction State CallSite).
Proof. solve_decision. Defined.

(** [NonTopBotValue] of a state is the primary template. *)
#[export] Existing Instance NonTopBotValue_primary.

Section edge_functions.
Context {State CallSite : Type} `{EqDecision State, EqDecision CallSite}.
Context `{JoinLatticeTraits State} (TSD : TypeStateDescription State CallSite).
Abbreviation EF := (EdgeFunction State State (TSFunction State CallSite)).
Implicit Types (This First Second SecondFunction OtherFunction : EF) (Source : State).

(** [TSEdgeFunction::computeTarget]; [None] where the description reads its
    matrix out of range. *)
Definition TSEdgeFunction_computeTarget (Token : string) (cs : CallSite) Source : option State :=
  getNextStateAt TSD Token
    (if decide (Source = TSD.(TypeStateDescriptions.top)) then TSD.(uninit) else Source) cs.

(** [isConstant] is inherited from [ConstantEdgeFunction]. An undefined read is
    given the value [bottom]. *)
#[local] Instance TS_targets : UserTargets State (TSFunction State CallSite) := {|
  user_computeTarget f Source :=
    match f with
    | TSEdgeFunction Token cs => default bottom (TSEdgeFunction_computeTarget Token cs Source)
    | TSConstant v => v
    end;
  user_isConstant f := match f with TSEdgeFunction _ _ => false | TSConstant _ => true end
|}.

(** [makeAllBottom], [isBottom]. *)
Definition makeAllBottom : EF := AllBottom.
Definition isBottom (s : State) : bool := bool_decide (s = bottom).

(** [TSEdgeFunction::compose] builds a [TSEdgeFunctionComposer]. *)
Definition TSEdgeFunction_compose (Token : string) (cs : CallSite) SecondFunction : EF :=
  let This := UserEF (TSEdgeFunction Token cs) in
  match defaultComposeOrNull_ref This SecondFunction with
  | Some Default => Default
  | None => EdgeFunctionComposer DerivedComposer This SecondFunction
  end.

Definition TSConstant_compose (v : State) SecondFunction : EF :=
  let This := UserEF (TSConstant v) in
  match defaultComposeOrNull_ref This SecondFunction with
  | Some Default => Default
  | None =>
      let Ret := computeTarget SecondFunction v in
      if decide (Ret = v) then This
      else if isBottom Ret then makeAllBottom
      else UserEF (TSConstant Ret)
  end.

(** The default template argument of [defaultJoinOrNull]: no [JoinEdgeFunction]
    is created. *)
Definition TS_defaultJoinOrNull This OtherFunction : option EF :=
  defaultJoinOrNull_ref 0 (λ _ _, false) 0 This OtherFunction.

Definition TSEdgeFunction_join (Token : string) (cs : CallSite) OtherFunction : EF :=
  match TS_defaultJoinOrNull (UserEF (TSEdgeFunction Token cs)) OtherFunction with
  | Some Default => Default
  | None => makeAllBottom
  end.

Definition TSConstant_join (v : State) OtherFunction : EF :=
  let This := UserEF (TSConstant v) in
  match TS_defaultJoinOrNull This OtherFunction with
  | Some Default => Default
  | None =>
      match OtherFunction with
      | UserEF (TSConstant C) =>
          if decide (C = v ∨ C = top) then This
          else if decide (v = top) then OtherFunction
          else makeAllBottom
      | _ => makeAllBottom
      end
  end.

Definition TSEdgeFunctionComposer_join First Second OtherFunction : EF :=
  match TS_defaultJoinOrNull (EdgeFunctionComposer DerivedComposer First Second) OtherFunction with
  | Some Default => Default
  | None => AllBottom
  end.

#[local] Instance TS_functions : UserEdgeFunctions State State (TSFunction State CallSite) := {|
  user_compose f SecondFunction :=
    Returns match f with
            | TSEdgeFunction Token cs => TSEdgeFunction_compose Token cs SecondFunction
            | TSConstant v => TSConstant_compose v SecondFunction
            end;
  user_join f OtherFunction :=
    Returns match f with
            | TSEdgeFunction Token cs => TSEdgeFunction_join Token cs OtherFunction
            | TSConstant v => TSConstant_join v OtherFunction
            end;
  derived_composer_join First Second OtherFunction :=
    Returns (TSEdgeFunctionComposer_join First Second OtherFunction)
|}.

(** [EdgeFunction::composeWith] and [joinWith] of the analysis. *)
Definition composeWith This SecondFunction : Outcome EF := compose true This SecondFunction.
Definition joinWith This OtherFunction : Outcome EF :=
  EdgeFunctionUtils.joinWith 0 (λ _ _, false) true This OtherFunction.

(** [IDETypeStateAnalysis::join], the join of the values of the analysis. *)
Definition join (Lhs Rhs : State) : State :=
  if decide (Lhs = Rhs) then Lhs
  else if decide (Lhs = TSD.(TypeStateDescriptions.top)) then Rhs
  else if decide (Rhs = TSD.(TypeStateDescriptions.top)) then Lhs
  else TSD.(TypeStateDescriptions.bottom).
Definition topElement : State := TSD.(TypeStateDescriptions.top).
Definition bottomElement : State := TSD.(TypeStateDescriptions.bottom).
Definition analysis_lattice : JoinLatticeTraits State :=
  {| JoinLattice.top := topElement; JoinLattice.bottom := bottomElement; JoinLattice.join := join |}.

(** ** Lemmas *)

Lemma TS_compose_laws :
  UserComposeLaws State State (TSFunction State CallSite).
Proof.
  split; [by intros []|]. intros u g h [= <-] x.
  assert (∀ f d : EF, defaultComposeOrNull_ref f g = Some d →
    computeTarget d x = computeTarget g (computeTarget f x)) as Hd.
  { unfold defaultComposeOrNull_ref. intros f d Hd. repeat case_match; simplify_eq.
    - by destruct g.
    - destruct d as [| | | | | |[]]; done. }
  destruct u as [Tok cs|v]; simpl; unfold TSEdgeFunction_compose, TSConstant_compose.
  - destruct (defaultComposeOrNull_ref _ g) as [d|] eqn:E; [by rewrite (Hd _ _ E)|done].
  - destruct (defaultComposeOrNull_ref _ g) as [d|] eqn:E; [by rewrite (Hd _ _ E)|].
    case_decide as Hv; [by rewrite Hv|]. unfold isBottom. case_bool_decide as Hb; [|done].
    by rewrite Hb.
Qed.

(** Nothing throws: the primary [NonTopBotValue] unwraps every value. *)
Lemma TS_compose_returns This SecondFunction : ∃ h, composeWith This SecondFunction = Returns h.
Proof.
  unfold composeWith. revert SecondFunction.
  induction This as [|v| | |k f1 f2 IH1 IH2|s fs _|u] using EdgeFunction_ind'; intros g; simpl.
  - eauto.
  - unfold ConstantEdgeFunction_compose. simpl. repeat (case_match; eauto).
  - unfold AllBottom_compose. simpl. repeat (case_match; eauto).
  - eauto.
  - case_match; [by eauto|]. destruct (IH2 g) as [i ->]. simpl. apply IH1.
  - case_match; eauto.
  - eauto.
Qed.
End edge_functions.

(** * Composing and joining *)

Section edge_function_facts.
Context {State CallSite : Type} `{EqDecision State, EqDecision CallSite}.
Context `{JoinLatticeTraits State} (TSD : TypeStateDescription State CallSite).
Abbreviation EF := (EdgeFunction State State (TSFunction State CallSite)).
Abbreviation value := (computeTarget (targets := TS_targets TSD)).
Abbreviation le := (@lat_le State (analysis_lattice TSD)).
Implicit Types (f g h : EF) (x y : State).

(** The edge functions the analysis builds: its own, and what their composition
    makes of them. *)
Fixpoint TS_built f : bool :=
  match f with
  | JoinEdgeFunction _ _ | EdgeFunctionComposer DefaultJoinEdgeFunctionComposer _ _ => false
  | EdgeFunctionComposer DerivedComposer f1 f2 => TS_built f1 && TS_built f2
  | _ => true
  end.

Lemma default_compose_built f g h :
  defaultComposeOrNull_ref (targets := TS_targets TSD) f g = Some h →
  TS_built f = true → TS_built g = true → TS_built h = true.
Proof. unfold defaultComposeOrNull_ref. intros. repeat case_match; by simplify_eq. Qed.

Lemma TS_compose_built f g h :
  composeWith TSD f g = Returns h → TS_built f = true → TS_built g = true → TS_built h = true.
Proof.
  unfold composeWith. revert g h.
  induction f as [|v| | |k f1 f2 IH1 IH2|s fs _|u] using EdgeFunction_ind'; intros g h; simpl.
  - by intros [= ->].
  - unfold ConstantEdgeFunction_compose.
    destruct (defaultComposeOrNull_ref _ g) as [d|] eqn:Hd.
    { intros [= <-] Hf Hg. by apply default_compose_built in Hd. }
    simpl. repeat case_decide; by intros [= <-].
  - unfold AllBottom_compose. simpl. repeat case_match; by intros [= <-].
  - unfold AllTop_compose. intros [= <-]. by case_match.
  - destruct k; [done|]. destruct (defaultComposeOrNull_ref _ g) as [d|] eqn:Hd.
    { intros [= <-] Hf Hg. by apply default_compose_built in Hd. }
    intros (i & Hi & Hc)%outcome_bind_Returns [Hf1 Hf2]%andb_prop Hg. eauto.
  - done.
  - intros [= <-] _ Hg. destruct u as [Tok cs|v];
      unfold TSEdgeFunction_compose, TSConstant_compose;
      destruct (defaultComposeOrNull_ref _ g) as [d|] eqn:Hd;
      try (by apply default_compose_built in Hd); repeat case_match; done.
Qed.

(** ** The lattice of the analysis *)

Hypothesis top_ne_bottom : topElement TSD ≠ bottomElement TSD.

Lemma analysis_lattice_laws : @JoinLatticeLaws State (analysis_lattice TSD).
Proof.
  unfold topElement, bottomElement in *.
  split; intros; simpl; unfold join, topElement, bottomElement;
    repeat case_decide; simplify_eq; congruence.
Qed.

Lemma TS_le_bottom x : le x (bottomElement TSD).
Proof. exact (@lat_le_bottom State (analysis_lattice TSD) analysis_lattice_laws x). Qed.
Lemma TS_le_top x : le (topElement TSD) x.
Proof. exact (@lat_le_top State (analysis_lattice TSD) analysis_lattice_laws x). Qed.
Lemma TS_le_refl x : le x x.
Proof. exact (@join_idemp State (analysis_lattice TSD) analysis_lattice_laws x). Qed.
#[local] Hint Resolve TS_le_bottom TS_le_top TS_le_refl : core.

(** ** Joins *)

Context (Htop : top = topElement TSD) (Hbot : bottom = bottomElement TSD).
Hypothesis traits_join_ub :
  ∀ x y, le x (JoinLattice.join x y) ∧ le y (JoinLattice.join x y).

Definition TS_ub f g h : Prop := ∀ x, le (value f x) (value h x) ∧ le (value g x) (value h x).

Lemma TS_ub_sym f g h : TS_ub f g h → TS_ub g f h.
Proof. intros Hub x. destruct (Hub x). done. Qed.
Lemma TS_ub_bottom f g : TS_ub f g AllBottom.
Proof. intros x. simpl. rewrite Hbot. auto. Qed.
Lemma TS_ub_refl f : TS_ub f f f.
Proof. intros x. auto. Qed.
Lemma TS_ub_top f : TS_ub f AllTop f.
Proof. intros x. simpl. rewrite Htop. auto. Qed.

Lemma TS_default_ub f g h : TS_defaultJoinOrNull f g = Some h → TS_ub f g h.
Proof.
  unfold TS_defaultJoinOrNull, defaultJoinOrNull_ref.
  destruct (isa_AllBottom g) eqn:Hb; [intros [= <-]; destruct g; try done; apply TS_ub_bottom|].
  destruct (isa_AllTop g) eqn:Ht; simpl; [intros [= <-]; destruct g; try done; apply TS_ub_top|].
  case_bool_decide; [intros [= <-]; subst; apply TS_ub_refl|].
  destruct (isa_EdgeIdentity g); [|done].
  intros [= <-]. apply TS_ub_bottom.
Qed.

Lemma TSEdgeFunction_join_ub Tok cs g :
  TS_ub (UserEF (TSEdgeFunction Tok cs)) g (TSEdgeFunction_join Tok cs g).
Proof.
  unfold TSEdgeFunction_join. destruct (TS_defaultJoinOrNull _ g) as [d|] eqn:Hd.
  - by apply TS_default_ub.
  - apply TS_ub_bottom.
Qed.

Lemma TSConstant_join_ub v g : TS_ub (UserEF (TSConstant v)) g (TSConstant_join v g).
Proof.
  unfold TSConstant_join. destruct (TS_defaultJoinOrNull _ g) as [d|] eqn:Hd.
  { by apply TS_default_ub. }
  destruct g as [| | | | | |[Tok cs|w]]; try apply TS_ub_bottom.
  repeat case_decide; [| |apply TS_ub_bottom].
  - intros x. simpl. destruct H0 as [->| ->]; rewrite ?Htop; auto.
  - intros x. simpl. subst v. rewrite Htop. auto.
Qed.

Lemma TSEdgeFunctionComposer_join_ub f1 f2 g :
  TS_ub (EdgeFunctionComposer DerivedComposer f1 f2) g (TSEdgeFunctionComposer_join f1 f2 g).
Proof.
  unfold TSEdgeFunctionComposer_join. destruct (TS_defaultJoinOrNull _ g) as [d|] eqn:Hd.
  - by apply TS_default_ub.
  - apply TS_ub_bottom.
Qed.

Lemma TS_join_leaf_ub f g h :
  TS_built f = true → match f with EdgeIdentity | ConstantEdgeFunction _ => False | _ => True end →
  @join_leaf _ _ _ _ _ _ _ (TS_targets TSD) (TS_functions TSD) 0 (λ _ _, false) f g = Returns h →
  TS_ub f g h.
Proof.
  destruct f as [| | | |k f1 f2|s fs|[Tok cs|v]]; intros Hf Hl; try done; try intros [= <-].
  - apply TS_ub_sym, TS_ub_bottom.
  - apply TS_ub_sym, TS_ub_top.
  - destruct k; [done|]. intros [= <-]. apply TSEdgeFunctionComposer_join_ub.
  - apply TSEdgeFunction_join_ub.
  - apply TSConstant_join_ub.
Qed.

Abbreviation join_leaf := (@join_leaf _ _ _ _ _ _ _ (TS_targets TSD) (TS_functions TSD) 0 (λ _ _, false)).
Abbreviation constant_join :=
  (@ConstantEdgeFunction_join _ _ _ _ _ _ _ _ (TS_targets TSD) 0 (λ _ _, false) true join_leaf).

Lemma TS_constant_value f x y : isConstant (targets := TS_targets TSD) f = true → value f x = value f y.
Proof. by destruct f as [| | | | | |[]]. Qed.

Lemma TS_constant_join_ub v g h :
  TS_built g = true → constant_join v g = Returns h → TS_ub (ConstantEdgeFunction v) g h.
Proof.
  intros Hg. unfold ConstantEdgeFunction_join.
  destruct (defaultJoinOrNull_ref _ _ _ _ g) as [d|] eqn:Hd.
  { intros [= <-]. by apply TS_default_ub. }
  destruct (isa_EdgeIdentity g) eqn:Hid; [intros [= <-]; apply TS_ub_bottom|].
  destruct (isConstant g) eqn:Hc; simpl.
  2:{ intros Hj. apply TS_ub_sym, TS_join_leaf_ub; [done|by destruct g|done]. }
  pose proof (traits_join_ub v (value g bottom)) as [Hl Hr].
  case_decide as Hb.
  - intros [= <-]. apply TS_ub_bottom.
  - intros [= <-] x. simpl. rewrite (TS_constant_value g x bottom Hc). done.
Qed.

Lemma TS_joinWith_ub f g h :
  TS_built f = true → TS_built g = true → joinWith TSD f g = Returns h → TS_ub f g h.
Proof.
  intros Hf Hg. unfold joinWith, EdgeFunctionUtils.joinWith.
  destruct f as [|v| | | | |u];
    [|intros Hj; by apply TS_constant_join_ub|intros Hj; by apply TS_join_leaf_ub..].
  unfold EdgeIdentity_join. destruct (isa_EdgeIdentity g || isa_AllTop g) eqn:Hi.
  { intros [= <-]. destruct g; try done; eauto using TS_ub_refl, TS_ub_top. }
  destruct (isa_AllBottom g) eqn:Hb.
  { intros [= <-]. destruct g; try done. apply TS_ub_bottom. }
  intros Hj. apply TS_ub_sym. destruct g; try done.
  - by apply TS_constant_join_ub.
  - by apply TS_join_leaf_ub.
  - by apply TS_join_leaf_ub.
Qed.

Lemma TS_joinWith_returns f g : ∃ h, joinWith TSD f g = Returns h.
Proof.
  assert (∀ f g, ∃ h, join_leaf f g = Returns h) as Hleaf.
  { intros [| | | |[]| |] g'; simpl; unfold Composer_join; repeat case_match; eauto. }
  assert (∀ v g, ∃ h, constant_join v g = Returns h) as Hconst.
  { intros v g'. unfold ConstantEdgeFunction_join. simpl. repeat (case_match; eauto). }
  unfold joinWith, EdgeFunctionUtils.joinWith, EdgeIdentity_join. repeat (case_match; eauto).
Qed.
End edge_function_facts.

(** * The analysis' view of LLVM *)

(** Instructions, call sites and the other values are all [llvm::Value]s. *)
Class LLVMIR (Val Func : Type) := {
  isa_AllocaInst : Val → bool;
  (** [dyn_cast] to a load, with its pointer operand; to a [getelementptr],
      likewise; to a store, with its value and pointer operands *)
  dyn_cast_LoadInst : Val → option Val;
  dyn_cast_GetElementPtrInst : Val → option Val;
  dyn_cast_StoreInst : Val → option (Val * Val);
  (** the value a return instruction returns *)
  getReturnValue : Val → option Val;
  isa_Constant : Val → bool;
  users : Val → list Val;
  call_args : Val → list Val;
  getArgOperand : Val → Z → Val;
  formals : Func → list Val;
  isVarArg : Func → bool;
  isDeclaration : Func → bool;
  (** the demangled name *)
  getName : Func → string
}.

Section analysis.
Context {State Val Func : Type} `{EqDecision State, Countable Val, LLVMIR Val Func}.
Context `{JoinLatticeTraits State} (TSD : TypeStateDescription State Val).
Abbreviation EF := (EdgeFunction State State (TSFunction State Val)).
Abbreviation container_type := (gset Val).
Abbreviation FlowFunction := (Val → container_type).
Import FlowFunctionTemplates.

(** The zero value, the alias sets, whether the debug type of a value matches,
    [getVaListTagOrNull] and the flow functions of [mapFactsToCallee]. *)
Context (zero : Val) (getAliasSet : Val → container_type) (hasMatchingType : Val → bool).
Context (getVaListTagOrNull : Func → option Val) (mapFactsToCallee : Val → Func → FlowFunction).

Record Caches := mkCaches {
  AliasCache : gmap Val container_type;
  RelevantAllocaCache : gmap Val container_type
}.
Definition emptyCaches : Caches := mkCaches ∅ ∅.

(** ** Aliases and allocas *)

Definition getWMAliasSet (V : Val) (c : Caches) : container_type * Caches :=
  match c.(AliasCache) !! V with
  | Some AliasSet => (AliasSet, c)
  | None =>
      let PTS := getAliasSet V in
      (PTS, mkCaches
         (for_each (elements PTS)
            (λ Alias m, if hasMatchingType Alias then <[Alias := PTS]> m else m) c.(AliasCache))
         c.(RelevantAllocaCache))
  end.

(** The allocas one alias is loaded from or stored to. *)
Definition allocasOfAlias (Alias : Val) (RelevantAllocas : container_type) : container_type :=
  match dyn_cast_LoadInst Alias with
  | Some PointerOperand =>
      if hasMatchingType Alias then {[PointerOperand]} ∪ RelevantAllocas else RelevantAllocas
  | None =>
      for_each (users Alias)
        (λ User R,
           match dyn_cast_StoreInst User with
           | Some (_, PointerOperand) =>
               if hasMatchingType User then {[PointerOperand]} ∪ R else R
           | None => R
           end) RelevantAllocas
  end.

Definition getRelevantAllocas (V : Val) (c : Caches) : container_type * Caches :=
  match c.(RelevantAllocaCache) !! V with
  | Some RelevantAllocas => (RelevantAllocas, c)
  | None =>
      let '(AliasSet, c) := getWMAliasSet V c in
      let RelevantAllocas := for_each (elements AliasSet) allocasOfAlias ∅ in
      (RelevantAllocas,
       mkCaches c.(AliasCache)
         (for_each (elements AliasSet) (λ Alias m, <[Alias := RelevantAllocas]> m)
            c.(RelevantAllocaCache)))
  end.

Definition getWMAliasesAndAllocas (V : Val) (c : Caches) : container_type * Caches :=
  let '(RelevantAllocas, c) := getRelevantAllocas V c in
  let '(Aliases, c) := getWMAliasSet V c in
  (Aliases ∪ RelevantAllocas, c).

(** The local aliases are left empty. *)
Definition getLocalAliasesAndAllocas (V : Val) (c : Caches) : container_type * Caches :=
  getRelevantAllocas V c.

(** ** Flow functions *)

Definition generateFromZero (FactToGenerate : Val) : FlowFunction := generateFlow FactToGenerate zero.

Definition storeFlow (ValueOperand PointerOperand : Val) (AliasesAndAllocas : container_type) :
    FlowFunction := λ Source,
  if decide (Source = PointerOperand) then ∅
  else if decide (Source = ValueOperand) then AliasesAndAllocas
  else {[Source]}.

Definition getNormalFlowFunction (Curr : Val) (c : Caches) : FlowFunction * Caches :=
  if isa_AllocaInst Curr && hasMatchingType Curr then (generateFromZero Curr, c)
  else
    match dyn_cast_LoadInst Curr with
    | Some PointerOperand =>
        if hasMatchingType Curr then (transferFlow Curr PointerOperand, c) else (identityFlow, c)
    | None =>
        match dyn_cast_GetElementPtrInst Curr with
        | Some PointerOperand =>
            if hasMatchingType PointerOperand then (lambdaFlow (λ Source, {[Source]}), c)
            else (identityFlow, c)
        | None =>
            match dyn_cast_StoreInst Curr with
            | Some (ValueOperand, PointerOperand) =>
                if hasMatchingType Curr then
                  let '(Relevant, c) := getLocalAliasesAndAllocas PointerOperand c in
                  (lambdaFlow (storeFlow ValueOperand PointerOperand ({[ValueOperand]} ∪ Relevant)), c)
                else (identityFlow, c)
            | None => (identityFlow, c)
            end
        end
    end.

Definition isAPIFunction (Name : string) : bool := TypeStateDescriptions.isAPIFunction TSD Name.
Definition isFactoryFunction (Name : string) : bool := TypeStateDescriptions.isFactoryFunction TSD Name.

Definition getCallFlowFunction (CallSite : Val) (DestFun : Func) : FlowFunction :=
  if isAPIFunction (getName DestFun) then killAllFlows else mapFactsToCallee CallSite DestFun.

(** The function asks for the relevant allocas whenever it is applied. *)
Definition getRetFlowFunction (CallSite : Val) (CalleeFun : Func) (ExitStmt : Val) (Source : Val)
    (c : Caches) : container_type * Caches :=
  if decide (Source = zero) then ({[Source]}, c)
  else
    let Res :=
      if isVarArg CalleeFun && negb (isDeclaration CalleeFun)
         && bool_decide (getVaListTagOrNull CalleeFun = Some Source)
      then makeContainer (drop (length (formals CalleeFun)) (call_args CallSite)) else ∅ in
    let Res :=
      for_each (zip (formals CalleeFun) (call_args CallSite))
        (λ '(Formal, Actual) Res, if decide (Source = Formal) then {[Actual]} ∪ Res else Res) Res in
    let Res :=
      if decide (getReturnValue ExitStmt = Some Source) then {[CallSite]} ∪ Res else Res in
    let '(RelAllocas, c) :=
      for_each (elements Res)
        (λ Fact '(RelAllocas, c), let '(Allocas, c) := getRelevantAllocas Fact c in
                                  (Allocas ∪ RelAllocas, c)) (∅, c) in
    (RelAllocas ∪ Res, c).

(** The loop over the callees, returning early. *)
Fixpoint callToRetFlow_loop (CallSite : Val) (Callees : list Func) (DeclarationOnlyCalleeFound : bool)
    (c : Caches) : FlowFunction * Caches :=
  match Callees with
  | [] =>
      if negb DeclarationOnlyCalleeFound then (killFlowIf isa_Constant, c) else (identityFlow, c)
  | Callee :: Callees =>
      let DemangledFname := getName Callee in
      if isFactoryFunction DemangledFname then (generateFromZero CallSite, c)
      else
        let Found := DeclarationOnlyCalleeFound || isDeclaration Callee in
        if negb (isAPIFunction DemangledFname) && negb (isDeclaration Callee) then
          match list_find (λ Arg, hasMatchingType Arg = true) (call_args CallSite) with
          | Some (_, Arg) =>
              let '(Killed, c) := getWMAliasesAndAllocas Arg c in (killManyFlows (elements Killed), c)
          | None => callToRetFlow_loop CallSite Callees Found c
          end
        else callToRetFlow_loop CallSite Callees Found c
  end.
Definition getCallToRetFlowFunction (CallSite : Val) (Callees : list Func) (c : Caches) :
    FlowFunction * Caches := callToRetFlow_loop CallSite Callees false c.

(** ** Edge functions *)

Definition getNormalEdgeFunction (Curr CurrNode SuccNode : Val) : EF :=
  if isa_AllocaInst Curr && hasMatchingType Curr
     && bool_decide (CurrNode = zero ∧ SuccNode = Curr)
  then UserEF (TSConstant TSD.(uninit)) else EdgeIdentity.

Definition getCallEdgeFunction : EF := EdgeIdentity.
Definition getReturnEdgeFunction : EF := EdgeIdentity.

(** The loop over the consumed parameters of one callee. *)
Fixpoint consumer_loop (CallSite CallNode RetSiteNode : Val) (DemangledFname : string)
    (Idxs : list Z) (c : Caches) : option EF * Caches :=
  match Idxs with
  | [] => (None, c)
  | Idx :: Idxs =>
      let '(AliasAndAllocas, c) := getWMAliasesAndAllocas (getArgOperand CallSite Idx) c in
      if decide (CallNode = RetSiteNode ∧ CallNode ∈ AliasAndAllocas)
      then (Some (UserEF (TSEdgeFunction DemangledFname CallSite)), c)
      else consumer_loop CallSite CallNode RetSiteNode DemangledFname Idxs c
  end.

(** The successor state of a factory function. *)
Definition factory_state (DemangledFname : string) (CallSite : Val) : State :=
  default bottom (getNextStateAt TSD DemangledFname TSD.(uninit) CallSite).

Fixpoint getCallToRetEdgeFunction (CallSite CallNode RetSiteNode : Val) (Callees : list Func)
    (c : Caches) : EF * Caches :=
  match Callees with
  | [] => (EdgeIdentity, c)
  | Callee :: Callees =>
      let DemangledFname := getName Callee in
      if isFactoryFunction DemangledFname && bool_decide (CallNode = zero ∧ RetSiteNode = CallSite)
      then (UserEF (TSConstant (factory_state DemangledFname CallSite)), c)
      else
        let '(Found, c) :=
          if isConsumingFunction TSD DemangledFname
          then consumer_loop CallSite CallNode RetSiteNode DemangledFname
                 (getConsumerParamIdx TSD DemangledFname) c
          else (None, c) in
        match Found with
        | Some f => (f, c)
        | None => getCallToRetEdgeFunction CallSite CallNode RetSiteNode Callees c
        end
  end.
End analysis.

(** * Queries *)

(** What the solver asks the analysis for, where the caches are involved. *)
Inductive TSQuery (Val Func : Type) :=
  | QNormalFlow (Curr : Val)
  | QRetFlow (CallSite : Val) (CalleeFun : Func) (ExitStmt Source : Val)
  | QCallToRetFlow (CallSite : Val) (Callees : list Func)
  | QCallToRetEdge (CallSite CallNode RetSiteNode : Val) (Callees : list Func).
Arguments QNormalFlow {Val Func} Curr.
Arguments QRetFlow {Val Func} CallSite CalleeFun ExitStmt Source.
Arguments QCallToRetFlow {Val Func} CallSite Callees.
Arguments QCallToRetEdge {Val Func} CallSite CallNode RetSiteNode Callees.

Inductive TSAnswer (State Val : Type) `{Countable Val} :=
  | AFlow (f : Val → gset Val)
  | AFacts (X : gset Val)
  | AEdge (f : EdgeFunction State State (TSFunction State Val)).
Arguments AFlow {State Val _ _} f.
Arguments AFacts {State Val _ _} X.
Arguments AEdge {State Val _ _} f.

Section caches.
Context {State Val Func : Type} `{EqDecision State, Countable Val, LLVMIR Val Func}.
Context `{JoinLatticeTraits State} (TSD : TypeStateDescription State Val).
Context (zero : Val) (getAliasSet : Val → gset Val) (hasMatchingType : Val → bool).
Context (getVaListTagOrNull : Func → option Val).

Definition ask (q : TSQuery Val Func) (c : Caches) : TSAnswer State Val * Caches :=
  match q with
  | QNormalFlow Curr =>
      let '(f, c) := getNormalFlowFunction zero getAliasSet hasMatchingType Curr c in (AFlow f, c)
  | QRetFlow CallSite CalleeFun ExitStmt Source =>
      let '(X, c) := getRetFlowFunction zero getAliasSet hasMatchingType getVaListTagOrNull
                       CallSite CalleeFun ExitStmt Source c in (AFacts X, c)
  | QCallToRetFlow CallSite Callees =>
      let '(f, c) := getCallToRetFlowFunction TSD zero getAliasSet hasMatchingType
                       CallSite Callees c in (AFlow f, c)
  | QCallToRetEdge CallSite CallNode RetSiteNode Callees =>
      let '(f, c) := getCallToRetEdgeFunction TSD zero getAliasSet hasMatchingType
                       CallSite CallNode RetSiteNode Callees c in (AEdge f, c)
  end.

Fixpoint ask_all (qs : list (TSQuery Val Func)) (c : Caches) : list (TSAnswer State Val) * Caches :=
  match qs with
  | [] => ([], c)
  | q :: qs => let '(a, c) := ask q c in let '(l, c) := ask_all qs c in (a :: l, c)
  end.

Hypothesis alias_partition :
  ∀ v a, a ∈ getAliasSet v → getAliasSet a = getAliasSet v.

Definition relevantAllocas (V : Val) : gset Val :=
  for_each (elements (getAliasSet V)) (allocasOfAlias hasMatchingType) ∅.

Lemma relevantAllocas_alias v a : a ∈ getAliasSet v → relevantAllocas a = relevantAllocas v.
Proof. intros Ha. unfold relevantAllocas. by rewrite (alias_partition v a). Qed.

(** What is cached is what would be computed. *)
Record caches_ok (c : Caches) : Prop := {
  ok_aliases v S : c.(AliasCache) !! v = Some S → S = getAliasSet v;
  ok_allocas v S : c.(RelevantAllocaCache) !! v = Some S → S = relevantAllocas v
}.

Lemma emptyCaches_ok : caches_ok emptyCaches.
Proof. split; intros v S; simpl; by rewrite lookup_empty. Qed.

(** Filling a map for the members of an alias set. *)
Lemma fill_ok (P : Val → bool) (f : Val → gset Val) V X (m : gmap Val (gset Val)) :
  (∀ a, a ∈ getAliasSet V → f a = X) →
  (∀ v S, m !! v = Some S → S = f v) →
  ∀ v S, for_each (elements (getAliasSet V)) (λ a m, if P a then <[a := X]> m else m) m !! v
         = Some S → S = f v.
Proof.
  intros HX Hm.
  apply (for_each_inv (λ m : gmap Val (gset Val), ∀ v S, m !! v = Some S → S = f v)); [done|].
  intros a m' Ha%elem_of_elements Hm' v S. destruct (P a); [|by apply Hm'].
  rewrite lookup_insert. case_decide as Hav; [|by apply Hm'].
  intros [= <-]. subst. by rewrite HX.
Qed.

(** An operation on the caches whose answer does not depend on them. *)
Definition transparent {A} (op : Caches → A * Caches) (a : A) : Prop :=
  ∀ c, caches_ok c → ∃ c', op c = (a, c') ∧ caches_ok c'.

Lemma transparent_ret {A} (a : A) : transparent (λ c, (a, c)) a.
Proof. intros c Hc. eauto. Qed.

Lemma getWMAliasSet_transparent V :
  transparent (getWMAliasSet getAliasSet hasMatchingType V) (getAliasSet V).
Proof.
  intros c [Ha Hr]. unfold getWMAliasSet. destruct (_ !! V) as [S|] eqn:HS.
  - apply Ha in HS as ->. eexists. by split.
  - eexists. split; [done|]. split; simpl; [|done]. intros v S.
    apply (fill_ok hasMatchingType getAliasSet V (getAliasSet V)); auto.
Qed.

Lemma getRelevantAllocas_transparent V :
  transparent (getRelevantAllocas getAliasSet hasMatchingType V) (relevantAllocas V).
Proof.
  intros c Hc. unfold getRelevantAllocas. destruct (_ !! V) as [S|] eqn:HS.
  - apply Hc in HS as ->. eauto.
  - destruct (getWMAliasSet_transparent V c Hc) as (c' & -> & [Ha Hr]).
    eexists. split; [done|]. split; simpl; [done|]. intros v S.
    apply (fill_ok (λ _, true) relevantAllocas V (relevantAllocas V)); auto using relevantAllocas_alias.
Qed.

Lemma getWMAliasesAndAllocas_transparent V :
  transparent (getWMAliasesAndAllocas getAliasSet hasMatchingType V)
    (getAliasSet V ∪ relevantAllocas V).
Proof.
  intros c Hc. unfold getWMAliasesAndAllocas.
  destruct (getRelevantAllocas_transparent V c Hc) as (c1 & -> & Hc1).
  destruct (getWMAliasSet_transparent V c1 Hc1) as (c2 & -> & Hc2). eauto.
Qed.

(** ** The queries of the solver *)

Lemma getNormalFlowFunction_transparent Curr :
  ∃ f, transparent (getNormalFlowFunction zero getAliasSet hasMatchingType Curr) f.
Proof.
  unfold getNormalFlowFunction.
  destruct (_ && _); [eauto using transparent_ret|].
  destruct (dyn_cast_LoadInst Curr); [destruct (hasMatchingType _); eauto using transparent_ret|].
  destruct (dyn_cast_GetElementPtrInst Curr);
    [destruct (hasMatchingType _); eauto using transparent_ret|].
  destruct (dyn_cast_StoreInst Curr) as [[v p]|]; [|eauto using transparent_ret].
  destruct (hasMatchingType Curr); [|eauto using transparent_ret].
  eexists. intros c Hc. unfold getLocalAliasesAndAllocas.
  destruct (getRelevantAllocas_transparent p c Hc) as (c' & -> & Hc'). eauto.
Qed.

Lemma collectAllocas_transparent l R :
  ∃ R', transparent (λ c, for_each l
    (λ Fact '(RelAllocas, c),
       let '(Allocas, c) := getRelevantAllocas getAliasSet hasMatchingType Fact c in
       (Allocas ∪ RelAllocas, c)) (R, c)) R'.
Proof.
  revert R. induction l as [|x l IH]; intros R; [eauto using transparent_ret|].
  destruct (IH (relevantAllocas x ∪ R)) as [R' HR']. exists R'. intros c Hc.
  rewrite for_each_cons. destruct (getRelevantAllocas_transparent x c Hc) as (c' & -> & Hc').
  by apply HR'.
Qed.

Lemma getRetFlowFunction_transparent CallSite CalleeFun ExitStmt Source :
  ∃ X, transparent (getRetFlowFunction zero getAliasSet hasMatchingType getVaListTagOrNull
                      CallSite CalleeFun ExitStmt Source) X.
Proof.
  unfold getRetFlowFunction. destruct (decide (Source = zero)); [eauto using transparent_ret|].
  set (Res := if decide (getReturnValue _ = _) then _ else _).
  destruct (collectAllocas_transparent (elements Res) ∅) as [R HR].
  eexists. intros c Hc. destruct (HR c Hc) as (c' & -> & Hc'). eauto.
Qed.

Lemma getCallToRetFlowFunction_transparent CallSite Callees :
  ∃ f, transparent (getCallToRetFlowFunction TSD zero getAliasSet hasMatchingType CallSite Callees) f.
Proof.
  unfold getCallToRetFlowFunction. generalize false.
  induction Callees as [|Callee Callees IH]; intros b; simpl.
  { destruct (negb b); eauto using transparent_ret. }
  destruct (isFactoryFunction _ _); [eauto using transparent_ret|].
  destruct (_ && _); [|apply IH]. destruct (list_find _ _) as [[i Arg]|]; [|apply IH].
  eexists. intros c Hc.
  destruct (getWMAliasesAndAllocas_transparent Arg c Hc) as (c' & -> & Hc'). eauto.
Qed.

Lemma consumer_loop_transparent CallSite CallNode RetSiteNode Name Idxs :
  ∃ r, transparent (consumer_loop (State := State) getAliasSet hasMatchingType
                      CallSite CallNode RetSiteNode Name Idxs) r.
Proof.
  induction Idxs as [|Idx Idxs [r IH]]; simpl; [eauto using transparent_ret|].
  destruct (decide (CallNode = RetSiteNode ∧ CallNode ∈
    getAliasSet (getArgOperand CallSite Idx) ∪ relevantAllocas (getArgOperand CallSite Idx))) as [Hd|Hd];
    eexists; intros c Hc;
    destruct (getWMAliasesAndAllocas_transparent (getArgOperand CallSite Idx) c Hc) as (c' & -> & Hc').
  - rewrite decide_True by done. eauto.
  - rewrite decide_False by done. by apply IH.
Qed.

Lemma getCallToRetEdgeFunction_transparent CallSite CallNode RetSiteNode Callees :
  ∃ f, transparent (getCallToRetEdgeFunction TSD zero getAliasSet hasMatchingType
                      CallSite CallNode RetSiteNode Callees) f.
Proof.
  induction Callees as [|Callee Callees [f IH]]; simpl; [eauto using transparent_ret|].
  destruct (_ && _); [eauto using transparent_ret|].
  destruct (isConsumingFunction TSD _); [|by eauto].
  destruct (consumer_loop_transparent CallSite CallNode RetSiteNode (getName Callee)
    (getConsumerParamIdx TSD (getName Callee))) as [[g|] Hg].
  - exists g. intros c Hc. destruct (Hg c Hc) as (c' & -> & Hc'). eauto.
  - exists f. intros c Hc. destruct (Hg c Hc) as (c' & -> & Hc'). by apply IH.
Qed.

Lemma ask_transparent q : ∃ a, transparent (ask q) a.
Proof.
  destruct q as [Curr|CS F E S|CS Cs|CS n r Cs].
  - destruct (getNormalFlowFunction_transparent Curr) as [f Hf]. exists (AFlow f).
    intros c Hc. simpl. destruct (Hf c Hc) as (c' & -> & Hc'). eauto.
  - destruct (getRetFlowFunction_transparent CS F E S) as [X HX]. exists (AFacts X).
    intros c Hc. simpl. destruct (HX c Hc) as (c' & -> & Hc'). eauto.
  - destruct (getCallToRetFlowFunction_transparent CS Cs) as [f Hf]. exists (AFlow f).
    intros c Hc. simpl. destruct (Hf c Hc) as (c' & -> & Hc'). eauto.
  - destruct (getCallToRetEdgeFunction_transparent CS n r Cs) as [f Hf]. exists (AEdge f).
    intros c Hc. simpl. destruct (Hf c Hc) as (c' & -> & Hc'). eauto.
Qed.

Lemma ask_all_transparent qs c :
  caches_ok c → (ask_all qs c).1 = (λ q, (ask q emptyCaches).1) <$> qs.
Proof.
  revert c. induction qs as [|q qs IH]; intros c Hc; simpl; [done|].
  destruct (ask_transparent q) as [a Ha].
  destruct (Ha emptyCaches emptyCaches_ok) as (c0 & -> & _).
  destruct (Ha c Hc) as (c' & -> & Hc'). simpl. specialize (IH c' Hc').
  destruct (ask_all qs c') as [l c'']. simpl in *. by rewrite IH.
Qed.
End caches.
