(* ===== verification/IFDS.v ===== *)
(** IFDS problems as IDE problems (DataFlow/IfdsIde/IFDSTabulationProblem.h,
    IfdsToIdeProblemAdapter.h): the value domain is [BinaryDomain] and every edge
    function is [EdgeIdentity], so the solver decides reachability in the exploded
    supergraph. *)
From S2P Require Import Prelude JoinLattice EdgeFunctionUtils Table JumpFunctions IDEProblem IDESolver IDESolverEffects IDESolverFixpoint IDESolverPaths.

#[export] Instance Binary_NonTopBot : NonTopBotValue BinaryDomain.t BinaryDomain.t :=
  {| unwrap := Some; wrap := id |}.

(** The edge functions that arise in an IFDS problem: [EdgeIdentity], and
    [AllTop] for what is not reached. *)
Inductive IfdsEF := IIdentity | ITop.

#[export] Instance IfdsEF_eq_dec : EqDecision IfdsEF.
Proof. solve_decision. Defined.

Abbreviation BinaryEF := (EdgeFunction BinaryDomain.t BinaryDomain.t Empty_set).

Definition ifds_embed (f : IfdsEF) : BinaryEF :=
  match f with IIdentity => EdgeIdentity | ITop => EdgeFunctionUtils.AllTop end.

Definition ifds_project (r : Outcome BinaryEF) : IfdsEF :=
  match r with Returns EdgeIdentity => IIdentity | _ => ITop end.

(** [DefaultSemiRing] on these functions. *)
Definition ifds_compose (f g : IfdsEF) : Outcome BinaryEF :=
  compose true (ifds_embed f) (ifds_embed g).
Definition ifds_joinWith (f g : IfdsEF) : Outcome BinaryEF :=
  joinWith 0 (λ _ _, false) true (ifds_embed f) (ifds_embed g).

Lemma ifds_compose_closed f g : ifds_compose f g = Returns (ifds_embed (ifds_project (ifds_compose f g))).
Proof. by destruct f, g. Qed.
Lemma ifds_joinWith_closed f g :
  ifds_joinWith f g = Returns (ifds_embed (ifds_project (ifds_joinWith f g))).
Proof. by destruct f, g. Qed.

#[export] Instance IfdsSemiRing : SemiRing BinaryDomain.t IfdsEF := {|
  extend f g := ifds_project (ifds_compose f g);
  combine f g := ifds_project (ifds_joinWith f g);
  identity := IIdentity;
  allTopFunction := ITop;
  isAllTop f := isa_AllTop (ifds_embed f);
  IDEProblem.computeTarget f := EdgeFunctionUtils.computeTarget (ifds_embed f)
|}.

#[export] Instance IfdsSemiRing_laws : SemiRingLaws BinaryDomain.t IfdsEF.
Proof.
  split; repeat intros []; try done; simpl; intros; done.
Qed.

#[export] Instance IfdsSemiRing_distributive : SemiRingDistributive BinaryDomain.t IfdsEF.
Proof. split; by intros [] [] []. Qed.

#[export] Instance IfdsEF_height : EFHeight BinaryDomain.t IfdsEF.
Proof.
  refine {| height f := match f with ITop => 1 | IIdentity => 0 end |}.
  intros [] [] Hle Hne; (congruence || lia || discriminate Hle).
Defined.

(** [IFDSTabulationProblem]: the edge functions of any problem on binary values
    replaced by the identity. *)
Definition IFDSTabulationProblem {N D F} `{Countable N, Countable D}
    (P : IDETabulationProblem N D F BinaryDomain.t IfdsEF) :
    IDETabulationProblem N D F BinaryDomain.t IfdsEF := {|
  getNormalFlowFunction := getNormalFlowFunction P;
  getCallFlowFunction := getCallFlowFunction P;
  getRetFlowFunction := getRetFlowFunction P;
  getCallToRetFlowFunction := getCallToRetFlowFunction P;
  getSummaryFlowFunction := getSummaryFlowFunction P;
  getNormalEdgeFunction _ _ _ _ := IIdentity;
  getCallEdgeFunction _ _ _ _ := IIdentity;
  getReturnEdgeFunction _ _ _ _ _ _ := IIdentity;
  getCallToRetEdgeFunction _ _ _ _ _ := IIdentity;
  getSummaryEdgeFunction _ _ _ _ := IIdentity;
  getZeroValue := getZeroValue P;
  isZeroValue := isZeroValue P;
  initialSeeds := initialSeeds P;
  getIFDSIDESolverConfig := getIFDSIDESolverConfig P
|}.

Section reachability.
Context {N D F : Type} `{Countable N, Countable D}.
Context (ICF : ICFG N D F) (P0 : IDETabulationProblem N D F BinaryDomain.t IfdsEF) `{!ICFGLaws ICF}.
Abbreviation P := (IFDSTabulationProblem P0).
Local Open Scope phasar_scope.

(** Same-level reachability in the exploded supergraph, from the fact [d1] at
    the start of the function of [n]. *)
Inductive reach : D → N → D → Prop :=
  | reach_seed SP d : seed_fact P SP d → reach d SP d
  | reach_local d1 n d2 n' d3 g :
      reach d1 n d2 → local_edge ICF P n d2 n' d3 g → reach d1 n' d3
  | reach_call d1 n d2 Callee SP d3 :
      reach d1 n d2 → call_edge ICF P n d2 Callee SP d3 → reach d3 SP d3
  | reach_return d1 c d2 Callee SP d3 eP d4 n' d5 f4 f5 :
      reach d1 c d2 → call_edge ICF P c d2 Callee SP d3 → reach d3 eP d4 → exit_node ICF eP →
      getFunctionOf ICF eP = Callee → return_edge ICF P c d2 Callee d3 eP d4 n' d5 f4 f5 →
      reach d1 n' d5
  | reach_unbalanced d1 eP d2 n' d5 f5 :
      unb_flag P d1 eP → reach d1 eP d2 → exit_node ICF eP →
      unbalanced_edge ICF P eP d2 n' d5 f5 → reach (ZeroValue P) n' d5.

Lemma local_edge_id n d2 n' d3 g : local_edge ICF P n d2 n' d3 g → g = IIdentity.
Proof. by intros []. Qed.
Lemma return_edge_id c d2 C d3 eP d4 n' d5 f4 f5 :
  return_edge ICF P c d2 C d3 eP d4 n' d5 f4 f5 → f4 = IIdentity ∧ f5 = IIdentity.
Proof. by intros []. Qed.
Lemma unbalanced_edge_id eP d2 n' d5 f5 : unbalanced_edge ICF P eP d2 n' d5 f5 → f5 = IIdentity.
Proof. by intros []. Qed.

(** Every path function is the identity. *)
Lemma path_fn_reach d1 n d2 f : path_fn ICF P d1 n d2 f → reach d1 n d2 ∧ f = IIdentity.
Proof.
  induction 1 as [SP d Hs|d1 n d2 f n' d3 g Hp [IH ->] Hne Hl|d1 n d2 f C SP d3 Hp [IH ->] Hne Hc
    |d1 c d2 f C SP d3 eP d4 fs n' d5 f4 f5 Hp [IH ->] Hne Hc Hps [IHs ->] Hnes Hx Hf Hr
    |d1 eP d2 f n' d5 f5 Hfl Hp [IH ->] Hne Hx Hu].
  - by split; [constructor|].
  - split; [by eapply reach_local|]. by apply local_edge_id in Hl as ->.
  - by split; [by eapply reach_call|].
  - split; [by eapply reach_return|]. by apply return_edge_id in Hr as [-> ->].
  - split; [by eapply reach_unbalanced|]. by apply unbalanced_edge_id in Hu as ->.
Qed.

Lemma reach_path_fn d1 n d2 : reach d1 n d2 → path_fn ICF P d1 n d2 IIdentity.
Proof.
  assert (IIdentity ≠ AllTop) as Hne by done.
  induction 1 as [SP d Hs|d1 n d2 n' d3 g Hp IH Hl|d1 n d2 C SP d3 Hp IH Hc
    |d1 c d2 C SP d3 eP d4 n' d5 f4 f5 Hp IH Hc Hps IHs Hx Hf Hr
    |d1 eP d2 n' d5 f5 Hfl Hp IH Hx Hu].
  - exact (path_seed ICF P SP d Hs).
  - pose proof (local_edge_id _ _ _ _ _ Hl) as ->. exact (path_local _ _ _ _ _ _ _ _ _ IH Hne Hl).
  - exact (path_call _ _ _ _ _ _ _ _ _ IH Hne Hc).
  - pose proof (return_edge_id _ _ _ _ _ _ _ _ _ _ Hr) as [-> ->].
    exact (path_return _ _ _ _ _ _ _ _ _ _ _ _ _ _ _ _ IH Hne Hc IHs Hne Hx Hf Hr).
  - pose proof (unbalanced_edge_id _ _ _ _ _ Hu) as ->.
    exact (path_unbalanced _ _ _ _ _ _ _ _ _ Hfl IH Hne Hx Hu).
Qed.
End reachability.
