(* ===== verification/FrameworkProperties.v ===== *)
(** The theorems about the building blocks of the IFDS/IDE framework: value
    lattices, edge functions, tables, jump functions, options, seeds, results.
    They put the lemmas of the component files together; each one that has
    hypotheses is followed by a concrete instance. *)
From S2P Require Import Prelude JoinLattice EdgeFunctionUtils Table JumpFunctions IDEProblem SolverResults.
Import EdgeFunctionUtils.
Local Open Scope phasar_scope.

(** * Value lattices *)

(** [LatticeDomain<L>] with its own join is a join lattice from [Top] to
    [Bottom] whose order is flat on the values, and its [operator==] is equality. *)
Theorem lattice_domain_is_flat_join_lattice {L} `{EqDecision L} :
  JoinLatticeLaws (LatticeDomain L) ∧
  (∀ a b : L, lat_le (Value a) (Value b) ↔ a = b) ∧
  ∀ x y : LatticeDomain L, LatticeDomainOps.eqb x y = true ↔ x = y.
Proof.
  split; [apply _|]. split.
  - intros a b. unfold lat_le. simpl. rewrite join_flat. simpl.
    case_bool_decide; split; intros; simplify_eq; done.
  - intros x y. rewrite eqb_spec. apply bool_decide_eq_true.
Qed.

(** [operator<] of [LatticeDomain<L>] never reaches its [llvm_unreachable],
    and is a strict total order whenever [operator<] of [L] is one. *)
Theorem lattice_domain_ltb_strict_total_order {L} `{EqDecision L} (ltL : L → L → bool) :
  (∀ a, ltL a a = false) → (∀ a b c, ltL a b = true → ltL b c = true → ltL a c = true) →
  (∀ a b, ltL a b = false → ltL b a = false → a = b) →
  (∀ x y, is_Some (LatticeDomainOps.ltb ltL x y)) ∧
  (∀ x, LatticeDomainOps.ltb ltL x x = Some false) ∧
  (∀ x y z, LatticeDomainOps.ltb ltL x y = Some true → LatticeDomainOps.ltb ltL y z = Some true →
     LatticeDomainOps.ltb ltL x z = Some true) ∧
  (∀ x y, LatticeDomainOps.ltb ltL x y = Some false → LatticeDomainOps.ltb ltL y x = Some false →
     x = y).
Proof.
  intros Hirr Htr Htot. split; [intros; apply ltb_defined|].
  split; [by intros; apply ltb_irrefl|]. split; [intros x y z; by apply ltb_trans|].
  intros x y. by apply ltb_total.
Qed.

Lemma lattice_domain_ltb_strict_total_order_witness :
  LatticeDomainOps.ltb Z.ltb Top (Value 3%Z) = Some true ∧
  ∀ x, LatticeDomainOps.ltb Z.ltb x x = Some false.
Proof.
  split; [reflexivity|].
  destruct (lattice_domain_ltb_strict_total_order Z.ltb) as (_ & Hirr & _).
  - intros a. apply Z.ltb_irrefl.
  - intros a b c. rewrite !Z.ltb_lt. lia.
  - intros a b. rewrite !Z.ltb_ge. lia.
  - exact Hirr.
Defined.

(** * Edge functions *)

Section edge_functions.
Context {L V U : Type} `{EqDecision L, EqDecision V, EqDecision U}.
Context `{JoinLatticeLaws L, !NonTopBotValue L V, !NonTopBotValueLaws L V}.
Context {targets : UserTargets L U} `{!UserEdgeFunctions L V U}.
Context `{!UserComposeLaws L V U, !UserJoinLaws L V U}.
Abbreviation EF := (EdgeFunction L V U).
Context (N : nat) (ef_ltb : EF → EF → bool) (IsSOOCandidate : bool).

(** [composeWith] is composition: applied to a source value, the composed
    function gives what the second function makes of the result of the first.
    The first one is not [AllTop], the marker of unreached edges. *)
Theorem compose_is_composition (f g h : EF) (x : L) :
  starts_reached f = true → compose IsSOOCandidate f g = Returns h →
  computeTarget h x = computeTarget g (computeTarget f x).
Proof. apply compose_sound. Qed.

(** [AllTop::compose] composes exactly when the second function is constant
    or keeps [top]; for no other function does the documented contract of
    [composeWith] hold. *)
Theorem AllTop_compose_exactness (g : EF) (x : L) :
  computeTarget (AllTop_compose g) x = computeTarget g (computeTarget (AllTop : EF) x) ↔
  isConstant g = true ∨ computeTarget g top = top.
Proof. symmetry. apply AllTop_compose_exact. Qed.

(** No exception leaves [composeWith] when neither function maps a value
    other than [top] to [top]. *)
Theorem compose_throws_nothing `{!NonTopValueLaws L V} (f g : EF) :
  bottom (L := L) ≠ top → composes_without_throw f → keeps_reached g →
  ∃ h, compose IsSOOCandidate f g = Returns h.
Proof. intros; by apply compose_returns. Qed.

(** The one way [AllBottom::compose] throws: [NonTopBotValue::unwrap] of
    the [top] that a non-constant second function makes of [bottom], a value
    [ConstantEdgeFunction::compose] handles. *)
Theorem AllBottom_compose_throws_on_top `{!NonTopValueLaws L V} (g : EF) (v : V) :
  bottom (L := L) ≠ top → isConstant g = false →
  computeTarget g bottom = top → computeTarget g (wrap v) = top →
  compose IsSOOCandidate AllBottom g = Throws ∧
  compose IsSOOCandidate (ConstantEdgeFunction v) g = Returns AllTop.
Proof.
  intros Hbt Hc Hb Hv. split; [by apply AllBottom_compose_throws|].
  assert (isa_EdgeIdentity g = false) as Hid.
  { by destruct g. }
  simpl. unfold ConstantEdgeFunction_compose, defaultComposeOrNull_ref. rewrite Hid, Hc, Hv.
  rewrite bool_decide_eq_false_2 by (intros Heq; by apply (wrap_not_top v)).
  rewrite andb_false_r. simpl. rewrite decide_False by congruence. by rewrite decide_True.
Qed.

(** [joinWith] returns an upper bound: the joined function is above both
    functions at every source value. [std::set_union] needs the comparison of
    functions to be connected for that. *)
Theorem joinWith_is_upper_bound (f g h : EF) (x : L) :
  (∀ f g, ef_ltb f g = false → ef_ltb g f = false → f = g) →
  joinWith N ef_ltb IsSOOCandidate f g = Returns h →
  computeTarget f x ⊑ₗ computeTarget h x ∧ computeTarget g x ⊑ₗ computeTarget h x.
Proof. intros Hlt Hj. by apply (joinWith_ub N ef_ltb IsSOOCandidate Hlt f g h Hj). Qed.

(** [JoinEdgeFunction<L, N>::create] never builds a function with more than
    [N] members, and computes the join of its members although it stops at
    [bottom]. *)
Theorem JoinEdgeFunction_bounded (f g : EF) (s : L) (fs : list EF) (x : L) :
  join_bounded N (JoinEdgeFunction_create N ef_ltb f g) = true ∧
  computeTarget (JoinEdgeFunction s fs) x = foldl join s ((λ f, computeTarget f x) <$> fs).
Proof. split; [apply JoinEdgeFunction_create_bounded | apply JoinEdgeFunction_computeTarget]. Qed.
End edge_functions.

(** An analysis whose one edge function forgets everything it is given. *)
Inductive Forget := forget.
#[local] Instance Forget_eq_dec : EqDecision Forget.
Proof. solve_decision. Defined.
#[local] Instance Forget_targets : UserTargets (LatticeDomain Z) Forget := {|
  user_computeTarget _ _ := Top;
  user_isConstant _ := false
|}.
#[local] Instance Forget_functions : UserEdgeFunctions (LatticeDomain Z) Z Forget := {|
  user_compose u g := if isa_EdgeIdentity g then Returns (UserEF u) else Throws;
  user_join u g := if isa_AllTop g then Returns (UserEF u) else Returns AllBottom;
  derived_composer_join _ _ _ := Returns AllBottom
|}.
#[local] Instance Forget_compose_laws : UserComposeLaws (LatticeDomain Z) Z Forget.
Proof.
  split; [done|]. intros u g h Hc x. simpl in Hc. destruct g; simplify_eq/=; done.
Qed.
#[local] Instance Forget_join_laws : UserJoinLaws (LatticeDomain Z) Z Forget.
Proof.
  split.
  - intros u g h Hj x. split; [exact (lat_le_top (computeTarget h x))|].
    simpl in Hj. destruct g; simplify_eq/=; try exact (lat_le_bottom _). exact (lat_le_top _).
  - intros f1 f2 g h [= <-] x. split; exact (lat_le_bottom _).
Qed.

Abbreviation DemoEF := (EdgeFunction (LatticeDomain Z) Z Forget).

Lemma compose_is_composition_witness :
  starts_reached (ConstantEdgeFunction 3%Z : DemoEF) = true ∧
  compose true (ConstantEdgeFunction 3%Z : DemoEF) (UserEF forget) = Returns AllTop ∧
  ∀ x, computeTarget (AllTop : DemoEF) x =
       computeTarget (UserEF forget : DemoEF) (computeTarget (ConstantEdgeFunction 3%Z : DemoEF) x).
Proof.
  split; [reflexivity|]. split; [reflexivity|]. intros x.
  apply (compose_is_composition true (ConstantEdgeFunction 3%Z : DemoEF) (UserEF forget) AllTop x);
    reflexivity.
Defined.

Lemma AllTop_compose_exactness_witness :
  computeTarget (AllTop_compose (UserEF forget : DemoEF)) (Value 1%Z) =
  computeTarget (UserEF forget : DemoEF) (computeTarget (AllTop : DemoEF) (Value 1%Z)) ↔
  isConstant (UserEF forget : DemoEF) = true ∨ computeTarget (UserEF forget : DemoEF) top = top.
Proof. apply (AllTop_compose_exactness (UserEF forget : DemoEF) (Value 1%Z)). Defined.

Lemma compose_throws_nothing_witness :
  ∃ h, compose true (AllBottom : DemoEF) (ConstantEdgeFunction 4%Z) = Returns h.
Proof.
  apply (compose_throws_nothing true (AllBottom : DemoEF) (ConstantEdgeFunction 4%Z)).
  - discriminate.
  - intros x Hx. discriminate.
  - intros x Hx. discriminate.
Defined.

Lemma AllBottom_compose_throws_on_top_witness :
  compose true (AllBottom : DemoEF) (UserEF forget) = Throws ∧
  compose true (ConstantEdgeFunction 3%Z : DemoEF) (UserEF forget) = Returns AllTop.
Proof.
  apply (AllBottom_compose_throws_on_top true (UserEF forget : DemoEF) 3%Z);
    first [reflexivity | discriminate].
Defined.

Definition differs (f g : DemoEF) : bool := negb (bool_decide (f = g)).

Lemma JoinEdgeFunction_bounded_witness :
  join_bounded 1 (JoinEdgeFunction_create 1 differs (UserEF forget) EdgeIdentity) = true ∧
  computeTarget (JoinEdgeFunction Top [EdgeIdentity; UserEF forget] : DemoEF) (Value 1%Z) =
  foldl join Top ((λ f, computeTarget f (Value 1%Z)) <$> [EdgeIdentity; UserEF forget : DemoEF]).
Proof.
  apply (JoinEdgeFunction_bounded 1 differs (UserEF forget) EdgeIdentity Top
    [EdgeIdentity; UserEF forget] (Value 1%Z)).
Defined.

Lemma joinWith_is_upper_bound_witness :
  joinWith 2 differs true (ConstantEdgeFunction 3%Z) EdgeIdentity = Returns AllBottom ∧
  computeTarget (ConstantEdgeFunction 3%Z : DemoEF) (Value 1%Z) ⊑ₗ Bottom.
Proof.
  split; [reflexivity|].
  refine (proj1 (joinWith_is_upper_bound 2 differs true (ConstantEdgeFunction 3%Z) EdgeIdentity
    AllBottom (Value 1%Z) _ eq_refl)).
  intros f g Hfg _. unfold differs in Hfg. apply negb_false_iff in Hfg.
  exact (bool_decide_eq_true_1 _ Hfg).
Defined.

(** * Tables and jump functions *)

Section containers.
Context {D N EF : Type} `{Countable D, Countable N}.
Context (isAllTop : EF → bool).

(** C39: what the three tables of [JumpFunctions] hold after every sequence of
    operations. From its target and from its source an edge is found with the
    function that was added last, unless that edge was removed (or everything was
    cleared) since; [AllTop] is never stored. By its target node it is found with
    the same function as long as no edge to that node was removed: a removal drops
    all edges to the node from this table. *)
Theorem jump_functions_three_views (ops : list (jf_op D N EF)) d n d' :
  let jf := for_each ops (jf_step isAllTop) empty in
  reverseLookup n d' jf ≫= assoc_find d = stored isAllTop ops d n d' ∧
  forwardLookup d n jf ≫= assoc_find d' = stored isAllTop ops d n d' ∧
  Table.lookup (lookupByTarget n jf).1 d d' = stored_at_target isAllTop ops d n d' ∧
  (∀ f, stored isAllTop ops d n d' = Some f → isAllTop f = false) ∧
  ((∀ d0 d0', OpRemove d0 n d0' ∉ ops) → stored_at_target isAllTop ops d n d' = stored isAllTop ops d n d').
Proof.
  destruct (jf_run isAllTop ops) as (_ & Hr & Hf & Ht). cbv zeta. split; [apply Hr|]. split; [apply Hf|].
  split; [rewrite (proj2 (target_lookup_lookupByTarget n _ d n d')); apply Ht|].
  split; [intros f; apply stored_not_top|]. apply stored_at_target_eq.
Qed.

(** [removeFunction] erases every jump function of the target node from the
    third table, not only the one it removes, and reports success whenever the
    node had an entry. *)
Theorem removeFunction_erases_node (jf : JumpFunctions D N EF) d n d' d0 d0' :
  wf jf →
  let '(removed, jf') := removeFunction d n d' jf in
  Table.lookup (lookupByTarget n jf').1 d0 d0' = None ∧
  ((d0, d0') ≠ (d, d') → jf_lookup jf' d0 n d0' = jf_lookup jf d0 n d0') ∧
  (is_Some (jf_lookup jf d0 n d0') → removed = true).
Proof.
  intros Hwf. unfold removeFunction. split; [|split].
  - simpl. by rewrite lookup_delete_eq.
  - intros Hne. unfold jf_lookup. rewrite !reverseLookup_spec. simpl.
    rewrite table_lookup_update. destruct (decide (n = n ∧ d' = d0')) as [[_ <-]|]; [|done].
    simpl. destruct (Table.lookup _ n d') as [l|]; simpl.
    + apply assoc_find_erase_ne. congruence.
    + done.
  - intros [f Hf]. apply bool_decide_eq_true. rewrite <- (wf_byTarget _ Hwf) in Hf.
    destruct (NonEmptyLookupByTargetNode jf !! n); [by eauto|done].
Qed.

(** [Table]: a removed cell is gone and its old value is returned, an
    inserted one is found, every other cell is untouched, an emptied row
    disappears from [containsRow], and [cellVec] lists exactly the cells. *)
Theorem table_operations {V} (dflt v : V) (t : Table D N V) r c r' c' :
  let '(old, t') := Table.remove dflt t r c in
  old = default dflt (Table.lookup t r c) ∧
  Table.lookup t' r' c' = (if decide (r = r' ∧ c = c') then None else Table.lookup t r' c') ∧
  Table.lookup (Table.insert t r c v) r' c' =
    (if decide (r = r' ∧ c = c') then Some v else Table.lookup t r' c') ∧
  (Table.lookup t r c = Some v → Table.containsRow t' r = true →
     ∃ c0, Table.contains t' r c0 = true) ∧
  (∀ w, (r', c', w) ∈ Table.cellVec t ↔ Table.lookup t r' c' = Some w).
Proof.
  destruct (table_remove_spec dflt t r c) as [Hold Hl].
  pose proof (table_remove_row dflt t r c v) as Hrow.
  destruct (Table.remove dflt t r c) as [old t']. simpl in *.
  split; [done|]. split; [apply Hl|]. split; [apply table_lookup_insert|].
  split; [done|]. intros w. apply table_cellVec_elem.
Qed.
End containers.

Lemma removeFunction_erases_node_witness :
  let jf := addFunction (λ _, false) 1 5 1 7 (addFunction (λ _, false) 2 5 2 8 empty) in
  jf_lookup jf 2 5 2 = Some 8 ∧
  Table.lookup (lookupByTarget 5 (removeFunction 1 5 1 jf).2).1 2 2 = (None : option nat).
Proof.
  split; [vm_compute; reflexivity|].
  exact (proj1 (removeFunction_erases_node
    (addFunction (λ _, false) 1 5 1 7 (addFunction (λ _, false) 2 5 2 8 empty)) 1 5 1 2 2
    (wf_add _ _ _ _ _ _ (wf_add _ _ _ _ _ _ wf_empty)))).
Defined.

(** * Options, seeds and results *)

Section options.
Import EnumFlags IFDSIDESolverConfig.

(** Setting one option of the [IFDSIDESolverConfig] to [b] makes exactly
    that option read as [b]; every other one reads as before. *)
Theorem solver_option_set_get (c : t) (o o' : SolverConfigOptions) (b : bool) :
  is_Some (option_bit o) → is_Some (option_bit o') →
  has (set c o b) o' = if decide (option_bit o = option_bit o') then b else has c o'.
Proof.
  intros [i Hi] [j Hj]. rewrite !(has_bit _ o' j) by done. unfold set.
  destruct (value_bit o i Hi) as [Hv Hb]. destruct (value_bit o' j Hj) as [_ Hb'].
  rewrite setFlagTo_testbit, Hv, Hi, Hj by lia.
  destruct (decide (Some i = Some j)) as [[= ->]|Hne].
  - by rewrite Z.pow2_bits_true by lia.
  - rewrite Z.pow2_bits_false; [done|congruence].
Qed.
End options.

Lemma solver_option_set_get_witness :
  IFDSIDESolverConfig.has
    (IFDSIDESolverConfig.set IFDSIDESolverConfig.default_config IFDSIDESolverConfig.AutoAddZero false)
    IFDSIDESolverConfig.ComputeValues = true.
Proof.
  exact (solver_option_set_get IFDSIDESolverConfig.default_config IFDSIDESolverConfig.AutoAddZero
    IFDSIDESolverConfig.ComputeValues false ltac:(eexists; reflexivity) ltac:(eexists; reflexivity)).
Defined.

(** [addSeed] makes exactly the given fact a seed of the node with the given
    value; the node counts one more seed if the fact was not seeded before. *)
Theorem addSeed_seeds_and_counts {N D L} `{Countable N, Countable D}
    (Seeds : gmap N (gmap D L)) Node Fact Value n d v :
  (InitialSeeds.seeded (InitialSeeds.addSeed Node Fact Value Seeds) n d v ↔
   if decide (n = Node ∧ d = Fact) then v = Value else InitialSeeds.seeded Seeds n d v) ∧
  InitialSeeds.countInitialSeedsAt (InitialSeeds.addSeed Node Fact Value Seeds) Node =
    match Seeds !! Node ≫= λ Facts, Facts !! Fact with
    | Some _ => InitialSeeds.countInitialSeedsAt Seeds Node
    | None => S (InitialSeeds.countInitialSeedsAt Seeds Node)
    end ∧
  InitialSeeds.containsInitialSeedsFor (InitialSeeds.addSeed Node Fact Value Seeds) Node = true.
Proof.
  split; [apply InitialSeeds.seeded_addSeed|]. split; [apply InitialSeeds.countInitialSeeds_add|].
  unfold InitialSeeds.containsInitialSeedsFor, InitialSeeds.addSeed. rewrite lookup_insert_eq.
  apply bool_decide_eq_true. eauto.
Qed.

(** The queries on [SolverResults] agree: the row of a statement, without the
    zero value when asked so, the IFDS facts and the enumeration of all entries
    show the same table as [resultAt]. *)
Theorem solver_results_agree {N D L} `{Countable N, Countable D} (dflt : L)
    (self : SolverResults N D L) Stmt Node v :
  (resultsAt self Stmt false !! Node = Some v → resultAt dflt self Stmt Node = v) ∧
  (resultsAt self Stmt true !! Node = Some v ↔
   Node ≠ ZV self ∧ resultsAt self Stmt false !! Node = Some v) ∧
  (Node ∈ ifdsResultsAt self Stmt ↔ is_Some (resultsAt self Stmt false !! Node)) ∧
  ((Stmt, Node, v) ∈ foreachResultEntry (λ c l, l ++ [c]) self [] ↔
   resultsAt self Stmt false !! Node = Some v).
Proof.
  rewrite !resultsAt_lookup, ifdsResultsAt_elem, resultAt_lookup.
  rewrite (decide_False (P := false = true ∧ _)) by naive_solver. split; [by intros ->|].
  split; [destruct (decide _); naive_solver|]. split; [done|].
  rewrite foreachResultEntry_cells. unfold getAllResultEntries.
  rewrite <- table_cellVec_elem. generalize (Table.cellVec (Results self)). intros l.
  assert (∀ l0, for_each l (λ c l, l ++ [c]) l0 = l0 ++ l) as ->; [|done].
  induction l as [|c l IH]; intros l0; [by rewrite app_nil_r|].
  by rewrite for_each_cons, IH, <- app_assoc.
Qed.
