(* ===== verification/IDESolverExample.v ===== *)
(** A small program on which the solver runs: [main] calls [f] twice, [f]
    returns its argument; constant propagation on three facts. It is the
    concrete input of the witnesses of the solver's theorems. *)
From S2P Require Import Prelude JoinLattice Table JumpFunctions IDEProblem DefaultSemiRing IDESolver IDESolverEffects IDESolverFixpoint IDESolverPaths IDESolverValues IFDS.

Module Example.
(** Nodes: [main] is 0: x = 5; 1: r = f(x); 2: r = f(x); 3: exit.
    [f(p)] is 10: nop; 11: return p. *)
Definition icfg : ICFG nat nat nat := {|
  getSuccsOf n := match n with 0 => [1] | 1 => [2] | 2 => [3] | 10 => [11] | _ => [] end;
  isCallSite n := match n with 1 | 2 => true | _ => false end;
  isExitInst n := match n with 3 | 11 => true | _ => false end;
  isStartPoint n := match n with 0 | 10 => true | _ => false end;
  getFunctionOf n := match n with 10 | 11 => 1 | _ => 0 end;
  getStartPointsOf f := match f with 0 => [0] | 1 => [10] | _ => [] end;
  getCalleesOfCallAt n := match n with 1 | 2 => [1] | _ => [] end;
  getReturnSitesOfCallAt n := match n with 1 => [2] | 2 => [3] | _ => [] end;
  getCallersOf f := match f with 1 => [1; 2] | _ => [] end;
  getCallsFromWithin f := match f with 0 => [1; 2] | _ => [] end;
  allNonCallStartNodes := [3; 11];
  getSparseNextUser := None
|}.

(** Facts: 0 is zero, 1 is x, 2 is p, 3 is r. *)
Definition problem : IDETabulationProblem nat nat nat (LatticeDomain Z) (CoreEF Z) := {|
  getNormalFlowFunction n _ d := if decide (n = 0 ∧ d = 0) then {[0; 1]} else {[d]};
  getCallFlowFunction _ _ d := match d with 0 => {[0]} | 1 => {[2]} | _ => ∅ end;
  getRetFlowFunction _ _ _ _ d := match d with 0 => {[0]} | 2 => {[3]} | _ => ∅ end;
  getCallToRetFlowFunction _ _ _ d := match d with 3 => ∅ | _ => {[d]} end;
  getSummaryFlowFunction _ _ := None;
  getNormalEdgeFunction n d _ d' :=
    if decide (n = 0 ∧ d = 0 ∧ d' = 1) then CConstant 5%Z else CIdentity;
  getCallEdgeFunction _ _ _ _ := CIdentity;
  getReturnEdgeFunction _ _ _ _ _ _ := CIdentity;
  getCallToRetEdgeFunction _ _ _ _ _ := CIdentity;
  getSummaryEdgeFunction _ _ _ _ := CIdentity;
  getZeroValue := 0;
  isZeroValue d := bool_decide (d = 0);
  initialSeeds := {[0 := {[0 := Bottom]}]};
  getIFDSIDESolverConfig := IFDSIDESolverConfig.default_config
|}.

Definition result : option (IDESolver nat nat nat (LatticeDomain Z) (CoreEF Z)) :=
  solve icfg problem 100.
End Example.

Example test_r : (λ st, val 3 3 st) <$> Example.result = Some (Value 5%Z).
Proof. vm_compute. reflexivity. Qed.
Example test_x : (λ st, val 3 1 st) <$> Example.result = Some (Value 5%Z).
Proof. vm_compute. reflexivity. Qed.
Example test_p : (λ st, val 11 2 st) <$> Example.result = Some (Value 5%Z).
Proof. vm_compute. reflexivity. Qed.

(** * What the theorems about the solver ask of the example *)

Module ExampleFacts.
Import Example.

#[global] Instance icfg_laws : ICFGLaws icfg.
Proof.
  split.
  - intros [|[|f]] sp sp'; simpl; rewrite ?list_elem_of_singleton; try congruence.
    by intros ?%elem_of_nil.
  - intros [|[|f]] sp; simpl; rewrite ?list_elem_of_singleton; [by intros ->..|].
    by intros ?%elem_of_nil.
  - intros [|[|f]] sp; simpl; rewrite ?list_elem_of_singleton; [intros ->; set_solver..|].
    by intros ?%elem_of_nil.
Qed.

Definition state_of {A} (o : option A) (d : A) : A := match o with Some a => a | None => d end.

Definition phase1 : IDESolver nat nat nat (LatticeDomain Z) (CoreEF Z) :=
  state_of (solveImpl icfg problem 100) (initialState problem).
Lemma phase1_eq : solveImpl icfg problem 100 = Some phase1.
Proof. vm_compute. reflexivity. Qed.

Definition final : IDESolver nat nat nat (LatticeDomain Z) (CoreEF Z) :=
  state_of (solve icfg problem 100) (initialState problem).
Lemma final_eq : solve icfg problem 100 = Some final.
Proof. vm_compute. reflexivity. Qed.

(** The exploded nodes of the example. *)
Definition nodes : gset nat := {[0; 1; 2; 3; 10; 11]}.
Definition facts : gset nat := {[0; 1; 2; 3]}.
Definition exploded : gset (nat * nat) :=
  list_to_set (n ← elements nodes; d ← elements facts; [(n, d)]).
Definition universe : gset (nat * nat * nat) :=
  list_to_set (d1 ← elements facts; n ← elements nodes; d2 ← elements facts; [(d1, n, d2)]).

Lemma exploded_elem n d : (n, d) ∈ exploded ↔ n ∈ nodes ∧ d ∈ facts.
Proof.
  unfold exploded. rewrite elem_of_list_to_set, list_elem_of_bind.
  setoid_rewrite list_elem_of_bind. setoid_rewrite list_elem_of_singleton.
  setoid_rewrite elem_of_elements. naive_solver.
Qed.

Lemma universe_elem d1 n d2 : (d1, n, d2) ∈ universe ↔ d1 ∈ facts ∧ n ∈ nodes ∧ d2 ∈ facts.
Proof.
  unfold universe. rewrite elem_of_list_to_set, list_elem_of_bind.
  setoid_rewrite list_elem_of_bind. setoid_rewrite list_elem_of_bind.
  setoid_rewrite list_elem_of_singleton. setoid_rewrite elem_of_elements. naive_solver.
Qed.

(** Facts stay facts, and nodes nodes. *)
Lemma zeroed_facts (FF : nat → gset nat) d d' :
  (∀ x, x ∈ FF d → x ∈ facts) → d' ∈ zeroed problem FF d → d' ∈ facts.
Proof.
  intros HF. change (zeroed problem FF) with (ZeroedFlowFunction FF 0).
  unfold ZeroedFlowFunction. case_decide; [|apply HF].
  intros [?%HF|?%elem_of_singleton]%elem_of_union; [done|]. subst. by unfold facts; set_solver.
Qed.

Lemma succ_nodes n n' : n' ∈ getSuccsOf icfg n → n' ∈ nodes.
Proof.
  unfold nodes. do 11 (destruct n as [|n]; [simpl; set_solver|]). simpl. set_solver.
Qed.
Lemma ret_nodes n n' : n' ∈ getReturnSitesOfCallAt icfg n → n' ∈ nodes.
Proof. unfold nodes. do 3 (destruct n as [|n]; [simpl; set_solver|]). simpl. set_solver. Qed.
Lemma start_nodes f n' : n' ∈ getStartPointsOf icfg f → n' ∈ nodes.
Proof. unfold nodes. do 2 (destruct f as [|f]; [simpl; set_solver|]). simpl. set_solver. Qed.

Lemma normal_facts n n' d d' : d ∈ facts → d' ∈ cachedNormalFF problem n n' d → d' ∈ facts.
Proof.
  intros Hd. apply zeroed_facts. intros x. simpl. unfold facts in *. case_decide; set_solver.
Qed.
Lemma call_facts n f d d' : d' ∈ cachedCallFF problem n f d → d' ∈ facts.
Proof.
  apply zeroed_facts. intros x. simpl. unfold facts.
  do 2 (destruct d as [|d]; [set_solver|]). set_solver.
Qed.
Lemma ret_facts c f e r d d' : d' ∈ cachedRetFF problem c f e r d → d' ∈ facts.
Proof.
  apply zeroed_facts. intros x. simpl. unfold facts.
  do 3 (destruct d as [|d]; [set_solver|]). set_solver.
Qed.
Lemma call_to_ret_facts n r fs d d' :
  d ∈ facts → d' ∈ cachedCallToRetFF problem n r fs d → d' ∈ facts.
Proof.
  intros Hd. apply zeroed_facts. intros x. simpl. unfold facts in *.
  do 4 (destruct d as [|d]; [set_solver|]). set_solver.
Qed.

Lemma problem_finite : IDESolverPaths.finite_problem icfg problem universe.
Proof.
  split; unfold IDESolverPaths.in_universe; setoid_rewrite universe_elem.
  - intros SP d (Facts & HSP & Hd). simpl in HSP. apply lookup_singleton_Some in HSP as [<- <-].
    assert (d = 0) as -> by (destruct Hd as [|[v [<- _]%lookup_singleton_Some]]; done).
    unfold facts, nodes. set_solver.
  - intros d1 n d2 f n' d3 g (Hd1 & Hn & Hd2) _ Hl. split; [done|].
    destruct Hl as [n'' d3 _ Hs Hd|C Sum Ret d3 _ _ [=]|Ret d3 _ HR Hd]; simpl.
    + split; [by eapply succ_nodes|by eapply normal_facts].
    + split; [by eapply ret_nodes|by eapply call_to_ret_facts].
  - intros d1 n d2 f C SP d3 _ _ (_ & _ & _ & HSP & Hd).
    apply call_facts in Hd. apply start_nodes in HSP. done.
  - intros d1 c d2 f C SP d3 eP d4 fs n' d5 f4 f5 (Hd1 & _) _ _ _ _ _ _ Hr.
    split; [done|]. destruct Hr as [Ret d5 HR Hd].
    split; [by eapply ret_nodes|by eapply ret_facts].
  - intros d1 eP d2 f n' d5 f5 Hflag. discriminate Hflag.
Qed.

Lemma phase1_unique fuel st : solveImpl icfg problem fuel = Some st → st = phase1.
Proof. intros Hs. by eapply IDESolverAPIMixin.while_next_det, phase1_eq. Qed.

Lemma phase1_jf d1 n d2 f : jf_lookup (JumpFn phase1) d1 n d2 = Some f → (d1, n, d2) ∈ universe.
Proof.
  intros Hj. pose proof (IDESolverFixpoint.solveImpl_sound icfg problem _ 100 phase1 problem_finite
    (IDESolverPaths.in_universe_combine universe) phase1_eq) as Hs.
  by apply (IDESolverFixpoint.is_jf _ _ _ _ Hs) in Hj as [? _].
Qed.

Lemma phase1_seeds : map_to_list (Seeds phase1) = [(0, {[0 := Bottom]})].
Proof. vm_compute. reflexivity. Qed.
Lemma phase1_unbalanced : elements (UnbalancedRetSites phase1) = [].
Proof. vm_compute. reflexivity. Qed.

Lemma values_finite : IDESolverValues.finite_values icfg problem phase1 exploded.
Proof.
  split.
  - intros n d l Hs. apply exploded_elem. destruct Hs as [(Facts & HF & Hd)|(_ & Hn & _)].
    + apply elem_of_map_to_list in HF. rewrite phase1_seeds in HF.
      apply list_elem_of_singleton in HF as [= -> ->].
      apply lookup_singleton_Some in Hd as [<- _]. unfold nodes, facts. set_solver.
    + apply elem_of_elements in Hn. rewrite phase1_unbalanced in Hn. by apply elem_of_nil in Hn.
  - intros n d n' d' f Hin He. apply exploded_elem.
    destruct He as [CallSite dPrime f' _ _ Hj | C SP dPrime _ _ HSP Hd'].
    + apply phase1_jf, universe_elem in Hj as (_ & ? & ?). done.
    + split; [by eapply start_nodes | by eapply call_facts].
Qed.

(** The same flows as an IFDS problem. *)
Definition ifds_problem : IDETabulationProblem nat nat nat BinaryDomain.t IFDS.IfdsEF :=
  IFDS.IFDSTabulationProblem {|
    getNormalFlowFunction := getNormalFlowFunction problem;
    getCallFlowFunction := getCallFlowFunction problem;
    getRetFlowFunction := getRetFlowFunction problem;
    getCallToRetFlowFunction := getCallToRetFlowFunction problem;
    getSummaryFlowFunction := getSummaryFlowFunction problem;
    getNormalEdgeFunction _ _ _ _ := IFDS.IIdentity;
    getCallEdgeFunction _ _ _ _ := IFDS.IIdentity;
    getReturnEdgeFunction _ _ _ _ _ _ := IFDS.IIdentity;
    getCallToRetEdgeFunction _ _ _ _ _ := IFDS.IIdentity;
    getSummaryEdgeFunction _ _ _ _ := IFDS.IIdentity;
    getZeroValue := 0;
    isZeroValue d := bool_decide (d = 0);
    initialSeeds := {[0 := {[0 := BinaryDomain.BOTTOM]}]};
    getIFDSIDESolverConfig := IFDSIDESolverConfig.default_config
  |}.

Definition ifds_phase1 : IDESolver nat nat nat BinaryDomain.t IFDS.IfdsEF :=
  state_of (solveImpl icfg ifds_problem 100) (initialState ifds_problem).
Lemma ifds_phase1_eq : solveImpl icfg ifds_problem 100 = Some ifds_phase1.
Proof. vm_compute. reflexivity. Qed.

(** The body of [f] alone, returning past its seeds. *)
Definition unbalanced_problem : IDETabulationProblem nat nat nat (LatticeDomain Z) (CoreEF Z) := {|
  getNormalFlowFunction := getNormalFlowFunction problem;
  getCallFlowFunction := getCallFlowFunction problem;
  getRetFlowFunction := getRetFlowFunction problem;
  getCallToRetFlowFunction := getCallToRetFlowFunction problem;
  getSummaryFlowFunction := getSummaryFlowFunction problem;
  getNormalEdgeFunction _ _ _ _ := CIdentity;
  getCallEdgeFunction _ _ _ _ := CIdentity;
  getReturnEdgeFunction _ _ _ _ _ _ := CIdentity;
  getCallToRetEdgeFunction _ _ _ _ _ := CIdentity;
  getSummaryEdgeFunction _ _ _ _ := CIdentity;
  getZeroValue := 0;
  isZeroValue d := bool_decide (d = 0);
  initialSeeds := {[10 := {[0 := Bottom; 2 := Value 7%Z]}]};
  getIFDSIDESolverConfig := IFDSIDESolverConfig.set IFDSIDESolverConfig.default_config
    IFDSIDESolverConfig.FollowReturnsPastSeeds true
|}.

Definition unbalanced_phase1 : IDESolver nat nat nat (LatticeDomain Z) (CoreEF Z) :=
  state_of (solveImpl icfg unbalanced_problem 100) (initialState unbalanced_problem).
Lemma unbalanced_phase1_eq : solveImpl icfg unbalanced_problem 100 = Some unbalanced_phase1.
Proof. vm_compute. reflexivity. Qed.
End ExampleFacts.
