(* ===== verification/IDESolverCorrect.v ===== *)
(** The correctness of the [IDESolver], put together: what [solveImpl] and
    [solve] return, and that they return. The witnesses run the solver on the
    program of [IDESolverExample]. *)
From S2P Require Import Prelude JoinLattice Table JumpFunctions IDEProblem IDESolverAPIMixin IDESolver DefaultSemiRing IDESolverEffects IDESolverFixpoint IDESolverPaths IDESolverValues SolverResults IFDS IDESolverExample.

(** * Combining the phases *)

Section phases.
Context {N D F L EF : Type} `{Countable N, Countable D, EqDecision EF, EqDecision L}.
Context `{JoinLatticeTraits L, !SemiRing L EF}.
Context (ICF : ICFG N D F) (P : IDETabulationProblem N D F L EF).
Abbreviation State := (IDESolver N D F L EF).
Implicit Types (st : State).
Local Open Scope phasar_scope.

Definition balanced : Prop :=
  IFDSIDESolverConfig.followReturnsPastSeeds (SolverConfig P) = false.

Lemma balanced_unb unb unb' K :
  balanced → (∀ d n, unb d n → unb_flag P d n) → solution ICF P unb' K → solution ICF P unb K.
Proof.
  unfold balanced. intros Hb Hu [Hs Hl Hc Hr _]. split; try done. intros d1 eP d2 n' d5 f5 Hx.
  apply Hu in Hx. unfold unb_flag in Hx. congruence.
Qed.

Lemma solve_phases fuel st' :
  IFDSIDESolverConfig.computeValues (SolverConfig P) = true → solve ICF P fuel = Some st' →
  ∃ st st1, solveImpl ICF P fuel = Some st ∧
    while_next (nextValue ICF P) fuel (submitInitialValues ICF P st) = Some st1 ∧
    st' = valueComputationTask ICF (allNonCallStartNodes ICF) st1.
Proof.
  unfold solve, finalizeInternal, computeValues. intros Hcv Hs.
  destruct (solveImpl ICF P fuel) as [st|]; [|done]. simpl in Hs. rewrite Hcv in Hs.
  destruct (while_next _ fuel _) as [st1|] eqn:Hw; [|done]. injection Hs as <-. by exists st, st1.
Qed.

(** The end summaries are the jump functions of the exits. *)
Context `{!SemiRingLaws L EF, !ICFGLaws ICF}.

Definition es_in_jf st : Prop :=
  inv_sound ICF P trivial_rules st ∧
  ∀ SP d3 eP d4 fs, Table.lookup (es st SP d3) eP d4 = Some fs →
    jf_lookup (JumpFn st) d3 eP d4 = Some fs.

Lemma doNext_es_in_jf st st' : doNext ICF P st = Some st' → es_in_jf st → es_in_jf st'.
Proof.
  intros Hnext [Hs Hes]. split; [by eapply doNext_trivial_sound|].
  destruct (doNext_cases ICF P st st' Hnext) as (d1 & n & d2 & f & wl & HWL & Hcase);
    [apply Hs..|].
  destruct Hcase as [[_ ->]|(_ & _ & st1 & Hup & Hpr)].
  { intros *. replace (es (set_WorkList _ st)) with (es st) by by destruct st.
    replace (JumpFn (set_WorkList _ st)) with (JumpFn st) by by destruct st. apply Hes. }
  intros SP d3 eP d4 fs. rewrite (pr_es _ _ _ _ _ _ _ _ Hpr), (pr_JumpFn _ _ _ _ _ _ _ _ Hpr).
  rewrite (up_jf _ _ _ _ _ _ _ Hup). destruct (decide _) as [(Hx & HSP & -> & -> & ->)|Hno].
  - intros [= <-]. by rewrite decide_True.
  - unfold es. rewrite (up_EndsummaryTab _ _ _ _ _ _ _ Hup). intros Hl.
    destruct (is_es _ _ _ _ Hs _ _ _ _ _ Hl) as (_ & _ & Hx & HSP).
    destruct (decide (d3 = d1 ∧ eP = n ∧ d4 = d2)) as [(-> & -> & ->)|Hne].
    + destruct Hno. done.
    + by eapply Hes.
Qed.

Lemma solveImpl_es_in_jf fuel st : solveImpl ICF P fuel = Some st → es_in_jf st.
Proof.
  intros Hs. apply (while_next_inv (doNext ICF P) es_in_jf fuel
    (doInitialize P (initialState P)) st) in Hs as [? _]; [done|apply doNext_es_in_jf|].
  split; [apply doInitialize_sound, trivial_closed|]. intros SP d3 eP d4 fs.
  rewrite (eff_es _ _ _ _ (doInitialize_effect P)). unfold es. simpl.
  rewrite table_lookup_empty. simpl. by rewrite table_lookup_empty.
Qed.
End phases.

(** * The correctness theorems *)

Section correctness.
Context {N D F L EF : Type} `{Countable N, Countable D, EqDecision EF, EqDecision L}.
Context `{JoinLatticeTraits L, !SemiRing L EF, !SemiRingLaws L EF}.
Context (ICF : ICFG N D F) (P : IDETabulationProblem N D F L EF) `{!ICFGLaws ICF}.
Abbreviation State := (IDESolver N D F L EF).
Implicit Types (st : State).
Local Open Scope phasar_scope.

(** C1: when the work list of the first phase is empty, the jump functions are
    the least solution of the tabulation rules of the IDE algorithm: they are
    closed under the rules for seeds, local edges, calls, and returns over end
    summaries, and below every table that is. *)
Theorem jump_functions_least_solution fuel st :
  balanced P → solveImpl ICF P fuel = Some st →
  solution ICF P (unb_flag P) (Jf st) ∧
  ∀ K, solution ICF P (unb_flag P) K → ∀ d1 n d2, Jf st d1 n d2 ⊑ₑ K d1 n d2.
Proof.
  intros Hb Hs. split.
  - eapply balanced_unb; [done| |by eapply solveImpl_solution]. done.
  - intros K HK. by eapply solveImpl_least.
Qed.

(** C2: for a distributive problem the jump functions are the joins over all
    valid paths: an upper bound of the functions of the same-level paths, and
    below each other upper bound. *)
Theorem jump_functions_join_over_paths `{!SemiRingDistributive L EF} fuel st d1 n d2 :
  balanced P → solveImpl ICF P fuel = Some st →
  (∀ f, path_fn ICF P d1 n d2 f → f ⊑ₑ Jf st d1 n d2) ∧
  ∀ k, (∀ f, path_fn ICF P d1 n d2 f → f ⊑ₑ k) → Jf st d1 n d2 ⊑ₑ k.
Proof.
  intros Hb Hs. split.
  - intros f. apply path_fn_below. eapply balanced_unb; [done| |by eapply solveImpl_solution]. done.
  - intros k Hk. unfold Jf. destruct (jf_lookup (JumpFn st) d1 n d2) as [f|] eqn:Hj; simpl.
    + eapply joined_bound; [by eapply solveImpl_joined|done].
    + apply ef_le_top.
Qed.

(** C4: the first phase terminates, and with the same result for every larger
    fuel, when the facts are finitely many and the ascending chains of edge
    functions are bounded. *)
Theorem solveImpl_returns `{!EFHeight L EF} U :
  finite_problem ICF P U →
  ∃ fuel st, ∀ fuel', fuel ≤ fuel' → solveImpl ICF P fuel' = Some st.
Proof. apply (solveImpl_terminates ICF P). Qed.

(** C7: with returns past the seeds, the jump functions satisfy the rule for
    unbalanced returns at every exit that no known call reaches, and stay below
    the solutions that return from every exit to all callers. *)
Theorem unbalanced_jump_functions fuel st :
  solveImpl ICF P fuel = Some st →
  solution ICF P (unb_unknown ICF P (Jf st)) (Jf st) ∧
  ∀ K, solution ICF P (unb_flag P) K → ∀ d1 n d2, Jf st d1 n d2 ⊑ₑ K d1 n d2.
Proof. intros Hs. split; [by eapply solveImpl_solution | intros K HK; by eapply solveImpl_least]. Qed.

(** C8: at the end of the first phase, the end-summary table holds exactly the
    jump functions of the exits, under the start points of their functions. *)
Theorem end_summaries_exact fuel st SP d1 eP d2 f :
  solveImpl ICF P fuel = Some st →
  exit_node ICF eP → SP ∈ getStartPointsOf ICF (getFunctionOf ICF eP) →
  Table.lookup (es st SP d1) eP d2 = Some f ↔ jf_lookup (JumpFn st) d1 eP d2 = Some f.
Proof.
  intros Hs Hx HSP. destruct (solveImpl_complete ICF P fuel st Hs) as [Hc _]. split.
  - apply (solveImpl_es_in_jf ICF P fuel st Hs).
  - intros Hj. by eapply ic_exit.
Qed.

(** Interrupting the first phase is transparent. After any number of steps
    with [nextN], and however [solveUntil] or [solveWithAsyncCancellation] stop
    it, the rest of the run comes to the result of the uninterrupted [solveImpl],
    and a run that reports success has already come to it. *)
Theorem interrupted_solve_resumes k fuel st clock request cancelled fuel' i Interval :
  solveImpl ICF P fuel = Some st →
  let next := doNext ICF P in
  let '(more, s) := nextN next k (doInitialize P (initialState P)) in
  while_next next fuel s = Some st ∧ (more = false → s = st) ∧
  on_the_way next fuel st (continueUntilImpl next clock request fuel' i Interval s) ∧
  on_the_way next fuel st (solveUntilImpl (doInitialize P) next clock request fuel' i Interval
    (initialState P)) ∧
  on_the_way next fuel st (solveWithAsyncCancellationImpl (doInitialize P) next cancelled fuel' i
    (initialState P)).
Proof.
  cbv zeta. intros Hs. pose proof (nextN_while_next (doNext ICF P) k fuel _ st Hs) as [Hw Hf].
  destruct (nextN (doNext ICF P) k _) as [more s]. split; [done|]. split; [done|].
  split; [by apply continueUntilLoop_on_the_way|]. split.
  - unfold solveUntilImpl. cbv zeta.
    destruct (request i (clock i)); [done|by apply continueUntilLoop_on_the_way].
  - unfold solveWithAsyncCancellationImpl. cbv zeta.
    destruct (cancelled i); [done|by apply async_on_the_way].
Qed.

(** The first phase leaves the second one its initial state. *)
Lemma solveImpl_phase2 fuel st :
  solveImpl ICF P fuel = Some st → wf (JumpFn st) ∧ ValTab st = ∅ ∧ ValuePropWL st = [].
Proof.
  intros Hs. destruct (solveImpl_no_values ICF P fuel st Hs) as [HT HW].
  destruct (solveImpl_es_in_jf ICF P fuel st Hs) as [[Hwf _ _ _ _ _ _] _]. done.
Qed.

Context `{!JoinLatticeLaws L}.

(** C3: the values [solve] computes. There is a least assignment [V] of values
    that is above the seeds and closed under the edge functions of the calls and
    the jump functions to the call sites; a node outside [allNonCallStartNodes]
    keeps it, and any other node has the join of it with the values the jump
    functions carry over from the start point of its function. *)
Theorem solve_values `{!MonotoneEdgeFunctions L EF} fuel st' :
  IFDSIDESolverConfig.computeValues (SolverConfig P) = true → solve ICF P fuel = Some st' →
  ∃ st V, solveImpl ICF P fuel = Some st ∧
    value_solution ICF P st V ∧
    (∀ V', value_solution ICF P st V' → ∀ n d, V n d ⊑ₗ V' n d) ∧
    (∀ n d, n ∉ allNonCallStartNodes ICF → val n d st' = V n d) ∧
    (∀ n d k, n ∈ allNonCallStartNodes ICF →
       val n d st' ⊑ₗ k ↔ V n d ⊑ₗ k ∧
         ∀ SP dPrime f, SP ∈ getStartPointsOf ICF (getFunctionOf ICF n) →
           jf_lookup (JumpFn st) dPrime n d = Some f → computeTarget f (V SP dPrime) ⊑ₗ k).
Proof.
  intros Hcv Hs. destruct (solve_phases ICF P fuel st' Hcv Hs) as (st & st1 & Hi & Hw & ->).
  destruct (solveImpl_phase2 fuel st Hi) as (Hwf & HT & HWL).
  destruct (propagation_solution ICF P st fuel st1 Hwf HT Hw) as [Hsame Hsol].
  assert (wf (JumpFn st1)) as Hwf1 by by rewrite (sm_JumpFn _ _ Hsame).
  assert (∀ n SP, n ∈ allNonCallStartNodes ICF →
    SP ∈ getStartPointsOf ICF (getFunctionOf ICF n) → SP ∉ allNonCallStartNodes ICF) as Hstart
    by (intros n SP _; apply start_not_other).
  pose proof (valueComputationTask_joined ICF _ st1 Hwf1 Hstart) as Hj.
  exists st, (λ n d, val n d st1). split; [done|].
  split; [by eapply value_solution_same; [apply same_tables_sym|]|]. split; [|split].
  - intros V' HV' n d. by apply (propagation_below ICF P st fuel st1 V').
  - intros n d Hn. eapply joined_values_same; [exact Hj|]. by intros x [? _].
  - intros n d k Hn. rewrite (jv_val _ _ _ Hj n d k). unfold contribution.
    rewrite (sm_JumpFn _ _ Hsame). naive_solver.
Qed.

(** C5: [solve] returns when the facts of both phases are finitely many and
    both lattices have bounded ascending chains. *)
Theorem solve_returns `{!EFHeight L EF, !LatticeHeight L} U :
  finite_problem ICF P U →
  (∀ fuel st, solveImpl ICF P fuel = Some st → ∃ V, finite_values ICF P st V) →
  ∃ fuel st, ∀ fuel', fuel ≤ fuel' → solve ICF P fuel' = Some st.
Proof.
  intros HU HV. destruct (solveImpl_terminates ICF P U HU) as (fuel & st & Hst).
  unfold solve, finalizeInternal. destruct (IFDSIDESolverConfig.computeValues _).
  - destruct (HV fuel st) as [V HV']; [by apply Hst|].
    destruct (solveImpl_phase2 fuel st) as (Hwf & _ & HW); [by apply Hst|].
    destruct (computeValues_terminates ICF P V st Hwf HV' HW) as (fuel2 & st' & Hc).
    exists (max fuel fuel2), st'. intros fuel' Hle. rewrite Hst by lia. simpl. apply Hc. lia.
  - exists fuel, st. intros fuel' Hle. by rewrite Hst.
Qed.
End correctness.

Section ifds.
Context {N D F : Type} `{Countable N, Countable D}.
Context (ICF : ICFG N D F) (P0 : IDETabulationProblem N D F BinaryDomain.t IfdsEF) `{!ICFGLaws ICF}.

(** C6: on an IFDS problem the solver decides reachability in the exploded
    supergraph: there is a jump function exactly where a valid path leads. *)
Theorem ifds_jump_function_iff_reachable fuel st d1 n d2 :
  let P := IFDSTabulationProblem P0 in
  balanced P → solveImpl ICF P fuel = Some st →
  is_Some (jf_lookup (JumpFn st) d1 n d2) ↔ reach ICF P0 d1 n d2.
Proof.
  cbv zeta. intros Hb Hs. split.
  - intros [f Hf]. pose proof (solveImpl_joined ICF _ fuel st d1 n d2 f Hs Hf) as Hj.
    clear Hf. by induction Hj as [f [? _]%path_fn_reach|].
  - intros Hr%reach_path_fn.
    assert (solution ICF (IFDSTabulationProblem P0) (unb_flag (IFDSTabulationProblem P0)) (Jf st))
      as Hsol by by eapply balanced_unb; [done| |by eapply solveImpl_solution].
    pose proof (path_fn_below ICF _ (Jf st) d1 n d2 IIdentity Hsol Hr) as Hle.
    unfold Jf in Hle. destruct (jf_lookup (JumpFn st) d1 n d2); [by eauto|]. done.
Qed.
End ifds.

(** * The default semiring meets the conditions *)

#[export] Instance CoreEF_height {A} `{EqDecision A} : EFHeight (LatticeDomain A) (CoreEF A) :=
  {| height := core_height; height_lt := core_height_lt |}.

#[export] Instance CoreEF_monotone {A} `{EqDecision A} :
  MonotoneEdgeFunctions (LatticeDomain A) (CoreEF A).
Proof. intros f x y. apply computeTarget_core_mono. Qed.

#[export] Instance LatticeDomain_height {A} `{EqDecision A} : LatticeHeight (LatticeDomain A).
Proof.
  refine {| lat_height x := match x with Top => 2 | Value _ => 1 | Bottom => 0 end |}.
  unfold lat_le. intros x y. simpl. rewrite join_flat.
  destruct x, y; intros Hle Hne; try lia; try done.
  simpl in Hle. rewrite bool_decide_eq_false_2 in Hle by done. discriminate Hle.
Defined.

(** * Witnesses *)

Import Example ExampleFacts.

Lemma jump_functions_least_solution_witness :
  balanced problem ∧ solveImpl icfg problem 100 = Some phase1 ∧
  solution icfg problem (unb_flag problem) (Jf phase1).
Proof.
  split; [reflexivity|]. split; [exact phase1_eq|].
  exact (proj1 (jump_functions_least_solution icfg problem 100 phase1 eq_refl phase1_eq)).
Defined.

Lemma jump_functions_join_over_paths_witness :
  solveImpl icfg ifds_problem 100 = Some ifds_phase1 ∧
  ∀ k, (∀ f, path_fn icfg ifds_problem 0 3 3 f → ef_le f k) → ef_le (Jf ifds_phase1 0 3 3) k.
Proof.
  split; [exact ifds_phase1_eq|].
  exact (proj2 (jump_functions_join_over_paths icfg ifds_problem 100 ifds_phase1 0 3 3
    eq_refl ifds_phase1_eq)).
Defined.

Lemma solveImpl_returns_witness :
  finite_problem icfg problem universe ∧
  ∃ fuel st, ∀ fuel', fuel ≤ fuel' → solveImpl icfg problem fuel' = Some st.
Proof.
  split; [exact problem_finite|]. exact (solveImpl_returns icfg problem universe problem_finite).
Defined.

Lemma unbalanced_jump_functions_witness :
  solveImpl icfg unbalanced_problem 100 = Some unbalanced_phase1 ∧
  Jf unbalanced_phase1 0 3 3 = CIdentity ∧
  solution icfg unbalanced_problem
    (unb_unknown icfg unbalanced_problem (Jf unbalanced_phase1)) (Jf unbalanced_phase1).
Proof.
  split; [exact unbalanced_phase1_eq|]. split; [vm_compute; reflexivity|].
  exact (proj1 (unbalanced_jump_functions icfg unbalanced_problem 100 unbalanced_phase1
    unbalanced_phase1_eq)).
Defined.

Lemma end_summaries_exact_witness :
  Table.lookup (es phase1 10 2) 11 2 = Some CIdentity.
Proof.
  apply (end_summaries_exact icfg problem 100 phase1 10 2 11 2 CIdentity phase1_eq).
  - split; reflexivity.
  - apply list_elem_of_singleton. reflexivity.
  - vm_compute. reflexivity.
Defined.

Lemma interrupted_solve_resumes_witness :
  let next := doNext icfg problem in
  let '(more, s) := nextN next 3 (doInitialize problem (initialState problem)) in
  while_next next 100 s = Some phase1 ∧ (more = false → s = phase1) ∧
  on_the_way next 100 phase1 (continueUntilImpl next (λ j, 10000000 * Z.of_nat j)%Z
    (λ j _, j =? 2) 10 0 1 s) ∧
  on_the_way next 100 phase1 (solveUntilImpl (doInitialize problem) next
    (λ j, 10000000 * Z.of_nat j)%Z (λ j _, j =? 2) 10 0 1 (initialState problem)) ∧
  on_the_way next 100 phase1 (solveWithAsyncCancellationImpl (doInitialize problem) next
    (λ j, j =? 5) 10 0 (initialState problem)).
Proof.
  exact (interrupted_solve_resumes icfg problem 3 100 phase1 (λ j, 10000000 * Z.of_nat j)%Z
    (λ j _, j =? 2) (λ j, j =? 5) 10 0 1 phase1_eq).
Defined.

Lemma solve_values_witness :
  solve icfg problem 100 = Some final ∧ val 3 3 final = Value 5%Z ∧
  ∃ st V, solveImpl icfg problem 100 = Some st ∧ value_solution icfg problem st V ∧
    (∀ V', value_solution icfg problem st V' → ∀ n d, lat_le (V n d) (V' n d)) ∧
    (∀ n d, n ∉ allNonCallStartNodes icfg → val n d final = V n d) ∧
    (∀ n d k, n ∈ allNonCallStartNodes icfg →
       lat_le (val n d final) k ↔ lat_le (V n d) k ∧
         ∀ SP dPrime f, SP ∈ getStartPointsOf icfg (getFunctionOf icfg n) →
           jf_lookup (JumpFn st) dPrime n d = Some f → lat_le (computeTarget f (V SP dPrime)) k).
Proof.
  split; [exact final_eq|]. split; [vm_compute; reflexivity|].
  exact (solve_values icfg problem 100 final eq_refl final_eq).
Defined.

Lemma solve_returns_witness :
  finite_problem icfg problem universe ∧
  ∃ fuel st, ∀ fuel', fuel ≤ fuel' → solve icfg problem fuel' = Some st.
Proof.
  split; [exact problem_finite|].
  apply (solve_returns icfg problem universe problem_finite).
  intros fuel st Hs. exists exploded. rewrite (phase1_unique fuel st Hs). exact values_finite.
Defined.

Lemma ifds_jump_function_iff_reachable_witness :
  is_Some (jf_lookup (JumpFn ifds_phase1) 0 3 3) ∧ reach icfg ifds_problem 0 3 3.
Proof.
  assert (is_Some (jf_lookup (JumpFn ifds_phase1) 0 3 3)) as Hj
    by (vm_compute; eexists; reflexivity).
  split; [exact Hj|].
  exact (proj1 (ifds_jump_function_iff_reachable icfg ifds_problem 100 ifds_phase1 0 3 3
    eq_refl ifds_phase1_eq) Hj).
Defined.
