(* ===== verification/ServiceProperties.v ===== *)
(** The properties of the solver's services: the cache of flow and edge functions,
    the maps behind it, and the interruptible runs of [IDESolverAPIMixin]. *)
From Stdlib Require Import SpecFloat.
From S2P Require Import Prelude JoinLattice EquivalenceClassMap IDEProblem FlowFunctions FlowEdgeFunctionCache FlowEdgeFunctionCacheCorrect IDESolverAPIMixin IDESolver DefaultSemiRing IDESolverExample.

(** * The cache *)

Section cache.
Context {V N D F L EF : Type} `{Countable V, Countable N, Countable D, Countable F, EqDecision EF}.
Context (nval : N → V) (dval : D → V) `{!Inj (=) (=) nval, !Inj (=) (=) dval}.
Context (ICF : ICFG N D F) (Problem : IDETabulationProblem N D F L EF).

(** C36: asked as the solver asks (for normal functions at nodes that are no call
    sites, for call-to-return functions at call sites with the callees found there)
    and about fewer than 2^32 values, the cache answers every query as the problem
    would, with zero added to all flow functions but those of summaries, and asks the
    problem for each function at most once, except for the flow functions of
    summaries, which it does not keep. *)
Theorem cache_refines_problem (U : gset V) (qs : list Query) :
  (Z.of_nat (size U) < 2 ^ 32)%Z →
  Forall (λ q, well_keyed ICF q ∧ in_values nval dval U q) qs →
  let '(answers, c) := ask_all nval dval Problem qs emptyCache in
  answers = answer Problem <$> qs ∧ NoDup (filter (λ q, cacheable q = true) (Constructed c)).
Proof.
  intros HU Hqs.
  pose proof (ask_all_ok nval dval ICF Problem U HU qs emptyCache (emptyCache_ok _ _ _ _ _)) as Hok.
  destruct (ask_all nval dval Problem qs emptyCache) as [l c].
  destruct Hok as (-> & _ & [_ Hnd]); [|done|done].
  split; simpl; [|apply NoDup_nil_2]. intros q Hq. by apply not_elem_of_nil in Hq.
Qed.
End cache.

(** The facts and statements of the example as values: even and odd numbers. *)
Definition node_value (n : nat) : nat := 2 * n.
Definition fact_value (d : nat) : nat := 2 * d + 1.
#[local] Instance node_value_inj : Inj (=) (=) node_value.
Proof. unfold node_value. intros ?? ?. lia. Qed.
#[local] Instance fact_value_inj : Inj (=) (=) fact_value.
Proof. unfold fact_value. intros ?? ?. lia. Qed.

Definition example_queries : list (Query (N := nat) (D := nat) (F := nat)) :=
  [QNormalEF 0 0 1 1; QNormalFF 0 1; QNormalEF 0 0 1 1; QSummaryFF 1 1; QNormalFF 0 1].

Lemma cache_refines_problem_witness :
  let '(answers, c) := ask_all node_value fact_value Example.problem example_queries emptyCache in
  answers = answer Example.problem <$> example_queries ∧
  NoDup (filter (λ q, cacheable q = true) (Constructed c)).
Proof.
  apply (cache_refines_problem node_value fact_value Example.icfg Example.problem
    {[0; 1; 2; 3]} example_queries).
  - vm_compute. reflexivity.
  - repeat apply List.Forall_cons; try apply List.Forall_nil; split; simpl;
      first [exact I | vm_compute; reflexivity | repeat split; set_solver].
Defined.

(** [EquivalenceClassMap] and [EquivalenceClassMapNG] behave alike: from maps
    that hold the same classes, [getOrInsertLazy] gives the same value and the same
    hit, and maps that hold the same classes again; the key is then mapped to the
    value it had before, or to the new one, no other key is touched, and keys stay
    partitioned by value. *)
Theorem equivalence_class_maps_agree {K V} `{Countable K, EqDecision V}
    (m : EquivalenceClassMapNG.t K V) (l : list (gset K * V)) (k k' : K) (v : V) :
  represents m l → classes l →
  let '(r, m', hit) := EquivalenceClassMapNG.getOrInsertLazy k v m in
  let '(r', l', hit') := EquivalenceClassMap.getOrInsertLazy k v l in
  r = r' ∧ hit = hit' ∧ represents m' l' ∧ classes l' ∧
  r = default v (EquivalenceClassMap.findValue k l) ∧
  EquivalenceClassMap.findValue k' l' =
    if decide (k' = k) then Some r else EquivalenceClassMap.findValue k' l.
Proof.
  intros Hr Hc. destruct (represents_getOrInsertLazy m l k v Hr) as (Hr' & Hv & Hh).
  pose proof (getOrInsertLazy_classes k v l Hc) as Hc'.
  pose proof (findValue_getOrInsertLazy k v l k') as Hf.
  pose proof (getOrInsertLazy_value k v l) as Hd.
  destruct (EquivalenceClassMapNG.getOrInsertLazy k v m) as [[r m'] hit].
  destruct (EquivalenceClassMap.getOrInsertLazy k v l) as [[r' l'] hit'].
  simpl in *. subst r' r. done.
Qed.

Lemma equivalence_class_maps_agree_witness :
  let m := (EquivalenceClassMapNG.getOrInsertLazy 1 7 EquivalenceClassMapNG.empty).1.2 in
  let l := (EquivalenceClassMap.getOrInsertLazy 1 7 []).1.2 in
  let '(r, m', hit) := EquivalenceClassMapNG.getOrInsertLazy 2 7 m in
  let '(r', l', hit') := EquivalenceClassMap.getOrInsertLazy 2 7 l in
  r = r' ∧ hit = hit' ∧ represents m' l' ∧ classes l' ∧ r = 7 ∧
  EquivalenceClassMap.findValue 1 l' = Some 7.
Proof.
  refine (equivalence_class_maps_agree
    (EquivalenceClassMapNG.getOrInsertLazy 1 7 EquivalenceClassMapNG.empty).1.2
    (EquivalenceClassMap.getOrInsertLazy 1 7 []).1.2 2 1 7 _ _).
  - split; reflexivity.
  - apply getOrInsertLazy_classes. split; [apply NoDup_nil_2|]. intros [|i] j KS W KS' W' k Hi; done.
Defined.

(** * Flow functions *)

(** What the flow-function templates do to the set of facts that hold before a
    node: they generate, kill, transfer and join as their names say, and the zero
    wrapper keeps the zero fact and nothing else. *)
Theorem flow_templates_on_sets {D} `{Countable D} (a b z : D) (l : list D) (f g : D → gset D) (X : gset D) :
  let gen (G : gset D) := if decide (b ∈ X) then G else ∅ in
  lift (FlowFunctionTemplates.generateFlow a b) X = X ∪ gen {[a]} ∧
  lift (FlowFunctionTemplates.generateManyFlows l b) X = X ∪ gen (list_to_set l) ∧
  lift (FlowFunctionTemplates.killFlow a) X = X ∖ {[a]} ∧
  lift (FlowFunctionTemplates.killManyFlows l) X = X ∖ list_to_set l ∧
  lift (FlowFunctionTemplates.generateFlowAndKillAllOthers a b) X = gen {[b; a]} ∧
  lift (FlowFunctionTemplates.transferFlow a b) X =
    (if decide (b ∈ X) then X ∪ {[a]} else X ∖ {[a]}) ∧
  lift (FlowFunctionTemplates.unionFlows f g) X = lift f X ∪ lift g X ∧
  lift (ZeroedFlowFunction f z) X = lift f X ∪ (if decide (z ∈ X) then {[z]} else ∅).
Proof.
  cbv zeta. split; [apply lift_generateFlow|]. split; [apply lift_generateManyFlows|].
  split; [apply lift_killFlow|]. split; [apply lift_killManyFlows|].
  split; [apply lift_generateFlowAndKillAllOthers|]. split; [apply lift_transferFlow|].
  split; [apply lift_unionFlows|apply lift_zeroed].
Qed.

(** * Interruptible runs *)

(** [continueUntil] can stall: once [NumIterations] is 0 (at once when the
    interval is 0), and as long as the clock moves and nobody cancels, the loop
    never returns, however few steps the solver has left. *)
Theorem continueUntil_stalls {State} (next : State → option State) clock request Interval i (s : State) :
  (∀ j z, request j z = false) → (∀ j, ticks (clock (S j) - clock j)) →
  (∃ m e, Adjust.of_Z Interval = S754_finite false m e) ∨ Interval = 0%Z →
  ∀ fuel,
    continueUntilLoop next clock request fuel (S i) (clock i) 0 Interval s = OutOfFuel ∧
    continueUntilImpl next clock request fuel i 0 s = OutOfFuel.
Proof.
  intros Hr Hc HI fuel. split.
  - by apply continueUntilLoop_stalls.
  - unfold continueUntilImpl, Adjust.initial. apply continueUntilLoop_stalls; auto.
Qed.

(** A solver with [n] steps left. *)
Definition countdown (n : nat) : option nat := match n with 0 => None | S n => Some n end.

(** With steps of 20 ms and an interval of 1 ms, 500 iterations become 166, 55, 18,
    6, 2 and 0: one step more, and the run never ends. *)
Example slow_solver_reaches_zero :
  Adjust.initial 1 = 500%Z ∧
  (λ n, Adjust.adjust n 1 (20000000 * n)) <$> [500; 166; 55; 18; 6; 2]%Z =
    [Some 166; Some 55; Some 18; Some 6; Some 2; Some 0]%Z.
Proof. vm_compute. done. Qed.

Lemma continueUntil_stalls_witness :
  while_next countdown 1 1 = Some 0 ∧
  ∀ fuel,
    continueUntilLoop countdown (λ j, 20000000 * Z.of_nat j)%Z (λ _ _, false) fuel 1 0 0 1 1 = OutOfFuel ∧
    continueUntilImpl countdown (λ j, 20000000 * Z.of_nat j)%Z (λ _ _, false) fuel 0 0 1 = OutOfFuel.
Proof.
  split; [reflexivity|].
  apply (continueUntil_stalls countdown (λ j, 20000000 * Z.of_nat j)%Z (λ _ _, false) 1 0 1).
  - reflexivity.
  - intros j. replace (20000000 * Z.of_nat (S j) - 20000000 * Z.of_nat j)%Z with 20000000%Z by lia.
    do 2 eexists. vm_compute. reflexivity.
  - left. do 2 eexists. vm_compute. reflexivity.
Defined.

(** A run can always be stopped: [continueUntil] returns by the first poll that
    asks for cancellation, and a run whose flag is never set returns, with asynchronous
    cancellation, the result of the uninterrupted run. *)
Theorem runs_can_be_stopped {State} (next : State → option State) clock request cancelled Interval
    n fuel i F (s r : State) :
  (∀ z, request n z = true) → i < n → n ≤ i + fuel → while_next next F s = Some r →
  (∀ j, cancelled j = false) → F < fuel →
  continueUntilImpl next clock request fuel i Interval s ≠ OutOfFuel ∧
  (∀ s', continueUntilImpl next clock request fuel i Interval s = Stopped true s' → s' = r) ∧
  continueWithAsyncCancellationImpl next cancelled fuel i s = Stopped true r.
Proof.
  intros Hn Hi Hf Hw Hc HF. split; [apply (continueUntilLoop_cancelled next _ _ n); [done|lia..]|].
  split; [|by eapply async_returns].
  intros s' Hs'. apply continueUntilLoop_true in Hs' as [_ [F' HF']]. by eapply while_next_det.
Qed.

Lemma runs_can_be_stopped_witness :
  continueUntilImpl countdown (λ j, 20000000 * Z.of_nat j)%Z (λ j _, j =? 3) 9 0 0 5 ≠ OutOfFuel ∧
  (∀ s', continueUntilImpl countdown (λ j, 20000000 * Z.of_nat j)%Z (λ j _, j =? 3) 9 0 0 5 =
    Stopped true s' → s' = 0) ∧
  continueWithAsyncCancellationImpl countdown (λ _, false) 9 0 5 = Stopped true 0.
Proof.
  apply (runs_can_be_stopped countdown (λ j, 20000000 * Z.of_nat j)%Z (λ j _, j =? 3) (λ _, false)
    0 3 9 0 5 5 0); first [reflexivity | lia].
Defined.
