(* ===== verification/TypeStateProperties.v ===== *)
(** The properties of the type-state analysis: its descriptions, its edge functions
    and what they compute along the calls on a file handle, its caches. *)
From stdpp Require Import strings.
From S2P Require Import Prelude TypeStateDescriptions JoinLattice EdgeFunctionUtils FlowFunctions IDETypeStateAnalysis.

Local Open Scope string_scope.
Local Open Scope list_scope.
Local Open Scope phasar_scope.

(** * The descriptions *)

(** From every state but [TOP] a call leads to a state, which is not [TOP]; a
    function of the API is a factory or a consumer, never both; exactly the
    consumers have parameters, all of them arguments. *)
Definition sound_description {State CallSite} (d : TypeStateDescription State CallSite) : Prop :=
  (∀ F s cs, s ≠ TypeStateDescriptions.top d →
     (∃ s', getNextState d F s = Some s' ∧ s' ≠ TypeStateDescriptions.top d) ∧
     (∃ s', getNextStateAt d F s cs = Some s' ∧ s' ≠ TypeStateDescriptions.top d)) ∧
  (∀ F, TypeStateDescriptions.isAPIFunction d F
          = TypeStateDescriptions.isFactoryFunction d F || isConsumingFunction d F ∧
        TypeStateDescriptions.isFactoryFunction d F && isConsumingFunction d F = false ∧
        (isConsumingFunction d F = true ↔ getConsumerParamIdx d F ≠ []) ∧
        Forall (λ i, 0 ≤ i)%Z (getConsumerParamIdx d F)).

(** The parameters of a table are arguments, except for the lone return value. *)
Definition table_ok (Funcs : list (string * list Z)) : bool :=
  forallb (λ '(_, Idxs), bool_decide (Idxs = [(-1)%Z]) ||
                         bool_decide (Idxs ≠ []) && forallb (λ i, (0 <=? i)%Z) Idxs) Funcs.

Lemma table_ok_spec Funcs F :
  table_ok Funcs = true →
  table_isAPIFunction Funcs F = table_isFactoryFunction Funcs F || table_isConsumingFunction Funcs F ∧
  table_isFactoryFunction Funcs F && table_isConsumingFunction Funcs F = false ∧
  (table_isConsumingFunction Funcs F = true ↔ table_getConsumerParamIdx Funcs F ≠ []) ∧
  Forall (λ i, 0 ≤ i)%Z (table_getConsumerParamIdx Funcs F).
Proof.
  intros Hok. unfold table_getConsumerParamIdx, table_isFactoryFunction, table_isConsumingFunction,
    table_isAPIFunction.
  assert (∀ l, assoc_find F Funcs = Some l →
    l = [(-1)%Z] ∨ l ≠ [] ∧ Forall (λ i, 0 ≤ i)%Z l) as Hl.
  { induction Funcs as [|[G Idxs] Funcs IH]; simpl in *; [done|].
    apply andb_prop in Hok as [Hok1 Hok2]. intros l. destruct (decide (G = F)); [|by apply IH].
    intros [= <-]. apply orb_prop in Hok1 as [Hok1%bool_decide_eq_true|Hok1]; [by left|right].
    apply andb_prop in Hok1 as [Hne%bool_decide_eq_true Hpos]. split; [done|].
    apply Forall_forall. intros i Hi. rewrite forallb_forall in Hpos.
    apply list_elem_of_In, Hpos in Hi. lia. }
  destruct (assoc_find F Funcs) as [l|] eqn:HF; simpl.
  - destruct (Hl l eq_refl) as [->|[Hne Hpos]].
    + rewrite bool_decide_eq_true_2 by set_solver. rewrite bool_decide_eq_false_2 by set_solver. done.
    + assert ((-1)%Z ∉ l) as Hn.
      { intros Hi. rewrite Forall_forall in Hpos. apply Hpos in Hi. lia. }
      rewrite bool_decide_eq_false_2, bool_decide_eq_true_2 by done. done.
  - done.
Qed.

Lemma secure_memory_ok F :
  OpenSSLSecureMemory.isAPIFunction F
    = OpenSSLSecureMemory.isFactoryFunction F || OpenSSLSecureMemory.isConsumingFunction F ∧
  OpenSSLSecureMemory.isFactoryFunction F && OpenSSLSecureMemory.isConsumingFunction F = false ∧
  (OpenSSLSecureMemory.isConsumingFunction F = true ↔ OpenSSLSecureMemory.getConsumerParamIdx F ≠ []) ∧
  Forall (λ i, 0 ≤ i)%Z (OpenSSLSecureMemory.getConsumerParamIdx F).
Proof.
  unfold OpenSSLSecureMemory.isAPIFunction, OpenSSLSecureMemory.isFactoryFunction,
    OpenSSLSecureMemory.isConsumingFunction, OpenSSLSecureMemory.getConsumerParamIdx,
    OpenSSLSecureMemory.funcNameToToken, OpenSSLSecureMemory.FactoryFuncs. simpl.
  destruct (decide (F = "CRYPTO_malloc")) as [->|]; [split_and!; by repeat constructor|].
  destruct (decide (F = "CRYPTO_zalloc")) as [->|]; [split_and!; by repeat constructor|].
  rewrite (bool_decide_eq_false_2 (F ∈ _)) by set_solver.
  destruct (decide (F = "CRYPTO_free")) as [->|]; [split_and!; by repeat constructor|].
  destruct (decide (F = "OPENSSL_cleanse")) as [->|]; [split_and!; by repeat constructor|].
  rewrite !decide_False by congruence. split_and!; by repeat constructor.
Qed.

Ltac next_state_defined :=
  solve [done | split; eexists; (split; [reflexivity|done])].

(** Every description shipped with the analysis is well defined: no state the
    analysis reaches makes it read its matrix out of range, and its API functions
    are split into factories and consumers. *)
Theorem descriptions_sound {CallSite} (KDFResultAt : CallSite → OpenSSLEVPKDF.State)
    (HeapInitializedAt : CallSite → bool) :
  sound_description (CSTDFILEIO.description (CallSite := CallSite)) ∧
  sound_description (OpenSSLEVPKDF.description (CallSite := CallSite)) ∧
  sound_description (OpenSSLEVPKDFCTX.description KDFResultAt) ∧
  sound_description (OpenSSLSecureHeap.description HeapInitializedAt) ∧
  sound_description (OpenSSLSecureMemory.description (CallSite := CallSite)).
Proof.
  split_and!; split; try (intros F; by apply table_ok_spec).
  - intros F s cs Hs. simpl in *. unfold CSTDFILEIO.getNextState.
    destruct (table_isAPIFunction _ F), (CSTDFILEIO.funcNameToToken F), s; next_state_defined.
  - intros F s cs Hs. simpl in *. unfold OpenSSLEVPKDF.getNextState.
    destruct (table_isAPIFunction _ F), (OpenSSLEVPKDF.funcNameToToken F), s; next_state_defined.
  - intros F s cs Hs. simpl in *. unfold OpenSSLEVPKDFCTX.getNextState, OpenSSLEVPKDFCTX.getNextStateAt.
    destruct (table_isAPIFunction _ F), (OpenSSLEVPKDFCTX.funcNameToToken F), s;
      simpl; try destruct (decide _); next_state_defined.
  - intros F s cs Hs. simpl in *. unfold OpenSSLSecureHeap.getNextState, OpenSSLSecureHeap.getNextStateAt.
    destruct (table_isAPIFunction _ F), (HeapInitializedAt cs), (OpenSSLSecureHeap.funcNameToToken F), s;
      next_state_defined.
  - intros F s cs Hs. simpl in *. unfold OpenSSLSecureMemory.getNextState.
    destruct (OpenSSLSecureMemory.funcNameToToken F), s; simpl; try destruct (decide _); next_state_defined.
  - intros F. simpl. apply secure_memory_ok.
Qed.

(** * The edge functions *)

(** Composing edge functions of the type-state analysis never throws, and the
    composition computes the second function after the first, unless it starts with
    the marker [AllTop] of an unreached edge. *)
Theorem typestate_composition {State CallSite} `{EqDecision State, EqDecision CallSite}
    `{JoinLatticeTraits State} (TSD : TypeStateDescription State CallSite)
    (f g : EdgeFunction State State (TSFunction State CallSite)) :
  ∃ h, composeWith TSD f g = Returns h ∧
       (starts_reached f = true → ∀ x,
          computeTarget (targets := TS_targets TSD) h x =
          computeTarget (targets := TS_targets TSD) g (computeTarget (targets := TS_targets TSD) f x)).
Proof.
  destruct (TS_compose_returns TSD f g) as [h Hh]. exists h. split; [done|]. intros Hf x.
  by apply (compose_sound (targets := TS_targets TSD) (UserEdgeFunctions0 := TS_functions TSD)
    (UserComposeLaws0 := TS_compose_laws TSD) true f g h x).
Qed.

(** Where the traits of the states have the top and the bottom of the
    description and a join above both values, joining edge functions of the analysis
    never throws, and the result is above both functions in the lattice of the
    analysis. *)
Theorem typestate_join_bound {State CallSite} `{EqDecision State, EqDecision CallSite}
    `{JoinLatticeTraits State} (TSD : TypeStateDescription State CallSite)
    (f g : EdgeFunction State State (TSFunction State CallSite)) :
  topElement TSD ≠ bottomElement TSD →
  JoinLattice.top = topElement TSD → JoinLattice.bottom = bottomElement TSD →
  (∀ x y, @lat_le State (analysis_lattice TSD) x (JoinLattice.join x y) ∧
          @lat_le State (analysis_lattice TSD) y (JoinLattice.join x y)) →
  TS_built f = true → TS_built g = true →
  ∃ h, joinWith TSD f g = Returns h ∧ TS_ub TSD f g h.
Proof.
  intros Hne Ht Hb Hub Hf Hg. destruct (TS_joinWith_returns TSD f g) as [h Hh].
  exists h. split; [done|]. by apply TS_joinWith_ub.
Qed.

Definition file_io : TypeStateDescription CSTDFILEIO.State nat := CSTDFILEIO.description.

(** The state machine's lattice is that of the analysis. *)
Lemma file_io_join_ub x y :
  @lat_le _ (analysis_lattice file_io) x (JoinLattice.join x y) ∧
  @lat_le _ (analysis_lattice file_io) y (JoinLattice.join x y).
Proof. destruct x, y; by vm_compute. Qed.

Lemma typestate_join_bound_witness :
  ∃ h, joinWith file_io (UserEF (TSEdgeFunction "fclose" 0)) (UserEF (TSConstant CSTDFILEIO.ERROR))
         = Returns h ∧
       TS_ub file_io (UserEF (TSEdgeFunction "fclose" 0)) (UserEF (TSConstant CSTDFILEIO.ERROR)) h.
Proof.
  apply (typestate_join_bound file_io); [done|reflexivity|reflexivity| |reflexivity|reflexivity].
  apply file_io_join_ub.
Defined.

(** [JoinLatticeTraits<CSTDFILEIOState>] and the analysis join alike except on
    equal states that are neither [TOP] nor [BOT], which the traits join to [BOT]. *)
Theorem file_io_traits_join (x y : CSTDFILEIO.State) :
  CSTDFILEIO.join x y =
    if decide (x = y ∧ x ≠ CSTDFILEIO.TOP) then CSTDFILEIO.BOT else join file_io x y.
Proof. destruct x, y; reflexivity. Qed.

(** What it costs: a constant the framework made out of [AllBottom], joined with
    the same constant of the analysis. *)
Example join_loses_opened :
  composeWith file_io AllBottom (UserEF (TSEdgeFunction "fopen" 0))
    = Returns (ConstantEdgeFunction CSTDFILEIO.OPENED) ∧
  joinWith file_io (ConstantEdgeFunction CSTDFILEIO.OPENED) (UserEF (TSConstant CSTDFILEIO.OPENED))
    = Returns AllBottom.
Proof. done. Qed.

(** A call of the file API maps a state below [BOT] to a state below the one it
    maps [BOT] to, except that opening keeps [ERROR] but turns [BOT] into [OPENED]:
    an error that was merged with another state is forgotten. *)
Theorem file_io_monotone_but_fopen (F : string) (cs : nat) (s : CSTDFILEIO.State) :
  s ≠ CSTDFILEIO.TOP → TypeStateDescriptions.isAPIFunction file_io F = true →
  (@lat_le _ (analysis_lattice file_io)
     (user_computeTarget (UserTargets := TS_targets file_io) (TSEdgeFunction F cs) s)
     (user_computeTarget (UserTargets := TS_targets file_io) (TSEdgeFunction F cs) CSTDFILEIO.BOT)
   ↔ ¬ ((F = "fopen" ∨ F = "fdopen") ∧ s = CSTDFILEIO.ERROR)).
Proof.
  intros Hs Hapi. simpl in *. unfold TSEdgeFunction_computeTarget. simpl. unfold CSTDFILEIO.getNextState.
  rewrite Hapi, !(decide_False (P := _ = CSTDFILEIO.TOP)) by done. unfold CSTDFILEIO.funcNameToToken.
  destruct (decide (F = "fopen" ∨ F = "fdopen")) as [Ho|Ho];
    [|destruct (decide (F = "fclose"))]; destruct s; try done;
    (split; [intros Hle [? ?]; first [tauto|discriminate|by vm_compute in Hle]
            |intros Hn; first [by vm_compute|tauto]]).
Qed.

Lemma file_io_monotone_but_fopen_witness :
  CSTDFILEIO.ERROR ≠ CSTDFILEIO.TOP ∧
  (@lat_le _ (analysis_lattice file_io)
     (user_computeTarget (UserTargets := TS_targets file_io) (TSEdgeFunction "fopen" 0) CSTDFILEIO.ERROR)
     (user_computeTarget (UserTargets := TS_targets file_io) (TSEdgeFunction "fopen" 0) CSTDFILEIO.BOT)
   ↔ ¬ (("fopen" = "fopen" ∨ "fopen" = "fdopen") ∧ CSTDFILEIO.ERROR = CSTDFILEIO.ERROR)).
Proof.
  split; [done|]. apply (file_io_monotone_but_fopen "fopen" 0 CSTDFILEIO.ERROR); [done|].
  vm_compute. reflexivity.
Defined.

(** * A file handle along a path *)

(** The edges of a path in the exploded supergraph, with what the solver asks an edge
    function for. *)
Inductive TSStep (Val Func : Type) :=
  | NormalStep (Curr CurrNode SuccNode : Val)
  | CallStep (SrcNode : Val)
  | ReturnStep (ExitNode : Val)
  | CallToRetStep (CallSite CallNode RetSiteNode : Val) (Callees : list Func).
Arguments NormalStep {Val Func} _ _ _.
Arguments CallStep {Val Func} _.
Arguments ReturnStep {Val Func} _.
Arguments CallToRetStep {Val Func} _ _ _ _.

Section file_handles.
Context {Val Func : Type} `{Countable Val, LLVMIR Val Func}.
Context (zero : Val) (getAliasSet : Val → gset Val) (hasMatchingType : Val → bool).
Abbreviation TSD := (CSTDFILEIO.description (CallSite := Val)).
Abbreviation TSEF := (EdgeFunction CSTDFILEIO.State CSTDFILEIO.State (TSFunction CSTDFILEIO.State Val)).
Implicit Types (st : TSStep Val Func) (l : list string) (c : Caches (Val := Val)) (s : CSTDFILEIO.State).

(** The fact a step starts at. *)
Definition step_source st : Val :=
  match st with
  | NormalStep _ d _ | CallStep d | ReturnStep d | CallToRetStep _ d _ _ => d
  end.

(** The edge function the analysis answers with. *)
Definition step_function st c : TSEF * Caches :=
  match st with
  | NormalStep Curr d d' => (getNormalEdgeFunction TSD zero hasMatchingType Curr d d', c)
  | CallStep _ => (getCallEdgeFunction, c)
  | ReturnStep _ => (getReturnEdgeFunction, c)
  | CallToRetStep CS d d' Callees => getCallToRetEdgeFunction TSD zero getAliasSet hasMatchingType CS d d' Callees c
  end.

(** The solver composes them in the order of the path. *)
Fixpoint path_function (f : TSEF) (path : list (TSStep Val Func)) c : Outcome TSEF :=
  match path with
  | [] => Returns f
  | st :: path =>
      let '(g, c) := step_function st c in h <-? composeWith TSD f g; path_function h path c
  end.

(** The call passes the handle that [fact] stands for to [Callee], which works on it. *)
Definition consumes (CallSite fact : Val) (Callee : Func) : bool :=
  table_isConsumingFunction CSTDFILEIO.getStdFileIOFuncs (getName Callee)
  && existsb (λ Idx, let Arg := getArgOperand CallSite Idx in
                     bool_decide (fact ∈ getAliasSet Arg ∪ relevantAllocas getAliasSet hasMatchingType Arg))
       (table_getConsumerParamIdx CSTDFILEIO.getStdFileIOFuncs (getName Callee)).

(** The file function that works on the handle at a step, and its call site. *)
Definition consumer st : option (string * Val) :=
  match st with
  | CallToRetStep CS d d' Callees =>
      if decide (d = d') then (λ Callee, (getName Callee, CS)) <$> List.find (consumes CS d) Callees else None
  | _ => None
  end.

(** The names of the file functions called with the handle along a path. *)
Definition handle_calls (path : list (TSStep Val Func)) : list string := (omap consumer path).*1.

(** Steps that make a handle from zero: an opening call, a declared variable. *)
Definition opens_handle st : Prop :=
  ∃ CS Callees Callee, st = CallToRetStep CS zero CS Callees ∧ CS ≠ zero ∧ Callee ∈ Callees ∧
    (getName Callee = "fopen" ∨ getName Callee = "fdopen").
Definition declares_handle st : Prop :=
  ∃ Alloca, st = NormalStep Alloca zero Alloca ∧ isa_AllocaInst Alloca = true ∧ hasMatchingType Alloca = true.

(** ** Lemmas *)

Hypothesis alias_partition : ∀ v a, a ∈ getAliasSet v → getAliasSet a = getAliasSet v.
Abbreviation caches_ok := (caches_ok getAliasSet hasMatchingType).
Abbreviation transparent := (transparent getAliasSet hasMatchingType).

Lemma file_factories F :
  table_isFactoryFunction CSTDFILEIO.getStdFileIOFuncs F = bool_decide (F = "fopen" ∨ F = "fdopen").
Proof.
  unfold table_isFactoryFunction, table_isAPIFunction. simpl.
  repeat (destruct (decide (_ = F)) as [<-|?]; [by vm_compute|]). rewrite !bool_decide_eq_false_2; [done|..].
  - by intros [->| ->].
  - by intros [? ?].
Qed.

Lemma file_consumer_next F s :
  table_isConsumingFunction CSTDFILEIO.getStdFileIOFuncs F = true → s ≠ CSTDFILEIO.TOP →
  CSTDFILEIO.getNextState F s = delta CSTDFILEIO.Delta (if decide (F = "fclose") then 1 else 2) (CSTDFILEIO.int s).
Proof.
  intros Hc Hs. pose proof (file_factories F) as Hf. unfold CSTDFILEIO.getNextState, CSTDFILEIO.funcNameToToken.
  unfold table_isConsumingFunction, table_isFactoryFunction in *.
  destruct (table_isAPIFunction _ F); [|done]. apply bool_decide_eq_true in Hc.
  rewrite bool_decide_eq_false_2 in Hf by done. symmetry in Hf. apply bool_decide_eq_false in Hf.
  rewrite (decide_False (P := F = "fopen" ∨ F = "fdopen")) by done. by case_decide.
Qed.

Lemma consumer_loop_spec CallSite d d' Name Idxs :
  transparent (consumer_loop (State := CSTDFILEIO.State) getAliasSet hasMatchingType CallSite d d' Name Idxs)
    (if decide (d = d') then
       if existsb (λ Idx, let Arg := getArgOperand CallSite Idx in
                          bool_decide (d ∈ getAliasSet Arg ∪ relevantAllocas getAliasSet hasMatchingType Arg)) Idxs
       then Some (UserEF (TSEdgeFunction Name CallSite)) else None
     else None).
Proof.
  induction Idxs as [|Idx Idxs IH]; simpl; [destruct (decide _); apply transparent_ret|].
  intros c Hc.
  destruct (getWMAliasesAndAllocas_transparent getAliasSet hasMatchingType alias_partition
    (getArgOperand CallSite Idx) c Hc) as (c' & -> & Hc').
  destruct (IH c' Hc') as (c'' & HIH & Hc''). rewrite HIH.
  destruct (decide (d = d')) as [<-|Hne]; simpl; [|rewrite decide_False by naive_solver; by eauto].
  case_bool_decide; simpl; [rewrite decide_True by done|rewrite decide_False by naive_solver]; by eauto.
Qed.

(** The edge function of a step whose source is a handle. *)
Lemma step_function_spec st c :
  step_source st ≠ zero → caches_ok c →
  ∃ c', step_function st c =
          (match consumer st with Some (F, cs) => UserEF (TSEdgeFunction F cs) | None => EdgeIdentity end, c')
        ∧ caches_ok c'.
Proof.
  destruct st as [Curr d d'|d|d|CS d d' Callees]; intros Hd Hc; simpl in *; [|by eauto..|].
  { unfold getNormalEdgeFunction. rewrite (bool_decide_eq_false_2 (d = zero ∧ _)) by naive_solver.
    rewrite andb_false_r. by eauto. }
  revert c Hc. induction Callees as [|Callee Callees IH]; intros c Hc; simpl.
  { exists c. by destruct (decide _). }
  rewrite (bool_decide_eq_false_2 (d = zero ∧ _)) by naive_solver. rewrite andb_false_r. unfold consumes at 1.
  destruct (table_isConsumingFunction _ (getName Callee)); simpl; [|by apply IH].
  destruct (consumer_loop_spec CS d d' (getName Callee)
    (table_getConsumerParamIdx CSTDFILEIO.getStdFileIOFuncs (getName Callee)) c Hc) as (c' & -> & Hc').
  destruct (IH c' Hc') as (c'' & HIH & Hc''). destruct (decide (d = d')) as [<-|]; [|by eauto].
  destruct (existsb _ _); simpl; by eauto.
Qed.

Lemma opens_handle_function st c :
  opens_handle st → caches_ok c →
  ∃ c', step_function st c = (UserEF (TSConstant CSTDFILEIO.OPENED), c') ∧ caches_ok c'.
Proof.
  intros (CS & Callees & Callee & -> & Hz & Hin & Hopen) Hc. simpl. revert c Hc.
  induction Callees as [|G Callees IH]; intros c Hc; [set_solver|]. simpl.
  unfold isFactoryFunction. simpl. rewrite (file_factories (getName G)).
  rewrite (bool_decide_eq_true_2 (zero = zero ∧ CS = CS)) by done.
  case_bool_decide as HG; simpl.
  { exists c. split; [|done]. unfold factory_state. simpl.
    destruct HG as [->| ->]; done. }
  assert (Callee ∈ Callees) as Hin' by (apply elem_of_cons in Hin as [<-|]; [done|done]).
  destruct (table_isConsumingFunction _ _); [|by apply IH].
  destruct (consumer_loop_spec CS zero CS (getName G)
    (table_getConsumerParamIdx CSTDFILEIO.getStdFileIOFuncs (getName G)) c Hc) as (c' & -> & Hc').
  rewrite decide_False by done. by apply IH.
Qed.

(** What a call does to an opened handle, and to one that is not opened. *)
Definition after_call s (F : string) : CSTDFILEIO.State :=
  if decide (s = CSTDFILEIO.OPENED)
  then if decide (F = "fclose") then CSTDFILEIO.CLOSED else CSTDFILEIO.OPENED
  else CSTDFILEIO.ERROR.

Definition known s : bool := bool_decide (s ∉ [CSTDFILEIO.TOP; CSTDFILEIO.BOT]).

Lemma compose_consumer s F cs :
  known s = true → table_isConsumingFunction CSTDFILEIO.getStdFileIOFuncs F = true →
  composeWith TSD (UserEF (TSConstant s)) (UserEF (TSEdgeFunction F cs))
    = Returns (UserEF (TSConstant (after_call s F))).
Proof.
  intros Hs HF. apply bool_decide_eq_true in Hs.
  unfold composeWith. simpl. unfold TSConstant_compose. simpl. unfold TSEdgeFunction_computeTarget. simpl.
  rewrite (decide_False (P := s = CSTDFILEIO.TOP)) by set_solver.
  rewrite file_consumer_next by set_solver. unfold after_call.
  destruct (decide (F = "fclose")), s; solve [done|set_solver].
Qed.

Lemma consumer_consuming st F cs :
  consumer st = Some (F, cs) → table_isConsumingFunction CSTDFILEIO.getStdFileIOFuncs F = true.
Proof.
  destruct st as [| | |CS d d' Callees]; simpl; try done. destruct (decide _); [|done].
  destruct (List.find _ _) as [Callee|] eqn:Hl; simpl; [|done]. intros [= <- <-].
  apply find_some in Hl as [_ Hc].
  unfold consumes in Hc. destruct (table_isConsumingFunction _ _); done.
Qed.

Lemma path_function_run path s c :
  Forall (λ st, step_source st ≠ zero) path → caches_ok c → known s = true →
  path_function (UserEF (TSConstant s)) path c
    = Returns (UserEF (TSConstant (foldl after_call s (handle_calls path)))).
Proof.
  intros Hp. revert s c. induction Hp as [|st path Hst _ IH]; intros s c Hc Hs; [done|]. cbn [path_function].
  destruct (step_function_spec st c Hst Hc) as (c' & -> & Hc'). unfold handle_calls. cbn [omap list_omap].
  destruct (consumer st) as [[F cs]|] eqn:HF; [|by apply IH].
  rewrite compose_consumer by (done || by eapply consumer_consuming). cbn. apply IH; [done|].
  unfold after_call. by repeat case_decide.
Qed.

(** The states of an opened handle. *)
Lemma opened_run l :
  match foldl after_call CSTDFILEIO.OPENED l with
  | CSTDFILEIO.OPENED => "fclose" ∉ l
  | CSTDFILEIO.CLOSED => ∃ pre, l = pre ++ ["fclose"] ∧ "fclose" ∉ pre
  | CSTDFILEIO.ERROR => ∃ pre F post, l = pre ++ "fclose" :: F :: post
  | _ => False
  end.
Proof.
  induction l as [|F l IH] using rev_ind; [set_solver|]. rewrite foldl_app. simpl. unfold after_call at 1.
  destruct (foldl after_call CSTDFILEIO.OPENED l); try done; simpl.
  - case_decide; [subst; by exists l|set_solver].
  - destruct IH as (pre & -> & _). exists pre, F, []. by rewrite <- app_assoc.
  - destruct IH as (pre & G & post & ->). exists pre, G, (post ++ [F]). by rewrite <- app_assoc.
Qed.

Lemma uninit_run l : foldl after_call CSTDFILEIO.UNINIT l = if decide (l = []) then CSTDFILEIO.UNINIT else CSTDFILEIO.ERROR.
Proof.
  induction l as [|F l IH] using rev_ind; [done|]. rewrite foldl_app, IH. simpl.
  rewrite (decide_False (P := l ++ [F] = [])) by (by destruct l). by case_decide.
Qed.

(** A handle that was closed and not used since was not used after it was closed. *)
Lemma ends_of_handle l :
  let closed_last := ∃ pre, l = pre ++ ["fclose"] ∧ "fclose" ∉ pre in
  let used_after := ∃ pre F post, l = pre ++ "fclose" :: F :: post in
  (closed_last → "fclose" ∉ l → False) ∧ (used_after → "fclose" ∉ l → False) ∧
  (closed_last → used_after → False).
Proof.
  cbv zeta. split_and!.
  - intros (pre & -> & _). set_solver.
  - intros (pre & F & post & ->). set_solver.
  - intros (pre & -> & Hn) (pre' & F & post & Heq).
    destruct (exists_last (l := F :: post)) as (post' & x & Hx); [done|].
    rewrite Hx, app_comm_cons, app_assoc in Heq. apply app_inj_tail in Heq as [-> _]. set_solver.
Qed.

(** C40: where alias sets partition the values, on every path that starts where a file
    is opened and goes on with the handle, the composed edge function is a constant:
    [OPENED] exactly when the handle was not closed, [CLOSED] exactly when the first
    call that closes it is the last call made with it, and [ERROR] exactly when some
    call was made with it after it was closed. On a path that starts where a handle is
    declared it is [UNINIT] as long as no call was made with the handle, and [ERROR]
    afterwards. Of several possible callees the first that works on the handle counts. *)
Theorem file_io_protocol (origin : TSStep Val Func) (path : list (TSStep Val Func)) :
  Forall (λ st, step_source st ≠ zero) path →
  let calls := handle_calls path in
  (opens_handle origin →
   ∃ s, path_function EdgeIdentity (origin :: path) emptyCaches = Returns (UserEF (TSConstant s)) ∧
        (s = CSTDFILEIO.OPENED ↔ "fclose" ∉ calls) ∧
        (s = CSTDFILEIO.CLOSED ↔ ∃ pre, calls = pre ++ ["fclose"] ∧ "fclose" ∉ pre) ∧
        (s = CSTDFILEIO.ERROR ↔ ∃ pre F post, calls = pre ++ "fclose" :: F :: post)) ∧
  (declares_handle origin →
   ∃ s, path_function EdgeIdentity (origin :: path) emptyCaches = Returns (UserEF (TSConstant s)) ∧
        (s = CSTDFILEIO.UNINIT ↔ calls = []) ∧
        (s = CSTDFILEIO.ERROR ↔ calls ≠ [])).
Proof.
  intros Hp calls. pose proof (emptyCaches_ok getAliasSet hasMatchingType) as He. split.
  - intros Ho. exists (foldl after_call CSTDFILEIO.OPENED calls).
    destruct (opens_handle_function origin emptyCaches Ho He) as (c & Hf & Hc). cbn [path_function].
    rewrite Hf. cbn [composeWith compose outcome_bind]. split; [by apply path_function_run|].
    pose proof (opened_run calls) as Hr. pose proof (ends_of_handle calls) as (Hc1 & Hc2 & Hc12).
    destruct (foldl _ _ _); try done; split_and!; (split; [done|]); intros Hx; try done; exfalso; auto.
  - intros (Alloca & -> & Ha & Hm). exists (foldl after_call CSTDFILEIO.UNINIT calls).
    cbn [path_function step_function]. unfold getNormalEdgeFunction. rewrite Ha, Hm.
    rewrite bool_decide_eq_true_2 by done. cbn [andb composeWith compose outcome_bind].
    split; [by apply path_function_run|]. rewrite uninit_run. by case_decide.
Qed.
End file_handles.

(** * The alias caches *)

(** When alias sets partition the values, the alias caches change no answer:
    whatever was asked before, each query for a flow or an edge function is answered
    as with empty caches. *)
Theorem typestate_caches_transparent {State Val Func} `{EqDecision State, Countable Val, LLVMIR Val Func}
    `{JoinLatticeTraits State} (TSD : TypeStateDescription State Val) (zero : Val)
    (getAliasSet : Val → gset Val) (hasMatchingType : Val → bool) (getVaListTagOrNull : Func → option Val)
    (qs : list (TSQuery Val Func)) :
  (∀ v a, a ∈ getAliasSet v → getAliasSet a = getAliasSet v) →
  (ask_all TSD zero getAliasSet hasMatchingType getVaListTagOrNull qs emptyCaches).1 =
  (λ q, (ask TSD zero getAliasSet hasMatchingType getVaListTagOrNull q emptyCaches).1) <$> qs.
Proof.
  intros Hpart. apply ask_all_transparent; [done|]. by apply emptyCaches_ok.
Qed.

(** A small program: 10 is an alloca, stored to by 12 from the call 11, which 13
    closes; values alias by their tens. *)
#[local] Instance small_ir : LLVMIR nat string := {|
  isa_AllocaInst v := bool_decide (v = 10);
  dyn_cast_LoadInst _ := None;
  dyn_cast_GetElementPtrInst _ := None;
  dyn_cast_StoreInst v := if decide (v = 12) then Some (11, 10) else None;
  getReturnValue _ := None;
  isa_Constant _ := false;
  users v := if decide (v = 11) then [12; 13] else [];
  call_args v := if decide (v = 13) then [11] else [];
  getArgOperand _ _ := 11;
  formals _ := [];
  isVarArg _ := false;
  isDeclaration _ := true;
  getName F := F
|}.
Definition small_aliases (v : nat) : gset nat := if decide (v = 11 ∨ v = 12) then {[11; 12]} else {[v]}.
Lemma small_aliases_partition v a : a ∈ small_aliases v → small_aliases a = small_aliases v.
Proof.
  unfold small_aliases. destruct (decide (v = 11 ∨ v = 12)) as [Hv|Hv].
  - intros Ha. rewrite decide_True; [done|set_solver].
  - intros ->%elem_of_singleton. by rewrite decide_False.
Qed.

Lemma typestate_caches_transparent_witness :
  let qs := [QCallToRetEdge 13 11 11 ["fclose"]; QNormalFlow 12; QCallToRetEdge 13 10 10 ["fclose"]] in
  (ask_all file_io 0 small_aliases (λ _, true) (λ _, None) qs emptyCaches).1 =
  (λ q, (ask file_io 0 small_aliases (λ _, true) (λ _, None) q emptyCaches).1) <$> qs.
Proof.
  apply (typestate_caches_transparent file_io 0 small_aliases (λ _, true) (λ _, None)
    [QCallToRetEdge 13 11 11 ["fclose"]; QNormalFlow 12; QCallToRetEdge 13 10 10 ["fclose"]]).
  exact small_aliases_partition.
Defined.

(** Closing the file is seen by the alloca the handle was stored to. *)
Example small_fclose :
  (getCallToRetEdgeFunction file_io 0 small_aliases (λ _, true) 13 10 10 ["fclose"] emptyCaches).1
  = UserEF (TSEdgeFunction "fclose" 13).
Proof. vm_compute. reflexivity. Qed.

(** A handle that was declared and then used is in [ERROR], but the file opened
    and stored to it afterwards is not: closing it leads to [CLOSED]. *)
Lemma file_io_protocol_witness :
  (∃ s, path_function 0 small_aliases (λ _, true) EdgeIdentity
          [NormalStep 10 0 10; CallToRetStep 9 10 10 ["getc"]] emptyCaches = Returns (UserEF (TSConstant s)) ∧
        s = CSTDFILEIO.ERROR) ∧
  (∃ s, path_function 0 small_aliases (λ _, true) EdgeIdentity
          [CallToRetStep 11 0 11 ["fopen"]; NormalStep 12 11 10; CallToRetStep 13 10 10 ["fclose"]] emptyCaches
          = Returns (UserEF (TSConstant s)) ∧
        s = CSTDFILEIO.CLOSED).
Proof.
  split.
  - destruct (proj2 (file_io_protocol 0 small_aliases (λ _, true) small_aliases_partition
      (NormalStep 10 0 10) [CallToRetStep 9 10 10 ["getc"]] ltac:(by repeat constructor)))
      as (s & Hs & _ & He); [by exists 10|].
    exists s. split; [exact Hs|]. apply He. by vm_compute.
  - destruct (proj1 (file_io_protocol 0 small_aliases (λ _, true) small_aliases_partition
      (CallToRetStep 11 0 11 ["fopen"]) [NormalStep 12 11 10; CallToRetStep 13 10 10 ["fclose"]]
      ltac:(by repeat constructor))) as (s & Hs & _ & Hc & _).
    { exists 11, ["fopen"], "fopen". split_and!; [done|done|by apply list_elem_of_here|by left]. }
    exists s. split; [exact Hs|]. apply Hc. exists []. split; [vm_compute; reflexivity|by apply not_elem_of_nil].
Defined.
