(* ===== verification/IterativeIDESolver.v ===== *)
(** [IterativeIDESolver] (DataFlow/IfdsIde/Solver/IterativeIDESolver.h and
    IterativeIDESolverBase.h): the work-list solver that defers returns to
    rounds of inter-procedural jobs, both phases, with its jump-function garbage
    collector. The model is the solver of an IDE problem ([ComputeValues]).

    The code numbers nodes, functions and facts with compressors (file
    Compressor) and keys its tables by packed pairs of 32-bit ids; here the ids
    stand for the objects they name and the packed pairs are pairs. A
    [VectorWorkList] is a stack: the head of the list is the back of the vector.
    The intrusive linked lists of [InterPropagationJob]s are lists, newest first.
    Statistics and log output are not part of the state. *)
From S2P Require Import Prelude JoinLattice Table IDEProblem IDESolverAPIMixin IDESolver.

Module Iterative.

(** * Static configuration (Solver/StaticIDESolverConfig.h) *)

Inductive JumpFunctionGCMode := Disabled | Enabled | EnabledAggressively.

#[export] Instance JumpFunctionGCMode_eq_dec : EqDecision JumpFunctionGCMode.
Proof. solve_decision. Defined.

Record StaticSolverConfig := {
  EnableJumpFunctionGC : JumpFunctionGCMode;
  UseEndSummaryTab : bool
}.

(** [IDESolverConfigBase]. *)
Definition IDESolverConfigBase : StaticSolverConfig :=
  {| EnableJumpFunctionGC := Disabled; UseEndSummaryTab := true |}.

(** What this solver asks of the ICFG and the problem beyond [ICFG] and
    [IDETabulationProblem]: [advanceToNextUser] if the ICFG is sparse
    ([has_advanceToNextUser_v]), [isInteresting] if the problem has it, and
    whether [getSummaryEdgeFunction] returned a null edge function. *)
Record SolverExtras (N D F : Type) := {
  getExitPointsOf : F → list N;
  getAllInstructionsOf : F → list N;
  getPredsOf : N → list N;
  advanceToNextUser : option (N → D → N);
  isInteresting : option (N → bool);
  isNullSummaryEdgeFunction : N → D → N → D → bool
}.
Arguments getExitPointsOf {N D F} _ _.
Arguments getAllInstructionsOf {N D F} _ _.
Arguments getPredsOf {N D F} _ _.
Arguments advanceToNextUser {N D F} _.
Arguments isInteresting {N D F} _.
Arguments isNullSummaryEdgeFunction {N D F} _ _ _ _ _.

(** * Jobs (Solver/IterativeIDESolverBase.h) *)

Record PropagationJob (N D EF : Type) := mkPropagationJob {
  pj_SourceEF : EF;
  AtInstruction : N;
  pj_SourceFact : D;
  PropagatedFact : D
}.
Arguments mkPropagationJob {N D EF} _ _ _ _.
Arguments pj_SourceEF {N D EF} _.
Arguments AtInstruction {N D EF} _.
Arguments pj_SourceFact {N D EF} _.
Arguments PropagatedFact {N D EF} _.

Record InterPropagationJob (N D F EF : Type) := mkInterPropagationJob {
  SourceEF : EF;
  SourceFact : D;
  Callee : F;
  CallSite : N;
  FactInCallee : D
}.
Arguments mkInterPropagationJob {N D F EF} _ _ _ _ _.
Arguments SourceEF {N D F EF} _.
Arguments SourceFact {N D F EF} _.
Arguments Callee {N D F EF} _.
Arguments CallSite {N D F EF} _.
Arguments FactInCallee {N D F EF} _.

(** [operator==] compares the five members. *)
#[export] Instance InterPropagationJob_eq_dec {N D F EF : Type}
  `{EqDecision N, EqDecision D, EqDecision F, EqDecision EF} :
  EqDecision (InterPropagationJob N D F EF).
Proof. solve_decision. Defined.

(** * The state *)

Record State (N D F L EF : Type) `{Countable N, Countable D, Countable F} := mkState {
  WorkList : list (PropagationJob N D EF);
  (** the calls of [saveEdges], latest first: the default configuration drops
      them, the path-aware one builds the exploded supergraph from them *)
  SavedEdges : list (N * N * D * gset D * ESGEdgeKind);
  AllInterPropagations : list (InterPropagationJob N D F EF);
  CallWL : gset (D * F);
  SourceFactAndFuncToInterJob : gmap (D * F) (list (InterPropagationJob N D F EF));
  SourceFactAndCSToInterJob : gmap (D * N) (list (InterPropagationJob N D F EF));
  WLProp : list (N * D * L);
  WLComp : gset N;
  (** per instruction: (source fact, local fact) to edge function *)
  JumpFunctions : Table N (D * D) EF;
  EndSummaryTab : gmap (F * D) (gmap D EF);
  RefCountPerFunction : gmap F nat;
  CandidateFunctionsForGC : gset F;
  ValTab : Table N D L
}.
Arguments mkState {N D F L EF _ _ _ _ _ _} _ _ _ _ _ _ _ _ _ _ _ _ _.
Arguments WorkList {N D F L EF _ _ _ _ _ _} _.
Arguments SavedEdges {N D F L EF _ _ _ _ _ _} _.
Arguments AllInterPropagations {N D F L EF _ _ _ _ _ _} _.
Arguments CallWL {N D F L EF _ _ _ _ _ _} _.
Arguments SourceFactAndFuncToInterJob {N D F L EF _ _ _ _ _ _} _.
Arguments SourceFactAndCSToInterJob {N D F L EF _ _ _ _ _ _} _.
Arguments WLProp {N D F L EF _ _ _ _ _ _} _.
Arguments WLComp {N D F L EF _ _ _ _ _ _} _.
Arguments JumpFunctions {N D F L EF _ _ _ _ _ _} _.
Arguments EndSummaryTab {N D F L EF _ _ _ _ _ _} _.
Arguments RefCountPerFunction {N D F L EF _ _ _ _ _ _} _.
Arguments CandidateFunctionsForGC {N D F L EF _ _ _ _ _ _} _.
Arguments ValTab {N D F L EF _ _ _ _ _ _} _.

Section setters.
Context {N D F L EF : Type} `{Countable N, Countable D, Countable F}.
Abbreviation St := (State N D F L EF).

Definition set_WorkList f (s : St) : St :=
  let (wl, se, al, cw, fj, cj, wp, wc, jf, es, rc, cg, vt) := s in
  mkState (f wl) se al cw fj cj wp wc jf es rc cg vt.
Definition set_SavedEdges f (s : St) : St :=
  let (wl, se, al, cw, fj, cj, wp, wc, jf, es, rc, cg, vt) := s in
  mkState wl (f se) al cw fj cj wp wc jf es rc cg vt.
Definition set_AllInterPropagations f (s : St) : St :=
  let (wl, se, al, cw, fj, cj, wp, wc, jf, es, rc, cg, vt) := s in
  mkState wl se (f al) cw fj cj wp wc jf es rc cg vt.
Definition set_CallWL f (s : St) : St :=
  let (wl, se, al, cw, fj, cj, wp, wc, jf, es, rc, cg, vt) := s in
  mkState wl se al (f cw) fj cj wp wc jf es rc cg vt.
Definition set_FunJobs f (s : St) : St :=
  let (wl, se, al, cw, fj, cj, wp, wc, jf, es, rc, cg, vt) := s in
  mkState wl se al cw (f fj) cj wp wc jf es rc cg vt.
Definition set_CSJobs f (s : St) : St :=
  let (wl, se, al, cw, fj, cj, wp, wc, jf, es, rc, cg, vt) := s in
  mkState wl se al cw fj (f cj) wp wc jf es rc cg vt.
Definition set_WLProp f (s : St) : St :=
  let (wl, se, al, cw, fj, cj, wp, wc, jf, es, rc, cg, vt) := s in
  mkState wl se al cw fj cj (f wp) wc jf es rc cg vt.
Definition set_WLComp f (s : St) : St :=
  let (wl, se, al, cw, fj, cj, wp, wc, jf, es, rc, cg, vt) := s in
  mkState wl se al cw fj cj wp (f wc) jf es rc cg vt.
Definition set_JumpFunctions f (s : St) : St :=
  let (wl, se, al, cw, fj, cj, wp, wc, jf, es, rc, cg, vt) := s in
  mkState wl se al cw fj cj wp wc (f jf) es rc cg vt.
Definition set_EndSummaryTab f (s : St) : St :=
  let (wl, se, al, cw, fj, cj, wp, wc, jf, es, rc, cg, vt) := s in
  mkState wl se al cw fj cj wp wc jf (f es) rc cg vt.
Definition set_RefCount f (s : St) : St :=
  let (wl, se, al, cw, fj, cj, wp, wc, jf, es, rc, cg, vt) := s in
  mkState wl se al cw fj cj wp wc jf es (f rc) cg vt.
Definition set_Candidates f (s : St) : St :=
  let (wl, se, al, cw, fj, cj, wp, wc, jf, es, rc, cg, vt) := s in
  mkState wl se al cw fj cj wp wc jf es rc (f cg) vt.
Definition set_ValTab f (s : St) : St :=
  let (wl, se, al, cw, fj, cj, wp, wc, jf, es, rc, cg, vt) := s in
  mkState wl se al cw fj cj wp wc jf es rc cg (f vt).

(** What the constructor leaves. *)
Definition initialState : St := mkState [] [] [] ∅ ∅ ∅ [] ∅ ∅ ∅ ∅ ∅ ∅.
End setters.

(** * The solver *)

Section solver.
Context {N D F L EF : Type} `{Countable N, Countable D, Countable F}.
Context `{EqDecision EF, EqDecision L, JoinLatticeTraits L, SemiRing L EF}.
Context (ICF : ICFG N D F) (X : SolverExtras N D F).
Context (Problem : IDETabulationProblem N D F L EF) (Config : StaticSolverConfig).
(** What a freshly created entry of [ValTab] reads as: [ValCompressor[0]], the
    first value stored, or the default-constructed value when values are their
    own ids. *)
Context (createdVal : L).
Abbreviation St := (State N D F L EF).
Abbreviation Job := (InterPropagationJob N D F EF).
Implicit Types (st : St) (n : N) (d : D) (f : EF) (Fun : F).

Definition GCEnabled : bool := bool_decide (EnableJumpFunctionGC Config ≠ Disabled).

(** ** The flow functions of the [FlowFunctionCache]: [AutoAddZero] is static *)

Definition zeroed (FF : D → gset D) : D → gset D := ZeroedFlowFunction FF (getZeroValue Problem).
Definition normalFF n nPrime : D → gset D := zeroed (getNormalFlowFunction Problem n nPrime).
Definition callFF n (C : F) : D → gset D := zeroed (getCallFlowFunction Problem n C).
Definition retFF n (C : F) (eP RetSite : N) : D → gset D :=
  zeroed (getRetFlowFunction Problem n C eP RetSite).
Definition callToRetFF n (RetSite : N) (Callees : list F) : D → gset D :=
  zeroed (getCallToRetFlowFunction Problem n RetSite Callees).

Definition saveEdges (SourceNode SinkStmt : N) (SourceVal : D) (DestVals : gset D)
    (Kind : ESGEdgeKind) : St → St :=
  set_SavedEdges (λ l, (SourceNode, SinkStmt, SourceVal, DestVals, Kind) :: l).

(** ** Values *)

(** [keepAnalysisInformationAt]; with [ComputeValues] both instances of the
    template ask the problem. *)
Definition keepAnalysisInformationAt (Inst : N) : bool :=
  isExitInst ICF Inst || isStartPoint ICF Inst
  || existsb (isCallSite ICF) (getPredsOf X Inst)
  || match isInteresting X with Some interesting => interesting Inst | None => false end.

(** [get]: [getOrCreate]. *)
Definition get (Inst : N) (Fact : D) st : L * St :=
  let '(v, T) := Table.get createdVal (ValTab st) Inst Fact in (v, set_ValTab (λ _, T) st).

Definition set (Inst : N) (Fact : D) (Val : L) st : St :=
  if bool_decide (EnableJumpFunctionGC Config = EnabledAggressively)
     && negb (keepAnalysisInformationAt Inst)
  then st
  else set_ValTab (λ T, Table.insert T Inst Fact Val) st.

(** ** Storing jump functions and summaries *)

(** [RefCountPerFunction[FunId]++; CandidateFunctionsForGC.set(FunId)]. *)
Definition countJob Fun st : St :=
  if GCEnabled then
    set_Candidates (union {[Fun]})
      (set_RefCount (λ rc, <[Fun := S (default 0 (rc !! Fun))]> rc) st)
  else st.

(** The node a fact is stored at. *)
Definition storeNode (SuccId : N) (LocalFact : D) : N :=
  match advanceToNextUser X with Some advance => advance SuccId LocalFact | None => SuccId end.

(** The result says whether a job was registered; no caller uses it. *)
Definition storeResultsAndPropagate (SuccId : N) (SourceFact LocalFact : D) Fun (LocalEF : EF)
    st : bool * St :=
  if isAllTop LocalEF then (false, st)
  else
    let SuccId := storeNode SuccId LocalFact in
    match Table.lookup (JumpFunctions st) SuccId (SourceFact, LocalFact) with
    | None =>
        let st := set_JumpFunctions
          (λ T, Table.insert T SuccId (SourceFact, LocalFact) LocalEF) st in
        let st := set_WorkList
          (λ wl, mkPropagationJob LocalEF SuccId SourceFact LocalFact :: wl) st in
        (true, countJob Fun (set SuccId LocalFact top st))
    | Some EF =>
        let NewEF := combine EF LocalEF in
        if decide (NewEF ≠ EF) then
          let st := set_JumpFunctions
            (λ T, Table.insert T SuccId (SourceFact, LocalFact) NewEF) st in
          let st := set_WorkList
            (λ wl, mkPropagationJob NewEF SuccId SourceFact LocalFact :: wl) st in
          (true, countJob Fun st)
        else (false, st)
    end.

Definition store SuccId SourceFact LocalFact Fun LocalEF st : St :=
  (storeResultsAndPropagate SuccId SourceFact LocalFact Fun LocalEF st).2.

(** [storeSummary], on the summaries of a function and a source fact. *)
Definition storeSummary (LocalFact : D) (LocalEF : EF) (JumpFns : gmap D EF) : gmap D EF :=
  match JumpFns !! LocalFact with
  | None => <[LocalFact := LocalEF]> JumpFns
  | Some EF =>
      let NewEF := combine EF LocalEF in
      if decide (NewEF ≠ EF) then <[LocalFact := NewEF]> JumpFns else JumpFns
  end.

(** [EndSummaryTab.getOrCreate]. *)
Definition getOrCreateSummaries Fun (Fact : D) st : gmap D EF * St :=
  let m := default ∅ (EndSummaryTab st !! (Fun, Fact)) in
  (m, set_EndSummaryTab (λ T, <[(Fun, Fact) := m]> T) st).

(** [JumpFunctions[ExitId].allOf(...)]: the facts and functions of a source. *)
Definition jumpFunctionsFrom (ExitId : N) (SourceFact : D) st : list (D * EF) :=
  omap (λ '((s, t), f), if decide (s = SourceFact) then Some (t, f) else None)
    (map_to_list (Table.row (JumpFunctions st) ExitId)).

(** ** Flows inside a function *)

Definition applyNormalFlow (AtInstruction : N) (SourceFact PropagatedFact : D) (SourceEF : EF)
    st : St :=
  let Fun := getFunctionOf ICF AtInstruction in
  let st := for_each (getSuccsOf ICF AtInstruction) (λ Succ st,
    let Facts := normalFF AtInstruction Succ PropagatedFact in
    let st := saveEdges AtInstruction Succ PropagatedFact Facts ESG_Normal st in
    for_each (elements Facts) (λ Fact st,
      let NEF := getNormalEdgeFunction Problem AtInstruction PropagatedFact Succ Fact in
      store Succ SourceFact Fact Fun (extend SourceEF NEF) st) st) st in
  if isExitInst ICF AtInstruction then
    let st := set_CallWL (union {[(SourceFact, Fun)]}) st in
    if UseEndSummaryTab Config then
      let '(m, st) := getOrCreateSummaries Fun SourceFact st in
      set_EndSummaryTab (λ T, <[(Fun, SourceFact) := storeSummary PropagatedFact SourceEF m]> T) st
    else st
  else st.

Definition applyCallToReturnFlow (AtInstruction : N) (SourceFact PropagatedFact : D)
    (SourceEF : EF) (Callees : list F) (HasNoCalleeInformation : bool) st : St :=
  let Fun := getFunctionOf ICF AtInstruction in
  for_each (getReturnSitesOfCallAt ICF AtInstruction) (λ RetSite st,
    let Facts := callToRetFF AtInstruction RetSite Callees PropagatedFact in
    let st := saveEdges AtInstruction RetSite PropagatedFact Facts
      (if HasNoCalleeInformation then ESG_SkipUnknownFn else ESG_CallToRet) st in
    for_each (elements Facts) (λ Fact st,
      let CEF := getCallToRetEdgeFunction Problem AtInstruction PropagatedFact RetSite Fact Callees in
      store RetSite SourceFact Fact Fun (extend SourceEF CEF) st) st) st.

Definition applySummaryFlow (SummaryFacts : gset D) (AtInstruction : N) (SourceFact CSFact : D)
    (SourceEF : EF) st : St :=
  let Fun := getFunctionOf ICF AtInstruction in
  for_each (getReturnSitesOfCallAt ICF AtInstruction) (λ RetSite st,
    let st := saveEdges AtInstruction RetSite CSFact SummaryFacts ESG_Summary st in
    for_each (elements SummaryFacts) (λ Fact st,
      let EF :=
        if isNullSummaryEdgeFunction X AtInstruction CSFact RetSite Fact then SourceEF
        else extend SourceEF (getSummaryEdgeFunction Problem AtInstruction CSFact RetSite Fact) in
      store RetSite SourceFact Fact Fun EF st) st) st.

(** ** Returns *)

(** Summaries of a callee (local fact and jump function), applied at the return
    sites of one call. *)
Definition propagateProcedureSummaries (Summaries : list (D * EF)) (CallSite : N) (Callee : F)
    (ExitInst : N) (SourceFact : D) (Caller : F) (CallEF : EF) st : St :=
  for_each (getReturnSitesOfCallAt ICF CallSite) (λ RetSite st,
    for_each Summaries (λ Summary st,
      let RetFacts := retFF CallSite Callee ExitInst RetSite Summary.1 in
      let st := saveEdges ExitInst RetSite Summary.1 RetFacts ESG_Ret st in
      for_each (elements RetFacts) (λ RetFact st,
        let RetEF :=
          getReturnEdgeFunction Problem CallSite Callee ExitInst Summary.1 RetSite RetFact in
        store RetSite SourceFact RetFact Caller (extend (extend CallEF Summary.2) RetEF) st)
        st) st) st.

(** The summaries used at one exit: those of the table, read before the loop
    over the exits, or the jump functions at the exit. *)
Definition summariesAt (Summaries : list (D * EF)) (ExitInst : N) (Fact : D) st : list (D * EF) :=
  if UseEndSummaryTab Config then Summaries else jumpFunctionsFrom ExitInst Fact st.

Definition readSummaries (Callee : F) (Fact : D) st : list (D * EF) * St :=
  if UseEndSummaryTab Config then
    let '(m, st) := getOrCreateSummaries Callee Fact st in (map_to_list m, st)
  else ([], st).

Definition applyEarlySummariesAtCall (AtInstruction : N) (Callee : F) (Fact SourceFact : D)
    (CallEF : EF) st : St :=
  let Caller := getFunctionOf ICF AtInstruction in
  let '(Summaries, st) := readSummaries Callee Fact st in
  for_each (getExitPointsOf X Callee) (λ ExitInst st,
    let Summaries := summariesAt Summaries ExitInst Fact st in
    if decide (Summaries ≠ []) then
      propagateProcedureSummaries Summaries AtInstruction Callee ExitInst SourceFact Caller
        CallEF st
    else st) st.

(** ** Calls *)

(** A job not seen before: the known summaries are applied and the job is
    registered for later ones and for the second phase. *)
Definition registerJob (It : Job) st : St :=
  if decide (It ∈ AllInterPropagations st) then st
  else
    let st := set_AllInterPropagations (cons It) st in
    let st := applyEarlySummariesAtCall (CallSite It) (Callee It) (FactInCallee It)
      (SourceFact It) (SourceEF It) st in
    let st := set_FunJobs
      (λ m, <[(FactInCallee It, Callee It) :=
               It :: default [] (m !! (FactInCallee It, Callee It))]> m) st in
    set_CSJobs
      (λ m, <[(SourceFact It, CallSite It) :=
               It :: default [] (m !! (SourceFact It, CallSite It))]> m) st.

(** [deferCallFlow]: the result is [HasNoCalleeInformation]. *)
Definition deferCallFlow (AtInstruction : N) (SourceFact CSFact : D) (SourceEF : EF) (Callee : F)
    st : bool * St :=
  let CalleeFacts := callFF AtInstruction Callee CSFact in
  let StartPoints := getStartPointsOf ICF Callee in
  (bool_decide (StartPoints = []),
   for_each StartPoints (λ SP st,
     let st := saveEdges AtInstruction SP CSFact CalleeFacts ESG_Call st in
     for_each (elements CalleeFacts) (λ Fact st,
       let CEF := getCallEdgeFunction Problem AtInstruction CSFact Callee Fact in
       let CallEF := extend SourceEF CEF in
       let st := store SP Fact Fact Callee identity st in
       registerJob (mkInterPropagationJob CallEF SourceFact Callee AtInstruction Fact) st) st) st).

(** One callee; the flag is the one of the last callee. *)
Definition handleOrDeferCallee (AtInstruction : N) (SourceFact PropagatedFact : D) (SourceEF : EF)
    (Callee : F) (bst : bool * St) : bool * St :=
  match getSummaryFlowFunction Problem AtInstruction Callee with
  | None => deferCallFlow AtInstruction SourceFact PropagatedFact SourceEF Callee bst.2
  | Some SummaryFF =>
      (false, applySummaryFlow (SummaryFF PropagatedFact) AtInstruction SourceFact PropagatedFact
                SourceEF bst.2)
  end.

Definition handleOrDeferCallFlow (AtInstruction : N) (SourceFact PropagatedFact : D)
    (SourceEF : EF) (Callees : list F) st : bool * St :=
  for_each Callees (handleOrDeferCallee AtInstruction SourceFact PropagatedFact SourceEF)
    (true, st).

Definition applyIntraCallFlow (AtInstruction : N) (SourceFact PropagatedFact : D) (SourceEF : EF)
    st : St :=
  let Callees := getCalleesOfCallAt ICF AtInstruction in
  let '(HasNoCalleeInformation, st) :=
    handleOrDeferCallFlow AtInstruction SourceFact PropagatedFact SourceEF Callees st in
  applyCallToReturnFlow AtInstruction SourceFact PropagatedFact SourceEF Callees
    HasNoCalleeInformation st.

Definition applyFlowFunction (AtInstruction : N) (SourceFact PropagatedFact : D) (SourceEF : EF)
    st : St :=
  if negb (isCallSite ICF AtInstruction)
  then applyNormalFlow AtInstruction SourceFact PropagatedFact SourceEF st
  else applyIntraCallFlow AtInstruction SourceFact PropagatedFact SourceEF st.

(** [propagate]: a job leaves the work list. *)
Definition propagate (Job : PropagationJob N D EF) st : St :=
  let Fun := getFunctionOf ICF (AtInstruction Job) in
  let st := if GCEnabled
            then set_RefCount (λ rc, <[Fun := pred (default 0 (rc !! Fun))]> rc) st
            else st in
  applyFlowFunction (AtInstruction Job) (pj_SourceFact Job) (PropagatedFact Job)
    (pj_SourceEF Job) st.

(** ** The inter-procedural round *)

(** One entry of [CallWL]: the summaries of a callee and a fact go to all the
    jobs registered for them. *)
Definition processInterJob (SourceFactAndFunc : D * F) st : St :=
  let '(SPFact, Callee) := SourceFactAndFunc in
  let '(Summaries, st) := readSummaries Callee SPFact st in
  for_each (getExitPointsOf X Callee) (λ ExitInst st,
    let Summaries := summariesAt Summaries ExitInst SPFact st in
    for_each (default [] (SourceFactAndFuncToInterJob st !! SourceFactAndFunc)) (λ InterJob st,
      propagateProcedureSummaries Summaries (CallSite InterJob) Callee ExitInst
        (SourceFact InterJob) (getFunctionOf ICF (CallSite InterJob)) (SourceEF InterJob) st)
      st) st.

Definition processInterJobs st : St :=
  let RelevantCalls := elements (CallWL st) in
  for_each RelevantCalls processInterJob (set_CallWL (λ _, ∅) st).

(** ** Garbage collection of jump functions *)

(** The functions of the call sites that call [Fun]. *)
Definition callerFunctions Fun : list F := getFunctionOf ICF <$> getCallersOf ICF Fun.

(** The first loop of [getCollectableFunctions]: a candidate with pending jobs
    keeps its callers alive, the others are collectable so far. The list is the
    vector [FunWorkList], its head the back. *)
Definition initCandidates st : list F * gset F :=
  for_each (elements (CandidateFunctionsForGC st)) (λ C '(FunWorkList, FinalCandidates),
    if decide (default 0 (RefCountPerFunction st !! C) ≠ 0)
    then (reverse (callerFunctions C) ++ FunWorkList, FinalCandidates)
    else (FunWorkList, {[C]} ∪ FinalCandidates)) ([], ∅).

(** One turn of its second loop; [None] when the work list is empty. *)
Definition keepCallers (s : list F * gset F) : option (list F * gset F) :=
  match s with
  | ([], _) => None
  | (FunId :: FunWorkList, FinalCandidates) =>
      if decide (FunId ∈ FinalCandidates) then
        Some (reverse (callerFunctions FunId) ++ FunWorkList, FinalCandidates ∖ {[FunId]})
      else Some (FunWorkList, FinalCandidates)
  end.

(** The turns that the loop can take: every entry of the work list is popped
    once, and a candidate adds its callers when it is dropped. *)
Definition keepCallers_bound (s : list F * gset F) : nat :=
  length s.1 + sum_of (λ C, length (callerFunctions C)) (elements s.2).

Definition getCollectableFunctions st : gset F :=
  let s := initCandidates st in
  match while_next keepCallers (keepCallers_bound s) s with
  | Some (_, FinalCandidates) => FinalCandidates
  | None => ∅
  end.

Definition removeJumpFunctionsFor (Inst : N) st : St :=
  if keepAnalysisInformationAt Inst then st
  else set_JumpFunctions (λ T, delete Inst T) st.

Definition cleanupInterJobsFor Fun : St → St :=
  set_FunJobs (λ m, filter (λ kv, kv.1.2 ≠ Fun) m).

Definition collectFunction Fun st : St :=
  let st := for_each (getAllInstructionsOf X Fun) removeJumpFunctionsFor st in
  set_Candidates (λ c, c ∖ {[Fun]}) (cleanupInterJobsFor Fun st).

Definition runGC st : St :=
  if GCEnabled then for_each (elements (getCollectableFunctions st)) collectFunction st else st.

(** ** Driving the first phase *)

(** [WorkList.pop()] and [propagate]; [None] when the work list is empty. *)
Definition popJob st : option St :=
  match WorkList st with
  | [] => None
  | Job :: wl => Some (propagate Job (set_WorkList (λ _, wl) st))
  end.

Definition submitInitialSeeds st : St :=
  for_each (map_to_list (initialSeeds Problem)) (λ '(Inst, SeedMap) st,
    for_each (map_to_list SeedMap) (λ '(Fact, _) st,
      store Inst Fact Fact (getFunctionOf ICF Inst) identity st) st) st.

(** [doInitialize]: the vectors get an empty map per instruction, which is what
    a missing row reads as. *)
Definition doInitialize st : St := submitInitialSeeds st.

(** [doNext]: an inter-procedural round when the work list is empty; [false]
    when it stays empty. *)
Definition doNext st : bool * St :=
  match popJob st with
  | Some st => (true, st)
  | None =>
      let st := runGC (processInterJobs st) in
      match popJob st with Some st => (true, st) | None => (false, st) end
  end.

(** The loop of [performDataflowFactPropagation]: rounds until one has found the
    work list empty. [None] when the fuel of a loop runs out. *)
Fixpoint rounds (fuel : nat) st : option St :=
  let Finished := bool_decide (WorkList st = []) in
  st ← while_next popJob fuel st;
  let st := runGC (processInterJobs st) in
  if Finished then Some st
  else match fuel with 0 => None | S fuel => rounds fuel st end.

(** The jump functions are complete before they are dropped. *)
Definition dataflowFactPropagation (fuel : nat) : option St :=
  rounds fuel (doInitialize initialState).

Definition finalizePhase1 st : St :=
  set_CallWL (λ _, ∅) (set_WorkList (λ _, []) (set_FunJobs (λ _, ∅) st)).

Definition performDataflowFactPropagation (fuel : nat) : option St :=
  st ← dataflowFactPropagation fuel; Some (finalizePhase1 st).

(** ** Phase II *)

Definition submitInitialValues st : St :=
  for_each (map_to_list (initialSeeds Problem)) (λ '(Inst, SeedMap) st,
    for_each (map_to_list SeedMap) (λ '(Fact, Val) st,
      set_WLProp (cons (Inst, Fact, Val)) st) st) st.

(** The jobs a value is propagated along: the calls in the function. *)
Definition propagateValue (Item : N * D * L) st : St :=
  let '(SP, Fact, Val) := Item in
  let '(StoredVal, st) := get SP Fact st in
  let NewVal := join StoredVal Val in
  if decide (NewVal = StoredVal) then st
  else
    let st := set_WLComp (union {[SP]}) (set SP Fact NewVal st) in
    let Fun := getFunctionOf ICF SP in
    for_each (getCallsFromWithin ICF Fun) (λ CS st,
      for_each (default [] (SourceFactAndCSToInterJob st !! (Fact, CS))) (λ InterJob st,
        for_each (getStartPointsOf ICF (Callee InterJob)) (λ CalleeSP st,
          set_WLProp
            (cons (CalleeSP, FactInCallee InterJob, computeTarget (SourceEF InterJob) Val)) st)
          st) st) st.

Definition popValue st : option St :=
  match WLProp st with
  | [] => None
  | Item :: wl => Some (propagateValue Item (set_WLProp (λ _, wl) st))
  end.

(** One cell of the jump functions of an instruction. *)
Definition computeValue (SP Inst : N) (Cell : D * D * EF) st : St :=
  let '((SrcFact, TgtFact), EF) := Cell in
  let '(Val, st) := get SP SrcFact st in
  let '(StoredVal, st) := get Inst TgtFact st in
  let NewVal := join StoredVal (computeTarget EF Val) in
  if decide (NewVal ≠ StoredVal) then set Inst TgtFact NewVal st else st.

Definition computeValues (SP : N) st : St :=
  let Fun := getFunctionOf ICF SP in
  for_each (getAllInstructionsOf X Fun) (λ Inst st,
    if decide (Inst = SP) then st
    else if bool_decide (EnableJumpFunctionGC Config = EnabledAggressively)
            && match isInteresting X with Some interesting => negb (interesting Inst)
               | None => false end
    then st
    else for_each (map_to_list (Table.row (JumpFunctions st) Inst)) (computeValue SP Inst) st) st.

Definition performValuePropagation (fuel : nat) st : option St :=
  st ← while_next popValue fuel (submitInitialValues st);
  let st := set_WLProp (λ _, []) st in
  let st := for_each (elements (WLComp st)) computeValues st in
  let st := set_WLComp (λ _, ∅) st in
  Some (set_AllInterPropagations (λ _, []) (set_CSJobs (λ _, ∅) (set_JumpFunctions (λ _, ∅) st))).

(** [solve()]. *)
Definition solve (fuel : nat) : option St :=
  st ← performDataflowFactPropagation fuel; performValuePropagation fuel st.

(** Stepping: [initialize()], [next()] until it returns [false], and
    [finalize()]. *)
Fixpoint continueImpl (fuel : nat) st : option St :=
  match doNext st with
  | (false, st) => Some st
  | (true, st) => match fuel with 0 => None | S fuel => continueImpl fuel st end
  end.

Definition solveStepwise (fuel : nat) : option St :=
  st ← continueImpl fuel (doInitialize initialState);
  performValuePropagation fuel (finalizePhase1 st).
End solver.
End Iterative.
