(* ===== verification/IterativeIDESolverRules.v ===== *)
(** The rules the [IterativeIDESolver] follows in its first phase, and that
    everything it stores follows from them ([iter_sound]), for every mode of the
    jump-function garbage collector.

    The rules differ from those of the [IDESolver] (file IDESolverFixpoint) in
    the composition of returns, in the seeds, in the null summary edge functions,
    and in the end-summary table, which does not tell the exits of a function
    apart. *)
From S2P Require Import Prelude JoinLattice Table IDEProblem IDESolverAPIMixin IDESolver IDESolverEffects IterativeIDESolver.
Import Iterative.

(** The exit points of a function are its exit instructions; no call site is one. *)
Class ExitPointLaws {N D F} (ICF : ICFG N D F) (X : SolverExtras N D F) : Prop :=
  exit_points (Fun : F) (n : N) :
    n ∈ getExitPointsOf X Fun ↔ exit_node ICF n ∧ getFunctionOf ICF n = Fun.

Section rules.
Context {N D F L EF : Type} `{Countable N, Countable D, Countable F}.
Context `{EqDecision EF, EqDecision L, JoinLatticeTraits L, !SemiRing L EF}.
Context (ICF : ICFG N D F) (X : SolverExtras N D F).
Context (P : IDETabulationProblem N D F L EF) (Config : StaticSolverConfig).
Local Open Scope phasar_scope.

(** Extending by an edge function that may be null. *)
Definition after (f : EF) (og : option EF) : EF :=
  match og with Some g => extend f g | None => f end.

(** Flows inside a function; the target is the node before [advanceToNextUser]. *)
Inductive local_flow (n : N) (d2 : D) : N → D → option EF → Prop :=
  | flow_normal n' d3 :
      isCallSite ICF n = false → n' ∈ getSuccsOf ICF n → d3 ∈ normalFF P n n' d2 →
      local_flow n d2 n' d3 (Some (getNormalEdgeFunction P n d2 n' d3))
  | flow_summary C Sum RetSite d3 :
      isCallSite ICF n = true → C ∈ getCalleesOfCallAt ICF n →
      getSummaryFlowFunction P n C = Some Sum → RetSite ∈ getReturnSitesOfCallAt ICF n →
      d3 ∈ Sum d2 →
      local_flow n d2 RetSite d3
        (if isNullSummaryEdgeFunction X n d2 RetSite d3 then None
         else Some (getSummaryEdgeFunction P n d2 RetSite d3))
  | flow_call_to_return RetSite d3 :
      isCallSite ICF n = true → RetSite ∈ getReturnSitesOfCallAt ICF n →
      d3 ∈ callToRetFF P n RetSite (getCalleesOfCallAt ICF n) d2 →
      local_flow n d2 RetSite d3
        (Some (getCallToRetEdgeFunction P n d2 RetSite d3 (getCalleesOfCallAt ICF n))).

Definition call_flow (n : N) (d2 : D) (C : F) (SP : N) (d3 : D) : Prop :=
  isCallSite ICF n = true ∧ C ∈ getCalleesOfCallAt ICF n ∧
  getSummaryFlowFunction P n C = None ∧ SP ∈ getStartPointsOf ICF C ∧ d3 ∈ callFF P n C d2.

(** The edge function of a call, extended over the one of the caller. *)
Definition callEF (f : EF) (c : N) (d2 : D) (C : F) (d3 : D) : EF :=
  extend f (getCallEdgeFunction P c d2 C d3).

(** The return of the fact [d4] from the exit [eP] to the call [c]. *)
Inductive return_flow (c : N) (C : F) (eP : N) (d4 : D) : N → D → EF → Prop :=
  | return_flow_intro RetSite d5 :
      RetSite ∈ getReturnSitesOfCallAt ICF c → d5 ∈ retFF P c C eP RetSite d4 →
      return_flow c C eP d4 RetSite d5 (getReturnEdgeFunction P c C eP d4 RetSite d5).

(** The summaries of the exit [eP] are applied at the exit [eP']: at the exit
    itself, or at every exit of the function with the end-summary table. *)
Definition applied_at (C : F) (eP eP' : N) : Prop :=
  eP ∈ getExitPointsOf X C ∧ eP' ∈ getExitPointsOf X C ∧
  (UseEndSummaryTab Config = false → eP' = eP).

Definition iter_seed (SP : N) (d : D) : Prop :=
  ∃ Facts, initialSeeds P !! SP = Some Facts ∧ is_Some (Facts !! d).

(** Predicates on jump functions and on the summaries applied at an exit, closed
    under the rules. *)
Record iter_closed (R : D → N → D → EF → Prop) (S : F → N → D → D → EF → Prop) : Prop := {
  cl_seed SP d : iter_seed SP d → R d (storeNode X SP d) d identity;
  cl_local d1 n d2 f n' d3 og :
    R d1 n d2 f → f ≠ AllTop → local_flow n d2 n' d3 og →
    R d1 (storeNode X n' d3) d3 (after f og);
  cl_call d1 n d2 f C SP d3 :
    R d1 n d2 f → f ≠ AllTop → call_flow n d2 C SP d3 → R d3 (storeNode X SP d3) d3 identity;
  cl_summary C d3 eP eP' d4 fs :
    R d3 eP d4 fs → fs ≠ AllTop → applied_at C eP eP' → S C eP' d3 d4 fs;
  cl_return d1 c d2 f C SP d3 eP d4 fs n' d5 f5 :
    R d1 c d2 f → f ≠ AllTop → call_flow c d2 C SP d3 →
    S C eP d3 d4 fs → fs ≠ AllTop → eP ∈ getExitPointsOf X C →
    return_flow c C eP d4 n' d5 f5 →
    R d1 (storeNode X n' d5) d5 (extend (extend (callEF f c d2 C d3) fs) f5);
  cl_combine d1 n d2 f g : R d1 n d2 f → R d1 n d2 g → R d1 n d2 (combine f g);
  cl_combine_summary C eP d3 d4 f g :
    S C eP d3 d4 f → S C eP d3 d4 g → S C eP d3 d4 (combine f g)
}.

(** The summary of a table of jump functions that is applied at an exit. *)
Definition iter_summary (K : D → N → D → EF) (C : F) (eP : N) (d3 d4 : D) : EF :=
  if UseEndSummaryTab Config
  then foldr (λ x f, combine (K d3 x d4) f) AllTop (getExitPointsOf X C)
  else K d3 eP d4.

(** A table is a solution when what the rules derive from it is below it. *)
Record iter_solution (K : D → N → D → EF) : Prop := {
  sl_seed SP d : iter_seed SP d → identity ⊑ₑ K d (storeNode X SP d) d;
  sl_local d1 n d2 n' d3 og :
    K d1 n d2 ≠ AllTop → local_flow n d2 n' d3 og →
    after (K d1 n d2) og ⊑ₑ K d1 (storeNode X n' d3) d3;
  sl_call d1 n d2 C SP d3 :
    K d1 n d2 ≠ AllTop → call_flow n d2 C SP d3 → identity ⊑ₑ K d3 (storeNode X SP d3) d3;
  sl_return d1 c d2 C SP d3 eP d4 n' d5 f5 :
    K d1 c d2 ≠ AllTop → call_flow c d2 C SP d3 →
    eP ∈ getExitPointsOf X C → iter_summary K C eP d3 d4 ≠ AllTop →
    return_flow c C eP d4 n' d5 f5 →
    extend (extend (callEF (K d1 c d2) c d2 C d3) (iter_summary K C eP d3 d4)) f5
      ⊑ₑ K d1 (storeNode X n' d5) d5
}.

Context `{!SemiRingLaws L EF}.

Lemma after_mono f f' og : f ⊑ₑ f' → after f og ⊑ₑ after f' og.
Proof. intros Hf. destruct og; simpl; [by apply extend_le_mono | done]. Qed.

Lemma callEF_mono f f' c d2 C d3 : f ⊑ₑ f' → callEF f c d2 C d3 ⊑ₑ callEF f' c d2 C d3.
Proof. intros Hf. by apply extend_le_mono. Qed.

(** What is above something else than top is not top. *)
Lemma above_not_top (f g : EF) : f ⊑ₑ g → f ≠ AllTop → g ≠ AllTop.
Proof. intros Hle Hf ->. by apply Hf, ef_le_top_inv. Qed.

Lemma foldr_combine_le {A} (h : A → EF) l x : x ∈ l → h x ⊑ₑ foldr (λ y f, combine (h y) f) AllTop l.
Proof.
  induction l as [|y l IH]; intros Hx; [by apply elem_of_nil in Hx|]. simpl.
  apply elem_of_cons in Hx as [->|Hx]; [apply combine_ub_l|].
  transitivity (foldr (λ y f, combine (h y) f) AllTop l); [by apply IH | apply combine_ub_r].
Qed.

Lemma foldr_combine_lub {A} (h : A → EF) l g :
  (∀ x, x ∈ l → h x ⊑ₑ g) → foldr (λ y f, combine (h y) f) AllTop l ⊑ₑ g.
Proof.
  induction l as [|y l IH]; intros Hl; simpl; [apply ef_le_top|].
  apply combine_lub. split; [apply Hl; set_solver|]. apply IH. set_solver.
Qed.

Lemma iter_summary_ge K C eP eP' d3 d4 : applied_at C eP eP' → K d3 eP d4 ⊑ₑ iter_summary K C eP' d3 d4.
Proof.
  intros (HeP & _ & Heq). unfold iter_summary. destruct (UseEndSummaryTab Config).
  - by apply (foldr_combine_le (λ x, K d3 x d4)).
  - by rewrite Heq.
Qed.

(** What is below a solution is closed. *)
Lemma iter_solution_closed K :
  iter_solution K → iter_closed (λ d1 n d2 f, f ⊑ₑ K d1 n d2) (λ C eP d3 d4 f, f ⊑ₑ iter_summary K C eP d3 d4).
Proof.
  intros [Hs Hl Hc Hr]. split.
  - apply Hs.
  - intros d1 n d2 f n' d3 og Hf Hne He. transitivity (after (K d1 n d2) og).
    + by apply after_mono.
    + apply (Hl _ _ d2); [by eapply above_not_top | done].
  - intros d1 n d2 f C SP d3 Hf Hne He. apply (Hc d1 n d2 C); [by eapply above_not_top | done].
  - intros C d3 eP eP' d4 fs Hf Hne Hap. transitivity (K d3 eP d4); [done | by apply iter_summary_ge].
  - intros d1 c d2 f C SP d3 eP d4 fs n' d5 f5 Hf Hne Hce Hfs Hnes HeP Hre.
    etransitivity; [|eapply Hr; [by eapply above_not_top|exact Hce|exact HeP| |exact Hre];
      by eapply above_not_top].
    repeat (apply extend_le_mono; try done).
  - intros. by apply combine_lub.
  - intros. by apply combine_lub.
Qed.
End rules.

(** * Views of the state and of [storeResultsAndPropagate] *)

Section views.
Context {N D F L EF : Type} `{Countable N, Countable D, Countable F}.
Context `{EqDecision EF, EqDecision L, JoinLatticeTraits L, !SemiRing L EF}.
Context (ICF : ICFG N D F) (X : SolverExtras N D F).
Context (P : IDETabulationProblem N D F L EF) (Config : StaticSolverConfig).
Abbreviation St := (State N D F L EF).
Implicit Types (st : St).

Definition stored_jf st (d1 : D) (n : N) (d2 : D) : option EF :=
  Table.lookup (JumpFunctions st) n (d1, d2).

(** The stored jump function, [AllTop] if there is none. *)
Definition iter_Jf st (d1 : D) (n : N) (d2 : D) : EF := default AllTop (stored_jf st d1 n d2).

Definition summaries_of st (C : F) (d : D) : gmap D EF := default ∅ (EndSummaryTab st !! (C, d)).

Definition jobs_of st (d : D) (C : F) : list (InterPropagationJob N D F EF) :=
  default [] (SourceFactAndFuncToInterJob st !! (d, C)).

Definition job (d1 : D) (n : N) (d2 : D) (f : EF) : PropagationJob N D EF :=
  mkPropagationJob f n d1 d2.

(** What the propagation of facts leaves alone. *)
Record same_jobs st st' : Prop := {
  sj_All : AllInterPropagations st' = AllInterPropagations st;
  sj_CallWL : CallWL st' = CallWL st;
  sj_FunJobs : SourceFactAndFuncToInterJob st' = SourceFactAndFuncToInterJob st;
  sj_CSJobs : SourceFactAndCSToInterJob st' = SourceFactAndCSToInterJob st;
  sj_summaries C d : summaries_of st' C d = summaries_of st C d
}.

#[export] Instance same_jobs_preorder : PreOrder same_jobs.
Proof.
  split; [by split|]. intros st1 st2 st3 [] []. split; intros; try congruence.
Qed.

Record stored_at st st' (d1 : D) (n : N) (d2 : D) (fP : EF) : Prop := {
  sa_JumpFunctions : JumpFunctions st' = Table.insert (JumpFunctions st) n (d1, d2) fP;
  sa_WorkList : WorkList st' = job d1 n d2 fP :: WorkList st;
  sa_same : same_jobs st st'
}.

Lemma stored_at_jf st st' d1 n d2 fP d n' d' :
  stored_at st st' d1 n d2 fP →
  stored_jf st' d n' d' =
    if decide ((d, n', d') = (d1, n, d2)) then Some fP else stored_jf st d n' d'.
Proof.
  intros [HJ _ _]. unfold stored_jf. rewrite HJ, table_lookup_insert.
  repeat case_decide; naive_solver.
Qed.

Lemma countJob_fields Fun st :
  let st' := countJob Config Fun st in
  JumpFunctions st' = JumpFunctions st ∧ WorkList st' = WorkList st ∧ same_jobs st st'.
Proof. unfold countJob. destruct st. by case_match. Qed.

Lemma set_fields n d v st :
  let st' := set ICF X Config n d v st in
  JumpFunctions st' = JumpFunctions st ∧ WorkList st' = WorkList st ∧ same_jobs st st'.
Proof. unfold set. destruct st. by case_match. Qed.

Context `{!SemiRingLaws L EF}.

(** Storing raises one jump function and registers a job, or does nothing. *)
Lemma store_cases n d1 d2 Fun f st :
  let st' := store ICF X Config n d1 d2 Fun f st in
  let n' := storeNode X n d2 in
  let fP := combine (iter_Jf st d1 n' d2) f in
  (fP = iter_Jf st d1 n' d2 ∧ st' = st) ∨
  (fP ≠ iter_Jf st d1 n' d2 ∧ stored_at st st' d1 n' d2 fP).
Proof.
  cbv zeta. unfold store, storeResultsAndPropagate, iter_Jf, stored_jf.
  destruct (isAllTop f) eqn:Htop.
  { left. split; [|done]. apply isAllTop_spec in Htop as ->. apply combine_top_r. }
  destruct (Table.lookup (JumpFunctions st) _ _) as [f0|] eqn:Hl; simpl.
  - destruct (decide (combine f0 f ≠ f0)) as [Hne|Heq%dec_stable]; [right|left; done].
    split; [done|]. set (st1 := set_WorkList _ _).
    destruct (countJob_fields Fun st1) as (HJ & HW & HS). cbv zeta in *.
    cbn [snd]. split; unfold job.
    + rewrite HJ. unfold st1. by destruct st.
    + rewrite HW. unfold st1. by destruct st.
    + transitivity st1; [unfold st1; by destruct st | done].
  - right. assert (f ≠ AllTop) as Hne.
    { intros Heq. apply isAllTop_spec in Heq. congruence. }
    split; [unfold AllTop; by rewrite combine_top_l|].
    set (st1 := set_WorkList _ _). set (st2 := set _ _ _ _ _ _ st1).
    destruct (set_fields (storeNode X n d2) d2 top st1) as (HJ2 & HW2 & HS2).
    destruct (countJob_fields Fun st2) as (HJ & HW & HS). cbv zeta in *. fold st2 in HJ2, HW2, HS2.
    cbn [snd]. split; unfold job, AllTop; rewrite ?combine_top_l.
    + rewrite HJ, HJ2. unfold st1. by destruct st.
    + rewrite HW, HW2. unfold st1. by destruct st.
    + transitivity st2; [|done]. transitivity st1; [unfold st1; by destruct st | done].
Qed.

Lemma saveEdges_fields a b c S K st :
  let st' := saveEdges a b c S K st in
  JumpFunctions st' = JumpFunctions st ∧ WorkList st' = WorkList st ∧ same_jobs st st'.
Proof. by destruct st. Qed.

Lemma getOrCreateSummaries_fields C d st :
  let r := getOrCreateSummaries C d st in
  r.1 = summaries_of st C d ∧
  JumpFunctions r.2 = JumpFunctions st ∧ WorkList r.2 = WorkList st ∧ same_jobs st r.2.
Proof.
  unfold getOrCreateSummaries. cbv zeta. simpl. split; [done|].
  split; [by destruct st|]. split; [by destruct st|].
  split; try by destruct st. intros C' d'. unfold summaries_of. destruct st. simpl.
  destruct (decide ((C, d) = (C', d'))) as [[= -> ->]|Hne].
  - by rewrite lookup_insert_eq.
  - by rewrite lookup_insert_ne.
Qed.

Lemma readSummaries_fields C d st :
  let r := readSummaries Config C d st in
  r.1 = (if UseEndSummaryTab Config then map_to_list (summaries_of st C d) else []) ∧
  JumpFunctions r.2 = JumpFunctions st ∧ WorkList r.2 = WorkList st ∧ same_jobs st r.2.
Proof.
  unfold readSummaries. pose proof (getOrCreateSummaries_fields C d st) as Hg. cbv zeta in *.
  destruct (UseEndSummaryTab Config); [|done].
  destruct (getOrCreateSummaries C d st) as [m st']. simpl in *. destruct Hg as (-> & ?). done.
Qed.

Lemma jumpFunctionsFrom_elem n d1 st d2 f :
  (d2, f) ∈ jumpFunctionsFrom n d1 st ↔ stored_jf st d1 n d2 = Some f.
Proof.
  unfold jumpFunctionsFrom, stored_jf, Table.lookup, Table.row. rewrite list_elem_of_omap. split.
  - intros ([[s t] g] & Hin%elem_of_map_to_list & Hd). case_decide; simplify_eq.
    by destruct (JumpFunctions st !! n).
  - intros Hl. exists ((d1, d2), f). rewrite decide_True by done. split; [|done].
    apply elem_of_map_to_list. by destruct (JumpFunctions st !! n).
Qed.

(** The summaries used at an exit, of a state whose table they were read from. *)
Lemma summariesAt_elem st0 st C eP d3 d4 fs :
  (d4, fs) ∈ summariesAt Config (readSummaries Config C d3 st0).1 eP d3 st ↔
  if UseEndSummaryTab Config then summaries_of st0 C d3 !! d4 = Some fs
  else stored_jf st d3 eP d4 = Some fs.
Proof.
  unfold summariesAt. destruct (readSummaries_fields C d3 st0) as [-> _].
  destruct (UseEndSummaryTab Config); [apply elem_of_map_to_list | apply jumpFunctionsFrom_elem].
Qed.
End views.

(** * Everything the solver stores follows from the rules *)

Section sound.
Context {N D F L EF : Type} `{Countable N, Countable D, Countable F}.
Context `{EqDecision EF, EqDecision L, JoinLatticeTraits L, !SemiRing L EF, !SemiRingLaws L EF}.
Context (ICF : ICFG N D F) (X : SolverExtras N D F) `{!ExitPointLaws ICF X}.
Context (P : IDETabulationProblem N D F L EF) (Config : StaticSolverConfig).
Context (R : D → N → D → EF → Prop) (S : F → N → D → D → EF → Prop).
Context (HR : iter_closed ICF X P Config R S).
Abbreviation St := (State N D F L EF).
Abbreviation Job := (InterPropagationJob N D F EF).
Implicit Types (st : St) (j : Job).
Local Open Scope phasar_scope.

(** A job of a call whose jump function follows from the rules. *)
Definition job_sound j : Prop :=
  ∃ d2 f SP, R (SourceFact j) (CallSite j) d2 f ∧ f ≠ AllTop ∧
    call_flow ICF P (CallSite j) d2 (Callee j) SP (FactInCallee j) ∧
    SourceEF j = callEF P f (CallSite j) d2 (Callee j) (FactInCallee j).

Record iter_sound st : Prop := {
  so_jf d1 n d2 f : stored_jf st d1 n d2 = Some f → R d1 n d2 f ∧ f ≠ AllTop;
  so_wl d1 n d2 f : job d1 n d2 f ∈ WorkList st → R d1 n d2 f ∧ f ≠ AllTop;
  so_jobs d C j : j ∈ jobs_of st d C → job_sound j ∧ FactInCallee j = d ∧ Callee j = C;
  so_summaries C d3 d4 fs : summaries_of st C d3 !! d4 = Some fs →
    fs ≠ AllTop ∧ ∀ eP, eP ∈ getExitPointsOf X C → S C eP d3 d4 fs
}.

Lemma sound_same st st' :
  JumpFunctions st' = JumpFunctions st → WorkList st' = WorkList st →
  SourceFactAndFuncToInterJob st' = SourceFactAndFuncToInterJob st →
  (∀ C d, summaries_of st' C d = summaries_of st C d) → iter_sound st → iter_sound st'.
Proof.
  intros HJ HW HF HE [Hj Hw Hjobs Hs]. split; unfold stored_jf, jobs_of.
  - rewrite HJ. apply Hj.
  - rewrite HW. apply Hw.
  - rewrite HF. apply Hjobs.
  - intros C d3 d4 fs. rewrite HE. apply Hs.
Qed.

Lemma sound_same_jobs st st' :
  JumpFunctions st' = JumpFunctions st ∧ WorkList st' = WorkList st ∧ same_jobs st st' →
  iter_sound st → iter_sound st'.
Proof. intros (? & ? & []). by apply sound_same. Qed.

Lemma store_sound n d1 d2 Fun f st :
  iter_sound st → (f ≠ AllTop → R d1 (storeNode X n d2) d2 f) →
  iter_sound (store ICF X Config n d1 d2 Fun f st).
Proof.
  intros Hs Hf. destruct (store_cases ICF X Config n d1 d2 Fun f st) as [[_ ->]|[Hne Hst]]; [done|].
  cbv zeta in *. set (n' := storeNode X n d2) in *. set (fP := combine _ f) in *.
  assert (f ≠ AllTop) as Hftop.
  { intros ->. apply Hne. unfold fP. apply combine_top_r. }
  assert (R d1 n' d2 fP ∧ fP ≠ AllTop) as HP.
  { split.
    - unfold fP, iter_Jf. destruct (stored_jf st d1 n' d2) as [f0|] eqn:Hj; simpl.
      + apply (cl_combine _ _ _ _ _ _ HR); [by apply (so_jf _ Hs) | by apply Hf].
      + unfold AllTop. rewrite combine_top_l. by apply Hf.
    - apply (above_not_top f); [apply combine_ub_r | done]. }
  split.
  - intros d n0 d' g. rewrite (stored_at_jf _ _ _ _ _ _ _ _ _ Hst).
    case_decide as Heq; [|apply (so_jf _ Hs)]. injection Heq as -> -> ->. by intros [= <-].
  - intros d n0 d' g. rewrite (sa_WorkList _ _ _ _ _ _ Hst).
    intros [Heq|Hin]%elem_of_cons; [|by apply (so_wl _ Hs)].
    injection Heq as -> -> -> ->. done.
  - intros d C j. unfold jobs_of. rewrite (sj_FunJobs _ _ (sa_same _ _ _ _ _ _ Hst)).
    apply (so_jobs _ Hs).
  - intros C d3 d4 fs. rewrite (sj_summaries _ _ (sa_same _ _ _ _ _ _ Hst)). apply (so_summaries _ Hs).
Qed.

Lemma saveEdges_sound a b c T K st : iter_sound st → iter_sound (saveEdges a b c T K st).
Proof. apply sound_same_jobs, saveEdges_fields. Qed.

(** Loops that save edges and store. *)
Lemma sound_for_each {A} (l : list A) (body : A → St → St) st :
  (∀ x st', x ∈ l → iter_sound st' → iter_sound (body x st')) →
  iter_sound st → iter_sound (for_each l body st).
Proof. intros Hb Hs. by apply for_each_inv. Qed.

Ltac sound_loop :=
  repeat (apply sound_for_each; intros; cbv zeta; try apply saveEdges_sound; try done).

(** ** Flows inside a function *)

Lemma local_sound n d1 d2 f n' d3 og Fun st :
  R d1 n d2 f → f ≠ AllTop → local_flow ICF X P n d2 n' d3 og → iter_sound st →
  iter_sound (store ICF X Config n' d1 d3 Fun (after f og) st).
Proof.
  intros Hf Hne Hl Hs. apply store_sound; [done|]. intros _. by eapply (cl_local _ _ _ _ _ _ HR).
Qed.

Lemma applyCallToReturnFlow_sound n d1 d2 f b st :
  isCallSite ICF n = true → R d1 n d2 f → f ≠ AllTop → iter_sound st →
  iter_sound (applyCallToReturnFlow ICF X P Config n d1 d2 f (getCalleesOfCallAt ICF n) b st).
Proof.
  intros Hc Hf Hne Hs. unfold applyCallToReturnFlow. cbv zeta. sound_loop.
  eapply (local_sound n d1 d2 f _ _ (Some _)); [done..| |done].
  apply flow_call_to_return; [done..|]. by apply elem_of_elements.
Qed.

Lemma applySummaryFlow_sound n d1 d2 f C Sum st :
  isCallSite ICF n = true → R d1 n d2 f → f ≠ AllTop → C ∈ getCalleesOfCallAt ICF n →
  getSummaryFlowFunction P n C = Some Sum → iter_sound st →
  iter_sound (applySummaryFlow ICF X P Config (Sum d2) n d1 d2 f st).
Proof.
  intros Hc Hf Hne HC HSum Hs. unfold applySummaryFlow. cbv zeta. sound_loop.
  match goal with |- iter_sound (store _ _ _ ?n' _ ?d3 _ _ _) =>
    pose proof (flow_summary ICF X P n d2 C Sum n' d3) as Hl end.
  destruct (isNullSummaryEdgeFunction X n d2 _ _);
    [apply (local_sound n d1 d2 f _ _ None) | apply (local_sound n d1 d2 f _ _ (Some _))]; try done;
    (apply Hl; try done; by apply elem_of_elements).
Qed.

(** ** The end summary of an exit *)

Lemma storeSummary_lookup d2 f (m : gmap D EF) d g :
  storeSummary d2 f m !! d = Some g →
  (d = d2 ∧ g = f ∧ m !! d2 = None) ∨
  (∃ f0, d = d2 ∧ m !! d2 = Some f0 ∧ g = combine f0 f) ∨ m !! d = Some g.
Proof.
  unfold storeSummary. destruct (m !! d2) as [f0|] eqn:Hm; [case_decide|];
    try (destruct (decide (d2 = d)) as [<-|Hd];
         [rewrite lookup_insert_eq; intros [= <-] | rewrite lookup_insert_ne by done]); eauto 6.
Qed.

Lemma insert_summaries_of (st : St) C d m C' d' :
  summaries_of (set_EndSummaryTab (λ T, <[(C, d) := m]> T) st) C' d' =
  if decide ((C', d') = (C, d)) then m else summaries_of st C' d'.
Proof.
  unfold summaries_of. destruct st. simpl. case_decide as Heq.
  - injection Heq as -> ->. by rewrite lookup_insert_eq.
  - by rewrite lookup_insert_ne.
Qed.

Lemma exit_sound n d1 d2 f st :
  exit_node ICF n → R d1 n d2 f → f ≠ AllTop → UseEndSummaryTab Config = true → iter_sound st →
  let Fun := getFunctionOf ICF n in
  iter_sound (set_EndSummaryTab (λ T, <[(Fun, d1) :=
    storeSummary d2 f (summaries_of st Fun d1)]> T) st).
Proof.
  intros Hx Hf Hne HE Hs. cbv zeta. set (Fun := getFunctionOf ICF n).
  assert (∀ eP, eP ∈ getExitPointsOf X Fun → S Fun eP d1 d2 f) as Hnew.
  { intros eP HeP. apply (cl_summary _ _ _ _ _ _ HR Fun d1 n); [done..|].
    split; [by apply exit_points|]. split; [done|]. congruence. }
  split; try by destruct st; apply Hs.
  intros C d3 d4 fs. rewrite insert_summaries_of. case_decide as Heq; [|apply (so_summaries _ Hs)].
  injection Heq as -> ->.
  intros [(-> & -> & _)|[(f0 & -> & Hf0 & ->)|Hold]]%storeSummary_lookup.
  - done.
  - apply (so_summaries _ Hs) in Hf0 as [Hne0 HS0]. split.
    + apply (above_not_top f0); [apply combine_ub_l | done].
    + intros eP HeP. apply (cl_combine_summary _ _ _ _ _ _ HR); auto.
  - by apply (so_summaries _ Hs).
Qed.

Lemma applyNormalFlow_sound n d1 d2 f st :
  isCallSite ICF n = false → R d1 n d2 f → f ≠ AllTop → iter_sound st →
  iter_sound (applyNormalFlow ICF X P Config n d1 d2 f st).
Proof.
  intros Hc Hf Hne Hs. unfold applyNormalFlow. cbv zeta. set (st1 := for_each _ _ st).
  assert (iter_sound st1) as H1'.
  { unfold st1. sound_loop. eapply (local_sound n d1 d2 f _ _ (Some _)); [done..| |done].
    apply flow_normal; [done..|]. by apply elem_of_elements. }
  destruct (isExitInst ICF n) eqn:Hx; [|done]. set (st2 := set_CallWL _ st1).
  assert (iter_sound st2) as H2' by (apply (sound_same st1); [by destruct st1..|done]).
  destruct (UseEndSummaryTab Config) eqn:HE; [|done].
  destruct (getOrCreateSummaries_fields (getFunctionOf ICF n) d1 st2) as (Hm & Hfields).
  destruct (getOrCreateSummaries _ d1 st2) as [m st3]. simpl in *. subst m.
  assert (iter_sound st3) as H3' by by apply (sound_same_jobs st2).
  destruct Hfields as (_ & _ & Hsj). rewrite <- (sj_summaries _ _ Hsj).
  by apply exit_sound.
Qed.

(** ** Returns *)

(** A summary of a callee and a fact, applied at an exit. *)
Definition summary_sound (C : F) (eP : N) (d3 : D) (Summary : D * EF) : Prop :=
  Summary.2 ≠ AllTop ∧ S C eP d3 Summary.1 Summary.2.

Lemma summariesAt_sound st0 st C eP d3 Summary :
  iter_sound st0 → iter_sound st → eP ∈ getExitPointsOf X C →
  Summary ∈ summariesAt Config (readSummaries Config C d3 st0).1 eP d3 st →
  summary_sound C eP d3 Summary.
Proof.
  destruct Summary as [d4 fs]. intros Hs0 Hs HeP Hin%summariesAt_elem. unfold summary_sound. simpl.
  destruct (UseEndSummaryTab Config) eqn:HE.
  - apply (so_summaries _ Hs0) in Hin as [? HS]. auto.
  - apply (so_jf _ Hs) in Hin as [Hf Hne]. split; [done|].
    by apply (cl_summary _ _ _ _ _ _ HR C d3 eP eP).
Qed.

Lemma propagateProcedureSummaries_sound Summaries eP j Caller st :
  job_sound j → eP ∈ getExitPointsOf X (Callee j) →
  (∀ Summary, Summary ∈ Summaries → summary_sound (Callee j) eP (FactInCallee j) Summary) →
  iter_sound st →
  iter_sound (propagateProcedureSummaries ICF X P Config Summaries (CallSite j) (Callee j) eP
                (SourceFact j) Caller (SourceEF j) st).
Proof.
  intros (d2 & f & SP & Hf & Hne & Hce & Heq) HeP HS Hs. unfold propagateProcedureSummaries.
  sound_loop. apply store_sound; [done|]. intros _. rewrite Heq.
  match goal with H : _ ∈ Summaries |- _ => destruct (HS _ H) as [Hnes HSs] end.
  eapply (cl_return _ _ _ _ _ _ HR); try done.
  apply return_flow_intro; [done|]. by apply elem_of_elements.
Qed.

Lemma applyEarlySummariesAtCall_sound j st :
  job_sound j → iter_sound st →
  iter_sound (applyEarlySummariesAtCall ICF X P Config (CallSite j) (Callee j) (FactInCallee j)
                (SourceFact j) (SourceEF j) st).
Proof.
  intros Hj Hs. unfold applyEarlySummariesAtCall. cbv zeta.
  pose proof (summariesAt_sound st) as HS.
  specialize (λ st1 C eP d3 Summary, HS st1 C eP d3 Summary Hs).
  destruct (readSummaries_fields Config (Callee j) (FactInCallee j) st) as [_ Hfields].
  specialize (λ st1 eP Summary, HS st1 (Callee j) eP (FactInCallee j) Summary).
  destruct (readSummaries Config (Callee j) (FactInCallee j) st) as [Summaries st1].
  apply sound_for_each; [|by apply (sound_same_jobs st)].
  intros eP st2 HeP Hs2. case_decide; [|done].
  apply propagateProcedureSummaries_sound; [done..| |done]. intros Summary. by apply HS.
Qed.

Lemma processInterJob_sound k st : iter_sound st → iter_sound (processInterJob ICF X P Config k st).
Proof.
  intros Hs. destruct k as [d C]. unfold processInterJob. cbv zeta.
  pose proof (summariesAt_sound st) as HS.
  specialize (λ st1 eP Summary, HS st1 C eP d Summary Hs).
  destruct (readSummaries_fields Config C d st) as [_ Hfields].
  destruct (readSummaries Config C d st) as [Summaries st1].
  apply sound_for_each; [|by apply (sound_same_jobs st)].
  intros eP st2 HeP Hs2.
  assert (∀ j, j ∈ jobs_of st2 d C → job_sound j ∧ FactInCallee j = d ∧ Callee j = C) as Hjobs
    by apply Hs2.
  apply sound_for_each; [|done]. intros j st3 Hj Hs3.
  destruct (Hjobs j Hj) as (Hjs & <- & <-).
  apply propagateProcedureSummaries_sound; [done..| |done]. intros Summary. by apply HS.
Qed.

(** ** Calls *)

Lemma registerJob_sound j st :
  job_sound j → iter_sound st → iter_sound (registerJob ICF X P Config j st).
Proof.
  intros Hj Hs. unfold registerJob. case_decide; [done|]. cbv zeta.
  set (st1 := set_AllInterPropagations _ st).
  assert (iter_sound st1) as Hs1 by (apply (sound_same st); [by destruct st..|done]).
  pose proof (applyEarlySummariesAtCall_sound j st1 Hj Hs1) as Hs2.
  set (st2 := applyEarlySummariesAtCall _ _ _ _ _ _ _ _ _ st1) in *.
  split; try by destruct st2; apply Hs2.
  intros d C j'. unfold jobs_of.
  assert (SourceFactAndFuncToInterJob (set_CSJobs (λ m, <[(SourceFact j, CallSite j) :=
    j :: default [] (m !! (SourceFact j, CallSite j))]> m)
    (set_FunJobs (λ m, <[(FactInCallee j, Callee j) :=
       j :: default [] (m !! (FactInCallee j, Callee j))]> m) st2)) =
    <[(FactInCallee j, Callee j) := j :: jobs_of st2 (FactInCallee j) (Callee j)]>
      (SourceFactAndFuncToInterJob st2)) as -> by by destruct st2.
  destruct (decide ((FactInCallee j, Callee j) = (d, C))) as [[= Hd HC]|Hne].
  - rewrite Hd, HC, lookup_insert_eq. simpl. intros [->|Hin]%elem_of_cons; [done|].
    by apply (so_jobs _ Hs2).
  - rewrite lookup_insert_ne by done. apply (so_jobs _ Hs2).
Qed.

Lemma deferCallFlow_sound n d1 d2 f C st :
  isCallSite ICF n = true → C ∈ getCalleesOfCallAt ICF n →
  getSummaryFlowFunction P n C = None → R d1 n d2 f → f ≠ AllTop → iter_sound st →
  iter_sound (deferCallFlow ICF X P Config n d1 d2 f C st).2.
Proof.
  intros Hc HC HSum Hf Hne Hs. unfold deferCallFlow. cbv zeta. simpl. sound_loop.
  match goal with Hd : ?d3 ∈ elements _, HSP : ?SP ∈ getStartPointsOf ICF C |- _ =>
    assert (call_flow ICF P n d2 C SP d3) as Hce by (by apply elem_of_elements in Hd) end.
  apply registerJob_sound.
  - by exists d2, f, x.
  - apply store_sound; [done|]. intros _. by eapply (cl_call _ _ _ _ _ _ HR).
Qed.

Lemma applyIntraCallFlow_sound n d1 d2 f st :
  isCallSite ICF n = true → R d1 n d2 f → f ≠ AllTop → iter_sound st →
  iter_sound (applyIntraCallFlow ICF X P Config n d1 d2 f st).
Proof.
  intros Hc Hf Hne Hs. unfold applyIntraCallFlow. cbv zeta.
  assert (iter_sound (handleOrDeferCallFlow ICF X P Config n d1 d2 f
    (getCalleesOfCallAt ICF n) st).2) as Hs1.
  { unfold handleOrDeferCallFlow. apply (for_each_inv (λ bst : bool * St, iter_sound bst.2)); [done|].
    intros C bst HC Hb. unfold handleOrDeferCallee.
    destruct (getSummaryFlowFunction P n C) eqn:HSum.
    - by eapply applySummaryFlow_sound.
    - by apply deferCallFlow_sound. }
  destruct (handleOrDeferCallFlow _ _ _ _ _ _ _ _ _ st) as [b st1].
  by apply applyCallToReturnFlow_sound.
Qed.

Lemma popJob_sound st st' : popJob ICF X P Config st = Some st' → iter_sound st → iter_sound st'.
Proof.
  unfold popJob. intros Hpop Hs. destruct (WorkList st) as [|[f n d1 d2] wl] eqn:HW; [done|].
  injection Hpop as <-. unfold propagate. cbv zeta. simpl.
  assert (R d1 n d2 f ∧ f ≠ AllTop) as [Hf Hne]
    by (apply (so_wl _ Hs); rewrite HW; set_solver).
  set (st1 := set_WorkList _ st).
  assert (iter_sound st1) as Hs1.
  { split; try by destruct st; apply Hs. intros d n0 d' g Hin. apply (so_wl _ Hs). rewrite HW.
    destruct st. simpl in *. set_solver. }
  set (st2 := if GCEnabled Config then _ else st1).
  assert (iter_sound st2) as Hs2.
  { unfold st2. destruct (GCEnabled Config); [|done].
    apply (sound_same st1); [by destruct st1..|done]. }
  unfold applyFlowFunction. destruct (isCallSite ICF n) eqn:Hc; simpl.
  - by apply applyIntraCallFlow_sound.
  - by apply applyNormalFlow_sound.
Qed.

(** ** Rounds *)

Lemma processInterJobs_sound st :
  iter_sound st → iter_sound (processInterJobs ICF X P Config st).
Proof.
  intros Hs. unfold processInterJobs. cbv zeta. apply sound_for_each.
  - intros. by apply processInterJob_sound.
  - apply (sound_same st); [by destruct st..|done].
Qed.

Lemma collectFunction_sound Fun st :
  iter_sound st → iter_sound (collectFunction ICF X Fun st).
Proof.
  intros Hs. unfold collectFunction. cbv zeta. set (st1 := for_each _ _ st).
  assert (iter_sound st1) as Hs1.
  { apply sound_for_each; [|done]. intros n st2 _ Hs2. unfold removeJumpFunctionsFor.
    case_match; [done|]. split; try by destruct st2; apply Hs2.
    intros d1 n' d2 f Hl. apply (so_jf _ Hs2). unfold stored_jf, Table.lookup in *.
    destruct st2. simpl in *. destruct (decide (n = n')) as [->|Hn].
    - by rewrite lookup_delete_eq in Hl.
    - by rewrite lookup_delete_ne in Hl. }
  split; try by destruct st1; apply Hs1.
  intros d C j Hj. apply (so_jobs _ Hs1). unfold jobs_of, cleanupInterJobsFor in *.
  destruct st1. simpl in *. rewrite map_lookup_filter in Hj.
  destruct (_ !! (d, C)) as [l|]; simpl in *; [|done].
  case_guard; simpl in *; [done|]. by apply elem_of_nil in Hj.
Qed.

Lemma runGC_sound st : iter_sound st → iter_sound (runGC ICF X Config st).
Proof.
  intros Hs. unfold runGC. destruct (GCEnabled Config); [|done].
  apply sound_for_each; [|done]. intros. by apply collectFunction_sound.
Qed.

Lemma initial_sound : iter_sound (initialState : St).
Proof.
  split; unfold stored_jf, summaries_of, jobs_of; simpl.
  - intros *. by rewrite table_lookup_empty.
  - intros * Hin%elem_of_nil. done.
  - intros d C j. rewrite lookup_empty. intros Hin%elem_of_nil. done.
  - intros *. rewrite lookup_empty. simpl. by rewrite lookup_empty.
Qed.

Lemma doInitialize_iter_sound st :
  iter_sound st → iter_sound (Iterative.doInitialize ICF X P Config st).
Proof.
  intros Hs. unfold Iterative.doInitialize, Iterative.submitInitialSeeds.
  apply sound_for_each; [|done]. intros [SP Facts] st1 HSP Hs1.
  apply sound_for_each; [|done]. intros [d v] st2 Hd Hs2. apply store_sound; [done|]. intros _.
  apply (cl_seed _ _ _ _ _ _ HR). apply elem_of_map_to_list in HSP, Hd. exists Facts. eauto.
Qed.

Lemma rounds_sound fuel st st' :
  rounds ICF X P Config fuel st = Some st' → iter_sound st → iter_sound st'.
Proof.
  revert st. induction fuel as [|fuel IH]; intros st; cbn [rounds];
    intros Hr%bind_Some Hs; destruct Hr as (st1 & Hw & Hr);
    assert (iter_sound st1) as Hs1
      by (eapply (while_next_inv _ iter_sound _ _ _ popJob_sound Hs Hw));
    pose proof (runGC_sound _ (processInterJobs_sound _ Hs1)) as Hs2;
    case_bool_decide; simplify_eq; eauto.
Qed.

Lemma dataflowFactPropagation_sound fuel st :
  dataflowFactPropagation ICF X P Config fuel = Some st → iter_sound st.
Proof.
  intros Hr. eapply rounds_sound; [exact Hr|]. apply doInitialize_iter_sound, initial_sound.
Qed.
End sound.
