(* ===== verification/IterativeIDESolverComplete.v ===== *)
(** When the first phase of the [IterativeIDESolver] ends, without the garbage
    collector, its jump functions are a solution of its rules.

    Every operation is a [step]: it only raises jump functions, registers a job
    for every function it raises, and keeps every registered inter-procedural
    job served ([inv_jobs]): each summary of its callee has been returned to it, or
    is still going to be. *)
From S2P Require Import Prelude JoinLattice Table IDEProblem IDESolverAPIMixin IDESolver IDESolverEffects IterativeIDESolver IterativeIDESolverRules.
Import Iterative.

Section complete.
Context {N D F L EF : Type} `{Countable N, Countable D, Countable F}.
Context `{EqDecision EF, EqDecision L, JoinLatticeTraits L, !SemiRing L EF, !SemiRingLaws L EF}.
Context (ICF : ICFG N D F) (X : SolverExtras N D F).
Context (P : IDETabulationProblem N D F L EF) (Config : StaticSolverConfig).
Abbreviation St := (State N D F L EF).
Abbreviation Job := (InterPropagationJob N D F EF).
Implicit Types (st : St) (j : Job).
Local Open Scope phasar_scope.

(** * Served jobs *)

(** The summary applied at an exit of a callee. *)
Definition summary_val st (C : F) (eP : N) (d3 d4 : D) : EF :=
  if UseEndSummaryTab Config then default AllTop (summaries_of st C d3 !! d4)
  else iter_Jf st d3 eP d4.

(** The summary [fs] of the fact [d4] has been returned from [eP] to the job. *)
Definition returned_to st j (eP : N) (d4 : D) (fs : EF) : Prop :=
  ∀ n' d5 f5, return_flow ICF P (CallSite j) (Callee j) eP d4 n' d5 f5 →
    extend (extend (SourceEF j) fs) f5 ⊑ₑ iter_Jf st (SourceFact j) (storeNode X n' d5) d5.

(** Every summary of the callee has been returned, or its key is in [CallWL] or
    in [E], or the exit still has a job. *)
Definition served (E : gset (D * F)) st j : Prop :=
  ∀ eP d4, eP ∈ getExitPointsOf X (Callee j) →
    let fs := summary_val st (Callee j) eP (FactInCallee j) d4 in
    fs ≠ AllTop →
    (FactInCallee j, Callee j) ∈ CallWL st ∨ (FactInCallee j, Callee j) ∈ E ∨
    (UseEndSummaryTab Config = false ∧ job (FactInCallee j) eP d4 fs ∈ WorkList st) ∨
    returned_to st j eP d4 fs.

Record inv_jobs (E : gset (D * F)) st : Prop := {
  ij_all j : j ∈ AllInterPropagations st → j ∈ jobs_of st (FactInCallee j) (Callee j);
  ij_served d C j : j ∈ jobs_of st d C → FactInCallee j = d ∧ Callee j = C ∧ served E st j
}.

(** * Steps *)

Record raises st st' : Prop := {
  ra_le d1 n d2 : iter_Jf st d1 n d2 ⊑ₑ iter_Jf st' d1 n d2;
  ra_pending d1 n d2 : iter_Jf st' d1 n d2 = iter_Jf st d1 n d2 ∨
    job d1 n d2 (iter_Jf st' d1 n d2) ∈ WorkList st';
  ra_keep x : x ∈ WorkList st → x ∈ WorkList st';
  ra_changed : WorkList st' = WorkList st ∨
    ∃ d1 n d2, iter_Jf st d1 n d2 ≠ iter_Jf st' d1 n d2
}.

#[export] Instance raises_preorder : PreOrder raises.
Proof.
  split; [intros st; split; [done|by left|done|by left]|]. intros st1 st2 st3 [L1 P1 K1 C1] [L2 P2 K2 C2]. split.
  - intros. by transitivity (iter_Jf st2 d1 n d2).
  - intros d1 n d2. destruct (P2 d1 n d2) as [->|?]; [|by right].
    destruct (P1 d1 n d2) as [?|?]; [by left|right; auto].
  - auto.
  - destruct C1 as [HW1|(d1 & n & d2 & Hne)].
    + destruct C2 as [HW2|(d1 & n & d2 & Hne)]; [left; congruence|right].
      exists d1, n, d2. intros Heq. apply Hne.
      apply (anti_symm ef_le); [done|]. rewrite <- Heq. apply L1.
    + right. exists d1, n, d2. intros Heq. apply Hne.
      apply (anti_symm ef_le); [done|]. rewrite Heq. apply L2.
Qed.

(** Propagation of facts: raises, and leaves the jobs alone. *)
Record stores st st' : Prop := { st_raises : raises st st'; st_same : same_jobs st st' }.

#[export] Instance stores_preorder : PreOrder stores.
Proof.
  split; [intros st; by split|]. intros st1 st2 st3 [] []. split; by transitivity st2.
Qed.

Record step st st' : Prop := {
  sp_raises : raises st st';
  sp_jobs d C j : j ∈ jobs_of st d C → j ∈ jobs_of st' d C;
  sp_CallWL : CallWL st' = CallWL st;
  sp_summaries C d : summaries_of st' C d = summaries_of st C d;
  sp_inv E : inv_jobs E st → inv_jobs E st'
}.

#[export] Instance step_preorder : PreOrder step.
Proof.
  split; [intros st; by split|]. intros st1 st2 st3 [R1 J1 C1 S1 I1] [R2 J2 C2 S2 I2]. split.
  - by transitivity st2.
  - auto.
  - congruence.
  - congruence.
  - auto.
Qed.

Lemma returned_mono st st' j eP d4 fs fs' :
  (∀ d1 n d2, iter_Jf st d1 n d2 ⊑ₑ iter_Jf st' d1 n d2) → fs ⊑ₑ fs' →
  returned_to st j eP d4 fs' → returned_to st' j eP d4 fs.
Proof.
  intros Hle Hfs Hr n' d5 f5 Hre. etransitivity; [|apply Hle].
  etransitivity; [|by apply Hr]. repeat (apply extend_le_mono; try done).
Qed.

(** A summary in a later state: the earlier one, or its exit has a job. *)
Lemma summary_val_later st st' C eP d3 d4 :
  raises st st' → (∀ C d, summaries_of st' C d = summaries_of st C d) →
  summary_val st' C eP d3 d4 = summary_val st C eP d3 d4 ∨
  (UseEndSummaryTab Config = false ∧ job d3 eP d4 (summary_val st' C eP d3 d4) ∈ WorkList st').
Proof.
  intros Hr HS. unfold summary_val. destruct (UseEndSummaryTab Config).
  - left. by rewrite HS.
  - destruct (ra_pending _ _ Hr d3 eP d4); auto.
Qed.

Lemma served_later E st st' j :
  raises st st' → CallWL st' = CallWL st → (∀ C d, summaries_of st' C d = summaries_of st C d) →
  served E st j → served E st' j.
Proof.
  intros Hr HC HS Hs eP d4 HeP. cbv zeta. intros Hne. rewrite HC.
  destruct (summary_val_later st st' (Callee j) eP (FactInCallee j) d4 Hr HS) as [Heq|?]; [|by eauto].
  rewrite Heq in *. destruct (Hs eP d4 HeP Hne) as [?|[?|[[? Hin]|Hret]]]; [by auto..| |].
  - right; right; left. split; [done|]. by apply (ra_keep _ _ Hr).
  - right; right; right. eapply returned_mono; [apply Hr | reflexivity | done].
Qed.

(** A job whose summaries have just been returned is served. *)
Lemma returned_served E st st' j :
  raises st st' → (∀ C d, summaries_of st' C d = summaries_of st C d) →
  (∀ eP d4, eP ∈ getExitPointsOf X (Callee j) →
     let fs := summary_val st (Callee j) eP (FactInCallee j) d4 in
     fs ≠ AllTop → returned_to st' j eP d4 fs) →
  served E st' j.
Proof.
  intros Hr HS Hret eP d4 HeP. cbv zeta. intros Hne.
  destruct (summary_val_later st st' (Callee j) eP (FactInCallee j) d4 Hr HS) as [Heq|?]; [|by eauto].
  rewrite Heq in *. right; right; right. by apply Hret.
Qed.

Lemma stores_step st st' : stores st st' → step st st'.
Proof.
  intros [Hr [HA HC HF HJ HE]].
  assert (∀ d C, jobs_of st' d C = jobs_of st d C) as Hjobs by (intros; unfold jobs_of; by rewrite HF).
  split; [done| |done|done|].
  - intros d C j. by rewrite Hjobs.
  - intros E [Ha Hs]. split.
    + intros j. rewrite HA, Hjobs. apply Ha.
    + intros d C j. rewrite Hjobs. intros Hj. destruct (Hs d C j Hj) as (? & ? & ?).
      split; [done|]. split; [done|]. by eapply served_later.
Qed.

(** * Propagation of facts *)

Lemma stores_frame st st' :
  JumpFunctions st' = JumpFunctions st ∧ WorkList st' = WorkList st ∧ same_jobs st st' →
  stores st st'.
Proof.
  intros (HJ & HW & HS). assert (∀ d1 n d2, iter_Jf st' d1 n d2 = iter_Jf st d1 n d2) as HJf
    by (intros; unfold iter_Jf, stored_jf; by rewrite HJ).
  split; [|done]. split; intros.
  - by rewrite HJf.
  - by left.
  - by rewrite HW.
  - by left.
Qed.

Lemma saveEdges_stores a b c T K st : stores st (saveEdges a b c T K st).
Proof. apply stores_frame, saveEdges_fields. Qed.

Lemma store_stores n d1 d2 Fun f st :
  stores st (store ICF X Config n d1 d2 Fun f st) ∧
  f ⊑ₑ iter_Jf (store ICF X Config n d1 d2 Fun f st) d1 (storeNode X n d2) d2.
Proof.
  destruct (store_cases ICF X Config n d1 d2 Fun f st) as [[Heq ->]|[Hne Hst]]; cbv zeta in *.
  { split; [done|]. rewrite <- Heq. apply combine_ub_r. }
  set (n' := storeNode X n d2) in *. set (fP := combine _ f) in *. set (st' := store _ _ _ _ _ _ _ _ _) in *.
  assert (∀ d n0 d', iter_Jf st' d n0 d' =
    if decide ((d, n0, d') = (d1, n', d2)) then fP else iter_Jf st d n0 d') as HJ.
  { intros. unfold iter_Jf at 1. rewrite (stored_at_jf _ _ _ _ _ _ _ _ _ Hst). by case_decide. }
  split; [split; [split|apply Hst]|].
  - intros d n0 d'. rewrite HJ. case_decide as Heq; [|done].
    injection Heq as -> -> ->. apply combine_ub_l.
  - intros d n0 d'. rewrite HJ. case_decide as Heq; [|by left].
    injection Heq as -> -> ->. right. rewrite (sa_WorkList _ _ _ _ _ _ Hst). set_solver.
  - intros x Hx. rewrite (sa_WorkList _ _ _ _ _ _ Hst). set_solver.
  - right. exists d1, n', d2. rewrite HJ, decide_True by done. congruence.
  - rewrite HJ, decide_True by done. apply combine_ub_r.
Qed.

(** A loop of steps, and what one of its iterations achieves. *)
Lemma for_each_achieves (Rel : St → St → Prop) `{!PreOrder Rel} {A} (x : A) l body st d1 n d2 f :
  (∀ st st', Rel st st' → ∀ d1 n d2, iter_Jf st d1 n d2 ⊑ₑ iter_Jf st' d1 n d2) →
  (∀ y st', y ∈ l → Rel st' (body y st')) → x ∈ l →
  (∀ st', Rel st st' → f ⊑ₑ iter_Jf (body x st') d1 n d2) →
  f ⊑ₑ iter_Jf (for_each l body st) d1 n d2.
Proof.
  intros HRel Hb Hx Hach.
  apply (for_each_reach (Rel st) (λ st', f ⊑ₑ iter_Jf st' d1 n d2) x).
  - done.
  - done.
  - intros y st' Hy Hst. etrans; [done|]. by apply Hb.
  - done.
  - intros y st' Hy Hst Hf. transitivity (iter_Jf st' d1 n d2); [done|]. by apply HRel, Hb.
Qed.

Lemma stores_le st st' : stores st st' → ∀ d1 n d2, iter_Jf st d1 n d2 ⊑ₑ iter_Jf st' d1 n d2.
Proof. intros Hs. apply Hs. Qed.
Lemma step_le st st' : step st st' → ∀ d1 n d2, iter_Jf st d1 n d2 ⊑ₑ iter_Jf st' d1 n d2.
Proof. intros Hs. apply Hs. Qed.
End complete.

Section operations.
Context {N D F L EF : Type} `{Countable N, Countable D, Countable F}.
Context `{EqDecision EF, EqDecision L, JoinLatticeTraits L, !SemiRing L EF, !SemiRingLaws L EF}.
Context (ICF : ICFG N D F) (X : SolverExtras N D F).
Context (P : IDETabulationProblem N D F L EF) (Config : StaticSolverConfig).
Abbreviation St := (State N D F L EF).
Abbreviation Job := (InterPropagationJob N D F EF).
Abbreviation stepping := (step ICF X P Config).
Implicit Types (st : St) (j : Job).
Local Open Scope phasar_scope.

(** The edges to the facts of one target, saved and stored. *)
Lemma flow_one a d1 d2 K Fun x (Facts : gset D) (g : D → EF) st :
  let st' := for_each (elements Facts) (λ d, store ICF X Config x d1 d Fun (g d))
    (saveEdges a x d2 Facts K st) in
  stores st st' ∧ ∀ d, d ∈ Facts → g d ⊑ₑ iter_Jf st' d1 (storeNode X x d) d.
Proof.
  cbv zeta. split.
  { transitivity (saveEdges a x d2 Facts K st); [apply saveEdges_stores|].
    apply (for_each_rel stores). intros d st' _. apply store_stores. }
  intros d Hd.
  apply (for_each_achieves stores d).
  - apply stores_le.
  - intros. apply store_stores.
  - by apply elem_of_elements.
  - intros. apply store_stores.
Qed.

(** The loop of every flow inside a function. *)
Lemma flow_loop a d1 d2 K Fun (l : list N) (Facts : N → gset D) (g : N → D → EF) st :
  let st' := for_each l (λ x st,
    for_each (elements (Facts x)) (λ d, store ICF X Config x d1 d Fun (g x d))
      (saveEdges a x d2 (Facts x) K st)) st in
  stores st st' ∧
  ∀ x d, x ∈ l → d ∈ Facts x → g x d ⊑ₑ iter_Jf st' d1 (storeNode X x d) d.
Proof.
  cbv zeta. split; [apply (for_each_rel stores); intros; apply flow_one|]. intros x d Hx Hd.
  apply (for_each_achieves stores x); [apply stores_le|intros; apply flow_one|done|].
  intros st' _. by apply flow_one.
Qed.

Lemma applySummaryFlow_done Facts n d1 d2 f st :
  let st' := applySummaryFlow ICF X P Config Facts n d1 d2 f st in
  stores st st' ∧
  ∀ RetSite d3, RetSite ∈ getReturnSitesOfCallAt ICF n → d3 ∈ Facts →
    after f (if isNullSummaryEdgeFunction X n d2 RetSite d3 then None
             else Some (getSummaryEdgeFunction P n d2 RetSite d3))
      ⊑ₑ iter_Jf st' d1 (storeNode X RetSite d3) d3.
Proof.
  destruct (flow_loop n d1 d2 ESG_Summary (getFunctionOf ICF n) (getReturnSitesOfCallAt ICF n)
    (λ _, Facts) (λ RetSite d3,
      if isNullSummaryEdgeFunction X n d2 RetSite d3 then f
      else extend f (getSummaryEdgeFunction P n d2 RetSite d3)) st) as [Hst Hd].
  split; [exact Hst|]. intros RetSite d3 HR H3. specialize (Hd RetSite d3 HR H3).
  by destruct (isNullSummaryEdgeFunction X n d2 RetSite d3).
Qed.

Lemma applyCallToReturnFlow_done n d1 d2 f Callees b st :
  let st' := applyCallToReturnFlow ICF X P Config n d1 d2 f Callees b st in
  stores st st' ∧
  ∀ RetSite d3, RetSite ∈ getReturnSitesOfCallAt ICF n → d3 ∈ callToRetFF P n RetSite Callees d2 →
    extend f (getCallToRetEdgeFunction P n d2 RetSite d3 Callees)
      ⊑ₑ iter_Jf st' d1 (storeNode X RetSite d3) d3.
Proof.
  apply (flow_loop n d1 d2 _ (getFunctionOf ICF n) (getReturnSitesOfCallAt ICF n)
    (λ RetSite, callToRetFF P n RetSite Callees d2)
    (λ RetSite d3, extend f (getCallToRetEdgeFunction P n d2 RetSite d3 Callees))).
Qed.

(** ** Returns *)

Lemma propagateProcedureSummaries_done Summaries c C eP d1 Caller e st :
  let st' := propagateProcedureSummaries ICF X P Config Summaries c C eP d1 Caller e st in
  stores st st' ∧
  ∀ d4 fs n' d5 f5, (d4, fs) ∈ Summaries → return_flow ICF P c C eP d4 n' d5 f5 →
    extend (extend e fs) f5 ⊑ₑ iter_Jf st' d1 (storeNode X n' d5) d5.
Proof.
  unfold propagateProcedureSummaries. cbv zeta.
  pose (one RetSite (Summary : D * EF) := flow_one eP d1 Summary.1 ESG_Ret Caller RetSite
    (retFF P c C eP RetSite Summary.1)
    (λ d5, extend (extend e Summary.2)
             (getReturnEdgeFunction P c C eP Summary.1 RetSite d5))).
  cbv zeta in one. split.
  - apply (for_each_rel stores). intros RetSite st1 _. apply (for_each_rel stores).
    intros Summary st2 _. apply one.
  - intros d4 fs n' d5 f5 Hin [RetSite d5' HR H5].
    apply (for_each_achieves stores RetSite); [apply stores_le| |done|].
    + intros. apply (for_each_rel stores). intros Summary st2 _. apply one.
    + intros st1 _. apply (for_each_achieves stores (d4, fs)); [apply stores_le| |done|].
      * intros. apply one.
      * intros st2 _. by apply (one RetSite (d4, fs)).
Qed.

Lemma applyEarlySummariesAtCall_stores c C d3 d1 e st :
  stores st (applyEarlySummariesAtCall ICF X P Config c C d3 d1 e st).
Proof.
  unfold applyEarlySummariesAtCall. cbv zeta.
  destruct (readSummaries_fields Config C d3 st) as [_ Hfields].
  destruct (readSummaries Config C d3 st) as [Summaries st1]. simpl in *.
  transitivity st1; [by apply stores_frame|]. apply (for_each_rel stores). intros eP st2 _.
  case_decide; [|done]. apply propagateProcedureSummaries_done.
Qed.

(** A summary of an earlier state is below one that is read now. *)
Lemma summary_read st0 st C eP d3 d4 :
  stores st0 st → let fs := summary_val Config st0 C eP d3 d4 in fs ≠ AllTop →
  ∃ fs', fs ⊑ₑ fs' ∧ (d4, fs') ∈ summariesAt Config (readSummaries Config C d3 st0).1 eP d3 st.
Proof.
  cbv zeta. unfold summary_val. intros Hst Hne.
  setoid_rewrite summariesAt_elem. destruct (UseEndSummaryTab Config).
  - destruct (summaries_of st0 C d3 !! d4) as [fs|] eqn:Hl; [|done]. by exists fs.
  - exists (iter_Jf st d3 eP d4). split; [by apply stores_le|].
    assert (iter_Jf st d3 eP d4 ≠ AllTop) as Hne'
      by (eapply above_not_top; [by apply stores_le|done]).
    unfold iter_Jf in *. by destruct (stored_jf st d3 eP d4).
Qed.

Lemma stores_returned st st' c C eP d3 d4 d1 e fs :
  stores st st' → returned_to ICF X P st (mkInterPropagationJob e d1 C c d3) eP d4 fs →
  returned_to ICF X P st' (mkInterPropagationJob e d1 C c d3) eP d4 fs.
Proof. intros Hst. apply returned_mono; [by apply stores_le|done]. Qed.

Lemma applyEarlySummariesAtCall_returned c C d3 d1 e st eP d4 :
  let st' := applyEarlySummariesAtCall ICF X P Config c C d3 d1 e st in
  let fs := summary_val Config st C eP d3 d4 in
  eP ∈ getExitPointsOf X C → fs ≠ AllTop →
  returned_to ICF X P st' (mkInterPropagationJob e d1 C c d3) eP d4 fs.
Proof.
  cbv zeta. intros HeP Hne. unfold applyEarlySummariesAtCall. cbv zeta.
  destruct (readSummaries_fields Config C d3 st) as [_ Hfields].
  pose proof (λ st1, summary_read st st1 C eP d3 d4) as Hread.
  destruct (readSummaries Config C d3 st) as [Summaries st1]. cbn [fst snd] in *.
  assert (stores st st1) as Hst1 by by apply stores_frame.
  assert (∀ x st', stores st' (if decide (summariesAt Config Summaries x d3 st' ≠ []) then
    propagateProcedureSummaries ICF X P Config (summariesAt Config Summaries x d3 st') c C x d1
      (getFunctionOf ICF c) e st' else st')) as Hbody.
  { intros x st'. case_decide; [|done]. apply propagateProcedureSummaries_done. }
  apply (for_each_reach (stores st) (λ st', returned_to ICF X P st'
    (mkInterPropagationJob e d1 C c d3) eP d4 (summary_val Config st C eP d3 d4)) eP).
  - done.
  - done.
  - intros x st2 _ Hst2. by transitivity st2.
  - intros st2 Hst2. destruct (Hread st2 Hst2 Hne) as (fs' & Hle & Hin).
    rewrite decide_True; [|intros Hnil; rewrite Hnil in Hin; by apply elem_of_nil in Hin].
    intros n' d5 f5 Hre. cbn [SourceEF SourceFact CallSite Callee] in *.
    etransitivity; [|by apply (proj2 (propagateProcedureSummaries_done _ c C eP d1 _ e st2) d4 fs')].
    repeat (apply extend_le_mono; try done).
  - intros x st2 _ _ Hr. apply (stores_returned st2); [apply Hbody|done].
Qed.

(** ** Calls *)

(** ** Calls *)

Lemma raises_frame st st' :
  JumpFunctions st' = JumpFunctions st → WorkList st' = WorkList st → raises st st'.
Proof.
  intros HJ HW. assert (∀ d1 n d2, iter_Jf st' d1 n d2 = iter_Jf st d1 n d2) as HJf
    by (intros; unfold iter_Jf, stored_jf; by rewrite HJ).
  split; intros; [by rewrite HJf | by left | by rewrite HW | by left].
Qed.

(** What registering a new job does, besides applying early summaries. *)
Record registered st st' j : Prop := {
  rg_raises : raises st st';
  rg_All : AllInterPropagations st' = j :: AllInterPropagations st;
  rg_CallWL : CallWL st' = CallWL st;
  rg_jobs d C : jobs_of st' d C =
    if decide ((FactInCallee j, Callee j) = (d, C)) then j :: jobs_of st d C else jobs_of st d C;
  rg_summaries C d : summaries_of st' C d = summaries_of st C d;
  rg_returned eP d4 : eP ∈ getExitPointsOf X (Callee j) →
    let fs := summary_val Config st (Callee j) eP (FactInCallee j) d4 in
    fs ≠ AllTop → returned_to ICF X P st' j eP d4 fs
}.

Lemma registerJob_registered j st :
  j ∉ AllInterPropagations st → registered st (registerJob ICF X P Config j st) j.
Proof.
  intros Hj. unfold registerJob. rewrite decide_False by done. cbv zeta.
  set (st1 := set_AllInterPropagations _ st).
  pose proof (applyEarlySummariesAtCall_stores (CallSite j) (Callee j) (FactInCallee j)
    (SourceFact j) (SourceEF j) st1) as [Hr [SA SC SF SJ SS]].
  pose proof (applyEarlySummariesAtCall_returned (CallSite j) (Callee j) (FactInCallee j)
    (SourceFact j) (SourceEF j) st1) as Hret. cbv zeta in Hret.
  set (st2 := applyEarlySummariesAtCall _ _ _ _ _ _ _ _ _ st1) in *.
  set (st4 := set_CSJobs _ _).
  assert (raises st2 st4) as Hr4 by (apply raises_frame; unfold st4; by destruct st2).
  assert (∀ C d, summaries_of st4 C d = summaries_of st2 C d) as HS4 by by destruct st2.
  split.
  - transitivity st2; [|done]. transitivity st1; [apply raises_frame; by destruct st | done].
  - transitivity (AllInterPropagations st2); [by destruct st2|]. rewrite SA. by destruct st.
  - transitivity (CallWL st2); [by destruct st2|]. rewrite SC. by destruct st.
  - intros d C.
    assert (jobs_of st4 d C = default [] (<[(FactInCallee j, Callee j) :=
      j :: jobs_of st2 (FactInCallee j) (Callee j)]> (SourceFactAndFuncToInterJob st2) !! (d, C)))
      as -> by by destruct st2.
    assert (∀ d C, jobs_of st2 d C = jobs_of st d C) as HJ2.
    { intros. unfold jobs_of. rewrite SF. by destruct st. }
    case_decide as Heq.
    + injection Heq as Hd HC. rewrite Hd, HC, lookup_insert_eq. simpl. by rewrite HJ2.
    + rewrite lookup_insert_ne by done. apply HJ2.
  - intros C d. rewrite HS4, SS. by destruct st.
  - intros eP d4 HeP. cbv zeta. intros Hne. destruct j as [e d1 C c d3]. simpl in *.
    assert (summary_val Config st C eP d3 d4 = summary_val Config st1 C eP d3 d4) as Heq
      by by destruct st.
    rewrite Heq in *. apply (returned_mono ICF X P st2 _ _ _ _ _ _ (ra_le _ _ Hr4) (reflexivity _)).
    by apply Hret.
Qed.

Lemma registerJob_step j st :
  stepping st (registerJob ICF X P Config j st) ∧
  ∀ E, inv_jobs ICF X P Config E st →
       j ∈ jobs_of (registerJob ICF X P Config j st) (FactInCallee j) (Callee j).
Proof.
  destruct (decide (j ∈ AllInterPropagations st)) as [Hj|Hj].
  { unfold registerJob. rewrite decide_True by done. split; [done|]. intros E Hi. by apply Hi. }
  destruct (registerJob_registered j st Hj) as [Hr HA HC HJ HS Hret].
  set (st' := registerJob _ _ _ _ j st) in *.
  assert (j ∈ jobs_of st' (FactInCallee j) (Callee j)) as Hin
    by (rewrite HJ, decide_True by done; set_solver).
  assert (∀ d C j', j' ∈ jobs_of st d C → j' ∈ jobs_of st' d C) as Hold.
  { intros d C j' Hj'. rewrite HJ. case_decide; set_solver. }
  split; [|done]. split; [done..|]. intros E [Ha Hs]. split.
  - intros j'. rewrite HA. intros [->|Hj']%elem_of_cons; [done|]. by apply Hold, Ha.
  - intros d C j'. rewrite HJ. intros Hj'.
    assert ((j' = j ∧ FactInCallee j = d ∧ Callee j = C) ∨ j' ∈ jobs_of st d C) as
      [(-> & <- & <-)|Hj''].
    { case_decide as Heq; [|by right]. injection Heq as Hd HC'.
      apply elem_of_cons in Hj' as [->|?]; auto. }
    + split; [done|]. split; [done|]. by apply (returned_served _ _ _ _ _ st).
    + destruct (Hs d C j' Hj'') as (? & ? & ?). split; [done|]. split; [done|].
      by apply (served_later _ _ _ _ _ st).
Qed.

(** One fact that enters a callee. *)
Lemma enter_step n d1 d2 f C SP d3 st :
  let It := mkInterPropagationJob (callEF P f n d2 C d3) d1 C n d3 in
  let st' := registerJob ICF X P Config It (store ICF X Config SP d3 d3 C identity st) in
  stepping st st' ∧ identity ⊑ₑ iter_Jf st' d3 (storeNode X SP d3) d3 ∧
  ∀ E, inv_jobs ICF X P Config E st → It ∈ jobs_of st' d3 C.
Proof.
  cbv zeta. set (It := mkInterPropagationJob _ _ _ _ _).
  destruct (store_stores ICF X Config SP d3 d3 C identity st) as [Hs1 Hid].
  set (st1 := store _ _ _ _ _ _ _ _ st) in *.
  assert (stepping st st1) as Hst1 by by apply stores_step.
  destruct (registerJob_step It st1) as [Hst2 Hin]. split; [by transitivity st1|]. split.
  - etransitivity; [exact Hid|]. by eapply step_le.
  - intros E Hi. apply (Hin E). by apply Hst1.
Qed.

Lemma deferCallFlow_step n d1 d2 f C st :
  let st' := (deferCallFlow ICF X P Config n d1 d2 f C st).2 in
  stepping st st' ∧
  ∀ SP d3, SP ∈ getStartPointsOf ICF C → d3 ∈ callFF P n C d2 →
    identity ⊑ₑ iter_Jf st' d3 (storeNode X SP d3) d3 ∧
    ∀ E, inv_jobs ICF X P Config E st →
      mkInterPropagationJob (callEF P f n d2 C d3) d1 C n d3 ∈ jobs_of st' d3 C.
Proof.
  unfold deferCallFlow. cbv zeta. cbn [snd].
  set (inner SP st := for_each (elements (callFF P n C d2)) _ (saveEdges n SP d2 _ ESG_Call st)).
  assert (∀ SP st, stepping (saveEdges n SP d2 (callFF P n C d2) ESG_Call st) (inner SP st)) as Hloop.
  { intros. apply (for_each_rel stepping). intros d3 st' _. apply enter_step. }
  assert (∀ SP st, stepping st (inner SP st)) as Hinner.
  { intros SP st0. etransitivity; [|apply Hloop]. apply stores_step, saveEdges_stores. }
  split; [apply (for_each_rel stepping); intros; apply Hinner|].
  intros SP d3 HSP H3. set (It := mkInterPropagationJob _ _ _ _ _).
  set (Q st' := identity ⊑ₑ iter_Jf st' d3 (storeNode X SP d3) d3 ∧
                ∀ E, inv_jobs ICF X P Config E st → It ∈ jobs_of st' d3 C).
  assert (∀ st1 st2, stepping st1 st2 → Q st1 → Q st2) as HQ.
  { intros st1 st2 Hst [Hid Hin]. split.
    - etransitivity; [exact Hid|]. by eapply step_le.
    - intros E Hi. by apply (sp_jobs _ _ _ _ _ _ Hst), (Hin E). }
  apply (for_each_reach (stepping st) Q SP); [done|done| | |].
  - intros. etransitivity; [done|]. apply Hinner.
  - intros st1 Hst1. unfold inner.
    assert (stepping st (saveEdges n SP d2 (callFF P n C d2) ESG_Call st1)) as Hst2
      by (etransitivity; [exact Hst1|]; apply stores_step, saveEdges_stores).
    apply (for_each_reach (stepping st) Q d3); [by apply elem_of_elements|done| | |].
    + intros. etransitivity; [done|]. apply enter_step.
    + intros st3 Hst3. destruct (enter_step n d1 d2 f C SP d3 st3) as (_ & Hid & Hin).
      split; [exact Hid|]. intros E Hi. apply (Hin E). by apply Hst3.
    + intros d st3 _ _. apply HQ. apply enter_step.
  - intros SP' st1 _ _. apply HQ, Hinner.
Qed.

(** ** Processed path edges *)

(** What processing a path edge with the function [f] leaves in the state. *)
Record processed_edge st (d1 : D) (n : N) (d2 : D) (f : EF) : Prop := {
  pe_local n' d3 og : local_flow ICF X P n d2 n' d3 og →
    after f og ⊑ₑ iter_Jf st d1 (storeNode X n' d3) d3;
  pe_call C SP d3 : call_flow ICF P n d2 C SP d3 →
    identity ⊑ₑ iter_Jf st d3 (storeNode X SP d3) d3 ∧
    mkInterPropagationJob (callEF P f n d2 C d3) d1 C n d3 ∈ jobs_of st d3 C;
  pe_exit : exit_node ICF n → UseEndSummaryTab Config = true →
    f ⊑ₑ default AllTop (summaries_of st (getFunctionOf ICF n) d1 !! d2)
}.

Lemma processed_edge_later st st' d1 n d2 f :
  (∀ d1 n d2, iter_Jf st d1 n d2 ⊑ₑ iter_Jf st' d1 n d2) →
  (∀ d C j, j ∈ jobs_of st d C → j ∈ jobs_of st' d C) →
  (∀ C d d', default AllTop (summaries_of st C d !! d') ⊑ₑ default AllTop (summaries_of st' C d !! d')) →
  processed_edge st d1 n d2 f → processed_edge st' d1 n d2 f.
Proof.
  intros Hr Hj HS [Hl Hc He]. split.
  - intros. etransitivity; [by apply Hl|]. apply Hr.
  - intros C SP d3 Hce. destruct (Hc C SP d3 Hce) as [Hid Hin]. split; [|by apply Hj].
    etransitivity; [exact Hid|]. apply Hr.
  - intros. etransitivity; [by apply He|]. apply HS.
Qed.

Lemma processed_edge_step st st' d1 n d2 f :
  stepping st st' → processed_edge st d1 n d2 f → processed_edge st' d1 n d2 f.
Proof.
  intros [Hr Hj _ HS _]. apply processed_edge_later; [apply Hr|done|]. intros. by rewrite HS.
Qed.

(** The state part of [handleOrDeferCallee]. *)
Definition callee_part (n : N) (d1 d2 : D) (f : EF) (C : F) st : St :=
  match getSummaryFlowFunction P n C with
  | None => (deferCallFlow ICF X P Config n d1 d2 f C st).2
  | Some SummaryFF => applySummaryFlow ICF X P Config (SummaryFF d2) n d1 d2 f st
  end.

Lemma callee_part_step n d1 d2 f C st : stepping st (callee_part n d1 d2 f C st).
Proof.
  unfold callee_part. destruct (getSummaryFlowFunction P n C).
  - apply stores_step, applySummaryFlow_done.
  - apply deferCallFlow_step.
Qed.

Lemma handleOrDeferCallFlow_state n d1 d2 f Callees st :
  (handleOrDeferCallFlow ICF X P Config n d1 d2 f Callees st).2 =
  for_each Callees (callee_part n d1 d2 f) st.
Proof.
  unfold handleOrDeferCallFlow.
  rewrite (for_each_snd Callees _ (callee_part n d1 d2 f)); [done|].
  intros C [b st']. unfold handleOrDeferCallee, callee_part. by case_match.
Qed.

Lemma applyIntraCallFlow_step E n d1 d2 f st :
  isCallSite ICF n = true → inv_jobs ICF X P Config E st →
  let st' := applyIntraCallFlow ICF X P Config n d1 d2 f st in
  stepping st st' ∧ processed_edge st' d1 n d2 f.
Proof.
  intros Hc Hi. unfold applyIntraCallFlow. cbv zeta.
  pose proof (handleOrDeferCallFlow_state n d1 d2 f (getCalleesOfCallAt ICF n) st) as Hst1.
  destruct (handleOrDeferCallFlow _ _ _ _ _ _ _ _ _ st) as [b st1]. cbn [snd] in Hst1. subst st1.
  set (st1 := for_each _ _ st).
  destruct (applyCallToReturnFlow_done n d1 d2 f (getCalleesOfCallAt ICF n) b st1) as [Hst2 Hctr].
  set (st2 := applyCallToReturnFlow _ _ _ _ _ _ _ _ _ _ st1) in *.
  assert (∀ (Cs : list F) s, stepping s (for_each Cs (callee_part n d1 d2 f) s)) as Hloop
    by (intros; apply (for_each_rel stepping); intros; apply callee_part_step).
  assert (stepping st st1) as Hst1 by apply Hloop.
  assert (stepping st1 st2) as Hst2' by by apply stores_step.
  assert (∀ (Q : St → Prop) C, (∀ s s', stepping s s' → Q s → Q s') → C ∈ getCalleesOfCallAt ICF n →
    (∀ s, stepping st s → Q (callee_part n d1 d2 f C s)) → Q st2) as Hreach.
  { intros Q C HQ HC Hach. apply (HQ st1); [done|].
    apply (for_each_reach (stepping st) Q C); [done|done| |done|].
    - intros. etransitivity; [done|]. apply callee_part_step.
    - intros C' s _ _. apply HQ, callee_part_step. }
  split; [by transitivity st1|]. split.
  - intros n' d3 og [|C Sum RetSite d3' _ HC HSum HR H3|]; [congruence| |by apply Hctr].
    apply (Hreach (λ s, after f _ ⊑ₑ iter_Jf s d1 _ d3') C); [|done|].
    + intros s s' Hs Hf. etransitivity; [exact Hf|]. by eapply step_le.
    + intros s _. unfold callee_part. rewrite HSum. by apply applySummaryFlow_done.
  - intros C SP d3 (_ & HC & HSum & HSP & H3).
    apply (Hreach (λ s, identity ⊑ₑ iter_Jf s d3 _ d3 ∧ _ ∈ jobs_of s d3 C) C); [|done|].
    + intros s s' Hs [Hid Hin]. split; [|by apply (sp_jobs _ _ _ _ _ _ Hs)].
      etransitivity; [exact Hid|]. by eapply step_le.
    + intros s Hs. unfold callee_part. rewrite HSum.
      destruct (deferCallFlow_step n d1 d2 f C s) as [_ Hd].
      destruct (Hd SP d3 HSP H3) as [Hid Hin]. split; [exact Hid|]. apply (Hin E). by apply Hs.
  - intros [Hx _]. congruence.
Qed.

(** ** Normal nodes and exits *)

Lemma normalLoop_done n d1 d2 f st :
  let Fun := getFunctionOf ICF n in
  let st' := for_each (getSuccsOf ICF n) (λ Succ st,
    for_each (elements (normalFF P n Succ d2))
      (λ d3, store ICF X Config Succ d1 d3 Fun (extend f (getNormalEdgeFunction P n d2 Succ d3)))
      (saveEdges n Succ d2 (normalFF P n Succ d2) ESG_Normal st)) st in
  stores st st' ∧
  ∀ n' d3, n' ∈ getSuccsOf ICF n → d3 ∈ normalFF P n n' d2 →
    extend f (getNormalEdgeFunction P n d2 n' d3) ⊑ₑ iter_Jf st' d1 (storeNode X n' d3) d3.
Proof.
  apply (flow_loop n d1 d2 ESG_Normal (getFunctionOf ICF n) (getSuccsOf ICF n)
    (λ Succ, normalFF P n Succ d2) (λ Succ d3, extend f (getNormalEdgeFunction P n d2 Succ d3))).
Qed.

Lemma storeSummary_ge d2 f (m : gmap D EF) d :
  default AllTop (m !! d) ⊑ₑ default AllTop (storeSummary d2 f m !! d).
Proof.
  unfold storeSummary. destruct (decide (d2 = d)) as [<-|Hne].
  - destruct (m !! d2) as [f0|] eqn:Hm; [case_decide|]; rewrite ?lookup_insert_eq, ?Hm; simpl.
    + apply combine_ub_l.
    + done.
    + apply ef_le_top.
  - destruct (m !! d2); [case_decide|]; by rewrite ?lookup_insert_ne.
Qed.

Lemma storeSummary_new d2 f (m : gmap D EF) : f ⊑ₑ default AllTop (storeSummary d2 f m !! d2).
Proof.
  unfold storeSummary. destruct (m !! d2) as [f0|] eqn:Hm; [case_decide as Hd|];
    rewrite ?lookup_insert_eq; simpl; [apply combine_ub_r| |done].
  rewrite Hm. simpl. rewrite <- Hd. apply combine_ub_r.
Qed.

(** The update of [CallWL] and of the end summaries at an exit. *)
Record exit_update st st' (n : N) (d1 d2 : D) (f : EF) : Prop := {
  xu_raises : raises st st';
  xu_All : AllInterPropagations st' = AllInterPropagations st;
  xu_CallWL : CallWL st' = {[(d1, getFunctionOf ICF n)]} ∪ CallWL st;
  xu_jobs d C : jobs_of st' d C = jobs_of st d C;
  xu_summaries_ge C d d' :
    default AllTop (summaries_of st C d !! d') ⊑ₑ default AllTop (summaries_of st' C d !! d');
  xu_summaries C d : (d, C) ≠ (d1, getFunctionOf ICF n) → summaries_of st' C d = summaries_of st C d;
  xu_new : UseEndSummaryTab Config = true →
    f ⊑ₑ default AllTop (summaries_of st' (getFunctionOf ICF n) d1 !! d2)
}.

Lemma applyNormalFlow_exit n d1 d2 f st :
  let st1 := for_each (getSuccsOf ICF n) (λ Succ st,
    for_each (elements (normalFF P n Succ d2))
      (λ d3, store ICF X Config Succ d1 d3 (getFunctionOf ICF n)
               (extend f (getNormalEdgeFunction P n d2 Succ d3)))
      (saveEdges n Succ d2 (normalFF P n Succ d2) ESG_Normal st)) st in
  let st' := applyNormalFlow ICF X P Config n d1 d2 f st in
  (isExitInst ICF n = false ∧ st' = st1) ∨
  (isExitInst ICF n = true ∧ exit_update st1 st' n d1 d2 f).
Proof.
  cbv zeta. unfold applyNormalFlow. cbv zeta. set (st1 := for_each _ _ st).
  destruct (isExitInst ICF n) eqn:Hx; [right|by left]. split; [done|].
  set (Fun := getFunctionOf ICF n). set (st2 := set_CallWL _ st1).
  destruct (UseEndSummaryTab Config) eqn:HE.
  2:{ split; try (by unfold st2; destruct st1); [|congruence].
      apply raises_frame; unfold st2; by destruct st1. }
  destruct (getOrCreateSummaries_fields Fun d1 st2) as (Hm & HJ & HW & Hsj).
  destruct (getOrCreateSummaries Fun d1 st2) as [m st3]. simpl in *. subst m.
  assert (∀ C d, summaries_of (set_EndSummaryTab (λ T,
      <[(Fun, d1) := storeSummary d2 f (summaries_of st2 Fun d1)]> T) st3) C d =
    if decide ((C, d) = (Fun, d1)) then storeSummary d2 f (summaries_of st1 Fun d1)
    else summaries_of st1 C d) as HS.
  { intros C d. rewrite insert_summaries_of. case_decide; [by destruct st1|].
    rewrite (sj_summaries _ _ Hsj). by destruct st1. }
  split.
  - transitivity st3; [|apply raises_frame; by destruct st3]. apply raises_frame;
      [rewrite HJ | rewrite HW]; unfold st2; by destruct st1.
  - transitivity (AllInterPropagations st3); [by destruct st3|].
    rewrite (sj_All _ _ Hsj). unfold st2. by destruct st1.
  - transitivity (CallWL st3); [by destruct st3|].
    rewrite (sj_CallWL _ _ Hsj). unfold st2. by destruct st1.
  - intros d C. transitivity (jobs_of st3 d C); [by destruct st3|].
    unfold jobs_of. rewrite (sj_FunJobs _ _ Hsj). unfold st2. by destruct st1.
  - intros C d d'. rewrite HS. case_decide as Heq; [|done]. injection Heq as -> ->.
    apply storeSummary_ge.
  - intros C d Hne. rewrite HS. rewrite decide_False; [done|]. naive_solver.
  - intros _. rewrite HS, decide_True by done. apply storeSummary_new.
Qed.

(** A key that is put into [CallWL] excuses its jobs. *)
Lemma exit_update_inv E st st' n d1 d2 f :
  exit_update st st' n d1 d2 f →
  inv_jobs ICF X P Config (E ∪ {[(d1, getFunctionOf ICF n)]}) st → inv_jobs ICF X P Config E st'.
Proof.
  intros Hu [Ha Hs]. split.
  - intros j. rewrite (xu_All _ _ _ _ _ _ Hu), (xu_jobs _ _ _ _ _ _ Hu). apply Ha.
  - intros d C j. rewrite (xu_jobs _ _ _ _ _ _ Hu). intros Hj.
    destruct (Hs d C j Hj) as (Hd & HC & Hsv). split; [done|]. split; [done|].
    intros eP d4 HeP. cbv zeta. rewrite (xu_CallWL _ _ _ _ _ _ Hu). rewrite Hd, HC.
    destruct (decide ((d, C) = (d1, getFunctionOf ICF n))) as [->|Hne]; [set_solver|].
    intros Hneq. specialize (Hsv eP d4 HeP). cbv zeta in Hsv. rewrite Hd, HC in Hsv.
    pose proof (xu_raises _ _ _ _ _ _ Hu) as Hr.
    assert (summary_val Config st' C eP d d4 = summary_val Config st C eP d d4 ∨
      (UseEndSummaryTab Config = false ∧
       job d eP d4 (summary_val Config st' C eP d d4) ∈ WorkList st')) as [Heq|?]; [| |by eauto].
    { unfold summary_val. destruct (UseEndSummaryTab Config).
      - left. by rewrite (xu_summaries _ _ _ _ _ _ Hu).
      - destruct (ra_pending _ _ Hr d eP d4); auto. }
    rewrite Heq in *. destruct (Hsv Hneq) as [?|[?|[[? Hin]|Hret]]].
    + left. set_solver.
    + right. left. set_solver.
    + right; right; left. split; [done|]. by apply (ra_keep _ _ Hr).
    + right; right; right. eapply returned_mono; [apply Hr|reflexivity|done].
Qed.
End operations.
