(* ===== verification/IterativeIDESolverPhase1.v ===== *)
(** The first phase of the [IterativeIDESolver] without garbage collection: both
    ways to drive it end, with jump functions that are the least solution of its
    rules.

    The first phase of the [IterativeIDESolver] terminates, driven in rounds or
    step by step, when the facts that can occur are finitely many and the edge
    functions have no infinite ascending chains. *)
From S2P Require Import Prelude JoinLattice Table IDEProblem IDESolverAPIMixin IDESolver IDESolverEffects.
From S2P Require Import IDESolverFixpoint IDESolverPaths IterativeIDESolver IterativeIDESolverRules.
From S2P Require Import IterativeIDESolverComplete.
Import Iterative.

(** A loop that has nothing to do. *)
Lemma while_next_idle {S} (next : S → option S) fuel s s' :
  next s = None → while_next next fuel s = Some s' → s' = s.
Proof. intros Hn. destruct fuel; simpl; rewrite Hn; congruence. Qed.

Section phase1.
Context {N D F L EF : Type} `{Countable N, Countable D, Countable F}.
Context `{EqDecision EF, EqDecision L, JoinLatticeTraits L, !SemiRing L EF, !SemiRingLaws L EF}.
Context (ICF : ICFG N D F) (X : SolverExtras N D F) `{!ExitPointLaws ICF X}.
Context (P : IDETabulationProblem N D F L EF) (Config : StaticSolverConfig).
Abbreviation St := (State N D F L EF).
Abbreviation Job := (InterPropagationJob N D F EF).
Abbreviation stepping := (step ICF X P Config).
Abbreviation invariant := (inv_jobs ICF X P Config).
Implicit Types (st : St) (j : Job).
Local Open Scope phasar_scope.

(** * The invariant of the first phase *)

Record iter_complete st : Prop := {
  cm_seed SP d : iter_seed P SP d → identity ⊑ₑ iter_Jf st d (storeNode X SP d) d;
  cm_edge d1 n d2 : iter_Jf st d1 n d2 ≠ AllTop →
    job d1 n d2 (iter_Jf st d1 n d2) ∈ WorkList st ∨
    processed_edge ICF X P Config st d1 n d2 (iter_Jf st d1 n d2);
  cm_jobs : invariant ∅ st
}.

(** Leaving the work list: the job of an exit excuses the jobs of its key. *)
Lemma pop_invariant st st0 n d1 d2 f wl :
  WorkList st = job d1 n d2 f :: wl → WorkList st0 = wl →
  AllInterPropagations st0 = AllInterPropagations st → CallWL st0 = CallWL st →
  (∀ d C, jobs_of st0 d C = jobs_of st d C) → (∀ C d, summaries_of st0 C d = summaries_of st C d) →
  (∀ d1 n d2, iter_Jf st0 d1 n d2 = iter_Jf st d1 n d2) →
  invariant ∅ st →
  invariant (if decide (exit_node ICF n) then ∅ ∪ {[(d1, getFunctionOf ICF n)]} else ∅) st0.
Proof.
  intros HW HW0 HA HC HJ HS HJf [Ha Hs]. split.
  - intros j. rewrite HA, HJ. apply Ha.
  - intros d C j. rewrite HJ. intros Hj. destruct (Hs d C j Hj) as (Hd & HCj & Hsv).
    split; [done|]. split; [done|]. intros eP d4 HeP. cbv zeta. rewrite HC, HW0.
    assert (summary_val Config st0 (Callee j) eP (FactInCallee j) d4 =
            summary_val Config st (Callee j) eP (FactInCallee j) d4) as ->
      by (unfold summary_val; by rewrite HS, HJf).
    intros Hne. destruct (Hsv eP d4 HeP Hne) as [?|[[]%elem_of_empty|[[HE Hin]|Hret]]]; [by left| |].
    + rewrite HW in Hin. apply elem_of_cons in Hin as [[= _ -> -> _]|Hin]; [|by eauto].
      apply exit_points in HeP as [Hx HF]. rewrite decide_True by done.
      right; left. rewrite HF. set_solver.
    + right; right; right. intros n' d5 f5 Hre. rewrite HJf. by apply Hret.
Qed.

(** The invariant after a job has been processed. *)
Lemma processed_complete st st0 st' n d1 d2 f wl :
  WorkList st = job d1 n d2 f :: wl → WorkList st0 = wl →
  (∀ d C, jobs_of st0 d C = jobs_of st d C) → (∀ C d, summaries_of st0 C d = summaries_of st C d) →
  (∀ d1 n d2, iter_Jf st0 d1 n d2 = iter_Jf st d1 n d2) →
  raises st0 st' → (∀ d C j, j ∈ jobs_of st0 d C → j ∈ jobs_of st' d C) →
  (∀ C d d', default AllTop (summaries_of st0 C d !! d') ⊑ₑ
             default AllTop (summaries_of st' C d !! d')) →
  processed_edge ICF X P Config st' d1 n d2 f → invariant ∅ st' →
  iter_complete st → iter_complete st'.
Proof.
  intros HW HW0 HJ HS HJf Hr Hjobs Hge Hpe Hi [Hseed Hedge _]. split; [| |done].
  - intros SP d Hs. etransitivity; [by apply Hseed|]. rewrite <- HJf. apply Hr.
  - intros d n0 d' Hne. destruct (ra_pending _ _ Hr d n0 d') as [Heq|?]; [|by left].
    rewrite Heq, HJf in *. destruct (Hedge d n0 d' Hne) as [Hin|Hp].
    + rewrite HW in Hin. apply elem_of_cons in Hin as [Heq'|Hin].
      * right. injection Heq' as Hf -> -> ->. rewrite Hf. done.
      * left. apply (ra_keep _ _ Hr). by rewrite HW0.
    + right. apply (processed_edge_later _ _ _ _ st st'); [|by intros d0 C j Hj; apply Hjobs; rewrite HJ| |done].
      * intros. rewrite <- HJf. apply Hr.
      * intros. rewrite <- HS. apply Hge.
Qed.

(** The state of a popped job: its reference count is decremented. *)
Lemma popped_fields st wl g :
  let st1 := set_WorkList (λ _, wl) st in
  let st0 := if GCEnabled Config then set_RefCount g st1 else st1 in
  WorkList st0 = wl ∧ AllInterPropagations st0 = AllInterPropagations st ∧
  CallWL st0 = CallWL st ∧ (∀ d C, jobs_of st0 d C = jobs_of st d C) ∧
  (∀ C d, summaries_of st0 C d = summaries_of st C d) ∧
  (∀ d1 n d2, iter_Jf st0 d1 n d2 = iter_Jf st d1 n d2).
Proof. cbv zeta. destruct st. by destruct (GCEnabled Config). Qed.

(** One job: the state it leaves raises what was left of the state. *)
Lemma popJob_complete st st' :
  popJob ICF X P Config st = Some st' → iter_complete st →
  iter_complete st' ∧ ∃ x wl, WorkList st = x :: wl ∧ raises (set_WorkList (λ _, wl) st) st'.
Proof.
  unfold popJob. intros Hpop Hcm. destruct (WorkList st) as [|[f n d1 d2] wl] eqn:HW; [done|].
  injection Hpop as <-. unfold propagate. cbv zeta. cbn [AtInstruction pj_SourceFact PropagatedFact pj_SourceEF].
  destruct (popped_fields st wl (λ rc, <[getFunctionOf ICF n :=
    pred (default 0 (rc !! getFunctionOf ICF n))]> rc)) as (HW0 & HA & HC & HJ & HS & HJf).
  set (st0 := if GCEnabled Config then _ else _) in *.
  assert (raises (set_WorkList (λ _, wl) st) st0) as Hpop.
  { unfold st0. apply raises_frame; destruct st; by destruct (GCEnabled Config). }
  pose proof (pop_invariant st st0 n d1 d2 f wl HW HW0 HA HC HJ HS HJf (cm_jobs _ Hcm)) as Hi0.
  pose proof (λ st', processed_complete st st0 st' n d1 d2 f wl HW HW0 HJ HS HJf) as Hdone.
  enough (let st' := applyFlowFunction ICF X P Config n d1 d2 f st0 in
    raises st0 st' ∧ (∀ d C j, j ∈ jobs_of st0 d C → j ∈ jobs_of st' d C) ∧
    (∀ C d d', default AllTop (summaries_of st0 C d !! d') ⊑ₑ
               default AllTop (summaries_of st' C d !! d')) ∧
    processed_edge ICF X P Config st' d1 n d2 f ∧ invariant ∅ st') as (Hr & Hjs & Hss & Hpe & Hi).
  { split; [by apply Hdone|]. exists (job d1 n d2 f), wl. split; [done|]. by transitivity st0. }
  clear Hdone Hcm HW. unfold applyFlowFunction. cbv zeta.
  destruct (isCallSite ICF n) eqn:Hcs; cbn [negb].
  - rewrite decide_False in Hi0 by (intros [? _]; congruence).
    destruct (applyIntraCallFlow_step ICF X P Config ∅ n d1 d2 f st0 Hcs Hi0) as [[Hr Hjs _ Hs Hi] Hpe].
    split; [done|]. split; [done|]. split; [intros; by rewrite Hs|]. auto.
  - destruct (normalLoop_done ICF X P Config n d1 d2 f st0) as [Hst Hloc].
    pose proof (applyNormalFlow_exit ICF X P Config n d1 d2 f st0) as Hex. cbv zeta in *.
    set (st1 := for_each _ _ st0) in *. set (st' := applyNormalFlow _ _ _ _ _ _ _ _ st0) in *.
    pose proof (stores_step ICF X P Config st0 st1 Hst) as [Hr Hjs _ Hs Hi].
    assert (∀ s, (∀ d1 n d2, iter_Jf st1 d1 n d2 ⊑ₑ iter_Jf s d1 n d2) →
      (exit_node ICF n → UseEndSummaryTab Config = true →
        f ⊑ₑ default AllTop (summaries_of s (getFunctionOf ICF n) d1 !! d2)) →
      processed_edge ICF X P Config s d1 n d2 f) as Hpe.
    { intros s Hle Hx. split; [| |done].
      - intros n' d3 og [n'' d3' _ HR H3|? ? ? ? Hc|? ? Hc]; [|congruence..].
        etransitivity; [by apply Hloc|]. apply Hle.
      - intros C SP d3 (? & _). congruence. }
    destruct Hex as [[Hx ->]|[Hx Hu]].
    + rewrite decide_False in Hi0 by (intros [_ ?]; congruence).
      split; [done|]. split; [done|]. split; [intros; by rewrite Hs|]. split; [|by apply Hi].
      apply Hpe; [done|]. intros [_ ?]. congruence.
    + rewrite decide_True in Hi0 by done. pose proof Hu as [UR _ _ UJ UG _ UN].
      split; [by transitivity st1|]. split; [intros d C j Hj; rewrite UJ; by apply Hjs|].
      split; [intros C d d'; rewrite <- Hs; apply UG|]. split.
      * apply Hpe; [apply UR|]. intros _. apply UN.
      * eapply exit_update_inv; [exact Hu|]. by apply Hi.
Qed.

(** * The inter-procedural round *)

(** One key: all its jobs get all the summaries of its exits. *)
Lemma processInterJob_stores k st : stores st (processInterJob ICF X P Config k st).
Proof.
  destruct k as [d C]. unfold processInterJob. cbv zeta.
  destruct (readSummaries_fields Config C d st) as [_ Hfields].
  destruct (readSummaries Config C d st) as [Summaries st1].
  transitivity st1; [by apply stores_frame|]. apply (for_each_rel stores). intros eP st2 _.
  apply (for_each_rel stores). intros j st3 _. apply propagateProcedureSummaries_done.
Qed.

Lemma processInterJob_returned d C st j eP d4 :
  j ∈ jobs_of st d C → Callee j = C → FactInCallee j = d → eP ∈ getExitPointsOf X C →
  let fs := summary_val Config st C eP d d4 in fs ≠ AllTop →
  returned_to ICF X P (processInterJob ICF X P Config (d, C) st) j eP d4 fs.
Proof.
  intros Hj HC Hd HeP. cbv zeta. intros Hne. unfold processInterJob. cbv zeta.
  destruct (readSummaries_fields Config C d st) as [_ Hfields].
  pose proof (λ st1, summary_read Config st st1 C eP d d4) as Hread.
  destruct (readSummaries Config C d st) as [Summaries st1]. cbn [fst snd] in *.
  assert (stores st st1) as Hst1 by by apply stores_frame.
  set (fs := summary_val Config st C eP d d4) in *.
  set (body x st2 := for_each (default [] (SourceFactAndFuncToInterJob st2 !! (d, C))) _ st2).
  assert (∀ x s, stores s (body x s)) as Hbody.
  { intros x s. apply (for_each_rel stores). intros. apply propagateProcedureSummaries_done. }
  assert (∀ s s', stores s s' → returned_to ICF X P s j eP d4 fs → returned_to ICF X P s' j eP d4 fs)
    as Hkeep.
  { intros s s' Hs. apply returned_mono; [by apply stores_le|done]. }
  apply (for_each_reach (stores st) (λ s, returned_to ICF X P s j eP d4 fs) eP);
    [done|done|intros x s _ ?; by transitivity s| |intros x s _ _; by apply Hkeep].
  intros s Hs. destruct (Hread s Hs Hne) as (fs' & Hle & Hin). unfold body.
  assert (j ∈ default [] (SourceFactAndFuncToInterJob s !! (d, C))) as Hjs.
  { rewrite (sj_FunJobs _ _ (st_same _ _ Hs)). done. }
  apply (for_each_reach (λ _, True) (λ s, returned_to ICF X P s j eP d4 fs) j); [done|done|done| |].
  - intros s1 _ n' d5 f5 Hre.
    etransitivity; [|by apply (proj2 (propagateProcedureSummaries_done ICF X P Config
      (summariesAt Config Summaries eP d s) (CallSite j) C eP (SourceFact j) _ (SourceEF j) s1) d4 fs'); [|rewrite <- HC]].
    repeat (apply extend_le_mono; try done).
  - intros j' s1 _ _. apply Hkeep. apply propagateProcedureSummaries_done.
Qed.

Lemma processInterJobs_spec st :
  iter_complete st →
  let st' := processInterJobs ICF X P Config st in
  iter_complete st' ∧ CallWL st' = ∅ ∧ raises st st'.
Proof.
  intros [Hseed Hedge Hjobs]. cbv zeta. unfold processInterJobs. cbv zeta.
  set (st0 := set_CallWL _ st). set (st' := for_each _ _ st0).
  assert (stores st0 st') as [Hr Hsj]
    by (apply (for_each_rel stores); intros; apply processInterJob_stores).
  assert (raises st st0) as Hr0 by (apply raises_frame; by destruct st).
  assert (raises st st') as Hr' by by transitivity st0.
  assert (∀ d C, jobs_of st' d C = jobs_of st d C) as HJ.
  { intros. unfold jobs_of. rewrite (sj_FunJobs _ _ Hsj). by destruct st. }
  assert (∀ C d, summaries_of st' C d = summaries_of st C d) as HS.
  { intros. rewrite (sj_summaries _ _ Hsj). by destruct st. }
  split; [|split; [rewrite (sj_CallWL _ _ Hsj); by destruct st|done]]. split.
  - intros. etransitivity; [by apply Hseed|]. apply Hr'.
  - intros d1 n d2 Hne. destruct (ra_pending _ _ Hr' d1 n d2) as [Heq|?]; [|by left].
    rewrite Heq in *. destruct (Hedge d1 n d2 Hne) as [Hin|Hp].
    + left. by apply (ra_keep _ _ Hr').
    + right. apply (processed_edge_later _ _ _ _ st st');
        [apply Hr'|by intros d C j; rewrite HJ|intros; by rewrite HS|done].
  - split.
    + intros j. rewrite HJ, (sj_All _ _ Hsj). intros Hj. apply Hjobs. by destruct st.
    + intros d C j. rewrite HJ. intros Hj. destruct (ij_served _ _ _ _ _ _ Hjobs d C j Hj) as (Hd & HC & Hsv).
      split; [done|]. split; [done|]. destruct (decide ((d, C) ∈ CallWL st)) as [Hk|Hk].
      * apply (returned_served _ _ _ _ _ st); [done|done|]. intros eP d4 HeP. cbv zeta. intros Hne.
        apply (for_each_reach (λ s, stores st0 s) (λ s, returned_to ICF X P s j eP d4 _) (d, C));
          [by apply elem_of_elements|done| | |].
        -- intros k s _ Hs. transitivity s; [done|]. apply processInterJob_stores.
        -- intros s Hs.
           assert (summary_val Config st (Callee j) eP (FactInCallee j) d4 ⊑ₑ
                   summary_val Config s C eP d d4) as Hle.
           { unfold summary_val. rewrite Hd, HC. destruct (UseEndSummaryTab Config).
             - rewrite (sj_summaries _ _ (st_same _ _ Hs)). by destruct st.
             - etransitivity; [|by apply stores_le]. by destruct st. }
           eapply returned_mono; [by intros|exact Hle|].
           apply processInterJob_returned; [|done|done|by rewrite <- HC|by eapply above_not_top].
           unfold jobs_of. rewrite (sj_FunJobs _ _ (st_same _ _ Hs)). by destruct st.
        -- intros k s _ Hs. apply returned_mono; [|done]. apply stores_le, processInterJob_stores.
      * intros eP d4 HeP. cbv zeta. intros Hne.
        destruct (summary_val_later Config st st' (Callee j) eP (FactInCallee j) d4 Hr' HS)
          as [Heq|?]; [|by eauto].
        rewrite Heq in *. destruct (Hsv eP d4 HeP Hne) as [Hin|[[]%elem_of_empty|[[? Hin]|Hret]]].
        -- rewrite Hd, HC in Hin. done.
        -- right; right; left. split; [done|]. by apply (ra_keep _ _ Hr').
        -- right; right; right. eapply returned_mono; [apply Hr'|reflexivity|done].
Qed.

(** * Driving the phase *)

Lemma initial_invariant E : invariant E (initialState : St).
Proof.
  split; simpl.
  - by intros j Hj%elem_of_nil.
  - intros d C j. unfold jobs_of. simpl. rewrite lookup_empty. by intros Hj%elem_of_nil.
Qed.

Lemma submitSeeds_stores st : stores st (Iterative.doInitialize ICF X P Config st).
Proof.
  unfold Iterative.doInitialize, Iterative.submitInitialSeeds.
  apply (for_each_rel stores). intros [SP Facts] st1 _. apply (for_each_rel stores).
  intros [d v] st2 _. apply store_stores.
Qed.

Lemma doInitialize_iter_complete :
  let st := Iterative.doInitialize ICF X P Config initialState in
  iter_complete st ∧ CallWL st = ∅.
Proof.
  cbv zeta. pose proof (submitSeeds_stores initialState) as Hst.
  assert (∀ d1 n d2, iter_Jf (initialState : St) d1 n d2 = AllTop) as H0'.
  { intros. unfold iter_Jf, stored_jf. simpl. by rewrite table_lookup_empty. }
  split; [split|by rewrite (sj_CallWL _ _ (st_same _ _ Hst))].
  - intros SP d (Facts & HSP & [v Hv]).
    unfold Iterative.doInitialize, Iterative.submitInitialSeeds.
    apply (for_each_achieves stores (SP, Facts)); [apply stores_le| |by apply elem_of_map_to_list|].
    + intros [SP' Facts'] st1 _. apply (for_each_rel stores). intros [d' v'] st2 _. apply store_stores.
    + intros st1 _. apply (for_each_achieves stores (d, v)); [apply stores_le| |by apply elem_of_map_to_list|].
      * intros [d' v'] st2 _. apply store_stores.
      * intros st2 _. apply store_stores.
  - intros d1 n d2 Hne. left. destruct (ra_pending _ _ (st_raises _ _ Hst) d1 n d2) as [Heq|]; [|done].
    rewrite Heq, H0' in Hne. done.
  - apply (stores_step ICF X P Config _ _ Hst), initial_invariant.
Qed.

Context (HGC : EnableJumpFunctionGC Config = Disabled).

Lemma runGC_disabled st : runGC ICF X Config st = st.
Proof. unfold runGC, GCEnabled. by rewrite HGC. Qed.

Lemma popJob_None st : popJob ICF X P Config st = None ↔ WorkList st = [].
Proof. unfold popJob. by destruct (WorkList st). Qed.

Lemma popJob_preserves st st' :
  popJob ICF X P Config st = Some st' → iter_complete st → iter_complete st'.
Proof. intros Hp Hc. by eapply popJob_complete. Qed.

(** A round without anything to do. *)
Lemma processInterJobs_idle st : CallWL st = ∅ → WorkList (processInterJobs ICF X P Config st) = WorkList st.
Proof. intros HC. unfold processInterJobs. rewrite HC, elements_empty. by destruct st. Qed.

Definition finished st : Prop := iter_complete st ∧ WorkList st = [] ∧ CallWL st = ∅.

Lemma rounds_finished fuel st st' :
  rounds ICF X P Config fuel st = Some st' → iter_complete st → CallWL st = ∅ → finished st'.
Proof.
  revert st. induction fuel as [|fuel IH]; intros st; cbn [rounds];
    intros Hr%bind_Some Hc HC; destruct Hr as (st1 & Hw & Hr); cbv zeta in Hr;
    rewrite runGC_disabled in Hr.
  all: destruct (while_next_inv _ iter_complete _ _ _ popJob_preserves Hc Hw) as [Hc1 HW1%popJob_None].
  all: destruct (processInterJobs_spec st1 Hc1) as (Hc2 & HC2 & _).
  all: case_bool_decide as HW; [injection Hr as <-|].
  1,3: split; [done|]; split; [|done].
  1,2: apply while_next_idle in Hw as ->; [|by apply popJob_None].
  1,2: by rewrite processInterJobs_idle.
  - done.
  - by eapply IH.
Qed.

Lemma dataflowFactPropagation_finished fuel st :
  dataflowFactPropagation ICF X P Config fuel = Some st → finished st.
Proof.
  intros Hr. destruct doInitialize_iter_complete as [Hc HC]. by eapply rounds_finished.
Qed.

Lemma doNext_spec st b st' :
  Iterative.doNext ICF X P Config st = (b, st') → iter_complete st →
  iter_complete st' ∧ (b = false → finished st').
Proof.
  unfold Iterative.doNext. intros Hn Hc. destruct (popJob ICF X P Config st) as [st1|] eqn:Hp.
  - injection Hn as <- <-. split; [by eapply popJob_preserves | done].
  - cbv zeta in Hn. rewrite runGC_disabled in Hn.
    destruct (processInterJobs_spec st Hc) as (Hc2 & HC2 & _).
    destruct (popJob ICF X P Config (processInterJobs ICF X P Config st)) as [st2|] eqn:Hp2;
      injection Hn as <- <-.
    + split; [by eapply popJob_preserves | done].
    + split; [done|]. intros _. split; [done|]. split; [by apply popJob_None|done].
Qed.

Lemma continueImpl_finished fuel st st' :
  Iterative.continueImpl ICF X P Config fuel st = Some st' → iter_complete st → finished st'.
Proof.
  revert st. induction fuel as [|fuel IH]; intros st; cbn [Iterative.continueImpl];
    destruct (Iterative.doNext ICF X P Config st) as [[] st1] eqn:Hn; intros Hr Hc; simplify_eq;
    apply doNext_spec in Hn as [? ?]; eauto.
Qed.

(** * The jump functions of a finished phase *)

Lemma summary_below st C eP d3 d4 :
  finished st → iter_summary X Config (iter_Jf st) C eP d3 d4 ⊑ₑ summary_val Config st C eP d3 d4.
Proof.
  intros (Hc & HW & _). unfold iter_summary, summary_val. destruct (UseEndSummaryTab Config) eqn:HE; [|done].
  apply (foldr_combine_lub (λ x, iter_Jf st d3 x d4)). intros x Hx.
  destruct (decide (iter_Jf st d3 x d4 = AllTop)) as [->|Hne]; [apply ef_le_top|].
  apply exit_points in Hx as [Hx HF].
  destruct (cm_edge _ Hc d3 x d4 Hne) as [Hin|Hp]; [rewrite HW in Hin; by apply elem_of_nil in Hin|].
  rewrite <- HF. by apply (pe_exit _ _ _ _ _ _ _ _ _ Hp).
Qed.

Lemma finished_solution st : finished st → iter_solution ICF X P Config (iter_Jf st).
Proof.
  intros Hfin. pose proof Hfin as (Hc & HW & HC).
  assert (∀ d1 n d2, iter_Jf st d1 n d2 ≠ AllTop →
    processed_edge ICF X P Config st d1 n d2 (iter_Jf st d1 n d2)) as Hp.
  { intros d1 n d2 Hne. destruct (cm_edge _ Hc d1 n d2 Hne) as [Hin|]; [|done].
    rewrite HW in Hin. by apply elem_of_nil in Hin. }
  split.
  - apply Hc.
  - intros d1 n d2 n' d3 og Hne. by apply Hp.
  - intros d1 n d2 C SP d3 Hne Hce. by apply (Hp _ _ _ Hne) in Hce as [? _].
  - intros d1 c d2 C SP d3 eP d4 n' d5 f5 Hne Hce HeP Hnes Hre.
    destruct (pe_call _ _ _ _ _ _ _ _ _ (Hp _ _ _ Hne) C SP d3 Hce) as [_ Hj].
    apply (ij_served _ _ _ _ _ _ (cm_jobs _ Hc)) in Hj as (_ & _ & Hsv).
    pose proof (summary_below st C eP d3 d4 Hfin) as Hle.
    destruct (Hsv eP d4 HeP) as [Hin|[[]%elem_of_empty|[[_ Hin]|Hret]]]; cbn in *.
    + by eapply above_not_top.
    + rewrite HC in Hin. by apply elem_of_empty in Hin.
    + rewrite HW in Hin. by apply elem_of_nil in Hin.
    + etransitivity; [|by apply Hret]. repeat (apply extend_le_mono; try done).
Qed.
End phase1.

Import Iterative.

Section termination.
Context {N D F L EF : Type} `{Countable N, Countable D, Countable F}.
Context `{EqDecision EF, EqDecision L, JoinLatticeTraits L, !SemiRing L EF, !SemiRingLaws L EF}.
Context `{!EFHeight L EF}.
Context (ICF : ICFG N D F) (X : SolverExtras N D F) `{!ExitPointLaws ICF X}.
Context (P : IDETabulationProblem N D F L EF) (Config : StaticSolverConfig).
Context (HGC : EnableJumpFunctionGC Config = Disabled).
Abbreviation St := (State N D F L EF).
Implicit Types (st : St).
Local Open Scope phasar_scope.

(** The path edges that can occur lie in the finite set [U]; a summary comes
    from some exit of the function. *)
Definition iter_in_universe (U : gset (D * N * D)) (C : F) (eP : N) (d3 d4 : D) (_ : EF) : Prop :=
  ∃ eP0, applied_at X Config C eP0 eP ∧ (d3, eP0, d4) ∈ U.

Definition iter_finite_problem (U : gset (D * N * D)) : Prop :=
  iter_closed ICF X P Config (in_universe U) (iter_in_universe U).

Context (U : gset (D * N * D)) (HU : iter_finite_problem U).

Definition good st : Prop :=
  iter_sound ICF X P (in_universe U) (iter_in_universe U) st ∧ iter_complete ICF X P Config st.

Definition iter_potential st : nat :=
  sum_of (λ x, height (iter_Jf st x.1.1 x.1.2 x.2)) (elements U).

Lemma height_le (f g : EF) : f ⊑ₑ g → height g ≤ height f.
Proof.
  intros Hle. destruct (decide (f = g)) as [->|Hne]; [done|].
  pose proof (height_lt f g Hle Hne). lia.
Qed.

Lemma sum_of_le {A} (h h' : A → nat) l : (∀ y, h' y ≤ h y) → sum_of h' l ≤ sum_of h l.
Proof. intros Hle. induction l as [|y l IH]; simpl; [done|]. specialize (Hle y). lia. Qed.

Lemma good_universe st d1 n d2 : good st → iter_Jf st d1 n d2 ≠ AllTop → (d1, n, d2) ∈ U.
Proof.
  intros [Hs _]. unfold iter_Jf. destruct (stored_jf st d1 n d2) eqn:Hj; [|done]. intros _.
  by apply (so_jf _ _ _ _ _ _ Hs) in Hj as [? _].
Qed.

(** Raising lowers the potential, unless nothing was pushed. *)
Lemma raises_potential st st' :
  raises st st' → good st' →
  iter_potential st' < iter_potential st ∨
  (iter_potential st' ≤ iter_potential st ∧ WorkList st' = WorkList st).
Proof.
  intros Hr Hg.
  assert (∀ x, height (iter_Jf st' x.1.1 x.1.2 x.2) ≤ height (iter_Jf st x.1.1 x.1.2 x.2)) as Hle
    by (intros; apply height_le, Hr).
  destruct (ra_changed _ _ Hr) as [HW|(d1 & n & d2 & Hne)].
  - right. split; [by apply sum_of_le | done].
  - left. apply (sum_of_lt _ _ _ (d1, n, d2)); [|by apply height_lt; [apply Hr|]|done].
    apply elem_of_elements, (good_universe st'); [done|]. intros Htop.
    assert (iter_Jf st d1 n d2 ⊑ₑ AllTop) as Heq%ef_le_top_inv by (rewrite <- Htop; apply Hr).
    apply Hne. by rewrite Htop.
Qed.

Lemma popJob_good st st' : popJob ICF X P Config st = Some st' → good st → good st'.
Proof.
  intros Hp [Hs Hc]. split; [by eapply popJob_sound|by eapply popJob_preserves].
Qed.

Lemma processInterJobs_good st : good st → good (processInterJobs ICF X P Config st).
Proof.
  intros [Hs Hc]. split; [by apply processInterJobs_sound|by apply processInterJobs_spec].
Qed.

Lemma popJob_measure st st' :
  popJob ICF X P Config st = Some st' → good st →
  iter_potential st' < iter_potential st ∨
  (iter_potential st' ≤ iter_potential st ∧ length (WorkList st') < length (WorkList st)).
Proof.
  intros Hp Hg. pose proof (popJob_good _ _ Hp Hg) as Hg'. destruct Hg as [_ Hc].
  destruct (popJob_complete ICF X P Config st st' Hp Hc) as (_ & x & wl & HW & Hr).
  assert (iter_potential (set_WorkList (λ _, wl) st) = iter_potential st) as Heq by by destruct st.
  destruct (raises_potential _ _ Hr Hg') as [Hlt|[Hle HW']]; rewrite Heq in *; [by left|right].
  split; [done|]. rewrite HW', HW. destruct st. simpl. lia.
Qed.

Lemma pop_loop st : good st → ∃ fuel st', while_next (popJob ICF X P Config) fuel st = Some st' ∧
  iter_potential st' ≤ iter_potential st.
Proof.
  intros Hg. destruct (while_next_terminates (popJob ICF X P Config) good
    iter_potential (λ st, length (WorkList st)) st) as (fuel & st' & Hw); [|done|].
  - intros s s' Hs Hp. split; [by eapply popJob_good|].
    destruct (popJob_measure s s' Hp Hs) as [?|[? ?]]; [by left|].
    destruct (decide (iter_potential s' = iter_potential s)); [by right|left; lia].
  - exists fuel, st'. split; [done|].
    apply (while_next_inv _ (λ s, good s ∧ iter_potential s ≤ iter_potential st)) in Hw as [[_ ?] _];
      [done| |done].
    intros s s' Hp [Hs Hle]. split; [by eapply popJob_good|].
    destruct (popJob_measure s s' Hp Hs); lia.
Qed.

Lemma rounds_fuel fuel fuel' st r :
  rounds ICF X P Config fuel st = Some r → fuel ≤ fuel' → rounds ICF X P Config fuel' st = Some r.
Proof.
  revert fuel' st. induction fuel as [|fuel IH]; intros fuel' st; cbn [rounds];
    intros (st1 & Hw & Hr)%bind_Some Hle;
    destruct fuel' as [|fuel']; try lia; cbn [rounds];
    rewrite (while_next_fuel _ _ _ _ _ Hw Hle); simpl; cbv zeta in *.
  - done.
  - by case_bool_decide.
  - case_bool_decide; [done|]. apply IH; [done|lia].
Qed.

Lemma rounds_return st :
  good st → ∃ fuel r, rounds ICF X P Config fuel st = Some r.
Proof.
  remember (iter_potential st) as m eqn:Hm. revert st Hm.
  induction (lt_wf m) as [m _ IH]. intros st Hm Hg.
  destruct (pop_loop st Hg) as (fuel & st1 & Hw & Hle).
  assert (good st1 ∧ WorkList st1 = []) as [Hg1 HW1].
  { apply (while_next_inv _ good _ _ _ popJob_good Hg) in Hw as [? ?%popJob_None]. done. }
  set (st2 := processInterJobs ICF X P Config st1).
  pose proof (processInterJobs_good st1 Hg1) as Hg2. fold st2 in Hg2.
  destruct (decide (WorkList st = [])) as [HW|HW].
  { exists fuel, st2. destruct fuel; cbn [rounds]; rewrite Hw; simpl;
      rewrite runGC_disabled by done; by rewrite bool_decide_eq_true_2. }
  assert (∃ fuel2 r, rounds ICF X P Config fuel2 st2 = Some r) as (fuel2 & r & Hr).
  { destruct (processInterJobs_spec ICF X P Config st1) as (_ & _ & Hr12); [apply Hg1|].
    destruct (raises_potential st1 st2 Hr12 Hg2) as [Hlt|[_ HW2]].
    - apply (IH (iter_potential st2)); [lia|done|done].
    - rewrite HW1 in HW2. exists 0, (processInterJobs ICF X P Config st2). cbn [rounds].
      assert (while_next (popJob ICF X P Config) 0 st2 = Some st2) as ->
        by (simpl; by rewrite (proj2 (popJob_None ICF X P Config st2))).
      simpl. rewrite runGC_disabled by done. by rewrite bool_decide_eq_true_2. }
  exists (S (fuel `max` fuel2)), r. cbn [rounds].
  rewrite (while_next_fuel _ _ (S (fuel `max` fuel2)) _ _ Hw) by lia. simpl.
  rewrite runGC_disabled by done. rewrite bool_decide_eq_false_2 by done.
  apply (rounds_fuel fuel2); [done|lia].
Qed.

Lemma doInitialize_good : good (Iterative.doInitialize ICF X P Config initialState).
Proof.
  split.
  - apply doInitialize_iter_sound; [done|]. apply initial_sound.
  - apply doInitialize_iter_complete.
Qed.

Lemma dataflowFactPropagation_terminates :
  ∃ fuel st, ∀ fuel', fuel ≤ fuel' → dataflowFactPropagation ICF X P Config fuel' = Some st.
Proof.
  destruct (rounds_return _ doInitialize_good) as (fuel & st & Hr).
  exists fuel, st. intros fuel' Hle. by apply (rounds_fuel fuel).
Qed.

(** ** Step by step *)

Lemma doNext_good st b st' :
  Iterative.doNext ICF X P Config st = (b, st') → good st →
  good st' ∧ (b = true → iter_potential st' < iter_potential st ∨
    (iter_potential st' ≤ iter_potential st ∧ length (WorkList st') < length (WorkList st))).
Proof.
  unfold Iterative.doNext. intros Hn Hg. destruct (popJob ICF X P Config st) as [st1|] eqn:Hp.
  - injection Hn as <- <-. split; [by eapply popJob_good|]. intros _. by apply popJob_measure.
  - cbv zeta in Hn. rewrite runGC_disabled in Hn by done. apply popJob_None in Hp.
    pose proof (processInterJobs_good st Hg) as Hg2.
    destruct (processInterJobs_spec ICF X P Config st) as (_ & _ & Hr); [apply Hg|].
    set (st2 := processInterJobs ICF X P Config st) in *.
    destruct (popJob ICF X P Config st2) as [st3|] eqn:Hp2; injection Hn as <- <-; [|done].
    split; [by eapply popJob_good|]. intros _. left.
    pose proof (popJob_measure st2 st3 Hp2 Hg2) as Hm.
    destruct (raises_potential st st2 Hr Hg2) as [Hlt|[_ HW]].
    + destruct Hm as [?|[? _]]; lia.
    + rewrite Hp in HW. apply (popJob_None ICF X P Config) in HW. congruence.
Qed.

Lemma continueImpl_returns st : good st → ∃ fuel r, Iterative.continueImpl ICF X P Config fuel st = Some r.
Proof.
  remember (iter_potential st) as a eqn:Ha. revert st Ha.
  induction (lt_wf a) as [a _ IHa]. intros st.
  remember (length (WorkList st)) as b eqn:Hb. revert st Hb.
  induction (lt_wf b) as [b _ IHb]. intros st Hb Ha Hg.
  destruct (Iterative.doNext ICF X P Config st) as [[] st'] eqn:Hn;
    destruct (doNext_good _ _ _ Hn Hg) as [Hg' Hm].
  - assert (∃ fuel r, Iterative.continueImpl ICF X P Config fuel st' = Some r) as (fuel & r & Hr).
    { destruct (Hm eq_refl) as [Hlt|[Hle Hlt]].
      - apply (IHa (iter_potential st')); [lia|done|done].
      - destruct (decide (iter_potential st' = iter_potential st)) as [Heq|Hne].
        + apply (IHb (length (WorkList st'))); [lia|done|congruence|done].
        + apply (IHa (iter_potential st')); [lia|done|done]. }
    exists (S fuel), r. cbn [Iterative.continueImpl]. by rewrite Hn.
  - exists 0, st'. cbn [Iterative.continueImpl]. by rewrite Hn.
Qed.

Lemma stepwise_terminates :
  ∃ fuel st, Iterative.continueImpl ICF X P Config fuel
    (Iterative.doInitialize ICF X P Config initialState) = Some st.
Proof. apply continueImpl_returns, doInitialize_good. Qed.
End termination.
