(* ===== verification/IterativeIDESolverCorrect.v ===== *)
(** The correctness of the first phase of the [IterativeIDESolver]: what it
    computes, that it ends, and how it relates to the [IDESolver]. The witnesses
    run it on the program of [IDESolverExample]. *)
From S2P Require Import Prelude JoinLattice Table JumpFunctions IDEProblem DefaultSemiRing IDESolverAPIMixin IDESolver IDESolverEffects IDESolverFixpoint IDESolverPaths IDESolverExample IDESolverCorrect IterativeIDESolver IterativeIDESolverRules IterativeIDESolverComplete IterativeIDESolverPhase1.
Import Iterative.

(** Extending is associative: the two solvers associate returns differently. *)
Class SemiRingAssociative (L EF : Type) `{SemiRing L EF} : Prop :=
  extend_assoc (f g h : EF) : extend (extend f g) h = extend f (extend g h).

#[export] Instance DefaultSemiRing_assoc {A} `{EqDecision A} :
  SemiRingAssociative (LatticeDomain A) (CoreEF A).
Proof. intros f g h. rewrite !extend_core. by destruct g, h. Qed.

(** * The rules of the two solvers *)

Section rules.
Context {N D F L EF : Type} `{Countable N, Countable D, Countable F}.
Context `{EqDecision EF, EqDecision L, JoinLatticeTraits L, !SemiRing L EF, !SemiRingLaws L EF}.
Context `{!SemiRingAssociative L EF}.
Context (ICF : ICFG N D F) (X : SolverExtras N D F) `{!ICFGLaws ICF, !ExitPointLaws ICF X}.
Context (P : IDETabulationProblem N D F L EF) (Config : StaticSolverConfig).
Local Open Scope phasar_scope.

(** The inputs on which both solvers are meant to do the same: the graph is not
    sparse, the zero fact is seeded with every seed and added by the flow
    functions, no returns past the seeds, and summary edge functions exist. *)
Record comparable : Prop := {
  cp_advance : advanceToNextUser X = None;
  cp_sparse : getSparseNextUser ICF = None;
  cp_zero_seeds SP Facts : initialSeeds P !! SP = Some Facts → is_Some (Facts !! getZeroValue P);
  cp_zero : IFDSIDESolverConfig.autoAddZero (SolverConfig P) = true;
  cp_balanced : balanced P;
  cp_summaries n d n' d' : isNullSummaryEdgeFunction X n d n' d' = false
}.

(** Summaries cannot be taken for another exit's. *)
Definition exits_told_apart : Prop :=
  UseEndSummaryTab Config = true →
  ∀ C eP eP', eP ∈ getExitPointsOf X C → eP' ∈ getExitPointsOf X C → eP = eP'.

Context (HC : comparable).

Lemma storeNode_id n d : storeNode X n d = n.
Proof. unfold storeNode. by rewrite (cp_advance HC). Qed.

Lemma GetNextUse_id Fun n n' d : GetNextUse ICF P Fun n n' d = n'.
Proof. unfold GetNextUse, getNextUserOrNull. by rewrite (cp_sparse HC). Qed.

Lemma zeroed_same FF : IDESolver.zeroed P FF = Iterative.zeroed P FF.
Proof. unfold IDESolver.zeroed, Iterative.zeroed. by rewrite (cp_zero HC). Qed.

Lemma seed_same SP d : seed_fact P SP d ↔ iter_seed P SP d.
Proof.
  unfold seed_fact, iter_seed. split.
  - intros (Facts & HSP & [->|Hd]); exists Facts; (split; [done|]); [|done].
    by apply (cp_zero_seeds HC SP).
  - intros (Facts & HSP & Hd). exists Facts. auto.
Qed.

Lemma local_same n d2 n' d3 :
  (∀ g, local_edge ICF P n d2 n' d3 g → local_flow ICF X P n d2 n' d3 (Some g)) ∧
  (∀ og, local_flow ICF X P n d2 n' d3 og → ∃ g, og = Some g ∧ local_edge ICF P n d2 n' d3 g).
Proof.
  split.
  - intros g [n'' d Hc Hs Hd|C Sum Ret d Hc HCal HSum HR Hd|Ret d Hc HR Hd]; rewrite GetNextUse_id.
    + apply flow_normal; [done..|]. unfold normalFF. by rewrite <- zeroed_same.
    + pose proof (flow_summary ICF X P n d2 C Sum Ret d Hc HCal HSum HR Hd) as Hl.
      by rewrite (cp_summaries HC) in Hl.
    + apply flow_call_to_return; [done..|]. unfold callToRetFF. by rewrite <- zeroed_same.
  - intros og [n'' d Hc Hs Hd|C Sum Ret d Hc HCal HSum HR Hd|Ret d Hc HR Hd];
      [eexists; split; [done|]|rewrite (cp_summaries HC); eexists; split; [done|]|
       eexists; split; [done|]].
    + rewrite <- (GetNextUse_id (getFunctionOf ICF n) n n'' d) at 1. apply local_normal; [done..|].
      unfold cachedNormalFF. by rewrite zeroed_same.
    + rewrite <- (GetNextUse_id (getFunctionOf ICF n) n Ret d) at 1. by eapply local_summary.
    + rewrite <- (GetNextUse_id (getFunctionOf ICF n) n Ret d) at 1.
      apply local_call_to_return; [done..|]. unfold cachedCallToRetFF. by rewrite zeroed_same.
Qed.

Lemma call_same n d2 C SP d3 : call_edge ICF P n d2 C SP d3 ↔ call_flow ICF P n d2 C SP d3.
Proof. unfold call_edge, call_flow, cachedCallFF, callFF. by rewrite zeroed_same. Qed.

Lemma return_same c d2 C d3 eP d4 n' d5 f4 f5 :
  return_edge ICF P c d2 C d3 eP d4 n' d5 f4 f5 ↔
  return_flow ICF P c C eP d4 n' d5 f5 ∧ f4 = getCallEdgeFunction P c d2 C d3.
Proof.
  split.
  - intros [Ret d HR Hd]. rewrite GetNextUse_id. split; [|done].
    apply return_flow_intro; [done|]. unfold retFF. by rewrite <- zeroed_same.
  - intros [[Ret d HR Hd] ->].
    rewrite <- (GetNextUse_id (getFunctionOf ICF c) c Ret d) at 1.
    apply return_edge_intro; [done|]. unfold cachedRetFF. by rewrite zeroed_same.
Qed.

Lemma over_call_assoc (f f4 fs f5 : EF) :
  extend f (extend (extend f4 fs) f5) = extend (extend (extend f f4) fs) f5.
Proof. by rewrite !extend_assoc. Qed.

(** A solution of the iterative rules is one of the rules of the [IDESolver]. *)
Lemma iter_solution_is_solution K : iter_solution ICF X P Config K → solution ICF P (unb_flag P) K.
Proof.
  intros [Hs Hl Hc Hr]. split.
  - intros SP d Hsd%seed_same%Hs. by rewrite storeNode_id in Hsd.
  - intros d1 n d2 n' d3 g Hne He%local_same. specialize (Hl d1 n d2 n' d3 _ Hne He).
    by rewrite storeNode_id in Hl.
  - intros d1 n d2 C SP d3 Hne He%call_same. specialize (Hc d1 n d2 C SP d3 Hne He).
    by rewrite storeNode_id in Hc.
  - intros d1 c d2 C SP d3 eP d4 n' d5 f4 f5 Hne He%call_same Hnes Hx HF [Hre ->]%return_same.
    assert (applied_at X Config C eP eP) as Hap
      by (split; [by apply exit_points|split; [by apply exit_points|done]]).
    pose proof (iter_summary_ge X Config K C eP eP d3 d4 Hap) as Hge.
    assert (extend (extend (callEF P (K d1 c d2) c d2 C d3) (iter_summary X Config K C eP d3 d4)) f5
              ⊑ₑ K d1 n' d5) as Hret.
    { rewrite <- (storeNode_id n' d5). eapply Hr; [done|done|by apply exit_points| |done].
      by eapply above_not_top. }
    etransitivity; [|exact Hret]. rewrite over_call_assoc. repeat (apply extend_le_mono; try done).
  - intros d1 eP d2 n' d5 f5 Hflag. pose proof (cp_balanced HC) as Hb.
    unfold balanced, unb_flag in *. congruence.
Qed.

(** The converse holds when the summaries of exits are told apart. *)
Lemma solution_is_iter_solution K :
  exits_told_apart → solution ICF P (unb_flag P) K → iter_solution ICF X P Config K.
Proof.
  intros Hone [Hs Hl Hc Hr _]. split; setoid_rewrite storeNode_id.
  - intros SP d Hsd%seed_same. by apply Hs.
  - intros d1 n d2 n' d3 og Hne (g & -> & He)%local_same. by eapply Hl.
  - intros d1 n d2 C SP d3 Hne He%call_same. by eapply Hc.
  - intros d1 c d2 C SP d3 eP d4 n' d5 f5 Hne He%call_same HeP Hnes Hre.
    assert (iter_summary X Config K C eP d3 d4 ⊑ₑ K d3 eP d4) as Hle.
    { unfold iter_summary. destruct (UseEndSummaryTab Config) eqn:HE; [|done].
      apply (foldr_combine_lub (λ x, K d3 x d4)). intros x Hx.
      by rewrite (Hone HE C eP x). }
    apply exit_points in HeP as HeP'. destruct HeP' as [Hx HF].
    etransitivity; [|eapply (Hr d1 c d2 C SP d3 eP d4 n' d5); [done|done| |done|done|by apply return_same]].
    + rewrite over_call_assoc. repeat (apply extend_le_mono; try done).
    + by eapply above_not_top.
Qed.
End rules.

(** * The theorems *)

Section theorems.
Context {N D F L EF : Type} `{Countable N, Countable D, Countable F}.
Context `{EqDecision EF, EqDecision L, JoinLatticeTraits L, !SemiRing L EF, !SemiRingLaws L EF}.
Context (ICF : ICFG N D F) (X : SolverExtras N D F) `{!ExitPointLaws ICF X}.
Context (P : IDETabulationProblem N D F L EF) (Config : StaticSolverConfig).
Abbreviation St := (State N D F L EF).
Implicit Types (st : St).
Local Open Scope phasar_scope.

Lemma iter_sound_below st K :
  iter_sound ICF X P (λ d1 n d2 f, f ⊑ₑ K d1 n d2)
    (λ C eP d3 d4 f, f ⊑ₑ iter_summary X Config K C eP d3 d4) st →
  ∀ d1 n d2, iter_Jf st d1 n d2 ⊑ₑ K d1 n d2.
Proof.
  intros Hs d1 n d2. unfold iter_Jf. destruct (stored_jf st d1 n d2) as [f|] eqn:Hj; simpl.
  - by apply (so_jf _ _ _ _ _ _ Hs) in Hj as [? _].
  - apply ef_le_top.
Qed.

Lemma doNext_iter_sound R S st b st' :
  iter_closed ICF X P Config R S → Iterative.doNext ICF X P Config st = (b, st') →
  iter_sound ICF X P R S st → iter_sound ICF X P R S st'.
Proof.
  unfold Iterative.doNext. intros HR Hn Hs. cbv zeta in Hn.
  assert (iter_sound ICF X P R S (runGC ICF X Config (processInterJobs ICF X P Config st))) as Hs2
    by (apply runGC_sound; by apply processInterJobs_sound).
  repeat case_match; injection Hn as <- <-; try done; by eapply popJob_sound.
Qed.

Lemma continueImpl_iter_sound R S fuel st st' :
  iter_closed ICF X P Config R S →
  Iterative.continueImpl ICF X P Config fuel st = Some st' →
  iter_sound ICF X P R S st → iter_sound ICF X P R S st'.
Proof.
  intros HR. revert st. induction fuel as [|fuel IH]; intros st; cbn [Iterative.continueImpl];
    destruct (Iterative.doNext ICF X P Config st) as [[] st1] eqn:Hn; intros Hc Hs; simplify_eq;
    pose proof (doNext_iter_sound R S _ _ _ HR Hn Hs); eauto.
Qed.

(** C10: without garbage collection, the jump functions that the first phase of
    the iterative solver computes are the least solution of its rules, whether it
    is driven in rounds or step by step with [doNext]. *)
Theorem iterative_least_solution fuel st :
  EnableJumpFunctionGC Config = Disabled →
  dataflowFactPropagation ICF X P Config fuel = Some st ∨
  Iterative.continueImpl ICF X P Config fuel (Iterative.doInitialize ICF X P Config initialState) = Some st →
  iter_solution ICF X P Config (iter_Jf st) ∧
  ∀ K, iter_solution ICF X P Config K → ∀ d1 n d2, iter_Jf st d1 n d2 ⊑ₑ K d1 n d2.
Proof.
  intros HGC Hrun. split.
  - apply finished_solution; [done..|]. destruct Hrun as [Hr|Hr].
    + by eapply dataflowFactPropagation_finished.
    + eapply continueImpl_finished; [done..|]. by apply doInitialize_iter_complete.
  - intros K HK%iter_solution_closed; [|done]. apply iter_sound_below. destruct Hrun as [Hr|Hr].
    + by eapply dataflowFactPropagation_sound.
    + eapply continueImpl_iter_sound; [done..|]. apply doInitialize_iter_sound; [done|].
      apply initial_sound.
Qed.

(** Garbage collection loses jump functions but invents none: in every mode
    of the collector, what the first phase leaves in the tables is below every
    solution of the rules. *)
Theorem gc_invents_no_jump_function fuel st K :
  dataflowFactPropagation ICF X P Config fuel = Some st → iter_solution ICF X P Config K →
  ∀ d1 n d2, iter_Jf st d1 n d2 ⊑ₑ K d1 n d2.
Proof.
  intros Hr HK%iter_solution_closed; [|done]. apply iter_sound_below.
  by eapply dataflowFactPropagation_sound.
Qed.

(** The first phase ends, in rounds and step by step, when the facts are
    finitely many and the ascending chains of edge functions bounded. *)
Theorem iterative_phase_returns `{!EFHeight L EF} U :
  EnableJumpFunctionGC Config = Disabled → iter_finite_problem ICF X P Config U →
  (∃ fuel st, ∀ fuel', fuel ≤ fuel' → dataflowFactPropagation ICF X P Config fuel' = Some st) ∧
  ∃ fuel st, Iterative.continueImpl ICF X P Config fuel
    (Iterative.doInitialize ICF X P Config initialState) = Some st.
Proof.
  intros HGC HU. split; [by eapply dataflowFactPropagation_terminates|by eapply stepwise_terminates].
Qed.

(** C9: on comparable inputs (the graph is not sparse, zero is seeded with every seed
    and added to the flow functions, returns past the seeds are not followed, no
    summary edge function is missing), without the garbage collector and for edge
    functions whose composition is associative, the iterative solver never computes
    less than the [IDESolver]; and the two compute the same jump functions when every
    function has one exit or the end-summary table is not used. *)
Theorem iterative_agrees_with_IDESolver `{!SemiRingAssociative L EF, !ICFGLaws ICF}
    fuel fuel' st (st' : IDESolver N D F L EF) :
  comparable ICF X P → EnableJumpFunctionGC Config = Disabled →
  dataflowFactPropagation ICF X P Config fuel = Some st → solveImpl ICF P fuel' = Some st' →
  (∀ d1 n d2, Jf st' d1 n d2 ⊑ₑ iter_Jf st d1 n d2) ∧
  (exits_told_apart X Config → ∀ d1 n d2, iter_Jf st d1 n d2 = Jf st' d1 n d2).
Proof.
  intros HC HGC Hr Hs.
  assert (iter_solution ICF X P Config (iter_Jf st)) as Hsol
    by (apply finished_solution; [done..|]; by eapply dataflowFactPropagation_finished).
  assert (∀ d1 n d2, Jf st' d1 n d2 ⊑ₑ iter_Jf st d1 n d2) as Hle
    by (apply (solveImpl_least ICF P fuel' st'); [done|]; by eapply iter_solution_is_solution).
  split; [done|]. intros Hone d1 n d2. apply (anti_symm ef_le); [|done].
  revert d1 n d2. apply iter_sound_below. eapply (dataflowFactPropagation_sound ICF X P Config); [|done].
  apply iter_solution_closed; [done|]. apply solution_is_iter_solution; [done..|].
  eapply balanced_unb; [apply HC| |by eapply solveImpl_solution]. done.
Qed.
End theorems.

(** * The example *)

Module IterativeExample.
Import Example ExampleFacts.

Definition extras : SolverExtras nat nat nat := {|
  getExitPointsOf f := match f with 0 => [3] | 1 => [11] | _ => [] end;
  getAllInstructionsOf f := match f with 0 => [0; 1; 2; 3] | 1 => [10; 11] | _ => [] end;
  getPredsOf n := match n with 1 => [0] | 2 => [1] | 3 => [2] | 11 => [10] | _ => [] end;
  advanceToNextUser := None;
  isInteresting := None;
  isNullSummaryEdgeFunction _ _ _ _ := false
|}.

#[global] Instance extras_laws : ExitPointLaws icfg extras.
Proof.
  intros f n. unfold exit_node. split.
  - destruct f as [|[|f]]; simpl; [intros ->%list_elem_of_singleton; done..|].
    by intros ?%elem_of_nil.
  - intros [[_ Hx] <-]. do 12 (destruct n as [|n]; [simpl in *; try discriminate; set_solver|]). discriminate.
Qed.

Definition run (gc : JumpFunctionGCMode) : option (State nat nat nat (LatticeDomain Z) (CoreEF Z)) :=
  dataflowFactPropagation icfg extras problem
    {| EnableJumpFunctionGC := gc; UseEndSummaryTab := true |} 100.
Definition phase1_of (gc : JumpFunctionGCMode) : State nat nat nat (LatticeDomain Z) (CoreEF Z) :=
  state_of (run gc) initialState.
Lemma run_eq gc : run gc = Some (phase1_of gc).
Proof. destruct gc; vm_compute; reflexivity. Qed.

Lemma run_comparable : comparable icfg extras problem.
Proof.
  split; try done. intros SP Facts. simpl. intros [<- <-]%lookup_singleton_Some. by eexists.
Qed.

Lemma run_exits : exits_told_apart extras IDESolverConfigBase.
Proof.
  intros _ [|[|C]] eP eP'; simpl; rewrite ?list_elem_of_singleton; try congruence.
  by intros ?%elem_of_nil.
Qed.

Lemma run_finite : iter_finite_problem icfg extras problem IDESolverConfigBase universe.
Proof.
  assert (∀ d n d', d ∈ facts → n ∈ nodes → d' ∈ facts → (d, n, d') ∈ universe) as HU
    by (intros; by apply universe_elem).
  split; unfold in_universe, iter_in_universe.
  - intros SP d (Facts & HSP & [v Hv]). simpl in HSP.
    apply lookup_singleton_Some in HSP as [<- <-]. apply lookup_singleton_Some in Hv as [<- _].
    vm_compute. reflexivity.
  - intros d1 n d2 f n' d3 og (Hd1 & Hn & Hd2)%universe_elem _ Hl.
    destruct Hl as [n'' d3 _ Hs Hd|C Sum Ret d3 _ _ [=]|Ret d3 _ HR Hd]; apply HU; try done.
    + by eapply succ_nodes.
    + exact (normal_facts _ _ _ _ Hd2 Hd).
    + by eapply ret_nodes.
    + exact (call_to_ret_facts _ _ _ _ _ Hd2 Hd).
  - intros d1 n d2 f C SP d3 _ _ (_ & _ & _ & HSP & Hd).
    pose proof (call_facts _ _ _ _ Hd). apply start_nodes in HSP. by apply HU.
  - intros C d3 eP eP' d4 fs HR _ Hap. by exists eP.
  - intros d1 c d2 f C SP d3 eP d4 fs n' d5 f5 (Hd1 & _)%universe_elem _ _ _ _ _ Hr.
    destruct Hr as [Ret d5 HR Hd]. apply HU; [done|by eapply ret_nodes|exact (ret_facts _ _ _ _ _ _ Hd)].
  - done.
  - done.
Qed.
End IterativeExample.

(** A function with two exits, of which one holds the fact 1 and the other
    returns it as the fact 2. *)
Module TwoExits.
Definition icfg : ICFG nat nat nat := {|
  getSuccsOf n := match n with 10 => [11; 12] | _ => [] end;
  isCallSite n := match n with 0 => true | _ => false end;
  isExitInst n := match n with 1 | 11 | 12 => true | _ => false end;
  isStartPoint n := match n with 0 | 10 => true | _ => false end;
  getFunctionOf n := match n with 10 | 11 | 12 => 1 | _ => 0 end;
  getStartPointsOf f := match f with 0 => [0] | 1 => [10] | _ => [] end;
  getCalleesOfCallAt n := match n with 0 => [1] | _ => [] end;
  getReturnSitesOfCallAt n := match n with 0 => [1] | _ => [] end;
  getCallersOf f := match f with 1 => [0] | _ => [] end;
  getCallsFromWithin f := match f with 0 => [0] | _ => [] end;
  allNonCallStartNodes := [1; 11; 12];
  getSparseNextUser := None
|}.

Definition extras : SolverExtras nat nat nat := {|
  getExitPointsOf f := match f with 0 => [1] | 1 => [11; 12] | _ => [] end;
  getAllInstructionsOf f := match f with 0 => [0; 1] | 1 => [10; 11; 12] | _ => [] end;
  getPredsOf n := match n with 1 => [0] | 11 | 12 => [10] | _ => [] end;
  advanceToNextUser := None;
  isInteresting := None;
  isNullSummaryEdgeFunction _ _ _ _ := false
|}.

Definition problem : IDETabulationProblem nat nat nat (LatticeDomain Z) (CoreEF Z) := {|
  getNormalFlowFunction _ n' d := if decide (n' = 11 ∧ d = 0) then {[0; 1]} else {[d]};
  getCallFlowFunction _ _ d := match d with 0 => {[0]} | _ => ∅ end;
  getRetFlowFunction _ _ eP _ d := if decide (eP = 12 ∧ d = 1) then {[2]} else ∅;
  getCallToRetFlowFunction _ _ _ d := {[d]};
  getSummaryFlowFunction _ _ := None;
  getNormalEdgeFunction _ _ _ _ := CIdentity;
  getCallEdgeFunction _ _ _ _ := CIdentity;
  getReturnEdgeFunction _ _ _ _ _ _ := CIdentity;
  getCallToRetEdgeFunction _ _ _ _ _ := CIdentity;
  getSummaryEdgeFunction _ _ _ _ := CIdentity;
  getZeroValue := 0;
  isZeroValue d := bool_decide (d = 0);
  initialSeeds := {[0 := {[0 := Bottom]}]};
  getIFDSIDESolverConfig := IFDSIDESolverConfig.default_config
|}.

(** The jump function of the fact 2 at the return site. *)
Definition iterative_fact (UseTab : bool) : option (CoreEF Z) :=
  (λ st, iter_Jf st 0 1 2) <$> dataflowFactPropagation icfg extras problem
    {| EnableJumpFunctionGC := Disabled; UseEndSummaryTab := UseTab |} 100.
Definition IDESolver_fact : option (CoreEF Z) :=
  (λ st, Jf st 0 1 2) <$> solveImpl icfg problem 100.
End TwoExits.

(** With the end-summary table, the iterative solver returns the fact of one
    exit through the other one; without it, and in the [IDESolver], it does not. *)
Example end_summary_table_merges_exits :
  TwoExits.iterative_fact true = Some CIdentity ∧
  TwoExits.iterative_fact false = Some CTop ∧
  TwoExits.IDESolver_fact = Some CTop.
Proof. vm_compute. auto. Qed.

Section witnesses.
Import Example ExampleFacts IterativeExample.
Local Open Scope phasar_scope.

Lemma iterative_least_solution_witness :
  iter_solution icfg extras problem IDESolverConfigBase (iter_Jf (phase1_of Disabled)) ∧
  iter_Jf (phase1_of Disabled) 0 3 3 = CConstant 5%Z.
Proof.
  split; [|vm_compute; reflexivity].
  refine (proj1 (iterative_least_solution icfg extras problem IDESolverConfigBase 100
    (phase1_of Disabled) eq_refl _)).
  left. exact (run_eq Disabled).
Defined.

Lemma gc_invents_no_jump_function_witness :
  iter_Jf (phase1_of Enabled) 0 3 3 ⊑ₑ iter_Jf (phase1_of Disabled) 0 3 3.
Proof.
  refine (gc_invents_no_jump_function icfg extras problem
    {| EnableJumpFunctionGC := Enabled; UseEndSummaryTab := true |} 100 (phase1_of Enabled) _
    (run_eq Enabled) _ 0 3 3).
  assert (iter_solution icfg extras problem IDESolverConfigBase (iter_Jf (phase1_of Disabled))) as Hs.
  { apply (finished_solution icfg extras problem IDESolverConfigBase).
    exact (dataflowFactPropagation_finished icfg extras problem IDESolverConfigBase eq_refl 100 _
             (run_eq Disabled)). }
  destruct Hs as [Hs Hl Hc Hr]. split; [exact Hs|exact Hl|exact Hc|exact Hr].
Defined.

Lemma iterative_phase_returns_witness :
  (∃ fuel st, ∀ fuel', fuel ≤ fuel' →
     dataflowFactPropagation icfg extras problem IDESolverConfigBase fuel' = Some st) ∧
  ∃ fuel st, Iterative.continueImpl icfg extras problem IDESolverConfigBase fuel
    (Iterative.doInitialize icfg extras problem IDESolverConfigBase initialState) = Some st.
Proof.
  exact (iterative_phase_returns icfg extras problem IDESolverConfigBase universe eq_refl run_finite).
Defined.

Lemma iterative_agrees_with_IDESolver_witness :
  iter_Jf (phase1_of Disabled) 0 3 3 = Jf phase1 0 3 3 ∧ Jf phase1 0 3 3 = CConstant 5%Z.
Proof.
  split; [|vm_compute; reflexivity].
  exact (proj2 (iterative_agrees_with_IDESolver icfg extras problem IDESolverConfigBase 100 100
    (phase1_of Disabled) phase1 run_comparable eq_refl (run_eq Disabled) phase1_eq) run_exits 0 3 3).
Defined.
End witnesses.
