(* ===== verification/IterativeIDESolverGC.v ===== *)
(** The garbage collector of the [IterativeIDESolver]: the reference counts say
    how many jobs of each function are pending, and functions with pending jobs are
    candidates ([refcount_exact]), in every state of the first phase;
    [getCollectableFunctions] finds exactly the candidates that have no pending jobs
    and call no candidate that has, directly or through candidates. *)
From S2P Require Import Prelude JoinLattice Table IDEProblem IDESolverAPIMixin IDESolver IDESolverEffects DefaultSemiRing IDESolverExample IterativeIDESolver IterativeIDESolverRules IterativeIDESolverCorrect.
Import Iterative.

(** * What the collector relies on: flows stay in their function *)

Class FunctionLaws {N D F} (ICF : ICFG N D F) (X : SolverExtras N D F) : Prop := {
  succ_function n n' : n' ∈ getSuccsOf ICF n → getFunctionOf ICF n' = getFunctionOf ICF n;
  return_site_function n n' :
    n' ∈ getReturnSitesOfCallAt ICF n → getFunctionOf ICF n' = getFunctionOf ICF n;
  start_point_function (C : F) SP : SP ∈ getStartPointsOf ICF C → getFunctionOf ICF SP = C;
  advance_function n d : getFunctionOf ICF (storeNode X n d) = getFunctionOf ICF n
}.

(** * Which functions are collected *)

Lemma sum_of_perm {A} (h : A → nat) l l' : l ≡ₚ l' → sum_of h l = sum_of h l'.
Proof. unfold sum_of. induction 1; simpl; lia. Qed.

(** A loop whose steps decrease a measure ends within the measure. *)
Lemma while_next_bound {S} (next : S → option S) (m : S → nat) s :
  (∀ s s', next s = Some s' → m s' < m s) → is_Some (while_next next (m s) s).
Proof.
  intros Hdec. assert (∀ k s, m s ≤ k → is_Some (while_next next k s)) as Hk; [|by apply Hk].
  clear s. intros k. induction k as [|k IH]; intros s Hle; simpl;
    destruct (next s) as [s'|] eqn:Hn; try (by eexists); apply Hdec in Hn; [lia|].
  apply IH. lia.
Qed.

Section collector.
Context {N D F L EF : Type} `{Countable N, Countable D, Countable F}.
Context (ICF : ICFG N D F).
Abbreviation St := (State N D F L EF).
Implicit Types (st : St).

Definition candidate st (Fun : F) : Prop := Fun ∈ CandidateFunctionsForGC st.
Definition live st (Fun : F) : Prop := default 0 (RefCountPerFunction st !! Fun) ≠ 0.

(** The functions that a candidate with pending jobs may still return to:
    along the call graph, through candidates. *)
Inductive kept_alive st : F → Prop :=
  | kept_caller_of_live C Fun :
      candidate st C → live st C → Fun ∈ callerFunctions ICF C → kept_alive st Fun
  | kept_caller_of_kept C Fun :
      candidate st C → kept_alive st C → Fun ∈ callerFunctions ICF C → kept_alive st Fun.

(** The invariant of the second loop of [getCollectableFunctions]. *)
Record collecting st (s : list F * gset F) : Prop := {
  co_list Fun : Fun ∈ s.1 → kept_alive st Fun;
  co_final Fun : Fun ∈ s.2 → candidate st Fun ∧ ¬ live st Fun;
  co_dropped Fun : candidate st Fun → ¬ live st Fun → Fun ∉ s.2 → kept_alive st Fun;
  co_callers C Fun : candidate st C → C ∉ s.2 → Fun ∈ callerFunctions ICF C → Fun ∈ s.1 ∨ Fun ∉ s.2
}.

Lemma initCandidates_spec st :
  let s := initCandidates ICF st in
  (∀ Fun, Fun ∈ s.1 ↔ ∃ C, candidate st C ∧ live st C ∧ Fun ∈ callerFunctions ICF C) ∧
  (∀ Fun, Fun ∈ s.2 ↔ candidate st Fun ∧ ¬ live st Fun).
Proof.
  cbv zeta. unfold initCandidates, candidate. setoid_rewrite <- (elem_of_elements (CandidateFunctionsForGC st)).
  apply (for_each_ind (λ l (s : list F * gset F),
    (∀ Fun, Fun ∈ s.1 ↔ ∃ C, C ∈ l ∧ live st C ∧ Fun ∈ callerFunctions ICF C) ∧
    (∀ Fun, Fun ∈ s.2 ↔ Fun ∈ l ∧ ¬ live st Fun))).
  - simpl. set_solver.
  - intros l1 C [wl S] _ [H1' H2']. simpl in *. unfold live in *. case_decide as Hl; simpl; split; intros Fun.
    + rewrite <- (exists_app_singleton l1 C (λ C, _ ∧ _)), elem_of_app, elem_of_reverse, H1'. tauto.
    + rewrite H2', elem_of_app, list_elem_of_singleton. naive_solver.
    + rewrite <- (exists_app_singleton l1 C (λ C, _ ∧ _)), H1'. tauto.
    + rewrite elem_of_union, elem_of_singleton, H2', elem_of_app, list_elem_of_singleton.
      naive_solver.
Qed.

Lemma initCandidates_collecting st : collecting st (initCandidates ICF st).
Proof.
  destruct (initCandidates_spec st) as [H1' H2']. split.
  - intros Fun (C & ? & ? & ?)%H1'. by eapply kept_caller_of_live.
  - intros Fun. apply H2'.
  - intros Fun Hc Hl Hn. destruct Hn. by apply H2'.
  - intros C Fun Hc Hn HF. left. apply H1'. exists C. split; [done|]. split; [|done].
    destruct (decide (default 0 (RefCountPerFunction st !! C) = 0)) as [Heq|]; [|done].
    destruct Hn. apply H2'. split; [done|]. intros Hl. by apply Hl.
Qed.

Lemma keepCallers_collecting st s s' :
  keepCallers ICF s = Some s' → collecting st s → collecting st s'.
Proof.
  destruct s as [[|x wl] S]; simpl; [done|]. intros Hk [H1' H2' H3' H4'].
  assert (kept_alive st x) as Hx by (apply H1'; set_solver).
  case_decide as Hin; injection Hk as <-; split; simpl in *.
  - intros Fun. rewrite elem_of_app, elem_of_reverse. intros [Hr|HF]; [|apply H1'; set_solver].
    apply (kept_caller_of_kept st x); [by apply H2'|done..].
  - intros Fun. set_solver.
  - intros Fun Hc Hl Hn. destruct (decide (Fun = x)) as [->|]; [done|]. apply H3'; set_solver.
  - intros C Fun Hc Hn HF. destruct (decide (C = x)) as [->|Hne].
    + left. apply elem_of_app. left. by apply elem_of_reverse.
    + destruct (H4' C Fun Hc) as [[->|?]%elem_of_cons|?]; [set_solver|done| |left; set_solver|];
        right; set_solver.
  - intros Fun HF. apply H1'. set_solver.
  - done.
  - done.
  - intros C Fun Hc Hn HF. destruct (H4' C Fun Hc Hn HF) as [[->|?]%elem_of_cons|?]; auto.
Qed.

Lemma keepCallers_bound_lt s s' :
  keepCallers ICF s = Some s' → keepCallers_bound ICF s' < keepCallers_bound ICF s.
Proof.
  destruct s as [[|x wl] S]; simpl; [done|]. unfold keepCallers_bound.
  case_decide as Hin; intros [= <-]; cbn [fst snd length]; [|lia].
  rewrite length_app, length_reverse.
  rewrite (sum_of_perm _ (elements S) (x :: elements (S ∖ {[x]}))); [simpl; lia|].
  rewrite (union_difference_singleton_L x S) at 1 by done.
  apply elements_union_singleton. set_solver.
Qed.

Lemma getCollectableFunctions_loop st :
  ∃ S, getCollectableFunctions ICF st = S ∧ collecting st ([], S).
Proof.
  unfold getCollectableFunctions. cbv zeta.
  destruct (while_next_bound (keepCallers ICF) (keepCallers_bound ICF) (initCandidates ICF st)
    keepCallers_bound_lt) as [[wl S] Hw].
  rewrite Hw. exists S. split; [done|].
  apply (while_next_inv _ (collecting st)) in Hw as [Hc Hn];
    [|intros; by eapply keepCallers_collecting|apply initCandidates_collecting].
  destruct wl; [done|]. simpl in Hn. by case_decide.
Qed.

(** C14: the functions that the collector removes are exactly the candidates that
    have no pending jobs and do not call a candidate that has some, neither directly
    nor through a chain of calls between candidates. *)
Theorem collectable_functions_exact st Fun :
  Fun ∈ getCollectableFunctions ICF st ↔
  candidate st Fun ∧ ¬ live st Fun ∧ ¬ kept_alive st Fun.
Proof.
  destruct (getCollectableFunctions_loop st) as (S & -> & [_ H2' H3' H4']). simpl in *. split.
  - intros HF. destruct (H2' Fun HF) as [Hc Hl]. split; [done|]. split; [done|].
    intros Hk. revert HF. induction Hk as [C Fun HC HL HF|C Fun HC _ IH HF]; intros HS.
    + destruct (H4' C Fun HC) as [?%elem_of_nil|?]; [|done..]. intros HCS. by apply H2' in HCS as [_ ?].
    + destruct (H4' C Fun HC) as [?%elem_of_nil|?]; [|done..]. intros HCS.
      destruct (H2' C HCS). by apply IH.
  - intros (Hc & Hl & Hk). destruct (decide (Fun ∈ S)) as [|Hn]; [done|].
    by destruct Hk; apply H3'.
Qed.
End collector.

(** * The reference counts *)

Section refcount.
Context {N D F L EF : Type} `{Countable N, Countable D, Countable F}.
Context `{EqDecision EF, EqDecision L, JoinLatticeTraits L, !SemiRing L EF}.
Context (ICF : ICFG N D F) (X : SolverExtras N D F) `{!FunctionLaws ICF X}.
Context (P : IDETabulationProblem N D F L EF) (Config : StaticSolverConfig).
Context (HGC : GCEnabled Config = true).
Abbreviation St := (State N D F L EF).
Implicit Types (st : St).

(** The pending jobs of a function. *)
Definition pending_of (Fun : F) (wl : list (PropagationJob N D EF)) : nat :=
  length (filter (λ x, getFunctionOf ICF (AtInstruction x) = Fun) wl).

Definition refcount st (Fun : F) : nat := default 0 (RefCountPerFunction st !! Fun).

(** The count of a function is the number of its pending jobs; a function with
    pending jobs is a candidate. *)
Record refcount_exact st : Prop := {
  re_count Fun : refcount st Fun = pending_of Fun (WorkList st);
  re_candidate Fun : 0 < refcount st Fun → Fun ∈ CandidateFunctionsForGC st
}.

Lemma pending_of_cons Fun x wl :
  pending_of Fun (x :: wl) =
  (if decide (getFunctionOf ICF (AtInstruction x) = Fun) then 1 else 0) + pending_of Fun wl.
Proof. unfold pending_of. rewrite filter_cons. by case_decide. Qed.

Lemma exact_frame st st' :
  RefCountPerFunction st' = RefCountPerFunction st → WorkList st' = WorkList st →
  CandidateFunctionsForGC st' = CandidateFunctionsForGC st →
  refcount_exact st → refcount_exact st'.
Proof. intros Hr Hw Hc [H1' H2']. unfold refcount in *. split; intros Fun; unfold refcount; rewrite Hr, ?Hw, ?Hc; auto. Qed.

Lemma set_exact n d v st : refcount_exact st → refcount_exact (set ICF X Config n d v st).
Proof. unfold set. case_match; [done|]. apply exact_frame; by destruct st. Qed.

Lemma push_exact n x Fun st :
  getFunctionOf ICF n = Fun → AtInstruction x = n → refcount_exact st →
  refcount_exact (countJob Config Fun (set_WorkList (cons x) st)).
Proof.
  intros HF Hx [He Hc]. unfold countJob. rewrite HGC. unfold refcount in *. split; intros Fun'; specialize (He Fun');
    specialize (Hc Fun'); destruct st; simpl in *; unfold refcount in *; simpl in *.
  - rewrite pending_of_cons, Hx, HF. case_decide as Heq.
    + rewrite <- Heq in *. rewrite lookup_insert_eq. simpl. lia.
    + rewrite lookup_insert_ne by done. lia.
  - destruct (decide (Fun = Fun')) as [->|Hne]; [set_solver|]. rewrite lookup_insert_ne by done. set_solver.
Qed.

Lemma store_exact n d1 d2 Fun f st :
  getFunctionOf ICF n = Fun → refcount_exact st →
  refcount_exact (store ICF X Config n d1 d2 Fun f st).
Proof.
  intros HF He. unfold store, storeResultsAndPropagate.
  assert (getFunctionOf ICF (storeNode X n d2) = Fun) as HF' by by rewrite advance_function.
  destruct (isAllTop f); [done|].
  destruct (Table.lookup _ _ _); [case_decide; [|done]|]; cbn [snd].
  - apply (push_exact (storeNode X n d2)); [done..|]. apply (exact_frame st); [by destruct st..|done].
  - unfold countJob. rewrite HGC.
    set (st1 := set_JumpFunctions _ st).
    assert (refcount_exact st1) as He1 by (apply (exact_frame st); [by destruct st..|done]).
    pose proof (push_exact _ (mkPropagationJob f (storeNode X n d2) d1 d2) Fun st1 HF' eq_refl He1) as Hp.
    unfold countJob in Hp. rewrite HGC in Hp. unfold set.
    case_match; [exact Hp|]. revert Hp. apply exact_frame; by destruct st1.
Qed.

Lemma saveEdges_exact a b c T K st : refcount_exact st → refcount_exact (saveEdges a b c T K st).
Proof. apply exact_frame; by destruct st. Qed.

Lemma exact_for_each {A} (l : list A) (body : A → St → St) st :
  (∀ x st', x ∈ l → refcount_exact st' → refcount_exact (body x st')) →
  refcount_exact st → refcount_exact (for_each l body st).
Proof. intros Hb He. by apply for_each_inv. Qed.

(** Loops that save edges and store inside one function. *)
Ltac exact_loop :=
  repeat (apply exact_for_each; intros; cbv zeta; try apply saveEdges_exact; try done);
  try (apply store_exact; [|done]).

Lemma applyCallToReturnFlow_exact n d1 d2 f Cs b st :
  refcount_exact st → refcount_exact (applyCallToReturnFlow ICF X P Config n d1 d2 f Cs b st).
Proof. unfold applyCallToReturnFlow. cbv zeta. intros He. exact_loop. by apply return_site_function. Qed.

Lemma applySummaryFlow_exact Facts n d1 d2 f st :
  refcount_exact st → refcount_exact (applySummaryFlow ICF X P Config Facts n d1 d2 f st).
Proof. unfold applySummaryFlow. cbv zeta. intros He. exact_loop. by apply return_site_function. Qed.

Lemma propagateProcedureSummaries_exact Ss c C eP d1 e st :
  refcount_exact st →
  refcount_exact (propagateProcedureSummaries ICF X P Config Ss c C eP d1 (getFunctionOf ICF c) e st).
Proof. unfold propagateProcedureSummaries. intros He. exact_loop. by apply return_site_function. Qed.

Lemma getOrCreateSummaries_exact C d st :
  refcount_exact st → refcount_exact (getOrCreateSummaries C d st).2.
Proof. apply exact_frame; by destruct st. Qed.

Lemma readSummaries_exact C d st :
  refcount_exact st → refcount_exact (readSummaries Config C d st).2.
Proof.
  intros He. unfold readSummaries. case_match; [|done].
  pose proof (getOrCreateSummaries_exact C d st He) as Hg.
  by destruct (getOrCreateSummaries C d st).
Qed.

Lemma applyEarlySummariesAtCall_exact c C d3 d1 e st :
  refcount_exact st → refcount_exact (applyEarlySummariesAtCall ICF X P Config c C d3 d1 e st).
Proof.
  intros He. unfold applyEarlySummariesAtCall. cbv zeta.
  pose proof (readSummaries_exact C d3 st He) as Hr.
  destruct (readSummaries Config C d3 st) as [Ss st1]. apply exact_for_each; [|done].
  intros. case_decide; [|done]. by apply propagateProcedureSummaries_exact.
Qed.

Lemma processInterJob_exact k st :
  refcount_exact st → refcount_exact (processInterJob ICF X P Config k st).
Proof.
  intros He. destruct k as [d C]. unfold processInterJob. cbv zeta.
  pose proof (readSummaries_exact C d st He) as Hr.
  destruct (readSummaries Config C d st) as [Ss st1]. apply exact_for_each; [|done].
  intros. apply exact_for_each; [|done]. intros. by apply propagateProcedureSummaries_exact.
Qed.

Lemma registerJob_exact j st : refcount_exact st → refcount_exact (registerJob ICF X P Config j st).
Proof.
  intros He. unfold registerJob. case_decide; [done|]. cbv zeta.
  set (st1 := set_AllInterPropagations _ st).
  assert (refcount_exact st1) as He1 by (apply (exact_frame st); [by destruct st..|done]).
  pose proof (applyEarlySummariesAtCall_exact (CallSite j) (Callee j) (FactInCallee j)
    (SourceFact j) (SourceEF j) st1 He1) as He2.
  set (st2 := applyEarlySummariesAtCall _ _ _ _ _ _ _ _ _ st1) in *.
  apply (exact_frame st2); [by destruct st2..|done].
Qed.

Lemma applyIntraCallFlow_exact n d1 d2 f st :
  refcount_exact st → refcount_exact (applyIntraCallFlow ICF X P Config n d1 d2 f st).
Proof.
  intros He. unfold applyIntraCallFlow. cbv zeta.
  assert (refcount_exact (handleOrDeferCallFlow ICF X P Config n d1 d2 f
    (getCalleesOfCallAt ICF n) st).2) as He1.
  { apply (for_each_inv (λ bst : bool * St, refcount_exact bst.2)); [done|].
    intros C bst _ Hb. unfold handleOrDeferCallee. case_match; [by apply applySummaryFlow_exact|].
    unfold deferCallFlow. cbv zeta. cbn [snd]. exact_loop.
    apply registerJob_exact, store_exact; [|done]. by apply start_point_function. }
  destruct (handleOrDeferCallFlow _ _ _ _ _ _ _ _ _ st) as [b st1].
  by apply applyCallToReturnFlow_exact.
Qed.

Lemma applyNormalFlow_exact n d1 d2 f st :
  refcount_exact st → refcount_exact (applyNormalFlow ICF X P Config n d1 d2 f st).
Proof.
  intros He. unfold applyNormalFlow. cbv zeta. set (st1 := for_each _ _ st).
  assert (refcount_exact st1) as He1 by (unfold st1; exact_loop; by apply succ_function).
  destruct (isExitInst ICF n); [|done]. set (st2 := set_CallWL _ st1).
  assert (refcount_exact st2) as He2 by (apply (exact_frame st1); [by destruct st1..|done]).
  destruct (UseEndSummaryTab Config); [|done].
  pose proof (getOrCreateSummaries_exact (getFunctionOf ICF n) d1 st2 He2) as He3.
  destruct (getOrCreateSummaries (getFunctionOf ICF n) d1 st2) as [m st3]. cbn [snd] in He3.
  apply (exact_frame st3); [by destruct st3..|done].
Qed.

(** Popping a job decrements the count of its function, which is not zero. *)
Lemma popJob_exact st st' :
  popJob ICF X P Config st = Some st' → refcount_exact st →
  refcount_exact st' ∧
  ∃ x wl, WorkList st = x :: wl ∧ 0 < refcount st (getFunctionOf ICF (AtInstruction x)).
Proof.
  unfold popJob. intros Hpop He. destruct (WorkList st) as [|x wl] eqn:HW; [done|].
  injection Hpop as <-. split.
  2:{ exists x, wl. split; [done|]. rewrite (re_count _ He), HW, pending_of_cons, decide_True by done. lia. }
  unfold propagate. cbv zeta. rewrite HGC. set (st1 := set_RefCount _ _).
  assert (refcount_exact st1) as He1.
  { destruct He as [He Hc]. split; intros Fun; specialize (He Fun); specialize (Hc Fun); unfold refcount in *;
      unfold st1; destruct st; simpl in *; unfold refcount; simpl.
    - rewrite HW, pending_of_cons in He. case_decide as Heq.
      + rewrite <- Heq in *. rewrite lookup_insert_eq. simpl. lia.
      + rewrite lookup_insert_ne by done. lia.
    - rewrite lookup_insert. case_decide as Heq; [|done]. subst Fun. simpl. intros Hlt. apply Hc. lia. }
  unfold applyFlowFunction. case_match; [by apply applyNormalFlow_exact|by apply applyIntraCallFlow_exact].
Qed.

Lemma collectFunction_exact Fun st :
  refcount st Fun = 0 → refcount_exact st →
  refcount_exact (collectFunction ICF X Fun st)
  ∧ RefCountPerFunction (collectFunction ICF X Fun st) = RefCountPerFunction st.
Proof.
  intros H0' He. unfold collectFunction. cbv zeta.
  assert (refcount_exact (for_each (getAllInstructionsOf X Fun) (removeJumpFunctionsFor ICF X) st)
    ∧ RefCountPerFunction (for_each (getAllInstructionsOf X Fun) (removeJumpFunctionsFor ICF X) st)
      = RefCountPerFunction st) as [He1 Hr1].
  { apply (for_each_inv (λ st1, refcount_exact st1 ∧ RefCountPerFunction st1 = RefCountPerFunction st)); [done|].
    intros n st1 _ [He1 Hr1]. unfold removeJumpFunctionsFor.
    case_match; [done|]. split; [apply (exact_frame st1); [by destruct st1..|done]|by destruct st1]. }
  set (st1 := for_each _ _ st) in *. split; [|by destruct st1]. destruct He1 as [He1 Hc1].
  assert (refcount st1 Fun = 0) as H1' by (unfold refcount; by rewrite Hr1).
  split; intros Fun'; [specialize (He1 Fun'); by destruct st1|]. specialize (Hc1 Fun'). clearbody st1.
  destruct (decide (Fun' = Fun)) as [->|Hne]; [destruct st1; unfold refcount in *; simpl in *; lia|].
  destruct st1; unfold refcount in *; simpl in *. set_solver.
Qed.

(** Only functions without pending jobs are collected. *)
Lemma runGC_exact st : refcount_exact st → refcount_exact (runGC ICF X Config st).
Proof.
  intros He. unfold runGC. rewrite HGC. destruct (getCollectableFunctions_loop ICF st) as (S' & -> & [_ H2' _ _]).
  simpl in H2'. apply (for_each_inv (λ st1, refcount_exact st1 ∧ RefCountPerFunction st1 = RefCountPerFunction st)); [done|].
  intros Fun st1 Hin%elem_of_elements [He1 Hr1]. destruct (H2' Fun Hin) as [_ Hl].
  destruct (collectFunction_exact Fun st1) as [He2 Hr2]; [|done|by rewrite Hr2].
  unfold live in Hl. unfold refcount. rewrite Hr1. lia.
Qed.

Lemma round_exact st :
  refcount_exact st → refcount_exact (runGC ICF X Config (processInterJobs ICF X P Config st)).
Proof.
  intros He. assert (refcount_exact (processInterJobs ICF X P Config st)) as He1.
  { unfold processInterJobs. cbv zeta. apply exact_for_each; [intros; by apply processInterJob_exact|].
    apply (exact_frame st); [by destruct st..|done]. }
  by apply runGC_exact.
Qed.

Lemma doNext_exact st b st' :
  Iterative.doNext ICF X P Config st = (b, st') → refcount_exact st → refcount_exact st'.
Proof.
  unfold Iterative.doNext. intros Hn He. cbv zeta in Hn.
  repeat case_match; injection Hn as <- <-; try by eapply popJob_exact.
  - eapply popJob_exact; [done|]. by apply round_exact.
  - by apply round_exact.
Qed.

Lemma doInitialize_exact : refcount_exact (Iterative.doInitialize ICF X P Config initialState).
Proof.
  unfold Iterative.doInitialize, Iterative.submitInitialSeeds.
  apply exact_for_each; [|split; intros Fun; [done|]; intros Hlt; unfold refcount in Hlt; simpl in Hlt; rewrite lookup_empty in Hlt; simpl in Hlt; lia]. intros [SP Facts] st1 HSP Hs1.
  apply exact_for_each; [|done]. intros [d v] st2 Hd Hs2. by apply store_exact.
Qed.

(** The states of the first phase, driven step by step. *)
Inductive iter_reachable : St → Prop :=
  | reach_init : iter_reachable (Iterative.doInitialize ICF X P Config initialState)
  | reach_next st b st' :
      iter_reachable st → Iterative.doNext ICF X P Config st = (b, st') → iter_reachable st'.

Lemma reachable_exact st : iter_reachable st → refcount_exact st.
Proof.
  induction 1 as [|st b st' _ IH Hn]; [apply doInitialize_exact|by eapply doNext_exact].
Qed.

(** C13: with a garbage collector, in every state the first phase comes to, the
    reference count of a function is the number of its jobs on the work list, and a
    function with such jobs is a candidate for the collector, which therefore takes
    its callers into account. So the counts are all zero when the work list is empty
    (the sanity check of [performDataflowFactPropagation] never fires), and the count
    that [propagate] decrements is positive. *)
Theorem reference_counts_are_exact st :
  iter_reachable st →
  (∀ Fun, refcount st Fun = pending_of Fun (WorkList st)) ∧
  (∀ Fun, 0 < pending_of Fun (WorkList st) → Fun ∈ CandidateFunctionsForGC st) ∧
  (WorkList st = [] → ∀ Fun, refcount st Fun = 0) ∧
  (∀ x wl, WorkList st = x :: wl → 0 < refcount st (getFunctionOf ICF (AtInstruction x))).
Proof.
  intros [Hr Hc]%reachable_exact. split; [done|]. split; [intros Fun; rewrite <- Hr; apply Hc|]. split.
  - intros HW Fun. by rewrite Hr, HW.
  - intros x wl HW. rewrite Hr, HW, pending_of_cons, decide_True by done. lia.
Qed.
End refcount.

(** * The example *)

Section witness.
Import Example ExampleFacts IterativeExample.

#[local] Instance example_functions : FunctionLaws icfg extras.
Proof.
  split.
  - intros n n'. do 11 (destruct n as [|n]; [simpl; try (intros ->%list_elem_of_singleton; done);
      intros ?%elem_of_nil; done|]). simpl. by intros ?%elem_of_nil.
  - intros n n'. do 3 (destruct n as [|n]; [simpl; try (intros ->%list_elem_of_singleton; done);
      intros ?%elem_of_nil; done|]). simpl. by intros ?%elem_of_nil.
  - intros C SP HSP. by apply (start_function C SP).
  - done.
Qed.

Definition gc_config : StaticSolverConfig :=
  {| EnableJumpFunctionGC := Enabled; UseEndSummaryTab := true |}.

Lemma reference_counts_are_exact_witness :
  refcount (Iterative.doInitialize icfg extras problem gc_config initialState) 0 =
  pending_of icfg 0 (WorkList (Iterative.doInitialize icfg extras problem gc_config initialState)).
Proof.
  exact (proj1 (reference_counts_are_exact icfg extras problem gc_config eq_refl _
    (reach_init icfg extras problem gc_config)) 0).
Defined.
End witness.
