(* ===== verification/IterativeIDESolverSolve.v ===== *)
(** The second phase of the [IterativeIDESolver]: propagation of values from the
    seeds along the calls ([propagateValue]) and the values of the other
    instructions ([computeValues]).

    A job of the work list carries a value, and [propagateValue] passes on this
    value, not the joined one that it stores. The values are nevertheless those
    of the value rules ([iter_value_solution]) when edge functions distribute
    over joins: what the stored part of a joined value has to contribute was put
    on the work list earlier ([covers]).

    Both phases of the [IterativeIDESolver] together: the values [solve]
    computes, and that it returns. The witnesses run it on the program of
    [IDESolverExample]. *)
From S2P Require Import Prelude JoinLattice Table IDEProblem DefaultSemiRing IDESolverAPIMixin IDESolver.
From S2P Require Import IDESolverEffects IDESolverFixpoint IDESolverPaths IDESolverValues IterativeIDESolver.
From S2P Require Import IterativeIDESolverRules IterativeIDESolverComplete IterativeIDESolverPhase1.
From S2P Require Import IDESolverExample IDESolverCorrect IterativeIDESolverCorrect.
Import Iterative.

(** Edge functions distribute over joins and are ordered pointwise. *)
Class EvaluationLaws (L EF : Type) `{JoinLatticeTraits L, SemiRing L EF} : Prop := {
  computeTarget_join (f : EF) (x y : L) :
    computeTarget f (join x y) = join (computeTarget f x) (computeTarget f y);
  computeTarget_le (f g : EF) (x : L) :
    ef_le f g → lat_le (computeTarget f x) (computeTarget g x)
}.

#[export] Instance CoreEF_evaluation {A} `{EqDecision A} :
  EvaluationLaws (LatticeDomain A) (CoreEF A).
Proof.
  split.
  - intros f x y. destruct f; [done|symmetry; apply (join_idemp (L := LatticeDomain A))..].
  - intros f g x. unfold ef_le. rewrite combine_core.
    destruct f, g; intros Hle; repeat case_decide; simplify_eq;
      first [apply (lat_le_top (L := LatticeDomain A)) | apply (join_idemp (L := LatticeDomain A)) | idtac].
    all: unfold lat_le; simpl; rewrite join_flat; by destruct x.
Qed.

(** * The first phase leaves values alone *)

Section frame.
Context {N D F L EF : Type} `{Countable N, Countable D, Countable F}.
Context `{EqDecision EF, EqDecision L, JoinLatticeTraits L, !SemiRing L EF, !SemiRingLaws L EF}.
Context (ICF : ICFG N D F) (X : SolverExtras N D F).
Context (P : IDETabulationProblem N D F L EF) (Config : StaticSolverConfig).
Abbreviation St := (State N D F L EF).
Abbreviation Job := (InterPropagationJob N D F EF).
Implicit Types (st : St) (j : Job).
Local Open Scope phasar_scope.

(** The jobs found by the source fact and the call site. *)
Definition calls_of st (d : D) (c : N) : list Job :=
  default [] (SourceFactAndCSToInterJob st !! (d, c)).

(** The two indices of jobs hold the same jobs. *)
Definition calls_indexed st : Prop :=
  ∀ d c j, j ∈ calls_of st d c ↔
    j ∈ jobs_of st (FactInCallee j) (Callee j) ∧ SourceFact j = d ∧ CallSite j = c.

Definition no_values (T : Table N D L) : Prop := ∀ n d, vval T n d = top.

Record ready st : Prop := {
  rd_values : no_values (ValTab st);
  rd_prop : WLProp st = [];
  rd_comp : WLComp st = ∅;
  rd_calls : calls_indexed st
}.

Definition keeps st st' : Prop := ready st → ready st'.

#[export] Instance keeps_preorder : PreOrder keeps.
Proof. split; unfold keeps; [by intros st | intros st1 st2 st3; auto]. Qed.

(** Operations on the other fields. *)
Lemma keeps_same st st' :
  ValTab st' = ValTab st → WLProp st' = WLProp st → WLComp st' = WLComp st →
  SourceFactAndFuncToInterJob st' = SourceFactAndFuncToInterJob st →
  SourceFactAndCSToInterJob st' = SourceFactAndCSToInterJob st → keeps st st'.
Proof.
  intros HV HP HC HF HJ [Rv Rp Rc Rj]. split; [by rewrite HV|by rewrite HP|by rewrite HC|].
  intros d c j. unfold calls_of, jobs_of. rewrite HF, HJ. apply Rj.
Qed.

Lemma keeps_saveEdges a b c T K st : keeps st (saveEdges a b c T K st).
Proof. apply keeps_same; by destruct st. Qed.
Lemma keeps_JumpFunctions f st : keeps st (set_JumpFunctions f st).
Proof. apply keeps_same; by destruct st. Qed.
Lemma keeps_WorkList f st : keeps st (set_WorkList f st).
Proof. apply keeps_same; by destruct st. Qed.
Lemma keeps_CallWL f st : keeps st (set_CallWL f st).
Proof. apply keeps_same; by destruct st. Qed.
Lemma keeps_EndSummaryTab f st : keeps st (set_EndSummaryTab f st).
Proof. apply keeps_same; by destruct st. Qed.
Lemma keeps_AllInterPropagations f st : keeps st (set_AllInterPropagations f st).
Proof. apply keeps_same; by destruct st. Qed.
Lemma keeps_RefCount f st : keeps st (set_RefCount f st).
Proof. apply keeps_same; by destruct st. Qed.
Lemma keeps_countJob Fun st : keeps st (countJob Config Fun st).
Proof. unfold countJob. case_match; [|done]. apply keeps_same; by destruct st. Qed.

Lemma keeps_set n d st : keeps st (set ICF X Config n d top st).
Proof.
  unfold set. case_match; [done|]. intros [Rv Rp Rc Rj]. destruct st. split; try done.
  intros n' d'. simpl. rewrite vval_insert. destruct (decide _); [done|apply Rv].
Qed.

Lemma keeps_store n d1 d2 Fun f st : keeps st (store ICF X Config n d1 d2 Fun f st).
Proof.
  unfold store, storeResultsAndPropagate. cbv zeta. repeat case_match; simpl; try done.
  - etransitivity; [|apply keeps_countJob]. etransitivity; [|apply keeps_WorkList].
    apply keeps_JumpFunctions.
  - etransitivity; [|apply keeps_countJob]. etransitivity; [|apply keeps_set].
    etransitivity; [|apply keeps_WorkList]. apply keeps_JumpFunctions.
Qed.

Lemma keeps_for_each {A} (l : list A) (body : A → St → St) st :
  (∀ x st', x ∈ l → keeps st' (body x st')) → keeps st (for_each l body st).
Proof. apply for_each_rel. apply _. Qed.

Lemma keeps_readSummaries C d st : keeps st (readSummaries Config C d st).2.
Proof.
  unfold readSummaries, getOrCreateSummaries. case_match; [|done]. simpl. apply keeps_EndSummaryTab.
Qed.
End frame.

#[local] Hint Resolve keeps_saveEdges keeps_store keeps_CallWL keeps_EndSummaryTab : keeps.

(** Loops of saved edges and stores. *)
Ltac keeps_loop :=
  repeat first
    [ solve [auto 2 with keeps]
    | apply keeps_for_each; intros; cbv zeta
    | etransitivity; [apply keeps_saveEdges|] ].

Section frame_ops.
Context {N D F L EF : Type} `{Countable N, Countable D, Countable F}.
Context `{EqDecision EF, EqDecision L, JoinLatticeTraits L, !SemiRing L EF, !SemiRingLaws L EF}.
Context (ICF : ICFG N D F) (X : SolverExtras N D F).
Context (P : IDETabulationProblem N D F L EF) (Config : StaticSolverConfig).
Abbreviation St := (State N D F L EF).
Abbreviation Job := (InterPropagationJob N D F EF).
Implicit Types (st : St) (j : Job).

Lemma keeps_applyNormalFlow n d1 d2 f st :
  keeps st (applyNormalFlow ICF X P Config n d1 d2 f st).
Proof.
  unfold applyNormalFlow. cbv zeta. set (st1 := for_each _ _ st).
  assert (keeps st st1) as H1' by (unfold st1; keeps_loop). transitivity st1; [done|].
  case_match; [|done]. etransitivity; [apply keeps_CallWL|]. case_match; [|done].
  unfold getOrCreateSummaries. etransitivity; [apply keeps_EndSummaryTab|]. apply keeps_EndSummaryTab.
Qed.

Lemma keeps_propagateProcedureSummaries Summaries c C eP d1 Caller e st :
  keeps st (propagateProcedureSummaries ICF X P Config Summaries c C eP d1 Caller e st).
Proof. unfold propagateProcedureSummaries. keeps_loop. Qed.

Lemma keeps_applyEarlySummariesAtCall n C d d1 e st :
  keeps st (applyEarlySummariesAtCall ICF X P Config n C d d1 e st).
Proof.
  unfold applyEarlySummariesAtCall. cbv zeta.
  pose proof (keeps_readSummaries Config C d st) as Hr.
  destruct (readSummaries _ _ _ st) as [S st1]. simpl in Hr. transitivity st1; [done|].
  apply keeps_for_each. intros. case_decide; [|done]. apply keeps_propagateProcedureSummaries.
Qed.

(** A registered job enters both indices. *)
Lemma keeps_registerJob j st : keeps st (registerJob ICF X P Config j st).
Proof.
  unfold registerJob. case_decide; [done|]. cbv zeta.
  etransitivity; [apply (keeps_AllInterPropagations (cons j))|].
  etransitivity; [apply (keeps_applyEarlySummariesAtCall (CallSite j) (Callee j) (FactInCallee j)
    (SourceFact j) (SourceEF j))|].
  set (st1 := applyEarlySummariesAtCall _ _ _ _ _ _ _ _ _ _).
  intros [Rv Rp Rc Rj]. set (st2 := set_CSJobs _ _).
  assert (∀ d C, jobs_of st2 d C = default [] (<[(FactInCallee j, Callee j) :=
    j :: jobs_of st1 (FactInCallee j) (Callee j)]> (SourceFactAndFuncToInterJob st1) !! (d, C)))
    as HF by (intros; by destruct st1).
  assert (∀ d c, calls_of st2 d c = default [] (<[(SourceFact j, CallSite j) :=
    j :: calls_of st1 (SourceFact j) (CallSite j)]> (SourceFactAndCSToInterJob st1) !! (d, c)))
    as HJ by (intros; by destruct st1).
  assert (∀ d c j', j' ∈ calls_of st2 d c ↔
    (j' = j ∧ SourceFact j = d ∧ CallSite j = c) ∨ j' ∈ calls_of st1 d c) as HJ2.
  { intros d c j'. rewrite HJ.
    destruct (decide ((SourceFact j, CallSite j) = (d, c))) as [[= <- <-]|Hne].
    - rewrite lookup_insert_eq. simpl. rewrite elem_of_cons. tauto.
    - rewrite lookup_insert_ne by done. split; [by right|]. intros [(_ & <- & <-)|?]; [done|done]. }
  assert (∀ j', j' ∈ jobs_of st2 (FactInCallee j') (Callee j') ↔
    j' = j ∨ j' ∈ jobs_of st1 (FactInCallee j') (Callee j')) as HF2.
  { intros j'. rewrite HF.
    destruct (decide ((FactInCallee j, Callee j) = (FactInCallee j', Callee j'))) as [[= Hd HC]|Hne].
    - rewrite Hd, HC, lookup_insert_eq. simpl. rewrite elem_of_cons. tauto.
    - rewrite lookup_insert_ne by done. split; [by right|]. intros [->|?]; [done|done]. }
  assert (ValTab st2 = ValTab st1 ∧ WLProp st2 = WLProp st1 ∧ WLComp st2 = WLComp st1) as (HV & HP & HC)
    by by destruct st1.
  split; [by rewrite HV|by rewrite HP|by rewrite HC|].
  intros d c j'. rewrite HJ2, HF2, (Rj d c j'). naive_solver.
Qed.

Lemma keeps_popJob st st' : popJob ICF X P Config st = Some st' → keeps st st'.
Proof.
  unfold popJob. case_match eqn:HW; intros [= <-]. unfold propagate. cbv zeta.
  set (st1 := if GCEnabled Config then _ else _).
  assert (keeps st st1) as Hk.
  { etransitivity; [apply (keeps_WorkList (λ _, l))|].
    unfold st1. case_match; [apply keeps_RefCount|done]. }
  transitivity st1; [done|]. unfold applyFlowFunction. case_match; [apply keeps_applyNormalFlow|].
  unfold applyIntraCallFlow. cbv zeta. rewrite (surjective_pairing (handleOrDeferCallFlow _ _ _ _ _ _ _ _ _ st1)).
  transitivity (handleOrDeferCallFlow ICF X P Config (AtInstruction p) (pj_SourceFact p)
    (PropagatedFact p) (pj_SourceEF p) (getCalleesOfCallAt ICF (AtInstruction p)) st1).2.
  - unfold handleOrDeferCallFlow.
    apply (for_each_inv (λ bst : bool * St, keeps st1 bst.2)); [done|].
    intros C [b st2] _ Hst. transitivity st2; [done|]. unfold handleOrDeferCallee. simpl.
    case_match; simpl.
    + unfold applySummaryFlow. keeps_loop.
    + apply keeps_for_each. intros SP st3 _. etransitivity; [apply keeps_saveEdges|].
      apply keeps_for_each. intros d st4 _. etransitivity; [apply keeps_store|]. apply keeps_registerJob.
  - unfold applyCallToReturnFlow. keeps_loop.
Qed.

Lemma keeps_processInterJobs st : keeps st (processInterJobs ICF X P Config st).
Proof.
  unfold processInterJobs. cbv zeta. etransitivity; [apply keeps_CallWL|]. apply keeps_for_each.
  intros [d C] st1 _. unfold processInterJob. pose proof (keeps_readSummaries Config C d st1) as Hr.
  destruct (readSummaries _ _ _ st1) as [S st2]. simpl in Hr. transitivity st2; [done|].
  apply keeps_for_each. intros. cbv zeta. apply keeps_for_each. intros.
  apply keeps_propagateProcedureSummaries.
Qed.

Lemma doInitialize_ready : ready (Iterative.doInitialize ICF X P Config initialState).
Proof.
  assert (keeps initialState (Iterative.doInitialize ICF X P Config initialState)) as Hk.
  { unfold Iterative.doInitialize, submitInitialSeeds.
    apply keeps_for_each. intros [n S] st1 _. apply keeps_for_each. intros [d l] st2 _. apply keeps_store. }
  apply Hk. split; [|done..|].
  - intros n d. unfold vval. simpl. by rewrite table_lookup_empty.
  - intros d c j. unfold calls_of, jobs_of. simpl. rewrite !lookup_empty. simpl. set_solver.
Qed.

Lemma rounds_keeps fuel st st' :
  EnableJumpFunctionGC Config = Disabled → rounds ICF X P Config fuel st = Some st' → keeps st st'.
Proof.
  intros HGC. revert st.
  assert (∀ fuel0 st st1, while_next (popJob ICF X P Config) fuel0 st = Some st1 → keeps st st1) as Hw.
  { intros fuel0 st st1 Hw.
    by destruct (while_next_inv (popJob ICF X P Config) (λ s, keeps st s) fuel0 st st1) as [Hk _];
      [intros s s' Hs%keeps_popJob Hk; by transitivity s|done|done|]. }
  induction fuel as [|fuel IH]; intros st; cbn [rounds]; cbv zeta; rewrite bind_Some;
    intros (st1 & Hst1%Hw & Hr); rewrite runGC_disabled in Hr by done;
    (transitivity st1; [done|]); (etransitivity; [apply keeps_processInterJobs|]);
    case_match; simplify_eq; try done. by apply IH.
Qed.

Lemma dataflowFactPropagation_ready fuel st :
  EnableJumpFunctionGC Config = Disabled →
  dataflowFactPropagation ICF X P Config fuel = Some st → ready st.
Proof. intros HGC Hr%rounds_keeps; [|done]. apply Hr, doInitialize_ready. Qed.
End frame_ops.

(** * Propagation of values along the calls *)

Section propagation.
Context {N D F L EF : Type} `{Countable N, Countable D, Countable F}.
Context `{EqDecision EF, EqDecision L, JoinLatticeTraits L, !JoinLatticeLaws L}.
Context `{!SemiRing L EF, !SemiRingLaws L EF}.
Context (ICF : ICFG N D F) (X : SolverExtras N D F).
Context (P : IDETabulationProblem N D F L EF) (Config : StaticSolverConfig).
Abbreviation St := (State N D F L EF).
Abbreviation Job := (InterPropagationJob N D F EF).
Implicit Types (st : St) (j : Job) (V : N → D → L).
Local Open Scope phasar_scope.

Abbreviation value st := (vval (ValTab st)).

Definition value_seed_at (SP : N) (d : D) (l : L) : Prop :=
  ∃ Facts, initialSeeds P !! SP = Some Facts ∧ Facts !! d = Some l.

(** The edges of the value propagation, from start point to start point. *)
Definition job_edge st (SP : N) (d : D) (SP' : N) (d' : D) (f : EF) : Prop :=
  ∃ CS j, CS ∈ getCallsFromWithin ICF (getFunctionOf ICF SP) ∧ j ∈ calls_of st d CS ∧
    SP' ∈ getStartPointsOf ICF (Callee j) ∧ d' = FactInCallee j ∧ f = SourceEF j.

(** A solution over the registered jobs. *)
Record job_solution st V : Prop := {
  js_seed SP d l : value_seed_at SP d l → l ⊑ₗ V SP d;
  js_edge SP d SP' d' f :
    V SP d ≠ top → job_edge st SP d SP' d' f → computeTarget f (V SP d) ⊑ₗ V SP' d'
}.

(** A solution of the value rules over a table [K] of jump functions. *)
Record iter_value_solution (K : D → N → D → EF) V : Prop := {
  ivs_seed SP d l : value_seed_at SP d l → l ⊑ₗ V SP d;
  ivs_call SP d CS d2 C SP' d3 :
    V SP d ≠ top → CS ∈ getCallsFromWithin ICF (getFunctionOf ICF SP) → K d CS d2 ≠ AllTop →
    call_flow ICF P CS d2 C SP' d3 →
    computeTarget (callEF P (K d CS d2) CS d2 C d3) (V SP d) ⊑ₗ V SP' d3
}.

(** What the propagation leaves alone. *)
Record same_calls st st' : Prop := {
  sc_calls : SourceFactAndCSToInterJob st' = SourceFactAndCSToInterJob st;
  sc_JumpFunctions : JumpFunctions st' = JumpFunctions st
}.

#[export] Instance same_calls_preorder : PreOrder same_calls.
Proof. split; [by intros st | intros st1 st2 st3 [] []; split; congruence]. Qed.

Lemma job_edge_same st st' SP d SP' d' f :
  same_calls st st' → job_edge st' SP d SP' d' f ↔ job_edge st SP d SP' d' f.
Proof. intros [Hc _]. unfold job_edge, calls_of. by rewrite Hc. Qed.

(** ** One value *)

Lemma get_top_spec n d st :
  let r := get top n d st in
  r.1 = value st n d ∧ (∀ n' d', value r.2 n' d' = value st n' d') ∧
  same_calls st r.2 ∧ WLProp r.2 = WLProp st ∧ WLComp r.2 = WLComp st.
Proof.
  cbv zeta. unfold get. destruct (table_get_spec top (ValTab st) n d) as [Hv HT].
  destruct (Table.get top (ValTab st) n d) as [v T]. simpl in *. split; [done|]. split; [|by destruct st].
  intros n' d'. replace (ValTab (set_ValTab (λ _, T) st)) with T by by destruct st.
  unfold vval. rewrite HT. destruct (decide _) as [[<- <-]|_]; [|done]. simpl. by rewrite <- Hv.
Qed.

(** Loops that add values to the work list. *)
Record adds st st' (E : N * D * L → Prop) : Prop := {
  ad_calls : same_calls st st';
  ad_values : ValTab st' = ValTab st;
  ad_comp : WLComp st' = WLComp st;
  ad_prop x : x ∈ WLProp st' ↔ x ∈ WLProp st ∨ E x
}.

Lemma adds_refl st : adds st st (λ _, False).
Proof. split; [done..|]. tauto. Qed.

Lemma adds_for_each {A} (l : list A) (body : A → St → St) st (E : A → N * D * L → Prop) :
  (∀ x st', x ∈ l → same_calls st st' → adds st' (body x st') (E x)) →
  adds st (for_each l body st) (λ y, ∃ x, x ∈ l ∧ E x y).
Proof.
  intros Hb. induction l as [|x l IH] using rev_ind.
  { split; [done..|]. intros y. rewrite for_each_nil. split; [by left|]. intros [?|(x & Hx & _)]; [done|].
    by apply elem_of_nil in Hx. }
  rewrite for_each_app, for_each_cons, for_each_nil.
  destruct IH as [Hc Hv Hm Hp]; [intros; apply Hb; [set_solver|done]|].
  set (s := for_each l body st) in *.
  destruct (Hb x s) as [Hc' Hv' Hm' Hp']; [set_solver|done|].
  split; [by transitivity s|congruence|congruence|]. intros y.
  rewrite Hp', Hp, <- (exists_app_singleton l x (λ z, E z y)). tauto.
Qed.

Context (HGC : EnableJumpFunctionGC Config ≠ EnabledAggressively).

Lemma set_value_spec n d l st :
  let st' := set ICF X Config n d l st in
  (∀ n' d', value st' n' d' = if decide (n = n' ∧ d = d') then l else value st n' d') ∧
  same_calls st st' ∧ WLProp st' = WLProp st ∧ WLComp st' = WLComp st.
Proof.
  cbv zeta. unfold set. rewrite (bool_decide_eq_false_2 _ HGC). cbn [andb]. split; [|by destruct st].
  intros n' d'. rewrite <- vval_insert. by destruct st.
Qed.

Lemma propagateValue_spec SP d Val st :
  let st' := propagateValue ICF X Config top (SP, d, Val) st in
  let NewVal := join (value st SP d) Val in
  same_calls st st' ∧
  (∀ n' d', value st' n' d' = if decide (SP = n' ∧ d = d') then NewVal else value st n' d') ∧
  WLComp st' = (if decide (NewVal = value st SP d) then WLComp st else {[SP]} ∪ WLComp st) ∧
  ∀ x, x ∈ WLProp st' ↔ x ∈ WLProp st ∨
    NewVal ≠ value st SP d ∧ ∃ SP' d' f, job_edge st SP d SP' d' f ∧ x = (SP', d', computeTarget f Val).
Proof.
  cbv zeta. unfold propagateValue. destruct (get_top_spec SP d st) as (Hg & Hgv & Hgc & Hgp & Hgm).
  destruct (get top SP d st) as [StoredVal st1]. simpl in Hg, Hgv, Hgc, Hgp, Hgm. subst StoredVal.
  cbv zeta. destruct (decide (join (value st SP d) Val = value st SP d)) as [Heq|Hne].
  { split; [done|]. split; [|split; [done|]].
    - intros n' d'. rewrite Hgv. destruct (decide _) as [[<- <-]|_]; [by rewrite Heq|done].
    - intros x. rewrite Hgp. tauto. }
  destruct (set_value_spec SP d (join (value st SP d) Val) st1) as (Hsv & Hsc & Hsp & Hsm). cbv zeta in *.
  set (st2 := set _ _ _ _ _ _ st1) in *. set (st3 := set_WLComp _ st2).
  assert (same_calls st st3) as Hc3.
  { transitivity st1; [done|]. transitivity st2; [done|]. by destruct st2. }
  assert (adds st3 (for_each (getCallsFromWithin ICF (getFunctionOf ICF SP)) (λ CS st,
      for_each (default [] (SourceFactAndCSToInterJob st !! (d, CS))) (λ InterJob st,
        for_each (getStartPointsOf ICF (Callee InterJob)) (λ CalleeSP st,
          set_WLProp
            (cons (CalleeSP, FactInCallee InterJob, computeTarget (SourceEF InterJob) Val)) st)
          st) st) st3)
    (λ x, ∃ CS, CS ∈ getCallsFromWithin ICF (getFunctionOf ICF SP) ∧
      ∃ j, j ∈ calls_of st d CS ∧ ∃ SP', SP' ∈ getStartPointsOf ICF (Callee j) ∧
        x = (SP', FactInCallee j, computeTarget (SourceEF j) Val))) as [Hac Hav Ham Hap].
  { apply adds_for_each. intros CS s _ Hs.
    assert (calls_of st d CS = default [] (SourceFactAndCSToInterJob s !! (d, CS))) as ->
      by (unfold calls_of; by rewrite (sc_calls _ _ Hs), (sc_calls _ _ Hc3)).
    apply adds_for_each. intros j s1 _ _. apply adds_for_each. intros SP' s2 _ _.
    destruct s2. split; try done. intros x. simpl. rewrite elem_of_cons. tauto. }
  set (st4 := for_each _ _ st3) in *. split; [by transitivity st3|]. split; [|split].
  - intros n' d'. rewrite Hav. transitivity (value st2 n' d'); [by destruct st2|]. by rewrite Hsv, Hgv.
  - rewrite Ham. transitivity ({[SP]} ∪ WLComp st2); [by destruct st2|]. by rewrite Hsm, Hgm.
  - intros x. rewrite Hap. assert (WLProp st3 = WLProp st) as -> by (rewrite <- Hgp, <- Hsp; by destruct st2).
    unfold job_edge. naive_solver.
Qed.
End propagation.

(** * The work list of values *)

Section value_loop.
Context {N D F L EF : Type} `{Countable N, Countable D, Countable F}.
Context `{EqDecision EF, EqDecision L, JoinLatticeTraits L, !JoinLatticeLaws L}.
Context `{!SemiRing L EF, !SemiRingLaws L EF, !EvaluationLaws L EF}.
Context (ICF : ICFG N D F) (X : SolverExtras N D F).
Context (P : IDETabulationProblem N D F L EF) (Config : StaticSolverConfig).
Context (HGC : EnableJumpFunctionGC Config ≠ EnabledAggressively).
Abbreviation St := (State N D F L EF).
Implicit Types (st : St) (V : N → D → L).
Local Open Scope phasar_scope.

Abbreviation value st := (vval (ValTab st)).
Abbreviation edge := (job_edge ICF).

(** [x] is below every bound of the stored value and the values still pending. *)
Definition covers st (n : N) (d : D) (x : L) : Prop :=
  ∀ k, value st n d ⊑ₗ k → (∀ l, (n, d, l) ∈ WLProp st → l ⊑ₗ k) → x ⊑ₗ k.

Record loop_inv st0 st : Prop := {
  li_calls : same_calls st0 st;
  li_seed SP d l : value_seed_at P SP d l → covers st SP d l;
  li_edge SP d SP' d' f :
    value st SP d ≠ top → edge st0 SP d SP' d' f →
    covers st SP' d' (computeTarget f (value st SP d));
  li_comp SP : SP ∈ WLComp st ↔ ∃ d, value st SP d ≠ top
}.

Lemma computeTarget_le_mono (f : EF) (x y : L) :
  x ⊑ₗ y → computeTarget f x ⊑ₗ computeTarget f y.
Proof. unfold lat_le. intros Hle. by rewrite <- computeTarget_join, Hle. Qed.

(** Popping a value and propagating it. *)
Lemma popValue_spec st st' :
  popValue ICF X Config top st = Some st' →
  ∃ SP d Val wl, WLProp st = (SP, d, Val) :: wl ∧ same_calls st st' ∧
  let NewVal := join (value st SP d) Val in
  (∀ n' d', value st' n' d' = if decide (SP = n' ∧ d = d') then NewVal else value st n' d') ∧
  WLComp st' = (if decide (NewVal = value st SP d) then WLComp st else {[SP]} ∪ WLComp st) ∧
  (NewVal = value st SP d → WLProp st' = wl) ∧
  ∀ x, x ∈ WLProp st' ↔ x ∈ wl ∨
    NewVal ≠ value st SP d ∧ ∃ SP' d' f, edge st SP d SP' d' f ∧ x = (SP', d', computeTarget f Val).
Proof.
  unfold popValue. destruct (WLProp st) as [|[[SP d] Val] wl] eqn:HW; [done|]. intros [= <-].
  set (st0 := set_WLProp (λ _, wl) st).
  assert (same_calls st st0 ∧ ValTab st0 = ValTab st ∧ WLProp st0 = wl ∧ WLComp st0 = WLComp st)
    as (Hs & HV & HP & HC) by by destruct st.
  destruct (propagateValue_spec ICF X Config HGC SP d Val st0) as (Hsc & Hv & Hc & Hp).
  rewrite HV, HP, HC in *. exists SP, d, Val, wl. split; [done|]. split; [by transitivity st0|].
  cbv zeta. split; [done|]. split; [done|]. split.
  - intros Heq. unfold propagateValue. destruct (get_top_spec SP d st0) as (Hg & _ & _ & Hgp & _).
    destruct (get top SP d st0) as [v s]. simpl in Hg, Hgp. rewrite Hg, HV. cbv zeta.
    rewrite decide_True by done. by rewrite Hgp, HP.
  - intros x. rewrite Hp. split; (intros [?|(Hne & SP' & d' & f & He & ->)]; [by left|right]);
      (split; [done|]); exists SP', d', f; (split; [|done]); by eapply (job_edge_same ICF st st0).
Qed.

Lemma popValue_loop_inv st0 st st' :
  popValue ICF X Config top st = Some st' → loop_inv st0 st → loop_inv st0 st'.
Proof.
  intros Hpop [Hc0 Hseed Hedge Hcomp].
  destruct (popValue_spec st st' Hpop) as (SP & d & Val & wl & HW & Hc & Hv & Hm & _ & Hp).
  set (s := value st SP d) in *.
  assert (∀ n' d', value st n' d' ⊑ₗ value st' n' d') as Hle.
  { intros n' d'. rewrite Hv.
    destruct (decide (SP = n' ∧ d = d')) as [[<- <-]|_]; [apply join_ub_l|done]. }
  assert (∀ n' d' x, covers st n' d' x → covers st' n' d' x) as Hcov.
  { intros n' d' x Hx k Hk Hpk. apply Hx; [by transitivity (value st' n' d')|]. intros l.
    rewrite HW. intros [[= -> -> ->]|Hin]%elem_of_cons; [|apply Hpk, Hp; by left].
    transitivity (value st' SP d); [|done]. rewrite Hv, decide_True by done. apply join_ub_r. }
  split.
  - by transitivity st.
  - intros SP' d' l Hl. by apply Hcov, Hseed.
  - intros SP0 d0 SP' d' f. rewrite Hv.
    destruct (decide (SP = SP0 ∧ d = d0)) as [[<- <-]|_]; [|by intros; apply Hcov, Hedge].
    destruct (decide (join s Val = s)) as [->|Hne]; [by intros; apply Hcov, Hedge|].
    intros _ He k Hk Hpk. rewrite computeTarget_join. apply join_lub.
    assert (computeTarget f Val ⊑ₗ k) as HVal.
    { apply Hpk, Hp. right. split; [done|]. exists SP', d', f. split; [|done].
      by apply (job_edge_same ICF st0 st). }
    split; [|done]. destruct (decide (s = top)) as [Htop|Hs].
    + transitivity (computeTarget f Val); [|done]. rewrite Htop. apply computeTarget_le_mono, lat_le_top.
    + by apply (Hcov _ _ _ (Hedge SP d SP' d' f Hs He)).
  - intros SP0. rewrite Hm. fold s. destruct (decide (join s Val = s)) as [Heq|Hne].
    + rewrite Hcomp. split; intros [d0 Hd0]; exists d0; rewrite Hv in *;
        (destruct (decide (SP = SP0 ∧ d = d0)) as [[<- <-]|_]; [|done]); by rewrite Heq in *.
    + rewrite elem_of_union, elem_of_singleton, Hcomp. split.
      * intros [->|[d0 Hd0]].
        -- exists d. rewrite Hv, decide_True by done. intros Htop. apply Hne. rewrite Htop.
           symmetry. apply le_top_inv. rewrite <- Htop. apply join_ub_l.
        -- exists d0. intros Htop. apply Hd0, le_top_inv. rewrite <- Htop. apply Hle.
      * intros [d0 Hd0]. rewrite Hv in Hd0.
        destruct (decide (SP = SP0 ∧ d = d0)) as [[<- <-]|_]; [by left|right; by exists d0].
Qed.

(** Values and pending values stay below every solution. *)
Definition loop_below V st : Prop :=
  (∀ n d, value st n d ⊑ₗ V n d) ∧ ∀ n d l, (n, d, l) ∈ WLProp st → l ⊑ₗ V n d.

Lemma popValue_below V st0 st st' :
  popValue ICF X Config top st = Some st' → same_calls st0 st → job_solution ICF P st0 V →
  loop_below V st → loop_below V st'.
Proof.
  intros Hpop Hc0 [_ HV] [Hb Hpb].
  destruct (popValue_spec st st' Hpop) as (SP & d & Val & wl & HW & Hc & Hv & Hm & _ & Hp).
  assert (Val ⊑ₗ V SP d) as HVal by (apply Hpb; rewrite HW; set_solver). split.
  - intros n' d'. rewrite Hv.
    destruct (decide (SP = n' ∧ d = d')) as [[<- <-]|_]; [|done]. by apply join_lub.
  - intros n' d' l [Hin|(Hne & SP' & d1 & f & He & [= -> -> ->])]%Hp; [apply Hpb; rewrite HW; set_solver|].
    transitivity (computeTarget f (V SP d)); [by apply computeTarget_le_mono|].
    apply HV; [|by apply (job_edge_same ICF st0 st)].
    intros Htop. apply Hne. rewrite Htop in HVal. apply le_top_inv in HVal as ->. apply join_top_r.
Qed.

(** The seeds. *)
Lemma submitInitialValues_spec st :
  let st' := Iterative.submitInitialValues P st in
  same_calls st st' ∧ ValTab st' = ValTab st ∧ WLComp st' = WLComp st ∧
  ∀ n d l, (n, d, l) ∈ WLProp st' ↔ (n, d, l) ∈ WLProp st ∨ value_seed_at P n d l.
Proof.
  cbv zeta. unfold Iterative.submitInitialValues.
  assert (adds st (for_each (map_to_list (initialSeeds P)) (λ '(Inst, SeedMap) st,
    for_each (map_to_list SeedMap) (λ '(Fact, Val) st,
      set_WLProp (cons (Inst, Fact, Val)) st) st) st)
    (λ x, ∃ kv, kv ∈ map_to_list (initialSeeds P) ∧
       ∃ fl, fl ∈ map_to_list kv.2 ∧ x = (kv.1, fl.1, fl.2))) as [Hc Hv Hm Hp].
  { apply adds_for_each. intros [n S] s _ _. apply adds_for_each. intros [d l] s1 _ _.
    destruct s1. split; try done. intros x. simpl. rewrite elem_of_cons. tauto. }
  split; [done|]. split; [done|]. split; [done|]. intros n d l. rewrite Hp.
  unfold value_seed_at. split; (intros [?|Hx]; [by left|right]).
  - destruct Hx as ([n' S] & HS%elem_of_map_to_list & [d' l'] & Hl%elem_of_map_to_list & [= -> -> ->]).
    by exists S.
  - destruct Hx as (S & HS & Hl). exists (n, S). split; [by apply elem_of_map_to_list|].
    exists (d, l). split; [by apply elem_of_map_to_list|done].
Qed.

(** The values when the work list is empty. *)
Lemma value_loop_solution fuel st st' :
  (∀ n d, value st n d = top) → WLProp st = [] → WLComp st = ∅ →
  while_next (popValue ICF X Config top) fuel (Iterative.submitInitialValues P st) = Some st' →
  same_calls st st' ∧ job_solution ICF P st (value st') ∧
  (∀ V, job_solution ICF P st V → ∀ n d, value st' n d ⊑ₗ V n d) ∧
  (∀ SP, SP ∈ WLComp st' ↔ ∃ d, value st' SP d ≠ top).
Proof.
  intros Htop HWP HWC Hw. destruct (submitInitialValues_spec st) as (Hc & Hv & Hm & Hp).
  set (st1 := Iterative.submitInitialValues P st) in *.
  assert (∀ n d, value st1 n d = top) as Htop1 by (intros; by rewrite Hv).
  assert (loop_inv st st1) as Hi1.
  { split; [done| | |].
    - intros SP d l Hl k _ Hk. apply Hk, Hp. by right.
    - intros SP d SP' d' f Hne. by rewrite Htop1 in Hne.
    - intros SP. rewrite Hm, HWC. split; [by intros ?%elem_of_empty|]. intros [d Hd]. by rewrite Htop1 in Hd. }
  destruct (while_next_inv _ (loop_inv st) _ _ _ (popValue_loop_inv st) Hi1 Hw) as [[Hc' Hs He Hcomp] Hend].
  assert (WLProp st' = []) as HW'.
  { unfold popValue in Hend. by destruct (WLProp st'). }
  split; [done|]. split; [|split; [|done]].
  - split.
    + intros SP d l Hl. apply (Hs SP d l Hl); [done|]. rewrite HW'. by intros ? ?%elem_of_nil.
    + intros SP d SP' d' f Hne Hed. apply (He SP d SP' d' f Hne Hed); [done|].
      rewrite HW'. by intros ? ?%elem_of_nil.
  - intros V HV. apply (while_next_inv _ (λ s, same_calls st s ∧ loop_below V s)) in Hw as [[_ [Hb _]] _]; [done| |].
    + intros s s' Hpop [Hcs Hb]. split; [|by eapply popValue_below].
      transitivity s; [done|]. by destruct (popValue_spec s s' Hpop) as (? & ? & ? & ? & _ & ? & _).
    + split; [done|]. split; [intros; rewrite Htop1; apply lat_le_top|].
      intros n d l [Hin|Hl]%Hp; [rewrite HWP in Hin; by apply elem_of_nil in Hin|by apply HV].
Qed.
End value_loop.

(** * The values of the other instructions *)

Section other_values.
Context {N D F L EF : Type} `{Countable N, Countable D, Countable F}.
Context `{EqDecision EF, EqDecision L, JoinLatticeTraits L, !JoinLatticeLaws L, !SemiRing L EF}.
Context (ICF : ICFG N D F) (X : SolverExtras N D F) (Config : StaticSolverConfig).
Context (HGC : EnableJumpFunctionGC Config ≠ EnabledAggressively).
Abbreviation St := (State N D F L EF).
Implicit Types (st : St) (C : N → D → L → Prop).
Local Open Scope phasar_scope.

Abbreviation value st := (vval (ValTab st)).

(** What the jump functions to [(n, d)] contribute to its value, from the nodes
    whose values were propagated. *)
Definition carried st (n : N) (d : D) (x : L) : Prop :=
  ∃ SP src f, SP ∈ WLComp st ∧ n ≠ SP ∧ n ∈ getAllInstructionsOf X (getFunctionOf ICF SP) ∧
    stored_jf st src n d = Some f ∧ x = computeTarget f (value st SP src).

(** [st'] has, at every node, the join of the value of [st] and of [C], which
    says nothing of the nodes whose values were propagated. *)
Record adds_values st C st' : Prop := {
  av_same : same_calls st st';
  av_comp : WLComp st' = WLComp st;
  av_quiet SP d x : SP ∈ WLComp st → ¬ C SP d x;
  av_val n d k : value st' n d ⊑ₗ k ↔ value st n d ⊑ₗ k ∧ ∀ x, C n d x → x ⊑ₗ k
}.

Lemma adds_values_iff st C C' st' :
  (∀ n d x, C n d x ↔ C' n d x) → adds_values st C st' → adds_values st C' st'.
Proof.
  intros HC [Hs Hm Hq Hv]. split; [done..| |].
  - intros SP d x. rewrite <- HC. apply Hq.
  - intros n d k. rewrite Hv. by setoid_rewrite HC.
Qed.

Lemma adds_values_same st C st' n d :
  adds_values st C st' → (∀ x, ¬ C n d x) → value st' n d = value st n d.
Proof.
  intros [_ _ _ Hv] Hno. apply (anti_symm lat_le).
  - apply (Hv n d). split; [done|]. intros x Hx. by destruct (Hno x).
  - by destruct (proj1 (Hv n d (value st' n d))).
Qed.

Lemma adds_values_refl st : adds_values st (λ _ _ _, False) st.
Proof. split; [done|done| |]; [tauto|]. intros n d k. split; [|tauto]. intros ?. split; [done|]. tauto. Qed.

Lemma adds_values_for_each {A} st (l : list A) (body : A → St → St) C (Cx : A → N → D → L → Prop) st1 :
  adds_values st C st1 →
  (∀ x s C0, x ∈ l → adds_values st C0 s →
     adds_values st (λ n d y, C0 n d y ∨ Cx x n d y) (body x s)) →
  adds_values st (λ n d y, C n d y ∨ ∃ x, x ∈ l ∧ Cx x n d y) (for_each l body st1).
Proof.
  intros H1' Hb. apply (for_each_ind (λ l0 s, adds_values st
    (λ n d y, C n d y ∨ ∃ x, x ∈ l0 ∧ Cx x n d y) s)).
  - eapply adds_values_iff; [|exact H1']. intros n d y. split; [by left|].
    intros [?|(x & Hx & _)]; [done|by apply elem_of_nil in Hx].
  - intros l0 x s Hx Hs. eapply adds_values_iff; [|by apply (Hb x s _ Hx Hs)].
    intros n d y. rewrite <- (exists_app_singleton l0 x (λ z, Cx z n d y)). tauto.
Qed.

(** One cell of the jump functions. *)
Lemma computeValue_adds st C s SP Inst src tgt f :
  SP ∈ WLComp st → Inst ∉ WLComp st → adds_values st C s →
  adds_values st (λ n d y, C n d y ∨ n = Inst ∧ d = tgt ∧ y = computeTarget f (value st SP src))
    (computeValue ICF X Config top SP Inst ((src, tgt), f) s).
Proof.
  intros HSP HInst Hs. unfold computeValue.
  destruct (get_top_spec SP src s) as (Hg & Hv & Hc & _ & Hm).
  destruct (get top SP src s) as [Val s1]. simpl in Hg, Hv, Hc, Hm. subst Val.
  destruct (get_top_spec Inst tgt s1) as (Hg2 & Hv2 & Hc2 & _ & Hm2).
  destruct (get top Inst tgt s1) as [Stored s2]. simpl in Hg2, Hv2, Hc2, Hm2. subst Stored. cbv zeta.
  rewrite (adds_values_same st C s SP src Hs) by by intros x; apply (av_quiet _ _ _ Hs).
  set (x := computeTarget f (value st SP src)). rewrite Hv.
  set (s3 := if decide _ then _ else s2).
  assert ((∀ n' d', value s3 n' d' =
      if decide (Inst = n' ∧ tgt = d') then join (value s Inst tgt) x else value s n' d') ∧
    same_calls s s3 ∧ WLComp s3 = WLComp s) as (Hv3 & Hc3 & Hm3).
  { unfold s3. destruct (decide (join (value s Inst tgt) x ≠ value s Inst tgt)) as [Hne|Heq%dec_stable].
    - destruct (set_value_spec ICF X Config HGC Inst tgt (join (value s Inst tgt) x) s2)
        as (Hsv & Hsc & _ & Hsm). cbv zeta in *. split; [|split].
      + intros n' d'. by rewrite Hsv, Hv2, Hv.
      + transitivity s1; [done|]. by transitivity s2.
      + by rewrite Hsm, Hm2, Hm.
    - split; [|split; [by transitivity s1|by rewrite Hm2, Hm]]. intros n' d'. rewrite Hv2, Hv.
      destruct (decide (Inst = n' ∧ tgt = d')) as [[<- <-]|_]; [by rewrite Heq|done]. }
  destruct Hs as [Hs Hms Hq Hval]. split.
  - by transitivity s.
  - by rewrite Hm3.
  - intros SP' d y HSP' [Hy|(-> & _)]; [by apply (Hq SP' d y)|done].
  - intros n d k. rewrite Hv3. destruct (decide (Inst = n ∧ tgt = d)) as [[<- <-]|Hne].
    + rewrite join_lub, Hval. split; [|by naive_solver].
      intros [[? ?] ?]. split; [done|]. intros y [?|(_ & _ & ->)]; auto.
    + rewrite Hval. split; intros [? Hx]; (split; [done|]); intros y Hy; apply Hx; [|by left].
      destruct Hy as [?|(-> & -> & _)]; [done|naive_solver].
Qed.

(** All the nodes whose values were propagated. *)
Lemma computeValues_adds st :
  (∀ SP n, SP ∈ WLComp st → n ∈ getAllInstructionsOf X (getFunctionOf ICF SP) →
     n ∈ WLComp st → n = SP) →
  adds_values st (carried st) (for_each (elements (WLComp st)) (computeValues ICF X Config top) st).
Proof.
  intros Hone. eapply adds_values_iff; [|apply (adds_values_for_each st _ _ (λ _ _ _, False)
    (λ SP n d y, ∃ Inst, Inst ∈ getAllInstructionsOf X (getFunctionOf ICF SP) ∧ Inst ≠ SP ∧
       ∃ cell, cell ∈ map_to_list (Table.row (JumpFunctions st) Inst) ∧
         n = Inst ∧ d = cell.1.2 ∧ y = computeTarget cell.2 (value st SP cell.1.1)))].
  - assert (∀ n src d f, ((src, d), f) ∈ map_to_list (Table.row (JumpFunctions st) n) ↔
      stored_jf st src n d = Some f) as Hrow.
    { intros. rewrite elem_of_map_to_list. unfold stored_jf, Table.lookup, Table.row.
      by destruct (JumpFunctions st !! n). }
    intros n d y. unfold carried. setoid_rewrite elem_of_elements. split.
    + intros [[]|(SP & HSP & ? & HI & Hne & [[src tgt] f] & Hc%Hrow & -> & -> & ->)].
      by exists SP, src, f.
    + intros (SP & src & f & HSP & Hne & HI & Hj%Hrow & ->). right. exists SP. split; [done|].
      exists n. split; [done|]. split; [done|]. by exists ((src, d), f).
  - apply adds_values_refl.
  - intros SP s C0 HSP%elem_of_elements Hs. unfold computeValues. cbv zeta.
    apply adds_values_for_each; [done|]. clear C0 s Hs. intros Inst s C0 HI Hs.
    destruct (decide (Inst = SP)) as [->|Hne].
    { eapply adds_values_iff; [|exact Hs]. naive_solver. }
    rewrite (bool_decide_eq_false_2 _ HGC). cbn [andb].
    assert (JumpFunctions s = JumpFunctions st) as -> by apply Hs.
    eapply adds_values_iff; [|apply (adds_values_for_each st _ _ C0
      (λ cell n d y, n = Inst ∧ d = cell.1.2 ∧ y = computeTarget cell.2 (value st SP cell.1.1))); [done|]].
    + intros n d y. naive_solver.
    + intros [[src tgt] f] s1 C1 _ Hs1. apply computeValue_adds; [done| |done].
      intros HIn. by apply Hne, (Hone SP).
Qed.
End other_values.

(** * Jobs and jump functions *)

Section rules_of_jobs.
Context {N D F L EF : Type} `{Countable N, Countable D, Countable F}.
Context `{EqDecision EF, EqDecision L, JoinLatticeTraits L, !JoinLatticeLaws L}.
Context `{!SemiRing L EF, !SemiRingLaws L EF, !EvaluationLaws L EF}.
Context (ICF : ICFG N D F) (X : SolverExtras N D F) `{!ExitPointLaws ICF X}.
Context (P : IDETabulationProblem N D F L EF) (Config : StaticSolverConfig).
Abbreviation St := (State N D F L EF).
Implicit Types (st : St) (V : N → D → L).
Local Open Scope phasar_scope.

(** The jobs registered when the first phase has finished carry the value rules
    over its jump functions: the last job of a call has the final function, and
    earlier ones have smaller functions. *)
Lemma job_solution_rules fuel st V :
  EnableJumpFunctionGC Config = Disabled →
  dataflowFactPropagation ICF X P Config fuel = Some st →
  job_solution ICF P st V ↔ iter_value_solution ICF P (iter_Jf st) V.
Proof.
  intros HGC Hr. pose proof (dataflowFactPropagation_ready ICF X P Config fuel st HGC Hr) as Hrd.
  pose proof (dataflowFactPropagation_finished ICF X P Config HGC fuel st Hr) as Hfin.
  pose proof (finished_solution ICF X P Config st Hfin) as Hsol. destruct Hfin as ([_ Hedge _] & HW & _).
  split; intros [Hs He]; (split; [done|]).
  - intros SP d CS d2 C SP' d3 Hne HCS HK Hcall.
    destruct (Hedge d CS d2 HK) as [Hin|[_ Hpc _]]; [rewrite HW in Hin; by apply elem_of_nil in Hin|].
    destruct (Hpc C SP' d3 Hcall) as [_ Hj]. apply He; [done|].
    exists CS, (mkInterPropagationJob (callEF P (iter_Jf st d CS d2) CS d2 C d3) d C CS d3).
    split; [done|]. split; [by apply (rd_calls _ Hrd)|]. split; [apply Hcall|done].
  - intros SP d SP' d' f Hne (CS & j & HCS & Hj & HSP' & -> & ->).
    apply (rd_calls _ Hrd) in Hj as (Hj & <- & <-).
    pose proof (dataflowFactPropagation_sound ICF X P Config _ _
      (iter_solution_closed ICF X P Config _ Hsol) fuel st Hr) as Hsound.
    apply (so_jobs _ _ _ _ _ _ Hsound) in Hj as ((d2 & f & SP0 & Hf & Hft & Hcall & ->) & _ & _).
    assert (call_flow ICF P (CallSite j) d2 (Callee j) SP' (FactInCallee j)) as Hcall'
      by (destruct Hcall as (? & ? & ? & _ & ?); done).
    etransitivity; [|eapply (He SP); [exact Hne|exact HCS|by eapply above_not_top|exact Hcall']].
    by apply computeTarget_le, callEF_mono.
Qed.

(** The nodes that values are propagated to: seeds and start points. *)
Definition value_entry (n : N) : Prop :=
  (∃ d l, value_seed_at P n d l) ∨ ∃ f, n ∈ getStartPointsOf ICF f.

(** No other instruction of the function of an entry is an entry. *)
Definition one_entry : Prop :=
  ∀ SP n, value_entry SP → n ∈ getAllInstructionsOf X (getFunctionOf ICF SP) → value_entry n → n = SP.

Context (HGC : EnableJumpFunctionGC Config ≠ EnabledAggressively).

Definition entries_only st : Prop :=
  (∀ SP, SP ∈ WLComp st → value_entry SP) ∧ ∀ n d l, (n, d, l) ∈ WLProp st → value_entry n.

Lemma popValue_entries st st' :
  popValue ICF X Config top st = Some st' → entries_only st → entries_only st'.
Proof.
  intros Hpop [Hm Hp].
  destruct (popValue_spec ICF X Config HGC st st' Hpop) as (SP & d & Val & wl & HW & _ & _ & Hm' & _ & Hp').
  split.
  - intros SP0. rewrite Hm'. case_decide; [apply Hm|].
    intros [->%elem_of_singleton|?]%elem_of_union; [|by apply Hm]. apply (Hp SP d Val). rewrite HW. set_solver.
  - intros n d0 l [Hin|(_ & SP' & d' & f & (CS & j & _ & _ & HSP & _) & [= -> -> ->])]%Hp'.
    + apply (Hp n d0 l). rewrite HW. by right.
    + right. by eexists.
Qed.

Lemma value_loop_entries fuel st st' :
  WLProp st = [] → WLComp st = ∅ →
  while_next (popValue ICF X Config top) fuel (Iterative.submitInitialValues P st) = Some st' →
  ∀ SP, SP ∈ WLComp st' → value_entry SP.
Proof.
  intros HP HC Hw. destruct (submitInitialValues_spec P st) as (_ & _ & Hm & Hp).
  apply (while_next_inv _ entries_only _ _ _ popValue_entries) in Hw as [[Hm' _] _]; [done|]. split.
  - intros SP. rewrite Hm, HC. by intros ?%elem_of_empty.
  - intros n d l [Hin|Hl]%Hp; [rewrite HP in Hin; by apply elem_of_nil in Hin|]. left. by exists d, l.
Qed.

(** ** Termination *)

(** The nodes and facts that values can be propagated to are finitely many. *)
Definition iter_finite_values (U : gset (N * D)) : Prop :=
  (∀ SP d l, value_seed_at P SP d l → (SP, d) ∈ U) ∧
  ∀ SP d CS d2 C SP' d3, (SP, d) ∈ U → CS ∈ getCallsFromWithin ICF (getFunctionOf ICF SP) →
    call_flow ICF P CS d2 C SP' d3 → (SP', d3) ∈ U.

Context `{!LatticeHeight L}.

Definition value_potential (U : gset (N * D)) st : nat :=
  sum_of (λ x, lat_height (vval (ValTab st) x.1 x.2)) (elements U).

Record value_loop_in (U : gset (N * D)) st : Prop := {
  vl_pending n d l : (n, d, l) ∈ WLProp st → (n, d) ∈ U;
  vl_edges SP d SP' d' f : (SP, d) ∈ U → job_edge ICF st SP d SP' d' f → (SP', d') ∈ U
}.

Lemma popValue_measure U st st' :
  value_loop_in U st → popValue ICF X Config top st = Some st' →
  value_loop_in U st' ∧
  (value_potential U st' < value_potential U st ∨
   (value_potential U st' = value_potential U st ∧ length (WLProp st') < length (WLProp st))).
Proof.
  intros [Hp He] Hpop.
  destruct (popValue_spec ICF X Config HGC st st' Hpop) as
    (SP & d & Val & wl & HW & Hc & Hv & _ & Hsame & Hp').
  assert ((SP, d) ∈ U) as HSP by (apply (Hp SP d Val); rewrite HW; set_solver). split.
  - split.
    + intros n d0 l [Hin|(_ & SP' & d' & f & Hed & [= -> -> ->])]%Hp'.
      * apply (Hp n d0 l). rewrite HW. by right.
      * by apply (He SP d _ _ f).
    + intros SP0 d0 SP' d' f Hin Hed%(job_edge_same ICF st st'); [|done]. by apply (He SP0 d0 _ _ f).
  - set (s := vval (ValTab st) SP d) in *. destruct (decide (join s Val = s)) as [Heq|Hne].
    + right. split; [|rewrite Hsame, HW by done; simpl; lia].
      apply sum_of_ext. intros [n d0]. simpl. rewrite Hv.
      destruct (decide (SP = n ∧ d = d0)) as [[<- <-]|_]; [by rewrite Heq|done].
    + left. apply (sum_of_lt _ _ _ (SP, d)); [by apply elem_of_elements| |]; simpl.
      * rewrite Hv, decide_True by done. apply lat_height_lt; [apply join_ub_l|done].
      * intros [n d0]. simpl. rewrite Hv. destruct (decide (SP = n ∧ d = d0)) as [[<- <-]|_]; [|done].
        fold s. apply Nat.lt_le_incl, lat_height_lt; [apply join_ub_l|done].
Qed.

Lemma value_loop_terminates U st :
  WLProp st = [] → iter_finite_values U →
  (∀ SP d SP' d' f, (SP, d) ∈ U → job_edge ICF st SP d SP' d' f → (SP', d') ∈ U) →
  ∃ fuel st', while_next (popValue ICF X Config top) fuel (Iterative.submitInitialValues P st) = Some st'.
Proof.
  intros HP [Hseed _] He. destruct (submitInitialValues_spec P st) as (Hc & _ & _ & Hp).
  apply (while_next_terminates _ (value_loop_in U) (value_potential U) (λ s, length (WLProp s)));
    [intros; by apply popValue_measure|]. split.
  - intros n d l [Hin|Hl]%Hp; [rewrite HP in Hin; by apply elem_of_nil in Hin|]. by eapply Hseed.
  - intros SP d SP' d' f Hin Hed%(job_edge_same ICF st _ _ _ _ _ _ Hc). by eapply He.
Qed.

(** Every predicate that holds everywhere is closed under the rules, so the jobs
    registered in the first phase belong to call flows. *)
Lemma job_edge_flow fuel st SP d SP' d' f :
  EnableJumpFunctionGC Config = Disabled →
  dataflowFactPropagation ICF X P Config fuel = Some st → job_edge ICF st SP d SP' d' f →
  ∃ CS d2 C, CS ∈ getCallsFromWithin ICF (getFunctionOf ICF SP) ∧ call_flow ICF P CS d2 C SP' d'.
Proof.
  intros HGC' Hr (CS & j & HCS & Hj & HSP' & -> & ->).
  pose proof (dataflowFactPropagation_ready ICF X P Config fuel st HGC' Hr) as Hrd.
  apply (rd_calls _ Hrd) in Hj as (Hj & <- & <-).
  assert (iter_closed ICF X P Config (λ _ _ _ _, True) (λ _ _ _ _ _, True)) as HT by done.
  apply (so_jobs _ _ _ _ _ _ (dataflowFactPropagation_sound ICF X P Config _ _ HT fuel st Hr)) in Hj
    as ((d2 & g & SP0 & _ & _ & (? & ? & ? & _ & ?) & _) & _ & _).
  exists (CallSite j), d2, (Callee j). done.
Qed.
End rules_of_jobs.

Import Iterative.

Section solve.
Context {N D F L EF : Type} `{Countable N, Countable D, Countable F}.
Context `{EqDecision EF, EqDecision L, JoinLatticeTraits L, !JoinLatticeLaws L}.
Context `{!SemiRing L EF, !SemiRingLaws L EF, !EvaluationLaws L EF}.
Context (ICF : ICFG N D F) (X : SolverExtras N D F) `{!ExitPointLaws ICF X}.
Context (P : IDETabulationProblem N D F L EF) (Config : StaticSolverConfig).
Abbreviation St := (State N D F L EF).
Implicit Types (st : St) (V : N → D → L).
Local Open Scope phasar_scope.

Abbreviation value st := (vval (ValTab st)).

(** The steps of [solve]. *)
Lemma solve_steps fuel st' :
  Iterative.solve ICF X P Config top fuel = Some st' →
  ∃ st st1, dataflowFactPropagation ICF X P Config fuel = Some st ∧
    while_next (popValue ICF X Config top) fuel
      (Iterative.submitInitialValues P (finalizePhase1 st)) = Some st1 ∧
    ValTab st' = ValTab (for_each (elements (WLComp st1)) (Iterative.computeValues ICF X Config top)
      (set_WLProp (λ _, []) st1)).
Proof.
  unfold Iterative.solve, performDataflowFactPropagation, performValuePropagation.
  intros (st0 & (st & Hr & [= <-])%bind_Some & (st1 & Hw & Hst')%bind_Some)%bind_Some.
  exists st, st1. split; [done|]. split; [done|].
  replace (WLComp (set_WLProp (λ _, []) st1)) with (WLComp st1) in Hst' by by destruct st1.
  cbv zeta in Hst'. set (st2 := for_each _ _ (set_WLProp _ st1)) in *. injection Hst' as <-. by destruct st2.
Qed.

(** What the second phase starts from. *)
Lemma finalized_ready fuel st :
  EnableJumpFunctionGC Config = Disabled → dataflowFactPropagation ICF X P Config fuel = Some st →
  let st0 := finalizePhase1 st in
  (∀ n d, value st0 n d = top) ∧ WLProp st0 = [] ∧ WLComp st0 = ∅ ∧ same_calls st st0.
Proof.
  intros HGC Hr. destruct (dataflowFactPropagation_ready ICF X P Config fuel st HGC Hr) as [Rv Rp Rc _].
  cbv zeta. unfold no_values in Rv. destruct st. done.
Qed.

Lemma job_solution_same st st' V :
  same_calls st st' → job_solution ICF P st V → job_solution ICF P st' V.
Proof.
  intros Hc [Hs He]. split; [done|]. intros SP d SP' d' f Hne Hed%(job_edge_same ICF st st'); [|done].
  by apply He.
Qed.

Lemma same_calls_sym st st' : same_calls st st' → same_calls st' st.
Proof. by intros []; split. Qed.

(** C11: the values [solve] computes, for edge functions that distribute over
    joins, without the garbage collector, when no function has a second entry or a
    seed inside of it and values are created as top. There is a least assignment [V] that is above the seeds and closed
    under the jump functions to the calls of a function extended by those of the
    calls; the final value of a fact at an instruction is the join of it with
    what the jump functions carry over from the entry of its function, if a value
    reached it. *)
Theorem iterative_solve_values fuel st' :
  EnableJumpFunctionGC Config = Disabled → one_entry ICF X P →
  Iterative.solve ICF X P Config top fuel = Some st' →
  ∃ st V, dataflowFactPropagation ICF X P Config fuel = Some st ∧
    iter_value_solution ICF P (iter_Jf st) V ∧
    (∀ V', iter_value_solution ICF P (iter_Jf st) V' → ∀ n d, V n d ⊑ₗ V' n d) ∧
    ∀ n d k, value st' n d ⊑ₗ k ↔ V n d ⊑ₗ k ∧
      ∀ SP src, (∃ dSP, V SP dSP ≠ top) → n ≠ SP →
        n ∈ getAllInstructionsOf X (getFunctionOf ICF SP) → iter_Jf st src n d ≠ AllTop →
        computeTarget (iter_Jf st src n d) (V SP src) ⊑ₗ k.
Proof.
  intros HGC Hone Hs. destruct (solve_steps fuel st' Hs) as (st & st1 & Hr & Hw & ->).
  assert (EnableJumpFunctionGC Config ≠ EnabledAggressively) as HGC' by by rewrite HGC.
  destruct (finalized_ready fuel st HGC Hr) as (HV0 & HP0 & HC0 & Hc0).
  set (st0 := finalizePhase1 st) in *.
  destruct (value_loop_solution ICF X P Config HGC' fuel st0 st1 HV0 HP0 HC0 Hw)
    as (Hc1 & Hsol & Hleast & Hcomp).
  pose proof (value_loop_entries ICF X P Config HGC' fuel st0 st1 HP0 HC0 Hw) as Hent.
  pose proof (λ V, job_solution_rules ICF X P Config fuel st V HGC Hr) as Hrules.
  set (st2 := set_WLProp (λ _, []) st1).
  assert (ValTab st2 = ValTab st1 ∧ WLComp st2 = WLComp st1 ∧ JumpFunctions st2 = JumpFunctions st1)
    as (HV2 & HM2 & HJ2) by by destruct st1.
  exists st, (value st1). split; [done|]. split; [|split].
  - apply Hrules. by eapply job_solution_same; [apply same_calls_sym|].
  - intros V' HV'%Hrules. apply Hleast. by eapply job_solution_same.
  - intros n d k. rewrite <- HM2. fold st2.
    destruct (computeValues_adds ICF X Config HGC' st2) as [_ _ _ Hav].
    { intros SP n'. rewrite HM2. intros HSP Hn Hn'. apply (Hone SP n'); auto. }
    rewrite Hav, HV2. clear Hav. unfold carried. rewrite HM2, HV2. setoid_rewrite Hcomp.
    assert (∀ src f, stored_jf st2 src n d = Some f ↔ iter_Jf st src n d = f ∧ f ≠ AllTop) as Hj.
    { intros src f. unfold iter_Jf.
      assert (stored_jf st2 src n d = stored_jf st src n d) as ->.
      { unfold stored_jf. by rewrite HJ2, (sc_JumpFunctions _ _ Hc1), (sc_JumpFunctions _ _ Hc0). }
      assert (iter_closed ICF X P Config (λ _ _ _ _, True) (λ _ _ _ _ _, True)) as HT by done.
      pose proof (so_jf _ _ _ _ _ _ (dataflowFactPropagation_sound ICF X P Config _ _ HT fuel st Hr)
        src n d) as Hne.
      destruct (stored_jf st src n d) as [g|]; simpl; [|naive_solver].
      destruct (Hne g eq_refl) as [_ ?]. split; [by intros [= <-]|]. by intros [-> _]. }
    setoid_rewrite Hj. split; intros [? Hx]; (split; [done|]).
    + intros SP src HSP Hne HI Hf. apply Hx. by exists SP, src, (iter_Jf st src n d).
    + intros x (SP & src & f & HSP & Hne & HI & [<- Hf] & ->). by apply Hx.
Qed.

(** C12: [solve] returns when the facts of both phases are finitely many and both
    lattices have bounded ascending chains. *)
Theorem iterative_solve_returns `{!EFHeight L EF, !LatticeHeight L} U W :
  EnableJumpFunctionGC Config = Disabled → iter_finite_problem ICF X P Config U →
  iter_finite_values ICF P W →
  ∃ fuel st, ∀ fuel', fuel ≤ fuel' → Iterative.solve ICF X P Config top fuel' = Some st.
Proof.
  intros HGC HU HW.
  assert (EnableJumpFunctionGC Config ≠ EnabledAggressively) as HGC' by by rewrite HGC.
  destruct (dataflowFactPropagation_terminates ICF X P Config HGC U HU) as (fuel1 & st & Hst).
  pose proof (Hst fuel1 (le_n _)) as Hr.
  destruct (finalized_ready fuel1 st HGC Hr) as (HV0 & HP0 & HC0 & Hc0).
  set (st0 := finalizePhase1 st) in *.
  destruct (value_loop_terminates ICF X P Config HGC' W st0 HP0 HW) as (fuel2 & st2 & Hw).
  { intros SP d SP' d' f Hin Hed. destruct HW as [_ HW].
    destruct (job_edge_flow ICF X P Config fuel1 st SP d SP' d' f HGC Hr) as (CS & d2 & C & HCS & Hcall).
    { by apply (job_edge_same ICF st st0). }
    by apply (HW SP d CS d2 C). }
  exists (max fuel1 fuel2). eexists. intros fuel' Hle.
  unfold Iterative.solve, performDataflowFactPropagation, performValuePropagation.
  rewrite Hst by lia. simpl. fold st0. rewrite (while_next_fuel _ _ _ _ _ Hw) by lia. done.
Qed.
End solve.

(** * The example *)

Section witnesses.
Import Example ExampleFacts IterativeExample.
Local Open Scope phasar_scope.

Definition iterative_final : State nat nat nat (LatticeDomain Z) (CoreEF Z) :=
  state_of (Iterative.solve icfg extras problem IDESolverConfigBase top 100) initialState.
Lemma iterative_final_eq :
  Iterative.solve icfg extras problem IDESolverConfigBase top 100 = Some iterative_final.
Proof. vm_compute. reflexivity. Qed.

Lemma example_entry n : value_entry icfg problem n → n = 0 ∨ n = 10.
Proof.
  intros [(d & l & Facts & HF & _)|(f & Hn)].
  - simpl in HF. apply lookup_singleton_Some in HF as [<- _]. by left.
  - destruct f as [|[|f]]; simpl in Hn; [set_solver..|]. by apply elem_of_nil in Hn.
Qed.

Lemma example_one_entry : one_entry icfg extras problem.
Proof.
  intros SP n [->| ->]%example_entry Hn [->| ->]%example_entry; simpl in Hn; [done| |set_solver|done].
  set_solver.
Qed.

Lemma example_finite_values : iter_finite_values icfg problem exploded.
Proof.
  split.
  - intros SP d l (Facts & HF & Hl). simpl in HF. apply lookup_singleton_Some in HF as [<- <-].
    apply lookup_singleton_Some in Hl as [<- _]. vm_compute. reflexivity.
  - intros SP d CS d2 C SP' d3 _ _ (_ & _ & _ & HSP & Hd). apply exploded_elem.
    split; [by eapply start_nodes|exact (call_facts _ _ _ _ Hd)].
Qed.

Lemma iterative_solve_values_witness :
  vval (ValTab iterative_final) 3 3 = Value 5%Z ∧
  ∃ st V, dataflowFactPropagation icfg extras problem IDESolverConfigBase 100 = Some st ∧
    iter_value_solution icfg problem (iter_Jf st) V ∧
    (∀ V', iter_value_solution icfg problem (iter_Jf st) V' → ∀ n d, V n d ⊑ₗ V' n d) ∧
    ∀ n d k, vval (ValTab iterative_final) n d ⊑ₗ k ↔ V n d ⊑ₗ k ∧
      ∀ SP src, (∃ dSP, V SP dSP ≠ top) → n ≠ SP →
        n ∈ getAllInstructionsOf extras (getFunctionOf icfg SP) → iter_Jf st src n d ≠ AllTop →
        IDEProblem.computeTarget (iter_Jf st src n d) (V SP src) ⊑ₗ k.
Proof.
  split; [vm_compute; reflexivity|].
  exact (iterative_solve_values icfg extras problem IDESolverConfigBase 100 iterative_final
    eq_refl example_one_entry iterative_final_eq).
Defined.

Lemma iterative_solve_returns_witness :
  ∃ fuel st, ∀ fuel', fuel ≤ fuel' →
    Iterative.solve icfg extras problem IDESolverConfigBase top fuel' = Some st.
Proof.
  exact (iterative_solve_returns icfg extras problem IDESolverConfigBase universe exploded
    eq_refl run_finite example_finite_values).
Defined.
End witnesses.
