(* ===== verification/FlowEdgeFunctionCacheNG.v ===== *)
(** [FlowEdgeFunctionCacheNG] (DataFlow/IfdsIde/Solver/FlowFunctionCache.h,
    EdgeFunctionCache.h and FlowEdgeFunctionCacheNG.h): the memo tables of the
    [IterativeIDESolver]. The solver passes packed ids ([combineIds]) as keys.

    Which kinds of flow functions are cached depends on the types the problem
    returns ([needs_cache_v]); normal and call-to-return flow functions of one
    type share their table. The maps of edge functions are owned by
    [StableVector]s and pointed to from the tables; here a table holds its maps.
    The log [Constructed] stands for the counters of constructed functions. *)
From S2P Require Import Prelude JoinLattice EquivalenceClassMap Compressor IDEProblem FlowEdgeFunctionCache.

Module NG.

(** The static facts about the problem's types. *)
Record CacheTraits := {
  needs_cache_normal : bool;
  needs_cache_call : bool;
  needs_cache_ret : bool;
  needs_cache_ctr : bool;
  (** [normal_ff_t] and [ctr_ff_t] are the same type *)
  same_intra_type : bool;
  AutoAddZero : bool
}.

Section cache.
Context {N D F L EF : Type} `{Countable N, Countable D, Countable F, EqDecision EF}.
Context (Problem : IDETabulationProblem N D F L EF) (Traits : CacheTraits).
(** [llvm::isa<llvm::CallInst>], on nodes that are LLVM instructions. *)
Context (isCallInst : N → bool).
Abbreviation FlowFunctionType := (D → gset D).
Abbreviation Query := (Query (N := N) (D := D) (F := F)).

Record FlowEdgeFunctionCacheNG := mkCacheNG {
  NormalFFCache : gmap Z FlowFunctionType;
  CtrFFCache : gmap Z FlowFunctionType;
  CallFFCache : gmap Z FlowFunctionType;
  RetFFCache : gmap (Z * Z) FlowFunctionType;
  SimpleRetFFCache : gmap Z FlowFunctionType;
  NormalAndCtrEFCache : gmap Z (EquivalenceClassMapNG.t Z EF);
  CallEFCache : gmap Z (EquivalenceClassMapNG.t Z EF);
  RetEFCache : gmap Z (EquivalenceClassMapNG.t (Z * Z) EF);
  SummaryEFCache : gmap Z (EquivalenceClassMapNG.t Z EF);
  Constructed : list Query
}.
Implicit Types (c : FlowEdgeFunctionCacheNG).

Definition emptyCache : FlowEdgeFunctionCacheNG := mkCacheNG ∅ ∅ ∅ ∅ ∅ ∅ ∅ ∅ ∅ [].

(** ** Flow functions *)

(** [wrapFlowFunction]. *)
Definition wrapFlowFunction (FF : FlowFunctionType) : FlowFunctionType :=
  if AutoAddZero Traits then ZeroedFlowFunction FF (getZeroValue Problem) else FF.

(** [getFlowFunction] on one table: the result, the table, and the call of the
    factory for the log. *)
Definition getFlowFunction {K} `{Countable K} (needs_cache : bool) (Cache : gmap K FlowFunctionType)
    (Id : K) (q : Query) (FF : FlowFunctionType) :
    FlowFunctionType * gmap K FlowFunctionType * list Query :=
  if needs_cache then
    match Cache !! Id with
    | Some Ret => (wrapFlowFunction Ret, Cache, [])
    | None => (wrapFlowFunction FF, <[Id := FF]> Cache, [q])
    end
  else (wrapFlowFunction FF, Cache, [q]).

Definition getNormalFlowFunction (Curr Succ : N) (CurrSuccId : Z) c :=
  let '(FF, m, log) := getFlowFunction (needs_cache_normal Traits) (NormalFFCache c) CurrSuccId
    (QNormalFF Curr Succ) (IDEProblem.getNormalFlowFunction Problem Curr Succ) in
  (FF, mkCacheNG m (CtrFFCache c) (CallFFCache c) (RetFFCache c) (SimpleRetFFCache c)
         (NormalAndCtrEFCache c) (CallEFCache c) (RetEFCache c) (SummaryEFCache c)
         (Constructed c ++ log)).

Definition getCallToRetFlowFunction (CallSite RetSite : N) (Callees : list F) (CallRetId : Z) c :=
  let q := QCallToRetFF CallSite RetSite Callees in
  let FF := IDEProblem.getCallToRetFlowFunction Problem CallSite RetSite Callees in
  if same_intra_type Traits then
    let '(FF, m, log) :=
      getFlowFunction (needs_cache_ctr Traits) (NormalFFCache c) CallRetId q FF in
    (FF, mkCacheNG m (CtrFFCache c) (CallFFCache c) (RetFFCache c) (SimpleRetFFCache c)
           (NormalAndCtrEFCache c) (CallEFCache c) (RetEFCache c) (SummaryEFCache c)
           (Constructed c ++ log))
  else
    let '(FF, m, log) := getFlowFunction (needs_cache_ctr Traits) (CtrFFCache c) CallRetId q FF in
    (FF, mkCacheNG (NormalFFCache c) m (CallFFCache c) (RetFFCache c) (SimpleRetFFCache c)
           (NormalAndCtrEFCache c) (CallEFCache c) (RetEFCache c) (SummaryEFCache c)
           (Constructed c ++ log)).

Definition getCallFlowFunction (CallSite : N) (Callee : F) (CSCalleeId : Z) c :=
  let '(FF, m, log) := getFlowFunction (needs_cache_call Traits) (CallFFCache c) CSCalleeId
    (QCallFF CallSite Callee) (IDEProblem.getCallFlowFunction Problem CallSite Callee) in
  (FF, mkCacheNG (NormalFFCache c) (CtrFFCache c) m (RetFFCache c) (SimpleRetFFCache c)
         (NormalAndCtrEFCache c) (CallEFCache c) (RetEFCache c) (SummaryEFCache c)
         (Constructed c ++ log)).

(** Calls that cannot throw have one return site: call site and exit are enough
    of a key. *)
Definition getRetFlowFunction (CallSite : N) (Callee : F) (ExitInst RetSite : N)
    (CSExitId CalleeRSId : Z) c :=
  let q := QRetFF CallSite Callee ExitInst RetSite in
  let FF := IDEProblem.getRetFlowFunction Problem CallSite Callee ExitInst RetSite in
  if isCallInst CallSite then
    let '(FF, m, log) := getFlowFunction (needs_cache_ret Traits) (SimpleRetFFCache c) CSExitId q FF in
    (FF, mkCacheNG (NormalFFCache c) (CtrFFCache c) (CallFFCache c) (RetFFCache c) m
           (NormalAndCtrEFCache c) (CallEFCache c) (RetEFCache c) (SummaryEFCache c)
           (Constructed c ++ log))
  else
    let '(FF, m, log) :=
      getFlowFunction (needs_cache_ret Traits) (RetFFCache c) (CSExitId, CalleeRSId) q FF in
    (FF, mkCacheNG (NormalFFCache c) (CtrFFCache c) (CallFFCache c) m (SimpleRetFFCache c)
           (NormalAndCtrEFCache c) (CallEFCache c) (RetEFCache c) (SummaryEFCache c)
           (Constructed c ++ log)).

(** Not cached, and zero is not added. *)
Definition getSummaryFlowFunction (CallSite : N) (Callee : F) c :=
  (IDEProblem.getSummaryFlowFunction Problem CallSite Callee,
   mkCacheNG (NormalFFCache c) (CtrFFCache c) (CallFFCache c) (RetFFCache c) (SimpleRetFFCache c)
     (NormalAndCtrEFCache c) (CallEFCache c) (RetEFCache c) (SummaryEFCache c)
     (Constructed c ++ [QSummaryFF CallSite Callee])).

(** ** Edge functions *)

(** The map of an outer key is created when it is first asked for. *)
Definition getEdgeFunction {K} `{Countable K} (Cache : gmap Z (EquivalenceClassMapNG.t K EF))
    (OuterId : Z) (InnerId : K) (q : Query) (MakeEF : EF) :
    EF * gmap Z (EquivalenceClassMapNG.t K EF) * list Query :=
  let EqMap := default EquivalenceClassMapNG.empty (Cache !! OuterId) in
  let '(Ret, EqMap, Hit) := EquivalenceClassMapNG.getOrInsertLazy InnerId MakeEF EqMap in
  (Ret, <[OuterId := EqMap]> Cache, if Hit : bool then [] else [q]).

Definition set_intraEF m log c : FlowEdgeFunctionCacheNG :=
  mkCacheNG (NormalFFCache c) (CtrFFCache c) (CallFFCache c) (RetFFCache c) (SimpleRetFFCache c)
    m (CallEFCache c) (RetEFCache c) (SummaryEFCache c) (Constructed c ++ log).

Definition getNormalEdgeFunction (Curr : N) (CurrNode : D) (Succ : N) (SuccNode : D)
    (CurrSuccId CurrNodeSuccNodeId : Z) c :=
  let '(Ret, m, log) := getEdgeFunction (NormalAndCtrEFCache c) CurrSuccId CurrNodeSuccNodeId
    (QNormalEF Curr CurrNode Succ SuccNode)
    (IDEProblem.getNormalEdgeFunction Problem Curr CurrNode Succ SuccNode) in
  (Ret, set_intraEF m log c).

Definition getCallToRetEdgeFunction (CallSite : N) (CallNode : D) (RetSite : N) (RetSiteNode : D)
    (Callees : list F) (CallRetId CallNodeRetNodeId : Z) c :=
  let '(Ret, m, log) := getEdgeFunction (NormalAndCtrEFCache c) CallRetId CallNodeRetNodeId
    (QCallToRetEF CallSite CallNode RetSite RetSiteNode Callees)
    (IDEProblem.getCallToRetEdgeFunction Problem CallSite CallNode RetSite RetSiteNode Callees) in
  (Ret, set_intraEF m log c).

Definition getCallEdgeFunction (CallSite : N) (SrcNode : D) (Callee : F) (DestNode : D)
    (CSCalleeId SrcDestNodeId : Z) c :=
  let '(Ret, m, log) := getEdgeFunction (CallEFCache c) CSCalleeId SrcDestNodeId
    (QCallEF CallSite SrcNode Callee DestNode)
    (IDEProblem.getCallEdgeFunction Problem CallSite SrcNode Callee DestNode) in
  (Ret, mkCacheNG (NormalFFCache c) (CtrFFCache c) (CallFFCache c) (RetFFCache c) (SimpleRetFFCache c)
          (NormalAndCtrEFCache c) m (RetEFCache c) (SummaryEFCache c) (Constructed c ++ log)).

Definition getReturnEdgeFunction (CallSite : N) (Callee : F) (ExitInst : N) (ExitNode : D)
    (RetSite : N) (RetSiteNode : D) (ExitId CSRSId ExitRSNodeId : Z) c :=
  let '(Ret, m, log) := getEdgeFunction (RetEFCache c) ExitId (CSRSId, ExitRSNodeId)
    (QReturnEF CallSite Callee ExitInst ExitNode RetSite RetSiteNode)
    (IDEProblem.getReturnEdgeFunction Problem CallSite Callee ExitInst ExitNode RetSite RetSiteNode) in
  (Ret, mkCacheNG (NormalFFCache c) (CtrFFCache c) (CallFFCache c) (RetFFCache c) (SimpleRetFFCache c)
          (NormalAndCtrEFCache c) (CallEFCache c) m (SummaryEFCache c) (Constructed c ++ log)).

Definition getSummaryEdgeFunction (CallSite : N) (CallNode : D) (RetSite : N) (RetSiteNode : D)
    (CSRSId CSNodeRSNodeId : Z) c :=
  let '(Ret, m, log) := getEdgeFunction (SummaryEFCache c) CSRSId CSNodeRSNodeId
    (QSummaryEF CallSite CallNode RetSite RetSiteNode)
    (IDEProblem.getSummaryEdgeFunction Problem CallSite CallNode RetSite RetSiteNode) in
  (Ret, mkCacheNG (NormalFFCache c) (CtrFFCache c) (CallFFCache c) (RetFFCache c) (SimpleRetFFCache c)
          (NormalAndCtrEFCache c) (CallEFCache c) (RetEFCache c) m (Constructed c ++ log)).

(** [FlowFunctionCache::clear] and [FlowEdgeFunctionCacheNG::clear]. *)
Definition clearFlowFunctions c : FlowEdgeFunctionCacheNG :=
  mkCacheNG ∅ ∅ ∅ ∅ ∅ (NormalAndCtrEFCache c) (CallEFCache c) (RetEFCache c) (SummaryEFCache c)
    (Constructed c).

Definition clear c : FlowEdgeFunctionCacheNG := mkCacheNG ∅ ∅ ∅ ∅ ∅ ∅ ∅ ∅ ∅ (Constructed c).

(** ** The solver's side: ids of the nodes, facts and functions of a query *)

Record Ids := mkIds {
  NodeCompressor : ByValue.Compressor N;
  FactCompressor : ByValue.Compressor D;
  FunCompressor : ByValue.Compressor F
}.
Implicit Types (ids : Ids).

Definition nodeId (n : N) ids : Z * Ids :=
  let '(i, m) := ByValue.getOrInsert n (NodeCompressor ids) in
  (i, mkIds m (FactCompressor ids) (FunCompressor ids)).
Definition factId (d : D) ids : Z * Ids :=
  let '(i, m) := ByValue.getOrInsert d (FactCompressor ids) in
  (i, mkIds (NodeCompressor ids) m (FunCompressor ids)).
Definition funId (f : F) ids : Z * Ids :=
  let '(i, m) := ByValue.getOrInsert f (FunCompressor ids) in
  (i, mkIds (NodeCompressor ids) (FactCompressor ids) m).

(** A query as the solver makes it: it takes the ids, packs them and asks. *)
Definition ask (q : Query) ids c : Answer (D := D) (EF := EF) * Ids * FlowEdgeFunctionCacheNG :=
  match q with
  | QNormalFF a b =>
      let '(i, ids) := nodeId a ids in let '(j, ids) := nodeId b ids in
      let '(r, c) := getNormalFlowFunction a b (combineIds i j) c in (Flow r, ids, c)
  | QCallFF a g =>
      let '(i, ids) := nodeId a ids in let '(k, ids) := funId g ids in
      let '(r, c) := getCallFlowFunction a g (combineIds i k) c in (Flow r, ids, c)
  | QRetFF a g e b =>
      let '(i, ids) := nodeId a ids in let '(k, ids) := funId g ids in
      let '(x, ids) := nodeId e ids in let '(j, ids) := nodeId b ids in
      let '(r, c) := getRetFlowFunction a g e b (combineIds i x) (combineIds k j) c in
      (Flow r, ids, c)
  | QCallToRetFF a b l =>
      let '(i, ids) := nodeId a ids in let '(j, ids) := nodeId b ids in
      let '(r, c) := getCallToRetFlowFunction a b l (combineIds i j) c in (Flow r, ids, c)
  | QSummaryFF a g =>
      let '(r, c) := getSummaryFlowFunction a g c in (SummaryFlow r, ids, c)
  | QNormalEF a x b y =>
      let '(i, ids) := nodeId a ids in let '(j, ids) := nodeId b ids in
      let '(u, ids) := factId x ids in let '(v, ids) := factId y ids in
      let '(r, c) := getNormalEdgeFunction a x b y (combineIds i j) (combineIds u v) c in
      (Edge r, ids, c)
  | QCallEF a x g y =>
      let '(i, ids) := nodeId a ids in let '(k, ids) := funId g ids in
      let '(u, ids) := factId x ids in let '(v, ids) := factId y ids in
      let '(r, c) := getCallEdgeFunction a x g y (combineIds i k) (combineIds u v) c in
      (Edge r, ids, c)
  | QReturnEF a g e x b y =>
      let '(i, ids) := nodeId a ids in let '(w, ids) := nodeId e ids in
      let '(j, ids) := nodeId b ids in
      let '(u, ids) := factId x ids in let '(v, ids) := factId y ids in
      let '(r, c) :=
        getReturnEdgeFunction a g e x b y w (combineIds i j) (combineIds u v) c in
      (Edge r, ids, c)
  | QCallToRetEF a x b y l =>
      let '(i, ids) := nodeId a ids in let '(j, ids) := nodeId b ids in
      let '(u, ids) := factId x ids in let '(v, ids) := factId y ids in
      let '(r, c) := getCallToRetEdgeFunction a x b y l (combineIds i j) (combineIds u v) c in
      (Edge r, ids, c)
  | QSummaryEF a x b y =>
      let '(i, ids) := nodeId a ids in let '(j, ids) := nodeId b ids in
      let '(u, ids) := factId x ids in let '(v, ids) := factId y ids in
      let '(r, c) := getSummaryEdgeFunction a x b y (combineIds i j) (combineIds u v) c in
      (Edge r, ids, c)
  end.

(** What the solver does with the cache. *)
Inductive CacheOp :=
  | Ask (q : Query)
  | ClearFlowFunctions
  | Clear.

Definition step (op : CacheOp) ids c : option (Answer (D := D) (EF := EF)) * Ids * FlowEdgeFunctionCacheNG :=
  match op with
  | Ask q => let '(a, ids, c) := ask q ids c in (Some a, ids, c)
  | ClearFlowFunctions => (None, ids, clearFlowFunctions c)
  | Clear => (None, ids, clear c)
  end.

Fixpoint steps (ops : list CacheOp) ids c :
    list (option (Answer (D := D) (EF := EF))) * Ids * FlowEdgeFunctionCacheNG :=
  match ops with
  | [] => ([], ids, c)
  | op :: ops =>
      let '(a, ids, c) := step op ids c in
      let '(l, ids, c) := steps ops ids c in (a :: l, ids, c)
  end.

Definition emptyIds : Ids := mkIds ByValue.empty ByValue.empty ByValue.empty.

(** What the problem answers. *)
Definition answer (q : Query) : Answer (D := D) (EF := EF) :=
  match q with
  | QNormalFF a b => Flow (wrapFlowFunction (IDEProblem.getNormalFlowFunction Problem a b))
  | QCallFF a b => Flow (wrapFlowFunction (IDEProblem.getCallFlowFunction Problem a b))
  | QRetFF a b x y => Flow (wrapFlowFunction (IDEProblem.getRetFlowFunction Problem a b x y))
  | QCallToRetFF a b l => Flow (wrapFlowFunction (IDEProblem.getCallToRetFlowFunction Problem a b l))
  | QSummaryFF a b => SummaryFlow (IDEProblem.getSummaryFlowFunction Problem a b)
  | QNormalEF a x b y => Edge (IDEProblem.getNormalEdgeFunction Problem a x b y)
  | QCallEF a x g y => Edge (IDEProblem.getCallEdgeFunction Problem a x g y)
  | QReturnEF a g e x b y => Edge (IDEProblem.getReturnEdgeFunction Problem a g e x b y)
  | QCallToRetEF a x b y l => Edge (IDEProblem.getCallToRetEdgeFunction Problem a x b y l)
  | QSummaryEF a x b y => Edge (IDEProblem.getSummaryEdgeFunction Problem a x b y)
  end.
End cache.
End NG.
