(* ===== verification/FlowEdgeFunctionCacheNGCorrect.v ===== *)
(** The cache of the [IterativeIDESolver] is a memo table: every query acts on one
    key of an abstract table ([view]), and queries with the same key have the same
    answer. *)
From S2P Require Import Prelude JoinLattice EquivalenceClassMap Compressor IDEProblem FlowEdgeFunctionCache FlowEdgeFunctionCacheNG.
Import NG.

(** * Compressors that hold the objects of a finite set *)

Section ids.
Context {T : Type} `{Countable T} (U : gset T).
Implicit Types (c : ByValue.Compressor T) (x : T).

Record comp_in c : Prop := {
  ci_wf : comp_wf c;
  ci_size : ByValue.size c = size (ByValue.ToInt c);
  ci_dom : dom (ByValue.ToInt c) ⊆ U
}.

Lemma comp_in_empty : comp_in ByValue.empty.
Proof. split; [apply comp_wf_empty|done|]. simpl. set_solver. Qed.

Lemma getOrInsert_in x c :
  (Z.of_nat (size U) < 2 ^ 32)%Z → x ∈ U → comp_in c →
  let '(i, c') := ByValue.getOrInsert x c in
  comp_in c' ∧ ByValue.ToInt c ⊆ ByValue.ToInt c' ∧ ByValue.ToInt c' !! x = Some i.
Proof.
  intros HU Hx [Hw Hs Hd].
  assert (Z.of_nat (ByValue.size c) < 2 ^ 32)%Z as Hlt.
  { rewrite Hs, <- size_dom. apply subseteq_size in Hd. lia. }
  pose proof (getOrInsert_spec x c Hw Hlt) as Hg.
  unfold ByValue.getOrInsert in *. destruct (ByValue.ToInt c !! x) as [i|] eqn:Hi; [done|].
  destruct Hg as (Hw' & Hext & Hx' & _). split; [|split; [apply Hext|done]].
  split; [done| |simpl; rewrite dom_insert; set_solver].
  unfold ByValue.size in *. simpl. rewrite length_app, map_size_insert_None by done. simpl. lia.
Qed.
End ids.

(** * The abstract table *)

Section memo.
Context {N D F L EF : Type} `{Countable N, Countable D, Countable F, EqDecision EF}.
Context (ICF : ICFG N D F) (Problem : IDETabulationProblem N D F L EF) (Traits : CacheTraits).
Context (isCallInst : N → bool).
Abbreviation Cache := (FlowEdgeFunctionCacheNG (N := N) (D := D) (F := F) (EF := EF)).
Abbreviation Query := (Query (N := N) (D := D) (F := F)).
Abbreviation Ids := (Ids (N := N) (D := D) (F := F)).
Implicit Types (c : Cache) (q : Query) (ids : Ids).

Inductive CacheKey :=
  | KNormal (k : Z) | KCtr (k : Z) | KCall (k : Z) | KRet (k : Z * Z) | KSimpleRet (k : Z)
  | KIntraEF (o i : Z) | KCallEF (o i : Z) | KRetEF (o : Z) (i : Z * Z) | KSummaryEF (o i : Z)
  | KNone.

#[export] Instance CacheKey_eq_dec : EqDecision CacheKey.
Proof. solve_decision. Defined.

Inductive Cached :=
  | CFlow (FF : D → gset D)
  | CSummary (FF : option (D → gset D))
  | CEdge (f : EF).

Definition view c (k : CacheKey) : option Cached :=
  match k with
  | KNormal k => CFlow <$> NormalFFCache c !! k
  | KCtr k => CFlow <$> CtrFFCache c !! k
  | KCall k => CFlow <$> CallFFCache c !! k
  | KRet k => CFlow <$> RetFFCache c !! k
  | KSimpleRet k => CFlow <$> SimpleRetFFCache c !! k
  | KIntraEF o i => CEdge <$> (NormalAndCtrEFCache c !! o ≫= ng_value i)
  | KCallEF o i => CEdge <$> (CallEFCache c !! o ≫= ng_value i)
  | KRetEF o i => CEdge <$> (RetEFCache c !! o ≫= ng_value i)
  | KSummaryEF o i => CEdge <$> (SummaryEFCache c !! o ≫= ng_value i)
  | KNone => None
  end.

(** What the problem returns for a query, and how the cache hands it out. *)
Definition raw q : Cached :=
  match q with
  | QNormalFF a b => CFlow (IDEProblem.getNormalFlowFunction Problem a b)
  | QCallFF a b => CFlow (IDEProblem.getCallFlowFunction Problem a b)
  | QRetFF a b x y => CFlow (IDEProblem.getRetFlowFunction Problem a b x y)
  | QCallToRetFF a b l => CFlow (IDEProblem.getCallToRetFlowFunction Problem a b l)
  | QSummaryFF a b => CSummary (IDEProblem.getSummaryFlowFunction Problem a b)
  | QNormalEF a x b y => CEdge (IDEProblem.getNormalEdgeFunction Problem a x b y)
  | QCallEF a x g y => CEdge (IDEProblem.getCallEdgeFunction Problem a x g y)
  | QReturnEF a g e x b y => CEdge (IDEProblem.getReturnEdgeFunction Problem a g e x b y)
  | QCallToRetEF a x b y l => CEdge (IDEProblem.getCallToRetEdgeFunction Problem a x b y l)
  | QSummaryEF a x b y => CEdge (IDEProblem.getSummaryEdgeFunction Problem a x b y)
  end.

Definition hand_out (v : Cached) : Answer (D := D) (EF := EF) :=
  match v with
  | CFlow FF => Flow (wrapFlowFunction Problem Traits FF)
  | CSummary FF => SummaryFlow FF
  | CEdge f => Edge f
  end.

Lemma answer_raw q : answer Problem Traits q = hand_out (raw q).
Proof. by destruct q. Qed.

(** Queries whose answer is kept. *)
Definition cached q : bool :=
  match q with
  | QNormalFF _ _ => needs_cache_normal Traits
  | QCallFF _ _ => needs_cache_call Traits
  | QRetFF _ _ _ _ => needs_cache_ret Traits
  | QCallToRetFF _ _ _ => needs_cache_ctr Traits
  | QSummaryFF _ _ => false
  | _ => true
  end.

Definition nid ids (n : N) : Z := default 0%Z (ByValue.ToInt (NodeCompressor ids) !! n).
Definition did ids (d : D) : Z := default 0%Z (ByValue.ToInt (FactCompressor ids) !! d).
Definition fid ids (f : F) : Z := default 0%Z (ByValue.ToInt (FunCompressor ids) !! f).

Definition nodes ids (a b : N) : Z := combineIds (nid ids a) (nid ids b).
Definition facts ids (x y : D) : Z := combineIds (did ids x) (did ids y).

Definition keyOf ids q : CacheKey :=
  match q with
  | QNormalFF a b => KNormal (nodes ids a b)
  | QCallFF a g => KCall (combineIds (nid ids a) (fid ids g))
  | QRetFF a g e b =>
      if isCallInst a then KSimpleRet (nodes ids a e)
      else KRet (nodes ids a e, combineIds (fid ids g) (nid ids b))
  | QCallToRetFF a b _ =>
      if same_intra_type Traits then KNormal (nodes ids a b) else KCtr (nodes ids a b)
  | QSummaryFF _ _ => KNone
  | QNormalEF a x b y | QCallToRetEF a x b y _ => KIntraEF (nodes ids a b) (facts ids x y)
  | QCallEF a x g y => KCallEF (combineIds (nid ids a) (fid ids g)) (facts ids x y)
  | QReturnEF a g e x b y => KRetEF (nid ids e) (nodes ids a b, facts ids x y)
  | QSummaryEF a x b y => KSummaryEF (nodes ids a b) (facts ids x y)
  end.

(** The inner maps are well formed. *)
Record cache_wf c : Prop := {
  wf_intra o e : NormalAndCtrEFCache c !! o = Some e → ng_wf e;
  wf_call o e : CallEFCache c !! o = Some e → ng_wf e;
  wf_ret o e : RetEFCache c !! o = Some e → ng_wf e;
  wf_summary o e : SummaryEFCache c !! o = Some e → ng_wf e
}.

Lemma emptyCache_wf : cache_wf emptyCache.
Proof. split; intros o e; simpl; by rewrite lookup_empty. Qed.

Lemma getFlowFunction_spec {K} `{Countable K} needs (m : gmap K (D → gset D)) (id : K) q FF :
  let '(r, m', log) := getFlowFunction Problem Traits needs m id q FF in
  r = wrapFlowFunction Problem Traits (if needs then default FF (m !! id) else FF) ∧
  (∀ k, m' !! k = if decide (needs = true ∧ k = id) then Some (default FF (m !! id)) else m !! k) ∧
  log = if needs && bool_decide (is_Some (m !! id)) then [] else [q].
Proof.
  unfold getFlowFunction. destruct needs.
  - destruct (m !! id) as [f|] eqn:Hm; simpl; (split; [done|]); (split; [|done]); intros k.
    + destruct (decide _) as [[_ ->]|]; done.
    + destruct (decide _) as [[_ ->]|Hne]; [apply lookup_insert_eq|].
      apply lookup_insert_ne. naive_solver.
  - split; [done|]. split; [|done]. intros k. destruct (decide _) as [[]|]; done.
Qed.

Lemma getEdgeFunction_spec {K} `{Countable K} (m : gmap Z (EquivalenceClassMapNG.t K EF)) o i q f :
  (∀ o e, m !! o = Some e → ng_wf e) →
  let '(r, m', log) := getEdgeFunction m o i q f in
  let old := m !! o ≫= ng_value i in
  r = default f old ∧ (∀ o e, m' !! o = Some e → ng_wf e) ∧
  (∀ o' i', m' !! o' ≫= ng_value i' =
     if decide (o' = o ∧ i' = i) then Some (default f old) else m !! o' ≫= ng_value i') ∧
  log = if bool_decide (is_Some old) then [] else [q].
Proof.
  intros Hwf. unfold getEdgeFunction. set (e := default EquivalenceClassMapNG.empty (m !! o)).
  assert (ng_wf e) as He.
  { unfold e. destruct (m !! o) eqn:Ho; simpl; [by eapply Hwf|apply ng_wf_empty]. }
  assert (∀ i', m !! o ≫= ng_value i' = ng_value i' e) as Hold.
  { intros i'. unfold e. by destruct (m !! o). }
  pose proof (ng_getOrInsertLazy e i f He) as Hg.
  destruct (EquivalenceClassMapNG.getOrInsertLazy i f e) as [[r e'] hit].
  destruct Hg as (Hwf' & -> & -> & Hv). rewrite Hold. cbv zeta. split; [done|]. split; [|split; [|by case_bool_decide]].
  - intros o' e0. destruct (decide (o = o')) as [<-|Hne].
    + rewrite lookup_insert_eq. by intros [= <-].
    + rewrite lookup_insert_ne by done. apply Hwf.
  - intros o' i'. destruct (decide (o = o')) as [<-|Hne].
    + rewrite lookup_insert_eq. simpl. rewrite Hv, Hold. repeat case_decide; naive_solver.
    + rewrite lookup_insert_ne by done. destruct (decide _) as [[-> _]|]; done.
Qed.

(** ** One query *)

(** A query uses one key of the table. *)
Record memo_step q (key : CacheKey) c (a : Answer (D := D) (EF := EF)) c' : Prop := {
  ms_wf : cache_wf c';
  ms_view k : view c' k =
    if decide (cached q = true ∧ k = key) then Some (default (raw q) (view c key)) else view c k;
  ms_answer : a = hand_out (if cached q then default (raw q) (view c key) else raw q);
  ms_log : Constructed c' = Constructed c ++
    if cached q && bool_decide (is_Some (view c key)) then [] else [q]
}.

Lemma default_fmap {A B} (h : A → B) (x : A) (o : option A) :
  default (h x) (h <$> o) = h (default x o).
Proof. by destruct o. Qed.

Lemma is_Some_fmap_eq {A B} (h : A → B) (o : option A) :
  bool_decide (is_Some (h <$> o)) = bool_decide (is_Some o).
Proof. apply bool_decide_ext. by rewrite fmap_is_Some. Qed.

(** A key of another table. *)
Ltac other_table := rewrite decide_False by (intros [_ ?]; congruence); done.

(** The query of a table of flow functions. *)
Ltac flow_query :=
  let Hwf := fresh "Hwf" in let Hs := fresh "Hs" in let Hne := fresh "Hne" in
  intros Hwf; simpl;
  match goal with |- context [getFlowFunction Problem Traits ?needs ?m ?id ?q ?FF] =>
    pose proof (getFlowFunction_spec needs m id q FF) as Hs;
    destruct (getFlowFunction Problem Traits needs m id q FF) as [[? ?] ?];
    destruct Hs as (-> & Hs & ->);
    split; simpl;
      [ by destruct Hwf
      | intros []; try other_table; simpl; rewrite Hs;
        match goal with |- context [decide (needs = true ∧ ?k = id)] =>
          destruct (decide (needs = true ∧ k = id)) as [[? ->]|Hne] end;
        [rewrite decide_True by done; by rewrite default_fmap
        |rewrite decide_False by (intros [? [=]]; naive_solver); done]
      | rewrite default_fmap; by destruct needs
      | by rewrite is_Some_fmap_eq ]
  end.

(** The query of a table of edge functions. *)
Ltac edge_query wf :=
  let Hwf := fresh "Hwf" in let Hs := fresh "Hs" in let Hne := fresh "Hne" in
  intros Hwf; simpl;
  match goal with |- context [getEdgeFunction ?m ?o ?i ?q ?f] =>
    pose proof (getEdgeFunction_spec m o i q f (wf _ Hwf)) as Hs;
    destruct (getEdgeFunction m o i q f) as [[? ?] ?];
    cbv zeta in Hs; destruct Hs as (-> & ? & Hs & ->);
    split; simpl;
      [ destruct Hwf; by split
      | intros []; try other_table; simpl; rewrite Hs;
        match goal with |- context [decide (?o' = o ∧ ?i' = i)] =>
          destruct (decide (o' = o ∧ i' = i)) as [[-> ->]|Hne] end;
        [rewrite decide_True by done; by rewrite default_fmap
        |rewrite decide_False by (intros [_ [=]]; naive_solver); done]
      | by rewrite default_fmap
      | by rewrite is_Some_fmap_eq ]
  end.

Lemma getNormalFlowFunction_step a b ids c :
  cache_wf c →
  let '(r, c') := getNormalFlowFunction Problem Traits a b (nodes ids a b) c in
  memo_step (QNormalFF a b) (keyOf ids (QNormalFF a b)) c (Flow r) c'.
Proof. unfold getNormalFlowFunction. flow_query. Qed.

Lemma getCallFlowFunction_step a g ids c :
  cache_wf c →
  let '(r, c') := getCallFlowFunction Problem Traits a g (combineIds (nid ids a) (fid ids g)) c in
  memo_step (QCallFF a g) (keyOf ids (QCallFF a g)) c (Flow r) c'.
Proof. unfold getCallFlowFunction. flow_query. Qed.

Lemma getCallToRetFlowFunction_step a b l ids c :
  cache_wf c →
  let '(r, c') := getCallToRetFlowFunction Problem Traits a b l (nodes ids a b) c in
  memo_step (QCallToRetFF a b l) (keyOf ids (QCallToRetFF a b l)) c (Flow r) c'.
Proof.
  unfold getCallToRetFlowFunction, keyOf. cbv zeta.
  destruct (same_intra_type Traits); flow_query.
Qed.

Lemma getRetFlowFunction_step a g e b ids c :
  cache_wf c →
  let '(r, c') := getRetFlowFunction Problem Traits isCallInst a g e b (nodes ids a e)
    (combineIds (fid ids g) (nid ids b)) c in
  memo_step (QRetFF a g e b) (keyOf ids (QRetFF a g e b)) c (Flow r) c'.
Proof. unfold getRetFlowFunction, keyOf. cbv zeta. destruct (isCallInst a); flow_query. Qed.

Lemma getSummaryFlowFunction_step a g c :
  cache_wf c →
  let '(r, c') := getSummaryFlowFunction Problem a g c in
  memo_step (QSummaryFF a g) KNone c (SummaryFlow r) c'.
Proof.
  intros []. split; [done| |done|done]. intros k. rewrite decide_False by (intros [? _]; done). by destruct k.
Qed.

Lemma getNormalEdgeFunction_step a x b y ids c :
  cache_wf c →
  let '(r, c') := getNormalEdgeFunction Problem a x b y (nodes ids a b) (facts ids x y) c in
  memo_step (QNormalEF a x b y) (keyOf ids (QNormalEF a x b y)) c (Edge r) c'.
Proof. unfold getNormalEdgeFunction, set_intraEF. edge_query wf_intra. Qed.

Lemma getCallToRetEdgeFunction_step a x b y l ids c :
  cache_wf c →
  let '(r, c') := getCallToRetEdgeFunction Problem a x b y l (nodes ids a b) (facts ids x y) c in
  memo_step (QCallToRetEF a x b y l) (keyOf ids (QCallToRetEF a x b y l)) c (Edge r) c'.
Proof. unfold getCallToRetEdgeFunction, set_intraEF. edge_query wf_intra. Qed.

Lemma getCallEdgeFunction_step a x g y ids c :
  cache_wf c →
  let '(r, c') := getCallEdgeFunction Problem a x g y (combineIds (nid ids a) (fid ids g))
    (facts ids x y) c in
  memo_step (QCallEF a x g y) (keyOf ids (QCallEF a x g y)) c (Edge r) c'.
Proof. unfold getCallEdgeFunction. edge_query wf_call. Qed.

Lemma getReturnEdgeFunction_step a g e x b y ids c :
  cache_wf c →
  let '(r, c') := getReturnEdgeFunction Problem a g e x b y (nid ids e) (nodes ids a b)
    (facts ids x y) c in
  memo_step (QReturnEF a g e x b y) (keyOf ids (QReturnEF a g e x b y)) c (Edge r) c'.
Proof. unfold getReturnEdgeFunction. edge_query wf_ret. Qed.

Lemma getSummaryEdgeFunction_step a x b y ids c :
  cache_wf c →
  let '(r, c') := getSummaryEdgeFunction Problem a x b y (nodes ids a b) (facts ids x y) c in
  memo_step (QSummaryEF a x b y) (keyOf ids (QSummaryEF a x b y)) c (Edge r) c'.
Proof. unfold getSummaryEdgeFunction. edge_query wf_summary. Qed.

(** Later ids. *)
Record ids_ext ids ids' : Prop := {
  ie_nodes : ByValue.ToInt (NodeCompressor ids) ⊆ ByValue.ToInt (NodeCompressor ids');
  ie_facts : ByValue.ToInt (FactCompressor ids) ⊆ ByValue.ToInt (FactCompressor ids');
  ie_funs : ByValue.ToInt (FunCompressor ids) ⊆ ByValue.ToInt (FunCompressor ids')
}.

#[export] Instance ids_ext_preorder : PreOrder ids_ext.
Proof.
  split; [by split|]. intros i1 i2 i3 [N1 D1 F1] [N2 D2 F2].
  split; [by transitivity (ByValue.ToInt (NodeCompressor i2))
         |by transitivity (ByValue.ToInt (FactCompressor i2))
         |by transitivity (ByValue.ToInt (FunCompressor i2))].
Qed.

Context (UN : gset N) (UD : gset D) (UF : gset F).
Context (HUN : (Z.of_nat (size UN) < 2 ^ 32)%Z) (HUD : (Z.of_nat (size UD) < 2 ^ 32)%Z)
  (HUF : (Z.of_nat (size UF) < 2 ^ 32)%Z).

Record ids_in ids : Prop := {
  ii_nodes : comp_in UN (NodeCompressor ids);
  ii_facts : comp_in UD (FactCompressor ids);
  ii_funs : comp_in UF (FunCompressor ids)
}.

Definition has_node ids (n : N) : Prop := is_Some (ByValue.ToInt (NodeCompressor ids) !! n).
Definition has_fact ids (d : D) : Prop := is_Some (ByValue.ToInt (FactCompressor ids) !! d).
Definition has_fun ids (f : F) : Prop := is_Some (ByValue.ToInt (FunCompressor ids) !! f).

Lemma has_node_ext ids ids' n : ids_ext ids ids' → has_node ids n → has_node ids' n ∧ nid ids' n = nid ids n.
Proof.
  intros [He _ _] [i Hi]. unfold has_node, nid. rewrite (lookup_weaken _ _ _ _ Hi He), Hi. by eauto.
Qed.
Lemma has_fact_ext ids ids' d : ids_ext ids ids' → has_fact ids d → has_fact ids' d ∧ did ids' d = did ids d.
Proof.
  intros [_ He _] [i Hi]. unfold has_fact, did. rewrite (lookup_weaken _ _ _ _ Hi He), Hi. by eauto.
Qed.
Lemma has_fun_ext ids ids' f : ids_ext ids ids' → has_fun ids f → has_fun ids' f ∧ fid ids' f = fid ids f.
Proof.
  intros [_ _ He] [i Hi]. unfold has_fun, fid. rewrite (lookup_weaken _ _ _ _ Hi He), Hi. by eauto.
Qed.

Lemma nodeId_spec n ids :
  n ∈ UN → ids_in ids →
  let '(i, ids') := nodeId n ids in
  ids_in ids' ∧ ids_ext ids ids' ∧ has_node ids' n ∧ i = nid ids' n.
Proof.
  intros Hn [Hin Hid Hif]. unfold nodeId. pose proof (getOrInsert_in UN n _ HUN Hn Hin) as Hg.
  destruct (ByValue.getOrInsert n _) as [i m]. destruct Hg as (Hin' & He & Hi).
  split; [done|]. split; [done|]. unfold has_node, nid. simpl. rewrite Hi. by eauto.
Qed.
Lemma factId_spec d ids :
  d ∈ UD → ids_in ids →
  let '(i, ids') := factId d ids in
  ids_in ids' ∧ ids_ext ids ids' ∧ has_fact ids' d ∧ i = did ids' d.
Proof.
  intros Hn [Hin Hid Hif]. unfold factId. pose proof (getOrInsert_in UD d _ HUD Hn Hid) as Hg.
  destruct (ByValue.getOrInsert d _) as [i m]. destruct Hg as (Hin' & He & Hi).
  split; [done|]. split; [done|]. unfold has_fact, did. simpl. rewrite Hi. by eauto.
Qed.
Lemma funId_spec f ids :
  f ∈ UF → ids_in ids →
  let '(i, ids') := funId f ids in
  ids_in ids' ∧ ids_ext ids ids' ∧ has_fun ids' f ∧ i = fid ids' f.
Proof.
  intros Hn [Hin Hid Hif]. unfold funId. pose proof (getOrInsert_in UF f _ HUF Hn Hif) as Hg.
  destruct (ByValue.getOrInsert f _) as [i m]. destruct Hg as (Hin' & He & Hi).
  split; [done|]. split; [done|]. unfold has_fun, fid. simpl. rewrite Hi. by eauto.
Qed.

(** ** A query with its ids *)

Definition in_sets q : Prop :=
  match q with
  | QNormalFF a b | QCallToRetFF a b _ => a ∈ UN ∧ b ∈ UN
  | QCallFF a g => a ∈ UN ∧ g ∈ UF
  | QRetFF a g e b => a ∈ UN ∧ g ∈ UF ∧ e ∈ UN ∧ b ∈ UN
  | QSummaryFF _ _ => True
  | QNormalEF a x b y | QCallToRetEF a x b y _ | QSummaryEF a x b y =>
      a ∈ UN ∧ b ∈ UN ∧ x ∈ UD ∧ y ∈ UD
  | QCallEF a x g y => a ∈ UN ∧ g ∈ UF ∧ x ∈ UD ∧ y ∈ UD
  | QReturnEF a g e x b y => a ∈ UN ∧ e ∈ UN ∧ b ∈ UN ∧ x ∈ UD ∧ y ∈ UD
  end.

(** The query's key is made of ids that were given out. *)
Definition mentions ids q : Prop :=
  match q with
  | QNormalFF a b | QCallToRetFF a b _ => has_node ids a ∧ has_node ids b
  | QCallFF a g => has_node ids a ∧ has_fun ids g
  | QRetFF a g e b => has_node ids a ∧ has_fun ids g ∧ has_node ids e ∧ has_node ids b
  | QSummaryFF _ _ => True
  | QNormalEF a x b y | QCallToRetEF a x b y _ | QSummaryEF a x b y =>
      has_node ids a ∧ has_node ids b ∧ has_fact ids x ∧ has_fact ids y
  | QCallEF a x g y => has_node ids a ∧ has_fun ids g ∧ has_fact ids x ∧ has_fact ids y
  | QReturnEF a g e x b y =>
      has_node ids a ∧ has_node ids e ∧ has_node ids b ∧ has_fact ids x ∧ has_fact ids y
  end.

(** What was known of the ids before, at the later ids. *)
Ltac lift_ids He :=
  repeat match goal with
  | Hh : has_node ?i ?n |- _ =>
      match type of He with ids_ext i ?i' =>
        let E := fresh in
        destruct (has_node_ext i i' n He Hh) as [? E]; try rewrite <- E; clear Hh E end
  | Hh : has_fact ?i ?n |- _ =>
      match type of He with ids_ext i ?i' =>
        let E := fresh in
        destruct (has_fact_ext i i' n He Hh) as [? E]; try rewrite <- E; clear Hh E end
  | Hh : has_fun ?i ?n |- _ =>
      match type of He with ids_ext i ?i' =>
        let E := fresh in
        destruct (has_fun_ext i i' n He Hh) as [? E]; try rewrite <- E; clear Hh E end
  end.

Ltac take_id :=
  let Hs := fresh in let He := fresh "He" in let i := fresh "i" in let ids' := fresh "ids" in
  match goal with
  | Hin : ids_in ?ids |- context [nodeId ?n ?ids] =>
      pose proof (nodeId_spec n ids ltac:(done) Hin) as Hs; destruct (nodeId n ids) as [i ids']
  | Hin : ids_in ?ids |- context [factId ?n ?ids] =>
      pose proof (factId_spec n ids ltac:(done) Hin) as Hs; destruct (factId n ids) as [i ids']
  | Hin : ids_in ?ids |- context [funId ?n ?ids] =>
      pose proof (funId_spec n ids ltac:(done) Hin) as Hs; destruct (funId n ids) as [i ids']
  end;
  destruct Hs as (? & He & ? & ->); lift_ids He.

(** Asking with the ids taken. *)
Ltac ask_with lem :=
  let Hm := fresh in
  pose proof lem as Hm; unfold nodes, facts in Hm;
  lazymatch type of Hm with (let '(_, _) := ?t in _) => destruct t as [? ?] end;
  split; [done|]; split; [repeat (etransitivity; [eassumption|]); done|]; split; [done|exact Hm].

Lemma ask_spec q ids c :
  in_sets q → ids_in ids → cache_wf c →
  let '(a, ids', c') := ask Problem Traits isCallInst q ids c in
  ids_in ids' ∧ ids_ext ids ids' ∧ mentions ids' q ∧ memo_step q (keyOf ids' q) c a c'.
Proof.
  intros Hq Hids Hc.
  destruct q as [a b|a g|a g e b|a b l|a g|a x b y|a x g y|a g e x b y|a x b y l|a x b y];
    simpl in Hq; split_hyps; cbn [ask]; repeat take_id.
  - ask_with (getNormalFlowFunction_step a b ids1 c Hc).
  - ask_with (getCallFlowFunction_step a g ids1 c Hc).
  - ask_with (getRetFlowFunction_step a g e b ids3 c Hc).
  - ask_with (getCallToRetFlowFunction_step a b l ids1 c Hc).
  - ask_with (getSummaryFlowFunction_step a g c Hc).
  - ask_with (getNormalEdgeFunction_step a x b y ids3 c Hc).
  - ask_with (getCallEdgeFunction_step a x g y ids3 c Hc).
  - ask_with (getReturnEdgeFunction_step a g e x b y ids4 c Hc).
  - ask_with (getCallToRetEdgeFunction_step a x b y l ids3 c Hc).
  - ask_with (getSummaryEdgeFunction_step a x b y ids3 c Hc).
Qed.

Lemma mentions_ext ids ids' q :
  ids_ext ids ids' → mentions ids q → mentions ids' q ∧ keyOf ids' q = keyOf ids q.
Proof.
  intros He. unfold keyOf, nodes, facts.
  destruct q as [a b|a g|a g e b|a b l|a g|a x b y|a x g y|a g e x b y|a x b y l|a x b y];
    simpl; intros Hm; split_hyps;
    repeat match goal with
    | Hh : has_node ids ?n |- _ => destruct (has_node_ext ids ids' n He Hh) as [? ->]; clear Hh
    | Hh : has_fact ids ?n |- _ => destruct (has_fact_ext ids ids' n He Hh) as [? ->]; clear Hh
    | Hh : has_fun ids ?n |- _ => destruct (has_fun_ext ids ids' n He Hh) as [? ->]; clear Hh
    end; done.
Qed.

(** ** Keys determine answers *)

(** How the solver asks. *)
Definition well_asked q : Prop :=
  match q with
  | QNormalFF a _ | QNormalEF a _ _ _ => isCallSite ICF a = false
  | QCallToRetFF a _ l | QCallToRetEF a _ _ _ l =>
      isCallSite ICF a = true ∧ l = getCalleesOfCallAt ICF a
  | QRetFF a g e b =>
      getFunctionOf ICF e = g ∧ (isCallInst a = true → getReturnSitesOfCallAt ICF a = [b])
  | QReturnEF a g e _ _ _ => getFunctionOf ICF e = g
  | _ => True
  end.

Lemma id_inj {T} `{Countable T} (U : gset T) (m : ByValue.Compressor T) x y :
  comp_in U m → is_Some (ByValue.ToInt m !! x) → is_Some (ByValue.ToInt m !! y) →
  let i := default 0%Z (ByValue.ToInt m !! x) in
  let j := default 0%Z (ByValue.ToInt m !! y) in
  is_id i ∧ is_id j ∧ (i = j → x = y).
Proof.
  intros [Hw _ _] [i Hi] [j Hj]. cbv zeta. rewrite Hi, Hj. simpl.
  split; [by eapply comp_wf_range|]. split; [by eapply comp_wf_range|].
  intros ->. by eapply comp_wf_inj.
Qed.

Lemma combine_inj {A B} `{Countable A, Countable B} (UA : gset A) (UB : gset B)
    (m : ByValue.Compressor A) (n : ByValue.Compressor B) a b a' b' :
  comp_in UA m → comp_in UB n →
  is_Some (ByValue.ToInt m !! a) → is_Some (ByValue.ToInt m !! a') →
  is_Some (ByValue.ToInt n !! b) → is_Some (ByValue.ToInt n !! b') →
  combineIds (default 0%Z (ByValue.ToInt m !! a)) (default 0%Z (ByValue.ToInt n !! b)) =
  combineIds (default 0%Z (ByValue.ToInt m !! a')) (default 0%Z (ByValue.ToInt n !! b')) →
  a = a' ∧ b = b'.
Proof.
  intros Hm Hn Ha Ha' Hb Hb' Heq.
  destruct (id_inj UA m a a' Hm Ha Ha') as (Hi & Hi' & Hia).
  destruct (id_inj UB n b b' Hn Hb Hb') as (Hj & Hj' & Hib).
  apply combineIds_inj in Heq as [? ?]; auto.
Qed.

Section keys.
Context (ids : Ids) (Hids : ids_in ids).

Lemma nodes_inj a b a' b' :
  has_node ids a → has_node ids b → has_node ids a' → has_node ids b' →
  nodes ids a b = nodes ids a' b' → a = a' ∧ b = b'.
Proof. intros. by eapply (combine_inj UN UN); try apply Hids. Qed.

Lemma facts_inj a b a' b' :
  has_fact ids a → has_fact ids b → has_fact ids a' → has_fact ids b' →
  facts ids a b = facts ids a' b' → a = a' ∧ b = b'.
Proof. intros. by eapply (combine_inj UD UD); try apply Hids. Qed.

Lemma node_fun_inj a g a' g' :
  has_node ids a → has_fun ids g → has_node ids a' → has_fun ids g' →
  combineIds (nid ids a) (fid ids g) = combineIds (nid ids a') (fid ids g') → a = a' ∧ g = g'.
Proof. intros. by eapply (combine_inj UN UF); try apply Hids. Qed.

Lemma fun_node_inj g a g' a' :
  has_fun ids g → has_node ids a → has_fun ids g' → has_node ids a' →
  combineIds (fid ids g) (nid ids a) = combineIds (fid ids g') (nid ids a') → g = g' ∧ a = a'.
Proof. intros. by eapply (combine_inj UF UN); try apply Hids. Qed.

Lemma node_inj a a' : has_node ids a → has_node ids a' → nid ids a = nid ids a' → a = a'.
Proof. intros Ha Ha'. by apply (id_inj UN (NodeCompressor ids) a a'); [apply Hids|..]. Qed.
End keys.

(** Undo the packing of ids in the equation of two keys. *)
Ltac unpack :=
  repeat match goal with
  | Hk : nodes _ _ _ = nodes _ _ _ |- _ => apply nodes_inj in Hk as [? ?]; [|done..]; simplify_eq
  | Hk : facts _ _ _ = facts _ _ _ |- _ => apply facts_inj in Hk as [? ?]; [|done..]; simplify_eq
  | Hk : combineIds (nid _ _) (fid _ _) = _ |- _ =>
      apply node_fun_inj in Hk as [? ?]; [|done..]; simplify_eq
  | Hk : combineIds (fid _ _) (nid _ _) = _ |- _ =>
      apply fun_node_inj in Hk as [? ?]; [|done..]; simplify_eq
  | Hk : nid _ _ = nid _ _ |- _ => apply node_inj in Hk; [|done..]; simplify_eq
  end.

Lemma key_answer ids q q' :
  ids_in ids → well_asked q → well_asked q' → mentions ids q → mentions ids q' →
  cached q = true → cached q' = true → keyOf ids q = keyOf ids q' → raw q = raw q'.
Proof.
  intros Hids Hq Hq' Hm Hm' Hc Hc' Hk. unfold keyOf in Hk.
  destruct q, q'; simpl in Hq, Hq', Hm, Hm', Hc, Hc'; split_hyps; repeat case_match;
    try done; injection Hk; intros; unpack; simpl;
    try congruence; naive_solver congruence.
Qed.

(** ** Runs of the cache *)

(** Every entry is the answer of a query that was asked. *)
Record memo_ok ids c : Prop := {
  mo_ids : ids_in ids;
  mo_wf : cache_wf c;
  mo_view k v : view c k = Some v →
    ∃ q, well_asked q ∧ mentions ids q ∧ cached q = true ∧ k = keyOf ids q ∧ v = raw q
}.

Lemma memo_empty : memo_ok emptyIds emptyCache.
Proof.
  split; [split; apply comp_in_empty|apply emptyCache_wf|]. by intros [] v; simpl; rewrite ?lookup_empty.
Qed.

Lemma ask_memo q ids c :
  well_asked q → in_sets q → memo_ok ids c →
  let '(a, ids', c') := ask Problem Traits isCallInst q ids c in
  memo_ok ids' c' ∧ ids_ext ids ids' ∧ mentions ids' q ∧ memo_step q (keyOf ids' q) c a c' ∧
  a = answer Problem Traits q.
Proof.
  intros Hq Hin [Hids Hwf Hv]. pose proof (ask_spec q ids c Hin Hids Hwf) as Ha.
  destruct (ask Problem Traits isCallInst q ids c) as [[a ids'] c'].
  destruct Ha as (Hids' & He & Hm & Hstep).
  assert (∀ k v, view c k = Some v →
    ∃ q, well_asked q ∧ mentions ids' q ∧ cached q = true ∧ k = keyOf ids' q ∧ v = raw q) as Hv'.
  { intros k v (q0 & Hq0 & Hm0 & Hc0 & -> & ->)%Hv. exists q0.
    destruct (mentions_ext ids ids' q0 He Hm0) as [? ->]. done. }
  assert (cached q = true → default (raw q) (view c (keyOf ids' q)) = raw q) as Hraw.
  { intros Hc. destruct (view c (keyOf ids' q)) as [v|] eqn:Hl; [|done].
    destruct (Hv' _ _ Hl) as (q0 & Hq0 & Hm0 & Hc0 & Hk & ->). simpl.
    by apply (key_answer ids' q0 q). }
  split; [|split; [done|split; [done|split; [done|]]]].
  - split; [done|by destruct Hstep|]. intros k v. rewrite (ms_view _ _ _ _ _ Hstep).
    case_decide as Hd; [|apply Hv']. destruct Hd as [Hc ->]. rewrite Hraw by done.
    intros [= <-]. by exists q.
  - rewrite (ms_answer _ _ _ _ _ Hstep), answer_raw. destruct (cached q); [by rewrite Hraw|done].
Qed.

(** Tables that lost entries. *)
Lemma memo_less ids c c' :
  cache_wf c' → (∀ k v, view c' k = Some v → view c k = Some v) → memo_ok ids c → memo_ok ids c'.
Proof. intros Hw Hle [Hids _ Hv]. split; [done..|]. intros k v Hk%Hle. by apply Hv. Qed.

Lemma clear_memo ids c :
  memo_ok ids c → memo_ok ids (clearFlowFunctions c) ∧ memo_ok ids (clear c).
Proof.
  intros Hc. pose proof (mo_wf _ _ Hc) as []. split; (eapply memo_less; [|clear Hc|exact Hc]).
  - by split.
  - by intros [] v; simpl; rewrite ?lookup_empty.
  - split; intros o e; simpl; by rewrite lookup_empty.
  - by intros [] v; simpl; rewrite ?lookup_empty.
Qed.

Definition op_ok (op : CacheOp (N := N) (D := D) (F := F)) : Prop :=
  match op with Ask q => well_asked q ∧ in_sets q | _ => True end.

Definition op_answer (op : CacheOp (N := N) (D := D) (F := F)) : option (Answer (D := D) (EF := EF)) :=
  match op with Ask q => Some (answer Problem Traits q) | _ => None end.

Lemma steps_memo ops ids c :
  Forall op_ok ops → memo_ok ids c →
  let '(answers, ids', c') := steps Problem Traits isCallInst ops ids c in
  answers = op_answer <$> ops ∧ memo_ok ids' c'.
Proof.
  intros Hops. revert ids c. induction Hops as [|op ops Hop _ IH]; intros ids c Hc; [done|]. simpl.
  assert (let '(a, ids', c') := step Problem Traits isCallInst op ids c in
    a = op_answer op ∧ memo_ok ids' c') as Hstep.
  { destruct op as [q| |]; simpl in *.
    - destruct Hop as [Hq Hin]. pose proof (ask_memo q ids c Hq Hin Hc) as Ha.
      destruct (ask Problem Traits isCallInst q ids c) as [[a ids'] c'].
      destruct Ha as (? & _ & _ & _ & ->). done.
    - split; [done|]. by apply clear_memo.
    - split; [done|]. by apply clear_memo. }
  destruct (step Problem Traits isCallInst op ids c) as [[a ids1] c1]. destruct Hstep as [-> Hc1].
  specialize (IH ids1 c1 Hc1).
  destruct (steps Problem Traits isCallInst ops ids1 c1) as [[l ids2] c2]. destruct IH as [-> ?]. done.
Qed.

(** What was constructed is in the table, once. *)
Definition made_once ids c : Prop :=
  (∀ q, q ∈ Constructed c → cached q = true → mentions ids q ∧ is_Some (view c (keyOf ids q))) ∧
  NoDup (filter (λ q, cached q = true) (Constructed c)).

Lemma ask_made_once q ids c a ids' c' :
  ids_ext ids ids' → mentions ids' q → memo_step q (keyOf ids' q) c a c' →
  made_once ids c → made_once ids' c'.
Proof.
  intros He Hm [_ Hv _ Hl] [Hin Hnd].
  assert (∀ q0, q0 ∈ Constructed c → cached q0 = true →
    mentions ids' q0 ∧ is_Some (view c' (keyOf ids' q0))) as Hold.
  { intros q0 Hq0 Hc0. destruct (Hin q0 Hq0 Hc0) as [Hm0 Hs].
    destruct (mentions_ext ids ids' q0 He Hm0) as [Hm0' Hk]. split; [done|].
    rewrite Hv, Hk. destruct (decide _); [by eexists|done]. }
  split.
  - intros q0. rewrite Hl. intros [Hq0|Hq0]%elem_of_app Hc0; [by apply Hold|].
    destruct (cached q && _) eqn:Hb; [by apply elem_of_nil in Hq0|].
    apply list_elem_of_singleton in Hq0 as ->. split; [done|]. rewrite Hv, decide_True by done. by eauto.
  - rewrite Hl, filter_app. destruct (cached q) eqn:Hc; simpl.
    + case_bool_decide as Hs; [by rewrite app_nil_r|]. rewrite filter_cons_True by done.
      apply NoDup_app. split; [done|]. split; [|apply NoDup_singleton].
      intros q0 [Hc0 Hq0]%list_elem_of_filter ->%list_elem_of_singleton.
      apply Hs. destruct (Hin q Hq0 Hc) as [Hm0 Hs0].
      destruct (mentions_ext ids ids' q He Hm0) as [_ ->]. done.
    + rewrite filter_cons_False by congruence. by rewrite app_nil_r.
Qed.

Lemma steps_made_once qs ids c :
  Forall (λ q, well_asked q ∧ in_sets q) qs → memo_ok ids c → made_once ids c →
  let '(_, ids', c') := steps Problem Traits isCallInst (Ask <$> qs) ids c in made_once ids' c'.
Proof.
  intros Hqs. revert ids c. induction Hqs as [|q qs [Hq Hin] _ IH]; intros ids c Hc Ho; [done|].
  cbn [fmap list_fmap steps step]. pose proof (ask_memo q ids c Hq Hin Hc) as Ha.
  destruct (ask Problem Traits isCallInst q ids c) as [[a ids1] c1].
  destruct Ha as (Hc1 & He & Hm & Hstep & _).
  specialize (IH ids1 c1 Hc1 (ask_made_once q ids c a ids1 c1 He Hm Hstep Ho)).
  fold (fmap (M := list) (Ask (N := N) (D := D) (F := F)) qs) in *.
  destruct (steps Problem Traits isCallInst (Ask <$> qs) ids1 c1) as [[l ids2] c2]. done.
Qed.
End memo.
