(* ===== verification/CacheProperties.v ===== *)
(** The properties of the services of the [IterativeIDESolver]: its compressors
    of objects to ids and its cache of flow and edge functions. *)
From S2P Require Import Prelude JoinLattice Compressor IDEProblem DefaultSemiRing FlowEdgeFunctionCache FlowEdgeFunctionCacheNG FlowEdgeFunctionCacheNGCorrect IDESolverExample.

(** * Compressors *)

(** C38: the two compressors give the same results for every sequence of
    operations; after fewer than 2^32 of them, [getOrInsert] gives an id by which
    the object is found again, that belongs to no other object, leaves all ids
    given out before valid, and can be packed with any other id and unpacked. *)
Theorem compressor_round_trip {T} `{Countable T} (ops : list (CompressorOp T)) (x : T) :
  (Z.of_nat (length ops) < 2 ^ 32)%Z →
  let '(results, c) := run_all run_value ops ByValue.empty in
  let '(i, c') := ByValue.getOrInsert x c in
  (run_all run_ref ops ByRef.empty).1 = results ∧
  ByValue.at_ i c' = Some x ∧ ByValue.getOrNull x c' = Some i ∧ ByValue.inbounds i c' = true ∧
  ByValue.getOrInsert x c' = (i, c') ∧
  (∀ y, ByValue.getOrNull y c' = Some i → y = x) ∧
  (∀ y j, ByValue.getOrNull y c = Some j → ByValue.getOrNull y c' = Some j) ∧
  (∀ j y, ByValue.at_ j c = Some y → ByValue.at_ j c' = Some y) ∧
  ∀ y j, ByValue.getOrNull y c' = Some j → splitId (combineIds i j) = (i, j).
Proof.
  intros Hlen. destruct (run_all_sim ops _ _ empty_sim) as [Hres _].
  destruct (run_all_wf ops ByValue.empty comp_wf_empty) as [Hw Hs].
  { unfold ByValue.size. simpl. lia. }
  destruct (run_all run_value ops ByValue.empty) as [results c]. simpl in *.
  pose proof (getOrInsert_spec x c Hw) as Hg.
  destruct (ByValue.getOrInsert x c) as [i c'].
  destruct Hg as (Hw' & [Hsub [l Hpre]] & Hx & _); [lia|].
  destruct (comp_wf_range c' x i Hw' Hx) as (Hi & Hb & Hat).
  split; [done|]. split; [done|]. split; [done|]. split; [done|]. split; [|split; [|split; [|split]]].
  - unfold ByValue.getOrInsert. by rewrite Hx.
  - intros y Hy. by apply (comp_wf_inj c' y x i).
  - intros y j Hj. by apply (lookup_weaken _ _ _ _ Hj Hsub).
  - intros j y. unfold ByValue.at_. rewrite Hpre. apply lookup_app_l_Some.
  - intros y j Hj. apply splitId_combineIds; [done|]. by apply (comp_wf_range c' y j).
Qed.

Lemma compressor_round_trip_witness :
  let ops := [OpGetOrInsert 7; OpInsertDummy 9; OpInsert 8; OpGetOrInsert 7] in
  let '(results, c) := run_all run_value ops ByValue.empty in
  let '(i, c') := ByValue.getOrInsert 9 c in
  i = 3%Z ∧ (run_all run_ref ops ByRef.empty).1 = results ∧ ByValue.at_ i c' = Some 9.
Proof.
  cbv zeta.
  pose proof (compressor_round_trip [OpGetOrInsert 7; OpInsertDummy 9; OpInsert 8; OpGetOrInsert 7] 9
    ltac:(simpl; lia)) as Hc.
  destruct (run_all run_value _ _) as [results c] eqn:Hr. vm_compute in Hr.
  injection Hr as <- <-. destruct (ByValue.getOrInsert 9 _) as [i c'] eqn:Hg. vm_compute in Hg.
  injection Hg as <- <-. destruct Hc as (Hres & Hat & _). done.
Defined.

(** * The cache of the IterativeIDESolver *)

Section cache.
Import NG.
Context {N D F L EF : Type} `{Countable N, Countable D, Countable F, EqDecision EF}.
Context (ICF : ICFG N D F) (Problem : IDETabulationProblem N D F L EF) (Traits : CacheTraits).
Context (isCallInst : N → bool).

(** C37: asked as the solver asks, with ids from its compressors, about fewer than
    2^32 nodes, facts and functions each, the cache answers every query as the
    problem would, with zero added if so configured, whatever it has been cleared
    of in between; as long as it is not cleared, it asks the problem for each
    function that it keeps at most once. *)
Theorem cache_ng_refines_problem (UN : gset N) (UD : gset D) (UF : gset F)
    (ops : list (CacheOp (N := N) (D := D) (F := F))) :
  (Z.of_nat (size UN) < 2 ^ 32)%Z → (Z.of_nat (size UD) < 2 ^ 32)%Z → (Z.of_nat (size UF) < 2 ^ 32)%Z →
  Forall (op_ok ICF isCallInst UN UD UF) ops →
  let '(answers, _, c) := steps Problem Traits isCallInst ops emptyIds emptyCache in
  answers = op_answer Problem Traits <$> ops ∧
  ((∀ op, op ∈ ops → ∃ q, op = Ask q) → NoDup (filter (λ q, cached Traits q = true) (Constructed c))).
Proof.
  intros HUN HUD HUF Hops.
  pose proof (steps_memo ICF Problem Traits isCallInst UN UD UF HUN HUD HUF ops emptyIds emptyCache Hops
    (memo_empty _ _ _ _ _ _ _)) as Hm.
  assert ((∀ op, op ∈ ops → ∃ q, op = Ask q) → ∃ qs, ops = Ask <$> qs) as Hask.
  { clear Hm Hops. induction ops as [|op ops IH]; intros Hq; [by exists []|].
    destruct (Hq op) as [q ->]; [set_solver|]. destruct IH as [qs ->]; [set_solver|]. by exists (q :: qs). }
  destruct (steps Problem Traits isCallInst ops emptyIds emptyCache) as [[answers ids] c] eqn:Hs.
  destruct Hm as [-> _]. split; [done|]. intros [qs ->]%Hask.
  pose proof (steps_made_once ICF Problem Traits isCallInst UN UD UF HUN HUD HUF qs emptyIds emptyCache)
    as Ho. rewrite Hs in Ho. apply Ho.
  - clear Hs Ho Hask. induction qs as [|q qs IH]; [done|]. inversion Hops as [|? ? Hq Hqs]. subst. by constructor; [|apply IH].
  - apply memo_empty.
  - split; [by intros q ?%elem_of_nil|by apply NoDup_nil].
Qed.
End cache.

Section witness.
Import NG Example.

Definition example_traits : CacheTraits :=
  {| needs_cache_normal := true; needs_cache_call := true; needs_cache_ret := true;
     needs_cache_ctr := true; same_intra_type := true; AutoAddZero := true |}.

Definition example_ops : list (CacheOp (N := nat) (D := nat) (F := nat)) :=
  Ask <$> [QNormalFF 0 1; QCallToRetFF 1 2 [1]; QNormalEF 0 0 1 1; QReturnEF 1 1 11 2 2 3;
           QRetFF 1 1 11 2; QNormalFF 0 1; QReturnEF 1 1 11 2 2 3].

Definition example_nodes : gset nat := {[0; 1; 2; 11]}.
Definition example_facts : gset nat := {[0; 1; 2; 3]}.
Definition example_funs : gset nat := {[1]}.

Lemma cache_ng_refines_problem_witness :
  let '(answers, _, c) :=
    steps problem example_traits (isCallSite icfg) example_ops emptyIds emptyCache in
  answers = op_answer problem example_traits <$> example_ops ∧
  length (Constructed c) = 5 ∧
  NoDup (filter (λ q, cached example_traits q = true) (Constructed c)).
Proof.
  assert (length (Constructed (steps problem example_traits (isCallSite icfg) example_ops emptyIds
    emptyCache).2) = 5) as Hlen by (vm_compute; reflexivity).
  assert (Forall (op_ok icfg (isCallSite icfg) example_nodes example_facts example_funs) example_ops) as Hops.
  { unfold example_ops, example_nodes, example_facts, example_funs. cbn [fmap list_fmap].
    repeat apply List.Forall_cons; try apply List.Forall_nil; cbn [op_ok well_asked in_sets];
      repeat match goal with |- _ ∧ _ => split end;
      match goal with |- _ ∈ _ => set_solver | |- _ → _ => intros; reflexivity | |- _ => reflexivity end. }
  assert (Z.of_nat (size example_nodes) < 2 ^ 32)%Z as HN by (vm_compute; reflexivity).
  assert (Z.of_nat (size example_facts) < 2 ^ 32)%Z as HD by (vm_compute; reflexivity).
  assert (Z.of_nat (size example_funs) < 2 ^ 32)%Z as HF by (vm_compute; reflexivity).
  pose proof (cache_ng_refines_problem icfg problem example_traits (isCallSite icfg)
    _ _ _ example_ops HN HD HF Hops) as Hc.
  destruct (steps _ _ _ _ _ _) as [[answers ids] c]. destruct Hc as [Ha Hnd].
  split; [exact Ha|]. split; [exact Hlen|]. apply Hnd.
  intros op (q & -> & _)%list_elem_of_fmap. by exists q.
Defined.
End witness.
