(* ===== verification/IntraMonoSolver.v ===== *)
(** The monotone framework, part one (DataFlow/Mono/): the analysis problem
    interface [IntraMonoProblem], the view of the control-flow graph it needs,
    and the work-list solver [IntraMonoSolver] with its results. *)
From S2P Require Import Prelude.

(** * The problem interface (IntraMonoProblem.h) *)

(** What the solvers ask of a bidirectional [CFG] with nodes [N] and functions
    [F] ([BidiCFG] and [CFGEdgesProvider] of ControlFlow/CFG.h). *)
Record MonoCFG (N F : Type) := {
  getAllInstructionsOf : F → list N;
  getAllControlFlowEdges : F → list (N * N);
  getSuccsOf : N → list N;
  getPredsOf : N → list N;
  isBranchTarget : N → N → bool
}.
Arguments getAllInstructionsOf {N F} _ _.
Arguments getAllControlFlowEdges {N F} _ _.
Arguments getSuccsOf {N F} _ _.
Arguments getPredsOf {N F} _ _.
Arguments isBranchTarget {N F} _ _ _.

(** The analysis domain's [mono_container_t]: its default constructor and its
    range [insert]. *)
Record mono_container (C : Type) := {
  container_default : C;
  container_insert : C → C → C
}.
Arguments container_default {C} _.
Arguments container_insert {C} _ _ _.

(** An [IntraMonoProblem]: the pure-virtual functions a client overrides, with
    the entry points as the functions [getFunctionDefinition] finds for them.
    The seeds are an [unordered_map]: its entries in iteration order. *)
Record IntraMonoProblem (N F C : Type) := {
  mono_container_t : mono_container C;
  normalFlow : N → C → C;
  merge : C → C → C;
  equal_to : C → C → bool;
  allTop : C;
  initialSeeds : list (N * C);
  getEntryPoints : list F
}.
Arguments mono_container_t {N F C} _.
Arguments normalFlow {N F C} _ _ _.
Arguments merge {N F C} _ _ _.
Arguments equal_to {N F C} _ _ _.
Arguments allTop {N F C} _.
Arguments initialSeeds {N F C} _.
Arguments getEntryPoints {N F C} _.

(** The default [allTop]. *)
Definition default_allTop {C} (K : mono_container C) : C := container_default K.

(** * Work lists *)

(** [while (!Worklist.empty()) body], within [fuel] iterations. *)
Fixpoint while_nonempty {S E : Type} (worklist : S → list E) (body : S → S)
    (fuel : nat) (s : S) : option S :=
  match worklist s with
  | [] => Some s
  | _ => match fuel with
         | 0%nat => None
         | Datatypes.S fuel => while_nonempty worklist body fuel (body s)
         end
  end.

(** * The solver (Solver/IntraMonoSolver.h) *)

Module IntraMono.
Section solver.
Context {N F C : Type} `{Countable N} (CFG : MonoCFG N F) (IMProblem : IntraMonoProblem N F C).

(** The solver's fields. *)
Record state := State { Worklist : list (N * N); Analysis : gmap N C }.

(** [Analysis\[n\]] of an [unordered_map]: a missing key is inserted with a
    default-constructed container. *)
Definition at_ (A : gmap N C) (n : N) : C :=
  default (container_default (mono_container_t IMProblem)) (A !! n).
Definition touch (n : N) (A : gmap N C) : gmap N C := <[n := at_ A n]> A.

(** [Analysis.insert]: keeps an entry that is already there. *)
Definition insert_new (n : N) (c : C) (A : gmap N C) : gmap N C :=
  match A !! n with Some _ => A | None => <[n := c]> A end.

Definition initialize_function (Function : F) (s : state) : state :=
  State (getAllControlFlowEdges CFG Function ++ Worklist s)
        (for_each (getAllInstructionsOf CFG Function)
           (λ Insts, insert_new Insts (allTop IMProblem)) (Analysis s)).

Definition insert_seed (seed : N * C) (A : gmap N C) : gmap N C :=
  <[seed.1 := container_insert (mono_container_t IMProblem) (at_ A seed.1) seed.2]> A.

Definition initialize (s : state) : state :=
  let s' := for_each (getEntryPoints IMProblem) initialize_function s in
  State (Worklist s') (for_each (initialSeeds IMProblem) insert_seed (Analysis s')).

(** The merge with the out-sets of the other predecessors of a branch target. *)
Definition merge_pred (Src Pred : N) (Out_A : C * gmap N C) : C * gmap N C :=
  if decide (Pred = Src) then Out_A
  else let '(Out, A) := Out_A in
       let OtherPredOut := normalFlow IMProblem Pred (at_ A Pred) in
       (merge IMProblem Out OtherPredOut, touch Pred A).

(** The out-set of an edge, and the map as the look-ups leave it. *)
Definition edge_out (Src Dst : N) (A : gmap N C) : C * gmap N C :=
  let Out := normalFlow IMProblem Src (at_ A Src) in
  let A := touch Src A in
  if isBranchTarget CFG Src Dst
  then for_each (getPredsOf CFG Dst) (merge_pred Src) (Out, A)
  else (Out, A).

(** One iteration: the front edge of the work list. *)
Definition step (s : state) : state :=
  match Worklist s with
  | [] => s
  | (Src, Dst) :: rest =>
    let '(Out, A) := edge_out Src Dst (Analysis s) in
    if equal_to IMProblem Out (at_ A Dst) then State rest (touch Dst A)
    else State (rest ++ ((λ Nprimeprime, (Dst, Nprimeprime)) <$> getSuccsOf CFG Dst))
               (<[Dst := Out]> A)
  end.

(** [while (!Worklist.empty())], within a number of iterations. *)
Definition iterate : nat → state → option state := while_nonempty Worklist step.

(** Step 3: the out-set of every node replaces its in-set. *)
Definition present (A : gmap N C) : gmap N C :=
  map_imap (λ Node FlowFacts, Some (normalFlow IMProblem Node FlowFacts)) A.

Definition empty_state : state := State [] ∅.

Definition solve (fuel : nat) : option (gmap N C) :=
  (λ s, present (Analysis s)) <$> iterate fuel (initialize empty_state).

(** [getResultsAt] of the solved analysis. *)
Definition getResultsAt (A : gmap N C) (Stmt : N) : C :=
  match A !! Stmt with
  | Some c => c
  | None => container_default (mono_container_t IMProblem)
  end.

End solver.
End IntraMono.
