(* ===== verification/IntraMonoSolverCorrect.v ===== *)
(** The theory of the monotone framework that its two solvers share: merging
    over the predecessors, the data-flow equations, and the work-list iteration
    as an abstract transition system, with its invariants, its measure and the
    least solution it ends in.

    Correctness of [IntraMonoSolver]: an iteration refines a transition of the
    abstract work-list system, [initialize] reaches its initial state, and the
    results are the out-sets of the least solution. *)
From S2P Require Import Prelude IntraMonoSolver.
(** * Merging a list of containers *)

(** The algebra of [merge] up to an equivalence of containers: associative,
    commutative and idempotent, as union, intersection and the point-wise meets
    of the clients are. *)
Class MergeLaws {C : Type} `{Equiv C} (m : C → C → C) : Prop := {
  merge_equivalence :: Equivalence (≡@{C});
  merge_proper :: Proper ((≡) ==> (≡) ==> (≡)) m;
  merge_comm x y : m x y ≡ m y x;
  merge_assoc x y z : m x (m y z) ≡ m (m x y) z;
  merge_idemp x : m x x ≡ x
}.

Section merge_list.
Context {C : Type} `{Equiv C} (m : C → C → C) `{!MergeLaws m}.

(** The order merging induces. *)
Definition below (x y : C) : Prop := m x y ≡ y.

Lemma below_refl x : below x x.
Proof. apply merge_idemp. Qed.

Lemma below_trans x y z : below x y → below y z → below x z.
Proof. unfold below. intros Hxy Hyz. by rewrite <-Hyz, merge_assoc, Hxy. Qed.

Lemma below_antisym x y : below x y → below y x → x ≡ y.
Proof. unfold below. intros Hxy Hyx. by rewrite <-Hxy, merge_comm. Qed.

Lemma below_l x y : below x (m x y).
Proof. unfold below. by rewrite merge_assoc, merge_idemp. Qed.

Lemma below_r x y : below y (m x y).
Proof. unfold below. rewrite merge_comm, <-merge_assoc, merge_idemp. done. Qed.

Lemma below_lub x y z : below x z → below y z → below (m x y) z.
Proof. unfold below. intros Hx Hy. by rewrite <-merge_assoc, Hy. Qed.

(** Merging a container with a list of them, left to right. *)
Definition merge_list (x : C) (l : list C) : C := foldl m x l.

Lemma merge_list_ub x l y : y ∈ x :: l → below y (merge_list x l).
Proof.
  revert x y. induction l as [|z l IH]; intros x y Hy; simpl.
  - assert (y = x) as -> by set_solver. apply below_refl.
  - apply elem_of_cons in Hy as [->|Hy].
    + apply (below_trans _ (m x z)); [apply below_l | apply IH; set_solver].
    + apply elem_of_cons in Hy as [->|Hy].
      * apply (below_trans _ (m x z)); [apply below_r | apply IH; set_solver].
      * apply IH. set_solver.
Qed.

Lemma merge_list_lub x l z : (∀ y, y ∈ x :: l → below y z) → below (merge_list x l) z.
Proof.
  revert x. induction l as [|w l IH]; intros x Hz; simpl; [apply Hz; set_solver|].
  apply IH. intros y [->|Hy]%elem_of_cons.
  - apply below_lub; apply Hz; set_solver.
  - apply Hz. set_solver.
Qed.

(** Only the containers matter: neither their order nor their multiplicity. *)
Lemma merge_list_set x l y k :
  (∀ z, z ∈ x :: l ↔ z ∈ y :: k) → merge_list x l ≡ merge_list y k.
Proof.
  intros Heq. apply below_antisym; apply merge_list_lub; intros z Hz;
    apply merge_list_ub; by apply Heq.
Qed.

#[global] Instance merge_list_proper : Proper ((≡) ==> Forall2 (≡) ==> (≡)) merge_list.
Proof.
  intros x y Hxy l k Hlk. revert x y Hxy.
  induction Hlk as [|a b ? ? Hw _ IH]; intros x y Hxy; simpl; [done|].
  apply IH. by rewrite Hxy, Hw.
Qed.
End merge_list.

Section merge_list_mono.
Context {C : Type} (m : C → C → C) (le : relation C).
Context (Hm : Proper (le ==> le ==> le) m).

Lemma merge_list_mono x y l k : le x y → Forall2 le l k → le (merge_list m x l) (merge_list m y k).
Proof.
  intros Hxy Hlk. revert x y Hxy. induction Hlk as [|a b ? ? Hw _ IH]; intros x y Hxy; simpl; [done|].
  apply IH. by apply Hm.
Qed.
End merge_list_mono.

(** * The laws of the interfaces *)

(** What the solver relies on of a control-flow graph: the edges of a function
    are its instructions' successors, control flow stays inside the function,
    and a node with two predecessors is the branch target of each. *)
Class MonoCFGLaws {N F} (CFG : MonoCFG N F) : Prop := {
  edges_spec f s d :
    (s, d) ∈ getAllControlFlowEdges CFG f ↔
    s ∈ getAllInstructionsOf CFG f ∧ d ∈ getSuccsOf CFG s;
  preds_spec p d : p ∈ getPredsOf CFG d ↔ d ∈ getSuccsOf CFG p;
  succs_intra f s d :
    s ∈ getAllInstructionsOf CFG f → d ∈ getSuccsOf CFG s → d ∈ getAllInstructionsOf CFG f;
  preds_intra f s d :
    d ∈ getAllInstructionsOf CFG f → d ∈ getSuccsOf CFG s → s ∈ getAllInstructionsOf CFG f;
  branch_targets s p d :
    s ∈ getPredsOf CFG d → p ∈ getPredsOf CFG d → p ≠ s → isBranchTarget CFG s d = true
}.

(** What it relies on of a problem, whatever its order: [equal_to] decides the
    equivalence of containers, and the flow functions and [merge] respect it. *)
Class MonoProblemLaws {N F C} `{Equiv C} (P : IntraMonoProblem N F C) : Prop := {
  problem_merge :: MergeLaws (merge P);
  equal_to_spec x y : equal_to P x y = true ↔ x ≡ y;
  normalFlow_proper n :: Proper ((≡) ==> (≡)) (normalFlow P n)
}.

(** A monotone problem over an order of height [h] with [allTop] as its least
    element. *)
Class MonotoneLaws {N F C} `{Equiv C} (P : IntraMonoProblem N F C)
    (le : relation C) (rank : C → nat) (h : nat) : Prop := {
  le_preorder :: PreOrder le;
  le_equiv x y : x ≡ y → le x y;
  normalFlow_mono n :: Proper (le ==> le) (normalFlow P n);
  merge_mono :: Proper (le ==> le ==> le) (merge P);
  allTop_least x : le (allTop P) x;
  rank_bound x : rank x ≤ h;
  rank_equiv x y : x ≡ y → rank x = rank y;
  rank_strict x y : le x y → ¬ x ≡ y → rank x < rank y
}.

Module MonoFixpoint.
Section fixpoint.
Context {N F C : Type} `{Countable N} `{Equiv C}.
Context (CFG : MonoCFG N F) (P : IntraMonoProblem N F C).

(** The instructions of the entry points' functions. *)
Definition in_scope (n : N) : Prop :=
  ∃ f, f ∈ getEntryPoints P ∧ n ∈ getAllInstructionsOf CFG f.

(** What [initialize] leaves at a node: [allTop] and the seeds' facts. *)
Definition seeded (n : N) : C :=
  for_each (initialSeeds P)
    (λ seed c, if decide (seed.1 = n) then container_insert (mono_container_t P) c seed.2 else c)
    (allTop P).

(** The data-flow equations: what flows into a node, of an assignment [S]. *)
Definition flow_in (S : N → C) (n : N) : C :=
  match getPredsOf CFG n with
  | [] => seeded n
  | p :: ps =>
    merge_list (merge P) (normalFlow P p (S p)) ((λ q, normalFlow P q (S q)) <$> ps)
  end.

Definition is_solution (S : N → C) : Prop := ∀ n, in_scope n → S n ≡ flow_in S n.

Lemma flow_in_ext S S' n :
  (∀ p, p ∈ getPredsOf CFG n → S p = S' p) → flow_in S n = flow_in S' n.
Proof.
  unfold flow_in. destruct (getPredsOf CFG n) as [|p ps]; intros Heq; [done|].
  rewrite (Heq p) by set_solver. f_equal. apply list_fmap_ext.
  intros i q Hq%list_elem_of_lookup_2. rewrite Heq by set_solver. done.
Qed.

Context `{!MonoCFGLaws CFG} `{!MonoProblemLaws P}.

Lemma in_scope_succ a b : in_scope a → b ∈ getSuccsOf CFG a → in_scope b.
Proof. intros (f & Hf & Ha) Hb. exists f. split; [done|]. by apply (succs_intra f a b). Qed.

Lemma in_scope_pred a b : in_scope b → b ∈ getSuccsOf CFG a → in_scope a.
Proof. intros (f & Hf & Hb) Hs. exists f. split; [done|]. by apply (preds_intra f a b). Qed.

(** The code's out-set of an edge - the flow of its source, merged with those of
    the other predecessors if the target is a branch target - is what flows into
    the target, whatever the edge. *)
Lemma edge_flow_in (S : N → C) Src Dst Out :
  Src ∈ getPredsOf CFG Dst →
  Out = (if isBranchTarget CFG Src Dst then
           merge_list (merge P) (normalFlow P Src (S Src))
             ((λ q, normalFlow P q (S q)) <$> filter (.≠ Src) (getPredsOf CFG Dst))
         else normalFlow P Src (S Src)) →
  Out ≡ flow_in S Dst.
Proof.
  intros HSrc ->. unfold flow_in.
  destruct (getPredsOf CFG Dst) as [|p ps] eqn:Hps; [set_solver|].
  destruct (isBranchTarget CFG Src Dst) eqn:HB.
  - apply (merge_list_set (merge P)). intros z.
    rewrite !elem_of_cons, !list_elem_of_fmap. setoid_rewrite list_elem_of_filter. split.
    + intros [->|(q & -> & [Hq [->|Hin]%elem_of_cons])]; [|by left|right; by exists q].
      apply elem_of_cons in HSrc as [<-|HSrc]; [by left|right; by exists Src].
    + assert (∀ q, q ∈ p :: ps → z = normalFlow P q (S q) →
        z = normalFlow P Src (S Src) ∨
        ∃ y, z = normalFlow P y (S y) ∧ y ≠ Src ∧ y ∈ p :: ps) as Hall.
      { intros q Hq ->. destruct (decide (q = Src)) as [->|Hne]; [by left|right; by exists q]. }
      intros [->|(q & -> & Hq)]; [apply (Hall p) | apply (Hall q)]; set_solver.
  - assert (∀ q, q ∈ p :: ps → q = Src) as Hone.
    { intros q Hq. destruct (decide (q = Src)) as [|Hne]; [done|].
      rewrite <-Hps in Hq, HSrc. by rewrite (branch_targets Src q Dst) in HB. }
    apply (merge_list_set (merge P) _ []). intros z.
    rewrite !elem_of_cons, !list_elem_of_fmap, elem_of_nil. split.
    + intros [->|[]]. left. by rewrite (Hone p) by set_solver.
    + intros [->|(q & -> & Hq)]; left; [by rewrite (Hone p) by set_solver|].
      by rewrite (Hone q) by set_solver.
Qed.

(** ** Transitions *)

(** The abstract state: the queued edges and the in-sets. *)
Notation astate := (list (N * N) * (N → C))%type.

(** The queued edges are edges of the entry functions. *)
Definition edges_ok (W : list (N * N)) : Prop :=
  ∀ a b, (a, b) ∈ W → in_scope a ∧ b ∈ getSuccsOf CFG a.

(** An iteration leaves the in-sets alone when the target already has what
    flows into it; otherwise it assigns it and re-queues at least the target's
    out-edges. *)
Inductive transition (s s' : astate) : Prop :=
  | step_stable Src Dst rest :
      s.1 = (Src, Dst) :: rest → s'.1 = rest →
      (∀ n, s'.2 n = s.2 n) → s.2 Dst ≡ flow_in s.2 Dst →
      transition s s'
  | step_update Src Dst rest again Out :
      s.1 = (Src, Dst) :: rest → s'.1 = rest ++ again →
      (∀ n, n ∈ getSuccsOf CFG Dst → (Dst, n) ∈ again) → edges_ok again →
      length again ≤ S (length (getSuccsOf CFG Dst)) →
      (∀ n, s'.2 n = if decide (Dst = n) then Out else s.2 n) →
      Out ≡ flow_in s.2 Dst → ¬ s.2 Dst ≡ Out →
      transition s s'.

Record settled (s : astate) : Prop := {
  settled_edges : edges_ok s.1;
  settled_nodes n : in_scope n → getPredsOf CFG n ≠ [] →
    (∃ p, (p, n) ∈ s.1) ∨ s.2 n ≡ flow_in s.2 n;
  settled_entries n : in_scope n → getPredsOf CFG n = [] → s.2 n = seeded n
}.

Lemma transition_edges_ok s s' : edges_ok s.1 → transition s s' → edges_ok s'.1.
Proof.
  intros Hok [Src Dst rest HW HW' _ _|Src Dst rest again Out HW HW' _ Hag _ _ _ _] a b; rewrite HW'.
  - intros Hab. apply Hok. rewrite HW. set_solver.
  - intros [Hab|Hab]%elem_of_app; [|by apply Hag]. apply Hok. rewrite HW. set_solver.
Qed.

Lemma transition_settled s s' : settled s → transition s s' → settled s'.
Proof.
  intros [Hok Hn He] Htr. split; [by eapply transition_edges_ok| |];
    intros n Hsc Hp;
    destruct Htr as [Src Dst rest HW HW' HA Hst|Src Dst rest again Out HW HW' Hsucc _ _ HA HOut _].
  - rewrite HW', HA. rewrite (flow_in_ext _ s.2) by (intros; apply HA).
    destruct (decide (n = Dst)) as [->|Hnd]; [by right|].
    destruct (Hn n Hsc Hp) as [[p Hpn]|Heq]; [left|by right].
    exists p. rewrite HW in Hpn. set_solver.
  - rewrite HW'. destruct (decide (n ∈ getSuccsOf CFG Dst)) as [Hs|Hs].
    { left. exists Dst. apply elem_of_app. auto. }
    rewrite (flow_in_ext _ s.2).
    2:{ intros p Hpp. rewrite HA. rewrite decide_False; [done|].
        intros <-. by apply preds_spec in Hpp. }
    rewrite HA. destruct (decide (Dst = n)) as [<-|Hnd]; [by right|].
    destruct (Hn n Hsc Hp) as [[p Hpn]|Heq]; [left|by right].
    exists p. rewrite HW in Hpn. set_solver.
  - rewrite HA. by apply He.
  - rewrite HA. rewrite decide_False; [by apply He|]. intros <-.
    destruct (Hok Src Dst) as [_ Hsd]; [rewrite HW; set_solver|].
    apply preds_spec in Hsd. rewrite Hp in Hsd. set_solver.
Qed.

Lemma settled_solution s : settled s → s.1 = [] → is_solution s.2.
Proof.
  intros [_ Hn He] HW n Hsc. destruct (getPredsOf CFG n) as [|p ps] eqn:Hp.
  - unfold flow_in. rewrite Hp, He by done. done.
  - destruct (Hn n Hsc) as [[q Hq]|]; [by rewrite Hp|rewrite HW in Hq; set_solver|done].
Qed.

(** ** The least solution, and termination *)

Context (le : relation C) (rank : C → nat) (h : nat) `{!MonotoneLaws P le rank h}.

(** Seeds are placed at nodes without predecessors (the entry nodes). *)
Context (seeds_at_entries : ∀ n c, (n, c) ∈ initialSeeds P → getPredsOf CFG n = []).

Lemma flow_in_mono S S' n :
  (∀ p, p ∈ getPredsOf CFG n → le (S p) (S' p)) → le (flow_in S n) (flow_in S' n).
Proof.
  unfold flow_in. destruct (getPredsOf CFG n) as [|p ps]; intros Hle; [done|].
  apply (merge_list_mono (merge P) le (merge_mono (P:=P))).
  - apply normalFlow_mono, Hle. set_solver.
  - apply Forall2_fmap, Forall_Forall2_diag, Forall_forall. intros q Hq.
    apply normalFlow_mono, Hle. set_solver.
Qed.

Lemma seeded_inner n p : p ∈ getPredsOf CFG n → seeded n = allTop P.
Proof.
  intros Hp. unfold seeded. apply (for_each_inv (.= allTop P)); [done|].
  intros [k c] x Hin ->. simpl. rewrite decide_False; [done|]. intros ->.
  apply seeds_at_entries in Hin. rewrite Hin in Hp. set_solver.
Qed.

(** A post-solution bounds the in-sets all along. *)
Definition bounded (S : N → C) (s : astate) : Prop :=
  edges_ok s.1 ∧ ∀ n, in_scope n → le (s.2 n) (S n).

Lemma transition_bounded S s s' :
  (∀ n, in_scope n → le (flow_in S n) (S n)) → bounded S s → transition s s' → bounded S s'.
Proof.
  intros HS [Hok Hb] Htr. split; [by eapply transition_edges_ok|]. intros n Hn.
  destruct Htr as [Src Dst rest HW HW' HA _|Src Dst rest again Out HW HW' _ _ _ HA HOut _];
    rewrite HA; [auto|]. destruct (decide (Dst = n)) as [<-|]; [|auto].
  etrans; [by apply (le_equiv (P:=P)), HOut|]. etrans; [|by apply HS].
  apply flow_in_mono. intros p Hp. apply Hb. eapply in_scope_pred; [done|by apply preds_spec].
Qed.

(** The in-sets only grow. *)
Definition ascending (s : astate) : Prop :=
  edges_ok s.1 ∧ ∀ n, in_scope n → le (s.2 n) (flow_in s.2 n).

Lemma transition_grows s s' n :
  ascending s → transition s s' → in_scope n → le (s.2 n) (s'.2 n).
Proof.
  intros [Hok Ha] Htr Hn.
  destruct Htr as [Src Dst rest HW HW' HA _|Src Dst rest again Out HW HW' _ _ _ HA HOut _];
    rewrite HA; [done|]. destruct (decide (Dst = n)) as [<-|]; [|done].
  etrans; [by apply Ha|]. by apply (le_equiv (P:=P)).
Qed.

Lemma transition_ascending s s' : ascending s → transition s s' → ascending s'.
Proof.
  intros Has Htr. pose proof Has as [Hok Ha]. split; [by eapply transition_edges_ok|]. intros n Hn.
  assert (le (flow_in s.2 n) (flow_in s'.2 n)) as Hmono.
  { apply flow_in_mono. intros p Hp. apply transition_grows; [done..|].
    eapply in_scope_pred; [done|by apply preds_spec]. }
  destruct Htr as [Src Dst rest HW HW' HA _|Src Dst rest again Out HW HW' _ _ _ HA HOut _];
    rewrite HA; [etrans; [by apply Ha|done]|].
  destruct (decide (Dst = n)) as [<-|]; [|etrans; [by apply Ha|done]].
  etrans; [by apply (le_equiv (P:=P)), HOut|done].
Qed.

(** Where the iteration starts: every edge queued, [allTop] and the seeds. *)
Record initial (s : astate) : Prop := {
  initial_edges a b : (a, b) ∈ s.1 ↔ in_scope a ∧ b ∈ getSuccsOf CFG a;
  initial_values n : in_scope n → s.2 n = seeded n
}.

Lemma initial_settled s : initial s → settled s.
Proof.
  intros [HW HA]. split.
  - intros a b Hab. by apply HW.
  - intros n Hsc Hp. left. destruct (getPredsOf CFG n) as [|p ps] eqn:Hps; [done|].
    assert (n ∈ getSuccsOf CFG p) as Hs by (apply preds_spec; rewrite Hps; set_solver).
    exists p. apply HW. split; [by eapply in_scope_pred|done].
  - intros n Hsc _. by apply HA.
Qed.

Lemma initial_bounded S s :
  (∀ n, in_scope n → le (flow_in S n) (S n)) → initial s → bounded S s.
Proof.
  intros HS Hi. split; [by apply initial_settled|]. intros n Hn. rewrite (initial_values s) by done.
  etrans; [|by apply HS]. destruct (getPredsOf CFG n) as [|p ps] eqn:Hp.
  - unfold flow_in. by rewrite Hp.
  - rewrite (seeded_inner n p) by (rewrite Hp; set_solver). apply allTop_least.
Qed.

Lemma initial_ascending s : initial s → ascending s.
Proof.
  intros Hi. split; [by apply initial_settled|]. intros n Hn. rewrite (initial_values s) by done.
  destruct (getPredsOf CFG n) as [|p ps] eqn:Hp.
  - unfold flow_in. by rewrite Hp.
  - rewrite (seeded_inner n p) by (rewrite Hp; set_solver). apply allTop_least.
Qed.

(** The nodes of the entry functions, once each. *)
Definition scope : list N :=
  remove_dups (mjoin (getAllInstructionsOf CFG <$> getEntryPoints P)).

Lemma elem_of_scope n : n ∈ scope ↔ in_scope n.
Proof.
  unfold scope. rewrite elem_of_remove_dups, list_elem_of_join. unfold in_scope.
  setoid_rewrite list_elem_of_fmap. split; naive_solver.
Qed.

(** The work that is left: the queued edges, and for each node what an update
    of it re-queues, as often as its in-set can still grow. *)
Definition growth (A : N → C) (n : N) : nat :=
  (h - rank (A n)) * S (length (getSuccsOf CFG n)).
Definition work (s : astate) : nat := length s.1 + sum_list (growth s.2 <$> scope).

Lemma sum_list_le (f g : N → nat) l :
  (∀ n, n ∈ l → f n ≤ g n) → sum_list (f <$> l) ≤ sum_list (g <$> l).
Proof.
  induction l as [|n l IH]; intros Hle; csimpl; [lia|].
  specialize (IH ltac:(set_solver)). pose proof (Hle n ltac:(set_solver)). lia.
Qed.

Lemma sum_list_drop (f g : N → nat) l m k :
  (∀ n, n ∈ l → f n ≤ g n) → m ∈ l → f m + k ≤ g m → sum_list (f <$> l) + k ≤ sum_list (g <$> l).
Proof.
  induction l as [|n l IH]; intros Hle Hm Hk; [set_solver|]. csimpl.
  apply elem_of_cons in Hm as [->|Hm].
  - pose proof (sum_list_le f g l ltac:(set_solver)). lia.
  - specialize (IH ltac:(set_solver) Hm Hk). pose proof (Hle n ltac:(set_solver)). lia.
Qed.

Lemma rank_mono x y : le x y → rank x ≤ rank y.
Proof.
  intros Hle. destruct (equal_to P x y) eqn:Heq.
  - apply equal_to_spec in Heq. by rewrite (rank_equiv (P:=P) x y).
  - apply Nat.lt_le_incl, (rank_strict (P:=P)); [done|]. intros Hxy. apply (equal_to_spec x) in Hxy. congruence.
Qed.

Lemma transition_work s s' : ascending s → transition s s' → work s' < work s.
Proof.
  intros Has Htr. pose proof Has as [Hok Ha]. unfold work.
  assert (∀ n, n ∈ scope → growth s'.2 n ≤ growth s.2 n) as Hle.
  { intros n Hn%elem_of_scope. unfold growth. apply Nat.mul_le_mono_r.
    pose proof (rank_mono _ _ (transition_grows s s' n Has Htr Hn)). lia. }
  destruct Htr as [Src Dst rest HW HW' HA _|Src Dst rest again Out HW HW' _ _ Hlen HA HOut Hch].
  - rewrite HW, HW'. pose proof (sum_list_le _ _ _ Hle). simpl. lia.
  - assert (in_scope Dst) as HD.
    { destruct (Hok Src Dst) as [Hs Hsd]; [rewrite HW; set_solver|]. by eapply in_scope_succ. }
    assert (rank (s.2 Dst) < rank Out) as Hr.
    { apply (rank_strict (P:=P)); [|done]. etrans; [by apply Ha|]. by apply (le_equiv (P:=P)). }
    pose proof (rank_bound (P:=P) Out) as Hb.
    pose proof (sum_list_drop _ _ _ Dst (S (length (getSuccsOf CFG Dst))) Hle) as Hsum.
    rewrite HW, HW', length_app. simpl.
    enough (sum_list (growth s'.2 <$> scope) + S (length (getSuccsOf CFG Dst))
      ≤ sum_list (growth s.2 <$> scope)) by lia.
    apply Hsum; [by apply elem_of_scope|]. unfold growth. rewrite HA, decide_True by done. nia.
Qed.

(** Enough iterations: the edges, and per node the height times its degree. *)
Definition enough_iterations (W : list (N * N)) : nat :=
  length W + sum_list ((λ n, h * S (length (getSuccsOf CFG n))) <$> scope).

Lemma initial_work s : work s ≤ enough_iterations s.1.
Proof.
  unfold work, enough_iterations. apply Nat.add_le_mono_l, sum_list_le.
  intros n _. unfold growth. nia.
Qed.

(** ** Any solver that refines the transitions computes the least solution *)

Section solver.
Context {St : Type} (worklist : St → list (N * N)) (values : St → N → C) (step : St → St).
Context (Inv : St → Prop).
Context (refines : ∀ s, Inv s → edges_ok (worklist s) → worklist s ≠ [] →
  Inv (step s) ∧ transition (worklist s, values s) (worklist (step s), values (step s))).

Lemma while_inv (I : St → Prop) fuel s s' :
  (∀ t, I t → worklist t ≠ [] → I (step t)) → I s →
  while_nonempty worklist step fuel s = Some s' → I s' ∧ worklist s' = [].
Proof.
  intros Hstep. revert s. induction fuel as [|fuel IH]; intros s HI; simpl;
    destruct (worklist s) as [|e rest] eqn:HW; try done.
  - by intros [=<-].
  - by intros [=<-].
  - intros Hit. eapply IH; [|done]. apply Hstep; [done|by rewrite HW].
Qed.

Lemma while_returns fuel s :
  Inv s → ascending (worklist s, values s) → work (worklist s, values s) ≤ fuel →
  ∃ s', while_nonempty worklist step fuel s = Some s'.
Proof.
  revert s. induction fuel as [|fuel IH]; intros s HI Has Hw; simpl;
    destruct (worklist s) as [|e rest] eqn:HW; eauto.
  - unfold work in Hw. simpl in Hw. lia.
  - destruct (refines s) as [HI' Htr]; [done| |by rewrite HW|].
    { pose proof (proj1 Has) as Hok. simpl in Hok. by rewrite HW. }
    rewrite HW in Htr. apply IH; [done|by eapply transition_ascending|].
    pose proof (transition_work _ _ Has Htr). lia.
Qed.

Lemma refinement_least_solution fuel s :
  Inv s → initial (worklist s, values s) → enough_iterations (worklist s) ≤ fuel →
  ∃ s', while_nonempty worklist step fuel s = Some s'
    ∧ is_solution (values s')
    ∧ ∀ S, (∀ n, in_scope n → le (flow_in S n) (S n)) →
        ∀ n, in_scope n → le (values s' n) (S n).
Proof.
  intros HI Hi Hfuel.
  destruct (while_returns fuel s) as [s' Hs']; [done|by apply initial_ascending| |].
  { etrans; [apply initial_work|done]. }
  exists s'. split; [done|]. split.
  - destruct (while_inv (λ t, Inv t ∧ settled (worklist t, values t)) fuel s s') as [[_ Hst] HW].
    + intros t [Ht Hst] Hne. destruct (refines t) as [HI' Htr]; [done|apply Hst|done|].
      split; [done|by eapply transition_settled].
    + split; [done|by apply initial_settled].
    + done.
    + by apply (settled_solution (worklist s', values s')).
  - intros S HS.
    destruct (while_inv (λ t, Inv t ∧ bounded S (worklist t, values t)) fuel s s') as [[_ Hb] _].
    + intros t [Ht Hb] Hne. destruct (refines t) as [HI' Htr]; [done|apply Hb|done|].
      split; [done|by eapply transition_bounded].
    + split; [done|by apply initial_bounded].
    + done.
    + apply Hb.
Qed.
End solver.
End fixpoint.
End MonoFixpoint.

Module IntraMonoCorrect.
Import IntraMono MonoFixpoint.
Section correct.
Context {N F C : Type} `{Countable N} `{Equiv C}.
Context (CFG : MonoCFG N F) (P : IntraMonoProblem N F C).

Notation in_scope := (in_scope CFG P).
Notation seeded := (seeded P).
Notation flow_in := (flow_in CFG P).

Lemma at_touch A n k : at_ P (touch P n A) k = at_ P A k.
Proof.
  unfold touch, at_. destruct (decide (k = n)) as [->|Hne].
  - by rewrite lookup_insert_eq.
  - by rewrite lookup_insert_ne.
Qed.

Lemma at_insert A n c k : at_ P (<[n := c]> A) k = if decide (n = k) then c else at_ P A k.
Proof.
  unfold at_. destruct (decide (n = k)) as [->|Hne].
  - by rewrite lookup_insert_eq.
  - by rewrite lookup_insert_ne.
Qed.

(** The loop over the predecessors merges the out-sets of the others, and only
    looks up. *)
Lemma merge_preds_spec Src ps Out A :
  ∃ A', for_each ps (merge_pred P Src) (Out, A) =
          (merge_list (merge P) Out ((λ q, normalFlow P q (at_ P A q)) <$> filter (.≠ Src) ps), A')
        ∧ ∀ k, at_ P A' k = at_ P A k.
Proof.
  revert Out A. induction ps as [|p ps IH]; intros Out A; [by exists A|].
  rewrite for_each_cons. unfold merge_pred at 2. rewrite filter_cons.
  destruct (decide (p = Src)) as [->|Hne].
  - rewrite decide_False by auto. apply IH.
  - rewrite decide_True by done.
    destruct (IH (merge P Out (normalFlow P p (at_ P A p))) (touch P p A)) as (A' & -> & HA').
    exists A'. split.
    + f_equal. simpl. unfold merge_list. f_equal. apply list_fmap_ext.
      intros i q _. by rewrite at_touch.
    + intros k. by rewrite HA', at_touch.
Qed.

Context `{!MonoCFGLaws CFG} `{!MonoProblemLaws P}.

Lemma edge_out_spec Src Dst A :
  Src ∈ getPredsOf CFG Dst →
  ∃ Out A', edge_out CFG P Src Dst A = (Out, A') ∧ Out ≡ flow_in (at_ P A) Dst
            ∧ ∀ k, at_ P A' k = at_ P A k.
Proof.
  intros HSrc. unfold edge_out.
  pose proof (edge_flow_in CFG P (at_ P A) Src Dst _ HSrc eq_refl) as Hflow.
  destruct (isBranchTarget CFG Src Dst) eqn:HB.
  - destruct (merge_preds_spec Src (getPredsOf CFG Dst) (normalFlow P Src (at_ P A Src))
      (touch P Src A)) as (A' & -> & HA').
    eexists _, _. split; [done|]. split; [|intros k; by rewrite HA', at_touch].
    rewrite <-Hflow. erewrite list_fmap_ext; [done|]. intros i q _. by rewrite at_touch.
  - eexists _, _. split; [done|]. split; [done|]. intros k. by rewrite at_touch.
Qed.

Lemma step_refines s :
  edges_ok CFG P (Worklist s) → Worklist s ≠ [] →
  transition CFG P (Worklist s, at_ P (Analysis s))
    (Worklist (step CFG P s), at_ P (Analysis (step CFG P s))).
Proof.
  intros Hok Hne. unfold step. destruct (Worklist s) as [|[Src Dst] rest] eqn:HW; [done|].
  destruct (Hok Src Dst) as [Hsc Hsd]; [set_solver|].
  destruct (edge_out_spec Src Dst (Analysis s)) as (Out & A' & -> & HOut & HA');
    [by apply preds_spec|]. rewrite HA'.
  destruct (equal_to P Out (at_ P (Analysis s) Dst)) eqn:Heq.
  - apply equal_to_spec in Heq. eapply step_stable; [done|done| |].
    + intros n. simpl. by rewrite at_touch, HA'.
    + by rewrite <-Heq.
  - eapply step_update; [done|done| | | | |done|].
    + intros n Hn. apply list_elem_of_fmap. by exists n.
    + intros a b (n & [=-> ->] & Hn)%list_elem_of_fmap. split; [|done].
      by apply (in_scope_succ _ _ Src).
    + rewrite length_fmap. lia.
    + intros n. simpl. rewrite at_insert, HA'. done.
    + simpl. intros Heq'. symmetry in Heq'. apply (equal_to_spec Out) in Heq'. congruence.
Qed.

(** ** Initialization *)

Lemma insert_new_lookup (A : gmap N C) n c k :
  insert_new n c A !! k = if decide (n = k) then Some (default c (A !! k)) else A !! k.
Proof.
  unfold insert_new. destruct (A !! n) as [x|] eqn:HA.
  - destruct (decide (n = k)) as [<-|]; [by rewrite HA|done].
  - destruct (decide (n = k)) as [<-|]; [by rewrite lookup_insert_eq, HA|by rewrite lookup_insert_ne].
Qed.

Lemma insert_top_lookup l (A : gmap N C) k :
  (∀ c, A !! k = Some c → c = allTop P) →
  for_each l (λ Insts, insert_new Insts (allTop P)) A !! k =
    if decide (k ∈ l) then Some (allTop P) else A !! k.
Proof.
  revert A. induction l as [|n l IH]; intros A HA.
  { rewrite decide_False by set_solver. done. }
  rewrite for_each_cons, IH.
  - rewrite insert_new_lookup. destruct (decide (k ∈ l)) as [Hl|Hl].
    { rewrite decide_True by set_solver. done. }
    destruct (decide (n = k)) as [->|Hne].
    + rewrite decide_True by set_solver. destruct (A !! k) as [c|] eqn:Hc; simpl; [|done].
      by rewrite (HA c).
    + rewrite decide_False by set_solver. done.
  - intros c. rewrite insert_new_lookup. destruct (decide (n = k)); [|apply HA].
    intros [=<-]. destruct (A !! k) as [x|]; simpl; [by apply HA|done].
Qed.

Lemma initialize_functions fs s :
  (∀ k c, Analysis s !! k = Some c → c = allTop P) →
  let s' := for_each fs (initialize_function CFG P) s in
  (∀ e, e ∈ Worklist s' ↔ e ∈ Worklist s ∨ ∃ f, f ∈ fs ∧ e ∈ getAllControlFlowEdges CFG f)
  ∧ (∀ k c, Analysis s' !! k = Some c → c = allTop P)
  ∧ (∀ k, (∃ f, f ∈ fs ∧ k ∈ getAllInstructionsOf CFG f) ∨ is_Some (Analysis s !! k) →
       is_Some (Analysis s' !! k)).
Proof.
  revert s. induction fs as [|f fs IH]; intros s Hs s'.
  { split; [|split]; [set_solver|done|]. intros k [(f & Hf & _)|Hk]; [set_solver|done]. }
  destruct (IH (initialize_function CFG P f s)) as (HW & Htop & Hdom).
  { intros k c. simpl. rewrite insert_top_lookup by eauto. case_decide; [congruence|apply Hs]. }
  subst s'. rewrite for_each_cons. split; [|split]; [|done|].
  - intros e. rewrite HW. simpl. set_solver.
  - intros k Hk. apply Hdom. simpl. rewrite insert_top_lookup by eauto.
    destruct Hk as [(g & [->|Hg]%elem_of_cons & Hk)|Hk].
    + right. rewrite decide_True by done. eauto.
    + left. eauto.
    + right. case_decide; eauto.
Qed.

Lemma insert_seeds_at seeds A n :
  at_ P (for_each seeds (insert_seed P) A) n =
  for_each seeds
    (λ seed c, if decide (seed.1 = n) then container_insert (mono_container_t P) c seed.2 else c)
    (at_ P A n).
Proof.
  revert A. induction seeds as [|sd seeds IH]; intros A; [done|].
  rewrite !for_each_cons, IH. f_equal. unfold insert_seed at 1. rewrite at_insert.
  destruct (decide (sd.1 = n)) as [<-|]; done.
Qed.

Notation start := (initialize CFG P empty_state).

Lemma initialize_edges a b : (a, b) ∈ Worklist start ↔ in_scope a ∧ b ∈ getSuccsOf CFG a.
Proof.
  unfold initialize. simpl.
  destruct (initialize_functions (getEntryPoints P) empty_state) as (HW & _); [done|].
  rewrite HW. simpl. setoid_rewrite edges_spec. unfold in_scope. set_solver.
Qed.

Lemma initialize_at n : in_scope n → at_ P (Analysis start) n = seeded n.
Proof.
  intros (f & Hf & Hn). unfold initialize. simpl. rewrite insert_seeds_at. unfold seeded. f_equal.
  destruct (initialize_functions (getEntryPoints P) empty_state) as (_ & Htop & Hdom); [done|].
  destruct (Hdom n) as [c Hc]; [left; eauto|]. unfold at_. rewrite Hc. simpl. by eapply Htop.
Qed.

Lemma initialize_initial : initial CFG P (Worklist start, at_ P (Analysis start)).
Proof. split; [apply initialize_edges|apply initialize_at]. Qed.

(** ** The results *)

Lemma iterate_dom fuel s s' k :
  iterate CFG P fuel s = Some s' → is_Some (Analysis s !! k) → is_Some (Analysis s' !! k).
Proof.
  intros Hit Hk. refine (proj1 (while_inv Worklist (step CFG P)
    (λ t, is_Some (Analysis t !! k)) fuel s s' _ Hk Hit)).
  intros t Ht _. unfold step. destruct (Worklist t) as [|[Src Dst] rest]; [done|].
  assert (∀ n A, is_Some (A !! k) → is_Some (touch P n A !! k)) as Htouch.
  { intros n A HA. unfold touch. destruct (decide (n = k)) as [->|];
      [rewrite lookup_insert_eq; eauto|by rewrite lookup_insert_ne]. }
  assert (is_Some (snd (edge_out CFG P Src Dst (Analysis t)) !! k)) as Hout.
  { unfold edge_out. case_match; [|by apply Htouch].
    apply (for_each_inv (λ OA : C * gmap N C, is_Some (OA.2 !! k))); [by apply Htouch|].
    intros q [O A] _ HA. unfold merge_pred. case_decide; [done|]. by apply Htouch. }
  destruct (edge_out CFG P Src Dst (Analysis t)) as [Out A]. simpl in Hout.
  case_match; simpl; [by apply Htouch|].
  destruct (decide (Dst = k)) as [->|]; [rewrite lookup_insert_eq; eauto|by rewrite lookup_insert_ne].
Qed.

Lemma initialize_dom n : in_scope n → is_Some (Analysis start !! n).
Proof.
  intros (f & Hf & Hn). unfold initialize. simpl.
  destruct (initialize_functions (getEntryPoints P) empty_state) as (_ & _ & Hdom); [done|].
  apply (for_each_inv (λ A : gmap N C, is_Some (A !! n))); [apply Hdom; left; eauto|].
  intros sd A _ HA. unfold insert_seed. destruct (decide (sd.1 = n)) as [->|];
    [rewrite lookup_insert_eq; eauto|by rewrite lookup_insert_ne].
Qed.

Lemma present_results fuel s n :
  in_scope n → iterate CFG P fuel start = Some s →
  getResultsAt P (present P (Analysis s)) n = normalFlow P n (at_ P (Analysis s) n).
Proof.
  intros Hn Hit. destruct (iterate_dom _ _ _ _ Hit (initialize_dom n Hn)) as [c Hc].
  unfold getResultsAt, present, at_. rewrite map_lookup_imap, Hc. done.
Qed.
End correct.
End IntraMonoCorrect.
