(* ===== verification/InterMonoSolver.v ===== *)
(** The monotone framework, part two (DataFlow/Mono/): call-string contexts
    ([CallStringCTX]), the inter-procedural problem interface
    ([InterMonoProblem]) and the work-list solver [InterMonoSolver]. *)
From S2P Require Import Prelude IntraMonoSolver.

(** * Call strings (Contexts/CallStringCTX.h) *)

Module CallStringCTX.
Section call_string.
Context {N : Type} (K : Z).

(** The deque of call sites, oldest first. *)
Definition t := list N.
Definition empty_ctx : t := [].

(** The initializer-list constructor throws on a list that is too long. *)
Definition of_list (IList : list N) : Outcome t :=
  if decide (K < Z.of_nat (length IList))%Z then Throws else Returns IList.

(** [KLimit - 1] in [unsigned] arithmetic. *)
Definition limit : Z := ((K - 1) `mod` 2 ^ 32)%Z.

Definition push_back (c : t) (Stmt : N) : t :=
  (if decide (limit < Z.of_nat (length c))%Z then tail c else c) ++ [Stmt].

(** [None] stands for the default [N{}] of an empty call string. *)
Definition pop_back (c : t) : option N * t :=
  match last c with
  | Some Stmt => (Some Stmt, removelast c)
  | None => (None, c)
  end.

Definition isEqual `{EqDecision N} (Lhs Rhs : t) : bool := bool_decide (Lhs = Rhs).
Definition isDifferent `{EqDecision N} (Lhs Rhs : t) : bool := negb (isEqual Lhs Rhs).
Definition empty (c : t) : bool := match c with [] => true | _ => false end.
Definition size (c : t) : nat := length c.
End call_string.
End CallStringCTX.

(** * The problem interface (InterMonoProblem.h) *)

(** The queries of the [ICFG] beyond those of the [CFG]. *)
Record MonoICFG (N F : Type) := {
  mono_cfg : MonoCFG N F;
  getFunctionOf : N → F;
  isCallSite : N → bool;
  isExitInst : N → bool;
  getStartPointsOf : F → list N;
  getExitPointsOf : F → list N;
  getCalleesOfCallAt : N → list F;
  getReturnSitesOfCallAt : N → list N;
  getCallersOf : F → list N
}.
Arguments mono_cfg {N F} _.
Arguments getFunctionOf {N F} _ _.
Arguments isCallSite {N F} _ _.
Arguments isExitInst {N F} _ _.
Arguments getStartPointsOf {N F} _ _.
Arguments getExitPointsOf {N F} _ _.
Arguments getCalleesOfCallAt {N F} _ _.
Arguments getReturnSitesOfCallAt {N F} _ _.
Arguments getCallersOf {N F} _ _.

(** An [InterMonoProblem] extends an [IntraMonoProblem] with the
    inter-procedural flow functions. *)
Record InterMonoProblem (N F C : Type) := {
  intra_problem : IntraMonoProblem N F C;
  callFlow : N → F → C → C;
  returnFlow : N → F → N → N → C → C;
  callToRetFlow : N → N → list F → C → C
}.
Arguments intra_problem {N F C} _.
Arguments callFlow {N F C} _ _ _ _.
Arguments returnFlow {N F C} _ _ _ _ _ _.
Arguments callToRetFlow {N F C} _ _ _ _ _.

(** * The solver (Solver/InterMonoSolver.h) *)

Module InterMono.
Section solver.
Context {N F C : Type} `{Countable N} `{Countable F}.
Context (K : Z) (ICF : MonoICFG N F) (IMProblem : InterMonoProblem N F C).

Notation ctx := (CallStringCTX.t (N:=N)).
Notation P := (intra_problem IMProblem).
Notation CFG := (mono_cfg ICF).

(** Iteration orders the code leaves to the library: of an [unordered_map] of
    contexts, and of a [std::set] of instruction pointers. *)
Context (ctx_order : gmap ctx C → list ctx) (node_order : list N → list N).

Notation table := (gmap N (gmap ctx C)).

Record state := State {
  Worklist : list (N * N);
  Analysis : table;
  AddedFunctions : gset F
}.

(** [Analysis\[n\]\[c\]]: look-ups insert default-constructed entries. *)
Definition at_ (A : table) (n : N) (c : ctx) : C :=
  default (container_default (mono_container_t P)) (default ∅ (A !! n) !! c).
Definition set_at (n : N) (c : ctx) (v : C) (A : table) : table :=
  <[n := <[c := v]> (default ∅ (A !! n))]> A.
Definition touch (n : N) (c : ctx) (A : table) : table := set_at n c (at_ A n c) A.
(** [Analysis\[n\]], to iterate over its contexts. *)
Definition touch_node (n : N) (A : table) : table := <[n := default ∅ (A !! n)]> A.
Definition contexts (A : table) (n : N) : list ctx := ctx_order (default ∅ (A !! n)).

(** All edges of a function get [allTop] in the empty context. *)
Definition init_edges (Edges : list (N * N)) (A : table) : table :=
  let A := for_each Edges (λ e, set_at e.1 CallStringCTX.empty_ctx (allTop P)) A in
  match last Edges with
  | Some e => set_at e.2 CallStringCTX.empty_ctx (allTop P) A
  | None => A
  end.

Definition initialize_seed (seed : N * C) (s : state) : state :=
  let '(Node, FlowFacts) := seed in
  let ControlFlowEdges := getAllControlFlowEdges CFG (getFunctionOf ICF Node) in
  let A := init_edges ControlFlowEdges (Analysis s) in
  State (ControlFlowEdges ++ Worklist s)
        (set_at Node CallStringCTX.empty_ctx
           (container_insert (mono_container_t P) (at_ A Node CallStringCTX.empty_ctx) FlowFacts) A)
        (AddedFunctions s).

Definition initialize (s : state) : state := for_each (initialSeeds P) initialize_seed s.

Definition isIntraEdge (Edge : N * N) : bool :=
  bool_decide (getFunctionOf ICF Edge.1 = getFunctionOf ICF Edge.2).
Definition isCallEdge (Edge : N * N) : bool :=
  negb (isIntraEdge Edge) && isCallSite ICF Edge.1.
Definition isReturnEdge (Edge : N * N) : bool :=
  negb (isIntraEdge Edge) && isExitInst ICF Edge.1.

(** One callee that is not yet added: its call edges, its control-flow edges
    (at the front), its initialization and its return edges. *)
Definition add_callee (Src : N) (Callee : F) (s : state) : state :=
  let Edges := getAllControlFlowEdges CFG Callee in
  let calls := (λ StartPoint, (Src, StartPoint)) <$> getStartPointsOf ICF Callee in
  let returns := Ret ← getExitPointsOf ICF Callee;
                 RetSite ← getReturnSitesOfCallAt ICF Src; [(Ret, RetSite)] in
  State (Edges ++ (Worklist s ++ calls) ++ returns)
        (init_edges Edges (Analysis s))
        ({[Callee]} ∪ AddedFunctions s).

(** The loop leaves ([break]) at the first callee that is already added. *)
Fixpoint add_callees (Src : N) (Callees : list F) (s : state) : state :=
  match Callees with
  | [] => s
  | Callee :: rest =>
    if decide (Callee ∈ AddedFunctions s) then s
    else add_callees Src rest (add_callee Src Callee s)
  end.

Definition addCalleesToWorklist (Edge : N * N) (s : state) : state :=
  add_callees Edge.1 (getCalleesOfCallAt ICF Edge.1) s.

(** What [addToWorklist] appends: the edge, the target's out-edges, and its
    call and return edges. *)
Definition requeued (Edge : N * N) : list (N * N) :=
  let Dst := Edge.2 in
  [Edge]
  ++ ((λ Nprimeprime, (Dst, Nprimeprime)) <$> getSuccsOf CFG Dst)
  ++ (if isCallSite ICF Dst then
        Callee ← getCalleesOfCallAt ICF Dst;
        StartPoint ← getStartPointsOf ICF Callee; [(Dst, StartPoint)]
      else [])
  ++ (if isExitInst ICF Dst then
        Caller ← getCallersOf ICF (getFunctionOf ICF Dst);
        Nprimeprime ← getSuccsOf CFG Caller; [(Dst, Nprimeprime)]
      else []).

(** The loops of the [process] functions thread the work list and the table. *)
Definition addToWorklist (Edge : N * N) (W : list (N * N)) : list (N * N) := W ++ requeued Edge.

(** Compare an out-set with the target's entry, and on a change assign it and
    re-queue the edge. *)
Definition update (Edge : N * N) (Dst : N) (c : ctx) (Out : C)
    (WA : list (N * N) * table) : list (N * N) * table :=
  let '(W, A) := WA in
  if equal_to P Out (at_ A Dst c) then (W, touch Dst c A)
  else (addToWorklist Edge W, set_at Dst c Out A).

Definition merge_pred (Src : N) (Ctx : ctx) (Pred : N) (Out_A : C * table) : C * table :=
  if decide (Pred = Src) then Out_A
  else let '(Out, A) := Out_A in
       let OtherPredOut := normalFlow P Pred (at_ A Pred Ctx) in
       (merge P Out OtherPredOut, touch Pred Ctx A).

Definition normal_context (Edge : N * N) (Ctx : ctx)
    (WA : list (N * N) * table) : list (N * N) * table :=
  let '(W, A) := WA in
  let '(Src, Dst) := Edge in
  let Out := normalFlow P Src (at_ A Src Ctx) in
  let '(Out, A) :=
    if isBranchTarget CFG Src Dst
    then for_each (getPredsOf CFG Dst) (merge_pred Src Ctx) (Out, A)
    else (Out, A) in
  update Edge Dst Ctx Out (W, A).

Definition run_contexts (Src : N) (body : ctx → list (N * N) * table → list (N * N) * table)
    (s : state) : state :=
  let A := touch_node Src (Analysis s) in
  let '(W, A) := for_each (contexts A Src) body (Worklist s, A) in
  State W A (AddedFunctions s).

Definition processNormal (Edge : N * N) (s : state) : state :=
  run_contexts Edge.1 (normal_context Edge) s.

Definition call_context (Edge : N * N) (Ctx : ctx)
    (WA : list (N * N) * table) : list (N * N) * table :=
  let '(W, A) := WA in
  let '(Src, Dst) := Edge in
  let CTXAdd := CallStringCTX.push_back K Ctx Src in
  let Out := callFlow IMProblem Src (getFunctionOf ICF Dst) (at_ A Src Ctx) in
  update Edge Dst CTXAdd Out (W, A).

Definition call_to_ret_context (Edge : N * N) (Ctx : ctx)
    (WA : list (N * N) * table) : list (N * N) * table :=
  let '(W, A) := WA in
  let '(Src, Dst) := Edge in
  let Out := callToRetFlow IMProblem Src Dst (getCalleesOfCallAt ICF Src) (at_ A Src Ctx) in
  update Edge Dst Ctx Out (W, A).

Definition processCall (Edge : N * N) (s : state) : state :=
  if isIntraEdge Edge then run_contexts Edge.1 (call_to_ret_context Edge) s
  else run_contexts Edge.1 (call_context Edge) s.

(** The return flows of one context, to the return sites of the call sites it
    may return to; [Out] collects over the contexts with the same remainder. *)
Definition exit_ret_site (Dst : N) (CTXRm : ctx) (Out : C) (RetSite : N) (A : table) : table :=
  if equal_to P Out (at_ A RetSite CTXRm) then touch RetSite CTXRm A
  else
    let K := mono_container_t P in
    let Merge := container_insert K (container_insert K (container_default K) (at_ A RetSite CTXRm)) Out in
    set_at Dst CTXRm Merge (set_at RetSite CTXRm Merge A).

Definition exit_call_sites (Src : N) (Ctx : ctx) : list N * ctx :=
  if CallStringCTX.empty Ctx then (getCallersOf ICF (getFunctionOf ICF Src), Ctx)
  else match CallStringCTX.pop_back Ctx with
       | (Some CallSite, CTXRm) => ([CallSite], CTXRm)
       | (None, CTXRm) => ([], CTXRm)
       end.

Definition exit_context (Edge : N * N) (Ctx : ctx) (OA : gmap ctx C * table) : gmap ctx C * table :=
  let '(Out, A) := OA in
  let '(Src, Dst) := Edge in
  let '(CallSites, CTXRm) := exit_call_sites Src Ctx in
  let RetSites := node_order (CallSites ≫= getReturnSitesOfCallAt ICF) in
  let out_at (O : gmap ctx C) := default (container_default (mono_container_t P)) (O !! CTXRm) in
  let Out := for_each CallSites (λ CallSite O,
    <[CTXRm := container_insert (mono_container_t P) (out_at O)
                 (returnFlow IMProblem CallSite (getFunctionOf ICF Src) Src Dst (at_ A Src Ctx))]> O)
    Out in
  (Out, for_each RetSites (exit_ret_site Dst CTXRm (out_at Out)) A).

(** No edge is re-queued: the call is commented out in the source. *)
Definition processExit (Edge : N * N) (s : state) : state :=
  let A := touch_node Edge.1 (Analysis s) in
  State (Worklist s)
        (for_each (contexts A Edge.1) (exit_context Edge) (∅, A)).2
        (AddedFunctions s).

Definition process (Edge : N * N) (s : state) : state :=
  if isCallSite ICF Edge.1 then processCall Edge (addCalleesToWorklist Edge s)
  else if isExitInst ICF Edge.1 then processExit Edge s
  else processNormal Edge s.

Definition step (s : state) : state :=
  match Worklist s with
  | [] => s
  | Edge :: rest => process Edge (State rest (Analysis s) (AddedFunctions s))
  end.

(** [while (!Worklist.empty())], within a number of iterations. *)
Definition iterate : nat → state → option state := while_nonempty Worklist step.

Definition empty_state : state := State [] ∅ ∅.

Definition solve (fuel : nat) : option state := iterate fuel (initialize empty_state).

(** All contexts of a statement together. *)
Definition getResultsAt (s : state) (Stmt : N) : C :=
  for_each (contexts (Analysis s) Stmt)
    (λ Ctx Result, container_insert (mono_container_t P) Result (at_ (Analysis s) Stmt Ctx))
    (container_default (mono_container_t P)).

End solver.
End InterMono.
