(* ===== verification/InterMonoSolverCorrect.v ===== *)
(** Properties of [InterMonoSolver]: call strings are the last calls of the
    call stack, the contexts of every reachable table are such strings, the
    effect of one update, and - for an analysis that meets no call - the
    refinement of the abstract work-list system of the monotone framework. *)
From S2P Require Import Prelude IntraMonoSolver IntraMonoSolverCorrect InterMonoSolver.

(** * Call strings *)

Module CallStringCorrect.
Import CallStringCTX.
Section call_string.
Context {N : Type} (K : Z).

(** The last [K] calls of a stack of calls. *)
Definition last_calls (s : list N) : t := drop (length s - Z.to_nat K) s.

Context (HK : (1 ≤ K < 2 ^ 32)%Z).

Lemma limit_eq : limit K = (K - 1)%Z.
Proof. unfold limit. apply Z.mod_small. lia. Qed.

Lemma last_calls_length s : Z.of_nat (length (last_calls s)) = Z.min K (Z.of_nat (length s)).
Proof. unfold last_calls. rewrite length_drop. lia. Qed.

Lemma push_back_last_calls s x : push_back K (last_calls s) x = last_calls (s ++ [x]).
Proof.
  unfold push_back. rewrite limit_eq, last_calls_length. unfold last_calls.
  rewrite length_app. simpl.
  destruct (decide (K - 1 < Z.min K (Z.of_nat (length s)))%Z) as [Hlt|Hge].
  - assert (∀ l : list N, tail l = drop 1 l) as -> by (by intros []). rewrite drop_drop.
    replace (length s + 1 - Z.to_nat K) with (length s - Z.to_nat K + 1) by lia.
    rewrite drop_app_le by lia. done.
  - replace (length s - Z.to_nat K) with 0 by lia.
    replace (length s + 1 - Z.to_nat K) with 0 by lia. done.
Qed.

Lemma push_back_length (c : list N) x :
  (Z.of_nat (length c) ≤ K)%Z → (Z.of_nat (length (push_back K c x)) ≤ K)%Z.
Proof.
  intros Hc. unfold push_back. rewrite length_app, limit_eq. simpl.
  case_decide; [destruct c; simpl in *; lia|lia].
Qed.
End call_string.

Section pop_back.
Context {N : Type}.
Implicit Types (c : t (N:=N)).

Lemma pop_back_snoc c x : pop_back (c ++ [x]) = (Some x, c).
Proof. unfold pop_back. by rewrite last_snoc, removelast_last. Qed.

Lemma pop_back_spec c : pop_back c = (last c, removelast c).
Proof.
  unfold pop_back. destruct (last c) eqn:Hl; [done|]. apply last_None in Hl. by subst.
Qed.

Lemma removelast_sublist c : removelast c `sublist_of` c.
Proof.
  destruct c as [|x c _] using rev_ind; [done|].
  rewrite removelast_last. by apply sublist_inserts_r.
Qed.
End pop_back.
End CallStringCorrect.

Module InterMonoCorrect.
Import InterMono MonoFixpoint.
Section contexts.
Context {N F C : Type} `{Countable N} `{Countable F}.
Context (K : Z) (ICF : MonoICFG N F) (IMProblem : InterMonoProblem N F C).

Notation ctx := (CallStringCTX.t (N:=N)).
Notation P := (intra_problem IMProblem).
Notation CFG := (mono_cfg ICF).
Notation table := (gmap N (gmap ctx C)).

Implicit Types (s t : state (N:=N) (F:=F) (C:=C)) (A : table).

Lemma at_set_at A n c v n' c' :
  at_ IMProblem (set_at n c v A) n' c' =
  if decide (n = n' ∧ c = c') then v else at_ IMProblem A n' c'.
Proof.
  unfold at_, set_at. destruct (decide (n = n')) as [<-|Hn].
  - rewrite lookup_insert_eq. simpl. destruct (decide (c = c')) as [<-|Hc].
    + rewrite lookup_insert_eq, decide_True by done. done.
    + rewrite lookup_insert_ne, decide_False by naive_solver. done.
  - rewrite lookup_insert_ne, decide_False by naive_solver. done.
Qed.

Lemma ctx_at_touch A n c n' c' : at_ IMProblem (touch IMProblem n c A) n' c' = at_ IMProblem A n' c'.
Proof. unfold touch. rewrite at_set_at. destruct (decide _) as [[-> ->]|]; done. Qed.

Lemma at_touch_node A n n' c' : at_ IMProblem (touch_node n A) n' c' = at_ IMProblem A n' c'.
Proof.
  unfold touch_node, at_. destruct (decide (n = n')) as [<-|Hn].
  - by rewrite lookup_insert_eq.
  - by rewrite lookup_insert_ne.
Qed.

(** ** The contexts of a table *)

(** [has A n c]: the table has an entry for context [c] at [n]. *)
Definition has (A : table) (n : N) (c : ctx) : Prop := is_Some (default ∅ (A !! n) !! c).

Lemma has_set_at A n c v n' c' : has (set_at n c v A) n' c' ↔ (n = n' ∧ c = c') ∨ has A n' c'.
Proof.
  unfold has, set_at. destruct (decide (n = n')) as [<-|Hn].
  - rewrite lookup_insert_eq. simpl. rewrite lookup_insert_is_Some'. naive_solver.
  - rewrite lookup_insert_ne by done. naive_solver.
Qed.

Lemma has_touch A n c n' c' : has (touch IMProblem n c A) n' c' ↔ (n = n' ∧ c = c') ∨ has A n' c'.
Proof. apply has_set_at. Qed.

Lemma has_touch_node A n n' c' : has (touch_node n A) n' c' ↔ has A n' c'.
Proof.
  unfold has, touch_node. destruct (decide (n = n')) as [<-|Hn].
  - by rewrite lookup_insert_eq.
  - by rewrite lookup_insert_ne.
Qed.

Context (ctx_order : gmap ctx C → list ctx) (node_order : list N → list N).

(** What the code relies on of its iteration orders. *)
Class OrderLaws : Prop := {
  ctx_order_elem m c : c ∈ ctx_order m ↔ is_Some (m !! c);
  ctx_order_NoDup m : NoDup (ctx_order m);
  node_order_elem l n : n ∈ node_order l ↔ n ∈ l
}.
Context `{!OrderLaws}.

Lemma contexts_spec A n c : c ∈ contexts ctx_order A n ↔ has A n c.
Proof. apply ctx_order_elem. Qed.

(** ** A predicate on contexts that the solver's operations keep *)

Context (ok : ctx → Prop).
Context (ok_empty : ok CallStringCTX.empty_ctx).
Context (ok_push : ∀ c n, ok c → isCallSite ICF n = true → ok (CallStringCTX.push_back K c n)).
Context (ok_pop : ∀ c, ok c → ok (removelast c)).

Definition all_ok (A : table) : Prop := ∀ n c, has A n c → ok c.

Lemma all_ok_set_at n c v A : ok c → all_ok A → all_ok (set_at n c v A).
Proof. intros Hc HA n' c'. rewrite has_set_at. intros [[_ <-]|Hh]; eauto. Qed.

Lemma all_ok_init_edges Edges A : all_ok A → all_ok (init_edges IMProblem Edges A).
Proof.
  intros HA. unfold init_edges.
  assert (all_ok (for_each Edges (λ e, set_at e.1 CallStringCTX.empty_ctx (allTop P)) A)) as HA'.
  { apply for_each_inv; [done|]. intros e A' _. by apply all_ok_set_at. }
  destruct (last Edges); [by apply all_ok_set_at|done].
Qed.

Lemma all_ok_update Edge Dst c Out WA :
  ok c → all_ok WA.2 → all_ok (update ICF IMProblem Edge Dst c Out WA).2.
Proof.
  destruct WA as [W A]. simpl. intros Hc HA. case_match; by apply all_ok_set_at.
Qed.

Lemma all_ok_run_contexts Src body s :
  (∀ c WA, ok c → all_ok WA.2 → all_ok (body c WA).2) →
  all_ok (Analysis s) → all_ok (Analysis (run_contexts ctx_order Src body s)).
Proof.
  intros Hbody HA. unfold run_contexts.
  assert (all_ok (touch_node Src (Analysis s))) as HA'.
  { intros n c. rewrite has_touch_node. apply HA. }
  pose proof (for_each_inv (λ WA : list (N * N) * table, all_ok WA.2)
    (contexts ctx_order (touch_node Src (Analysis s)) Src) body
    (Worklist s, touch_node Src (Analysis s)) HA') as Hinv.
  destruct (for_each _ _ _) as [W A]. apply Hinv. intros c WA Hc. apply Hbody.
  apply contexts_spec in Hc. by eapply HA'.
Qed.

Lemma all_ok_normal Edge c WA :
  ok c → all_ok WA.2 → all_ok (normal_context ICF IMProblem Edge c WA).2.
Proof.
  destruct WA as [W A], Edge as [Src Dst]. intros Hc HA. simpl in HA. unfold normal_context.
  assert (∀ Out, all_ok (for_each (getPredsOf CFG Dst) (merge_pred IMProblem Src c) (Out, A)).2)
    as Hpreds.
  { intros Out. apply (for_each_inv (λ OA : C * table, all_ok OA.2)); [done|].
    intros q [O A'] _ HA'. unfold merge_pred. case_decide; [done|]. by apply all_ok_set_at. }
  destruct (isBranchTarget CFG Src Dst); [|by apply all_ok_update].
  specialize (Hpreds (normalFlow P Src (at_ IMProblem A Src c))).
  destruct (for_each _ _ _) as [Out A']. by apply all_ok_update.
Qed.

Lemma all_ok_exit Edge s :
  all_ok (Analysis s) →
  all_ok (Analysis (processExit ICF IMProblem ctx_order node_order Edge s)).
Proof.
  intros HA. unfold processExit. simpl.
  assert (all_ok (touch_node Edge.1 (Analysis s))) as HA'.
  { intros n c. rewrite has_touch_node. apply HA. }
  apply (for_each_inv (λ OA : gmap ctx C * table, all_ok OA.2)); [done|].
  intros c [Out A] Hc HA2. apply contexts_spec, HA' in Hc. destruct Edge as [Src Dst]. simpl.
  assert (ok (exit_call_sites ICF Src c).2) as Hrm.
  { unfold exit_call_sites. destruct c as [|x c]; [done|]. simpl.
    rewrite CallStringCorrect.pop_back_spec. case_match; by apply ok_pop. }
  destruct (exit_call_sites ICF Src c) as [CallSites CTXRm]. simpl.
  apply for_each_inv; [done|]. intros r A' _ HA3. unfold exit_ret_site.
  case_match; repeat apply all_ok_set_at; done.
Qed.

Lemma all_ok_add_callees Src Callees s :
  all_ok (Analysis s) → all_ok (Analysis (add_callees ICF IMProblem Src Callees s)).
Proof.
  revert s. induction Callees as [|Callee rest IH]; intros s HA; simpl; [done|].
  case_decide; [done|]. apply IH. simpl. by apply all_ok_init_edges.
Qed.

Lemma step_all_ok s :
  all_ok (Analysis s) → all_ok (Analysis (step K ICF IMProblem ctx_order node_order s)).
Proof.
  intros HA. unfold step. destruct (Worklist s) as [|Edge rest]; [done|]. unfold process.
  destruct (isCallSite ICF Edge.1) eqn:Hcs.
  - assert (all_ok (Analysis (addCalleesToWorklist ICF IMProblem Edge
      (State rest (Analysis s) (AddedFunctions s))))) as HA' by by apply all_ok_add_callees.
    unfold processCall. destruct (isIntraEdge ICF Edge);
      apply all_ok_run_contexts; try done; intros c [W A] Hc HA2;
      destruct Edge as [Src Dst]; apply all_ok_update; eauto.
  - destruct (isExitInst ICF Edge.1); [by apply all_ok_exit|].
    apply all_ok_run_contexts; [|done]. intros c WA. apply all_ok_normal.
Qed.

Lemma initialize_all_ok s :
  all_ok (Analysis s) → all_ok (Analysis (initialize ICF IMProblem s)).
Proof.
  intros HA. unfold initialize. apply (for_each_inv (λ t, all_ok (Analysis t))); [done|].
  intros [Node Facts] t _ Ht. simpl. by apply all_ok_set_at, all_ok_init_edges.
Qed.

Lemma steps_all_ok k s :
  all_ok (Analysis s) →
  all_ok (Analysis (Nat.iter k (step K ICF IMProblem ctx_order node_order) s)).
Proof. intros HA. induction k as [|k IH]; simpl; [done|by apply step_all_ok]. Qed.
End contexts.

(** ** Call edges whose contexts collide *)

Section collision.
Context {N F C : Type} `{Countable N} `{Countable F} `{Equiv C}.
Context (K : Z) (ICF : MonoICFG N F) (IMProblem : InterMonoProblem N F C).

Notation ctx := (CallStringCTX.t (N:=N)).
Notation P := (intra_problem IMProblem).
Notation table := (gmap N (gmap ctx C)).

Context (ctx_order : gmap ctx C → list ctx) (node_order : list N → list N).
Context `{!OrderLaws ctx_order node_order} `{!MonoProblemLaws P}.

(** An update either re-queues its edge or changes no entry. *)
Lemma update_spec (Edge : N * N) (Dst : N) (c : ctx) (Out : C) (W : list (N * N)) (A : table) :
  let WA := update ICF IMProblem Edge Dst c Out (W, A) in
  (WA.1 = addToWorklist ICF Edge W ∧ ¬ Out ≡ at_ IMProblem A Dst c
     ∧ ∀ n c', at_ IMProblem WA.2 n c' =
         if decide (Dst = n ∧ c = c') then Out else at_ IMProblem A n c')
  ∨ (WA.1 = W ∧ Out ≡ at_ IMProblem A Dst c
     ∧ ∀ n c', at_ IMProblem WA.2 n c' = at_ IMProblem A n c').
Proof.
  simpl. destruct (equal_to P Out (at_ IMProblem A Dst c)) eqn:Heq; simpl.
  - right. apply equal_to_spec in Heq. split; [done|]. split; [done|].
    intros n c'. apply ctx_at_touch.
  - left. split; [done|]. split; [|intros n c'; apply at_set_at].
    intros Heq'. apply equal_to_spec in Heq'. congruence.
Qed.

Lemma requeued_self (Edge : N * N) (W : list (N * N)) : Edge ∈ addToWorklist ICF Edge W.
Proof. unfold addToWorklist, requeued. set_solver. Qed.

Lemma call_edge_requeued (Src Dst : N) (s : state (N:=N) (F:=F) (C:=C)) c1 c2 :
  isIntraEdge ICF (Src, Dst) = false →
  has (Analysis s) Src c1 → has (Analysis s) Src c2 →
  CallStringCTX.push_back K c1 Src = CallStringCTX.push_back K c2 Src →
  let out c := callFlow IMProblem Src (getFunctionOf ICF Dst) (at_ IMProblem (Analysis s) Src c) in
  ¬ out c1 ≡ out c2 →
  (Src, Dst) ∈ Worklist (processCall K ICF IMProblem ctx_order (Src, Dst) s).
Proof.
  intros Hintra Hc1 Hc2 Hpush out Hout. unfold processCall. rewrite Hintra. unfold run_contexts.
  set (A0 := touch_node (Src, Dst).1 (Analysis s)).
  set (quiet (WA : list (N * N) * table) := ∀ n c, at_ IMProblem WA.2 n c = at_ IMProblem A0 n c).
  set (queued (WA : list (N * N) * table) := (Src, Dst) ∈ WA.1).
  set (body := call_context K ICF IMProblem (Src, Dst)).
  assert (∀ c WA, (queued WA → queued (body c WA)) ∧ (quiet WA → queued (body c WA) ∨
    (quiet (body c WA) ∧ out c ≡ at_ IMProblem A0 Dst (CallStringCTX.push_back K c Src)))) as Hbody.
  { intros c [W A]. unfold body, call_context.
    destruct (update_spec (Src, Dst) Dst (CallStringCTX.push_back K c Src)
      (callFlow IMProblem Src (getFunctionOf ICF Dst) (at_ IMProblem A Src c)) W A)
      as [(HW & _ & _)|(HW & Heq & HA)]; unfold queued.
    - rewrite HW. split; intros _; [|left]; apply requeued_self.
    - rewrite HW. split; [done|]. intros Hq. right. split.
      + intros n c'. by rewrite HA, Hq.
      + unfold out. rewrite <-(at_touch_node IMProblem (Analysis s) Src).
        change (touch_node Src (Analysis s)) with A0.
        rewrite <-(Hq Src c), <-(Hq Dst). done. }
  assert (∀ c, has (Analysis s) Src c →
    let WA := for_each (contexts ctx_order A0 Src) body (Worklist s, A0) in
    queued WA ∨ out c ≡ at_ IMProblem A0 Dst (CallStringCTX.push_back K c Src)) as Hall.
  { intros c Hc WA. unfold WA.
    apply (for_each_reach (λ WA, queued WA ∨ quiet WA)
      (λ WA, queued WA ∨ out c ≡ at_ IMProblem A0 Dst (CallStringCTX.push_back K c Src)) c).
    - apply (contexts_spec ctx_order node_order). unfold A0. by apply has_touch_node.
    - right. by intros n c'.
    - intros y WA' _ [Hq|Hq]; [left; by apply Hbody|].
      destruct (proj2 (Hbody y WA') Hq) as [|[? _]]; auto.
    - intros WA' [Hq|Hq]; [left; by apply Hbody|].
      destruct (proj2 (Hbody c WA') Hq) as [|[_ ?]]; auto.
    - intros y WA' _ _ [Hq|Hq]; [left; by apply Hbody|by right]. }
  simpl in Hall. fold A0. destruct (Hall c1 Hc1) as [Hq|Hq1].
  { destruct (for_each _ _ _) as [W A]. done. }
  destruct (Hall c2 Hc2) as [Hq|Hq2].
  { destruct (for_each _ _ _) as [W A]. done. }
  destruct Hout. by rewrite Hq1, Hq2, Hpush.
Qed.
End collision.

(** ** Analyses that meet no call *)

Section call_free.
Context {N F C : Type} `{Countable N} `{Countable F} `{Equiv C}.
Context (K : Z) (ICF : MonoICFG N F) (IMProblem : InterMonoProblem N F C).

Notation ctx := (CallStringCTX.t (N:=N)).
Notation P := (intra_problem IMProblem).
Notation CFG := (mono_cfg ICF).
Notation table := (gmap N (gmap ctx C)).

Context (ctx_order : gmap ctx C → list ctx) (node_order : list N → list N).
Context `{!OrderLaws ctx_order node_order} `{!MonoCFGLaws CFG} `{!MonoProblemLaws P}.

(** One seeded function without calls that nobody calls, whose exits have no
    successors, and the default [allTop]. *)
Record call_free (n0 : N) (facts : C) : Prop := {
  cf_seeds : initialSeeds P = [(n0, facts)];
  cf_entry : getEntryPoints P = [getFunctionOf ICF n0];
  cf_function n : in_scope CFG P n → getFunctionOf ICF n = getFunctionOf ICF n0;
  cf_no_call n : in_scope CFG P n → isCallSite ICF n = false;
  cf_exit n : in_scope CFG P n → isExitInst ICF n = true → getSuccsOf CFG n = [];
  cf_callers : getCallersOf ICF (getFunctionOf ICF n0) = [];
  cf_top : allTop P = default_allTop (mono_container_t P)
}.
Context (n0 : N) (facts : C) (Hfree : call_free n0 facts).

Notation st := (state (N:=N) (F:=F) (C:=C)).
Definition values (s : st) (n : N) : C := at_ IMProblem (Analysis s) n CallStringCTX.empty_ctx.

(** Only the empty context occurs, and it does at every edge's source. *)
Definition one_context (s : st) : Prop :=
  (∀ n c, has (Analysis s) n c → c = [])
  ∧ ∀ n, in_scope CFG P n → getSuccsOf CFG n ≠ [] → has (Analysis s) n [].

Lemma only_empty_context (s : st) (n : N) :
  (∀ c, has (Analysis s) n c → c = []) → has (Analysis s) n [] →
  contexts ctx_order (touch_node n (Analysis s)) n = [[]].
Proof.
  intros Honly Hhas. pose proof (ctx_order_NoDup ctx_order node_order
    (default ∅ (touch_node n (Analysis s) !! n))) as Hnd.
  assert (∀ c, c ∈ contexts ctx_order (touch_node n (Analysis s)) n ↔ c = []) as Hel.
  { intros c. rewrite (contexts_spec ctx_order node_order), has_touch_node.
    split; [apply Honly|by intros ->]. }
  unfold contexts in *. destruct (ctx_order _) as [|c1 l].
  { pose proof (proj2 (Hel []) eq_refl) as Hbad. by apply elem_of_nil in Hbad. }
  assert (c1 = []) as -> by (apply Hel; set_solver).
  destruct l as [|c2 l]; [done|]. assert (c2 = []) as -> by (apply Hel; set_solver).
  apply NoDup_cons in Hnd as [Hnd _]. set_solver.
Qed.

Lemma ctx_merge_preds_spec (Src : N) (ps : list N) (Out : C) (A : table) :
  (∀ n c, has A n c → c = []) →
  ∃ A', for_each ps (merge_pred IMProblem Src []) (Out, A) =
          (merge_list (merge P) Out
             ((λ q, normalFlow P q (at_ IMProblem A q [])) <$> filter (.≠ Src) ps), A')
        ∧ (∀ n c, at_ IMProblem A' n c = at_ IMProblem A n c)
        ∧ (∀ n c, has A' n c → c = []) ∧ (∀ n c, has A n c → has A' n c).
Proof.
  revert Out A. induction ps as [|p ps IH]; intros Out A HA; [by exists A|].
  rewrite for_each_cons. unfold merge_pred at 2. rewrite filter_cons.
  destruct (decide (p = Src)) as [->|Hne].
  - rewrite decide_False by auto. by apply IH.
  - rewrite decide_True by done.
    destruct (IH (merge P Out (normalFlow P p (at_ IMProblem A p []))) (touch IMProblem p [] A))
      as (A' & -> & HA' & Honly & Hmono).
    { intros n c Hh. apply has_touch in Hh as [[_ <-]|Hh]; [done|by eapply HA]. }
    exists A'. split; [|split; [|split; [done|]]].
    + f_equal. simpl. unfold merge_list. f_equal. apply list_fmap_ext.
      intros i q _. by rewrite ctx_at_touch.
    + intros n c. by rewrite HA', ctx_at_touch.
    + intros n c Hh. apply Hmono, has_touch. by right.
Qed.

(** The out-set of an edge in the empty context. *)
Lemma normal_context_spec (Src Dst : N) (W : list (N * N)) (A : table) :
  Src ∈ getPredsOf CFG Dst → (∀ n c, has A n c → c = []) →
  ∃ Out A', normal_context ICF IMProblem (Src, Dst) [] (W, A)
              = update ICF IMProblem (Src, Dst) Dst [] Out (W, A')
    ∧ Out ≡ flow_in CFG P (λ n, at_ IMProblem A n []) Dst
    ∧ (∀ n c, at_ IMProblem A' n c = at_ IMProblem A n c)
    ∧ (∀ n c, has A' n c → c = []) ∧ (∀ n c, has A n c → has A' n c).
Proof.
  intros HSrc HA. unfold normal_context.
  pose proof (edge_flow_in CFG P (λ n, at_ IMProblem A n []) Src Dst _ HSrc eq_refl) as Hflow.
  destruct (isBranchTarget CFG Src Dst) eqn:HB.
  - destruct (ctx_merge_preds_spec Src (getPredsOf CFG Dst) (normalFlow P Src (at_ IMProblem A Src [])) A)
      as (A' & -> & HA'); [done|]. by exists (merge_list (merge P) (normalFlow P Src (at_ IMProblem A Src []))
       ((λ q, normalFlow P q (at_ IMProblem A q [])) <$> filter (.≠ Src) (getPredsOf CFG Dst))), A'.
  - by exists (normalFlow P Src (at_ IMProblem A Src [])), A.
Qed.

(** In the call-free function an edge re-queues itself and the out-edges of its
    target. *)
Lemma requeued_call_free Src Dst :
  in_scope CFG P Dst →
  requeued ICF (Src, Dst) = (Src, Dst) :: ((λ n, (Dst, n)) <$> getSuccsOf CFG Dst).
Proof.
  intros HD. unfold requeued. simpl. rewrite (cf_no_call _ _ Hfree) by done.
  rewrite (cf_function _ _ Hfree Dst), (cf_callers _ _ Hfree) by done.
  case_match; by rewrite ?app_nil_r.
Qed.

Notation next := (step K ICF IMProblem ctx_order node_order).

Lemma step_call_free (s : st) :
  one_context s → edges_ok CFG P (Worklist s) → Worklist s ≠ [] →
  one_context (next s) ∧
  transition CFG P (Worklist s, values s) (Worklist (next s), values (next s)).
Proof.
  intros [Honly Hsrc] Hok Hne. destruct s as [W A Added]. simpl in *.
  destruct W as [|[Src Dst] rest]; [done|].
  destruct (Hok Src Dst) as [Hsc Hsd]; [set_solver|].
  assert (in_scope CFG P Dst) as HD by by eapply in_scope_succ.
  unfold step, process. simpl. rewrite (cf_no_call _ _ Hfree) by done.
  destruct (isExitInst ICF Src) eqn:Hexit.
  { rewrite (cf_exit _ _ Hfree) in Hsd by done. set_solver. }
  assert (has A Src []) as HhasS by (apply Hsrc; [done|]; intros Hno; rewrite Hno in Hsd; set_solver).
  unfold processNormal, run_contexts. simpl.
  pose proof (only_empty_context (State rest A Added) Src (Honly Src) HhasS) as Hctxs.
  simpl in Hctxs. rewrite Hctxs. clear Hctxs.
  destruct (normal_context_spec Src Dst rest (touch_node Src A)) as
    (Out & A' & Hctx & HOut & HA' & Honly' & Hmono').
  { by apply preds_spec. }
  { intros n c Hh. apply has_touch_node in Hh. by eapply Honly. }
  change (for_each [[]] (normal_context ICF IMProblem (Src, Dst)) (rest, touch_node Src A))
    with (normal_context ICF IMProblem (Src, Dst) [] (rest, touch_node Src A)).
  rewrite Hctx. clear Hctx.
  assert (∀ n, values (State rest A' Added) n = at_ IMProblem A n []) as HvA.
  { intros n. unfold values. simpl. by rewrite HA', at_touch_node. }
  assert (Out ≡ flow_in CFG P (λ n, at_ IMProblem A n []) Dst) as HOut'.
  { rewrite HOut. erewrite flow_in_ext; [done|]. intros n _. simpl. by rewrite at_touch_node. }
  assert (∀ n c, has A n c → has A' n c) as Hmono.
  { intros n c Hh. apply Hmono'. by apply has_touch_node. }
  assert (∀ v, one_context (State rest (set_at Dst [] v A') Added)) as Hone.
  { intros v. split; simpl.
    - intros n c Hh. apply has_set_at in Hh as [[_ <-]|Hh]; [done|by eapply Honly'].
    - intros n Hn Hs. apply has_set_at. right. by apply Hmono, Hsrc. }
  unfold update. destruct (equal_to P Out (at_ IMProblem A' Dst [])) eqn:Heq; (split; [apply Hone|]).
  - apply equal_to_spec in Heq. eapply step_stable; [done|done| |].
    + intros n. unfold values. simpl. unfold CallStringCTX.empty_ctx.
      by rewrite ctx_at_touch, HA', at_touch_node.
    + unfold values. simpl. rewrite <-HOut', Heq, HA', at_touch_node. done.
  - eapply step_update; simpl; [done|done| | | | | exact HOut' |].
    + intros n Hn. rewrite requeued_call_free by done. right. apply list_elem_of_fmap. by exists n.
    + rewrite requeued_call_free by done.
      intros a b [[=-> ->]|(n & [=-> ->] & Hn)%list_elem_of_fmap]%elem_of_cons; done.
    + rewrite requeued_call_free by done. simpl. by rewrite length_fmap.
    + intros n. unfold values. simpl. unfold CallStringCTX.empty_ctx.
      rewrite at_set_at, HA', at_touch_node.
      destruct (decide (Dst = n)) as [->|Hn].
      * by rewrite decide_True.
      * rewrite decide_False by naive_solver. done.
    + unfold values. simpl. unfold CallStringCTX.empty_ctx. intros Heq'.
      assert (equal_to P Out (at_ IMProblem A' Dst []) = true); [|congruence].
      apply equal_to_spec. rewrite HA', at_touch_node. by symmetry.
Qed.

Notation start := (initialize ICF IMProblem empty_state).

Lemma init_edges_at (Edges : list (N * N)) (A : table) (n : N) :
  (∀ n, at_ IMProblem A n [] = allTop P) →
  at_ IMProblem (init_edges IMProblem Edges A) n [] = allTop P.
Proof.
  intros HA. unfold init_edges, CallStringCTX.empty_ctx.
  assert (∀ n, at_ IMProblem (for_each Edges (λ e, set_at e.1 [] (allTop P)) A) n [] = allTop P) as HA'.
  { apply (for_each_inv (λ A : table, ∀ n, at_ IMProblem A n [] = allTop P)); [done|].
    intros e A' _ HA' k. rewrite at_set_at. case_decide; auto. }
  destruct (last Edges); [|done]. rewrite at_set_at. case_decide; auto.
Qed.

Lemma init_edges_has (Edges : list (N * N)) (A : table) :
  (∀ n c, has A n c → c = []) →
  (∀ n c, has (init_edges IMProblem Edges A) n c → c = []) ∧
  (∀ a b, (a, b) ∈ Edges → has (init_edges IMProblem Edges A) a []).
Proof.
  intros HA. unfold init_edges, CallStringCTX.empty_ctx.
  set (A1 := for_each Edges (λ e, set_at e.1 [] (allTop P)) A).
  assert (∀ n c, has A1 n c → c = []) as Honly.
  { apply (for_each_inv (λ A : table, ∀ n c, has A n c → c = [])); [done|].
    intros e A' _ HA' n c Hh. apply has_set_at in Hh as [[_ <-]|Hh]; [done|by eapply HA']. }
  assert (∀ a b, (a, b) ∈ Edges → has A1 a []) as Hsrc.
  { intros a b Hab.
    apply (for_each_reach (λ _, True) (λ A : table, has A a []) (a, b)); try done.
    - intros A' _. apply has_set_at. by left.
    - intros e A' _ _ HA'. apply has_set_at. by right. }
  destruct (last Edges) as [e|]; [|done]. split.
  - intros n c Hh. apply has_set_at in Hh as [[_ <-]|Hh]; [done|by eapply Honly].
  - intros a b Hab. apply has_set_at. right. by eapply Hsrc.
Qed.

Lemma in_scope_entry n :
  in_scope CFG P n ↔ n ∈ getAllInstructionsOf CFG (getFunctionOf ICF n0).
Proof.
  unfold in_scope. rewrite (cf_entry _ _ Hfree). setoid_rewrite list_elem_of_singleton.
  split; [by intros (f & -> & ?)|by eexists].
Qed.

Lemma start_one_context : one_context start.
Proof.
  unfold initialize. rewrite (cf_seeds _ _ Hfree). simpl.
  unfold one_context. simpl. unfold CallStringCTX.empty_ctx.
  destruct (init_edges_has (getAllControlFlowEdges CFG (getFunctionOf ICF n0)) ∅) as [Honly Hsrc].
  { intros n c. unfold has. rewrite lookup_empty. simpl. rewrite lookup_empty. by intros [? ?]. }
  split.
  - intros n c Hh. apply has_set_at in Hh as [[_ <-]|Hh]; [done|by eapply Honly].
  - intros n Hn Hs. apply has_set_at. right. destruct (getSuccsOf CFG n) as [|m l] eqn:Hm; [done|].
    apply (Hsrc n m). apply edges_spec. rewrite Hm. split; [by apply in_scope_entry|set_solver].
Qed.

Lemma start_initial : initial CFG P (Worklist start, values start).
Proof.
  unfold initialize. rewrite (cf_seeds _ _ Hfree). simpl. split; simpl.
  - intros a b. rewrite app_nil_r, edges_spec. by rewrite in_scope_entry.
  - intros n _. unfold values, seeded. simpl. rewrite (cf_seeds _ _ Hfree). simpl.
    rewrite at_set_at. unfold CallStringCTX.empty_ctx.
    assert (∀ n, at_ IMProblem (init_edges IMProblem
      (getAllControlFlowEdges CFG (getFunctionOf ICF n0)) ∅) n [] = allTop P) as Hat.
    { intros k. apply init_edges_at. intros j. unfold at_. rewrite lookup_empty. simpl.
      rewrite lookup_empty. simpl. by rewrite (cf_top _ _ Hfree). }
    rewrite !Hat. destruct (decide (n0 = n)) as [->|Hn].
    + by rewrite decide_True.
    + rewrite decide_False by naive_solver. done.
Qed.
End call_free.
End InterMonoCorrect.
