(* ===== verification/MonoProperties.v ===== *)
(** What the monotone framework's solvers guarantee, with concrete problems on
    which the theorems apply. *)
From S2P Require Import Prelude IntraMonoSolver IntraMonoSolverCorrect.
From S2P Require Import InterMonoSolver InterMonoSolverCorrect.

(** * A loop with two facts *)

(** Nodes 0, 1, 2, 3 of one function: 0 enters the loop head 1, whose body 2
    jumps back, and 3 is the exit. Node 0 generates the first fact, the loop
    body the second one. *)
Module LoopExample.
Definition cfg : MonoCFG nat unit := {|
  getAllInstructionsOf := λ _, [0; 1; 2; 3];
  getAllControlFlowEdges := λ _, [(0, 1); (1, 2); (1, 3); (2, 1)];
  getSuccsOf := λ n, match n with 0 => [1] | 1 => [2; 3] | 2 => [1] | _ => [] end;
  getPredsOf := λ n, match n with 1 => [0; 2] | 2 => [1] | 3 => [1] | _ => [] end;
  isBranchTarget := λ s d, bool_decide (d = 1)
|}.

Definition facts : Type := bool * bool.
#[export] Instance facts_equiv : Equiv facts := (=).
Definition union_facts (x y : facts) : facts := (x.1 || y.1, x.2 || y.2).

Definition problem : IntraMonoProblem nat unit facts := {|
  mono_container_t := {| container_default := (false, false); container_insert := union_facts |};
  normalFlow := λ n c, match n with 0 => (true, c.2) | 2 => (c.1, true) | _ => c end;
  merge := union_facts;
  equal_to := λ x y, bool_decide (x = y);
  allTop := (false, false);
  initialSeeds := [(0, (false, false))];
  getEntryPoints := [tt]
|}.

Definition facts_le (x y : facts) : Prop := union_facts x y = y.
Definition facts_rank (x : facts) : nat := Nat.b2n x.1 + Nat.b2n x.2.

#[export] Instance merge_laws : MergeLaws (C:=facts) (merge problem).
Proof.
  split.
  - exact eq_equivalence.
  - intros x y Hxy x' y' Hxy'. unfold equiv, facts_equiv in *. by subst.
  - by intros [[] []] [[] []].
  - by intros [[] []] [[] []] [[] []].
  - by intros [[] []].
Qed.

#[export] Instance problem_laws : MonoProblemLaws problem.
Proof.
  split; [apply _|intros x y; apply bool_decide_eq_true|].
  intros n x y Hxy. unfold equiv, facts_equiv in *. by subst.
Qed.

#[export] Instance monotone_laws : MonotoneLaws problem facts_le facts_rank 2.
Proof.
  split; unfold facts_le, facts_rank.
  - split; [by intros [[] []]|]. by intros [[] []] [[] []] [[] []].
  - intros x y Hxy. unfold equiv, facts_equiv in Hxy. subst. by destruct y as [[] []].
  - intros [|[|[|n]]] [[] []] [[] []]; simpl; intros Hle; done.
  - intros [[] []] [[] []] H1 [[] []] [[] []] H2; done.
  - by intros [[] []].
  - intros [[] []]; simpl; lia.
  - intros x y Hxy. unfold equiv, facts_equiv in Hxy. by subst.
  - intros [[] []] [[] []] H1 H2; simpl; try discriminate H1; try lia; by destruct H2.
Qed.

#[export] Instance cfg_laws : MonoCFGLaws cfg.
Proof.
  split; simpl.
  - intros _ s d. rewrite !elem_of_cons, !elem_of_nil. split.
    + intros [[=-> ->]|[[=-> ->]|[[=-> ->]|[[=-> ->]|[]]]]]; split; try lia; set_solver.
    + intros [[->|[->|[->|[->|[]]]]] Hd]; rewrite ?elem_of_cons, ?elem_of_nil in Hd;
        decompose [or] Hd; subst; auto; done.
  - intros p d. destruct p as [|[|[|p]]], d as [|[|[|[|d]]]];
      rewrite ?elem_of_cons, ?elem_of_nil; lia.
  - intros _ s d _. rewrite !elem_of_cons, !elem_of_nil.
    destruct s as [|[|[|s]]]; rewrite ?elem_of_cons, ?elem_of_nil; lia.
  - intros _ s d _. rewrite !elem_of_cons, !elem_of_nil.
    destruct s as [|[|[|s]]]; rewrite ?elem_of_cons, ?elem_of_nil; lia.
  - intros s p d. destruct d as [|[|[|[|d]]]];
      rewrite ?elem_of_cons, ?elem_of_nil; try lia. intros. by apply bool_decide_eq_true.
Qed.
End LoopExample.

Section intra.
Import IntraMono MonoFixpoint IntraMonoCorrect.

(** C15: [IntraMonoSolver::solve] terminates on a monotone problem of finite
    height and presents the least solution: within as many iterations as there
    are edges and, per instruction, its degree plus one times the height, it returns; what
    [getResultsAt] then gives for an instruction is the out-set of an
    assignment that solves the data-flow equations (each in-set is the merge of
    the out-sets of all predecessors, the seeds at the entries) and lies below
    every assignment that satisfies them or is above them. *)
Theorem intra_mono_least_solution {N F C : Type} `{Countable N} `{Equiv C}
    (CFG : MonoCFG N F) (P : IntraMonoProblem N F C)
    (le : relation C) (rank : C → nat) (h : nat) (fuel : nat) :
  MonoCFGLaws CFG → MonoProblemLaws P → MonotoneLaws P le rank h →
  (∀ n c, (n, c) ∈ initialSeeds P → getPredsOf CFG n = []) →
  enough_iterations CFG P h (Worklist (initialize CFG P empty_state)) ≤ fuel →
  ∃ R S, solve CFG P fuel = Some R
    ∧ is_solution CFG P S
    ∧ (∀ S', (∀ n, in_scope CFG P n → le (flow_in CFG P S' n) (S' n)) →
         ∀ n, in_scope CFG P n → le (S n) (S' n))
    ∧ (∀ n, in_scope CFG P n → getResultsAt P R n = normalFlow P n (S n)).
Proof.
  intros HC HP HM Hseeds Hfuel. unfold solve.
  destruct (refinement_least_solution CFG P le rank h Hseeds Worklist (λ s, at_ P (Analysis s))
    (step CFG P) (λ _, True) (λ s _ Hok Hne, conj I (step_refines CFG P s Hok Hne)) fuel
    (initialize CFG P empty_state)) as (s & Hs & Hsol & Hleast);
    [done|by apply initialize_initial|done|].
  unfold iterate. rewrite Hs. exists (present P (Analysis s)), (at_ P (Analysis s)).
  split; [done|]. split; [done|]. split; [done|]. intros n Hn. by eapply present_results.
Qed.
End intra.

Section intra_witness.
Import IntraMono MonoFixpoint IntraMonoCorrect LoopExample.

Lemma intra_mono_least_solution_witness :
  solve cfg problem 20 ≠ None ∧
  ∃ R S, solve cfg problem 20 = Some R
    ∧ is_solution cfg problem S
    ∧ (∀ S', (∀ n, in_scope cfg problem n → facts_le (flow_in cfg problem S' n) (S' n)) →
         ∀ n, in_scope cfg problem n → facts_le (S n) (S' n))
    ∧ (∀ n, in_scope cfg problem n → getResultsAt problem R n = normalFlow problem n (S n)).
Proof.
  split; [by vm_compute|].
  apply (intra_mono_least_solution cfg problem facts_le facts_rank 2 20);
    [apply _|apply _|apply _| |vm_compute; lia].
  intros n c Hn. simpl in Hn. apply elem_of_cons in Hn as [[=-> ->]|Hn]; [done|set_solver].
Defined.

(** The loop's two facts meet at its head. *)
Example loop_results :
  (λ R, getResultsAt problem R <$> [0; 1; 2; 3]) <$> solve cfg problem 20
  = Some [(true, false); (true, true); (true, true); (true, true)].
Proof. by vm_compute. Qed.
End intra_witness.

(** * The inter-procedural solver *)

Section inter.
Import InterMono MonoFixpoint InterMonoCorrect.

(** Call strings are what they are for: for a limit of at least one, adding
    a call to the last [K] calls of a stack gives the last [K] calls of the
    longer stack; and after any number of iterations of
    [InterMonoSolver::solve], every context the table mentions has at most [K]
    elements, all of them call sites. *)
Theorem call_strings_are_last_calls {N F C : Type} `{Countable N} `{Countable F}
    (K : Z) (ICF : MonoICFG N F) (P : InterMonoProblem N F C)
    (ctx_order : gmap (list N) C → list (list N)) (node_order : list N → list N) (k : nat) :
  (1 ≤ K < 2 ^ 32)%Z → OrderLaws ctx_order node_order →
  (∀ (stack : list N) (c : N), CallStringCTX.push_back K (CallStringCorrect.last_calls K stack) c
                = CallStringCorrect.last_calls K (stack ++ [c]))
  ∧ (∀ n c,
      has (Analysis (Nat.iter k (step K ICF P ctx_order node_order)
             (initialize ICF P empty_state))) n c →
      (Z.of_nat (length c) ≤ K)%Z ∧ Forall (λ n, isCallSite ICF n = true) c).
Proof.
  intros HK Hord. split; [intros; by apply CallStringCorrect.push_back_last_calls|].
  intros n c. apply (steps_all_ok K ICF P ctx_order node_order
    (λ c, (Z.of_nat (length c) ≤ K)%Z ∧ Forall (λ n, isCallSite ICF n = true) c)).
  - split; [simpl; lia|constructor].
  - intros c' m [Hlen Hall] Hm. split; [by apply CallStringCorrect.push_back_length|].
    unfold CallStringCTX.push_back. apply Forall_app. split; [|by repeat constructor].
    case_decide; [destruct c'; [done|by inversion Hall]|done].
  - intros c' [Hlen Hall]. pose proof (CallStringCorrect.removelast_sublist c') as Hsub. split.
    + apply sublist_length in Hsub. lia.
    + destruct c' as [|x c' _] using rev_ind; [done|].
      rewrite removelast_last. by apply Forall_app in Hall as [? _].
  - apply initialize_all_ok.
    + split; [simpl; lia|constructor].
    + intros m c'. unfold has. simpl. rewrite lookup_empty. simpl. rewrite lookup_empty.
      by intros [? ?].
Qed.

(** An analysis that meets no call gives the same results with either
    solver: both return, and the in-sets [InterMonoSolver] computes for the
    empty context have, under the flow functions, the out-sets
    [IntraMonoSolver] presents. *)
Theorem inter_mono_agrees_with_intra {N F C : Type} `{Countable N} `{Countable F} `{Equiv C}
    (K : Z) (ICF : MonoICFG N F) (P : InterMonoProblem N F C)
    (ctx_order : gmap (list N) C → list (list N)) (node_order : list N → list N)
    (le : relation C) (rank : C → nat) (h : nat) (n0 : N) (facts : C) (fuel : nat) :
  OrderLaws ctx_order node_order →
  MonoCFGLaws (mono_cfg ICF) → MonoProblemLaws (intra_problem P) →
  MonotoneLaws (intra_problem P) le rank h →
  call_free ICF P n0 facts → getPredsOf (mono_cfg ICF) n0 = [] →
  enough_iterations (mono_cfg ICF) (intra_problem P) h
    (Worklist (initialize ICF P empty_state)) ≤ fuel →
  enough_iterations (mono_cfg ICF) (intra_problem P) h
    (IntraMono.Worklist (IntraMono.initialize (mono_cfg ICF) (intra_problem P)
       IntraMono.empty_state)) ≤ fuel →
  ∃ s R, solve K ICF P ctx_order node_order fuel = Some s
    ∧ IntraMono.solve (mono_cfg ICF) (intra_problem P) fuel = Some R
    ∧ ∀ n, in_scope (mono_cfg ICF) (intra_problem P) n →
        le (IntraMono.getResultsAt (intra_problem P) R n)
           (normalFlow (intra_problem P) n (at_ P (Analysis s) n CallStringCTX.empty_ctx))
        ∧ le (normalFlow (intra_problem P) n (at_ P (Analysis s) n CallStringCTX.empty_ctx))
             (IntraMono.getResultsAt (intra_problem P) R n).
Proof.
  intros Hord HC HP HM Hfree Hn0 Hfuel Hfuel'.
  assert (∀ n c, (n, c) ∈ initialSeeds (intra_problem P) → getPredsOf (mono_cfg ICF) n = []) as Hseeds.
  { intros n c. rewrite (cf_seeds _ _ _ _ Hfree). by intros [=-> ->]%list_elem_of_singleton. }
  destruct (refinement_least_solution (mono_cfg ICF) (intra_problem P) le rank h Hseeds
    Worklist (values P) (step K ICF P ctx_order node_order) (one_context ICF P)
    (step_call_free K ICF P ctx_order node_order n0 facts Hfree) fuel
    (initialize ICF P empty_state)) as (s & Hs & Hsol & Hleast).
  { by eapply start_one_context. } { by eapply start_initial. } { done. }
  destruct (refinement_least_solution (mono_cfg ICF) (intra_problem P) le rank h Hseeds
    IntraMono.Worklist (λ s, IntraMono.at_ (intra_problem P) (IntraMono.Analysis s))
    (IntraMono.step (mono_cfg ICF) (intra_problem P)) (λ _, True)
    (λ s _ Hok Hne, conj I (IntraMonoCorrect.step_refines (mono_cfg ICF) (intra_problem P) s Hok Hne))
    fuel (IntraMono.initialize (mono_cfg ICF) (intra_problem P) IntraMono.empty_state))
    as (t & Ht & Hsol' & Hleast').
  { done. } { by apply IntraMonoCorrect.initialize_initial. } { done. }
  exists s, (IntraMono.present (intra_problem P) (IntraMono.Analysis t)).
  split; [done|]. split.
  { unfold IntraMono.solve, IntraMono.iterate. by rewrite Ht. }
  intros n Hn. erewrite IntraMonoCorrect.present_results by done.
  split; apply normalFlow_mono; [apply (Hleast' (values P s))|apply (Hleast (λ n, IntraMono.at_ _ _ n))];
    try done; intros m Hm; apply (le_equiv (P:=intra_problem P)); symmetry; auto.
Qed.

(** C35: with call strings that are cut off, a call edge may never settle: when
    two contexts of a call site shorten to the same call string and the call
    flow gives them different facts, [processCall] overwrites the callee's entry
    back and forth instead of merging, and always queues the edge again. *)
Theorem colliding_call_edge_requeued {N F C : Type} `{Countable N} `{Countable F} `{Equiv C}
    (K : Z) (ICF : MonoICFG N F) (P : InterMonoProblem N F C)
    (ctx_order : gmap (list N) C → list (list N)) (node_order : list N → list N)
    (Src Dst : N) (s : state) (c1 c2 : list N) :
  OrderLaws ctx_order node_order → MonoProblemLaws (intra_problem P) →
  isIntraEdge ICF (Src, Dst) = false →
  has (Analysis s) Src c1 → has (Analysis s) Src c2 →
  CallStringCTX.push_back K c1 Src = CallStringCTX.push_back K c2 Src →
  ¬ callFlow P Src (getFunctionOf ICF Dst) (at_ P (Analysis s) Src c1)
    ≡ callFlow P Src (getFunctionOf ICF Dst) (at_ P (Analysis s) Src c2) →
  (Src, Dst) ∈ Worklist (processCall K ICF P ctx_order (Src, Dst) s).
Proof. intros Hord HP. by apply (call_edge_requeued K ICF P ctx_order node_order). Qed.
End inter.

(** * Inter-procedural examples *)

Module InterExample.
Import InterMono InterMonoCorrect LoopExample.

Definition keys {C} (m : gmap (list nat) C) : list (list nat) := (map_to_list m).*1.

#[export] Instance keys_laws {C} : OrderLaws (C:=C) keys remove_dups.
Proof.
  split.
  - intros m c. unfold keys. rewrite list_elem_of_fmap. split.
    + intros ([k v] & -> & Hkv). apply elem_of_map_to_list in Hkv. by exists v.
    + intros [v Hv]. exists (c, v). split; [done|]. by apply elem_of_map_to_list.
  - intros m. apply NoDup_fst_map_to_list.
  - intros l n. apply elem_of_remove_dups.
Qed.

(** The loop as a program without calls. *)
Definition icfg : MonoICFG nat unit := {|
  mono_cfg := cfg;
  getFunctionOf := λ _, tt;
  isCallSite := λ _, false;
  isExitInst := λ n, bool_decide (n = 3);
  getStartPointsOf := λ _, [0];
  getExitPointsOf := λ _, [3];
  getCalleesOfCallAt := λ _, [];
  getReturnSitesOfCallAt := λ _, [];
  getCallersOf := λ _, []
|}.

Definition inter_problem : InterMonoProblem nat unit facts := {|
  intra_problem := problem;
  callFlow := λ _ _ c, c;
  returnFlow := λ _ _ _ _ c, c;
  callToRetFlow := λ _ _ _ c, c
|}.

Lemma loop_call_free : call_free icfg inter_problem 0 (false, false).
Proof.
  split; try done. intros n (f & _ & Hn). simpl in Hn. intros Hx.
  apply bool_decide_eq_true in Hx. by subst.
Qed.

(** A function of nodes 5 and 6, entered with two contexts, whose call site 5
    calls another function of the single node 9. *)
Definition call_icfg : MonoICFG nat bool := {|
  mono_cfg := {|
    getAllInstructionsOf := λ f : bool, if f then [5; 6] else [9];
    getAllControlFlowEdges := λ f : bool, if f then [(5, 6)] else [];
    getSuccsOf := λ n : nat, if decide (n = 5) then [6] else [];
    getPredsOf := λ n : nat, if decide (n = 6) then [5] else [];
    isBranchTarget := λ _ _ : nat, false |};
  getFunctionOf := λ n, bool_decide (n < 9);
  isCallSite := λ n, bool_decide (n = 5);
  isExitInst := λ n, bool_decide (n = 9);
  getStartPointsOf := λ f : bool, if f then [5] else [9];
  getExitPointsOf := λ f : bool, if f then [6] else [9];
  getCalleesOfCallAt := λ n, if decide (n = 5) then [false] else [];
  getReturnSitesOfCallAt := λ n, if decide (n = 5) then [6] else [];
  getCallersOf := λ f : bool, if f then [] else [5]
|}.

Definition call_problem : InterMonoProblem nat bool facts := {|
  intra_problem := {|
    mono_container_t := mono_container_t problem;
    normalFlow := λ _ c, c;
    merge := merge problem;
    equal_to := equal_to problem;
    allTop := (false, false);
    initialSeeds := [];
    getEntryPoints := [] |};
  callFlow := λ _ _ c, c;
  returnFlow := λ _ _ _ _ c, c;
  callToRetFlow := λ _ _ _ c, c
|}.

#[export] Instance call_problem_laws : MonoProblemLaws (intra_problem call_problem).
Proof.
  split; [apply _|intros x y; apply bool_decide_eq_true|]. intros n x y Hxy. done.
Qed.

(** The contexts [1] and [2] of the call site 5 disagree. *)
Definition collision : state (N:=nat) (F:=bool) (C:=facts) :=
  State [] {[5 := {[ [1] := (true, false); [2] := (false, true) ]}]} ∅.
End InterExample.

Section inter_witnesses.
Import InterMono MonoFixpoint InterMonoCorrect LoopExample InterExample.

Lemma call_strings_are_last_calls_witness :
  OrderLaws (C:=facts) keys remove_dups ∧
  (∀ (stack : list nat) (c : nat), CallStringCTX.push_back 2 (CallStringCorrect.last_calls 2 stack) c
                = CallStringCorrect.last_calls 2 (stack ++ [c]))
  ∧ (∀ n c,
      has (Analysis (Nat.iter 7 (step 2 icfg inter_problem keys remove_dups)
             (initialize icfg inter_problem empty_state))) n c →
      (Z.of_nat (length c) ≤ 2)%Z ∧ Forall (λ n, isCallSite icfg n = true) c).
Proof.
  split; [apply _|].
  apply (call_strings_are_last_calls 2 icfg inter_problem keys remove_dups 7); [lia|apply _].
Defined.

Lemma inter_mono_agrees_with_intra_witness :
  ∃ s R, solve 3 icfg inter_problem keys remove_dups 20 = Some s
    ∧ IntraMono.solve cfg problem 20 = Some R
    ∧ ∀ n, in_scope cfg problem n →
        facts_le (IntraMono.getResultsAt problem R n)
           (normalFlow problem n (at_ inter_problem (Analysis s) n CallStringCTX.empty_ctx))
        ∧ facts_le (normalFlow problem n (at_ inter_problem (Analysis s) n CallStringCTX.empty_ctx))
             (IntraMono.getResultsAt problem R n).
Proof.
  apply (inter_mono_agrees_with_intra 3 icfg inter_problem keys remove_dups
           facts_le facts_rank 2 0 (false, false) 20);
    [apply _|apply _|apply _|apply _|apply loop_call_free|done|vm_compute; lia|vm_compute; lia].
Defined.

Lemma colliding_call_edge_requeued_witness :
  (5, 9) ∈ Worklist (processCall 1 call_icfg call_problem keys (5, 9) collision).
Proof.
  apply (colliding_call_edge_requeued 1 call_icfg call_problem keys remove_dups 5 9 collision [1] [2]);
    [apply _|apply _|done|by eexists|by eexists|done|].
  intros Heq. vm_compute in Heq. discriminate Heq.
Defined.
End inter_witnesses.
