(* ===== verification/SCCGeneric.v ===== *)
(** Strongly connected components (Utils/SCCGeneric.h): Pearce's algorithm in
    its recursive and iterative variants, the collapsed dependency graph, and
    the two topological orders. *)
From S2P Require Import Prelude.

(** * Graphs and results *)

(** What the algorithms use of [GraphTraits] (Utils/GraphTraits.h): the number
    of vertices, which are [0 .. size - 1], and the targets of the out-edges. *)
Record Graph := {
  size : nat;
  outEdges : nat → list nat
}.
Definition vertices (G : Graph) : list nat := seq 0 (size G).

(** [uint32_t] arithmetic. *)
Definition u32 (x : Z) : Z := (x `mod` 2 ^ 32)%Z.

(** [SCCHolder]: an [SCCId] is the index of its component. *)
Record SCCHolder := {
  SCCOfNode : list nat;
  NodesInSCC : list (list nat)
}.
Definition num_sccs (H : SCCHolder) : nat := length (NodesInSCC H).

(** * Pearce's algorithm *)

Module Pearce.
Section pearce.
Context (G : Graph).

(** [Pearce4Data] and the [SCCHolder] that is filled. The back of the stack is
    the head of its list. *)
Record state := State {
  RIndex : list Z;
  Root : gset nat;
  Index : Z;
  C : Z;
  Stack : list nat;
  Holder : SCCHolder
}.

(** [Pearce4Data(Num)] and the resized [SCCOfNode]. *)
Definition initial_state : state :=
  let Num := size G in
  State (replicate Num 0%Z) ∅ 1 (if decide (Num = 0) then 0%Z else u32 (Z.of_nat Num - 1)) []
    {| SCCOfNode := replicate Num 0; NodesInSCC := [] |}.

Definition rindex (s : state) (v : nat) : Z := RIndex s !!! v.
Definition set_rindex (v : nat) (x : Z) (s : state) : state :=
  State (<[v := x]> (RIndex s)) (Root s) (Index s) (C s) (Stack s) (Holder s).
Definition set_index (x : Z) (s : state) : state :=
  State (RIndex s) (Root s) x (C s) (Stack s) (Holder s).
Definition set_stack (l : list nat) (s : state) : state :=
  State (RIndex s) (Root s) (Index s) (C s) l (Holder s).
Definition set_root (r : gset nat) (s : state) : state :=
  State (RIndex s) r (Index s) (C s) (Stack s) (Holder s).
Definition set_holder (h : SCCHolder) (s : state) : state :=
  State (RIndex s) (Root s) (Index s) (C s) (Stack s) h.
Definition decrement_C (s : state) : state :=
  State (RIndex s) (Root s) (Index s) (u32 (C s - 1)) (Stack s) (Holder s).

(** [Data.RIndex\[V\] = Data.Index++]. *)
Definition discover (V : nat) (s : state) : state :=
  set_index (u32 (Index s + 1)) (set_rindex V (Index s) s).

(** [Holder.SCCOfNode\[W\] = NewSCC; Nodes.push_back(W)], where [NewSCC] is the
    last component. *)
Definition add_to_scc (W NewSCC : nat) (s : state) : state :=
  set_holder {| SCCOfNode := <[W := NewSCC]> (SCCOfNode (Holder s));
                NodesInSCC := alter (λ Nodes, Nodes ++ [W]) NewSCC (NodesInSCC (Holder s)) |} s.

(** The [while] loop that pops the component of [V] off the stack. *)
Fixpoint pop_component (V NewSCC : nat) (stack : list nat) (s : state) : state :=
  match stack with
  | W :: rest =>
    if decide (rindex s V ≤ rindex s W)%Z then
      let s := set_rindex W (C s) (set_stack rest s) in
      pop_component V NewSCC rest (add_to_scc W NewSCC (set_index (u32 (Index s - 1)) s))
    else s
  | [] => s
  end.

(** [V] is the root of a component. *)
Definition found_scc (V : nat) (s : state) : state :=
  let s := set_index (u32 (Index s - 1)) s in
  let NewSCC := length (NodesInSCC (Holder s)) in
  let s := set_holder {| SCCOfNode := SCCOfNode (Holder s);
                         NodesInSCC := NodesInSCC (Holder s) ++ [[]] |} s in
  let s := add_to_scc V NewSCC (pop_component V NewSCC (Stack s) s) in
  decrement_C (set_rindex V (C s) s).

Definition finish (V : nat) (root : bool) (s : state) : state :=
  if root then found_scc V s else set_stack (V :: Stack s) s.

(** ** The recursive variant *)

(** The update of [V] by the explored edge to [W]; [Root] is a local flag. *)
Definition relax_rec (V W : nat) (sr : state * bool) : state * bool :=
  let '(s, root) := sr in
  if decide (rindex s W < rindex s V)%Z then (set_rindex V (rindex s W) s, false) else (s, root).

Fixpoint visit_edges (visit : nat → state → option state) (V : nat) (edges : list nat)
    (s : state) (root : bool) : option (state * bool) :=
  match edges with
  | [] => Some (s, root)
  | W :: rest =>
    s' ← (if decide (rindex s W = 0%Z) then visit W s else Some s);
    let '(s'', root') := relax_rec V W (s', root) in
    visit_edges visit V rest s'' root'
  end.

(** [pearce4VisitRec], within a recursion depth. *)
Fixpoint pearce4VisitRec (fuel : nat) (V : nat) (s : state) : option state :=
  match fuel with
  | 0 => None
  | S fuel =>
    '(s', root) ← visit_edges (pearce4VisitRec fuel) V (outEdges G V) (discover V s) true;
    Some (finish V root s')
  end.

(** ** The iterative variant *)

(** A [DfsFrame]: its vertex and the edges from its iterator to the end. *)
Definition frame : Type := nat * list nat.
(** The call stack, with its back at the head. *)
Definition config : Type := state * list frame.

Definition discover_it (W : nat) (s : state) : state :=
  let s := discover W s in set_root ({[W]} ∪ Root s) s.

(** The [do-while] loop of [PushFrames], from a frame that is not at its end:
    descend into undiscovered targets. *)
Fixpoint descend (fuel : nat) (cfg : config) : option config :=
  match fuel with
  | 0 => None
  | S fuel =>
    let '(s, CallStack) := cfg in
    match CallStack with
    | (_, W :: _) :: _ =>
      if decide (rindex s W ≠ 0%Z) then Some cfg
      else
        let s := discover_it W s in
        let CallStack := (W, outEdges G W) :: CallStack in
        match outEdges G W with
        | [] => Some (s, CallStack)
        | _ => descend fuel (s, CallStack)
        end
    | _ => Some cfg
    end
  end.

(** [PushFrames]: [None] for its result [false]. *)
Definition PushFrames (fuel : nat) (cfg : config) : option (option config) :=
  match cfg.2 with
  | (_, []) :: _ | [] => Some None
  | _ => Some <$> descend fuel cfg
  end.

(** [VisitLoop]: finish the current edge of the top frame and advance. *)
Definition VisitLoop (cfg : config) : config :=
  let '(s, CallStack) := cfg in
  match CallStack with
  | (V, W :: rest) :: frames =>
    let s := if decide (rindex s W < rindex s V)%Z
             then set_root (Root s ∖ {[V]}) (set_rindex V (rindex s W) s) else s in
    (s, (V, rest) :: frames)
  | _ => cfg
  end.

Definition FinishFrame (cfg : config) : config :=
  let '(s, CallStack) := cfg in
  match CallStack with
  | (V, _) :: frames => (finish V (bool_decide (V ∈ Root s)) s, frames)
  | [] => cfg
  end.

(** The [while (true)] loop. *)
Fixpoint simulate (fuel : nat) (cfg : config) : option state :=
  match fuel with
  | 0 => None
  | S fuel =>
    let cfg := VisitLoop cfg in
    r ← PushFrames (S (size G)) cfg;
    match r with
    | Some cfg => simulate fuel cfg
    | None =>
      let cfg := FinishFrame cfg in
      match cfg.2 with
      | [] => Some cfg.1
      | _ => simulate fuel cfg
      end
    end
  end.

Definition pearce4VisitIt (fuel : nat) (Start : nat) (s : state) : option state :=
  let cfg := (discover_it Start s, [(Start, outEdges G Start)]) in
  r ← PushFrames (S (size G)) cfg;
  simulate fuel (default cfg r).

(** ** The driver *)

(** What is left on the stack after a visit becomes a component. *)
Definition flush_stack (s : state) : state :=
  match Stack s with
  | [] => s
  | _ =>
    let NewSCC := length (NodesInSCC (Holder s)) in
    let Nodes := reverse (Stack s) in
    set_stack []
      (set_holder {| SCCOfNode := for_each Nodes (λ Vtx, insert Vtx NewSCC) (SCCOfNode (Holder s));
                     NodesInSCC := NodesInSCC (Holder s) ++ [Nodes] |} s)
  end.

Fixpoint visit_all (visit : nat → state → option state) (vs : list nat) (s : state) : option state :=
  match vs with
  | [] => Some s
  | V :: rest =>
    s' ← (if decide (rindex s V = 0%Z) then flush_stack <$> visit V s else Some s);
    visit_all visit rest s'
  end.

Definition computeSCCs (Iterative : bool) (fuel : nat) : option SCCHolder :=
  if decide (size G = 0) then Some {| SCCOfNode := []; NodesInSCC := [] |}
  else
    let visit := if Iterative then pearce4VisitIt fuel else pearce4VisitRec fuel in
    Holder <$> visit_all visit (vertices G) initial_state.

End pearce.
End Pearce.

(** Components are found in reverse topological order. *)
Definition computeSCCsAndTopologicalOrder (G : Graph) (Iterative : bool) (fuel : nat)
  : option (SCCHolder * list nat) :=
  (λ H, (H, reverse (seq 0 (num_sccs H)))) <$> Pearce.computeSCCs G Iterative fuel.

(** * The dependency graph *)

(** [SCCDependencyGraph]: the children of a component are a set. *)
Record SCCDependencyGraph := {
  ChildrenOfSCC : list (gset nat);
  SCCRoots : list nat
}.

(** Its [GraphTraits], with the iteration order of a [SmallDenseSet]. *)
Definition dependency_graph (set_order : gset nat → list nat) (D : SCCDependencyGraph) : Graph := {|
  size := length (ChildrenOfSCC D);
  outEdges := λ Vtx, set_order (ChildrenOfSCC D !!! Vtx)
|}.

Definition add_dependency (SrcSCC SuccSCC : nat) (DR : list (gset nat) * gset nat)
  : list (gset nat) * gset nat :=
  if decide (SuccSCC = SrcSCC) then DR
  else (alter (λ Children, {[SuccSCC]} ∪ Children) SrcSCC DR.1, DR.2 ∖ {[SuccSCC]}).

Definition computeSCCDependencies (G : Graph) (SCCs : SCCHolder) : SCCDependencyGraph :=
  let '(Children, Roots) :=
    for_each (vertices G) (λ NodeId DR,
      let SrcSCC := SCCOfNode SCCs !!! NodeId in
      for_each (outEdges G NodeId) (λ Succ, add_dependency SrcSCC (SCCOfNode SCCs !!! Succ)) DR)
      (replicate (num_sccs SCCs) ∅, list_to_set (seq 0 (num_sccs SCCs))) in
  {| ChildrenOfSCC := Children;
     SCCRoots := filter (λ Rt, Rt ∈ Roots) (seq 0 (num_sccs SCCs)) |}.

(** * The order by depth-first search *)

Module SCCOrder.
Section order.
(** The iteration order of a [SmallDenseSet]. *)
Context (set_order : gset nat → list nat) (Callers : SCCDependencyGraph).

(** [Seen] and the ids in the order they are appended. *)
Definition state : Type := gset nat * list nat.

Fixpoint dfs_children (dfs : nat → state → option state) (children : list nat) (s : state)
  : option state :=
  match children with
  | [] => Some s
  | Caller :: rest =>
    s' ← (if decide (Caller ∈ s.1) then Some s else dfs Caller s);
    dfs_children dfs rest s'
  end.

Fixpoint Dfs (fuel : nat) (CurrSCC : nat) (s : state) : option state :=
  match fuel with
  | 0 => None
  | S fuel =>
    s' ← dfs_children (Dfs fuel) (set_order (ChildrenOfSCC Callers !!! CurrSCC))
           ({[CurrSCC]} ∪ s.1, s.2);
    Some (s'.1, s'.2 ++ [CurrSCC])
  end.

Definition computeSCCOrder (fuel : nat) : option (list nat) :=
  (λ s : state, reverse s.2) <$> dfs_children (Dfs fuel) (SCCRoots Callers) (∅, []).
End order.
End SCCOrder.
