(* ===== verification/SCCGenericCorrect.v ===== *)
(** Correctness of the recursive variant of Pearce's algorithm: the invariant
    of the active vertices, the specification of a visit, and what the
    components it finds are. *)
From S2P Require Import Prelude SCCGeneric.

(** Out-edges lead to vertices, and the indices fit a [uint32_t]. *)
Class GraphLaws (G : Graph) : Prop := {
  out_bound v w : v < size G → w ∈ outEdges G v → w < size G;
  size_bound : (Z.of_nat (size G) < 2 ^ 32 - 1)%Z
}.

Definition edge (G : Graph) (v w : nat) : Prop := w ∈ outEdges G v.
Definition reach (G : Graph) : nat → nat → Prop := rtc (edge G).

Lemma u32_small x : (0 ≤ x < 2 ^ 32)%Z → u32 x = x.
Proof. apply Z.mod_small. Qed.

(** ** Lists *)

Lemma NoDup_bound_length (l : list nat) n :
  NoDup l → (∀ x, x ∈ l → x < n) → length l ≤ n.
Proof.
  intros Hnd Hb. transitivity (length (seq 0 n)); [|by rewrite length_seq].
  apply submseteq_length, NoDup_submseteq; [done|]. intros x Hx. apply elem_of_seq. specialize (Hb x Hx). lia.
Qed.

Lemma total_lookup_insert {A} `{Inhabited A} (l : list A) i j (x : A) :
  i < length l → <[i := x]> l !!! j = if decide (i = j) then x else l !!! j.
Proof.
  intros Hi. destruct (decide (i = j)) as [<-|Hne].
  - by apply list_lookup_total_insert_eq.
  - by apply list_lookup_total_insert_ne.
Qed.

Lemma alter_app_twice {A} (l : list (list A)) j x y :
  alter (λ Nodes, Nodes ++ y) j (alter (λ Nodes, Nodes ++ [x]) j l) =
  alter (λ Nodes, Nodes ++ x :: y) j l.
Proof.
  apply list_eq. intros i. destruct (decide (j = i)) as [<-|Hne].
  - rewrite !list_lookup_alter_eq. destruct (l !! j); simpl; [by rewrite <-app_assoc|done].
  - by rewrite !list_lookup_alter_ne.
Qed.

Module PearceCorrect.
Import Pearce.

(** ** Popping a component *)

Lemma pop_component_spec V NewSCC stk rest s :
  Stack s = stk ++ rest → NoDup stk → V ∉ stk →
  (∀ w, w ∈ stk → w < length (RIndex s) ∧ w < length (SCCOfNode (Holder s))
                  ∧ (rindex s V ≤ rindex s w)%Z) →
  (∀ w, head rest = Some w → (rindex s w < rindex s V)%Z) →
  (∀ w, head rest = Some w → w ∉ stk) →
  (Z.of_nat (length stk) ≤ Index s < 2 ^ 32)%Z →
  let s' := pop_component V NewSCC (stk ++ rest) s in
  Stack s' = rest ∧ C s' = C s ∧ Root s' = Root s
  ∧ Index s' = (Index s - Z.of_nat (length stk))%Z
  ∧ length (RIndex s') = length (RIndex s)
  ∧ length (SCCOfNode (Holder s')) = length (SCCOfNode (Holder s))
  ∧ (∀ v, rindex s' v = if decide (v ∈ stk) then C s else rindex s v)
  ∧ (∀ v, SCCOfNode (Holder s') !!! v =
        if decide (v ∈ stk) then NewSCC else SCCOfNode (Holder s) !!! v)
  ∧ NodesInSCC (Holder s') = alter (λ Nodes, Nodes ++ stk) NewSCC (NodesInSCC (Holder s)).
Proof.
  revert s. induction stk as [|W stk IH]; intros s Hst Hnd HV Hstk Hrest Hdis HI; simpl.
  - assert (pop_component V NewSCC rest s = s) as ->.
    { destruct rest as [|w rest]; simpl; [done|]. rewrite decide_False; [done|].
      specialize (Hrest w eq_refl). lia. }
    split_and!; try done; [lia|]. rewrite list_alter_id; [done|]. intros x. by rewrite app_nil_r.
  - apply NoDup_cons in Hnd as [HW Hnd]. apply not_elem_of_cons in HV as [HVW HV].
    destruct (Hstk W) as (HbW & HbW' & HleW); [set_solver|]. rewrite decide_True by lia.
    set (s1 := add_to_scc W NewSCC _).
    assert (∀ v, rindex s1 v = if decide (W = v) then C s else rindex s v) as Hr1.
    { intros v. unfold rindex, s1. simpl. by apply total_lookup_insert; lia. }
    destruct (IH s1) as (H1 & H2 & H3 & H4 & H5 & H6 & H7 & H8 & H9).
    + done.
    + done.
    + done.
    + intros w Hw. destruct (Hstk w) as (Hb & Hb' & Hle); [set_solver|].
      unfold s1. simpl. rewrite !length_insert. split; [done|]. split; [done|].
      fold s1. rewrite !Hr1, !decide_False by set_solver. done.
    + intros w Hw. specialize (Hdis w Hw). rewrite !Hr1, !decide_False by set_solver. by apply Hrest.
    + intros w Hw. specialize (Hdis w Hw). set_solver.
    + unfold s1. simpl in *. rewrite u32_small; lia.
    + split_and!; [done|by rewrite H2|by rewrite H3| | | | | |].
      * rewrite H4. unfold s1. simpl in *. rewrite u32_small; lia.
      * rewrite H5. unfold s1. simpl. apply length_insert.
      * rewrite H6. unfold s1. simpl. apply length_insert.
      * intros v. rewrite H7, Hr1. change (C s1) with (C s).
        destruct (decide (v ∈ stk)) as [Hv|Hv].
        { by rewrite decide_True by set_solver. }
        destruct (decide (W = v)) as [<-|Hne]; [by rewrite decide_True by set_solver|].
        by rewrite decide_False by set_solver.
      * intros v. rewrite H8. unfold s1. simpl. rewrite total_lookup_insert by lia.
        destruct (decide (v ∈ stk)) as [Hv|Hv]; [by rewrite decide_True by set_solver|].
        destruct (decide (W = v)) as [<-|Hne]; [by rewrite decide_True by set_solver|].
        by rewrite decide_False by set_solver.
      * rewrite H9. unfold s1. simpl. by rewrite alter_app_twice.
Qed.

(** ** The invariant *)

Definition done (s : state) : list nat := mjoin (NodesInSCC (Holder s)).
Definition in_scc (s : state) (v j : nat) : Prop :=
  ∃ ns, NodesInSCC (Holder s) !! j = Some ns ∧ v ∈ ns.

Lemma elem_of_done s v : v ∈ done s ↔ ∃ j, in_scc s v j.
Proof.
  unfold done, in_scc. rewrite list_elem_of_join. split.
  - intros (ns & Hv & [j Hj]%list_elem_of_lookup). eauto.
  - intros (j & ns & Hj & Hv). exists ns. split; [done|]. by eapply list_elem_of_lookup_2.
Qed.

Section invariant.
Context (G : Graph) `{!GraphLaws G}.

(** [ord]: the active vertices (discovered, not yet in a component), in the
    order of their discovery. The index of an active vertex is the position at
    which the search knows it can arrive; the stack holds those that are
    finished. *)
Record inv (ord : list nat) (s : state) : Prop := {
  inv_nodup : NoDup (ord ++ done s);
  inv_bound v : v ∈ ord ++ done s → v < size G;
  inv_index : Index s = (Z.of_nat (length ord) + 1)%Z;
  inv_C : C s = u32 (Z.of_nat (size G) - 1 - Z.of_nat (num_sccs (Holder s)));
  inv_len : length (RIndex s) = size G;
  inv_len_scc : length (SCCOfNode (Holder s)) = size G;
  inv_fresh v : v < size G → v ∉ ord → v ∉ done s → rindex s v = 0%Z;
  inv_active i v : ord !! i = Some v → (1 ≤ rindex s v ≤ Z.of_nat i + 1)%Z;
  inv_arrives i v : ord !! i = Some v →
    ∃ k y, ord !! k = Some y ∧ rindex s v = (Z.of_nat k + 1)%Z ∧ reach G v y;
  inv_scc v j : in_scc s v j →
    rindex s v = (Z.of_nat (size G) - 1 - Z.of_nat j)%Z ∧ SCCOfNode (Holder s) !!! v = j;
  inv_nonempty ns : ns ∈ NodesInSCC (Holder s) → ns ≠ [];
  inv_closed v w j : in_scc s v j → edge G v w → ∃ j', in_scc s w j' ∧ j' ≤ j;
  inv_connected v w j : in_scc s v j → in_scc s w j → reach G v w;
  inv_stack_nodup : NoDup (Stack s);
  inv_stack v : v ∈ Stack s → ∃ i, ord !! i = Some v ∧ (rindex s v < Z.of_nat i + 1)%Z;
  inv_stack_edges v w : v ∈ Stack s → edge G v w →
    w ∈ done s ∨ ∃ k, ord !! k = Some w ∧ (rindex s v ≤ Z.of_nat k + 1)%Z
}.

Lemma sccs_le_done s :
  (∀ ns, ns ∈ NodesInSCC (Holder s) → ns ≠ []) → num_sccs (Holder s) ≤ length (done s).
Proof.
  unfold num_sccs, done. induction (NodesInSCC (Holder s)) as [|ns l IH]; intros Hne; simpl; [lia|].
  rewrite length_app. specialize (IH ltac:(set_solver)).
  destruct ns as [|x ns]; [by destruct (Hne [] ltac:(set_solver))|]. simpl. lia.
Qed.

Lemma inv_count ord s : inv ord s → length ord + num_sccs (Holder s) ≤ size G.
Proof.
  intros Hi. pose proof (sccs_le_done s (inv_nonempty _ _ Hi)).
  pose proof (NoDup_bound_length _ (size G) (inv_nodup _ _ Hi) (inv_bound _ _ Hi)) as Hle.
  rewrite length_app in Hle. lia.
Qed.

Lemma inv_count_fresh ord s V :
  inv ord s → V < size G → V ∉ ord → V ∉ done s →
  S (length ord + num_sccs (Holder s)) ≤ size G
  ∧ S (length ord + length (done s)) ≤ size G.
Proof.
  intros Hi HV Hord Hdone. pose proof (sccs_le_done s (inv_nonempty _ _ Hi)).
  assert (NoDup (V :: ord ++ done s)) as Hnd.
  { apply NoDup_cons. split; [set_solver|apply Hi]. }
  pose proof (NoDup_bound_length _ (size G) Hnd) as Hle. simpl in Hle. rewrite length_app in Hle.
  assert (∀ x, x ∈ V :: ord ++ done s → x < size G) as Hb.
  { intros x [->|Hx]%elem_of_cons; [done|by eapply inv_bound]. }
  specialize (Hle Hb). lia.
Qed.

Lemma inv_C_eq ord s : inv ord s → num_sccs (Holder s) < size G →
  C s = (Z.of_nat (size G) - 1 - Z.of_nat (num_sccs (Holder s)))%Z.
Proof.
  intros Hi Hlt. rewrite (inv_C _ _ Hi). apply u32_small. pose proof (size_bound (G:=G)). lia.
Qed.

Lemma in_scc_lt s v j : in_scc s v j → j < num_sccs (Holder s).
Proof. intros (ns & Hj & _). by apply lookup_lt_Some in Hj. Qed.

(** Indices separate undiscovered, active and assigned vertices. *)
Lemma done_above_active ord s v w :
  inv ord s → v ∈ ord → w ∈ done s → (1 ≤ rindex s v ≤ rindex s w)%Z.
Proof.
  intros Hi [i Hv]%list_elem_of_lookup [j Hw]%elem_of_done.
  destruct (inv_active _ _ Hi _ _ Hv). destruct (inv_scc _ _ Hi _ _ Hw) as [-> _].
  apply lookup_lt_Some in Hv. apply in_scc_lt in Hw. pose proof (inv_count _ _ Hi). lia.
Qed.

Lemma rindex_zero ord s v w :
  inv ord s → v ∈ ord → w < size G → (rindex s w = 0%Z ↔ w ∉ ord ∧ w ∉ done s).
Proof.
  intros Hi Hv Hw. split; [|intros [? ?]; by apply (inv_fresh _ _ Hi)].
  intros Hz. split; intros Hin.
  - apply list_elem_of_lookup in Hin as [k Hk]. destruct (inv_active _ _ Hi _ _ Hk). lia.
  - pose proof (done_above_active _ _ _ _ Hi Hv Hin). lia.
Qed.

Lemma ord_not_done ord s v : inv ord s → v ∈ ord → v ∉ done s.
Proof. intros Hi Hv. pose proof (inv_nodup _ _ Hi) as (_ & Hx & _)%NoDup_app. by apply Hx. Qed.

Lemma rindex_set V x s v :
  V < length (RIndex s) → rindex (set_rindex V x s) v = if decide (V = v) then x else rindex s v.
Proof. intros HV. unfold rindex, set_rindex. simpl. by apply total_lookup_insert. Qed.

(** ** Discovering a vertex *)

Lemma inv_discover ord s V :
  inv ord s → V < size G → V ∉ ord → V ∉ done s → inv (ord ++ [V]) (discover V s).
Proof.
  intros Hi HV Hord Hdone. pose proof (inv_count_fresh _ _ _ Hi HV Hord Hdone) as [Hcount _].
  assert (∀ v, rindex (discover V s) v = if decide (V = v) then (Z.of_nat (length ord) + 1)%Z
                                          else rindex s v) as Hr.
  { intros v. unfold discover. change (rindex (set_index _ ?t) v) with (rindex t v).
    rewrite rindex_set, (inv_index _ _ Hi) by (rewrite (inv_len _ _ Hi); lia). done. }
  assert (∀ v, v ∈ ord → rindex (discover V s) v = rindex s v) as Hro.
  { intros v Hv. rewrite Hr, decide_False; [done|]. by intros ->. }
  assert (∀ i v, ord !! i = Some v → (ord ++ [V]) !! i = Some v) as Happ.
  { intros i v Hv. by apply lookup_app_l_Some. }
  split; simpl.
  - change (done (discover V s)) with (done s). rewrite <-app_assoc.
    pose proof (inv_nodup _ _ Hi) as Hnd. apply NoDup_app in Hnd as (H1 & H2 & H3).
    apply NoDup_app. split; [done|]. split; [|apply NoDup_cons; done]. set_solver.
  - change (done (discover V s)) with (done s). intros v Hv. destruct (decide (v = V)) as [->|]; [done|].
    apply (inv_bound _ _ Hi). set_solver.
  - unfold discover. simpl. rewrite (inv_index _ _ Hi), length_app. simpl.
    pose proof (size_bound (G:=G)). rewrite u32_small; lia.
  - apply Hi.
  - rewrite length_insert. apply Hi.
  - apply Hi.
  - change (done (discover V s)) with (done s). intros v Hv Hn Hd.
    rewrite Hr, decide_False by set_solver. apply (inv_fresh _ _ Hi); set_solver.
  - intros i v [Hv|[? Hv]]%lookup_app_Some.
    + rewrite Hro by by eapply list_elem_of_lookup_2. by apply (inv_active _ _ Hi).
    + apply list_lookup_singleton_Some in Hv as [? <-]. rewrite Hr, decide_True by done. lia.
  - intros i v [Hv|[Hge Hv]]%lookup_app_Some.
    + rewrite Hro by by eapply list_elem_of_lookup_2.
      destruct (inv_arrives _ _ Hi _ _ Hv) as (k & y & Hk & Hy & Hreach). eauto 6.
    + apply list_lookup_singleton_Some in Hv as [Hi0 <-]. exists i, V.
      split; [|split; [|done]]; [|rewrite Hr, decide_True by done; lia].
      apply lookup_app_Some. right. split; [done|]. by rewrite Hi0.
  - intros v j Hj. destruct (inv_scc _ _ Hi v j Hj) as [Hv Hs]. split; [|done].
    rewrite Hr, decide_False; [done|]. intros ->. destruct Hdone. apply elem_of_done. eauto.
  - apply Hi.
  - apply Hi.
  - apply Hi.
  - apply Hi.
  - intros v Hv. destruct (inv_stack _ _ Hi v Hv) as (i & Hiv & Hlt). exists i.
    rewrite Hro by by eapply list_elem_of_lookup_2. auto.
  - intros v w Hv He. destruct (inv_stack _ _ Hi v Hv) as (i & Hiv & _).
    rewrite Hro by by eapply list_elem_of_lookup_2.
    destruct (inv_stack_edges _ _ Hi v w Hv He) as [|(k & Hk & Hle)]; [by left|right; eauto].
Qed.

(** ** Relaxing the current vertex *)

Lemma inv_relax ord s V W i :
  inv ord s → ord !! i = Some V → V ∉ Stack s → edge G V W →
  (0 < rindex s W < rindex s V)%Z → W < size G →
  inv ord (set_rindex V (rindex s W) s).
Proof.
  intros Hi HV Hst He Hlt HW.
  assert (V ∈ ord) as HVo by by eapply list_elem_of_lookup_2.
  assert (V < size G) as HVn by (apply (inv_bound _ _ Hi); set_solver).
  assert (∃ k, ord !! k = Some W) as [k HWk].
  { destruct (decide (W ∈ ord)) as [?%list_elem_of_lookup|Hn]; [done|].
    destruct (decide (W ∈ done s)) as [Hd|Hd].
    - pose proof (done_above_active _ _ _ _ Hi HVo Hd). lia.
    - rewrite (inv_fresh _ _ Hi W) in Hlt by done. lia. }
  assert (∀ v, rindex (set_rindex V (rindex s W) s) v =
               if decide (V = v) then rindex s W else rindex s v) as Hr.
  { intros v. apply rindex_set. rewrite (inv_len _ _ Hi). lia. }
  split; simpl; try apply Hi.
  - rewrite length_insert. apply Hi.
  - intros v Hv Hn Hd. change (v ∉ done s) in Hd. rewrite Hr, decide_False by set_solver.
    by apply (inv_fresh _ _ Hi).
  - intros j v Hj. rewrite Hr. pose proof (inv_active _ _ Hi _ _ Hj).
    destruct (decide (V = v)) as [<-|]; [|done]. lia.
  - intros j v Hj. rewrite Hr. destruct (decide (V = v)) as [<-|]; [|by apply (inv_arrives _ _ Hi j)].
    destruct (inv_arrives _ _ Hi _ _ HWk) as (k' & y & Hk' & Hy & Hreach).
    exists k', y. split; [done|]. split; [done|]. by eapply rtc_l.
  - intros v j Hj. rewrite Hr, decide_False; [by apply (inv_scc _ _ Hi)|]. intros ->.
    apply (ord_not_done _ _ v Hi HVo). apply elem_of_done. by exists j.
  - intros v Hv. rewrite Hr, decide_False by set_solver. by apply (inv_stack _ _ Hi).
  - intros v w Hv. rewrite Hr, decide_False by set_solver. by apply (inv_stack_edges _ _ Hi).
Qed.

(** ** Finishing a vertex *)

(** What holds of the out-edges of a vertex that are explored. *)
Definition explored (ord : list nat) (s : state) (V w : nat) : Prop :=
  w ∈ done s ∨ ∃ k, ord !! k = Some w ∧ (rindex s V ≤ Z.of_nat k + 1)%Z.

Lemma inv_push ord s V i :
  inv ord s → ord !! i = Some V → V ∉ Stack s → (rindex s V < Z.of_nat i + 1)%Z →
  (∀ w, edge G V w → explored ord s V w) →
  inv ord (set_stack (V :: Stack s) s).
Proof.
  intros Hi HV Hst Hlt Hexp. split; simpl; try apply Hi.
  - apply NoDup_cons. split; [done|apply Hi].
  - intros v [->|Hv]%elem_of_cons; [by exists i|by apply (inv_stack _ _ Hi)].
  - intros v w [->|Hv]%elem_of_cons; [apply Hexp|by apply (inv_stack_edges _ _ Hi)].
Qed.

(** The state after the component of [V] is popped. *)
Record found (V : nat) (stk stk0 : list nat) (s s' : state) : Prop := {
  found_stack : Stack s' = stk0;
  found_index : Index s' = (Index s - 1 - Z.of_nat (length stk))%Z;
  found_C : C s' = u32 (C s - 1);
  found_len : length (RIndex s') = length (RIndex s);
  found_len_scc : length (SCCOfNode (Holder s')) = length (SCCOfNode (Holder s));
  found_rindex v : rindex s' v = if decide (v ∈ V :: stk) then C s else rindex s v;
  found_sccof v : SCCOfNode (Holder s') !!! v =
    if decide (v ∈ V :: stk) then num_sccs (Holder s) else SCCOfNode (Holder s) !!! v;
  found_nodes : NodesInSCC (Holder s') = NodesInSCC (Holder s) ++ [stk ++ [V]]
}.

Lemma found_scc_found ord new stk stk0 V s :
  inv (ord ++ V :: new) s → Stack s = stk ++ stk0 →
  (∀ w, w ∈ stk ↔ w ∈ new) → (∀ w, w ∈ stk0 → w ∈ ord) →
  rindex s V = (Z.of_nat (length ord) + 1)%Z →
  (∀ w, w ∈ new → (rindex s V ≤ rindex s w)%Z) →
  found V stk stk0 s (found_scc V s).
Proof.
  intros Hi Hst Hstk Hstk0 HV Hnew.
  pose proof (inv_count _ _ Hi) as Hcount. rewrite length_app in Hcount. simpl in Hcount.
  pose proof (inv_index _ _ Hi) as HI. rewrite length_app in HI. simpl in HI.
  pose proof (inv_stack_nodup _ _ Hi) as Hnds. rewrite Hst in Hnds.
  apply NoDup_app in Hnds as (Hnd & Hdis & _).
  pose proof (inv_nodup _ _ Hi) as Hndo. rewrite <-app_assoc in Hndo.
  apply NoDup_app in Hndo as (Hndo & Hdo & Hndn). simpl in Hndn.
  apply NoDup_cons in Hndn as [HVn Hndn]. apply NoDup_app in Hndn as (Hndn & _ & _).
  assert (length stk = length new) as Hlen.
  { apply Permutation_length, NoDup_Permutation; done. }
  pose proof (size_bound (G:=G)) as Hsize.
  assert (∀ w, w ∈ ord ++ V :: new → w < size G) as Hb.
  { intros w Hw. apply (inv_bound _ _ Hi). set_solver. }
  unfold found_scc.
  set (s1 := set_holder _ (set_index _ s)).
  assert (∀ v, rindex s1 v = rindex s v) as Hr1 by done.
  assert (Stack s1 = stk ++ stk0) as Hst1 by done.
  destruct (pop_component_spec V (length (NodesInSCC (Holder (set_index (u32 (Index s - 1)) s))))
    stk stk0 s1) as (H1 & H2 & H3 & H4 & H5 & H6 & H7 & H8 & H9); [done|done| | | | | |].
  - rewrite Hstk. set_solver.
  - intros w Hw. rewrite !Hr1. simpl. rewrite (inv_len _ _ Hi), (inv_len_scc _ _ Hi).
    apply Hstk in Hw. specialize (Hb w ltac:(set_solver)). split; [done|]. split; [done|]. auto.
  - intros w Hw. rewrite !Hr1, HV. apply head_Some_elem_of, Hstk0 in Hw.
    apply list_elem_of_lookup in Hw as [k Hk]. pose proof (lookup_lt_Some _ _ _ Hk).
    destruct (inv_active _ _ Hi k w); [by apply lookup_app_l_Some|]. lia.
  - intros w Hw Hs. apply head_Some_elem_of in Hw. by eapply Hdis.
  - simpl. rewrite u32_small; lia.
  - rewrite <-Hst1 in H1, H2, H3, H4, H5, H6, H7, H8, H9.
    set (s2 := pop_component _ _ _ s1) in *.
    assert (V < length (RIndex s2)) as HVr.
    { rewrite H5. simpl. rewrite (inv_len _ _ Hi). apply Hb. set_solver. }
    assert (V < length (SCCOfNode (Holder s2))) as HVs.
    { rewrite H6. simpl. rewrite (inv_len_scc _ _ Hi). apply Hb. set_solver. }
    split; simpl.
    + done.
    + rewrite H4. simpl. rewrite u32_small; lia.
    + by rewrite H2.
    + by rewrite length_insert, H5.
    + by rewrite length_insert, H6.
    + intros v. unfold rindex at 1. simpl. rewrite total_lookup_insert by done.
      change (RIndex s2 !!! v) with (rindex s2 v). rewrite H7, H2.
      destruct (decide (V = v)) as [<-|Hne]; [by rewrite decide_True by set_solver|].
      destruct (decide (v ∈ stk)); [by rewrite decide_True by set_solver|].
      by rewrite decide_False by set_solver.
    + intros v. rewrite total_lookup_insert by done. rewrite H8. unfold num_sccs.
      destruct (decide (V = v)) as [<-|Hne]; [by rewrite decide_True by set_solver|].
      destruct (decide (v ∈ stk)); [by rewrite decide_True by set_solver|].
      by rewrite decide_False by set_solver.
    + rewrite H9. simpl. rewrite !alter_app_r_alt by lia. rewrite Nat.sub_diag. simpl.
      done.
Qed.

Section found.
Context (V : nat) (stk stk0 : list nat) (s s' : state) (Hf : found V stk stk0 s s').

Lemma found_in_scc v j :
  in_scc s' v j ↔ in_scc s v j ∨ (j = num_sccs (Holder s) ∧ v ∈ V :: stk).
Proof.
  unfold in_scc. rewrite (found_nodes _ _ _ _ _ Hf). split.
  - intros (ns & [Hj|[Hge Hj]]%lookup_app_Some & Hv); [left; eauto|right].
    apply list_lookup_singleton_Some in Hj as [Hj <-]. unfold num_sccs. split; [lia|set_solver].
  - intros [(ns & Hj & Hv)|[-> Hv]].
    + exists ns. split; [by apply lookup_app_l_Some|done].
    + exists (stk ++ [V]). split; [|set_solver]. unfold num_sccs. rewrite lookup_app_r by lia.
      by rewrite Nat.sub_diag.
Qed.

Lemma found_done v : v ∈ done s' ↔ v ∈ done s ∨ v ∈ V :: stk.
Proof. rewrite !elem_of_done. setoid_rewrite found_in_scc. naive_solver. Qed.

Lemma found_num : num_sccs (Holder s') = S (num_sccs (Holder s)).
Proof. unfold num_sccs. rewrite (found_nodes _ _ _ _ _ Hf), length_app. simpl. lia. Qed.
End found.

(** From a popped vertex the search arrives, via vertices of the component, at
    the root. *)
Lemma arrives_at_root ord V new s w :
  inv (ord ++ V :: new) s → (∀ v, v ∈ new → v ∈ Stack s) →
  (∀ v, v ∈ V :: new → (Z.of_nat (length ord) + 1 ≤ rindex s v)%Z) →
  w ∈ V :: new → reach G w V.
Proof.
  intros Hi Hst Hr Hw. apply list_elem_of_lookup in Hw as [i Hw].
  revert w Hw. induction (lt_wf i) as [i _ IH]. intros w Hw.
  destruct i as [|i]; [simpl in Hw; by injection Hw as ->|].
  assert ((ord ++ V :: new) !! (length ord + S i) = Some w) as Hpos.
  { rewrite lookup_app_r by lia. by replace (length ord + S i - length ord) with (S i) by lia. }
  destruct (inv_arrives _ _ Hi _ _ Hpos) as (k & y & Hk & Hy & Hreach).
  assert (w ∈ new) as Hwn by (eapply list_elem_of_lookup_2; exact Hw).
  destruct (inv_stack _ _ Hi w (Hst w Hwn)) as (i' & Hi' & Hlt).
  assert (i' = length ord + S i) as ->.
  { pose proof (inv_nodup _ _ Hi) as (Hnd & _ & _)%NoDup_app. by eapply NoDup_lookup. }
  pose proof (Hr w ltac:(set_solver)) as Hge.
  rewrite lookup_app_r in Hk by lia. etrans; [exact Hreach|].
  apply (IH (k - length ord)); [lia|done].
Qed.

Lemma inv_found ord new stk stk0 V s s' :
  inv (ord ++ V :: new) s → Stack s = stk ++ stk0 →
  (∀ w, w ∈ stk ↔ w ∈ new) → (∀ w, w ∈ stk0 → w ∈ ord) →
  rindex s V = (Z.of_nat (length ord) + 1)%Z →
  (∀ w, w ∈ new → (rindex s V ≤ rindex s w)%Z) →
  (∀ w, w ∈ new → reach G V w) →
  (∀ w, edge G V w → explored (ord ++ V :: new) s V w) →
  found V stk stk0 s s' → inv ord s'.
Proof.
  intros Hi Hst Hstk Hstk0 HV Hnew Hreach Hexp Hf.
  pose proof (inv_count _ _ Hi) as Hcount. rewrite length_app in Hcount. simpl in Hcount.
  pose proof (inv_nodup _ _ Hi) as Hnd. rewrite <-app_assoc in Hnd.
  apply NoDup_app in Hnd as (Hndo & Hdo & Hndn). simpl in Hndn.
  apply NoDup_cons in Hndn as [HVn Hndn].
  assert (∀ v, v ∈ V :: stk ↔ v ∈ V :: new) as Hcomp by (intros v; rewrite !elem_of_cons; naive_solver).
  assert (∀ v, v ∈ ord → rindex s' v = rindex s v) as Hro.
  { intros v Hv. rewrite (found_rindex _ _ _ _ _ Hf), decide_False; [done|].
    rewrite Hcomp. intros Hx. apply (Hdo v Hv). set_solver. }
  assert (∀ i v, ord !! i = Some v → (ord ++ V :: new) !! i = Some v) as Happ.
  { intros i v Hv. by apply lookup_app_l_Some. }
  assert (∀ k w, (ord ++ V :: new) !! k = Some w → ord !! k = Some w ∨ w ∈ done s') as Hsplit.
  { intros k w [Hk|[Hge Hk]]%lookup_app_Some; [by left|right].
    apply (found_done _ _ _ _ _ Hf). right. apply Hcomp. by eapply list_elem_of_lookup_2. }
  assert (∀ v, v ∈ V :: new → (Z.of_nat (length ord) + 1 ≤ rindex s v)%Z) as Hge.
  { intros v [->|Hv]%elem_of_cons; [lia|]. specialize (Hnew v Hv). lia. }
  assert (∀ v w, v ∈ V :: new → edge G v w → w ∈ done s ∨ w ∈ V :: new) as Hclosed.
  { intros v w Hv He. assert (explored (ord ++ V :: new) s v w) as [Hd|(k & Hk & Hle)]; [|by left|].
    - apply elem_of_cons in Hv as [->|Hv]; [by apply Hexp|].
      apply (inv_stack_edges _ _ Hi); [rewrite Hst; apply elem_of_app; left; by apply Hstk|done].
    - right. specialize (Hge v Hv). rewrite lookup_app_r in Hk by lia.
      by eapply list_elem_of_lookup_2. }
  split.
  - apply NoDup_app. split; [done|].
    assert (NoDup (done s')) as Hd.
    { unfold done. rewrite (found_nodes _ _ _ _ _ Hf). unfold mjoin. fold (mjoin (M:=list) (A:=nat)).
      rewrite join_app. simpl. rewrite app_nil_r.
      pose proof (inv_stack_nodup _ _ Hi) as Hnds. rewrite Hst in Hnds.
      apply NoDup_app in Hnds as (Hnds & _). apply NoDup_app in Hndn as (Hn1 & Hn2 & Hn3).
      apply NoDup_app. split; [done|]. split.
      - intros x Hx Hx'. apply elem_of_app in Hx' as [Hx'|Hx'].
        + apply Hstk in Hx'. by eapply Hn2.
        + apply list_elem_of_singleton in Hx' as ->. apply HVn. set_solver.
      - apply NoDup_app. split; [done|]. split; [|by apply NoDup_singleton].
        intros x Hx Hx'%list_elem_of_singleton. subst. apply Hstk in Hx. set_solver. }
    split; [|done]. intros x Hx Hd'. apply (found_done _ _ _ _ _ Hf) in Hd' as [Hd'|Hd'].
    + apply (Hdo x Hx). set_solver.
    + apply Hcomp in Hd'. apply (Hdo x Hx). set_solver.
  - intros v Hv. apply (inv_bound _ _ Hi). apply elem_of_app in Hv as [Hv|Hv]; [set_solver|].
    apply (found_done _ _ _ _ _ Hf) in Hv as [Hv|Hv]; [set_solver|].
    apply Hcomp in Hv. set_solver.
  - rewrite (found_index _ _ _ _ _ Hf), (inv_index _ _ Hi), length_app. simpl.
    assert (length stk = length new) as ->; [|lia].
    apply Permutation_length, NoDup_Permutation; [|by apply NoDup_app in Hndn as (? & _)|done].
    pose proof (inv_stack_nodup _ _ Hi) as Hnds. rewrite Hst in Hnds. by apply NoDup_app in Hnds as (? & _).
  - rewrite (found_C _ _ _ _ _ Hf), (found_num _ _ _ _ _ Hf), (inv_C_eq _ _ Hi) by lia.
    f_equal. lia.
  - rewrite (found_len _ _ _ _ _ Hf). apply Hi.
  - rewrite (found_len_scc _ _ _ _ _ Hf). apply Hi.
  - intros v Hv Hn Hd. rewrite (found_done _ _ _ _ _ Hf) in Hd.
    rewrite (found_rindex _ _ _ _ _ Hf), decide_False by tauto.
    apply (inv_fresh _ _ Hi); [done| |tauto]. rewrite Hcomp in Hd. set_solver.
  - intros i v Hv. rewrite Hro by by eapply list_elem_of_lookup_2. by apply (inv_active _ _ Hi), Happ.
  - intros i v Hv. rewrite Hro by by eapply list_elem_of_lookup_2.
    destruct (inv_arrives _ _ Hi i v (Happ _ _ Hv)) as (k & y & Hk & Hy & Hr).
    exists k, y. split; [|done]. pose proof (inv_active _ _ Hi i v (Happ _ _ Hv)).
    apply lookup_lt_Some in Hv. by rewrite lookup_app_l in Hk by lia.
  - intros v j Hj. rewrite (found_rindex _ _ _ _ _ Hf), (found_sccof _ _ _ _ _ Hf).
    apply (found_in_scc _ _ _ _ _ Hf) in Hj as [Hj|[-> Hv]].
    + destruct (inv_scc _ _ Hi v j Hj) as [Hr Hs]. rewrite !decide_False; [done| |].
      all: rewrite Hcomp; intros Hx; eapply (ord_not_done _ _ v Hi); [set_solver|apply elem_of_done; eauto].
    + rewrite !decide_True by done. split; [|done]. rewrite (inv_C_eq _ _ Hi) by lia. done.
  - intros ns. rewrite (found_nodes _ _ _ _ _ Hf).
    intros [Hns| ->%list_elem_of_singleton]%elem_of_app; [by apply (inv_nonempty _ _ Hi)|].
    by destruct stk.
  - intros v w j Hj He. apply (found_in_scc _ _ _ _ _ Hf) in Hj as [Hj|[-> Hv]].
    + destruct (inv_closed _ _ Hi v w j Hj He) as (j' & Hw & Hle). exists j'.
      split; [|done]. apply (found_in_scc _ _ _ _ _ Hf). by left.
    + apply Hcomp in Hv. destruct (Hclosed v w Hv He) as [[j' Hw]%elem_of_done|Hw].
      * exists j'. split; [apply (found_in_scc _ _ _ _ _ Hf); by left|].
        apply in_scc_lt in Hw. lia.
      * eexists. split; [|done]. apply (found_in_scc _ _ _ _ _ Hf). right. by rewrite Hcomp.
  - intros v w j Hj Hj'. apply (found_in_scc _ _ _ _ _ Hf) in Hj as [Hj|[-> Hv]];
      apply (found_in_scc _ _ _ _ _ Hf) in Hj' as [Hj'|[Hj0 Hw]].
    + by apply (inv_connected _ _ Hi v w j).
    + apply in_scc_lt in Hj. lia.
    + apply in_scc_lt in Hj'. lia.
    + apply Hcomp in Hv, Hw. etrans.
      * apply (arrives_at_root ord V new s v Hi); [|done|done].
        intros x Hx. rewrite Hst. apply elem_of_app. left. by apply Hstk.
      * apply elem_of_cons in Hw as [->|Hw]; [done|by apply Hreach].
  - rewrite (found_stack _ _ _ _ _ Hf). pose proof (inv_stack_nodup _ _ Hi) as Hnds.
    rewrite Hst in Hnds. by apply NoDup_app in Hnds as (_ & _ & ?).
  - intros v. rewrite (found_stack _ _ _ _ _ Hf). intros Hv.
    rewrite Hro by auto. pose proof (Hstk0 v Hv) as [i Hiv]%list_elem_of_lookup.
    destruct (inv_stack _ _ Hi v) as (i' & Hi' & Hlt); [rewrite Hst; set_solver|].
    exists i'. split; [|done]. assert (i' = i) as ->; [|done].
    pose proof (inv_nodup _ _ Hi) as (Hnd & _ & _)%NoDup_app. by eapply NoDup_lookup; [| |apply Happ].
  - intros v w. rewrite (found_stack _ _ _ _ _ Hf). intros Hv He. rewrite Hro by auto.
    destruct (inv_stack_edges _ _ Hi v w) as [Hd|(k & Hk & Hle)]; [rewrite Hst; set_solver|done| |].
    + left. apply (found_done _ _ _ _ _ Hf). by left.
    + destruct (Hsplit k w Hk) as [Hk'|Hd]; [right; eauto|by left].
Qed.

(** ** A visit *)

(** What the visit of a vertex does: the vertices it leaves active are new, on
    the stack and reachable; either the vertex is in a component, or it is one
    of them, with the least index among them, which an earlier vertex has. *)
Definition visited (ord : list nat) (V : nat) (s s' : state) : Prop :=
  ∃ new stk, inv (ord ++ new) s' ∧ Stack s' = stk ++ Stack s
    ∧ (∀ w, w ∈ stk ↔ w ∈ new) ∧ (∀ w, w ∈ new → reach G V w)
    ∧ (∀ v, v ∈ ord → rindex s' v = rindex s v)
    ∧ NodesInSCC (Holder s) `prefix_of` NodesInSCC (Holder s')
    ∧ ((new = [] ∧ ∃ j, in_scc s' V j ∧ S j = num_sccs (Holder s')) ∨
       (V ∈ new ∧ (rindex s' V ≤ Z.of_nat (length ord))%Z
        ∧ ∀ w, w ∈ new → (rindex s' V ≤ rindex s' w)%Z)).

(** The loop over the out-edges of [V], after the edges to [seen]; [low] bounds
    the indices of the new vertices. *)
Record visiting (ord : list nat) (V : nat) (s0 : state) (seen new : list nat)
    (low : Z) (s : state) (root : bool) : Prop := {
  ving_inv : inv (ord ++ V :: new) s;
  ving_stack : ∃ stk, Stack s = stk ++ Stack s0 ∧ ∀ w, w ∈ stk ↔ w ∈ new;
  ving_stack0 w : w ∈ Stack s0 → w ∈ ord;
  ving_reach w : w ∈ new → reach G V w;
  ving_low w : w ∈ new → (low ≤ rindex s w)%Z;
  ving_root : root = true ↔ rindex s V = (Z.of_nat (length ord) + 1)%Z;
  ving_frame v : v ∈ ord → rindex s v = rindex s0 v;
  ving_nodes : NodesInSCC (Holder s0) `prefix_of` NodesInSCC (Holder s);
  ving_seen w : w ∈ seen → explored (ord ++ V :: new) s V w
}.

Lemma visiting_V ord V s0 seen new low s root :
  visiting ord V s0 seen new low s root →
  (ord ++ V :: new) !! length ord = Some V ∧ V ∉ Stack s ∧ V ∉ ord ∧ V ∉ new ∧ V < size G.
Proof.
  intros Hl. pose proof (inv_nodup _ _ (ving_inv _ _ _ _ _ _ _ _ Hl)) as (Hnd & _ & _)%NoDup_app.
  apply NoDup_app in Hnd as (_ & Hdis & Hnd). apply NoDup_cons in Hnd as [HV _].
  assert (V ∉ ord) as HVo by (intros HV'; apply (Hdis V HV'); set_solver).
  split_and!; try done.
  - rewrite lookup_app_r by lia. by rewrite Nat.sub_diag.
  - destruct (ving_stack _ _ _ _ _ _ _ _ Hl) as (stk & -> & Hstk). rewrite elem_of_app.
    intros [Hv|Hv]; [by apply Hstk in Hv|]. by apply (ving_stack0 _ _ _ _ _ _ _ _ Hl) in Hv.
  - apply (inv_bound _ _ (ving_inv _ _ _ _ _ _ _ _ Hl)). set_solver.
Qed.

Lemma visiting_start ord V s :
  inv ord s → V < size G → V ∉ ord → V ∉ done s →
  visiting ord V s [] [] (rindex (discover V s) V) (discover V s) true.
Proof.
  intros Hi HV Hord Hdone. pose proof (inv_discover ord s V Hi HV Hord Hdone) as Hi'.
  assert (rindex (discover V s) V = (Z.of_nat (length ord) + 1)%Z) as HrV.
  { unfold discover. change (rindex (set_index _ ?t) V) with (rindex t V).
    rewrite rindex_set, decide_True, (inv_index _ _ Hi) by (rewrite ?(inv_len _ _ Hi); lia). done. }
  split; try set_solver.
  - exists []. split; [done|set_solver].
  - intros w Hw. destruct (inv_stack _ _ Hi w Hw) as (i & Hiw & _). by eapply list_elem_of_lookup_2.
  - intros v Hv. unfold discover. change (rindex (set_index _ ?t) v) with (rindex t v).
    rewrite rindex_set, decide_False; [done| |rewrite (inv_len _ _ Hi); lia]. by intros ->.
Qed.

(** The visit of an undiscovered target, up to the comparison that follows. *)
Lemma visiting_visit ord V s0 seen new s root W s' :
  visiting ord V s0 seen new (rindex s V) s root → edge G V W →
  visited (ord ++ V :: new) W s s' →
  ∃ new', visiting ord V s0 seen (new ++ new') (Z.min (rindex s' V) (rindex s' W)) s' root
          ∧ (W ∈ done s' ∨ W ∈ ord ++ V :: new ++ new').
Proof.
  intros Hl He (new' & stk' & Hi' & Hst' & Hstk' & Hreach' & Hframe' & Hnodes' & Hend).
  exists new'. rewrite <-app_assoc in Hi'. simpl in Hi'.
  assert (∀ v, v ∈ done s → v ∈ done s') as Hdone.
  { intros v. rewrite !elem_of_done. intros (j & ns & Hj & Hv). exists j, ns.
    split; [by eapply prefix_lookup_Some|done]. }
  assert (∀ k w, (ord ++ V :: new) !! k = Some w → (ord ++ V :: new ++ new') !! k = Some w) as Happ.
  { intros k w Hk. change (V :: new ++ new') with ((V :: new) ++ new').
    rewrite app_assoc. by apply lookup_app_l_Some. }
  assert (rindex s' V = rindex s V) as HrV by (apply Hframe'; set_solver).
  destruct (ving_stack _ _ _ _ _ _ _ _ Hl) as (stk & Hst & Hstk).
  split; [|destruct Hend as [[_ (j & Hj & _)]|[? _]]; [left; apply elem_of_done; eauto|right; set_solver]].
  split; try done.
  - exists (stk' ++ stk). split; [by rewrite Hst', Hst, app_assoc|].
    intros w. rewrite !elem_of_app, Hstk, Hstk'. naive_solver.
  - apply Hl.
  - intros w [Hw|Hw]%elem_of_app; [by apply Hl|]. eapply rtc_l; [exact He|by apply Hreach'].
  - intros w [Hw|Hw]%elem_of_app.
    + rewrite HrV, (Hframe' w) by set_solver. pose proof (ving_low _ _ _ _ _ _ _ _ Hl w Hw). lia.
    + destruct Hend as [[-> _]|(_ & _ & Hle)]; [set_solver|]. specialize (Hle w Hw). lia.
  - rewrite HrV. apply Hl.
  - intros v Hv. rewrite Hframe' by set_solver. by apply Hl.
  - etrans; [apply Hl|done].
  - intros w Hw. destruct (ving_seen _ _ _ _ _ _ _ _ Hl w Hw) as [|(k & Hk & Hle)]; [left; auto|].
    right. exists k. split; [by apply Happ|]. by rewrite HrV.
Qed.

(** One edge whose target is discovered: the comparison. *)
Lemma visiting_relax ord V s0 seen new s root W :
  visiting ord V s0 seen new (Z.min (rindex s V) (rindex s W)) s root →
  edge G V W → W ∈ done s ∨ W ∈ ord ++ V :: new →
  let '(s', root') := relax_rec V W (s, root) in
  visiting ord V s0 (seen ++ [W]) new (rindex s' V) s' root'.
Proof.
  intros Hl He HW. pose proof (ving_inv _ _ _ _ _ _ _ _ Hl) as Hi.
  destruct (visiting_V _ _ _ _ _ _ _ _ Hl) as (Hpos & HVst & HVo & HVnew & HVn).
  assert (V ∈ ord ++ V :: new) as HVin by set_solver.
  pose proof (inv_active _ _ Hi _ _ Hpos) as Hact.
  assert (W < size G) as HWn by by eapply out_bound.
  assert (1 ≤ rindex s W)%Z as HWpos.
  { destruct HW as [HW|[k HW]%list_elem_of_lookup].
    - by destruct (done_above_active _ _ _ _ Hi HVin HW); lia.
    - by destruct (inv_active _ _ Hi _ _ HW). }
  unfold relax_rec. destruct (decide (rindex s W < rindex s V)%Z) as [Hlt|Hge].
  - assert (∀ v, rindex (set_rindex V (rindex s W) s) v =
                 if decide (V = v) then rindex s W else rindex s v) as Hr.
    { intros v. apply rindex_set. by rewrite (inv_len _ _ Hi). }
    split; try apply Hl.
    + eapply inv_relax; eauto with lia.
    + intros w Hw. rewrite !Hr, decide_True, decide_False by set_solver.
      pose proof (ving_low _ _ _ _ _ _ _ _ Hl w Hw). lia.
    + rewrite Hr, decide_True by done. split; [done|]. intros. lia.
    + intros v Hv. rewrite Hr, decide_False by set_solver. by apply Hl.
    + intros w Hw. unfold explored. rewrite Hr, decide_True by done.
      change (done (set_rindex V (rindex s W) s)) with (done s).
      apply elem_of_app in Hw as [Hw| ->%list_elem_of_singleton].
      * destruct (ving_seen _ _ _ _ _ _ _ _ Hl w Hw) as [|(k & Hk & Hle)]; [by left|right].
        exists k. split; [done|lia].
      * destruct HW as [HW|[k HW]%list_elem_of_lookup]; [by left|right].
        exists k. split; [done|]. by destruct (inv_active _ _ Hi _ _ HW).
  - split; try apply Hl.
    { intros w Hw. pose proof (ving_low _ _ _ _ _ _ _ _ Hl w Hw). lia. }
    intros w [Hw| ->%list_elem_of_singleton]%elem_of_app; [by apply (ving_seen _ _ _ _ _ _ _ _ Hl)|].
    destruct HW as [HW|[k HW]%list_elem_of_lookup]; [by left|right].
    exists k. split; [done|]. destruct (inv_active _ _ Hi _ _ HW). lia.
Qed.

Lemma done_prefix s s' :
  NodesInSCC (Holder s) `prefix_of` NodesInSCC (Holder s') → done s `prefix_of` done s'.
Proof. intros [l Hl]. unfold done. rewrite Hl, join_app. by eexists. Qed.

Lemma visiting_finish ord V s0 new s root :
  visiting ord V s0 (outEdges G V) new (rindex s V) s root →
  visited ord V s0 (finish V root s).
Proof.
  intros Hl. pose proof (ving_inv _ _ _ _ _ _ _ _ Hl) as Hi.
  destruct (visiting_V _ _ _ _ _ _ _ _ Hl) as (Hpos & HVst & HVo & HVnew & HVn).
  destruct (ving_stack _ _ _ _ _ _ _ _ Hl) as (stk & Hst & Hstk).
  pose proof (inv_active _ _ Hi _ _ Hpos) as Hact.
  destruct root; simpl.
  - pose proof (proj1 (ving_root _ _ _ _ _ _ _ _ Hl) eq_refl) as HrV.
    assert (found V stk (Stack s0) s (found_scc V s)) as Hf.
    { eapply found_scc_found; [done|done|done|apply Hl|done|apply Hl]. }
    exists [], []. split.
    { rewrite app_nil_r. eapply inv_found; [done|done|done|apply Hl|done|apply Hl|apply Hl| |done].
      intros w He. by apply (ving_seen _ _ _ _ _ _ _ _ Hl). }
    split; [by rewrite (found_stack _ _ _ _ _ Hf)|]. split; [done|]. split; [set_solver|].
    split; [|split].
    + intros v Hv. rewrite (found_rindex _ _ _ _ _ Hf), decide_False; [by apply Hl|].
      pose proof (inv_nodup _ _ Hi) as (Hnd & _ & _)%NoDup_app.
      apply NoDup_app in Hnd as (_ & Hdis & _). rewrite elem_of_cons, Hstk.
      intros Hx. apply (Hdis v Hv). set_solver.
    + etrans; [apply Hl|]. rewrite (found_nodes _ _ _ _ _ Hf). by eexists.
    + left. split; [done|]. exists (num_sccs (Holder s)). split; [|by rewrite (found_num _ _ _ _ _ Hf)].
      apply (found_in_scc _ _ _ _ _ Hf). right. split; [done|set_solver].
  - assert (rindex s V < Z.of_nat (length ord) + 1)%Z as Hlt.
    { destruct (decide (rindex s V = Z.of_nat (length ord) + 1)%Z) as [Heq|]; [|lia].
      by apply Hl in Heq. }
    exists (V :: new), (V :: stk). split.
    { eapply inv_push; [done|done|done|done|].
      intros w He. by apply (ving_seen _ _ _ _ _ _ _ _ Hl). }
    split; [by simpl; rewrite Hst|]. split; [intros w; rewrite !elem_of_cons, Hstk; done|].
    split; [|split; [|split]].
    + intros w [->|Hw]%elem_of_cons; [done|by apply Hl].
    + apply Hl.
    + apply Hl.
    + right. split; [set_solver|]. change (rindex (set_stack _ s)) with (rindex s).
      split; [lia|]. intros w [->|Hw]%elem_of_cons; [done|by apply Hl].
Qed.

Lemma visit_edges_spec visit fuel ord V s0 edges seen new s root :
  (∀ ord s W, inv ord s → W < size G → W ∉ ord → W ∉ done s →
     size G ≤ fuel + length ord + length (done s) →
     ∃ s', visit W s = Some s' ∧ visited ord W s s') →
  visiting ord V s0 seen new (rindex s V) s root →
  (∀ W, W ∈ edges → edge G V W) →
  size G ≤ fuel + S (length ord) + length (done s0) →
  ∃ s' root' new', visit_edges visit V edges s root = Some (s', root')
    ∧ visiting ord V s0 (seen ++ edges) new' (rindex s' V) s' root'.
Proof.
  intros Hvisit. revert seen new s root.
  induction edges as [|W edges IH]; intros seen new s root Hl Hedges Hfuel; cbn [visit_edges].
  { exists s, root, new. by rewrite app_nil_r. }
  pose proof (ving_inv _ _ _ _ _ _ _ _ Hl) as Hi.
  destruct (visiting_V _ _ _ _ _ _ _ _ Hl) as (Hpos & HVst & HVo & HVnew & HVn).
  assert (edge G V W) as He by (apply Hedges; set_solver).
  assert (W < size G) as HWn by by eapply out_bound.
  pose proof (rindex_zero _ _ V W Hi ltac:(set_solver) HWn) as Hzero.
  assert (∃ s1 new1, (if decide (rindex s W = 0%Z) then visit W s else Some s) = Some s1
    ∧ visiting ord V s0 seen new1 (Z.min (rindex s1 V) (rindex s1 W)) s1 root
    ∧ (W ∈ done s1 ∨ W ∈ ord ++ V :: new1)) as (s1 & new1 & Hs1 & Hl1 & HW1).
  { destruct (decide (rindex s W = 0%Z)) as [Hz|Hz].
    - apply Hzero in Hz as [HWo HWd].
      destruct (Hvisit (ord ++ V :: new) s W) as (s1 & Hs1 & Hv1); try done.
      { rewrite length_app. simpl.
        pose proof (prefix_length _ _ (done_prefix _ _ (ving_nodes _ _ _ _ _ _ _ _ Hl))). lia. }
      destruct (visiting_visit _ _ _ _ _ _ _ _ _ Hl He Hv1) as (new1 & Hl1 & HW1). eauto.
    - exists s, new. split; [done|]. split.
      + split; try apply Hl. intros w Hw. pose proof (ving_low _ _ _ _ _ _ _ _ Hl w Hw). lia.
      + destruct (decide (W ∈ done s)); [by left|right].
        destruct (decide (W ∈ ord ++ V :: new)); [done|]. by destruct Hz; apply Hzero. }
  rewrite Hs1. cbn [mbind option_bind].
  pose proof (visiting_relax _ _ _ _ _ _ _ _ Hl1 He HW1) as Hl2.
  destruct (relax_rec V W (s1, root)) as [s2 root2].
  destruct (IH (seen ++ [W]) new1 s2 root2 Hl2) as (s' & root' & new' & Hres & Hfin);
    [set_solver|done|].
  exists s', root', new'. split; [done|]. by rewrite <-app_assoc in Hfin.
Qed.

Lemma pearce4VisitRec_spec fuel ord s V :
  inv ord s → V < size G → V ∉ ord → V ∉ done s →
  size G ≤ fuel + length ord + length (done s) →
  ∃ s', pearce4VisitRec G fuel V s = Some s' ∧ visited ord V s s'.
Proof.
  revert ord s V. induction fuel as [|fuel IH]; intros ord s V Hi HV Hord Hdone Hfuel.
  - destruct (inv_count_fresh _ _ _ Hi HV Hord Hdone). lia.
  - simpl. destruct (visit_edges_spec (pearce4VisitRec G fuel) fuel ord V s (outEdges G V) [] []
      (discover V s) true) as (s' & root' & new' & -> & Hl); [done|by apply visiting_start|done|lia|].
    simpl. eexists. split; [done|]. by eapply visiting_finish.
Qed.

(** ** The driver *)

Lemma inv_initial : 0 < size G → inv [] (initial_state G).
Proof.
  intros Hn. assert (∀ v j, ¬ in_scc (initial_state G) v j) as Hno by (intros v j (ns & Hns & _); done).
  split; simpl.
  - constructor.
  - set_solver.
  - done.
  - unfold num_sccs. simpl. rewrite decide_False by lia. f_equal. lia.
  - apply length_replicate.
  - apply length_replicate.
  - intros v Hv _ _. unfold rindex. simpl. by apply lookup_total_replicate_2.
  - done.
  - done.
  - intros v j Hj. by apply Hno in Hj.
  - set_solver.
  - intros v w j Hj. by apply Hno in Hj.
  - intros v w j Hj. by apply Hno in Hj.
  - constructor.
  - set_solver.
  - set_solver.
Qed.

(** With as many components as vertices every component is a single vertex. *)
Lemma join_longer {A} (l : list (list A)) ns :
  (∀ ms, ms ∈ l → ms ≠ []) → ns ∈ l → 2 ≤ length ns → S (length l) ≤ length (mjoin l).
Proof.
  induction l as [|ms l IH]; intros Hne Hns Hlen; [set_solver|]. simpl. rewrite length_app.
  assert (1 ≤ length ms) as Hms.
  { destruct ms as [|x ms]; [by destruct (Hne [] ltac:(set_solver))|simpl; lia]. }
  assert (length l ≤ length (mjoin l)) as Hl.
  { clear IH Hns Hlen Hms. induction l as [|ks l IH]; simpl; [lia|]. rewrite length_app.
    destruct ks as [|x ks]; [by destruct (Hne [] ltac:(set_solver))|].
    specialize (IH ltac:(set_solver)). simpl. lia. }
  apply elem_of_cons in Hns as [->|Hns]; [lia|]. specialize (IH ltac:(set_solver) Hns Hlen). lia.
Qed.

Lemma singletons s v w j :
  inv [] s → num_sccs (Holder s) = size G → in_scc s v j → in_scc s w j → v = w.
Proof.
  intros Hi Hnum (ns & Hj & Hv) (ns' & Hj' & Hw). assert (ns' = ns) as -> by congruence.
  destruct (decide (v = w)) as [|Hne]; [done|exfalso].
  assert (2 ≤ length ns) as Hlen.
  { destruct ns as [|x [|y ns]]; simpl; [set_solver|set_solver|lia]. }
  pose proof (join_longer _ ns (inv_nonempty _ _ Hi) (list_elem_of_lookup_2 _ _ _ Hj) Hlen) as Hle.
  pose proof (NoDup_bound_length _ (size G) (inv_nodup _ _ Hi) (inv_bound _ _ Hi)) as Hb.
  simpl in Hb. unfold done, num_sccs in *. lia.
Qed.

(** Between visits nothing is active, hence nothing is left on the stack; and an
    assigned vertex whose index is 0 - the last component's - is the root of a
    finished visit. *)
Lemma visited_top V s s' seen :
  inv [] s → visited [] V s s' →
  (∀ v, v ∈ done s → rindex s v = 0%Z → v ∈ seen) →
  inv [] s' ∧ V ∈ done s' ∧ done s `prefix_of` done s'
  ∧ ∀ v, v ∈ done s' → rindex s' v = 0%Z → v ∈ seen ++ [V].
Proof.
  intros Hi (new & stk & Hi' & Hst & Hstk & _ & _ & Hpre & Hend) Hzero. simpl in Hi'.
  destruct Hend as [[-> (j & HV & Hj)]|(HV & Hle & _)].
  - split; [done|]. split; [apply elem_of_done; eauto|]. split; [by apply done_prefix|].
    intros v [j' Hv]%elem_of_done Hz. destruct (inv_scc _ _ Hi' _ _ Hv) as [Hr _].
    apply in_scc_lt in Hv as Hlt. pose proof (inv_count _ _ Hi') as Hc. simpl in Hc.
    assert (j' = j) as -> by lia. apply elem_of_app. right. apply list_elem_of_singleton.
    eapply singletons; [done|lia|done|done].
  - exfalso. apply list_elem_of_lookup in HV as [k Hk].
    destruct (inv_active _ _ Hi' _ _ Hk). simpl in Hle. lia.
Qed.

Lemma inv_top_stack s : inv [] s → Stack s = [].
Proof.
  intros Hi. destruct (Stack s) as [|v l] eqn:Hst; [done|].
  destruct (inv_stack _ _ Hi v) as (i & Hv & _); [rewrite Hst; set_solver|done].
Qed.

(** The state between two visits, when the vertices [seen] have had their turn. *)
Record between (seen : list nat) (s : state) : Prop := {
  btw_inv : inv [] s;
  btw_seen v : v ∈ seen → v ∈ done s;
  btw_zero v : v ∈ done s → rindex s v = 0%Z → v ∈ seen
}.

Lemma between_fresh seen s V :
  between seen s → V < size G → V ∉ seen → (rindex s V = 0%Z ↔ V ∉ done s).
Proof.
  intros Hb HV HVs. split.
  - intros Hz Hd. by apply HVs, (btw_zero _ _ Hb).
  - intros Hd. apply (inv_fresh _ _ (btw_inv _ _ Hb)); set_solver.
Qed.

Lemma between_skip seen s V :
  between seen s → V ∈ done s → between (seen ++ [V]) s.
Proof.
  intros [Hi Hs Hz] Hd. split; [done| |].
  - intros v [Hv| ->%list_elem_of_singleton]%elem_of_app; auto.
  - intros v Hv Hv0. apply elem_of_app. auto.
Qed.

Lemma between_visit seen s V s' :
  between seen s → visited [] V s s' → between (seen ++ [V]) s' ∧ flush_stack s' = s'.
Proof.
  intros [Hi Hs Hz] Hv. destruct (visited_top _ _ _ seen Hi Hv Hz) as (Hi' & HV' & Hpre & Hz').
  split; [|unfold flush_stack; by rewrite (inv_top_stack _ Hi')]. split; [done| |done].
  intros v [Hv'| ->%list_elem_of_singleton]%elem_of_app; [|done]. eapply elem_of_prefix; [|done]. auto.
Qed.

Lemma vertices_split seen V vs :
  seen ++ V :: vs = vertices G → V < size G ∧ V ∉ seen ∧ (seen ++ [V]) ++ vs = vertices G.
Proof.
  intros Hvs. assert (NoDup (seen ++ V :: vs)) as Hnd by (rewrite Hvs; apply NoDup_seq).
  assert (V ∈ vertices G) as Hin by (rewrite <-Hvs; set_solver). apply elem_of_seq in Hin.
  apply NoDup_app in Hnd as (_ & Hdis & _). split; [lia|]. split; [|by rewrite <-app_assoc].
  intros Hs. apply (Hdis V Hs). set_solver.
Qed.

Lemma between_end s v : between (vertices G) s → v < size G → v ∈ done s.
Proof. intros Hb Hv. apply (btw_seen _ _ Hb), elem_of_seq. lia. Qed.

Lemma visit_all_spec visit vs seen s :
  (∀ s V, inv [] s → V < size G → V ∉ done s → ∃ s', visit V s = Some s' ∧ visited [] V s s') →
  seen ++ vs = vertices G → between seen s →
  ∃ s', visit_all visit vs s = Some s' ∧ between (vertices G) s'.
Proof.
  intros Hvisit. revert seen s.
  induction vs as [|V vs IH]; intros seen s Hvs Hb; cbn [visit_all].
  { exists s. split; [done|]. rewrite app_nil_r in Hvs. by rewrite <-Hvs. }
  destruct (vertices_split _ _ _ Hvs) as (HV & HVs & Hvs').
  pose proof (between_fresh _ _ _ Hb HV HVs) as Hfresh.
  destruct (decide (rindex s V = 0%Z)) as [Hz|Hz].
  - destruct (Hvisit s V (btw_inv _ _ Hb) HV (proj1 Hfresh Hz)) as (s' & -> & Hv).
    destruct (between_visit _ _ _ _ Hb Hv) as [Hb' Hflush]. simpl. rewrite Hflush. by eapply IH.
  - simpl. apply (IH (seen ++ [V])); [done|]. apply between_skip; [done|].
    destruct (decide (V ∈ done s)); [done|]. by destruct Hz; apply Hfresh.
Qed.

Lemma between_start : 0 < size G → between [] (initial_state G).
Proof. intros Hn. split; [by apply inv_initial|set_solver|set_solver]. Qed.

(** ** What the components are *)

(** The holder lists every vertex once, [SCCOfNode] is the component a vertex is
    listed in, two vertices share a component iff each reaches the other, and
    edges never lead to a later component. *)
Record correct_sccs (H : SCCHolder) : Prop := {
  sccs_partition : NoDup (mjoin (NodesInSCC H)) ∧ ∀ v, v ∈ mjoin (NodesInSCC H) ↔ v < size G;
  sccs_nonempty ns : ns ∈ NodesInSCC H → ns ≠ [];
  sccs_of_node v : v < size G → ∃ ns, NodesInSCC H !! (SCCOfNode H !!! v) = Some ns ∧ v ∈ ns;
  sccs_strong v w : v < size G → w < size G →
    (SCCOfNode H !!! v = SCCOfNode H !!! w ↔ reach G v w ∧ reach G w v);
  sccs_order v w : v < size G → edge G v w → SCCOfNode H !!! w ≤ SCCOfNode H !!! v
}.

Lemma reach_bound v w : v < size G → reach G v w → w < size G.
Proof. intros Hv Hr. induction Hr as [|v x w He _ IH]; [done|]. apply IH. by eapply out_bound. Qed.

Lemma inv_correct s : inv [] s → (∀ v, v < size G → v ∈ done s) → correct_sccs (Holder s).
Proof.
  intros Hi Hall.
  assert (∀ v, v < size G → in_scc s v (SCCOfNode (Holder s) !!! v)) as Hof.
  { intros v Hv. apply Hall, elem_of_done in Hv as [j Hj].
    by destruct (inv_scc _ _ Hi _ _ Hj) as [_ ->]. }
  assert (∀ v w, v < size G → edge G v w →
    SCCOfNode (Holder s) !!! w ≤ SCCOfNode (Holder s) !!! v) as Hedge.
  { intros v w Hv He. destruct (inv_closed _ _ Hi v w _ (Hof v Hv) He) as (j' & Hj' & Hle).
    by destruct (inv_scc _ _ Hi _ _ Hj') as [_ ->]. }
  split; try done.
  - split; [apply Hi|]. intros v. split; [|apply Hall]. apply (inv_bound _ _ Hi v).
  - apply Hi.
  - intros v w Hv Hw. split.
    + intros Heq. pose proof (Hof v Hv) as Hv'. pose proof (Hof w Hw) as Hw'. rewrite Heq in Hv'.
      split; by eapply (inv_connected _ _ Hi).
    + intros [Hvw Hwv].
      assert (∀ x y, x < size G → reach G x y →
        SCCOfNode (Holder s) !!! y ≤ SCCOfNode (Holder s) !!! x) as Hmono.
      { intros x y Hx Hr. induction Hr as [|x z y He _ IH]; [done|].
        etrans; [apply IH|by apply Hedge]. by eapply out_bound. }
      apply Nat.le_antisymm; by apply Hmono.
Qed.

Lemma computeSCCs_rec_correct fuel :
  size G ≤ fuel → ∃ H, computeSCCs G false fuel = Some H ∧ correct_sccs H.
Proof.
  intros Hfuel. unfold computeSCCs. destruct (decide (size G = 0)) as [Hz|Hz].
  - eexists. split; [done|]. split; simpl; try set_solver by lia; try lia.
    + split; [constructor|]. intros v. rewrite Hz. split; [set_solver|lia].
  - destruct (visit_all_spec (pearce4VisitRec G fuel) (vertices G) [] (initial_state G))
      as (s' & -> & Hb).
    + intros s V Hi HV Hd. apply pearce4VisitRec_spec; simpl; [done|done|set_solver|done|lia].
    + done.
    + apply between_start. lia.
    + eexists. split; [done|]. apply inv_correct; [apply Hb|]. intros v. by apply between_end.
Qed.
End invariant.
End PearceCorrect.
