(* ===== verification/SCCGenericIterative.v ===== *)
(** The iterative variant of Pearce's algorithm simulates the recursive one: the
    frames of its call stack are the recursion's activations, and the [Root] set
    holds their local flags.

    Correctness of the dependency graph of the components and of its two
    topological orders: the order in which Pearce's algorithm finds components,
    and the depth-first search of [computeSCCOrder]. *)
From S2P Require Import Prelude SCCGeneric SCCGenericCorrect.

Module PearceIterative.
Import Pearce PearceCorrect.
Section simulation.
Context (G : Graph) `{!GraphLaws G}.

(** Equal but for the [Root] set, which only the iterative variant uses. *)
Record same (s t : state) : Prop := {
  same_rindex : RIndex t = RIndex s;
  same_index : Index t = Index s;
  same_C : C t = C s;
  same_stack : Stack t = Stack s;
  same_holder : Holder t = Holder s
}.

Lemma same_set_root s t : same s t ↔ t = set_root (Root t) s.
Proof.
  split.
  - intros [H1 H2 H3 H4 H5]. destruct s, t; simpl in *. by subst.
  - intros ->. done.
Qed.

Lemma pop_component_root V j stk s r :
  pop_component V j stk (set_root r s) = set_root r (pop_component V j stk s).
Proof.
  revert s. induction stk as [|W stk IH]; intros s; simpl; [done|].
  change (rindex (set_root r s)) with (rindex s). case_decide; [|done].
  rewrite <-IH. done.
Qed.

Lemma finish_root V root s r : finish V root (set_root r s) = set_root r (finish V root s).
Proof.
  destruct root; [|done]. unfold finish, found_scc.
  change (set_index (u32 (Index (set_root r s) - 1)) (set_root r s))
    with (set_root r (set_index (u32 (Index s - 1)) s)).
  set (s1 := set_index _ s). change (Holder (set_root r s1)) with (Holder s1).
  change (set_holder ?h (set_root r s1)) with (set_root r (set_holder h s1)).
  change (Stack (set_root r ?x)) with (Stack x). by rewrite pop_component_root.
Qed.

Lemma finish_same V root s t :
  same s t → same (finish V root s) (finish V root t) ∧ Root (finish V root t) = Root t.
Proof.
  intros Hs%same_set_root. rewrite Hs, finish_root. split; [by apply same_set_root|done].
Qed.

(** What follows [VisitLoop] in an iteration. *)
Definition resume (fuel : nat) (cfg : config) : option state :=
  r ← PushFrames G (S (size G)) cfg;
  match r with
  | Some cfg => simulate G fuel cfg
  | None =>
    let cfg := FinishFrame cfg in
    match cfg.2 with
    | [] => Some cfg.1
    | _ => simulate G fuel cfg
    end
  end.

Lemma simulate_resume fuel cfg : simulate G (S fuel) cfg = resume fuel (VisitLoop cfg).
Proof. done. Qed.

(** ** The descent *)

Lemma descend_more k m cfg c : descend G k cfg = Some c → descend G (k + m) cfg = Some c.
Proof.
  revert cfg. induction k as [|k IH]; intros [s CallStack] Hd; simpl in *; [done|].
  destruct CallStack as [|[V [|W es]] frames]; [done|done|].
  case_decide; [done|]. destruct (outEdges G W); [done|]. by apply IH.
Qed.

Lemma inv_same_fresh ord s t V W :
  inv G ord s → same s t → V ∈ ord → edge G V W → ¬ rindex t W ≠ 0%Z →
  W < size G ∧ W ∉ ord ∧ W ∉ done s.
Proof.
  intros Hi Hs HV He Hz.
  assert (V < size G) as HVn by (apply (inv_bound _ _ _ Hi); set_solver).
  assert (W < size G) as HW by by eapply out_bound. split; [done|].
  apply (rindex_zero G ord s V W Hi HV HW).
  unfold rindex in *. rewrite (same_rindex _ _ Hs) in Hz. lia.
Qed.

Lemma same_discover s t W :
  same s t → same (discover W s) (discover_it W t) ∧ Root (discover_it W t) = {[W]} ∪ Root t.
Proof. intros Hs%same_set_root. rewrite Hs. split; [|done]. by apply same_set_root. Qed.

Lemma descend_S k t V W es K :
  descend G (S k) (t, (V, W :: es) :: K) =
  if decide (rindex t W ≠ 0%Z) then Some (t, (V, W :: es) :: K)
  else match outEdges G W with
       | [] => Some (discover_it W t, (W, outEdges G W) :: (V, W :: es) :: K)
       | _ => descend G k (discover_it W t, (W, outEdges G W) :: (V, W :: es) :: K)
       end.
Proof. done. Qed.

Lemma descend_returns k ord s t V es K :
  inv G ord s → same s t → V ∈ ord → (∀ W, W ∈ es → edge G V W) →
  size G ≤ k + length ord + length (done s) →
  ∃ c, descend G (S k) (t, (V, es) :: K) = Some c.
Proof.
  revert ord s t V es K. induction k as [|k IH]; intros ord s t V es K Hi Hs HV Hes Hk;
    (destruct es as [|W es]; [by eexists|]); rewrite descend_S;
    (destruct (decide (rindex t W ≠ 0%Z)) as [Hd|Hd]; [by eexists|]);
    destruct (inv_same_fresh ord s t V W Hi Hs HV) as (HW & HWo & HWd); try done;
    try (apply Hes; set_solver);
    pose proof (inv_count_fresh G ord s W Hi HW HWo HWd) as [_ Hcount].
  - lia.
  - destruct (same_discover s t W Hs) as [Hs' _].
    destruct (outEdges G W) as [|e l] eqn:Hout; [by eexists|].
    apply (IH (ord ++ [W]) (discover W s) (discover_it W t)).
    + by apply inv_discover.
    + done.
    + set_solver.
    + intros x Hx. unfold edge. by rewrite Hout.
    + rewrite length_app. change (done (discover W s)) with (done s). simpl. lia.
Qed.

(** Pushing the frame of an undiscovered target. *)
Lemma resume_push ord s t V W rest K fuel :
  inv G ord s → same s t → V ∈ ord → (∀ x, x ∈ W :: rest → edge G V x) →
  rindex t W = 0%Z →
  let c := (discover_it W t, (W, outEdges G W) :: (V, W :: rest) :: K) in
  resume (S fuel) (t, (V, W :: rest) :: K) =
    resume (if decide (outEdges G W = []) then fuel else S fuel) c.
Proof.
  intros Hi Hs HV Hes Hz c.
  destruct (inv_same_fresh ord s t V W Hi Hs HV) as (HW & HWo & HWd);
    [apply Hes; set_solver|lia|].
  pose proof (inv_count_fresh G ord s W Hi HW HWo HWd) as [_ Hcount].
  destruct (same_discover s t W Hs) as [Hs' _].
  assert (PushFrames G (S (size G)) (t, (V, W :: rest) :: K) =
    Some <$> (match outEdges G W with [] => Some c | _ => descend G (size G) c end)) as Hpush.
  { unfold PushFrames. simpl snd. cbv iota. f_equal. rewrite descend_S, decide_False by lia. done. }
  unfold resume at 1. rewrite Hpush. clear Hpush.
  destruct (outEdges G W) as [|e l] eqn:Hout.
  - rewrite decide_True by done. done.
  - rewrite decide_False by done. destruct (size G) as [|n] eqn:Hn; [lia|].
    destruct (descend_returns n (ord ++ [W]) (discover W s) (discover_it W t) W (e :: l)
      ((V, W :: rest) :: K)) as [c' Hc'].
    + apply inv_discover; try done; lia.
    + done.
    + set_solver.
    + intros x Hx. unfold edge. by rewrite Hout.
    + rewrite length_app. change (done (discover W s)) with (done s). simpl. lia.
    + pose proof (descend_more _ 1 _ _ Hc') as Hc2. rewrite Nat.add_1_r in Hc2.
      fold c in Hc', Hc2. unfold resume. rewrite Hn.
      assert (PushFrames G (S (S n)) c = Some <$> descend G (S (S n)) c) as -> by done.
      by rewrite Hc2, Hc'.
Qed.

(** ** The simulation *)

(** [VisitLoop] is the comparison of the recursive variant. *)
Lemma visit_loop_relax V W rest s t root s' root' :
  same s t → (V ∈ Root t ↔ root = true) → relax_rec V W (s, root) = (s', root') →
  ∃ t', (∀ K, VisitLoop (t, (V, W :: rest) :: K) = (t', (V, rest) :: K)) ∧ same s' t'
    ∧ (V ∈ Root t' ↔ root' = true) ∧ ∀ u, u ≠ V → (u ∈ Root t' ↔ u ∈ Root t).
Proof.
  intros Hs Hroot. unfold relax_rec, VisitLoop.
  assert (∀ v, rindex t v = rindex s v) as Hr by (intros v; unfold rindex; by rewrite (same_rindex _ _ Hs)).
  rewrite !Hr. destruct (decide (rindex s W < rindex s V)%Z); intros [=<- <-].
  - eexists. split; [done|]. split; [|split; [simpl; set_solver|simpl; set_solver]].
    destruct Hs as [H1 H2 H3 H4 H5]. split; simpl; try done. by rewrite H1.
  - by exists t.
Qed.

(** Passing an edge whose target is discovered. *)
Lemma resume_discovered t V W rest K fuel :
  rindex t W ≠ 0%Z →
  resume (S fuel) (t, (V, W :: rest) :: K) = resume fuel (VisitLoop (t, (V, W :: rest) :: K)).
Proof.
  intros Hz. unfold resume at 1.
  assert (PushFrames G (S (size G)) (t, (V, W :: rest) :: K) = Some (Some (t, (V, W :: rest) :: K)))
    as ->; [|done].
  unfold PushFrames. simpl snd. cbv iota. by rewrite descend_S, decide_True.
Qed.

(** A finished frame hands over to its parent. *)
Lemma resume_finished t W V W' rest K fuel :
  resume (S fuel) (t, (W, []) :: (V, W' :: rest) :: K) =
  resume fuel (VisitLoop (finish W (bool_decide (W ∈ Root t)) t, (V, W' :: rest) :: K)).
Proof. done. Qed.

Lemma resume_edges f ord V s0 edges seen new s root t s' root' :
  visiting G ord V s0 seen new (rindex s V) s root → same s t →
  (V ∈ Root t ↔ root = true) → (∀ W, W ∈ edges → edge G V W) →
  size G ≤ f + S (length ord) + length (done s0) →
  visit_edges (pearce4VisitRec G f) V edges s root = Some (s', root') →
  ∃ t' k, same s' t' ∧ (V ∈ Root t' ↔ root' = true)
    ∧ (∀ u, u ∈ ord → (u ∈ Root t' ↔ u ∈ Root t))
    ∧ ∀ K fuel, resume (k + fuel) (t, (V, edges) :: K) = resume fuel (t', (V, []) :: K).
Proof.
  revert ord V s0 edges seen new s root t s' root'.
  induction f as [f IHf] using lt_wf_ind. intros ord V s0 edges.
  induction edges as [|W edges IH];
    intros seen new s root t s' root' Hl Hs Hroot Hedges Hfuel Hres; cbn [visit_edges] in Hres.
  { injection Hres as <- <-. by exists t, 0. }
  pose proof (ving_inv _ _ _ _ _ _ _ _ _ Hl) as Hi.
  destruct (visiting_V _ _ _ _ _ _ _ _ _ Hl) as (_ & _ & HVo & HVnew & HVn).
  assert (edge G V W) as He by (apply Hedges; set_solver).
  assert (W < size G) as HWn by by eapply out_bound.
  pose proof (rindex_zero G _ _ V W Hi ltac:(set_solver) HWn) as Hzero.
  assert (rindex t W = rindex s W) as HrW by (unfold rindex; by rewrite (same_rindex _ _ Hs)).
  assert (∀ u, u ∈ ord → u ≠ V) as HneV by (intros u Hu ->; done).
  destruct (decide (rindex s W = 0%Z)) as [Hz|Hz].
  - (* an undiscovered target: its whole visit *)
    destruct (proj1 Hzero Hz) as [HWo HWd].
    destruct (pearce4VisitRec_spec G f (ord ++ V :: new) s W Hi HWn HWo HWd) as (s1 & Hs1 & Hv1).
    { rewrite length_app. simpl.
      pose proof (prefix_length _ _ (done_prefix _ _ (ving_nodes _ _ _ _ _ _ _ _ _ Hl))). lia. }
    rewrite Hs1 in Hres. cbn [mbind option_bind] in Hres.
    destruct (visiting_visit _ _ _ _ _ _ _ _ _ _ Hl He Hv1) as (new1 & Hl1 & HW1).
    destruct f as [|f]; [done|]. cbn [pearce4VisitRec] in Hs1.
    destruct (visit_edges (pearce4VisitRec G f) W (outEdges G W) (discover W s) true)
      as [[s2 root2]|] eqn:Hv2; [|done]. simpl in Hs1. injection Hs1 as <-.
    destruct (same_discover s t W Hs) as [Hst1 Hroot1].
    destruct (IHf f ltac:(lia) (ord ++ V :: new) W s (outEdges G W) [] [] (discover W s) true
      (discover_it W t) s2 root2) as (t2 & k2 & Hst2 & Hr2 & Hframe2 & Hrun2); try done.
    { by apply visiting_start. } { rewrite Hroot1. set_solver. }
    { rewrite length_app. simpl.
      pose proof (prefix_length _ _ (done_prefix _ _ (ving_nodes _ _ _ _ _ _ _ _ _ Hl))). lia. }
    destruct (finish_same W root2 s2 t2 Hst2) as [Hst3 Hroot3].
    pose proof (visiting_relax _ _ _ _ _ _ _ _ _ Hl1 He HW1) as Hl2.
    destruct (relax_rec V W (finish W root2 s2, root)) as [s4 root4] eqn:Hrelax.
    assert (∀ u, u ∈ ord ++ V :: new → (u ∈ Root t2 ↔ u ∈ Root t)) as Hframe.
    { intros u Hu. rewrite Hframe2, Hroot1 by done. set_solver. }
    destruct (visit_loop_relax V W edges (finish W root2 s2) (finish W root2 t2) root s4 root4)
      as (t4 & Hloop & Hst4 & Hr4 & Hframe4); [done| |done|].
    { rewrite Hroot3, Hframe by set_solver. done. }
    destruct (IH (seen ++ [W]) (new ++ new1) s4 root4 t4 s' root') as
      (t' & k' & Hst' & Hr' & Hframe' & Hrun'); try done; [set_solver|].
    exists t', (if decide (outEdges G W = []) then S (k2 + S k') else k2 + S k').
    split; [done|]. split; [done|]. split.
    { intros u Hu. rewrite Hframe', Hframe4, Hroot3, Hframe by (auto; set_solver). done. }
    intros K fuel.
    transitivity (resume (k2 + S (k' + fuel)) (discover_it W t, (W, outEdges G W) :: (V, W :: edges) :: K)).
    { pose proof (λ n, resume_push (ord ++ V :: new) s t V W edges K n Hi Hs ltac:(set_solver)
        Hedges ltac:(lia)) as Hpush. simpl in Hpush.
      destruct (decide (outEdges G W = [])) as [Hout|Hout].
      - simpl. rewrite Hpush. by rewrite <-Nat.add_assoc.
      - replace (k2 + S k' + fuel) with (S (k2 + k' + fuel)) by lia. rewrite Hpush.
        f_equal. lia. }
    rewrite Hrun2, resume_finished.
    assert (bool_decide (W ∈ Root t2) = root2) as ->.
    { destruct root2; [by apply bool_decide_eq_true_2, Hr2|].
      apply bool_decide_eq_false_2. intros Hin. by apply Hr2 in Hin. }
    by rewrite Hloop, Hrun'.
  - (* a discovered target *)
    cbn [mbind option_bind] in Hres.
    assert (W ∈ done s ∨ W ∈ ord ++ V :: new) as HW.
    { destruct (decide (W ∈ done s)); [by left|right].
      destruct (decide (W ∈ ord ++ V :: new)); [done|]. by destruct Hz; apply Hzero. }
    assert (visiting G ord V s0 seen new (Z.min (rindex s V) (rindex s W)) s root) as Hl1.
    { split; try apply Hl. intros w Hw. pose proof (ving_low _ _ _ _ _ _ _ _ _ Hl w Hw). lia. }
    pose proof (visiting_relax _ _ _ _ _ _ _ _ _ Hl1 He HW) as Hl2.
    destruct (relax_rec V W (s, root)) as [s4 root4] eqn:Hrelax.
    destruct (visit_loop_relax V W edges s t root s4 root4) as (t4 & Hloop & Hst4 & Hr4 & Hframe4);
      [done|done|done|].
    destruct (IH (seen ++ [W]) new s4 root4 t4 s' root') as
      (t' & k' & Hst' & Hr' & Hframe' & Hrun'); try done; [set_solver|].
    exists t', (S k'). split; [done|]. split; [done|]. split.
    { intros u Hu. rewrite Hframe', Hframe4 by auto. done. }
    intros K fuel. cbn [Nat.add]. rewrite resume_discovered, Hloop by lia. apply Hrun'.
Qed.

(** A whole visit, for any sufficient number of iterations. *)
Lemma visit_it_simulates f ord s t V s' :
  inv G ord s → same s t → V < size G → V ∉ ord → V ∉ done s →
  size G ≤ f + length ord + length (done s) →
  pearce4VisitRec G f V s = Some s' →
  ∃ t' k, same s' t' ∧ ∀ fuel, k ≤ fuel → pearce4VisitIt G fuel V t = Some t'.
Proof.
  intros Hi Hs HV HVo HVd Hfuel Hrec.
  destruct (inv_count_fresh G ord s V Hi HV HVo HVd) as [_ Hcount].
  destruct f as [|f]; [lia|]. cbn [pearce4VisitRec] in Hrec.
  destruct (visit_edges (pearce4VisitRec G f) V (outEdges G V) (discover V s) true)
    as [[s2 root2]|] eqn:Hv2; [|done]. simpl in Hrec. injection Hrec as <-.
  destruct (same_discover s t V Hs) as [Hst1 Hroot1].
  destruct (resume_edges f ord V s (outEdges G V) [] [] (discover V s) true (discover_it V t) s2 root2)
    as (t2 & k & Hst2 & Hr2 & _ & Hrun); try done.
  { by apply visiting_start. } { rewrite Hroot1. set_solver. } { lia. }
  destruct (finish_same V root2 s2 t2 Hst2) as [Hst3 _].
  exists (finish V root2 t2), (S k). split; [done|]. intros fuel Hk.
  assert (∀ m, k ≤ m → resume m (discover_it V t, [(V, outEdges G V)]) = Some (finish V root2 t2)) as Hres.
  { intros m Hm. replace m with (k + (m - k)) by lia. rewrite Hrun. unfold resume. simpl.
    do 2 f_equal. destruct root2; [by rewrite bool_decide_eq_true_2 by by apply Hr2|].
    rewrite bool_decide_eq_false_2; [done|]. intros Hin. by apply Hr2 in Hin. }
  unfold pearce4VisitIt.
  destruct (outEdges G V) as [|W rest] eqn:Hout.
  - cbn -[simulate]. destruct fuel as [|fuel]; [lia|]. rewrite simulate_resume. apply Hres. lia.
  - specialize (Hres fuel ltac:(lia)). unfold resume in Hres.
    change (PushFrames G (S (size G)) (discover_it V t, [(V, W :: rest)]))
      with (Some <$> descend G (S (size G)) (discover_it V t, [(V, W :: rest)])) in Hres |- *.
    destruct (descend G (S (size G)) (discover_it V t, [(V, W :: rest)])); done.
Qed.

(** The driver, with either variant. *)
Lemma visit_all_same f vs seen s t :
  size G ≤ f → seen ++ vs = vertices G → between G seen s → same s t →
  ∃ s' t' k, visit_all (pearce4VisitRec G f) vs s = Some s' ∧ same s' t'
    ∧ ∀ fuel, k ≤ fuel → visit_all (pearce4VisitIt G fuel) vs t = Some t'.
Proof.
  intros Hf. revert seen s t. induction vs as [|V vs IH]; intros seen s t Hvs Hb Hs; cbn [visit_all].
  { by exists s, t, 0. }
  destruct (vertices_split G _ _ _ Hvs) as (HV & HVs & Hvs').
  pose proof (between_fresh G _ _ _ Hb HV HVs) as Hfresh.
  assert (rindex t V = rindex s V) as -> by (unfold rindex; by rewrite (same_rindex _ _ Hs)).
  destruct (decide (rindex s V = 0%Z)) as [Hz|Hz].
  - pose proof (proj1 Hfresh Hz) as HVd.
    destruct (pearce4VisitRec_spec G f [] s V (btw_inv _ _ _ Hb) HV ltac:(set_solver) HVd)
      as (s1 & Hs1 & Hv); [simpl; lia|].
    destruct (visit_it_simulates f [] s t V s1 (btw_inv _ _ _ Hb) Hs HV ltac:(set_solver) HVd)
      as (t1 & k1 & Hst1 & Hrun1); [simpl; clear -Hf; lia|done|].
    destruct (between_visit G _ _ _ _ Hb Hv) as [Hb' Hflush].
    assert (flush_stack t1 = t1) as Hflush'.
    { unfold flush_stack. rewrite (same_stack _ _ Hst1), (inv_top_stack G s1 (btw_inv _ _ _ Hb')). done. }
    destruct (IH (seen ++ [V]) s1 t1 Hvs' Hb' Hst1) as (s' & t' & k & Hrec & Hst & Hrun).
    exists s', t', (Nat.max k1 k). split; [|split; [done|]].
    + rewrite Hs1. simpl. by rewrite Hflush.
    + intros fuel Hk. rewrite Hrun1 by lia. simpl. rewrite Hflush'. apply Hrun. lia.
  - simpl. apply (IH (seen ++ [V])); [done| |done]. apply between_skip; [done|].
    destruct (decide (V ∈ done s)); [done|]. by destruct Hz; apply Hfresh.
Qed.

Lemma computeSCCs_variants_agree f :
  size G ≤ f →
  ∃ H k, computeSCCs G false f = Some H ∧ ∀ fuel, k ≤ fuel → computeSCCs G true fuel = Some H.
Proof.
  intros Hf. unfold computeSCCs. destruct (decide (size G = 0)) as [Hz|Hz].
  - by eexists _, 0.
  - destruct (visit_all_same f (vertices G) [] (initial_state G) (initial_state G))
      as (s' & t' & k & Hrec & Hst & Hrun); [done|done| |done|]. { apply between_start; [done|lia]. }
    exists (Holder s'), k. rewrite Hrec. split; [done|]. intros fuel Hk.
    rewrite Hrun by done. simpl. by rewrite (same_holder _ _ Hst).
Qed.
End simulation.
End PearceIterative.

Import PearceCorrect.

(** * Nested loops *)

Lemma for_each_nested {A B S} (l : list A) (f : A → list B) (g : A → B → S → S) (s : S) :
  for_each l (λ x, for_each (f x) (g x)) s =
  for_each (l ≫= λ x, (x,.) <$> f x) (λ xy, g xy.1 xy.2) s.
Proof.
  revert s. induction l as [|x l IH]; intros s; [done|].
  rewrite for_each_cons, bind_cons, for_each_app, <-IH. f_equal. generalize (f x) as k.
  intros k. revert s. induction k as [|y k IHk]; intros s; [done|].
  by rewrite fmap_cons, !for_each_cons, IHk.
Qed.

(** * The dependency graph *)

Section dependencies.
Context (G : Graph) `{!GraphLaws G} (H : SCCHolder) (HH : correct_sccs G H).

(** There is an edge from component [a] to another component [b]. *)
Definition depends (a b : nat) : Prop :=
  a ≠ b ∧ ∃ v w, v < size G ∧ edge G v w ∧ SCCOfNode H !!! v = a ∧ SCCOfNode H !!! w = b.

Lemma sccof_bound v : v < size G → SCCOfNode H !!! v < num_sccs H.
Proof.
  intros Hv. destruct (sccs_of_node _ _ HH v Hv) as (ns & Hns & _). by apply lookup_lt_Some in Hns.
Qed.

Lemma depends_lt a b : depends a b → b < a.
Proof.
  intros (Hne & v & w & Hv & He & <- & <-). pose proof (sccs_order _ _ HH v w Hv He). lia.
Qed.

Lemma depends_bound a b : depends a b → a < num_sccs H ∧ b < num_sccs H.
Proof.
  intros Hd. pose proof (depends_lt _ _ Hd). destruct Hd as (_ & v & w & Hv & _ & <- & <-).
  pose proof (sccof_bound v Hv). lia.
Qed.

Definition all_edges : list (nat * nat) := vertices G ≫= λ v, (v,.) <$> outEdges G v.

Lemma elem_of_all_edges v w : (v, w) ∈ all_edges ↔ v < size G ∧ edge G v w.
Proof.
  unfold all_edges. rewrite list_elem_of_bind. split.
  - intros (x & (y & [=-> ->] & Hy)%list_elem_of_fmap & Hx%elem_of_seq). split; [lia|done].
  - intros [Hv He]. exists v. split; [apply list_elem_of_fmap; by exists w|]. apply elem_of_seq. lia.
Qed.

Record correct_dependencies (D : SCCDependencyGraph) : Prop := {
  deps_size : length (ChildrenOfSCC D) = num_sccs H;
  deps_children a b : b ∈ ChildrenOfSCC D !!! a ↔ depends a b;
  deps_roots r : r ∈ SCCRoots D ↔ r < num_sccs H ∧ ∀ a, ¬ depends a r;
  deps_roots_NoDup : NoDup (SCCRoots D)
}.

Lemma computeSCCDependencies_correct : correct_dependencies (computeSCCDependencies G H).
Proof.
  unfold computeSCCDependencies.
  pose proof (for_each_nested (vertices G) (outEdges G)
    (λ v w, add_dependency (SCCOfNode H !!! v) (SCCOfNode H !!! w))
    (replicate (num_sccs H) ∅, list_to_set (seq 0 (num_sccs H)))) as Hflat.
  fold all_edges in Hflat.
  match goal with |- context [for_each (vertices G) ?body ?init] =>
    replace (for_each (vertices G) body init) with (for_each all_edges
      (λ xy, add_dependency (SCCOfNode H !!! xy.1) (SCCOfNode H !!! xy.2)) init)
      by (symmetry; exact Hflat) end.
  clear Hflat.
  set (I := λ (l : list (nat * nat)) (DR : list (gset nat) * gset nat),
    (∀ v w, (v, w) ∈ l → v < size G) →
    length DR.1 = num_sccs H
    ∧ (∀ a b, b ∈ DR.1 !!! a ↔
        a ≠ b ∧ ∃ v w, (v, w) ∈ l ∧ SCCOfNode H !!! v = a ∧ SCCOfNode H !!! w = b)
    ∧ (∀ r, r ∈ DR.2 ↔ r < num_sccs H ∧
        ∀ v w, (v, w) ∈ l → SCCOfNode H !!! w = r → SCCOfNode H !!! v = r)).
  assert (I all_edges (for_each all_edges
    (λ xy, add_dependency (SCCOfNode H !!! xy.1) (SCCOfNode H !!! xy.2))
    (replicate (num_sccs H) ∅, list_to_set (seq 0 (num_sccs H))))) as HI.
  { apply for_each_ind.
    - intros _. simpl. split; [apply length_replicate|]. split.
      + intros a b. split; [|set_solver]. destruct (decide (a < num_sccs H)) as [Ha|Ha].
        * rewrite lookup_total_replicate_2 by done. set_solver.
        * rewrite list_lookup_total_alt, lookup_ge_None_2 by (rewrite length_replicate; lia).
          simpl. set_solver.
      + intros r. rewrite elem_of_list_to_set, elem_of_seq. split; [|lia]. intros. split; [lia|set_solver].
    - intros l [v w] [C R] Hvw IH Hb. simpl.
      destruct IH as (Hlen & HC & HR); [intros v' w' ?; apply (Hb v' w'), elem_of_app; by left|].
      simpl in *.
      assert (v < size G) as Hv by (apply (Hb v w), elem_of_app; right; by apply list_elem_of_singleton).
      pose proof (sccof_bound v Hv) as Hsv. unfold add_dependency.
      destruct (decide (SCCOfNode H !!! w = SCCOfNode H !!! v)) as [Heq|Hne]; simpl.
      + split; [done|]. split.
        * intros a b. rewrite HC. setoid_rewrite elem_of_app. setoid_rewrite list_elem_of_singleton.
          naive_solver congruence.
        * intros r. rewrite HR. setoid_rewrite elem_of_app. setoid_rewrite list_elem_of_singleton.
          naive_solver congruence.
      + split; [by rewrite length_alter|]. split.
        * intros a b. destruct (decide (SCCOfNode H !!! v = a)) as [<-|Ha].
          -- rewrite list_lookup_total_alter_eq by lia. rewrite elem_of_union, elem_of_singleton, HC.
             setoid_rewrite elem_of_app. setoid_rewrite list_elem_of_singleton. split.
             ++ intros [->|[? (v' & w' & ? & ? & ?)]]; [split; [done|]|split; [done|]].
                ** exists v, w. auto.
                ** exists v', w'. auto.
             ++ intros [? (v' & w' & [?|[=-> ->]] & ? & ?)]; [right|left; done].
                split; [done|]. by exists v', w'.
          -- rewrite list_lookup_total_alter_ne by done. rewrite HC.
             setoid_rewrite elem_of_app. setoid_rewrite list_elem_of_singleton. naive_solver congruence.
        * intros r. rewrite elem_of_difference, elem_of_singleton, HR.
          setoid_rewrite elem_of_app. setoid_rewrite list_elem_of_singleton. split.
          -- intros [[? Hl] Hr]. split; [done|]. intros v' w' [?|[=-> ->]] Hw; [by eapply Hl|]. done.
          -- intros [? Hl]. split; [split; [done|]|].
             ++ intros v' w' ? ?. eapply Hl; eauto.
             ++ intros ->. apply Hne. symmetry. apply (Hl v w); [by right|done]. }
  destruct (for_each _ _ _) as [C R]. destruct HI as (Hlen & HC & HR).
  { intros v w Hvw. by apply elem_of_all_edges in Hvw as [? _]. }
  assert (∀ a b, b ∈ C !!! a ↔ depends a b) as HC'.
  { intros a b. rewrite HC. unfold depends. setoid_rewrite elem_of_all_edges. naive_solver. }
  split; simpl; [done|done| |apply NoDup_filter, NoDup_seq].
  intros r. rewrite list_elem_of_filter, elem_of_seq, HR. split.
  - intros [[Hr Hall] _]. split; [done|].
    intros a (Hne & v & w & Hv & He & <- & Hw). apply Hne. rewrite <-Hw in Hall |- *.
    apply (Hall v w); [by apply elem_of_all_edges|done].
  - intros [Hr Hall]. split; [|lia]. split; [done|]. intros v w Hvw%elem_of_all_edges <-.
    destruct (decide (SCCOfNode H !!! v = SCCOfNode H !!! w)) as [|Hne]; [done|].
    destruct Hvw as [Hv He]. destruct (Hall (SCCOfNode H !!! v)). split; [done|]. by exists v, w.
Qed.

(** * Topological orders *)

(** A list that has every component once, each before those it depends on. *)
Record topological (order : list nat) : Prop := {
  topo_NoDup : NoDup order;
  topo_all a : a ∈ order ↔ a < num_sccs H;
  topo_before l1 a l2 b : order = l1 ++ a :: l2 → depends a b → b ∈ l2
}.

Lemma reverse_iota_topological : topological (reverse (seq 0 (num_sccs H))).
Proof.
  split.
  - rewrite reverse_Permutation. apply NoDup_seq.
  - intros a. rewrite elem_of_reverse, elem_of_seq. lia.
  - intros l1 a l2 b Hsplit Hd.
    assert (seq 0 (num_sccs H) = reverse l2 ++ a :: reverse l1) as Hseq.
    { rewrite <-(reverse_involutive (seq 0 _)), Hsplit, reverse_app, reverse_cons, <-app_assoc. done. }
    assert (a = length l2) as Ha.
    { assert (seq 0 (num_sccs H) !! length l2 = Some a) as Hl.
      { rewrite Hseq, lookup_app_r by (rewrite length_reverse; lia).
        by rewrite length_reverse, Nat.sub_diag. }
      apply lookup_seq in Hl. lia. }
    pose proof (depends_lt _ _ Hd) as Hlt.
    assert (b ∈ reverse l2); [|by apply elem_of_reverse].
    apply (list_elem_of_lookup_2 _ b).
    rewrite <-(lookup_app_l (reverse l2) (a :: reverse l1)) by (rewrite length_reverse; lia).
    rewrite <-Hseq. apply lookup_seq. destruct (depends_bound _ _ Hd). lia.
Qed.
End dependencies.

(** * The depth-first search *)

Section dfs.
Context (G : Graph) `{!GraphLaws G} (H : SCCHolder) (HH : correct_sccs G H).
Context (set_order : gset nat → list nat) (D : SCCDependencyGraph).
Context (set_order_elem : ∀ X x, x ∈ set_order X ↔ x ∈ X).
Context (HD : correct_dependencies G H D).

Notation depends := (depends G H).

(** The search: what is appended is seen, once, after everything it depends on;
    what is only seen is still on the recursion's path, at or above [p]. *)
Record dfs_inv (p : nat) (s : SCCOrder.state) : Prop := {
  dfs_NoDup : NoDup s.2;
  dfs_bound a : a ∈ s.2 → a < num_sccs H;
  dfs_seen a : a ∈ s.2 → a ∈ s.1;
  dfs_path a : a ∈ s.1 → a ∉ s.2 → p ≤ a;
  dfs_order l1 a l2 b : s.2 = l1 ++ a :: l2 → depends a b → b ∈ l1
}.

(** What a call adds: unseen ids, which it also appends. *)
Record dfs_extends (s s' : SCCOrder.state) : Prop := {
  ext_out a : a ∈ s.2 → a ∈ s'.2;
  ext_seen a : a ∈ s.1 → a ∈ s'.1;
  ext_new a : a ∈ s'.1 → a ∈ s.1 ∨ a ∈ s'.2;
  ext_unseen a : a ∈ s'.2 → a ∈ s.2 ∨ a ∉ s.1
}.

Lemma dfs_extends_refl s : dfs_extends s s.
Proof. split; auto. Qed.

Lemma dfs_extends_trans s1 s2 s3 : dfs_extends s1 s2 → dfs_extends s2 s3 → dfs_extends s1 s3.
Proof.
  intros [A1 A2 A3 A4] [B1 B2 B3 B4]. split; auto.
  - intros a Ha. destruct (B3 a Ha) as [Ha'|]; [destruct (A3 a Ha')|]; auto.
  - intros a Ha. destruct (B4 a Ha) as [Ha'|]; auto.
Qed.

Lemma dfs_inv_extends p q s s' : q ≤ p → dfs_inv p s → dfs_inv q s' → dfs_extends s s' → dfs_inv p s'.
Proof.
  intros Hq Hs Hs' He. split; try apply Hs'. intros a Ha Hn.
  destruct (ext_new _ _ He a Ha) as [Ha'|]; [|done]. apply (dfs_path _ _ Hs a Ha').
  intros Ha2. by apply Hn, (ext_out _ _ He).
Qed.

Lemma dfs_children_spec dfs p children s :
  (∀ c s, c ∈ children → dfs_inv (S c) s → c ∉ s.1 →
     ∃ s', dfs c s = Some s' ∧ dfs_inv (S c) s' ∧ c ∈ s'.2 ∧ dfs_extends s s') →
  (∀ c, c ∈ children → S c ≤ p) → dfs_inv p s →
  ∃ s', SCCOrder.dfs_children dfs children s = Some s'
    ∧ dfs_inv p s' ∧ (∀ c, c ∈ children → c ∈ s'.2) ∧ dfs_extends s s'.
Proof.
  revert s. induction children as [|c children IH]; intros s Hdfs Hp Hs; cbn [SCCOrder.dfs_children].
  { exists s. split; [done|]. split; [done|]. split; [set_solver|]. apply dfs_extends_refl. }
  assert (∃ s1, (if decide (c ∈ s.1) then Some s else dfs c s) = Some s1
    ∧ dfs_inv p s1 ∧ c ∈ s1.2 ∧ dfs_extends s s1) as (s1 & -> & Hs1 & Hc & He).
  { destruct (decide (c ∈ s.1)) as [Hin|Hin].
    - exists s. split; [done|]. split; [done|]. split; [|apply dfs_extends_refl].
      destruct (decide (c ∈ s.2)) as [|Hn]; [done|]. pose proof (dfs_path _ _ Hs c Hin Hn).
      specialize (Hp c ltac:(set_solver)). lia.
    - assert (S c ≤ p) as Hcp by (apply Hp; set_solver).
      destruct (Hdfs c s) as (s1 & Hs1 & Hi1 & Hc & He); [set_solver| |done|].
      + split; try apply Hs. intros a Ha Hn. pose proof (dfs_path _ _ Hs a Ha Hn). lia.
      + exists s1. split; [done|]. split; [|done]. by eapply dfs_inv_extends. }
  cbn [mbind option_bind].
  destruct (IH s1) as (s' & -> & Hs' & Hall & He'); [set_solver|set_solver|done|].
  exists s'. split; [done|]. split; [done|]. split; [|by eapply dfs_extends_trans].
  intros x [->|Hx]%elem_of_cons; [by apply (ext_out _ _ He')|auto].
Qed.

Lemma Dfs_spec fuel c s :
  c < fuel → c < num_sccs H → dfs_inv (S c) s → c ∉ s.1 →
  ∃ s', SCCOrder.Dfs set_order D fuel c s = Some s' ∧ dfs_inv (S c) s' ∧ c ∈ s'.2 ∧ dfs_extends s s'.
Proof.
  revert c s. induction fuel as [|fuel IH]; intros c s Hf Hc Hs Hn; [lia|]. cbn [SCCOrder.Dfs].
  assert (c ∉ s.2) as Hn2 by (intros Hc2; by apply Hn, (dfs_seen _ _ Hs)).
  assert (∀ b, b ∈ set_order (ChildrenOfSCC D !!! c) ↔ depends c b) as Hch.
  { intros b. by rewrite set_order_elem, (deps_children _ _ _ HD). }
  destruct (dfs_children_spec (SCCOrder.Dfs set_order D fuel) c (set_order (ChildrenOfSCC D !!! c))
    ({[c]} ∪ s.1, s.2)) as (s' & -> & Hs' & Hall & He).
  - intros b t Hb Ht Hbt. apply Hch in Hb. pose proof (depends_lt G H HH _ _ Hb).
    apply IH; [lia|lia|done|done].
  - intros b Hb. apply Hch in Hb. by apply (depends_lt G H HH).
  - split; simpl; try apply Hs.
    + intros a Ha. apply elem_of_union. right. by apply (dfs_seen _ _ Hs).
    + intros a [->%elem_of_singleton|Ha]%elem_of_union Hna; [done|].
      pose proof (dfs_path _ _ Hs a Ha Hna). lia.
  - destruct He as [He1 He2 He3 He4]. simpl in *.
    assert (c ∉ s'.2) as Hcn by (intros Hc2; destruct (He4 c Hc2); [done|set_solver]).
    assert (c ∈ s'.1) as Hcs by (apply He2; set_solver).
    eexists. split; [done|]. simpl. split; [|split; [set_solver|]].
    + split; simpl.
      * apply NoDup_app. split; [apply Hs'|]. split; [|apply NoDup_singleton].
        intros x Hx ->%list_elem_of_singleton. done.
      * intros a [Ha| ->%list_elem_of_singleton]%elem_of_app; [by apply Hs'|done].
      * intros a [Ha| ->%list_elem_of_singleton]%elem_of_app; [by apply Hs'|done].
      * intros a Ha Hna. apply not_elem_of_app in Hna as [Hna Hnc].
        pose proof (dfs_path _ _ Hs' a Ha Hna). assert (a ≠ c) by set_solver. lia.
      * intros l1 a l2 b Hsplit Hd. destruct l2 as [|x l2 _] using rev_ind.
        { apply app_inj_tail in Hsplit as [<- <-]. by apply Hall, Hch. }
        rewrite app_comm_cons, app_assoc in Hsplit. apply app_inj_tail in Hsplit as [Hsplit _].
        by eapply (dfs_order _ _ Hs').
    + split; simpl.
      * intros a Ha. apply elem_of_app. left. auto.
      * intros a Ha. apply He2. set_solver.
      * intros a Ha. destruct (He3 a Ha) as [[->%elem_of_singleton|Ha']%elem_of_union|Ha'];
          [right; set_solver|by left|right; set_solver].
      * intros a [Ha| ->%list_elem_of_singleton]%elem_of_app; [|by right].
        destruct (He4 a Ha); [by left|right; set_solver].
Qed.

Lemma computeSCCOrder_topological fuel :
  num_sccs H ≤ fuel →
  ∃ order, SCCOrder.computeSCCOrder set_order D fuel = Some order ∧ topological G H order.
Proof.
  intros Hfuel. unfold SCCOrder.computeSCCOrder.
  destruct (dfs_children_spec (SCCOrder.Dfs set_order D fuel) (num_sccs H) (SCCRoots D) (∅, []))
    as (s & -> & Hs & Hroots & He).
  - intros c s Hc Hs Hn. apply (deps_roots _ _ _ HD) in Hc as [Hc _]. apply Dfs_spec; [lia|done..].
  - intros c Hc. apply (deps_roots _ _ _ HD) in Hc as [Hc _]. lia.
  - split; simpl; try set_solver; [constructor|]. intros l1 a l2 b Hsplit. by destruct l1.
  - simpl. eexists. split; [done|].
    assert (∀ a b, a ∈ s.2 → depends a b → b ∈ s.2) as Hclosed.
    { intros a b (l1 & l2 & Hsplit)%list_elem_of_split Hd. rewrite Hsplit.
      apply elem_of_app. left. by eapply (dfs_order _ _ Hs). }
    split.
    + rewrite reverse_Permutation. apply Hs.
    + intros a. rewrite elem_of_reverse. split; [apply Hs|].
      (* upwards from a component: a root, or a component with a larger id *)
      intros Ha. remember (num_sccs H - a) as m eqn:Hm. revert a Ha Hm.
      induction (lt_wf m) as [m _ IH]. intros a Ha ->.
      destruct (decide (a ∈ SCCRoots D)) as [Hr|Hr]; [by apply Hroots|].
      assert (∃ b, depends b a) as [b Hb].
      { destruct (decide (Exists (λ b, a ∈ ChildrenOfSCC D !!! b) (seq 0 (num_sccs H))))
          as [(b & _ & Hb)%Exists_exists|Hno].
        - exists b. by apply (deps_children _ _ _ HD).
        - destruct Hr. apply (deps_roots _ _ _ HD). split; [done|]. intros b Hb. apply Hno.
          apply Exists_exists. exists b. split; [|by apply (deps_children _ _ _ HD)].
          destruct (depends_bound G H HH _ _ Hb). apply elem_of_seq. lia. }
      pose proof (depends_lt G H HH _ _ Hb). destruct (depends_bound G H HH _ _ Hb).
      apply (Hclosed b); [|done]. eapply IH; [|done|done]. lia.
    + intros l1 a l2 b Hsplit Hd.
      assert (s.2 = reverse l2 ++ a :: reverse l1) as Hs2.
      { rewrite <-(reverse_involutive s.2), Hsplit, reverse_app, reverse_cons, <-app_assoc. done. }
      apply elem_of_reverse. by eapply (dfs_order _ _ Hs).
Qed.
End dfs.
