(* ===== verification/VTA.v ===== *)
(** Variable type analysis (PhasarLLVM/ControlFlow/VTA/ and Resolver/): the type
    assignment graph, the propagation of types over its strongly connected
    components, and the resolution of indirect calls from the result.

    Correctness of the type propagation: along any topological order every
    component ends up with the types that reach it, and the resolver's sets of
    targets are what is accepted of them. *)
From S2P Require Import Prelude SCCGeneric SCCGenericCorrect SCCGenericIterative.

(** [TypeInfoTy]: a [PointerUnion] of functions and debug-info types. *)
Inductive TypeInfoTy (Fn DIType : Type) :=
  | TFunction (f : Fn)
  | TDIType (t : DIType).
Arguments TFunction {Fn DIType} _.
Arguments TDIType {Fn DIType} _.

#[export] Instance TypeInfoTy_eq_dec {Fn DIType} `{EqDecision Fn} `{EqDecision DIType} :
  EqDecision (TypeInfoTy Fn DIType).
Proof. solve_decision. Defined.

#[export] Instance TypeInfoTy_countable {Fn DIType} `{Countable Fn} `{Countable DIType} :
  Countable (TypeInfoTy Fn DIType).
Proof.
  refine (inj_countable' (λ x, match x with TFunction f => inl f | TDIType t => inr t end)
    (λ x, match x with inl f => TFunction f | inr t => TDIType t end) _).
  by intros [].
Defined.

Section vta.
Context {T : Type} `{Countable T}.

(** * The type assignment graph (VTA/TypeAssignmentGraph.h) *)

(** Its nodes are the compressed ids [0 .. length Adj - 1]. *)
Record TypeAssignmentGraph := {
  Adj : list (gset nat);
  TypeEntryPoints : gmap nat (gset T)
}.

Definition addEdge (From To : nat) (TAG : TypeAssignmentGraph) : TypeAssignmentGraph :=
  if decide (From = To) then TAG
  else {| Adj := alter (λ Succs, {[To]} ∪ Succs) From (Adj TAG);
          TypeEntryPoints := TypeEntryPoints TAG |}.

(** The iteration order of the [SmallDenseSet]s of ids. *)
Context (set_order : gset nat → list nat).

(** [GraphTraits<TypeAssignmentGraph>]. *)
Definition tag_graph (TAG : TypeAssignmentGraph) : Graph := {|
  size := length (Adj TAG);
  outEdges := λ Vtx, set_order (Adj TAG !!! Vtx)
|}.

(** * Type propagation (VTA/TypePropagator.cpp) *)

(** [TypeAssignment::TypesPerSCC]. *)
Notation TypeAssignment := (list (gset T)).

Definition insert_types (SCC : nat) (Types : gset T) (TA : TypeAssignment) : TypeAssignment :=
  alter (λ Old, Types ∪ Old) SCC TA.

Definition initialize (TAG : TypeAssignmentGraph) (SCCs : SCCHolder) (TA : TypeAssignment)
  : TypeAssignment :=
  for_each (map_to_list (TypeEntryPoints TAG))
    (λ '(Node, Types), insert_types (SCCOfNode SCCs !!! Node) Types) TA.

Definition propagate (Deps : SCCDependencyGraph) (CurrSCC : nat) (TA : TypeAssignment)
  : TypeAssignment :=
  let Types := TA !!! CurrSCC in
  if decide (Types = ∅) then TA
  else for_each (set_order (ChildrenOfSCC Deps !!! CurrSCC)) (λ Succ, insert_types Succ Types) TA.

Definition propagateTypes (TAG : TypeAssignmentGraph) (SCCs : SCCHolder)
    (Deps : SCCDependencyGraph) (Order : list nat) : TypeAssignment :=
  let Ret := initialize TAG SCCs (replicate (num_sccs SCCs) ∅) in
  for_each Order (propagate Deps) Ret.
End vta.
Arguments TypeAssignmentGraph T {_ _}.

(** * The resolver (Resolver/VTAResolver.cpp) *)

Module VTAResolver.
Section resolver.
Context {Fn DIType : Type} `{Countable Fn} `{Countable DIType}.
Notation T := (TypeInfoTy Fn DIType).
Context (set_order : gset nat → list nat).

(** The fields the constructor fills from the graph. *)
Record state := { SCCs : SCCHolder; TA : list (gset T) }.

Definition construct (fuel : nat) (TAG : TypeAssignmentGraph T) : option state :=
  let G := tag_graph set_order TAG in
  '(SCCs, Order) ← computeSCCsAndTopologicalOrder G true fuel;
  let Deps := computeSCCDependencies G SCCs in
  Some {| SCCs := SCCs; TA := propagateTypes set_order TAG SCCs Deps Order |}.

(** [isConsistentCall] for the call site at hand, and what the base resolver
    finds for it. *)
Context (isConsistentCall : Fn → bool) (BaseCallees : gset Fn).

Definition accept (Fun : Fn) (PossibleTargets : gset Fn) : gset Fn :=
  if isConsistentCall Fun && (bool_decide (BaseCallees = ∅) || bool_decide (Fun ∈ BaseCallees))
  then {[Fun]} ∪ PossibleTargets else PossibleTargets.

(** The functions assigned to the node of the called operand, if it has one. *)
Definition function_targets (s : state) (TNId : option nat) (PossibleTargets : gset Fn) : gset Fn :=
  match TNId with
  | None => PossibleTargets
  | Some Node =>
    for_each (elements (TA s !!! (SCCOfNode (SCCs s) !!! Node)))
      (λ Ty PossibleTargets, match Ty with
        | TFunction Fun => accept Fun PossibleTargets
        | TDIType _ => PossibleTargets end) PossibleTargets
  end.

Definition fallback (PossibleTargets : gset Fn) : gset Fn :=
  if decide (PossibleTargets = ∅) then BaseCallees else PossibleTargets.

Definition resolveFunctionPointer (s : state) (TNId : option nat) (PossibleTargets : gset Fn)
  : gset Fn :=
  fallback (function_targets s TNId PossibleTargets).

(** The v-table entries of the types assigned to the receiver's node;
    [getNonPureVirtualVFTEntry] is for the call's v-table index and receiver
    type. *)
Definition virtual_targets (getNonPureVirtualVFTEntry : DIType → option Fn) (s : state)
    (ReceiverNod : option nat) (PossibleTargets : gset Fn) : gset Fn :=
  match ReceiverNod with
  | None => PossibleTargets
  | Some Node =>
    for_each (elements (TA s !!! (SCCOfNode (SCCs s) !!! Node)))
      (λ Ty PossibleTargets, match Ty with
        | TDIType DITy =>
          match getNonPureVirtualVFTEntry DITy with
          | Some Fun => accept Fun PossibleTargets
          | None => PossibleTargets
          end
        | TFunction _ => PossibleTargets end) PossibleTargets
  end.

(** [RetrievedVtableIndex] is missing when the call is not a v-table call;
    [ReceiverNod] is [None] when the call has no receiver argument or the
    receiver has no node. *)
Definition resolveVirtualCall (getNonPureVirtualVFTEntry : nat → DIType → option Fn) (s : state)
    (RetrievedVtableIndex : option nat) (ReceiverNod TNId : option nat) (PossibleTargets : gset Fn)
  : gset Fn :=
  match RetrievedVtableIndex with
  | None => PossibleTargets
  | Some VtableIndex =>
    fallback (function_targets s TNId
      (virtual_targets (getNonPureVirtualVFTEntry VtableIndex) s ReceiverNod PossibleTargets))
  end.
End resolver.
End VTAResolver.

Import PearceCorrect.

Section propagation.
Context {T : Type} `{Countable T}.
Context (set_order : gset nat → list nat) (set_order_elem : ∀ X x, x ∈ set_order X ↔ x ∈ X).
Context (TAG : TypeAssignmentGraph T).

Notation G := (tag_graph set_order TAG).

(** Edges and entry points name nodes of the graph. *)
Record tag_ok : Prop := {
  tag_edges v w : v < length (Adj TAG) → w ∈ Adj TAG !!! v → w < length (Adj TAG);
  tag_entries v Types : TypeEntryPoints TAG !! v = Some Types → v < length (Adj TAG);
  tag_size : (Z.of_nat (length (Adj TAG)) < 2 ^ 32 - 1)%Z
}.

Lemma tag_graph_laws : tag_ok → GraphLaws G.
Proof.
  intros Hok. split; [|apply Hok]. intros v w Hv Hw. simpl in *.
  apply set_order_elem in Hw. by apply (tag_edges Hok v).
Qed.

Context (HT : tag_ok).
#[local] Instance laws : GraphLaws G := tag_graph_laws HT.
Context (SCCs : SCCHolder) (HS : correct_sccs G SCCs).
Context (Deps : SCCDependencyGraph) (HD : correct_dependencies G SCCs Deps).

Notation depends := (depends G SCCs).
Notation sccof v := (SCCOfNode SCCs !!! v).

(** A type enters the graph at a node of the component. *)
Definition enters (c : nat) (t : T) : Prop :=
  ∃ v Types, TypeEntryPoints TAG !! v = Some Types ∧ t ∈ Types ∧ sccof v = c.

Lemma insert_types_spec SCC (Types : gset T) TA a t :
  SCC < length TA →
  t ∈ insert_types SCC Types TA !!! a ↔ (a = SCC ∧ t ∈ Types) ∨ t ∈ TA !!! a.
Proof.
  intros Hlt. unfold insert_types. destruct (decide (SCC = a)) as [<-|Hne].
  - rewrite list_lookup_total_alter_eq by done. set_solver.
  - rewrite list_lookup_total_alter_ne by done. naive_solver.
Qed.

Lemma insert_types_length SCC (Types : gset T) TA : length (insert_types SCC Types TA) = length TA.
Proof. apply length_alter. Qed.

Lemma initialize_spec :
  let TA := initialize TAG SCCs (replicate (num_sccs SCCs) ∅) in
  length TA = num_sccs SCCs ∧ ∀ a t, t ∈ TA !!! a ↔ enters a t.
Proof.
  unfold initialize, enters.
  set (I := λ (l : list (nat * gset T)) (TA : list (gset T)), length TA = num_sccs SCCs ∧
    ∀ a t, t ∈ TA !!! a ↔ ∃ v Types, (v, Types) ∈ l ∧ t ∈ Types ∧ sccof v = a).
  enough (I (map_to_list (TypeEntryPoints TAG)) (for_each (map_to_list (TypeEntryPoints TAG))
    (λ '(Node, Types), insert_types (sccof Node) Types) (replicate (num_sccs SCCs) ∅))) as [Hl HI].
  { split; [done|]. intros a t. rewrite HI. by setoid_rewrite elem_of_map_to_list. }
  apply for_each_ind.
  - split; [apply length_replicate|]. intros a t. split; [|set_solver].
    destruct (decide (a < num_sccs SCCs)) as [Ha|Ha].
    + rewrite lookup_total_replicate_2 by done. set_solver.
    + rewrite list_lookup_total_alt, lookup_ge_None_2 by (rewrite length_replicate; lia). set_solver.
  - intros l [v Types] TA Hin [Hl HTA]. split; [by rewrite insert_types_length|].
    intros a t. apply elem_of_map_to_list in Hin.
    pose proof (sccof_bound G SCCs HS v (tag_entries HT _ _ Hin)).
    rewrite insert_types_spec by lia. rewrite HTA.
    setoid_rewrite elem_of_app. setoid_rewrite list_elem_of_singleton. split.
    + intros [[-> Ht]|(v' & Ty & Hin' & ? & ?)]; eauto 10.
    + intros (v' & Ty & [Hin'|[=-> ->]] & ? & <-); eauto 10.
Qed.

(** Arrival at a component along dependencies of the components in [l]. *)
Definition arrives (l : list nat) (c a : nat) : Prop :=
  rtc (λ x y, depends x y ∧ x ∈ l) c a.

Lemma arrives_snoc l x c a :
  (∀ y, depends x y → y ∉ l ++ [x]) →
  arrives (l ++ [x]) c a ↔ arrives l c a ∨ (arrives l c x ∧ depends x a).
Proof.
  intros Hx. split.
  - intros Har. induction Har as [c|c y a [Hd Hin] Har IH]; [left; apply rtc_refl|].
    apply elem_of_app in Hin as [Hin| ->%list_elem_of_singleton].
    + destruct IH as [IH|[IH Hda]]; [left|right; split; [|done]]; (eapply rtc_l; [|exact IH]; done).
    + assert (a = y) as ->; [|right; split; [apply rtc_refl|done]].
      inversion Har as [|? z ? [_ Hy] _]; subst; [done|]. by destruct (Hx y Hd).
  - assert (∀ c a, arrives l c a → arrives (l ++ [x]) c a) as Hmono.
    { intros c' a' Har. eapply rtc_subrel; [|exact Har]. intros y z [? ?]. split; [done|].
      apply elem_of_app. by left. }
    intros [Har|[Har Hd]]; [by apply Hmono|]. eapply rtc_r; [by apply Hmono|].
    split; [done|set_solver].
Qed.

Lemma propagate_spec (x : nat) (TA : list (gset T)) :
  x < num_sccs SCCs → length TA = num_sccs SCCs →
  length (propagate set_order Deps x TA) = num_sccs SCCs
  ∧ ∀ a t, t ∈ propagate set_order Deps x TA !!! a ↔
      t ∈ TA !!! a ∨ (depends x a ∧ t ∈ TA !!! x).
Proof.
  intros Hx Hl. unfold propagate. destruct (decide (TA !!! x = ∅)) as [He|He].
  { split; [done|]. intros a t. rewrite He. set_solver. }
  assert (∀ b, b ∈ set_order (ChildrenOfSCC Deps !!! x) ↔ depends x b) as Hch.
  { intros b. by rewrite set_order_elem, (deps_children _ _ _ HD). }
  set (Types := TA !!! x).
  set (I := λ (l : list nat) (TA' : list (gset T)), length TA' = num_sccs SCCs ∧
    ∀ a t, t ∈ TA' !!! a ↔ t ∈ TA !!! a ∨ (a ∈ l ∧ t ∈ Types)).
  enough (I (set_order (ChildrenOfSCC Deps !!! x))
    (for_each (set_order (ChildrenOfSCC Deps !!! x)) (λ Succ, insert_types Succ Types) TA)) as [Hl' HI].
  { split; [done|]. intros a t. by rewrite HI, Hch. }
  apply for_each_ind; [split; [done|set_solver]|].
  intros l b TA' Hb [Hl' HTA']. split; [by rewrite insert_types_length|]. intros a t.
  apply Hch in Hb. destruct (depends_bound G SCCs HS _ _ Hb).
  rewrite insert_types_spec by lia. rewrite HTA', elem_of_app, list_elem_of_singleton. naive_solver.
Qed.

(** Every component gets the types that enter a component it depends on. *)
Lemma propagateTypes_components Order :
  topological G SCCs Order →
  ∀ a t, t ∈ propagateTypes set_order TAG SCCs Deps Order !!! a ↔
    ∃ c, enters c t ∧ rtc depends c a.
Proof.
  intros Ht. unfold propagateTypes.
  set (TA0 := initialize TAG SCCs (replicate (num_sccs SCCs) ∅)).
  assert (∀ l rest TA, Order = l ++ rest → length TA = num_sccs SCCs →
    (∀ a t, t ∈ TA !!! a ↔ ∃ c, enters c t ∧ arrives l c a) →
    ∀ a t, t ∈ for_each rest (propagate set_order Deps) TA !!! a ↔
      ∃ c, enters c t ∧ arrives Order c a) as Hloop.
  { intros l rest. revert l. induction rest as [|x rest IH]; intros l TA Hsplit Hl HTA.
    { rewrite app_nil_r in Hsplit. by rewrite Hsplit. }
    rewrite for_each_cons.
    assert (x < num_sccs SCCs) as Hx by (apply (topo_all _ _ _ Ht); rewrite Hsplit; set_solver).
    destruct (propagate_spec x TA Hx Hl) as [Hl' Hp].
    apply (IH (l ++ [x])); [by rewrite <-app_assoc|done|].
    intros a t. rewrite Hp, !HTA.
    assert (∀ y, depends x y → y ∉ l ++ [x]) as Hafter.
    { intros y Hd Hy. pose proof (topo_before _ _ _ Ht _ _ _ _ Hsplit Hd) as Hy'.
      pose proof (topo_NoDup _ _ _ Ht) as Hnd. rewrite Hsplit in Hnd.
      change (l ++ x :: rest) with (l ++ [x] ++ rest) in Hnd. rewrite app_assoc in Hnd.
      apply NoDup_app in Hnd as (_ & Hdis & _). by apply (Hdis y Hy). }
    setoid_rewrite (arrives_snoc l x _ _ Hafter). naive_solver. }
  destruct initialize_spec as [Hl0 H0]. intros a t.
  rewrite (Hloop [] Order TA0); [|done|done|].
  - assert (∀ c, arrives Order c a ↔ rtc depends c a) as Har; [|by setoid_rewrite Har].
    intros c. split; intros Hr; (eapply rtc_subrel; [|exact Hr]); [by intros x y [? ?]|].
    intros x y Hd. split; [done|]. apply (topo_all _ _ _ Ht). by apply (depends_bound G SCCs HS _ _ Hd).
  - intros b u. unfold TA0. rewrite H0. split.
    + intros He. exists b. split; [done|]. by apply rtc_refl.
    + intros (c & He & Har). inversion Har as [|? y ? [_ Hy] _]; subst; [done|set_solver].
Qed.

(** Paths between components are paths between their nodes. *)
Lemma depends_reach v w :
  v < size G → w < size G → (rtc depends (sccof v) (sccof w) ↔ reach G v w).
Proof.
  intros Hv Hw. split.
  - intros Hr. remember (sccof v) as a eqn:Ha. remember (sccof w) as b eqn:Hb.
    revert v Hv Ha. induction Hr as [a|a c b Hd _ IH]; intros v Hv Ha.
    + assert (sccof v = sccof w) as Heq by congruence. by apply (sccs_strong _ _ HS) in Heq as [? _].
    + destruct Hd as (_ & x & y & Hx & He & Hxa & Hyc).
      assert (sccof v = sccof x) as Heq by congruence.
      apply (sccs_strong _ _ HS) in Heq as [Hvx _]; [|done|done].
      etrans; [exact Hvx|]. eapply rtc_l; [exact He|].
      apply IH; [done|exact (out_bound (G:=G) x y Hx He)|done].
  - intros Hr. induction Hr as [v|v x w He Hr IH]; [done|].
    assert (x < size G) as Hx by exact (out_bound (G:=G) v x Hv He).
    destruct (decide (sccof v = sccof x)) as [->|Hne]; [by apply IH|].
    eapply rtc_l; [|by apply IH]. split; [done|]. by exists v, x.
Qed.

Lemma propagateTypes_exact Order v t :
  topological G SCCs Order → v < size G →
  t ∈ propagateTypes set_order TAG SCCs Deps Order !!! (sccof v) ↔
    ∃ u Types, TypeEntryPoints TAG !! u = Some Types ∧ t ∈ Types ∧ reach G u v.
Proof.
  intros Ht Hv. rewrite (propagateTypes_components Order Ht). unfold enters. split.
  - intros (c & (u & Types & Hu & Htu & <-) & Hr). exists u, Types.
    split; [done|]. split; [done|]. apply depends_reach; [|done|done]. by eapply (tag_entries HT).
  - intros (u & Types & Hu & Htu & Hr). exists (sccof u). split; [by exists u, Types|].
    apply depends_reach; [|done|done]. by eapply (tag_entries HT).
Qed.
End propagation.

(** * The resolver's targets *)

Section targets.
Context {Fn DIType : Type} `{Countable Fn} `{Countable DIType}.
Context (isConsistentCall : Fn → bool) (BaseCallees : gset Fn).
Implicit Types (s : VTAResolver.state (Fn:=Fn) (DIType:=DIType)).

(** The call is consistent with the function, which the base resolver does not
    rule out. *)
Definition acceptable (f : Fn) : Prop :=
  isConsistentCall f = true ∧ (BaseCallees = ∅ ∨ f ∈ BaseCallees).

Lemma accept_spec Fun X f :
  f ∈ VTAResolver.accept isConsistentCall BaseCallees Fun X ↔ f ∈ X ∨ (f = Fun ∧ acceptable f).
Proof.
  unfold VTAResolver.accept, acceptable.
  destruct (isConsistentCall Fun && _) eqn:Hacc.
  - apply andb_prop in Hacc as [Hc Hb]. apply orb_prop in Hb.
    rewrite !bool_decide_eq_true in Hb. rewrite elem_of_union, elem_of_singleton. naive_solver.
  - split; [by left|]. intros [|(-> & Hc & Hb)]; [done|]. rewrite Hc in Hacc. simpl in Hacc.
    apply orb_false_elim in Hacc as [H1 H2]. rewrite !bool_decide_eq_false in H1, H2. naive_solver.
Qed.

(** A loop that accepts, for each type, the function it stands for. *)
Lemma accept_loop_spec {B} (l : list B) (fun_of : B → option Fn) body X f :
  (∀ b Y, body b Y = match fun_of b with
                     | Some Fun => VTAResolver.accept isConsistentCall BaseCallees Fun Y
                     | None => Y end) →
  f ∈ for_each l body X ↔ f ∈ X ∨ (acceptable f ∧ ∃ b, b ∈ l ∧ fun_of b = Some f).
Proof.
  intros Hbody. revert X. induction l as [|b l IH]; intros X; [set_solver|].
  rewrite for_each_cons, IH, Hbody. setoid_rewrite elem_of_cons.
  destruct (fun_of b) as [Fun|] eqn:Hb; [rewrite accept_spec|]; naive_solver.
Qed.

Definition types_at s (Node : nat) : gset (TypeInfoTy Fn DIType) :=
  VTAResolver.TA s !!! (SCCOfNode (VTAResolver.SCCs s) !!! Node).

Lemma function_targets_spec s TNId X f :
  f ∈ VTAResolver.function_targets isConsistentCall BaseCallees s TNId X ↔
  f ∈ X ∨ (acceptable f ∧ ∃ Node, TNId = Some Node ∧ TFunction f ∈ types_at s Node).
Proof.
  unfold VTAResolver.function_targets. destruct TNId as [Node|]; [|naive_solver].
  rewrite (accept_loop_spec _ (λ Ty, match Ty with TFunction Fun => Some Fun | _ => None end));
    [|by intros []].
  setoid_rewrite elem_of_elements. unfold types_at. split.
  - intros [|[? ([g|t] & Hin & [=->])]]; [by left|right]. eauto.
  - intros [|(? & ? & [=->] & Hin)]; [by left|right]. eauto.
Qed.

Lemma virtual_targets_spec entry s ReceiverNod X f :
  f ∈ VTAResolver.virtual_targets isConsistentCall BaseCallees entry s ReceiverNod X ↔
  f ∈ X ∨ (acceptable f ∧ ∃ Node t, ReceiverNod = Some Node ∧ TDIType t ∈ types_at s Node
             ∧ entry t = Some f).
Proof.
  unfold VTAResolver.virtual_targets. destruct ReceiverNod as [Node|]; [|naive_solver].
  rewrite (accept_loop_spec _ (λ Ty, match Ty with TDIType t => entry t | _ => None end));
    [|by intros []].
  setoid_rewrite elem_of_elements. unfold types_at. split.
  - intros [|[? ([g|t] & Hin & Hf)]]; [by left|done|right]. eauto 8.
  - intros [|(? & ? & t & [=->] & Hin & Hf)]; [by left|right]. split; [done|]. by exists (TDIType t).
Qed.

Lemma fallback_spec X :
  (VTAResolver.fallback BaseCallees X = X ∧ X ≠ ∅) ∨
  (X = ∅ ∧ VTAResolver.fallback BaseCallees X = BaseCallees).
Proof. unfold VTAResolver.fallback. destruct (decide (X = ∅)); auto. Qed.
End targets.
