(* ===== verification/SCCProperties.v ===== *)
(** What the graph algorithms guarantee: strongly connected components and their
    orders, and the types and call targets of the variable type analysis. *)
From S2P Require Import Prelude SCCGeneric SCCGenericCorrect SCCGenericIterative.
From S2P Require Import SCCGenericIterative VTA.
Import PearceCorrect.

Lemma computeSCCs_correct (G : Graph) :
  GraphLaws G →
  ∃ H iterations,
    Pearce.computeSCCs G false (size G) = Some H
    ∧ (∀ fuel, iterations ≤ fuel → Pearce.computeSCCs G true fuel = Some H)
    ∧ correct_sccs G H.
Proof.
  intros HG. destruct (PearceIterative.computeSCCs_variants_agree G (size G)) as (H & k & Hrec & Hit);
    [done|].
  destruct (computeSCCs_rec_correct G (size G)) as (H' & Hrec' & HH); [done|].
  exists H, k. split; [done|]. split; [done|]. by simplify_eq.
Qed.

(** What the constructor of the resolver computes. *)
Lemma construct_types {Fn DIType} `{Countable Fn} `{Countable DIType}
    (set_order : gset nat → list nat) (TAG : TypeAssignmentGraph (TypeInfoTy Fn DIType)) :
  (∀ X x, x ∈ set_order X ↔ x ∈ X) → tag_ok TAG →
  ∃ iterations, ∀ fuel, iterations ≤ fuel →
    ∃ s, VTAResolver.construct set_order fuel TAG = Some s
      ∧ ∀ v t, v < length (Adj TAG) →
          t ∈ types_at s v ↔
            ∃ u Types, TypeEntryPoints TAG !! u = Some Types ∧ t ∈ Types
              ∧ reach (tag_graph set_order TAG) u v.
Proof.
  intros Hset Hok. pose proof (tag_graph_laws set_order Hset TAG Hok) as HG.
  destruct (computeSCCs_correct (tag_graph set_order TAG) HG) as (H' & k & _ & Hit & HH).
  exists k. intros fuel Hk. unfold VTAResolver.construct, computeSCCsAndTopologicalOrder.
  rewrite Hit by done. simpl. eexists. split; [done|]. intros v t Hv. unfold types_at. simpl.
  apply propagateTypes_exact; [done|done|done| |by apply reverse_iota_topological|done].
  by apply computeSCCDependencies_correct.
Qed.

(** C16: both variants of [computeSCCs] return and give the same components: for
    a recursion depth of the number of vertices, and for every sufficient number
    of iterations of the simulated recursion. The components partition the
    vertices, none is empty, [SCCOfNode] says where a vertex is listed, two
    vertices share a component iff each reaches the other, and no edge leads to
    a component that is found later. *)
Theorem strongly_connected_components (G : Graph) :
  GraphLaws G →
  ∃ H iterations,
    Pearce.computeSCCs G false (size G) = Some H
    ∧ (∀ fuel, iterations ≤ fuel → Pearce.computeSCCs G true fuel = Some H)
    ∧ correct_sccs G H.
Proof. apply computeSCCs_correct. Qed.

(** The two orders of the components are topological: the reverse of the
    order in which [computeSCCsAndTopologicalOrder] finds them, and the reversed
    post-order of [computeSCCOrder] on the graph [computeSCCDependencies] builds
    list every component once, each before all components it has an edge to.
    That graph has exactly these edges, without self-loops, and its roots are the
    components without a predecessor; the sets' iteration order is irrelevant. *)
Theorem topological_orders (G : Graph) (set_order : gset nat → list nat) :
  GraphLaws G → (∀ X x, x ∈ set_order X ↔ x ∈ X) →
  ∃ iterations, ∀ fuel, iterations ≤ fuel →
    ∃ H order order', computeSCCsAndTopologicalOrder G true fuel = Some (H, order)
      ∧ topological G H order
      ∧ correct_dependencies G H (computeSCCDependencies G H)
      ∧ SCCOrder.computeSCCOrder set_order (computeSCCDependencies G H) (num_sccs H) = Some order'
      ∧ topological G H order'.
Proof.
  intros HG Hset. destruct (computeSCCs_correct G HG) as (H & k & _ & Hit & HH).
  exists k. intros fuel Hk. unfold computeSCCsAndTopologicalOrder. rewrite Hit by done.
  pose proof (computeSCCDependencies_correct G H HH) as HD.
  destruct (computeSCCOrder_topological G H HH set_order _ Hset HD (num_sccs H)) as (order' & Ho & Ht);
    [done|].
  exists H, (reverse (seq 0 (num_sccs H))), order'. split; [done|].
  split; [by apply reverse_iota_topological|done].
Qed.

(** C17: what the variable type analysis resolves an indirect call to. For a
    sufficient number of iterations the constructor succeeds, and then: a call
    through a function pointer has as targets the acceptable functions (the call
    is consistent with them, and the base resolver, unless it finds nothing, has
    them too) that enter the graph at a node from which the called operand's
    node is reachable; a virtual call has in addition the v-table entries of the
    types that reach the receiver's node; if, and only if, there is no such function,
    the targets are those of the base resolver. *)
Theorem vta_call_targets {Fn DIType} `{Countable Fn} `{Countable DIType}
    (set_order : gset nat → list nat) (TAG : TypeAssignmentGraph (TypeInfoTy Fn DIType))
    (isConsistentCall : Fn → bool) (BaseCallees : gset Fn) (entry : nat → DIType → option Fn) :
  (∀ X x, x ∈ set_order X ↔ x ∈ X) → tag_ok TAG →
  let flows t v := ∃ u Types, TypeEntryPoints TAG !! u = Some Types ∧ t ∈ Types
                     ∧ reach (tag_graph set_order TAG) u v in
  let resolves_to (X : gset Fn) (P : Fn → Prop) :=
    let target f := acceptable isConsistentCall BaseCallees f ∧ P f in
    ((∃ f, target f) → ∀ f, f ∈ X ↔ target f) ∧ ((¬ ∃ f, target f) → X = BaseCallees) in
  ∃ iterations, ∀ fuel, iterations ≤ fuel →
    ∃ s, VTAResolver.construct set_order fuel TAG = Some s
      ∧ ∀ callee receiver index, callee < length (Adj TAG) → receiver < length (Adj TAG) →
          resolves_to (VTAResolver.resolveFunctionPointer isConsistentCall BaseCallees s
                         (Some callee) ∅)
            (λ f, flows (TFunction f) callee)
          ∧ resolves_to (VTAResolver.resolveVirtualCall isConsistentCall BaseCallees entry s
                           (Some index) (Some receiver) (Some callee) ∅)
              (λ f, flows (TFunction f) callee
                    ∨ ∃ t, flows (TDIType t) receiver ∧ entry index t = Some f).
Proof.
  intros Hset Hok flows resolves_to.
  destruct (construct_types set_order TAG Hset Hok) as (k & Hk). exists k. intros fuel Hfuel.
  destruct (Hk fuel Hfuel) as (s & Hs & Htypes). exists s. split; [done|].
  intros callee receiver index Hc Hr.
  assert (∀ X P, (∀ f, f ∈ X ↔ acceptable isConsistentCall BaseCallees f ∧ P f) →
    resolves_to (VTAResolver.fallback BaseCallees X) P) as Hfall.
  { intros X P HX. destruct (fallback_spec BaseCallees X) as [[-> Hne]|[-> ->]]; split; [done| |set_solver|done].
    intros Hn. destruct (set_choose_L X Hne) as [f Hf%HX]. destruct Hn. by exists f. }
  split; apply Hfall; intros f.
  - rewrite function_targets_spec. unfold flows. rewrite <-(Htypes callee) by done. set_solver.
  - rewrite function_targets_spec, virtual_targets_spec. unfold flows.
    setoid_rewrite <-(Htypes receiver); [|done]. rewrite <-(Htypes callee) by done.
    split; [|naive_solver].
    intros [[[]%elem_of_empty|(Ha & Node & t & [=<-] & Ht & He)]|(Ha & Node & [=<-] & Ht)]; eauto 10.
Qed.

(** * Examples *)

(** Two cycles, [0 1 2] and [3 4], with an edge from the first to the second. *)
Module GraphExample.
Definition two_cycles : Graph := {|
  size := 5;
  outEdges := λ v, match v with 0 => [1] | 1 => [2] | 2 => [0; 3] | 3 => [4] | 4 => [3] | _ => [] end
|}.

Lemma two_cycles_laws : GraphLaws two_cycles.
Proof.
  split; [|simpl; lia]. intros v w Hv Hw. simpl in *.
  do 5 (destruct v as [|v]; [rewrite ?elem_of_cons, ?elem_of_nil in Hw; lia|]). lia.
Qed.

Example two_cycles_components :
  NodesInSCC <$> Pearce.computeSCCs two_cycles true 20 = Some [[4; 3]; [1; 2; 0]].
Proof. by vm_compute. Qed.

(** Functions and types are numbers: the function 7 enters at node 0 and flows
    around the cycle of nodes 1 and 2. *)
Definition tag : TypeAssignmentGraph (TypeInfoTy nat nat) :=
  addEdge 2 1 (addEdge 1 2 (addEdge 0 1
    {| Adj := [∅; ∅; ∅]; TypeEntryPoints := {[ 0 := {[ TFunction 7 ]}; 1 := {[ TDIType 3 ]} ]} |})).

Lemma tag_is_ok : tag_ok tag.
Proof.
  split.
  - intros v w Hv Hw. simpl in *. do 3 (destruct v as [|v]; [simpl in Hw; set_solver by lia|]). lia.
  - intros v Types Hv. apply elem_of_dom_2 in Hv. simpl in *. set_solver by lia.
  - simpl. lia.
Qed.

Example tag_targets :
  (λ s, elements (VTAResolver.resolveFunctionPointer (λ _, true) ∅ s (Some 2) ∅))
    <$> VTAResolver.construct elements 20 tag = Some [7].
Proof. by vm_compute. Qed.
End GraphExample.

Section witnesses.
Import GraphExample.

Lemma strongly_connected_components_witness :
  ∃ H iterations,
    Pearce.computeSCCs two_cycles false (size two_cycles) = Some H
    ∧ (∀ fuel, iterations ≤ fuel → Pearce.computeSCCs two_cycles true fuel = Some H)
    ∧ correct_sccs two_cycles H.
Proof. apply (strongly_connected_components two_cycles), two_cycles_laws. Defined.

Lemma topological_orders_witness :
  ∃ iterations, ∀ fuel, iterations ≤ fuel →
    ∃ H order order', computeSCCsAndTopologicalOrder two_cycles true fuel = Some (H, order)
      ∧ topological two_cycles H order
      ∧ correct_dependencies two_cycles H (computeSCCDependencies two_cycles H)
      ∧ SCCOrder.computeSCCOrder elements (computeSCCDependencies two_cycles H) (num_sccs H)
          = Some order'
      ∧ topological two_cycles H order'.
Proof. apply (topological_orders two_cycles elements); [apply two_cycles_laws|apply elem_of_elements]. Defined.

Lemma vta_call_targets_witness :
  let BaseCallees : gset nat := {[ 7; 8 ]} in
  let flows t v := ∃ u Types, TypeEntryPoints tag !! u = Some Types ∧ t ∈ Types
                     ∧ reach (tag_graph elements tag) u v in
  let resolves_to (X : gset nat) (P : nat → Prop) :=
    let target f := acceptable (λ _, true) BaseCallees f ∧ P f in
    ((∃ f, target f) → ∀ f, f ∈ X ↔ target f) ∧ ((¬ ∃ f, target f) → X = BaseCallees) in
  ∃ iterations, ∀ fuel, iterations ≤ fuel →
    ∃ s, VTAResolver.construct elements fuel tag = Some s
      ∧ ∀ callee receiver index, callee < length (Adj tag) → receiver < length (Adj tag) →
          resolves_to (VTAResolver.resolveFunctionPointer (λ _, true) BaseCallees s (Some callee) ∅)
            (λ f, flows (TFunction f) callee)
          ∧ resolves_to (VTAResolver.resolveVirtualCall (λ _, true) BaseCallees (λ i t, Some (i + t)) s
                           (Some index) (Some receiver) (Some callee) ∅)
              (λ f, flows (TFunction f) callee
                    ∨ ∃ t, flows (TDIType t) receiver ∧ Some (index + t) = Some f).
Proof.
  apply (vta_call_targets elements tag (λ _, true) {[ 7; 8 ]} (λ i t, Some (i + t)));
    [apply elem_of_elements|apply tag_is_ok].
Defined.
End witnesses.
