(* ===== verification/UnionFind.v ===== *)
(** [UnionFind] and [CompressedUnionFind] (Utils/UnionFind.h), over LLVM's
    [IntEqClasses], and the ascending iteration of the sparse bit sets
    (Utils/SparseBitSet.h) that the pointer analyses keep next to them. *)
From S2P Require Import Prelude.
From stdpp Require Import sorting.

(** * [llvm::IntEqClasses] *)

(** A map of the integers [0 .. capacity - 1] to equivalence classes. *)
Class IntEqClasses (U : Type) := {
  ec_empty : U;
  ec_grow : nat → U → U;
  ec_join : nat → nat → U → nat * U;
  ec_findLeader : U → nat → nat;
  ec_compress : U → U;
  ec_getNumClasses : U → nat;
  ec_index : U → nat → nat;
  (** The number of integers, which only the laws mention. *)
  ec_capacity : U → nat
}.

(** Its documentation: [grow] puts new integers in classes of their own; the
    leader of a class is its smallest member; [join] joins the classes of two
    integers and returns the new leader; [compress] numbers the classes. *)
Class IntEqClassesLaws (U : Type) `{!IntEqClasses U} : Prop := {
  capacity_empty : ec_capacity ec_empty = 0;
  capacity_grow n u : ec_capacity (ec_grow n u) = n `max` ec_capacity u;
  leader_grow_old n u x : x < ec_capacity u → ec_findLeader (ec_grow n u) x = ec_findLeader u x;
  leader_grow_new n u x : ec_capacity u ≤ x < n → ec_findLeader (ec_grow n u) x = x;
  leader_le u x : x < ec_capacity u → ec_findLeader u x ≤ x;
  leader_idemp u x : x < ec_capacity u → ec_findLeader u (ec_findLeader u x) = ec_findLeader u x;
  capacity_join a b u : ec_capacity (ec_join a b u).2 = ec_capacity u;
  join_result a b u : a < ec_capacity u → b < ec_capacity u →
    (ec_join a b u).1 = ec_findLeader u a `min` ec_findLeader u b;
  leader_join a b u x : a < ec_capacity u → b < ec_capacity u → x < ec_capacity u →
    ec_findLeader (ec_join a b u).2 x =
      if decide (ec_findLeader u x = ec_findLeader u a ∨ ec_findLeader u x = ec_findLeader u b)
      then ec_findLeader u a `min` ec_findLeader u b else ec_findLeader u x;
  index_compress u x y : x < ec_capacity u → y < ec_capacity u →
    ec_index (ec_compress u) x = ec_index (ec_compress u) y ↔ ec_findLeader u x = ec_findLeader u y;
  index_bound u x : x < ec_capacity u → ec_index (ec_compress u) x < ec_getNumClasses (ec_compress u)
}.

(** * [UnionFind] *)

Module UnionFind.
Section union_find.
Context {U : Type} `{!IntEqClasses U}.

Definition join (L R : nat) (u : U) : nat * U := ec_join L R u.
Definition find (u : U) (Val : nat) : nat := ec_findLeader u Val.
Definition grow (NewSz : nat) (u : U) : U := ec_grow NewSz u.

(** [compress() &&]: the compressed view of the classes. *)
Definition compress (u : U) : U := ec_compress u.
End union_find.
End UnionFind.

Module CompressedUnionFind.
Section compressed.
Context {U : Type} `{!IntEqClasses U}.

Definition numClasses (u : U) : nat := ec_getNumClasses u.
Definition at_ (u : U) (Id : nat) : nat := ec_index u Id.
End compressed.
End CompressedUnionFind.

(** * The partition of a union-find *)

Section partition.
Context {U : Type} `{!IntEqClasses U} `{!IntEqClassesLaws U}.
Implicit Types u : U.
Import UnionFind.

(** Two integers are in one class. *)
Definition same u (x y : nat) : Prop := find u x = find u y.

#[global] Instance same_equivalence u : Equivalence (same u).
Proof. unfold same. split; repeat intro; congruence. Qed.

#[global] Instance same_dec u x y : Decision (same u x y).
Proof. unfold same. apply _. Defined.

Lemma find_lt u x : x < ec_capacity u → find u x < ec_capacity u.
Proof. intros Hx. pose proof (leader_le u x Hx). unfold find. lia. Qed.

Lemma find_find u x : x < ec_capacity u → find u (find u x) = find u x.
Proof. apply leader_idemp. Qed.

Lemma find_same u x : x < ec_capacity u → same u (find u x) x.
Proof. apply find_find. Qed.

Lemma same_grow_old n u x y :
  x < ec_capacity u → y < ec_capacity u → same (grow n u) x y ↔ same u x y.
Proof. intros Hx Hy. unfold same, find, grow. by rewrite !leader_grow_old. Qed.

(** A new integer is alone in its class. *)
Lemma same_grow_new n u x y :
  ec_capacity u ≤ x < n → y < n `max` ec_capacity u → same (grow n u) x y ↔ x = y.
Proof.
  intros Hx Hy. unfold same, find, grow. rewrite (leader_grow_new n u x) by done.
  destruct (decide (y < ec_capacity u)) as [Hlt|Hge].
  - rewrite leader_grow_old by done. pose proof (leader_le u y Hlt). lia.
  - rewrite leader_grow_new by lia. done.
Qed.

(** The partition after a join. *)
Lemma same_join a b u x y :
  a < ec_capacity u → b < ec_capacity u → x < ec_capacity u → y < ec_capacity u →
  same (join a b u).2 x y ↔
    same u x y ∨ ((same u x a ∨ same u x b) ∧ (same u y a ∨ same u y b)).
Proof.
  intros Ha Hb Hx Hy. unfold same, find, join. rewrite !leader_join by done.
  repeat case_decide; split; intros Hs; try tauto; try (destruct Hs; tauto).
  - exfalso. destruct (Nat.min_spec (ec_findLeader u a) (ec_findLeader u b)) as [[_ E]|[_ E]];
      rewrite E in Hs; intuition congruence.
  - destruct Hs as [Hs|]; [|tauto]. exfalso. intuition congruence.
  - exfalso. destruct (Nat.min_spec (ec_findLeader u a) (ec_findLeader u b)) as [[_ E]|[_ E]];
      rewrite E in Hs; intuition congruence.
  - destruct Hs as [Hs|]; [|tauto]. exfalso. intuition congruence.
Qed.

Lemma same_join_l a b u x y :
  a < ec_capacity u → b < ec_capacity u → x < ec_capacity u → y < ec_capacity u →
  same u x y → same (join a b u).2 x y.
Proof. intros Ha Hb Hx Hy Hs. apply same_join; auto. Qed.

(** The new leader is the leader of one of the joined classes. *)
Lemma join_leader a b u :
  a < ec_capacity u → b < ec_capacity u →
  (join a b u).1 = find u a ∨ (join a b u).1 = find u b.
Proof. intros Ha Hb. unfold join, find. rewrite join_result by done. lia. Qed.

Lemma find_join a b u x :
  a < ec_capacity u → b < ec_capacity u → x < ec_capacity u →
  find (join a b u).2 x =
    if decide (same u x a ∨ same u x b) then (join a b u).1 else find u x.
Proof. intros Ha Hb Hx. unfold find, join, same. rewrite leader_join, join_result by done. done. Qed.
End partition.

(** * Ascending iteration of a set of ids *)

Definition ascending (X : gset nat) : list nat := merge_sort (≤)%nat (elements X).

Lemma elem_of_ascending (X : gset nat) (x : nat) : x ∈ ascending X ↔ x ∈ X.
Proof. unfold ascending. rewrite merge_sort_Permutation. apply elem_of_elements. Qed.

Lemma NoDup_ascending (X : gset nat) : NoDup (ascending X).
Proof. unfold ascending. rewrite merge_sort_Permutation. apply NoDup_elements. Qed.

Lemma Sorted_ascending (X : gset nat) : Sorted (≤)%nat (ascending X).
Proof. apply Sorted_merge_sort. intros x y. lia. Qed.

(** * An implementation: the log of calls *)

(** The classes are a table of leaders computed from the calls so far. It
    discharges the laws, and the concrete examples run on it. *)
Module Log.
Inductive call := Grow (n : nat) | Join (a b : nat).

(** The latest call at the head. *)
Definition classes : Type := list call.

Definition relabel (l l' : nat) (t : list nat) : list nat :=
  (λ y, if decide (y = l \/ y = l') then l `min` l' else y) <$> t.

Definition apply (c : call) (t : list nat) : list nat :=
  match c with
  | Grow n => t ++ seq (length t) (n - length t)
  | Join a b =>
    match t !! a, t !! b with Some la, Some lb => relabel la lb t | _, _ => t end
  end.

Definition table (u : classes) : list nat := foldr apply [] u.
Definition leader (u : classes) (x : nat) : nat := default x (table u !! x).
Definition leaders_below (u : classes) (n : nat) : list nat :=
  filter (λ y, leader u y = y) (seq 0 n).

#[export] Instance classes_ops : IntEqClasses classes := {
  ec_empty := [];
  ec_grow n u := Grow n :: u;
  ec_join a b u := (leader u a `min` leader u b, Join a b :: u);
  ec_findLeader := leader;
  ec_compress u := u;
  ec_getNumClasses u := length (leaders_below u (length (table u)));
  ec_index u x := length (leaders_below u (leader u x));
  ec_capacity u := length (table u)
}.

Lemma length_apply c t :
  length (apply c t) = match c with Grow n => n `max` length t | Join _ _ => length t end.
Proof.
  destruct c; simpl.
  - rewrite length_app, length_seq. lia.
  - case_match; [|done]. case_match; [|done]. apply length_fmap.
Qed.

Definition table_ok (t : list nat) : Prop := ∀ x l, t !! x = Some l → l ≤ x ∧ t !! l = Some l.

Lemma apply_ok c t : table_ok t → table_ok (apply c t).
Proof.
  intros Hok x l Hx. destruct c as [n|a b]; simpl in *.
  - rewrite lookup_app in Hx. destruct (t !! x) as [l'|] eqn:Ht; simplify_eq.
    + destruct (Hok x l Ht) as [Hle Hl]. split; [done|]. by apply lookup_app_l_Some.
    + apply lookup_seq in Hx as [-> Hlt]. apply lookup_ge_None in Ht.
      replace (length t + (x - length t)) with x by lia. split; [done|].
      rewrite lookup_app_r by done. apply lookup_seq. lia.
  - destruct (t !! a) as [la|] eqn:Ha; [|by apply Hok].
    destruct (t !! b) as [lb|] eqn:Hb; [|by apply Hok].
    destruct (Hok a la Ha) as [_ Hla]. destruct (Hok b lb Hb) as [_ Hlb].
    unfold relabel in *. rewrite list_lookup_fmap in *.
    destruct (t !! x) as [k|] eqn:Ht; simplify_eq/=. destruct (Hok x k Ht) as [Hle Hk].
    repeat case_decide.
    + split; [lia|]. destruct (Nat.min_spec la lb) as [[? E]|[? E]]; rewrite E;
        [rewrite Hla|rewrite Hlb]; simpl; by rewrite decide_True by tauto.
    + split; [done|]. rewrite Hk. simpl. by rewrite decide_False.
Qed.

Lemma table_is_ok u : table_ok (table u).
Proof. induction u as [|c u IH]; simpl; [by intros x l|by apply apply_ok]. Qed.

Lemma leader_lookup u x : x < length (table u) → table u !! x = Some (leader u x).
Proof. intros [l Hl]%lookup_lt_is_Some. unfold leader. by rewrite Hl. Qed.

Lemma leaders_below_length u n m :
  n ≤ m → length (leaders_below u n) ≤ length (leaders_below u m).
Proof.
  intros Hle. replace m with (n + (m - n)) by lia. unfold leaders_below.
  rewrite seq_app, filter_app, length_app. lia.
Qed.

Lemma leaders_below_lt u n m :
  n < m → leader u n = n → length (leaders_below u n) < length (leaders_below u m).
Proof.
  intros Hlt Hn. apply Nat.lt_le_trans with (length (leaders_below u (S n))).
  - unfold leaders_below. rewrite seq_S, filter_app, length_app. simpl.
    rewrite filter_cons_True by done. simpl. lia.
  - by apply leaders_below_length.
Qed.

#[export] Instance classes_laws : IntEqClassesLaws classes.
Proof.
  split; simpl.
  - done.
  - intros n u. apply (length_apply (Grow n)).
  - intros n u x [l Hl]%lookup_lt_is_Some. unfold leader. simpl.
    by erewrite lookup_app_l_Some by done; rewrite Hl.
  - intros n u x [Hge Hlt]. unfold leader. simpl. rewrite lookup_app_r by done.
    rewrite (lookup_seq_lt (length (table u))) by lia. simpl. lia.
  - intros u x Hx%leader_lookup. by apply table_is_ok in Hx as [??].
  - intros u x Hx%leader_lookup. apply table_is_ok in Hx as [_ Hl].
    unfold leader at 1. by rewrite Hl.
  - intros a b u. apply (length_apply (Join a b)).
  - done.
  - intros a b u x Ha%leader_lookup Hb%leader_lookup Hx%leader_lookup.
    unfold leader at 1. simpl. rewrite Ha, Hb. unfold relabel. rewrite list_lookup_fmap, Hx. done.
  - intros u x y Hx%leader_lookup Hy%leader_lookup. split; [|by intros ->]. intros Heq.
    apply table_is_ok in Hx as [_ Hx]. apply table_is_ok in Hy as [_ Hy].
    assert (leader u (leader u x) = leader u x) as Ex by (unfold leader at 1; by rewrite Hx).
    assert (leader u (leader u y) = leader u y) as Ey by (unfold leader at 1; by rewrite Hy).
    destruct (lt_eq_lt_dec (leader u x) (leader u y)) as [[Hlt|?]|Hlt]; [|done|].
    + apply (leaders_below_lt u) in Hlt; [lia|done].
    + apply (leaders_below_lt u) in Hlt; [lia|done].
  - intros u x Hx%leader_lookup. apply table_is_ok in Hx as [_ Hx].
    apply leaders_below_lt; [by apply lookup_lt_Some in Hx|].
    unfold leader at 1. by rewrite Hx.
Qed.
End Log.
