(* ===== verification/Andersen.v ===== *)
(** The constraint solver of the on-the-fly Andersen-style pointer analysis
    (lib/PhasarLLVM/Pointer/AndersenOTFAA.cpp): points-to sets over inclusion
    constraints, with differential propagation and lazy cycle detection. The
    calls its translation of LLVM IR makes are [call]s; the translation itself
    is not modelled. Node ids are natural numbers; the vectors used as stacks
    have their back at the head. *)
From S2P Require Import Prelude UnionFind.

(** * The state *)

(** [NodeInfo]: the points-to set and the part of it that is still to be
    propagated, the assignment edges, and the constraints that fire for every
    pointee. Each list has a set next to it that guards against duplicates. *)
Record NodeInfo := {
  PtsSet : gset nat;
  PendingPts : gset nat;
  AssignDsts : list nat;
  AssignDstSet : gset nat;
  LoadDsts : list nat;
  LoadDstSet : gset nat;
  StoreSrcs : list nat;
  StoreSrcSet : gset nat;
  MemCopyAsSrc : list nat;
  MemCopyAsSrcSet : gset nat;
  MemCopyAsDst : list nat;
  MemCopyAsDstSet : gset nat
}.

Definition NodeInfo_default : NodeInfo := {|
  PtsSet := ∅; PendingPts := ∅; AssignDsts := []; AssignDstSet := ∅;
  LoadDsts := []; LoadDstSet := ∅; StoreSrcs := []; StoreSrcSet := ∅;
  MemCopyAsSrc := []; MemCopyAsSrcSet := ∅; MemCopyAsDst := []; MemCopyAsDstSet := ∅
|}.

#[export] Instance NodeInfo_inhabited : Inhabited NodeInfo := populate NodeInfo_default.

(** Inserting into both points-to sets, into the pending one, draining it. *)
Definition add_pts (Objs : gset nat) (n : NodeInfo) : NodeInfo :=
  {| PtsSet := Objs ∪ PtsSet n; PendingPts := Objs ∪ PendingPts n;
     AssignDsts := AssignDsts n; AssignDstSet := AssignDstSet n;
     LoadDsts := LoadDsts n; LoadDstSet := LoadDstSet n;
     StoreSrcs := StoreSrcs n; StoreSrcSet := StoreSrcSet n;
     MemCopyAsSrc := MemCopyAsSrc n; MemCopyAsSrcSet := MemCopyAsSrcSet n;
     MemCopyAsDst := MemCopyAsDst n; MemCopyAsDstSet := MemCopyAsDstSet n |}.

Definition set_pending (Objs : gset nat) (n : NodeInfo) : NodeInfo :=
  {| PtsSet := PtsSet n; PendingPts := Objs;
     AssignDsts := AssignDsts n; AssignDstSet := AssignDstSet n;
     LoadDsts := LoadDsts n; LoadDstSet := LoadDstSet n;
     StoreSrcs := StoreSrcs n; StoreSrcSet := StoreSrcSet n;
     MemCopyAsSrc := MemCopyAsSrc n; MemCopyAsSrcSet := MemCopyAsSrcSet n;
     MemCopyAsDst := MemCopyAsDst n; MemCopyAsDstSet := MemCopyAsDstSet n |}.

Definition add_dst (Dst : nat) (n : NodeInfo) : NodeInfo :=
  {| PtsSet := PtsSet n; PendingPts := PendingPts n;
     AssignDsts := AssignDsts n ++ [Dst]; AssignDstSet := {[Dst]} ∪ AssignDstSet n;
     LoadDsts := LoadDsts n; LoadDstSet := LoadDstSet n;
     StoreSrcs := StoreSrcs n; StoreSrcSet := StoreSrcSet n;
     MemCopyAsSrc := MemCopyAsSrc n; MemCopyAsSrcSet := MemCopyAsSrcSet n;
     MemCopyAsDst := MemCopyAsDst n; MemCopyAsDstSet := MemCopyAsDstSet n |}.

(** The four kinds of constraints kept at a pointer. *)
Inductive Kind := KLoad | KStore | KMemSrc | KMemDst.

Definition constraints (k : Kind) (n : NodeInfo) : list nat :=
  match k with
  | KLoad => LoadDsts n | KStore => StoreSrcs n
  | KMemSrc => MemCopyAsSrc n | KMemDst => MemCopyAsDst n
  end.

Definition constraint_set (k : Kind) (n : NodeInfo) : gset nat :=
  match k with
  | KLoad => LoadDstSet n | KStore => StoreSrcSet n
  | KMemSrc => MemCopyAsSrcSet n | KMemDst => MemCopyAsDstSet n
  end.

(** [if (Set.insert(V).second) List.push_back(V)]. *)
Definition add_constraint (k : Kind) (V : nat) (n : NodeInfo) : NodeInfo :=
  if decide (V ∈ constraint_set k n) then n
  else
    {| PtsSet := PtsSet n; PendingPts := PendingPts n;
       AssignDsts := AssignDsts n; AssignDstSet := AssignDstSet n;
       LoadDsts := if k is KLoad then LoadDsts n ++ [V] else LoadDsts n;
       LoadDstSet := if k is KLoad then {[V]} ∪ LoadDstSet n else LoadDstSet n;
       StoreSrcs := if k is KStore then StoreSrcs n ++ [V] else StoreSrcs n;
       StoreSrcSet := if k is KStore then {[V]} ∪ StoreSrcSet n else StoreSrcSet n;
       MemCopyAsSrc := if k is KMemSrc then MemCopyAsSrc n ++ [V] else MemCopyAsSrc n;
       MemCopyAsSrcSet := if k is KMemSrc then {[V]} ∪ MemCopyAsSrcSet n else MemCopyAsSrcSet n;
       MemCopyAsDst := if k is KMemDst then MemCopyAsDst n ++ [V] else MemCopyAsDst n;
       MemCopyAsDstSet := if k is KMemDst then {[V]} ∪ MemCopyAsDstSet n else MemCopyAsDstSet n |}.

(** What [merge] moves out of the absorbed node before anything else: the
    vectors, and it clears the edge guard. *)
Definition moved_out (n : NodeInfo) : NodeInfo :=
  {| PtsSet := PtsSet n; PendingPts := PendingPts n;
     AssignDsts := []; AssignDstSet := ∅;
     LoadDsts := []; LoadDstSet := LoadDstSet n; StoreSrcs := []; StoreSrcSet := StoreSrcSet n;
     MemCopyAsSrc := []; MemCopyAsSrcSet := MemCopyAsSrcSet n;
     MemCopyAsDst := []; MemCopyAsDstSet := MemCopyAsDstSet n |}.

Module Andersen.
Section solver.
Context {U : Type} `{!IntEqClasses U}.

(** The solver's fields; [Fatal] records [report_fatal_error]. *)
Record state := State {
  SCCUf : U;
  Nodes : list NodeInfo;
  PropWorklist : list nat;
  Fatal : bool
}.

Definition initial_state : state := State ec_empty [] [] false.

Definition node (s : state) (V : nat) : NodeInfo := Nodes s !!! V.
Definition upd (V : nat) (f : NodeInfo → NodeInfo) (s : state) : state :=
  State (SCCUf s) (alter f V (Nodes s)) (PropWorklist s) (Fatal s).
Definition push (V : nat) (s : state) : state :=
  State (SCCUf s) (Nodes s) (V :: PropWorklist s) (Fatal s).

Definition inbounds (s : state) (V : nat) : bool := bool_decide (V < length (Nodes s)).

(** * Nodes *)

Definition grow (V : nat) (s : state) : state :=
  if decide (length (Nodes s) ≤ V)
  then State (UnionFind.grow (S V) (SCCUf s))
             (Nodes s ++ replicate (S V - length (Nodes s)) NodeInfo_default)
             (PropWorklist s) (Fatal s)
  else s.

Definition rep (s : state) (V : nat) : nat := UnionFind.find (SCCUf s) V.

(** * Constraint insertion *)

Definition addPointee (Ptr Obj : nat) (s : state) : state :=
  let Ptr := rep s Ptr in
  let s := grow Obj (grow Ptr s) in
  if decide (Obj ∈ PtsSet (node s Ptr)) then s
  else push Ptr (upd Ptr (add_pts {[Obj]}) s).

Definition addAssignEdge (Src Dst : nat) (s : state) : state :=
  let Src := rep s Src in
  let Dst := rep s Dst in
  if decide (Src = Dst) then s
  else if negb (inbounds s Src) || negb (inbounds s Dst)
  then State (SCCUf s) (Nodes s) (PropWorklist s) true
  else if decide (Dst ∈ AssignDstSet (node s Src)) then s
  else
    let s := upd Src (add_dst Dst) s in
    if decide (PtsSet (node s Src) = ∅) then s
    else push Src (upd Src (λ n, set_pending (PendingPts n ∪ PtsSet n) n) s).

Definition addLoad (Ptr Dst : nat) (s : state) : state :=
  let Ptr := rep s Ptr in
  let Dst := rep s Dst in
  let s := grow Dst (grow Ptr s) in
  let ExistingPts := PtsSet (node s Ptr) in
  let s := for_each (ascending ExistingPts) (λ Obj, addAssignEdge Obj Dst) s in
  upd Ptr (add_constraint KLoad Dst) s.

Definition addStore (Ptr Src : nat) (s : state) : state :=
  let Ptr := rep s Ptr in
  let Src := rep s Src in
  let s := grow Src (grow Ptr s) in
  let ExistingPts := PtsSet (node s Ptr) in
  let s := for_each (ascending ExistingPts) (λ Obj, addAssignEdge Src Obj) s in
  upd Ptr (add_constraint KStore Src) s.

(** All edges from one set of objects to another. *)
Definition add_edges (Srcs Dsts : gset nat) : state → state :=
  for_each (ascending Srcs) (λ O1, for_each (ascending Dsts) (λ O2, addAssignEdge O1 O2)).

Definition addMemCopy (SrcPtr DstPtr : nat) (s : state) : state :=
  let SrcPtr := rep s SrcPtr in
  let DstPtr := rep s DstPtr in
  let s := grow DstPtr (grow SrcPtr s) in
  let s := add_edges (PtsSet (node s SrcPtr)) (PtsSet (node s DstPtr)) s in
  upd DstPtr (add_constraint KMemDst SrcPtr) (upd SrcPtr (add_constraint KMemSrc DstPtr) s).

(** * Propagation *)

Definition onNewPointee (PtrRep NewObj : nat) (s : state) : state :=
  let n := node s PtrRep in
  let s := for_each (LoadDsts n) (λ Dst, addAssignEdge NewObj Dst) s in
  let s := for_each (StoreSrcs n) (λ Src, addAssignEdge Src NewObj) s in
  let s := for_each (MemCopyAsSrc n) (λ DstPtr s,
    if inbounds s DstPtr
    then for_each (ascending (PtsSet (node s DstPtr))) (λ O2, addAssignEdge NewObj O2) s
    else s) s in
  for_each (MemCopyAsDst n) (λ SrcPtr s,
    if inbounds s SrcPtr
    then for_each (ascending (PtsSet (node s SrcPtr))) (λ O1, addAssignEdge O1 NewObj) s
    else s) s.

(** [Nodes\[V\].PtsSet.mergeWithDiff(Other, onNewPointee(V, _),
    Nodes\[V\].PendingPts)] of SparseBitSet.h: sets of more than
    [DiffThreshold] elements are merged at once, smaller ones one by one. *)
Definition mergeWithDiff (V : nat) (Other : gset nat) (s : state) : state * bool :=
  if decide (16 < size Other) then
    let Diff := Other ∖ PtsSet (node s V) in
    if decide (Diff = ∅) then (s, false)
    else (for_each (ascending Diff) (onNewPointee V) (upd V (add_pts Diff) s), true)
  else
    for_each (ascending Other) (λ Elem sr,
      if decide (Elem ∈ PtsSet (node sr.1 V)) then sr
      else (onNewPointee V Elem (upd V (add_pts {[Elem]}) sr.1), true)) (s, false).

(** * Merging *)

(** The assignment edges of the absorbed node, at the representative. *)
Definition move_edges (Rep : nat) (NRAssignDsts : list nat) (s : state) : state :=
  for_each NRAssignDsts (λ Dst s,
    let DstRep := rep s Dst in
    if decide (DstRep = Rep) then s else addAssignEdge Rep DstRep s) s.

(** A transferred constraint fires for all pointees of the representative. *)
Definition fire_transferred (k : Kind) (RepPts : gset nat) (V : nat) (s : state) : state :=
  match k with
  | KLoad => for_each (ascending RepPts) (λ Obj, addAssignEdge Obj V) s
  | KStore => for_each (ascending RepPts) (λ Obj, addAssignEdge V Obj) s
  | KMemSrc => if inbounds s V then add_edges RepPts (PtsSet (node s V)) s else s
  | KMemDst => if inbounds s V then add_edges (PtsSet (node s V)) RepPts s else s
  end.

Definition transfer (k : Kind) (Rep : nat) (RepPts : gset nat) (V : nat) (s : state) : state :=
  if decide (V ∈ constraint_set k (node s Rep)) then s
  else fire_transferred k RepPts V (upd Rep (add_constraint k V) s).

(** Everything the absorbed node has goes to the representative. *)
Definition fold_into (Rep NonRep : nat) (s : state) : state :=
  let NR := node s NonRep in
  let s := move_edges Rep (AssignDsts NR) (upd NonRep moved_out s) in
  let s := (mergeWithDiff Rep (PtsSet NR) s).1 in
  let RepPts := PtsSet (node s Rep) in
  let s := for_each (LoadDsts NR) (transfer KLoad Rep RepPts) s in
  let s := for_each (StoreSrcs NR) (transfer KStore Rep RepPts) s in
  let s := for_each (MemCopyAsSrc NR) (transfer KMemSrc Rep RepPts) s in
  let s := for_each (MemCopyAsDst NR) (transfer KMemDst Rep RepPts) s in
  let s := upd NonRep (λ _, NodeInfo_default) s in
  if decide (PendingPts (node s Rep) = ∅) then s else push Rep s.

Definition merge (A B : nat) (s : state) : state * nat :=
  let A := rep s A in
  let B := rep s B in
  if decide (A = B) then (s, A)
  else
    let '(Rep, Uf) := UnionFind.join A B (SCCUf s) in
    let s := State Uf (Nodes s) (PropWorklist s) (Fatal s) in
    let NonRep := if decide (Rep = A) then B else A in
    (fold_into Rep NonRep s, Rep).

(** One successor of a node [U] whose pending pointees are propagated. *)
Definition propagate_to (UPending : gset nat) (VSnap : nat) (us : nat * state) : nat * state :=
  let '(U, s) := us in
  let V := rep s VSnap in
  if decide (V = U) then us
  else if negb (inbounds s V) then us
  else
    let '(s, AddedAny) := mergeWithDiff V UPending s in
    if AddedAny then (U, push V s)
    else if decide (U ∈ AssignDstSet (node s V)) then
      let '(s, Rep) := merge U V s in (Rep, s)
    else (U, s).

(** One iteration of [propagate]: the node at the back of the work list. *)
Definition propagate_step (s : state) : state :=
  match PropWorklist s with
  | [] => s
  | W :: rest =>
    let s := State (SCCUf s) (Nodes s) rest (Fatal s) in
    let U := rep s W in
    if negb (inbounds s U) || bool_decide (PendingPts (node s U) = ∅) then s
    else
      let Dsts := rep s <$> AssignDsts (node s U) in
      let UPending := PendingPts (node s U) in
      let s := upd U (set_pending ∅) s in
      (for_each Dsts (propagate_to UPending) (U, s)).2
  end.

Fixpoint propagate (fuel : nat) (s : state) : option state :=
  match PropWorklist s with
  | [] => Some s
  | _ => match fuel with
         | 0 => None
         | S fuel => propagate fuel (propagate_step s)
         end
  end.

(** * The calls of the translation *)

(** [Node] is the [grow] of [getOrInsertNode]; [Merge] comes from
    [addPtrAlias]. *)
Inductive call :=
  | Node (V : nat)
  | Pointee (Ptr Obj : nat)
  | AssignEdge (Src Dst : nat)
  | Load (Ptr Dst : nat)
  | Store (Ptr Src : nat)
  | MemCopy (SrcPtr DstPtr : nat)
  | Merge (A B : nat)
  | Propagate.

Definition exec (fuel : nat) (c : call) (s : state) : option state :=
  match c with
  | Node V => Some (grow V s)
  | Pointee Ptr Obj => Some (addPointee Ptr Obj s)
  | AssignEdge Src Dst => Some (addAssignEdge Src Dst s)
  | Load Ptr Dst => Some (addLoad Ptr Dst s)
  | Store Ptr Src => Some (addStore Ptr Src s)
  | MemCopy SrcPtr DstPtr => Some (addMemCopy SrcPtr DstPtr s)
  | Merge A B => Some (merge A B s).1
  | Propagate => propagate fuel s
  end.

Fixpoint run (fuel : nat) (cs : list call) (s : state) : option state :=
  match cs with
  | [] => Some s
  | c :: cs => s' ← exec fuel c s; run fuel cs s'
  end.

(** The points-to set of a node: that of its representative. *)
Definition pts (s : state) (V : nat) : gset nat := PtsSet (node s (rep s V)).
End solver.
End Andersen.
