(* ===== verification/AndersenEdges.v ===== *)
(** The state of the Andersen solver: its well-formedness, the order in which
    it grows, and what adding assignment edges does to it. Everything the
    solver does in reaction to a new pointee is a sequence of added edges
    ([edges]), so what an added edge preserves is proved once. *)
From S2P Require Import Prelude UnionFind Andersen.

Section node_info.
Implicit Types n : NodeInfo.

Lemma elem_of_add_constraint k k' V n c :
  (∀ x, x ∈ constraint_set k' n → x ∈ constraints k' n) →
  c ∈ constraints k' (add_constraint k V n) ↔ c ∈ constraints k' n ∨ (k' = k ∧ c = V).
Proof.
  intros Hset. unfold add_constraint. case_decide as Hin.
  - split; [tauto|]. intros [?|[-> ->]]; auto.
  - destruct k, k'; simpl; rewrite ?elem_of_app, ?elem_of_cons, ?elem_of_nil; naive_solver.
Qed.

Lemma add_constraint_set k k' V n :
  (∀ x, x ∈ constraint_set k' n → x ∈ constraints k' n) →
  ∀ x, x ∈ constraint_set k' (add_constraint k V n) → x ∈ constraints k' (add_constraint k V n).
Proof.
  intros Hset x. unfold add_constraint. case_decide; [apply Hset|].
  destruct k, k'; simpl in *; try apply Hset; set_solver.
Qed.

Lemma add_constraint_pts k V n : PtsSet (add_constraint k V n) = PtsSet n.
Proof. unfold add_constraint. by case_decide. Qed.
Lemma add_constraint_pending k V n : PendingPts (add_constraint k V n) = PendingPts n.
Proof. unfold add_constraint. by case_decide. Qed.
Lemma add_constraint_dsts k V n : AssignDsts (add_constraint k V n) = AssignDsts n.
Proof. unfold add_constraint. by case_decide. Qed.
Lemma add_constraint_dst_set k V n : AssignDstSet (add_constraint k V n) = AssignDstSet n.
Proof. unfold add_constraint. by case_decide. Qed.
End node_info.

#[export] Hint Rewrite add_constraint_pts add_constraint_pending add_constraint_dsts
  add_constraint_dst_set : phasar_tables.

Module AndersenEdges.
Import Andersen.
Section edges.
Context {U : Type} `{!IntEqClasses U} `{!IntEqClassesLaws U}.
Implicit Types (s : state (U:=U)) (k : Kind).

Notation len s := (length (Nodes s)).

(** * Reading and updating nodes *)

Lemma node_upd V f s W :
  node (upd V f s) W = if decide (V = W ∧ W < len s) then f (node s W) else node s W.
Proof.
  unfold node, upd. simpl. case_decide as HV.
  - destruct HV as [-> HV]. by apply list_lookup_total_alter_eq.
  - destruct (decide (V = W)) as [->|Hne]; [|by apply list_lookup_total_alter_ne].
    rewrite !list_lookup_total_alt, list_lookup_alter_eq, lookup_ge_None_2 by lia. done.
Qed.

Lemma node_ge s V : len s ≤ V → node s V = NodeInfo_default.
Proof. intros HV. unfold node. by rewrite list_lookup_total_alt, lookup_ge_None_2. Qed.

Lemma len_upd V f s : len (upd V f s) = len s.
Proof. apply length_alter. Qed.

Lemma rep_upd V f s W : rep (upd V f s) W = rep s W.
Proof. done. Qed.

Lemma upd_upd V f g s : upd V f (upd V g s) = upd V (λ n, f (g n)) s.
Proof.
  unfold upd. simpl. f_equal. apply list_eq. intros i. rewrite !list_lookup_alter.
  case_decide as HV; [|done]. subst i. rewrite decide_True by done. by destruct (Nodes s !! V).
Qed.

(** * Well-formed states *)

Record wf s : Prop := {
  wf_capacity : ec_capacity (SCCUf s) = len s;
  wf_pts V o : o ∈ PtsSet (node s V) → o < len s;
  wf_pending V o : o ∈ PendingPts (node s V) → o ∈ PtsSet (node s V);
  wf_dsts V d : d ∈ AssignDsts (node s V) → d < len s;
  wf_dst_set V d : d ∈ AssignDstSet (node s V) → d ∈ AssignDsts (node s V);
  wf_constraints k V c : c ∈ constraints k (node s V) → c < len s;
  wf_constraint_set k V c :
    rep s V = V → c ∈ constraint_set k (node s V) → c ∈ constraints k (node s V);
  wf_worklist V : V ∈ PropWorklist s → V < len s;
  wf_fatal : Fatal s = false
}.

Lemma rep_lt s V : wf s → V < len s → rep s V < len s.
Proof. intros Hwf HV. rewrite <-(wf_capacity s Hwf) in *. by apply find_lt. Qed.

Lemma rep_rep s V : wf s → V < len s → rep s (rep s V) = rep s V.
Proof. intros Hwf HV. apply find_find. by rewrite wf_capacity. Qed.

(** ** What a state says about two nodes *)

Definition edge s (x y : nat) : Prop :=
  rep s x = rep s y ∨ ∃ v, v ∈ AssignDsts (node s (rep s x)) ∧ rep s v = rep s y.

Definition has_constraint k s (x c : nat) : Prop := c ∈ constraints k (node s (rep s x)).

(** * The order in which states grow *)

Record ext s s' : Prop := {
  ext_len : len s ≤ len s';
  ext_rep x y : x < len s → y < len s → rep s x = rep s y → rep s' x = rep s' y;
  ext_live x : x < len s → rep s' x = x → rep s x = x;
  ext_pts x o : x < len s → o ∈ pts s x → o ∈ pts s' x;
  ext_edge x y : x < len s → y < len s → edge s x y → edge s' x y;
  ext_con k x c : x < len s → has_constraint k s x c → has_constraint k s' x c
}.

#[global] Instance ext_preorder : PreOrder ext.
Proof.
  split.
  - intros s. by split.
  - intros s1 s2 s3 H12 H23. pose proof (ext_len _ _ H12). pose proof (ext_len _ _ H23).
    split; [lia|..].
    + intros x y Hx Hy Hxy. apply (ext_rep _ _ H23); [lia..|]. by apply (ext_rep _ _ H12).
    + intros x Hx Hr. apply (ext_live _ _ H12); [done|]. apply (ext_live _ _ H23); [lia|done].
    + intros x o Hx Ho. apply (ext_pts _ _ H23); [lia|]. by apply (ext_pts _ _ H12).
    + intros x y Hx Hy Hxy. apply (ext_edge _ _ H23); [lia..|]. by apply (ext_edge _ _ H12).
    + intros k x c Hx Hc. apply (ext_con _ _ H23); [lia|]. by apply (ext_con _ _ H12).
Qed.

(** * The invariants of propagation *)

(** A pointee of a node is pending there or known at every successor, up to
    exceptions. *)
Definition propagated (ex : nat → nat → nat → Prop) s : Prop :=
  ∀ u v o, u < len s → rep s u = u → v ∈ AssignDsts (node s u) → o ∈ PtsSet (node s u) →
    o ∈ PendingPts (node s u) ∨ o ∈ pts s v ∨ ex u v o.

(** A node with pending pointees is on the work list, up to exceptions. *)
Definition queued (ex : nat → Prop) s : Prop :=
  ∀ u, u < len s → rep s u = u → PendingPts (node s u) ≠ ∅ →
    (∃ w, w ∈ PropWorklist s ∧ rep s w = u) ∨ ex u.

(** The constraints of a node have fired for its pointees, up to exceptions;
    a copy between two pointers for the pairs of their pointees, as long as both
    represent themselves. *)
Definition fired_at s (u o : nat) : Prop :=
  (∀ d, d ∈ LoadDsts (node s u) → edge s o d)
  ∧ (∀ v, v ∈ StoreSrcs (node s u) → edge s v o)
  ∧ (∀ D o', D ∈ MemCopyAsSrc (node s u) → u ∈ MemCopyAsDst (node s D) →
       D < len s → rep s D = D → o' ∈ PtsSet (node s D) → edge s o o')
  ∧ (∀ S o', S ∈ MemCopyAsDst (node s u) → u ∈ MemCopyAsSrc (node s S) →
       S < len s → rep s S = S → o' ∈ PtsSet (node s S) → edge s o' o).

Definition fired (ex : nat → nat → Prop) s : Prop :=
  ∀ u o, u < len s → rep s u = u → o ∈ PtsSet (node s u) → fired_at s u o ∨ ex u o.

(** * Adding an edge *)

(** Only edges, pending pointees and the work list change. *)
Record same_but_edges s s' : Prop := {
  sbe_uf : SCCUf s' = SCCUf s;
  sbe_len : len s' = len s;
  sbe_pts V : PtsSet (node s' V) = PtsSet (node s V);
  sbe_con k V : constraints k (node s' V) = constraints k (node s V);
  sbe_set k V : constraint_set k (node s' V) = constraint_set k (node s V);
  sbe_pending V o : o ∈ PendingPts (node s V) → o ∈ PendingPts (node s' V);
  sbe_dsts V d : d ∈ AssignDsts (node s V) → d ∈ AssignDsts (node s' V);
  sbe_dst_set V d : d ∈ AssignDstSet (node s V) → d ∈ AssignDstSet (node s' V);
  sbe_worklist V : V ∈ PropWorklist s → V ∈ PropWorklist s'
}.

#[global] Instance same_but_edges_preorder : PreOrder same_but_edges.
Proof.
  split; [by split|]. intros s1 s2 s3 [] []. split; intros; try congruence; eauto.
Qed.

Lemma sbe_rep s s' V : same_but_edges s s' → rep s' V = rep s V.
Proof. intros H. unfold rep. by rewrite (sbe_uf _ _ H). Qed.

Lemma sbe_pts_of s s' V : same_but_edges s s' → pts s' V = pts s V.
Proof. intros H. unfold pts. by rewrite (sbe_rep _ _ _ H), (sbe_pts _ _ H). Qed.

Lemma sbe_edge s s' x y : same_but_edges s s' → edge s x y → edge s' x y.
Proof.
  intros H [Hr|(v & Hv & Hr)]; unfold edge; rewrite !(sbe_rep _ _ _ H); [by left|right].
  exists v. rewrite (sbe_rep _ _ _ H). split; [by apply (sbe_dsts _ _ H)|done].
Qed.

Lemma sbe_ext s s' : same_but_edges s s' → ext s s'.
Proof.
  intros H. split.
  - by rewrite (sbe_len _ _ H).
  - intros x y _ _. by rewrite !(sbe_rep _ _ _ H).
  - intros x _. by rewrite (sbe_rep _ _ _ H).
  - intros x o _. by rewrite (sbe_pts_of _ _ _ H).
  - intros x y _ _. by apply sbe_edge.
  - intros k x c _. unfold has_constraint. by rewrite (sbe_rep _ _ _ H), (sbe_con _ _ H).
Qed.

Lemma sbe_fired_at s s' u o : same_but_edges s s' → fired_at s u o → fired_at s' u o.
Proof.
  intros H (HL & HS & HM & HD). unfold fired_at.
  rewrite (sbe_con _ _ H KLoad u : LoadDsts _ = _), (sbe_con _ _ H KStore u : StoreSrcs _ = _),
    (sbe_con _ _ H KMemSrc u : MemCopyAsSrc _ = _), (sbe_con _ _ H KMemDst u : MemCopyAsDst _ = _).
  rewrite (sbe_len _ _ H). split_and!.
  - intros d Hd. by apply (sbe_edge s), HL.
  - intros v Hv. by apply (sbe_edge s), HS.
  - intros D o'. rewrite (sbe_con _ _ H KMemDst D : MemCopyAsDst _ = _), (sbe_rep _ _ _ H), (sbe_pts _ _ H).
    intros. by apply (sbe_edge s), (HM D).
  - intros S o'. rewrite (sbe_con _ _ H KMemSrc S : MemCopyAsSrc _ = _), (sbe_rep _ _ _ H), (sbe_pts _ _ H).
    intros. by apply (sbe_edge s), (HD S).
Qed.

Lemma sbe_fired ex s s' : same_but_edges s s' → fired ex s → fired ex s'.
Proof.
  intros H Hf u o Hu Hr Ho. rewrite (sbe_len _ _ H) in Hu. rewrite (sbe_rep _ _ _ H) in Hr.
  rewrite (sbe_pts _ _ H) in Ho. destruct (Hf u o Hu Hr Ho) as [?|?]; [left|by right].
  by apply (sbe_fired_at s).
Qed.

(** The three outcomes for allocated nodes. *)
Inductive add_edge_case a b s : state (U:=U) → Prop :=
  | add_edge_known :
      rep s a = rep s b ∨ rep s b ∈ AssignDstSet (node s (rep s a)) → add_edge_case a b s s
  | add_edge_new f s' :
      rep s a ≠ rep s b → rep s b ∉ AssignDstSet (node s (rep s a)) →
      s' = upd (rep s a) f s ∨ s' = push (rep s a) (upd (rep s a) f s) →
      (∀ n, PtsSet (f n) = PtsSet n ∧ AssignDsts (f n) = AssignDsts n ++ [rep s b]
        ∧ AssignDstSet (f n) = {[rep s b]} ∪ AssignDstSet n
        ∧ (∀ k, constraints k (f n) = constraints k n)
        ∧ (∀ k, constraint_set k (f n) = constraint_set k n)) →
      (∀ o, o ∈ PendingPts (node s (rep s a)) → o ∈ PendingPts (f (node s (rep s a)))) →
      (∀ o, o ∈ PendingPts (f (node s (rep s a))) → o ∈ PtsSet (node s (rep s a))) →
      (∀ o, o ∈ PtsSet (node s (rep s a)) → o ∈ PendingPts (f (node s (rep s a)))) →
      (PendingPts (f (node s (rep s a))) ≠ ∅ → rep s a ∈ PropWorklist s') →
      add_edge_case a b s s'.

Lemma addAssignEdge_cases a b s :
  wf s → a < len s → b < len s → add_edge_case a b s (addAssignEdge a b s).
Proof.
  intros Hwf Ha Hb. apply (rep_lt s) in Ha, Hb; [|done..]. unfold addAssignEdge, inbounds.
  case_decide as Hab; [apply add_edge_known; by left|].
  rewrite !bool_decide_eq_true_2 by done. simpl.
  case_decide as Hin; [apply add_edge_known; by right|].
  rewrite node_upd, (decide_True (P:=rep s a = rep s a ∧ _)) by done. simpl.
  case_decide as Hempty.
  - eapply add_edge_new; [done|done|by left|..].
    + intros n. split_and!; try done; by intros [].
    + done.
    + apply (wf_pending s Hwf).
    + rewrite Hempty. set_solver.
    + simpl. intros Hne. exfalso. apply Hne. apply set_eq. intros o. split; [|set_solver].
      intros Ho%(wf_pending s Hwf). by rewrite Hempty in Ho.
  - eapply (add_edge_new _ _ _ (λ n, set_pending (PendingPts n ∪ PtsSet n) (add_dst (rep s b) n)));
      [done|done| |..]; simpl.
    + right. by rewrite upd_upd.
    + intros n. split_and!; try done; by intros [].
    + set_solver.
    + intros o [Ho%(wf_pending s Hwf)|]%elem_of_union; done.
    + set_solver.
    + intros _. by left.
Qed.

(** What one added edge does. *)
Record edge_added a b s s' : Prop := {
  ea_same : same_but_edges s s';
  ea_wf : wf s';
  ea_edge : edge s' a b;
  ea_dsts V d : d ∈ AssignDsts (node s' V) → d ∈ AssignDsts (node s V) ∨ (V = rep s a ∧ d = rep s b);
  ea_propagated ex : propagated ex s → propagated ex s';
  ea_queued ex : queued ex s → queued ex s'
}.

Lemma addAssignEdge_spec a b s :
  wf s → a < len s → b < len s → edge_added a b s (addAssignEdge a b s).
Proof.
  intros Hwf Ha Hb. pose proof (rep_lt s a Hwf Ha) as Hra. pose proof (rep_lt s b Hwf Hb) as Hrb.
  destruct (addAssignEdge_cases a b s Hwf Ha Hb) as [Hk|f s' Hne Hnin Hs' Hf Hp1 Hp2 Hp3 Hw].
  { split; [done|done| |by left|done|done].
    destruct Hk as [Hk|Hk]; [by left|right]. exists (rep s b).
    split; [by apply wf_dst_set|by apply rep_rep]. }
  assert (∀ V, node s' V = if decide (rep s a = V) then f (node s V) else node s V) as Hnode.
  { intros V. replace (node s' V) with (node (upd (rep s a) f s) V) by (by destruct Hs' as [->| ->]).
    rewrite node_upd. repeat case_decide; naive_solver. }
  assert (SCCUf s' = SCCUf s) as Huf by (by destruct Hs' as [->| ->]).
  assert (∀ V, rep s' V = rep s V) as Hrep by (intros V; unfold rep; by rewrite Huf).
  assert (len s' = len s) as Hlen by (destruct Hs' as [->| ->]; apply len_upd).
  assert (∀ V, V ∈ PropWorklist s' → V ∈ PropWorklist s ∨ V = rep s a) as Hwl.
  { destruct Hs' as [->| ->]; simpl; set_solver. }
  assert (same_but_edges s s') as Hsame.
  { split; [done|done|..]; intros; try rewrite Hnode; try case_decide; subst; try done.
    - apply Hf.
    - by destruct (Hf (node s (rep s a))) as (_&_&_&->&_).
    - by destruct (Hf (node s (rep s a))) as (_&_&_&_&->).
    - by apply Hp1.
    - destruct (Hf (node s (rep s a))) as (_&->&_). set_solver.
    - destruct (Hf (node s (rep s a))) as (_&_&->&_). set_solver.
    - by destruct Hs' as [->| ->]; simpl; [|right]. }
  assert (∀ V d, d ∈ AssignDsts (node s' V) →
    d ∈ AssignDsts (node s V) ∨ (V = rep s a ∧ d = rep s b)) as Hdsts.
  { intros V d. rewrite Hnode. case_decide; [|by left]. subst.
    destruct (Hf (node s (rep s a))) as (_&->&_). set_solver. }
  split; [done|..].
  - split.
    + by rewrite Huf, Hlen, wf_capacity.
    + intros V o. rewrite (sbe_pts _ _ Hsame), Hlen. by apply wf_pts.
    + intros V o. rewrite (sbe_pts _ _ Hsame), Hnode. case_decide; subst; [apply Hp2|by apply wf_pending].
    + intros V d [Hd|[-> ->]]%Hdsts; rewrite Hlen; [by eapply wf_dsts|done].
    + intros V d. rewrite Hnode. case_decide; subst; [|by apply wf_dst_set].
      destruct (Hf (node s (rep s a))) as (_&->&->&_). intros [->%elem_of_singleton|?]%elem_of_union;
        [set_solver|apply elem_of_app; left; by apply wf_dst_set].
    + intros k V c. rewrite (sbe_con _ _ Hsame), Hlen. by apply wf_constraints.
    + intros k V c. rewrite (sbe_con _ _ Hsame), (sbe_set _ _ Hsame), Hrep. by apply wf_constraint_set.
    + intros V [HV| ->]%Hwl; rewrite Hlen; [by apply wf_worklist|done].
    + destruct Hs' as [->| ->]; simpl; by apply wf_fatal.
  - right. exists (rep s b). rewrite !Hrep, Hnode, decide_True by done. split; [|by apply rep_rep].
    destruct (Hf (node s (rep s a))) as (_&->&_). set_solver.
  - done.
  - intros ex Hprop u v o. rewrite Hlen, Hrep, (sbe_pts _ _ Hsame), (sbe_pts_of _ _ _ Hsame).
    intros Hu Hr [Hv|[-> ->]]%Hdsts Ho.
    + destruct (Hprop u v o Hu Hr Hv Ho) as [?|?]; [left; by apply (sbe_pending _ _ Hsame)|by right].
    + left. rewrite Hnode, decide_True by done. by apply Hp3.
  - intros ex Hq u. rewrite Hlen, Hrep, Hnode. intros Hu Hr. case_decide as Heq; intros Hpend.
    + subst u. left. exists (rep s a). rewrite Hrep. auto.
    + destruct (Hq u Hu Hr Hpend) as [(w & Hin & Hw')|?]; [left|by right].
      exists w. rewrite Hrep. split; [by apply (sbe_worklist _ _ Hsame)|done].
Qed.

(** * Sequences of added edges *)

Definition edges (P : nat → nat → Prop) : relation (state (U:=U)) :=
  rtc (λ s s', ∃ a b, P a b ∧ a < len s ∧ b < len s ∧ s' = addAssignEdge a b s).

#[global] Instance edges_preorder P : PreOrder (edges P).
Proof. unfold edges. apply _. Qed.

Lemma edges_once (P : nat → nat → Prop) a b s :
  P a b → a < len s → b < len s → edges P s (addAssignEdge a b s).
Proof. intros. apply rtc_once. eauto 6. Qed.

(** An invariant of single additions is one of sequences. *)
Lemma edges_ind (P : nat → nat → Prop) (I : state → Prop) s s' :
  edges P s s' → wf s → I s →
  (∀ a b s, P a b → a < len s → b < len s → wf s → I s → I (addAssignEdge a b s)) →
  wf s' ∧ I s'.
Proof.
  intros Hs Hwf HI Hstep. induction Hs as [|s s1 s2 (a & b & HP & Ha & Hb & ->) _ IH]; [done|].
  apply IH; [by apply (ea_wf _ _ _ _ (addAssignEdge_spec a b s Hwf Ha Hb))|by apply Hstep].
Qed.

Lemma edges_wf P s s' : edges P s s' → wf s → wf s'.
Proof. intros Hs Hwf. by apply (edges_ind P (λ _, True) s s'). Qed.

Lemma edges_same P s s' : edges P s s' → wf s → same_but_edges s s'.
Proof.
  intros Hs Hwf. apply (edges_ind P (same_but_edges s) s s'); [done..|].
  intros a b s1 _ Ha Hb Hwf1 H. etrans; [exact H|]. by apply (ea_same a b), addAssignEdge_spec.
Qed.

Lemma edges_propagated P ex s s' : edges P s s' → wf s → propagated ex s → propagated ex s'.
Proof.
  intros Hs Hwf H. apply (edges_ind P (propagated ex) s s'); [done..|].
  intros a b s1 _ Ha Hb Hwf1. by apply (ea_propagated a b), addAssignEdge_spec.
Qed.

Lemma edges_queued P ex s s' : edges P s s' → wf s → queued ex s → queued ex s'.
Proof.
  intros Hs Hwf H. apply (edges_ind P (queued ex) s s'); [done..|].
  intros a b s1 _ Ha Hb Hwf1. by apply (ea_queued a b), addAssignEdge_spec.
Qed.

Lemma edges_ext P s s' : edges P s s' → wf s → ext s s'.
Proof. intros Hs Hwf. by apply sbe_ext, (edges_same P). Qed.

(** Adding an edge for every element of a list. *)
Lemma edges_for_each {A} (P : nat → nat → Prop) (l : list A) (body : A → state → state)
    (done : A → state → Prop) s :
  wf s →
  (∀ x s', x ∈ l → wf s' → same_but_edges s s' → edges P s' (body x s') ∧ done x (body x s')) →
  (∀ x s1 s2, done x s1 → same_but_edges s1 s2 → done x s2) →
  edges P s (for_each l body s) ∧ ∀ x, x ∈ l → done x (for_each l body s).
Proof.
  intros Hwf Hbody Hkeep.
  apply (for_each_ind (λ l1 s', edges P s s' ∧ ∀ x, x ∈ l1 → done x s')).
  { split; [reflexivity|]. by intros x ?%elem_of_nil. }
  intros l1 x s' Hx [He Hdone]. pose proof (edges_wf _ _ _ He Hwf) as Hwf'.
  destruct (Hbody x s' Hx Hwf' (edges_same _ _ _ He Hwf)) as [He' Hx'].
  split; [by etrans|]. intros y [Hy| ->%list_elem_of_singleton]%elem_of_app; [|done].
  eapply Hkeep; [by apply Hdone|by apply (edges_same P)].
Qed.

Lemma edge_keep x y s s' : edge s x y → same_but_edges s s' → edge s' x y.
Proof. intros. by apply (sbe_edge s). Qed.
End edges.
End AndersenEdges.
