(* ===== verification/AndersenPointees.v ===== *)
(** New pointees in the Andersen solver: what [onNewPointee] and
    [mergeWithDiff] do to the invariants of propagation, and that they add
    nothing that is not in every solution of the constraints ([below]). *)
From S2P Require Import Prelude UnionFind Andersen AndersenEdges.

Module AndersenPointees.
Import Andersen AndersenEdges.
Section pointees.
Context {U : Type} `{!IntEqClasses U} `{!IntEqClassesLaws U}.
Implicit Types (s : state (U:=U)) (k : Kind).

Notation len s := (length (Nodes s)).

(** * States that grow at points-to sets and edges *)

Record grows s s' : Prop := {
  gr_uf : SCCUf s' = SCCUf s;
  gr_len : len s' = len s;
  gr_con k V : constraints k (node s' V) = constraints k (node s V);
  gr_set k V : constraint_set k (node s' V) = constraint_set k (node s V);
  gr_pts V o : o ∈ PtsSet (node s V) → o ∈ PtsSet (node s' V);
  gr_dsts V d : d ∈ AssignDsts (node s V) → d ∈ AssignDsts (node s' V);
  gr_dst_set V d : d ∈ AssignDstSet (node s V) → d ∈ AssignDstSet (node s' V)
}.

#[global] Instance grows_preorder : PreOrder grows.
Proof.
  split; [by split|]. intros s1 s2 s3 [] []. split; intros; try congruence; eauto.
Qed.

Lemma same_grows s s' : same_but_edges s s' → grows s s'.
Proof. intros H. split; try apply H. intros V o. by rewrite (sbe_pts _ _ H). Qed.

Lemma gr_rep s s' V : grows s s' → rep s' V = rep s V.
Proof. intros H. unfold rep. by rewrite (gr_uf _ _ H). Qed.

Lemma gr_pts_of s s' V o : grows s s' → o ∈ pts s V → o ∈ pts s' V.
Proof. intros H. unfold pts. rewrite (gr_rep _ _ _ H). apply (gr_pts _ _ H). Qed.

Lemma gr_edge s s' x y : grows s s' → edge s x y → edge s' x y.
Proof.
  intros H [Hr|(v & Hv & Hr)]; unfold edge; rewrite !(gr_rep _ _ _ H); [by left|right].
  exists v. rewrite (gr_rep _ _ _ H). split; [by apply (gr_dsts _ _ H)|done].
Qed.

Lemma gr_ext s s' : grows s s' → ext s s'.
Proof.
  intros H. split.
  - by rewrite (gr_len _ _ H).
  - intros x y _ _. by rewrite !(gr_rep _ _ _ H).
  - intros x _. by rewrite (gr_rep _ _ _ H).
  - intros x o _. by apply gr_pts_of.
  - intros x y _ _. by apply gr_edge.
  - intros k x c _. unfold has_constraint. by rewrite (gr_rep _ _ _ H), (gr_con _ _ H).
Qed.

(** * Families of edges *)

(** One edge for every element of a list. *)
Lemma edges_list (P : nat → nat → Prop) (f g : nat → nat) (l : list nat) s :
  wf s → (∀ x, x ∈ l → f x < len s ∧ g x < len s ∧ P (f x) (g x)) →
  let s' := for_each l (λ x, addAssignEdge (f x) (g x)) s in
  edges P s s' ∧ ∀ x, x ∈ l → edge s' (f x) (g x).
Proof.
  intros Hwf Hl. apply (edges_for_each P l _ (λ x s', edge s' (f x) (g x))); [done| |].
  - intros x s' (Hf & Hg & HP)%Hl Hwf' Hs. rewrite <-(sbe_len _ _ Hs) in Hf, Hg.
    split; [by apply edges_once|by apply (ea_edge (f x) (g x) s'), addAssignEdge_spec].
  - intros x s1 s2. apply edge_keep.
Qed.

Lemma edges_set (P : nat → nat → Prop) (f g : nat → nat) (X : gset nat) s :
  wf s → (∀ x, x ∈ X → f x < len s ∧ g x < len s ∧ P (f x) (g x)) →
  let s' := for_each (ascending X) (λ x, addAssignEdge (f x) (g x)) s in
  edges P s s' ∧ ∀ x, x ∈ X → edge s' (f x) (g x).
Proof.
  intros Hwf HX. destruct (edges_list P f g (ascending X) s Hwf) as [He Hd].
  - intros x. rewrite elem_of_ascending. apply HX.
  - split; [done|]. intros x Hx. by apply Hd, elem_of_ascending.
Qed.

(** One edge for every pointee of every node of a list. *)
Lemma edges_pointees (P : nat → nat → Prop) (f g : nat → nat) (l : list nat) s :
  wf s →
  (∀ D x, D ∈ l → x ∈ PtsSet (node s D) → f x < len s ∧ g x < len s ∧ P (f x) (g x)) →
  (∀ D, D ∈ l → D < len s) →
  let s' := for_each l (λ D s, if inbounds s D
      then for_each (ascending (PtsSet (node s D))) (λ x, addAssignEdge (f x) (g x)) s
      else s) s in
  edges P s s' ∧ ∀ D x, D ∈ l → x ∈ PtsSet (node s' D) → edge s' (f x) (g x).
Proof.
  intros Hwf Hl HD.
  destruct (edges_for_each P l (λ D s, if inbounds s D
      then for_each (ascending (PtsSet (node s D))) (λ x, addAssignEdge (f x) (g x)) s else s)
    (λ D s', ∀ x, x ∈ PtsSet (node s' D) → edge s' (f x) (g x)) s Hwf) as [He Hd].
  - intros D s' HDin Hwf' Hs. unfold inbounds.
    rewrite bool_decide_eq_true_2 by (rewrite (sbe_len _ _ Hs); auto).
    destruct (edges_set P f g (PtsSet (node s' D)) s' Hwf') as [He Hd].
    + intros x. rewrite (sbe_pts _ _ Hs), (sbe_len _ _ Hs). by apply Hl.
    + split; [done|]. intros x Hx. apply Hd. by rewrite <-(sbe_pts _ _ (edges_same _ _ _ He Hwf')).
  - intros D s1 s2 Hd Hs x Hx. rewrite (sbe_pts _ _ Hs) in Hx. apply (edge_keep _ _ s1); auto.
  - split; [done|]. intros D x HDin. by apply Hd.
Qed.

(** All edges between two sets. *)
Lemma add_edges_spec (P : nat → nat → Prop) (X Y : gset nat) s :
  wf s → (∀ x y, x ∈ X → y ∈ Y → x < len s ∧ y < len s ∧ P x y) →
  edges P s (add_edges X Y s) ∧ ∀ x y, x ∈ X → y ∈ Y → edge (add_edges X Y s) x y.
Proof.
  intros Hwf HXY. destruct (edges_for_each P (ascending X)
    (λ O1, for_each (ascending Y) (λ O2, addAssignEdge O1 O2))
    (λ x s', ∀ y, y ∈ Y → edge s' x y) s Hwf) as [He Hd].
  - intros x s' Hx%elem_of_ascending Hwf' Hs. apply (edges_set P (λ _, x) (λ y, y)); [done|].
    intros y Hy. rewrite (sbe_len _ _ Hs). by apply HXY.
  - intros x s1 s2 Hx Hs y Hy. apply (edge_keep _ _ s1); auto.
  - split; [done|]. intros x y Hx. by apply Hd, elem_of_ascending.
Qed.

(** * [onNewPointee] *)

(** The edges a pointee [o] of [u] asks for are all in [P]. *)
Definition asks (P : nat → nat → Prop) s (u o : nat) : Prop :=
  (∀ d, d ∈ LoadDsts (node s u) → P o d)
  ∧ (∀ v, v ∈ StoreSrcs (node s u) → P v o)
  ∧ (∀ D o', D ∈ MemCopyAsSrc (node s u) → o' ∈ PtsSet (node s D) → P o o')
  ∧ (∀ S o', S ∈ MemCopyAsDst (node s u) → o' ∈ PtsSet (node s S) → P o' o).

Lemma asks_same P s s' u o : same_but_edges s s' → asks P s u o → asks P s' u o.
Proof.
  intros H. unfold asks.
  rewrite (sbe_con _ _ H KLoad u : LoadDsts _ = _), (sbe_con _ _ H KStore u : StoreSrcs _ = _),
    (sbe_con _ _ H KMemSrc u : MemCopyAsSrc _ = _), (sbe_con _ _ H KMemDst u : MemCopyAsDst _ = _).
  intros (?&?&HM&HD). split_and!; [done..| |].
  - intros D o'. rewrite (sbe_pts _ _ H). apply HM.
  - intros S o'. rewrite (sbe_pts _ _ H). apply HD.
Qed.

Lemma onNewPointee_spec P u o s :
  wf s → o < len s → asks P s u o →
  edges P s (onNewPointee u o s) ∧ fired_at (onNewPointee u o s) u o.
Proof.
  intros Hwf Ho (HL & HS & HM & HD). unfold onNewPointee.
  destruct (edges_list P (λ _, o) (λ d, d) (LoadDsts (node s u)) s Hwf) as [He1 Hd1].
  { intros d Hd. split_and!; [done|by apply (wf_constraints s Hwf KLoad u)|auto]. }
  set (s1 := for_each (LoadDsts _) _ s) in *.
  pose proof (edges_same _ _ _ He1 Hwf) as Hs1. pose proof (edges_wf _ _ _ He1 Hwf) as Hwf1.
  destruct (edges_list P (λ v, v) (λ _, o) (StoreSrcs (node s u)) s1 Hwf1) as [He2 Hd2].
  { intros v Hv. rewrite (sbe_len _ _ Hs1). split_and!; [by apply (wf_constraints s Hwf KStore u)|done|auto]. }
  set (s2 := for_each (StoreSrcs _) _ s1) in *.
  pose proof (edges_same _ _ _ He2 Hwf1) as Hs2. pose proof (edges_wf _ _ _ He2 Hwf1) as Hwf2.
  assert (same_but_edges s s2) as Hs02 by (by etrans).
  destruct (edges_pointees P (λ _, o) (λ x, x) (MemCopyAsSrc (node s u)) s2 Hwf2) as [He3 Hd3].
  { intros D x HDin. rewrite (sbe_pts _ _ Hs02), (sbe_len _ _ Hs02).
    intros Hx. split_and!; [done|by eapply wf_pts|by apply (HM D)]. }
  { intros D HDin. rewrite (sbe_len _ _ Hs02). by apply (wf_constraints s Hwf KMemSrc u). }
  set (s3 := for_each (MemCopyAsSrc _) _ s2) in *.
  pose proof (edges_same _ _ _ He3 Hwf2) as Hs3. pose proof (edges_wf _ _ _ He3 Hwf2) as Hwf3.
  assert (same_but_edges s s3) as Hs03 by (by etrans).
  destruct (edges_pointees P (λ x, x) (λ _, o) (MemCopyAsDst (node s u)) s3 Hwf3) as [He4 Hd4].
  { intros D x HDin. rewrite (sbe_pts _ _ Hs03), (sbe_len _ _ Hs03).
    intros Hx. split_and!; [by eapply wf_pts|done|by apply (HD D)]. }
  { intros D HDin. rewrite (sbe_len _ _ Hs03). by apply (wf_constraints s Hwf KMemDst u). }
  set (s4 := for_each (MemCopyAsDst _) _ s3) in *. pose proof (edges_same _ _ _ He4 Hwf3) as Hs4.
  assert (same_but_edges s2 s4) as Hs24 by (by etrans).
  assert (same_but_edges s1 s4) as Hs14 by (by etrans).
  assert (same_but_edges s s4) as Hs04 by (by etrans).
  split; [by rewrite He1, He2, He3|]. unfold fired_at.
  rewrite (sbe_con _ _ Hs04 KLoad u : LoadDsts _ = _), (sbe_con _ _ Hs04 KStore u : StoreSrcs _ = _),
    (sbe_con _ _ Hs04 KMemSrc u : MemCopyAsSrc _ = _), (sbe_con _ _ Hs04 KMemDst u : MemCopyAsDst _ = _).
  split_and!.
  - intros d Hd. apply (edge_keep _ _ s1); auto.
  - intros v Hv. apply (edge_keep _ _ s2); auto.
  - intros D o' HDin _ _ _. rewrite (sbe_pts _ _ Hs4). intros. apply (edge_keep _ _ s3); eauto.
  - intros S o' HSin _ _ _. by apply Hd4.
Qed.

(** * Absorbing a set of pointees *)

(** The part of [mergeWithDiff] that adds something: the new pointees enter
    both sets, and then the constraints fire for each. *)
Definition absorb (V : nat) (D : gset nat) s : state :=
  for_each (ascending D) (onNewPointee V) (upd V (add_pts D) s).

Lemma node_add_pts V D s W :
  V < len s → node (upd V (add_pts D) s) W = if decide (V = W) then add_pts D (node s W) else node s W.
Proof. intros HV. rewrite node_upd. repeat case_decide; naive_solver. Qed.

Lemma constraints_add_pts k D n : constraints k (add_pts D n) = constraints k n.
Proof. by destruct k. Qed.
Lemma constraint_set_add_pts k D n : constraint_set k (add_pts D n) = constraint_set k n.
Proof. by destruct k. Qed.

Lemma add_pts_wf V D s : wf s → V < len s → (∀ o, o ∈ D → o < len s) → wf (upd V (add_pts D) s).
Proof.
  intros Hwf HV HD. split; intros *; rewrite ?len_upd, ?rep_upd, ?node_add_pts by done.
  - apply (wf_capacity s Hwf).
  - case_decide; [|apply (wf_pts s Hwf)]. intros [?|?]%elem_of_union; [auto|by eapply (wf_pts s Hwf)].
  - case_decide; [|apply (wf_pending s Hwf)]. simpl. intros [?|?]%elem_of_union; apply elem_of_union;
      [by left|right; by apply (wf_pending s Hwf)].
  - case_decide; apply (wf_dsts s Hwf).
  - case_decide; apply (wf_dst_set s Hwf).
  - case_decide; rewrite ?constraints_add_pts; apply (wf_constraints s Hwf).
  - case_decide; rewrite ?constraints_add_pts, ?constraint_set_add_pts; apply (wf_constraint_set s Hwf).
  - apply (wf_worklist s Hwf).
  - apply (wf_fatal s Hwf).
Qed.

Lemma add_pts_grows V D s : V < len s → grows s (upd V (add_pts D) s).
Proof.
  intros HV. split; intros *; rewrite ?len_upd, ?node_add_pts by done; try case_decide; try done;
    rewrite ?constraints_add_pts, ?constraint_set_add_pts; try done.
  intros ?. apply elem_of_union. by right.
Qed.

Lemma add_pts_propagated ex V D s :
  V < len s → propagated ex s → propagated ex (upd V (add_pts D) s).
Proof.
  intros HV Hp u v o. rewrite len_upd, rep_upd, node_add_pts by done. intros Hu Hr Hv Ho.
  assert (o ∈ D ∧ u = V ∨ o ∈ PtsSet (node s u)) as [[HoD ->]|Ho'].
  { case_decide; subst; [|by right]. apply elem_of_union in Ho as [?|?]; auto. }
  - left. rewrite decide_True by done. apply elem_of_union. by left.
  - assert (v ∈ AssignDsts (node s u)) as Hv' by (by case_decide).
    destruct (Hp u v o Hu Hr Hv' Ho') as [Hpend|[Hpt|?]]; [left|right; left|by do 2 right].
    + case_decide; [apply elem_of_union; by right|done].
    + by apply (gr_pts_of s), Hpt; apply add_pts_grows.
Qed.

Lemma add_pts_queued ex V D s :
  V < len s → queued ex s → queued (λ u, ex u ∨ u = V) (upd V (add_pts D) s).
Proof.
  intros HV Hq u. rewrite len_upd, rep_upd, node_add_pts by done. intros Hu Hr.
  case_decide; subst; [by do 2 right|]. intros Hp.
  destruct (Hq u Hu Hr Hp) as [?|?]; [by left|right; by left].
Qed.

(** New pointees whose constraints have fired. *)
Lemma add_pts_fired ex V D s s' :
  V < len s → rep s V = V → fired ex s → same_but_edges (upd V (add_pts D) s) s' →
  (∀ o, o ∈ D → fired_at s' V o) → fired ex s'.
Proof.
  intros HV HrV Hf Hs Hnew u o. pose proof (add_pts_grows V D s HV) as Hg.
  assert (grows s s') as Hg' by (etrans; [exact Hg|by apply same_grows]).
  assert (∀ W x, x ∈ PtsSet (node s' W) → x ∈ D ∧ W = V ∨ x ∈ PtsSet (node s W)) as Hpts.
  { intros W x. rewrite (sbe_pts _ _ Hs), node_add_pts by done. case_decide; [|by right].
    intros [?|?]%elem_of_union; auto. }
  rewrite (gr_len _ _ Hg'), (gr_rep _ _ _ Hg'). intros Hu Hr [[Ho ->]|Ho]%Hpts; [left; auto|].
  destruct (Hf u o Hu Hr Ho) as [(HL & HS & HM & HD)|?]; [left|by right]. unfold fired_at.
  rewrite (gr_con _ _ Hg' KLoad u : LoadDsts _ = _), (gr_con _ _ Hg' KStore u : StoreSrcs _ = _),
    (gr_con _ _ Hg' KMemSrc u : MemCopyAsSrc _ = _), (gr_con _ _ Hg' KMemDst u : MemCopyAsDst _ = _).
  assert (o ∈ PtsSet (node s' u)) as Ho' by by apply (gr_pts _ _ Hg').
  split_and!.
  - intros d Hd. apply (gr_edge s); auto.
  - intros v Hv. apply (gr_edge s); auto.
  - intros W o'. rewrite (gr_con _ _ Hg' KMemDst W : MemCopyAsDst _ = _), (gr_len _ _ Hg'), (gr_rep _ _ _ Hg').
    intros HW Hu' HWl HWr [[Ho2 ->]|Ho2]%Hpts; [|by apply (gr_edge s), (HM W)].
    destruct (Hnew o' Ho2) as (_ & _ & _ & HD'). apply (HD' u); try done.
    + by rewrite (gr_con _ _ Hg' KMemDst V : MemCopyAsDst _ = _).
    + by rewrite (gr_con _ _ Hg' KMemSrc u : MemCopyAsSrc _ = _).
    + by rewrite (gr_len _ _ Hg').
    + by rewrite (gr_rep _ _ _ Hg').
  - intros W o'. rewrite (gr_con _ _ Hg' KMemSrc W : MemCopyAsSrc _ = _), (gr_len _ _ Hg'), (gr_rep _ _ _ Hg').
    intros HW Hu' HWl HWr [[Ho2 ->]|Ho2]%Hpts; [|by apply (gr_edge s), (HD W)].
    destruct (Hnew o' Ho2) as (_ & _ & HM' & _). apply (HM' u); try done.
    + by rewrite (gr_con _ _ Hg' KMemSrc V : MemCopyAsSrc _ = _).
    + by rewrite (gr_con _ _ Hg' KMemDst u : MemCopyAsDst _ = _).
    + by rewrite (gr_len _ _ Hg').
    + by rewrite (gr_rep _ _ _ Hg').
Qed.

Lemma absorb_edges P V D s :
  wf s → V < len s → (∀ o, o ∈ D → o < len s) →
  (∀ o, o ∈ D → asks P (upd V (add_pts D) s) V o) →
  edges P (upd V (add_pts D) s) (absorb V D s) ∧ ∀ o, o ∈ D → fired_at (absorb V D s) V o.
Proof.
  intros Hwf HV HD Hasks. pose proof (add_pts_wf V D s Hwf HV HD) as Hwf1.
  destruct (edges_for_each P (ascending D) (onNewPointee V) (λ o s', fired_at s' V o)
    (upd V (add_pts D) s) Hwf1) as [He Hd].
  - intros o s' Ho%elem_of_ascending Hwf' Hs. apply onNewPointee_spec; [done| |].
    + rewrite (sbe_len _ _ Hs), len_upd. auto.
    + apply (asks_same _ (upd V (add_pts D) s)); auto.
  - intros o s1 s2 Ho Hs. by apply (sbe_fired_at s1).
  - split; [done|]. intros o Ho. by apply Hd, elem_of_ascending.
Qed.

Record absorbed V (D : gset nat) s s' : Prop := {
  ab_wf : wf s';
  ab_grows : grows s s';
  ab_pts W : PtsSet (node s' W) = if decide (V = W) then D ∪ PtsSet (node s W) else PtsSet (node s W);
  ab_fired ex : fired ex s → fired ex s';
  ab_propagated ex : propagated ex s → propagated ex s';
  ab_queued ex : queued ex s → queued (λ u, ex u ∨ u = V) s'
}.

(** Only the new pointees count. *)
Lemma absorbed_equiv V D D' s s' :
  (∀ o, o ∈ D ∨ o ∈ PtsSet (node s V) ↔ o ∈ D' ∨ o ∈ PtsSet (node s V)) →
  absorbed V D s s' → absorbed V D' s s'.
Proof.
  intros Heq H. split; try apply H. intros W. rewrite (ab_pts _ _ _ _ H).
  case_decide; [subst|done]. apply set_eq. intros o. rewrite !elem_of_union. apply Heq.
Qed.

Lemma absorbed_refl V s : wf s → absorbed V ∅ s s.
Proof.
  intros Hwf. split; [done|done| |done|done|].
  - intros W. case_decide; [|done]. set_solver.
  - intros ex Hq u Hu Hr Hp. destruct (Hq u Hu Hr Hp); auto.
Qed.

Lemma absorbed_trans V D1 D2 s1 s2 s3 :
  absorbed V D1 s1 s2 → absorbed V D2 s2 s3 → absorbed V (D1 ∪ D2) s1 s3.
Proof.
  intros [] H2. split.
  - apply H2.
  - etrans; [done|apply H2].
  - intros W. rewrite (ab_pts _ _ _ _ H2). case_decide; rewrite ab_pts0; [|by rewrite decide_False].
    rewrite decide_True by done. set_solver.
  - intros ex ?. apply H2. auto.
  - intros ex ?. apply H2. auto.
  - intros ex ?. intros u Hu Hr Hp.
    assert (queued (λ u, ex u ∨ u = V) s2) as Hq by auto. apply (ab_queued _ _ _ _ H2) in Hq.
    destruct (Hq u Hu Hr Hp) as [?|[?|?]]; auto.
Qed.

Lemma absorb_spec V D s :
  wf s → V < len s → rep s V = V → (∀ o, o ∈ D → o < len s) → absorbed V D s (absorb V D s).
Proof.
  intros Hwf HV Hr HD. pose proof (add_pts_wf V D s Hwf HV HD) as Hwf1.
  destruct (absorb_edges (λ _ _, True) V D s Hwf HV HD) as [He Hd]; [done|].
  pose proof (edges_same _ _ _ He Hwf1) as Hs. split.
  - by apply (edges_wf _ _ _ He).
  - etrans; [by apply add_pts_grows|by apply same_grows].
  - intros W. rewrite (sbe_pts _ _ Hs), node_add_pts by done. by case_decide.
  - intros ex Hf. by apply (add_pts_fired ex V D s).
  - intros ex Hp. apply (edges_propagated _ _ _ _ He Hwf1). by apply add_pts_propagated.
  - intros ex Hq. apply (edges_queued _ _ _ _ He Hwf1). by apply add_pts_queued.
Qed.

Lemma absorb_singleton V o s :
  absorb V {[o]} s = onNewPointee V o (upd V (add_pts {[o]}) s).
Proof.
  unfold absorb. replace (ascending {[o]}) with [o]; [done|].
  unfold ascending. by rewrite elements_singleton.
Qed.

(** * [mergeWithDiff] *)

(** It is a sequence of absorptions of new pointees, or it does nothing. *)
Lemma mergeWithDiff_steps V Other s (I : state → Prop) :
  wf s → V < len s → rep s V = V → (∀ o, o ∈ Other → o < len s) → I s →
  (∀ D s1, absorbed V (PtsSet (node s1 V) ∖ PtsSet (node s V)) s s1 → I s1 →
     D ⊆ Other → D ≠ ∅ → D ## PtsSet (node s1 V) → I (absorb V D s1)) →
  let '(s', r) := mergeWithDiff V Other s in
  absorbed V Other s s' ∧ I s' ∧
  if r then ¬ Other ⊆ PtsSet (node s V) else s' = s ∧ Other ⊆ PtsSet (node s V).
Proof.
  intros Hwf HV Hr HO HI Hstep. unfold mergeWithDiff. case_decide as Hbig.
  - case_decide as Hempty.
    + split_and!; [|done|done|intros o; destruct (decide (o ∈ PtsSet (node s V))); set_solver].
      apply (absorbed_equiv V ∅); [|by apply absorbed_refl].
      intros o. destruct (decide (o ∈ PtsSet (node s V))); set_solver.
    + set (D := Other ∖ PtsSet (node s V)) in *. fold (absorb V D s).
      assert (absorbed V D s (absorb V D s)) as Hab by (apply absorb_spec; [done..|]; set_solver).
      split_and!; [|apply Hstep; [|done|set_solver..]|set_solver].
      * apply (absorbed_equiv V D); [|done]. intros o. destruct (decide (o ∈ PtsSet (node s V))); set_solver.
      * apply (absorbed_equiv V ∅); [set_solver|by apply absorbed_refl].
  - set (body := λ Elem sr, if decide (Elem ∈ PtsSet (node sr.1 V)) then sr
      else (onNewPointee V Elem (upd V (add_pts {[Elem]}) sr.1), true)).
    pose (J := λ l1 (sr : state * bool),
      absorbed V (list_to_set l1) s sr.1 ∧ I sr.1
      ∧ if sr.2 then ¬ list_to_set l1 ⊆ PtsSet (node s V)
        else sr.1 = s ∧ list_to_set l1 ⊆ PtsSet (node s V)).
    assert (J (ascending Other) (for_each (ascending Other) body (s, false))) as HJ.
    { apply for_each_ind.
      - unfold J. simpl. split_and!; [by apply absorbed_refl|done|done|set_solver].
      - intros l1 o [s1 r] Ho (Hab & HI1 & Hres). apply elem_of_ascending in Ho.
        unfold body, J in *. simpl in *. rewrite list_to_set_app_L. simpl. rewrite union_empty_r_L.
        pose proof (ab_pts _ _ _ _ Hab V) as Hpts. rewrite decide_True in Hpts by done.
        pose proof (ab_grows _ _ _ _ Hab) as Hg. case_decide as Hin; simpl.
        + split_and!; [|done|destruct r; set_solver].
          apply (absorbed_equiv V (list_to_set l1)); [set_solver|done].
        + rewrite <-absorb_singleton. split_and!; [| |set_solver].
          * apply (absorbed_trans _ _ _ _ s1); [done|]. apply absorb_spec; [apply Hab|..].
            -- by rewrite (gr_len _ _ Hg).
            -- by rewrite (gr_rep _ _ _ Hg).
            -- intros x ->%elem_of_singleton. rewrite (gr_len _ _ Hg). auto.
          * apply Hstep; [|done|set_solver..].
            apply (absorbed_equiv V (list_to_set l1)); [|done].
            intros x. destruct (decide (x ∈ PtsSet (node s V))); set_solver. }
    destruct (for_each _ body _) as [s' r]. unfold J in HJ. simpl in HJ.
    replace (list_to_set (ascending Other)) with Other in HJ; [done|].
    apply set_eq. intros o. by rewrite elem_of_list_to_set, elem_of_ascending.
Qed.

Lemma mergeWithDiff_spec V Other s :
  wf s → V < len s → rep s V = V → (∀ o, o ∈ Other → o < len s) →
  let '(s', r) := mergeWithDiff V Other s in
  absorbed V Other s s' ∧ if r then ¬ Other ⊆ PtsSet (node s V) else s' = s ∧ Other ⊆ PtsSet (node s V).
Proof.
  intros. pose proof (mergeWithDiff_steps V Other s (λ _, True)) as Hm.
  destruct (mergeWithDiff V Other s). naive_solver.
Qed.

(** * Staying below a solution *)

Section below.
Context (σ : nat → nat → Prop).

Definition includes (x y : nat) : Prop := ∀ o, σ x o → σ y o.

(** What a constraint kept at node [x] asks of an assignment. *)
Definition holds k (x c : nat) : Prop :=
  match k with
  | KLoad => ∀ o, σ x o → includes o c
  | KStore => ∀ o, σ x o → includes c o
  | KMemSrc => ∀ o o', σ x o → σ c o' → includes o o'
  | KMemDst => ∀ o o', σ c o → σ x o' → includes o o'
  end.

(** Everything in the state holds in [σ]. *)
Record below s : Prop := {
  bl_rep x y o : x < len s → y < len s → rep s x = rep s y → σ x o → σ y o;
  bl_pts V o : o ∈ PtsSet (node s V) → σ V o;
  bl_dsts V d : d ∈ AssignDsts (node s V) → includes V d;
  bl_con k V c : c ∈ constraints k (node s V) → holds k V c
}.

Lemma below_edge a b s :
  wf s → a < len s → b < len s → includes a b → below s → below (addAssignEdge a b s).
Proof.
  intros Hwf Ha Hb Hab Hbl. destruct (addAssignEdge_spec a b s Hwf Ha Hb) as [Hs _ _ Hd _ _].
  pose proof (rep_lt s a Hwf Ha). pose proof (rep_lt s b Hwf Hb). split.
  - intros x y o. rewrite (sbe_len _ _ Hs), !(sbe_rep _ _ _ Hs). apply (bl_rep s Hbl).
  - intros V o. rewrite (sbe_pts _ _ Hs). apply (bl_pts s Hbl).
  - intros V d [?|[-> ->]]%Hd; [by apply (bl_dsts s Hbl)|]. intros o Ho.
    apply (bl_rep s Hbl b); [done..|by rewrite rep_rep|]. apply Hab.
    apply (bl_rep s Hbl (rep s a)); [done..|by apply rep_rep|done].
  - intros k V c. rewrite (sbe_con _ _ Hs). apply (bl_con s Hbl).
Qed.

Lemma below_edges s s' : edges includes s s' → wf s → below s → below s'.
Proof.
  intros He Hwf Hbl. apply (edges_ind includes below s s' He Hwf Hbl).
  intros. by apply below_edge.
Qed.

Lemma below_asks s u o : below s → σ u o → asks includes s u o.
Proof.
  intros Hbl Ho. split_and!.
  - intros d Hd. by apply (bl_con s Hbl KLoad u d Hd).
  - intros v Hv. by apply (bl_con s Hbl KStore u v Hv).
  - intros D o' HD Ho'%(bl_pts s Hbl). by apply (bl_con s Hbl KMemSrc u D HD).
  - intros S o' HS Ho'%(bl_pts s Hbl). by apply (bl_con s Hbl KMemDst u S HS).
Qed.

Lemma below_add_pts V D s :
  V < len s → (∀ o, o ∈ D → σ V o) → below s → below (upd V (add_pts D) s).
Proof.
  intros HV HD Hbl. split; intros *; rewrite ?len_upd, ?rep_upd, ?node_add_pts by done.
  - apply (bl_rep s Hbl).
  - case_decide; [subst|apply (bl_pts s Hbl)]. intros [?|?]%elem_of_union; [auto|by apply (bl_pts s Hbl)].
  - case_decide; apply (bl_dsts s Hbl).
  - case_decide; rewrite ?constraints_add_pts; apply (bl_con s Hbl).
Qed.

Lemma below_absorb V D s :
  wf s → V < len s → (∀ o, o ∈ D → o < len s) → (∀ o, o ∈ D → σ V o) →
  below s → below (absorb V D s).
Proof.
  intros Hwf HV HD Hσ Hbl. pose proof (below_add_pts V D s HV Hσ Hbl) as Hbl1.
  apply (below_edges (upd V (add_pts D) s)); [|by apply add_pts_wf|done].
  apply absorb_edges; [done..|]. intros o Ho. apply below_asks; auto.
Qed.

Lemma below_mergeWithDiff V Other s :
  wf s → V < len s → rep s V = V → (∀ o, o ∈ Other → o < len s) → (∀ o, o ∈ Other → σ V o) →
  below s → below (mergeWithDiff V Other s).1.
Proof.
  intros Hwf HV Hr HO Hσ Hbl.
  pose proof (mergeWithDiff_steps V Other s below Hwf HV Hr HO Hbl) as Hm.
  destruct (mergeWithDiff V Other s). apply Hm.
  intros D s1 Hab Hbl1 HD _ _. pose proof (ab_grows _ _ _ _ Hab) as Hg.
  apply below_absorb; [apply Hab|by rewrite (gr_len _ _ Hg)| |set_solver|done].
  intros o Ho. rewrite (gr_len _ _ Hg). set_solver.
Qed.
End below.
End pointees.
End AndersenPointees.
