(* ===== verification/AndersenMerge.v ===== *)
(** Merging two nodes of the Andersen solver: the absorbed node's pointees,
    edges and constraints go to the representative, and every invariant of
    propagation survives. *)
From S2P Require Import Prelude UnionFind Andersen AndersenEdges AndersenPointees.

Module AndersenMerge.
Import Andersen AndersenEdges AndersenPointees.
Section merge.
Context {U : Type} `{!IntEqClasses U} `{!IntEqClassesLaws U}.
Implicit Types (s t : state (U:=U)) (k : Kind).

Notation len s := (length (Nodes s)).

(** * Adding a constraint *)

(** What the pointees [RepPts] of [V] owe to a constraint [c]. *)
Definition owed k s (RepPts : gset nat) (c : nat) : Prop :=
  ∀ o, o ∈ RepPts →
    match k with
    | KLoad => edge s o c
    | KStore => edge s c o
    | KMemSrc => ∀ o', o' ∈ PtsSet (node s c) → edge s o o'
    | KMemDst => ∀ o', o' ∈ PtsSet (node s c) → edge s o' o
    end.

(** A new constraint at [V], whose edges are there, and otherwise only edges. *)
Record constrained V (new : list (Kind * nat)) s s' : Prop := {
  cn_wf : wf s';
  cn_uf : SCCUf s' = SCCUf s;
  cn_len : len s' = len s;
  cn_pts W : PtsSet (node s' W) = PtsSet (node s W);
  cn_edge x y : edge s x y → edge s' x y;
  cn_con k W c : c ∈ constraints k (node s' W) ↔
    c ∈ constraints k (node s W) ∨ (W = V ∧ (k, c) ∈ new);
  cn_owed k c : (k, c) ∈ new → owed k s' (PtsSet (node s' V)) c;
  cn_propagated ex : propagated ex s → propagated ex s';
  cn_queued ex : queued ex s → queued ex s'
}.

Lemma cn_rep V new s s' W : constrained V new s s' → rep s' W = rep s W.
Proof. intros H. unfold rep. by rewrite (cn_uf _ _ _ _ H). Qed.

Lemma constrained_refl V s : wf s → constrained V [] s s.
Proof. intros Hwf. split; try done. - intros k W c. set_solver. - by intros k c ?%elem_of_nil. Qed.

Lemma owed_keep k s s' RepPts c :
  (∀ x y, edge s x y → edge s' x y) → (∀ W, PtsSet (node s' W) = PtsSet (node s W)) →
  owed k s RepPts c → owed k s' RepPts c.
Proof.
  intros He Hp Ho o Hin. specialize (Ho o Hin). destruct k; auto.
  - intros o'. rewrite Hp. auto.
  - intros o'. rewrite Hp. auto.
Qed.

Lemma constrained_trans V new1 new2 s1 s2 s3 :
  constrained V new1 s1 s2 → constrained V new2 s2 s3 → constrained V (new1 ++ new2) s1 s3.
Proof.
  intros H1 H2. split.
  - apply H2.
  - rewrite (cn_uf _ _ _ _ H2). apply H1.
  - rewrite (cn_len _ _ _ _ H2). apply H1.
  - intros W. rewrite (cn_pts _ _ _ _ H2). apply H1.
  - intros x y Hxy. by apply H2, H1.
  - intros k W c. rewrite (cn_con _ _ _ _ H2), (cn_con _ _ _ _ H1). set_solver.
  - intros k c [Hc|Hc]%elem_of_app; [|by apply H2].
    rewrite (cn_pts _ _ _ _ H2). apply (owed_keep k s2); [apply H2|apply H2|by apply H1].
  - intros ex Hp. by apply H2, H1.
  - intros ex Hp. by apply H2, H1.
Qed.

Lemma constrained_ext V new s s' : constrained V new s s' → ext s s'.
Proof.
  intros H. split.
  - by rewrite (cn_len _ _ _ _ H).
  - intros x y _ _. by rewrite !(cn_rep _ _ _ _ _ H).
  - intros x _. by rewrite (cn_rep _ _ _ _ _ H).
  - intros x o _. unfold pts. by rewrite (cn_rep _ _ _ _ _ H), (cn_pts _ _ _ _ H).
  - intros x y _ _. apply H.
  - intros k x c _. unfold has_constraint. rewrite (cn_rep _ _ _ _ _ H), (cn_con _ _ _ _ H). auto.
Qed.

(** The new constraints have fired, too. *)
Lemma constrained_fired V new ex s s' :
  V < len s → rep s V = V → constrained V new s s' → fired ex s → fired ex s'.
Proof.
  intros HV HrV H Hf u o. rewrite (cn_len _ _ _ _ H), (cn_rep _ _ _ _ _ H), (cn_pts _ _ _ _ H).
  intros Hu Hr Ho. destruct (Hf u o Hu Hr Ho) as [(HL & HS & HM & HD)|?]; [left|by right].
  split_and!.
  - intros d [Hd|[-> Hd]]%(cn_con _ _ _ _ H KLoad); [by apply H, HL|].
    apply (cn_owed _ _ _ _ H _ _ Hd). by rewrite (cn_pts _ _ _ _ H).
  - intros v [Hv|[-> Hv]]%(cn_con _ _ _ _ H KStore); [by apply H, HS|].
    apply (cn_owed _ _ _ _ H _ _ Hv). by rewrite (cn_pts _ _ _ _ H).
  - intros D o' [HDin|[-> HDin]]%(cn_con _ _ _ _ H KMemSrc) Hback.
    + apply (cn_con _ _ _ _ H KMemDst) in Hback as [Hback|[-> Hback]].
      * rewrite (cn_len _ _ _ _ H), (cn_rep _ _ _ _ _ H), (cn_pts _ _ _ _ H). intros.
        by apply H, (HM D).
      * intros _ _ Ho'. apply (cn_owed _ _ _ _ H _ _ Hback o'); [done|]. by rewrite (cn_pts _ _ _ _ H).
    + intros _ _ Ho'. apply (cn_owed _ _ _ _ H _ _ HDin o); [by rewrite (cn_pts _ _ _ _ H)|done].
  - intros S o' [HSin|[-> HSin]]%(cn_con _ _ _ _ H KMemDst) Hback.
    + apply (cn_con _ _ _ _ H KMemSrc) in Hback as [Hback|[-> Hback]].
      * rewrite (cn_len _ _ _ _ H), (cn_rep _ _ _ _ _ H), (cn_pts _ _ _ _ H). intros.
        by apply H, (HD S).
      * intros _ _ Ho'. apply (cn_owed _ _ _ _ H _ _ Hback o'); [done|]. by rewrite (cn_pts _ _ _ _ H).
    + intros _ _ Ho'. apply (cn_owed _ _ _ _ H _ _ HSin o); [by rewrite (cn_pts _ _ _ _ H)|done].
Qed.

Lemma node_add_constraint k V c s W :
  V < len s →
  node (upd V (add_constraint k c) s) W = if decide (V = W) then add_constraint k c (node s W) else node s W.
Proof. intros HV. rewrite node_upd. repeat case_decide; naive_solver. Qed.

Lemma add_constraint_wf k V c s :
  wf s → V < len s → rep s V = V → c < len s → wf (upd V (add_constraint k c) s).
Proof.
  intros Hwf HV HrV Hc.
  split; intros *; rewrite ?len_upd, ?rep_upd, ?node_add_constraint by done.
  - apply (wf_capacity s Hwf).
  - case_decide; autorewrite with phasar_tables; apply (wf_pts s Hwf).
  - case_decide; autorewrite with phasar_tables; apply (wf_pending s Hwf).
  - case_decide; autorewrite with phasar_tables; apply (wf_dsts s Hwf).
  - case_decide; autorewrite with phasar_tables; apply (wf_dst_set s Hwf).
  - case_decide; [subst|apply (wf_constraints s Hwf)].
    rewrite elem_of_add_constraint; [|intros x; by apply (wf_constraint_set s Hwf)].
    intros [?|[_ ->]]; [by eapply (wf_constraints s Hwf)|done].
  - case_decide; [subst|apply (wf_constraint_set s Hwf)]. intros _.
    apply add_constraint_set. intros x. by apply (wf_constraint_set s Hwf).
  - apply (wf_worklist s Hwf).
  - apply (wf_fatal s Hwf).
Qed.

Lemma below_add_constraint σ k V c s :
  wf s → V < len s → rep s V = V → holds σ k V c → below σ s → below σ (upd V (add_constraint k c) s).
Proof.
  intros Hwf HV HrV Hh Hbl. split; intros *; rewrite ?len_upd, ?rep_upd, ?node_add_constraint by done.
  - apply (bl_rep σ s Hbl).
  - case_decide; autorewrite with phasar_tables; apply (bl_pts σ s Hbl).
  - case_decide; autorewrite with phasar_tables; apply (bl_dsts σ s Hbl).
  - case_decide; [subst|apply (bl_con σ s Hbl)].
    rewrite elem_of_add_constraint by (intros x; by apply (wf_constraint_set s Hwf)).
    intros [?|[-> ->]]; [by apply (bl_con σ s Hbl)|done].
Qed.

(** A constraint is added, and then the edges it asks for. *)
Lemma constrain_then_edges P k V c s s' :
  wf s → V < len s → rep s V = V → c < len s →
  edges P (upd V (add_constraint k c) s) s' →
  owed k s' (PtsSet (node s V)) c → constrained V [(k, c)] s s'.
Proof.
  intros Hwf HV HrV Hc He Ho. pose proof (add_constraint_wf k V c s Hwf HV HrV Hc) as Hwf1.
  pose proof (edges_same _ _ _ He Hwf1) as Hs.
  assert (∀ W, PtsSet (node s' W) = PtsSet (node s W)) as Hpts.
  { intros W. rewrite (sbe_pts _ _ Hs), node_add_constraint by done.
    case_decide; by autorewrite with phasar_tables. }
  assert (∀ W, AssignDsts (node (upd V (add_constraint k c) s) W) = AssignDsts (node s W)) as Hd.
  { intros W. rewrite node_add_constraint by done. case_decide; by autorewrite with phasar_tables. }
  assert (∀ W, PendingPts (node (upd V (add_constraint k c) s) W) = PendingPts (node s W)) as Hpd.
  { intros W. rewrite node_add_constraint by done. case_decide; by autorewrite with phasar_tables. }
  assert (∀ W, PtsSet (node (upd V (add_constraint k c) s) W) = PtsSet (node s W)) as Hpt.
  { intros W. rewrite node_add_constraint by done. case_decide; by autorewrite with phasar_tables. }
  split.
  - by apply (edges_wf _ _ _ He).
  - by rewrite (sbe_uf _ _ Hs).
  - rewrite (sbe_len _ _ Hs). apply len_upd.
  - done.
  - intros x y Hxy. apply (edge_keep _ _ (upd V (add_constraint k c) s)); [|done].
    destruct Hxy as [?|(v & Hv & ?)]; [by left|right]. exists v. by rewrite Hd.
  - intros k' W x. rewrite (sbe_con _ _ Hs), node_add_constraint by done. case_decide as Hdec.
    + subst W. rewrite elem_of_add_constraint by (intros y; by apply (wf_constraint_set s Hwf)).
      rewrite list_elem_of_singleton. naive_solver.
    + naive_solver.
  - intros k' x [= -> ->]%list_elem_of_singleton. by rewrite Hpts.
  - intros ex Hp. apply (edges_propagated _ _ _ _ He Hwf1).
    intros u v o. rewrite len_upd, rep_upd, Hd, Hpd, Hpt. unfold pts. rewrite Hpt. apply Hp.
  - intros ex Hq. apply (edges_queued _ _ _ _ He Hwf1). intros u. rewrite len_upd, rep_upd, Hpd. apply Hq.
Qed.

Lemma edges_constrained P V s s' : edges P s s' → wf s → constrained V [] s s'.
Proof.
  intros He Hwf. pose proof (edges_same _ _ _ He Hwf) as Hs. split; try apply Hs.
  - by apply (edges_wf _ _ _ He).
  - intros x y Hxy. by apply (edge_keep _ _ s).
  - intros k W c. rewrite (sbe_con _ _ Hs). set_solver.
  - by intros k c ?%elem_of_nil.
  - intros ex. by apply (edges_propagated _ _ _ _ He).
  - intros ex. by apply (edges_queued _ _ _ _ He).
Qed.

(** * Transferring a constraint *)

(** The edges a constraint asks for are in [P]. *)
Definition asks_for (P : nat → nat → Prop) k s (RepPts : gset nat) (c : nat) : Prop :=
  ∀ o, o ∈ RepPts →
    match k with
    | KLoad => P o c
    | KStore => P c o
    | KMemSrc => ∀ o', o' ∈ PtsSet (node s c) → P o o'
    | KMemDst => ∀ o', o' ∈ PtsSet (node s c) → P o' o
    end.

Lemma fire_transferred_spec P k RepPts c s :
  wf s → c < len s → (∀ o, o ∈ RepPts → o < len s) → asks_for P k s RepPts c →
  edges P s (fire_transferred k RepPts c s) ∧ owed k (fire_transferred k RepPts c s) RepPts c.
Proof.
  intros Hwf Hc HR Hask. pose proof (wf_pts s Hwf c) as Hpc.
  destruct k; simpl; unfold inbounds; rewrite ?bool_decide_eq_true_2 by done.
  - destruct (edges_set P (λ x, x) (λ _, c) RepPts s Hwf) as [He Hd]; [|by split].
    intros o Ho. split_and!; [auto|done|by apply (Hask o)].
  - destruct (edges_set P (λ _, c) (λ x, x) RepPts s Hwf) as [He Hd]; [|by split].
    intros o Ho. split_and!; [done|auto|by apply (Hask o)].
  - destruct (add_edges_spec P RepPts (PtsSet (node s c)) s Hwf) as [He Hd].
    { intros o o' Ho Ho'. split_and!; [auto..|by apply (Hask o)]. }
    split; [done|]. intros o Ho o'. rewrite (sbe_pts _ _ (edges_same _ _ _ He Hwf)). auto.
  - destruct (add_edges_spec P (PtsSet (node s c)) RepPts s Hwf) as [He Hd].
    { intros o' o Ho' Ho. split_and!; [auto..|by apply (Hask o)]. }
    split; [done|]. intros o Ho o'. rewrite (sbe_pts _ _ (edges_same _ _ _ He Hwf)). auto.
Qed.

Lemma transfer_spec k Rep RepPts c s :
  wf s → Rep < len s → rep s Rep = Rep → c < len s → RepPts = PtsSet (node s Rep) →
  ∃ new, constrained Rep new s (transfer k Rep RepPts c s)
    ∧ c ∈ constraints k (node (transfer k Rep RepPts c s) Rep).
Proof.
  intros Hwf HR HrR Hc ->. unfold transfer. case_decide as Hin.
  - exists []. split; [by apply constrained_refl|]. by apply (wf_constraint_set s Hwf).
  - pose proof (add_constraint_wf k Rep c s Hwf HR HrR Hc) as Hwf1.
    destruct (fire_transferred_spec (λ _ _, True) k (PtsSet (node s Rep)) c _ Hwf1) as [He Ho].
    + by rewrite len_upd.
    + intros o. rewrite len_upd. apply (wf_pts s Hwf).
    + by destruct k.
    + exists [(k, c)]. pose proof (constrain_then_edges _ k Rep c s _ Hwf HR HrR Hc He Ho) as Hcn.
      split; [done|]. apply (cn_con _ _ _ _ Hcn). right. split; [done|]. by apply list_elem_of_singleton.
Qed.

Lemma transfer_all_spec k Rep RepPts l s :
  wf s → Rep < len s → rep s Rep = Rep → (∀ c, c ∈ l → c < len s) → RepPts = PtsSet (node s Rep) →
  ∃ new, constrained Rep new s (for_each l (transfer k Rep RepPts) s)
    ∧ ∀ c, c ∈ l → c ∈ constraints k (node (for_each l (transfer k Rep RepPts) s) Rep).
Proof.
  intros Hwf HR HrR Hl ->.
  apply (for_each_ind (λ l1 s', ∃ new, constrained Rep new s s' ∧ ∀ c, c ∈ l1 → c ∈ constraints k (node s' Rep))).
  { exists []. split; [by apply constrained_refl|]. by intros c ?%elem_of_nil. }
  intros l1 c s' Hc (new & Hcn & Hdone).
  destruct (transfer_spec k Rep (PtsSet (node s Rep)) c s') as (new' & Hcn' & Hc').
  - apply Hcn.
  - by rewrite (cn_len _ _ _ _ Hcn).
  - by rewrite (cn_rep _ _ _ _ _ Hcn).
  - rewrite (cn_len _ _ _ _ Hcn). auto.
  - by rewrite (cn_pts _ _ _ _ Hcn).
  - exists (new ++ new'). split; [by apply (constrained_trans _ _ _ _ s')|].
    intros x [Hx| ->%list_elem_of_singleton]%elem_of_app; [|done].
    apply (cn_con _ _ _ _ Hcn'). left. auto.
Qed.

(** * Joining two nodes *)

(** The union-find has joined two classes, and the absorbed node's lists have
    been moved out. *)
Record joined (Rep NonRep : nat) s s1 : Prop := {
  jn_ne : Rep ≠ NonRep;
  jn_Rep : Rep < len s ∧ rep s Rep = Rep;
  jn_NonRep : NonRep < len s ∧ rep s NonRep = NonRep;
  jn_len : len s1 = len s;
  jn_capacity : ec_capacity (SCCUf s1) = len s;
  jn_rep x : x < len s → rep s1 x = if decide (rep s x = NonRep) then Rep else rep s x;
  jn_node W : node s1 W = if decide (W = NonRep) then moved_out (node s NonRep) else node s W;
  jn_worklist : PropWorklist s1 = PropWorklist s;
  jn_fatal : Fatal s1 = Fatal s
}.

Lemma merge_joined A B s :
  wf s → A < len s → B < len s →
  (rep s A = rep s B ∧ merge A B s = (s, rep s A))
  ∨ ∃ Rep NonRep Uf,
      joined Rep NonRep s (upd NonRep moved_out (State Uf (Nodes s) (PropWorklist s) (Fatal s)))
      ∧ (Rep = rep s A ∧ NonRep = rep s B ∨ Rep = rep s B ∧ NonRep = rep s A)
      ∧ merge A B s = (fold_into Rep NonRep (State Uf (Nodes s) (PropWorklist s) (Fatal s)), Rep).
Proof.
  intros Hwf HA HB. unfold merge. case_decide as Hab; [by left|right].
  pose proof (rep_lt s A Hwf HA) as Ha. pose proof (rep_lt s B Hwf HB) as Hb.
  pose proof (rep_rep s A Hwf HA) as Hra. pose proof (rep_rep s B Hwf HB) as Hrb.
  pose proof (wf_capacity s Hwf) as Hcap.
  destruct (UnionFind.join (rep s A) (rep s B) (SCCUf s)) as [Rep Uf] eqn:Hj.
  assert (Rep = rep s A ∨ Rep = rep s B) as HRep.
  { pose proof (join_leader (rep s A) (rep s B) (SCCUf s)) as Hl. rewrite Hj, Hcap in Hl.
    change (UnionFind.find (SCCUf s)) with (rep s) in Hl. rewrite Hra, Hrb in Hl. auto. }
  pose proof (capacity_join (rep s A) (rep s B) (SCCUf s)) as HcapU.
  change (ec_join (rep s A) (rep s B) (SCCUf s)) with (UnionFind.join (rep s A) (rep s B) (SCCUf s)) in HcapU.
  rewrite Hj, Hcap in HcapU. simpl in HcapU.
  eexists Rep, _, Uf. split; [|split; [|done]]; [|case_decide; naive_solver].
  set (NonRep := if decide (Rep = rep s A) then rep s B else rep s A).
  assert (Rep ≠ NonRep ∧ (NonRep < len s ∧ rep s NonRep = NonRep) ∧ (Rep < len s ∧ rep s Rep = Rep))
    as (Hne & HN & HR) by (unfold NonRep; case_decide; destruct HRep as [->| ->]; naive_solver).
  split; try done.
  - by rewrite len_upd.
  - intros x Hx. pose proof (find_join (rep s A) (rep s B) (SCCUf s) x) as Hf. rewrite Hj, Hcap in Hf.
    simpl in Hf. unfold rep at 1. simpl. rewrite Hf by done. unfold NonRep.
    change (UnionFind.find (SCCUf s)) with (rep s).
    case_decide as Hc; unfold same in Hc; change (UnionFind.find (SCCUf s)) with (rep s) in Hc;
      rewrite Hra, Hrb in Hc; repeat case_decide; intuition congruence.
  - intros W. rewrite node_upd. simpl. unfold node. simpl. repeat case_decide; naive_solver.
Qed.

Section fold.
Context (Rep NonRep : nat) (s s1 : state) (Hwf : wf s) (Hj : joined Rep NonRep s s1).

(** A representative of the joined state is an old one other than [NonRep]. *)
Lemma joined_live u : u < len s → rep s1 u = u → rep s u = u ∧ u ≠ NonRep.
Proof.
  intros Hu. rewrite (jn_rep _ _ _ _ Hj) by done. pose proof (jn_ne _ _ _ _ Hj).
  pose proof (jn_NonRep _ _ _ _ Hj). case_decide; [|naive_solver].
  intros <-. destruct (jn_Rep _ _ _ _ Hj). congruence.
Qed.

Lemma joined_node W : W ≠ NonRep → node s1 W = node s W.
Proof. intros HW. by rewrite (jn_node _ _ _ _ Hj), decide_False. Qed.

Lemma joined_Rep : rep s1 Rep = Rep.
Proof.
  destruct (jn_Rep _ _ _ _ Hj) as [HR HrR]. rewrite (jn_rep _ _ _ _ Hj) by done.
  rewrite HrR. case_decide; [done|done].
Qed.

Lemma joined_wf : wf s1.
Proof.
  pose proof (jn_len _ _ _ _ Hj) as Hlen. pose proof (jn_ne _ _ _ _ Hj) as Hne.
  split; intros *; rewrite ?Hlen, ?(jn_node _ _ _ _ Hj).
  - apply (jn_capacity _ _ _ _ Hj).
  - case_decide; apply (wf_pts s Hwf).
  - case_decide; apply (wf_pending s Hwf).
  - case_decide; [intros ?%elem_of_nil; done|apply (wf_dsts s Hwf)].
  - case_decide; [intros ?%elem_of_empty; done|apply (wf_dst_set s Hwf)].
  - case_decide; [by destruct k; intros ?%elem_of_nil|apply (wf_constraints s Hwf)].
  - destruct (decide (V < len s)) as [HV|HV].
    + intros [Hr HN]%joined_live; [|done]. rewrite decide_False by done. by apply (wf_constraint_set s Hwf).
    + intros _. destruct (jn_NonRep _ _ _ _ Hj). rewrite decide_False by lia.
      rewrite node_ge by lia. by destruct k; intros ?%elem_of_empty.
  - rewrite (jn_worklist _ _ _ _ Hj). apply (wf_worklist s Hwf).
  - rewrite (jn_fatal _ _ _ _ Hj). apply (wf_fatal s Hwf).
Qed.

(** A pointee known at a node is known in the joined state, or it is one of the
    absorbed node. *)
Lemma joined_pts v o :
  v < len s → o ∈ pts s v →
  o ∈ pts s1 v ∨ (o ∈ PtsSet (node s NonRep) ∧ rep s1 v = Rep).
Proof.
  intros Hv Ho. unfold pts in *. rewrite (jn_rep _ _ _ _ Hj) by done. case_decide as Hr.
  - right. by rewrite <-Hr.
  - left. by rewrite joined_node.
Qed.

Lemma joined_propagated ex :
  propagated ex s →
  propagated (λ u v o, ex u v o ∨ (o ∈ PtsSet (node s NonRep) ∧ rep s1 v = Rep)) s1.
Proof.
  intros Hp u v o. rewrite (jn_len _ _ _ _ Hj). intros Hu [Hr HuN]%joined_live; [|done].
  rewrite joined_node by done. intros Hv Ho.
  destruct (Hp u v o Hu Hr Hv Ho) as [?|[Hpt|?]]; [by left| |naive_solver].
  destruct (joined_pts v o) as [?|?]; [by eapply (wf_dsts s Hwf)|done|naive_solver..].
Qed.

Lemma joined_queued ex : queued ex s → queued ex s1.
Proof.
  intros Hq u. rewrite (jn_len _ _ _ _ Hj), (jn_worklist _ _ _ _ Hj).
  intros Hu [Hr HuN]%joined_live; [|done]. rewrite joined_node by done. intros Hp.
  destruct (Hq u Hu Hr Hp) as [(w & Hw & Hrw)|?]; [left|by right]. exists w. split; [done|].
  rewrite (jn_rep _ _ _ _ Hj) by (by apply (wf_worklist s Hwf)). rewrite decide_False; congruence.
Qed.

Lemma edge_rep_r t x y : wf t → y < len t → edge t x (rep t y) → edge t x y.
Proof. intros Hwft Hy. unfold edge. by rewrite rep_rep. Qed.

(** The absorbed node's edges, at the representative. *)
Lemma move_edges_spec P :
  (∀ d, d ∈ AssignDsts (node s NonRep) → P Rep (rep s1 d)) →
  let s2 := move_edges Rep (AssignDsts (node s NonRep)) s1 in
  edges P s1 s2 ∧ ∀ x y, x < len s → y < len s → edge s x y → edge s2 x y.
Proof.
  intros HP. pose proof joined_wf as Hwf1. pose proof (jn_len _ _ _ _ Hj) as Hlen.
  destruct (jn_Rep _ _ _ _ Hj) as [HR HrR].
  destruct (edges_for_each P (AssignDsts (node s NonRep)) (λ Dst s,
      if decide (rep s Dst = Rep) then s else addAssignEdge Rep (rep s Dst) s)
    (λ d s', edge s' Rep d) s1 Hwf1) as [He Hd].
  - intros d s' Hd Hwf' Hs. pose proof (wf_dsts s Hwf _ _ Hd) as Hdl.
    rewrite <-Hlen, <-(sbe_len _ _ Hs) in Hdl, HR. pose proof (rep_lt s' d Hwf' Hdl) as Hrl.
    case_decide as Hdec.
    + split; [reflexivity|left]. by rewrite Hdec, (sbe_rep _ _ _ Hs), joined_Rep.
    + split; [apply edges_once; [|done..]; rewrite (sbe_rep _ _ _ Hs); auto|].
      destruct (addAssignEdge_spec Rep (rep s' d) s' Hwf' HR Hrl) as [Hs' Hwf'' He' _ _ _].
      apply edge_rep_r; [done|by rewrite (sbe_len _ _ Hs')|]. by rewrite (sbe_rep _ _ d Hs').
  - intros d s' s''. apply edge_keep.
  - split; [done|]. fold (move_edges Rep (AssignDsts (node s NonRep)) s1) in *.
    set (s2 := move_edges _ _ s1) in *. pose proof (edges_same _ _ _ He Hwf1) as Hs.
    assert (∀ x y, x < len s → y < len s → rep s x = rep s y → rep s2 x = rep s2 y) as Hrep.
    { intros x y Hx Hy Hr. rewrite !(sbe_rep _ _ _ Hs), !(jn_rep _ _ _ _ Hj) by done. by rewrite Hr. }
    intros x y Hx Hy [Hr|(v & Hv & Hr)]; [left; auto|].
    assert (v < len s) as Hvl by by eapply (wf_dsts s Hwf).
    unfold edge. rewrite (sbe_rep _ _ x Hs), (jn_rep _ _ _ _ Hj x) by done.
    case_decide as HxN.
    + rewrite HxN in Hv. destruct (Hd v Hv) as [Hv'|(w & Hw & Hv')].
      * left. rewrite <-(Hrep v y) by done. rewrite <-Hv'. rewrite (sbe_rep _ _ _ Hs). by rewrite joined_Rep.
      * right. exists w. rewrite (sbe_rep _ _ _ Hs), joined_Rep in Hw. split; [done|].
        rewrite Hv'. by apply Hrep.
    + right. exists v. split; [|by apply Hrep].
      apply (sbe_dsts _ _ Hs). by rewrite joined_node.
Qed.

Lemma joined_fired ex s2 :
  same_but_edges s1 s2 → (∀ x y, x < len s → y < len s → edge s x y → edge s2 x y) →
  fired ex s → fired ex s2.
Proof.
  intros Hs He Hf u o. rewrite (sbe_len _ _ Hs), (jn_len _ _ _ _ Hj), (sbe_rep _ _ _ Hs), (sbe_pts _ _ Hs).
  intros Hu [Hr HuN]%joined_live; [|done]. rewrite joined_node by done. intros Ho.
  destruct (Hf u o Hu Hr Ho) as [(HL & HS & HM & HD)|?]; [left|by right]. unfold fired_at.
  rewrite (sbe_con _ _ Hs KLoad u : LoadDsts _ = _), (sbe_con _ _ Hs KStore u : StoreSrcs _ = _),
    (sbe_con _ _ Hs KMemSrc u : MemCopyAsSrc _ = _), (sbe_con _ _ Hs KMemDst u : MemCopyAsDst _ = _).
  simpl. rewrite joined_node by done. pose proof (wf_pts s Hwf) as Hpl. split_and!.
  - intros d Hd. apply He; [eauto|by apply (wf_constraints s Hwf KLoad u)|auto].
  - intros v Hv. apply He; [by apply (wf_constraints s Hwf KStore u)|eauto|auto].
  - intros D o' HDin Hback. rewrite (sbe_len _ _ Hs), (jn_len _ _ _ _ Hj), (sbe_rep _ _ _ Hs), (sbe_pts _ _ Hs).
    intros HDl [HrD HDN]%joined_live; [|done]. rewrite joined_node by done. intros Ho'.
    rewrite (sbe_con _ _ Hs KMemDst D : MemCopyAsDst _ = _) in Hback. simpl in Hback.
    rewrite joined_node in Hback by done. apply He; eauto.
  - intros S o' HSin Hback. rewrite (sbe_len _ _ Hs), (jn_len _ _ _ _ Hj), (sbe_rep _ _ _ Hs), (sbe_pts _ _ Hs).
    intros HSl [HrS HSN]%joined_live; [|done]. rewrite joined_node by done. intros Ho'.
    rewrite (sbe_con _ _ Hs KMemSrc S : MemCopyAsSrc _ = _) in Hback. simpl in Hback.
    rewrite joined_node in Hback by done. apply He; eauto.
Qed.

(** ** The node that is no representative any more is reset *)

Lemma node_reset t W :
  W ≠ NonRep → node (upd NonRep (λ _, NodeInfo_default) t) W = node t W.
Proof. intros HW. rewrite node_upd. case_decide; naive_solver. Qed.

(** What the fold has established before the reset. *)
Record folded t : Prop := {
  fd_wf : wf t;
  fd_len : len t = len s;
  fd_rep x : rep t x = rep s1 x;
  fd_pts x o : x < len s → o ∈ pts s x → o ∈ pts t x;
  fd_edge x y : x < len s → y < len s → edge s x y → edge t x y;
  fd_con k x c : x < len s → has_constraint k s x c → has_constraint k t x c;
  fd_propagated ex : propagated ex s → propagated ex t;
  fd_queued ex : queued ex s → queued (λ u, ex u ∨ u = Rep) t;
  fd_fired ex : fired ex s → fired ex t
}.

Lemma folded_live t V : folded t → V < len s → rep t V ≠ NonRep.
Proof.
  intros Hfd HV. rewrite (fd_rep t Hfd), (jn_rep _ _ _ _ Hj) by done.
  pose proof (jn_ne _ _ _ _ Hj). by case_decide.
Qed.

Lemma folded_reset t : folded t → folded (upd NonRep (λ _, NodeInfo_default) t).
Proof.
  intros Hfd. set (t' := upd NonRep (λ _, NodeInfo_default) t).
  pose proof (fd_wf t Hfd) as Hwft. pose proof (fd_len t Hfd) as Hlen.
  assert (∀ W, node t' W = node t W ∨ node t' W = NodeInfo_default) as Hnode.
  { intros W. unfold t'. rewrite node_upd. case_decide; auto. }
  assert (∀ V, V < len s → node t' (rep t V) = node t (rep t V)) as Hrep.
  { intros V HV. by apply node_reset, folded_live. }
  assert (∀ V, V < len s → rep t V = V → node t' V = node t V) as Hlive.
  { intros V HV Hr. rewrite <-Hr. auto. }
  assert (len t' = len s) as Hlen' by (unfold t'; by rewrite len_upd).
  assert (∀ x y, x < len s → edge t x y → edge t' x y) as Hedge.
  { intros x y Hx [?|(v & Hv & ?)]; [by left|right]. exists v. change (rep t' x) with (rep t x).
    by rewrite Hrep. }
  assert (∀ v, v < len s → pts t' v = pts t v) as Hpts.
  { intros v Hv. unfold pts. change (rep t' v) with (rep t v). by rewrite Hrep. }
  split.
  - split; intros *; rewrite ?Hlen', <-Hlen || rewrite ?Hlen'.
    + apply (wf_capacity t Hwft).
    + destruct (Hnode V) as [->| ->]; [apply (wf_pts t Hwft)|by intros ?%elem_of_empty].
    + destruct (Hnode V) as [->| ->]; [apply (wf_pending t Hwft)|done].
    + destruct (Hnode V) as [->| ->]; [apply (wf_dsts t Hwft)|by intros ?%elem_of_nil].
    + destruct (Hnode V) as [->| ->]; [apply (wf_dst_set t Hwft)|by intros ?%elem_of_empty].
    + destruct (Hnode V) as [->| ->]; [apply (wf_constraints t Hwft)|by destruct k; intros ?%elem_of_nil].
    + destruct (Hnode V) as [->| ->]; [apply (wf_constraint_set t Hwft)|by destruct k; intros _ ?%elem_of_empty].
    + apply (wf_worklist t Hwft).
    + apply (wf_fatal t Hwft).
  - done.
  - apply (fd_rep t Hfd).
  - intros x o Hx Ho. rewrite Hpts by done. by apply (fd_pts t Hfd).
  - intros x y Hx Hy Hxy. apply Hedge; [done|]. by apply (fd_edge t Hfd).
  - intros k x c Hx Hc. unfold has_constraint. change (rep t' x) with (rep t x). rewrite Hrep by done.
    by apply (fd_con t Hfd).
  - intros ex Hp u v o. rewrite Hlen'. intros Hu Hr. rewrite (Hlive u) by done. intros Hv Ho.
    rewrite Hpts by (rewrite <-Hlen; by eapply (wf_dsts t Hwft)).
    apply (fd_propagated t Hfd ex Hp); [by rewrite Hlen|done..].
  - intros ex Hq u. rewrite Hlen'. intros Hu Hr. rewrite (Hlive u) by done.
    apply (fd_queued t Hfd ex Hq); [by rewrite Hlen|done].
  - intros ex Hf u o. rewrite Hlen'. intros Hu Hr. rewrite (Hlive u) by done. intros Ho.
    destruct (fd_fired t Hfd ex Hf u o) as [(HL & HS & HM & HD)|?]; [by rewrite Hlen|done..| |by right].
    left. unfold fired_at. rewrite (Hlive u), Hlen' by done. pose proof (wf_pts t Hwft) as Hpl. rewrite Hlen in *.
    split_and!.
    + intros d Hd. apply Hedge; eauto.
    + intros v Hv. apply Hedge; [rewrite <-Hlen; by apply (wf_constraints t Hwft KStore u)|auto].
    + intros D o' HDin Hback HDl HrD. rewrite (Hlive D) in * by done. intros. apply Hedge; eauto.
    + intros S o' HSin Hback HSl HrS. rewrite (Hlive S) in * by done. intros. apply Hedge; eauto.
Qed.

(** ** The fold up to the reset *)

Definition fold_pointees : state :=
  (mergeWithDiff Rep (PtsSet (node s NonRep)) (move_edges Rep (AssignDsts (node s NonRep)) s1)).1.

Definition fold_constraints (t : state) : state :=
  let RepPts := PtsSet (node t Rep) in
  for_each (MemCopyAsDst (node s NonRep)) (transfer KMemDst Rep RepPts)
    (for_each (MemCopyAsSrc (node s NonRep)) (transfer KMemSrc Rep RepPts)
      (for_each (StoreSrcs (node s NonRep)) (transfer KStore Rep RepPts)
        (for_each (LoadDsts (node s NonRep)) (transfer KLoad Rep RepPts) t))).

Lemma fold_constraints_spec t :
  wf t → len t = len s → rep t Rep = Rep →
  ∃ new, constrained Rep new t (fold_constraints t)
    ∧ ∀ k c, c ∈ constraints k (node s NonRep) → c ∈ constraints k (node (fold_constraints t) Rep).
Proof.
  intros Hwft Hlen HrR. destruct (jn_Rep _ _ _ _ Hj) as [HR _]. unfold fold_constraints.
  assert (∀ k (t' : state) new, constrained Rep new t t' →
    let t'' := for_each (constraints k (node s NonRep)) (transfer k Rep (PtsSet (node t Rep))) t' in
    ∃ new', constrained Rep (new ++ new') t t''
      ∧ (∀ k' c, c ∈ constraints k' (node t' Rep) → c ∈ constraints k' (node t'' Rep))
      ∧ ∀ c, c ∈ constraints k (node s NonRep) → c ∈ constraints k (node t'' Rep)) as Hone.
  { intros k t' new Hcn.
    destruct (transfer_all_spec k Rep (PtsSet (node t Rep)) (constraints k (node s NonRep)) t') as (new' & Hcn' & Hc).
    - apply Hcn.
    - rewrite (cn_len _ _ _ _ Hcn). by rewrite Hlen.
    - by rewrite (cn_rep _ _ _ _ _ Hcn).
    - intros c Hc%(wf_constraints s Hwf). by rewrite (cn_len _ _ _ _ Hcn), Hlen.
    - by rewrite (cn_pts _ _ _ _ Hcn).
    - exists new'. split; [by apply (constrained_trans _ _ _ _ t')|]. split; [|done].
      intros k' c Hc'. apply (cn_con _ _ _ _ Hcn'). by left. }
  destruct (Hone KLoad t [] (constrained_refl Rep t Hwft)) as (n1 & H1 & _ & HL).
  destruct (Hone KStore _ _ H1) as (n2 & H2 & K2 & HS).
  destruct (Hone KMemSrc _ _ H2) as (n3 & H3 & K3 & HM).
  destruct (Hone KMemDst _ _ H3) as (n4 & H4 & K4 & HD).
  eexists. split; [exact H4|]. intros [] c Hc.
  - apply K4, K3, K2, HL, Hc.
  - apply K4, K3, HS, Hc.
  - apply K4, HM, Hc.
  - apply HD, Hc.
Qed.

Lemma fold_folded : folded (fold_constraints fold_pointees).
Proof.
  pose proof joined_wf as Hwf1. pose proof (jn_len _ _ _ _ Hj) as Hlen1.
  destruct (jn_Rep _ _ _ _ Hj) as [HR HrR]. pose proof joined_Rep as HR1.
  destruct (move_edges_spec (λ _ _, True)) as [He Hedge]; [done|].
  unfold fold_pointees. set (s2 := move_edges _ _ _) in *.
  pose proof (edges_same _ _ _ He Hwf1) as Hs2. pose proof (edges_wf _ _ _ He Hwf1) as Hwf2.
  assert (len s2 = len s) as Hlen2 by (by rewrite (sbe_len _ _ Hs2)).
  pose proof (mergeWithDiff_spec Rep (PtsSet (node s NonRep)) s2) as Hm.
  destruct (mergeWithDiff Rep (PtsSet (node s NonRep)) s2) as [s3 r].
  destruct Hm as [Hab _]; [done|by rewrite Hlen2|by rewrite (sbe_rep _ _ _ Hs2)|
    intros o; rewrite Hlen2; apply (wf_pts s Hwf)|]. simpl.
  pose proof (ab_grows _ _ _ _ Hab) as Hg.
  assert (∀ x, rep s3 x = rep s1 x) as Hrep3.
  { intros x. by rewrite (gr_rep _ _ _ Hg), (sbe_rep _ _ _ Hs2). }
  assert (len s3 = len s) as Hlen3 by (by rewrite (gr_len _ _ Hg)).
  destruct (fold_constraints_spec s3) as (new & Hcn & Hall); [apply Hab|done|by rewrite Hrep3|].
  set (t := fold_constraints s3) in *.
  assert (∀ x o, rep s1 x = Rep → o ∈ PtsSet (node s NonRep) → o ∈ pts s3 x) as Hnew.
  { intros x o Hx Ho. unfold pts. rewrite Hrep3, Hx, (ab_pts _ _ _ _ Hab), decide_True by done.
    apply elem_of_union. by left. }
  assert (∀ x o, x < len s → o ∈ pts s x → o ∈ pts s3 x) as Hpts3.
  { intros x o Hx Ho. destruct (joined_pts x o Hx Ho) as [Ho1|[Ho1 Hr]]; [|by apply Hnew].
    apply (gr_pts_of s2); [done|]. by rewrite (sbe_pts_of _ _ _ Hs2). }
  split.
  - apply Hcn.
  - by rewrite (cn_len _ _ _ _ Hcn).
  - intros x. by rewrite (cn_rep _ _ _ _ _ Hcn).
  - intros x o Hx Ho. unfold pts. rewrite (cn_rep _ _ _ _ _ Hcn), (cn_pts _ _ _ _ Hcn). by apply Hpts3.
  - intros x y Hx Hy Hxy. apply (cn_edge _ _ _ _ Hcn), (gr_edge s2); auto.
  - intros k x c Hx Hc. unfold has_constraint in *. rewrite (cn_rep _ _ _ _ _ Hcn), Hrep3, (jn_rep _ _ _ _ Hj) by done.
    case_decide as HxN; [apply Hall; by rewrite <-HxN|].
    apply (cn_con _ _ _ _ Hcn). left. rewrite (gr_con _ _ Hg), (sbe_con _ _ Hs2). by rewrite joined_node.
  - intros ex Hp. apply (cn_propagated _ _ _ _ Hcn).
    apply joined_propagated in Hp. apply (edges_propagated _ _ _ _ He Hwf1) in Hp.
    apply (ab_propagated _ _ _ _ Hab) in Hp. intros u v o Hu Hr Hv Ho.
    destruct (Hp u v o Hu Hr Hv Ho) as [?|[?|[?|[Ho1 Hr1]]]]; auto.
  - intros ex Hq. apply (cn_queued _ _ _ _ Hcn), (ab_queued _ _ _ _ Hab).
    apply (edges_queued _ _ _ _ He Hwf1). by apply joined_queued.
  - intros ex Hf. apply (constrained_fired Rep new ex s3); [by rewrite Hlen3|by rewrite Hrep3|done|].
    apply (ab_fired _ _ _ _ Hab). by apply joined_fired.
Qed.

(** ** Nothing is invented *)

Section below.
Context (σ : nat → nat → Prop) (Hσ : ∀ o, σ Rep o ↔ σ NonRep o).

Lemma holds_Rep k c : holds σ k NonRep c → holds σ k Rep c.
Proof. destruct k; simpl; intros Hh; intros; eapply Hh; eauto; by apply Hσ. Qed.

Lemma joined_below : below σ s → below σ s1.
Proof.
  intros Hbl. split.
  - intros x y o. rewrite (jn_len _ _ _ _ Hj). intros Hx Hy. rewrite !(jn_rep _ _ _ _ Hj) by done.
    assert (∀ z, z < len s → σ z o ↔ σ (rep s z) o) as Hz.
    { intros z Hz. pose proof (rep_lt s z Hwf Hz). pose proof (rep_rep s z Hwf Hz).
      split; by apply (bl_rep σ s Hbl). }
    rewrite (Hz x Hx), (Hz y Hy).
    destruct (decide (rep s x = NonRep)) as [Hx'|], (decide (rep s y = NonRep)) as [Hy'|];
      intros Heq; try congruence.
    + rewrite Hx', <-Heq. apply Hσ.
    + rewrite Hy', Heq. apply Hσ.
  - intros V o. rewrite (jn_node _ _ _ _ Hj). case_decide; [subst|]; apply (bl_pts σ s Hbl).
  - intros V d. rewrite (jn_node _ _ _ _ Hj). case_decide; [by intros ?%elem_of_nil|apply (bl_dsts σ s Hbl)].
  - intros k V c. rewrite (jn_node _ _ _ _ Hj).
    case_decide; [by destruct k; intros ?%elem_of_nil|apply (bl_con σ s Hbl)].
Qed.

Lemma fold_pointees_below : below σ s → below σ fold_pointees.
Proof.
  intros Hbl. pose proof joined_wf as Hwf1. pose proof (joined_below Hbl) as Hbl1.
  destruct (jn_Rep _ _ _ _ Hj) as [HR _]. pose proof (jn_len _ _ _ _ Hj) as Hlen.
  destruct (move_edges_spec (includes σ)) as [He _].
  { intros d Hd o Ho. pose proof (wf_dsts s Hwf _ _ Hd) as Hdl. rewrite <-Hlen in Hdl.
    apply (bl_rep σ s1 Hbl1 d); [done|by apply rep_lt|by rewrite rep_rep|].
    apply (bl_dsts σ s Hbl NonRep d Hd). by apply Hσ. }
  unfold fold_pointees. pose proof (edges_same _ _ _ He Hwf1) as Hs2.
  apply below_mergeWithDiff.
  - by apply (edges_wf _ _ _ He).
  - by rewrite (sbe_len _ _ Hs2), Hlen.
  - rewrite (sbe_rep _ _ _ Hs2). apply joined_Rep.
  - intros o. rewrite (sbe_len _ _ Hs2), Hlen. apply (wf_pts s Hwf).
  - intros o Ho. by apply Hσ, (bl_pts σ s Hbl).
  - by apply (below_edges σ s1).
Qed.

Lemma transfer_below k c RepPts t :
  wf t → len t = len s → rep t Rep = Rep → RepPts = PtsSet (node t Rep) →
  c ∈ constraints k (node s NonRep) → below σ s → below σ t → below σ (transfer k Rep RepPts c t).
Proof.
  intros Hwft Hlen HrR -> Hc Hbls Hbl. destruct (jn_Rep _ _ _ _ Hj) as [HR _]. unfold transfer.
  case_decide; [done|]. pose proof (wf_constraints s Hwf k _ _ Hc) as Hcl. rewrite <-Hlen in HR, Hcl.
  pose proof (holds_Rep k c (bl_con σ s Hbls k NonRep c Hc)) as Hh.
  pose proof (below_add_constraint σ k Rep c t Hwft HR HrR Hh Hbl) as Hbl'.
  pose proof (add_constraint_wf k Rep c t Hwft HR HrR Hcl) as Hwf'.
  destruct (fire_transferred_spec (includes σ) k (PtsSet (node t Rep)) c _ Hwf') as [He _].
  - by rewrite len_upd.
  - intros o. rewrite len_upd. apply (wf_pts t Hwft).
  - intros o Ho%(bl_pts σ t Hbl). destruct k; try by apply Hh.
    + intros o' Ho'%(bl_pts σ _ Hbl'). by apply Hh.
    + intros o' Ho'%(bl_pts σ _ Hbl'). by apply Hh.
  - by apply (below_edges σ _ _ He).
Qed.

Lemma fold_constraints_below t :
  wf t → len t = len s → rep t Rep = Rep → below σ s → below σ t → below σ (fold_constraints t).
Proof.
  intros Hwft Hlen HrR Hbls Hbl. destruct (jn_Rep _ _ _ _ Hj) as [HR _]. unfold fold_constraints.
  pose (I := λ t', wf t' ∧ len t' = len s ∧ rep t' Rep = Rep ∧ PtsSet (node t' Rep) = PtsSet (node t Rep)
    ∧ below σ t').
  assert (∀ k t', I t' →
    I (for_each (constraints k (node s NonRep)) (transfer k Rep (PtsSet (node t Rep))) t')) as Hone.
  { intros k t' HI. apply for_each_inv; [done|]. intros c t'' Hc (Hwf'' & Hlen'' & Hr'' & Hp'' & Hbl'').
    destruct (transfer_spec k Rep (PtsSet (node t Rep)) c t'') as (new & Hcn & _);
      [done|by rewrite Hlen''|done|rewrite Hlen''; by eapply (wf_constraints s Hwf)|done|].
    split_and!.
    - apply Hcn.
    - by rewrite (cn_len _ _ _ _ Hcn).
    - by rewrite (cn_rep _ _ _ _ _ Hcn).
    - by rewrite (cn_pts _ _ _ _ Hcn).
    - by apply transfer_below. }
  apply (Hone KMemDst), (Hone KMemSrc), (Hone KStore), (Hone KLoad). done.
Qed.

Lemma fold_below : below σ s → below σ (fold_constraints fold_pointees).
Proof.
  intros Hbl. pose proof (fold_pointees_below Hbl) as Hbl3. pose proof joined_wf as Hwf1.
  destruct (move_edges_spec (λ _ _, True)) as [He _]; [done|]. pose proof (edges_same _ _ _ He Hwf1) as Hs2.
  destruct (jn_Rep _ _ _ _ Hj) as [HR _]. pose proof (jn_len _ _ _ _ Hj) as Hlen.
  unfold fold_pointees in *.
  pose proof (mergeWithDiff_spec Rep (PtsSet (node s NonRep)) (move_edges Rep (AssignDsts (node s NonRep)) s1)) as Hm.
  destruct (mergeWithDiff _ _ _) as [s3 r]. simpl in *.
  destruct Hm as [Hab _]; [by apply (edges_wf _ _ _ He)|by rewrite (sbe_len _ _ Hs2), Hlen|
    by rewrite (sbe_rep _ _ _ Hs2), joined_Rep|intros o; rewrite (sbe_len _ _ Hs2), Hlen; apply (wf_pts s Hwf)|].
  pose proof (ab_grows _ _ _ _ Hab) as Hg. apply fold_constraints_below; try done.
  - apply Hab.
  - by rewrite (gr_len _ _ Hg), (sbe_len _ _ Hs2).
  - rewrite (gr_rep _ _ _ Hg), (sbe_rep _ _ _ Hs2). apply joined_Rep.
Qed.
End below.
End fold.

(** * [merge] *)

Record merged A B s s' (r : nat) : Prop := {
  mg_wf : wf s';
  mg_len : len s' = len s;
  mg_ext : ext s s';
  mg_result : r = rep s' A ∧ rep s' A = rep s' B;
  mg_choice : r = rep s A ∨ r = rep s B;
  mg_live u : u < len s → rep s' u = u → u = r ∨ (u ≠ rep s A ∧ u ≠ rep s B);
  mg_propagated ex : propagated ex s → propagated ex s';
  mg_queued ex : queued ex s → queued ex s';
  mg_fired ex : fired ex s → fired ex s'
}.

(** The pending pointees left at the end are put on the work list. *)
Lemma push_queued ex V s : wf s → V < len s → rep s V = V →
  queued (λ u, ex u ∨ u = V) s →
  queued ex (if decide (PendingPts (node s V) = ∅) then s else push V s).
Proof.
  intros Hwf HV HrV Hq u. case_decide as Hp; intros Hu Hr Hpu;
    destruct (Hq u Hu Hr Hpu) as [(w & Hw & Hrw)|[?| ->]]; try done; try (by right); left.
  - by exists w.
  - exists w. split; [by right|done].
  - exists V. split; [by left|done].
Qed.

Lemma merge_spec A B s :
  wf s → A < len s → B < len s → merged A B s (merge A B s).1 (merge A B s).2.
Proof.
  intros Hwf HA HB. destruct (merge_joined A B s Hwf HA HB) as [[Heq ->]|(Rep & NonRep & Uf & Hj & Hch & ->)].
  { simpl. split; try done; [by left|]. intros u Hu Hr.
    destruct (decide (u = rep s A)); [by left|right; split; congruence]. }
  simpl. set (s1 := upd NonRep moved_out _) in *.
  pose proof (folded_reset _ _ _ _ Hj _ (fold_folded _ _ _ _ Hwf Hj)) as Hfd.
  assert (fold_into Rep NonRep (State Uf (Nodes s) (PropWorklist s) (Fatal s)) =
    let t := upd NonRep (λ _, NodeInfo_default) (fold_constraints Rep NonRep s (fold_pointees Rep NonRep s s1)) in
    if decide (PendingPts (node t Rep) = ∅) then t else push Rep t) as -> by done.
  set (t := upd NonRep (λ _, NodeInfo_default) _) in *. cbv zeta.
  destruct (jn_Rep _ _ _ _ Hj) as [HR HrR]. destruct (jn_NonRep _ _ _ _ Hj) as [HN HrN].
  set (s' := if decide _ then t else push Rep t).
  assert (∀ W, node s' W = node t W) as Hnode by (unfold s'; intros W; by case_decide).
  assert (∀ x, rep s' x = rep s1 x) as Hrep.
  { intros x. rewrite <-(fd_rep _ _ _ _ Hfd). unfold s'. by case_decide. }
  assert (len s' = len s) as Hlen.
  { rewrite <-(fd_len _ _ _ _ Hfd). unfold s'. by case_decide. }
  assert (Rep < len t) as HRt by (by rewrite (fd_len _ _ _ _ Hfd)).
  assert (rep s1 A = Rep ∧ rep s1 B = Rep) as [HrA HrB].
  { rewrite !(jn_rep _ _ _ _ Hj) by done. repeat case_decide; naive_solver. }
  split.
  - pose proof (fd_wf _ _ _ _ Hfd) as Hwft. unfold s'. case_decide; [done|]. destruct Hwft. split; try done.
    intros V [->|HV]%elem_of_cons; [done|auto].
  - done.
  - split; rewrite ?Hlen; try done.
    + intros x y Hx Hy Hr. rewrite !Hrep, !(jn_rep _ _ _ _ Hj) by done. by rewrite Hr.
    + intros x Hx. rewrite Hrep. intros Hr. by apply (joined_live _ _ _ _ Hj).
    + intros x o Hx Ho. unfold pts. rewrite Hnode, Hrep, <-(fd_rep _ _ _ _ Hfd).
      by apply (fd_pts _ _ _ _ Hfd).
    + intros x y Hx Hy Hxy. pose proof (fd_edge _ _ _ _ Hfd x y Hx Hy Hxy). unfold s'. by case_decide.
    + intros k x c Hx Hc. unfold has_constraint. rewrite Hnode, Hrep, <-(fd_rep _ _ _ _ Hfd).
      by apply (fd_con _ _ _ _ Hfd).
  - rewrite !Hrep. by rewrite HrA, HrB.
  - naive_solver.
  - intros u Hu. rewrite Hrep. intros Hr. destruct (joined_live _ _ _ _ Hj u Hu Hr) as [_ HuN].
    destruct (decide (u = Rep)); [by left|right]. naive_solver.
  - intros ex Hp. pose proof (fd_propagated _ _ _ _ Hfd ex Hp). unfold s'. by case_decide.
  - intros ex Hq. apply push_queued; [apply Hfd|done|by rewrite (fd_rep _ _ _ _ Hfd), (joined_Rep _ _ _ _ Hj)|].
    by apply (fd_queued _ _ _ _ Hfd).
  - intros ex Hf. pose proof (fd_fired _ _ _ _ Hfd ex Hf). unfold s'. by case_decide.
Qed.

Lemma merge_below σ A B s :
  wf s → A < len s → B < len s → (∀ o, σ A o ↔ σ B o) → below σ s → below σ (merge A B s).1.
Proof.
  intros Hwf HA HB Hσ Hbl.
  destruct (merge_joined A B s Hwf HA HB) as [[Heq ->]|(Rep & NonRep & Uf & Hj & Hch & ->)]; [done|].
  simpl. set (s1 := upd NonRep moved_out _) in *.
  assert (∀ o, σ Rep o ↔ σ NonRep o) as Hσ'.
  { assert (∀ z o, z < len s → σ z o ↔ σ (rep s z) o) as Hz.
    { intros z o Hz. pose proof (rep_lt s z Hwf Hz). pose proof (rep_rep s z Hwf Hz).
      split; by apply (bl_rep σ s Hbl). }
    intros o. destruct Hch as [[-> ->]|[-> ->]]; rewrite <-!Hz by done; [done|by rewrite Hσ]. }
  pose proof (fold_below _ _ _ _ Hwf Hj σ Hσ' Hbl) as Hblt.
  assert (fold_into Rep NonRep (State Uf (Nodes s) (PropWorklist s) (Fatal s)) =
    let t := upd NonRep (λ _, NodeInfo_default) (fold_constraints Rep NonRep s (fold_pointees Rep NonRep s s1)) in
    if decide (PendingPts (node t Rep) = ∅) then t else push Rep t) as -> by done.
  set (f := fold_constraints _ _ _ _) in *. cbv zeta.
  assert (below σ (upd NonRep (λ _, NodeInfo_default) f)) as Hbr.
  { split; intros *; rewrite ?len_upd, ?rep_upd, ?node_upd.
    - apply (bl_rep σ f Hblt).
    - case_decide; [by intros ?%elem_of_empty|apply (bl_pts σ f Hblt)].
    - case_decide; [by intros ?%elem_of_nil|apply (bl_dsts σ f Hblt)].
    - case_decide; [by destruct k; intros ?%elem_of_nil|apply (bl_con σ f Hblt)]. }
  case_decide; [done|]. destruct Hbr. by split.
Qed.
End merge.
End AndersenMerge.
