(* ===== verification/AndersenPropagate.v ===== *)
(** [propagate] of the Andersen solver: the invariant of its inner loop, and
    what an iteration keeps.

    [propagate] of the Andersen solver ends: a measure of the nodes that can
    still be merged and of the pointees that can still be added goes down with
    every push to the work list. *)
From S2P Require Import Prelude UnionFind Andersen AndersenEdges AndersenPointees AndersenMerge.

Module AndersenPropagate.
Import Andersen AndersenEdges AndersenPointees AndersenMerge.
Section propagate.
Context {U : Type} `{!IntEqClasses U} `{!IntEqClassesLaws U}.
Implicit Types (s t : state (U:=U)) (k : Kind).

Notation len s := (length (Nodes s)).

(** The invariant between the calls of the solver. *)
Record inv s : Prop := {
  inv_wf : wf s;
  inv_propagated : propagated (λ _ _ _, False) s;
  inv_queued : queued (λ _, False) s
}.

Notation all_fired := (fired (λ _ _, False)).

(** * The loop over the successors *)

(** [Un] is the node being propagated, [rest] the successors still to come. *)
Record loop_inv (UPending : gset nat) (rest : list nat) (Un : nat) s : Prop := {
  li_wf : wf s;
  li_U : Un < len s ∧ rep s Un = Un;
  li_rest w : w ∈ rest → w < len s;
  li_pending o : o ∈ UPending → o < len s;
  li_propagated :
    propagated (λ u v o, u = Un ∧ o ∈ UPending ∧ ∃ w, w ∈ rest ∧ rep s w = rep s v) s;
  li_queued : queued (λ _, False) s
}.

Lemma push_wf V s : wf s → V < len s → wf (push V s).
Proof. intros [] HV. split; try done. intros W [->|?]%elem_of_cons; auto. Qed.

Lemma queued_push ex V s :
  V < len s → rep s V = V → queued (λ u, ex u ∨ u = V) s → queued ex (push V s).
Proof.
  intros HV HrV Hq u Hu Hr Hp. destruct (Hq u Hu Hr Hp) as [(w & Hw & Hrw)|[?| ->]]; [left|by right|left].
  - exists w. split; [by right|done].
  - exists V. split; [by left|done].
Qed.

(** One successor: it has the pending pointees afterwards, and possibly it has
    been merged with the node. *)
Lemma propagate_to_spec UPending w rest Un s :
  loop_inv UPending (w :: rest) Un s →
  let '(Un', s') := propagate_to UPending w (Un, s) in
  loop_inv UPending rest Un' s' ∧ ext s s' ∧ len s' = len s ∧ rep s' Un = Un'
  ∧ (all_fired s → all_fired s').
Proof.
  intros [Hwf [HU HrU] Hrest HUP Hprop Hq]. unfold propagate_to.
  assert (w < len s) as Hw by (apply Hrest; by left).
  pose proof (rep_lt s w Hwf Hw) as HV. pose proof (rep_rep s w Hwf Hw) as HrV.
  set (V := rep s w) in *. case_decide as HVU.
  { split_and!; try done. split; try done; [intros; apply Hrest; by right|].
    intros u v o Hu Hr Hv Ho. destruct (Hprop u v o Hu Hr Hv Ho) as [?|[?|(-> & HoU & w' & Hw' & Hrw')]];
      [by left|by right; left|right].
    apply elem_of_cons in Hw' as [->|Hw']; [left|right; eauto].
    unfold pts. rewrite <-Hrw'. fold V. by rewrite HVU. }
  unfold inbounds. rewrite bool_decide_eq_true_2 by done. simpl.
  pose proof (mergeWithDiff_spec V UPending s Hwf HV HrV HUP) as Hm.
  destruct (mergeWithDiff V UPending s) as [s' r]. destruct Hm as [Hab Hr].
  pose proof (ab_grows _ _ _ _ Hab) as Hg. pose proof (ab_wf _ _ _ _ Hab) as Hwf'.
  pose proof (gr_len _ _ Hg) as Hlen. pose proof (λ x, gr_rep _ _ x Hg) as Hrep.
  assert (propagated (λ u v o, u = Un ∧ o ∈ UPending ∧ ∃ w, w ∈ rest ∧ rep s' w = rep s' v) s') as Hprop'.
  { apply (ab_propagated _ _ _ _ Hab) in Hprop. intros u v o Hu Hru Hv Ho.
    destruct (Hprop u v o Hu Hru Hv Ho) as [?|[?|(-> & HoU & w' & Hw' & Hrw')]];
      [by left|by right; left|right].
    apply elem_of_cons in Hw' as [->|Hw']; [left|right; split_and!; try done; exists w'; by rewrite !Hrep].
    unfold pts. rewrite Hrep, <-Hrw'. fold V. rewrite (ab_pts _ _ _ _ Hab), decide_True by done.
    apply elem_of_union. by left. }
  destruct r.
  - apply (ab_queued _ _ _ _ Hab) in Hq. split_and!; [|by destruct (gr_ext s s' Hg); split|done|..].
    + split; [by apply push_wf; [|rewrite Hlen]|..|exact Hprop'|].
      * by rewrite (Hrep Un : rep (push V s') Un = _), (Hlen : len (push V s') = _).
      * intros w' Hw'. rewrite (Hlen : len (push V s') = _). apply Hrest. by right.
      * intros o Ho. rewrite (Hlen : len (push V s') = _). auto.
      * apply queued_push; [by rewrite Hlen|by rewrite Hrep|done].
    + by rewrite (Hrep Un : rep (push V s') Un = _).
    + apply (ab_fired _ _ _ _ Hab).
  - destruct Hr as [-> Hsub]. case_decide as Hcycle.
    2:{ split_and!; try done. split; try done. intros; apply Hrest; by right. }
    pose proof (merge_spec Un V s Hwf HU HV) as Hm. destruct (merge Un V s) as [t Rep]. simpl in Hm.
    pose proof (mg_len _ _ _ _ _ Hm) as Hlent. pose proof (mg_ext _ _ _ _ _ Hm) as Hext.
    destruct (mg_result _ _ _ _ _ Hm) as [HRep _].
    split_and!; [|done..|apply (mg_fired _ _ _ _ _ Hm)].
    pose proof (mg_wf _ _ _ _ _ Hm) as Hwft. split; rewrite ?Hlent; auto.
    + rewrite HRep. rewrite <-Hlent in HU |- *. split; [by apply rep_lt|by apply rep_rep].
    + intros w' Hw'. apply Hrest. by right.
    + apply (mg_propagated _ _ _ _ _ Hm) in Hprop'. intros u v o. rewrite Hlent. intros Hu Hru Hv Ho.
      rewrite <-Hlent in Hu. destruct (Hprop' u v o Hu Hru Hv Ho) as [?|[?|(-> & HoU & w' & Hw' & Hrw')]];
        [by left|by right; left|right; right].
      split_and!; [|done|exists w'; split; [done|]].
      * destruct (mg_live _ _ _ _ _ Hm Un HU Hru) as [?|[Hne _]]; [done|]. by rewrite HrU in Hne.
      * apply (ext_rep _ _ Hext); [apply Hrest; by right|rewrite <-Hlent; by eapply (wf_dsts t Hwft)|done].
    + by apply (mg_queued _ _ _ _ _ Hm).
Qed.

Lemma propagate_loop_spec UPending rest Un s :
  loop_inv UPending rest Un s →
  let '(Un', s') := for_each rest (propagate_to UPending) (Un, s) in
  loop_inv UPending [] Un' s' ∧ ext s s' ∧ len s' = len s ∧ (all_fired s → all_fired s').
Proof.
  revert Un s. induction rest as [|w rest IH]; intros Un s Hli; [done|]. rewrite for_each_cons.
  pose proof (propagate_to_spec UPending w rest Un s Hli) as Hstep.
  destruct (propagate_to UPending w (Un, s)) as [U1 s1]. destruct Hstep as (Hli1 & Hext & Hlen & _ & Hf).
  specialize (IH U1 s1 Hli1). destruct (for_each rest _ _) as [U2 s2].
  destruct IH as (? & Hext2 & Hlen2 & ?). split_and!; [done|by etrans|congruence|auto].
Qed.

(** * An iteration *)

(** Taking the pending pointees of the node off. *)
Definition popped s (rest : list nat) : state (U:=U) :=
  State (SCCUf s) (Nodes s) rest (Fatal s).

Lemma drained_loop_inv W rest s :
  inv s → PropWorklist s = W :: rest →
  let Un := rep s W in
  loop_inv (PendingPts (node s Un)) (rep s <$> AssignDsts (node s Un)) Un
    (upd Un (set_pending ∅) (popped s rest)).
Proof.
  intros [Hwf Hprop Hq] HW Un.
  assert (W < len s) as HWl by (apply (wf_worklist s Hwf); rewrite HW; by left).
  pose proof (rep_lt s W Hwf HWl) as HU. pose proof (rep_rep s W Hwf HWl) as HrU.
  fold Un in HU, HrU. set (t := upd _ _ _).
  assert (∀ V, node t V = if decide (Un = V) then set_pending ∅ (node s V) else node s V) as Hnode.
  { intros V. unfold t. rewrite node_upd. change (len (popped s rest)) with (len s).
    change (node (popped s rest) V) with (node s V). repeat case_decide; naive_solver. }
  assert (len t = len s) as Hlen by (unfold t; by rewrite len_upd).
  assert (∀ V, PtsSet (node t V) = PtsSet (node s V)) as Hpts by (intros V; rewrite Hnode; by case_decide).
  assert (∀ V, AssignDsts (node t V) = AssignDsts (node s V)) as Hdsts by (intros V; rewrite Hnode; by case_decide).
  assert (∀ k V, constraints k (node t V) = constraints k (node s V)) as Hcon.
  { intros k V. rewrite Hnode. case_decide; by destruct k. }
  assert (∀ k V, constraint_set k (node t V) = constraint_set k (node s V)) as Hset.
  { intros k V. rewrite Hnode. case_decide; by destruct k. }
  split; rewrite ?Hlen.
  - split; intros *; rewrite ?Hlen, ?Hpts, ?Hdsts, ?Hcon, ?Hset.
    + apply (wf_capacity s Hwf).
    + apply (wf_pts s Hwf).
    + rewrite Hnode. case_decide; [by intros ?%elem_of_empty|apply (wf_pending s Hwf)].
    + apply (wf_dsts s Hwf).
    + rewrite Hnode. case_decide; apply (wf_dst_set s Hwf).
    + apply (wf_constraints s Hwf).
    + apply (wf_constraint_set s Hwf).
    + intros HV. apply (wf_worklist s Hwf). rewrite HW. by right.
    + apply (wf_fatal s Hwf).
  - done.
  - intros w (v & -> & Hv)%list_elem_of_fmap. apply rep_lt; [done|]. by eapply (wf_dsts s Hwf).
  - intros o Ho%(wf_pending s Hwf). by eapply (wf_pts s Hwf).
  - intros u v o. rewrite Hlen, Hdsts, Hpts. intros Hu Hr Hv Ho.
    assert (pts t v = pts s v) as -> by apply Hpts.
    destruct (Hprop u v o Hu Hr Hv Ho) as [Hp|[?|[]]]; [|by right; left].
    rewrite Hnode. case_decide as HUu; [subst u|by left]. right; right. split_and!; [done..|].
    exists (rep s v). split; [apply list_elem_of_fmap; eauto|].
    change (rep s (rep s v) = rep s v). apply rep_rep; [done|]. by eapply (wf_dsts s Hwf).
  - intros u. rewrite Hlen, Hnode. intros Hu Hr. case_decide as HUu; [done|]. intros Hp.
    destruct (Hq u Hu Hr Hp) as [(w & Hw & Hrw)|[]]. left. exists w. split; [|done].
    rewrite HW in Hw. apply elem_of_cons in Hw as [->|Hw]; [|done]. by destruct HUu.
Qed.

Lemma drained_fired W rest s :
  all_fired s → all_fired (upd (rep s W) (set_pending ∅) (popped s rest)).
Proof.
  intros Hf. set (t := upd _ _ _).
  assert (∀ V, node t V = set_pending ∅ (node s V) ∨ node t V = node s V) as Hnode.
  { intros V. unfold t. rewrite node_upd. case_decide; auto. }
  assert (len t = len s) as Hlen by (unfold t; by rewrite len_upd).
  assert (∀ V, PtsSet (node t V) = PtsSet (node s V)) as Hpts by (intros V; by destruct (Hnode V) as [->| ->]).
  assert (∀ V, AssignDsts (node t V) = AssignDsts (node s V)) as Hd by (intros V; by destruct (Hnode V) as [->| ->]).
  assert (∀ x y, edge s x y → edge t x y) as He.
  { intros x y [?|(v & Hv & ?)]; [by left|right]. exists v. by rewrite Hd. }
  intros u o. rewrite Hlen, Hpts. intros Hu Hr Ho. destruct (Hf u o Hu Hr Ho) as [(HL & HS & HM & HD)|[]].
  left. split_and!.
  - intros d Hd'. apply He, HL. by destruct (Hnode u) as [E|E]; rewrite E in Hd'.
  - intros v Hv. apply He, HS. by destruct (Hnode u) as [E|E]; rewrite E in Hv.
  - intros D o' HDin Hback. rewrite Hlen, Hpts. intros. apply He, (HM D); try done.
    + by destruct (Hnode u) as [E|E]; rewrite E in HDin.
    + by destruct (Hnode D) as [E|E]; rewrite E in Hback.
  - intros S o' HSin Hback. rewrite Hlen, Hpts. intros. apply He, (HD S); try done.
    + by destruct (Hnode u) as [E|E]; rewrite E in HSin.
    + by destruct (Hnode S) as [E|E]; rewrite E in Hback.
Qed.

Lemma drained_grows V rest s : grows s (upd V (set_pending ∅) (popped s rest)).
Proof.
  assert (∀ W, node (upd V (set_pending ∅) (popped s rest)) W = set_pending ∅ (node s W)
    ∨ node (upd V (set_pending ∅) (popped s rest)) W = node s W) as Hnode.
  { intros W. rewrite node_upd. case_decide; auto. }
  split; try done; intros *.
  - apply (len_upd V _ (popped s rest)).
  - destruct (Hnode V0) as [->| ->]; by destruct k.
  - destruct (Hnode V0) as [->| ->]; by destruct k.
  - by destruct (Hnode V0) as [->| ->].
  - by destruct (Hnode V0) as [->| ->].
  - by destruct (Hnode V0) as [->| ->].
Qed.

Lemma popped_inv W rest s :
  inv s → PropWorklist s = W :: rest → PendingPts (node s (rep s W)) = ∅ → inv (popped s rest).
Proof.
  intros [Hwf Hprop Hq] HW Hp. split; [|exact Hprop|].
  - destruct Hwf. split; try done. intros V HV. apply wf_worklist0. rewrite HW. by right.
  - intros u Hu Hr Hpu. destruct (Hq u Hu Hr Hpu) as [(w & Hw & Hrw)|[]]. left. exists w.
    split; [|done]. rewrite HW in Hw. apply elem_of_cons in Hw as [->|Hw]; [|done].
    change (PendingPts (node s u) ≠ ∅) in Hpu. change (rep s W = u) in Hrw. by rewrite Hrw in Hp.
Qed.

Lemma propagate_step_spec s :
  inv s → inv (propagate_step s) ∧ ext s (propagate_step s)
    ∧ len (propagate_step s) = len s ∧ (all_fired s → all_fired (propagate_step s)).
Proof.
  intros Hinv. unfold propagate_step. destruct (PropWorklist s) as [|W rest] eqn:HW; [done|].
  change (State (SCCUf s) (Nodes s) rest (Fatal s)) with (popped s rest).
  change (rep (popped s rest) W) with (rep s W). change (node (popped s rest)) with (node s).
  assert (rep s W < len s) as HU.
  { apply rep_lt; [apply Hinv|]. apply (wf_worklist s (inv_wf s Hinv)). rewrite HW. by left. }
  unfold inbounds. rewrite bool_decide_eq_true_2 by done. simpl. case_bool_decide as Hp.
  { split_and!; [by eapply popped_inv|by apply gr_ext; split|done|done]. }
  pose proof (propagate_loop_spec _ _ _ _ (drained_loop_inv W rest s Hinv HW)) as Hloop.
  change (rep (popped s rest) <$> AssignDsts (node s (rep s W)))
    with (rep s <$> AssignDsts (node s (rep s W))).
  destruct (for_each _ (propagate_to _) _) as [Un' s']. simpl.
  destruct Hloop as (Hli & Hext & Hlen & Hf). split_and!.
  - split; [apply Hli| |apply Hli]. intros u v o Hu Hr Hv Ho.
    destruct (li_propagated _ _ _ _ Hli u v o Hu Hr Hv Ho) as [?|[?|(_ & _ & w & ?%elem_of_nil & _)]]; auto.
  - etrans; [|exact Hext]. apply gr_ext, drained_grows.
  - rewrite Hlen. apply (len_upd _ _ (popped s rest)).
  - intros. by apply Hf, drained_fired.
Qed.

(** ** Nothing is invented *)

Section below.
Context (σ : nat → nat → Prop).

Lemma propagate_to_below UPending w rest Un s :
  loop_inv UPending (w :: rest) Un s → below σ s →
  (∀ o, o ∈ UPending → σ Un o) → (∀ w', w' ∈ w :: rest → includes σ Un w') →
  let '(Un', s') := propagate_to UPending w (Un, s) in
  below σ s' ∧ (∀ o, o ∈ UPending → σ Un' o) ∧ ∀ w', w' ∈ rest → includes σ Un' w'.
Proof.
  intros Hli Hbl HUP Hinc. pose proof (propagate_to_spec _ _ _ _ _ Hli) as Hspec.
  destruct Hli as [Hwf [HU HrU] Hrest HUPl _ _].
  assert (w < len s) as Hw by (apply Hrest; by left).
  pose proof (rep_lt s w Hwf Hw) as HV. pose proof (rep_rep s w Hwf Hw) as HrV.
  assert (includes σ Un (rep s w)) as HUV.
  { intros o Ho. apply (bl_rep σ s Hbl w); [done..|by rewrite HrV|]. by apply (Hinc w); [left|]. }
  unfold propagate_to in *. set (V := rep s w) in *.
  case_decide; [split_and!; [done..|intros; apply Hinc; by right]|].
  unfold inbounds in *. rewrite bool_decide_eq_true_2 in * by done. simpl in *.
  pose proof (below_mergeWithDiff σ V UPending s Hwf HV HrV HUPl) as Hblm.
  pose proof (mergeWithDiff_spec V UPending s Hwf HV HrV HUPl) as Hm.
  destruct (mergeWithDiff V UPending s) as [s' r]. simpl in *. destruct r.
  - split_and!; [|done|intros; apply Hinc; by right]. destruct Hblm; [auto|done|]. by split.
  - destruct Hm as [_ [-> _]]. case_decide as Hcycle; [|split_and!; [done..|intros; apply Hinc; by right]].
    pose proof (merge_below σ Un V s Hwf HU HV) as Hblt.
    destruct (merge Un V s) as [t Rep]. simpl in *. destruct Hspec as (Hli' & Hext & Hlen & HRep & _).
    assert (below σ t) as Hblt'.
    { apply Hblt; [|done]. intros o. split; [apply HUV|].
      apply (bl_dsts σ s Hbl). by apply (wf_dst_set s Hwf). }
    assert (∀ o, σ Rep o ↔ σ Un o) as HRU.
    { destruct (li_U _ _ _ _ Hli') as [HR HrR]. rewrite <-Hlen in HU.
      intros o; split; apply (bl_rep σ t Hblt'); congruence. }
    split_and!; [done| |]; [intros; by apply HRU, HUP|].
    intros w' Hw' o Ho%HRU. apply (Hinc w'); [by right|done].
Qed.

Lemma propagate_loop_below UP l Un s :
  loop_inv UP l Un s → below σ s → (∀ o, o ∈ UP → σ Un o) →
  (∀ w, w ∈ l → includes σ Un w) →
  below σ (for_each l (propagate_to UP) (Un, s)).2.
Proof.
  revert Un s. induction l as [|w l IH]; intros Un s Hli Hbl HUP Hinc; [done|].
  rewrite for_each_cons.
  pose proof (propagate_to_below UP w l Un s Hli Hbl HUP Hinc) as Hb.
  pose proof (propagate_to_spec UP w l Un s Hli) as Hs.
  destruct (propagate_to UP w (Un, s)) as [U2 s2]. apply IH; naive_solver.
Qed.

Lemma propagate_step_below s : inv s → below σ s → below σ (propagate_step s).
Proof.
  intros Hinv Hbl. unfold propagate_step. destruct (PropWorklist s) as [|W rest] eqn:HW; [done|].
  change (State (SCCUf s) (Nodes s) rest (Fatal s)) with (popped s rest).
  change (rep (popped s rest) W) with (rep s W). change (node (popped s rest)) with (node s).
  assert (below σ (popped s rest)) as Hblp by (destruct Hbl; by split).
  assert (rep s W < len s) as HU.
  { apply rep_lt; [apply Hinv|]. apply (wf_worklist s (inv_wf s Hinv)). rewrite HW. by left. }
  unfold inbounds. rewrite bool_decide_eq_true_2 by done. simpl. case_bool_decide as Hp; [done|].
  pose proof (drained_loop_inv W rest s Hinv HW) as Hli. simpl in Hli.
  change (rep (popped s rest) <$> AssignDsts (node s (rep s W)))
    with (rep s <$> AssignDsts (node s (rep s W))).
  set (UP := PendingPts _) in *. set (l := rep s <$> _) in *.
  set (s1 := upd (rep s W) (set_pending ∅) (popped s rest)) in *.
  assert (below σ s1) as Hbl1.
  { pose proof (drained_grows (rep s W) rest s) as Hg. fold s1 in Hg. split.
    - intros x y o. rewrite (gr_len _ _ Hg), !(gr_rep _ _ _ Hg). apply (bl_rep σ s Hbl).
    - intros V o. unfold s1. rewrite node_upd. case_decide; apply (bl_pts σ s Hbl).
    - intros V d. unfold s1. rewrite node_upd. case_decide; apply (bl_dsts σ s Hbl).
    - intros k V c. rewrite (gr_con _ _ Hg). apply (bl_con σ s Hbl). }
  assert (∀ o, o ∈ UP → σ (rep s W) o) as HUP.
  { intros o Ho. apply (bl_pts σ s Hbl). by apply (wf_pending s (inv_wf s Hinv)). }
  assert (∀ w, w ∈ l → includes σ (rep s W) w) as Hinc.
  { intros w (v & -> & Hv)%list_elem_of_fmap o Ho.
    assert (v < len s) by (by eapply (wf_dsts s (inv_wf s Hinv))).
    apply (bl_rep σ s Hbl v); [done|by apply rep_lt; [apply Hinv|]|by rewrite rep_rep; [|apply Hinv|]|].
    by apply (bl_dsts σ s Hbl (rep s W)). }
  by apply propagate_loop_below.
Qed.
End below.
End propagate.
End AndersenPropagate.

Module AndersenTermination.
Import Andersen AndersenEdges AndersenPointees AndersenMerge AndersenPropagate.
Section termination.
Context {U : Type} `{!IntEqClasses U} `{!IntEqClassesLaws U}.
Implicit Types (s t : state (U:=U)).

Notation len s := (length (Nodes s)).

(** * The measure *)

Definition lives s (V : nat) : nat := if decide (V < len s ∧ rep s V = V) then 1 else 0.
Definition live s : nat := sum_of (lives s) (seq 0 (len s)).

(** The pointees that a node does not have. *)
Definition room s (V : nat) : nat := len s - size (PtsSet (node s V)).
Definition total_room s : nat := sum_of (room s) (seq 0 (len s)).

Definition rank s : nat := live s * S (len s * len s) + total_room s.

Lemma total_room_le s : total_room s ≤ len s * len s.
Proof.
  unfold total_room. etrans; [apply (sum_of_le_const _ _ (len s))|by rewrite length_seq].
  intros V _. unfold room. lia.
Qed.

Lemma size_pts s V : wf s → size (PtsSet (node s V)) ≤ len s.
Proof.
  intros Hwf. replace (len s) with (size (list_to_set (C:=gset nat) (seq 0 (len s)))).
  - apply subseteq_size. intros o Ho%(wf_pts s Hwf). apply elem_of_list_to_set, elem_of_seq. lia.
  - rewrite size_list_to_set by apply NoDup_seq. apply length_seq.
Qed.

(** A new pointee somewhere. *)
Lemma rank_pointee s s' V o :
  wf s' → grows s s' → V < len s → o ∈ PtsSet (node s' V) → o ∉ PtsSet (node s V) →
  rank s' < rank s.
Proof.
  intros Hwf' Hg HV Ho Hno. pose proof (gr_len _ _ Hg) as Hlen.
  assert (live s' = live s) as Hlive.
  { unfold live. rewrite Hlen. apply sum_of_ext. intros W. unfold lives. by rewrite Hlen, (gr_rep _ _ _ Hg). }
  assert (total_room s' < total_room s); [|unfold rank; rewrite Hlive, Hlen; lia].
  unfold total_room, room. rewrite Hlen. apply (sum_of_lt _ _ _ V); [apply elem_of_seq; lia|..].
  - pose proof (size_pts s' V Hwf') as Hb. rewrite Hlen in Hb.
    assert (size (PtsSet (node s V)) < size (PtsSet (node s' V))); [|lia].
    apply subset_size. split; [intros x; apply (gr_pts _ _ Hg)|set_solver].
  - intros W. assert (size (PtsSet (node s W)) ≤ size (PtsSet (node s' W))); [|lia].
    apply subseteq_size. intros x. apply (gr_pts _ _ Hg).
Qed.

(** Two nodes become one. *)
Lemma rank_merge A B s s' r :
  wf s → merged A B s s' r → A < len s → B < len s → rep s A ≠ rep s B → rank s' < rank s.
Proof.
  intros Hwf Hm HA HB Hne. pose proof (mg_len _ _ _ _ _ Hm) as Hlen.
  assert (∃ N, N < len s ∧ rep s N = N ∧ rep s' N ≠ N) as (N & HN & HrN & HN').
  { pose proof (rep_lt s A Hwf HA). pose proof (rep_lt s B Hwf HB).
    pose proof (mg_live _ _ _ _ _ Hm (rep s A)). pose proof (mg_live _ _ _ _ _ Hm (rep s B)).
    destruct (mg_choice _ _ _ _ _ Hm) as [->| ->].
    - exists (rep s B). split_and!; [done|by apply rep_rep|]. naive_solver.
    - exists (rep s A). split_and!; [done|by apply rep_rep|]. naive_solver. }
  assert (live s' < live s) as Hlive.
  { unfold live. rewrite Hlen. apply (sum_of_lt _ _ _ N); [apply elem_of_seq; lia|..]; unfold lives.
    - rewrite (decide_True (P:=N < len s ∧ _)) by done. rewrite decide_False by (by intros [_ ?]). lia.
    - intros W. rewrite Hlen. case_decide as HW; [|lia]. rewrite decide_True; [done|].
      destruct HW. split; [done|]. by apply (ext_live _ _ (mg_ext _ _ _ _ _ Hm)). }
  pose proof (total_room_le s') as Hr. unfold rank. rewrite Hlen in *. nia.
Qed.

(** * An iteration *)

(** One successor: nothing happens, or the measure goes down. *)
Lemma propagate_to_rank UPending w rest Un s :
  loop_inv UPending (w :: rest) Un s →
  propagate_to UPending w (Un, s) = (Un, s) ∨ rank (propagate_to UPending w (Un, s)).2 < rank s.
Proof.
  intros [Hwf [HU HrU] Hrest HUP _ _]. unfold propagate_to.
  assert (w < len s) as Hw by (apply Hrest; by left).
  pose proof (rep_lt s w Hwf Hw) as HV. pose proof (rep_rep s w Hwf Hw) as HrV.
  set (V := rep s w) in *. case_decide; [by left|].
  unfold inbounds. rewrite bool_decide_eq_true_2 by done. simpl.
  pose proof (mergeWithDiff_spec V UPending s Hwf HV HrV HUP) as Hm.
  destruct (mergeWithDiff V UPending s) as [s' r]. destruct Hm as [Hab Hr]. destruct r.
  - right. simpl. change (rank (push V s')) with (rank s').
    destruct (set_choose_or_empty (UPending ∖ PtsSet (node s V))) as [[o [Ho Hno]%elem_of_difference]|Hempty].
    2:{ exfalso. apply Hr. intros o Ho. destruct (decide (o ∈ PtsSet (node s V))); set_solver. }
    apply (rank_pointee s s' V o); [apply Hab|apply Hab|done| |done].
    rewrite (ab_pts _ _ _ _ Hab), decide_True by done. set_solver.
  - destruct Hr as [-> _]. case_decide; [right|by left].
    pose proof (merge_spec Un V s Hwf HU HV) as Hm. destruct (merge Un V s) as [t Rep]. simpl in *.
    apply (rank_merge Un V s t Rep); try done. by rewrite HrU, HrV.
Qed.

Lemma propagate_loop_rank UPending rest Un s :
  loop_inv UPending rest Un s →
  (for_each rest (propagate_to UPending) (Un, s)).2 = s
  ∨ rank (for_each rest (propagate_to UPending) (Un, s)).2 < rank s.
Proof.
  revert Un s. induction rest as [|w rest IH]; intros Un s Hli; [by left|]. rewrite for_each_cons.
  pose proof (propagate_to_spec UPending w rest Un s Hli) as Hspec.
  pose proof (propagate_to_rank UPending w rest Un s Hli) as Hrank.
  destruct (propagate_to UPending w (Un, s)) as [U1 s1]. destruct Hspec as (Hli1 & _).
  destruct (IH U1 s1 Hli1) as [Heq|Hlt]; destruct Hrank as [[= -> ->]|?]; simpl in *; auto; right; [|lia].
  by rewrite Heq.
Qed.

Lemma propagate_step_rank W rest s :
  inv s → PropWorklist s = W :: rest →
  rank (propagate_step s) < rank s
  ∨ rank (propagate_step s) = rank s ∧ PropWorklist (propagate_step s) = rest.
Proof.
  intros Hinv HW. unfold propagate_step. rewrite HW.
  change (State (SCCUf s) (Nodes s) rest (Fatal s)) with (popped s rest).
  change (rep (popped s rest) W) with (rep s W). change (node (popped s rest)) with (node s).
  destruct (_ || _); [by right|].
  pose proof (propagate_loop_rank _ _ _ _ (drained_loop_inv W rest s Hinv HW)) as Hloop.
  change (rep (popped s rest) <$> AssignDsts (node s (rep s W)))
    with (rep s <$> AssignDsts (node s (rep s W))).
  set (s1 := upd _ _ (popped s rest)) in *.
  assert (rank s1 = rank s) as <-.
  { assert (len s1 = len s) as Hlen by apply (len_upd _ _ (popped s rest)).
    unfold rank, live, total_room. rewrite Hlen. f_equal; [f_equal|]; apply sum_of_ext; intros V.
    - unfold lives. by rewrite Hlen.
    - unfold room. rewrite Hlen. unfold s1. rewrite node_upd. by case_decide. }
  destruct Hloop as [->|]; auto.
Qed.

(** * [propagate] *)

Lemma propagate_step_inv s : inv s → inv (propagate_step s).
Proof. intros Hinv. by destruct (propagate_step_spec s Hinv). Qed.

Lemma propagate_terminates s : inv s → ∃ k, is_Some (propagate k s).
Proof.
  remember (rank s) as m eqn:Hm. revert s Hm.
  induction m as [m IHm] using lt_wf_ind. intros s ->.
  remember (PropWorklist s) as W eqn:HW. revert s HW IHm.
  induction W as [|W rest IHrest]; intros s HW IHm Hinv.
  { exists 0. simpl. rewrite <-HW. eauto. }
  assert (∃ k, is_Some (propagate k (propagate_step s))) as [k Hk].
  { destruct (propagate_step_rank W rest s Hinv) as [Hlt|[Heq Hwl]]; [done|..].
    - by eapply IHm; [exact Hlt|..|apply propagate_step_inv].
    - apply IHrest; [done| |by apply propagate_step_inv].
      intros m Hlt. apply IHm. lia. }
  exists (S k). simpl. by rewrite <-HW.
Qed.

(** More fuel gives the same result. *)
Lemma propagate_fuel k k' s t : k ≤ k' → propagate k s = Some t → propagate k' s = Some t.
Proof.
  revert k' s. induction k as [|k IH]; intros k' s Hle; [simpl|destruct k' as [|k']; [lia|simpl]].
  - destruct (PropWorklist s) eqn:HW; [|done]. destruct k'; simpl; by rewrite HW.
  - destruct (PropWorklist s); [done|]. apply IH. lia.
Qed.

(** What holds at the start of every iteration holds at the end. *)
Lemma propagate_ind (I : state → Prop) k s t :
  (∀ s, inv s → I s → I (propagate_step s)) → inv s → I s → propagate k s = Some t →
  inv t ∧ I t ∧ PropWorklist t = [].
Proof.
  intros Hstep. revert s. induction k as [|k IH]; intros s Hinv HI; simpl;
    (destruct (PropWorklist s) eqn:HW; [by intros [= ->]|]); [done|].
  apply IH; [by apply propagate_step_inv|by apply Hstep].
Qed.

(** When the work list is empty, every edge is respected. *)
Lemma drained_solution s u v o :
  inv s → PropWorklist s = [] → u < len s → v < len s → edge s u v → o ∈ pts s u → o ∈ pts s v.
Proof.
  intros [Hwf Hprop Hq] HW Hu Hv [Hr|(d & Hd & Hr)] Ho; [unfold pts in *; by rewrite <-Hr|].
  pose proof (rep_lt s u Hwf Hu) as Hul. pose proof (rep_rep s u Hwf Hu) as Hrr.
  destruct (Hprop (rep s u) d o Hul Hrr Hd Ho) as [Hp|[Hp|[]]].
  - destruct (Hq (rep s u) Hul Hrr) as [(w & Hw & _)|[]]; [set_solver|].
    rewrite HW in Hw. by apply elem_of_nil in Hw.
  - unfold pts in *. by rewrite <-Hr.
Qed.
End termination.
End AndersenTermination.
