(* ===== verification/AndersenCalls.v ===== *)
(** The calls of the Andersen solver: what each of them records, that it keeps
    the invariants, and that it stays below every solution. *)
From S2P Require Import Prelude UnionFind Andersen AndersenEdges AndersenPointees.
From S2P Require Import AndersenMerge AndersenPropagate.

Module AndersenCalls.
Import Andersen AndersenEdges AndersenPointees AndersenMerge AndersenPropagate AndersenTermination.

(** * What a call asks for *)

(** The inclusion constraint a call stands for, on an assignment of pointees to
    nodes. *)
Definition satisfies (σ : nat → nat → Prop) (c : call) : Prop :=
  match c with
  | Node _ | Propagate => True
  | Pointee Ptr Obj => σ Ptr Obj
  | AssignEdge Src Dst => includes σ Src Dst
  | Load Ptr Dst => ∀ o, σ Ptr o → includes σ o Dst
  | Store Ptr Src => ∀ o, σ Ptr o → includes σ Src o
  | MemCopy SrcPtr DstPtr => ∀ o o', σ SrcPtr o → σ DstPtr o' → includes σ o o'
  | Merge A B => ∀ o, σ A o ↔ σ B o
  end.

(** The nodes of a call have been allocated, where [n] are. *)
Definition in_range (n : nat) (c : call) : bool :=
  match c with
  | Node _ | Propagate => true
  | Pointee a b | AssignEdge a b | Load a b | Store a b | MemCopy a b | Merge a b =>
    bool_decide (a < n ∧ b < n)
  end.

Definition allocated (n : nat) (c : call) : nat :=
  match c with Node V => n `max` S V | _ => n end.

Section calls.
Context {U : Type} `{!IntEqClasses U} `{!IntEqClassesLaws U}.
Implicit Types (s t : state (U:=U)) (k : Kind).

Notation len s := (length (Nodes s)).
Notation all_fired := (fired (λ _ _, False)).

(** What the state keeps of a call: constraints are kept at the representative
    of their pointer, and name the representatives of their other node at the
    time of the call. *)
Definition recorded s (c : call) : Prop :=
  match c with
  | Node _ | Propagate => True
  | Pointee Ptr Obj => Obj ∈ pts s Ptr
  | AssignEdge Src Dst => edge s Src Dst
  | Load Ptr Dst => ∃ d, d < len s ∧ rep s d = rep s Dst ∧ has_constraint KLoad s Ptr d
  | Store Ptr Src => ∃ v, v < len s ∧ rep s v = rep s Src ∧ has_constraint KStore s Ptr v
  | MemCopy SrcPtr DstPtr =>
    (rep s DstPtr = DstPtr → has_constraint KMemSrc s SrcPtr DstPtr)
    ∧ (rep s SrcPtr = SrcPtr → has_constraint KMemDst s DstPtr SrcPtr)
  | Merge A B => rep s A = rep s B
  end.

Lemma recorded_ext n s s' c :
  n ≤ len s → in_range n c → ext s s' → recorded s c → recorded s' c.
Proof.
  intros Hn Hc Hext. pose proof (ext_len _ _ Hext) as Hlen.
  destruct c; simpl in *; try apply bool_decide_unpack in Hc; try destruct Hc; try done.
  - apply (ext_pts _ _ Hext). lia.
  - apply (ext_edge _ _ Hext); lia.
  - intros (d & Hd & Hr & Hcon). exists d. split_and!; [lia| |].
    + apply (ext_rep _ _ Hext); [lia..|done].
    + apply (ext_con _ _ Hext); [lia|done].
  - intros (d & Hd & Hr & Hcon). exists d. split_and!; [lia| |].
    + apply (ext_rep _ _ Hext); [lia..|done].
    + apply (ext_con _ _ Hext); [lia|done].
  - intros [HM HD]. split; intros Hr%(ext_live _ _ Hext); try lia;
      (apply (ext_con _ _ Hext); [lia|auto]).
  - apply (ext_rep _ _ Hext); lia.
Qed.

(** The constraints of a node fire when they are added and when [propagate]
    brings a pointee; a pointee added by a call must come first. *)
Definition timely s (c : call) : bool :=
  match c with
  | Pointee Ptr Obj =>
    bool_decide (Obj ∈ pts s Ptr)
    || bool_decide (LoadDsts (node s (rep s Ptr)) = [] ∧ StoreSrcs (node s (rep s Ptr)) = []
         ∧ MemCopyAsSrc (node s (rep s Ptr)) = [] ∧ MemCopyAsDst (node s (rep s Ptr)) = [])
  | _ => true
  end.

Record called (c : call) s s' : Prop := {
  cl_inv : inv s';
  cl_len : len s' = allocated (len s) c;
  cl_ext : ext s s';
  cl_recorded : recorded s' c;
  cl_fired : timely s c → all_fired s → all_fired s';
  cl_below σ : satisfies σ c → below σ s → below σ s'
}.

(** * Allocation *)

Record grown s s' : Prop := {
  gw_len : len s ≤ len s';
  gw_capacity : ec_capacity (SCCUf s') = len s';
  gw_rep x : x < len s → rep s' x = rep s x;
  gw_new x : len s ≤ x < len s' → rep s' x = x;
  gw_node V : node s' V = node s V;
  gw_worklist : PropWorklist s' = PropWorklist s;
  gw_fatal : Fatal s' = Fatal s
}.

Lemma grow_grown V s : wf s → grown s (grow V s) ∧ len (grow V s) = len s `max` S V.
Proof.
  intros Hwf. pose proof (wf_capacity s Hwf) as Hcap. unfold grow.
  case_decide as HV; [|split; [split; try done; lia|lia]].
  assert (length (Nodes s ++ replicate (S V - len s) NodeInfo_default) = S V) as Hlen.
  { rewrite length_app, length_replicate. lia. }
  split; [split; simpl; rewrite ?Hlen|simpl; lia].
  - lia.
  - unfold UnionFind.grow. rewrite capacity_grow, Hcap. lia.
  - intros x Hx. apply leader_grow_old. by rewrite Hcap.
  - intros x Hx. apply leader_grow_new. rewrite Hcap. lia.
  - intros W. unfold node. simpl. destruct (decide (W < len s)).
    + by rewrite lookup_total_app_l.
    + rewrite lookup_total_app_r by lia. rewrite !list_lookup_total_alt, (lookup_ge_None_2 _ W) by lia.
      destruct (decide (W - len s < S V - len s)).
      * by rewrite lookup_replicate_2.
      * by rewrite lookup_ge_None_2 by (rewrite length_replicate; lia).
  - done.
  - done.
Qed.

Lemma grow_id V s : V < len s → grow V s = s.
Proof. intros HV. unfold grow. by rewrite decide_False by lia. Qed.

Section grown.
Context s s' (Hwf : wf s) (Hg : grown s s').

Lemma grown_node_old V o (f : NodeInfo → list nat) : f NodeInfo_default = [] → o ∈ f (node s V) → V < len s.
Proof.
  intros Hf Ho. destruct (decide (V < len s)); [done|].
  rewrite node_ge, Hf in Ho by lia. by apply elem_of_nil in Ho.
Qed.

Lemma grown_wf : wf s'.
Proof.
  pose proof (gw_len _ _ Hg) as Hlen. split; intros *; rewrite ?(gw_node _ _ Hg).
  - apply Hg.
  - intros ?%(wf_pts s Hwf). lia.
  - apply (wf_pending s Hwf).
  - intros ?%(wf_dsts s Hwf). lia.
  - apply (wf_dst_set s Hwf).
  - intros ?%(wf_constraints s Hwf). lia.
  - destruct (decide (V < len s)).
    + rewrite (gw_rep _ _ Hg) by done. apply (wf_constraint_set s Hwf).
    + rewrite (node_ge s) by lia. by destruct k.
  - rewrite (gw_worklist _ _ Hg). intros ?%(wf_worklist s Hwf). lia.
  - rewrite (gw_fatal _ _ Hg). apply (wf_fatal s Hwf).
Qed.

Lemma grown_edge x y : x < len s → y < len s → edge s x y → edge s' x y.
Proof.
  intros Hx Hy [Hr|(v & Hv & Hr)]; unfold edge; rewrite !(gw_rep _ _ Hg) by done; [by left|right].
  exists v. rewrite (gw_node _ _ Hg), (gw_rep _ _ Hg) by (by eapply (wf_dsts s Hwf)). done.
Qed.

Lemma grown_ext : ext s s'.
Proof.
  split.
  - apply Hg.
  - intros x y Hx Hy. by rewrite !(gw_rep _ _ Hg).
  - intros x Hx. by rewrite (gw_rep _ _ Hg).
  - intros x o Hx. unfold pts. by rewrite (gw_rep _ _ Hg), (gw_node _ _ Hg).
  - apply grown_edge.
  - intros k x c Hx. unfold has_constraint. by rewrite (gw_rep _ _ Hg), (gw_node _ _ Hg).
Qed.

Lemma grown_inv : inv s → inv s'.
Proof.
  intros [_ Hp Hq]. split; [apply grown_wf|..].
  - intros u v o. rewrite (gw_node _ _ Hg). intros _ Hr Hv Ho.
    assert (u < len s) as Hu by (by apply (grown_node_old u v AssignDsts)).
    rewrite (gw_rep _ _ Hg) in Hr by done. destruct (Hp u v o Hu Hr Hv Ho) as [?|[?|[]]]; [by left|].
    right; left. apply (ext_pts _ _ grown_ext); [by eapply (wf_dsts s Hwf)|done].
  - intros u. rewrite (gw_node _ _ Hg). intros _ Hr Hpu. destruct (decide (u < len s)) as [Hu|].
    + rewrite (gw_rep _ _ Hg) in Hr by done. destruct (Hq u Hu Hr Hpu) as [(w & Hw & Hrw)|[]].
      left. exists w. rewrite (gw_worklist _ _ Hg), (gw_rep _ _ Hg) by (by apply (wf_worklist s Hwf)). done.
    + by rewrite node_ge in Hpu by lia.
Qed.

Lemma pts_old W o : o ∈ PtsSet (node s W) → W < len s.
Proof.
  intros Ho. destruct (decide (W < len s)); [done|]. rewrite node_ge in Ho by lia.
  by apply elem_of_empty in Ho.
Qed.

Lemma grown_fired : all_fired s → all_fired s'.
Proof.
  intros Hf u o. rewrite (gw_node _ _ Hg). intros _ Hr Ho. pose proof (pts_old u o Ho) as Hu.
  rewrite (gw_rep _ _ Hg) in Hr by done. pose proof (wf_pts s Hwf u o Ho) as Hol.
  destruct (Hf u o Hu Hr Ho) as [(HL & HS & HM & HD)|[]]. left. unfold fired_at. rewrite !(gw_node _ _ Hg).
  split_and!.
  - intros d Hd. apply grown_edge; [done|by apply (wf_constraints s Hwf KLoad u)|auto].
  - intros v Hv. apply grown_edge; [by apply (wf_constraints s Hwf KStore u)|done|auto].
  - intros D o'. rewrite (gw_node _ _ Hg). intros HDin Hback _ HrD Ho'. pose proof (pts_old D o' Ho') as HDl.
    rewrite (gw_rep _ _ Hg) in HrD by done. apply grown_edge; [done|by eapply (wf_pts s Hwf)|by apply (HM D)].
  - intros W o'. rewrite (gw_node _ _ Hg). intros HWin Hback _ HrW Ho'. pose proof (pts_old W o' Ho') as HWl.
    rewrite (gw_rep _ _ Hg) in HrW by done. apply grown_edge; [by eapply (wf_pts s Hwf)|done|by apply (HD W)].
Qed.

Lemma grown_below σ : below σ s → below σ s'.
Proof.
  intros Hbl. split; intros *; rewrite ?(gw_node _ _ Hg); [|apply Hbl..].
  assert (∀ z, z < len s → rep s z < len s) as Hz by (intros; by apply rep_lt).
  intros Hx Hy. destruct (decide (x < len s)) as [Hxo|], (decide (y < len s)) as [Hyo|].
  - rewrite !(gw_rep _ _ Hg) by done. by apply (bl_rep σ s Hbl).
  - rewrite (gw_rep _ _ Hg), (gw_new _ _ Hg) by (done || lia). specialize (Hz x Hxo). lia.
  - rewrite (gw_new _ _ Hg), (gw_rep _ _ Hg y) by (done || lia). specialize (Hz y Hyo). lia.
  - rewrite !(gw_new _ _ Hg) by lia. by intros ->.
Qed.
End grown.

Lemma Node_called V s : inv s → called (Node V) s (grow V s).
Proof.
  intros Hinv. destruct (grow_grown V s (inv_wf s Hinv)) as [Hg Hlen]. pose proof (inv_wf s Hinv) as Hwf.
  split; [by apply (grown_inv s)|done|by apply grown_ext|done|intros _; by apply grown_fired|].
  intros σ _. by apply grown_below.
Qed.

(** * Constraint insertion *)

(** The solution is the same at a node and at its representative. *)
Lemma below_rep σ s x o : wf s → x < len s → below σ s → σ x o ↔ σ (rep s x) o.
Proof.
  intros Hwf Hx Hbl. pose proof (rep_lt s x Hwf Hx). pose proof (rep_rep s x Hwf Hx).
  split; by apply (bl_rep σ s Hbl).
Qed.

Lemma includes_rep σ s x y :
  wf s → x < len s → y < len s → below σ s → includes σ x y → includes σ (rep s x) (rep s y).
Proof.
  intros Hwf Hx Hy Hbl Hxy o Ho. apply (below_rep σ s y); [done..|]. apply Hxy.
  by apply (below_rep σ s x).
Qed.

Lemma below_push σ V s : below σ s → below σ (push V s).
Proof. intros []. by split. Qed.

Lemma Pointee_called Ptr Obj s :
  inv s → in_range (len s) (Pointee Ptr Obj) → called (Pointee Ptr Obj) s (addPointee Ptr Obj s).
Proof.
  intros Hinv [HP HO]%bool_decide_unpack. destruct Hinv as [Hwf Hprop Hq].
  pose proof (rep_lt s Ptr Hwf HP) as HR. pose proof (rep_rep s Ptr Hwf HP) as HrR.
  unfold addPointee. rewrite (grow_id (rep s Ptr)), (grow_id Obj) by done. case_decide as Hin.
  { split; simpl; try done; by split. }
  set (t := upd (rep s Ptr) (add_pts {[Obj]}) s).
  assert (∀ o : nat, o ∈ ({[Obj]} : gset nat) → o < len s) as HD by (by intros o ->%elem_of_singleton).
  pose proof (add_pts_grows (rep s Ptr) {[Obj]} s HR) as Hg. fold t in Hg.
  pose proof (add_pts_wf (rep s Ptr) {[Obj]} s Hwf HR HD) as Hwft. fold t in Hwft.
  pose proof (gr_len _ _ Hg) as Hlen. split.
  - split; [apply push_wf; [done|by rewrite Hlen]|by apply (add_pts_propagated _ (rep s Ptr))|].
    apply queued_push; [by rewrite Hlen|by rewrite (gr_rep _ _ _ Hg)|by apply add_pts_queued].
  - done.
  - destruct (gr_ext s t Hg). by split.
  - change (Obj ∈ pts t Ptr). unfold pts, t. rewrite rep_upd, node_add_pts, decide_True by done.
    apply elem_of_union. left. by apply elem_of_singleton.
  - simpl. intros [Hk|Hnil]%orb_prop_elim; [by apply bool_decide_unpack in Hk|].
    apply bool_decide_unpack in Hnil as (HL & HS & HM & HDs). intros Hf.
    apply (add_pts_fired (λ _ _, False) (rep s Ptr) {[Obj]} s); [done..| |].
    { fold t. split; try done. intros W ?. by right. }
    intros o _. unfold fired_at. change (node (push (rep s Ptr) t)) with (node t).
    rewrite (gr_con _ _ Hg KLoad (rep s Ptr) : LoadDsts _ = _), (gr_con _ _ Hg KStore (rep s Ptr) : StoreSrcs _ = _),
      (gr_con _ _ Hg KMemSrc (rep s Ptr) : MemCopyAsSrc _ = _), (gr_con _ _ Hg KMemDst (rep s Ptr) : MemCopyAsDst _ = _).
    simpl. rewrite HL, HS, HM, HDs.
    split_and!; intros x; [..|intros y|intros y]; intros []%elem_of_nil.
  - intros σ Hσ Hbl. apply below_push, below_add_pts; [done| |done].
    intros o ->%elem_of_singleton. by apply (below_rep σ s Ptr).
Qed.

Lemma AssignEdge_called Src Dst s :
  inv s → in_range (len s) (AssignEdge Src Dst) → called (AssignEdge Src Dst) s (addAssignEdge Src Dst s).
Proof.
  intros [Hwf Hprop Hq] [HS HD]%bool_decide_unpack.
  destruct (addAssignEdge_spec Src Dst s Hwf HS HD) as [Hsame Hwf' He _ Hp' Hq'].
  split; [by split; auto|by apply Hsame|by apply sbe_ext|done|intros _; by apply sbe_fired|].
  intros σ Hσ Hbl. by apply below_edge.
Qed.

(** A constraint whose edges have been added before it. *)
Lemma edges_then_constrain k V c s s' :
  wf s → V < len s → rep s V = V → c < len s → edges (λ _ _, True) s s' →
  owed k s' (PtsSet (node s V)) c → constrained V [(k, c)] s (upd V (add_constraint k c) s').
Proof.
  intros Hwf HV HrV Hc He Ho. pose proof (edges_same _ _ _ He Hwf) as Hs.
  pose proof (edges_constrained _ V s s' He Hwf) as H1.
  assert (constrained V [(k, c)] s' (upd V (add_constraint k c) s')) as H2.
  { apply (constrain_then_edges (λ _ _, True) k V); rewrite ?(sbe_len _ _ Hs), ?(sbe_rep _ _ _ Hs); try done.
    - by apply (edges_wf _ _ _ He).
    - rewrite (sbe_pts _ _ Hs). intros o Hin. specialize (Ho o Hin).
      assert (∀ x y, edge s' x y → edge (upd V (add_constraint k c) s') x y) as Hk.
      { intros x y [?|(v & Hv & ?)]; [by left|right]. exists v. split; [|done].
        rewrite node_upd. case_decide; by autorewrite with phasar_tables. }
      assert (∀ W, PtsSet (node (upd V (add_constraint k c) s') W) = PtsSet (node s' W)) as Hp.
      { intros W. rewrite node_upd. case_decide; by autorewrite with phasar_tables. }
      destruct k; auto; intros o'; rewrite Hp; auto. }
  apply (constrained_trans _ _ _ _ _ _ H1 H2).
Qed.

Lemma constrained_inv V new s s' : constrained V new s s' → inv s → inv s'.
Proof. intros [] []. split; auto. Qed.

Lemma constraint_below σ k V c s s' :
  wf s → V < len s → rep s V = V → holds σ k V c → below σ s → edges (includes σ) s s' →
  below σ (upd V (add_constraint k c) s').
Proof.
  intros Hwf HV HrV Hh Hbl He. pose proof (edges_same _ _ _ He Hwf) as Hs.
  apply below_add_constraint; rewrite ?(sbe_len _ _ Hs), ?(sbe_rep _ _ _ Hs); try done.
  - by apply (edges_wf _ _ _ He).
  - by apply (below_edges σ s).
Qed.

(** A constraint at the representative of the pointer, with its edges. *)
Lemma constrained_recorded k Ptr c s s' :
  wf s → Ptr < len s → constrained (rep s Ptr) [(k, c)] s s' → has_constraint k s' Ptr c.
Proof.
  intros Hwf HP Hcn. unfold has_constraint. rewrite (cn_rep _ _ _ _ _ Hcn), (cn_con _ _ _ _ Hcn).
  right. split; [done|]. by apply list_elem_of_singleton.
Qed.

(** [addLoad] and [addStore] differ in the direction of the edges. *)
Lemma constraint_called c k Ptr Other (f g : nat → nat) s :
  inv s → Ptr < len s → Other < len s →
  (k = KLoad ∧ f = (λ x, x) ∧ g = (λ _, rep s Other) ∧ c = Load Ptr Other
   ∨ k = KStore ∧ f = (λ _, rep s Other) ∧ g = (λ x, x) ∧ c = Store Ptr Other) →
  called c s
    (upd (rep s Ptr) (add_constraint k (rep s Other))
       (for_each (ascending (PtsSet (node s (rep s Ptr)))) (λ x, addAssignEdge (f x) (g x)) s)).
Proof.
  intros Hinv HP HO Hk. pose proof (inv_wf s Hinv) as Hwf.
  pose proof (rep_lt s Ptr Hwf HP) as HR. pose proof (rep_rep s Ptr Hwf HP) as HrR.
  pose proof (rep_lt s Other Hwf HO) as HRO. pose proof (rep_rep s Other Hwf HO) as HrO.
  assert (∀ P : nat → nat → Prop, (∀ o, o ∈ PtsSet (node s (rep s Ptr)) → P (f o) (g o)) →
    edges P s (for_each (ascending (PtsSet (node s (rep s Ptr)))) (λ x, addAssignEdge (f x) (g x)) s)
    ∧ ∀ o, o ∈ PtsSet (node s (rep s Ptr)) →
        edge (for_each (ascending (PtsSet (node s (rep s Ptr)))) (λ x, addAssignEdge (f x) (g x)) s) (f o) (g o)) as Hedges.
  { intros P HP'. apply edges_set; [done|]. intros o Ho. pose proof (wf_pts s Hwf _ _ Ho).
    destruct Hk as [(_ & -> & -> & _)|(_ & -> & -> & _)]; auto. }
  set (s1 := for_each _ _ s) in *.
  destruct (Hedges (λ _ _, True)) as [He Hd]; [done|].
  assert (constrained (rep s Ptr) [(k, rep s Other)] s (upd (rep s Ptr) (add_constraint k (rep s Other)) s1)) as Hcn.
  { apply edges_then_constrain; [done..|]. intros o Ho. specialize (Hd o Ho).
    destruct Hk as [(-> & -> & -> & _)|(-> & -> & -> & _)]; done. }
  pose proof (constrained_recorded _ _ _ _ _ Hwf HP Hcn) as Hrec.
  split.
  - by apply (constrained_inv _ _ _ _ Hcn).
  - rewrite (cn_len _ _ _ _ Hcn). by destruct Hk as [(_ & _ & _ & ->)|(_ & _ & _ & ->)].
  - by apply (constrained_ext _ _ _ _ Hcn).
  - destruct Hk as [(-> & _ & _ & ->)|(-> & _ & _ & ->)]; exists (rep s Other);
      rewrite (cn_len _ _ _ _ Hcn), !(cn_rep _ _ _ _ _ Hcn); done.
  - intros _. by apply (constrained_fired _ _ _ _ _ HR HrR Hcn).
  - intros σ Hσ Hbl. apply (constraint_below σ k (rep s Ptr) (rep s Other) s); [done..| |done|].
    + destruct Hk as [(-> & _ & _ & ->)|(-> & _ & _ & ->)]; simpl in *; intros o Ho;
        apply (below_rep σ s Ptr) in Ho; try done; intros x Hx.
      * apply (below_rep σ s Other); [done..|]. by apply (Hσ o).
      * apply (Hσ o Ho). by apply (below_rep σ s Other).
    + apply Hedges. intros o Ho%(bl_pts σ s Hbl).
      apply (below_rep σ s Ptr) in Ho; [|done..].
      destruct Hk as [(_ & -> & -> & ->)|(_ & -> & -> & ->)]; simpl in *; intros x Hx.
      * apply (below_rep σ s Other); [done..|]. by apply (Hσ o).
      * apply (Hσ o Ho). by apply (below_rep σ s Other).
Qed.

Lemma Load_called Ptr Dst s :
  inv s → in_range (len s) (Load Ptr Dst) → called (Load Ptr Dst) s (addLoad Ptr Dst s).
Proof.
  intros Hinv [HP HD]%bool_decide_unpack. unfold addLoad.
  rewrite (grow_id (rep s Ptr)), (grow_id (rep s Dst)) by (by apply rep_lt; [apply Hinv|]).
  apply (constraint_called _ KLoad Ptr Dst (λ x, x) (λ _, rep s Dst)); auto.
Qed.

Lemma Store_called Ptr Src s :
  inv s → in_range (len s) (Store Ptr Src) → called (Store Ptr Src) s (addStore Ptr Src s).
Proof.
  intros Hinv [HP HD]%bool_decide_unpack. unfold addStore.
  rewrite (grow_id (rep s Ptr)), (grow_id (rep s Src)) by (by apply rep_lt; [apply Hinv|]).
  apply (constraint_called _ KStore Ptr Src (λ _, rep s Src) (λ x, x)); auto.
Qed.

Lemma MemCopy_called SrcPtr DstPtr s :
  inv s → in_range (len s) (MemCopy SrcPtr DstPtr) →
  called (MemCopy SrcPtr DstPtr) s (addMemCopy SrcPtr DstPtr s).
Proof.
  intros Hinv [HP HO]%bool_decide_unpack. pose proof (inv_wf s Hinv) as Hwf. unfold addMemCopy.
  rewrite (grow_id (rep s SrcPtr)), (grow_id (rep s DstPtr)) by (by apply rep_lt).
  pose proof (rep_lt s SrcPtr Hwf HP) as HR. pose proof (rep_rep s SrcPtr Hwf HP) as HrR.
  pose proof (rep_lt s DstPtr Hwf HO) as HRO. pose proof (rep_rep s DstPtr Hwf HO) as HrO.
  set (X := PtsSet (node s (rep s SrcPtr))). set (Y := PtsSet (node s (rep s DstPtr))).
  destruct (add_edges_spec (λ _ _, True) X Y s Hwf) as [He Hd].
  { intros x y Hx Hy. split_and!; [by eapply (wf_pts s Hwf)..|done]. }
  assert (∀ σ, satisfies σ (MemCopy SrcPtr DstPtr) → below σ s → edges (includes σ) s (add_edges X Y s)) as Hinc.
  { intros σ Hσ Hbl. apply add_edges_spec; [done|]. intros x y Hx Hy.
    split_and!; [by eapply (wf_pts s Hwf)..|]. apply Hσ.
    - apply (below_rep σ s); [done..|]. by apply (bl_pts σ s Hbl).
    - apply (below_rep σ s); [done..|]. by apply (bl_pts σ s Hbl). }
  pose proof (edges_same _ _ _ He Hwf) as Hs. set (s1 := add_edges X Y s) in *.
  assert (constrained (rep s SrcPtr) [(KMemSrc, rep s DstPtr)] s
    (upd (rep s SrcPtr) (add_constraint KMemSrc (rep s DstPtr)) s1)) as H1.
  { apply edges_then_constrain; [done..|]. intros o Ho o'. rewrite (sbe_pts _ _ Hs). auto. }
  set (s2 := upd (rep s SrcPtr) _ s1) in *.
  assert (constrained (rep s DstPtr) [(KMemDst, rep s SrcPtr)] s2
    (upd (rep s DstPtr) (add_constraint KMemDst (rep s SrcPtr)) s2)) as H2.
  { apply edges_then_constrain; rewrite ?(cn_len _ _ _ _ H1), ?(cn_rep _ _ _ _ _ H1); try done; [apply H1|].
    intros o. rewrite (cn_pts _ _ _ _ H1). intros Ho o'. rewrite (cn_pts _ _ _ _ H1). intros Ho'.
    apply (cn_owed _ _ _ _ H1 KMemSrc (rep s DstPtr) ltac:(by apply list_elem_of_singleton) o');
      by rewrite (cn_pts _ _ _ _ H1). }
  set (s3 := upd (rep s DstPtr) _ s2) in *.
  pose proof (constrained_recorded KMemSrc SrcPtr (rep s DstPtr) s s2 Hwf HP H1) as Hr1.
  assert (has_constraint KMemDst s3 DstPtr (rep s SrcPtr)) as Hr2.
  { unfold has_constraint. rewrite (cn_rep _ _ _ _ _ H2), (cn_con _ _ _ _ H2), (cn_rep _ _ _ _ _ H1).
    right. split; [done|]. by apply list_elem_of_singleton. }
  split.
  - by apply (constrained_inv _ _ _ _ H2), (constrained_inv _ _ _ _ H1).
  - by rewrite (cn_len _ _ _ _ H2), (cn_len _ _ _ _ H1).
  - etrans; [by apply (constrained_ext _ _ _ _ H1)|by apply (constrained_ext _ _ _ _ H2)].
  - split; rewrite (cn_rep _ _ _ _ _ H2), (cn_rep _ _ _ _ _ H1); intros Hr; rewrite Hr in *; [|done].
    apply (ext_con _ _ (constrained_ext _ _ _ _ H2)); [by rewrite (cn_len _ _ _ _ H1)|done].
  - intros _ Hf. apply (constrained_fired _ _ _ _ _ ltac:(by rewrite (cn_len _ _ _ _ H1)) ltac:(by rewrite (cn_rep _ _ _ _ _ H1)) H2).
    by apply (constrained_fired _ _ _ _ _ HR HrR H1).
  - intros σ Hσ Hbl.
    assert (∀ x y, σ (rep s SrcPtr) x → σ (rep s DstPtr) y → includes σ x y) as Hxy.
    { intros x y Hx Hy. apply Hσ; by apply (below_rep σ s). }
    apply below_add_constraint; rewrite ?(cn_len _ _ _ _ H1), ?(cn_rep _ _ _ _ _ H1); try done.
    + apply H1.
    + apply (constraint_below σ KMemSrc _ _ s); auto.
Qed.

Lemma Merge_called A B s :
  inv s → in_range (len s) (Merge A B) → called (Merge A B) s (merge A B s).1.
Proof.
  intros [Hwf Hprop Hq] [HA HB]%bool_decide_unpack.
  pose proof (merge_spec A B s Hwf HA HB) as Hm. split.
  - split; [apply Hm|by apply (mg_propagated _ _ _ _ _ Hm)|by apply (mg_queued _ _ _ _ _ Hm)].
  - apply Hm.
  - apply Hm.
  - by destruct (mg_result _ _ _ _ _ Hm).
  - intros _. apply (mg_fired _ _ _ _ _ Hm).
  - intros σ Hσ. by apply merge_below.
Qed.

Lemma Propagate_called fuel s t : inv s → propagate fuel s = Some t → called Propagate s t.
Proof.
  intros Hinv Hp.
  destruct (propagate_ind (λ t, ext s t ∧ len t = len s ∧ (all_fired s → all_fired t)
    ∧ ∀ σ, below σ s → below σ t) fuel s t) as (Hinvt & (Hext & Hlen & Hf & Hbl) & _); try done.
  - intros s1 Hinv1 (Hext & Hlen & Hf & Hbl).
    destruct (propagate_step_spec s1 Hinv1) as (_ & Hext1 & Hlen1 & Hf1).
    split_and!; [by etrans|congruence|auto|]. intros σ ?. apply propagate_step_below; auto.
  - split; try done; auto.
Qed.
End calls.
End AndersenCalls.
