(* ===== verification/PointerProperties.v ===== *)
(** Runs of the Andersen solver: a sequence of calls that ends with a
    propagation returns, and its points-to sets are a solution of the calls and
    below every other one.

    What the pointer analyses guarantee. *)
From S2P Require Import Prelude UnionFind Andersen AndersenEdges AndersenPointees AndersenMerge.
From S2P Require Import AndersenPropagate AndersenCalls.

Module AndersenCorrect.
Import Andersen AndersenEdges AndersenPointees AndersenMerge AndersenPropagate
  AndersenTermination AndersenCalls.

(** Every call names nodes that an earlier [Node] has allocated. *)
Fixpoint all_in_range (n : nat) (cs : list call) : bool :=
  match cs with
  | [] => true
  | c :: cs => in_range n c && all_in_range (allocated n c) cs
  end.

Section runs.
Context {U : Type} `{!IntEqClasses U} `{!IntEqClassesLaws U}.
Implicit Types (s t : state (U:=U)).

Notation len s := (length (Nodes s)).
Notation all_fired := (fired (λ _ _, False)).

(** Every pointee is known, or comes before the constraints of its node. *)
Fixpoint all_timely (fuel : nat) (cs : list call) s : bool :=
  match cs with
  | [] => true
  | c :: cs => timely s c && default true (all_timely fuel cs <$> exec fuel c s)
  end.

Lemma initial_wf : wf initial_state.
Proof.
  split; intros *; rewrite ?(node_ge initial_state) by (simpl; lia); simpl.
  - apply capacity_empty.
  - by intros ?%elem_of_empty.
  - by intros ?%elem_of_empty.
  - intros []%elem_of_nil.
  - by intros ?%elem_of_empty.
  - destruct k; intros []%elem_of_nil.
  - destruct k; by intros _ ?%elem_of_empty.
  - intros []%elem_of_nil.
  - done.
Qed.

Lemma initial_inv : inv initial_state.
Proof. split; [apply initial_wf|by intros u ? ? ?%Nat.nlt_0_r|by intros u ?%Nat.nlt_0_r]. Qed.

Lemma initial_fired : all_fired initial_state.
Proof. by intros u ? ?%Nat.nlt_0_r. Qed.

Lemma initial_below σ : below σ initial_state.
Proof.
  split; intros *; rewrite ?(node_ge initial_state) by (simpl; lia); simpl; [lia|..].
  - by intros ?%elem_of_empty.
  - intros []%elem_of_nil.
  - destruct k; intros []%elem_of_nil.
Qed.

(** * One call *)

Lemma exec_called fuel c s t :
  inv s → in_range (len s) c → exec fuel c s = Some t → called c s t.
Proof.
  intros Hinv Hc. destruct c; simpl; try intros [= <-].
  - by apply Node_called.
  - by apply Pointee_called.
  - by apply AssignEdge_called.
  - by apply Load_called.
  - by apply Store_called.
  - by apply MemCopy_called.
  - by apply Merge_called.
  - by apply Propagate_called.
Qed.

Lemma exec_fuel k k' c s t : k ≤ k' → exec k c s = Some t → exec k' c s = Some t.
Proof. intros Hle. destruct c; try done. by apply propagate_fuel. Qed.

Lemma run_fuel k k' cs s t : k ≤ k' → run k cs s = Some t → run k' cs s = Some t.
Proof.
  intros Hle. revert s. induction cs as [|c cs IH]; intros s; [done|]. simpl.
  intros (s1 & H1 & H2)%bind_Some. rewrite (exec_fuel k k' c s s1 Hle H1). simpl. auto.
Qed.

Lemma exec_returns c s : inv s → ∃ k, is_Some (exec k c s).
Proof.
  intros Hinv. destruct c; try (exists 0; simpl; eauto; done). by apply propagate_terminates.
Qed.

Lemma run_returns cs s :
  inv s → all_in_range (len s) cs → ∃ k, is_Some (run k cs s).
Proof.
  revert s. induction cs as [|c cs IH]; intros s Hinv; simpl; [by exists 0|].
  intros [Hc Hcs]%andb_prop_elim. destruct (exec_returns c s Hinv) as [k1 [s1 H1]].
  pose proof (exec_called k1 c s s1 Hinv Hc H1) as Hcl.
  destruct (IH s1) as [k2 [t H2]]; [apply Hcl|by rewrite (cl_len _ _ _ Hcl)|].
  exists (k1 `max` k2), t. rewrite (exec_fuel k1 _ c s s1) by (done || lia). simpl.
  apply (run_fuel k2); [lia|done].
Qed.

(** * A run *)

Lemma run_spec fuel cs s t :
  inv s → all_in_range (len s) cs → run fuel cs s = Some t →
  inv t ∧ ext s t ∧ (∀ c, c ∈ cs → recorded t c)
  ∧ (all_timely fuel cs s → all_fired s → all_fired t)
  ∧ (∀ σ, (∀ c, c ∈ cs → satisfies σ c) → below σ s → below σ t).
Proof.
  revert s. induction cs as [|c cs IH]; intros s Hinv; simpl.
  { intros _ [= <-]. split_and!; try done. by intros c ?%elem_of_nil. }
  intros [Hc Hcs]%andb_prop_elim (s1 & H1 & H2)%bind_Some.
  pose proof (exec_called fuel c s s1 Hinv Hc H1) as [Hinv1 Hlen Hext Hrec Hf Hbl].
  rewrite <-Hlen in Hcs. destruct (IH s1 Hinv1 Hcs H2) as (Hinvt & Hext2 & Hrec2 & Hf2 & Hbl2).
  split_and!; [done|by etrans|..].
  - intros c' [->|Hc']%elem_of_cons; [|auto]. apply (recorded_ext (len s) s1); [apply Hext|done..].
  - rewrite H1. simpl. intros [??]%andb_prop_elim. auto.
  - intros σ Hσ Hbl0. apply Hbl2; [|apply Hbl; [|done]]; intros; apply Hσ; by constructor.
Qed.

(** ** The end of a run *)

(** A copy between two pointers reaches the end when both still represent
    themselves; every other call does anyway. *)
Definition settled s (c : call) : bool :=
  match c with
  | MemCopy SrcPtr DstPtr => bool_decide (rep s SrcPtr = SrcPtr ∧ rep s DstPtr = DstPtr)
  | _ => true
  end.

Definition solution s (V o : nat) : Prop := o ∈ pts s V.

Lemma recorded_satisfied n s c :
  inv s → PropWorklist s = [] → all_fired s → in_range n c → n ≤ len s → settled s c → recorded s c →
  satisfies (solution s) c.
Proof.
  intros Hinv HW Hf Hc Hn Hset. pose proof (inv_wf s Hinv) as Hwf.
  pose proof (λ u v o, drained_solution s u v o Hinv HW) as Hsol.
  assert (∀ V o, V < len s → o ∈ pts s V → o < len s ∧ fired_at s (rep s V) o) as Hfire.
  { intros V o HV Ho. split; [by eapply (wf_pts s Hwf)|].
    destruct (Hf (rep s V) o) as [?|[]]; [by apply rep_lt|by apply rep_rep|done..]. }
  unfold solution. destruct c; simpl in *; try apply bool_decide_unpack in Hc; try destruct Hc; try done.
  - intros He o Ho. apply (Hsol Src); auto; lia.
  - intros (d & Hd & Hr & Hcon) o Ho x Hx. destruct (Hfire Ptr o) as [Hol (HL & _)]; [lia|done|].
    assert (x ∈ pts s d) as Hxd by (apply (Hsol o); auto). unfold pts in *. by rewrite <-Hr.
  - intros (v & Hv & Hr & Hcon) o Ho x Hx. destruct (Hfire Ptr o) as [Hol (_ & HS & _)]; [lia|done|].
    apply (Hsol v); auto. unfold pts in *. by rewrite Hr.
  - apply bool_decide_unpack in Hset as [HrS HrD]. intros [HM HD] o o' Ho Ho' x Hx.
    specialize (HM HrD). specialize (HD HrS). unfold has_constraint in *.
    destruct (Hfire SrcPtr o) as [Hol (_ & _ & HMf & _)]; [lia|done|].
    assert (o' < len s) as Hol' by (by eapply (wf_pts s Hwf)).
    apply (Hsol o); auto. apply (HMf DstPtr); try done; [|lia|].
    + rewrite HrS, <-HrD. done.
    + unfold pts in Ho'. by rewrite HrD in Ho'.
  - intros Hr o. unfold pts. by rewrite Hr.
Qed.

Lemma in_range_mono n m c : n ≤ m → in_range n c → in_range m c.
Proof. intros Hle. destruct c; simpl; try done; rewrite !bool_decide_spec; lia. Qed.

Lemma all_in_range_elem n cs s fuel t c :
  inv s → n = len s → all_in_range n cs → run fuel cs s = Some t → c ∈ cs → in_range (len t) c.
Proof.
  revert n s. induction cs as [|c' cs IH]; intros n s Hinv -> Hr Hrun Hin; [by apply elem_of_nil in Hin|].
  simpl in *. apply andb_prop_elim in Hr as [Hc' Hr]. apply bind_Some in Hrun as (s1 & H1 & H2).
  pose proof (exec_called fuel c' s s1 Hinv Hc' H1) as Hcl.
  pose proof (cl_inv _ _ _ Hcl) as Hinv1. rewrite <-(cl_len _ _ _ Hcl) in Hr.
  apply elem_of_cons in Hin as [->|Hin]; [|by apply (IH (len s1) s1)].
  destruct (run_spec fuel cs s1 t Hinv1 Hr H2) as (_ & Hext & _).
  apply (in_range_mono (len s)); [|done]. etrans; [apply (ext_len _ _ (cl_ext _ _ _ Hcl))|apply Hext].
Qed.

Lemma run_app fuel cs1 cs2 s : run fuel (cs1 ++ cs2) s = s1 ← run fuel cs1 s; run fuel cs2 s1.
Proof.
  revert s. induction cs1 as [|c cs IH]; intros s; [done|]. simpl.
  destruct (exec fuel c s); simpl; auto.
Qed.

Lemma run_ends_drained fuel cs s t : run fuel (cs ++ [Propagate]) s = Some t → PropWorklist t = [].
Proof.
  rewrite run_app. intros (s1 & _ & (s2 & H2 & [= ->])%bind_Some)%bind_Some. revert H2. simpl. clear.
  revert s1. induction fuel as [|fuel IH]; intros s1; simpl;
    destruct (PropWorklist s1) eqn:HW; try (by intros [= <-]); apply IH.
Qed.

(** ** The result of a run that ends with a propagation *)

Definition least_run (cs : list call) (k : nat) s : Prop :=
  (∀ fuel, k ≤ fuel → run fuel (cs ++ [Propagate]) initial_state = Some s)
  ∧ Fatal s = false
  ∧ ∀ σ, (∀ c, c ∈ cs → satisfies σ c) → ∀ V o, V < len s → o ∈ pts s V → σ V o.

Lemma all_in_range_propagate n cs : all_in_range n cs → all_in_range n (cs ++ [Propagate]).
Proof.
  revert n. induction cs as [|c cs IH]; intros n; [done|]. simpl.
  intros [??]%andb_prop_elim. apply andb_prop_intro. auto.
Qed.

Lemma all_timely_propagate fuel cs s :
  all_timely fuel cs s → all_timely fuel (cs ++ [Propagate]) s.
Proof.
  revert s. induction cs as [|c cs IH]; intros s; simpl; [by destruct (propagate fuel s)|].
  intros [Ht Hcs]%andb_prop_elim. apply andb_prop_intro. split; [done|].
  destruct (exec fuel c s); simpl in *; auto.
Qed.

Lemma run_solution cs :
  all_in_range 0 cs →
  ∃ k s, least_run cs k s
    ∧ (all_timely k cs initial_state → ∀ c, c ∈ cs → settled s c → satisfies (solution s) c).
Proof.
  intros Hr%all_in_range_propagate.
  destruct (run_returns (cs ++ [Propagate]) initial_state initial_inv Hr) as [k [s Hrun]].
  destruct (run_spec k _ initial_state s initial_inv Hr Hrun) as (Hinv & Hext & Hrec & Hf & Hbl).
  pose proof (run_ends_drained k cs initial_state s Hrun) as HW.
  exists k, s. split; [split_and!|].
  - intros fuel Hfuel. by apply (run_fuel k).
  - apply (wf_fatal s), Hinv.
  - intros σ Hσ V o HV Ho. assert (below σ s) as Hb.
    { apply Hbl; [|apply initial_below]. intros c [Hc| ->%list_elem_of_singleton]%elem_of_app; [auto|done]. }
    apply (below_rep σ s V); [apply Hinv|done..|]. by apply (bl_pts σ s Hb).
  - intros Ht c Hc Hset. apply (recorded_satisfied (len s)); try done.
    + apply Hf; [by apply all_timely_propagate|apply initial_fired].
    + apply (all_in_range_elem 0 (cs ++ [Propagate]) initial_state k); [apply initial_inv|done..|].
      apply elem_of_app. by left.
    + apply Hrec, elem_of_app. by left.
Qed.
End runs.
End AndersenCorrect.

Import Log Andersen AndersenPointees AndersenCalls AndersenCorrect.

(** * The Andersen solver *)

(** A program [p = &a; q = &b; *p = q; r = *p; memcpy(t, p); copies in a cycle]
    over the nodes [p q r t a b c x y]. *)
Definition example_calls : list call :=
  [Node 8; Pointee 0 4; Pointee 1 5; Pointee 3 6; AssignEdge 7 8; AssignEdge 8 7;
   Store 0 1; Load 0 2; AssignEdge 2 7; MemCopy 0 3; Propagate; AssignEdge 7 2].

(** C19: a run of the solver, whatever the order of the calls, returns once the
    fuel is large enough, without a fatal error, and its points-to sets are
    below every assignment that satisfies the inclusion constraints of the
    calls: lazy merging of cycles, differential propagation and transfers of
    constraints invent no pointee. *)
Theorem points_to_sets_least {U : Type} `{!IntEqClasses U} `{!IntEqClassesLaws U} (cs : list call) :
  all_in_range 0 cs →
  ∃ k (s : state (U:=U)),
    (∀ fuel, k ≤ fuel → run fuel (cs ++ [Propagate]) initial_state = Some s)
    ∧ Fatal s = false
    ∧ ∀ σ, (∀ c, c ∈ cs → satisfies σ c) →
        ∀ V o, V < length (Nodes s) → o ∈ pts s V → σ V o.
Proof. intros Hr. destruct (run_solution cs Hr) as (k & s & Hk & _). by exists k, s. Qed.

(** The assignment with every pointee everywhere satisfies the calls. *)
Lemma points_to_sets_least_witness :
  all_in_range 0 example_calls
  ∧ ∃ k (s : state (U:=Log.classes)),
    (∀ fuel, k ≤ fuel → run fuel (example_calls ++ [Propagate]) initial_state = Some s)
    ∧ Fatal s = false
    ∧ ∀ σ, (∀ c, c ∈ example_calls → satisfies σ c) →
        ∀ V o, V < length (Nodes s) → o ∈ pts s V → σ V o.
Proof.
  assert (all_in_range 0 example_calls) as Hr by (vm_compute; done).
  split; [exact Hr|]. exact (points_to_sets_least (U:=Log.classes) example_calls Hr).
Defined.

(** C18: when every pointee is added before the load, store and copy constraints
    of its node or is known by then, the points-to sets of the run satisfy every
    call: pointees, assignments, loads, stores and merges always, a copy when
    its two pointers still represent themselves. *)
Theorem points_to_sets_solve {U : Type} `{!IntEqClasses U} `{!IntEqClassesLaws U} (cs : list call) :
  all_in_range 0 cs →
  ∃ k (s : state (U:=U)),
    run k (cs ++ [Propagate]) initial_state = Some s
    ∧ (all_timely k cs initial_state →
        ∀ c, c ∈ cs → settled s c → satisfies (λ V o, o ∈ pts s V) c).
Proof.
  intros Hr. destruct (run_solution cs Hr) as (k & s & (Hk & _) & Hsol). exists k, s. auto.
Qed.

Lemma points_to_sets_solve_witness :
  all_in_range 0 example_calls
  ∧ (∃ k (s : state (U:=Log.classes)),
      run k (example_calls ++ [Propagate]) initial_state = Some s
      ∧ (all_timely k example_calls initial_state →
          ∀ c, c ∈ example_calls → settled s c → satisfies (λ V o, o ∈ pts s V) c))
  ∧ all_timely (U:=Log.classes) 50 example_calls initial_state
  ∧ (λ s, bool_decide (pts s 2 = {[5]})) <$> run (U:=Log.classes) 50 (example_calls ++ [Propagate]) initial_state
    = Some true.
Proof.
  assert (all_in_range 0 example_calls) as Hr by (vm_compute; done).
  split; [exact Hr|]. split; [exact (points_to_sets_solve (U:=Log.classes) example_calls Hr)|].
  split; vm_compute; done.
Defined.

(** Without that order pointees are missed. A pointee that [addPointee] adds
    at a node with a load constraint does not fire it, and a copy constraint is
    not looked up at the representative of the other pointer. *)
Theorem late_pointees_missed :
  (∃ s : state (U:=Log.classes),
    run 50 [Node 3; Pointee 2 3; Load 0 1; Pointee 0 2; Propagate] initial_state = Some s
    ∧ 2 ∈ pts s 0 ∧ 3 ∈ pts s 2 ∧ 3 ∉ pts s 1)
  ∧ (∃ s : state (U:=Log.classes),
    run 50 [Node 6; Pointee 3 5; Pointee 2 4; MemCopy 0 2; AssignEdge 6 0; AssignEdge 1 2;
            AssignEdge 2 1; Propagate; Pointee 6 3; Propagate] initial_state = Some s
    ∧ 3 ∈ pts s 0 ∧ 4 ∈ pts s 2 ∧ 5 ∈ pts s 3 ∧ 5 ∉ pts s 4).
Proof.
  split; eexists; (split; [vm_compute; reflexivity|]); split_and!;
    apply (bool_decide_unpack _); vm_compute; exact I.
Qed.
