(* ===== verification/UnionFindAA.v ===== *)
(** The union-find alias analyses (Pointer/UnionFindAA.h): the pointer
    assignment graph they listen to (Pointer/PointerAssignmentGraph.h), their
    results (Pointer/RawAAResult.h), and the analyses without and with
    indirection sensitivity. [ValueId]s and object ids are natural numbers. *)
From S2P Require Import Prelude UnionFind.

(** * The pointer assignment graph *)

Module pag.
(** The kinds of edges [To = From], [To = *From], [*To = From], ... *)
Inductive Edge :=
  | Assign
  | Gep (Offset : option Z)
  | Call (ArgNo : Z)
  | Return
  | Load
  | Store
  | StorePOI
  | Copy.

(** What a builder strategy does for an edge and for a node. *)
Class PBStrategy (N V S : Type) := {
  onAddEdge : nat → nat → Edge → option N → S → S;
  onAddValue : V → nat → S → S
}.

(** The calls [buildPAG] makes. *)
Inductive notification (N V : Type) :=
  | ValueAdded (Var : V) (VId : nat)
  | EdgeAdded (From To : nat) (E : Edge) (AtInstruction : option N).
Arguments ValueAdded {N V} Var VId.
Arguments EdgeAdded {N V} From To E AtInstruction.

Section strategy.
Context {N V S : Type} `{!PBStrategy N V S}.

Definition notify (n : notification N V) : S → S :=
  match n with
  | ValueAdded Var VId => onAddValue Var VId
  | EdgeAdded From To E AtInstruction => onAddEdge From To E AtInstruction
  end.

Definition build (ns : list (notification N V)) : S → S := for_each ns notify.
End strategy.

(** The contract of [buildPAG]: one call per node, with ascending ids starting
    at zero, and edges between reported nodes. [n] nodes have been reported. *)
Fixpoint ascending_ids {N V} (n : nat) (ns : list (notification N V)) : bool :=
  match ns with
  | [] => true
  | ValueAdded _ VId :: ns => bool_decide (VId = n) && ascending_ids (S n) ns
  | EdgeAdded From To _ _ :: ns => bool_decide (From < n ∧ To < n) && ascending_ids n ns
  end.

Fixpoint num_values {N V} (ns : list (notification N V)) : nat :=
  match ns with
  | [] => 0
  | ValueAdded _ _ :: ns => S (num_values ns)
  | EdgeAdded _ _ _ _ :: ns => num_values ns
  end.

(** [PBStrategyCombinator]: both strategies hear everything. *)
#[export] Instance PBStrategyCombinator {N V S1 S2}
    `{!PBStrategy N V S1} `{!PBStrategy N V S2} : PBStrategy N V (S1 * S2) := {
  onAddEdge From To E AtInstruction s :=
    (onAddEdge From To E AtInstruction s.1, onAddEdge From To E AtInstruction s.2);
  onAddValue Var VId s := (onAddValue (N:=N) Var VId s.1, onAddValue (N:=N) Var VId s.2)
}.
End pag.
Import pag.

(** * Results *)

Class RawAAResult (R : Type) := {
  isCached : bool;
  getRawAliasSet : R → nat → gset nat;
  mayAlias : R → nat → nat → bool;
  num_vars : R → nat
}.

(** [RawAAResultIntersection]. *)
#[export] Instance RawAAResultIntersection {R1 R2} `{!RawAAResult R1} `{!RawAAResult R2} :
    RawAAResult (R1 * R2) := {
  isCached := false;
  getRawAliasSet r Var := getRawAliasSet r.1 Var ∩ getRawAliasSet r.2 Var;
  mayAlias r Var1 Var2 := mayAlias r.1 Var1 Var2 && mayAlias r.2 Var1 Var2;
  num_vars r := num_vars r.1
}.

(** [BasicUnionFindAAResult]: one class per variable; [None] is the invalid
    representative [UINT32_MAX]. *)
Record BasicUnionFindAAResult := {
  BackwardView : list (gset nat);
  Var2Rep : list (option nat)
}.

#[export] Instance BasicUnionFindAAResult_raw : RawAAResult BasicUnionFindAAResult := {
  isCached := true;
  getRawAliasSet r Var := if Var2Rep r !!! Var is Some Rep then BackwardView r !!! Rep else ∅;
  mayAlias r Var1 Var2 :=
    if decide (Var1 = Var2) then true
    else match Var2Rep r !! Var1, Var2Rep r !! Var2 with
         | Some Rep1, Some Rep2 => bool_decide (Rep1 = Rep2)
         | _, _ => false
         end;
  num_vars r := length (Var2Rep r)
}.

(** [CallingContextSensUnionFindAAResult]: the classes of a variable in all its
    contexts. *)
Record CallingContextSensUnionFindAAResult := {
  ctx_BackwardView : list (gset nat);
  ctx_Var2Rep : list (list nat)
}.

#[export] Instance CallingContextSensUnionFindAAResult_raw :
    RawAAResult CallingContextSensUnionFindAAResult := {
  isCached := false;
  getRawAliasSet r Var :=
    for_each (ctx_Var2Rep r !!! Var) (λ Rep X, X ∪ ctx_BackwardView r !!! Rep) ∅;
  mayAlias r Var1 Var2 :=
    if decide (Var1 = Var2) then true
    else match ctx_Var2Rep r !! Var1, ctx_Var2Rep r !! Var2 with
         | Some Reps1, Some Reps2 => existsb (λ R1, bool_decide (R1 ∈ Reps2)) Reps1
         | _, _ => false
         end;
  num_vars r := length (ctx_Var2Rep r)
}.

(** [CachedUnionFindAAResult]: the cache, and the wrapped result. *)
Record CachedUnionFindAAResult (R : Type) := {
  Cache : gmap nat (gset nat);
  AARes : R
}.
Arguments Cache {R} c : rename.
Arguments AARes {R} c : rename.
Arguments Build_CachedUnionFindAAResult {R} Cache AARes.

Section cached.
Context {R : Type} `{!RawAAResult R}.

Definition cached_getRawAliasSet (Var : nat) (c : CachedUnionFindAAResult R) :
    gset nat * CachedUnionFindAAResult R :=
  match Cache c !! Var with
  | Some X => (X, c)
  | None =>
    let X := getRawAliasSet (AARes c) Var in
    (X, Build_CachedUnionFindAAResult (<[Var := X]> (Cache c)) (AARes c))
  end.

Definition cached_mayAlias (ShouldCacheMayAlias : bool) (Var1 Var2 : nat)
    (c : CachedUnionFindAAResult R) : bool * CachedUnionFindAAResult R :=
  if ShouldCacheMayAlias then
    let '(X, c) := cached_getRawAliasSet Var1 c in (bool_decide (Var2 ∈ X), c)
  else (mayAlias (AARes c) Var1 Var2, c).
End cached.

(** * [BasicUnionFindAA] *)

Module BasicUnionFindAA.
Section basic.
Context {N V U : Type} `{!IntEqClasses U}.

(** The only data member is [AliasSets]. *)
#[export] Instance strategy : PBStrategy N V U := {
  onAddEdge From To _ _ AliasSets := (UnionFind.join From To AliasSets).2;
  onAddValue _ VId AliasSets := UnionFind.grow (VId + 1) AliasSets
}.

Definition consumeAAResults (NumVars : nat) (Var2Obj : nat → nat) (ShouldInclude : nat → bool)
    (AliasSets : U) : BasicUnionFindAAResult :=
  let Equiv := UnionFind.compress AliasSets in
  for_each (seq 0 NumVars) (λ VId Result,
    let Rep := CompressedUnionFind.at_ Equiv (Var2Obj VId) in
    {| Var2Rep := <[VId := Some Rep]> (Var2Rep Result);
       BackwardView := if ShouldInclude VId then alter (union {[VId]}) Rep (BackwardView Result)
                       else BackwardView Result |})
    {| BackwardView := replicate (CompressedUnionFind.numClasses Equiv) ∅;
       Var2Rep := replicate NumVars None |}.
End basic.
End BasicUnionFindAA.

(** * [IndirectionSensUnionFindAA] *)

Module IndirectionSensUnionFindAA.
Section ind.
Context {N V U : Type} `{!IntEqClasses U} (K : nat).

Record state := State {
  Var2Obj : list (list nat);
  Obj2Var : list (nat * nat);
  Base : U
}.

Definition initial_state : state := State [] [] ec_empty.

Definition getObjectOrNull (VId Ctx : nat) (s : state) : option nat := (Var2Obj s !!! VId) !! Ctx.

Definition nextDepth (Ctx : nat) : nat := if decide (Ctx = K - 1) then Ctx else Ctx + 1.
Definition prevDepth (Ctx : nat) : option nat := if decide (Ctx = 0) then None else Some (Ctx - 1).

(** Joining an object with the one of [To] at a depth, if there is one. *)
Definition join_at (FromObj To Ctx : nat) (s : state) : state :=
  match getObjectOrNull To Ctx s with
  | Some ToObj => State (Var2Obj s) (Obj2Var s) (UnionFind.join FromObj ToObj (Base s)).2
  | None => s
  end.

Definition onAddEdge_at (To : nat) (E : Edge) (FromCtx FromObj : nat) (s : state) : state :=
  match E with
  | Copy => if decide (FromCtx = 0) then s else join_at FromObj To FromCtx s
  | Assign | Gep _ | Call _ | Return => join_at FromObj To FromCtx s
  | Load =>
    let s := match prevDepth FromCtx with
             | Some ToCtx => join_at FromObj To ToCtx s
             | None => s
             end in
    if decide (FromCtx = K - 1) then join_at FromObj To FromCtx s else s
  | Store | StorePOI => join_at FromObj To (nextDepth FromCtx) s
  end.

#[export] Instance strategy : PBStrategy N V state := {
  onAddEdge From To E _ s :=
    for_each (imap pair (Var2Obj s !!! From)) (λ '(FromCtx, FromObj), onAddEdge_at To E FromCtx FromObj) s;
  onAddValue _ VId s :=
    let Obj := length (Obj2Var s) in
    State (Var2Obj s ++ [(λ Depth, Obj + Depth) <$> seq 0 K])
          (Obj2Var s ++ ((λ Depth, (VId, Depth)) <$> seq 0 K))
          (UnionFind.grow (Obj + K) (Base s))
}.

Definition consumeAAResults (NumVars : nat) (ShouldInclude : nat → bool) (s : state) :
    BasicUnionFindAAResult :=
  BasicUnionFindAA.consumeAAResults NumVars (λ VId, (Var2Obj s !!! VId) !!! 0) ShouldInclude (Base s).
End ind.
End IndirectionSensUnionFindAA.
