(* ===== verification/UnionFindAACorrect.v ===== *)
(** What the union-find alias analyses share: a union-find whose classes are the
    connected components of a relation, and the results read off it.

    What the union-find alias analyses compute: the classes of the plain and of
    the indirection-sensitive analysis are the connected components of their
    edges, results answer from the classes, and caching and intersecting them
    does what it should. *)
From S2P Require Import Prelude UnionFind UnionFindAA.
From stdpp Require Import relations.
Import pag.

Section represents.
Context {U : Type} `{!IntEqClasses U} `{!IntEqClassesLaws U}.
Context {A : Type}.
Implicit Types (u : U) (f : A → nat) (dom : A → Prop) (J : relation A).

(** The classes of the objects [dom], numbered by [f], are the connected
    components of [J]. *)
Record represents f dom J u : Prop := {
  rp_range x : dom x → f x < ec_capacity u;
  rp_inj x y : dom x → dom y → f x = f y → x = y;
  rp_dom x y : J x y → dom x ∧ dom y;
  rp_same x y : dom x → dom y → same u (f x) (f y) ↔ rtsc J x y
}.

(** A component stays within the objects. *)
Lemma rtsc_dom dom J x y :
  (∀ x y, J x y → dom x ∧ dom y) → rtsc J x y → dom x → dom y.
Proof. intros HJ Hxy. induction Hxy as [|x y z [H|H] _ IH]; intros Hx; [done|..]; apply HJ in H; tauto. Qed.

Lemma represents_equiv f dom J J' u :
  (∀ x y, J' x y → dom x ∧ dom y) → (∀ x y, rtsc J x y ↔ rtsc J' x y) →
  represents f dom J u → represents f dom J' u.
Proof. intros Hd HJ []. split; try done. intros x y Hx Hy. rewrite <-HJ. auto. Qed.

Lemma represents_iff f dom J J' u :
  (∀ x y, J x y ↔ J' x y) → represents f dom J u → represents f dom J' u.
Proof.
  intros HJ Hu. apply (represents_equiv f dom J); [|intros x y|done].
  - intros x y Hxy. apply (rp_dom _ _ _ _ Hu). by apply HJ.
  - split; apply (rtsc_congruence (λ x, x)); intros ??; apply HJ.
Qed.

Lemma represents_numbering f f' dom J u :
  (∀ x, dom x → f' x = f x) → represents f dom J u → represents f' dom J u.
Proof.
  intros Hf [Hr Hi Hd Hs]. split; try done.
  - intros x Hx. rewrite Hf by done. auto.
  - intros x y Hx Hy. rewrite !Hf by done. auto.
  - intros x y Hx Hy. rewrite !Hf by done. auto.
Qed.

Lemma represents_join f dom J u a b :
  represents f dom J u → dom a → dom b →
  represents f dom (λ x y, J x y ∨ x = a ∧ y = b) (UnionFind.join (f a) (f b) u).2.
Proof.
  intros [Hr Hi Hd Hs] Ha Hb.
  assert (∀ u', ec_capacity (UnionFind.join (f a) (f b) u').2 = ec_capacity u') as Hcap
    by (intros; apply capacity_join).
  assert (∀ x y, rtsc J x y → rtsc (λ x y, J x y ∨ x = a ∧ y = b) x y) as Hmono.
  { intros x y. apply (rtsc_congruence (λ x, x)). auto. }
  assert (rtsc (λ x y, J x y ∨ x = a ∧ y = b) a b) as Hab by (apply rtsc_lr; auto).
  split.
  - intros x Hx. rewrite Hcap. auto.
  - done.
  - intros x y [?|[-> ->]]; auto.
  - intros x y Hx Hy. rewrite same_join by auto. rewrite !Hs by done. split.
    + intros [?|[[Hxa|Hxb] [Hya|Hyb]]]; [by apply Hmono|..].
      * by rewrite (Hmono x a), (Hmono y a).
      * by rewrite (Hmono x a), (Hmono y b).
      * by rewrite (Hmono x b), (Hmono y a).
      * by rewrite (Hmono x b), (Hmono y b).
    + intros Hxy. rewrite <-!Hs, <-same_join by auto. clear Hy.
      induction Hxy as [x|x y z Hxy _ IH]; [done|].
      assert (dom y ∧ same (UnionFind.join (f a) (f b) u).2 (f x) (f y)) as [Hdy Hsxy].
      { assert (∀ x y, J x y → dom x ∧ dom y ∧ same (UnionFind.join (f a) (f b) u).2 (f x) (f y)) as HJ.
        { intros x' y' Hxy'. destruct (Hd x' y' Hxy') as [Hx' Hy']. split_and!; [done..|].
          apply same_join_l; auto. apply Hs; [done..|]. by apply rtsc_lr. }
        assert (same (UnionFind.join (f a) (f b) u).2 (f a) (f b)) as Hj.
        { apply same_join; auto. right. split; [by left|by right]. }
        destruct Hxy as [[(?&?&?)%HJ|[-> ->]]|[(?&?&?)%HJ|[-> ->]]]; split; try done; by symmetry. }
      etrans; [exact Hsxy|]. by apply IH.
Qed.

Lemma represents_grow f f' dom dom' J u n :
  represents f dom J u →
  (∀ x, dom x → dom' x) → (∀ x, dom x → f' x = f x) →
  (∀ x, dom' x → dom x ∨ ec_capacity u ≤ f' x < n) →
  (∀ x y, dom' x → dom' y → f' x = f' y → x = y) →
  (∀ x, dom x ∨ ¬ dom x) →
  represents f' dom' J (UnionFind.grow n u).
Proof.
  intros [Hr Hi Hd Hs] Hdom Hf Hnew Hinj Hdec.
  assert (∀ x, dom' x → f' x < n `max` ec_capacity u) as Hr'.
  { intros x Hx. destruct (Hnew x Hx) as [H|?]; [rewrite Hf by done; specialize (Hr x H)|]; lia. }
  split.
  - intros x Hx. unfold UnionFind.grow. rewrite capacity_grow. auto.
  - done.
  - intros x y [??]%Hd. auto.
  - intros x y Hx Hy. destruct (Hdec x) as [Hox|Hox].
    + destruct (Hdec y) as [Hoy|Hoy].
      * rewrite !Hf, same_grow_old by auto. by apply Hs.
      * destruct (Hnew y Hy) as [?|Hny]; [done|].
        assert (same (UnionFind.grow n u) (f' x) (f' y) ↔ f' y = f' x) as ->.
        { rewrite <-(same_grow_new n u) by auto. split; by symmetry. }
        split; [intros; exfalso; apply Hoy; by rewrite (Hinj y x)|].
        intros Hxy. exfalso. apply Hoy. by apply (rtsc_dom dom J x).
    + destruct (Hnew x Hx) as [?|Hnx]; [done|]. rewrite same_grow_new by auto. split.
      * intros Heq. by rewrite (Hinj x y).
      * intros Hxy. symmetry in Hxy. destruct (Hdec y) as [Hoy|Hoy].
        -- exfalso. apply Hox. by apply (rtsc_dom dom J y).
        -- inversion Hxy as [|? z ? [H|H] ?]; subst; [done|..]; apply Hd in H; tauto.
Qed.

Lemma represents_empty f dom : (∀ x, ¬ dom x) → represents f dom (λ _ _, False) ec_empty.
Proof. intros Hd. split; [by intros x ?%Hd|by intros x y ?%Hd|done|by intros x y ?%Hd]. Qed.

(** A loop that joins objects in a state that keeps the union-find at [base]. *)
Lemma represents_loop {B S} (base : S → U) (I : S → Prop) f dom J (l : list B)
    (body : B → S → S) (K : B → relation A) s :
  I s → represents f dom J (base s) →
  (∀ b J' s', b ∈ l → I s' → represents f dom J' (base s') →
     I (body b s') ∧ represents f dom (λ x y, J' x y ∨ K b x y) (base (body b s'))) →
  I (for_each l body s)
  ∧ represents f dom (λ x y, J x y ∨ ∃ b, b ∈ l ∧ K b x y) (base (for_each l body s)).
Proof.
  intros HI Hs Hbody.
  apply (for_each_ind (λ l1 s', I s' ∧ represents f dom (λ x y, J x y ∨ ∃ b, b ∈ l1 ∧ K b x y) (base s'))).
  - split; [done|]. apply (represents_iff _ _ J); [|done]. intros x y. split; [auto|].
    intros [?|(b & Hb & _)]; [done|]. by apply elem_of_nil in Hb.
  - intros l1 b s' Hb [HI' Hs']. destruct (Hbody b _ s' Hb HI' Hs') as [HI'' Hb']. split; [done|].
    revert Hb'. apply represents_iff. intros x y.
    setoid_rewrite elem_of_app. setoid_rewrite list_elem_of_singleton. naive_solver.
Qed.

(** A conditional join. *)
Lemma represents_join_if (P : Prop) `{!Decision P} f dom J u a b :
  represents f dom J u → (P → dom a ∧ dom b) →
  represents f dom (λ x y, J x y ∨ P ∧ x = a ∧ y = b)
    (if decide P then (UnionFind.join (f a) (f b) u).2 else u).
Proof.
  intros Hu Hd. case_decide as HP.
  - destruct (Hd HP). apply (represents_iff _ _ (λ x y, J x y ∨ x = a ∧ y = b)); [naive_solver|].
    by apply represents_join.
  - apply (represents_iff _ _ J); [naive_solver|done].
Qed.
End represents.

Import pag.

(** * Notifications *)

Section notifications.
Context {N V : Type}.
Implicit Types (ns : list (notification N V)).

Lemma ascending_ids_app n ns1 ns2 :
  ascending_ids n (ns1 ++ ns2) = ascending_ids n ns1 && ascending_ids (n + num_values ns1) ns2.
Proof.
  revert n. induction ns1 as [|[Var VId|From To E CS] ns1 IH]; intros n; simpl.
  - by rewrite Nat.add_0_r.
  - by rewrite IH, andb_assoc, Nat.add_succ_r.
  - by rewrite IH, andb_assoc.
Qed.

Lemma num_values_app ns1 ns2 : num_values (ns1 ++ ns2) = num_values ns1 + num_values ns2.
Proof. induction ns1 as [|[] ns1 IH]; simpl; lia. Qed.

Lemma build_snoc {S} `{!PBStrategy N V S} ns n (s : S) : build (ns ++ [n]) s = notify n (build ns s).
Proof. apply for_each_app. Qed.

(** An edge that was reported. *)
Definition edge_in ns (E : Edge) (CS : option N) (x y : nat) : Prop := EdgeAdded x y E CS ∈ ns.
Definition some_edge ns (x y : nat) : Prop := ∃ E CS, edge_in ns E CS x y.

Lemma edge_in_range ns E CS x y :
  ascending_ids 0 ns → edge_in ns E CS x y → x < num_values ns ∧ y < num_values ns.
Proof.
  intros Hns (ns1 & ns2 & ->)%list_elem_of_split. rewrite ascending_ids_app, num_values_app in *.
  apply andb_prop_elim in Hns as [_ [Hxy _]%andb_prop_elim]. apply bool_decide_unpack in Hxy.
  simpl in *. lia.
Qed.

(** Induction over the notifications in order. *)
Lemma build_ind {S} `{!PBStrategy N V S} (I : list (notification N V) → S → Prop) ns s :
  ascending_ids 0 ns → I [] s →
  (∀ ns Var s, ascending_ids 0 ns → I ns s →
     I (ns ++ [ValueAdded Var (num_values ns)]) (onAddValue Var (num_values ns) s)) →
  (∀ ns From To E CS s, ascending_ids 0 ns → From < num_values ns → To < num_values ns → I ns s →
     I (ns ++ [EdgeAdded From To E CS]) (onAddEdge From To E CS s)) →
  I ns (build ns s).
Proof.
  intros Hns H0 HV HE. induction ns as [|n ns IH] using rev_ind; [done|].
  rewrite ascending_ids_app in Hns. apply andb_prop_elim in Hns as [Hns Hn]. rewrite build_snoc.
  destruct n as [Var VId|From To E CS]; simpl in *; apply andb_prop_elim in Hn as [Hn _];
    apply bool_decide_unpack in Hn.
  - subst VId. apply HV; auto.
  - destruct Hn. apply HE; auto.
Qed.
End notifications.

(** * Reading a result off the classes *)

(** What a result answers about the variables below [NumVars]. *)
Record answers {R} `{!RawAAResult R} (r : R) (NumVars : nat) (ShouldInclude : nat → bool)
    (alias : relation nat) : Prop := {
  an_num : num_vars r = NumVars;
  an_set v w : v < NumVars → w ∈ getRawAliasSet r v ↔ w < NumVars ∧ ShouldInclude w ∧ alias v w;
  an_may v w : v < NumVars → w < NumVars → mayAlias r v w ↔ v = w ∨ alias v w;
  an_out v w : v ≠ w → NumVars ≤ v ∨ NumVars ≤ w → mayAlias r v w = false
}.

(** The alias sets agree with [mayAlias] on the included variables. *)
Lemma answers_agree {R} `{!RawAAResult R} (r : R) NumVars ShouldInclude alias v w :
  Equivalence alias → answers r NumVars ShouldInclude alias → v < NumVars → w < NumVars →
  w ∈ getRawAliasSet r v ↔ ShouldInclude w ∧ mayAlias r v w.
Proof.
  intros Heq Ha Hv Hw. rewrite (an_set _ _ _ _ Ha), (an_may _ _ _ _ Ha) by done. split.
  - naive_solver.
  - intros [Hi [->|?]]; split_and!; try done.
Qed.

Section consume.
Context {U : Type} `{!IntEqClasses U} `{!IntEqClassesLaws U}.

Lemma consume_answers NumVars (Var2Obj : nat → nat) (ShouldInclude : nat → bool) (u : U) :
  (∀ v, v < NumVars → Var2Obj v < ec_capacity u) →
  answers (BasicUnionFindAA.consumeAAResults NumVars Var2Obj ShouldInclude u) NumVars ShouldInclude
    (λ v w, same u (Var2Obj v) (Var2Obj w)).
Proof.
  intros Hobj. set (at_ v := CompressedUnionFind.at_ (UnionFind.compress u) (Var2Obj v)).
  set (nc := CompressedUnionFind.numClasses (UnionFind.compress u)).
  assert (∀ v, v < NumVars → at_ v < nc) as Hat by (intros v Hv; apply index_bound; auto).
  assert (∀ v w, v < NumVars → w < NumVars → at_ v = at_ w ↔ same u (Var2Obj v) (Var2Obj w)) as Hsame.
  { intros v w Hv Hw. apply index_compress; auto. }
  set (r := BasicUnionFindAA.consumeAAResults NumVars Var2Obj ShouldInclude u).
  assert (length (Var2Rep r) = NumVars ∧ length (BackwardView r) = nc
    ∧ (∀ v, v ∈ seq 0 NumVars → Var2Rep r !! v = Some (Some (at_ v)))
    ∧ ∀ c w, c < nc → w ∈ BackwardView r !!! c ↔ w ∈ seq 0 NumVars ∧ ShouldInclude w ∧ at_ w = c)
    as (Hl & _ & Hrep & Hback).
  { unfold r, BasicUnionFindAA.consumeAAResults.
    apply (for_each_ind (λ l1 r, length (Var2Rep r) = NumVars ∧ length (BackwardView r) = nc
      ∧ (∀ v, v ∈ l1 → Var2Rep r !! v = Some (Some (at_ v)))
      ∧ ∀ c w, c < nc → w ∈ BackwardView r !!! c ↔ w ∈ l1 ∧ ShouldInclude w ∧ at_ w = c)).
    - simpl. rewrite !length_replicate. split_and!; [done|done|by intros v ?%elem_of_nil|].
      intros c w Hc. rewrite lookup_total_replicate_2 by done. set_solver.
    - intros l1 v r' Hv (Hlr & Hlb & HR & HB). apply elem_of_seq in Hv. simpl.
      fold (at_ v). assert (at_ v < nc) as Hav by (apply Hat; lia). split_and!.
      + by rewrite length_insert.
      + case_match; [by rewrite length_alter|done].
      + intros w [Hw| ->%list_elem_of_singleton]%elem_of_app.
        * destruct (decide (v = w)) as [->|Hne]; [apply list_lookup_insert_eq; lia|].
          rewrite list_lookup_insert_ne by done. auto.
        * apply list_lookup_insert_eq. lia.
      + intros c w Hc. rewrite elem_of_app, list_elem_of_singleton.
        destruct (ShouldInclude v) eqn:Hi.
        * destruct (decide (at_ v = c)) as [<-|Hne].
          -- rewrite list_lookup_total_alter_eq by lia. rewrite elem_of_union, elem_of_singleton, HB by done.
             destruct (decide (w = v)) as [->|]; [rewrite Hi|]; naive_solver.
          -- rewrite list_lookup_total_alter_ne, HB by done. naive_solver.
        * rewrite HB by done. destruct (decide (w = v)) as [->|]; [rewrite Hi|]; naive_solver. }
  assert (∀ v, v < NumVars → Var2Rep r !! v = Some (Some (at_ v))) as Hrep'
    by (intros v Hv; apply Hrep, elem_of_seq; lia).
  split; simpl.
  - done.
  - intros v w Hv. rewrite (list_lookup_total_correct _ _ _ (Hrep' v Hv)), Hback, elem_of_seq by auto.
    split.
    + intros (? & ? & Heq). split_and!; [lia|done|]. apply Hsame; [done|lia|done].
    + intros (Hw & ? & Hs). split_and!; [lia..|done|]. symmetry. by apply Hsame.
  - intros v w Hv Hw. case_decide as Heq; [split; [by left|done]|].
    rewrite !Hrep', bool_decide_spec by done. rewrite (inj_iff Some), Hsame by done. naive_solver.
  - intros v w Hne Hout. rewrite decide_False by done.
    destruct Hout; [rewrite (lookup_ge_None_2 _ v) by lia; done|].
    rewrite (lookup_ge_None_2 _ w) by lia. by destruct (Var2Rep r !! v).
Qed.
End consume.

(** * Intersection and caching *)

Lemma intersection_answers {R1 R2} `{!RawAAResult R1} `{!RawAAResult R2} (r1 : R1) (r2 : R2)
    NumVars ShouldInclude alias1 alias2 :
  answers r1 NumVars ShouldInclude alias1 → answers r2 NumVars ShouldInclude alias2 →
  reflexive _ alias1 → reflexive _ alias2 →
  answers (r1, r2) NumVars ShouldInclude (λ v w, alias1 v w ∧ alias2 v w).
Proof.
  intros H1 H2 Hr1 Hr2. split; simpl.
  - apply H1.
  - intros v w Hv. rewrite elem_of_intersection, (an_set _ _ _ _ H1), (an_set _ _ _ _ H2) by done.
    naive_solver.
  - intros v w Hv Hw. rewrite andb_True, (an_may _ _ _ _ H1), (an_may _ _ _ _ H2) by done.
    split; [|naive_solver]. intros [[->|?] [?|?]]; subst; auto.
  - intros v w Hne Hout. by rewrite (an_out _ _ _ _ H1).
Qed.

Section cached.
Context {R : Type} `{!RawAAResult R}.
Implicit Types (c : CachedUnionFindAAResult R).

Definition cache_ok c : Prop := ∀ v X, Cache c !! v = Some X → X = getRawAliasSet (AARes c) v.

Lemma cached_getRawAliasSet_spec Var c :
  cache_ok c →
  let '(X, c') := cached_getRawAliasSet Var c in
  X = getRawAliasSet (AARes c) Var ∧ cache_ok c' ∧ AARes c' = AARes c ∧ Cache c ⊆ Cache c'.
Proof.
  intros Hc. unfold cached_getRawAliasSet. destruct (Cache c !! Var) as [X|] eqn:HX.
  - split_and!; [by apply Hc|done..].
  - split_and!; [done| |done|by apply insert_subseteq].
    intros v X. simpl. destruct (decide (Var = v)) as [<-|Hne].
    + rewrite lookup_insert_eq. by intros [= <-].
    + rewrite lookup_insert_ne by done. apply Hc.
Qed.
End cached.

(** * [BasicUnionFindAA] *)

Section basic.
Context {N V U : Type} `{!IntEqClasses U} `{!IntEqClassesLaws U}.
Implicit Types (ns : list (notification N V)).
Existing Instance BasicUnionFindAA.strategy.

Definition basic_build ns : U := build ns ec_empty.

Lemma basic_represents ns :
  ascending_ids 0 ns →
  ec_capacity (basic_build ns) = num_values ns
  ∧ represents (λ x, x) (λ x, x < num_values ns) (some_edge ns) (basic_build ns).
Proof.
  intros Hns. apply (build_ind (λ ns u, ec_capacity u = num_values ns
    ∧ represents (λ x, x) (λ x, x < num_values ns) (some_edge ns) u)); [done|..].
  - split; [apply capacity_empty|]. apply (represents_iff _ _ (λ _ _, False)).
    + intros x y. split; [done|]. intros (E & CS & H). by apply elem_of_nil in H.
    + apply represents_empty. simpl. lia.
  - intros ns' Var u _ [Hcap Hu]. simpl. rewrite num_values_app. simpl.
    unfold UnionFind.grow at 1. rewrite capacity_grow, Hcap. split; [lia|].
    apply (represents_iff _ _ (some_edge ns')).
    { intros x y. unfold some_edge, edge_in. setoid_rewrite elem_of_app.
      setoid_rewrite list_elem_of_singleton. naive_solver. }
    apply (represents_grow _ _ _ _ _ _ _ Hu); intros; rewrite ?Hcap; try lia; done.
  - intros ns' From To E CS u _ HF HT [Hcap Hu]. simpl. rewrite num_values_app. simpl.
    unfold UnionFind.join at 1. rewrite capacity_join, Hcap, Nat.add_0_r. split; [done|].
    apply (represents_iff _ _ (λ x y, some_edge ns' x y ∨ x = From ∧ y = To)).
    { intros x y. unfold some_edge, edge_in. setoid_rewrite elem_of_app.
      setoid_rewrite list_elem_of_singleton. split; [naive_solver|].
      intros (E' & CS' & [?|[= -> -> -> ->]]); [left; eauto|by right]. }
    by apply (represents_join (λ x, x)).
Qed.
End basic.

(** * [IndirectionSensUnionFindAA] *)

(** A pair [(v, d)] stands for what is reached from [v] by [d] dereferences,
    where all depths from [K - 1] on are one. *)
Definition ind_lift (K : nat) (E : Edge) (d e : nat) : Prop :=
  d < K ∧ e < K ∧
  match E with
  | Assign | Gep _ | Call _ | Return => e = d
  | Copy => e = d ∧ d ≠ 0
  | Load => d = S e ∨ d = K - 1 ∧ e = K - 1
  | Store | StorePOI => e = S d `min` (K - 1)
  end.

Definition ind_edges {N V} (K : nat) (ns : list (notification N V)) (a b : nat * nat) : Prop :=
  ∃ E CS, edge_in ns E CS a.1 b.1 ∧ ind_lift K E a.2 b.2.

Section ind.
Context {N V U : Type} `{!IntEqClasses U} `{!IntEqClassesLaws U} (K : nat) (HK : 0 < K).
Implicit Types (ns : list (notification N V)).
Import IndirectionSensUnionFindAA.
#[local] Instance ind_strategy : PBStrategy N V (IndirectionSensUnionFindAA.state (U:=U)) :=
  IndirectionSensUnionFindAA.strategy K.
Implicit Types (s : IndirectionSensUnionFindAA.state (U:=U)).

Definition ind_obj (a : nat * nat) : nat := a.1 * K + a.2.
Definition ind_dom (n : nat) (a : nat * nat) : Prop := a.1 < n ∧ a.2 < K.

Record ind_ok (n : nat) s : Prop := {
  io_len : length (Var2Obj s) = n;
  io_objs v : v < n → Var2Obj s !!! v = (λ d, v * K + d) <$> seq 0 K;
  io_Obj2Var : length (Obj2Var s) = n * K;
  io_capacity : ec_capacity (Base s) = n * K
}.

Lemma ind_obj_lt n a : ind_dom n a → ind_obj a < n * K.
Proof. intros [??]. unfold ind_obj. nia. Qed.

Lemma ind_obj_inj n a b : ind_dom n a → ind_dom n b → ind_obj a = ind_obj b → a = b.
Proof.
  destruct a as [v d], b as [w e]. unfold ind_obj, ind_dom. simpl. intros [? Hd] [? He] Heq.
  assert (v = w) as -> by nia. f_equal. lia.
Qed.

Lemma join_at_represents n J From d To Ctx s :
  ind_ok n s → From < n → d < K → To < n → represents ind_obj (ind_dom n) J (Base s) →
  ind_ok n (join_at (From * K + d) To Ctx s)
  ∧ represents ind_obj (ind_dom n)
      (λ x y, J x y ∨ Ctx < K ∧ x = (From, d) ∧ y = (To, Ctx)) (Base (join_at (From * K + d) To Ctx s)).
Proof.
  intros Hok HF Hd HT Hr. unfold join_at, getObjectOrNull. rewrite (io_objs _ _ Hok) by done.
  rewrite list_lookup_fmap. destruct (decide (Ctx < K)) as [HC|HC].
  - rewrite lookup_seq_lt by done. simpl. split.
    + destruct Hok. split; try done. simpl. unfold UnionFind.join. by rewrite capacity_join.
    + apply (represents_iff _ _ (λ x y, J x y ∨ x = (From, d) ∧ y = (To, Ctx))); [naive_solver|].
      by apply (represents_join ind_obj (ind_dom n) J (Base s) (From, d) (To, Ctx)).
  - rewrite lookup_seq_ge by lia. simpl. split; [done|].
    apply (represents_iff _ _ J); [naive_solver|done].
Qed.

Lemma nextDepth_lift To (E : Edge) d (y : nat * nat) :
  E = Store ∨ E = StorePOI → d < K →
  nextDepth K d < K ∧ y = (To, nextDepth K d) ↔ y.1 = To ∧ ind_lift K E d y.2.
Proof.
  intros HE Hd. assert (nextDepth K d = S d `min` (K - 1)) as -> by (unfold nextDepth; case_decide; lia).
  destruct y as [w e]. unfold ind_lift. simpl. split.
  - intros [? [= -> ->]]. by destruct HE as [->| ->].
  - intros (-> & _ & ? & He). destruct HE as [->| ->]; rewrite <-He; by split.
Qed.

Lemma onAddEdge_at_represents n J From d To E s :
  ind_ok n s → From < n → d < K → To < n → represents ind_obj (ind_dom n) J (Base s) →
  ind_ok n (onAddEdge_at K To E d (From * K + d) s)
  ∧ represents ind_obj (ind_dom n)
      (λ x y, J x y ∨ x = (From, d) ∧ y.1 = To ∧ ind_lift K E d y.2)
      (Base (onAddEdge_at K To E d (From * K + d) s)).
Proof.
  intros Hok HF Hd HT Hr.
  assert (∀ Ctx, (∀ y, (Ctx < K ∧ y = (To, Ctx)) ↔ y.1 = To ∧ ind_lift K E d y.2) →
    ind_ok n (join_at (From * K + d) To Ctx s)
    ∧ represents ind_obj (ind_dom n) (λ x y, J x y ∨ x = (From, d) ∧ y.1 = To ∧ ind_lift K E d y.2)
        (Base (join_at (From * K + d) To Ctx s))) as Hone.
  { intros Ctx Hy. destruct (join_at_represents n J From d To Ctx s) as [Hok' Hr']; [done..|].
    split; [done|]. revert Hr'. apply represents_iff. intros x y. rewrite <-Hy. naive_solver. }
  unfold onAddEdge_at. destruct E; try (apply Hone; intros [w e]; unfold ind_lift; simpl; naive_solver).
  - (* Load *)
    set (s1 := match prevDepth d with Some ToCtx => _ | None => s end).
    assert (ind_ok n s1 ∧ represents ind_obj (ind_dom n)
      (λ x y, J x y ∨ x = (From, d) ∧ y.1 = To ∧ d = S y.2) (Base s1)) as [Hok1 Hr1].
    { unfold s1, prevDepth. case_decide as Hd0.
      - split; [done|]. apply (represents_iff _ _ J); [|done]. intros x y. split; [auto|]. intros [?|?]; [done|lia].
      - destruct (join_at_represents n J From d To (d - 1) s) as [Hok' Hr']; [done..|]. split; [done|].
        revert Hr'. apply represents_iff. intros x [w e]. simpl. split.
        + intros [?|(? & ? & [= -> ->])]; [by left|right]. split_and!; [done..|lia].
        + intros [?|(? & -> & Hde)]; [by left|right]. split_and!; [lia|done|]. f_equal. lia. }
    case_decide as Hd1.
    + destruct (join_at_represents n _ From d To d s1 Hok1 HF Hd HT Hr1) as [Hok2 Hr2]. split; [done|].
      revert Hr2. apply represents_iff. intros x [w e]. unfold ind_lift. simpl. split.
      * intros [[?|(? & -> & ?)]|(? & ? & [= -> ->])]; [by left|right; split_and!; [done..|lia|by left]|right].
        split_and!; try done. by right.
      * intros [?|(? & -> & _ & ? & [?|[_ ?]])]; [by do 2 left|by left; right|right]. by subst.
    + split; [done|]. revert Hr1. apply represents_iff. intros x [w e]. unfold ind_lift. simpl. split.
      * intros [?|(? & -> & ?)]; [by left|right]. split_and!; [done..|lia|by left].
      * intros [?|(? & -> & _ & ? & [?|[? _]])]; [by left|by right|done].
  - (* Store *)
    apply Hone. intros y. apply nextDepth_lift; auto.
  - apply Hone. intros y. apply nextDepth_lift; auto.
  - (* Copy *)
    case_decide as Hd0.
    + split; [done|]. apply (represents_iff _ _ J); [|done]. unfold ind_lift. naive_solver.
    + apply Hone. intros [w e]. unfold ind_lift. simpl. naive_solver.
Qed.

Definition ind_build ns : IndirectionSensUnionFindAA.state (U:=U) := build ns initial_state.

Lemma ind_represents ns :
  ascending_ids 0 ns →
  ind_ok (num_values ns) (ind_build ns)
  ∧ represents ind_obj (ind_dom (num_values ns)) (ind_edges K ns) (Base (ind_build ns)).
Proof.
  intros Hns. apply (build_ind (λ ns s, ind_ok (num_values ns) s
    ∧ represents ind_obj (ind_dom (num_values ns)) (ind_edges K ns) (Base s))); [done|..].
  - split; [split; simpl; try done; [lia|apply capacity_empty]|].
    apply (represents_iff _ _ (λ _ _, False)).
    + intros x y. split; [done|]. intros (E & CS & H & _). by apply elem_of_nil in H.
    + apply represents_empty. intros x [? _]. simpl in *. lia.
  - intros ns' Var s _ [Hok Hr]. rewrite num_values_app. simpl.
    set (n := num_values ns') in *. split.
    + destruct Hok as [Hl Ho H2 Hc]. split; simpl.
      * rewrite length_app. simpl. lia.
      * intros v Hv. destruct (decide (v < n)).
        -- rewrite lookup_total_app_l by lia. auto.
        -- replace v with n by lia. rewrite lookup_total_app_r, Hl, Nat.sub_diag by lia. by rewrite H2.
      * rewrite length_app, length_fmap, length_seq. lia.
      * unfold UnionFind.grow. rewrite capacity_grow. lia.
    + apply (represents_iff _ _ (ind_edges K ns')).
      { intros x y. unfold ind_edges, edge_in. setoid_rewrite elem_of_app.
        setoid_rewrite list_elem_of_singleton. naive_solver. }
      simpl. rewrite (io_Obj2Var _ _ Hok).
      apply (represents_grow _ _ _ _ _ _ _ Hr).
      * intros x []. split; lia.
      * done.
      * intros [v d] [Hv Hd]. rewrite (io_capacity _ _ Hok). unfold ind_dom, ind_obj. simpl in *.
        destruct (decide (v < n)); [by left|right]. replace v with n by lia. lia.
      * intros x y. apply ind_obj_inj.
      * intros x. unfold ind_dom. lia.
  - intros ns' From To E CS s _ HF HT [Hok Hr]. rewrite num_values_app. simpl. rewrite Nat.add_0_r.
    set (n := num_values ns') in *. rewrite (io_objs _ _ Hok) by done.
    destruct (represents_loop Base (ind_ok n) ind_obj (ind_dom n) (ind_edges K ns')
      (imap pair ((λ d, From * K + d) <$> seq 0 K)) (λ '(d, FromObj), onAddEdge_at K To E d FromObj)
      (λ b x y, x = (From, b.1) ∧ y.1 = To ∧ ind_lift K E b.1 y.2) s Hok Hr) as [Hok' Hr'].
    + intros [d obj] J' s' Hb Hok' Hr'. apply elem_of_lookup_imap in Hb as (i & obj' & [= -> ->] & Hi).
      rewrite list_lookup_fmap in Hi. apply fmap_Some in Hi as (j & [Hij Hj]%lookup_seq & ->).
      simpl in Hij. subst j. by apply onAddEdge_at_represents.
    + split; [done|]. revert Hr'. apply represents_iff. intros [v d] [w e].
      unfold ind_edges, edge_in. setoid_rewrite elem_of_app. setoid_rewrite list_elem_of_singleton. simpl.
      split.
      * intros [(E' & CS' & ? & ?)|([d' obj] & Hb & [= -> ->] & -> & Hl)]; [by exists E', CS'; auto|].
        exists E, CS. auto.
      * intros (E' & CS' & [?|[= -> -> -> ->]] & Hl); [left; eauto|right].
        destruct Hl as [Hd ?]. exists (d, From * K + d). split; [|by split_and!].
        apply elem_of_lookup_imap. exists d, (From * K + d). split; [done|].
        rewrite list_lookup_fmap, lookup_seq_lt by done. done.
Qed.
End ind.
