(* ===== verification/CallingContextAA.v ===== *)
(** Calling contexts (Pointer/CallingContextConstructor.h) and the union-find
    alias analysis that clones the variables of a function for each of them
    ([CallingContextSensUnionFindAA] of Pointer/UnionFindAA.h). A null call site
    is [None]. *)
From S2P Require Import Prelude Compressor UnionFind UnionFindAA.
Import pag.

(** What the analyses ask the call graph and the IR database. *)
Record CallGraphView (N F V : Type) := {
  getCallersOf : F → list N;
  getFunctionOf : N → F;
  getFunction : V → option F
}.
Arguments getCallersOf {N F V}.
Arguments getFunctionOf {N F V}.
Arguments getFunction {N F V}.

(** * [CallingContext] *)

Module CallingContext.
Section context.
Context {N : Type} (K : nat).

(** [Callers]: an array of [K] call sites, the most recent first. *)
Definition t : Type := list (option N).
Definition empty : t := replicate K None.

Definition withPrefix (FirstCS : option N) (Callers : t) : t :=
  (for_each (seq 0 K) (λ I '(Ret, Tmp), (<[I := Tmp]> Ret, Ret !!! I)) (Callers, FirstCS)).1.
End context.
Arguments t N : clear implicits.
End CallingContext.

(** * [CallingContextConstructor] *)

Module CallingContextConstructor.
Section constructor.
Context {N F V : Type} `{Countable N} (K : nat) (CG : CallGraphView N F V).

Abbreviation Ctx := (CallingContext.t N).
Abbreviation CC2Id := (ByValue.Compressor Ctx).

Definition initial : CC2Id := (ByValue.getOrInsert (CallingContext.empty K) ByValue.empty).2.

Section visit.
Context {S : Type} (CCVisitor : option N → Z → S → S).

(** Interning the current context, and the visitor. *)
Definition visit (CurrCtx : Ctx) (st : CC2Id * S) : CC2Id * S :=
  let '(CtxId, CC) := ByValue.getOrInsert CurrCtx st.1 in
  (CC, CCVisitor (default None (CurrCtx !! 0)) CtxId st.2).

(** [visitAllCallingContextsImpl<Idx>] with [todo = K - Idx]; [CurrCtx] is passed
    by reference. *)
Fixpoint visitAllCallingContextsImpl (todo : nat) (Fun : F) (CurrCtx : Ctx) (st : CC2Id * S) :
    Ctx * (CC2Id * S) :=
  match todo with
  | 0 => (CurrCtx, visit CurrCtx st)
  | Datatypes.S todo' =>
    let CallersOfCS := getCallersOf CG Fun in
    let '(CurrCtx, st) := for_each CallersOfCS (λ CS '(CurrCtx, st),
      visitAllCallingContextsImpl todo' (getFunctionOf CG CS) (<[K - todo := Some CS]> CurrCtx) st)
      (CurrCtx, st) in
    match CallersOfCS with
    | [] => (CurrCtx, visit CurrCtx st)
    | _ => (CurrCtx, st)
    end
  end.

Definition visitAllCallingContexts (Fun : F) (st : CC2Id * S) : CC2Id * S :=
  (visitAllCallingContextsImpl K Fun (CallingContext.empty K) st).2.
End visit.

Definition visitContextsAtCall {S} (CCVisitor : Z → S → S) (Call : N) (st : CC2Id * S) : CC2Id * S :=
  (visitAllCallingContextsImpl (λ _, CCVisitor) (K - 1) (getFunctionOf CG Call)
     (<[0 := Some Call]> (CallingContext.empty K)) st).2.
End constructor.
End CallingContextConstructor.

(** * [CallingContextSensUnionFindAA] *)

Module CallingContextSensUnionFindAA.
Section analysis.
Context {N F V U : Type} `{Countable N} `{!IntEqClasses U}.
Context (K : nat) (CG : CallGraphView N F V).
(** The order of a [SmallDenseMap]. *)
Context (entries : gmap Z nat → list (Z * nat)).

Record state := State {
  Obj2Var : list (nat * Z);
  Var2Obj : list (gmap Z nat);
  CC : ByValue.Compressor (CallingContext.t N);
  Base : U
}.

Definition initial_state : state :=
  State [] [] (CallingContextConstructor.initial K) ec_empty.

(** [CallingContextId::None]. *)
Definition NoneId : Z := 0.

Definition getObjectOrNull (Val : nat) (Ctx : Z) (s : state) : option nat :=
  match (Var2Obj s !!! Val) !! Ctx with
  | Some Ret => Some Ret
  | None => (Var2Obj s !!! Val) !! NoneId
  end.

Definition getObject (VId : nat) (Ctx : Z) (s : state) : state :=
  match (Var2Obj s !!! VId) !! Ctx with
  | Some _ => s
  | None =>
    let Obj := length (Obj2Var s) in
    State (Obj2Var s ++ [(VId, Ctx)]) (alter <[Ctx := Obj]> VId (Var2Obj s)) (CC s)
      (UnionFind.grow (Obj + 1) (Base s))
  end.

Definition join (Obj1 Obj2 : nat) (s : state) : state :=
  State (Obj2Var s) (Var2Obj s) (CC s) (UnionFind.join Obj1 Obj2 (Base s)).2.

Definition set_CC (CC' : ByValue.Compressor (CallingContext.t N)) (s : state) : state :=
  State (Obj2Var s) (Var2Obj s) CC' (Base s).

(** [CC.getOrInsert(CC\[Ctx\].withPrefix(CallSite))]. *)
Definition prefixed (CallSite : option N) (Ctx : Z) (s : state) : Z * state :=
  let '(Id, CC') := ByValue.getOrInsert
    (CallingContext.withPrefix K CallSite (default [] (ByValue.at_ Ctx (CC s)))) (CC s) in
  (Id, set_CC CC' s).

Definition onCall (To : nat) (CallSite : option N) (ArgCtxId : Z) (FromObj : nat) (s : state) : state :=
  let '(ParamCtxId, s) := prefixed CallSite ArgCtxId s in
  match getObjectOrNull To ParamCtxId s with
  | Some Dst => join FromObj Dst s
  | None => s
  end.

Definition onReturn (From : nat) (CallSite : option N) (CSValCtxId : Z) (ToObj : nat) (s : state) : state :=
  let '(RetCtxId, s) := prefixed CallSite CSValCtxId s in
  match getObjectOrNull From RetCtxId s with
  | Some Src => join Src ToObj s
  | None => s
  end.

Definition onOther (To : nat) (FromCtx : Z) (FromObj : nat) (s : state) : state :=
  if decide (FromCtx = NoneId) then
    for_each (entries (Var2Obj s !!! To)) (λ '(_, ToObj), join FromObj ToObj) s
  else
    match getObjectOrNull To FromCtx s with
    | Some Dst => join FromObj Dst s
    | None => s
    end.

Definition onAddEdge (From To : nat) (E : Edge) (CallSite : option N) (s : state) : state :=
  match E with
  | Call _ => for_each (entries (Var2Obj s !!! From)) (λ '(Ctx, Obj), onCall To CallSite Ctx Obj) s
  | Return => for_each (entries (Var2Obj s !!! To)) (λ '(Ctx, Obj), onReturn From CallSite Ctx Obj) s
  | _ => for_each (entries (Var2Obj s !!! From)) (λ '(Ctx, Obj), onOther To Ctx Obj) s
  end.

(** The visitor has the state without the compressor. *)
Definition visitor (VId : nat) (_ : option N) (Ctx : Z) : state → state := getObject VId Ctx.

Definition onAddValue (Var : V) (VId : nat) (s : state) : state :=
  let s := State (Obj2Var s) (Var2Obj s ++ [∅]) (CC s) (Base s) in
  match getFunction CG Var with
  | Some Fun =>
    let '(CC', s) := CallingContextConstructor.visitAllCallingContexts K CG (visitor VId) Fun (CC s, s) in
    let s := set_CC CC' s in
    match getCallersOf CG Fun with
    | [] => getObject VId NoneId s
    | _ => s
    end
  | None => getObject VId NoneId s
  end.

#[export] Instance strategy : PBStrategy N V state := {
  pag.onAddEdge := onAddEdge;
  pag.onAddValue := onAddValue
}.

(** One object of a variable in [consumeAAResults]. *)
Definition consume_object (Equiv : U) (ValId : nat) (Include : bool) (Obj : nat)
    (Result : CallingContextSensUnionFindAAResult) : CallingContextSensUnionFindAAResult :=
  let Rep := CompressedUnionFind.at_ Equiv Obj in
  let pushed := alter (λ Reps, Reps ++ [Rep]) ValId (ctx_Var2Rep Result) in
  if Include then
    if decide (ValId ∈ ctx_BackwardView Result !!! Rep) then Result
    else {| ctx_BackwardView := alter (union {[ValId]}) Rep (ctx_BackwardView Result);
            ctx_Var2Rep := pushed |}
  else if decide (Rep ∈ ctx_Var2Rep Result !!! ValId) then Result
  else {| ctx_BackwardView := ctx_BackwardView Result; ctx_Var2Rep := pushed |}.

Definition consumeAAResults (NumVars : nat) (ShouldInclude : nat → bool) (s : state) :
    CallingContextSensUnionFindAAResult :=
  let Equiv := UnionFind.compress (Base s) in
  for_each (imap pair (Var2Obj s)) (λ '(ValId, Objects) Result,
    for_each (entries Objects) (λ '(_, Obj), consume_object Equiv ValId (ShouldInclude ValId) Obj) Result)
    {| ctx_BackwardView := replicate (CompressedUnionFind.numClasses Equiv) ∅;
       ctx_Var2Rep := replicate NumVars [] |}.
End analysis.
End CallingContextSensUnionFindAA.
