(* ===== verification/CallingContextAACorrect.v ===== *)
(** What the calling-context-sensitive union-find analysis computes: its classes
    are the connected components of the edges between the clones of variables,
    and for contexts of one call site values that flow along a realizable path
    alias. *)
From S2P Require Import Prelude Compressor UnionFind UnionFindAA UnionFindAACorrect.
From S2P Require Import UnionFindAACorrect CallingContextAA.
From stdpp Require Import relations.
Import pag.

(** * Contexts *)

Section contexts.
Context {N F V : Type} `{Countable N} (K : nat) (CG : CallGraphView N F V).
Abbreviation Ctx := (CallingContext.t N).
Implicit Types (c : Ctx).
Import CallingContextConstructor.

(** The contexts [visitAllCallingContextsImpl] visits, in order, and what it
    leaves in the context it was passed. *)
Fixpoint visited (todo : nat) (Fun : F) c : Ctx * list Ctx :=
  match todo with
  | 0 => (c, [c])
  | S todo' =>
    match getCallersOf CG Fun with
    | [] => (c, [c])
    | Callers => for_each Callers (λ CS '(c, l),
        let '(c', l') := visited todo' (getFunctionOf CG CS) (<[K - todo := Some CS]> c) in
        (c', l ++ l')) (c, [])
    end
  end.

Lemma visitAllCallingContextsImpl_visited {S} (CCVisitor : option N → Z → S → S) todo Fun c st :
  visitAllCallingContextsImpl K CG CCVisitor todo Fun c st =
    ((visited todo Fun c).1, for_each (visited todo Fun c).2 (visit CCVisitor) st).
Proof.
  revert Fun c st. induction todo as [|todo IH]; intros Fun c st; [done|]. simpl.
  set (l := getCallersOf CG Fun).
  assert (∀ l c acc,
    for_each l (λ CS '(CurrCtx, st), visitAllCallingContextsImpl K CG CCVisitor todo
      (getFunctionOf CG CS) (<[K - Datatypes.S todo := Some CS]> CurrCtx) st) (c, for_each acc (visit CCVisitor) st) =
    let r := for_each l (λ CS '(c, l),
      let '(c', l') := visited todo (getFunctionOf CG CS) (<[K - Datatypes.S todo := Some CS]> c) in
      (c', l ++ l')) (c, acc) in (r.1, for_each r.2 (visit CCVisitor) st)) as Hl.
  { clear l c. induction l as [|CS l IHl]; intros c acc; [done|]. rewrite !for_each_cons, IH.
    destruct (visited todo (getFunctionOf CG CS) _) as [c' l'] eqn:Hv. simpl.
    rewrite <-for_each_app. apply IHl. }
  specialize (Hl l c []). simpl in Hl. rewrite Hl. by destruct l.
Qed.

(** The contexts of the clones of a variable. *)
Definition contexts_of (Var : V) : list Ctx :=
  match getFunction CG Var with
  | Some Fun =>
    (visited K Fun (CallingContext.empty K)).2
      ++ match getCallersOf CG Fun with [] => [CallingContext.empty K] | _ => [] end
  | None => [CallingContext.empty K]
  end.

Lemma withPrefix_take FirstCS c :
  length c = K → CallingContext.withPrefix K FirstCS c = take K (FirstCS :: c).
Proof.
  unfold CallingContext.t in *. intros Hlen. unfold CallingContext.withPrefix.
  assert (∀ k, k ≤ K →
    for_each (seq 0 k) (λ I '(Ret, Tmp), (<[I := Tmp]> Ret, Ret !!! I)) (c, FirstCS)
    = (take k (FirstCS :: c) ++ drop k c, (FirstCS :: c) !!! k)) as Hk.
  { induction k as [|k IH]; intros Hle; [done|].
    rewrite seq_S, for_each_app, for_each_cons, for_each_nil, IH by lia. simpl.
    assert (length (take k (FirstCS :: c)) = k) as Ht by (rewrite length_take; simpl; lia).
    destruct (lookup_lt_is_Some_2 c k) as [x Hx]; [lia|].
    destruct (lookup_lt_is_Some_2 (FirstCS :: c) k) as [y Hy]; [simpl; lia|].
    rewrite (drop_S _ x) by done. f_equal.
    - rewrite insert_app_r_alt, Ht, Nat.sub_diag by lia. 
      change (FirstCS :: take k c ++ drop (S k) c) with (take (S k) (FirstCS :: c) ++ drop (S k) c).
      rewrite (list_lookup_total_correct _ _ _ Hy), (take_S_r _ _ y) by done. by rewrite <-app_assoc.
    - rewrite lookup_total_app_r, Ht, Nat.sub_diag by lia. simpl.
      symmetry. by apply list_lookup_total_correct. }
  rewrite Hk by done. simpl. rewrite (drop_ge c) by lia. by rewrite app_nil_r.
Qed.
End contexts.

(** * The clones of the variables *)

Section clones.
Context {N F V U : Type} `{Countable N} `{!IntEqClasses U} `{!IntEqClassesLaws U}.
Context (K : nat) (CG : CallGraphView N F V).
Context (entries : gmap Z nat → list (Z * nat)).
Context (Hentries : ∀ m x, x ∈ entries m ↔ m !! x.1 = Some x.2).
Import CallingContextSensUnionFindAA.
Abbreviation Ctx := (CallingContext.t N).
Abbreviation none := (CallingContext.empty K : Ctx).
Implicit Types (c : Ctx) (cs : list (list Ctx)) (s : CallingContextSensUnionFindAA.state (N:=N) (U:=U)).
Implicit Types (J : relation (nat * Ctx)).

(** The context ids have not wrapped around. *)
Definition small s : Prop := (Z.of_nat (ByValue.size (CC s)) < 2 ^ 32)%Z.

(** The variable and the context of a clone, for the contexts [cs] of the
    variables, and its object. *)
Definition clone cs (a : nat * Ctx) : Prop := ∃ l, cs !! a.1 = Some l ∧ a.2 ∈ l.

Definition object s (a : nat * Ctx) : nat :=
  default 0 (id ← ByValue.ToInt (CC s) !! a.2; (Var2Obj s !!! a.1) !! id).

Record ctx_ok cs s : Prop := {
  co_cc : comp_wf (CC s);
  co_none : ByValue.ToInt (CC s) !! none = Some NoneId;
  co_len : length (Var2Obj s) = length cs;
  co_map v id o : (Var2Obj s !!! v) !! id = Some o →
    ∃ c, ByValue.ToInt (CC s) !! c = Some id ∧ clone cs (v, c);
  co_clone v c : clone cs (v, c) →
    ∃ id o, ByValue.ToInt (CC s) !! c = Some id ∧ (Var2Obj s !!! v) !! id = Some o;
  co_obj v id o : (Var2Obj s !!! v) !! id = Some o → Obj2Var s !! o = Some (v, id);
  co_capacity : ec_capacity (Base s) = length (Obj2Var s)
}.

Definition good cs J s : Prop := ctx_ok cs s ∧ represents (object s) (clone cs) J (Base s).

Lemma object_spec cs s v c :
  ctx_ok cs s → clone cs (v, c) →
  ∃ id, ByValue.ToInt (CC s) !! c = Some id ∧ (Var2Obj s !!! v) !! id = Some (object s (v, c)).
Proof.
  intros Hok (id & o & Hid & Ho)%(co_clone _ _ Hok). exists id. split; [done|].
  unfold object. simpl. rewrite Hid. simpl. by rewrite Ho.
Qed.

Lemma object_lt cs s a : ctx_ok cs s → clone cs a → object s a < length (Obj2Var s).
Proof.
  destruct a as [v c]. intros Hok (id & _ & Ho)%(object_spec cs s v c Hok).
  apply (co_obj _ _ Hok) in Ho. by apply lookup_lt_Some in Ho.
Qed.

Lemma object_inj cs s a b : ctx_ok cs s → clone cs a → clone cs b → object s a = object s b → a = b.
Proof.
  destruct a as [v c], b as [w d]. intros Hok Ha Hb Heq.
  destruct (object_spec cs s v c Hok Ha) as (i & Hi & Hoi).
  destruct (object_spec cs s w d Hok Hb) as (j & Hj & Hoj). rewrite <-Heq in Hoj.
  apply (co_obj _ _ Hok) in Hoi, Hoj. simplify_eq. f_equal.
  by eapply (comp_wf_inj (CC s)); [apply Hok|..].
Qed.

(** A larger compressor changes nothing. *)
Record later s s' : Prop := {
  lt_CC : comp_ext (CC s) (CC s');
  lt_Var2Obj : Var2Obj s' = Var2Obj s
}.

#[local] Instance later_preorder : PreOrder later.
Proof. split; [by split|]. intros s1 s2 s3 [] []. split; [by etrans|congruence]. Qed.

Lemma later_id s s' c id :
  later s s' → ByValue.ToInt (CC s) !! c = Some id → ByValue.ToInt (CC s') !! c = Some id.
Proof. intros [HCC _] Hid. by apply (lookup_weaken _ _ _ _ Hid), HCC. Qed.

Lemma later_object cs s s' a : ctx_ok cs s → later s s' → clone cs a → object s' a = object s a.
Proof.
  destruct a as [v c]. intros Hok Hl Ha. destruct (object_spec cs s v c Hok Ha) as (id & Hid & Ho).
  unfold object at 1. simpl. rewrite (later_id _ _ _ _ Hl Hid). simpl. by rewrite (lt_Var2Obj _ _ Hl), Ho.
Qed.

Lemma set_CC_good cs J CC' s :
  good cs J s → comp_wf CC' → comp_ext (CC s) CC' → good cs J (set_CC CC' s) ∧ later s (set_CC CC' s).
Proof.
  intros [Hok Hr] Hwf Hext. assert (later s (set_CC CC' s)) as Hl by (by split).
  split; [split|done].
  - destruct Hok as [H1 H2 H3 H4 H5 H6 H7]. split; try done.
    + by apply (later_id _ _ _ _ Hl).
    + intros v id o Ho. destruct (H4 v id o Ho) as (c & Hc & Hcl). exists c. split; [|done].
      by apply (later_id _ _ _ _ Hl).
    + intros v c Hcl. destruct (H5 v c Hcl) as (id & o & Hid & Ho). exists id, o. split; [|done].
      by apply (later_id _ _ _ _ Hl).
  - apply (represents_numbering (object s)); [|done]. intros a. by apply (later_object cs s).
Qed.

Lemma join_good cs J s a b :
  good cs J s → clone cs a → clone cs b →
  good cs (λ x y, J x y ∨ x = a ∧ y = b) (join (object s a) (object s b) s)
  ∧ later s (join (object s a) (object s b) s).
Proof.
  intros [Hok Hr] Ha Hb. split; [split|by split].
  - destruct Hok. split; try done. simpl. unfold UnionFind.join. by rewrite capacity_join.
  - by apply (represents_join (object s)).
Qed.

(** ** [getObjectOrNull] *)

Definition clone_for cs (v : nat) c : option Ctx :=
  if decide (c ∈ cs !!! v) then Some c else if decide (none ∈ cs !!! v) then Some none else None.

Lemma clone_lookup cs v c : v < length cs → clone cs (v, c) ↔ c ∈ cs !!! v.
Proof.
  clear Hentries. intros [l Hl]%lookup_lt_is_Some. unfold clone. simpl.
  rewrite Hl, (list_lookup_total_correct _ _ _ Hl). naive_solver.
Qed.

Lemma clone_for_clone cs v c d : v < length cs → clone_for cs v c = Some d → clone cs (v, d).
Proof.
  intros Hv. unfold clone_for. rewrite clone_lookup by done. repeat case_decide; naive_solver.
Qed.

Lemma object_at cs s v c id :
  ctx_ok cs s → v < length cs → ByValue.ToInt (CC s) !! c = Some id →
  (Var2Obj s !!! v) !! id = if decide (c ∈ cs !!! v) then Some (object s (v, c)) else None.
Proof.
  intros Hok Hv Hid. case_decide as Hc.
  - destruct (object_spec cs s v c Hok) as (id' & Hid' & Ho); [by apply clone_lookup|]. by simplify_eq.
  - destruct ((Var2Obj s !!! v) !! id) as [o|] eqn:Ho; [|done].
    destruct (co_map _ _ Hok v id o Ho) as (d & Hd & Hcl). apply clone_lookup in Hcl; [|done].
    by rewrite (comp_wf_inj (CC s) c d id (co_cc _ _ Hok) Hid Hd) in Hc.
Qed.

Lemma getObjectOrNull_spec cs s v c id :
  ctx_ok cs s → v < length cs → ByValue.ToInt (CC s) !! c = Some id →
  getObjectOrNull v id s = (λ d, object s (v, d)) <$> clone_for cs v c.
Proof.
  intros Hok Hv Hid. unfold getObjectOrNull, clone_for. rewrite (object_at cs s v c) by done.
  case_decide; [done|]. rewrite (object_at cs s v none NoneId) by (done || apply Hok). by case_decide.
Qed.

(** Linking a clone with the one of another variable for a context. *)
Lemma link_good cs J s a w c id :
  good cs J s → clone cs a → w < length cs → ByValue.ToInt (CC s) !! c = Some id →
  let s' := match getObjectOrNull w id s with Some o => join (object s a) o s | None => s end in
  good cs (λ x y, J x y ∨ x = a ∧ y.1 = w ∧ clone_for cs w c = Some y.2) s' ∧ later s s'.
Proof.
  intros Hg Ha Hw Hid. destruct Hg as [Hok Hr]. rewrite (getObjectOrNull_spec cs s w c id) by done.
  destruct (clone_for cs w c) as [d|] eqn:Hd; simpl.
  - destruct (join_good cs J s a (w, d)) as [[Hok' Hr'] Hl]; [by split|done|by eapply clone_for_clone|].
    split; [split; [done|]|done]. revert Hr'. apply represents_iff. intros x [w' d']. simpl. naive_solver.
  - split; [split; [done|]|done]. revert Hr. apply represents_iff. naive_solver.
Qed.

Lemma link_back_good cs J s a w c id :
  good cs J s → clone cs a → w < length cs → ByValue.ToInt (CC s) !! c = Some id →
  let s' := match getObjectOrNull w id s with Some o => join o (object s a) s | None => s end in
  good cs (λ x y, J x y ∨ y = a ∧ x.1 = w ∧ clone_for cs w c = Some x.2) s' ∧ later s s'.
Proof.
  intros Hg Ha Hw Hid. destruct Hg as [Hok Hr]. rewrite (getObjectOrNull_spec cs s w c id) by done.
  destruct (clone_for cs w c) as [d|] eqn:Hd; simpl.
  - destruct (join_good cs J s (w, d) a) as [[Hok' Hr'] Hl]; [by split|by eapply clone_for_clone|done|].
    split; [split; [done|]|done]. revert Hr'. apply represents_iff. intros [w' d'] y. simpl. naive_solver.
  - split; [split; [done|]|done]. revert Hr. apply represents_iff. naive_solver.
Qed.

(** ** The prefixed context *)

Lemma prefixed_size CS i s : ByValue.size (CC s) ≤ ByValue.size (CC (prefixed K CS i s).2).
Proof.
  unfold prefixed. pose proof (getOrInsert_size (CallingContext.withPrefix K CS (default [] (ByValue.at_ i (CC s)))) (CC s)) as Hs.
  destruct (ByValue.getOrInsert _ _). simpl in *. lia.
Qed.

Lemma prefixed_good cs J CS c i s :
  good cs J s → small s → ByValue.ToInt (CC s) !! c = Some i →
  let '(id, s') := prefixed K CS i s in
  good cs J s' ∧ later s s' ∧ ByValue.ToInt (CC s') !! CallingContext.withPrefix K CS c = Some id.
Proof.
  intros Hg Hs Hi. unfold prefixed.
  destruct (comp_wf_range (CC s) c i) as (_ & _ & ->); [apply Hg|done|]. simpl.
  pose proof (getOrInsert_spec (CallingContext.withPrefix K CS c) (CC s) (co_cc _ _ (proj1 Hg)) Hs) as Hspec.
  destruct (ByValue.getOrInsert _ _) as [id CC']. destruct Hspec as (Hwf & Hext & Hid & _).
  destruct (set_CC_good cs J CC' s Hg Hwf Hext). auto.
Qed.

(** ** Edges *)

Definition size_CC s : nat := ByValue.size (CC s).

Lemma small_le s s' : size_CC s ≤ size_CC s' → small s' → small s.
Proof. unfold small, size_CC. lia. Qed.

Lemma join_size o o' s : size_CC (join o o' s) = size_CC s.
Proof. done. Qed.

Lemma link_size (r : option nat) o (back : bool) s :
  size_CC (match r with Some o' => if back then join o' o s else join o o' s | None => s end) = size_CC s.
Proof. by destruct r, back. Qed.

Lemma onCall_size To CS i o s : size_CC s ≤ size_CC (onCall K To CS i o s).
Proof.
  unfold onCall. pose proof (prefixed_size CS i s). destruct (prefixed K CS i s) as [id s'].
  by rewrite (link_size _ _ false s').
Qed.

Lemma onReturn_size From CS i o s : size_CC s ≤ size_CC (onReturn K From CS i o s).
Proof.
  unfold onReturn. pose proof (prefixed_size CS i s). destruct (prefixed K CS i s) as [id s'].
  by rewrite (link_size _ _ true s').
Qed.

Lemma onOther_size To i o s : size_CC (onOther entries To i o s) = size_CC s.
Proof.
  unfold onOther. case_decide; [|by rewrite (link_size _ _ false s)].
  apply (for_each_inv (λ s', size_CC s' = size_CC s)); [done|]. by intros [].
Qed.

(** The loop over the clones of a variable. *)
Lemma entries_loop cs J s v (body : Z → nat → state → state) (R : Ctx → relation (nat * Ctx)) :
  good cs J s → v < length cs →
  (∀ i o s', size_CC s' ≤ size_CC (body i o s')) →
  (∀ c i s' J', good cs J' s' → later s s' → small s' → clone cs (v, c) →
     ByValue.ToInt (CC s') !! c = Some i →
     good cs (λ x y, J' x y ∨ R c x y) (body i (object s' (v, c)) s')
     ∧ later s' (body i (object s' (v, c)) s')) →
  let s' := for_each (entries (Var2Obj s !!! v)) (λ '(i, o), body i o) s in
  small s' → good cs (λ x y, J x y ∨ ∃ c, clone cs (v, c) ∧ R c x y) s' ∧ later s s'.
Proof.
  intros Hg Hv Hsize Hbody s' Hsm. destruct Hg as [Hok Hr].
  assert (good cs (λ x y, J x y ∨ ∃ i o c, (i, o) ∈ entries (Var2Obj s !!! v) ∧
    ByValue.ToInt (CC s) !! c = Some i ∧ R c x y) s' ∧ later s s') as [[Hok' Hr'] Hl].
  { revert Hsm. unfold s'. apply (for_each_ind (λ l1 s', small s' →
      good cs (λ x y, J x y ∨ ∃ i o c, (i, o) ∈ l1 ∧ ByValue.ToInt (CC s) !! c = Some i ∧ R c x y) s'
      ∧ later s s')).
    - intros _. split; [split; [done|]|done]. revert Hr. apply represents_iff. intros x y.
      split; [auto|]. intros [?|(i & o & c & Hin & _)]; [done|by apply elem_of_nil in Hin].
    - intros l1 [i o] s1 Hin IH Hsm. apply Hentries in Hin. simpl in Hin.
      destruct IH as [[Hok1 Hr1] Hl1]; [by apply (small_le _ _ (Hsize i o s1))|].
      destruct (co_map _ _ Hok v i o Hin) as (c & Hc & Hcl).
      assert (o = object s1 (v, c)) as ->.
      { rewrite (later_object cs s s1) by done. destruct (object_spec cs s v c Hok Hcl) as (i' & Hi' & Ho).
        by simplify_eq. }
      pose proof (later_id _ _ _ _ Hl1 Hc) as Hc1.
      destruct (Hbody c i s1 _ (conj Hok1 Hr1) Hl1) as [[Hok2 Hr2] Hl2]; [|done..|].
      { by apply (small_le _ _ (Hsize i (object s1 (v, c)) s1)). }
      split; [split; [done|]|by etrans]. revert Hr2. apply represents_iff. intros x y.
      setoid_rewrite elem_of_app. setoid_rewrite list_elem_of_singleton. split.
      + intros [[?|(i' & o' & c' & ? & ? & ?)]|?]; [by left|right; by eauto 10|right].
        exists i, (object s1 (v, c)), c. auto.
      + intros [?|(i' & o' & c' & [?|[= -> ->]] & Hc' & HR)]; [by do 2 left|left; right; by eauto 10|right].
        by rewrite <-(comp_wf_inj (CC s) c' c i (co_cc _ _ Hok) Hc' Hc). }
  split; [split; [done|]|done]. revert Hr'. apply represents_iff. intros x y. split.
  - intros [?|(i & o & c & Hin%Hentries & Hc & HR)]; [by left|right]. simpl in Hin.
    destruct (co_map _ _ Hok v i o Hin) as (c' & Hc' & Hcl).
    rewrite (comp_wf_inj (CC s) c c' i (co_cc _ _ Hok) Hc Hc') in HR. eauto.
  - intros [?|(c & Hcl & HR)]; [by left|right].
    destruct (object_spec cs s v c Hok Hcl) as (i & Hi & Ho).
    exists i, (object s (v, c)), c. split_and!; [by apply Hentries|done|done].
Qed.

(** The edges between clones that an edge between variables gives. *)
Definition ctx_lift cs (E : Edge) (CS : option N) (From To : nat) (a b : nat * Ctx) : Prop :=
  a.1 = From ∧ b.1 = To ∧
  match E with
  | Call _ => clone cs a ∧ clone_for cs To (CallingContext.withPrefix K CS a.2) = Some b.2
  | Return => clone cs b ∧ clone_for cs From (CallingContext.withPrefix K CS b.2) = Some a.2
  | _ => clone cs a ∧ if decide (a.2 = none) then clone cs b else clone_for cs To a.2 = Some b.2
  end.

Lemma onOther_good cs J s From To c i :
  good cs J s → small s → clone cs (From, c) → To < length cs → ByValue.ToInt (CC s) !! c = Some i →
  let s' := onOther entries To i (object s (From, c)) s in
  good cs (λ x y, J x y ∨ x = (From, c) ∧ y.1 = To ∧
    if decide (c = none) then clone cs y else clone_for cs To c = Some y.2) s' ∧ later s s'.
Proof.
  intros Hg Hs Hcl HT Hi. unfold onOther. destruct Hg as [Hok Hr].
  assert (i = NoneId ↔ c = none) as Hnone.
  { split; [intros ->|intros ->].
    - apply (comp_wf_inj (CC s) c none NoneId); [apply Hok|done|apply Hok].
    - pose proof (co_none _ _ Hok). congruence. }
  destruct (decide (i = NoneId)) as [Hin|Hin].
  - apply Hnone in Hin as Hc. subst c.
    destruct (entries_loop cs J s To (λ _ ToObj, join (object s (From, none)) ToObj)
      (λ d x y, x = (From, none) ∧ y = (To, d))) as [[Hok' Hr'] Hl]; try done.
    + intros d j s' J' Hg' Hl' _ Hd _. rewrite <-(later_object cs s s' (From, none)) by done.
      by apply join_good.
    + apply (small_le _ s); [|done]. apply (for_each_inv (λ s', size_CC s' ≤ size_CC s)); [done|].
      by intros [] s'.
    + split; [split; [done|]|done]. revert Hr'. apply represents_iff. intros x [w d]. simpl.
      rewrite decide_True by done. naive_solver.
  - destruct (link_good cs J s (From, c) To c i) as [[Hok' Hr'] Hl]; [done..|].
    split; [split; [done|]|done]. revert Hr'. apply represents_iff. intros x y.
    rewrite decide_False by (by rewrite <-Hnone). done.
Qed.

Lemma onCall_good cs J s From To CS c i :
  good cs J s → small s → clone cs (From, c) → To < length cs → ByValue.ToInt (CC s) !! c = Some i →
  let s' := onCall K To CS i (object s (From, c)) s in
  good cs (λ x y, J x y ∨ x = (From, c) ∧ y.1 = To
    ∧ clone_for cs To (CallingContext.withPrefix K CS c) = Some y.2) s' ∧ later s s'.
Proof.
  intros Hg Hs Hcl HT Hi. unfold onCall. pose proof (prefixed_good cs J CS c i s Hg Hs Hi) as Hp.
  destruct (prefixed K CS i s) as [id s1]. destruct Hp as (Hg1 & Hl1 & Hid).
  rewrite <-(later_object cs s s1) by (done || apply Hg).
  destruct (link_good cs J s1 (From, c) To (CallingContext.withPrefix K CS c) id) as [Hg2 Hl2]; [done..|].
  split; [done|by etrans].
Qed.

Lemma onReturn_good cs J s From To CS c i :
  good cs J s → small s → clone cs (To, c) → From < length cs → ByValue.ToInt (CC s) !! c = Some i →
  let s' := onReturn K From CS i (object s (To, c)) s in
  good cs (λ x y, J x y ∨ y = (To, c) ∧ x.1 = From
    ∧ clone_for cs From (CallingContext.withPrefix K CS c) = Some x.2) s' ∧ later s s'.
Proof.
  intros Hg Hs Hcl HT Hi. unfold onReturn. pose proof (prefixed_good cs J CS c i s Hg Hs Hi) as Hp.
  destruct (prefixed K CS i s) as [id s1]. destruct Hp as (Hg1 & Hl1 & Hid).
  rewrite <-(later_object cs s s1) by (done || apply Hg).
  destruct (link_back_good cs J s1 (To, c) From (CallingContext.withPrefix K CS c) id) as [Hg2 Hl2]; [done..|].
  split; [done|by etrans].
Qed.

Lemma onAddEdge_good cs J s From To E CS :
  good cs J s → From < length cs → To < length cs → small (onAddEdge K entries From To E CS s) →
  good cs (λ x y, J x y ∨ ctx_lift cs E CS From To x y) (onAddEdge K entries From To E CS s).
Proof.
  intros Hg HF HT.
  assert (small (for_each (entries (Var2Obj s !!! From)) (λ '(Ctx, Obj), onOther entries To Ctx Obj) s) →
    good cs (λ x y, J x y ∨ (x.1 = From ∧ y.1 = To ∧ clone cs x ∧
      if decide (x.2 = none) then clone cs y else clone_for cs To x.2 = Some y.2))
      (for_each (entries (Var2Obj s !!! From)) (λ '(Ctx, Obj), onOther entries To Ctx Obj) s)) as Hother.
  { intros Hsm. destruct (entries_loop cs J s From (onOther entries To)
      (λ c x y, x = (From, c) ∧ y.1 = To ∧
         if decide (c = none) then clone cs y else clone_for cs To c = Some y.2)) as [[Hok' Hr'] _]; try done.
    - intros. by rewrite onOther_size.
    - intros c i s' J' Hg' _ Hs' Hcl Hi. by apply onOther_good.
    - split; [done|]. revert Hr'. apply represents_iff. intros [v c] y. simpl. naive_solver. }
  unfold onAddEdge, ctx_lift. destruct E; try done; intros Hsm.
  - destruct (entries_loop cs J s From (onCall K To CS)
      (λ c x y, x = (From, c) ∧ y.1 = To
         ∧ clone_for cs To (CallingContext.withPrefix K CS c) = Some y.2)) as [[Hok' Hr'] _]; try done.
    + intros. apply onCall_size.
    + intros c i s' J' Hg' _ Hs' Hcl Hi. by apply onCall_good.
    + split; [done|]. revert Hr'. apply represents_iff. intros [v c] y. simpl. naive_solver.
  - destruct (entries_loop cs J s To (onReturn K From CS)
      (λ c x y, y = (To, c) ∧ x.1 = From
         ∧ clone_for cs From (CallingContext.withPrefix K CS c) = Some x.2)) as [[Hok' Hr'] _]; try done.
    + intros. apply onReturn_size.
    + intros c i s' J' Hg' _ Hs' Hcl Hi. by apply onReturn_good.
    + split; [done|]. revert Hr'. apply represents_iff. intros x [v c]. simpl. naive_solver.
Qed.

(** ** A new variable *)

Lemma clone_app_l cs l v c : v < length cs → clone (cs ++ [l]) (v, c) ↔ clone cs (v, c).
Proof. intros Hv. unfold clone. simpl. by rewrite lookup_app_l. Qed.

Lemma clone_app_r cs l c : clone (cs ++ [l]) (length cs, c) ↔ c ∈ l.
Proof.
  unfold clone. simpl. rewrite lookup_app_r, Nat.sub_diag by done. simpl. naive_solver.
Qed.

Lemma clone_lt cs v c : clone cs (v, c) → v < length cs.
Proof. intros (l & Hl & _). by apply lookup_lt_Some in Hl. Qed.

#[local] Instance clone_dec cs a : Decision (clone cs a).
Proof.
  refine (cast_if (decide (∃ l, cs !! a.1 = Some l ∧ a.2 ∈ l))); [|..].
  - destruct (cs !! a.1) as [l|]; [|right; naive_solver].
    destruct (decide (a.2 ∈ l)); [left; eauto|right; naive_solver].
  - done.
  - done.
Defined.

Lemma getObject_good cs l J s c id :
  good (cs ++ [l]) J s → ByValue.ToInt (CC s) !! c = Some id →
  good (cs ++ [l ++ [c]]) J (getObject (length cs) id s) ∧ CC (getObject (length cs) id s) = CC s.
Proof.
  intros [Hok Hr] Hid. assert (length cs < length (cs ++ [l])) as Hn by (rewrite length_app; simpl; lia).
  assert (∀ v d, clone (cs ++ [l ++ [c]]) (v, d) ↔ clone (cs ++ [l]) (v, d) ∨ v = length cs ∧ d = c) as Hcl.
  { intros v d. destruct (decide (v < length cs)) as [Hv|Hv].
    - rewrite !clone_app_l by done. split; [auto|]. intros [?|[? _]]; [done|lia].
    - destruct (decide (v = length cs)) as [->|].
      + rewrite !clone_app_r, elem_of_app, list_elem_of_singleton. naive_solver.
      + split; [intros Hc%clone_lt|intros [Hc%clone_lt|[? _]]]; rewrite ?length_app in *; simpl in *; lia. }
  pose proof (object_at (cs ++ [l]) s (length cs) c id Hok Hn Hid) as Hat.
  rewrite lookup_total_app_r, Nat.sub_diag in Hat by done. simpl in Hat.
  unfold getObject. case_decide as Hc; rewrite Hat.
  { split; [|done]. assert (∀ a, clone (cs ++ [l ++ [c]]) a ↔ clone (cs ++ [l]) a) as Heq.
    { intros [v d]. rewrite Hcl. split; [|auto]. intros [?|[-> ->]]; [done|by apply clone_app_r]. }
    split.
    - destruct Hok. split; try done; [by rewrite co_len0, !length_app| |].
      + intros v i o Ho. setoid_rewrite Heq. eauto.
      + intros v d. rewrite Heq. auto.
    - destruct Hr as [H1 H2 H3 H4]. split.
      + intros x. rewrite Heq. auto.
      + intros x y. rewrite !Heq. auto.
      + intros x y. rewrite !Heq. auto.
      + intros x y. rewrite !Heq. auto. }
  split; [|done]. set (s' := State _ _ _ _).
  assert (∀ v i, (Var2Obj s' !!! v) !! i =
    if decide (v = length cs ∧ i = id) then Some (length (Obj2Var s)) else (Var2Obj s !!! v) !! i) as Hlook.
  { intros v i. simpl. destruct (decide (v = length cs)) as [->|Hne].
    - rewrite list_lookup_total_alter_eq by (by rewrite (co_len _ _ Hok)).
      destruct (decide (i = id)) as [->|]; [by rewrite lookup_insert_eq, decide_True|].
      rewrite lookup_insert_ne, decide_False by naive_solver. done.
    - rewrite list_lookup_total_alter_ne, decide_False by naive_solver. done. }
  assert (∀ v d, clone (cs ++ [l]) (v, d) → object s' (v, d) = object s (v, d)) as Hobj.
  { intros v d Hd. unfold object. change (CC s') with (CC s). simpl (_.1). simpl (_.2).
    destruct (ByValue.ToInt (CC s) !! d) as [i|] eqn:Hi; [|done]. simpl.
    pose proof (Hlook v i) as Hl. simpl in Hl. rewrite Hl, decide_False; [done|]. intros [-> ->].
    apply clone_app_r in Hd. by rewrite (comp_wf_inj (CC s) c d id (co_cc _ _ Hok) Hid Hi) in Hc. }
  assert (object s' (length cs, c) = length (Obj2Var s)) as Hnew.
  { unfold object. change (CC s') with (CC s). simpl (_.1). simpl (_.2). rewrite Hid. simpl.
    pose proof (Hlook (length cs) id) as Hl. simpl in Hl. by rewrite Hl, decide_True. }
  assert (ctx_ok (cs ++ [l ++ [c]]) s') as Hok'.
  { destruct Hok as [H1 H2 H3 H4 H5 H6 H7]. split; try done.
    - simpl. rewrite length_alter, H3, !length_app. done.
    - intros v i o. rewrite Hlook. change (CC s') with (CC s). case_decide as Hd.
      + destruct Hd as [-> ->]. intros _. exists c. rewrite Hcl. auto.
      + intros Ho. destruct (H4 v i o Ho) as (d & ? & ?). exists d. rewrite Hcl. auto.
    - intros v d. rewrite Hcl. change (CC s') with (CC s). setoid_rewrite Hlook. intros [Hd|[-> ->]].
      + destruct (H5 v d Hd) as (i & o & ? & ?). exists i.
        case_decide; [eauto|]. eauto.
      + exists id, (length (Obj2Var s)). by rewrite decide_True.
    - intros v i o. rewrite Hlook. simpl. case_decide as Hd.
      + destruct Hd as [-> ->]. intros [= <-]. by rewrite lookup_app_r, Nat.sub_diag.
      + intros Ho%H6. by apply lookup_app_l_Some.
    - simpl. unfold UnionFind.grow. rewrite capacity_grow, H7, length_app. simpl. lia. }
  split; [done|]. simpl. apply (represents_grow (object s) _ (clone (cs ++ [l]))); [done|..].
  - intros [v d] ?. apply Hcl. by left.
  - intros [v d]. apply Hobj.
  - intros [v d] [?|[-> ->]]%Hcl; [by left|right]. rewrite Hnew, (co_capacity _ _ Hok). lia.
  - intros x y. by apply object_inj.
  - intros x. destruct (decide (clone (cs ++ [l]) x)); auto.
Qed.

Lemma getObject_set_CC VId id CC' s :
  getObject VId id (set_CC CC' s) = set_CC CC' (getObject VId id s).
Proof. unfold getObject. simpl. by destruct ((Var2Obj s !!! VId) !! id). Qed.

Lemma visit_good cs (l : list Ctx) J c (st : ByValue.Compressor Ctx * state) :
  good (cs ++ [l]) J (set_CC st.1 st.2) → small (set_CC st.1 st.2) →
  let st' := CallingContextConstructor.visit (visitor (length cs)) c st in
  good (cs ++ [l ++ [c]]) J (set_CC st'.1 st'.2).
Proof.
  intros Hg Hs. unfold CallingContextConstructor.visit.
  pose proof (getOrInsert_spec c st.1 (co_cc _ _ (proj1 Hg)) Hs) as Hspec.
  destruct (ByValue.getOrInsert c st.1) as [id CC']. destruct Hspec as (Hwf & Hext & Hid & _). simpl.
  destruct (set_CC_good _ _ CC' _ Hg Hwf Hext) as [Hg' _].
  unfold visitor. rewrite <-getObject_set_CC.
  by apply (getObject_good cs l J (set_CC CC' st.2) c id).
Qed.

Lemma visit_size (VId : nat) c (st : ByValue.Compressor Ctx * state) :
  ByValue.size st.1 ≤ ByValue.size (CallingContextConstructor.visit (visitor VId) c st).1.
Proof.
  unfold CallingContextConstructor.visit. pose proof (getOrInsert_size c st.1) as Hs.
  destruct (ByValue.getOrInsert c st.1). simpl in *. lia.
Qed.

Lemma empty_clones_good cs J s :
  good cs J s → good (cs ++ [[]]) J (State (Obj2Var s) (Var2Obj s ++ [∅]) (CC s) (Base s)).
Proof.
  intros [Hok Hr]. set (s' := State _ _ _ _).
  assert (∀ a, clone (cs ++ [[]]) a ↔ clone cs a) as Hcl.
  { intros [v c]. destruct (decide (v < length cs)) as [Hv|Hv]; [by apply clone_app_l|].
    split; intros Hc; apply clone_lt in Hc as Hlt; [|lia]. exfalso.
    rewrite length_app in Hlt. simpl in Hlt. replace v with (length cs) in Hc by lia.
    apply clone_app_r in Hc. by apply elem_of_nil in Hc. }
  assert (∀ v i, (Var2Obj s' !!! v) !! i = (Var2Obj s !!! v) !! i) as Hlook.
  { intros v i. simpl. destruct (decide (v < length (Var2Obj s))) as [Hv|Hv].
    - by rewrite lookup_total_app_l.
    - rewrite lookup_total_app_r, !list_lookup_total_alt by lia.
      rewrite (lookup_ge_None_2 (Var2Obj s)) by lia. destruct (v - length (Var2Obj s)); simpl; [done|].
      done. }
  split.
  - destruct Hok as [H1 H2 H3 H4 H5 H6 H7]. split; try done.
    + simpl. rewrite !length_app, H3. done.
    + intros v i o. rewrite Hlook. intros Ho. setoid_rewrite Hcl. eauto.
    + intros v c. rewrite Hcl. setoid_rewrite Hlook. auto.
    + intros v i o. rewrite Hlook. apply H6.
  - assert (∀ a, object s' a = object s a) as Hobj.
    { intros [v c]. unfold object. change (CC s') with (CC s). simpl (_.1). simpl (_.2).
      destruct (ByValue.ToInt (CC s) !! c) as [i|]; [|done]. simpl.
      pose proof (Hlook v i) as Hl. simpl in Hl. by rewrite Hl. }
    destruct Hr as [R1 R2 R3 R4]. split; simpl.
    + intros x. rewrite Hcl, Hobj. auto.
    + intros x y. rewrite !Hcl, !Hobj. auto.
    + intros x y. rewrite !Hcl. auto.
    + intros x y. rewrite !Hcl, !Hobj. auto.
Qed.

Lemma onAddValue_size Var VId s : size_CC s ≤ size_CC (onAddValue K CG Var VId s).
Proof.
  unfold onAddValue. assert (∀ s', size_CC (getObject VId NoneId s') = size_CC s') as Hget.
  { intros s'. unfold getObject. by case_match. }
  destruct (getFunction CG Var) as [Fun|]; [|by rewrite Hget].
  unfold CallingContextConstructor.visitAllCallingContexts. rewrite visitAllCallingContextsImpl_visited. simpl.
  assert (ByValue.size (CC s) ≤ ByValue.size (for_each (visited K CG K Fun none).2
    (CallingContextConstructor.visit (visitor VId))
    (CC s, State (Obj2Var s) (Var2Obj s ++ [∅]) (CC s) (Base s))).1) as Hle.
  { apply (for_each_inv (λ st, ByValue.size (CC s) ≤ ByValue.size st.1)); [done|].
    intros c st _ Hst. pose proof (visit_size VId c st). lia. }
  destruct (for_each _ _ _) as [CC' s']. simpl in Hle.
  destruct (getCallersOf CG Fun); [rewrite Hget|]; done.
Qed.

Lemma onAddValue_good cs J Var s :
  good cs J s → small (onAddValue K CG Var (length cs) s) →
  good (cs ++ [contexts_of K CG Var]) J (onAddValue K CG Var (length cs) s).
Proof.
  intros Hg Hsm. apply empty_clones_good in Hg. revert Hsm. unfold onAddValue, contexts_of.
  set (s0 := State (Obj2Var s) (Var2Obj s ++ [∅]) (CC s) (Base s)) in *.
  assert (∀ l s', good (cs ++ [l]) J s' → good (cs ++ [l ++ [none]]) J (getObject (length cs) NoneId s')) as Hnone.
  { intros l s' Hg'. apply (getObject_good cs l J s' none NoneId Hg'). apply (co_none _ _ (proj1 Hg')). }
  destruct (getFunction CG Var) as [Fun|]; [|intros _; by apply (Hnone [])].
  unfold CallingContextConstructor.visitAllCallingContexts. rewrite visitAllCallingContextsImpl_visited. simpl.
  set (l := (visited K CG K Fun none).2).
  assert (∀ st, st = for_each l (CallingContextConstructor.visit (visitor (length cs))) (CC s, s0) →
    small (set_CC st.1 st.2) → good (cs ++ [l]) J (set_CC st.1 st.2)) as Hvisit.
  { intros st ->. apply (for_each_ind (λ l1 st, small (set_CC st.1 st.2) → good (cs ++ [l1]) J (set_CC st.1 st.2))).
    - done.
    - intros l1 c st _ IH Hsm. apply visit_good; [apply IH|];
        (eapply small_le; [|exact Hsm]); apply visit_size. }
  destruct (for_each _ _ _) as [CC' s'] eqn:Hst. specialize (Hvisit _ eq_refl). simpl in Hvisit.
  destruct (getCallersOf CG Fun); intros Hsm.
  - apply Hnone, Hvisit. revert Hsm. unfold small, getObject. by case_match.
  - rewrite app_nil_r. by apply Hvisit.
Qed.

(** ** A run of notifications *)

Fixpoint variables (ns : list (notification N V)) : list V :=
  match ns with
  | [] => []
  | ValueAdded Var _ :: ns => Var :: variables ns
  | EdgeAdded _ _ _ _ :: ns => variables ns
  end.

Definition contexts (ns : list (notification N V)) : list (list Ctx) := contexts_of K CG <$> variables ns.

Definition ctx_edges (ns : list (notification N V)) (a b : nat * Ctx) : Prop :=
  ∃ E CS, edge_in ns E CS a.1 b.1 ∧ ctx_lift (contexts ns) E CS a.1 b.1 a b.

Lemma variables_app ns1 ns2 : variables (ns1 ++ ns2) = variables ns1 ++ variables ns2.
Proof. induction ns1 as [|[] ns1 IH]; simpl; congruence. Qed.

Lemma length_contexts ns : length (contexts ns) = num_values ns.
Proof. unfold contexts. rewrite length_fmap. by induction ns as [|[] ns IH]; simpl; congruence. Qed.

Lemma ctx_lift_app cs l E CS From To a b :
  From < length cs → To < length cs →
  ctx_lift (cs ++ [l]) E CS From To a b ↔ ctx_lift cs E CS From To a b.
Proof.
  intros HF HT. destruct a as [v c], b as [w d]. unfold ctx_lift, clone_for. simpl.
  rewrite !lookup_total_app_l by done.
  split; intros (-> & -> & Hm); (split; [done|split; [done|]]);
    pose proof (clone_app_l cs l From c HF); pose proof (clone_app_l cs l To d HT);
    destruct E; repeat case_decide; tauto.
Qed.

#[local] Instance ctx_strategy : PBStrategy N V (state (N:=N) (U:=U)) := strategy K CG entries.

Definition ctx_build (ns : list (notification N V)) : state := build ns (initial_state K).

Lemma initial_good : good [] (λ _ _, False) (initial_state (N:=N) (U:=U) K).
Proof.
  split.
  - unfold initial_state, CallingContextConstructor.initial.
    pose proof (getOrInsert_spec none ByValue.empty (comp_wf_empty (T:=Ctx))) as Hspec.
    unfold ByValue.getOrInsert in *. simpl in *. rewrite lookup_empty in *. simpl in *.
    destruct Hspec as (Hwf & _ & Hid & _); [done|]. split; simpl; try done.
    + by intros v c (l & Hl & _).
    + apply capacity_empty.
  - apply represents_empty. by intros a (l & Hl & _).
Qed.

Lemma ctx_represents ns :
  ascending_ids 0 ns → small (ctx_build ns) → good (contexts ns) (ctx_edges ns) (ctx_build ns).
Proof.
  intros Hns. apply (build_ind (λ ns s, small s → good (contexts ns) (ctx_edges ns) s)); [done|..].
  - intros _. destruct initial_good as [Hok Hr]. split; [done|]. revert Hr. apply represents_iff.
    intros x y. split; [done|]. intros (E & CS & Hin & _). by apply elem_of_nil in Hin.
  - intros ns' Var s Hns' IH Hsm. simpl in *.
    destruct IH as [Hok Hr]; [eapply small_le; [apply onAddValue_size|exact Hsm]|].
    assert (contexts (ns' ++ [ValueAdded Var (num_values ns')]) = contexts ns' ++ [contexts_of K CG Var]) as Hcs.
    { unfold contexts. by rewrite variables_app, fmap_app. }
    rewrite Hcs. rewrite <-length_contexts in *.
    destruct (onAddValue_good _ _ Var s (conj Hok Hr) Hsm) as [Hok' Hr']. split; [done|].
    revert Hr'. apply represents_iff. intros x y. unfold ctx_edges. rewrite Hcs.
    assert (∀ E CS, edge_in (ns' ++ [ValueAdded Var (length (contexts ns'))]) E CS x.1 y.1
      ↔ edge_in ns' E CS x.1 y.1) as He.
    { intros E CS. unfold edge_in. rewrite elem_of_app, list_elem_of_singleton. naive_solver. }
    setoid_rewrite He. split; intros (E & CS & Hin & Hl); exists E, CS; (split; [done|]);
      (apply (edge_in_range ns' E CS) in Hin as [??]; [|done]); rewrite <-length_contexts in *;
      revert Hl; by rewrite ctx_lift_app.
  - intros ns' From To E CS s Hns' HF HT IH Hsm. simpl in *.
    assert (contexts (ns' ++ [EdgeAdded From To E CS]) = contexts ns') as Hcs.
    { unfold contexts. rewrite variables_app. simpl. by rewrite app_nil_r. }
    destruct IH as [Hok Hr].
    { eapply small_le; [|exact Hsm]. unfold onAddEdge.
      assert (∀ m (body : Z → nat → state → state), (∀ i o s', size_CC s' ≤ size_CC (body i o s')) →
        size_CC s ≤ size_CC (for_each (entries m) (λ '(i, o), body i o) s)) as Hloop.
      { intros m body Hb. apply (for_each_inv (λ s', size_CC s ≤ size_CC s')); [done|].
        intros [i o] s' _ Hs'. etrans; [exact Hs'|apply Hb]. }
      destruct E; apply Hloop; intros; rewrite ?onOther_size; try done; [apply onCall_size|apply onReturn_size]. }
    rewrite Hcs. rewrite <-length_contexts in HF, HT.
    destruct (onAddEdge_good _ _ s From To E CS (conj Hok Hr) HF HT Hsm) as [Hok' Hr']. split; [done|].
    revert Hr'. apply represents_iff. intros x y. unfold ctx_edges. rewrite Hcs. unfold edge_in.
    setoid_rewrite elem_of_app. setoid_rewrite list_elem_of_singleton. split.
    + intros [(E' & CS' & ? & ?)|Hl]; [exists E', CS'; auto|]. pose proof Hl as (Hx & Hy & _).
      rewrite <-Hx, <-Hy in Hl |- *. eauto.
    + intros (E' & CS' & [?|[= -> -> -> ->]] & Hl); [left; eauto|by right].
Qed.

(** ** The result *)

Definition has_object s (v o : nat) : Prop := ∃ id, (Var2Obj s !!! v) !! id = Some o.

(** What the result has of the objects [P] that have been consumed. *)
Record consumed (nc NumVars : nat) (at_ : nat → nat) (Include : nat → bool)
    (P : nat → nat → Prop) (r : CallingContextSensUnionFindAAResult) : Prop := {
  cd_vars : length (ctx_Var2Rep r) = NumVars;
  cd_classes : length (ctx_BackwardView r) = nc;
  cd_reps v k : v < NumVars → k ∈ ctx_Var2Rep r !!! v ↔ ∃ o, P v o ∧ at_ o = k;
  cd_view k w : k < nc → w ∈ ctx_BackwardView r !!! k ↔ Include w ∧ ∃ o, P w o ∧ at_ o = k
}.

Lemma consumed_iff nc NumVars at_ Include (P P' : nat → nat → Prop) r :
  (∀ v o, P v o ↔ P' v o) → consumed nc NumVars at_ Include P r → consumed nc NumVars at_ Include P' r.
Proof.
  intros HP [H1 H2 H3 H4]. split; try done; intros; [rewrite H3 by done|rewrite H4 by done]; by setoid_rewrite HP.
Qed.

Lemma consume_object_consumed (u : U) nc NumVars Include P v o r :
  consumed nc NumVars (CompressedUnionFind.at_ u) Include P r →
  v < NumVars → CompressedUnionFind.at_ u o < nc →
  consumed nc NumVars (CompressedUnionFind.at_ u) Include (λ v' o', P v' o' ∨ v' = v ∧ o' = o)
    (consume_object u v (Include v) o r).
Proof.
  intros [H1 H2 H3 H4] Hv Ho. unfold consume_object. set (at_ := CompressedUnionFind.at_ u) in *.
  assert (∀ w k, (∃ o', (P w o' ∨ w = v ∧ o' = o) ∧ at_ o' = k)
    ↔ (∃ o', P w o' ∧ at_ o' = k) ∨ w = v ∧ k = at_ o) as HP by naive_solver.
  assert (∀ w k, w < NumVars → k ∈ alter (λ Reps, Reps ++ [at_ o]) v (ctx_Var2Rep r) !!! w
    ↔ (∃ o', P w o' ∧ at_ o' = k) ∨ w = v ∧ k = at_ o) as Hpush.
  { intros w k Hw. destruct (decide (w = v)) as [->|Hne].
    - rewrite list_lookup_total_alter_eq by lia. rewrite elem_of_app, list_elem_of_singleton, H3 by done. naive_solver.
    - rewrite list_lookup_total_alter_ne, H3 by done. naive_solver. }
  destruct (Include v) eqn:Hi; case_decide as Hin.
  - apply H4 in Hin as [_ (o' & HPo & Heq)]; [|done].
    split; try done; intros; rewrite HP; [rewrite H3 by done|rewrite H4 by done]; naive_solver.
  - split; simpl; [by rewrite length_alter|by rewrite length_alter|intros; by rewrite HP, Hpush|].
    intros k w Hk. rewrite HP. destruct (decide (k = at_ o)) as [->|Hne].
    + rewrite list_lookup_total_alter_eq by lia. rewrite elem_of_union, elem_of_singleton, H4 by done.
      destruct (decide (w = v)) as [->|]; [rewrite Hi|]; naive_solver.
    + rewrite list_lookup_total_alter_ne, H4 by done. naive_solver.
  - apply H3 in Hin as (o' & HPo & Heq); [|done].
    split; try done; intros; rewrite HP; [rewrite H3 by done|rewrite H4 by done]; naive_solver.
  - split; simpl; [by rewrite length_alter|done|intros; by rewrite HP, Hpush|].
    intros k w Hk. rewrite HP, H4 by done. destruct (decide (w = v)) as [->|]; [rewrite Hi|]; naive_solver.
Qed.

Lemma consume_consumed cs s Include :
  ctx_ok cs s →
  let u := UnionFind.compress (Base s) in
  consumed (CompressedUnionFind.numClasses u) (length cs) (CompressedUnionFind.at_ u) Include
    (has_object s) (consumeAAResults entries (length cs) Include s).
Proof.
  intros Hok u. unfold consumeAAResults. fold u.
  set (nc := CompressedUnionFind.numClasses u). set (n := length cs).
  assert (∀ m v, (v, m) ∈ imap pair (Var2Obj s) ↔ v < n ∧ m = Var2Obj s !!! v) as Himap.
  { intros m v. rewrite elem_of_lookup_imap. unfold n. rewrite <-(co_len _ _ Hok). split.
    - intros (i & x & [= -> ->] & Hx). split; [by apply lookup_lt_Some in Hx|].
      symmetry. by apply list_lookup_total_correct.
    - intros [[x Hx]%lookup_lt_is_Some ->]. exists v, x. split; [|done].
      by rewrite (list_lookup_total_correct _ _ _ Hx). }
  assert (∀ v id o, (Var2Obj s !!! v) !! id = Some o → CompressedUnionFind.at_ u o < nc) as Hat.
  { intros v id o Ho%(co_obj _ _ Hok). apply index_bound. rewrite (co_capacity _ _ Hok).
    by apply lookup_lt_Some in Ho. }
  apply (consumed_iff _ _ _ _ (λ v o, ∃ m id, (v, m) ∈ imap pair (Var2Obj s) ∧ m !! id = Some o)).
  { intros v o. unfold has_object. setoid_rewrite Himap. split; [naive_solver|].
    intros [id Ho]. exists (Var2Obj s !!! v), id. split_and!; try done.
    destruct (co_map _ _ Hok v id o Ho) as (c & _ & Hc%clone_lt). done. }
  apply (for_each_ind (λ l1 r, consumed nc n (CompressedUnionFind.at_ u) Include
    (λ v o, ∃ m id, (v, m) ∈ l1 ∧ m !! id = Some o) r)).
  - split; simpl; [apply length_replicate|apply length_replicate|..].
    + intros v k Hv. rewrite lookup_total_replicate_2 by done. split; [by intros ?%elem_of_nil|].
      intros (o & (m & id & Hin & _) & _). by apply elem_of_nil in Hin.
    + intros k w Hk. rewrite lookup_total_replicate_2 by done. split; [by intros ?%elem_of_empty|].
      intros (_ & o & (m & id & Hin & _) & _). by apply elem_of_nil in Hin.
  - intros l1 [v m] r [Hv ->]%Himap Hr.
    apply (consumed_iff _ _ _ _ (λ v' o, (∃ m id, (v', m) ∈ l1 ∧ m !! id = Some o)
      ∨ v' = v ∧ ∃ id, (id, o) ∈ entries (Var2Obj s !!! v))).
    { intros v' o. setoid_rewrite elem_of_app. setoid_rewrite list_elem_of_singleton.
      setoid_rewrite Hentries. simpl. naive_solver. }
    apply (for_each_ind (λ l2 r, consumed nc n (CompressedUnionFind.at_ u) Include
      (λ v' o, (∃ m id, (v', m) ∈ l1 ∧ m !! id = Some o) ∨ v' = v ∧ ∃ id, (id, o) ∈ l2) r)).
    + revert Hr. apply consumed_iff. intros v' o. split; [auto|].
      intros [?|(_ & id & Hin)]; [done|]. by apply elem_of_nil in Hin.
    + intros l2 [id o] r' Hin%Hentries Hr'. simpl in Hin.
      pose proof (consume_object_consumed u nc n Include _ v o r' Hr' Hv (Hat v id o Hin)) as Hc.
      revert Hc. apply consumed_iff. intros v' o'. setoid_rewrite elem_of_app.
      setoid_rewrite list_elem_of_singleton. naive_solver.
Qed.

(** Two variables alias if two of their objects are in one class. *)
Definition object_alias s (v w : nat) : Prop :=
  ∃ o o', has_object s v o ∧ has_object s w o' ∧ same (Base s) o o'.

Lemma ctx_consume_answers cs s Include :
  ctx_ok cs s → answers (consumeAAResults entries (length cs) Include s) (length cs) Include (object_alias s).
Proof.
  intros Hok. pose proof (consume_consumed cs s Include Hok) as Hc. simpl in Hc.
  set (r := consumeAAResults entries (length cs) Include s) in *. destruct Hc as [H1 H2 H3 H4].
  set (u := UnionFind.compress (Base s)) in *.
  assert (∀ v o, has_object s v o → o < ec_capacity (Base s)) as Hlt.
  { intros v o [id Ho%(co_obj _ _ Hok)]. rewrite (co_capacity _ _ Hok). by apply lookup_lt_Some in Ho. }
  assert (∀ v o, has_object s v o → CompressedUnionFind.at_ u o < CompressedUnionFind.numClasses u) as Hat.
  { intros v o Ho. apply index_bound. by apply (Hlt v). }
  assert (∀ v w, (∃ k, (∃ o, has_object s v o ∧ CompressedUnionFind.at_ u o = k)
    ∧ ∃ o, has_object s w o ∧ CompressedUnionFind.at_ u o = k) ↔ object_alias s v w) as Halias.
  { intros v w. split.
    - intros (k & (o & Ho & <-) & (o' & Ho' & Heq)). exists o, o'. split_and!; [done..|].
      apply index_compress; [by apply (Hlt v)|by apply (Hlt w)|by symmetry].
    - intros (o & o' & Ho & Ho' & Hs). exists (CompressedUnionFind.at_ u o). split; [eauto|].
      exists o'. split; [done|]. symmetry. apply index_compress; [by apply (Hlt v)|by apply (Hlt w)|done]. }
  split; simpl.
  - done.
  - intros v w Hv.
    assert (w ∈ for_each (ctx_Var2Rep r !!! v) (λ Rep X, X ∪ ctx_BackwardView r !!! Rep) ∅
      ↔ ∃ k, k ∈ ctx_Var2Rep r !!! v ∧ w ∈ ctx_BackwardView r !!! k) as ->.
    { apply (for_each_ind (λ l X, w ∈ X ↔ ∃ k, k ∈ l ∧ w ∈ ctx_BackwardView r !!! k)).
      - split; [by intros ?%elem_of_empty|]. by intros (k & ?%elem_of_nil & _).
      - intros l k X _ HX. rewrite elem_of_union, HX. setoid_rewrite elem_of_app.
        setoid_rewrite list_elem_of_singleton. naive_solver. }
    rewrite <-Halias. split.
    + intros (k & Hk & Hw). apply H3 in Hk; [|done]. destruct Hk as (o & Ho & <-).
      apply H4 in Hw; [|by eapply Hat]. destruct Hw as (Hi & o' & Ho' & Heq). split_and!; [|done|].
      * destruct Ho' as [id Ho']. by destruct (co_map _ _ Hok w id o' Ho') as (c & _ & Hc%clone_lt).
      * exists (CompressedUnionFind.at_ u o). split; [eauto|]. eauto.
    + intros (Hw & Hi & k & Hvk & Hwk). exists k. split; [by apply H3|]. apply H4; [|by split].
      destruct Hwk as (o & Ho & <-). by eapply Hat.
  - intros v w Hv Hw. case_decide as Heq; [split; [by left|done]|].
    destruct (lookup_lt_is_Some_2 (ctx_Var2Rep r) v) as [R1 HR1]; [lia|].
    destruct (lookup_lt_is_Some_2 (ctx_Var2Rep r) w) as [R2 HR2]; [lia|].
    rewrite HR1, HR2. apply list_lookup_total_correct in HR1, HR2.
    rewrite <-Halias. setoid_rewrite <-H3; [|done..]. rewrite HR1, HR2.
    split.
    + intros (k & Hk & Hin)%Is_true_true%existsb_exists. right. exists k.
      apply bool_decide_eq_true in Hin. split; [|done].
      by apply list_elem_of_In.
    + intros [?|(k & Hk & Hin)]; [done|]. apply Is_true_true, existsb_exists. exists k.
      split; [by apply list_elem_of_In|by apply bool_decide_eq_true].
  - intros v w Hne Hout. rewrite decide_False by done.
    destruct Hout; [rewrite (lookup_ge_None_2 _ v) by lia; done|].
    rewrite (lookup_ge_None_2 _ w) by lia. by destruct (ctx_Var2Rep r !! v).
Qed.

Lemma object_alias_clones cs J s v w :
  good cs J s →
  object_alias s v w ↔ ∃ c d, clone cs (v, c) ∧ clone cs (w, d) ∧ rtsc J (v, c) (w, d).
Proof.
  intros [Hok Hr].
  assert (∀ v o, has_object s v o ↔ ∃ c, clone cs (v, c) ∧ o = object s (v, c)) as Hobj.
  { intros x o. split.
    - intros [id Ho]. destruct (co_map _ _ Hok x id o Ho) as (c & Hc & Hcl). exists c. split; [done|].
      destruct (object_spec cs s x c Hok Hcl) as (id' & Hid' & Ho'). by simplify_eq.
    - intros (c & Hcl & ->). destruct (object_spec cs s x c Hok Hcl) as (id & _ & Ho). by exists id. }
  unfold object_alias. setoid_rewrite Hobj. split.
  - intros (o & o' & (c & Hc & ->) & (d & Hd & ->) & Hs). exists c, d. split_and!; [done..|].
    by apply (rp_same _ _ _ _ Hr).
  - intros (c & d & Hc & Hd & Hs). exists (object s (v, c)), (object s (w, d)).
    split_and!; [eauto..|]. by apply (rp_same _ _ _ _ Hr).
Qed.
End clones.

(** * Contexts of one call site *)

Section one_site.
Context {N F V U : Type} `{Countable N} `{!IntEqClasses U} `{!IntEqClassesLaws U}.
Context (CG : CallGraphView N F V).
Implicit Types (ns : list (notification N V)) (stack : list N).

(** A variable in a frame: the calls on the stack, the last one first, have led
    to its function. *)
Definition located ns (v : nat) stack : Prop :=
  ∃ Var, variables ns !! v = Some Var ∧
    match getFunction CG Var with
    | None => True
    | Some Fun =>
      match stack with
      | [] => getCallersOf CG Fun = []
      | CS :: _ => CS ∈ getCallersOf CG Fun
      end
    end.

(** Values flow along the edges; a call pushes its call site, and a return pops
    the call site it returns to. *)
Inductive flow ns : nat * list N → nat * list N → Prop :=
  | flow_intra E CS x y stack :
      edge_in ns E CS x y → (if E is Call _ then False else if E is Return then False else True) →
      flow ns (x, stack) (y, stack)
  | flow_call ArgNo CS x y stack :
      edge_in ns (Call ArgNo) (Some CS) x y → flow ns (x, stack) (y, CS :: stack)
  | flow_return CS x y stack :
      edge_in ns Return (Some CS) x y → flow ns (x, CS :: stack) (y, stack).

(** Realizable paths through located variables. *)
Definition realizable ns : relation (nat * list N) :=
  rtc (λ a b, flow ns a b ∧ located ns a.1 a.2 ∧ located ns b.1 b.2).

(** The context of a variable in a frame. *)
Definition context_of ns (v : nat) stack : CallingContext.t N :=
  match variables ns !! v with
  | Some Var =>
    match getFunction CG Var with
    | Some _ => [head stack]
    | None => [None]
    end
  | None => [None]
  end.

Lemma contexts_one Var :
  contexts_of 1 CG Var ≡ₚ
    match getFunction CG Var with
    | Some Fun => match getCallersOf CG Fun with
                  | [] => [[None]; [None]]
                  | Callers => (λ CS, [Some CS]) <$> Callers
                  end
    | None => [[None]]
    end.
Proof.
  unfold contexts_of. destruct (getFunction CG Var) as [Fun|]; [|done]. simpl.
  destruct (getCallersOf CG Fun) as [|CS0 l]; [done|]. rewrite app_nil_r.
  assert (∀ l (c : CallingContext.t N) acc, length c = 1 →
    (for_each l (λ CS '(c, l), (<[0 := Some CS]> c, l ++ [<[0 := Some CS]> c])) (c, acc)).2
    = acc ++ ((λ CS, [Some CS]) <$> l)) as Hl.
  { clear. induction l as [|CS l IH]; intros c acc Hc; [by rewrite app_nil_r|].
    destruct c as [|x [|]]; try done. rewrite for_each_cons, IH by done. simpl. by rewrite <-app_assoc. }
  by rewrite Hl.
Qed.

Lemma located_clone ns v stack :
  located ns v stack → clone (contexts 1 CG ns) (v, context_of ns v stack).
Proof.
  intros (Var & HVar & Hloc). unfold clone, contexts, context_of. simpl.
  exists (contexts_of 1 CG Var). rewrite list_lookup_fmap, HVar. split; [done|].
  rewrite contexts_one. destruct (getFunction CG Var) as [Fun|]; [|by left].
  destruct stack as [|CS stack]; simpl.
  - rewrite Hloc. by left.
  - destruct (getCallersOf CG Fun) as [|CS0 l]; [by apply elem_of_nil in Hloc|].
    apply (list_elem_of_fmap (λ CS, [Some CS]) (CS0 :: l)). by exists CS.
Qed.

(** In a frame below a call, the clone for the call site is found. *)
Lemma located_clone_for ns v CS stack :
  located ns v (CS :: stack) →
  clone_for 1 (contexts 1 CG ns) v [Some CS] = Some (context_of ns v (CS :: stack)).
Proof.
  intros Hloc. pose proof (located_clone ns v (CS :: stack) Hloc) as Hcl.
  apply clone_lt in Hcl as Hlt. apply clone_lookup in Hcl; [|done].
  destruct Hloc as (Var & HVar & _). unfold clone_for, context_of in *. rewrite HVar in *.
  destruct (getFunction CG Var) as [Fun|] eqn:Hf; [by rewrite decide_True|].
  assert (contexts 1 CG ns !!! v = ([[None]] : list (CallingContext.t N))) as Heq.
  { apply list_lookup_total_correct. unfold contexts. rewrite list_lookup_fmap, HVar. simpl.
    unfold contexts_of. by rewrite Hf. }
  rewrite Heq, decide_False, decide_True; [done|by left|].
  by intros ?%list_elem_of_singleton.
Qed.

Lemma flow_edges ns a b :
  flow ns a b → located ns a.1 a.2 → located ns b.1 b.2 →
  rtsc (ctx_edges 1 CG ns) (a.1, context_of ns a.1 a.2) (b.1, context_of ns b.1 b.2).
Proof.
  intros Hf Ha Hb. pose proof (located_clone ns _ _ Ha) as Hca. pose proof (located_clone ns _ _ Hb) as Hcb.
  apply rtsc_lr. unfold ctx_edges, ctx_lift.
  destruct Hf as [E CS x y stack He HE|ArgNo CS x y stack He|CS x y stack He]; simpl in *.
  - exists E, CS. split; [done|]. split_and!; [done..|].
    assert (clone (contexts 1 CG ns) (x, context_of ns x stack) ∧
      if decide (context_of ns x stack = CallingContext.empty 1) then clone (contexts 1 CG ns) (y, context_of ns y stack)
      else clone_for 1 (contexts 1 CG ns) y (context_of ns x stack) = Some (context_of ns y stack)) as Hm.
    { split; [done|]. case_decide as Hn; [done|].
      destruct Ha as (Var & HVar & _). unfold context_of in Hn |- * at 1. rewrite HVar in *.
      destruct (getFunction CG Var); [|done]. destruct stack as [|CS' stack]; [done|].
      by apply located_clone_for. }
    destruct E; try done; tauto.
  - exists (Call ArgNo), (Some CS). split; [done|]. split_and!; [done..|].
    assert (CallingContext.withPrefix 1 (Some CS) (context_of ns x stack) = [Some CS]) as ->.
    { rewrite withPrefix_take; [done|]. unfold context_of. by repeat case_match. }
    by apply located_clone_for.
  - exists Return, (Some CS). split; [done|]. split_and!; [done..|].
    assert (CallingContext.withPrefix 1 (Some CS) (context_of ns y stack) = [Some CS]) as ->.
    { rewrite withPrefix_take; [done|]. unfold context_of. by repeat case_match. }
    by apply located_clone_for.
Qed.

Lemma realizable_edges ns a b :
  realizable ns a b → located ns a.1 a.2 →
  rtsc (ctx_edges 1 CG ns) (a.1, context_of ns a.1 a.2) (b.1, context_of ns b.1 b.2) ∧ located ns b.1 b.2.
Proof.
  intros Hr. induction Hr as [a|a b c (Hf & Ha & Hb) _ IH]; intros Hloc; [done|].
  destruct (IH Hb) as [Hbc Hc]. split; [|done]. etrans; [|exact Hbc]. by apply flow_edges.
Qed.
End one_site.
