(* ===== verification/BottomupUnionFindAA.v ===== *)
(** The bottom-up union-find alias analysis (Pointer/BottomupUnionFindAA.h): the
    edges between strongly connected components of the call graph are kept back,
    and the aliases of parameters and return values of a component are applied
    at the call sites of the components above it.

    The bottom-up union-find analysis lies between the components of the edges it
    does not keep back and those of all edges: it refines [BasicUnionFindAA]. *)
From S2P Require Import Prelude SCCGeneric UnionFind UnionFindAA UnionFindAACorrect.
From stdpp Require Import relations.
Import pag.

Module BottomupUnionFindAA.
Section analysis.
Context {N F V U : Type} `{Countable N} `{!IntEqClasses U}.
(** [RevCG.FC], the components of the reverse call graph, [getFunction]. *)
Context (getVertexOrNull : F → option nat) (CGSCCs : SCCHolder) (getFunction : V → option F).

Record ParamInfo := { Arg : nat; Param : nat; ArgNo : Z }.
Record CallSiteInfo := { Params : list ParamInfo; Ret : list nat; RetSlot : option nat }.

Definition CallSiteInfo_default : CallSiteInfo := {| Params := []; Ret := []; RetSlot := None |}.

(** The orders of an [unordered_map] and of a [SmallDenseMap]. *)
Context (call_sites : gmap (option N) CallSiteInfo → list (option N * CallSiteInfo)).
Context (back_entries : gmap nat (list nat) → list (nat * list nat)).

(** [None] in [SCCOfVal] is [InvalidSCC]. *)
Record state := State {
  SCCOfVal : list (option nat);
  Calls : list (gmap (option N) CallSiteInfo);
  IdsForSum : list (gset nat);
  Base : U
}.

Definition initial_state : state :=
  State [] (replicate (num_sccs CGSCCs) ∅) (replicate (num_sccs CGSCCs) ∅) ec_empty.

Definition set_Base (u : U) (s : state) : state := State (SCCOfVal s) (Calls s) (IdsForSum s) u.

(** An edge into or out of another component: the components, if so. *)
Definition inter_SCC (From To : nat) (s : state) : option (nat * nat) :=
  match SCCOfVal s !!! From, SCCOfVal s !!! To with
  | Some FromSCC, Some ToSCC => if decide (FromSCC ≠ ToSCC) then Some (FromSCC, ToSCC) else None
  | _, _ => None
  end.

Definition update_call (f : CallSiteInfo → CallSiteInfo) (CS : option N)
    (m : gmap (option N) CallSiteInfo) : gmap (option N) CallSiteInfo :=
  <[CS := f (default CallSiteInfo_default (m !! CS))]> m.

Definition record_arg (From To : nat) (ArgNo : Z) (Info : CallSiteInfo) : CallSiteInfo :=
  {| Params := Params Info ++ [{| Arg := From; Param := To; ArgNo := ArgNo |}];
     Ret := Ret Info; RetSlot := RetSlot Info |}.

Definition record_ret (From To : nat) (Info : CallSiteInfo) : CallSiteInfo :=
  {| Params := Params Info; Ret := Ret Info ++ [From]; RetSlot := Some To |}.

Definition onAddEdge (From To : nat) (E : Edge) (CallSite : option N) (s : state) : state :=
  match E, inter_SCC From To s with
  | Call ArgNo, Some (FromSCC, ToSCC) =>
    State (SCCOfVal s) (alter (update_call (record_arg From To ArgNo) CallSite) FromSCC (Calls s))
      (alter (union {[To]}) ToSCC (IdsForSum s)) (Base s)
  | Return, Some (FromSCC, ToSCC) =>
    State (SCCOfVal s) (alter (update_call (record_ret From To) CallSite) ToSCC (Calls s))
      (alter (union {[From]}) FromSCC (IdsForSum s)) (Base s)
  | _, _ => set_Base (UnionFind.join From To (Base s)).2 s
  end.

Definition onAddValue (Var : V) (VId : nat) (s : state) : state :=
  let SccPlace := Fun ← getFunction Var; FunVtx ← getVertexOrNull Fun; SCCOfNode CGSCCs !! FunVtx in
  State (SCCOfVal s ++ [SccPlace]) (Calls s) (IdsForSum s) (UnionFind.grow (VId + 1) (Base s)).

#[export] Instance strategy : PBStrategy N V state := {
  pag.onAddEdge := onAddEdge;
  pag.onAddValue := onAddValue
}.

(** * Bottom-up *)

Definition push_back_at (Rep Id : nat) (m : gmap nat (list nat)) : gmap nat (list nat) :=
  <[Rep := default [] (m !! Rep) ++ [Id]]> m.

(** [BackMap]: for the class of a parameter or return value of the callee, its
    counterparts at the call site. *)
Definition back_map (Info : CallSiteInfo) (AliasSets : U) : gmap nat (list nat) :=
  let BackMap := for_each (Params Info) (λ P, push_back_at (UnionFind.find AliasSets (Param P)) (Arg P)) ∅ in
  match RetSlot Info with
  | Some Slot => for_each (Ret Info) (λ R, push_back_at (UnionFind.find AliasSets R) Slot) BackMap
  | None => BackMap
  end.

(** The counterparts of two aliasing ids are joined. *)
Definition join_all (Args AliasFroms : list nat) : U → U :=
  for_each Args (λ Arg, for_each AliasFroms (λ Alias AliasSets, (UnionFind.join Arg Alias AliasSets).2)).

Definition apply_summary (View : list (gset nat)) (BackMap : gmap nat (list nat)) (Param : nat)
    (Args : list nat) : U → U :=
  for_each (ascending (View !!! Param)) (λ Alias AliasSets,
    match BackMap !! UnionFind.find AliasSets Alias with
    | Some AliasFroms => join_all Args AliasFroms AliasSets
    | None => AliasSets
    end).

Definition apply_call_site (View : list (gset nat)) (Info : CallSiteInfo) (AliasSets : U) : U :=
  let BackMap := back_map Info AliasSets in
  for_each (back_entries BackMap) (λ '(Param, Args), apply_summary View BackMap Param Args) AliasSets.

Definition apply_call_sites (Sites : gmap (option N) CallSiteInfo) (View : list (gset nat)) : U → U :=
  for_each (call_sites Sites) (λ '(_, Info), apply_call_site View Info).

(** The new summaries of a component. *)
Definition summarize (Ids : gset nat) (AliasSets : U) : list (gset nat) → list (gset nat) :=
  for_each (ascending Ids) (λ SumId, alter (union {[SumId]}) (UnionFind.find AliasSets SumId)).

Definition bottomup_step (s : state) (CurrSCC : nat) (vu : list (gset nat) * U) : list (gset nat) * U :=
  let AliasSets := apply_call_sites (Calls s !!! CurrSCC) vu.1 vu.2 in
  (summarize (IdsForSum s !!! CurrSCC) AliasSets vu.1, AliasSets).

Definition bottomupPropagation (NumVars : nat) (s : state) : U :=
  (for_each (reverse (seq 0 (num_sccs CGSCCs))) (bottomup_step s) (replicate NumVars ∅, Base s)).2.

(** * Top-down *)

(** Two parameters whose arguments alias. *)
Definition join_params (First Second : ParamInfo) (FirstArgRep : nat) (AliasSets : U) : U :=
  if decide (FirstArgRep = UnionFind.find AliasSets (Arg Second))
  then (UnionFind.join (Param First) (Param Second) AliasSets).2
  else AliasSets.

Definition topdown_call_site (Info : CallSiteInfo) : U → U :=
  let Sz := length (Params Info) in
  for_each (seq 0 Sz) (λ I AliasSets,
    match Params Info !! I with
    | Some First =>
      let FirstArgRep := UnionFind.find AliasSets (Arg First) in
      for_each (seq (I + 1) (Sz - (I + 1))) (λ J AliasSets,
        match Params Info !! J with
        | Some Second => join_params First Second FirstArgRep AliasSets
        | None => AliasSets
        end) AliasSets
    | None => AliasSets
    end).

Definition topdownPropagation (s : state) : U → U :=
  for_each (seq 0 (num_sccs CGSCCs)) (λ CurrSCC,
    for_each (call_sites (Calls s !!! CurrSCC)) (λ '(_, Info), topdown_call_site Info)).

(** [Sound] is [SoundnessFlag != Soundness::Unsound]. *)
Definition consumeAAResults (Sound : bool) (NumVars : nat) (ShouldInclude : nat → bool) (s : state) :
    BasicUnionFindAAResult :=
  let AliasSets := bottomupPropagation NumVars s in
  let AliasSets := if Sound then topdownPropagation s AliasSets else AliasSets in
  BasicUnionFindAA.consumeAAResults NumVars id ShouldInclude AliasSets.
End analysis.
End BottomupUnionFindAA.

Import pag.

Module BottomupCorrect.
Import BottomupUnionFindAA.
Section correct.
Context {N F V U : Type} `{Countable N} `{!IntEqClasses U} `{!IntEqClassesLaws U}.
Context (getVertexOrNull : F → option nat) (CGSCCs : SCCHolder) (getFunction : V → option F).
Context (call_sites : gmap (option N) CallSiteInfo → list (option N * CallSiteInfo)).
Context (back_entries : gmap nat (list nat) → list (nat * list nat)).
Context (Hcall_sites : ∀ m x, x ∈ call_sites m → m !! x.1 = Some x.2).
Context (Hback_entries : ∀ m x, x ∈ back_entries m → m !! x.1 = Some x.2).
Implicit Types (ns : list (notification N V)) (s : state (N:=N) (U:=U)) (u : U).

(** * What the propagation keeps *)

Section propagation.
Context (n : nat) (R : relation nat) `{!Equivalence R} (u0 : U).

(** The classes have grown, but only within [R]. *)
Record within u : Prop := {
  wi_capacity : ec_capacity u = n;
  wi_keep x y : x < n → y < n → same u0 x y → same u x y;
  wi_sound x y : x < n → y < n → same u x y → R x y
}.

Lemma within_find u x : within u → x < n → UnionFind.find u x < n ∧ R x (UnionFind.find u x).
Proof.
  intros Hu Hx. rewrite <-(wi_capacity u Hu) in Hx. pose proof (find_lt u x Hx) as Hf. split.
  - by rewrite (wi_capacity u Hu) in Hf.
  - rewrite (wi_capacity u Hu) in *. apply (wi_sound u Hu); [done..|].
    symmetry. apply find_same. by rewrite (wi_capacity u Hu).
Qed.

Lemma within_join u a b : within u → a < n → b < n → R a b → within (UnionFind.join a b u).2.
Proof.
  intros Hu Ha Hb Hab. pose proof (wi_capacity u Hu) as Hc. split.
  - unfold UnionFind.join. by rewrite capacity_join.
  - intros x y Hx Hy Hxy. apply same_join_l; rewrite ?Hc; try done. by apply Hu.
  - intros x y Hx Hy. rewrite same_join by (by rewrite Hc). pose proof (wi_sound u Hu) as HR.
    intros [Hs|[[Hxa|Hxb] [Hya|Hyb]]].
    + auto.
    + transitivity a; [auto|symmetry; auto].
    + transitivity a; [auto|]. transitivity b; [done|symmetry; auto].
    + transitivity b; [auto|]. transitivity a; [by symmetry|symmetry; auto].
    + transitivity b; [auto|symmetry; auto].
Qed.

(** Ids filed under a representative are related to it. *)
Definition view_ok (View : list (gset nat)) : Prop :=
  ∀ k x, x ∈ View !!! k → x < n ∧ k < n ∧ R k x.

Definition back_ok (m : gmap nat (list nat)) : Prop :=
  ∀ k l x, m !! k = Some l → x ∈ l → x < n ∧ k < n ∧ R k x.

(** A call site whose arguments and parameters are related. *)
Record info_ok (Info : CallSiteInfo) : Prop := {
  if_params P : P ∈ Params Info → Arg P < n ∧ Param P < n ∧ R (Arg P) (Param P);
  if_ret r slot : RetSlot Info = Some slot → r ∈ Ret Info → r < n ∧ slot < n ∧ R r slot
}.

Lemma push_back_at_ok Rep Id m :
  back_ok m → Rep < n → Id < n → R Rep Id → back_ok (push_back_at Rep Id m).
Proof.
  intros Hm HRep HId HR k l x. unfold push_back_at.
  destruct (decide (k = Rep)) as [->|Hne]; [|rewrite lookup_insert_ne by done; apply Hm].
  rewrite lookup_insert_eq. intros [= <-] [Hx| ->%list_elem_of_singleton]%elem_of_app; [|done].
  destruct (m !! Rep) as [l|] eqn:Hl; simpl in Hx; [by eapply Hm|by apply elem_of_nil in Hx].
Qed.

Lemma back_map_ok Info u : info_ok Info → within u → back_ok (back_map Info u).
Proof.
  intros Hi Hu. unfold back_map.
  assert (back_ok (for_each (Params Info) (λ P, push_back_at (UnionFind.find u (Param P)) (Arg P)) ∅)) as Hp.
  { apply for_each_inv; [by intros k l x; rewrite lookup_empty|].
    intros P m HP Hm. destruct (if_params _ Hi P HP) as (Ha & Hpn & HR).
    destruct (within_find u (Param P) Hu Hpn). apply push_back_at_ok; try done.
    transitivity (Param P); by symmetry. }
  destruct (RetSlot Info) as [slot|] eqn:Hs; [|done]. apply for_each_inv; [done|].
  intros r m Hr Hm. destruct (if_ret _ Hi r slot Hs Hr) as (Hrn & Hsn & HR).
  destruct (within_find u r Hu Hrn). apply push_back_at_ok; try done.
  transitivity r; [by symmetry|done].
Qed.

Lemma apply_summary_ok View m Param Args u :
  view_ok View → back_ok m → m !! Param = Some Args → within u →
  within (apply_summary View m Param Args u).
Proof.
  intros HV Hm HP Hu. unfold apply_summary. apply for_each_inv; [done|].
  intros Alias u' HA%elem_of_ascending Hu'. destruct (HV _ _ HA) as (HAn & HPn & HPA).
  destruct (within_find u' Alias Hu' HAn) as [Hf HAf].
  destruct (m !! UnionFind.find u' Alias) as [l|] eqn:Hl; [|done].
  unfold join_all. apply for_each_inv; [done|]. intros a u1 Ha Hu1.
  apply for_each_inv; [done|]. intros b u2 Hb Hu2.
  destruct (Hm _ _ _ HP Ha) as (Han & _ & HPa). destruct (Hm _ _ _ Hl Hb) as (Hbn & _ & Hfb).
  apply within_join; [done..|]. transitivity Param; [by symmetry|]. transitivity Alias; [done|].
  by transitivity (UnionFind.find u' Alias).
Qed.

Definition sites_ok (m : gmap (option N) CallSiteInfo) : Prop := ∀ CS Info, m !! CS = Some Info → info_ok Info.

Lemma apply_call_sites_ok Sites View u :
  sites_ok Sites → view_ok View → within u → within (apply_call_sites call_sites back_entries Sites View u).
Proof.
  intros HS HV Hu. unfold apply_call_sites. apply for_each_inv; [done|].
  intros [CS Info] u' HI%Hcall_sites Hu'. unfold apply_call_site.
  pose proof (back_map_ok Info u' (HS _ _ HI) Hu') as Hm.
  apply for_each_inv; [done|]. intros [Param Args] u1 HP%Hback_entries Hu1. by apply apply_summary_ok.
Qed.

Lemma summarize_ok Ids u View :
  (∀ x, x ∈ Ids → x < n) → within u → view_ok View → view_ok (summarize Ids u View).
Proof.
  intros HI Hu HV. unfold summarize. apply for_each_inv; [done|].
  intros x View' Hx%elem_of_ascending HV' k y. apply HI in Hx.
  destruct (within_find u x Hu Hx) as [Hf HR].
  destruct (decide (UnionFind.find u x = k)) as [<-|Hne].
  - destruct (decide (UnionFind.find u x < length View')) as [Hl|Hl].
    + rewrite list_lookup_total_alter_eq by done.
      intros [->%elem_of_singleton|?]%elem_of_union; [by split_and!|by apply HV'].
    + rewrite list_lookup_total_alt, list_lookup_alter_eq, lookup_ge_None_2 by lia.
      by intros ?%elem_of_empty.
  - rewrite list_lookup_total_alter_ne by done. apply HV'.
Qed.

(** What [onAddEdge] has recorded. *)
Record recorded_ok s : Prop := {
  rc_calls k : sites_ok (Calls s !!! k);
  rc_ids k x : x ∈ IdsForSum s !!! k → x < n
}.

Lemma bottomup_ok s NumVars :
  recorded_ok s → within (Base s) →
  within (bottomupPropagation CGSCCs call_sites back_entries NumVars s).
Proof.
  intros Hs Hb. unfold bottomupPropagation.
  apply (for_each_inv (λ vu, view_ok vu.1 ∧ within vu.2)).
  - split; [|done]. intros k x. simpl. rewrite list_lookup_total_alt.
    destruct (replicate NumVars ∅ !! k) as [X|] eqn:HX; simpl; [|by intros ?%elem_of_empty].
    apply lookup_replicate in HX as [-> _]. by intros ?%elem_of_empty.
  - intros k [View u] _ [HV Hu]. simpl in *.
    assert (within (apply_call_sites call_sites back_entries (Calls s !!! k) View u)) as Hu'.
    { by apply apply_call_sites_ok; [apply Hs|..]. }
    split; [|done]. apply summarize_ok; [apply Hs|done..].
Qed.

Lemma join_params_ok First Second FirstArgRep Info u :
  info_ok Info → First ∈ Params Info → Second ∈ Params Info → within u →
  FirstArgRep < n → R (Arg First) FirstArgRep → within (join_params First Second FirstArgRep u).
Proof.
  intros Hi HF HS Hu Hrep HR. unfold join_params. case_decide as Heq; [|done].
  destruct (if_params _ Hi _ HF) as (HaF & HpF & HF'). destruct (if_params _ Hi _ HS) as (HaS & HpS & HS').
  destruct (within_find u (Arg Second) Hu HaS) as [_ HA]. apply within_join; [done..|].
  transitivity (Arg First); [by symmetry|]. transitivity FirstArgRep; [done|]. rewrite Heq.
  transitivity (Arg Second); [by symmetry|done].
Qed.

Lemma topdown_ok s u :
  recorded_ok s → within u → within (topdownPropagation CGSCCs call_sites s u).
Proof.
  intros Hs Hu. unfold topdownPropagation. apply for_each_inv; [done|]. intros k u1 _ Hu1.
  apply for_each_inv; [done|]. intros [CS Info] u2 HI%Hcall_sites Hu2.
  apply (rc_calls s Hs k) in HI. unfold topdown_call_site. apply for_each_inv; [done|].
  intros I u3 _ Hu3. destruct (Params Info !! I) as [First|] eqn:HF; [|done].
  apply list_elem_of_lookup_2 in HF. destruct (if_params _ HI _ HF) as (HaF & _ & _).
  destruct (within_find u3 (Arg First) Hu3 HaF) as [Hf HR].
  apply for_each_inv; [done|]. intros J u4 _ Hu4.
  destruct (Params Info !! J) as [Second|] eqn:HS; [|done]. apply list_elem_of_lookup_2 in HS.
  by apply (join_params_ok First Second _ Info).
Qed.
End propagation.

(** * The notifications *)

#[local] Instance bottomup_strategy : PBStrategy N V (state (N:=N) (U:=U)) :=
  strategy getVertexOrNull CGSCCs getFunction.

Definition bottomup_build ns : state := build ns (initial_state CGSCCs).

(** The component of a value. *)
Definition scc_of ns (v : nat) : option nat :=
  SCCOfVal (bottomup_build ns) !!! v.

(** The edges that are not kept back. *)
Definition joined_edge ns (x y : nat) : Prop :=
  ∃ E CS, edge_in ns E CS x y ∧
    match E with
    | Call _ | Return => ∀ c d, scc_of ns x = Some c → scc_of ns y = Some d → c = d
    | _ => True
    end.

(** The return values of a call site go to one slot (an assertion of [onAddEdge]). *)
Definition one_slot ns : Prop :=
  ∀ CS x y x' y', edge_in ns Return CS x y → edge_in ns Return CS x' y' → y = y'.

(** Everything recorded at a call site comes from an edge there. *)
Record site_info ns (CS : option N) (Info : CallSiteInfo) : Prop := {
  st_params P : P ∈ Params Info → edge_in ns (Call (ArgNo P)) CS (Arg P) (Param P);
  st_slot slot : RetSlot Info = Some slot → ∃ r, edge_in ns Return CS r slot;
  st_rets r : r ∈ Ret Info → ∃ slot, edge_in ns Return CS r slot
}.

Definition sites_recorded ns (m : gmap (option N) CallSiteInfo) : Prop :=
  ∀ CS Info, m !! CS = Some Info → site_info ns CS Info.

Record built ns s : Prop := {
  bt_len : length (SCCOfVal s) = num_values ns;
  bt_capacity : ec_capacity (Base s) = num_values ns;
  bt_base : represents id (λ x, x < num_values ns) (joined_edge ns) (Base s);
  bt_sites k : sites_recorded ns (Calls s !!! k);
  bt_ids k x : x ∈ IdsForSum s !!! k → x < num_values ns
}.

Lemma SCCOfVal_snoc ns n :
  SCCOfVal (bottomup_build (ns ++ [n])) =
    match n with
    | ValueAdded Var _ => SCCOfVal (bottomup_build ns)
        ++ [Fun ← getFunction Var; FunVtx ← getVertexOrNull Fun; SCCOfNode CGSCCs !! FunVtx]
    | EdgeAdded _ _ _ _ => SCCOfVal (bottomup_build ns)
    end.
Proof.
  unfold bottomup_build. rewrite build_snoc. destruct n as [|From To E CS]; [done|].
  simpl. unfold onAddEdge. by repeat case_match.
Qed.

Lemma alter_total {A} `{Inhabited A} (f : A → A) i (l : list A) k (P : A → Prop) :
  P (l !!! k) → (k = i → i < length l → P (f (l !!! i))) → P (alter f i l !!! k).
Proof.
  intros Hk Hi. destruct (decide (i = k)) as [->|Hne]; [|by rewrite list_lookup_total_alter_ne].
  destruct (decide (k < length l)); [rewrite list_lookup_total_alter_eq by done; auto|].
  rewrite list_lookup_total_alt, list_lookup_alter_eq, lookup_ge_None_2 by lia.
  rewrite list_lookup_total_alt, lookup_ge_None_2 in Hk by lia. done.
Qed.

Lemma edge_in_mono ns n E CS x y : edge_in ns E CS x y → edge_in (ns ++ [n]) E CS x y.
Proof. intros Hin. apply elem_of_app. by left. Qed.

Lemma site_info_mono ns n CS Info : site_info ns CS Info → site_info (ns ++ [n]) CS Info.
Proof.
  intros [H1 H2 H3]. split.
  - intros P HP. by apply edge_in_mono, H1.
  - intros slot Hs. destruct (H2 slot Hs) as [r ?]. exists r. by apply edge_in_mono.
  - intros r Hr. destruct (H3 r Hr) as [slot ?]. exists slot. by apply edge_in_mono.
Qed.

Lemma sites_recorded_mono ns n m : sites_recorded ns m → sites_recorded (ns ++ [n]) m.
Proof. intros Hm CS Info HI. by apply site_info_mono, Hm. Qed.

Lemma update_call_recorded ns (f : CallSiteInfo → CallSiteInfo) CS m :
  sites_recorded ns m → (∀ Info, site_info ns CS Info → site_info ns CS (f Info)) →
  sites_recorded ns (update_call f CS m).
Proof.
  intros Hm Hf CS' Info. unfold update_call. destruct (decide (CS' = CS)) as [->|Hne].
  - rewrite lookup_insert_eq. intros [= <-]. apply Hf.
    destruct (m !! CS) as [Info|] eqn:HI; simpl; [by apply Hm|].
    split; simpl; [intros P []%elem_of_nil|done|intros r []%elem_of_nil].
  - rewrite lookup_insert_ne by done. apply Hm.
Qed.

Lemma record_arg_info ns From To ArgNo CS Info :
  edge_in ns (Call ArgNo) CS From To → site_info ns CS Info → site_info ns CS (record_arg From To ArgNo Info).
Proof.
  intros He [H1 H2 H3]. split; simpl; try done.
  by intros P [?| ->%list_elem_of_singleton]%elem_of_app; [apply H1|].
Qed.

Lemma record_ret_info ns From To CS Info :
  edge_in ns Return CS From To → site_info ns CS Info → site_info ns CS (record_ret From To Info).
Proof.
  intros He [H1 H2 H3]. split; simpl; try done.
  - intros slot [= <-]. eauto.
  - intros r [?| ->%list_elem_of_singleton]%elem_of_app; eauto.
Qed.

Lemma inter_SCC_None ns From To s :
  s = bottomup_build ns →
  inter_SCC From To s = None ↔ ∀ c d, scc_of ns From = Some c → scc_of ns To = Some d → c = d.
Proof.
  intros ->. unfold inter_SCC, scc_of. destruct (SCCOfVal _ !!! From) as [c|], (SCCOfVal _ !!! To) as [d|];
    try (split; done).
  destruct (decide (c = d)) as [->|Hne].
  - rewrite decide_False by auto. split; [|done]. naive_solver.
  - rewrite decide_True by done. split; [done|]. intros Hcd. by destruct (Hne (Hcd c d eq_refl eq_refl)).
Qed.

Lemma joined_edge_snoc ns E CS From To x y :
  joined_edge (ns ++ [EdgeAdded From To E CS]) x y ↔
    joined_edge ns x y ∨ x = From ∧ y = To ∧
      match E with
      | Call _ | Return => ∀ c d, scc_of ns x = Some c → scc_of ns y = Some d → c = d
      | _ => True
      end.
Proof.
  unfold joined_edge, scc_of. rewrite SCCOfVal_snoc. unfold edge_in. setoid_rewrite elem_of_app.
  setoid_rewrite list_elem_of_singleton. split.
  - intros (E' & CS' & [?|[= -> -> -> ->]] & HE); [left; eauto|by right].
  - intros [(E' & CS' & ? & ?)|(-> & -> & ?)]; eauto 10.
Qed.

Lemma built_joined ns E CS From To s :
  s = bottomup_build ns → built ns s → From < num_values ns → To < num_values ns →
  match E with
  | Call _ | Return => inter_SCC From To s = None
  | _ => True
  end →
  built (ns ++ [EdgeAdded From To E CS]) (set_Base (UnionFind.join From To (Base s)).2 s).
Proof.
  intros Hs [H1 H2 H3 H4 H5] HF HT HE.
  assert (num_values (ns ++ [EdgeAdded From To E CS]) = num_values ns) as Hn.
  { rewrite num_values_app. simpl. lia. }
  split; simpl; rewrite ?Hn; try done.
  - unfold UnionFind.join. by rewrite capacity_join.
  - apply (represents_iff _ _ (λ x y, joined_edge ns x y ∨ x = From ∧ y = To)).
    + intros x y. rewrite joined_edge_snoc. split; [|naive_solver]. intros [?|[-> ->]]; [by left|right].
      split_and!; [done..|]. destruct E; try done; by apply inter_SCC_None with (s := s).
    + by apply (represents_join id).
  - intros k. apply sites_recorded_mono, H4.
Qed.

Lemma built_kept ns E CS From To s FromSCC ToSCC :
  s = bottomup_build ns → built ns s → From < num_values ns → To < num_values ns →
  inter_SCC From To s = Some (FromSCC, ToSCC) → (∃ ArgNo, E = Call ArgNo) ∨ E = Return →
  built (ns ++ [EdgeAdded From To E CS]) (onAddEdge From To E CS s).
Proof.
  intros Hs [H1 H2 H3 H4 H5] HF HT HE Hkind.
  assert (num_values (ns ++ [EdgeAdded From To E CS]) = num_values ns) as Hn.
  { rewrite num_values_app. simpl. lia. }
  assert (edge_in (ns ++ [EdgeAdded From To E CS]) E CS From To) as Hin.
  { apply elem_of_app. right. by apply list_elem_of_singleton. }
  assert (represents id (λ x, x < num_values ns) (joined_edge (ns ++ [EdgeAdded From To E CS])) (Base s)) as Hr.
  { revert H3. apply represents_iff. intros x y. rewrite joined_edge_snoc. split; [auto|].
    intros [?|(-> & -> & Hcd)]; [done|]. exfalso.
    assert (inter_SCC From To s = None) as Hnone; [|congruence].
    apply (inter_SCC_None ns); [done|]. by destruct Hkind as [[ArgNo ->]| ->]. }
  assert (∀ x i k, x < num_values ns → ∀ y, y ∈ alter (union {[x]}) i (IdsForSum s) !!! k → y < num_values ns) as Hids.
  { intros x i k Hx y. apply (alter_total _ i _ k (λ X, y ∈ X → y < num_values ns)); [apply H5|].
    intros _ _ [->%elem_of_singleton|?]%elem_of_union; [done|by eapply H5]. }
  unfold onAddEdge. rewrite HE. destruct Hkind as [[ArgNo ->]| ->];
    (split; simpl; rewrite ?Hn; try done; [|intros k x; by apply Hids]).
  - intros k. apply (alter_total _ _ _ k (sites_recorded _)).
    + by apply sites_recorded_mono.
    + intros -> _. apply update_call_recorded; [by apply sites_recorded_mono|].
      intros Info. by apply record_arg_info.
  - intros k. apply (alter_total _ _ _ k (sites_recorded _)).
    + by apply sites_recorded_mono.
    + intros -> _. apply update_call_recorded; [by apply sites_recorded_mono|].
      intros Info. by apply record_ret_info.
Qed.

Lemma built_value ns Var s :
  ascending_ids 0 ns → s = bottomup_build ns → built ns s →
  built (ns ++ [ValueAdded Var (num_values ns)])
    (onAddValue getVertexOrNull CGSCCs getFunction Var (num_values ns) s).
Proof.
  intros Hns Hs [H1 H2 H3 H4 H5].
  split; simpl; rewrite ?num_values_app; simpl; rewrite ?length_app; simpl; try lia.
  - unfold UnionFind.grow. rewrite capacity_grow. lia.
  - apply (represents_iff _ _ (joined_edge ns)).
    { intros x y. unfold joined_edge, scc_of. rewrite SCCOfVal_snoc.
      assert (∀ E CS, edge_in (ns ++ [ValueAdded Var (num_values ns)]) E CS x y ↔ edge_in ns E CS x y) as He.
      { intros E CS. unfold edge_in. rewrite elem_of_app, list_elem_of_singleton. naive_solver. }
      setoid_rewrite He. split; intros (E & CS & Hin & HE); exists E, CS; (split; [done|]);
        destruct (edge_in_range ns E CS x y Hns Hin); rewrite <-H1, Hs in *;
        [rewrite !lookup_total_app_l by done|rewrite !lookup_total_app_l in HE by done]; done. }
    apply (represents_grow _ _ _ _ _ _ _ H3); unfold id; intros; try done; lia.
  - intros k. by apply sites_recorded_mono.
  - intros k x Hx%H5. lia.
Qed.

Lemma bottomup_built ns : ascending_ids 0 ns → built ns (bottomup_build ns).
Proof.
  intros Hns. destruct (build_ind (λ ns s, s = bottomup_build ns ∧ built ns s) ns (initial_state CGSCCs) Hns)
    as [_ Hb]; [..|done].
  - split; [done|]. split; simpl; try done.
    + apply capacity_empty.
    + apply (represents_iff _ _ (λ _ _, False)); [|apply represents_empty; lia].
      intros x y. split; [done|]. intros (E & CS & H' & _). by apply elem_of_nil in H'.
    + intros k CS Info. rewrite list_lookup_total_alt.
      destruct (replicate _ ∅ !! k) as [m|] eqn:Hm; simpl; [|by rewrite lookup_empty].
      apply lookup_replicate in Hm as [-> _]. by rewrite lookup_empty.
    + intros k x. rewrite list_lookup_total_alt.
      destruct (replicate _ ∅ !! k) as [m|] eqn:Hm; simpl; [|by intros ?%elem_of_empty].
      apply lookup_replicate in Hm as [-> _]. by intros ?%elem_of_empty.
  - intros ns' Var s Hns' [Hs Hb]. split; [|by apply built_value].
    unfold bottomup_build. rewrite build_snoc. fold (bottomup_build ns'). by rewrite Hs.
  - intros ns' From To E CS s Hns' HF HT [Hs Hb]. split.
    { unfold bottomup_build. rewrite build_snoc. fold (bottomup_build ns'). by rewrite Hs. }
    simpl. destruct (inter_SCC From To s) as [[FromSCC ToSCC]|] eqn:Hi.
    + destruct E; try (apply built_kept with FromSCC ToSCC; eauto; done); by apply built_joined.
    + assert (onAddEdge From To E CS s = set_Base (UnionFind.join From To (Base s)).2 s) as ->.
      { unfold onAddEdge. rewrite Hi. by destruct E. }
      apply built_joined; try done. by destruct E.
Qed.

(** * The result *)

Definition final_classes (Sound : bool) ns : U :=
  let s := bottomup_build ns in
  let u := bottomupPropagation CGSCCs call_sites back_entries (num_values ns) s in
  if Sound then topdownPropagation CGSCCs call_sites s u else u.

Lemma bottomup_classes Sound ns :
  ascending_ids 0 ns → one_slot ns →
  ec_capacity (final_classes Sound ns) = num_values ns
  ∧ ∀ x y, x < num_values ns → y < num_values ns →
      (rtsc (joined_edge ns) x y → same (final_classes Sound ns) x y)
      ∧ (same (final_classes Sound ns) x y → rtsc (some_edge ns) x y).
Proof.
  intros Hns Hslot. pose proof (bottomup_built ns Hns) as [H1 H2 H3 H4 H5].
  set (s := bottomup_build ns) in *. set (n := num_values ns) in *. set (R := rtsc (some_edge ns)).
  assert (Equivalence R) as HR by (unfold R; apply _).
  assert (∀ E CS x y, edge_in ns E CS x y → x < n ∧ y < n ∧ R x y) as He.
  { intros E CS x y Hin. destruct (edge_in_range ns E CS x y Hns Hin). split_and!; [done..|].
    apply rtsc_lr. by exists E, CS. }
  assert (within n R (Base s) (Base s)) as Hw.
  { split; [done|done|]. intros x y Hx Hy Hs. apply (rp_same _ _ _ _ H3) in Hs; [|done..].
    revert Hs. apply (rtsc_congruence (λ x, x)). intros x' y' (E & CS & ? & _). by exists E, CS. }
  assert (recorded_ok n R s) as Hrec.
  { split; [|apply H5]. intros k CS Info HI. destruct (H4 k CS Info HI) as [S1 S2 S3]. split.
    - intros P HP. by eapply He, S1.
    - intros r slot Hsl Hr. destruct (S2 slot Hsl) as [r' Hr']. destruct (S3 r Hr) as [slot' Hs'].
      rewrite (Hslot CS r slot' r' slot Hs' Hr') in Hs'. by apply He in Hs'. }
  assert (within n R (Base s) (final_classes Sound ns)) as [Hcap Hkeep Hsound].
  { unfold final_classes. fold s n.
    assert (within n R (Base s) (bottomupPropagation CGSCCs call_sites back_entries n s)) by by apply bottomup_ok.
    destruct Sound; [by apply topdown_ok|done]. }
  split; [done|]. intros x y Hx Hy. split; [|by apply Hsound].
  intros Hxy. apply Hkeep; [done..|]. by apply (rp_same _ _ _ _ H3).
Qed.
End correct.
End BottomupCorrect.
