(* ===== verification/UnionFindProperties.v ===== *)
(** What the union-find alias analyses guarantee, and where more precision costs
    soundness. *)
From S2P Require Import Prelude SCCGeneric Compressor UnionFind UnionFindAA.
From S2P Require Import UnionFindAACorrect.
From S2P Require Import CallingContextAA CallingContextAACorrect.
From S2P Require Import BottomupUnionFindAA.
From stdpp Require Import relations.
Import pag Log.

(** A program [p1 = p0; *p0 = p2; p3 = *p1] and a variable on its own. *)
Definition example_pag : list (notification nat nat) :=
  [ValueAdded 0 0; ValueAdded 1 1; ValueAdded 2 2; EdgeAdded 0 1 Assign None; EdgeAdded 2 0 Store None;
   ValueAdded 3 3; EdgeAdded 1 3 Load None; ValueAdded 4 4].

(** * The plain and the indirection-sensitive analysis *)

Section components.
Context {N V U : Type} `{!IntEqClasses U} `{!IntEqClassesLaws U} (K : nat).
#[local] Existing Instance BasicUnionFindAA.strategy.
#[local] Instance ind_strategy_at : PBStrategy N V (IndirectionSensUnionFindAA.state (U:=U)) :=
  ind_strategy K.
Implicit Types (ns : list (notification N V)) (ShouldInclude : nat → bool).

(** Both analyses, built in one pass by the combinator. *)
Definition build_both ns : U * IndirectionSensUnionFindAA.state (U:=U) :=
  build ns (ec_empty, IndirectionSensUnionFindAA.initial_state).

Lemma build_both_spec ns : build_both ns = (basic_build ns, ind_build K ns).
Proof.
  unfold build_both. induction ns as [|n ns IH] using rev_ind; [done|].
  unfold basic_build, ind_build. rewrite !build_snoc, IH. by destruct n.
Qed.

Definition basic_result ns ShouldInclude : BasicUnionFindAAResult :=
  BasicUnionFindAA.consumeAAResults (num_values ns) id ShouldInclude (build_both ns).1.

Definition ind_result ns ShouldInclude : BasicUnionFindAAResult :=
  IndirectionSensUnionFindAA.consumeAAResults (num_values ns) ShouldInclude (build_both ns).2.

(** A path of lifted edges is a path of edges. *)
Lemma ind_refines_basic ns a b : rtsc (ind_edges K ns) a b → rtsc (some_edge ns) a.1 b.1.
Proof. apply (rtsc_congruence fst). intros x y (E & CS & He & _). by exists E, CS. Qed.

Lemma answers_in_range {R} `{!RawAAResult R} (r : R) n ShouldInclude (alias alias' : relation nat) :
  (∀ v w, v < n → w < n → alias v w ↔ alias' v w) →
  answers r n ShouldInclude alias → answers r n ShouldInclude alias'.
Proof.
  intros Heq [H1 H2 H3 H4]. split; try done.
  - intros v w Hv. rewrite H2 by done. split; intros (Hw & ? & ?); (split_and!; [done..|]); by apply Heq.
  - intros v w Hv Hw. by rewrite H3, Heq.
Qed.

Lemma basic_answers ns ShouldInclude :
  ascending_ids 0 ns →
  answers (basic_result ns ShouldInclude) (num_values ns) ShouldInclude (rtsc (some_edge ns)).
Proof.
  intros Hns. unfold basic_result. rewrite build_both_spec.
  destruct (basic_represents (U:=U) ns Hns) as [Hcap Hr].
  apply (answers_in_range _ _ _ (λ v w, same (basic_build ns) v w)).
  - intros v w Hv Hw. by apply (rp_same _ _ _ _ Hr).
  - apply (consume_answers _ id). intros v Hv. by rewrite Hcap.
Qed.

Lemma ind_answers ns ShouldInclude :
  0 < K → ascending_ids 0 ns →
  answers (ind_result ns ShouldInclude) (num_values ns) ShouldInclude
    (λ v w, rtsc (ind_edges K ns) (v, 0) (w, 0)).
Proof.
  intros HK Hns. unfold ind_result. rewrite build_both_spec.
  destruct (ind_represents (U:=U) K HK ns Hns) as [Hok Hr]. set (s := ind_build K ns) in *.
  assert (∀ v, v < num_values ns →
    (IndirectionSensUnionFindAA.Var2Obj s !!! v) !!! 0 = ind_obj K (v, 0)) as Hobj.
  { intros v Hv. rewrite (io_objs _ _ _ Hok) by done. by destruct K; [lia|]. }
  assert (∀ v, v < num_values ns → ind_dom K (num_values ns) (v, 0)) as Hdom by by split.
  eapply answers_in_range; [|apply consume_answers].
  - intros v w Hv Hw. simpl. rewrite !Hobj by done. apply (rp_same _ _ _ _ Hr); auto.
  - intros v Hv. simpl. rewrite Hobj by done. apply (rp_range _ _ _ _ Hr). auto.
Qed.
End components.

(** C20: variables alias in the plain analysis exactly when they are connected by
    edges, and in the analysis with [K] levels of indirection exactly when they
    are connected at level zero by edges that keep track of the level, where a
    load goes down and a store goes up one level. The second refines the first,
    so that intersecting the two results gives the second; the alias sets are
    the included variables that may alias. *)
Theorem alias_classes_are_components {N V U : Type} `{!IntEqClasses U} `{!IntEqClassesLaws U} (K : nat)
    (ns : list (notification N V)) (ShouldInclude : nat → bool) :
  0 < K → ascending_ids 0 ns →
  let basic := basic_result (U:=U) K ns ShouldInclude in
  let ind := ind_result (U:=U) K ns ShouldInclude in
  let ind_alias v w := rtsc (ind_edges K ns) (v, 0) (w, 0) in
  answers basic (num_values ns) ShouldInclude (rtsc (some_edge ns))
  ∧ answers ind (num_values ns) ShouldInclude ind_alias
  ∧ answers (basic, ind) (num_values ns) ShouldInclude ind_alias
  ∧ ∀ v w, ind_alias v w → rtsc (some_edge ns) v w.
Proof.
  intros HK Hns basic ind ind_alias.
  assert (∀ v w, ind_alias v w → rtsc (some_edge ns) v w) as Href.
  { intros v w Hvw. by apply ind_refines_basic in Hvw. }
  assert (answers basic (num_values ns) ShouldInclude (rtsc (some_edge ns))) as Hbasic
    by by apply basic_answers.
  assert (answers ind (num_values ns) ShouldInclude ind_alias) as Hind by by apply ind_answers.
  split_and!; [done..| |done].
  pose proof (intersection_answers _ _ _ _ _ _ Hbasic Hind) as Hboth.
  eapply answers_in_range; [|apply Hboth; intros v; apply rtc_refl]. naive_solver.
Qed.

(** [p3] may be what [p2] is, and only the plain analysis says it is what [p0] is. *)
Lemma alias_classes_are_components_witness :
  (0 < 2 ∧ ascending_ids 0 example_pag) ∧
  (let basic := basic_result (U:=classes) 2 example_pag (λ _, true) in
   let ind := ind_result (U:=classes) 2 example_pag (λ _, true) in
   let ind_alias v w := rtsc (ind_edges 2 example_pag) (v, 0) (w, 0) in
   (answers basic (num_values example_pag) (λ _, true) (rtsc (some_edge example_pag))
    ∧ answers ind (num_values example_pag) (λ _, true) ind_alias
    ∧ answers (basic, ind) (num_values example_pag) (λ _, true) ind_alias
    ∧ ∀ v w, ind_alias v w → rtsc (some_edge example_pag) v w)
   ∧ (mayAlias ind 2 3, mayAlias ind 0 1, mayAlias ind 0 3, mayAlias basic 0 3, mayAlias basic 0 4)
     = (true, true, false, true, false)).
Proof.
  assert (0 < 2) as HK by lia.
  assert (ascending_ids 0 example_pag) as Hns by (vm_compute; done).
  split; [by split|]. split; [|vm_compute; reflexivity].
  exact (alias_classes_are_components (U:=classes) 2 example_pag (λ _, true) HK Hns).
Defined.

(** A cached result answers [mayAlias] from the alias sets: on the included
    variables as the result it wraps, and with no for the others, even for a
    variable and itself. *)
Lemma cached_mayAlias_spec {R} `{!RawAAResult R} (c : CachedUnionFindAAResult R) n ShouldInclude alias v w :
  Equivalence alias → cache_ok c → answers (AARes c) n ShouldInclude alias → v < n → w < n →
  (cached_mayAlias true v w c).1 = ShouldInclude w && mayAlias (AARes c) v w
  ∧ cache_ok (cached_mayAlias true v w c).2.
Proof.
  intros Heq Hc Ha Hv Hw. simpl. pose proof (cached_getRawAliasSet_spec v c Hc) as Hspec.
  destruct (cached_getRawAliasSet v c) as [X c']. destruct Hspec as (-> & Hc' & _). split; [|done].
  pose proof (answers_agree _ _ _ _ v w Heq Ha Hv Hw) as Hag. cbn [fst].
  case_bool_decide as Hin; destruct (ShouldInclude w), (mayAlias (AARes c) v w); simpl in *; tauto.
Qed.

(** * The context-sensitive analysis *)

(** [main] calls [f] at 10 and 20: [f]'s parameter 4 is returned to 2 and 3,
    the arguments are 0 and 1. *)
Definition example_cg : CallGraphView nat nat nat := {|
  getCallersOf f := if decide (f = 1) then [10; 20] else [];
  getFunctionOf _ := 0;
  getFunction v := Some (if decide (v = 4) then 1 else 0)
|}.

Definition example_calls : list (notification nat nat) :=
  [ValueAdded 0 0; ValueAdded 1 1; ValueAdded 2 2; ValueAdded 3 3; ValueAdded 4 4;
   EdgeAdded 0 4 (Call 0) (Some 10); EdgeAdded 4 2 Return (Some 10);
   EdgeAdded 1 4 (Call 0) (Some 20); EdgeAdded 4 3 Return (Some 20)].

Section contexts.
Context {N F V U : Type} `{Countable N} `{!IntEqClasses U} `{!IntEqClassesLaws U}.
Context (K : nat) (CG : CallGraphView N F V) (entries : gmap Z nat → list (Z * nat)).

Definition ctx_result (ns : list (notification N V)) (ShouldInclude : nat → bool) :
    CallingContextSensUnionFindAAResult :=
  CallingContextSensUnionFindAA.consumeAAResults entries (num_values ns) ShouldInclude
    (ctx_build (U:=U) K CG entries ns).

Lemma ctx_answers ns ShouldInclude :
  (∀ m x, x ∈ entries m ↔ m !! x.1 = Some x.2) → ascending_ids 0 ns → small (ctx_build (U:=U) K CG entries ns) →
  answers (ctx_result ns ShouldInclude) (num_values ns) ShouldInclude
    (λ v w, ∃ c d, clone (contexts K CG ns) (v, c) ∧ clone (contexts K CG ns) (w, d)
      ∧ rtsc (ctx_edges K CG ns) (v, c) (w, d)).
Proof.
  intros He Hns Hsm. pose proof (ctx_represents K CG entries He ns Hns Hsm) as Hg.
  unfold ctx_result. rewrite <-(length_contexts K CG ns).
  eapply answers_in_range; [|apply (ctx_consume_answers K entries He); apply Hg].
  intros v w _ _. by apply (object_alias_clones K).
Qed.
End contexts.

(** C21: the context-sensitive analysis clones a variable for the contexts of its
    function; variables alias exactly when clones of them are connected, where
    an edge connects clones in the same context and a call or return clones
    whose contexts differ by the call site. With contexts of one call site no
    alias is missed: two variables alias whenever a value flows from one to the
    other along a path that returns only to the calls it came from. *)
Theorem context_sensitive_aliases {N F V U : Type} `{Countable N} `{!IntEqClasses U} `{!IntEqClassesLaws U}
    (K : nat) (CG : CallGraphView N F V) (entries : gmap Z nat → list (Z * nat))
    (ns : list (notification N V)) (ShouldInclude : nat → bool) :
  (∀ m x, x ∈ entries m ↔ m !! x.1 = Some x.2) →
  ascending_ids 0 ns → small (ctx_build (U:=U) K CG entries ns) →
  let r := ctx_result (U:=U) K CG entries ns ShouldInclude in
  answers r (num_values ns) ShouldInclude
    (λ v w, ∃ c d, clone (contexts K CG ns) (v, c) ∧ clone (contexts K CG ns) (w, d)
      ∧ rtsc (ctx_edges K CG ns) (v, c) (w, d))
  ∧ (K = 1 → ∀ a b, realizable CG ns a b → located CG ns a.1 a.2 → mayAlias r a.1 b.1).
Proof.
  intros He Hns Hsm r. pose proof (ctx_answers K CG entries ns ShouldInclude He Hns Hsm) as Ha.
  split; [exact Ha|]. intros -> a b Hab Hloc.
  destruct (realizable_edges CG ns a b Hab Hloc) as [Hconn Hlocb].
  pose proof (located_clone CG ns _ _ Hloc) as Hca. pose proof (located_clone CG ns _ _ Hlocb) as Hcb.
  apply (an_may _ _ _ _ Ha); [..|by eauto 6];
    rewrite <-(length_contexts 1 CG ns); by eapply clone_lt.
Qed.

Lemma entries_of_map {A} (m : gmap Z A) x : x ∈ map_to_list m ↔ m !! x.1 = Some x.2.
Proof. destruct x. apply elem_of_map_to_list. Qed.

(** What is passed at 10 comes back at 10, not at 20. *)
Lemma context_sensitive_aliases_witness :
  (ascending_ids 0 example_calls
   ∧ small (ctx_build (U:=classes) 1 example_cg map_to_list example_calls)) ∧
  (let r := ctx_result (U:=classes) 1 example_cg map_to_list example_calls (λ _, true) in
   (answers r (num_values example_calls) (λ _, true)
     (λ v w, ∃ c d, clone (contexts 1 example_cg example_calls) (v, c)
       ∧ clone (contexts 1 example_cg example_calls) (w, d)
       ∧ rtsc (ctx_edges 1 example_cg example_calls) (v, c) (w, d))
    ∧ (1 = 1 → ∀ a b, realizable example_cg example_calls a b → located example_cg example_calls a.1 a.2 →
        mayAlias r a.1 b.1))
   ∧ (mayAlias r 0 2, mayAlias r 1 3, mayAlias r 0 3, mayAlias r 0 4, mayAlias r 1 4)
     = (true, true, false, true, true)).
Proof.
  assert (ascending_ids 0 example_calls) as Hns by (vm_compute; done).
  assert (small (ctx_build (U:=classes) 1 example_cg map_to_list example_calls)) as Hsm
    by (vm_compute; reflexivity).
  split; [by split|]. split; [|vm_compute; reflexivity].
  exact (context_sensitive_aliases (U:=classes) 1 example_cg map_to_list example_calls (λ _, true)
    entries_of_map Hns Hsm).
Defined.

(** The function 2 is called at 10 from the function 1 and at 20 from [main] (0);
    the function 1 is called at 30 from [main]. The values 0, 1 and 2 are in the
    functions 0, 2 and 1; the value 0 is passed to 1 at 20. *)
Definition stale_cg : CallGraphView nat nat nat := {|
  getCallersOf f := match f with 2 => [10; 20] | 1 => [30] | _ => [] end;
  getFunctionOf c := if decide (c = 10) then 1 else 0;
  getFunction v := nth v [Some 0; Some 2; Some 1] None
|}.

Definition stale_calls : list (notification nat nat) :=
  [ValueAdded 0 0; ValueAdded 1 1; ValueAdded 2 2; EdgeAdded 0 1 (Call 0) (Some 20)].

(** With contexts of two call sites an alias can be missed. The traversal
    of the callers leaves the call sites of one caller in the context of the
    next one when that one has fewer, so the clone of the parameter is not found
    under the context of the call: an argument and its parameter do not alias,
    though they do with contexts of one call site. *)
Theorem longer_contexts_miss_aliases :
  let alias K := mayAlias (ctx_result (U:=classes) K stale_cg map_to_list stale_calls (λ _, true)) 0 1 in
  ascending_ids 0 stale_calls
  ∧ edge_in stale_calls (Call 0) (Some 20) 0 1
  ∧ contexts_of 2 stale_cg 1 = [[Some 10; Some 30]; [Some 20; Some 30]]
  ∧ (alias 1, alias 2) = (true, false).
Proof. split_and!; [|set_solver| |]; vm_compute; done. Qed.

(** * The bottom-up analysis *)

Section bottomup.
Context {N F V U : Type} `{Countable N} `{!IntEqClasses U} `{!IntEqClassesLaws U}.
Context (getVertexOrNull : F → option nat) (CGSCCs : SCCHolder) (getFunction : V → option F).
Context (call_sites : gmap (option N) BottomupUnionFindAA.CallSiteInfo →
  list (option N * BottomupUnionFindAA.CallSiteInfo)).
Context (back_entries : gmap nat (list nat) → list (nat * list nat)).

Definition bottomup_result (Sound : bool) (ns : list (notification N V)) (ShouldInclude : nat → bool) :
    BasicUnionFindAAResult :=
  BottomupUnionFindAA.consumeAAResults CGSCCs call_sites back_entries Sound (num_values ns) ShouldInclude
    (BottomupCorrect.bottomup_build (U:=U) getVertexOrNull CGSCCs getFunction ns).
End bottomup.

(** C22: whatever the soundness flag and the orders of its maps, the bottom-up
    analysis lets no more alias than the plain one, and at least what the edges
    within components, and those that are no call or return, connect. *)
Theorem bottomup_between {N F V U : Type} `{Countable N} `{!IntEqClasses U} `{!IntEqClassesLaws U}
    (getVertexOrNull : F → option nat) (CGSCCs : SCCHolder) (getFunction : V → option F)
    call_sites back_entries (Sound : bool) (ns : list (notification N V)) (ShouldInclude : nat → bool) :
  (∀ m x, x ∈ call_sites m → m !! x.1 = Some x.2) →
  (∀ m x, x ∈ back_entries m → m !! x.1 = Some x.2) →
  ascending_ids 0 ns → BottomupCorrect.one_slot ns →
  let r := bottomup_result (U:=U) getVertexOrNull CGSCCs getFunction call_sites back_entries Sound ns ShouldInclude in
  let kept := BottomupCorrect.joined_edge (U:=U) getVertexOrNull CGSCCs getFunction ns in
  ∃ alias, Equivalence alias ∧ answers r (num_values ns) ShouldInclude alias
    ∧ ∀ v w, v < num_values ns → w < num_values ns →
        (rtsc kept v w → alias v w) ∧ (alias v w → rtsc (some_edge ns) v w).
Proof.
  intros Hc Hb Hns Hslot r kept.
  destruct (BottomupCorrect.bottomup_classes getVertexOrNull CGSCCs getFunction call_sites back_entries
    Hc Hb Sound ns Hns Hslot) as [Hcap Hbounds].
  set (u := BottomupCorrect.final_classes _ _ _ _ _ Sound ns) in *.
  exists (same u). split; [apply _|]. split; [|exact Hbounds].
  apply (consume_answers _ id). intros v Hv. by rewrite Hcap.
Qed.

(** A function per component: [main] (0) calls [g] (2), and in [lost_calls] [f]
    (1), which shares the class of [g]'s parameters through the global 3, calls
    [d] (3). *)
Definition bottomup_sccs : SCCHolder := {| SCCOfNode := [0; 1; 2; 3]; NodesInSCC := [[0]; [1]; [2]; [3]] |}.
Definition bottomup_function (v : nat) : option nat :=
  nth v [Some 1; Some 2; Some 2; None; Some 1; Some 3; Some 3; Some 0; Some 0] None.
Definition bottomup_values : list (notification nat nat) := (λ v, ValueAdded v v) <$> seq 0 9.
Definition bottomup_edges : list (notification nat nat) :=
  [EdgeAdded 1 2 Assign None; EdgeAdded 1 3 Store None; EdgeAdded 3 4 Load None; EdgeAdded 5 6 Assign None;
   EdgeAdded 7 1 (Call 0) (Some 10); EdgeAdded 8 2 (Call 1) (Some 10)].
Definition lost_calls : list (notification nat nat) :=
  [EdgeAdded 0 5 (Call 0) (Some 11); EdgeAdded 4 6 (Call 1) (Some 11)].

Definition bottomup_example (ns : list (notification nat nat)) : BasicUnionFindAAResult :=
  bottomup_result (U:=classes) Some bottomup_sccs bottomup_function map_to_list map_to_list false ns (λ _, true).

(** The parameters 1 and 2 of a callee alias, so the arguments 7 and 8 do. *)
Lemma bottomup_between_witness :
  let ns := bottomup_values ++ bottomup_edges in
  let kept := BottomupCorrect.joined_edge (U:=classes) Some bottomup_sccs bottomup_function ns in
  (ascending_ids 0 ns ∧ BottomupCorrect.one_slot ns) ∧
  ((∃ alias, Equivalence alias ∧ answers (bottomup_example ns) (num_values ns) (λ _, true) alias
      ∧ ∀ v w, v < num_values ns → w < num_values ns →
          (rtsc kept v w → alias v w) ∧ (alias v w → rtsc (some_edge ns) v w))
   ∧ (mayAlias (bottomup_example ns) 1 2, mayAlias (bottomup_example ns) 7 8,
      mayAlias (bottomup_example ns) 7 1) = (true, true, false)).
Proof.
  intros ns kept.
  assert (ascending_ids 0 ns) as Hns by (vm_compute; done).
  assert (BottomupCorrect.one_slot ns) as Hslot.
  { intros CS x y x' y' Hin. exfalso. apply list_elem_of_In in Hin.
    vm_compute in Hin. by repeat destruct Hin as [Hin|Hin]. }
  split; [by split|]. split; [|vm_compute; reflexivity].
  refine (bottomup_between (U:=classes) Some bottomup_sccs bottomup_function map_to_list map_to_list false ns
    (λ _, true) _ _ Hns Hslot); intros m [] ?; by apply elem_of_map_to_list.
Defined.

(** The summaries of a component are kept for the representatives its
    parameters had when it was left. When a call elsewhere joins that class with
    another, the summary is not found any more, and the aliases of the arguments
    are missed: adding a call to the program takes an alias away. *)
Theorem bottomup_loses_summaries :
  let ns := bottomup_values ++ bottomup_edges in
  ascending_ids 0 (ns ++ lost_calls)
  ∧ mayAlias (bottomup_example (ns ++ lost_calls)) 1 2 = true
  ∧ mayAlias (bottomup_example ns) 7 8 = true
  ∧ mayAlias (bottomup_example (ns ++ lost_calls)) 7 8 = false.
Proof. split_and!; vm_compute; done. Qed.
