(* ===== verification/Graph.v ===== *)
(** Graphs: the adjacency list of Utils/AdjacencyList.h and the generic
    operations of Utils/GraphTraits.h. Vertices are natural numbers; [Invalid]
    is [None].

    What the generic operations on graphs do: removing duplicate edges, and
    reversing a graph. *)
From S2P Require Import Prelude.
From stdpp Require Import sorting.

(** * Edges *)

(** What the traits say about the edges of a graph: the target, the same edge
    to another target, the weight, and the order if edges can be compared. *)
Class GraphEdge (E W : Type) := {
  target : E → nat;
  withEdgeTarget : E → nat → E;
  weight : E → W;
  edge_less : option (E → E → bool)
}.

(** An edge is its weight and its target. *)
Class GraphEdgeLaws (E W : Type) `{!GraphEdge E W} : Prop := {
  target_withEdgeTarget e v : target (withEdgeTarget e v) = v;
  weight_withEdgeTarget e v : weight (withEdgeTarget e v) = weight e;
  edge_ext e f : target e = target f → weight e = weight f → e = f;
  edge_less_asym lt e f : edge_less = Some lt → lt e f = true → lt f e = false;
  edge_less_total lt e f : edge_less = Some lt → lt e f = false → lt f e = false → e = f;
  edge_less_trans lt e f g : edge_less = Some lt → lt e f = false → lt f g = false → lt e g = false
}.

(** [edge_t = vertex_t]: an edge is its target. *)
#[export] Instance vertex_edge : GraphEdge nat unit := {
  target e := e;
  withEdgeTarget _ v := v;
  weight _ := tt;
  edge_less := Some (λ a b, bool_decide (a < b))
}.

#[export] Instance vertex_edge_laws : GraphEdgeLaws nat unit.
Proof.
  split; simpl; try done; intros lt e f; [intros [= <-] H1|intros [= <-] H1 H2|intros g [= <-] H1 H2].
  - apply bool_decide_eq_true in H1. apply bool_decide_eq_false. lia.
  - apply bool_decide_eq_false in H1, H2. lia.
  - apply bool_decide_eq_false in H1, H2. apply bool_decide_eq_false. lia.
Qed.

(** * [AdjacencyList] *)

Record AdjacencyList (T E : Type) := {
  Nodes : list T;
  Adj : list (list E);
  Roots : list nat
}.
Arguments Build_AdjacencyList {T E} Nodes Adj Roots.
Arguments Nodes {T E}.
Arguments Adj {T E}.
Arguments Roots {T E}.

Module GraphTraits.
Section traits.
Context {T E W : Type} `{!Inhabited T} `{!EqDecision E} `{!GraphEdge E W}.
Implicit Types (G : AdjacencyList T E).

Definition empty : AdjacencyList T E := Build_AdjacencyList [] [] [].

Definition addNode G (Val : T) : nat * AdjacencyList T E :=
  (length (Nodes G), Build_AdjacencyList (Nodes G ++ [Val]) (Adj G ++ [[]]) (Roots G)).

Definition addRoot G (Vtx : nat) : AdjacencyList T E :=
  Build_AdjacencyList (Nodes G) (Adj G) (Roots G ++ [Vtx]).

Definition addEdge G (From : nat) (To : E) : AdjacencyList T E :=
  Build_AdjacencyList (Nodes G) (alter (λ es, es ++ [To]) From (Adj G)) (Roots G).

Definition outEdges G (Vtx : nat) : list E := Adj G !!! Vtx.
Definition outDegree G (Vtx : nat) : nat := length (Adj G !!! Vtx).
Definition vertices G : list nat := seq 0 (length (Adj G)).
Definition node G (Vtx : nat) : T := Nodes G !!! Vtx.
Definition size G : nat := length (Adj G).
Definition roots_size G : nat := length (Roots G).

(** [std::unique]: of equal neighbours only the first is kept. *)
Fixpoint unique (es : list E) : list E :=
  match es with
  | e :: (f :: _) as rest => if decide (e = f) then unique rest else e :: unique rest
  | _ => es
  end.

(** The loop of [std::remove]s for edges without an order. *)
Fixpoint remove_loop (todo : nat) (es : list E) : list E :=
  match todo, es with
  | S todo, e :: rest => e :: remove_loop todo (filter (λ f, f ≠ e) rest)
  | _, _ => es
  end.

(** [std::sort] by an order. *)
Definition not_greater (lt : E → E → bool) (e f : E) : Prop := lt f e = false.
#[global] Instance not_greater_dec lt e f : Decision (not_greater lt e f).
Proof. unfold not_greater. apply _. Defined.

Definition dedup (es : list E) : list E :=
  match edge_less with
  | Some lt => unique (merge_sort (not_greater lt) es)
  | None => remove_loop (length es) es
  end.

Definition dedupOutEdges G (Vtx : nat) : AdjacencyList T E :=
  Build_AdjacencyList (Nodes G) (alter dedup Vtx (Adj G)) (Roots G).

(** Removing the last node, if it is [Vtx]. *)
Definition pop G (Vtx : nat) : bool * AdjacencyList T E :=
  if decide (S Vtx = length (Adj G))
  then (true, Build_AdjacencyList (take Vtx (Nodes G)) (take Vtx (Adj G)) (Roots G))
  else (false, G).

(** [std::swap(l\[Idx\], l.back()); l.pop_back()]. *)
Definition swap_remove {A} (Idx : nat) (l : list A) : list A :=
  match last l with
  | Some x => take (length l - 1) (<[Idx := x]> l)
  | None => l
  end.

Definition removeEdge G (Vtx Idx : nat) : AdjacencyList T E :=
  Build_AdjacencyList (Nodes G) (alter (swap_remove Idx) Vtx (Adj G)) (Roots G).

Definition removeRoot G (Idx : nat) : AdjacencyList T E :=
  Build_AdjacencyList (Nodes G) (Adj G) (swap_remove Idx (Roots G)).

(** [reverseGraph]: the vertices without outgoing edges become the roots. *)
Definition reverse_edges G (I : nat) (Ret : AdjacencyList T E) : AdjacencyList T E :=
  let Ret := for_each (outEdges G I) (λ Child Ret, addEdge Ret (target Child) (withEdgeTarget Child I)) Ret in
  if decide (outDegree G I = 0) then addRoot Ret I else Ret.

Definition reverseGraph G : AdjacencyList T E :=
  let Ret := for_each (Nodes G) (λ Nod Ret, (addNode Ret Nod).2) empty in
  for_each (vertices G) (reverse_edges G) Ret.
End traits.
End GraphTraits.

(** * Well-formed graphs *)

Section wf.
Context {T E W : Type} `{!Inhabited T} `{!EqDecision E} `{!GraphEdge E W}.
Import GraphTraits.
Implicit Types (G : AdjacencyList T E).

(** The assertions of the traits: as many nodes as adjacency lists, targets and
    roots in range. *)
Record graph_wf G : Prop := {
  gw_len : length (Nodes G) = length (Adj G);
  gw_target v e : e ∈ outEdges G v → target e < size G;
  gw_roots v : v ∈ Roots G → v < size G
}.

Lemma outEdges_lt G v e : e ∈ outEdges G v → v < size G.
Proof.
  unfold outEdges, size. intros He. destruct (decide (v < length (Adj G))) as [|Hge]; [done|].
  rewrite list_lookup_total_alt, lookup_ge_None_2 in He by lia. by apply elem_of_nil in He.
Qed.
End wf.

Import GraphTraits.

Section dedup.
Context {E W : Type} `{!EqDecision E} `{!GraphEdge E W} `{!GraphEdgeLaws E W}.
Implicit Types (es : list E).

Lemma elem_of_unique es e : e ∈ unique es ↔ e ∈ es.
Proof.
  induction es as [|f es IH]; [done|]. destruct es as [|g es]; [done|].
  change (unique (f :: g :: es)) with (if decide (f = g) then unique (g :: es) else f :: unique (g :: es)).
  case_decide; set_solver.
Qed.

Lemma NoDup_unique lt es :
  edge_less = Some lt → StronglySorted (not_greater lt) es → NoDup (unique es).
Proof.
  intros Hlt. induction es as [|f es IH]; intros Hs; [constructor|].
  apply StronglySorted_inv in Hs as [Hs Hf]. destruct es as [|g es]; [apply NoDup_singleton|].
  change (unique (f :: g :: es)) with (if decide (f = g) then unique (g :: es) else f :: unique (g :: es)).
  case_decide as Hfg; [auto|]. apply NoDup_cons. split; [|auto]. rewrite elem_of_unique.
  intros Hin. apply Hfg. apply Forall_cons in Hf as [Hle _].
  apply (edge_less_total lt); [done| |done].
  apply elem_of_cons in Hin as [->|Hin]; [done|].
  apply StronglySorted_inv in Hs as [_ Hg]. rewrite Forall_forall in Hg. by apply Hg.
Qed.

Lemma elem_of_remove_loop todo es e : e ∈ remove_loop todo es ↔ e ∈ es.
Proof.
  revert es. induction todo as [|todo IH]; intros [|f es]; try done. simpl.
  rewrite !elem_of_cons, IH, list_elem_of_filter. destruct (decide (e = f)); naive_solver.
Qed.

Lemma NoDup_remove_loop todo es : length es ≤ todo → NoDup (remove_loop todo es).
Proof.
  revert es. induction todo as [|todo IH]; intros [|f es] Hl; simpl in *; try constructor; [lia|lia|..].
  - rewrite elem_of_remove_loop, list_elem_of_filter. naive_solver.
  - apply IH. pose proof (length_filter (λ g, g ≠ f) es). lia.
Qed.

Lemma elem_of_dedup es e : e ∈ dedup es ↔ e ∈ es.
Proof.
  unfold dedup. destruct edge_less as [lt|]; [|apply elem_of_remove_loop].
  by rewrite elem_of_unique, merge_sort_Permutation.
Qed.

Lemma NoDup_dedup es : NoDup (dedup es).
Proof.
  unfold dedup. destruct edge_less as [lt|] eqn:Hlt; [|by apply NoDup_remove_loop].
  apply (NoDup_unique lt); [done|]. apply StronglySorted_merge_sort.
  - intros e f g. unfold not_greater. intros H1 H2. by apply (edge_less_trans lt g f e).
  - intros e f. unfold not_greater. destruct (lt f e) eqn:H1; [right|by left].
    by apply (edge_less_asym lt f e).
Qed.
End dedup.

(** * Reversal *)

Section reverse.
Context {T E W : Type} `{!Inhabited T} `{!EqDecision E} `{!GraphEdge E W} `{!GraphEdgeLaws E W}.
Implicit Types (G R Ret : AdjacencyList T E).

Lemma addEdge_out G From e v :
  From < size G → outEdges (addEdge G From e) v = outEdges G v ++ (if decide (From = v) then [e] else []).
Proof.
  intros HF. unfold outEdges, addEdge. simpl. case_decide as Hv.
  - subst v. by rewrite list_lookup_total_alter_eq.
  - by rewrite list_lookup_total_alter_ne, app_nil_r.
Qed.

(** The edges into [v] that come from [I], turned around. *)
Definition turned G (v I : nat) : list E :=
  (λ e, withEdgeTarget e I) <$> filter (λ e, target e = v) (outEdges G I).

Record reversed G (Is : list nat) (Ret : AdjacencyList T E) : Prop := {
  rv_nodes : Nodes Ret = Nodes G;
  rv_size : size Ret = size G;
  rv_out v : v < size G → outEdges Ret v = Is ≫= turned G v;
  rv_roots : Roots Ret = filter (λ v, outDegree G v = 0) Is
}.

Lemma turned_loop G I es Ret :
  (∀ e, e ∈ es → target e < size Ret) →
  let Ret' := for_each es (λ e R, addEdge R (target e) (withEdgeTarget e I)) Ret in
  Nodes Ret' = Nodes Ret ∧ size Ret' = size Ret ∧ Roots Ret' = Roots Ret
  ∧ ∀ v, outEdges Ret' v = outEdges Ret v ++ ((λ e, withEdgeTarget e I) <$> filter (λ e, target e = v) es).
Proof.
  intros Hes. apply (for_each_ind (λ es R, Nodes R = Nodes Ret ∧ size R = size Ret ∧ Roots R = Roots Ret
    ∧ ∀ v, outEdges R v = outEdges Ret v ++ ((λ e, withEdgeTarget e I) <$> filter (λ e, target e = v) es))).
  - split_and!; try done. intros v. by rewrite app_nil_r.
  - intros es' e R He (HN & HS & HR & HO). split_and!; simpl; try done.
    + unfold size in *. simpl. by rewrite length_alter.
    + intros v. rewrite addEdge_out, HO, filter_app, fmap_app, <-app_assoc by (rewrite HS; auto).
      f_equal. f_equal. rewrite filter_cons, filter_nil. by case_decide.
Qed.

Lemma reverse_edges_spec G Is I Ret :
  graph_wf G → reversed G Is Ret → reversed G (Is ++ [I]) (reverse_edges G I Ret).
Proof.
  intros Hwf [HN HS HO HR].
  destruct (turned_loop G I (outEdges G I) Ret) as (HN' & HS' & HR' & HO').
  { intros e He. rewrite HS. by apply (gw_target G Hwf I). }
  unfold reverse_edges. set (Ret' := for_each _ _ _) in *.
  assert (∀ v, v < size G → outEdges Ret' v = (Is ++ [I]) ≫= turned G v) as Hout.
  { intros v Hv. rewrite HO', HO, bind_app by done. simpl. by rewrite app_nil_r. }
  case_decide as Hd; split; simpl; try congruence; try done.
  - change (size Ret' = size G). congruence.
  - by rewrite HR', HR, filter_app, filter_cons_True, filter_nil.
  - by rewrite HR', HR, filter_app, filter_cons_False, filter_nil, app_nil_r.
Qed.

Lemma reverseGraph_spec G : graph_wf G → reversed G (vertices G) (reverseGraph G).
Proof.
  intros Hwf. unfold reverseGraph.
  assert (∀ l : list T, let R := for_each l (λ Nod (R : AdjacencyList T E), (addNode R Nod).2) empty in
    Nodes R = l ∧ size R = length l ∧ Roots R = [] ∧ ∀ v, outEdges R v = []) as Hn.
  { intros l. apply (for_each_ind (λ l R, Nodes R = l ∧ size R = length l ∧ Roots R = []
      ∧ ∀ v, outEdges R v = [])); [split_and!; try done|].
    intros l' x R _ (HN & HS & HR & HO). unfold size in *. simpl. rewrite HN, !length_app, HS. split_and!; try done.
    intros v. unfold outEdges in *. simpl. rewrite list_lookup_total_alt.
    destruct (decide (v < length (Adj R))) as [|Hge].
    - rewrite lookup_app_l by done. specialize (HO v). by rewrite list_lookup_total_alt in HO.
    - rewrite lookup_app_r by lia. by destruct (v - length (Adj R)) as [|[]]. }
  destruct (Hn (Nodes G)) as (HN & HS & HR & HO).
  apply (for_each_ind (reversed G)).
  - split; try done. by rewrite HS, (gw_len G Hwf).
  - intros Is I R _ Hrev. by apply reverse_edges_spec.
Qed.

Lemma elem_of_reverse G v e :
  graph_wf G → e ∈ outEdges (reverseGraph G) v ↔
    v < size G ∧ ∃ I f, f ∈ outEdges G I ∧ target f = v ∧ e = withEdgeTarget f I.
Proof.
  intros Hwf. destruct (reverseGraph_spec G Hwf) as [HN HS HO HR]. split.
  - intros He. pose proof (outEdges_lt _ _ _ He) as Hv. rewrite HS in Hv. split; [done|].
    rewrite HO in He by done. apply list_elem_of_bind in He as (I & He & _).
    apply list_elem_of_fmap in He as (f & -> & [Hf Hin]%list_elem_of_filter). by exists I, f.
  - intros (Hv & I & f & Hf & Ht & ->). rewrite HO by done. apply list_elem_of_bind. exists I. split.
    + apply list_elem_of_fmap. exists f. split; [done|]. by apply list_elem_of_filter.
    + unfold vertices. apply elem_of_seq. apply outEdges_lt in Hf. unfold size in Hf. lia.
Qed.

Lemma reverse_wf G : graph_wf G → graph_wf (reverseGraph G).
Proof.
  intros Hwf. pose proof (reverseGraph_spec G Hwf) as [HN HS HO HR]. split.
  - rewrite HN, (gw_len G Hwf). unfold size in HS. by rewrite HS.
  - intros v e He%elem_of_reverse; [|done]. destruct He as (Hv & I & f & Hf & _ & ->).
    rewrite target_withEdgeTarget, HS. by apply outEdges_lt in Hf.
  - intros v. rewrite HR, list_elem_of_filter, HS. unfold vertices, size. rewrite elem_of_seq. lia.
Qed.

(** Sorting by targets keeps every edge. *)
Lemma bind_by_target n (es : list E) :
  (∀ e, e ∈ es → target e < n) → (seq 0 n ≫= λ I, filter (λ e, target e = I) es) ≡ₚ es.
Proof.
  induction es as [|e es IH]; intros Hes.
  - induction (seq 0 n) as [|I Is IHs]; [done|]. simpl. done.
  - trans (e :: (seq 0 n ≫= λ I, filter (λ e, target e = I) es)); [|by rewrite IH by set_solver].
    specialize (Hes e (list_elem_of_here _ _)).
    clear IH.
    replace n with (target e + S (n - target e - 1)) by lia. rewrite seq_app. simpl.
    rewrite !bind_app, !bind_cons. simpl. rewrite filter_cons_True by done.
    assert (∀ Is, target e ∉ Is →
      (Is ≫= λ I, filter (λ f, target f = I) (e :: es)) = (Is ≫= λ I, filter (λ f, target f = I) es)) as Hskip.
    { induction Is as [|I Is IH]; intros Hni; [done|]. rewrite !bind_cons.
      apply not_elem_of_cons in Hni as [Hne Hni]. rewrite IH, filter_cons_False by (done || congruence). done. }
    rewrite !Hskip; [|rewrite elem_of_seq; lia..]. symmetry. apply (Permutation_middle _ (_ ++ _)).
Qed.

Lemma reverse_twice_out G v :
  graph_wf G → v < size G → outEdges (reverseGraph (reverseGraph G)) v ≡ₚ outEdges G v.
Proof.
  intros Hwf Hv. pose proof (reverse_wf G Hwf) as Hwf'.
  destruct (reverseGraph_spec G Hwf) as [_ HS HO _]. destruct (reverseGraph_spec _ Hwf') as [_ _ HO' _].
  rewrite HO' by (by rewrite HS). unfold vertices at 1. fold (size (reverseGraph G)). rewrite HS.
  etrans; [|apply (bind_by_target (size G)); intros e; apply (gw_target G Hwf)].
  assert (∀ Is, (∀ I, I ∈ Is → I < size G) →
    (Is ≫= turned (reverseGraph G) v) = (Is ≫= λ I, filter (λ e, target e = I) (outEdges G v))) as Heq;
    [|rewrite Heq; [done|intros I; rewrite elem_of_seq; lia]].
  induction Is as [|I Is IH]; intros HIs; [done|]. rewrite !bind_cons, IH by set_solver. f_equal.
  unfold turned at 1. rewrite HO by set_solver.
  assert (∀ Js, filter (λ e, target e = v) (Js ≫= turned G I)
    = (Js ≫= λ J, if decide (J = v) then turned G I J else [])) as ->.
  { induction Js as [|J Js IHJ]; [done|]. rewrite !bind_cons, filter_app, IHJ. f_equal. unfold turned.
    induction (filter (λ e, target e = I) (outEdges G J)) as [|e es IHe]; [by case_decide|].
    rewrite fmap_cons, filter_cons, target_withEdgeTarget, IHe. by repeat case_decide. }
  assert ((vertices G ≫= λ J, if decide (J = v) then turned G I J else []) = turned G I v) as ->.
  { unfold vertices. fold (size G). replace (size G) with (v + S (size G - v - 1)) by lia. rewrite seq_app. simpl. rewrite bind_app, bind_cons.
    rewrite decide_True by done.
    assert (∀ Js, v ∉ Js → (Js ≫= λ J, if decide (J = v) then turned G I J else []) = []) as Hskip.
    { induction Js as [|J Js IHJ]; intros Hni; [done|]. apply not_elem_of_cons in Hni as [? ?].
      rewrite bind_cons, decide_False by congruence. by apply IHJ. }
    rewrite !Hskip; [by rewrite app_nil_r|rewrite elem_of_seq; lia..]. }
  unfold turned. rewrite <-list_fmap_compose. rewrite <-(list_fmap_id (filter _ _)) at 2.
  apply list_fmap_ext. intros i e [Ht _]%list_elem_of_lookup_2%list_elem_of_filter. simpl.
  apply edge_ext; by rewrite ?target_withEdgeTarget, ?weight_withEdgeTarget.
Qed.
End reverse.
