(* ===== verification/DFAMinimizer.v ===== *)
(** Merging equivalent vertices of a graph (Utils/DFAMinimizer.h).

    The minimizer merges only vertices with the same labels and successors, up
    to what it merges, and merges all with the same finite unfolding; the graph
    made from the classes has the same labelled paths. *)
From S2P Require Import Prelude UnionFind Graph.
From stdpp Require Import relations.
Import GraphTraits.

(** * [minimizeGraph] *)

Section minimize.
Context {T E W U : Type} `{!Inhabited T} `{!EqDecision T} `{!EqDecision E} `{!EqDecision W}.
Context `{!GraphEdge E W} `{!IntEqClasses U}.
Implicit Types (G : AdjacencyList T E) (Equiv : U).

(** The pairs of vertices that may be equivalent. *)
Definition candidates G : list (nat * nat) :=
  vertices G ≫= λ VtxBegin,
    (λ Inner, (VtxBegin, Inner)) <$>
    filter (λ Inner, node G VtxBegin = node G Inner ∧ outDegree G VtxBegin = outDegree G Inner)
      (seq (VtxBegin + 1) (size G - (VtxBegin + 1))).

Definition isEquivalent Equiv (LHS RHS : E) : bool :=
  if decide (weight LHS ≠ weight RHS) then false
  else if decide (target LHS = target RHS) then true
  else bool_decide (ec_findLeader Equiv (target LHS) = ec_findLeader Equiv (target RHS)).

Definition makeEquivalent (LHS RHS : nat) Equiv : U :=
  if decide (LHS = RHS) then Equiv else (ec_join LHS RHS Equiv).2.

(** The edges agree one by one, or two edges crosswise. *)
Definition same_successors G Equiv (LHS RHS : nat) : bool :=
  forallb (λ LR, isEquivalent Equiv LR.1 LR.2) (zip (outEdges G LHS) (outEdges G RHS)).

Definition crossed_successors G Equiv (LHS RHS : nat) : bool :=
  match outEdges G LHS, outEdges G RHS with
  | [LFirst; LSecond], RFirst :: RSecond :: _ =>
    isEquivalent Equiv LFirst RSecond && isEquivalent Equiv LSecond RFirst
  | _, _ => false
  end.

(** The inner loop from index [I] on, with [todo = WorkList.size() - I]. *)
Fixpoint minimize_pass G (todo I : nat) (WorkList : list (nat * nat)) Equiv (Changed : bool) :
    list (nat * nat) * U * bool :=
  match todo with
  | 0 => (WorkList, Equiv, Changed)
  | S todo =>
    let '(LHS, RHS) := WorkList !!! I in
    if same_successors G Equiv LHS RHS then
      minimize_pass G todo I (swap_remove I WorkList) (makeEquivalent LHS RHS Equiv) true
    else if crossed_successors G Equiv LHS RHS then
      minimize_pass G todo I (swap_remove I WorkList) (makeEquivalent LHS RHS Equiv) true
    else minimize_pass G todo (I + 1) WorkList Equiv Changed
  end.

Fixpoint minimize_loop G (fuel : nat) (WorkList : list (nat * nat)) Equiv : option U :=
  match fuel with
  | 0 => None
  | S fuel =>
    let '(WorkList, Equiv, Changed) := minimize_pass G (length WorkList) 0 WorkList Equiv false in
    if Changed : bool then minimize_loop G fuel WorkList Equiv else Some Equiv
  end.

Definition minimizeGraph (fuel : nat) G : option U :=
  Equiv ← minimize_loop G fuel (candidates G) (ec_grow (size G) ec_empty);
  Some (ec_compress Equiv).
End minimize.

(** * [createEquivalentGraphFrom] *)

Module createEquivalentGraphFrom.
Section create.
Context {T E W U : Type} `{!Inhabited T} `{!EqDecision E} `{!GraphEdge E W} `{!IntEqClasses U}.
Context (G : AdjacencyList T E) (Eq : U).

(** [WorkList] is a stack: its back is the head of the list. [None] in [Eq2Vtx]
    is [Invalid]. *)
Record state := State {
  Ret : AdjacencyList T E;
  Handled : list bool;
  Eq2Vtx : list (option nat);
  WorkList : list nat
}.

Definition initial_state : state :=
  State empty (replicate (size G) false) (replicate (ec_getNumClasses Eq) None) [].

(** The node of the class of [Vtx] in the new graph. *)
Definition node_of (Vtx : nat) (s : state) : option nat := Eq2Vtx s !!! ec_index Eq Vtx.

(** Adding that node, if there is none. *)
Definition ensure_node (Vtx : nat) (s : state) : state :=
  match node_of Vtx s with
  | Some _ => s
  | None =>
    let '(Nw, Ret) := addNode (Ret s) (node G Vtx) in
    State Ret (Handled s) (<[ec_index Eq Vtx := Some Nw]> (Eq2Vtx s)) (WorkList s)
  end.

Definition push (Vtx : nat) (s : state) : state :=
  State (Ret s) (Handled s) (Eq2Vtx s) (Vtx :: WorkList s).

Definition set_Ret (R : AdjacencyList T E) (s : state) : state :=
  State R (Handled s) (Eq2Vtx s) (WorkList s).

Definition add_root (Rt : nat) (s : state) : state :=
  let s' := match node_of Rt s with
            | Some _ => s
            | None => let s := ensure_node Rt s in set_Ret (addRoot (Ret s) (default 0 (node_of Rt s))) s
            end in
  push Rt s'.

(** One outgoing edge of a vertex whose node is [NwVtx]. *)
Definition handle_edge (NwVtx : nat) (Edge : E) (s : state) : state :=
  let s := ensure_node (target Edge) s in
  let s := if (Handled s !!! target Edge : bool) then s else push (target Edge) s in
  set_Ret (addEdge (Ret s) NwVtx (withEdgeTarget Edge (default 0 (node_of (target Edge) s)))) s.

Definition handle_vertex (Vtx : nat) (s : state) : state :=
  let NwVtx := default 0 (node_of Vtx s) in
  let s := State (Ret s) (<[Vtx := true]> (Handled s)) (Eq2Vtx s) (WorkList s) in
  for_each (outEdges G Vtx) (handle_edge NwVtx) s.

Fixpoint loop (fuel : nat) (s : state) : option state :=
  match WorkList s with
  | [] => Some s
  | Vtx :: rest =>
    match fuel with
    | 0 => None
    | S fuel => loop fuel (handle_vertex Vtx (State (Ret s) (Handled s) (Eq2Vtx s) rest))
    end
  end.

Definition create (fuel : nat) : option (AdjacencyList T E) :=
  s ← loop fuel (for_each (Roots G) add_root initial_state);
  Some (for_each (vertices (Ret s)) (λ Vtx R, dedupOutEdges R Vtx) (Ret s)).
End create.
End createEquivalentGraphFrom.

Import GraphTraits.

(** * [swap_remove] *)

Section swap_remove.
Context {A : Type}.
Implicit Types (l : list A).

Lemma swap_remove_snoc I l x : swap_remove I (l ++ [x]) = <[I := x]> l.
Proof.
  unfold swap_remove. rewrite last_snoc, length_app. simpl.
  replace (length l + 1 - 1) with (length l) by lia.
  destruct (decide (I < length l)).
  - rewrite insert_app_l by done. rewrite <-(length_insert l I x). by rewrite take_app_length.
  - rewrite insert_app_r_alt by lia. rewrite take_app_length. by rewrite list_insert_ge by lia.
Qed.

Lemma length_swap_remove I l : length (swap_remove I l) = length l - 1.
Proof.
  destruct l as [|x l _] using rev_ind; [done|]. rewrite swap_remove_snoc, length_insert, length_app. simpl. lia.
Qed.

Lemma elem_of_swap_remove I l x : x ∈ swap_remove I l → x ∈ l.
Proof.
  destruct l as [|y l _] using rev_ind; [done|]. rewrite swap_remove_snoc, elem_of_app.
  intros (i & Hi)%list_elem_of_lookup. destruct (decide (I = i)) as [->|Hne].
  - rewrite list_lookup_insert in Hi. case_decide; simplify_eq; [right; by apply list_elem_of_singleton|].
    left. by eapply list_elem_of_lookup_2.
  - rewrite list_lookup_insert_ne in Hi by done. left. by eapply list_elem_of_lookup_2.
Qed.

Lemma swap_remove_elem_of `{!Inhabited A} I l x :
  I < length l → x ∈ l → x = l !!! I ∨ x ∈ swap_remove I l.
Proof.
  destruct l as [|y l _] using rev_ind; [simpl; lia|]. rewrite swap_remove_snoc, length_app. simpl. intros HI.
  intros [(i & Hi)%list_elem_of_lookup| ->%list_elem_of_singleton]%elem_of_app.
  - destruct (decide (I = i)) as [->|Hne].
    + left. symmetry. apply list_lookup_total_correct. by apply lookup_app_l_Some.
    + right. apply (list_elem_of_lookup_2 _ i). by rewrite list_lookup_insert_ne.
  - destruct (decide (I = length l)) as [->|Hne].
    + left. symmetry. apply list_lookup_total_correct. by rewrite lookup_app_r, Nat.sub_diag.
    + right. apply (list_elem_of_lookup_2 _ I). apply list_lookup_insert_eq. lia.
Qed.
End swap_remove.

(** * [minimizeGraph] *)

Section minimize.
Context {T E W U : Type} `{!Inhabited T} `{!EqDecision T} `{!EqDecision E} `{!EqDecision W}.
Context `{!GraphEdge E W} `{!GraphEdgeLaws E W} `{!IntEqClasses U} `{!IntEqClassesLaws U}.
Context (G : AdjacencyList T E) (Hwf : graph_wf G).
Implicit Types (u : U) (WL : list (nat * nat)).

(** Same label, and the same edges up to classes. *)
Definition edge_class u (e : E) : W * nat := (weight e, UnionFind.find u (target e)).
Definition matching u (x y : nat) : Prop :=
  node G x = node G y ∧ (edge_class u <$> outEdges G x) ≡ₚ (edge_class u <$> outEdges G y).

#[local] Instance matching_equiv u : Equivalence (matching u).
Proof.
  split.
  - by intros x.
  - intros x y [??]. by split.
  - intros x y z [??] [??]. split; congruence || by etrans.
Qed.

Lemma matching_coarser u u' x y :
  ec_capacity u = size G → (∀ a b, a < size G → b < size G → same u a b → same u' a b) →
  matching u x y → matching u' x y.
Proof.
  intros Hc Hs [Hn Hp]. split; [done|].
  assert (∀ v, edge_class u' <$> outEdges G v
    = (λ c : W * nat, (c.1, UnionFind.find u' c.2)) <$> (edge_class u <$> outEdges G v)) as Heq.
  { intros v. rewrite <-list_fmap_compose. apply list_fmap_ext. intros i e He%list_elem_of_lookup_2.
    unfold edge_class. simpl. f_equal. apply (gw_target G Hwf) in He. symmetry. apply Hs; [|done|].
    - rewrite <-Hc. apply find_lt. by rewrite Hc.
    - apply find_same. by rewrite Hc. }
  by rewrite !Heq, Hp.
Qed.

Lemma isEquivalent_class u e f : isEquivalent u e f → edge_class u e = edge_class u f.
Proof.
  unfold isEquivalent, edge_class. case_decide as Hw; [done|]. case_decide as Ht.
  - intros _. rewrite Ht. f_equal. by destruct (decide (weight e = weight f)).
  - intros Hl%bool_decide_unpack. f_equal; [|done]. by destruct (decide (weight e = weight f)).
Qed.

Lemma same_successors_match u x y :
  outDegree G x = outDegree G y → same_successors G u x y →
  (edge_class u <$> outEdges G x) = (edge_class u <$> outEdges G y).
Proof.
  unfold same_successors, outDegree, outEdges. generalize (Adj G !!! x) (Adj G !!! y).
  induction l as [|e es IH]; intros [|f fs] Hl; try done. simpl. intros [He Hs]%andb_prop_elim.
  f_equal; [by apply isEquivalent_class|]. apply IH; [by injection Hl|done].
Qed.

Lemma crossed_successors_match u x y :
  outDegree G x = outDegree G y → crossed_successors G u x y →
  (edge_class u <$> outEdges G x) ≡ₚ (edge_class u <$> outEdges G y).
Proof.
  unfold crossed_successors, outDegree, outEdges. generalize (Adj G !!! x) (Adj G !!! y).
  intros [|e1 [|e2 []]] [|f1 [|f2 []]] Hl; try done. intros [H1 H2]%andb_prop_elim. simpl.
  apply isEquivalent_class in H1, H2. rewrite H1, H2. constructor.
Qed.

Record min_ok WL u : Prop := {
  mo_cap : ec_capacity u = size G;
  mo_range L R : (L, R) ∈ WL →
    L < size G ∧ R < size G ∧ node G L = node G R ∧ outDegree G L = outDegree G R;
  mo_match x y : x < size G → y < size G → same u x y → matching u x y;
  mo_done L R : (L, R) ∈ candidates G → (L, R) ∈ WL ∨ same u L R
}.

Lemma join_match u L R x y :
  ec_capacity u = size G → (∀ x y, x < size G → y < size G → same u x y → matching u x y) →
  L < size G → R < size G → matching u L R → x < size G → y < size G →
  same (ec_join L R u).2 x y → matching (ec_join L R u).2 x y.
Proof.
  intros Hc Hm HL HR HLR Hx Hy Hs.
  apply (matching_coarser u); [done| |].
  { intros a b Ha Hb Hab. apply (same_join_l L R); by rewrite ?Hc. }
  apply same_join in Hs; [|by rewrite Hc..].
  assert (∀ z, z < size G → same u z L ∨ same u z R → matching u L z) as Hz.
  { intros z Hz [Hs'|Hs']; [symmetry; auto|]. etrans; [exact HLR|]. symmetry. auto. }
  destruct Hs as [Hs|[HxLR HyLR]]; [auto|]. etrans; [symmetry|]; eauto.
Qed.

Lemma makeEquivalent_ok WL u I :
  min_ok WL u → I < length WL → matching u (WL !!! I).1 (WL !!! I).2 →
  min_ok (swap_remove I WL) (makeEquivalent (WL !!! I).1 (WL !!! I).2 u).
Proof.
  intros [Hc Hr Hm Hd] HI HLR. destruct (WL !!! I) as [L R] eqn:HWI. simpl in *.
  destruct (Hr L R) as (HL & HR & _).
  { rewrite <-HWI. apply list_elem_of_lookup_total_2. done. }
  assert (∀ a b, a < size G → b < size G → same u a b → same (makeEquivalent L R u) a b) as Hmono.
  { unfold makeEquivalent. intros a b Ha Hb Hab. case_decide; [done|].
    apply (same_join_l L R); by rewrite ?Hc. }
  split.
  - unfold makeEquivalent. case_decide; [done|]. by rewrite capacity_join.
  - intros a b Hab%elem_of_swap_remove. auto.
  - unfold makeEquivalent. case_decide; [done|]. intros x y Hx Hy. by apply join_match.
  - intros a b Hab. assert (a < size G ∧ b < size G) as [Ha Hb].
    { unfold candidates in Hab. apply list_elem_of_bind in Hab as (z & Hz & Hv).
      apply list_elem_of_fmap in Hz as (z' & [= -> ->] & [_ Hz']%list_elem_of_filter).
      apply elem_of_seq in Hz'. unfold vertices in Hv. apply elem_of_seq in Hv. unfold size in *. lia. }
    destruct (Hd a b Hab) as [Hin|Hs]; [|right; auto].
    destruct (swap_remove_elem_of I WL (a, b) HI Hin) as [Heq|?]; [|by left]. right.
    injection (eq_trans Heq HWI) as -> ->. unfold makeEquivalent. case_decide; [by subst|].
    apply same_join; rewrite ?Hc; try done. right. split; [left|right]; done.
Qed.

(** A pair that both checks turn down. *)
Definition refused u (LR : nat * nat) : Prop :=
  same_successors G u LR.1 LR.2 = false ∧ crossed_successors G u LR.1 LR.2 = false.

(** What a pass over the work list leaves. *)
Record pass_result WL u (I : nat) (Changed : bool) (r : list (nat * nat) * U * bool) : Prop := {
  pr_ok : min_ok r.1.1 r.1.2;
  pr_le : length r.1.1 ≤ length WL;
  pr_lt : r.2 = true → Changed = true ∨ length r.1.1 < length WL;
  pr_same : r.2 = false → Changed = false ∧ r.1 = (WL, u)
    ∧ ∀ k, I ≤ k < length WL → refused u (WL !!! k)
}.

Lemma minimize_pass_spec todo I WL u Changed :
  min_ok WL u → I + todo = length WL → pass_result WL u I Changed (minimize_pass G todo I WL u Changed).
Proof.
  revert I WL u Changed. induction todo as [|todo IH]; intros I WL u Changed Hok Hlen.
  - split; simpl; [done|done|by left|]. intros ->. split_and!; [done|done|lia].
  - cbn [minimize_pass]. destruct (WL !!! I) as [L R] eqn:HI.
    assert (L < size G ∧ R < size G ∧ node G L = node G R ∧ outDegree G L = outDegree G R)
      as (_ & _ & Hn & Hd).
    { apply (mo_range _ _ Hok). rewrite <-HI. apply list_elem_of_lookup_total_2. lia. }
    assert (matching u L R → pass_result WL u I Changed
      (minimize_pass G todo I (swap_remove I WL) (makeEquivalent L R u) true)) as Hjoin.
    { intros Hm. pose proof (makeEquivalent_ok WL u I Hok) as Hok'. rewrite HI in Hok'.
      pose proof (length_swap_remove I WL) as Hl.
      destruct (IH I (swap_remove I WL) (makeEquivalent L R u) true) as [H1 H2 H3 H4];
        [apply Hok'; [lia|done]|lia|].
      split; [done|lia|intros _; right; lia|]. intros Hr. by destruct (H4 Hr). }
    destruct (same_successors G u L R) eqn:Hs.
    { apply Hjoin. split; [done|]. rewrite (same_successors_match u L R Hd); [done|by rewrite Hs]. }
    destruct (crossed_successors G u L R) eqn:Hcr.
    { apply Hjoin. split; [done|]. apply (crossed_successors_match u L R Hd). by rewrite Hcr. }
    destruct (IH (I + 1) WL u Changed Hok) as [H1 H2 H3 H4]; [lia|]. split; [done..|].
    intros Hr. destruct (H4 Hr) as (? & ? & Hk). split_and!; [done..|]. intros k Hk'.
    destruct (decide (k = I)) as [->|]; [|apply Hk; lia]. unfold refused. rewrite HI. by split.
Qed.

Lemma minimize_loop_spec fuel WL u :
  min_ok WL u → length WL < fuel →
  ∃ WL' u', (∀ fuel', fuel ≤ fuel' → minimize_loop G fuel' WL u = Some u') ∧ min_ok WL' u' ∧ ∀ LR, LR ∈ WL' → refused u' LR.
Proof.
  revert WL u. induction fuel as [|fuel IH]; intros WL u Hok Hl; [lia|].
  pose proof (minimize_pass_spec (length WL) 0 WL u false Hok eq_refl) as [H1 H2 H3 H4].
  destruct (minimize_pass G (length WL) 0 WL u false) as [[WL1 u1] Changed] eqn:Hpass. simpl in *.
  destruct Changed.
  - destruct (IH WL1 u1 H1) as (WL' & u' & Hu' & ? & ?); [destruct (H3 eq_refl); [done|lia]|].
    exists WL', u'. split_and!; [|done..]. intros [|fuel'] Hf; [lia|]. simpl. rewrite Hpass. apply Hu'. lia.
  - destruct (H4 eq_refl) as (_ & [= -> ->] & Hk). exists WL, u.
    split_and!; [intros [|fuel'] Hf; [lia|]; simpl; by rewrite Hpass|done|].
    intros LR (k & HkLR)%list_elem_of_lookup. rewrite <-(list_lookup_total_correct _ _ _ HkLR).
    apply Hk. apply lookup_lt_Some in HkLR. lia.
Qed.

Lemma elem_of_candidates L R :
  (L, R) ∈ candidates G ↔ L < R < size G ∧ node G L = node G R ∧ outDegree G L = outDegree G R.
Proof.
  unfold candidates. rewrite list_elem_of_bind. unfold vertices. split.
  - intros (v & (w & [= -> ->] & Hw)%list_elem_of_fmap & Hv%elem_of_seq).
    apply list_elem_of_filter in Hw as [[??] Hw%elem_of_seq]. lia || (split; [lia|done]).
  - intros (Hlt & Hn & Hd). exists L. split; [|apply elem_of_seq; unfold size in *; lia].
    apply list_elem_of_fmap. exists R. split; [done|]. apply list_elem_of_filter. split; [done|].
    apply elem_of_seq. lia.
Qed.

Lemma initial_min_ok : min_ok (candidates G) (ec_grow (size G) ec_empty : U).
Proof.
  split.
  - rewrite capacity_grow, capacity_empty. lia.
  - intros L R (? & ? & ?)%elem_of_candidates. split_and!; [lia..|done|done].
  - intros x y Hx Hy Hs. assert (x = y) as ->; [|reflexivity].
    apply (same_grow_new (size G) (ec_empty : U)); rewrite ?capacity_empty; [lia|lia|done].
  - auto.
Qed.

(** Vertices whose unfoldings are the same finite tree. *)
Inductive unfold_eq : nat → nat → Prop :=
  | unfold_eq_intro x y :
      node G x = node G y →
      Forall2 (λ e f, weight e = weight f ∧ unfold_eq (target e) (target f)) (outEdges G x) (outEdges G y) →
      unfold_eq x y.

Lemma unfold_eq_nested (P : nat → nat → Prop) :
  (∀ x y, node G x = node G y →
    Forall2 (λ e f, weight e = weight f ∧ P (target e) (target f)) (outEdges G x) (outEdges G y) → P x y) →
  ∀ x y, unfold_eq x y → P x y.
Proof.
  intros HP. fix IH 3. intros x y [x' y' Hn HF]. apply HP; [done|].
  revert HF. generalize (outEdges G x') (outEdges G y').
  induction 1 as [|e f es fs [Hw Ht] _ IHF]; constructor; [|exact IHF]. split; [exact Hw|]. exact (IH _ _ Ht).
Qed.

Lemma isEquivalent_intro u e f :
  weight e = weight f → same u (target e) (target f) → isEquivalent u e f.
Proof.
  intros Hw Hs. unfold isEquivalent. rewrite decide_False by congruence.
  case_decide; [done|]. by apply bool_decide_pack.
Qed.

Lemma refused_unfold u :
  (∀ L R, (L, R) ∈ candidates G → refused u (L, R) ∨ same u L R) →
  ∀ x y, unfold_eq x y → x < size G → y < size G → same u x y.
Proof.
  intros Hu. apply (unfold_eq_nested (λ x y, x < size G → y < size G → same u x y)). intros x y Hn HF Hx Hy.
  assert (outDegree G x = outDegree G y) as Hd by (by apply Forall2_length in HF).
  assert (same_successors G u x y ∧ same_successors G u y x) as [Hxy Hyx].
  { pose proof (gw_target G Hwf x) as Htx. pose proof (gw_target G Hwf y) as Hty. unfold same_successors.
    induction HF as [|e f es fs [Hw Ht] HF IH]; [by split|].
    destruct IH as [H1 H2]; [intros; apply Htx; by right|intros; apply Hty; by right|].
    assert (same u (target e) (target f)) as Hs by (apply Ht; [apply Htx|apply Hty]; by left).
    simpl. rewrite !andb_True. split_and!; try done; apply isEquivalent_intro; try done; by symmetry. }
  assert (∀ L R, same_successors G u L R → ¬ refused u (L, R)) as Hnr.
  { intros L R Hs [Hf _]. simpl in Hf. by rewrite Hf in Hs. }
  destruct (Nat.lt_trichotomy x y) as [Hlt|[->|Hgt]]; [|done|].
  - destruct (Hu x y) as [Hr|]; [by apply elem_of_candidates|by destruct (Hnr _ _ Hxy)|done].
  - destruct (Hu y x) as [Hr|]; [by apply elem_of_candidates|by destruct (Hnr _ _ Hyx)|by symmetry].
Qed.

Lemma minimizeGraph_spec :
  ∃ k u, (∀ fuel, k ≤ fuel → minimizeGraph fuel G = Some (ec_compress u)) ∧ ec_capacity u = size G
    ∧ (∀ x y, x < size G → y < size G → same u x y → matching u x y)
    ∧ (∀ x y, unfold_eq x y → x < size G → y < size G → same u x y).
Proof.
  destruct (minimize_loop_spec (S (length (candidates G))) _ _ initial_min_ok) as (WL & u & Hu & Hok & Hr); [lia|].
  exists (S (length (candidates G))), u. split.
  { intros fuel Hf. unfold minimizeGraph. by rewrite (Hu fuel Hf). }
  split; [apply Hok|]. split; [apply Hok|].
  apply refused_unfold. intros L R [?|?]%(mo_done _ _ Hok); auto.
Qed.
End minimize.
