(* ===== verification/EquivalentGraph.v ===== *)
(** [createEquivalentGraphFrom] returns, and the graph it makes from classes of
    vertices with matching edges has the labelled paths of the old one. *)
From S2P Require Import Prelude UnionFind Graph DFAMinimizer.
From S2P Require Import DFAMinimizer.
From stdpp Require Import relations.
Import GraphTraits createEquivalentGraphFrom.

(** * Labelled paths *)

Section paths.
Context {T E W : Type} `{!Inhabited T} `{!GraphEdge E W}.
Implicit Types (G : AdjacencyList T E).

(** The labels of the vertices left and the weights of the edges taken. *)
Inductive path G : nat → list (T * W) → nat → Prop :=
  | path_here v : path G v [] v
  | path_step v e tr w : e ∈ outEdges G v → path G (target e) tr w → path G v ((node G v, weight e) :: tr) w.

(** A path from a root, the label of its last vertex, and whether that vertex
    has no outgoing edges. *)
Definition root_path G (tr : list (T * W)) (last : T) (leaf : Prop) : Prop :=
  ∃ r w, r ∈ Roots G ∧ path G r tr w ∧ node G w = last ∧ (leaf ↔ outEdges G w = []).

Definition edge_to G (x y : nat) : Prop := ∃ e, e ∈ outEdges G x ∧ target e = y.
Definition reachable G (v : nat) : Prop := ∃ r, r ∈ Roots G ∧ rtc (edge_to G) r v.

Lemma reachable_edge G v e : reachable G v → e ∈ outEdges G v → reachable G (target e).
Proof. intros (r & Hr & Hv) He. exists r. split; [done|]. eapply rtc_r; [exact Hv|]. by exists e. Qed.

Lemma reachable_lt G v : graph_wf G → reachable G v → v < size G.
Proof.
  intros Hwf (r & Hr & Hv). apply (gw_roots G Hwf) in Hr. induction Hv as [|x y z (e & He & <-) _ IH]; [done|].
  apply IH, (gw_target G Hwf x e He).
Qed.

(** A bisimulation of the reachable parts keeps the paths. *)
Record bisimulation G1 G2 (B : relation nat) : Prop := {
  bi_roots r : r ∈ Roots G1 → ∃ r', r' ∈ Roots G2 ∧ B r r';
  bi_node v v' : B v v' → node G1 v = node G2 v';
  bi_edge v v' e : B v v' → e ∈ outEdges G1 v →
    ∃ e', e' ∈ outEdges G2 v' ∧ weight e' = weight e ∧ B (target e) (target e')
}.

Lemma bisimulation_path G1 G2 B v tr w v' :
  bisimulation G1 G2 B → path G1 v tr w → B v v' → ∃ w', path G2 v' tr w' ∧ B w w'.
Proof.
  intros HB Hp. revert v'. induction Hp as [v|v e tr w He _ IH]; intros v' Hv.
  - exists v'. split; [constructor|done].
  - destruct (bi_edge _ _ _ HB v v' e Hv He) as (e' & He' & Hw & Ht).
    destruct (IH _ Ht) as (w' & Hp' & Hww). exists w'. split; [|done].
    rewrite (bi_node _ _ _ HB v v' Hv), <-Hw. by constructor.
Qed.

Lemma bisimulation_root_path G1 G2 B tr last leaf :
  bisimulation G1 G2 B → bisimulation G2 G1 (flip B) → root_path G1 tr last leaf → root_path G2 tr last leaf.
Proof.
  intros HB HB' (r & w & Hr & Hp & <- & Hl). destruct (bi_roots _ _ _ HB r Hr) as (r' & Hr' & Hrr).
  destruct (bisimulation_path _ _ _ _ _ _ r' HB Hp Hrr) as (w' & Hp' & Hww).
  exists r', w'. split_and!; [done..|by rewrite (bi_node _ _ _ HB w w')|]. rewrite Hl. split; intros Hnil.
  - destruct (outEdges G2 w') as [|e es] eqn:He; [done|].
    destruct (bi_edge _ _ _ HB' w' w e Hww) as (e' & Hin & _); [rewrite He; by left|].
    rewrite Hnil in Hin. by apply elem_of_nil in Hin.
  - destruct (outEdges G1 w) as [|e es] eqn:He; [done|].
    destruct (bi_edge _ _ _ HB w w' e Hww) as (e' & Hin & _); [rewrite He; by left|].
    rewrite Hnil in Hin. by apply elem_of_nil in Hin.
Qed.
End paths.

(** * The quotient *)

Section create.
Context {T E W U : Type} `{!Inhabited T} `{!EqDecision E} `{!GraphEdge E W} `{!GraphEdgeLaws E W}.
Context `{!IntEqClasses U}.
Context (G : AdjacencyList T E) (Eq : U) (Hwf : graph_wf G).
Abbreviation cls := (ec_index Eq).
Abbreviation nc := (ec_getNumClasses Eq).
Context (Hcls : ∀ v, v < size G → cls v < nc).
Implicit Types (s : createEquivalentGraphFrom.state (T:=T) (E:=E)) (P : nat → E → Prop).
Abbreviation node_of := (node_of Eq).

Definition handled s (v : nat) : Prop := Handled s !! v = Some true.
#[local] Instance handled_dec s v : Decision (handled s v).
Proof. unfold handled. apply _. Defined.

Definition pending s (v : nat) : Prop := v ∈ WorkList s ∨ handled s v.

(** [P] are the edges that have been handled. *)
Record q_ok P s : Prop := {
  qo_handled : length (Handled s) = size G;
  qo_classes : length (Eq2Vtx s) = nc;
  qo_len : length (Nodes (Ret s)) = size (Ret s);
  qo_node c k : Eq2Vtx s !!! c = Some k →
    k < size (Ret s) ∧ ∃ v, reachable G v ∧ cls v = c ∧ node (Ret s) k = node G v;
  qo_inj c c' k : Eq2Vtx s !!! c = Some k → Eq2Vtx s !!! c' = Some k → c = c';
  qo_surj k : k < size (Ret s) → ∃ c, Eq2Vtx s !!! c = Some k;
  qo_pending x : pending s x → reachable G x ∧ is_Some (node_of x s);
  qo_edge x e : P x e → e ∈ outEdges G x ∧ handled s x ∧ pending s (target e);
  qo_out k e' : e' ∈ outEdges (Ret s) k ↔
    ∃ x e j, P x e ∧ node_of x s = Some k ∧ node_of (target e) s = Some j ∧ e' = withEdgeTarget e j;
  qo_roots k : k ∈ Roots (Ret s) → ∃ r, r ∈ Roots G ∧ node_of r s = Some k
}.

Lemma handled_total P s v : q_ok P s → v < size G → handled s v ↔ Handled s !!! v = true.
Proof.
  intros Hok Hv. rewrite <-(qo_handled _ _ Hok) in Hv. apply list_lookup_lookup_total_lt in Hv.
  unfold handled. rewrite Hv. split; [by intros [= ?]|congruence].
Qed.

(** Nodes are only added, and pending vertices stay pending. *)
Record grows s s' : Prop := {
  gr_node v k : node_of v s = Some k → node_of v s' = Some k;
  gr_handled : Handled s' = Handled s;
  gr_roots k : k ∈ Roots (Ret s) → k ∈ Roots (Ret s')
}.

#[local] Instance grows_preorder : PreOrder grows.
Proof. split; [by split|]. intros s1 s2 s3 [H1 H2 H3] [H4 H5 H6]. split; [auto|congruence|auto]. Qed.

Lemma addNode_outEdges (R : AdjacencyList T E) x k : outEdges (addNode R x).2 k = outEdges R k.
Proof.
  unfold outEdges, addNode. simpl. rewrite !list_lookup_total_alt.
  destruct (decide (k < length (Adj R))); [by rewrite lookup_app_l|].
  rewrite lookup_app_r, (lookup_ge_None_2 (Adj R)) by lia. by destruct (k - length (Adj R)) as [|[]].
Qed.

Lemma ensure_node_ok P s v :
  q_ok P s → reachable G v →
  q_ok P (ensure_node G Eq v s) ∧ grows s (ensure_node G Eq v s)
  ∧ is_Some (node_of v (ensure_node G Eq v s)) ∧ WorkList (ensure_node G Eq v s) = WorkList s
  ∧ Roots (Ret (ensure_node G Eq v s)) = Roots (Ret s).
Proof.
  intros Hok Hv. destruct (node_of v s) as [k|] eqn:Hk.
  { assert (ensure_node G Eq v s = s) as -> by (unfold ensure_node; by rewrite Hk). split_and!; done. }
  destruct Hok as [H1 H2 H3 H4 H5 H6 H7 H8 H9 H10].
  assert (cls v < length (Eq2Vtx s)) as Hc by (rewrite H2; by apply Hcls, reachable_lt).
  set (n := length (Nodes (Ret s))).
  set (s' := State (addNode (Ret s) (node G v)).2 (Handled s) (<[cls v := Some n]> (Eq2Vtx s)) (WorkList s)).
  assert (ensure_node G Eq v s = s') as -> by (unfold ensure_node; by rewrite Hk).
  assert (∀ c k, Eq2Vtx s' !!! c = Some k ↔ Eq2Vtx s !!! c = Some k ∨ c = cls v ∧ k = n) as Hlook.
  { intros c k. simpl. destruct (decide (cls v = c)) as [<-|Hne].
    - rewrite list_lookup_total_insert_eq by done. unfold createEquivalentGraphFrom.node_of in Hk.
      rewrite Hk. naive_solver.
    - rewrite list_lookup_total_insert_ne by done. naive_solver. }
  assert (size (Ret s') = S n) as Hsize.
  { unfold size. simpl. rewrite length_app. simpl. unfold n. unfold size in H3. lia. }
  assert (∀ x, is_Some (node_of x s) → node_of x s' = node_of x s) as Hold.
  { intros x [k Hx]. rewrite Hx. unfold createEquivalentGraphFrom.node_of in *. apply Hlook. by left. }
  split_and!; [|split; [|done|done]| |done|done].
  - split; simpl; try done.
    + by rewrite length_insert.
    + change (length (Nodes (Ret s) ++ [node G v]) = size (Ret s')).
      rewrite Hsize, length_app. simpl. unfold n. lia.
    + intros c k Hck%Hlook. change (k < size (Ret s') ∧ ∃ w, reachable G w ∧ cls w = c ∧ node (Ret s') k = node G w).
      rewrite Hsize. destruct Hck as [Hck|[-> ->]].
      * destruct (H4 c k Hck) as (Hlt & w & Hw & Hcw & Hnw). rewrite <-H3 in Hlt. fold n in Hlt. split; [lia|].
        exists w. split_and!; [done..|]. rewrite <-Hnw. unfold node. simpl. by rewrite lookup_total_app_l.
      * split; [lia|]. exists v. split_and!; [done..|]. unfold node. simpl.
        by rewrite lookup_total_app_r, Nat.sub_diag.
    + intros c c' k Hck%Hlook Hck'%Hlook.
      assert (∀ c, Eq2Vtx s !!! c = Some n → False) as Hn.
      { intros d (Hd & _)%H4. unfold n in Hd. lia. }
      destruct Hck as [?|[-> ->]], Hck' as [?|[-> ?]]; subst; eauto; exfalso; eauto.
    + intros k Hlt. change (k < size (Ret s')) in Hlt. rewrite Hsize in Hlt.
      destruct (decide (k < n)) as [Hkn|Hkn].
      * destruct (H6 k) as [c Hck]; [lia|]. exists c. apply Hlook. by left.
      * exists (cls v). apply Hlook. right. split; [done|lia].
    + intros x Hx. change (pending s x) in Hx. destruct (H7 x Hx) as [? Hs]. split; [done|].
      change (is_Some (node_of x s')). by rewrite Hold.
    + intros k e'. change (e' ∈ outEdges (addNode (Ret s) (node G v)).2 k ↔ ∃ x e j,
        P x e ∧ node_of x s' = Some k ∧ node_of (target e) s' = Some j ∧ e' = withEdgeTarget e j).
      rewrite addNode_outEdges, H9.
      split; intros (x & e & j & HP & Hx & Ht & He); exists x, e, j;
        destruct (H8 x e HP) as (_ & Hh & Hpe);
        (assert (node_of x s' = node_of x s) as Hxx by (apply Hold, H7; by right));
        (assert (node_of (target e) s' = node_of (target e) s) as Htt by (apply Hold, H7; done));
        split_and!; congruence.
    + intros k Hkr. destruct (H10 k Hkr) as (r & Hr & Hnr). exists r. split; [done|].
      change (node_of r s' = Some k). by rewrite Hold by (by eexists).
  - intros x k Hx. rewrite Hold; [done|by eexists].
  - exists n. unfold createEquivalentGraphFrom.node_of. apply Hlook. by right.
Qed.

Lemma push_ok P s v :
  q_ok P s → reachable G v → is_Some (node_of v s) → q_ok P (push v s).
Proof.
  intros [H1 H2 H3 H4 H5 H6 H7 H8 H9 H10] Hv Hn. split; try done.
  - intros x [[->|Hx]%elem_of_cons|Hx]; [done|apply H7; by left|apply H7; by right].
  - intros x e HP. destruct (H8 x e HP) as (? & ? & [?|?]); split_and!; try done; [left|right]; [by right|done].
Qed.

Lemma set_roots_ok P s r k :
  q_ok P s → r ∈ Roots G → node_of r s = Some k → q_ok P (set_Ret (addRoot (Ret s) k) s).
Proof.
  intros [H1 H2 H3 H4 H5 H6 H7 H8 H9 H10] Hr Hn. split; try done.
  intros k' [?| ->%list_elem_of_singleton]%elem_of_app; [auto|]. by exists r.
Qed.

Lemma add_edge_ok P s x e k j :
  q_ok P s → e ∈ outEdges G x → handled s x → pending s (target e) →
  node_of x s = Some k → node_of (target e) s = Some j →
  q_ok (λ x' e', P x' e' ∨ x' = x ∧ e' = e) (set_Ret (addEdge (Ret s) k (withEdgeTarget e j)) s).
Proof.
  intros [H1 H2 H3 H4 H5 H6 H7 H8 H9 H10] He Hh Hp Hk Hj.
  assert (k < size (Ret s)) as Hlt by (by apply H4 in Hk as [? _]).
  assert (size (addEdge (Ret s) k (withEdgeTarget e j)) = size (Ret s)) as Hsz.
  { unfold size. simpl. by rewrite length_alter. }
  split; try done.
  - simpl. by rewrite Hsz.
  - intros c k' Hck. simpl. rewrite Hsz. by apply H4.
  - intros k' Hlt'. simpl in Hlt'. rewrite Hsz in Hlt'. by apply H6.
  - intros x' e' [HP|[-> ->]]; [by apply H8|by split_and!].
  - intros k' e'. change (e' ∈ outEdges (addEdge (Ret s) k (withEdgeTarget e j)) k' ↔ ∃ x' f j',
      (P x' f ∨ x' = x ∧ f = e) ∧ node_of x' s = Some k' ∧ node_of (target f) s = Some j'
      ∧ e' = withEdgeTarget f j').
    rewrite addEdge_out by done. rewrite elem_of_app, H9. split.
    + intros [(x' & f & j' & ? & ?)|Hin]; [exists x', f, j'; auto|].
      case_decide; [subst k'|by apply elem_of_nil in Hin]. apply list_elem_of_singleton in Hin as ->.
      exists x, e, j. auto.
    + intros (x' & f & j' & [HP|[-> ->]] & Hx' & Hj' & ->); [left; eauto 10|right].
      rewrite decide_True by congruence. apply list_elem_of_singleton. congruence.
Qed.

Lemma handle_edge_ok P s x k e :
  q_ok P s → e ∈ outEdges G x → handled s x → node_of x s = Some k →
  let s' := handle_edge G Eq k e s in
  q_ok (λ x' e', P x' e' ∨ x' = x ∧ e' = e) s' ∧ grows s s'
  ∧ WorkList s' = (if (Handled s !!! target e : bool) then [] else [target e]) ++ WorkList s.
Proof.
  intros Hok He Hh Hk. unfold handle_edge.
  assert (reachable G (target e)) as Hre.
  { apply (reachable_edge G x); [|done]. apply (qo_pending _ _ Hok). by right. }
  destruct (ensure_node_ok P s (target e) Hok Hre) as (Hok1 & Hgr1 & Hn1 & HW1 & _).
  set (s1 := ensure_node G Eq (target e) s) in *. destruct Hn1 as [j Hj].
  set (s2 := if (Handled s1 !!! target e : bool) then s1 else push (target e) s1).
  assert (q_ok P s2 ∧ (∀ v, node_of v s2 = node_of v s1) ∧ Handled s2 = Handled s1 ∧ pending s2 (target e)
    ∧ WorkList s2 = (if (Handled s !!! target e : bool) then [] else [target e]) ++ WorkList s1)
    as (Hok2 & Hn2 & Hh2 & Hp2 & HW2).
  { unfold s2. replace (Handled s1 !!! target e) with (Handled s !!! target e) by (by rewrite (gr_handled _ _ Hgr1)).
    destruct (Handled s !!! target e) eqn:Ht.
    - split_and!; try done. right. apply (handled_total P); [done|by apply reachable_lt|].
      by rewrite (gr_handled _ _ Hgr1).
    - split_and!; try done; [by apply push_ok|]. left. by left. }
  rewrite Hn2, Hj. simpl. split_and!.
  - apply add_edge_ok; try done.
    + unfold handled. by rewrite Hh2, (gr_handled _ _ Hgr1).
    + rewrite Hn2. by apply (gr_node _ _ Hgr1).
    + by rewrite Hn2.
  - destruct Hgr1 as [G1 G2 G3]. split.
    + intros v k' Hv. change (node_of v s2 = Some k'). rewrite Hn2. auto.
    + simpl. congruence.
    + intros k' Hin. simpl. unfold s2. destruct (Handled s1 !!! target e); by apply G3.
  - by rewrite HW2, HW1.
Qed.

(** The vertices an iteration puts on the stack. *)
Definition pushed s (es : list E) : list nat :=
  reverse (filter (λ v, Handled s !!! v = false) (target <$> es)).

Lemma q_ok_iff P P' s : (∀ x e, P x e ↔ P' x e) → q_ok P s → q_ok P' s.
Proof.
  intros Heq [H1 H2 H3 H4 H5 H6 H7 H8 H9 H10]. split; try done.
  - intros x e. rewrite <-Heq. apply H8.
  - intros k e. setoid_rewrite <-Heq. apply H9.
Qed.

(** Taking a vertex off the stack. *)
Definition marked s (x : nat) (rest : list nat) : createEquivalentGraphFrom.state :=
  State (Ret s) (<[x := true]> (Handled s)) (Eq2Vtx s) rest.

Lemma handled_marked P s x rest v :
  q_ok P s → pending s x → handled (marked s x rest) v ↔ handled s v ∨ v = x.
Proof.
  intros Hok Hp. assert (x < length (Handled s)) as Hx.
  { rewrite (qo_handled _ _ Hok). by apply reachable_lt, (qo_pending _ _ Hok). }
  unfold handled. simpl. destruct (decide (x = v)) as [<-|Hne].
  - rewrite list_lookup_insert_eq by done. naive_solver.
  - rewrite list_lookup_insert_ne by done. naive_solver.
Qed.

Lemma marked_ok P s x rest : q_ok P s → WorkList s = x :: rest → q_ok P (marked s x rest).
Proof.
  intros Hok HW. assert (pending s x) as Hp by (left; rewrite HW; by left).
  pose proof (λ v, handled_marked P s x rest v Hok Hp) as Hh.
  destruct Hok as [H1 H2 H3 H4 H5 H6 H7 H8 H9 H10]. split; try done.
  - simpl. by rewrite length_insert.
  - intros v [Hv|[Hv| ->]%Hh]; apply H7; [left; rewrite HW; by right|by right|done].
  - intros v e HP. destruct (H8 v e HP) as (? & ? & Hpe). split_and!; [done|apply Hh; by left|].
    destruct Hpe as [Hin|Hin]; [|right; apply Hh; by left]. rewrite HW in Hin.
    apply elem_of_cons in Hin as [->|Hin]; [right; apply Hh; by right|by left].
Qed.

Lemma edges_loop_ok P s x k es :
  q_ok P s → (∀ e, e ∈ es → e ∈ outEdges G x) → handled s x → node_of x s = Some k →
  let s' := for_each es (handle_edge G Eq k) s in
  q_ok (λ x' e', P x' e' ∨ x' = x ∧ e' ∈ es) s' ∧ grows s s' ∧ WorkList s' = pushed s es ++ WorkList s.
Proof.
  intros Hok Hsub Hh Hk.
  apply (for_each_ind (λ es s', q_ok (λ x' e', P x' e' ∨ x' = x ∧ e' ∈ es) s' ∧ grows s s'
    ∧ WorkList s' = pushed s es ++ WorkList s)).
  - split_and!; [|done|done]. revert Hok. apply q_ok_iff. intros x' e'. split; [auto|].
    by intros [?|[_ []%elem_of_nil]].
  - intros es' e s' He (Hok' & Hgr & HW).
    destruct (handle_edge_ok _ s' x k e Hok' (Hsub e He)) as (Hok2 & Hgr2 & HW2).
    { unfold handled. by rewrite (gr_handled _ _ Hgr). }
    { by apply (gr_node _ _ Hgr). }
    split_and!; [|by etrans|].
    + revert Hok2. apply q_ok_iff. intros x' e'. rewrite elem_of_app, list_elem_of_singleton. tauto.
    + rewrite HW2, HW, app_assoc. f_equal. unfold pushed. rewrite fmap_app, filter_app, reverse_app.
      f_equal. simpl. rewrite filter_cons, filter_nil, (gr_handled _ _ Hgr).
      by destruct (Handled s !!! target e).
Qed.

(** One iteration of the work list. *)
Definition iteration s (x : nat) (rest : list nat) : createEquivalentGraphFrom.state :=
  handle_vertex G Eq x (State (Ret s) (Handled s) (Eq2Vtx s) rest).

Lemma iteration_ok P s x rest :
  q_ok P s → WorkList s = x :: rest →
  q_ok (λ x' e', P x' e' ∨ x' = x ∧ e' ∈ outEdges G x) (iteration s x rest)
  ∧ grows (marked s x rest) (iteration s x rest)
  ∧ WorkList (iteration s x rest) = pushed (marked s x rest) (outEdges G x) ++ rest.
Proof.
  intros Hok HW. assert (pending s x) as Hp by (left; rewrite HW; by left).
  destruct (qo_pending _ _ Hok x Hp) as [Hr [k Hk]]. unfold iteration, handle_vertex.
  change (node_of x _) with (node_of x s). rewrite Hk.
  apply (edges_loop_ok P (marked s x rest) x k (outEdges G x)); [by apply marked_ok|done| |done].
  apply (handled_marked P); auto.
Qed.

(** ** Termination *)

(** The unhandled targets of a handled vertex are above it on the stack. *)
Definition lifo s : Prop :=
  ∀ i x e, WorkList s !! i = Some x → handled s x → e ∈ outEdges G x →
    handled s (target e) ∨ ∃ j, j < i ∧ WorkList s !! j = Some (target e).

Definition unhandled s : nat := length (filter (λ b, b = false) (Handled s)).

Lemma length_filter_insert (l : list bool) x :
  l !! x = Some false → length (filter (λ b, b = false) (<[x := true]> l)) < length (filter (λ b, b = false) l).
Proof.
  revert x. induction l as [|b l IH]; intros [|x] Hx; try discriminate Hx.
  - injection Hx as ->. change (<[0 := true]> (false :: l)) with (true :: l).
    rewrite filter_cons_False, filter_cons_True by done. simpl. lia.
  - change (<[S x := true]> (b :: l)) with (b :: <[x := true]> l). rewrite !filter_cons.
    specialize (IH x Hx). case_decide; simpl; lia.
Qed.

Lemma elem_of_pushed s es v : v ∈ pushed s es ↔ Handled s !!! v = false ∧ ∃ e, e ∈ es ∧ target e = v.
Proof.
  unfold pushed. rewrite elem_of_reverse, list_elem_of_filter, list_elem_of_fmap. naive_solver.
Qed.

Lemma handled_or P s v : q_ok P s → v < size G → handled s v ∨ Handled s !!! v = false.
Proof. intros Hok Hv. rewrite (handled_total P) by done. destruct (Handled s !!! v); auto. Qed.

Lemma iteration_lifo P s x rest :
  q_ok P s → lifo s → WorkList s = x :: rest → lifo (iteration s x rest).
Proof.
  intros Hok Hl HW. destruct (iteration_ok P s x rest Hok HW) as (_ & Hgr & HW').
  assert (pending s x) as Hp by (left; rewrite HW; by left).
  assert (∀ v, handled (iteration s x rest) v ↔ handled s v ∨ v = x) as Hh.
  { intros v. unfold handled at 1. rewrite (gr_handled _ _ Hgr). by apply (handled_marked P). }
  assert (∀ v, handled (marked s x rest) v ↔ handled s v ∨ v = x) as Hm by (intros; by apply (handled_marked P)).
  set (ps := pushed (marked s x rest) (outEdges G x)) in *.
  intros i y e Hi Hy He. rewrite Hh. rewrite HW' in Hi |- *.
  destruct (decide (handled s (target e) ∨ target e = x)) as [?|Hnt]; [by left|right].
  apply lookup_app_Some in Hi as [Hi|[Hge Hi]].
  { apply list_elem_of_lookup_2, elem_of_pushed in Hi as [Hf _].
    apply Hh, Hm, list_lookup_total_correct in Hy. congruence. }
  assert (target e ∈ ps ∨ ∃ j, j < i - length ps ∧ rest !! j = Some (target e)) as Hcase.
  { apply Hh in Hy as [Hy|Hy].
    - destruct (Hl (S (i - length ps)) y e) as [?|(j & Hj & Hlj)]; [by rewrite HW|done|done|tauto|].
      rewrite HW in Hlj. destruct j as [|j]; simpl in Hlj; [|right; exists j; split; [lia|done]].
      injection Hlj as Hlj. destruct Hnt. by right.
    - subst y. left. apply elem_of_pushed. split; [|by exists e].
      destruct (handled_or P (marked s x rest) (target e)) as [Hc%Hm|?]; [by apply marked_ok| |done|done].
      by apply (gw_target G Hwf x). }
  destruct Hcase as [(j & Hj)%list_elem_of_lookup|(j & Hj & Hlj)].
  - exists j. apply lookup_lt_Some in Hj as Hlt. split; [lia|]. by apply lookup_app_l_Some.
  - exists (length ps + j). split; [lia|]. rewrite lookup_app_r by lia. by replace (length ps + j - length ps) with j by lia.
Qed.

(** An iteration handles a new vertex, or shortens the stack. *)
Lemma iteration_progress P s x rest :
  q_ok P s → lifo s → WorkList s = x :: rest →
  unhandled (iteration s x rest) < unhandled s
  ∨ unhandled (iteration s x rest) = unhandled s ∧ WorkList (iteration s x rest) = rest.
Proof.
  intros Hok Hl HW. destruct (iteration_ok P s x rest Hok HW) as (Hok' & Hgr & HW').
  assert (pending s x) as Hp by (left; rewrite HW; by left).
  assert (x < length (Handled s)) as Hx.
  { rewrite (qo_handled _ _ Hok). by apply reachable_lt, (qo_pending _ _ Hok). }
  assert (Handled (iteration s x rest) = <[x := true]> (Handled s)) as Hh by apply (gr_handled _ _ Hgr).
  unfold unhandled. rewrite Hh. destruct (Handled s !!! x) eqn:Hxh.
  - right. rewrite list_insert_id by (rewrite <-Hxh; by apply list_lookup_lookup_total_lt). split; [done|].
    rewrite HW'. assert (pushed (marked s x rest) (outEdges G x) = []) as ->; [|done].
    apply elem_of_nil_inv. intros v [Hf (e & He & <-)]%elem_of_pushed.
    destruct (Hl 0 x e) as [Ht|(j & ? & _)]; [by rewrite HW|unfold handled; rewrite <-Hxh; by apply list_lookup_lookup_total_lt|done| |lia].
    assert (handled (marked s x rest) (target e)) as Hc%list_lookup_total_correct; [|congruence].
    apply (handled_marked P); auto.
  - left. apply length_filter_insert. rewrite <-Hxh. by apply list_lookup_lookup_total_lt.
Qed.

(** Every edge of a handled vertex has been handled. *)
Definition closed P s : Prop := ∀ x e, handled s x → e ∈ outEdges G x → P x e.

Lemma loop_spec P s :
  q_ok P s → lifo s → closed P s →
  ∃ k s' P', (∀ fuel, k ≤ fuel → loop G Eq fuel s = Some s')
    ∧ q_ok P' s' ∧ closed P' s' ∧ WorkList s' = []
    ∧ (∀ v j, node_of v s = Some j → node_of v s' = Some j)
    ∧ (∀ j, j ∈ Roots (Ret s) → j ∈ Roots (Ret s'))
    ∧ (∀ v, pending s v → handled s' v).
Proof.
  remember (unhandled s) as n eqn:Hn. revert P s Hn.
  induction n as [n IHn] using lt_wf_ind. intros P s Hn.
  remember (WorkList s) as l eqn:HWl. revert P s Hn HWl.
  induction l as [|x rest IHl]; intros P s Hn HWl Hok Hl Hc.
  - exists 0, s, P. split_and!; try done.
    + intros [|fuel] _; simpl; by rewrite <-HWl.
    + intros v [Hv|?]; [|done]. rewrite <-HWl in Hv. by apply elem_of_nil in Hv.
  - symmetry in HWl. destruct (iteration_ok P s x rest Hok HWl) as (Hok' & Hgr & HW').
    assert (pending s x) as Hp by (left; rewrite HWl; by left).
    assert (∀ v, handled (iteration s x rest) v ↔ handled s v ∨ v = x) as Hh.
    { intros v. unfold handled at 1. rewrite (gr_handled _ _ Hgr). by apply (handled_marked P). }
    set (s1 := iteration s x rest) in *. set (P1 := λ x' e', P x' e' ∨ x' = x ∧ e' ∈ outEdges G x) in *.
    assert (closed P1 s1) as Hc1.
    { intros y e [Hy| ->]%Hh He; [left; auto|by right]. }
    assert (∃ k s' P', (∀ fuel, k ≤ fuel → loop G Eq fuel s1 = Some s')
      ∧ q_ok P' s' ∧ closed P' s' ∧ WorkList s' = []
      ∧ (∀ v j, node_of v s1 = Some j → node_of v s' = Some j)
      ∧ (∀ j, j ∈ Roots (Ret s1) → j ∈ Roots (Ret s')) ∧ (∀ v, pending s1 v → handled s' v)) as Hrec.
    { pose proof (iteration_lifo P s x rest Hok Hl HWl) as Hl1.
      destruct (iteration_progress P s x rest Hok Hl HWl) as [Hlt|[Heq HWr]].
      - apply (IHn (unhandled s1)) with P1; [subst n; exact Hlt|done..].
      - apply (IHl P1); [subst n; by symmetry|by symmetry|done..]. }
    destruct Hrec as (k & s' & P' & Hk & Hok2 & Hc2 & HW2 & Hn2 & Hr2 & Hp2).
    exists (S k), s', P'. split_and!; try done.
    + intros [|fuel] Hf; [lia|]. simpl. rewrite HWl. apply Hk. lia.
    + intros v j Hv. apply Hn2. by apply (gr_node _ _ Hgr).
    + intros j Hj. apply Hr2. by apply (gr_roots _ _ Hgr).
    + intros v Hv. apply Hp2. destruct Hv as [Hv|Hv]; [|right; apply Hh; by left].
      rewrite HWl in Hv. apply elem_of_cons in Hv as [->|Hv]; [right; apply Hh; by right|].
      left. rewrite HW'. apply elem_of_app. by right.
Qed.

(** ** The roots *)

Lemma ensure_node_new s v :
  node_of v s = None → size (Ret (ensure_node G Eq v s)) = S (size (Ret s)).
Proof.
  intros Hv. unfold ensure_node. rewrite Hv. unfold size. simpl. rewrite length_app. simpl. lia.
Qed.

Lemma add_root_ok P s r :
  q_ok P s → r ∈ Roots G →
  q_ok P (add_root G Eq r s) ∧ grows s (add_root G Eq r s) ∧ WorkList (add_root G Eq r s) = r :: WorkList s
  ∧ is_Some (node_of r (add_root G Eq r s))
  ∧ ((∀ k, k < size (Ret s) → k ∈ Roots (Ret s)) →
      ∀ k, k < size (Ret (add_root G Eq r s)) → k ∈ Roots (Ret (add_root G Eq r s))).
Proof.
  intros Hok Hr. assert (reachable G r) as Hrr by (exists r; by split). unfold add_root.
  destruct (node_of r s) as [k|] eqn:Hk.
  - split_and!; [|by split|done|by exists k|done]. apply push_ok; [done..|]. rewrite Hk. by eexists.
  - destruct (ensure_node_ok P s r Hok Hrr) as (Hok1 & Hgr & [k Hn] & HW & HR).
    pose proof (ensure_node_new s r Hk) as Hsz.
    set (s1 := ensure_node G Eq r s) in *. rewrite Hn. simpl. split_and!.
    + apply push_ok; [by apply set_roots_ok with r|done|]. by exists k.
    + destruct Hgr as [G1 G2 G3]. split; [done|done|]. intros j Hj. simpl. apply elem_of_app. left. auto.
    + by rewrite HW.
    + by exists k.
    + intros Hall j Hj. change (j < size (Ret s1)) in Hj. apply elem_of_app.
      destruct (decide (j < size (Ret s))) as [Hlt|Hge]; [left; apply (gr_roots _ _ Hgr); auto|].
      right. apply list_elem_of_singleton. assert (k < size (Ret s1)) by (by apply (qo_node _ _ Hok1) in Hn as [? _]).
      destruct (decide (k < size (Ret s))) as [Hks|]; [|lia]. exfalso.
      destruct (qo_surj _ _ Hok k Hks) as [c Hc].
      destruct (qo_node _ _ Hok c k Hc) as (_ & w & _ & Hcw & _).
      assert (node_of w s = Some k) as Hw by (unfold createEquivalentGraphFrom.node_of; by rewrite Hcw).
      apply (gr_node _ _ Hgr) in Hw. pose proof (qo_inj _ _ Hok1 _ _ _ Hw Hn) as Heq.
      unfold createEquivalentGraphFrom.node_of in Hk. congruence.
Qed.

Lemma initial_q_ok : q_ok (λ _ _, False) (initial_state G Eq).
Proof.
  assert (∀ c, Eq2Vtx (initial_state G Eq) !!! c = None) as Hnone.
  { intros c. simpl. rewrite list_lookup_total_alt. destruct (replicate nc None !! c) as [o|] eqn:Ho; [|done].
    by apply lookup_replicate in Ho as [-> _]. }
  assert (∀ v, ¬ pending (initial_state G Eq) v) as Hp.
  { intros v [Hv|Hv]; [by apply elem_of_nil in Hv|]. by apply lookup_replicate in Hv as [? _]. }
  split; try done.
  - simpl. by rewrite length_replicate.
  - simpl. by rewrite length_replicate.
  - intros c k. by rewrite Hnone.
  - intros c c' k. by rewrite Hnone.
  - intros k Hk. unfold size in Hk. simpl in Hk. lia.
  - intros x Hx. by destruct (Hp x).
  - intros k e. split; [|naive_solver]. intros He%outEdges_lt. unfold size in He. simpl in He. lia.
  - intros k Hk. by apply elem_of_nil in Hk.
Qed.

Lemma roots_loop_ok :
  let s := for_each (Roots G) (add_root G Eq) (initial_state G Eq) in
  q_ok (λ _ _, False) s ∧ (∀ v, ¬ handled s v) ∧ (∀ r, r ∈ Roots G → r ∈ WorkList s)
  ∧ (∀ k, k < size (Ret s) → k ∈ Roots (Ret s)).
Proof.
  apply (for_each_ind (λ rs s, q_ok (λ _ _, False) s ∧ (∀ v, ¬ handled s v) ∧ (∀ r, r ∈ rs → r ∈ WorkList s)
    ∧ (∀ k, k < size (Ret s) → k ∈ Roots (Ret s)))).
  - split_and!; [apply initial_q_ok| |by intros r ?%elem_of_nil|].
    + by intros v [? _]%lookup_replicate.
    + intros k Hk. unfold size in Hk. simpl in Hk. lia.
  - intros rs r s Hr (Hok & Hh & HW & HR). destruct (add_root_ok _ s r Hok Hr) as (Hok' & Hgr & HW' & _ & Hn).
    split_and!; [done| | |auto].
    + intros v. unfold handled. rewrite (gr_handled _ _ Hgr). apply Hh.
    + intros r' [?| ->%list_elem_of_singleton]%elem_of_app; rewrite HW'; [right; auto|by left].
Qed.

(** ** The result *)

Lemma dedup_all (R : AdjacencyList T E) :
  let R' := for_each (vertices R) (λ v R, dedupOutEdges R v) R in
  Nodes R' = Nodes R ∧ size R' = size R ∧ Roots R' = Roots R
  ∧ (∀ v e, e ∈ outEdges R' v ↔ e ∈ outEdges R v) ∧ ∀ v, NoDup (outEdges R' v).
Proof.
  assert (∀ v, v ∉ vertices R → outEdges R v = []) as Hout.
  { intros v Hv. unfold outEdges. rewrite list_lookup_total_alt, lookup_ge_None_2; [done|].
    unfold vertices in Hv. rewrite elem_of_seq in Hv. lia. }
  assert (let R' := for_each (vertices R) (λ v R, dedupOutEdges R v) R in
    Nodes R' = Nodes R ∧ size R' = size R ∧ Roots R' = Roots R
    ∧ (∀ v e, e ∈ outEdges R' v ↔ e ∈ outEdges R v) ∧ ∀ v, v ∈ vertices R → NoDup (outEdges R' v)) as H.
  { apply (for_each_ind (λ vs R', Nodes R' = Nodes R ∧ size R' = size R ∧ Roots R' = Roots R
      ∧ (∀ v e, e ∈ outEdges R' v ↔ e ∈ outEdges R v) ∧ ∀ v, v ∈ vs → NoDup (outEdges R' v))).
    - split_and!; try done. by intros v ?%elem_of_nil.
    - intros vs v R' Hv (HN & HS & HR & HE & HD).
      assert (v < size R') as Hlt by (rewrite HS; unfold vertices in Hv; apply elem_of_seq in Hv; unfold size; lia).
      assert (∀ w, outEdges (dedupOutEdges R' v) w = if decide (v = w) then dedup (outEdges R' w) else outEdges R' w) as Ho.
      { intros w. unfold outEdges. simpl. case_decide as Hvw; [subst; by rewrite list_lookup_total_alter_eq|].
        by rewrite list_lookup_total_alter_ne. }
      split_and!; try done.
      + rewrite <-HS. unfold size. simpl. by rewrite length_alter.
      + intros w e. rewrite Ho. case_decide; [by rewrite elem_of_dedup|done].
      + intros w Hw. rewrite Ho. case_decide as Hvw; [apply NoDup_dedup|]. apply HD.
        apply elem_of_app in Hw as [?|?%list_elem_of_singleton]; [done|congruence]. }
  destruct H as (HN & HS & HR & HE & HD). split_and!; try done. intros v.
  destruct (decide (v ∈ vertices R)) as [|Hv]; [auto|].
  assert (outEdges (for_each (vertices R) (λ v R, dedupOutEdges R v) R) v = []) as ->; [|constructor].
  apply elem_of_nil_inv. intros e. rewrite HE, Hout by done. by intros ?%elem_of_nil.
Qed.

(** Vertices of a class have the same label and the same edges up to classes. *)
Context (Hmatch : ∀ x y, x < size G → y < size G → cls x = cls y → node G x = node G y
  ∧ ∀ e, e ∈ outEdges G x → ∃ f, f ∈ outEdges G y ∧ weight f = weight e ∧ cls (target f) = cls (target e)).

Lemma create_spec :
  ∃ k G' (B : relation nat),
    (∀ fuel, k ≤ fuel → create G Eq fuel = Some G')
    ∧ graph_wf G' ∧ (∀ v, NoDup (outEdges G' v))
    ∧ bisimulation G G' B ∧ bisimulation G' G (flip B)
    ∧ (∀ j, j < size G' → ∃ v, B v j)
    ∧ (∀ v j, B v j → reachable G v)
    ∧ (∀ v j j', B v j → B v j' → j = j').
Proof.
  destruct roots_loop_ok as (Hok0 & Hh0 & HW0 & HR0).
  set (s0 := for_each (Roots G) (add_root G Eq) (initial_state G Eq)) in *.
  destruct (loop_spec (λ _ _, False) s0 Hok0) as (k & s & P & Hk & Hok & Hc & HW & Hn & Hr & Hp).
  { intros i x e _ Hx. by destruct (Hh0 x). }
  { intros x e Hx. by destruct (Hh0 x). }
  set (G' := for_each (vertices (Ret s)) (λ Vtx R, dedupOutEdges R Vtx) (Ret s)).
  destruct (dedup_all (Ret s)) as (HN & HS & HRt & HE & HD). fold G' in HN, HS, HRt, HE, HD.
  assert (∀ v, reachable G v → handled s v) as Hall.
  { intros v (r & Hroot & Hv). assert (handled s r) as Hh by (apply Hp; left; by apply HW0). clear Hroot.
    induction Hv as [|x y z (e & He & <-) _ IH]; [done|]. apply IH.
    destruct (qo_edge _ _ Hok x e (Hc x e Hh He)) as (_ & _ & [Hin|?]); [|done].
    rewrite HW in Hin. by apply elem_of_nil in Hin. }
  assert (∀ v, reachable G v → is_Some (node_of v s)) as Hsome.
  { intros v Hv. apply (qo_pending _ _ Hok). right. auto. }
  assert (∀ v w j, node_of v s = Some j → node_of w s = Some j ↔ cls w = cls v) as Hclass.
  { intros v w j Hv. split.
    - intros Hw. by apply (qo_inj _ _ Hok _ _ j).
    - intros Heq. unfold createEquivalentGraphFrom.node_of in *. by rewrite Heq. }
  assert (∀ v j, reachable G v → node_of v s = Some j → node G' j = node G v) as Hlabel.
  { intros v j Hv Hj. destruct (qo_node _ _ Hok _ j Hj) as (_ & w & Hw & Hcw & Hl).
    unfold node in Hl |- * at 1. rewrite HN. etrans; [exact Hl|]. by apply (Hmatch w v); [apply reachable_lt..|]. }
  exists k, G', (λ v j, reachable G v ∧ node_of v s = Some j). split_and!.
  - intros fuel Hf. unfold create. fold s0. by rewrite (Hk fuel Hf).
  - split.
    + rewrite HN, (qo_len _ _ Hok). unfold size in HS |- *. by rewrite HS.
    + intros j e'. rewrite HE, HS, (qo_out _ _ Hok). intros (x & e & i & _ & _ & Hi & ->).
      rewrite target_withEdgeTarget. by apply (qo_node _ _ Hok) in Hi as [? _].
    + intros j. rewrite HRt, HS. intros (r & _ & Hj)%(qo_roots _ _ Hok).
      by apply (qo_node _ _ Hok) in Hj as [? _].
  - exact HD.
  - split.
    + intros r Hroot. destruct (qo_pending _ _ Hok0 r) as [Hreach [j Hj]]; [left; auto|].
      exists j. split; [|split; [done|auto]]. rewrite HRt. apply Hr, HR0. by apply (qo_node _ _ Hok0) in Hj as [? _].
    + intros v j [Hv Hj]. by rewrite (Hlabel v).
    + intros v j e [Hv Hj] He. assert (reachable G (target e)) as Ht by (by apply (reachable_edge G v)).
      destruct (Hsome _ Ht) as [i Hi]. exists (withEdgeTarget e i). split_and!.
      * rewrite HE, (qo_out _ _ Hok). exists v, e, i. split_and!; auto.
      * apply weight_withEdgeTarget.
      * done.
      * by rewrite target_withEdgeTarget.
  - split.
    + intros j. rewrite HRt. intros (r & Hroot & Hj)%(qo_roots _ _ Hok). exists r. split; [done|].
      split; [exists r; by split|done].
    + intros j v [Hv Hj]. by apply Hlabel.
    + intros j v e' [Hv Hj] He'. rewrite HE, (qo_out _ _ Hok) in He'.
      destruct He' as (x & e & i & HP & Hx & Hi & ->). destruct (qo_edge _ _ Hok x e HP) as (He & Hhx & _).
      destruct (qo_pending _ _ Hok x) as [Hrx _]; [by right|].
      destruct (Hmatch x v) as [_ Hm]; [by apply reachable_lt..|by apply (Hclass v x j)|].
      destruct (Hm e He) as (f & Hf & Hw & Ht). exists f. split_and!; [done|by rewrite weight_withEdgeTarget|].
      split; [by apply (reachable_edge G v)|].
      rewrite target_withEdgeTarget. by apply (Hclass (target e) (target f) i).
  - intros j Hj. rewrite HS in Hj. destruct (qo_surj _ _ Hok j Hj) as [c Hcj].
    destruct (qo_node _ _ Hok c j Hcj) as (_ & v & Hv & Hcv & _). exists v. split; [done|].
    unfold createEquivalentGraphFrom.node_of. by rewrite Hcv.
  - by intros v j [? _].
  - intros v j j' [_ Hj] [_ Hj']. congruence.
Qed.
End create.

(** * Minimization and quotient together *)

Section minimized.
Context {T E W U : Type} `{!Inhabited T} `{!EqDecision T} `{!EqDecision E} `{!EqDecision W}.
Context `{!GraphEdge E W} `{!GraphEdgeLaws E W} `{!IntEqClasses U} `{!IntEqClassesLaws U}.

Lemma bisimulation_rtc (G G' : AdjacencyList T E) (B : relation nat) v w v' :
  bisimulation G G' B → rtc (edge_to G) v w → B v v' → ∃ w', rtc (edge_to G') v' w' ∧ B w w'.
Proof.
  intros HB Hvw. revert v'. induction Hvw as [v|v x w (e & He & <-) _ IH]; intros v' Hv; [by exists v'|].
  destruct (bi_edge _ _ _ HB v v' e Hv He) as (e' & He' & _ & Ht). destruct (IH _ Ht) as (w' & Hw' & HBw).
  exists w'. split; [|done]. eapply rtc_l; [by exists e'|done].
Qed.

Lemma minimized_graph_spec (G : AdjacencyList T E) :
  graph_wf G →
  ∃ k (u : U) (G' : AdjacencyList T E) (B : relation nat),
    (∀ fuel, k ≤ fuel → minimizeGraph fuel G = Some (ec_compress u) ∧ create G (ec_compress u) fuel = Some G')
    ∧ graph_wf G' ∧ (∀ v, NoDup (outEdges G' v))
    ∧ bisimulation G G' B ∧ bisimulation G' G (flip B)
    ∧ (∀ j, j < size G' → reachable G' j)
    ∧ (∀ v j, B v j → reachable G v) ∧ (∀ v j j', B v j → B v j' → j = j')
    ∧ (∀ x y, x < size G → y < size G → unfold_eq G x y → ec_index (ec_compress u) x = ec_index (ec_compress u) y).
Proof.
  intros Hwf. destruct (minimizeGraph_spec (U:=U) G Hwf) as (k0 & u & Hk0 & Hcap & Hm & Hu).
  destruct (create_spec G (ec_compress u) Hwf) as (k & G' & B & Hk & Hwf' & Hnd & HB & HB' & Hs & Hreach & Hfun).
  { intros v Hv. apply index_bound. by rewrite Hcap. }
  { intros x y Hx Hy Hxy. apply index_compress in Hxy; [|by rewrite Hcap..].
    destruct (Hm x y Hx Hy Hxy) as [Hn Hp]. split; [done|]. intros e He.
    assert (edge_class u e ∈ edge_class u <$> outEdges G y) as (f & [= Hw Ht] & Hf)%list_elem_of_fmap.
    { rewrite <-Hp. apply list_elem_of_fmap. by exists e. }
    exists f. split_and!; [done..|]. apply (gw_target G Hwf) in He, Hf. apply index_compress; [by rewrite Hcap..|].
    symmetry. exact Ht. }
  exists (k `max` k0), u, G', B. split_and!; try done.
  - intros fuel Hf. split; [apply Hk0; lia|apply Hk; lia].
  - intros j Hj. destruct (Hs j Hj) as [v Hv]. destruct (Hreach v j Hv) as (r & Hr & Hrv).
    destruct (bi_roots _ _ _ HB r Hr) as (r' & Hr' & Hrr).
    destruct (bisimulation_rtc _ _ _ _ _ _ HB Hrv Hrr) as (j' & Hj' & HBj).
    rewrite (Hfun v j j' Hv HBj). by exists r'.
  - intros x y Hx Hy Hxy. apply index_compress; [by rewrite Hcap..|]. by apply Hu.
Qed.
End minimized.
