(* ===== verification/GraphProperties.v ===== *)
(** What reversing and minimizing a graph guarantee. *)
From S2P Require Import Prelude UnionFind Graph DFAMinimizer.
From S2P Require Import DFAMinimizer EquivalentGraph.
Import GraphTraits createEquivalentGraphFrom Log.

(** A graph with two roots; the vertices 2 and 3 are leaves with one label, 0 and
    1 have the same edges up to that, in another order. *)
Definition example_graph : AdjacencyList nat nat := {|
  Nodes := [7; 7; 9; 9; 8];
  Adj := [[2; 4]; [4; 3]; []; []; [3]];
  Roots := [0; 1]
|}.

(** Reversing a graph turns every edge around and makes the vertices without
    outgoing edges its roots; reversing it twice gives the labels and the edges
    of the graph back, in another order. *)
Theorem reverse_graph_involutive {T E W : Type} `{!Inhabited T} `{!EqDecision E} `{!GraphEdge E W}
    `{!GraphEdgeLaws E W} (G : AdjacencyList T E) :
  graph_wf G →
  graph_wf (reverseGraph G)
  ∧ Nodes (reverseGraph G) = Nodes G
  ∧ Roots (reverseGraph G) = filter (λ v, outDegree G v = 0) (vertices G)
  ∧ (∀ v e, e ∈ outEdges (reverseGraph G) v ↔
      v < size G ∧ ∃ x f, f ∈ outEdges G x ∧ target f = v ∧ e = withEdgeTarget f x)
  ∧ ∀ v, v < size G → outEdges (reverseGraph (reverseGraph G)) v ≡ₚ outEdges G v.
Proof.
  intros Hwf. pose proof (reverseGraph_spec G Hwf) as [HN _ _ HR].
  split_and!; [by apply reverse_wf|done|done|by intros; apply elem_of_reverse|].
  intros v. by apply reverse_twice_out.
Qed.

Lemma example_graph_wf : graph_wf example_graph.
Proof.
  split; [done| |].
  - intros v e He. pose proof (outEdges_lt _ _ _ He) as Hv. revert e He.
    do 5 (destruct v as [|v]; [apply Forall_forall; repeat constructor|]). unfold size in Hv. simpl in Hv. lia.
  - apply Forall_forall. repeat constructor.
Qed.

Lemma reverse_graph_involutive_witness :
  graph_wf example_graph
  ∧ (graph_wf (reverseGraph example_graph)
     ∧ Nodes (reverseGraph example_graph) = Nodes example_graph
     ∧ Roots (reverseGraph example_graph) = filter (λ v, outDegree example_graph v = 0) (vertices example_graph)
     ∧ (∀ v e, e ∈ outEdges (reverseGraph example_graph) v ↔
         v < size example_graph ∧ ∃ x f, f ∈ outEdges example_graph x ∧ target f = v ∧ e = withEdgeTarget f x)
     ∧ ∀ v, v < size example_graph →
         outEdges (reverseGraph (reverseGraph example_graph)) v ≡ₚ outEdges example_graph v)
  ∧ Adj (reverseGraph example_graph) = [[]; []; [0]; [1; 4]; [0; 1]].
Proof.
  split; [exact example_graph_wf|]. split; [|vm_compute; reflexivity].
  exact (reverse_graph_involutive example_graph example_graph_wf).
Defined.

(** C34: minimizing a graph returns, and so does building the graph of the
    classes. The new graph has no double edges, every vertex of it is reachable,
    and its labelled paths from the roots - with the label at their end, and
    whether they can be continued - are exactly those of the old graph; no two
    vertices that unfold to the same finite tree are kept apart. *)
Theorem minimized_graph_same_paths {T E W U : Type} `{!Inhabited T} `{!EqDecision T} `{!EqDecision E}
    `{!EqDecision W} `{!GraphEdge E W} `{!GraphEdgeLaws E W} `{!IntEqClasses U} `{!IntEqClassesLaws U}
    (G : AdjacencyList T E) :
  graph_wf G →
  ∃ k (Equiv : U) (G' : AdjacencyList T E),
    (∀ fuel, k ≤ fuel → minimizeGraph fuel G = Some Equiv ∧ create G Equiv fuel = Some G')
    ∧ graph_wf G' ∧ (∀ v, NoDup (outEdges G' v)) ∧ (∀ v, v < size G' → reachable G' v)
    ∧ (∀ tr last leaf, root_path G' tr last leaf ↔ root_path G tr last leaf)
    ∧ (∀ x y, x < size G → y < size G → unfold_eq G x y → ec_index Equiv x = ec_index Equiv y).
Proof.
  intros Hwf. destruct (minimized_graph_spec (U:=U) G Hwf) as (k & u & G' & B & Hk & Hwf' & Hnd & HB & HB' & Hr & _ & _ & Hu).
  exists k, (ec_compress u), G'. split_and!; [done..| |done].
  intros tr last leaf. split; by eapply bisimulation_root_path.
Qed.

(** The leaves are merged, then the vertices above them. *)
Lemma minimized_graph_same_paths_witness :
  graph_wf example_graph
  ∧ (∃ k (Equiv : Log.classes) (G' : AdjacencyList nat nat),
      (∀ fuel, k ≤ fuel → minimizeGraph fuel example_graph = Some Equiv ∧ create example_graph Equiv fuel = Some G')
      ∧ graph_wf G' ∧ (∀ v, NoDup (outEdges G' v)) ∧ (∀ v, v < size G' → reachable G' v)
      ∧ (∀ tr last leaf, root_path G' tr last leaf ↔ root_path example_graph tr last leaf)
      ∧ (∀ x y, x < size example_graph → y < size example_graph → unfold_eq example_graph x y →
           ec_index Equiv x = ec_index Equiv y))
  ∧ (Equiv ← minimizeGraph (U:=Log.classes) 10 example_graph; create example_graph Equiv 10)
    = Some {| Nodes := [7; 8; 9]; Adj := [[1; 2]; [2]; []]; Roots := [0] |}.
Proof.
  split; [exact example_graph_wf|]. split; [|vm_compute; reflexivity].
  exact (minimized_graph_same_paths (U:=Log.classes) example_graph example_graph_wf).
Defined.
