(* ===== verification/ExplodedSuperGraph.v ===== *)
(** The exploded supergraph that the PathAwareIDESolver records
    (DataFlow/PathSensitivity/ExplodedSuperGraph.h). A node stands for the
    statements of a basic block through which a fact is passed on unchanged.
    [Node::NoPredId] and a null [NodeRef] are [None]. *)
From S2P Require Import Prelude IDESolver.

Module ExplodedSuperGraph.
Section esg.
Context {N D B : Type} `{Countable N} `{Countable D} `{!EqDecision B} `{!Inhabited N} `{!Inhabited D}.
(** The basic block of a statement. *)
Context (getParent : N → B).

Record NodeData := { Value : D; Source : N }.
Record NodeAdj := { PredecessorIdx : option nat; Neighbors : list nat }.

#[global] Instance NodeData_inhabited : Inhabited NodeData :=
  populate {| Value := inhabitant; Source := inhabitant |}.
#[global] Instance NodeAdj_inhabited : Inhabited NodeAdj :=
  populate {| PredecessorIdx := None; Neighbors := [] |}.

Record t := ESG {
  NodeDataOwner : list NodeData;
  NodeAdjOwner : list NodeAdj;
  FlowFactVertexMap : gmap (N * D) nat;
  ZeroValue : D
}.

Definition empty (ZeroValue : D) : t := ESG [] [] ∅ ZeroValue.

(** * [NodeRef] *)

Definition value (E : t) (NodeId : nat) : D := Value (NodeDataOwner E !!! NodeId).
Definition source (E : t) (NodeId : nat) : N := Source (NodeDataOwner E !!! NodeId).
Definition predecessor (E : t) (NodeId : nat) : option nat := PredecessorIdx (NodeAdjOwner E !!! NodeId).
Definition neighbors (E : t) (NodeId : nat) : list nat := Neighbors (NodeAdjOwner E !!! NodeId).
Definition hasNeighbors (E : t) (NodeId : nat) : bool := negb (bool_decide (neighbors E NodeId = [])).
(** Its result type is [bool]. *)
Definition getNumNeighbors (E : t) (NodeId : nat) : bool := negb (bool_decide (length (neighbors E NodeId) = 0)).

Definition size (E : t) : nat := length (NodeDataOwner E).
Definition getNodeOrNull (E : t) (Inst : N) (Fact : D) : option nat := FlowFactVertexMap E !! (Inst, Fact).

(** * Recording *)

Definition map_to (n : N) (d : D) (NodeId : nat) (E : t) : t :=
  ESG (NodeDataOwner E) (NodeAdjOwner E) (<[(n, d) := NodeId]> (FlowFactVertexMap E)) (ZeroValue E).

(** The lambda [makeNode]. *)
Definition makeNode (PredId : option nat) (Curr : N) (CurrNode SuccNode : D) (E : t) : nat * t :=
  let Ret := size E in
  let E := ESG (NodeDataOwner E ++ [{| Value := SuccNode; Source := Curr |}])
               (NodeAdjOwner E ++ [{| PredecessorIdx := PredId; Neighbors := [] |}])
               (FlowFactVertexMap E) (ZeroValue E) in
  (Ret, match PredId with None => map_to Curr CurrNode Ret E | Some _ => E end).

Definition set_predecessor (NodeId : nat) (PredId : option nat) (E : t) : t :=
  ESG (NodeDataOwner E)
    (alter (λ A, {| PredecessorIdx := PredId; Neighbors := Neighbors A |}) NodeId (NodeAdjOwner E))
    (FlowFactVertexMap E) (ZeroValue E).

Definition set_source (NodeId : nat) (Curr : N) (E : t) : t :=
  ESG (alter (λ Nod, {| Value := Value Nod; Source := Curr |}) NodeId (NodeDataOwner E))
    (NodeAdjOwner E) (FlowFactVertexMap E) (ZeroValue E).

Definition add_neighbor (NodeId NewNode : nat) (E : t) : t :=
  ESG (NodeDataOwner E)
    (alter (λ A, {| PredecessorIdx := PredecessorIdx A; Neighbors := Neighbors A ++ [NewNode] |}) NodeId (NodeAdjOwner E))
    (FlowFactVertexMap E) (ZeroValue E).

(** An edge that passes the fact on within the basic block of the node of its
    source. *)
Definition identity_edge (PredId : option nat) (Succ : N) (SuccNode : D) (E : t) : option nat :=
  PredId' ← PredId;
  if decide (value E PredId' = SuccNode ∧ getParent (source E PredId') = getParent Succ ∧ SuccNode ≠ ZeroValue E)
  then Some PredId' else None.

(** [SuccVtxNode] is the entry of the successor, [None] if it was just inserted. *)
Definition saveEdge (PredId : option nat) (Curr : N) (CurrNode : D) (Succ : N) (SuccNode : D)
    (MaySkipEdge : bool) (E : t) : t :=
  let make E := makeNode PredId Curr CurrNode SuccNode E in
  match FlowFactVertexMap E !! (Succ, SuccNode) with
  | None =>
    if MaySkipEdge && bool_decide (SuccNode = CurrNode) then
      let '(New, E) := make E in set_predecessor New None (map_to Succ SuccNode New E)
    else match identity_edge PredId Succ SuccNode E with
    | Some PredId => map_to Succ SuccNode PredId E
    | None => let '(New, E) := make E in map_to Succ SuccNode New E
    end
  | Some SuccVtxNode =>
    if MaySkipEdge && bool_decide (SuccNode = CurrNode) then E
    else if decide (identity_edge PredId Succ SuccNode E = Some SuccVtxNode) then E
    else match predecessor E SuccVtxNode with
    | None => set_source SuccVtxNode Curr (set_predecessor SuccVtxNode PredId E)
    | Some SuccPred =>
      if decide (Some SuccPred ≠ PredId ∧ Forall (λ Nd, predecessor E Nd ≠ PredId) (neighbors E SuccVtxNode))
      then let '(NewNode, E) := make E in add_neighbor SuccVtxNode NewNode E
      else E
    end
  end.

Definition saveEdges (Curr : N) (CurrNode : D) (Succ : N) (SuccNodes : list D) (Kind : ESGEdgeKind) (E : t) : t :=
  let PredId := getNodeOrNull E Curr CurrNode in
  let MaySkipEdge := match Kind with ESG_CallToRet => bool_decide (CurrNode = ZeroValue E) | _ => false end in
  for_each SuccNodes (λ SuccNode, saveEdge PredId Curr CurrNode Succ SuccNode MaySkipEdge) E.
End esg.
Arguments NodeData : clear implicits.
Arguments t N D {_ _ _ _}.
End ExplodedSuperGraph.

(** The solver that records the graph (Solver/PathAwareIDESolver.h): its
    [saveEdges] overrides the hook of the IDESolver. *)
Module PathAwareIDESolver.
Section solver.
Context {N D B : Type} `{Countable N} `{Countable D} `{!EqDecision B} `{!Inhabited N} `{!Inhabited D}.
Context (getParent : N → B).

(** The arguments of a call of the hook. *)
Record saved_edges := Saved {
  Curr : N;
  Succ : N;
  CurrNode : D;
  SuccNodes : list D;
  Kind : ESGEdgeKind
}.

Definition initial_ESG (getZeroValue : D) : ExplodedSuperGraph.t N D := ExplodedSuperGraph.empty getZeroValue.

Definition saveEdges (e : saved_edges) (ESG : ExplodedSuperGraph.t N D) : ExplodedSuperGraph.t N D :=
  ExplodedSuperGraph.saveEdges getParent (Curr e) (CurrNode e) (Succ e) (SuccNodes e) (Kind e) ESG.

(** The graph of a run in which the hook is called with [es]. *)
Definition getExplicitESG (getZeroValue : D) (es : list saved_edges) : ExplodedSuperGraph.t N D :=
  for_each es saveEdges (initial_ESG getZeroValue).
End solver.
Arguments saved_edges : clear implicits.
End PathAwareIDESolver.
