(* ===== verification/ExplodedSuperGraphCorrect.v ===== *)
(** The recorded exploded supergraph: its indices are in range, its nodes and
    links come from recorded edges, and no recorded edge is lost. *)
From S2P Require Import Prelude IDESolver ExplodedSuperGraph.
Import ExplodedSuperGraph.

Section esg.
Context {N D B : Type} `{Countable N} `{Countable D} `{!EqDecision B} `{!Inhabited N} `{!Inhabited D}.
Context (getParent : N → B).
Abbreviation graph := (t N D).
Implicit Types (E : graph) (i p q : nat) (n : N) (d : D).

(** * Accessors *)

Lemma lookup_total_alter_cases {A} `{!Inhabited A} (f : A → A) (l : list A) i j :
  i < length l → alter f i l !!! j = if decide (i = j) then f (l !!! j) else l !!! j.
Proof.
  intros Hi. case_decide as Hj; [subst; by rewrite list_lookup_total_alter_eq|by rewrite list_lookup_total_alter_ne].
Qed.

Lemma lookup_total_snoc {A} `{!Inhabited A} (l : list A) x j :
  (l ++ [x]) !!! j = if decide (j = length l) then x else l !!! j.
Proof.
  case_decide as Hj; [subst; by rewrite lookup_total_app_r, Nat.sub_diag by lia|].
  destruct (decide (j < length l)); [by rewrite lookup_total_app_l|].
  rewrite !list_lookup_total_alt, (lookup_ge_None_2 l), (lookup_ge_None_2 (l ++ _)); [done|..];
    rewrite ?length_app; simpl; lia.
Qed.

Lemma esg_eta E : E = ESG (NodeDataOwner E) (NodeAdjOwner E) (FlowFactVertexMap E) (ZeroValue E).
Proof. by destruct E. Qed.

Definition owners_agree E : Prop := length (NodeAdjOwner E) = length (NodeDataOwner E).

(** A node added behind the others. *)
Record added E PredId n d E' : Prop := {
  ad_data : NodeDataOwner E' = NodeDataOwner E ++ [{| Value := d; Source := n |}];
  ad_adj : NodeAdjOwner E' = NodeAdjOwner E ++ [{| PredecessorIdx := PredId; Neighbors := [] |}];
  ad_zero : ZeroValue E' = ZeroValue E
}.

Lemma makeNode_added PredId n d d' E i E' :
  makeNode PredId n d d' E = (i, E') →
  i = size E ∧ added E PredId n d' E'
  ∧ FlowFactVertexMap E' = match PredId with None => <[(n, d) := i]> (FlowFactVertexMap E) | Some _ => FlowFactVertexMap E end.
Proof. unfold makeNode. intros [= <- <-]. by destruct PredId. Qed.

Lemma added_access E PredId n d E' j :
  owners_agree E → added E PredId n d E' →
  owners_agree E' ∧ size E' = S (size E)
  ∧ value E' j = (if decide (j = size E) then d else value E j)
  ∧ source E' j = (if decide (j = size E) then n else source E j)
  ∧ predecessor E' j = (if decide (j = size E) then PredId else predecessor E j)
  ∧ neighbors E' j = (if decide (j = size E) then [] else neighbors E j).
Proof.
  unfold owners_agree, size, value, source, predecessor, neighbors. intros Hlen [-> -> _].
  rewrite !length_app, !lookup_total_snoc, Hlen. simpl. split_and!; [lia..| | | |]; by case_decide.
Qed.

Lemma set_predecessor_access E i PredId j :
  owners_agree E → i < size E →
  let E' := set_predecessor i PredId E in
  owners_agree E' ∧ size E' = size E
  ∧ value E' j = value E j ∧ source E' j = source E j
  ∧ predecessor E' j = (if decide (i = j) then PredId else predecessor E j)
  ∧ neighbors E' j = neighbors E j.
Proof.
  unfold owners_agree, size, value, source, predecessor, neighbors. intros Hlen Hi. simpl.
  rewrite length_alter, lookup_total_alter_cases by lia. split_and!; try done; by case_decide.
Qed.

Lemma set_source_access E i n j :
  owners_agree E → i < size E →
  let E' := set_source i n E in
  owners_agree E' ∧ size E' = size E
  ∧ value E' j = value E j ∧ source E' j = (if decide (i = j) then n else source E j)
  ∧ predecessor E' j = predecessor E j ∧ neighbors E' j = neighbors E j.
Proof.
  unfold owners_agree, size, value, source, predecessor, neighbors. intros Hlen Hi. simpl.
  rewrite length_alter, lookup_total_alter_cases by lia. split_and!; try done; by case_decide.
Qed.

Lemma add_neighbor_access E i q j :
  owners_agree E → i < size E →
  let E' := add_neighbor i q E in
  owners_agree E' ∧ size E' = size E
  ∧ value E' j = value E j ∧ source E' j = source E j ∧ predecessor E' j = predecessor E j
  ∧ neighbors E' j = (if decide (i = j) then neighbors E j ++ [q] else neighbors E j).
Proof.
  unfold owners_agree, size, value, source, predecessor, neighbors. intros Hlen Hi. simpl.
  rewrite length_alter, lookup_total_alter_cases by lia. split_and!; try done; by case_decide.
Qed.

Lemma access_out_of_range E i : owners_agree E → size E ≤ i → predecessor E i = None ∧ neighbors E i = [].
Proof.
  unfold owners_agree, size, predecessor, neighbors. intros Hlen Hi.
  rewrite list_lookup_total_alt, lookup_ge_None_2 by lia. done.
Qed.

(** * Nodes and links stand for recorded edges *)

(** The recorded edges. *)
Context (R : N → D → N → D → Prop).

(** Node [i] stands for the fact [d] at [n]: it holds [d], or [(n, d)] is a start
    from which the fact of [i] was reached. *)
Definition fits E i n d : Prop := i < size E ∧ (value E i = d ∨ ∃ m, R n d m (value E i)).

(** Node [i] was entered by a recorded edge, out of what its predecessor stands for. *)
Definition entered E i : Prop :=
  ∃ d m d', R (source E i) d m d' ∧ fits E i m d'
    ∧ ∀ p, predecessor E i = Some p → fits E p (source E i) d.

(** A further entry of [i], the fact of [q] at some statement. *)
Definition alternative E i q : Prop := q < size E ∧ ∃ n d m, R n d m (value E q) ∧ fits E i m (value E q).

Record esg_ok E : Prop := {
  eo_len : owners_agree E;
  eo_map n d i : FlowFactVertexMap E !! (n, d) = Some i → fits E i n d;
  eo_node i : i < size E → entered E i;
  eo_neighbor i q : q ∈ neighbors E i → alternative E i q;
  eo_start i : predecessor E i = None → neighbors E i = []
}.

(** What later recordings keep. *)
Record grows E E' : Prop := {
  gr_size : size E ≤ size E';
  gr_zero : ZeroValue E' = ZeroValue E;
  gr_value i : i < size E → value E' i = value E i;
  gr_pred i p : predecessor E i = Some p → predecessor E' i = Some p ∧ source E' i = source E i;
  gr_neighbor i q : q ∈ neighbors E i → q ∈ neighbors E' i
}.

#[export] Instance grows_preorder : PreOrder grows.
Proof.
  split; [by split|]. intros E1 E2 E3 [H1 H2 H3 H4 H5] [G1 G2 G3 G4 G5]. split.
  - lia.
  - congruence.
  - intros i Hi. rewrite G3, H3; [done|done|lia].
  - intros i p Hp. destruct (H4 i p Hp) as [Hp' Hs]. destruct (G4 i p Hp') as [? ->]. done.
  - auto.
Qed.

Lemma fits_grows E E' i n d : grows E E' → fits E i n d → fits E' i n d.
Proof.
  intros [H1 _ H3 _ _] [Hi Hf]. split; [lia|]. by rewrite H3.
Qed.

Lemma alternative_grows E E' i q : grows E E' → alternative E i q → alternative E' i q.
Proof.
  intros Hg (Hq & n & d & m & HR & Hf). pose proof (gr_size _ _ Hg). split; [lia|].
  exists n, d, m. rewrite (gr_value _ _ Hg) by done. split; [done|]. by eapply fits_grows.
Qed.

Lemma entered_grows E E' i :
  grows E E' → source E' i = source E i → predecessor E' i = predecessor E i → entered E i → entered E' i.
Proof.
  intros Hg Hs Hp (d & m & d' & HR & Hf & Hpred). exists d, m, d'. rewrite Hs, Hp.
  split_and!; [done|by eapply fits_grows|]. intros p Hpp. eapply fits_grows; [done|]. auto.
Qed.

(** Every operation changes at most one node, given by its accessors. *)
Lemma esg_ok_step E E' :
  esg_ok E → owners_agree E' → FlowFactVertexMap E' = FlowFactVertexMap E → grows E E' →
  (∀ i, i < size E' → predecessor E' i = predecessor E i ∧ source E' i = source E i ∧ i < size E ∨ entered E' i) →
  (∀ i q, q ∈ neighbors E' i → q ∈ neighbors E i ∨ alternative E' i q) →
  (∀ i, predecessor E' i = None → neighbors E' i = []) →
  esg_ok E'.
Proof.
  intros [H1 H2 H3 H4 H5] Hlen Hmap Hg Hnode Hnb Hstart. split; try done.
  - intros n d i. rewrite Hmap. intros Hi. eapply fits_grows; eauto.
  - intros i Hi. destruct (Hnode i Hi) as [(Hp & Hs & Hlt)|]; [|done]. eapply entered_grows; eauto.
  - intros i q Hq. destruct (Hnb i q Hq); [|done]. eapply alternative_grows; eauto.
Qed.

Lemma map_to_grows n d i E : grows E (map_to n d i E).
Proof. by split. Qed.

Lemma map_to_ok n d i E : esg_ok E → fits E i n d → esg_ok (map_to n d i E).
Proof.
  intros [H1 H2 H3 H4 H5] Hi. split; try done. intros n' d' i'. simpl.
  rewrite lookup_insert_Some. intros [[[= <- <-] <-]|[_ ?]]; [done|by apply H2].
Qed.

Lemma map_to_lookup n d i E n' d' :
  FlowFactVertexMap (map_to n d i E) !! (n', d') = (if decide ((n, d) = (n', d')) then Some i else FlowFactVertexMap E !! (n', d')).
Proof. simpl. by rewrite lookup_insert. Qed.

Lemma makeNode_ok PredId n d m d' E i E' :
  esg_ok E → (∀ p, PredId = Some p → fits E p n d) → R n d m d' → makeNode PredId n d d' E = (i, E') →
  esg_ok E' ∧ grows E E' ∧ i = size E ∧ value E' i = d' ∧ i < size E' ∧ predecessor E' i = PredId
  ∧ (∀ x i', FlowFactVertexMap E !! x = Some i' → FlowFactVertexMap E' !! x = Some i' ∨ PredId = None ∧ x = (n, d) ∧ is_Some (FlowFactVertexMap E' !! x)).
Proof.
  intros Hok Hp HR Hmk. apply makeNode_added in Hmk as (-> & Had & Hmap).
  set (E1 := ESG (NodeDataOwner E') (NodeAdjOwner E') (FlowFactVertexMap E) (ZeroValue E')).
  assert (added E PredId n d' E1) as Had1 by (by destruct Had).
  pose proof (λ j, added_access E PredId n d' E1 j (eo_len E Hok) Had1) as Hacc.
  assert (grows E E1) as Hg.
  { destruct (Hacc 0) as (Hl & Hs & _). split.
    - lia.
    - by destruct Had.
    - intros j Hj. destruct (Hacc j) as (_ & _ & -> & _). rewrite decide_False by lia. done.
    - intros j p Hj. destruct (Hacc j) as (_ & _ & _ & -> & -> & _). case_decide; [|done]. subst j.
      destruct (access_out_of_range E (size E)) as [? _]; [apply Hok|lia|congruence].
    - intros j q Hj. destruct (Hacc j) as (_ & _ & _ & _ & _ & ->). case_decide; [|done]. subst j.
      destruct (access_out_of_range E (size E)) as [_ Hnil]; [apply Hok|lia|]. by rewrite Hnil in Hj. }
  assert (fits E1 (size E) m d') as Hnew.
  { destruct (Hacc (size E)) as (_ & Hs & Hv & _). split; [lia|]. left. rewrite Hv. by rewrite decide_True. }
  assert (esg_ok E1) as Hok1.
  { apply (esg_ok_step E); try done.
    - apply (Hacc 0).
    - intros j Hj. destruct (Hacc j) as (_ & Hs & _ & Hsrc & Hpred & _). rewrite Hs in Hj.
      destruct (decide (j = size E)) as [->|]; [right|left; split_and!; [done..|lia]].
      exists d, m, d'. rewrite Hsrc, Hpred. split_and!; [done..|]. intros p ->. eapply fits_grows; eauto.
    - intros j q. destruct (Hacc j) as (_ & _ & _ & _ & _ & ->). case_decide; [by intros ?%elem_of_nil|by left].
    - intros j. destruct (Hacc j) as (_ & _ & _ & _ & -> & ->). case_decide; [done|]. apply Hok. }
  assert (E' = match PredId with None => map_to n d (size E) E1 | Some _ => E1 end) as HE.
  { rewrite (esg_eta E'), Hmap. by destruct PredId. }
  assert (FlowFactVertexMap E1 = FlowFactVertexMap E) as Hmap1 by done. clearbody E1. subst E'.
  destruct (Hacc (size E)) as (_ & Hs & Hv & _ & Hpr & _). rewrite decide_True in Hv by done. rewrite decide_True in Hpr by done.
  destruct PredId as [p|]; simpl in *.
  - split_and!; try done; [lia|]. intros x i' Hx. left. by rewrite Hmap1.
  - split_and!; try done.
    + apply map_to_ok; [done|]. split; [lia|]. right. exists m. by rewrite Hv.
    + by trans E1; [|apply map_to_grows].
    + change (size E < size E1). lia.
    + intros x i' Hx. destruct (decide ((n, d) = x)) as [<-|Hne]; [right; by rewrite lookup_insert_eq|]. left. by rewrite lookup_insert_ne, Hmap1.
Qed.

(** The node just added loses its predecessor. *)
Lemma unlink_ok E E' i :
  esg_ok E' → grows E E' → i = size E → i < size E' → neighbors E' i = [] → owners_agree E →
  esg_ok (set_predecessor i None E') ∧ grows E (set_predecessor i None E').
Proof.
  intros Hok Hg Hi Hlt Hnil Hlen. pose proof (λ j, set_predecessor_access E' i None j (eo_len E' Hok) Hlt) as Hacc.
  set (E2 := set_predecessor i None E') in *. destruct (Hacc 0) as (Hlen2 & Hs & _).
  assert (grows E E2) as Hg2.
  { destruct Hg as [G1 G2 G3 G4 G5]. split; [lia|done|..].
    - intros j Hj. destruct (Hacc j) as (_ & _ & -> & _). auto.
    - intros j p Hp. destruct (Hacc j) as (_ & _ & _ & -> & -> & _). case_decide as Hij; [|by apply G4].
      subst j. destruct (access_out_of_range E i) as [? _]; [done|lia|congruence].
    - intros j q. destruct (Hacc j) as (_ & _ & _ & _ & _ & ->). auto. }
  assert (∀ j n d, fits E' j n d → fits E2 j n d) as Hfits.
  { intros j n d [Hj Hf]. destruct (Hacc j) as (_ & _ & Hv & _). split; [lia|]. by rewrite Hv. }
  split; [|done]. destruct Hok as [H1 H2 H3 H4 H5]. split; [done|..].
  - intros n d j Hj. apply Hfits. by apply H2.
  - intros j Hj. rewrite Hs in Hj. destruct (H3 j Hj) as (d & m & d' & HR & Hf & Hp).
    destruct (Hacc j) as (_ & _ & _ & Hsrc & Hpr & _). exists d, m, d'. rewrite Hsrc, Hpr.
    split_and!; [done|auto|]. intros p. case_decide; [done|]. intros Hpp. auto.
  - intros j q. destruct (Hacc j) as (_ & _ & _ & _ & _ & ->). intros Hq.
    destruct (H4 j q Hq) as (Hlq & n & d & m & HR & Hf). split; [lia|]. exists n, d, m.
    destruct (Hacc q) as (_ & _ & -> & _). auto.
  - intros j. destruct (Hacc j) as (_ & _ & _ & _ & -> & ->). case_decide; [by subst|]. apply H5.
Qed.

(** A node without predecessor gets one. *)
Lemma enter_ok E i PredId n d m d' :
  esg_ok E → predecessor E i = None → fits E i m d' → (∀ p, PredId = Some p → fits E p n d) → R n d m d' →
  let E' := set_source i n (set_predecessor i PredId E) in
  esg_ok E' ∧ grows E E' ∧ predecessor E' i = PredId.
Proof.
  intros Hok Hnone Hi Hp HR. destruct Hi as [Hlt Hfi].
  pose proof (λ j, set_predecessor_access E i PredId j (eo_len E Hok) Hlt) as Hacc1.
  set (E1 := set_predecessor i PredId E) in *. destruct (Hacc1 0) as (Hlen1 & Hs1 & _).
  pose proof (λ j, set_source_access E1 i n j Hlen1 ltac:(lia)) as Hacc2. intros E'. fold E' in Hacc2.
  destruct (Hacc2 0) as (Hlen' & Hs' & _).
  assert (∀ j, value E' j = value E j ∧ source E' j = (if decide (i = j) then n else source E j)
    ∧ predecessor E' j = (if decide (i = j) then PredId else predecessor E j) ∧ neighbors E' j = neighbors E j) as Hacc.
  { intros j. destruct (Hacc1 j) as (_ & _ & <- & <- & <- & <-), (Hacc2 j) as (_ & _ & -> & -> & -> & ->).
    done. }
  assert (grows E E') as Hg.
  { split; [lia|done|..].
    - intros j _. by destruct (Hacc j) as (-> & _).
    - intros j p Hj. destruct (Hacc j) as (_ & -> & -> & _). case_decide; [congruence|done].
    - intros j q. by destruct (Hacc j) as (_ & _ & _ & ->). }
  split; [|split; [done|]].
  - apply (esg_ok_step E); try done.
    + intros j Hj. destruct (Hacc j) as (_ & Hsrc & Hpr & _). case_decide as Hij; [subst j; right|left; split_and!; [done..|lia]].
      exists d, m, d'. rewrite Hsrc, Hpr. split_and!; [done|by eapply fits_grows|].
      intros p ->. eapply fits_grows; eauto.
    + intros j q. destruct (Hacc j) as (_ & _ & _ & ->). by left.
    + intros j. destruct (Hacc j) as (_ & _ & -> & ->). case_decide as Hij; [|apply Hok].
      subst j. intros _. by apply Hok.
  - destruct (Hacc i) as (_ & _ & -> & _). by rewrite decide_True.
Qed.

Lemma add_neighbor_ok E i q :
  esg_ok E → i < size E → predecessor E i ≠ None → alternative E i q →
  esg_ok (add_neighbor i q E) ∧ grows E (add_neighbor i q E) ∧ q ∈ neighbors (add_neighbor i q E) i.
Proof.
  intros Hok Hlt Hsome Hq. pose proof (λ j, add_neighbor_access E i q j (eo_len E Hok) Hlt) as Hacc.
  set (E' := add_neighbor i q E) in *. destruct (Hacc 0) as (Hlen & Hs & _).
  assert (grows E E') as Hg.
  { split; [lia|done|..].
    - intros j _. by destruct (Hacc j) as (_ & _ & -> & _).
    - intros j p. by destruct (Hacc j) as (_ & _ & _ & -> & -> & _).
    - intros j q'. destruct (Hacc j) as (_ & _ & _ & _ & _ & ->). case_decide; [|done]. set_solver. }
  split; [|split; [done|]].
  - apply (esg_ok_step E); try done.
    + intros j Hj. left. destruct (Hacc j) as (_ & _ & _ & ? & ? & _). split_and!; [done..|lia].
    + intros j q'. destruct (Hacc j) as (_ & _ & _ & _ & _ & ->). case_decide as Hij; [|by left]. subst j.
      intros [?| ->%list_elem_of_singleton]%elem_of_app; [by left|right]. by eapply alternative_grows.
    + intros j. destruct (Hacc j) as (_ & _ & _ & _ & -> & ->). case_decide as Hij; [by subst j|]. apply Hok.
  - destruct (Hacc i) as (_ & _ & _ & _ & _ & ->). rewrite decide_True by done. set_solver.
Qed.

(** The node [p] itself, for a fact it passes on unchanged. *)
Definition passed_on E p d : Prop := p < size E ∧ value E p = d ∧ d ≠ ZeroValue E.

(** The link from [p] to the node of [(n, d)]. *)
Definition represented E p n d : Prop :=
  ∃ i, FlowFactVertexMap E !! (n, d) = Some i
    ∧ (i = p ∧ passed_on E p d ∨ predecessor E i = Some p ∨ ∃ q, q ∈ neighbors E i ∧ predecessor E q = Some p).

(** The nodes of all pairs but a start stay. *)
Definition keeps (start : Prop) n d E E' : Prop :=
  ∀ x i, FlowFactVertexMap E !! x = Some i → FlowFactVertexMap E' !! x = Some i ∨ start ∧ x = (n, d) ∧ is_Some (FlowFactVertexMap E' !! x).

Lemma keeps_trans (start : Prop) n d E1 E2 E3 : keeps start n d E1 E2 → keeps start n d E2 E3 → keeps start n d E1 E3.
Proof.
  intros H1 H2 x i Hx. destruct (H1 x i Hx) as [|(? & -> & j & Hj)]; [auto|]. right. split_and!; [done..|].
  destruct (H2 _ j Hj) as [->|(_ & _ & ?)]; [by eexists|done].
Qed.

Lemma keeps_map_to (start : Prop) n d E E' n' d' i :
  FlowFactVertexMap E !! (n', d') = None → keeps start n d E E' → keeps start n d E (map_to n' d' i E').
Proof.
  intros Hnone Hk x j Hx. simpl. rewrite lookup_insert_ne by congruence. by apply Hk.
Qed.

(** A new node, reached from [PredId]. *)
Lemma make_and_map PredId n d m d' E i E' :
  esg_ok E → (∀ p, PredId = Some p → fits E p n d) → R n d m d' → FlowFactVertexMap E !! (m, d') = None →
  makeNode PredId n d d' E = (i, E') →
  let E2 := map_to m d' i E' in
  esg_ok E2 ∧ grows E E2 ∧ keeps (PredId = None) n d E E2 ∧ FlowFactVertexMap E2 !! (m, d') = Some i
  ∧ i = size E ∧ i < size E2 ∧ predecessor E2 i = PredId ∧ neighbors E2 i = [].
Proof.
  intros Hok Hp HR Hnone Hmk.
  destruct (makeNode_ok PredId n d m d' E i E') as (Hok' & Hg & Hi & Hv & Hlt & Hpr & Hkeep); [done..|].
  split_and!; try done.
  - apply map_to_ok; [done|]. split; [done|]. by left.
  - trans E'; [done|apply map_to_grows].
  - by apply keeps_map_to.
  - simpl. by rewrite lookup_insert_eq.
  - change (neighbors E' i = []). apply makeNode_added in Hmk as (-> & Had & _).
    destruct (added_access E PredId n d' E' (size E) (eo_len E Hok) Had) as (_ & _ & _ & _ & _ & ->).
    by rewrite decide_True.
Qed.

Lemma identity_edge_Some PredId m d' E p :
  identity_edge getParent PredId m d' E = Some p → PredId = Some p ∧ value E p = d' ∧ d' ≠ ZeroValue E.
Proof. unfold identity_edge. destruct PredId as [q|]; simpl; [|done]. case_decide; naive_solver. Qed.

Lemma saveEdge_ok PredId n d m d' skip E :
  esg_ok E → (∀ p, PredId = Some p → fits E p n d) → R n d m d' →
  let E' := saveEdge getParent PredId n d m d' skip E in
  esg_ok E' ∧ grows E E' ∧ keeps (PredId = None) n d E E' ∧ is_Some (FlowFactVertexMap E' !! (m, d'))
  ∧ ∀ p, PredId = Some p → skip && bool_decide (d' = d) = false → represented E' p m d'.
Proof.
  intros Hok Hp HR. assert (keeps (PredId = None) n d E E) as Hrefl by (intros ???; by left).
  unfold saveEdge. destruct (FlowFactVertexMap E !! (m, d')) as [i|] eqn:Hm.
  - pose proof (eo_map E Hok m d' i Hm) as Hfi. destruct (_ && _); [by split_and!|].
    case_decide as Hid.
    { split_and!; try done. intros p ->. apply identity_edge_Some in Hid as ([= ->] & Hv & Hz).
      intros _. exists i. split; [done|]. left. split; [done|]. split; [by destruct Hfi|done]. }
    destruct (predecessor E i) as [sp|] eqn:Hpi.
    + case_decide as Hnew.
      * destruct (makeNode _ _ _ _ _) as [q E1] eqn:Hmk.
        destruct (makeNode_ok PredId n d m d' E q E1) as (Hok1 & Hg1 & -> & Hv & Hlt & Hpr & Hkeep); [done..|].
        destruct (add_neighbor_ok E1 i (size E)) as (Hok2 & Hg2 & Hin); [done|..].
        { pose proof (gr_size _ _ Hg1). destruct Hfi. lia. }
        { by destruct (gr_pred _ _ Hg1 i sp Hpi) as [-> _]. }
        { split; [done|]. exists n, d, m. rewrite Hv. split; [done|by eapply fits_grows]. }
        split_and!; [done|by trans E1|done| |].
        -- change (is_Some (FlowFactVertexMap E1 !! (m, d'))). destruct (Hkeep _ _ Hm) as [->|(_ & _ & ?)]; [by eexists|done].
        -- intros p -> _. exists i. split; [by destruct (Hkeep _ _ Hm) as [?|(? & _)]|]. right. right.
           exists (size E). split; [done|]. by destruct (gr_pred _ _ Hg2 (size E) p Hpr).
      * split_and!; try done. intros p -> _. exists i. split; [done|]. right.
        destruct (decide (predecessor E i = Some p)) as [|Hne]; [by left|right].
        destruct (decide (Exists (λ q, predecessor E q = Some p) (neighbors E i))) as [Hex|Hno]; [by apply Exists_exists in Hex as (q & ? & ?); exists q|].
        destruct Hnew. split; [congruence|]. by apply not_Exists_Forall in Hno; [|apply _].
    + destruct (enter_ok E i PredId n d m d') as (Hok' & Hg & Hpr); [done..|].
      split_and!; [done..|by eexists|]. intros p -> _. exists i. auto.
  - destruct (_ && _).
    + destruct (makeNode _ _ _ _ _) as [i E1] eqn:Hmk.
      destruct (make_and_map PredId n d m d' E i E1) as (Hok2 & Hg2 & Hk2 & Hl2 & Hi2 & Hlt2 & _ & Hnil); [done..|].
      destruct (unlink_ok E _ i Hok2 Hg2) as [Hok3 Hg3]; [done..|apply Hok|]. split_and!; [done..|by eexists|done].
    + destruct (identity_edge _ _ _ _ _) as [p|] eqn:Hid.
      * apply identity_edge_Some in Hid as (-> & Hv & Hz). split_and!.
        -- apply map_to_ok; [done|]. destruct (Hp p eq_refl) as [? _]. split; [done|by left].
        -- apply map_to_grows.
        -- by apply keeps_map_to.
        -- simpl. rewrite lookup_insert_eq. by eexists.
        -- intros p' [= <-] _. exists p. split; [simpl; by rewrite lookup_insert_eq|]. left.
           split; [done|]. split; [by destruct (Hp p eq_refl)|done].
      * destruct (makeNode _ _ _ _ _) as [i E1] eqn:Hmk.
        destruct (make_and_map PredId n d m d' E i E1) as (Hok2 & Hg2 & Hk2 & Hl2 & _ & _ & Hp2 & _); [done..|].
        split_and!; [done..|by eexists|]. intros p -> _. exists i. auto.
Qed.

Lemma keeps_is_Some (start : Prop) n d E E' x :
  keeps start n d E E' → is_Some (FlowFactVertexMap E !! x) → is_Some (FlowFactVertexMap E' !! x).
Proof. intros Hk [i Hi]. destruct (Hk x i Hi) as [->|(_ & _ & ?)]; [by eexists|done]. Qed.

Lemma represented_grows E E' p n d :
  grows E E' → (∀ x i, FlowFactVertexMap E !! x = Some i → FlowFactVertexMap E' !! x = Some i) →
  represented E p n d → represented E' p n d.
Proof.
  intros Hg Hm (i & Hi & Hp). exists i. split; [auto|].
  destruct Hp as [(-> & Hlt & Hv & Hz)|[Hp|(q & Hq & Hp)]]; [left|right; left|right; right; exists q].
  - pose proof (gr_size _ _ Hg). split; [done|]. split; [lia|]. by rewrite (gr_value _ _ Hg), (gr_zero _ _ Hg).
  - by destruct (gr_pred _ _ Hg i p Hp).
  - split; [by apply Hg|]. by destruct (gr_pred _ _ Hg q p Hp).
Qed.

(** The edges that are left out: the zero fact around a call. *)
Definition skipped (ZeroVal : D) (Kind : ESGEdgeKind) d d' : bool :=
  match Kind with ESG_CallToRet => bool_decide (d = ZeroVal) | _ => false end && bool_decide (d' = d).

Lemma saveEdges_ok n d m ds Kind E :
  esg_ok E → (∀ d', d' ∈ ds → R n d m d') →
  let E' := saveEdges getParent n d m ds Kind E in
  esg_ok E' ∧ grows E E' ∧ (∀ x i, FlowFactVertexMap E !! x = Some i → FlowFactVertexMap E' !! x = Some i)
  ∧ ∀ d', d' ∈ ds → is_Some (FlowFactVertexMap E' !! (m, d'))
      ∧ ∀ p, FlowFactVertexMap E !! (n, d) = Some p → skipped (ZeroValue E) Kind d d' = false → represented E' p m d'.
Proof.
  intros Hok HR. unfold saveEdges, getNodeOrNull, skipped.
  set (skip := match Kind with ESG_CallToRet => _ | _ => false end).
  set (PredId := FlowFactVertexMap E !! (n, d)). set (body := λ d', saveEdge _ PredId n d m d' skip).
  assert (esg_ok (for_each ds body E) ∧ grows E (for_each ds body E) ∧ keeps (PredId = None) n d E (for_each ds body E)
    ∧ ∀ d', d' ∈ ds → is_Some (FlowFactVertexMap (for_each ds body E) !! (m, d'))
      ∧ ∀ p, PredId = Some p → skip && bool_decide (d' = d) = false → represented (for_each ds body E) p m d')
    as (H1 & H2 & H3 & H4).
  { apply (for_each_ind (λ l E', esg_ok E' ∧ grows E E' ∧ keeps (PredId = None) n d E E'
      ∧ ∀ d', d' ∈ l → is_Some (FlowFactVertexMap E' !! (m, d'))
        ∧ ∀ p, PredId = Some p → skip && bool_decide (d' = d) = false → represented E' p m d')).
    - split_and!; [done..|intros ???; by left|by intros ? ?%elem_of_nil].
    - intros l d' E1 Hd' (I1 & I2 & I3 & I4).
      destruct (saveEdge_ok PredId n d m d' skip E1) as (J1 & J2 & J3 & J4 & J5); [done| |by apply HR|].
      { intros p Hp. eapply fits_grows; [done|]. by apply Hok. }
      split_and!; [done|by trans E1|by eapply keeps_trans|]. intros x [Hx| ->%list_elem_of_singleton]%elem_of_app; [|done].
      destruct (I4 x Hx) as [K1 K2]. split; [by eapply keeps_is_Some|]. intros p Hp Hs.
      eapply represented_grows; [done| |by apply K2]. intros y i Hy. destruct (J3 y i Hy) as [|(? & _)]; [done|congruence]. }
  split_and!; [done..| |done]. intros x i Hx. destruct (H3 x i Hx) as [|(HPn & -> & _)]; [done|]. unfold PredId in HPn.
  congruence.
Qed.

Lemma empty_ok Z : esg_ok (empty Z).
Proof.
  split; try done.
  - intros i Hi. unfold size in Hi. simpl in Hi. lia.
  - intros i q. unfold neighbors. simpl. by intros ?%elem_of_nil.
Qed.
End esg.

(** * The graph of a run *)

Section run.
Context {N D B : Type} `{Countable N} `{Countable D} `{!EqDecision B} `{!Inhabited N} `{!Inhabited D}.
Context (getParent : N → B).
Import PathAwareIDESolver.
Implicit Types (es : list (saved_edges N D)).

Definition recorded es (n : N) (d : D) (m : N) (d' : D) : Prop :=
  ∃ e, e ∈ es ∧ Curr e = n ∧ CurrNode e = d ∧ Succ e = m ∧ d' ∈ SuccNodes e.

(** The graph of the whole run, in terms of the one before its last edges. *)
Lemma run_ok R Z es es' (E : ExplodedSuperGraph.t N D) :
  (∀ n d m d', recorded es' n d m d' → R n d m d') → esg_ok R E → ZeroValue E = Z →
  let E' := for_each es' (PathAwareIDESolver.saveEdges getParent) E in
  esg_ok R E' ∧ grows E E' ∧ ZeroValue E' = Z
  ∧ ∀ x i, FlowFactVertexMap E !! x = Some i → FlowFactVertexMap E' !! x = Some i.
Proof.
  intros HR Hok HZ. apply (for_each_inv (λ E', esg_ok R E' ∧ grows E E' ∧ ZeroValue E' = Z
    ∧ ∀ x i, FlowFactVertexMap E !! x = Some i → FlowFactVertexMap E' !! x = Some i)); [by split_and!|].
  intros e E1 He (I1 & I2 & I3 & I4).
  destruct (saveEdges_ok getParent R (Curr e) (CurrNode e) (Succ e) (SuccNodes e) (Kind e) E1 I1) as (J1 & J2 & J3 & _).
  { intros d' Hd. apply HR. by exists e. }
  split_and!; [done|by etrans| |auto]. rewrite <-I3. apply (gr_zero _ _ J2).
Qed.

Lemma getExplicitESG_ok Z es : esg_ok (recorded es) (getExplicitESG getParent Z es).
Proof.
  apply (run_ok (recorded es) Z [] es (initial_ESG Z)); [done|apply empty_ok|done].
Qed.

(** A recorded edge is still represented at the end. *)
Lemma getExplicitESG_represented Z es1 e es2 d' :
  d' ∈ SuccNodes e →
  let E1 := getExplicitESG getParent Z es1 in
  let E := getExplicitESG getParent Z (es1 ++ e :: es2) in
  is_Some (FlowFactVertexMap E !! (Succ e, d'))
  ∧ ZeroValue E = Z
  ∧ ∀ p, FlowFactVertexMap E1 !! (Curr e, CurrNode e) = Some p → skipped Z (Kind e) (CurrNode e) d' = false →
      FlowFactVertexMap E !! (Curr e, CurrNode e) = Some p ∧ represented E p (Succ e) d'.
Proof.
  intros Hd. set (R := λ (_ : N) (_ : D) (_ : N) (_ : D), True).
  destruct (run_ok R Z [] es1 (initial_ESG Z)) as (H1 & _ & HZ1 & _); [done|apply empty_ok|done|].
  fold (getExplicitESG getParent Z es1) in H1, HZ1.
  destruct (saveEdges_ok getParent R (Curr e) (CurrNode e) (Succ e) (SuccNodes e) (Kind e) _ H1) as (J1 & J2 & J3 & J4);
    [done|].
  assert (getExplicitESG getParent Z (es1 ++ e :: es2) = for_each es2 (PathAwareIDESolver.saveEdges getParent)
    (ExplodedSuperGraph.saveEdges getParent (Curr e) (CurrNode e) (Succ e) (SuccNodes e) (Kind e)
      (getExplicitESG getParent Z es1))) as Heq by (unfold getExplicitESG; by rewrite for_each_app, for_each_cons).
  cbv zeta. rewrite Heq. clear Heq. set (E2 := ExplodedSuperGraph.saveEdges _ _ _ _ _ _ _) in *.
  destruct (run_ok R Z [] es2 E2) as (_ & K2 & KZ & K4); [done|done|rewrite <- HZ1; apply (gr_zero _ _ J2)|].
  destruct (J4 d' Hd) as [[i Hi] HL]. split; [eexists; by apply K4|]. split; [done|].
  intros p Hp Hs. rewrite HZ1 in HL. specialize (HL p Hp Hs). split; [by apply K4, J3|].
  by eapply represented_grows.
Qed.
End run.
