(* ===== verification/PathSensitivity.v ===== *)
(** Reconstruction of the paths that lead to a data-flow fact, as an acyclic
    graph (DataFlow/PathSensitivity/: PathSensitivityManagerMixin.h,
    PathSensitivityManagerBase.h, PathTracingFilter.h, PathSensitivityConfig.h). *)
From S2P Require Import Prelude UnionFind Graph DFAMinimizer ExplodedSuperGraph.
Import GraphTraits.

Record PathSensitivityConfig := {
  DAGSizeThreshold : Z;
  DAGDepthThreshold : Z;
  NumPathsThreshold : Z;
  MinimizeDAG : bool
}.

(** [SIZE_MAX]: no threshold. *)
Definition SIZE_MAX : Z := 2 ^ 64 - 1.

Definition default_path_config : PathSensitivityConfig := {|
  DAGSizeThreshold := SIZE_MAX; DAGDepthThreshold := SIZE_MAX; NumPathsThreshold := SIZE_MAX; MinimizeDAG := true
|}.

Definition withDAGSizeThreshold (MaxDAGSize : Z) (C : PathSensitivityConfig) : PathSensitivityConfig := {|
  DAGSizeThreshold := MaxDAGSize; DAGDepthThreshold := DAGDepthThreshold C;
  NumPathsThreshold := NumPathsThreshold C; MinimizeDAG := MinimizeDAG C
|}.

Definition withDAGDepthThreshold (MaxDAGDepth : Z) (C : PathSensitivityConfig) : PathSensitivityConfig := {|
  DAGSizeThreshold := DAGSizeThreshold C; DAGDepthThreshold := MaxDAGDepth;
  NumPathsThreshold := NumPathsThreshold C; MinimizeDAG := MinimizeDAG C
|}.

Definition withNumPathsThreshold (MaxNumPaths : Z) (C : PathSensitivityConfig) : PathSensitivityConfig := {|
  DAGSizeThreshold := DAGSizeThreshold C; DAGDepthThreshold := DAGDepthThreshold C;
  NumPathsThreshold := MaxNumPaths; MinimizeDAG := MinimizeDAG C
|}.

Definition withMinimizeDAG (DoMinimize : bool) (C : PathSensitivityConfig) : PathSensitivityConfig := {|
  DAGSizeThreshold := DAGSizeThreshold C; DAGDepthThreshold := DAGDepthThreshold C;
  NumPathsThreshold := NumPathsThreshold C; MinimizeDAG := DoMinimize
|}.

(** The filter is asked about a node and the next one, which may be null. *)
Record PathTracingFilter := {
  HasReachedEnd : nat → option nat → bool;
  IsErrorneousTransition : nat → option nat → bool
}.

Definition DefaultPathTracingFilter : PathTracingFilter :=
  {| HasReachedEnd _ _ := false; IsErrorneousTransition _ _ := false |}.

(** * [PathSensitivityManagerMixin] *)

Module PathSensitivityManagerMixin.
Section mixin.
Context {N D : Type} `{Countable N} `{Countable D} `{!Inhabited N} `{!Inhabited D}.
Context (E : ExplodedSuperGraph.t N D) (PFilter : PathTracingFilter).

(** A vertex holds the statements of a stretch of path, the last one first. *)
Abbreviation graph_type := (AdjacencyList (list N) nat).

(** [PathsToContext] and [RetDag]; [None] in the cache is [Invalid]. *)
Record state := State {
  Cache : gmap nat (option nat);
  CurrPath : list nat;
  RetDag : graph_type
}.

Definition initial_state : state := State ∅ [] empty.

Definition set_RetDag (Dag : graph_type) (s : state) : state := State (Cache s) (CurrPath s) Dag.
Definition set_Cache (Id : nat) (Vtx : option nat) (s : state) : state :=
  State (<[Id := Vtx]> (Cache s)) (CurrPath s) (RetDag s).

(** [node(RetDag, Ret).push_back(Inst)] and [.clear()]. *)
Definition push_node (Ret : nat) (Inst : N) (Dag : graph_type) : graph_type :=
  Build_AdjacencyList (alter (λ l, l ++ [Inst]) Ret (Nodes Dag)) (Adj Dag) (Roots Dag).
Definition clear_node (Ret : nat) (Dag : graph_type) : graph_type :=
  Build_AdjacencyList (alter (λ _, []) Ret (Nodes Dag)) (Adj Dag) (Roots Dag).

(** How the loop of [pathsToImplLAInvoke] is left: by its [return !IsError] in
    front of a null node, or with [Prev], [Vtx], [IsEnd] and [IsError]. *)
Inductive stretch :=
  | Returned (Valid : bool)
  | Stopped (Prev Vtx : nat) (IsEnd IsError : bool).

Fixpoint follow (fuel : nat) (Ret Vtx : nat) (Dag : graph_type) : option (stretch * graph_type) :=
  match fuel with
  | 0 => None
  | S fuel =>
    let Prev := Vtx in
    let Dag := push_node Ret (ExplodedSuperGraph.source E Vtx) Dag in
    let Next := ExplodedSuperGraph.predecessor E Vtx in
    let IsEnd := HasReachedEnd PFilter Prev Next in
    let IsError := negb IsEnd && IsErrorneousTransition PFilter Prev Next in
    match Next with
    | None => Some (Returned (negb IsError), Dag)
    | Some Vtx =>
      if (IsEnd || IsError) || ExplodedSuperGraph.hasNeighbors E Vtx
      then Some (Stopped Prev Vtx IsEnd IsError, Dag)
      else follow fuel Ret Vtx Dag
    end
  end.

Section invoke.
(** [pathsToImplLA]. *)
Context (LA : nat → state → option (option nat * state)).

Definition traverseNext (Ret Nxt : nat) (s : state) : option state :=
  '(Succ, s) ← LA Nxt s;
  match Succ with
  | Some Succ =>
    if decide (Succ ∈ CurrPath s) then Some s else Some (set_RetDag (addEdge (RetDag s) Ret Succ) s)
  | None => Some s
  end.

Definition traverse_neighbor (Ret Prev Nxt : nat) (o : option (bool * state)) : option (bool * state) :=
  '(IsEnd, s) ← o;
  if IsErrorneousTransition PFilter Prev (Some Nxt) then Some (IsEnd, s)
  else if HasReachedEnd PFilter Prev (Some Nxt) then Some (true, s)
  else s ← traverseNext Ret Nxt s; Some (IsEnd, s).

Definition pathsToImplLAInvoke (fuel : nat) (Ret Vtx : nat) (s : state) : option (bool * state) :=
  '(r, Dag) ← follow fuel Ret Vtx (RetDag s);
  let s := set_RetDag Dag s in
  match r with
  | Returned Valid => Some (Valid, s)
  | Stopped Prev Vtx IsEnd IsError =>
    if decide (Ret ∈ CurrPath s) then Some (false, s)
    else
      let s := State (Cache s) (CurrPath s ++ [Ret]) (RetDag s) in
      s ← (if negb IsEnd && negb IsError then traverseNext Ret Vtx s else Some s);
      '(IsEnd, s) ← for_each (ExplodedSuperGraph.neighbors E Vtx) (traverse_neighbor Ret Prev) (Some (IsEnd, s));
      let Dag := dedupOutEdges (RetDag s) Ret in
      Some (IsEnd || negb (bool_decide (outDegree Dag Ret = 0)),
            State (Cache s) (take (length (CurrPath s) - 1) (CurrPath s)) Dag)
  end.
End invoke.

(** [depth] bounds the recursion, [fuel] the loop. *)
Fixpoint pathsToImplLA (fuel depth : nat) (Vtx : nat) (s : state) : option (option nat * state) :=
  match depth with
  | 0 => None
  | S depth =>
    match Cache s !! Vtx with
    | Some Cached => Some (Cached, s)
    | None =>
      let '(Ret, Dag) := addNode (RetDag s) [] in
      let s := set_Cache Vtx (Some Ret) (set_RetDag Dag s) in
      '(Valid, s) ← pathsToImplLAInvoke (pathsToImplLA fuel depth) fuel Ret Vtx s;
      if Valid : bool then Some (Some Ret, s)
      else
        let s := set_Cache Vtx None s in
        let '(Popped, Dag) := if decide (Ret ∈ CurrPath s) then (false, RetDag s) else pop (RetDag s) Ret in
        Some (None, set_RetDag (if Popped : bool then Dag else clear_node Ret Dag) s)
    end
  end.

Definition link (fuel depth : nat) (Ret Nxt : nat) (o : option state) : option state :=
  s ← o;
  '(NBNode, s) ← pathsToImplLA fuel depth Nxt s;
  match NBNode with
  | Some NBNode => Some (set_RetDag (addEdge (RetDag s) Ret NBNode) s)
  | None => Some s
  end.

Definition pathsToImpl (fuel depth : nat) (QueryInst : N) (Vtx : nat) (s : state) : option (nat * state) :=
  let '(Ret, Dag) := addNode (RetDag s) [] in
  let s := set_RetDag (push_node Ret QueryInst Dag) s in
  s ← link fuel depth Ret Vtx (for_each (ExplodedSuperGraph.neighbors E Vtx) (link fuel depth Ret) (Some s));
  Some (Ret, set_RetDag (dedupOutEdges (RetDag s) Ret) s).

(** The facts of a query; [None] also when the code aborts on a fact that is not
    in the graph. *)
Definition query (fuel depth : nat) (Inst : N) (Fact : D) (o : option state) : option state :=
  s ← o;
  Nod ← ExplodedSuperGraph.getNodeOrNull E Inst Fact;
  '(Rt, s) ← pathsToImpl fuel depth Inst Nod s;
  Some (set_RetDag (addRoot (RetDag s) Rt) s).

Definition paths_graph (fuel depth : nat) (Inst : N) (FactsRange : list D) : option graph_type :=
  s ← for_each FactsRange (query fuel depth Inst) (Some initial_state);
  Some (RetDag s).
End mixin.
End PathSensitivityManagerMixin.

(** * [PathSensitivityManagerBase] *)

Module PathSensitivityManagerBase.
Section base.
Context {T : Type} `{!Inhabited T}.
Implicit Types (Dag : AdjacencyList T nat).

(** [assertIsDAG]: the vertices visited so far, and the verdict. *)
Fixpoint doAssertIsDAG Dag (fuel : nat) (CurrPath : list nat) (Vtx : nat) (Visited : gset nat) :
    option (bool * gset nat) :=
  match fuel with
  | 0 => None
  | S fuel =>
    if decide (Vtx ∈ CurrPath) then Some (false, Visited)
    else if decide (Vtx ∈ Visited) then Some (true, Visited)
    else for_each (outEdges Dag Vtx) (λ Succ o,
           '(IsDag, Visited) ← o;
           if IsDag : bool then doAssertIsDAG Dag fuel (Vtx :: CurrPath) Succ Visited else Some (false, Visited))
           (Some (true, {[Vtx]} ∪ Visited))
  end.

Definition assertIsDAG (fuel : nat) Dag : option bool :=
  fst <$> for_each (Roots Dag) (λ Rt o,
    '(IsDag, Visited) ← o;
    if IsDag : bool then doAssertIsDAG Dag fuel [] Rt Visited else Some (false, Visited)) (Some (true, ∅)).

(** [reverseDAG] with the identity as [Equiv]: the new graph, the copies made so
    far ([None] is [Invalid]), and the next level. *)
Record level := Level {
  Ret : AdjacencyList T nat;
  Cache : list (option nat);
  WLInsert : list (nat * nat)
}.

(** [Cache\[Vtx\]], made if it is [Invalid]. *)
Definition copy_of Dag (Vtx : nat) (s : level) : level :=
  match Cache s !!! Vtx with
  | Some _ => s
  | None =>
    let '(New, R) := addNode (Ret s) (node Dag Vtx) in
    Level R (<[Vtx := Some New]> (Cache s)) (WLInsert s ++ [(Vtx, New)])
  end.

Definition reverse_edge Dag (Rev Succ : nat) (s : level) : level :=
  let s := copy_of Dag Succ s in
  Level (addEdge (Ret s) (default 0 (Cache s !!! Succ)) Rev) (Cache s) (WLInsert s).

Definition reverse_vertex Dag (VtxRev : nat * nat) (s : level) : level :=
  let s := for_each (outEdges Dag VtxRev.1) (reverse_edge Dag VtxRev.2) s in
  if decide (outDegree Dag VtxRev.1 = 0) then Level (addRoot (Ret s) VtxRev.2) (Cache s) (WLInsert s) else s.

(** The loop over the levels, up to [MaxDepth]; [WLConsume] is the current one. *)
Fixpoint reverse_levels Dag (fuel : nat) (Depth MaxDepth : Z) (WLConsume : list (nat * nat)) (s : level) :
    option level :=
  if decide (WLConsume ≠ [] ∧ (Depth < MaxDepth)%Z) then
    match fuel with
    | 0 => None
    | S fuel =>
      let s := for_each WLConsume (reverse_vertex Dag) s in
      reverse_levels Dag fuel (Depth + 1) MaxDepth (WLInsert s) (Level (Ret s) (Cache s) [])
    end
  else Some (Level (Ret s) (Cache s) WLConsume).

Definition reverseDAG (fuel : nat) Dag (MaxDepth : Z) : option (AdjacencyList T nat) :=
  let s := for_each (Roots Dag) (copy_of Dag) (Level empty (replicate (size Dag) None) []) in
  s ← reverse_levels Dag fuel 0 MaxDepth (WLInsert s) (Level (Ret s) (Cache s) []);
  Some (for_each (WLInsert s) (λ VtxRev R, addRoot R VtxRev.2) (Ret s)).
End base.
End PathSensitivityManagerBase.

(** * [pathsDagToAll] *)

Section paths.
Context {N D U : Type} `{Countable N} `{Countable D} `{!Inhabited N} `{!Inhabited D} `{!IntEqClasses U}.

(** The steps after the graph was built. *)
Definition finish_dag (fuel : nat) (Config : PathSensitivityConfig) (Dag : AdjacencyList (list N) nat) :
    option (AdjacencyList (list N) nat) :=
  Dag ← (if decide (DAGDepthThreshold Config ≠ SIZE_MAX)
         then PathSensitivityManagerBase.reverseDAG fuel Dag (DAGDepthThreshold Config)
         else Some (reverseGraph Dag));
  if MinimizeDAG Config then
    Equiv ← minimizeGraph (U:=U) fuel Dag;
    createEquivalentGraphFrom.create Dag Equiv fuel
  else Some Dag.

Definition pathsDagToAll (fuel : nat) (E : ExplodedSuperGraph.t N D) (Inst : N) (FactsRange : list D)
    (Config : PathSensitivityConfig) (PFilter : PathTracingFilter) : option (AdjacencyList (list N) nat) :=
  Dag ← PathSensitivityManagerMixin.paths_graph E PFilter fuel fuel Inst FactsRange;
  finish_dag fuel Config Dag.

(** [pathsDagTo(Inst, Fact)]. *)
Definition pathsDagTo (fuel : nat) (E : ExplodedSuperGraph.t N D) (Inst : N) (Fact : D)
    (Config : PathSensitivityConfig) (PFilter : PathTracingFilter) : option (AdjacencyList (list N) nat) :=
  pathsDagToAll fuel E Inst [Fact] Config PFilter.

(** [pathsDagTo(Inst, SR)]: all facts of the result at [Inst], in the order in
    which they are met. *)
Definition pathsDagToResults {L : Type} (fuel : nat) (E : ExplodedSuperGraph.t N D) (Inst : N) (Res : list (D * L))
    (Config : PathSensitivityConfig) (PFilter : PathTracingFilter) : option (AdjacencyList (list N) nat) :=
  pathsDagToAll fuel E Inst Res.*1 Config PFilter.
End paths.
