(* ===== verification/PathSensitivityCorrect.v ===== *)
(** The graph of paths: it is acyclic, its paths are paths of the exploded
    supergraph, and all of them if that has no cycles; when building it returns. *)
From S2P Require Import Prelude Graph ExplodedSuperGraph ExplodedSuperGraphCorrect PathSensitivity.
From stdpp Require Import relations.
Import GraphTraits.

(** * Graphs whose open vertices are still without a way in *)

Section dag.
Context {X : Type}.
Abbreviation graph := (AdjacencyList (list X) nat).
Implicit Types (G : graph) (O : list nat) (v w : nat) (l : list X).

(** What is read along the paths from a vertex to a leaf. *)
Inductive spells G : nat → list X → Prop :=
  | spells_leaf v : outEdges G v = [] → spells G v (node G v)
  | spells_step v w l : w ∈ outEdges G v → spells G w l → spells G v (node G v ++ l).

Definition edge_back G : relation nat := λ w v, w ∈ outEdges G v.

Definition acyclic G : Prop := ∀ v, Acc (edge_back G) v.

(** [O] are the vertices that are still being built. *)
Record dag_ok O G : Prop := {
  do_len : length (Nodes G) = size G;
  do_open v : v ∈ O → v < size G;
  do_target v w : w ∈ outEdges G v → w < size G ∧ w ∉ O;
  do_acc v : v ∉ O → Acc (edge_back G) v
}.

(** All vertices of [G] are in [G'] as they were. *)
Record extends G G' : Prop := {
  ex_size : size G ≤ size G';
  ex_out v : v < size G → outEdges G' v = outEdges G v;
  ex_node v : v < size G → node G' v = node G v;
  ex_roots : Roots G' = Roots G
}.

#[export] Instance extends_preorder : PreOrder extends.
Proof.
  split; [by split|]. intros G1 G2 G3 [H1 H2 H3 H4] [K1 K2 K3 K4]. split; [lia|..|congruence].
  - intros v Hv. rewrite K2 by lia. auto.
  - intros v Hv. rewrite K3 by lia. auto.
Qed.

Lemma dag_ok_acyclic O G : dag_ok O G → acyclic G.
Proof. intros Hok v. constructor. intros w Hw. apply Hok, (do_target O G Hok v w Hw). Qed.

Lemma outEdges_ge G v : size G ≤ v → outEdges G v = [].
Proof. intros Hv. unfold outEdges, size in *. by rewrite list_lookup_total_alt, lookup_ge_None_2. Qed.

(** A finished vertex spells the same as long as the finished vertices stay. *)
Lemma spells_stable O G G' v l :
  (∀ v w, w ∈ outEdges G v → w < size G ∧ w ∉ O) →
  (∀ v, v < size G → v ∉ O → outEdges G' v = outEdges G v ∧ node G' v = node G v) →
  v < size G → v ∉ O → spells G' v l ↔ spells G v l.
Proof.
  intros Ht Hs Hv HO. split.
  - intros Hsp. induction Hsp as [v Hnil|v w l Hw _ IH]; destruct (Hs v Hv HO) as [Ho ->]; rewrite Ho in *.
    + by constructor.
    + destruct (Ht v w Hw) as [? ?]. econstructor; [done|]. auto.
  - intros Hsp. induction Hsp as [v Hnil|v w l Hw _ IH]; destruct (Hs v Hv HO) as [Ho <-].
    + constructor. congruence.
    + destruct (Ht v w Hw) as [? ?]. econstructor; [by rewrite Ho|]. auto.
Qed.

Lemma spells_old O G G' v l :
  dag_ok O G → (∀ v, v < size G → outEdges G' v = outEdges G v ∧ node G' v = node G v) → v < size G →
  spells G' v l ↔ spells G v l.
Proof.
  intros Hdag Hs Hv. apply (spells_stable []); [|auto|done|apply not_elem_of_nil]. intros u w Hw.
  split; [by apply (do_target _ _ Hdag u w)|apply not_elem_of_nil].
Qed.

Lemma spells_inv G v l :
  spells G v l → outEdges G v = [] ∧ l = node G v ∨ ∃ w l', w ∈ outEdges G v ∧ spells G w l' ∧ l = node G v ++ l'.
Proof. destruct 1; [by left|right]. eauto. Qed.

Lemma acyclic_spells G v : acyclic G → ∃ l, spells G v l.
Proof.
  intros Hacc. induction (Hacc v) as [v _ IH]. destruct (outEdges G v) as [|w ws] eqn:Hw; [eexists; by constructor|].
  destruct (IH w) as [l Hl]; [unfold edge_back; rewrite Hw; by left|]. eexists. eapply spells_step; [rewrite Hw; by left|exact Hl].
Qed.

(** ** Growing *)

Lemma size_addNode G x : size (addNode G x).2 = S (size G).
Proof. unfold size. simpl. rewrite length_app. simpl. lia. Qed.

Lemma addNode_out G x v : outEdges (addNode G x).2 v = outEdges G v.
Proof.
  unfold outEdges, addNode. simpl. rewrite lookup_total_snoc. case_decide as Hv; [|done].
  subst v. by rewrite list_lookup_total_alt, lookup_ge_None_2 by lia.
Qed.

Lemma addNode_node G x v :
  node (addNode G x).2 v = if decide (v = length (Nodes G)) then x else node G v.
Proof. apply lookup_total_snoc. Qed.

Lemma addNode_extends G x : length (Nodes G) = size G → extends G (addNode G x).2.
Proof.
  intros Hl. split; [rewrite size_addNode; lia|..|done].
  - intros v _. apply addNode_out.
  - intros v Hv. rewrite addNode_node, decide_False by lia. done.
Qed.

(** A graph of the same shape, but for the out-edges of open vertices. *)
Lemma dag_ok_edges O G G' :
  dag_ok O G → length (Nodes G') = size G' → size G ≤ size G' →
  (∀ v w, w ∈ outEdges G' v → w ∈ outEdges G v ∨ v ∈ O ∧ w < size G ∧ w ∉ O) → dag_ok O G'.
Proof.
  intros [H1 H2 H3 H4] Hl Hs Ho. split; [done|..].
  - intros v Hv. specialize (H2 v Hv). lia.
  - intros v w Hw. destruct (Ho v w Hw) as [Hin|(_ & ? & ?)]; [destruct (H3 v w Hin)|]; (split; [lia|done]).
  - intros v Hv. specialize (H4 v Hv). induction H4 as [v _ IH]. constructor. intros w Hw.
    destruct (Ho v w Hw) as [Hin|(? & _)]; [|done]. apply IH; [done|]. by apply (H3 v w).
Qed.

Lemma dag_ok_addNode O G x : dag_ok O G → dag_ok (size G :: O) (addNode G x).2.
Proof.
  intros Hok. assert (dag_ok (O) (addNode G x).2) as [H1 H2 H3 H4].
  { apply (dag_ok_edges O G); [done| |rewrite size_addNode; lia|].
    - rewrite size_addNode. simpl. rewrite length_app, (do_len O G Hok). simpl. lia.
    - intros v w. rewrite addNode_out. by left. }
  split; [done|..].
  - intros v [->|Hv]%elem_of_cons; [rewrite size_addNode; lia|auto].
  - intros v w Hw. split; [by eapply H3|]. rewrite addNode_out in Hw. destruct (do_target O G Hok v w Hw).
    apply not_elem_of_cons. split; [lia|done].
  - intros v [_ Hv]%not_elem_of_cons. auto.
Qed.

(** Closing a vertex. *)
Lemma dag_ok_close O G v : dag_ok (v :: O) G → dag_ok O G.
Proof.
  intros Hok. pose proof (dag_ok_acyclic _ _ Hok) as Hacc. destruct Hok as [H1 H2 H3 H4]. split; [done|..].
  - intros u Hu. apply H2. by right.
  - intros u w Hw. destruct (H3 u w Hw) as [? Hn]. split; [done|]. set_solver.
  - done.
Qed.

Lemma addEdge_elem G v w u x : v < size G → x ∈ outEdges (addEdge G v w) u ↔ x ∈ outEdges G u ∨ v = u ∧ x = w.
Proof.
  intros Hv. rewrite addEdge_out by done. rewrite elem_of_app. case_decide as Hd; [rewrite list_elem_of_singleton; naive_solver|].
  rewrite elem_of_nil. naive_solver.
Qed.

Lemma dedup_elem G v u x : x ∈ outEdges (dedupOutEdges G v) u ↔ x ∈ outEdges G u.
Proof.
  unfold outEdges, dedupOutEdges. simpl. destruct (decide (v < length (Adj G))) as [Hv|Hv].
  - rewrite lookup_total_alter_cases by done. case_decide; [apply elem_of_dedup|done].
  - destruct (decide (v = u)) as [<-|]; [|by rewrite list_lookup_total_alter_ne].
    by rewrite !list_lookup_total_alt, list_lookup_alter_eq, lookup_ge_None_2 by lia.
Qed.

Lemma dedup_spells G v u l : spells (dedupOutEdges G v) u l ↔ spells G u l.
Proof.
  assert (∀ G G' : graph, (∀ u x, x ∈ outEdges G u ↔ x ∈ outEdges G' u) → (∀ u, node G u = node G' u) →
    spells G u l → spells G' u l) as Hmono.
  { intros G1 G2 Ho Hn. induction 1 as [u Hnil|u w l Hw _ IH]; rewrite Hn.
    - constructor. apply elem_of_nil_inv. intros x. rewrite <-Ho, Hnil. apply not_elem_of_nil.
    - econstructor; [by apply Ho|done]. }
  split; apply Hmono; try done; intros; by rewrite dedup_elem.
Qed.

(** Removing double edges. *)
Lemma dedup_same O G n :
  let G' := dedupOutEdges G n in
  size G' = size G ∧ (∀ u x, x ∈ outEdges G' u ↔ x ∈ outEdges G u) ∧ (∀ u l, spells G' u l ↔ spells G u l)
  ∧ (∀ u, u ≠ n → outEdges G' u = outEdges G u) ∧ (dag_ok O G → dag_ok O G').
Proof.
  cbv zeta. assert (size (dedupOutEdges G n) = size G) as Hs by (unfold size; simpl; by rewrite length_alter).
  split_and!; [done|intros; apply dedup_elem|intros; apply dedup_spells| |].
  - intros u Hu. unfold outEdges. simpl. by rewrite list_lookup_total_alter_ne.
  - intros Hok. apply (dag_ok_edges _ G); [done|rewrite Hs; apply Hok|lia|]. intros v w. rewrite dedup_elem. by left.
Qed.
End dag.

(** * Paths of the exploded supergraph *)

Section mixin.
Context {N D : Type} `{Countable N} `{Countable D} `{!Inhabited N} `{!Inhabited D}.
Context (E : ExplodedSuperGraph.t N D) (F : PathTracingFilter).
Import PathSensitivityManagerMixin.
Abbreviation source := (ExplodedSuperGraph.source E).
Abbreviation predecessor := (ExplodedSuperGraph.predecessor E).
Abbreviation neighbors := (ExplodedSuperGraph.neighbors E).
Abbreviation graph_type := (AdjacencyList (list N) nat).
Implicit Types (s : state (N:=N)) (O : list nat) (i j p q v w : nat) (l : list N).

(** A step back leads to the predecessor, or to one of its alternatives. *)
Definition back i j : Prop := ∃ p, predecessor i = Some p ∧ (j = p ∨ j ∈ neighbors p).

(** The filter lets the step pass. *)
Definition passes i j : Prop := HasReachedEnd F i (Some j) = false ∧ IsErrorneousTransition F i (Some j) = false.

(** The statements of a path back to a start or to where the filter ends it. *)
Inductive traced : nat → list N → Prop :=
  | traced_start i : predecessor i = None →
      HasReachedEnd F i None || negb (IsErrorneousTransition F i None) = true → traced i [source i]
  | traced_end i p : predecessor i = Some p → HasReachedEnd F i (Some p) = true → traced i [source i]
  | traced_end_alternative i p q : predecessor i = Some p → q ∈ neighbors p →
      IsErrorneousTransition F i (Some q) = false → HasReachedEnd F i (Some q) = true → traced i [source i]
  | traced_step i j l : back i j → passes i j → traced j l → traced i (source i :: l).

(** [follow] appends the stretch it walks to the label. *)
Inductive stretches : nat → list N → stretch → Prop :=
  | stretches_start i b : predecessor i = None →
      b = HasReachedEnd F i None || negb (IsErrorneousTransition F i None) → stretches i [source i] (Returned b)
  | stretches_stop i p IsEnd IsError : predecessor i = Some p → IsEnd = HasReachedEnd F i (Some p) →
      IsError = negb IsEnd && IsErrorneousTransition F i (Some p) →
      stretches i [source i] (Stopped i p IsEnd IsError)
  | stretches_step i p l r : predecessor i = Some p → neighbors p = [] → passes i p →
      stretches p l r → stretches i (source i :: l) r.

Lemma push_node_spec v n (G : graph_type) :
  v < length (Nodes G) →
  size (push_node v n G) = size G ∧ length (Nodes (push_node v n G)) = length (Nodes G)
  ∧ Adj (push_node v n G) = Adj G ∧ Roots (push_node v n G) = Roots G
  ∧ ∀ u, node (push_node v n G) u = node G u ++ (if decide (v = u) then [n] else []).
Proof.
  intros Hv. unfold push_node, node, size. simpl. rewrite length_alter. split_and!; [done..|].
  intros u. rewrite lookup_total_alter_cases by done. case_decide; [done|by rewrite app_nil_r].
Qed.

(** [G'] is [G] with [l] appended to the label of [v]. *)
Record labelled v l (G G' : graph_type) : Prop := {
  lb_len : length (Nodes G') = length (Nodes G);
  lb_adj : Adj G' = Adj G;
  lb_roots : Roots G' = Roots G;
  lb_node u : node G' u = node G u ++ (if decide (v = u) then l else [])
}.

Lemma follow_spec fuel v i (G : graph_type) r G' :
  v < length (Nodes G) → follow E F fuel v i G = Some (r, G') → ∃ l, stretches i l r ∧ labelled v l G G'.
Proof.
  revert i G. induction fuel as [|fuel IH]; intros i G Hv; [done|]. cbn [follow].
  destruct (push_node_spec v (source i) G Hv) as (_ & HL & HA & HR & HN).
  set (G1 := push_node v (source i) G) in *.
  assert (labelled v [source i] G G1) as Hlab by done.
  destruct (predecessor i) as [p|] eqn:Hp.
  - destruct (_ || ExplodedSuperGraph.hasNeighbors E p) eqn:Hstop.
    + intros [= <- <-]. exists [source i]. split; [|done]. by constructor.
    + intros Hf. apply IH in Hf as (l & Hs & [L1 L2 L3 L4]); [|lia]. apply orb_false_iff in Hstop as [Hee Hnb].
      apply orb_false_iff in Hee as [He Herr]. rewrite He in Herr. simpl in Herr.
      exists (source i :: l). split.
      * econstructor; [done| |done|done]. unfold ExplodedSuperGraph.hasNeighbors in Hnb.
        by apply negb_false_iff, bool_decide_eq_true in Hnb.
      * split; [congruence..|]. intros u. rewrite L4, HN. case_decide; [by rewrite <-app_assoc|by rewrite !app_nil_r].
  - intros [= <- <-]. exists [source i]. split; [|done]. constructor; [done|].
    destruct (HasReachedEnd F i None), (IsErrorneousTransition F i None); done.
Qed.

Lemma traced_cons i l : traced i l → ∃ l', l = source i :: l'.
Proof. destruct 1; eauto. Qed.

(** The filter ends a path with [i]. *)
Definition ends i : Prop :=
  predecessor i = None ∧ HasReachedEnd F i None || negb (IsErrorneousTransition F i None) = true
  ∨ ∃ p, predecessor i = Some p
      ∧ (HasReachedEnd F i (Some p) = true
         ∨ ∃ q, q ∈ neighbors p ∧ IsErrorneousTransition F i (Some q) = false ∧ HasReachedEnd F i (Some q) = true).

Lemma traced_inv i l :
  traced i l → l = [source i] ∧ ends i ∨ ∃ j l', back i j ∧ passes i j ∧ traced j l' ∧ l = source i :: l'.
Proof. unfold ends. destruct 1; naive_solver. Qed.

(** What the stretch says about the paths from its node. *)
Lemma stretches_traced i l r :
  stretches i l r →
  match r with
  | Returned b => b = true → traced i l
  | Stopped Prev _ _ _ => ∀ l', traced Prev (source Prev :: l') → traced i (l ++ l')
  end.
Proof.
  induction 1 as [i b Hp ->|i p IsEnd IsError Hp _ _|i p l r Hp Hnb Hpass _ IH].
  - intros Hb. by constructor.
  - done.
  - assert (back i p) as Hback by (exists p; auto). destruct r as [b|Prev Vtx IsEnd IsError]; intros.
    + econstructor; eauto.
    + simpl. econstructor; eauto.
Qed.

Lemma stretches_complete i l r l' :
  stretches i l r → traced i l' →
  match r with
  | Returned b => b = true ∧ l' = l
  | Stopped Prev _ _ _ => ∃ l'', l' = l ++ l'' ∧ traced Prev (source Prev :: l'')
  end.
Proof.
  intros Hs. revert l'. induction Hs as [i b Hp ->|i p IsEnd IsError Hp _ _|i p l r Hp Hnb [Hpe Hpp] _ IH]; intros l' Ht.
  - apply traced_inv in Ht as [[-> [[_ ?]|(p & ? & _)]]|(j & ? & (? & ? & _) & _)]; [done|congruence..].
  - destruct (traced_cons _ _ Ht) as [l'' ->]. by exists l''.
  - apply traced_inv in Ht as [[-> [[? _]|(p' & Hp' & He)]]|(j & l'' & (p' & Hp' & Hj) & _ & Hj' & ->)]; [congruence|..];
      assert (p' = p) as -> by congruence.
    + rewrite Hnb in He. destruct He as [?|(q & Hq & _)]; [congruence|]. by apply elem_of_nil in Hq.
    + destruct Hj as [->|Hj]; [|rewrite Hnb in Hj; by apply elem_of_nil in Hj].
      specialize (IH _ Hj'). destruct r; [naive_solver|]. destruct IH as (l2 & -> & ?). by exists l2.
Qed.

Lemma stretches_stopped i l Prev Vtx IsEnd IsError :
  stretches i l (Stopped Prev Vtx IsEnd IsError) →
  predecessor Prev = Some Vtx ∧ IsEnd = HasReachedEnd F Prev (Some Vtx)
  ∧ IsError = negb IsEnd && IsErrorneousTransition F Prev (Some Vtx).
Proof.
  intros Hs. remember (Stopped Prev Vtx IsEnd IsError) as r eqn:Hr.
  induction Hs; simplify_eq; auto.
Qed.

(** * The state *)

Record state_ok O s : Prop := {
  so_dag : dag_ok O (RetDag s);
  so_path v : v ∈ CurrPath s → v ∈ O;
  so_cache i v : Cache s !! i = Some (Some v) → v < size (RetDag s) ∧ (v ∈ O → v ∈ CurrPath s);
  so_sound i v l : Cache s !! i = Some (Some v) → v ∉ O → spells (RetDag s) v l → traced i l
}.

(** A call of [pathsToImplLA] on node [i]. *)
Record la_result O s i (r : option nat) s' : Prop := {
  lr_ok : state_ok O s';
  lr_ext : extends (RetDag s) (RetDag s');
  lr_path : CurrPath s' = CurrPath s;
  lr_cache j x : Cache s !! j = Some x → Cache s' !! j = Some x;
  lr_new j v : Cache s' !! j = Some (Some v) → Cache s !! j = Some (Some v) ∨ size (RetDag s) ≤ v;
  lr_res : Cache s' !! i = Some r;
  lr_same : RetDag s' = RetDag s ∨ r = Some (size (RetDag s)) ∧ size (RetDag s) < size (RetDag s');
  lr_in v : size (RetDag s) < v → v < size (RetDag s') → ∃ u, v ∈ outEdges (RetDag s') u
}.

Lemma spells_extends O (G G' : graph_type) v l :
  dag_ok O G → extends G G' → v < size G → v ∉ O → spells G' v l ↔ spells G v l.
Proof.
  intros Hok Hex. apply spells_stable; [apply (do_target O G Hok)|]. intros u Hu _.
  split; [by apply Hex|by apply (ex_node G G' Hex)].
Qed.

Lemma set_edge_ok O s v w :
  state_ok O s → v ∈ O → w < size (RetDag s) → w ∉ O →
  let s' := set_RetDag (addEdge (RetDag s) v w) s in
  state_ok O s' ∧ size (RetDag s') = size (RetDag s)
  ∧ ∀ u l, u < size (RetDag s) → u ∉ O → spells (RetDag s') u l ↔ spells (RetDag s) u l.
Proof.
  intros [H1 H2 H3 H4] Hv Hw HwO. simpl. pose proof (do_open _ _ H1 v Hv) as Hlt.
  assert (size (addEdge (RetDag s) v w) = size (RetDag s)) as Hs by (unfold size; simpl; by rewrite length_alter).
  assert (∀ u l, u < size (RetDag s) → u ∉ O → spells (addEdge (RetDag s) v w) u l ↔ spells (RetDag s) u l) as Hsp.
  { intros u l. apply spells_stable; [apply (do_target _ _ H1)|]. intros x Hx HxO. split; [|done].
    rewrite addEdge_out, decide_False, app_nil_r by (done || by intros ->). done. }
  split_and!; [|done..]. split; simpl.
  - apply (dag_ok_edges O (RetDag s)); [done|rewrite Hs; apply H1|lia|].
    intros u x [?|[<- ->]]%addEdge_elem; [by left|by right|done].
  - done.
  - intros i u. rewrite Hs. apply H3.
  - intros i u l Hi HuO. destruct (H3 i u Hi). rewrite Hsp by done. by apply H4.
Qed.

(** * The traversals out of one vertex *)

Section invoke.
Context (LA : nat → state (N:=N) → option (option nat * state (N:=N))).
Context (LA_ok : ∀ O s i r s', state_ok O s → LA i s = Some (r, s') → la_result O s i r s').
(** The state before the call for [i0], the label given to its vertex [n], and
    where the stretch ended. *)
Context (O : list nat) (s0 : state (N:=N)) (i0 : nat) (lab : list N) (Prev : nat).
Context (Hs0 : state_ok O s0).
Abbreviation n := (size (RetDag s0)).

Record loop_ok (IsEnd : bool) s : Prop := {
  lo_ok : state_ok (n :: O) s;
  lo_path : CurrPath s = CurrPath s0 ++ [n];
  lo_out v : v < n → outEdges (RetDag s) v = outEdges (RetDag s0) v;
  lo_node v : v < n → node (RetDag s) v = node (RetDag s0) v;
  lo_label : node (RetDag s) n = lab;
  lo_roots : Roots (RetDag s) = Roots (RetDag s0);
  lo_cache j x : Cache s0 !! j = Some x → Cache s !! j = Some x;
  lo_self : Cache s !! i0 = Some (Some n);
  lo_new j v : Cache s !! j = Some (Some v) → Cache s0 !! j = Some (Some v) ∨ j = i0 ∧ v = n ∨ n < v;
  lo_in v : n < v → v < size (RetDag s) → ∃ u, v ∈ outEdges (RetDag s) u;
  lo_nil : outEdges (RetDag s) n = [] → size (RetDag s) = S n;
  lo_edge w l : w ∈ outEdges (RetDag s) n → spells (RetDag s) w l → traced Prev (source Prev :: l);
  lo_end : IsEnd = true → traced Prev [source Prev]
}.

Lemma loop_lt IsEnd s : loop_ok IsEnd s → n < size (RetDag s).
Proof. intros Hs. apply (do_open _ _ (so_dag _ _ (lo_ok _ _ Hs))). by left. Qed.

(** A traversal that adds no edge. *)
Lemma loop_skip IsEnd s j r s' :
  loop_ok IsEnd s → la_result (n :: O) s j r s' → RetDag s' = RetDag s → loop_ok IsEnd s'.
Proof.
  intros Hs HR Hd. pose proof (loop_lt _ _ Hs) as Hlt. destruct Hs, HR. rewrite Hd in *.
  split; try rewrite Hd; try done; try congruence; eauto.
  intros k v Hk. destruct (lr_new0 k v Hk); [auto|right; right; lia].
Qed.

(** A traversal whose vertex gets an edge. *)
Lemma loop_edge IsEnd s j w s' :
  loop_ok IsEnd s → la_result (n :: O) s j (Some w) s' → w ∉ CurrPath s' → back Prev j → passes Prev j →
  loop_ok IsEnd (set_RetDag (addEdge (RetDag s') n w) s').
Proof.
  intros Hs HR Hw Hback Hpass. pose proof (loop_lt _ _ Hs) as Hlt.
  pose proof (lr_ok _ _ _ _ _ HR) as Hok'. destruct (so_cache _ _ Hok' j w (lr_res _ _ _ _ _ HR)) as [Hwlt HwO].
  assert (w ∉ n :: O) as Hwn by naive_solver. pose proof (lr_ext _ _ _ _ _ HR) as Hext.
  pose proof (ex_size _ _ Hext) as Hsz.
  destruct (set_edge_ok (n :: O) s' n w Hok' ltac:(by left) Hwlt Hwn) as (Hok2 & Hs2 & Hsp).
  simpl in Hs2, Hsp. split; simpl.
  - done.
  - by rewrite (lr_path _ _ _ _ _ HR), (lo_path _ _ Hs).
  - intros v Hv. rewrite addEdge_out, decide_False, app_nil_r by lia. rewrite (ex_out _ _ Hext) by lia.
    by apply (lo_out _ _ Hs).
  - intros v Hv. change (node (RetDag s') v = node (RetDag s0) v). rewrite (ex_node _ _ Hext) by lia.
    by apply (lo_node _ _ Hs).
  - change (node (RetDag s') n = lab). rewrite (ex_node _ _ Hext) by lia. apply Hs.
  - rewrite (ex_roots _ _ Hext). apply Hs.
  - intros k x Hk. by apply (lr_cache _ _ _ _ _ HR), (lo_cache _ _ Hs).
  - by apply (lr_cache _ _ _ _ _ HR), (lo_self _ _ Hs).
  - intros k v Hk. destruct (lr_new _ _ _ _ _ HR k v Hk); [by apply (lo_new _ _ Hs)|right; right; lia].
  - intros v Hv Hv2. rewrite Hs2 in Hv2. destruct (decide (v < size (RetDag s))) as [Hold|Hnew].
    + destruct (lo_in _ _ Hs v Hv Hold) as [u Hu]. exists u. apply addEdge_elem; [lia|]. left.
      rewrite (ex_out _ _ Hext); [done|by apply outEdges_lt in Hu].
    + destruct (decide (v = size (RetDag s))) as [->|].
      * destruct (lr_same _ _ _ _ _ HR) as [Hd|[[= ->] _]]; [rewrite Hd in Hv2; lia|].
        exists n. apply addEdge_elem; [lia|by right].
      * destruct (lr_in _ _ _ _ _ HR v) as [u Hu]; [lia..|]. exists u. apply addEdge_elem; [lia|by left].
  - rewrite addEdge_out, decide_True by (done || lia). by intros [_ ?]%app_eq_nil.
  - intros x l Hx Hsx. apply addEdge_elem in Hx as [Hx|[_ ->]]; [|..|lia].
    + rewrite (ex_out _ _ Hext) in Hx by lia. pose proof (so_dag _ _ (lo_ok _ _ Hs)) as Hdag.
      destruct (do_target _ _ Hdag n x Hx) as [Hxlt HxO]. rewrite Hsp in Hsx by (done || lia).
      rewrite (spells_extends (n :: O) (RetDag s)) in Hsx by done. by eapply (lo_edge _ _ Hs).
    + rewrite Hsp in Hsx by done. econstructor; [done..|].
      by eapply (so_sound _ _ Hok'); [apply (lr_res _ _ _ _ _ HR)|..].
  - apply Hs.
Qed.

Lemma traverseNext_ok IsEnd s j s' :
  loop_ok IsEnd s → back Prev j → passes Prev j → traverseNext LA n j s = Some s' → loop_ok IsEnd s'.
Proof.
  intros Hs Hb Hp Ht. unfold traverseNext in Ht. apply bind_Some in Ht as ([r s1] & HLA & Ht).
  pose proof (LA_ok _ _ _ _ _ (lo_ok _ _ Hs) HLA) as HR. destruct r as [w|].
  - case_decide as Hw; injection Ht as <-; [|by eapply loop_edge].
    eapply loop_skip; [done..|]. destruct (lr_same _ _ _ _ _ HR) as [|[[= ->] _]]; [done|].
    rewrite (lr_path _ _ _ _ _ HR) in Hw. apply (so_path _ _ (lo_ok _ _ Hs)) in Hw.
    apply (do_open _ _ (so_dag _ _ (lo_ok _ _ Hs))) in Hw. lia.
  - injection Ht as <-. eapply loop_skip; [done..|]. by destruct (lr_same _ _ _ _ _ HR) as [|[? _]].
Qed.

Lemma traverse_neighbor_ok p qs IsEnd s IsEnd' s' :
  predecessor Prev = Some p → (∀ q, q ∈ qs → q ∈ neighbors p) → loop_ok IsEnd s →
  for_each qs (traverse_neighbor F LA n Prev) (Some (IsEnd, s)) = Some (IsEnd', s') → loop_ok IsEnd' s'.
Proof.
  intros Hp Hqs Hs. apply (for_each_inv (λ o, ∀ b s', o = Some (b, s') → loop_ok b s')); [by intros ? ? [= <- <-]|].
  intros q o Hq IH b s2. destruct o as [[b1 s1]|]; [|done]. cbn. specialize (IH b1 s1 eq_refl).
  destruct (IsErrorneousTransition _ _ _) eqn:He; [by intros [= <- <-]|].
  destruct (HasReachedEnd _ _ _) eqn:Hh.
  - intros [= <- <-]. destruct IH. split; try done. intros _. eapply traced_end_alternative; eauto.
  - intros (s3 & Ht & [= <- <-])%bind_Some. eapply traverseNext_ok; [done| |done..]. exists p. auto.
Qed.

(** The cache and the graph when the traversals are done. *)
Record built (C : gmap nat (option nat)) (G : graph_type) : Prop := {
  bu_dag : dag_ok (n :: O) G;
  bu_out v : v < n → outEdges G v = outEdges (RetDag s0) v;
  bu_node v : v < n → node G v = node (RetDag s0) v;
  bu_roots : Roots G = Roots (RetDag s0);
  bu_cache j x : Cache s0 !! j = Some x → C !! j = Some x;
  bu_self : C !! i0 = Some (Some n);
  bu_new j v : C !! j = Some (Some v) → Cache s0 !! j = Some (Some v) ∨ j = i0 ∧ v = n ∨ n < v;
  bu_in v : n < v → v < size G → ∃ u, v ∈ outEdges G u;
  bu_valid i v : C !! i = Some (Some v) → v < size G ∧ (v ∈ O → v ∈ CurrPath s0);
  bu_sound i v l : C !! i = Some (Some v) → v ∉ n :: O → spells G v l → traced i l
}.

Lemma open_lt v : v ∈ O → v < n.
Proof. apply (do_open _ _ (so_dag _ _ Hs0)). Qed.

Lemma loop_built IsEnd s : loop_ok IsEnd s → built (Cache s) (RetDag s).
Proof.
  intros []. destruct lo_ok0 as [H1 H2 H3 H4]. split; try done. intros i v Hi. destruct (H3 i v Hi) as [? HvO].
  split; [done|]. intros Hv. specialize (HvO ltac:(by right)). rewrite lo_path0 in HvO.
  apply elem_of_app in HvO as [?| ->%list_elem_of_singleton]; [done|]. apply open_lt in Hv. lia.
Qed.

Lemma built_dedup C G : built C G → built C (dedupOutEdges G n).
Proof.
  intros []. destruct (dedup_same (n :: O) G n) as (Hs & Ho & Hsp & Hne & Hdag).
  set (G' := dedupOutEdges G n) in *. split.
  - auto.
  - intros v Hv. rewrite <-bu_out0 by done. apply Hne. lia.
  - exact bu_node0.
  - exact bu_roots0.
  - exact bu_cache0.
  - exact bu_self0.
  - exact bu_new0.
  - intros v. rewrite Hs. intros Hv Hv2. destruct (bu_in0 v Hv Hv2) as [u Hu]. exists u. by apply Ho.
  - intros i v. rewrite Hs. apply bu_valid0.
  - intros i v l Hi Hv. rewrite Hsp. eauto.
Qed.

Lemma close_valid C G :
  built C G → (∀ l, spells G n l → traced i0 l) → la_result O s0 i0 (Some n) (State C (CurrPath s0) G).
Proof.
  intros [] Hsp. pose proof (do_open _ _ bu_dag0 n ltac:(by left)) as Hn. split.
  - split; cbn [RetDag CurrPath Cache]; [by eapply dag_ok_close|apply Hs0|exact bu_valid0|]. intros i v l Hi Hv Hl.
    destruct (decide (v = n)) as [->|Hne];
      [|eapply bu_sound0; [exact Hi|apply not_elem_of_cons; split; assumption|exact Hl]].
    destruct (bu_new0 i n Hi) as [Hold|[[-> _]|?]]; [|by apply Hsp|lia].
    apply (so_cache _ _ Hs0) in Hold as [? _]. lia.
  - split; [cbn; lia|assumption..].
  - reflexivity.
  - exact bu_cache0.
  - intros j v Hj. destruct (bu_new0 j v Hj) as [?|[[_ ->]|?]]; [by left|right; lia..].
  - exact bu_self0.
  - by right.
  - exact bu_in0.
Qed.

Lemma restored (G : graph_type) :
  length (Nodes G) = S n → size G = S n → Roots G = Roots (RetDag s0) →
  (∀ v, v < n → outEdges G v = outEdges (RetDag s0) v) → (∀ v, v < n → node G v = node (RetDag s0) v) →
  pop G n = (true, RetDag s0).
Proof.
  intros HN HS HR Ho Hn. pose proof (do_len _ _ (so_dag _ _ Hs0)) as HL. unfold pop.
  rewrite decide_True by (symmetry; exact HS). f_equal. destruct (RetDag s0) as [Ns As Rs] eqn:Hd. simpl in *.
  unfold size, outEdges, node in *. simpl in *. f_equal; [..|done].
  - apply (list_eq_same_length _ _ (length As)); [done|rewrite length_take; lia|].
    intros i x y Hi. rewrite lookup_take_lt by done. intros Hx%list_lookup_total_correct Hy%list_lookup_total_correct.
    rewrite <-Hx, <-Hy. by apply Hn.
  - apply (list_eq_same_length _ _ (length As)); [done|rewrite length_take; lia|].
    intros i x y Hi. rewrite lookup_take_lt by done. intros Hx%list_lookup_total_correct Hy%list_lookup_total_correct.
    rewrite <-Hx, <-Hy. by apply Ho.
Qed.

Lemma close_invalid C G :
  built C G → size G = S n → Cache s0 !! i0 = None →
  pop G n = (true, RetDag s0) ∧ la_result O s0 i0 None (State (<[i0 := None]> C) (CurrPath s0) (RetDag s0)).
Proof.
  intros [] HS Hfresh. split.
  { apply restored; try done. by rewrite (do_len _ _ bu_dag0). }
  assert (∀ j v, <[i0 := None]> C !! j = Some (Some v) → Cache s0 !! j = Some (Some v)) as Hold.
  { intros j v. rewrite lookup_insert_Some. intros [[_ ?]|[Hne Hj]]; [done|].
    destruct (bu_new0 j v Hj) as [?|[[? _]|?]]; [done|congruence|]. destruct (bu_valid0 j v Hj). lia. }
  split.
  - destruct Hs0 as [H1 H2 H3 H4]. split; cbn [RetDag CurrPath Cache]; [exact H1|exact H2|..].
    + intros i v Hi. apply (H3 i v), Hold, Hi.
    + intros i v l Hi. apply (H4 i v l), Hold, Hi.
  - reflexivity.
  - reflexivity.
  - intros j x Hj. cbn. rewrite lookup_insert_ne by congruence. auto.
  - intros j v Hj. left. by apply Hold.
  - cbn. by rewrite lookup_insert_eq.
  - by left.
  - cbn. lia.
Qed.
End invoke.

(** The state in which the stretch of a new vertex is walked, and after it. *)
Definition entry_state s i : state :=
  set_Cache i (Some (size (RetDag s))) (set_RetDag (addNode (RetDag s) []).2 s).

Lemma labelled_built O s i lab G :
  state_ok O s → Cache s !! i = None → labelled (size (RetDag s)) lab (addNode (RetDag s) []).2 G →
  built O s i (Cache (entry_state s i)) G ∧ outEdges G (size (RetDag s)) = [] ∧ node G (size (RetDag s)) = lab
  ∧ size G = S (size (RetDag s)).
Proof.
  intros [H1 H2 H3 H4] Hfresh [L1 L2 L3 L4]. set (n := size (RetDag s)) in *.
  pose proof (do_len _ _ H1) as HL. fold n in HL.
  assert (∀ v, outEdges G v = outEdges (RetDag s) v) as Hout.
  { intros v. unfold outEdges at 1. rewrite L2. apply addNode_out. }
  assert (size G = S n) as HS by (unfold size; rewrite L2; apply size_addNode).
  assert (∀ v, v < n → node G v = node (RetDag s) v) as Hnode.
  { intros v Hv. rewrite L4, addNode_node, HL. rewrite !decide_False by lia. by rewrite app_nil_r. }
  assert (∀ j v, <[i := Some n]> (Cache s) !! j = Some (Some v) → Cache s !! j = Some (Some v) ∨ j = i ∧ v = n) as Hnew.
  { intros j v. rewrite lookup_insert_Some. intros [[-> [= ->]]|[_ ?]]; auto. }
  split_and!; [|by rewrite Hout, outEdges_ge|rewrite L4, addNode_node, HL; by rewrite !decide_True by done|done].
  split; fold n.
  - apply (dag_ok_edges _ (addNode (RetDag s) []).2); [by apply dag_ok_addNode|..].
    + rewrite HS, L1. simpl. rewrite length_app, HL. simpl. lia.
    + rewrite HS. unfold n. rewrite size_addNode. done.
    + intros v w. rewrite Hout, addNode_out. by left.
  - intros v _. apply Hout.
  - exact Hnode.
  - by rewrite L3.
  - intros j x Hj. cbn. fold n. rewrite lookup_insert_ne by congruence. done.
  - cbn. fold n. by rewrite lookup_insert_eq.
  - intros j v Hj. destruct (Hnew j v Hj) as [?|?]; auto.
  - intros v Hv. rewrite HS. lia.
  - intros j v Hj. rewrite HS. destruct (Hnew j v Hj) as [Hold|[_ ->]].
    + destruct (H3 j v Hold) as [Hlt ?]. fold n in Hlt. split; [lia|done].
    + split; [lia|]. intros Hn. apply (do_open _ _ H1) in Hn. fold n in Hn. lia.
  - intros j v l Hj HvO Hl. apply not_elem_of_cons in HvO as [Hvn HvO].
    destruct (Hnew j v Hj) as [Hold|[_ ->]]; [|done]. apply (H4 j v l Hold HvO).
    destruct (H3 j v Hold) as [Hlt _].
    refine (proj1 (spells_stable O (RetDag s) G v l (do_target _ _ H1) _ Hlt HvO) Hl).
    intros u Hu _. split; [apply Hout|by apply Hnode].
Qed.

Lemma built_loop O s i lab Prev C G IsEnd :
  state_ok O s → built O s i C G → outEdges G (size (RetDag s)) = [] → node G (size (RetDag s)) = lab →
  size G = S (size (RetDag s)) → (IsEnd = true → traced Prev [source Prev]) →
  loop_ok O s i lab Prev IsEnd (State C (CurrPath s ++ [size (RetDag s)]) G).
Proof.
  intros Hok Hb Hout Hnode HS HE. destruct Hb. split; cbn [RetDag Cache CurrPath]; try assumption.
  - split; cbn [RetDag Cache CurrPath]; [assumption| | |assumption].
    + intros v [Hv| ->%list_elem_of_singleton]%elem_of_app; [right; by apply Hok|by left].
    + intros j v Hj. destruct (bu_valid0 j v Hj) as [? HvO]. split; [done|].
      intros [->|Hv]%elem_of_cons; apply elem_of_app; [right; by left|left; auto].
  - reflexivity.
  - intros _. exact HS.
  - intros w l. rewrite Hout. by intros ?%elem_of_nil.
Qed.

(** The loops behind the stretch. *)
Definition traversals LA s Prev Vtx (IsEnd IsError : bool) n : option (bool * state (N:=N)) :=
  s ← (if negb IsEnd && negb IsError then traverseNext LA n Vtx s else Some s);
  for_each (neighbors Vtx) (traverse_neighbor F LA n Prev) (Some (IsEnd, s)).

Lemma traversals_ok LA O s i lab Prev Vtx IsEnd IsError s1 IsEnd' s' :
  (∀ O s i r s', state_ok O s → LA i s = Some (r, s') → la_result O s i r s') →
  predecessor Prev = Some Vtx → IsEnd = HasReachedEnd F Prev (Some Vtx) →
  IsError = negb IsEnd && IsErrorneousTransition F Prev (Some Vtx) →
  loop_ok O s i lab Prev IsEnd s1 →
  traversals LA s1 Prev Vtx IsEnd IsError (size (RetDag s)) = Some (IsEnd', s') →
  loop_ok O s i lab Prev IsEnd' s'.
Proof.
  intros HLA Hp HE Her Hs (s2 & Hn & Hl)%bind_Some.
  eapply traverse_neighbor_ok; [exact HLA|exact Hp|by intros q Hq| |exact Hl].
  destruct (negb IsEnd && negb IsError) eqn:Hgo; [|by injection Hn as <-].
  apply andb_true_iff in Hgo as [->%negb_true_iff ->%negb_true_iff].
  eapply traverseNext_ok; [exact HLA|exact Hs|exists Vtx; auto| |exact Hn]. split; [done|].
  by destruct (IsErrorneousTransition _ _ _).
Qed.

Lemma not_on_path O s : state_ok O s → size (RetDag s) ∉ CurrPath s.
Proof. intros Hok Hin. apply (so_path _ _ Hok), (do_open _ _ (so_dag _ _ Hok)) in Hin. lia. Qed.

Lemma invoke_ok LA fuel O s i valid s' :
  (∀ O s i r s', state_ok O s → LA i s = Some (r, s') → la_result O s i r s') →
  state_ok O s → Cache s !! i = None →
  pathsToImplLAInvoke E F LA fuel (size (RetDag s)) i (entry_state s i) = Some (valid, s') →
  ∃ C G, s' = State C (CurrPath s) G ∧ built O s i C G
    ∧ (valid = true → ∀ l, spells G (size (RetDag s)) l → traced i l)
    ∧ (valid = false → size G = S (size (RetDag s))).
Proof.
  intros HLA Hok Hfresh ([r G] & Hf & Hr)%bind_Some. set (n := size (RetDag s)) in *.
  apply follow_spec in Hf as (lab & Hst & Hlab).
  2: { simpl. rewrite length_app, (do_len _ _ (so_dag _ _ Hok)). simpl. unfold n. lia. }
  destruct (labelled_built O s i lab G Hok Hfresh Hlab) as (Hb & Hout & Hnode & HS). fold n in Hout, Hnode, HS.
  apply stretches_traced in Hst as Htr. destruct r as [b|Prev Vtx IsEnd IsError].
  - injection Hr as <- <-. exists (Cache (entry_state s i)), G. split_and!; [done|done| |by intros _].
    intros Hb' l [[_ ->]|(w & l' & Hw & _)]%spells_inv; [rewrite Hnode; auto|].
    rewrite Hout in Hw. by apply elem_of_nil in Hw.
  - apply stretches_stopped in Hst as (Hp & HE & Her). cbv zeta in Hr.
    rewrite decide_False in Hr by (exact (not_on_path O s Hok)).
    apply bind_Some in Hr as (s2 & H2 & ([IsEnd' s3] & H3 & [= <- <-])%bind_Some).
    assert (loop_ok O s i lab Prev IsEnd' s3) as HL.
    { eapply (traversals_ok LA O s i lab Prev Vtx IsEnd IsError (State (Cache (entry_state s i)) (CurrPath s ++ [n]) G));
        [exact HLA|exact Hp|exact HE|exact Her| |].
      - apply built_loop; [done..|]. intros ->. by eapply traced_end.
      - apply bind_Some. by exists s2. }
    pose proof (loop_built _ _ _ _ _ Hok _ _ HL) as Hb3. exists (Cache s3), (dedupOutEdges (RetDag s3) n).
    split_and!.
    + rewrite (lo_path _ _ _ _ _ _ _ HL), length_app. simpl. fold n. rewrite Nat.add_sub. by rewrite take_app_length.
    + by apply built_dedup.
    + intros Hv l Hl. apply dedup_spells, spells_inv in Hl.
      rewrite (lo_label _ _ _ _ _ _ _ HL : node (RetDag s3) n = lab) in Hl. destruct Hl as [[Hnil ->]|(w & l' & Hw & Hl' & ->)].
      * assert (outDegree (dedupOutEdges (RetDag s3) n) n = 0) as Hd.
        { change (length (outEdges (dedupOutEdges (RetDag s3) n) n) = 0). apply length_zero_iff_nil, elem_of_nil_inv.
          intros x. rewrite dedup_elem, Hnil. apply not_elem_of_nil. }
        rewrite Hd in Hv. rewrite orb_false_r in Hv. rewrite <-(app_nil_r lab). apply Htr, HL, Hv.
      * apply Htr. by eapply (lo_edge _ _ _ _ _ _ _ HL).
    + intros [_ Hd%negb_false_iff%bool_decide_eq_true]%orb_false_iff.
      change (length (outEdges (dedupOutEdges (RetDag s3) n) n) = 0) in Hd. apply length_zero_iff_nil in Hd.
      transitivity (size (RetDag s3)); [unfold size; simpl; by rewrite length_alter|]. apply HL.
      apply elem_of_nil_inv. intros x. rewrite <-(dedup_elem _ n). fold n. rewrite Hd. apply not_elem_of_nil.
Qed.

Lemma pathsToImplLA_ok fuel depth O s i r s' :
  state_ok O s → pathsToImplLA E F fuel depth i s = Some (r, s') → la_result O s i r s'.
Proof.
  revert O s i r s'. induction depth as [|depth IH]; intros O s i r s' Hok HLA; [done|]. cbn [pathsToImplLA] in HLA.
  destruct (Cache s !! i) as [c|] eqn:Hc.
  - injection HLA as <- <-. split; try done; [by left|by left|lia].
  - unfold addNode in HLA. cbv zeta in HLA. rewrite (do_len _ _ (so_dag _ _ Hok)) in HLA.
    apply bind_Some in HLA as ([valid s1] & Hi & Hr).
    destruct (invoke_ok _ fuel O s i valid s1 IH Hok Hc Hi) as (C & G & -> & Hb & Hv & Hn).
    destruct valid.
    + injection Hr as <- <-. apply close_valid; auto.
    + destruct (close_invalid O s i Hok C G Hb (Hn eq_refl) Hc) as [Hpop HR].
      cbn [CurrPath RetDag set_Cache] in Hr. rewrite decide_False in Hr by (exact (not_on_path O s Hok)).
      rewrite Hpop in Hr. by injection Hr as <- <-.
Qed.

(** * No path is lost without cycles *)

Section complete.
Context (HF : ∀ i o, HasReachedEnd F i o = false).
Context (rank : nat → nat) (Hrank : ∀ i j, back i j → rank j < rank i).

(** The cache is complete; the nodes of open vertices are at least at [k]. *)
Record complete O (k : nat) s : Prop := {
  co_spells i v l : Cache s !! i = Some (Some v) → v ∉ O → traced i l → spells (RetDag s) v l;
  co_none i l : Cache s !! i = Some None → ¬ traced i l;
  co_open i v : Cache s !! i = Some (Some v) → v ∈ O → k ≤ rank i
}.

Lemma complete_stable O k s s' :
  state_ok O s → Cache s' = Cache s →
  (∀ u l, u < size (RetDag s) → u ∉ O → spells (RetDag s) u l → spells (RetDag s') u l) →
  complete O k s → complete O k s'.
Proof.
  intros Hok HC Hsp [H1 H2 H3]. split; rewrite HC; [|done..]. intros i v l Hi Hv Ht.
  apply Hsp; [by eapply so_cache|done|eauto].
Qed.

Lemma stretches_rank i l Prev Vtx IsEnd IsError : stretches i l (Stopped Prev Vtx IsEnd IsError) → rank Prev ≤ rank i.
Proof.
  intros Hs. remember (Stopped Prev Vtx IsEnd IsError) as r eqn:Hr. induction Hs as [| |i p l r Hp _ _ _ IH]; simplify_eq; [done|].
  specialize (IH eq_refl). assert (back i p) as Hb%Hrank by (exists p; auto). lia.
Qed.

Lemma complete_result O k s i r s' :
  la_result O s i r s' → complete O k s' → rank i < k →
  match r with
  | Some w => w ∉ O ∧ w < size (RetDag s') ∧ ∀ l, traced i l → spells (RetDag s') w l
  | None => ∀ l, ¬ traced i l
  end.
Proof.
  intros HR [H1 H2 H3] Hk. pose proof (lr_res _ _ _ _ _ HR) as Hres. destruct r as [w|]; [|eauto].
  destruct (so_cache _ _ (lr_ok _ _ _ _ _ HR) i w Hres) as [Hlt _].
  assert (w ∉ O) as HwO by (intros Hw; specialize (H3 i w Hres Hw); lia). eauto.
Qed.

(** Every path of [j] can be read behind an edge of [n]. *)
Definition covered s n j : Prop := ∀ l, traced j l → ∃ w, w ∈ outEdges (RetDag s) n ∧ spells (RetDag s) w l.

Section loop.
Context (LA : nat → state (N:=N) → option (option nat * state (N:=N))).
Context (LA_ok : ∀ O s i r s', state_ok O s → LA i s = Some (r, s') → la_result O s i r s').
Context (LA_complete : ∀ O k s i r s',
  state_ok O s → complete O k s → rank i < k → LA i s = Some (r, s') → complete O k s').
Context (O : list nat) (s0 : state (N:=N)) (i0 : nat) (lab : list N) (Prev : nat) (Hs0 : state_ok O s0).
Abbreviation n := (size (RetDag s0)).
Abbreviation loop_ok := (loop_ok O s0 i0 lab Prev).

Lemma traverseNext_complete IsEnd s j s' :
  loop_ok IsEnd s → complete (n :: O) (rank i0) s → rank j < rank i0 → traverseNext LA n j s = Some s' →
  complete (n :: O) (rank i0) s' ∧ covered s' n j ∧ ∀ j', covered s n j' → covered s' n j'.
Proof.
  intros Hs Hc Hj ([r s1] & HLA & Ht)%bind_Some. pose proof (lo_ok _ _ _ _ _ _ _ Hs) as Hok.
  pose proof (LA_ok _ _ _ _ _ Hok HLA) as HR. pose proof (LA_complete _ _ _ _ _ _ Hok Hc Hj HLA) as Hc1.
  pose proof (complete_result _ _ _ _ _ _ HR Hc1 Hj) as Hr. pose proof (lr_ok _ _ _ _ _ HR) as Hok1.
  pose proof (loop_lt _ _ _ _ _ _ _ Hs) as Hn. pose proof (lr_ext _ _ _ _ _ HR) as Hext.
  assert (∀ j', covered s n j' → covered s1 n j') as Hmono.
  { intros j' Hcov l Hl. destruct (Hcov l Hl) as (w & Hw & Hsp). exists w. rewrite (ex_out _ _ Hext) by done.
    split; [done|]. destruct (do_target _ _ (so_dag _ _ Hok) n w Hw).
    by apply (spells_extends (n :: O) (RetDag s) _ w l (so_dag _ _ Hok) Hext). }
  destruct r as [w|].
  - destruct Hr as (HwO & Hwlt & Hsp). rewrite decide_False in Ht by (intros Hin; by apply HwO, (so_path _ _ Hok1)).
    injection Ht as <-. destruct (set_edge_ok (n :: O) s1 n w Hok1) as (_ & _ & Hedge); [by left|done..|].
    simpl in Hedge. pose proof (ex_size _ _ Hext). split_and!.
    + apply (complete_stable _ _ s1); [done..| |done]. intros u l Hu HuO Hl. by apply Hedge.
    + intros l Hl. exists w. simpl. split; [apply addEdge_elem; [lia|by right]|]. apply Hedge; auto.
    + intros j' Hcov l Hl. destruct (Hmono j' Hcov l Hl) as (w' & Hw' & Hsp'). exists w'. simpl.
      split; [apply addEdge_elem; [lia|by left]|].
      destruct (do_target _ _ (so_dag _ _ Hok1) n w' Hw'). by apply Hedge.
  - injection Ht as <-. split_and!; [done| |done]. intros l Hl. by destruct (Hr l).
Qed.

Lemma traversals_complete Vtx IsEnd IsError s IsEnd' s' :
  predecessor Prev = Some Vtx → IsEnd = HasReachedEnd F Prev (Some Vtx) →
  IsError = negb IsEnd && IsErrorneousTransition F Prev (Some Vtx) → rank Prev ≤ rank i0 →
  loop_ok IsEnd s → complete (n :: O) (rank i0) s →
  traversals LA s Prev Vtx IsEnd IsError n = Some (IsEnd', s') →
  complete (n :: O) (rank i0) s' ∧ ∀ j, back Prev j → passes Prev j → covered s' n j.
Proof.
  intros Hp HE Her Hrk Hs Hc (s1 & H1 & Hl)%bind_Some.
  assert (∀ j, back Prev j → rank j < rank i0) as Hlt by (intros j Hj%Hrank; lia).
  assert (loop_ok IsEnd s1 ∧ complete (n :: O) (rank i0) s1 ∧ (passes Prev Vtx → covered s1 n Vtx)) as (Hs1 & Hc1 & Hv1).
  { rewrite HF in HE. subst IsEnd. simpl in Her, H1. subst IsError.
    assert (back Prev Vtx) as Hb by (exists Vtx; auto). destruct (negb _) eqn:Hgo.
    - apply negb_true_iff in Hgo. assert (passes Prev Vtx) as Hpass by (split; [apply HF|done]). split.
      + by eapply (traverseNext_ok LA LA_ok).
      + destruct (traverseNext_complete _ _ _ _ Hs Hc (Hlt _ Hb) H1) as (? & ? & _). auto.
    - injection H1 as <-. split_and!; [done..|]. intros [_ He]. by rewrite He in Hgo. }
  assert (∀ qs b s', (∀ q, q ∈ qs → q ∈ neighbors Vtx) →
    for_each qs (traverse_neighbor F LA n Prev) (Some (IsEnd, s1)) = Some (b, s') →
    loop_ok b s' ∧ complete (n :: O) (rank i0) s' ∧ ∀ j, j = Vtx ∨ j ∈ qs → passes Prev j → covered s' n j) as Hloop.
  { intros qs b s2 Hqs. apply (for_each_ind (λ qs o, (∀ b s', o = Some (b, s') →
      loop_ok b s' ∧ complete (n :: O) (rank i0) s' ∧ ∀ j, j = Vtx ∨ j ∈ qs → passes Prev j → covered s' n j))).
    - intros ? ? [= <- <-]. split_and!; [done..|]. intros j [->|Hj%elem_of_nil]; done.
    - intros qs1 q o Hq IH b2 s3. destruct o as [[b1 s4]|]; [|done]. cbn.
      destruct (IH b1 s4 eq_refl) as (K1 & K2 & K3). rewrite HF.
      destruct (IsErrorneousTransition F Prev (Some q)) eqn:He.
      + intros [= <- <-]. split_and!; [done..|]. intros j Hj Hpass. apply K3; [|done].
        destruct Hj as [?|[?| ->%list_elem_of_singleton]%elem_of_app]; [auto..|]. destruct Hpass. congruence.
      + intros (s5 & Ht & [= <- <-])%bind_Some. assert (back Prev q) as Hb by (exists Vtx; auto).
        assert (passes Prev q) as Hpass by (split; [apply HF|done]).
        destruct (traverseNext_complete _ _ _ _ K1 K2 (Hlt _ Hb) Ht) as (M1 & M2 & M3).
        split_and!; [by eapply (traverseNext_ok LA LA_ok)|done|]. intros j Hj Hpj.
        destruct Hj as [?|[?| ->%list_elem_of_singleton]%elem_of_app]; auto. }
  destruct (Hloop _ _ _ (λ q Hq, Hq) Hl) as (_ & Hc' & Hcov). split; [done|].
  intros j (p & Hp' & Hj) Hpass. assert (p = Vtx) as -> by congruence. auto.
Qed.
End loop.

Lemma entry_complete O k s i lab G Path :
  state_ok O s → complete O k s → rank i < k → labelled (size (RetDag s)) lab (addNode (RetDag s) []).2 G →
  complete (size (RetDag s) :: O) (rank i) (State (Cache (entry_state s i)) Path G).
Proof.
  intros Hok [H1 H2 H3] Hk [_ L2 _ L4]. pose proof (so_dag _ _ Hok) as Hdag. pose proof (do_len _ _ Hdag) as HL.
  set (n := size (RetDag s)) in *.
  assert (∀ j v, Cache (entry_state s i) !! j = Some (Some v) → j = i ∧ v = n ∨ Cache s !! j = Some (Some v) ∧ v < n) as Hold.
  { intros j v. cbn. rewrite lookup_insert_Some. intros [[-> [= <-]]|[_ Hj]]; [by left|right].
    by destruct (so_cache _ _ Hok j v Hj). }
  split; cbn [Cache RetDag].
  - intros j v l Hj [Hvn HvO]%not_elem_of_cons Ht. destruct (Hold j v Hj) as [[_ ->]|[Hjs Hv]]; [done|].
    refine (proj2 (spells_stable O (RetDag s) G v l (do_target _ _ Hdag) _ Hv HvO) (H1 j v l Hjs HvO Ht)).
    intros u Hu _. fold n in Hu. split.
    + unfold outEdges at 1. rewrite L2. apply addNode_out.
    + rewrite L4, addNode_node, HL. rewrite !decide_False by lia. by rewrite app_nil_r.
  - intros j l. cbn. rewrite lookup_insert_Some. intros [[_ ?]|[_ Hj]]; [done|]. by apply H2.
  - intros j v Hj. destruct (Hold j v Hj) as [[-> _]|[Hjs Hv]]; [done|]. intros [->|HvO]%elem_of_cons; [lia|].
    specialize (H3 j v Hjs HvO). lia.
Qed.

Lemma invoke_complete LA fuel O k s i valid s' :
  (∀ O s i r s', state_ok O s → LA i s = Some (r, s') → la_result O s i r s') →
  (∀ O k s i r s', state_ok O s → complete O k s → rank i < k → LA i s = Some (r, s') → complete O k s') →
  state_ok O s → complete O k s → rank i < k → Cache s !! i = None →
  pathsToImplLAInvoke E F LA fuel (size (RetDag s)) i (entry_state s i) = Some (valid, s') →
  complete (size (RetDag s) :: O) (rank i) s'
  ∧ ∀ l, traced i l → valid = true ∧ spells (RetDag s') (size (RetDag s)) l.
Proof.
  intros HLA HLAc Hok Hc Hk Hfresh ([r G] & Hf & Hr)%bind_Some. set (n := size (RetDag s)) in *.
  apply follow_spec in Hf as (lab & Hst & Hlab).
  2: { simpl. rewrite length_app, (do_len _ _ (so_dag _ _ Hok)). simpl. unfold n. lia. }
  destruct (labelled_built O s i lab G Hok Hfresh Hlab) as (Hb & Hout & Hnode & HS). fold n in Hout, Hnode, HS.
  destruct r as [b|Prev Vtx IsEnd IsError].
  - injection Hr as <- <-. split; [by eapply entry_complete|]. intros l Hl.
    destruct (stretches_complete _ _ _ _ Hst Hl) as [-> ->]. split; [done|].
    cbn. rewrite <-Hnode. by constructor.
  - apply stretches_stopped in Hst as Hp. destruct Hp as (Hp & HE & Her). cbv zeta in Hr.
    rewrite decide_False in Hr by (exact (not_on_path O s Hok)).
    apply bind_Some in Hr as (s2 & H2 & ([IsEnd' s3] & H3 & [= <- <-])%bind_Some).
    assert (traversals LA (State (Cache (entry_state s i)) (CurrPath s ++ [n]) G) Prev Vtx IsEnd IsError n
      = Some (IsEnd', s3)) as Htr by (apply bind_Some; by exists s2).
    assert (loop_ok O s i lab Prev IsEnd (State (Cache (entry_state s i)) (CurrPath s ++ [n]) G)) as HL0
      by (apply built_loop; [done..|]; intros ->; by eapply traced_end).
    assert (loop_ok O s i lab Prev IsEnd' s3) as HL.
    { eapply (traversals_ok LA O s i lab Prev Vtx IsEnd IsError); [exact HLA|exact Hp|exact HE|exact Her|exact HL0|exact Htr]. }
    apply (traversals_complete LA HLA HLAc O s i lab Prev) in Htr as [Hc3 Hcov]; try done;
      [|by eapply stretches_rank|by eapply entry_complete].
    split.
    { apply (complete_stable _ _ s3); [apply HL|done|..|done]. intros u l _ _. apply dedup_spells. }
    intros l Hl. destruct (stretches_complete _ _ _ _ Hst Hl) as (l'' & -> & Ht).
    apply traced_inv in Ht as [[Heq He]|(j & l' & Hb' & Hpass & Hj & Heq)]; injection Heq as ->.
    + destruct He as [[? _]|(p & _ & [He|(q & _ & _ & He)])]; [congruence|by rewrite HF in He..].
    + destruct (Hcov j Hb' Hpass l' Hj) as (w & Hw & Hsp). split.
      * apply orb_true_iff. right. apply negb_true_iff, bool_decide_eq_false. intros Hd%length_zero_iff_nil.
        change (outEdges (dedupOutEdges (RetDag s3) n) n = []) in Hd.
        apply (not_elem_of_nil w). rewrite <-Hd. by apply dedup_elem.
      * apply dedup_spells. rewrite <-(lo_label _ _ _ _ _ _ _ HL : node (RetDag s3) n = lab). by econstructor.
Qed.

Lemma pathsToImplLA_complete fuel depth O k s i r s' :
  state_ok O s → complete O k s → rank i < k → pathsToImplLA E F fuel depth i s = Some (r, s') → complete O k s'.
Proof.
  revert O k s i r s'. induction depth as [|depth IH]; intros O k s i r s' Hok Hcs Hk HLA; [done|].
  cbn [pathsToImplLA] in HLA. destruct (Cache s !! i) as [c|] eqn:Hc; [by injection HLA as <- <-|].
  unfold addNode in HLA. cbv zeta in HLA. rewrite (do_len _ _ (so_dag _ _ Hok)) in HLA.
  apply bind_Some in HLA as ([valid s1] & Hi & Hr).
  destruct (invoke_complete _ fuel O k s i valid s1 (pathsToImplLA_ok fuel depth) IH Hok Hcs Hk Hc Hi) as [[C1 C2 C3] Ht].
  destruct (invoke_ok _ fuel O s i valid s1 (pathsToImplLA_ok fuel depth) Hok Hc Hi) as (C & G & -> & Hb & Hv & Hn).
  cbn [Cache RetDag] in *. pose proof Hb as []. set (n := size (RetDag s)) in *. destruct Hcs as [K1 K2 K3]. destruct valid.
  - injection Hr as <- <-. split; cbn [Cache RetDag].
    + intros j v l Hj HvO Hl. destruct (decide (v = n)) as [->|Hvn].
      * destruct (bu_new0 j n Hj) as [Hold|[[-> _]|?]]; [|by apply Ht|unfold n in *; lia].
        apply (so_cache _ _ Hok) in Hold as [? _]. unfold n in *. lia.
      * eapply C1; [exact Hj|by apply not_elem_of_cons|exact Hl].
    + exact C2.
    + intros j v Hj HvO. pose proof (do_open _ _ (so_dag _ _ Hok) v HvO) as Hv'.
      destruct (bu_new0 j v Hj) as [Hold|[[_ ->]|?]]; [by eapply K3|unfold n in *; lia..].
  - destruct (close_invalid O s i Hok C G Hb (Hn eq_refl) Hc) as [Hpop _].
    cbn [CurrPath RetDag set_Cache] in Hr. rewrite decide_False in Hr by (exact (not_on_path O s Hok)).
    fold n in Hpop. rewrite Hpop in Hr. injection Hr as <- <-. split; cbn [Cache RetDag set_Cache set_RetDag].
    + intros j v l. rewrite lookup_insert_Some. intros [[_ ?]|[Hne Hj]]; [done|].
      destruct (bu_new0 j v Hj) as [?|[[? _]|?]]; [by eapply K1|congruence|]. destruct (bu_valid0 j v Hj) as [Hlt _].
      rewrite (Hn eq_refl) in Hlt. unfold n in *. lia.
    + intros j l. rewrite lookup_insert_Some. intros [[<- _]|[_ Hj]]; [|by apply C2].
      intros Hl. by destruct (Ht l Hl).
    + intros j v. rewrite lookup_insert_Some. intros [[_ ?]|[_ Hj]]; [done|]. intros HvO.
      pose proof (do_open _ _ (so_dag _ _ Hok) v HvO) as Hv'.
      destruct (bu_new0 j v Hj) as [Hold|[[_ ->]|?]]; [by eapply K3|unfold n in *; lia..].
Qed.
End complete.
End mixin.
