(* ===== verification/PathsGraph.v ===== *)
(** The graph that answers a query: its shape, the paths it holds, and when
    building it returns.

    Building the graph of paths returns when every chain of predecessors comes
    to a place where the loop over it stops, and more fuel changes nothing. *)
From S2P Require Import Prelude Graph ExplodedSuperGraph ExplodedSuperGraphCorrect PathSensitivity.
From S2P Require Import PathSensitivityCorrect.
Import GraphTraits.

Section top.
Context {N D : Type} `{Countable N} `{Countable D} `{!Inhabited N} `{!Inhabited D}.
Context (E : ExplodedSuperGraph.t N D) (F : PathTracingFilter).
Import PathSensitivityManagerMixin.
Abbreviation graph_type := (AdjacencyList (list N) nat).
Abbreviation state_ok := (state_ok E F).
Abbreviation traced := (traced E F).
Abbreviation covered := (covered E F).
Implicit Types (s : state (N:=N)) (i j v w : nat) (l : list N) (Inst : N) (G : graph_type).

(** The supergraph has no cycles and the filter does not end paths. *)
Definition no_cycles : Prop :=
  (∀ i o, HasReachedEnd F i o = false) ∧ ∃ rank : nat → nat, ∀ i j, back E i j → rank j < rank i.

(** All paths of the nodes in the cache are in the graph. *)
Definition faithful s : Prop :=
  (∀ i v l, Cache s !! i = Some (Some v) → traced i l → spells (RetDag s) v l)
  ∧ ∀ i l, Cache s !! i = Some None → ¬ traced i l.

Lemma top_cached O s i v : state_ok O s → CurrPath s = [] → Cache s !! i = Some (Some v) → v < size (RetDag s) ∧ v ∉ O.
Proof.
  intros Hok Hp Hi. destruct (so_cache _ _ _ _ Hok i v Hi) as [? HO]. split; [done|]. intros Hv%HO. rewrite Hp in Hv.
  by apply elem_of_nil in Hv.
Qed.

Lemma pathsToImplLA_faithful fuel depth O s i r s' :
  no_cycles → state_ok O s → CurrPath s = [] → faithful s → pathsToImplLA E F fuel depth i s = Some (r, s') → faithful s'.
Proof.
  intros (HF & rank & Hrank) Hok Hp [H1 H2] HLA. pose proof (pathsToImplLA_ok E F _ _ _ _ _ _ _ Hok HLA) as HR.
  apply (pathsToImplLA_complete E F HF rank Hrank fuel depth O (S (rank i))) in HLA as [C1 C2 _]; [|done| |lia].
  - pose proof (lr_path _ _ _ _ _ _ _ HR) as Hp'. rewrite Hp in Hp'. split; [|done]. intros j v l Hj. eapply C1; [exact Hj|].
    by destruct (top_cached O s' j v (lr_ok _ _ _ _ _ _ _ HR) Hp' Hj).
  - split; [intros j v l Hj _; by apply H1|done|]. intros j v Hj Hv. by destruct (top_cached O s j v Hok Hp Hj).
Qed.

(** * The edges out of a root *)

Section root.
Context (O : list nat) (s0 : state (N:=N)) (Inst : N).
Abbreviation n := (size (RetDag s0)).

(** [js] are the nodes that were linked. *)
Record links_ok (js : list nat) s : Prop := {
  li_ok : state_ok (n :: O) s;
  li_path : CurrPath s = [];
  li_out v : v < n → outEdges (RetDag s) v = outEdges (RetDag s0) v;
  li_node v : v < n → node (RetDag s) v = node (RetDag s0) v;
  li_label : node (RetDag s) n = [Inst];
  li_roots : Roots (RetDag s) = Roots (RetDag s0);
  li_in v : n < v → v < size (RetDag s) → ∃ u, v ∈ outEdges (RetDag s) u;
  li_edge w l : w ∈ outEdges (RetDag s) n → spells (RetDag s) w l → ∃ j, j ∈ js ∧ traced j l
}.

Lemma links_lt js s : links_ok js s → n < size (RetDag s).
Proof. intros Hs. apply (do_open _ _ (so_dag _ _ _ _ (li_ok _ _ Hs))). by left. Qed.

(** A call of [pathsToImplLA] for a node to be linked. *)
Record link_call s j r s1 : Prop := {
  lc_result : la_result E F (n :: O) s j r s1;
  lc_path : CurrPath s1 = [];
  lc_out : outEdges (RetDag s1) n = outEdges (RetDag s) n;
  lc_spells w l : w ∈ outEdges (RetDag s) n → spells (RetDag s1) w l ↔ spells (RetDag s) w l;
  lc_covered j' : covered s n j' → covered s1 n j';
  lc_in v : n < v → v < size (RetDag s1) → v ≠ size (RetDag s) ∨ RetDag s1 = RetDag s → ∃ u, v ∈ outEdges (RetDag s1) u;
  lc_faithful : no_cycles → faithful s → faithful s1
}.

Lemma pathsToImplLA_link fuel depth js j s r s1 :
  links_ok js s → pathsToImplLA E F fuel depth j s = Some (r, s1) → link_call s j r s1.
Proof.
  intros Hs HLA. pose proof (li_ok _ _ Hs) as Hok. pose proof (pathsToImplLA_ok E F _ _ _ _ _ _ _ Hok HLA) as HR.
  pose proof (links_lt _ _ Hs) as Hn. pose proof (lr_ext _ _ _ _ _ _ _ HR) as Hext.
  assert (∀ w l, w ∈ outEdges (RetDag s) n → spells (RetDag s1) w l ↔ spells (RetDag s) w l) as Hold.
  { intros w l Hw. destruct (do_target _ _ (so_dag _ _ _ _ Hok) n w Hw).
    by apply (spells_extends (n :: O) (RetDag s) _ w l (so_dag _ _ _ _ Hok) Hext). }
  assert (outEdges (RetDag s1) n = outEdges (RetDag s) n) as Hout by (by apply (ex_out _ _ Hext)).
  split; [done| |done|done|..].
  - by rewrite (lr_path _ _ _ _ _ _ _ HR), (li_path _ _ Hs).
  - intros j' Hcov l Hl. destruct (Hcov l Hl) as (w & Hw & Hsp). exists w. rewrite Hout. split; [done|]. by apply Hold.
  - intros v Hv Hv1 Hne. destruct (decide (v < size (RetDag s))) as [Hlt|].
    + destruct (li_in _ _ Hs v Hv Hlt) as [u Hu]. exists u. rewrite (ex_out _ _ Hext); [done|by apply outEdges_lt in Hu].
    + destruct Hne as [?|Heq]; [apply (lr_in _ _ _ _ _ _ _ HR v); lia|rewrite Heq in Hv1; lia].
  - intros Hnc Hf. exact (pathsToImplLA_faithful fuel depth (n :: O) s j r s1 Hnc Hok (li_path _ _ Hs) Hf HLA).
Qed.

Lemma link_edge js j w s s1 :
  links_ok js s → link_call s j (Some w) s1 →
  let s' := set_RetDag (addEdge (RetDag s1) n w) s1 in
  links_ok (js ++ [j]) s'
  ∧ (no_cycles → faithful s → faithful s' ∧ covered s' n j ∧ ∀ j', covered s n j' → covered s' n j').
Proof.
  intros Hs [HR Hp1 Hout Hold Hmono Hin Hfaith]. pose proof (lr_ok _ _ _ _ _ _ _ HR) as Hok1.
  pose proof (links_lt _ _ Hs) as Hn. pose proof (lr_ext _ _ _ _ _ _ _ HR) as Hext. pose proof (ex_size _ _ Hext) as Hsz.
  destruct (top_cached _ _ j w Hok1 Hp1 (lr_res _ _ _ _ _ _ _ HR)) as [Hwlt HwO].
  destruct (set_edge_ok E F (n :: O) s1 n w Hok1) as (Hok2 & Hs2 & Hsp); [by left|done..|]. simpl in Hs2, Hsp. cbv zeta.
  assert (∀ u, u ∈ outEdges (RetDag s1) n → u < size (RetDag s1) ∧ u ∉ (n :: O)) as Htgt
    by (intros u; apply (do_target _ _ (so_dag _ _ _ _ Hok1))).
  split; [split; cbn [RetDag CurrPath Cache set_RetDag]|]; [done|done|..].
  - intros v Hv. rewrite addEdge_out, decide_False, app_nil_r by lia. rewrite (ex_out _ _ Hext) by lia. by apply (li_out _ _ Hs).
  - intros v Hv. change (node (RetDag s1) v = node (RetDag s0) v). rewrite (ex_node _ _ Hext) by lia. by apply (li_node _ _ Hs).
  - change (node (RetDag s1) n = [Inst]). rewrite (ex_node _ _ Hext) by lia. apply Hs.
  - rewrite (ex_roots _ _ Hext : Roots (addEdge (RetDag s1) n w) = _). apply Hs.
  - intros v Hv Hv1. rewrite Hs2 in Hv1.
    assert (v ≠ size (RetDag s) ∨ RetDag s1 = RetDag s → ∃ u, v ∈ outEdges (addEdge (RetDag s1) n w) u) as Hv'.
    { intros Hne. destruct (Hin v Hv Hv1 Hne) as [u Hu]. exists u. apply addEdge_elem; [lia|by left]. }
    destruct (lr_same _ _ _ _ _ _ _ HR) as [Heq|[[= ->] _]]; [auto|].
    destruct (decide (v = size (RetDag s))) as [->|]; [exists n; apply addEdge_elem; [lia|by right]|auto].
  - intros x l [Hx|[_ ->]]%addEdge_elem Hl; [..|lia].
    + destruct (Htgt x Hx). rewrite Hsp in Hl by done. rewrite Hout in Hx. rewrite Hold in Hl by done.
      destruct (li_edge _ _ Hs x l Hx Hl) as (j' & ? & ?). exists j'. split; [apply elem_of_app; by left|done].
    + rewrite Hsp in Hl by done. exists j. split; [apply elem_of_app; right; by left|].
      eapply (so_sound _ _ _ _ Hok1); [apply (lr_res _ _ _ _ _ _ _ HR)|done|done].
  - intros Hnc Hf. destruct (Hfaith Hnc Hf) as [F1 F2]. split_and!.
    + split; [|done]. intros i v l Hi Hl. cbn. destruct (top_cached _ _ i v Hok1 Hp1 Hi). apply Hsp; [done..|]. by eapply F1.
    + intros l Hl. exists w. cbn. split; [apply addEdge_elem; [lia|by right]|]. apply Hsp; [done..|].
      eapply F1; [apply (lr_res _ _ _ _ _ _ _ HR)|done].
    + intros j' Hcov l Hl. destruct (Hmono j' Hcov l Hl) as (w' & Hw' & Hl'). exists w'. cbn.
      split; [apply addEdge_elem; [lia|by left]|]. destruct (Htgt w' Hw'). by apply Hsp.
Qed.

Lemma link_ok fuel depth js j s s' :
  links_ok js s → link E F fuel depth n j (Some s) = Some s' →
  links_ok (js ++ [j]) s'
  ∧ (no_cycles → faithful s → faithful s' ∧ covered s' n j ∧ ∀ j', covered s n j' → covered s' n j').
Proof.
  intros Hs ([r s1] & HLA & Hr)%bind_Some. pose proof (pathsToImplLA_link _ _ _ _ _ _ _ Hs HLA) as Hc.
  destruct r as [w|]; injection Hr as <-; [by apply link_edge|]. destruct Hc as [HR Hp1 Hout Hold Hmono Hin Hfaith].
  destruct (lr_same _ _ _ _ _ _ _ HR) as [Heq|[? _]]; [|done]. split.
  - split; try rewrite Heq; try apply Hs; [apply HR|done|].
    intros x l Hx Hl. destruct (li_edge _ _ Hs x l Hx Hl) as (j' & ? & ?). exists j'. split; [apply elem_of_app; by left|done].
  - intros Hnc Hf. destruct (Hfaith Hnc Hf) as [F1 F2]. split_and!; [done| |done].
    intros l Hl. destruct (F2 j l); [apply (lr_res _ _ _ _ _ _ _ HR)|done].
Qed.
End root.

(** * Queries *)

(** The paths of an answer: the statement asked about, then a path of the node or
    of an alternative of it. *)
Definition query_path Inst i l : Prop :=
  ∃ j l', (j = i ∨ j ∈ ExplodedSuperGraph.neighbors E i) ∧ traced j l' ∧ l = Inst :: l'.

Record root_ok O s Inst i s' : Prop := {
  ro_ok : state_ok (size (RetDag s) :: O) s';
  ro_path : CurrPath s' = [];
  ro_ext : extends (RetDag s) (RetDag s');
  ro_lt : size (RetDag s) < size (RetDag s');
  ro_label : node (RetDag s') (size (RetDag s)) = [Inst];
  ro_in v : size (RetDag s) < v → v < size (RetDag s') → ∃ u, v ∈ outEdges (RetDag s') u;
  ro_sound l : spells (RetDag s') (size (RetDag s)) l →
    l = [Inst] ∧ outEdges (RetDag s') (size (RetDag s)) = [] ∨ query_path Inst i l;
  ro_complete : no_cycles → faithful s →
    faithful s' ∧ ∀ l, query_path Inst i l → spells (RetDag s') (size (RetDag s)) l
}.

Lemma links_loop fuel depth O s0 Inst qs s s' :
  links_ok O s0 Inst [] s → for_each qs (link E F fuel depth (size (RetDag s0))) (Some s) = Some s' →
  links_ok O s0 Inst qs s' ∧ (no_cycles → faithful s → faithful s' ∧ ∀ q, q ∈ qs → covered s' (size (RetDag s0)) q).
Proof.
  intros Hs. revert s'. apply (for_each_ind (λ qs o, ∀ s', o = Some s' → links_ok O s0 Inst qs s'
    ∧ (no_cycles → faithful s → faithful s' ∧ ∀ q, q ∈ qs → covered s' (size (RetDag s0)) q))).
  - intros s' [= <-]. split; [done|]. intros _ Hf. split; [done|]. by intros q ?%elem_of_nil.
  - intros js q o _ IH s' Hl. destruct o as [s1|]; [|done]. destruct (IH s1 eq_refl) as [H1 H2].
    destruct (link_ok O s0 Inst fuel depth js q s1 s' H1 Hl) as [H3 H4]. split; [done|]. intros Hnc Hf.
    destruct (H2 Hnc Hf) as [K1 K2]. destruct (H4 Hnc K1) as (K3 & K4 & K5). split; [done|].
    intros x [Hx| ->%list_elem_of_singleton]%elem_of_app; auto.
Qed.

Lemma first_links O s Inst :
  state_ok O s → CurrPath s = [] →
  let s1 := set_RetDag (push_node (size (RetDag s)) Inst (addNode (RetDag s) []).2) s in
  links_ok O s Inst [] s1 ∧ outEdges (RetDag s1) (size (RetDag s)) = [] ∧ (faithful s → faithful s1).
Proof.
  intros Hok Hp. pose proof (so_dag _ _ _ _ Hok) as Hdag. pose proof (do_len _ _ Hdag) as HL. set (n := size (RetDag s)).
  destruct (push_node_spec n Inst (addNode (RetDag s) []).2) as (P1 & P2 & P3 & P4 & P5).
  { simpl. rewrite length_app, HL. simpl. unfold n. lia. }
  set (G := push_node n Inst (addNode (RetDag s) []).2) in *.
  assert (∀ v, outEdges G v = outEdges (RetDag s) v) as Hout by (intros v; unfold outEdges at 1; rewrite P3; apply addNode_out).
  assert (∀ v, v < n → node G v = node (RetDag s) v) as Hnode.
  { intros v Hv. rewrite P5, addNode_node, HL. fold n. rewrite !decide_False by lia. by rewrite app_nil_r. }
  assert (size G = S n) as HS by (rewrite P1; apply size_addNode).
  assert (∀ v l, v < n → spells G v l ↔ spells (RetDag s) v l) as Hsp.
  { intros v l Hv. apply (spells_old O); auto. }
  cbv zeta. split_and!; [split; fold n; cbn [RetDag CurrPath Cache set_RetDag]|..].
  - split; cbn [RetDag CurrPath Cache set_RetDag].
    + apply (dag_ok_edges _ (addNode (RetDag s) []).2); [by apply dag_ok_addNode|..].
      * rewrite HS, P2. simpl. rewrite length_app, HL. simpl. fold n. lia.
      * rewrite HS, size_addNode. done.
      * intros v w. rewrite Hout, addNode_out. by left.
    + rewrite Hp. by intros v ?%elem_of_nil.
    + intros i v Hi. destruct (so_cache _ _ _ _ Hok i v Hi) as [Hv HvO]. rewrite HS. fold n in Hv. split; [lia|].
      intros [->|Hin]%elem_of_cons; [lia|auto].
    + intros i v l Hi [_ HvO]%not_elem_of_cons. destruct (so_cache _ _ _ _ Hok i v Hi) as [Hv _]. rewrite Hsp by done.
      by eapply (so_sound _ _ _ _ Hok).
  - done.
  - intros v _. apply Hout.
  - exact Hnode.
  - rewrite P5, addNode_node, HL. fold n. by rewrite !decide_True.
  - by rewrite P4.
  - intros v. rewrite HS. lia.
  - intros w l. rewrite Hout, outEdges_ge by done. by intros ?%elem_of_nil.
  - cbn. rewrite Hout. by apply outEdges_ge.
  - intros [F1 F2]. split; [|done]. intros i v l Hi Hl. destruct (so_cache _ _ _ _ Hok i v Hi) as [Hv _].
    apply Hsp; [done|]. by eapply F1.
Qed.

Lemma pathsToImpl_ok fuel depth O Inst i s r s' :
  state_ok O s → CurrPath s = [] → pathsToImpl E F fuel depth Inst i s = Some (r, s') →
  r = size (RetDag s) ∧ Roots (RetDag s') = Roots (RetDag s) ∧ root_ok O s Inst i s'.
Proof.
  intros Hok Hp Hr. unfold pathsToImpl, addNode in Hr. rewrite (do_len _ _ (so_dag _ _ _ _ Hok)) in Hr.
  cbv zeta in Hr. set (n := size (RetDag s)) in *.
  destruct (first_links O s Inst Hok Hp) as (HL1 & _ & Hf1). fold n in HL1, Hf1.
  set (s1 := set_RetDag (push_node n Inst (addNode (RetDag s) []).2) s) in *.
  apply bind_Some in Hr as (s2 & Hrun & [= <- <-]).
  assert (for_each (ExplodedSuperGraph.neighbors E i ++ [i]) (link E F fuel depth n) (Some s1) = Some s2) as Hloop
    by (by rewrite for_each_app).
  destruct (links_loop fuel depth O s Inst _ s1 s2 HL1 Hloop) as [HL2 Hc2]. fold n in Hc2.
  pose proof (li_ok _ _ _ _ _ HL2) as Hok2. pose proof (links_lt _ _ _ _ _ HL2) as Hlt. fold n in Hlt.
  destruct (dedup_same (n :: O) (RetDag s2) n) as (HS & Ho & Hsp & Hne & Hdag). specialize (Hdag (so_dag _ _ _ _ Hok2)).
  set (G := dedupOutEdges (RetDag s2) n) in *.
  split; [done|]. split; [apply (li_roots _ _ _ _ _ HL2)|]. split; cbn [RetDag CurrPath Cache set_RetDag]; fold n; fold G.
  - split; cbn [RetDag CurrPath Cache set_RetDag]; fold n; fold G.
    + done.
    + apply Hok2.
    + intros j v. rewrite HS. apply Hok2.
    + intros j v l Hj Hv Hl. apply Hsp in Hl. by eapply (so_sound _ _ _ _ Hok2).
  - apply HL2.
  - split; fold n; [rewrite HS; lia|..|apply (li_roots _ _ _ _ _ HL2)].
    + intros v Hv. rewrite <-(li_out _ _ _ _ _ HL2) by done. apply Hne. fold n. lia.
    + intros v Hv. by apply (li_node _ _ _ _ _ HL2).
  - by rewrite HS.
  - apply (li_label _ _ _ _ _ HL2).
  - intros v Hv. rewrite HS. intros Hv2. destruct (li_in _ _ _ _ _ HL2 v Hv Hv2) as [u Hu]. exists u. by apply Ho.
  - intros l [[? ->]|(w & l' & Hw & Hl & ->)]%spells_inv; [left; split; [apply HL2|done]|right].
    apply Ho in Hw. apply Hsp in Hl. destruct (li_edge _ _ _ _ _ HL2 w l' Hw Hl) as (j & Hj & Ht). exists j, l'. split_and!.
    + apply elem_of_app in Hj as [?| ->%list_elem_of_singleton]; auto.
    + done.
    + rewrite (li_label _ _ _ _ _ HL2 : node G n = _). done.
  - intros Hnc Hf. destruct (Hc2 Hnc (Hf1 Hf)) as [[F1 F2] Hcov]. split.
    + split; [|done]. intros j v l Hj Hl. apply Hsp. by eapply F1.
    + intros l (j & l' & Hj & Ht & ->). destruct (Hcov j) with l' as (w & Hw & Hl); [|done|].
      { apply elem_of_app. destruct Hj as [->|?]; [right; by left|by left]. }
      change (Inst :: l') with ([Inst] ++ l'). rewrite <-(li_label _ _ _ _ _ HL2 : node G n = _).
      econstructor; [by apply Ho|by apply Hsp].
Qed.

(** Root [r] answers the question for [Fact]. *)
Definition answers Inst G (Fact : D) r : Prop :=
  ∃ i, ExplodedSuperGraph.getNodeOrNull E Inst Fact = Some i ∧ node G r = [Inst]
    ∧ (∀ l, spells G r l → l = [Inst] ∧ outEdges G r = [] ∨ query_path Inst i l)
    ∧ (no_cycles → ∀ l, query_path Inst i l → spells G r l).

(** The roots count as open: nothing leads to them. *)
Record graph_ok Inst (Facts : list D) s : Prop := {
  go_ok : state_ok (Roots (RetDag s)) s;
  go_path : CurrPath s = [];
  go_in v : v < size (RetDag s) → v ∈ Roots (RetDag s) ∨ ∃ u, v ∈ outEdges (RetDag s) u;
  go_nodup : NoDup (Roots (RetDag s));
  go_answers : Forall2 (answers Inst (RetDag s)) Facts (Roots (RetDag s));
  go_faithful : no_cycles → faithful s
}.

Lemma answers_stable O Inst G G' Fact r :
  dag_ok O G → (∀ v, v < size G → outEdges G' v = outEdges G v ∧ node G' v = node G v) → r < size G →
  answers Inst G Fact r → answers Inst G' Fact r.
Proof.
  intros Hdag Hs Hr (i & Hi & Hn & H1 & H2). destruct (Hs r Hr) as [Ho Hn'].
  assert (∀ l, spells G' r l ↔ spells G r l) as Hsp.
  { intros l. by apply (spells_old O). }
  exists i. rewrite Hn', Ho. split_and!; [done..| |]; setoid_rewrite Hsp; done.
Qed.

(** Roots do not matter to what is spelled. *)
Lemma spells_addRoot G r v l : spells (addRoot G r) v l ↔ spells G v l.
Proof.
  split; induction 1 as [v Hn|v w l Hw _ IH].
  - exact (spells_leaf G v Hn).
  - exact (spells_step G v w l Hw IH).
  - exact (spells_leaf (addRoot G r) v Hn).
  - exact (spells_step (addRoot G r) v w l Hw IH).
Qed.

Lemma state_ok_addRoot O O' s r :
  (∀ v, v ∈ O ↔ v ∈ O') → state_ok O s → state_ok O' (set_RetDag (addRoot (RetDag s) r) s).
Proof.
  intros HO [[D1 D2 D3 D4] H2 H3 H4]. split; cbn [RetDag CurrPath Cache set_RetDag]; [split|..]; try setoid_rewrite <-HO; try done.
  - intros i v l Hi Hv Hl. apply spells_addRoot in Hl. by eapply H4.
Qed.

Lemma initial_graph_ok Inst : graph_ok Inst [] initial_state.
Proof.
  assert (∀ v, outEdges (T:=list N) (empty : graph_type) v = []) as Ho by (intros v; apply outEdges_ge; unfold size; simpl; lia).
  split; simpl.
  - split; simpl; [|by intros v ?%elem_of_nil|done..]. split; simpl.
    + done.
    + by intros v ?%elem_of_nil.
    + intros v w. rewrite Ho. by intros ?%elem_of_nil.
    + intros v _. constructor. intros w. unfold edge_back. rewrite Ho. by intros ?%elem_of_nil.
  - done.
  - unfold size. simpl. lia.
  - constructor.
  - constructor.
  - done.
Qed.

Lemma query_ok fuel depth Inst Facts Fact s s' :
  graph_ok Inst Facts s → query E F fuel depth Inst Fact (Some s) = Some s' → graph_ok Inst (Facts ++ [Fact]) s'.
Proof.
  intros [Hok Hp Hin Hnd Hans Hfaith] (i & Hi & ([r s1] & Hr & [= <-])%bind_Some)%bind_Some.
  destruct (pathsToImpl_ok fuel depth _ Inst i s r s1 Hok Hp Hr) as (-> & HR & []). set (n := size (RetDag s)) in *.
  assert (∀ v, v < n → outEdges (RetDag s1) v = outEdges (RetDag s) v ∧ node (RetDag s1) v = node (RetDag s) v) as Hold.
  { intros v Hv. split; [by apply (ex_out _ _ ro_ext0)|by apply (ex_node _ _ ro_ext0)]. }
  pose proof (so_dag _ _ _ _ Hok) as Hdag.
  assert (∀ v, v ∈ Roots (RetDag s) → v < n) as Hlt by (apply (do_open _ _ Hdag)).
  split; cbn [RetDag CurrPath Cache set_RetDag addRoot Roots]; rewrite ?HR.
  - apply (state_ok_addRoot (n :: Roots (RetDag s))); [|done]. intros v. rewrite elem_of_cons, elem_of_app, list_elem_of_singleton. tauto.
  - done.
  - intros v Hv. change (v < size (RetDag s1)) in Hv.
    change (v ∈ Roots (RetDag s) ++ [n] ∨ ∃ u, v ∈ outEdges (RetDag s1) u). destruct (lt_eq_lt_dec v n) as [[Hvn| ->]|Hvn].
    + destruct (Hin v Hvn) as [?|[u Hu]]; [left; apply elem_of_app; by left|right]. exists u.
      apply outEdges_lt in Hu as Hun. by destruct (Hold u Hun) as [-> _].
    + left. apply elem_of_app. right. by left.
    + right. by apply ro_in0.
  - apply NoDup_app. split_and!; [done| |apply NoDup_singleton]. intros v Hv ->%list_elem_of_singleton.
    apply Hlt in Hv. lia.
  - apply Forall2_app; [|constructor; [|constructor]].
    + apply Forall2_same_length_lookup_2; [by eapply Forall2_length|]. intros k d v Hd Hv.
      eapply (answers_stable (Roots (RetDag s)) _ (RetDag s)); [done|exact Hold|by eapply Hlt, list_elem_of_lookup_2|].
      by eapply Forall2_lookup_lr.
    + exists i. split; [done|]. split; [done|]. setoid_rewrite spells_addRoot. split; [done|].
      intros Hnc. by apply (ro_complete0 Hnc (Hfaith Hnc)).
  - intros Hnc. destruct (ro_complete0 Hnc (Hfaith Hnc)) as [[F1 F2] _]. split; [|done].
    intros j v l Hj Hl. apply spells_addRoot. by eapply F1.
Qed.

Lemma paths_graph_ok fuel depth Inst Facts G :
  paths_graph E F fuel depth Inst Facts = Some G → ∃ s, G = RetDag s ∧ graph_ok Inst Facts s.
Proof.
  intros (s & Hl & [= <-])%bind_Some. exists s. split; [done|]. revert s Hl.
  apply (for_each_ind (λ Facts o, ∀ s, o = Some s → graph_ok Inst Facts s)).
  - intros s [= <-]. apply initial_graph_ok.
  - intros l Fact o _ IH s Hq. destruct o as [s1|]; [|done]. eapply query_ok; [by apply IH|done].
Qed.
End top.

Import GraphTraits PathSensitivityManagerMixin.

Section termination.
Context {N D : Type} `{Countable N} `{Countable D} `{!Inhabited N} `{!Inhabited D}.
Context (E : ExplodedSuperGraph.t N D) (F : PathTracingFilter).
Abbreviation graph_type := (AdjacencyList (list N) nat).
Abbreviation predecessor := (ExplodedSuperGraph.predecessor E).
Abbreviation neighbors := (ExplodedSuperGraph.neighbors E).
Abbreviation esize := (ExplodedSuperGraph.size E).
Implicit Types (s : state (N:=N)) (i j v w p q : nat) (Inst : N) (G : graph_type).

(** * More fuel *)

(** [o'] returns what [o] returns, if that returns. *)
Definition below {A} (o o' : option A) : Prop := ∀ x, o = Some x → o' = Some x.

#[local] Instance below_preorder A : PreOrder (below (A:=A)).
Proof. split; [by intros o x|]. intros o1 o2 o3 H1 H2 x Hx. auto. Qed.

Lemma below_bind {A A'} (o o' : option A) (f f' : A → option A') :
  below o o' → (∀ x, below (f x) (f' x)) → below (x ← o; f x) (x ← o'; f' x).
Proof. intros Ho Hf y (x & Hx & Hy)%bind_Some. rewrite (Ho x Hx). by apply Hf. Qed.

Lemma below_for_each {A S} (l : list A) (f f' : A → option S → option S) o o' :
  (∀ x o o', below o o' → below (f x o) (f' x o')) → below o o' → below (for_each l f o) (for_each l f' o').
Proof.
  intros Hf. revert o o'. induction l as [|x l IH]; intros o o' Ho; [done|]. rewrite !for_each_cons. auto.
Qed.

Lemma follow_below fuel fuel' v i G : fuel ≤ fuel' → below (follow E F fuel v i G) (follow E F fuel' v i G).
Proof.
  revert fuel' i G. induction fuel as [|fuel IH]; intros fuel' i G Hle; [by intros x|].
  destruct fuel' as [|fuel']; [lia|]. cbn [follow]. destruct (predecessor i) as [p|]; [|done].
  destruct (_ || ExplodedSuperGraph.hasNeighbors E p); [done|]. apply IH. lia.
Qed.

Section invoke.
Context (LA LA' : nat → state (N:=N) → option (option nat * state (N:=N))).
Context (HLA : ∀ i s, below (LA i s) (LA' i s)).

Lemma traverseNext_below n j s : below (traverseNext LA n j s) (traverseNext LA' n j s).
Proof. apply below_bind; [apply HLA|]. by intros [[w|] s1]. Qed.

Lemma invoke_below fuel fuel' n i s :
  fuel ≤ fuel' → below (pathsToImplLAInvoke E F LA fuel n i s) (pathsToImplLAInvoke E F LA' fuel' n i s).
Proof.
  intros Hle. apply below_bind; [by apply follow_below|]. intros [[b|Prev Vtx IsEnd IsError] G]; [done|].
  cbv zeta. case_decide; [done|]. apply below_bind; [destruct (_ && _); [apply traverseNext_below|done]|].
  intros s1. apply below_bind; [|done]. apply below_for_each; [|done]. intros q o o' Ho. unfold traverse_neighbor.
  apply below_bind; [done|]. intros [b s2]. repeat case_match; try done.
  apply below_bind; [apply traverseNext_below|done].
Qed.
End invoke.

Lemma pathsToImplLA_below fuel fuel' depth depth' i s :
  fuel ≤ fuel' → depth ≤ depth' → below (pathsToImplLA E F fuel depth i s) (pathsToImplLA E F fuel' depth' i s).
Proof.
  intros Hf. revert depth' i s. induction depth as [|depth IH]; intros depth' i s Hd; [by intros x|].
  destruct depth' as [|depth']; [lia|]. cbn [pathsToImplLA]. destruct (Cache s !! i); [done|]. destruct (addNode _ _) as [n G].
  apply below_bind; [|done]. apply invoke_below; [|done]. intros j s'. apply IH. lia.
Qed.

Lemma paths_graph_below fuel fuel' depth depth' Inst Facts :
  fuel ≤ fuel' → depth ≤ depth' → below (paths_graph E F fuel depth Inst Facts) (paths_graph E F fuel' depth' Inst Facts).
Proof.
  intros Hf Hd. assert (∀ n q o o', below o o' → below (link E F fuel depth n q o) (link E F fuel' depth' n q o')) as Hl.
  { intros n q o o' Ho. apply below_bind; [done|]. intros s. apply below_bind; [by apply pathsToImplLA_below|done]. }
  apply below_bind; [|done]. apply below_for_each; [|done]. intros Fact o o' Ho. apply below_bind; [done|]. intros s.
  apply below_bind; [done|]. intros i. apply below_bind; [|done]. unfold pathsToImpl. destruct (addNode _ _) as [n G].
  apply below_bind; [|done]. apply Hl. apply below_for_each; [apply Hl|done].
Qed.

(** * Enough fuel *)

(** The loop of [follow] is left when it is entered at [i]. *)
Inductive leaves : nat → Prop :=
  | leaves_start i : predecessor i = None → leaves i
  | leaves_filter i p : predecessor i = Some p → ¬ passes F i p → leaves i
  | leaves_neighbors i p : predecessor i = Some p → neighbors p ≠ [] → leaves i
  | leaves_step i p : predecessor i = Some p → leaves p → leaves i.

Lemma follow_stops fuel v i G p :
  predecessor i = Some p → ¬ passes F i p ∨ neighbors p ≠ [] → is_Some (follow E F (S fuel) v i G).
Proof.
  intros Hp Hs. cbn [follow]. rewrite Hp. destruct (_ || ExplodedSuperGraph.hasNeighbors E p) eqn:Ho; [by eexists|].
  apply orb_false_iff in Ho as [[He Herr]%orb_false_iff Hnb]. rewrite He in Herr. destruct Hs as [Hs|Hs].
  - by destruct Hs.
  - unfold ExplodedSuperGraph.hasNeighbors in Hnb. by apply negb_false_iff, bool_decide_eq_true in Hnb.
Qed.

Lemma follow_leaves i : leaves i → ∃ k, ∀ fuel v G, k ≤ fuel → is_Some (follow E F fuel v i G).
Proof.
  induction 1 as [i Hp|i p Hp Hs|i p Hp Hs|i p Hp _ IH].
  - exists 1. intros [|fuel] v G Hk; [lia|]. cbn [follow]. rewrite Hp. by eexists.
  - exists 1. intros [|fuel] v G Hk; [lia|]. eapply follow_stops; eauto.
  - exists 1. intros [|fuel] v G Hk; [lia|]. eapply follow_stops; eauto.
  - destruct IH as [k Hk].
    exists (S k). intros [|fuel] v G Hf; [lia|]. cbn [follow]. rewrite Hp. destruct (_ || _); [by eexists|]. apply Hk. lia.
Qed.

Lemma follow_predecessor fuel v i G r G' :
  follow E F fuel v i G = Some (r, G') → match r with Stopped Prev Vtx _ _ => predecessor Prev = Some Vtx | Returned _ => True end.
Proof.
  revert i G. induction fuel as [|fuel IH]; intros i G; [done|]. cbn [follow]. destruct (predecessor i) as [p|] eqn:Hp.
  - destruct (_ || ExplodedSuperGraph.hasNeighbors E p); [by intros [= <- _]|apply IH].
  - by intros [= <- _].
Qed.

(** ** The recursion: every new call caches another node *)

Definition uncached s : nat := sum_of (λ j, match Cache s !! j with None => 1 | Some _ => 0 end) (seq 0 esize).

Definition caches s s' : Prop := ∀ j, is_Some (Cache s !! j) → is_Some (Cache s' !! j).

#[local] Instance caches_preorder : PreOrder caches.
Proof. split; [by intros s j|]. intros s1 s2 s3 H1 H2 j Hj. auto. Qed.

Lemma uncached_le s s' : caches s s' → uncached s' ≤ uncached s.
Proof.
  intros Hc. unfold uncached. induction (seq 0 esize) as [|j js IH]; [done|]. simpl.
  destruct (Cache s !! j) eqn:Hj; [|case_match; lia]. destruct (Hc j) as [x ->]; [by eexists|]. lia.
Qed.

Lemma uncached_lt s i x : i < esize → Cache s !! i = None → uncached (set_Cache i x s) < uncached s.
Proof.
  intros Hi Hn. apply (sum_of_lt _ _ _ i); [apply elem_of_seq; lia|cbn; rewrite lookup_insert_eq, Hn; lia|].
  intros j. cbn. destruct (decide (i = j)) as [<-|]; [rewrite lookup_insert_eq; lia|by rewrite lookup_insert_ne].
Qed.

Context (Hpred : ∀ i p, predecessor i = Some p → p < esize) (Hnb : ∀ i q, q ∈ neighbors i → q < esize).
Context (Hleaves : ∀ i, i < esize → leaves i).

Lemma enough_fuel : ∃ k, ∀ fuel i v G, k ≤ fuel → i < esize → is_Some (follow E F fuel v i G).
Proof.
  assert (∀ m, m ≤ esize → ∃ k, ∀ fuel i v G, k ≤ fuel → i < m → is_Some (follow E F fuel v i G)) as Hm;
    [|by apply (Hm esize)].
  induction m as [|m IH]; intros Hle; [exists 0; lia|]. destruct IH as [k1 Hk1]; [lia|].
  destruct (follow_leaves m) as [k2 Hk2]; [apply Hleaves; lia|]. exists (k1 `max` k2). intros fuel i v G Hf Hi.
  destruct (decide (i = m)) as [->|]; [apply Hk2|apply Hk1]; lia.
Qed.

Section fuel.
Context (fuel : nat) (Hfuel : ∀ i v G, i < esize → is_Some (follow E F fuel v i G)).

Section invoke_returns.
Context (LA : nat → state (N:=N) → option (option nat * state (N:=N))) (depth : nat).
Context (HLA : ∀ j s, j < esize → uncached s < depth → ∃ r s', LA j s = Some (r, s') ∧ caches s s').

Lemma traverseNext_returns n j s :
  j < esize → uncached s < depth → ∃ s', traverseNext LA n j s = Some s' ∧ caches s s'.
Proof.
  intros Hj Hs. destruct (HLA j s Hj Hs) as (r & s' & Heq & Hc). unfold traverseNext. rewrite Heq. simpl.
  destruct r as [w|]; [case_decide|]; by eexists.
Qed.

Lemma invoke_returns n i s :
  i < esize → uncached s < depth → ∃ b s', pathsToImplLAInvoke E F LA fuel n i s = Some (b, s') ∧ caches s s'.
Proof.
  intros Hi Hs. unfold pathsToImplLAInvoke. destruct (Hfuel i n (RetDag s) Hi) as [[r G] Hf]. rewrite Hf. cbn.
  apply follow_predecessor in Hf. destruct r as [b|Prev Vtx IsEnd IsError]; [eexists _, _; split; [done|by intros j]|].
  case_decide; [eexists _, _; split; [done|by intros j]|]. set (s1 := State _ _ _).
  assert (∃ s2, (if negb IsEnd && negb IsError then traverseNext LA n Vtx s1 else Some s1) = Some s2 ∧ caches s s2)
    as (s2 & -> & Hc2).
  { destruct (_ && _); [|exists s1; split; [done|by intros j]]. destruct (traverseNext_returns n Vtx s1) as (s2 & ? & ?); [by eapply Hpred|exact Hs|].
    by exists s2. }
  cbn. assert (∃ b s3, for_each (neighbors Vtx) (traverse_neighbor F LA n Prev) (Some (IsEnd, s2)) = Some (b, s3) ∧ caches s s3)
    as (b & s3 & -> & Hc3); [|eexists _, _; split; [done|by intros j Hj; apply Hc3]].
  apply (for_each_inv (λ o, ∃ b s3, o = Some (b, s3) ∧ caches s s3)); [by eexists _, _|].
  intros q o Hq (b & s3 & -> & Hc3). cbn. repeat case_match; [by eexists _, _..|].
  destruct (traverseNext_returns n q s3) as (s4 & -> & Hc4); [by eapply Hnb|pose proof (uncached_le _ _ Hc3); lia|].
  eexists _, _. split; [done|]. by trans s3.
Qed.
End invoke_returns.

Lemma pathsToImplLA_returns depth i s :
  i < esize → uncached s < depth → ∃ r s', pathsToImplLA E F fuel depth i s = Some (r, s') ∧ caches s s'.
Proof.
  revert i s. induction depth as [|depth IH]; intros i s Hi Hs; [lia|]. cbn [pathsToImplLA].
  destruct (Cache s !! i) as [c|] eqn:Hc; [by eexists _, _|]. destruct (addNode _ _) as [n G].
  set (s1 := set_Cache i (Some n) (set_RetDag G s)).
  assert (uncached s1 < depth) as Hs1 by (pose proof (uncached_lt s i (Some n) Hi Hc); unfold uncached in *; cbn in *; lia).
  destruct (invoke_returns _ depth IH n i s1 Hi Hs1) as (b & s2 & -> & Hc2). cbn.
  assert (caches s s1) as Hc1.
  { intros j Hj. cbn. destruct (decide (i = j)) as [<-|]; [rewrite lookup_insert_eq; by eexists|by rewrite lookup_insert_ne]. }
  assert (caches s s2) as Hc' by (by trans s1). destruct b; [by eexists _, _|].
  destruct (if decide _ then _ else _) as [Popped G']. eexists _, _. split; [done|]. trans s2; [done|].
  intros j Hj. cbn. destruct (decide (i = j)) as [<-|]; [rewrite lookup_insert_eq; by eexists|by rewrite lookup_insert_ne].
Qed.

Lemma paths_graph_returns Inst Facts :
  (∀ d, d ∈ Facts → ∃ i, ExplodedSuperGraph.getNodeOrNull E Inst d = Some i ∧ i < esize) →
  is_Some (paths_graph E F fuel (S esize) Inst Facts).
Proof.
  intros HF. assert (∀ s, uncached s < S esize) as Hun.
  { intros s. unfold uncached. pose proof (sum_of_le_const (λ j, match Cache s !! j with None => 1 | Some _ => 0 end)
      (seq 0 esize) 1 ltac:(intros x _; cbn beta; destruct (Cache s !! x); lia)). rewrite length_seq in *. lia. }
  assert (∀ n q o, q < esize → is_Some o → is_Some (link E F fuel (S esize) n q o)) as Hlink.
  { intros n q o Hq [s ->]. cbn [link]. unfold link. cbn [mbind option_bind].
    destruct (pathsToImplLA_returns (S esize) q s Hq (Hun s)) as (r & s' & -> & _). cbn. destruct r; by eexists. }
  unfold paths_graph. assert (is_Some (for_each Facts (query E F fuel (S esize) Inst) (Some initial_state))) as [s ->]; [|by eexists].
  apply (for_each_inv is_Some); [by eexists|]. intros d o Hd [s ->]. unfold query. cbn [mbind option_bind].
  destruct (HF d Hd) as (i & -> & Hi). cbn [mbind option_bind]. unfold pathsToImpl. destruct (addNode _ _) as [n G].
  set (s1 := set_RetDag _ s).
  assert (is_Some (link E F fuel (S esize) n i (for_each (neighbors i) (link E F fuel (S esize) n) (Some s1)))) as [s2 ->]; [|by eexists].
  apply Hlink; [done|]. apply (for_each_inv is_Some); [by eexists|]. intros q o Hq Ho. apply Hlink; [by eapply Hnb|done].
Qed.
End fuel.

(** One graph, with all fuel from some amount on. *)
Lemma paths_graph_terminates Inst Facts :
  (∀ d, d ∈ Facts → ∃ i, ExplodedSuperGraph.getNodeOrNull E Inst d = Some i ∧ i < esize) →
  ∃ k G, ∀ fuel, k ≤ fuel → paths_graph E F fuel fuel Inst Facts = Some G.
Proof.
  intros HF. destruct enough_fuel as [k Hk].
  destruct (paths_graph_returns (k `max` S esize) (λ i v G, Hk (k `max` S esize) i v G ltac:(lia)) Inst Facts HF) as [G HG].
  exists (k `max` S esize), G. intros fuel Hf. revert HG. apply paths_graph_below; lia.
Qed.
End termination.
