(* ===== verification/PathsLoops.v ===== *)
(** When building the graph of paths never ends: from a node where no chain of
    predecessors comes to an end. Recordings whose first edge enters a loop are of
    that kind: the edge that closes the loop makes the start a successor. *)
From S2P Require Import Prelude UnionFind IDESolver Graph ExplodedSuperGraph ExplodedSuperGraphCorrect PathSensitivity.
From S2P Require Import PathSensitivityCorrect PathsGraph.
Import GraphTraits.

(** * Chains without an end *)

Section stuck.
Context {N D : Type} `{Countable N} `{Countable D} `{!Inhabited N} `{!Inhabited D}.
Context (E : ExplodedSuperGraph.t N D) (F : PathTracingFilter).
Import PathSensitivityManagerMixin.

Lemma follow_Some_leaves fuel v i G : is_Some (follow E F fuel v i G) → leaves E F i.
Proof.
  revert i G. induction fuel as [|fuel IH]; intros i G [r Hr]; [done|]. cbn [follow] in Hr.
  destruct (ExplodedSuperGraph.predecessor E i) as [p|] eqn:Hp; [|by constructor].
  destruct (HasReachedEnd F i (Some p)) eqn:He; [eapply leaves_filter; [done|]; intros [? ?]; congruence|].
  destruct (IsErrorneousTransition F i (Some p)) eqn:Herr; [eapply leaves_filter; [done|]; intros [? ?]; congruence|].
  simpl in Hr. destruct (ExplodedSuperGraph.hasNeighbors E p) eqn:Hn.
  - eapply leaves_neighbors; [done|]. intros Hnil. unfold ExplodedSuperGraph.hasNeighbors in Hn.
    by rewrite Hnil in Hn.
  - eapply leaves_step; [done|]. by eapply IH.
Qed.

Lemma pathsToImplLA_stuck fuel depth i s :
  ¬ leaves E F i → Cache s !! i = None → pathsToImplLA E F fuel depth i s = None.
Proof.
  intros Hi Hc. destruct depth as [|depth]; [done|]. cbn [pathsToImplLA]. rewrite Hc.
  destruct (addNode _ _) as [n G]. unfold pathsToImplLAInvoke.
  destruct (follow E F fuel n i _) as [r|] eqn:Hr; [|done].
  destruct Hi. eapply follow_Some_leaves. by exists r.
Qed.

Lemma pathsDagTo_stuck {U} `{!IntEqClasses U} fuel Inst Fact i Config :
  ExplodedSuperGraph.getNodeOrNull E Inst Fact = Some i → ExplodedSuperGraph.neighbors E i = [] → ¬ leaves E F i →
  pathsDagTo (U:=U) fuel E Inst Fact Config F = None.
Proof.
  intros Hn Hnb Hi. unfold pathsDagTo, pathsDagToAll, paths_graph. rewrite for_each_cons, for_each_nil.
  unfold query. cbn [mbind option_bind]. rewrite Hn. cbn [mbind option_bind]. unfold pathsToImpl.
  destruct (addNode _ _) as [n G]. rewrite Hnb, for_each_nil. unfold link at 1. cbn [mbind option_bind].
  by rewrite pathsToImplLA_stuck.
Qed.
End stuck.

(** * Entering a loop with the first edge *)

Section loops.
Context {N D B : Type} `{Countable N} `{Countable D} `{!EqDecision B} `{!Inhabited N} `{!Inhabited D}.
Context (getParent : N → B) (Z : D).
Import ExplodedSuperGraph.
Abbreviation saved := (PathAwareIDESolver.saved_edges N D).
Abbreviation record_edges := (PathAwareIDESolver.saveEdges getParent).
Implicit Types (E : t N D) (e : saved) (es : list saved) (seen : list (N * D)) (n m : N) (d : D).

Definition targets_of e : list (N * D) := (λ d, (PathAwareIDESolver.Succ e, d)) <$> PathAwareIDESolver.SuccNodes e.
Definition targets es : list (N * D) := es ≫= targets_of.

(** The edges go out of facts that were seen before, to facts that were not. *)
Fixpoint fans_out seen es : Prop :=
  match es with
  | [] => True
  | e :: es =>
      PathAwareIDESolver.Kind e ≠ ESG_CallToRet
      ∧ (PathAwareIDESolver.Curr e, PathAwareIDESolver.CurrNode e) ∈ seen
      ∧ NoDup (targets_of e) ∧ (∀ x, x ∈ targets_of e → x ∉ seen) ∧ fans_out (seen ++ targets_of e) es
  end.

Lemma targets_cons e es : targets (e :: es) = targets_of e ++ targets es.
Proof. apply bind_cons. Qed.
Lemma targets_app es1 es2 : targets (es1 ++ es2) = targets es1 ++ targets es2.
Proof. apply bind_app. Qed.

Lemma fans_out_app seen es1 es2 :
  fans_out seen (es1 ++ es2) ↔ fans_out seen es1 ∧ fans_out (seen ++ targets es1) es2.
Proof.
  revert seen. induction es1 as [|e es1 IH]; intros seen; cbn [fans_out app].
  { rewrite app_nil_r. tauto. }
  rewrite IH, targets_cons, app_assoc. tauto.
Qed.

(** The graph of such edges: every node but the first has one predecessor and no
    alternatives. *)
Record fanned (h : N) (d : D) (start : option nat) (src : N) seen E : Prop := {
  fa_len : owners_agree E;
  fa_root : 0 < size E;
  fa_start : predecessor E 0 = start;
  fa_start_lt p : start = Some p → p < size E;
  fa_src : source E 0 = src;
  fa_head : FlowFactVertexMap E !! (h, d) = Some 0;
  fa_pred i : 0 < i < size E → ∃ p, p < size E ∧ predecessor E i = Some p;
  fa_neighbors i : neighbors E i = [];
  fa_seen x : x ∈ seen ↔ is_Some (FlowFactVertexMap E !! x);
  fa_range x i : FlowFactVertexMap E !! x = Some i → i < size E;
  fa_zero : ZeroValue E = Z
}.

Lemma fanned_map h d start src seen E x i :
  fanned h d start src seen E → x ∉ seen → i < size E →
  fanned h d start src (seen ++ [x]) (map_to x.1 x.2 i E).
Proof.
  intros [H1 H2 H3 Hst H4 H5 H6 H7 H8 H9 H10] Hx Hi. destruct x as [m d']. simpl. split; try done.
  - simpl. rewrite lookup_insert_ne; [done|]. intros Heq. apply Hx, H8. rewrite Heq. by eexists.
  - intros y. simpl. rewrite elem_of_app, list_elem_of_singleton, H8, lookup_insert. case_decide; [|naive_solver].
    subst. naive_solver.
  - intros y j. simpl. rewrite lookup_insert. case_decide; [by intros [= <-]|apply H9].
Qed.

Lemma fanned_makeNode h d start src seen E p n dn d' i E' :
  fanned h d start src seen E → p < size E → makeNode (Some p) n dn d' E = (i, E') →
  fanned h d start src seen E' ∧ i < size E' ∧ p < size E'.
Proof.
  intros [H1 H2 H3 Hst H4 H5 H6 H7 H8 H9 H10] Hp Hmk. apply makeNode_added in Hmk as (-> & Had & Hmap).
  pose proof (λ j, added_access E (Some p) n d' E' j H1 Had) as Hacc. destruct (Hacc 0) as (Hlen & Hs & _ & Hsrc & Hpr & _).
  rewrite decide_False in Hsrc by lia. rewrite decide_False in Hpr by lia. split; [|lia]. split; try done.
  - lia.
  - congruence.
  - intros q Hq%Hst. lia.
  - congruence.
  - by rewrite Hmap.
  - intros j Hj. destruct (Hacc j) as (_ & _ & _ & _ & -> & _). case_decide; [exists p; split; [lia|done]|].
    destruct (H6 j) as (q & ? & ?); [lia|]. exists q. split; [lia|done].
  - intros j. destruct (Hacc j) as (_ & _ & _ & _ & _ & ->). by case_decide.
  - intros x. by rewrite Hmap.
  - intros x j. rewrite Hmap. intros Hj%H9. lia.
  - destruct Had as [_ _ ->]. done.
Qed.

Lemma fanned_saveEdge h d start src seen E p n dn m d' :
  fanned h d start src seen E → (m, d') ∉ seen → p < size E →
  let E' := saveEdge getParent (Some p) n dn m d' false E in
  fanned h d start src (seen ++ [(m, d')]) E' ∧ p < size E'.
Proof.
  intros Hf Hx Hp. unfold saveEdge. destruct (FlowFactVertexMap E !! (m, d')) as [i|] eqn:Hm.
  { destruct Hx. apply (fa_seen _ _ _ _ _ _ Hf). by eexists. }
  cbn [andb]. destruct (identity_edge _ _ _ _ _) as [q|] eqn:Hid.
  - apply (identity_edge_Some getParent (λ _ _ _ _, True)) in Hid as ([= ->] & _). split; [by apply (fanned_map _ _ _ _ _ _ (m, d'))|done].
  - destruct (makeNode _ _ _ _ _) as [i E'] eqn:Hmk. eapply fanned_makeNode in Hmk as (Hf' & Hi & Hp'); [|done..].
    split; [by apply (fanned_map _ _ _ _ _ _ (m, d'))|done].
Qed.

Lemma fanned_for_each h d start src seen E p n dn m ds :
  fanned h d start src seen E → p < size E →
  NoDup ((λ d, (m, d)) <$> ds) → (∀ x, x ∈ (λ d, (m, d)) <$> ds → x ∉ seen) →
  fanned h d start src (seen ++ ((λ d, (m, d)) <$> ds))
    (for_each ds (λ d', saveEdge getParent (Some p) n dn m d' false) E).
Proof.
  revert seen E. induction ds as [|d' ds IH]; intros seen E Hf Hp Hnd Hnew.
  { rewrite for_each_nil. by rewrite app_nil_r. }
  rewrite for_each_cons. rewrite fmap_cons in *. apply NoDup_cons in Hnd as [Hd' Hnd].
  destruct (fanned_saveEdge h d start src seen E p n dn m d') as [Hf' Hp']; [done|apply Hnew; by left|done|].
  rewrite cons_middle, app_assoc. apply IH; [done..|].
  intros x Hx. rewrite not_elem_of_app, list_elem_of_singleton. split; [apply Hnew; by right|by intros ->].
Qed.

Lemma no_skip e E :
  PathAwareIDESolver.Kind e ≠ ESG_CallToRet →
  match PathAwareIDESolver.Kind e with
  | ESG_CallToRet => bool_decide (PathAwareIDESolver.CurrNode e = ZeroValue E)
  | _ => false
  end = false.
Proof. by destruct (PathAwareIDESolver.Kind e). Qed.

Lemma fanned_run h d start src seen E es :
  fanned h d start src seen E → fans_out seen es →
  fanned h d start src (seen ++ targets es) (for_each es record_edges E).
Proof.
  revert seen E. induction es as [|e es IH]; intros seen E Hf He.
  { rewrite for_each_nil. by rewrite app_nil_r. }
  destruct He as (Hk & Hsrc & Hnd & Hnew & He). rewrite for_each_cons. rewrite targets_cons, app_assoc.
  apply IH; [|done]. unfold PathAwareIDESolver.saveEdges, saveEdges, getNodeOrNull.
  destruct (proj1 (fa_seen _ _ _ _ _ _ Hf _) Hsrc) as [p Hp]. rewrite Hp, no_skip by done.
  apply fanned_for_each; [done|by eapply fa_range|done..].
Qed.

(** The first edge makes the start. *)
Lemma fanned_first s h d Kind :
  Kind ≠ ESG_CallToRet →
  fanned h d None s [(s, d); (h, d)]
    (record_edges (PathAwareIDESolver.Saved s h d [d] Kind) (PathAwareIDESolver.initial_ESG Z)).
Proof.
  intros Hk. unfold PathAwareIDESolver.saveEdges, saveEdges. rewrite no_skip by done. cbn [PathAwareIDESolver.SuccNodes].
  rewrite for_each_cons, for_each_nil. unfold saveEdge, getNodeOrNull. simpl. rewrite !lookup_empty. simpl.
  split; try done.
  - unfold size. simpl. lia.
  - simpl. by rewrite lookup_insert_eq.
  - intros i. unfold size. simpl. lia.
  - intros [|i]; done.
  - intros x. simpl. rewrite !elem_of_cons, elem_of_nil, !lookup_insert, lookup_empty. repeat case_decide; naive_solver.
  - intros x i. simpl. rewrite !lookup_insert, lookup_empty. unfold size. simpl. repeat case_decide; naive_solver lia.
Qed.

(** The closing edge makes it a successor. *)
Lemma fanned_closed h d s x seen E Kind :
  fanned h d None s seen E → (x, d) ∈ seen → Kind ≠ ESG_CallToRet → d = Z ∨ getParent s ≠ getParent h →
  ∃ p, fanned h d (Some p) x seen (record_edges (PathAwareIDESolver.Saved x h d [d] Kind) E).
Proof.
  intros Hf Hx Hk Hd. destruct (proj1 (fa_seen _ _ _ _ _ _ Hf _) Hx) as [p Hp].
  pose proof (fa_range _ _ _ _ _ _ Hf _ _ Hp) as Hlt. exists p.
  unfold PathAwareIDESolver.saveEdges, saveEdges, getNodeOrNull. rewrite no_skip by done. cbn [PathAwareIDESolver.SuccNodes].
  rewrite for_each_cons, for_each_nil. cbn [PathAwareIDESolver.Curr PathAwareIDESolver.CurrNode PathAwareIDESolver.Succ].
  rewrite Hp. unfold saveEdge. destruct Hf as [H1 H2 H3 Hst H4 H5 H6 H7 H8 H9 H10]. rewrite H5. cbn [andb].
  rewrite decide_False, H3.
  2:{ unfold identity_edge. simpl. case_decide as Hid; [|done]. intros [= ->]. rewrite H4, H10 in Hid. naive_solver. }
  pose proof (λ j, set_predecessor_access E 0 (Some p) j H1 H2) as Hacc1. set (E1 := set_predecessor 0 (Some p) E) in *.
  destruct (Hacc1 0) as (Hl1 & Hs1 & _).
  pose proof (λ j, set_source_access E1 0 x j Hl1 ltac:(lia)) as Hacc2. set (E2 := set_source 0 x E1) in *.
  destruct (Hacc2 0) as (Hl2 & Hs2 & _ & Hsrc & _).
  assert (∀ j, predecessor E2 j = (if decide (0 = j) then Some p else predecessor E j) ∧ neighbors E2 j = neighbors E j) as Hacc.
  { intros j. destruct (Hacc1 j) as (_ & _ & _ & _ & <- & <-), (Hacc2 j) as (_ & _ & _ & _ & -> & ->). done. }
  split; try done.
  - lia.
  - by destruct (Hacc 0) as [-> _].
  - intros q [= <-]. lia.
  - intros i Hi. destruct (Hacc i) as [-> _]. rewrite decide_False by lia. destruct (H6 i) as (q & ? & ?); [lia|].
    exists q. split; [lia|done].
  - intros i. destruct (Hacc i) as [_ ->]. apply H7.
  - intros y i Hy%H9. lia.
Qed.

(** Then no chain of predecessors ends. *)
Lemma fanned_stuck h d p src seen E i :
  fanned h d (Some p) src seen E → i < size E → ¬ leaves E DefaultPathTracingFilter i.
Proof.
  intros Hf Hi Hl. assert (∀ j, j < size E → ∃ q, q < size E ∧ predecessor E j = Some q) as Hpred.
  { intros [|j] Hj; [exists p; split; by apply Hf|]. apply (fa_pred _ _ _ _ _ _ Hf). lia. }
  revert Hi. induction Hl as [i Hn|i q Hq Hn|i q Hq Hn|i q Hq _ IH]; intros Hi;
    destruct (Hpred i Hi) as (q' & Hlt & Hq'); simplify_eq.
  - by destruct Hn.
  - destruct Hn. apply Hf.
  - by apply IH.
Qed.

(** The whole recording. *)
Lemma loop_entry_stuck s h d K0 mid x K1 rest :
  K0 ≠ ESG_CallToRet → K1 ≠ ESG_CallToRet → d = Z ∨ getParent s ≠ getParent h →
  fans_out [(s, d); (h, d)] (mid ++ rest) → (x, d) ∈ (h, d) :: targets mid →
  let E := PathAwareIDESolver.getExplicitESG getParent Z
    (PathAwareIDESolver.Saved s h d [d] K0 :: mid ++ PathAwareIDESolver.Saved x h d [d] K1 :: rest) in
  ∀ y, y ∈ [(s, d); (h, d)] ++ targets (mid ++ rest) →
    ∃ i, FlowFactVertexMap E !! y = Some i ∧ neighbors E i = [] ∧ ¬ leaves E DefaultPathTracingFilter i.
Proof.
  intros HK0 HK1 Hd [Hmid Hrest]%fans_out_app Hx. cbv zeta. unfold PathAwareIDESolver.getExplicitESG.
  rewrite for_each_cons, for_each_app, for_each_cons.
  pose proof (fanned_run _ _ _ _ _ _ _ (fanned_first s h d K0 HK0) Hmid) as Hf1.
  destruct (fanned_closed _ _ _ x _ _ K1 Hf1) as (p & Hf2); [set_solver|done..|].
  pose proof (fanned_run _ _ _ _ _ _ _ Hf2 Hrest) as Hf3. intros y Hy.
  destruct (proj1 (fa_seen _ _ _ _ _ _ Hf3 y)) as [i Hi].
  { by rewrite targets_app, app_assoc in Hy. }
  exists i. split; [done|]. split; [apply Hf3|]. by eapply fanned_stuck; [|eapply fa_range].
Qed.
End loops.
