(* ===== verification/PathsFinish.v ===== *)
(** The steps after the graph of paths was built: turning it around and
    minimizing it keep what its paths say, and the check for circles passes.

    [reverseDAG]: breadth first up to a depth, the graph is turned around, and
    what lies behind the depth is cut off. *)
From S2P Require Import Prelude UnionFind Graph DFAMinimizer EquivalentGraph ExplodedSuperGraphCorrect.
From S2P Require Import PathSensitivity PathSensitivityCorrect.
From stdpp Require Import relations.
Import GraphTraits.

(** * What a graph says *)

Section reads.
Context {X : Type}.
Abbreviation graph := (AdjacencyList (list X) nat).
Implicit Types (G : graph) (v w x : nat) (l : list X) (tr : list (list X * unit)).

(** What is read on a path from a root to a leaf, from its end to its start. *)
Definition reads G l : Prop := ∃ tr last, root_path G tr last True ∧ l = concat (reverse (tr.*1 ++ [last])).

Lemma path_snoc G v tr w e : path G v tr w → e ∈ outEdges G w → path G v (tr ++ [(node G w, weight e)]) e.
Proof.
  intros Hp He. induction Hp as [v|v f tr w Hf _ IH]; simpl.
  - refine (path_step G v e [] e He _). constructor.
  - refine (path_step G v f _ e Hf _). by apply IH.
Qed.

Lemma spells_path G v l : spells G v l ↔ ∃ tr w, path G v tr w ∧ outEdges G w = [] ∧ l = concat (tr.*1 ++ [node G w]).
Proof.
  split.
  - induction 1 as [v Hnil|v w l Hw _ (tr & x & Hp & Hx & ->)].
    + exists [], v. split_and!; [constructor|done|]. simpl. by rewrite app_nil_r.
    + exists ((node G v, weight w) :: tr), x. split_and!; [|done|done]. exact (path_step G v w tr x Hw Hp).
  - intros (tr & w & Hp & Hnil & ->). induction Hp as [v|v e tr w He _ IH]; simpl.
    + rewrite app_nil_r. by constructor.
    + econstructor; [done|]. by apply IH.
Qed.

(** A path, walked the other way in the graph with the edges turned around. *)
Lemma path_turn G G' v tr w :
  (∀ u, node G' u = node G u) → (∀ u x, x ∈ outEdges G u → u ∈ outEdges G' x) →
  path G v tr w → ∃ tr', path G' w tr' v ∧ reverse (tr.*1 ++ [node G w]) = tr'.*1 ++ [node G' v].
Proof.
  intros Hn Ho Hp. induction Hp as [v|v e tr w He Hp (tr' & Hp' & Heq)].
  - exists []. split; [constructor|]. simpl. by rewrite Hn.
  - exists (tr' ++ [(node G' e, weight v)]). split; [apply path_snoc; [done|by apply Ho]|].
    rewrite fmap_cons, <-app_comm_cons, reverse_cons, Heq, fmap_app, !Hn. done.
Qed.

Lemma reverse_reads G l :
  graph_wf G → (∀ v, v < size G → v ∈ Roots G ∨ ∃ u, v ∈ outEdges G u) → (∀ r u, r ∈ Roots G → r ∉ outEdges G u) →
  reads (reverseGraph G) l ↔ ∃ r, r ∈ Roots G ∧ spells G r l.
Proof.
  intros Hwf Hin Hroot. destruct (reverseGraph_spec G Hwf) as [HN HS _ HR].
  assert (∀ u, node (reverseGraph G) u = node G u) as Hn by (intros u; unfold node; by rewrite HN).
  assert (∀ u x, x ∈ outEdges (reverseGraph G) u ↔ u < size G ∧ u ∈ outEdges G x) as Ho.
  { intros u x. rewrite Graph.elem_of_reverse by done. split; [by intros (? & I & f & Hf & <- & ->)|].
    intros [? Hu]. split; [done|]. by exists x, u. }
  assert (∀ w, w < size G → outEdges (reverseGraph G) w = [] ↔ w ∈ Roots G) as Hleaf.
  { intros w Hw. split.
    - intros Hnil. destruct (Hin w Hw) as [?|[u Hu]]; [done|]. destruct (not_elem_of_nil u). rewrite <-Hnil. by apply Ho.
    - intros Hr. apply elem_of_nil_inv. intros u [_ Hu]%Ho. by destruct (Hroot w u). }
  assert (∀ x, x ∈ Roots (reverseGraph G) ↔ x < size G ∧ outEdges G x = []) as Hroots.
  { intros x. rewrite HR, list_elem_of_filter. unfold vertices, outDegree, outEdges, size. rewrite elem_of_seq, length_zero_iff_nil.
    split; [intros [? [_ ?]]|intros [? ?]]; split; try done; lia. }
  split.
  - intros (tr & last & (x & w & Hx & Hp & <- & Hl) & ->). apply Hroots in Hx as [Hxlt Hx].
    assert (w < size G) as Hw.
    { clear Hl Hx. induction Hp as [|v e tr w He _ IH]; [done|]. apply IH. apply Ho in He as [_ He]. by apply outEdges_lt in He. }
    apply (path_turn (reverseGraph G) G) in Hp as (tr' & Hp' & Heq); [|done|intros u e He; by apply Ho].
    exists w. split; [apply Hleaf; [done|]; by apply Hl|]. apply spells_path. exists tr', x. by rewrite Heq.
  - intros (r & Hr & (tr & x & Hp & Hx & ->)%spells_path). pose proof (gw_roots G Hwf r Hr) as Hrlt.
    assert (x < size G) as Hxlt.
    { clear Hx Hr. induction Hp as [|v e tr w He _ IH]; [done|]. apply IH. by apply (gw_target G Hwf v e). }
    apply (path_turn G (reverseGraph G)) in Hp as (tr' & Hp' & Heq); [|done|].
    2: { intros u e He. apply Ho. split; [by apply (gw_target G Hwf u e)|done]. }
    exists tr', (node (reverseGraph G) r). split.
    + exists x, r. split_and!; [by apply Hroots|done|done|]. split; [by intros _; apply Hleaf|done].
    + by rewrite <-Heq, reverse_involutive.
Qed.

(** * Circles *)

Lemma acyclic_no_circle G v : acyclic G → ¬ tc (edge_to G) v v.
Proof.
  intros Hacc. induction (Hacc v) as [v _ IH]. intros Hv.
  assert (∃ e, e ∈ outEdges G v ∧ tc (edge_to G) e e) as (e & He & Hcirc); [|by apply (IH e)].
  inversion Hv as [? ? (e & He & Heq)|? w ? (e & He & <-) Hw]; subst.
  - simpl in Hv, He. by exists (target e).
  - exists (target e). split; [done|]. eapply tc_r; [exact Hw|by exists e].
Qed.

Lemma no_circle_acyclic G : graph_wf G → (∀ v, ¬ tc (edge_to G) v v) → acyclic G.
Proof.
  intros Hwf Hno v. assert (sn (edge_to G) v) as Hsn.
  { apply tc_finite_sn; [exact Hno|]. exists (seq 0 (size G)). intros w Hw. apply elem_of_seq.
    assert (w < size G); [|lia]. induction Hw as [u w (e & He & <-)|u x w _ _ IH]; [by apply (gw_target G Hwf u e)|done]. }
  induction Hsn as [v _ IH]. constructor. intros w Hw. apply IH. by exists w.
Qed.

Lemma reverse_acyclic G : graph_wf G → acyclic G → acyclic (reverseGraph G).
Proof.
  intros Hwf Hacc. apply no_circle_acyclic; [by apply reverse_wf|].
  assert (∀ v w, tc (edge_to (reverseGraph G)) v w → tc (edge_to G) w v) as Hturn.
  { intros v w. induction 1 as [v w (e & He & <-)|v u w (e & He & <-) _ IH];
      apply Graph.elem_of_reverse in He as (_ & I & f & Hf & <- & ->); try done.
    - apply tc_once. by exists f.
    - eapply tc_r; [exact IH|]. by exists f. }
  intros v Hv%Hturn. by apply (acyclic_no_circle G v).
Qed.

Lemma bisimulation_acyclic G G' B :
  bisimulation G' G (flip B) → (∀ j, j < size G' → ∃ v, B v j) → acyclic G → acyclic G'.
Proof.
  intros HB Hs Hacc.
  assert (∀ v, Acc (edge_back G) v → ∀ j, B v j → Acc (edge_back G') j) as Hb.
  { induction 1 as [v _ IH]. intros j Hj. constructor. intros k Hk.
    destruct (bi_edge _ _ _ HB j v k Hj Hk) as (e & He & _ & Ht). by apply (IH e He). }
  intros j. destruct (decide (j < size G')) as [Hj|Hj]; [destruct (Hs j Hj) as [v Hv]; by apply (Hb v)|].
  constructor. intros k Hk%outEdges_lt. done.
Qed.
End reads.

(** * [assertIsDAG] accepts graphs without circles *)

Section assert.
Context {X : Type}.
Implicit Types (G : AdjacencyList (list X) nat) (v w : nat) (Visited : gset nat).
Import PathSensitivityManagerBase.

Lemma common_bound (P : nat → nat → Prop) (l : list nat) :
  (∀ x, x ∈ l → ∃ k, ∀ fuel, k ≤ fuel → P x fuel) → ∃ k, ∀ x fuel, x ∈ l → k ≤ fuel → P x fuel.
Proof.
  induction l as [|x l IH]; intros Hl; [exists 0; by intros x fuel ?%elem_of_nil|].
  destruct (Hl x) as [k1 H1]; [by left|]. destruct IH as [k2 H2]; [intros y Hy; apply Hl; by right|].
  exists (k1 `max` k2). intros y fuel [->|Hy]%elem_of_cons Hf; [apply H1|apply H2; [done|]]; lia.
Qed.

(** Every visit of a successor succeeds. *)
Lemma visits_succeed (visit : nat → gset nat → option (bool * gset nat)) vs Visited :
  (∀ v Visited, v ∈ vs → ∃ Visited', visit v Visited = Some (true, Visited')) →
  ∃ Visited', for_each vs (λ v o, '(IsDag, Visited) ← o;
      if IsDag : bool then visit v Visited else Some (false, Visited)) (Some (true, Visited)) = Some (true, Visited').
Proof.
  intros Hv. apply (for_each_inv (λ o, ∃ Visited', o = Some (true, Visited'))); [by eexists|].
  intros v o Hin (V & ->). cbn. by apply Hv.
Qed.

Lemma doAssertIsDAG_accepts G v :
  acyclic G →
  ∃ k, ∀ fuel, k ≤ fuel → ∀ CurrPath Visited, (∀ u, u ∈ CurrPath → tc (edge_to G) u v) →
    ∃ Visited', doAssertIsDAG G fuel CurrPath v Visited = Some (true, Visited').
Proof.
  intros Hacc. induction (Hacc v) as [v _ IH].
  destruct (common_bound (λ w fuel, ∀ CurrPath Visited, (∀ u, u ∈ CurrPath → tc (edge_to G) u w) →
    ∃ Visited', doAssertIsDAG G fuel CurrPath w Visited = Some (true, Visited')) (outEdges G v)) as [k Hk]; [exact IH|].
  exists (S k). intros [|fuel] Hf CurrPath Visited Hpath; [lia|]. cbn [doAssertIsDAG].
  rewrite decide_False by (intros Hv%Hpath; by apply (acyclic_no_circle G v)). case_decide; [by eexists|].
  apply visits_succeed. intros w V Hw. apply Hk; [done|lia|].
  assert (edge_to G v w) as Hvw by (by exists w).
  intros u [->|Hu%Hpath]%elem_of_cons; [by apply tc_once|by eapply tc_r].
Qed.

Lemma assertIsDAG_accepts G : acyclic G → ∃ k, ∀ fuel, k ≤ fuel → assertIsDAG fuel G = Some true.
Proof.
  intros Hacc. destruct (common_bound (λ w fuel, ∀ Visited, ∃ Visited', doAssertIsDAG G fuel [] w Visited = Some (true, Visited'))
    (Roots G)) as [k Hk].
  { intros r _. destruct (doAssertIsDAG_accepts G r Hacc) as [k Hk]. exists k. intros fuel Hf Visited. apply Hk; [done|].
    by intros u ?%elem_of_nil. }
  exists k. intros fuel Hf. unfold assertIsDAG.
  destruct (visits_succeed (doAssertIsDAG G fuel []) (Roots G) ∅) as [V ->]; [|done]. intros r V Hr. by apply Hk.
Qed.
End assert.

(** * [finish_dag] *)

Section finish.
Context {N U : Type} `{!EqDecision N} `{!IntEqClasses U} `{!IntEqClassesLaws U}.
Implicit Types (G Dag : AdjacencyList (list N) nat).

(** The last step: minimizing changes nothing of what the graph says. *)
Lemma minimize_reads Config G :
  graph_wf G →
  ∃ k Dag, (∀ fuel, k ≤ fuel → (if MinimizeDAG Config then
        Equiv ← minimizeGraph (U:=U) fuel G; createEquivalentGraphFrom.create G Equiv fuel else Some G) = Some Dag)
    ∧ graph_wf Dag ∧ (acyclic G → acyclic Dag) ∧ ∀ l, reads Dag l ↔ reads G l.
Proof.
  intros Hwf. destruct (MinimizeDAG Config).
  - destruct (minimized_graph_spec (U:=U) G Hwf) as (k & u & G' & B & Hk & HwfG & _ & HB & HB' & Hreach & _).
    exists k, G'. split_and!; [|done|..].
    + intros fuel Hf. destruct (Hk fuel Hf) as [-> Hc]. exact Hc.
    + apply (bisimulation_acyclic G G' B HB'). intros j Hj.
      destruct (Hreach j Hj) as (r' & Hr' & Hrj). destruct (bi_roots _ _ _ HB' r' Hr') as (r & _ & Hrr).
      destruct (bisimulation_rtc _ _ _ _ _ _ HB' Hrj Hrr) as (v & _ & Hv). by exists v.
    + intros l. unfold reads.
      split; intros (tr & last & Hp & Hl); exists tr, last; (split; [by eapply bisimulation_root_path|done]).
  - by exists 0, G.
Qed.

Lemma finish_dag_spec Config G :
  graph_wf G → acyclic G → (∀ v, v < size G → v ∈ Roots G ∨ ∃ u, v ∈ outEdges G u) →
  (∀ r u, r ∈ Roots G → r ∉ outEdges G u) → DAGDepthThreshold Config = SIZE_MAX →
  ∃ k Dag, (∀ fuel, k ≤ fuel → finish_dag (U:=U) fuel Config G = Some Dag)
    ∧ graph_wf Dag ∧ acyclic Dag ∧ ∀ l, reads Dag l ↔ ∃ r, r ∈ Roots G ∧ spells G r l.
Proof.
  intros Hwf Hacc Hin Hroot Hmax.
  destruct (minimize_reads Config (reverseGraph G) (reverse_wf G Hwf)) as (k & Dag & Hk & Hwf' & Hacc' & Hr).
  exists k, Dag. split_and!; [|done|by apply Hacc', reverse_acyclic|].
  - intros fuel Hf. unfold finish_dag. case_decide; [done|]. by apply Hk.
  - intros l. rewrite Hr. by apply reverse_reads.
Qed.
End finish.

Import GraphTraits PathSensitivityManagerBase.

Section depth.
Context {X : Type}.
Abbreviation graph := (AdjacencyList (list X) nat).
Abbreviation level := (level (T:=list X)).
Context (G : graph) (Hwf : graph_wf G).
Implicit Types (s : level) (v w x k : nat) (l : list X).

(** Fewer than [k] edges from a root. *)
Definition before k v : Prop := ∃ r m, r ∈ Roots G ∧ m < k ∧ nsteps (edge_to G) m r v.

(** What is read up to where the vertices are no longer inner ones. *)
Inductive spells_within (inner : nat → Prop) : nat → list X → Prop :=
  | within_leaf v : inner v → outEdges G v = [] → spells_within inner v (node G v)
  | within_cut v : ¬ inner v → spells_within inner v (node G v)
  | within_step v w l : inner v → w ∈ outEdges G v → spells_within inner w l → spells_within inner v (node G v ++ l).

Lemma before_S k v : before k v → before (S k) v.
Proof. intros (r & m & Hr & Hm & Hv). exists r, m. split_and!; [done|lia|done]. Qed.

Lemma before_root r : r ∈ Roots G → before 1 r.
Proof. intros Hr. exists r, 0. split_and!; [done|lia|constructor]. Qed.

Lemma before_edge k v w : before k v → w ∈ outEdges G v → before (S k) w.
Proof.
  intros (r & m & Hr & Hm & Hv) Hw. exists r, (S m). split_and!; [done|lia|].
  eapply nsteps_r; [exact Hv|]. by exists w.
Qed.

Lemma before_inv k v : before (S k) v → v ∈ Roots G ∨ ∃ u, before k u ∧ v ∈ outEdges G u.
Proof.
  intros (r & m & Hr & Hm & Hv). destruct m as [|m]; [inversion Hv; subst; by left|right].
  apply nsteps_inv_r in Hv as (u & Hu & (e & He & <-)). exists u. split; [|done]. exists r, m. split_and!; [done|lia|done].
Qed.

Lemma before_lt k v : before k v → v < size G.
Proof.
  intros (r & m & Hr & _ & Hv). destruct m as [|m]; [inversion Hv; subst; by apply (gw_roots G Hwf)|].
  apply nsteps_inv_r in Hv as (u & _ & (e & He & <-)). by apply (gw_target G Hwf u e).
Qed.

(** * The copy *)

(** [V] are the edges that were turned, [L] the vertices that became roots. *)
Record copied (V : nat → nat → Prop) (L : nat → Prop) s : Prop := {
  cp_len : length (Cache s) = size G;
  cp_nodes : length (Nodes (Ret s)) = size (Ret s);
  cp_copy v x : Cache s !!! v = Some x → v < size G ∧ x < size (Ret s) ∧ node (Ret s) x = node G v;
  cp_inj v w x : Cache s !!! v = Some x → Cache s !!! w = Some x → v = w;
  cp_surj x : x < size (Ret s) → ∃ v, Cache s !!! v = Some x;
  cp_edge v w : V v w → w ∈ outEdges G v ∧ is_Some (Cache s !!! v) ∧ is_Some (Cache s !!! w);
  cp_out x y : y ∈ outEdges (Ret s) x ↔ ∃ v w, V v w ∧ Cache s !!! w = Some x ∧ Cache s !!! v = Some y;
  cp_leaf v : L v → is_Some (Cache s !!! v);
  cp_roots x : x ∈ Roots (Ret s) ↔ ∃ v, L v ∧ Cache s !!! v = Some x
}.

(** [WLInsert] holds the copies made since [D] was copied. *)
Record pending (D : nat → Prop) s : Prop := {
  pd_wl v x : (v, x) ∈ WLInsert s → Cache s !!! v = Some x ∧ ¬ D v;
  pd_all v x : Cache s !!! v = Some x → D v ∨ (v, x) ∈ WLInsert s;
  pd_old v : D v → is_Some (Cache s !!! v)
}.

Lemma copy_of_ok V L D v s :
  copied V L s → pending D s → v < size G →
  let s' := copy_of G v s in
  copied V L s' ∧ pending D s' ∧ is_Some (Cache s' !!! v) ∧ (∀ w x, Cache s !!! w = Some x → Cache s' !!! w = Some x)
  ∧ ∀ w, is_Some (Cache s' !!! w) → is_Some (Cache s !!! w) ∨ w = v.
Proof.
  intros Hc Hp Hv. unfold copy_of. destruct (Cache s !!! v) as [x|] eqn:Hx; [split_and!; [done..|by eexists|done|by left]|].
  destruct Hc as [H1 H2 H3 H4 H5 H6 H7 H8 H9], Hp as [P1 P2 P3]. cbn [addNode]. set (n := length (Nodes (Ret s))).
  set (s' := Level _ _ _).
  assert (∀ w x, Cache s' !!! w = Some x ↔ Cache s !!! w = Some x ∨ w = v ∧ x = n) as Hlook.
  { intros w x. simpl. destruct (decide (v = w)) as [<-|Hne].
    - rewrite list_lookup_total_insert_eq by (by rewrite H1). rewrite Hx. naive_solver.
    - rewrite list_lookup_total_insert_ne by done. naive_solver. }
  assert (size (Ret s') = S n) as Hs by (unfold n; rewrite H2; apply size_addNode).
  assert (∀ x, x < n → node (Ret s') x = node (Ret s) x) as Hnode.
  { intros x Hxn. change (node (addNode (Ret s) (node G v)).2 x = node (Ret s) x). rewrite addNode_node. fold n.
    by rewrite decide_False by lia. }
  assert (∀ x, outEdges (Ret s') x = outEdges (Ret s) x) as Hout by (intros x; apply addNode_out).
  assert (∀ w, is_Some (Cache s !!! w) → is_Some (Cache s' !!! w)) as Hsome
    by (intros w [x Hw]; exists x; apply Hlook; by left).
  assert (∀ w x, Cache s !!! w = Some x → x < n) as Hlt by (intros w x Hw; unfold n; rewrite H2; by eapply H3).
  assert (∀ w x, is_Some (Cache s !!! w) → Cache s' !!! w = Some x ↔ Cache s !!! w = Some x) as Hold.
  { intros w x [y Hy]. rewrite Hlook. split; [intros [?|[-> _]]; [done|congruence]|by left]. }
  split_and!.
  - split; try done.
    + simpl. by rewrite length_insert.
    + rewrite Hs. simpl. rewrite length_app. simpl. fold n. lia.
    + intros w x [Hw|[-> ->]]%Hlook.
      * destruct (H3 w x Hw) as (? & ? & <-). rewrite Hs. split_and!; [done|apply Hlt in Hw; lia|by eapply Hnode, Hlt].
      * rewrite Hs. split_and!; [done|lia|]. change (node (addNode (Ret s) (node G v)).2 n = node G v).
        rewrite addNode_node. fold n. by rewrite decide_True.
    + intros w w' x [Hw|[-> ->]]%Hlook [Hw'|[-> ?]]%Hlook; subst; [by eapply H4|apply Hlt in Hw; lia|apply Hlt in Hw'; lia|done].
    + intros x. rewrite Hs. intros Hxn. destruct (decide (x = n)) as [->|].
      * exists v. apply Hlook. by right.
      * destruct (H5 x) as [w Hw]; [rewrite <-H2; fold n; lia|]. exists w. apply Hlook. by left.
    + intros u w HV. destruct (H6 u w HV) as (? & ? & ?). auto.
    + intros x y. rewrite Hout, H7. split; intros (u & w & HV & Hw & Hu); exists u, w; destruct (H6 u w HV) as (_ & ? & ?);
        (split; [done|split; by apply Hold]).
    + auto.
    + intros x. change (Roots (Ret s')) with (Roots (Ret s)). rewrite H9. split; intros (w & HL & Hw); exists w; (split; [done|]; by apply Hold; [apply H8|]).
  - split.
    + intros w x [Hw|[= -> ->]%list_elem_of_singleton]%elem_of_app.
      * destruct (P1 w x Hw). split; [apply Hlook; by left|done].
      * split; [apply Hlook; by right|]. intros HD%P3. rewrite Hx in HD. by destruct HD.
    + intros w x [Hw|[-> ->]]%Hlook.
      * destruct (P2 w x Hw); [by left|right; apply elem_of_app; by left].
      * right. apply elem_of_app. right. by left.
    + auto.
  - exists n. apply Hlook. by right.
  - intros w x Hw. apply Hlook. by left.
  - intros w [x [Hw|[-> _]]%Hlook]; [left; by eexists|by right].
Qed.

(** ** The loops of a level *)

Lemma copied_work_list V L WL s : copied V L s → copied V L (Level (Ret s) (Cache s) WL).
Proof. intros []. split; assumption. Qed.

Lemma copied_iff V V' L L' s :
  (∀ v w, V v w ↔ V' v w) → (∀ v, L v ↔ L' v) → copied V L s → copied V' L' s.
Proof.
  intros HV HL [H1 H2 H3 H4 H5 H6 H7 H8 H9]. split; try done.
  - intros v w Hvw%HV. auto.
  - intros x y. rewrite H7. by setoid_rewrite HV.
  - intros v Hv%HL. auto.
  - intros x. rewrite H9. by setoid_rewrite HL.
Qed.

Lemma reverse_edge_ok V L D v rv w s :
  copied V L s → pending D s → Cache s !!! v = Some rv → w ∈ outEdges G v →
  let s' := reverse_edge G rv w s in
  copied (λ a b, V a b ∨ a = v ∧ b = w) L s' ∧ pending D s' ∧ (∀ u x, Cache s !!! u = Some x → Cache s' !!! u = Some x)
  ∧ ∀ u, is_Some (Cache s' !!! u) → is_Some (Cache s !!! u) ∨ u = w.
Proof.
  intros Hc Hp Hv Hw. destruct (copy_of_ok V L D w s Hc Hp) as (Hc1 & Hp1 & [x Hx] & Hold & Hnew);
    [by apply (gw_target G Hwf v w)|]. unfold reverse_edge. set (s1 := copy_of G w s) in *. rewrite Hx. simpl.
  pose proof (Hold v rv Hv) as Hv1. destruct Hc1 as [H1 H2 H3 H4 H5 H6 H7 H8 H9]. split_and!; [|by destruct Hp1|done|done].
  destruct (H3 w x Hx) as (_ & Hxlt & _).
  assert (size (addEdge (Ret s1) x rv) = size (Ret s1)) as Hs by (unfold size; simpl; by rewrite length_alter).
  split; cbn [Ret Cache WLInsert]; rewrite ?Hs; try done.
  - intros a b [Hab|[-> ->]]; [auto|]. split_and!; [done|by eexists..].
  - intros a b. rewrite addEdge_elem, H7 by done. split.
    + intros [(u & u' & HV & ? & ?)|[<- ->]]; [exists u, u'; auto|exists v, w; auto].
    + intros (u & u' & [HV|[-> ->]] & Hu' & Hu); [left; by exists u, u'|right]. split; congruence.
Qed.

Lemma reverse_vertex_ok V L D v rv s :
  copied V L s → pending D s → Cache s !!! v = Some rv →
  let s' := reverse_vertex G (v, rv) s in
  copied (λ a b, V a b ∨ a = v ∧ b ∈ outEdges G v) (λ a, L a ∨ a = v ∧ outEdges G v = []) s' ∧ pending D s'
  ∧ (∀ u x, Cache s !!! u = Some x → Cache s' !!! u = Some x)
  ∧ ∀ u, is_Some (Cache s' !!! u) → is_Some (Cache s !!! u) ∨ u ∈ outEdges G v.
Proof.
  intros Hc Hp Hv. unfold reverse_vertex. cbn [fst snd]. set (s1 := for_each _ _ _).
  assert (copied (λ a b, V a b ∨ a = v ∧ b ∈ outEdges G v) L s1 ∧ pending D s1
    ∧ (∀ u x, Cache s !!! u = Some x → Cache s1 !!! u = Some x)
    ∧ ∀ u, is_Some (Cache s1 !!! u) → is_Some (Cache s !!! u) ∨ u ∈ outEdges G v) as (Hc1 & Hp1 & Hold & Hnew).
  { apply (for_each_ind (λ es s1, copied (λ a b, V a b ∨ a = v ∧ b ∈ es) L s1 ∧ pending D s1
      ∧ (∀ u x, Cache s !!! u = Some x → Cache s1 !!! u = Some x)
      ∧ ∀ u, is_Some (Cache s1 !!! u) → is_Some (Cache s !!! u) ∨ u ∈ es)).
    - split_and!; [|done|done|by left]. eapply copied_iff; [| |exact Hc]; [|done]. intros a b. rewrite elem_of_nil. tauto.
    - intros es w s2 Hw (K1 & K2 & K3 & K4).
      destruct (reverse_edge_ok _ L D v rv w s2 K1 K2 (K3 v rv Hv) Hw) as (M1 & M2 & M3 & M4). split_and!; [|done|auto|].
      + eapply copied_iff; [| |exact M1]; [|done]. intros a b. rewrite elem_of_app, list_elem_of_singleton. tauto.
      + intros u [Hu| ->]%M4; [destruct (K4 u Hu); [by left|right; apply elem_of_app; by left]|].
        right. apply elem_of_app. right. by left. }
  assert (outDegree G v = 0 ↔ outEdges G v = []) as Hd by apply length_zero_iff_nil.
  destruct (decide (outDegree G v = 0)) as [Hz|Hz]; rewrite Hd in Hz.
  - split_and!; [|by destruct Hp1|done|done]. destruct Hc1 as [H1 H2 H3 H4 H5 H6 H7 H8 H9].
    split; cbn [Ret Cache WLInsert]; try done.
    + intros a [Ha|[-> _]]; [auto|]. exists rv. auto.
    + intros x. simpl. rewrite elem_of_app, list_elem_of_singleton, H9. split.
      * intros [(u & ? & ?)| ->]; [exists u; auto|exists v; auto].
      * intros (u & [?|[-> _]] & Hu); [left; by exists u|right]. rewrite (Hold v rv Hv) in Hu. congruence.
  - split_and!; try done. eapply copied_iff; [| |exact Hc1]; [done|]. tauto.
Qed.

(** At the start of level [k]: what is before it was turned, the work list holds
    the rest of what was copied. *)
Record level_ok k (WL : list (nat * nat)) s : Prop := {
  lv_copied : copied (λ v w, before k v ∧ w ∈ outEdges G v) (λ v, before k v ∧ outEdges G v = []) s;
  lv_found v : is_Some (Cache s !!! v) ↔ before (S k) v;
  lv_wl v x : (v, x) ∈ WL → Cache s !!! v = Some x ∧ ¬ before k v;
  lv_all v x : Cache s !!! v = Some x → before k v ∨ (v, x) ∈ WL;
  lv_insert : WLInsert s = []
}.

Lemma elem_of_fst_snoc (WL : list (nat * nat)) v x u : u ∈ (WL ++ [(v, x)]).*1 ↔ u ∈ WL.*1 ∨ u = v.
Proof. rewrite fmap_app, elem_of_app. simpl. by rewrite list_elem_of_singleton. Qed.

Lemma level_step k WL s :
  level_ok k WL s →
  let s' := for_each WL (reverse_vertex G) s in
  level_ok (S k) (WLInsert s') (Level (Ret s') (Cache s') []).
Proof.
  intros [H1 H2 H3 H4 H5].
  assert (let s' := for_each WL (reverse_vertex G) s in
    copied (λ v w, (before k v ∨ v ∈ WL.*1) ∧ w ∈ outEdges G v) (λ v, (before k v ∨ v ∈ WL.*1) ∧ outEdges G v = []) s'
    ∧ pending (before (S k)) s' ∧ (∀ u x, Cache s !!! u = Some x → Cache s' !!! u = Some x)
    ∧ ∀ u, is_Some (Cache s' !!! u) → is_Some (Cache s !!! u) ∨ ∃ v, v ∈ WL.*1 ∧ u ∈ outEdges G v) as (K1 & K2 & K3 & K4).
  { apply (for_each_ind (λ WL s', copied (λ v w, (before k v ∨ v ∈ WL.*1) ∧ w ∈ outEdges G v)
        (λ v, (before k v ∨ v ∈ WL.*1) ∧ outEdges G v = []) s'
      ∧ pending (before (S k)) s' ∧ (∀ u x, Cache s !!! u = Some x → Cache s' !!! u = Some x)
      ∧ ∀ u, is_Some (Cache s' !!! u) → is_Some (Cache s !!! u) ∨ ∃ v, v ∈ WL.*1 ∧ u ∈ outEdges G v)).
    - split_and!; [|split|done|by left].
      + eapply copied_iff; [| |exact H1]; intros; simpl; rewrite elem_of_nil; tauto.
      + rewrite H5. by intros v x ?%elem_of_nil.
      + intros v x Hv. left. apply H2. by eexists.
      + intros v. apply H2.
    - intros WL1 [v rv] s1 Hin (M1 & M2 & M3 & M4). destruct (H3 v rv Hin) as [Hv _].
      destruct (reverse_vertex_ok _ _ _ v rv s1 M1 M2 (M3 v rv Hv)) as (N1 & N2 & N3 & N4). split_and!; [|done|auto|].
      + eapply copied_iff; [| |exact N1]; intros; rewrite elem_of_fst_snoc; naive_solver.
      + intros u [Hu|Hu]%N4.
        * destruct (M4 u Hu) as [?|(v' & Hv' & ?)]; [by left|right; exists v'; split; [|done]].
          apply elem_of_fst_snoc. by left.
        * right. exists v. split; [|done]. apply elem_of_fst_snoc. by right. }
  assert (∀ v, before k v ∨ v ∈ WL.*1 ↔ before (S k) v) as Hdone.
  { intros v. split.
    - intros [?|([v' x] & -> & Hin)%list_elem_of_fmap]; [by apply before_S|]. apply H2. exists x. by apply H3.
    - intros [x Hx]%H2. destruct (H4 v x Hx) as [?|Hin]; [by left|right]. apply list_elem_of_fmap. by exists (v, x). }
  destruct K2 as [P1 P2 P3]. split; cbn [Ret Cache WLInsert]; [|..|exact P1|exact P2|done].
  - eapply copied_iff; [| |apply copied_work_list, K1]; intros; simpl; by rewrite Hdone.
  - intros v. split.
    + intros [Hv|(u & Hu & Hv)]%K4; [by apply before_S, H2|]. eapply before_edge; [|done]. apply Hdone. by right.
    + intros [Hr|(u & Hu & Hv)]%before_inv.
      * apply P3. exists v, 0. split_and!; [done|lia|constructor].
      * apply Hdone in Hu. destruct K1 as [_ _ _ _ _ K6 _ _ _]. by apply (K6 u v).
Qed.

Lemma first_level :
  let s := for_each (Roots G) (copy_of G) (Level empty (replicate (size G) None) []) in
  level_ok 0 (WLInsert s) (Level (Ret s) (Cache s) []).
Proof.
  set (s0 := Level empty (replicate (size G) None) []).
  assert (∀ v, Cache s0 !!! v = None) as H0.
  { intros v. simpl. rewrite list_lookup_total_alt. destruct (replicate (size G) None !! v) as [o|] eqn:Ho; [|done].
    apply lookup_replicate in Ho as [-> _]. done. }
  assert (∀ k v, before k v → k ≠ 0) as Hk by (intros k v (r & m & _ & Hm & _); lia).
  assert (let s := for_each (Roots G) (copy_of G) s0 in copied (λ _ _, False) (λ _, False) s ∧ pending (λ _, False) s
    ∧ ∀ v, is_Some (Cache s !!! v) ↔ v ∈ Roots G) as (K1 & [P1 P2 P3] & K2).
  { apply (for_each_ind (λ rs s, copied (λ _ _, False) (λ _, False) s ∧ pending (λ _, False) s
      ∧ ∀ v, is_Some (Cache s !!! v) ↔ v ∈ rs)).
    - split_and!; [split|split|]; simpl; try done.
      + by rewrite length_replicate.
      + intros v x. by rewrite H0.
      + intros v w x. by rewrite H0.
      + unfold size. simpl. lia.
      + intros x y. rewrite outEdges_ge by (unfold size; simpl; lia). split; [by intros ?%elem_of_nil|by intros (? & ? & ? & _)].
      + intros x. split; [by intros ?%elem_of_nil|by intros (? & ? & _)].
      + by intros v x ?%elem_of_nil.
      + intros v x. by rewrite H0.
      + intros v. rewrite H0, elem_of_nil. split; [by intros [? ?]|done].
    - intros rs r s Hr (M1 & M2 & M3).
      destruct (copy_of_ok _ _ _ r s M1 M2) as (N1 & N2 & N3 & N4 & N5); [by apply (gw_roots G Hwf)|]. split_and!; [done..|].
      intros v. rewrite elem_of_app, list_elem_of_singleton. split.
      + intros [Hv| ->]%N5; [left; by apply M3|by right].
      + intros [[x Hx]%M3| ->]; [exists x; by apply N4|done]. }
  split; cbn [Ret Cache WLInsert]; [|..|done].
  - eapply copied_iff; [| |apply copied_work_list, K1]; intros; simpl; (split; [done|]); by intros [?%Hk _].
  - intros v. rewrite K2. split; [apply before_root|]. by intros [?|(u & ?%Hk & _)]%before_inv.
  - intros v x Hin. destruct (P1 v x Hin). split; [done|]. by intros ?%Hk.
  - intros v x Hv. right. by destruct (P2 v x Hv).
Qed.

(** ** All levels *)

(** What is left of a finite set shrinks with each level. *)
Lemma levels_end k WL s :
  level_ok k WL s → WL = [] → ∀ m v, before m v → before k v.
Proof.
  intros Hok -> m v Hm. assert (∀ v, before (S k) v → before k v) as Hclosed.
  { intros u [x Hx]%(lv_found _ _ _ Hok). destruct (lv_all _ _ _ Hok u x Hx) as [?|Hin]; [done|]. by apply elem_of_nil in Hin. }
  revert v Hm. induction m as [|m IH]; intros v Hm; [by destruct Hm as (r & j & _ & Hj & _); lia|].
  apply before_inv in Hm as [Hr|(u & Hu & Hv)].
  - apply Hclosed. exists v, 0. split_and!; [done|lia|constructor].
  - apply Hclosed. eapply before_edge; [by apply IH|done].
Qed.

(** The vertices before level [k]. *)
Lemma level_count k WL s : level_ok k WL s → WL ≠ [] → ∃ v, v < size G ∧ before (S k) v ∧ ¬ before k v.
Proof.
  intros Hok Hne. destruct WL as [|[v x] WL]; [done|]. destruct (lv_wl _ _ _ Hok v x) as [Hv Hn]; [by left|].
  assert (before (S k) v) as Hb by (apply (lv_found _ _ _ Hok); by eexists). exists v. split_and!; [by eapply before_lt|done..].
Qed.

(** A vertex in every level so far: there cannot be more levels than vertices. *)
Definition witnesses k (vs : list nat) : Prop :=
  length vs = k ∧ NoDup vs ∧ ∀ v, v ∈ vs → v < size G ∧ before k v.

Lemma reverse_levels_spec fuel k (MaxDepth : Z) WL s vs :
  level_ok k WL s → witnesses k vs → (Z.of_nat k ≤ MaxDepth)%Z → size G - k < fuel →
  ∃ K s', reverse_levels G fuel (Z.of_nat k) MaxDepth WL s = Some s' ∧ k ≤ K ∧ level_ok K (WLInsert s') (Level (Ret s') (Cache s') [])
    ∧ (Z.of_nat K = MaxDepth ∨ (Z.of_nat K < MaxDepth)%Z ∧ WLInsert s' = []).
Proof.
  revert k WL s vs. induction fuel as [|fuel IH]; intros k WL s vs Hok (Hlen & Hnd & Hvs) Hk Hf; [lia|]. cbn [reverse_levels].
  case_decide as Hd.
  - destruct Hd as [Hne Hlt]. destruct (level_count _ _ _ Hok Hne) as (v & Hv & Hb & Hn).
    assert (witnesses (S k) (v :: vs)) as Hw.
    { split_and!; [simpl; lia|constructor; [|done]|].
      - intros Hin. by apply Hvs in Hin as [_ ?].
      - intros u [->|Hu]%elem_of_cons; [done|]. destruct (Hvs u Hu). split; [done|by apply before_S]. }
    assert (S k ≤ size G) as Hsz.
    { destruct Hw as (Hl & Hnd' & Hlt'). rewrite <-Hl, <-(length_seq (size G) 0). apply submseteq_length, NoDup_submseteq; [done|].
      intros u Hu. apply elem_of_seq. apply Hlt' in Hu as [? _]. lia. }
    replace (Z.of_nat k + 1)%Z with (Z.of_nat (S k)) by lia.
    destruct (IH (S k) _ _ (v :: vs) (level_step k WL s Hok) Hw) as (K & s' & Hr & HK & HokK & Hend); [lia..|].
    exists K, s'. split_and!; [done|lia|done|done].
  - exists k, (Level (Ret s) (Cache s) WL). cbn [Ret Cache WLInsert]. split_and!; [done|done| |].
    + destruct Hok as [H1 H2 H3 H4 H5]. by split; [apply copied_work_list|..].
    + destruct (decide (WL = [])) as [->|]; [|left; destruct (decide (Z.of_nat k < MaxDepth)%Z); [by destruct Hd|lia]].
      destruct (decide (Z.of_nat k = MaxDepth)); [by left|right; split; [lia|done]].
Qed.

(** The vertices of which the edges were turned are those before the depth. *)
Lemma reverse_levels_all (MaxDepth : Z) fuel :
  (0 ≤ MaxDepth)%Z → size G < fuel →
  let s := for_each (Roots G) (copy_of G) (Level empty (replicate (size G) None) []) in
  ∃ K s', reverse_levels G fuel 0 MaxDepth (WLInsert s) (Level (Ret s) (Cache s) []) = Some s'
    ∧ level_ok K (WLInsert s') (Level (Ret s') (Cache s') []) ∧ (∀ v, before K v ↔ before (Z.to_nat MaxDepth) v).
Proof.
  intros HM Hf. cbv zeta. destruct (reverse_levels_spec fuel 0 MaxDepth _ _ [] first_level) as (K & s' & Hr & _ & Hok & Hend); [|lia..|].
  { split_and!; [done|constructor|by intros v ?%elem_of_nil]. }
  exists K, s'. split_and!; [done..|]. intros v. destruct Hend as [Heq|[Hlt Hnil]].
  - by replace (Z.to_nat MaxDepth) with K by lia.
  - split; [|by apply (levels_end _ _ _ Hok Hnil)]. intros (r & m & Hr' & Hm & Hv). exists r, m. split_and!; [done|lia|done].
Qed.

(** ** What the graph says *)

Lemma spells_within_iff (I I' : nat → Prop) v l : (∀ v, I v ↔ I' v) → spells_within I v l → spells_within I' v l.
Proof.
  intros HI. induction 1 as [v Hi Hv|v Hi|v w l Hi Hw _ IH].
  - apply within_leaf; [by apply HI|done].
  - apply within_cut. by rewrite <-HI.
  - eapply within_step; [by apply HI|done|done].
Qed.

Lemma concat_reverse_snoc (ls : list (list X)) (a l : list X) :
  concat (reverse (a :: ls)) ++ l = concat (reverse ls) ++ a ++ l.
Proof. rewrite reverse_cons, concat_app. simpl. by rewrite app_nil_r, <-app_assoc. Qed.

Section final.
Context (K : nat) (s : level) (Hok : level_ok K (WLInsert s) (Level (Ret s) (Cache s) [])).
Context (Hroots : ∀ r u, r ∈ Roots G → r ∉ outEdges G u).
Abbreviation R := (for_each (WLInsert s) (λ VtxRev R, addRoot R VtxRev.2) (Ret s)).

Lemma final_shape : Nodes R = Nodes (Ret s) ∧ Adj R = Adj (Ret s) ∧ Roots R = Roots (Ret s) ++ (WLInsert s).*2.
Proof.
  apply (for_each_ind (λ WL R, Nodes R = Nodes (Ret s) ∧ Adj R = Adj (Ret s) ∧ Roots R = Roots (Ret s) ++ WL.*2)).
  - simpl. by rewrite app_nil_r.
  - intros WL VR R' _ (HN & HA & HR). simpl. rewrite HN, HA, HR, fmap_app, app_assoc. done.
Qed.

Lemma final_root x : x ∈ Roots R ↔ ∃ v, Cache s !!! v = Some x ∧ (before K v ∧ outEdges G v = [] ∨ ¬ before K v).
Proof.
  destruct final_shape as (_ & _ & ->). destruct Hok as [[_ _ _ _ _ _ _ _ H9] H2 H3 H4 _]. cbn in *.
  rewrite elem_of_app, H9. split.
  - intros [(v & Hv & Hx)|([v x'] & -> & Hin)%list_elem_of_fmap]; [exists v; auto|]. destruct (H3 v x' Hin). exists v. auto.
  - intros (v & Hx & [Hv|Hv]); [left; by exists v|right]. destruct (H4 v x Hx) as [?|Hin]; [done|]. apply list_elem_of_fmap.
    by exists (v, x).
Qed.

Lemma final_wf : graph_wf R.
Proof.
  destruct final_shape as (HN & HA & HR). destruct Hok as [[H1 H2 H3 H4 H5 H6 H7 H8 H9] L2 L3 _ _]. cbn in *.
  assert (∀ v x, Cache s !!! v = Some x → x < size R) as Hlt.
  { intros v x Hx. unfold size. rewrite HA. by destruct (H3 v x Hx) as (_ & ? & _). }
  split.
  - unfold size in *. congruence.
  - intros x y Hy. unfold outEdges in Hy. rewrite HA in Hy. apply H7 in Hy as (v & w & _ & _ & Hv). by eapply Hlt.
  - intros x (v & Hx & _)%final_root. by eapply Hlt.
Qed.

Lemma final_out x y : y ∈ outEdges R x ↔
  ∃ v w, before K v ∧ w ∈ outEdges G v ∧ Cache s !!! w = Some x ∧ Cache s !!! v = Some y.
Proof.
  destruct final_shape as (_ & HA & _). destruct Hok as [[_ _ _ _ _ _ H7 _ _] _ _ _ _]. cbn in *.
  unfold outEdges at 1. rewrite HA. rewrite (H7 x y : y ∈ Adj (Ret s) !!! x ↔ _). naive_solver.
Qed.

Lemma final_node v x : Cache s !!! v = Some x → node R x = node G v.
Proof.
  intros Hx. destruct final_shape as (HN & _). destruct Hok as [[_ _ H3 _ _ _ _ _ _] _ _ _ _]. cbn in *.
  destruct (H3 v x Hx) as (_ & _ & <-). unfold node. by rewrite HN.
Qed.

Lemma final_leaf v x : Cache s !!! v = Some x → outEdges R x = [] ↔ v ∈ Roots G.
Proof.
  intros Hx. destruct Hok as [[_ _ _ H4 _ _ _ _ _] H2 _ _ _]. cbn in *. split.
  - intros Hnil. destruct (before_inv K v) as [?|(u & Hu & Hv)]; [apply H2; by eexists|done|].
    destruct (proj2 (H2 u)) as [y Hy]; [by apply before_S|]. destruct (not_elem_of_nil y). rewrite <-Hnil. apply final_out.
    by exists u, v.
  - intros Hr. apply elem_of_nil_inv. intros y (u & w & _ & Hw & Hwx & _)%final_out. rewrite (H4 w v x Hwx Hx) in Hw.
    by destruct (Hroots v u).
Qed.

Lemma final_path x tr y v w ls :
  path R x tr y → Cache s !!! w = Some x → Cache s !!! v = Some y → spells_within (before K) w (node R x ++ ls) →
  spells_within (before K) v (concat (reverse (tr.*1 ++ [node R y])) ++ ls).
Proof.
  intros Hp. revert w ls. induction Hp as [x|x e tr y He Hp IH]; intros w ls Hw Hv Hs.
  - destruct Hok as [[_ _ _ H4 _ _ _ _ _] _ _ _ _]. rewrite (H4 v w x Hv Hw). simpl. by rewrite app_nil_r.
  - apply final_out in He as (u & w' & Hu & Hw' & Hx & Hue).
    destruct Hok as [[_ _ _ H4 _ _ _ _ _] _ _ _ _]. rewrite (H4 w' w x Hx Hw) in Hw'.
    rewrite fmap_cons, <-app_comm_cons, concat_reverse_snoc. apply (IH u); [done|done|].
    change (target e) with e. rewrite (final_node u e Hue). by eapply within_step.
Qed.

Lemma final_reads l : reads R l ↔ ∃ r, r ∈ Roots G ∧ spells_within (before K) r l.
Proof.
  destruct Hok as [[_ _ _ H4 H5 _ _ _ _] H2 _ _ _]. cbn in *. split.
  - intros (tr & last & (x & y & Hx & Hp & <- & Hl) & ->). apply final_root in Hx as (w & Hx & Hw).
    assert (y < size (Ret s)) as Hy.
    { destruct final_shape as (_ & HA & _). assert (size R = size (Ret s)) as <- by (unfold size; by rewrite HA).
      assert (x < size R) as Hxlt by (apply final_wf, final_root; eauto). clear Hw Hl Hx.
      induction Hp as [|x e tr y He _ IH]; [done|]. apply IH. by apply (gw_target _ final_wf x e). }
    destruct (H5 y Hy) as [v Hv]. exists v. split; [apply (final_leaf v y Hv); by apply Hl|].
    rewrite <-(app_nil_r (concat _)). eapply final_path; [done..|]. rewrite app_nil_r, (final_node w x Hx).
    destruct Hw as [[? ?]|?]; [by apply within_leaf|by apply within_cut].
  - intros (r & Hr & Hs). assert (is_Some (Cache s !!! r)) as [y Hy].
    { apply H2. exists r, 0. split_and!; [done|lia|constructor]. }
    assert (∀ v y, Cache s !!! v = Some y → spells_within (before K) v l →
      ∃ x tr, x ∈ Roots R ∧ path R x tr y ∧ l = concat (reverse (tr.*1 ++ [node R y]))) as Hgen.
    { clear r y Hr Hs Hy. intros v y Hy Hs. revert y Hy. induction Hs as [v Hi Hnil|v Hi|v w l Hi Hw _ IH]; intros y Hy.
      - exists y, []. split_and!; [apply final_root; eauto|constructor|]. simpl. by rewrite app_nil_r, (final_node v y Hy).
      - exists y, []. split_and!; [apply final_root; eauto|constructor|]. simpl. by rewrite app_nil_r, (final_node v y Hy).
      - destruct (proj2 (H2 w)) as [z Hz]; [by eapply before_edge|]. destruct (IH z Hz) as (x & tr & Hx & Hp & ->).
        exists x, (tr ++ [(node R z, weight y)]). split_and!; [done|apply path_snoc; [done|apply final_out; eauto 6]|].
        assert ((tr ++ [(node R z, weight y)]).*1 = tr.*1 ++ [node R z]) as -> by (by rewrite fmap_app).
        rewrite (reverse_snoc _ (node R y)). simpl. by rewrite (final_node v y Hy). }
    destruct (Hgen r y Hy Hs) as (x & tr & Hx & Hp & ->). exists tr, (node R y). split; [|done].
    exists x, y. split_and!; [done..|]. split; [by intros _; apply (final_leaf r y Hy)|done].
Qed.
End final.
End depth.

(** * A depth of as many vertices cuts nothing off *)

Section uncut.
Context {X : Type}.
Implicit Types (G : AdjacencyList (list X) nat) (v w r : nat) (l : list X).

Lemma nsteps_distinct G m r v :
  acyclic G → graph_wf G → r < size G → nsteps (edge_to G) m r v →
  ∃ vs, length vs = S m ∧ NoDup vs ∧ ∀ u, u ∈ vs → u < size G ∧ rtc (edge_to G) r u.
Proof.
  intros Hacc Hwf Hr Hm. revert Hr. induction Hm as [r|m r w v (e & He & <-) Hm IH]; intros Hr.
  - exists [r]. split_and!; [done|apply NoDup_singleton|]. by intros u ->%list_elem_of_singleton.
  - destruct IH as (vs & Hl & Hnd & Hvs); [by apply (gw_target G Hwf r e)|]. exists (r :: vs).
    assert (edge_to G r (target e)) as Hre by (by exists e). split_and!.
    + simpl. by rewrite Hl.
    + constructor; [|done]. intros Hin. destruct (Hvs r Hin) as [_ Hcirc]. apply (acyclic_no_circle G r Hacc).
      by eapply tc_rtc_r; [apply tc_once|].
    + intros u [->|Hu]%elem_of_cons; [done|]. destruct (Hvs u Hu). split; [done|]. by eapply rtc_l.
Qed.

Lemma acyclic_before G k v :
  acyclic G → graph_wf G → size G ≤ k → reachable G v → before G k v.
Proof.
  intros Hacc Hwf Hk (r & Hr & [m Hm]%rtc_nsteps). exists r, m. split_and!; [done| |done].
  destruct (nsteps_distinct G m r v Hacc Hwf (gw_roots G Hwf r Hr) Hm) as (vs & Hl & Hnd & Hvs).
  assert (length vs ≤ length (seq 0 (size G))) as Hle.
  { apply submseteq_length, NoDup_submseteq; [done|]. intros u Hu. apply elem_of_seq. destruct (Hvs u Hu). lia. }
  rewrite length_seq in Hle. lia.
Qed.

Lemma spells_within_all G (inner : nat → Prop) v l :
  (∀ u, reachable G u → inner u) → reachable G v → spells_within G inner v l ↔ spells G v l.
Proof.
  intros Hall Hv. split; intros Hs; revert Hv.
  - induction Hs as [v Hi Hnil|v Hi|v w l Hi Hw _ IH]; intros Hv; [by constructor|by destruct Hi; apply Hall|].
    econstructor; [done|]. apply IH. exact (reachable_edge G v w Hv Hw).
  - induction Hs as [v Hnil|v w l Hw _ IH]; intros Hv; [apply within_leaf; auto|].
    eapply within_step; [by apply Hall|done|]. apply IH. exact (reachable_edge G v w Hv Hw).
Qed.

(** What is cut off can be put back. *)
Lemma spells_within_prefix G (inner : nat → Prop) v l :
  acyclic G → spells_within G inner v l → ∃ l', spells G v (l ++ l').
Proof.
  intros Hacc. induction 1 as [v _ Hnil|v _|v w l _ Hw _ [l' Hl']].
  - exists []. rewrite app_nil_r. by constructor.
  - destruct (acyclic_spells G v Hacc) as [l Hl]. apply spells_inv in Hl as Hl'.
    destruct Hl' as [[_ ->]|(w & l' & _ & _ & ->)]; [exists []; by rewrite app_nil_r|by exists l'].
  - exists l'. rewrite <-app_assoc. by econstructor.
Qed.

Lemma reverse_levels_more G fuel fuel' k MaxDepth WL (s : level (T:=list X)) (s2 : level (T:=list X)) :
  fuel ≤ fuel' → reverse_levels G fuel k MaxDepth WL s = Some s2 → reverse_levels G fuel' k MaxDepth WL s = Some s2.
Proof.
  revert fuel' k WL s. induction fuel as [|fuel IH]; intros fuel' k WL s Hle; [destruct fuel'; cbn [reverse_levels]; by case_decide|].
  destruct fuel' as [|fuel']; [lia|]. cbn [reverse_levels]. case_decide; [|done]. apply IH. lia.
Qed.

(** [reverseDAG] returns. *)
Lemma reverseDAG_spec G (MaxDepth : Z) :
  graph_wf G → (∀ r u, r ∈ Roots G → r ∉ outEdges G u) → (0 ≤ MaxDepth)%Z →
  ∃ R, (∀ fuel, size G < fuel → reverseDAG fuel G MaxDepth = Some R) ∧ graph_wf R
    ∧ ∀ l, reads R l ↔ ∃ r, r ∈ Roots G ∧ spells_within G (before G (Z.to_nat MaxDepth)) r l.
Proof.
  intros Hwf Hroots HM. unfold reverseDAG. set (s := for_each (Roots G) _ _).
  destruct (reverse_levels_all G Hwf MaxDepth (S (size G)) HM) as (K & s' & Hr & Hok & HK); [lia|]. fold s in Hr.
  exists (for_each (WLInsert s') (λ VtxRev R, addRoot R VtxRev.2) (Ret s')). split_and!.
  - intros fuel Hf. by rewrite (reverse_levels_more G (S (size G)) fuel _ _ _ _ s' ltac:(lia) Hr).
  - by eapply final_wf.
  - intros l. rewrite (final_reads G K s' Hok Hroots). split; intros (r & Hr' & Hs); exists r; (split; [done|]);
      (eapply spells_within_iff; [|exact Hs]); intros v; by rewrite HK.
Qed.
End uncut.

(** [finish_dag] with a depth limit. *)
Section finish.
Context {N U : Type} `{!EqDecision N} `{!IntEqClasses U} `{!IntEqClassesLaws U}.
Implicit Types (G Dag : AdjacencyList (list N) nat).

Lemma finish_dag_limited Config G :
  graph_wf G → (∀ r u, r ∈ Roots G → r ∉ outEdges G u) → (0 ≤ DAGDepthThreshold Config < SIZE_MAX)%Z →
  ∃ k Dag, (∀ fuel, k ≤ fuel → finish_dag (U:=U) fuel Config G = Some Dag)
    ∧ ∀ l, reads Dag l ↔ ∃ r, r ∈ Roots G ∧ spells_within G (before G (Z.to_nat (DAGDepthThreshold Config))) r l.
Proof.
  intros Hwf Hroots [HD Hlt]. destruct (reverseDAG_spec G (DAGDepthThreshold Config) Hwf Hroots HD) as (R & HR & HwfR & Hreads).
  destruct (minimize_reads (U:=U) Config R HwfR) as (k & Dag & Hk & _ & _ & Hr).
  exists (k `max` S (size G)), Dag. split.
  - intros fuel Hf. unfold finish_dag. rewrite decide_True by lia. rewrite HR by lia. apply Hk. lia.
  - intros l. by rewrite Hr.
Qed.
End finish.
