(* ===== verification/PathProperties.v ===== *)
(** What the recorded exploded supergraph and the reconstructed paths guarantee. *)
From S2P Require Import Prelude IDESolver UnionFind Graph DFAMinimizer EquivalentGraph.
From S2P Require Import ExplodedSuperGraph ExplodedSuperGraphCorrect PathSensitivity PathSensitivityCorrect.
From S2P Require Import PathsGraph PathsLoops PathsFinish.
Import GraphTraits PathAwareIDESolver Log.

(** A branch: 1 is reached from 0, 4 from 1 through 2 or through 3. *)
Definition flow (n m : nat) : saved_edges nat nat := Saved n m 0 [0] ESG_Normal.
Definition branch_edges : list (saved_edges nat nat) := [flow 0 1; flow 1 2; flow 1 3; flow 2 4; flow 3 4].
Abbreviation branch := (getExplicitESG (λ n : nat, n) 0 branch_edges).

(** * The recorded graph *)

Section recorded.
Context {N D B : Type} `{Countable N} `{Countable D} `{!EqDecision B} `{!Inhabited N} `{!Inhabited D}.
Context (getParent : N → B).

(** C26: in the graph of every run all indices are in range; a node that is found
    for a fact at a statement holds that fact, or one that flows out of it there;
    every node was entered by a recorded edge whose source its predecessor stands
    for; and the alternatives of a node were entered by recorded edges to a
    statement and fact it stands for. *)
Theorem recorded_graph_typed (Z : D) (es : list (saved_edges N D)) :
  let E := getExplicitESG getParent Z es in
  let stands i n d :=
    i < ExplodedSuperGraph.size E
    ∧ (ExplodedSuperGraph.value E i = d ∨ ∃ m, recorded es n d m (ExplodedSuperGraph.value E i)) in
  length (ExplodedSuperGraph.NodeAdjOwner E) = length (ExplodedSuperGraph.NodeDataOwner E)
  ∧ (∀ n d i, ExplodedSuperGraph.getNodeOrNull E n d = Some i → stands i n d)
  ∧ (∀ i, i < ExplodedSuperGraph.size E →
      ∃ d m d', recorded es (ExplodedSuperGraph.source E i) d m d' ∧ stands i m d'
        ∧ ∀ p, ExplodedSuperGraph.predecessor E i = Some p → stands p (ExplodedSuperGraph.source E i) d)
  ∧ (∀ i q, q ∈ ExplodedSuperGraph.neighbors E i →
      q < ExplodedSuperGraph.size E
      ∧ ∃ n d m, recorded es n d m (ExplodedSuperGraph.value E q) ∧ stands i m (ExplodedSuperGraph.value E q))
  ∧ ∀ i, ExplodedSuperGraph.predecessor E i = None → ExplodedSuperGraph.neighbors E i = [].
Proof.
  cbv zeta. destruct (getExplicitESG_ok getParent Z es) as [H1 H2 H3 H4 H5]. split_and!; done.
Qed.

(** C25: the target of every recorded edge has a node at the end of the run. If the
    source of the edge had a node [p] when it was recorded, and it is not the zero
    fact passed around a call, then the source still has this node, and the edge is
    a link of the graph: the node of the target has [p] as predecessor, has an
    alternative whose predecessor is [p], or is [p] itself, for a fact other than
    zero that [p] passes on unchanged. *)
Theorem recorded_edge_represented (Z : D) (es1 es2 : list (saved_edges N D)) (e : saved_edges N D) (d' : D) :
  d' ∈ SuccNodes e →
  let E1 := getExplicitESG getParent Z es1 in
  let E := getExplicitESG getParent Z (es1 ++ e :: es2) in
  is_Some (ExplodedSuperGraph.getNodeOrNull E (Succ e) d')
  ∧ ∀ p, ExplodedSuperGraph.getNodeOrNull E1 (Curr e) (CurrNode e) = Some p →
      skipped Z (Kind e) (CurrNode e) d' = false →
      ExplodedSuperGraph.getNodeOrNull E (Curr e) (CurrNode e) = Some p
      ∧ ∃ i, ExplodedSuperGraph.getNodeOrNull E (Succ e) d' = Some i
          ∧ (i = p ∧ ExplodedSuperGraph.value E p = d' ∧ d' ≠ Z
             ∨ ExplodedSuperGraph.predecessor E i = Some p
             ∨ ∃ q, q ∈ ExplodedSuperGraph.neighbors E i ∧ ExplodedSuperGraph.predecessor E q = Some p).
Proof.
  intros Hd. destruct (getExplicitESG_represented getParent Z es1 e es2 d' Hd) as (Hn & HZ & Hrep).
  split; [done|]. intros p Hp Hs. destruct (Hrep p Hp Hs) as (Hc & i & Hi & Hlink). split; [done|].
  exists i. split; [done|]. destruct Hlink as [(-> & _ & ? & Hz)|?]; [left|by right]. by rewrite HZ in Hz.
Qed.
End recorded.

(** The second way into 4 is an alternative of its node. *)
Lemma recorded_edge_represented_witness :
  0 ∈ SuccNodes (flow 3 4)
  ∧ (let E1 := getExplicitESG (λ n : nat, n) 0 [flow 0 1; flow 1 2; flow 1 3; flow 2 4] in
     let E := getExplicitESG (λ n : nat, n) 0 ([flow 0 1; flow 1 2; flow 1 3; flow 2 4] ++ [flow 3 4]) in
     is_Some (ExplodedSuperGraph.getNodeOrNull E 4 0)
     ∧ ∀ p, ExplodedSuperGraph.getNodeOrNull E1 3 0 = Some p → skipped 0 ESG_Normal 0 0 = false →
         ExplodedSuperGraph.getNodeOrNull E 3 0 = Some p
         ∧ ∃ i, ExplodedSuperGraph.getNodeOrNull E 4 0 = Some i
             ∧ (i = p ∧ ExplodedSuperGraph.value E p = 0 ∧ 0 ≠ 0
                ∨ ExplodedSuperGraph.predecessor E i = Some p
                ∨ ∃ q, q ∈ ExplodedSuperGraph.neighbors E i ∧ ExplodedSuperGraph.predecessor E q = Some p))
  ∧ ExplodedSuperGraph.getNodeOrNull branch 4 0 = Some 3 ∧ ExplodedSuperGraph.getNodeOrNull branch 3 0 = Some 2
  ∧ ExplodedSuperGraph.neighbors branch 3 = [4] ∧ ExplodedSuperGraph.predecessor branch 4 = Some 2.
Proof.
  assert (0 ∈ SuccNodes (flow 3 4)) as H0 by (by left). split; [exact H0|].
  split; [|split_and!; vm_compute; reflexivity].
  exact (recorded_edge_represented (λ n : nat, n) 0 [flow 0 1; flow 1 2; flow 1 3; flow 2 4] [] (flow 3 4) 0 H0).
Defined.

(** * The paths of an answer *)

Section answer.
Context {N D B U : Type} `{Countable N} `{Countable D} `{!EqDecision B} `{!Inhabited N} `{!Inhabited D}.
Context `{!IntEqClasses U} `{!IntEqClassesLaws U}.
Context (getParent : N → B).
Implicit Types (G Dag : AdjacencyList (list N) nat) (E : ExplodedSuperGraph.t N D) (F : PathTracingFilter).

Lemma graph_ok_wf E F Inst Facts (s : PathSensitivityManagerMixin.state (N:=N)) :
  graph_ok E F Inst Facts s →
  let G := PathSensitivityManagerMixin.RetDag s in
  graph_wf G ∧ acyclic G ∧ (∀ v, v < size G → v ∈ Roots G ∨ ∃ u, v ∈ outEdges G u) ∧ (∀ r u, r ∈ Roots G → r ∉ outEdges G u).
Proof.
  intros [Hok _ Hin _ _ _]. pose proof (so_dag _ _ _ _ Hok) as Hdag. cbv zeta. split_and!.
  - split; [apply Hdag| |apply (do_open _ _ Hdag)]. intros v e He. by apply (do_target _ _ Hdag v).
  - by apply (dag_ok_acyclic _ _ Hdag).
  - done.
  - intros r u Hr Hu. by destruct (do_target _ _ Hdag u r Hu).
Qed.

Lemma roots_answer E F Inst Facts (s : PathSensitivityManagerMixin.state (N:=N)) l :
  graph_ok E F Inst Facts s →
  let G := PathSensitivityManagerMixin.RetDag s in
  (∃ r, r ∈ Roots G ∧ spells G r l) → ∃ Fact i, Fact ∈ Facts ∧ ExplodedSuperGraph.getNodeOrNull E Inst Fact = Some i
    ∧ (query_path E F Inst i l ∨ l = [Inst] ∧ (no_cycles E F → ∀ l', ¬ query_path E F Inst i l')).
Proof.
  intros [_ _ _ _ Hans _]. cbv zeta. intros (r & [k Hr]%list_elem_of_lookup & Hl).
  destruct (Forall2_lookup_r _ _ _ _ _ Hans Hr) as (Fact & Hk & i & Hi & Hn & Hs & Hc).
  exists Fact, i. split; [by eapply list_elem_of_lookup_2|]. split; [done|].
  destruct (Hs l Hl) as [[-> Hnil]|Hq]; [right|by left]. split; [done|]. intros Hnc l' Hq.
  destruct (spells_inv _ _ _ (Hc Hnc l' Hq)) as [[_ Heq]|(w & l'' & Hw & _)].
  - destruct Hq as (j & l2 & _ & Ht & ->). rewrite Hn in Heq. injection Heq as ->.
    by apply traced_cons in Ht as [? ?].
  - rewrite Hnil in Hw. by apply elem_of_nil in Hw.
Qed.

Lemma answer_roots E F Inst Facts (s : PathSensitivityManagerMixin.state (N:=N)) Fact i l :
  graph_ok E F Inst Facts s → no_cycles E F → Fact ∈ Facts → ExplodedSuperGraph.getNodeOrNull E Inst Fact = Some i →
  query_path E F Inst i l ∨ l = [Inst] ∧ (∀ l', ¬ query_path E F Inst i l') →
  let G := PathSensitivityManagerMixin.RetDag s in ∃ r, r ∈ Roots G ∧ spells G r l.
Proof.
  intros [Hok _ _ _ Hans _] Hnc [k Hk]%list_elem_of_lookup Hi Hl. cbv zeta.
  destruct (Forall2_lookup_l _ _ _ _ _ Hans Hk) as (r & Hr & i' & Hi' & Hn & Hs & Hc).
  assert (i' = i) as -> by congruence. exists r. split; [by eapply list_elem_of_lookup_2|].
  destruct Hl as [Hq|[-> Hno]]; [by apply Hc|].
  destruct (acyclic_spells _ r (dag_ok_acyclic _ _ (so_dag _ _ _ _ Hok))) as [l Hl].
  destruct (Hs l Hl) as [[-> _]|Hq]; [done|by destruct (Hno l)].
Qed.

Lemma no_cycles_leaves E F (rank : nat → nat) i : (∀ i j, back E i j → rank j < rank i) → leaves E F i.
Proof.
  intros Hrank. remember (rank i) as r eqn:Hr. revert i Hr. induction r as [r IH] using lt_wf_ind. intros i ->.
  destruct (ExplodedSuperGraph.predecessor E i) as [p|] eqn:Hp; [|by constructor].
  eapply leaves_step; [done|]. eapply IH; [|done]. apply Hrank. exists p. auto.
Qed.

(** The graph of paths of a recorded run. *)
Lemma run_graph (Z : D) (es : list (saved_edges N D)) Inst Facts F :
  let E := getExplicitESG getParent Z es in
  (∀ i, i < ExplodedSuperGraph.size E → leaves E F i) →
  (∀ Fact, Fact ∈ Facts → is_Some (ExplodedSuperGraph.getNodeOrNull E Inst Fact)) →
  ∃ k G, (∀ fuel, k ≤ fuel → PathSensitivityManagerMixin.paths_graph E F fuel fuel Inst Facts = Some G)
    ∧ ∃ s, G = PathSensitivityManagerMixin.RetDag s ∧ graph_ok E F Inst Facts s.
Proof.
  cbv zeta. intros Hleaves Hfacts. pose proof (getExplicitESG_ok getParent Z es) as Hok. set (E := getExplicitESG _ _ _) in *.
  destruct (paths_graph_terminates E F) with Inst Facts as (k & G & Hk); [..|done| |].
  - intros i p Hp. destruct (decide (i < ExplodedSuperGraph.size E)) as [Hi|Hi].
    + destruct (eo_node _ _ Hok i Hi) as (d & m & d' & _ & _ & Hpred). by destruct (Hpred p Hp).
    + destruct (access_out_of_range E i (eo_len _ _ Hok)); [lia|congruence].
  - intros i q Hq. by destruct (eo_neighbor _ _ Hok i q Hq).
  - intros d Hd. destruct (Hfacts d Hd) as [i Hi]. exists i. split; [done|]. by destruct (eo_map _ _ Hok _ _ _ Hi).
  - exists k, G. split; [done|]. by apply (paths_graph_ok E F k k), Hk.
Qed.

(** C23: on a supergraph without cycles, and with a filter that may rule out steps
    but ends no path, [pathsDagToAll] returns, and the paths of its graph from a
    root to a leaf are, read backwards, exactly the statement asked about followed
    by a path of the supergraph from the node of one of the facts (or from an
    alternative of it) back to a start; just the statement if there is no path. *)
Theorem paths_to_facts_exact (Z : D) (es : list (saved_edges N D)) (Inst : N) (Facts : list D)
    (Config : PathSensitivityConfig) (F : PathTracingFilter) :
  let E := getExplicitESG getParent Z es in
  no_cycles E F → (∀ Fact, Fact ∈ Facts → is_Some (ExplodedSuperGraph.getNodeOrNull E Inst Fact)) →
  DAGDepthThreshold Config = SIZE_MAX →
  ∃ k Dag, (∀ fuel, k ≤ fuel → pathsDagToAll (U:=U) fuel E Inst Facts Config F = Some Dag)
    ∧ ∀ l, reads Dag l ↔ ∃ Fact i, Fact ∈ Facts ∧ ExplodedSuperGraph.getNodeOrNull E Inst Fact = Some i
        ∧ (query_path E F Inst i l ∨ l = [Inst] ∧ ∀ l', ¬ query_path E F Inst i l').
Proof.
  cbv zeta. intros Hnc Hfacts Hmax. destruct (run_graph Z es Inst Facts F) as (k1 & G & Hk1 & s & -> & Hok); [|done|].
  { intros i _. destruct Hnc as (_ & rank & Hrank). by apply (no_cycles_leaves _ _ rank). }
  destruct (graph_ok_wf _ _ _ _ _ Hok) as (Hwf & Hacc & Hin & Hroot).
  destruct (finish_dag_spec (U:=U) Config _ Hwf Hacc Hin Hroot Hmax) as (k2 & Dag & Hk2 & _ & _ & Hr).
  exists (k1 `max` k2), Dag. split; [intros fuel Hf; unfold pathsDagToAll; rewrite Hk1 by lia; apply Hk2; lia|].
  intros l. rewrite Hr. split.
  - intros Hl. destruct (roots_answer _ _ _ _ _ l Hok Hl) as (Fact & i & ? & ? & Hq). exists Fact, i. naive_solver.
  - intros (Fact & i & ? & ? & ?). by eapply answer_roots.
Qed.

(** C24: when every chain of predecessors comes to a start, to a node with
    alternatives or to a step the filter stops at, [pathsDagToAll] returns, and
    neither its graph nor the one before it is turned around has a circle, so the
    check for circles never fails; whatever the supergraph and the filter, each
    path of the graph is the statement asked about and a path of the supergraph. *)
Theorem paths_graph_returns_traces (Z : D) (es : list (saved_edges N D)) (Inst : N) (Facts : list D)
    (Config : PathSensitivityConfig) (F : PathTracingFilter) :
  let E := getExplicitESG getParent Z es in
  (∀ i, i < ExplodedSuperGraph.size E → leaves E F i) →
  (∀ Fact, Fact ∈ Facts → is_Some (ExplodedSuperGraph.getNodeOrNull E Inst Fact)) →
  DAGDepthThreshold Config = SIZE_MAX →
  ∃ k G Dag,
    (∀ fuel, k ≤ fuel →
      PathSensitivityManagerMixin.paths_graph E F fuel fuel Inst Facts = Some G
      ∧ PathSensitivityManagerBase.assertIsDAG fuel G = Some true
      ∧ pathsDagToAll (U:=U) fuel E Inst Facts Config F = Some Dag
      ∧ PathSensitivityManagerBase.assertIsDAG fuel Dag = Some true)
    ∧ graph_wf Dag ∧ (∀ v, ¬ tc (edge_to Dag) v v)
    ∧ ∀ l, reads Dag l → ∃ Fact i, Fact ∈ Facts ∧ ExplodedSuperGraph.getNodeOrNull E Inst Fact = Some i
        ∧ (query_path E F Inst i l ∨ l = [Inst]).
Proof.
  cbv zeta. intros Hleaves Hfacts Hmax. destruct (run_graph Z es Inst Facts F) as (k1 & G & Hk1 & s & -> & Hok); [done..|].
  destruct (graph_ok_wf _ _ _ _ _ Hok) as (Hwf & Hacc & Hin & Hroot).
  destruct (finish_dag_spec (U:=U) Config _ Hwf Hacc Hin Hroot Hmax) as (k2 & Dag & Hk2 & Hwf' & Hacc' & Hr).
  destruct (assertIsDAG_accepts _ Hacc) as [k3 Hk3]. destruct (assertIsDAG_accepts _ Hacc') as [k4 Hk4].
  exists (k1 `max` k2 `max` k3 `max` k4), (PathSensitivityManagerMixin.RetDag s), Dag. split_and!; [|done|..].
  - intros fuel Hf. split_and!; [apply Hk1; lia|apply Hk3; lia| |apply Hk4; lia].
    unfold pathsDagToAll. rewrite Hk1 by lia. apply Hk2. lia.
  - intros v. by apply acyclic_no_circle.
  - intros l Hl%Hr. destruct (roots_answer _ _ _ _ _ l Hok Hl) as (Fact & i & ? & ? & Hq). exists Fact, i. naive_solver.
Qed.

(** C27: with a limit on the depth, [pathsDagToAll] returns a graph whose paths,
    read backwards, are those from the statement asked about down to a leaf or to
    the first vertex as many edges away from the roots as the limit says; each is
    the beginning of one of the full graph, and a limit of at least the number of
    vertices cuts nothing off. *)
Theorem depth_limited_paths (Z : D) (es : list (saved_edges N D)) (Inst : N) (Facts : list D)
    (Config : PathSensitivityConfig) (F : PathTracingFilter) :
  let E := getExplicitESG getParent Z es in
  (∀ i, i < ExplodedSuperGraph.size E → leaves E F i) →
  (∀ Fact, Fact ∈ Facts → is_Some (ExplodedSuperGraph.getNodeOrNull E Inst Fact)) →
  (0 ≤ DAGDepthThreshold Config < SIZE_MAX)%Z →
  ∃ k G Dag,
    (∀ fuel, k ≤ fuel → PathSensitivityManagerMixin.paths_graph E F fuel fuel Inst Facts = Some G
      ∧ pathsDagToAll (U:=U) fuel E Inst Facts Config F = Some Dag)
    ∧ (∀ l, reads Dag l ↔
        ∃ r, r ∈ Roots G ∧ spells_within G (before G (Z.to_nat (DAGDepthThreshold Config))) r l)
    ∧ (∀ l, reads Dag l → ∃ r l', r ∈ Roots G ∧ spells G r (l ++ l'))
    ∧ ((Z.of_nat (size G) ≤ DAGDepthThreshold Config)%Z → ∀ l, reads Dag l ↔ ∃ r, r ∈ Roots G ∧ spells G r l).
Proof.
  cbv zeta. intros Hleaves Hfacts HD. destruct (run_graph Z es Inst Facts F) as (k1 & G & Hk1 & s & -> & Hok); [done..|].
  destruct (graph_ok_wf _ _ _ _ _ Hok) as (Hwf & Hacc & Hin & Hroot). set (G := PathSensitivityManagerMixin.RetDag s) in *.
  destruct (finish_dag_limited (U:=U) Config G Hwf Hroot HD) as (k2 & Dag & Hk2 & Hr).
  exists (k1 `max` k2), G, Dag. split_and!; [|done|..].
  - intros fuel Hf. split; [apply Hk1; lia|]. unfold pathsDagToAll. rewrite Hk1 by lia. apply Hk2. lia.
  - intros l (r & Hroot' & Hs)%Hr. destruct (spells_within_prefix _ _ _ _ Hacc Hs) as [l' Hl']. by exists r, l'.
  - intros Hle l. rewrite Hr. split; intros (r & Hroot' & Hs); exists r; (split; [done|]); revert Hs;
      (apply spells_within_all; [intros u Hu; apply acyclic_before; [done..|lia|done]|by exists r]).
Qed.
End answer.

Lemma branch_no_cycles : no_cycles branch DefaultPathTracingFilter.
Proof.
  split; [done|]. exists (λ i, [0; 1; 1; 2; 2] !!! i). intros i j (p & Hp & Hj). revert p Hp Hj.
  do 5 (destruct i as [|i]; [intros p Hp Hj; vm_compute in Hp; simplify_eq;
    (destruct Hj as [->|Hj]; [vm_compute; lia|vm_compute in Hj; by apply elem_of_nil in Hj])|]).
  intros p Hp. vm_compute in Hp. done.
Qed.

(** Both ways to 4; the reader of a path goes from the first label of its last
    vertex to the last one of its first. *)
Lemma paths_to_facts_exact_witness :
  no_cycles branch DefaultPathTracingFilter
  ∧ (∀ Fact, Fact ∈ [0] → is_Some (ExplodedSuperGraph.getNodeOrNull branch 4 Fact))
  ∧ DAGDepthThreshold default_path_config = SIZE_MAX
  ∧ (∃ k Dag, (∀ fuel, k ≤ fuel →
        pathsDagToAll (U:=Log.classes) fuel branch 4 [0] default_path_config DefaultPathTracingFilter = Some Dag)
      ∧ ∀ l, reads Dag l ↔ ∃ Fact i, Fact ∈ [0] ∧ ExplodedSuperGraph.getNodeOrNull branch 4 Fact = Some i
          ∧ (query_path branch DefaultPathTracingFilter 4 i l
             ∨ l = [4] ∧ ∀ l', ¬ query_path branch DefaultPathTracingFilter 4 i l'))
  ∧ pathsDagTo (U:=Log.classes) 20 branch 4 0 default_path_config DefaultPathTracingFilter
    = Some {| Nodes := [[3; 1; 0]; [2; 1; 0]; [4]]; Adj := [[2]; [2]; []]; Roots := [0; 1] |}.
Proof.
  assert (∀ Fact, Fact ∈ [0] → is_Some (ExplodedSuperGraph.getNodeOrNull branch 4 Fact)) as Hf.
  { intros Fact ->%list_elem_of_singleton. vm_compute. by eexists. }
  split; [exact branch_no_cycles|]. split; [exact Hf|]. split; [reflexivity|]. split; [|vm_compute; reflexivity].
  exact (paths_to_facts_exact (U:=Log.classes) (λ n : nat, n) 0 branch_edges 4 [0] default_path_config DefaultPathTracingFilter
    branch_no_cycles Hf eq_refl).
Defined.

(** A loop, 2 and 3, behind the statement 1. *)
Definition inner_loop_edges : list (saved_edges nat nat) := [flow 0 1; flow 1 2; flow 2 3; flow 3 2; flow 2 4].
Abbreviation inner_loop := (getExplicitESG (λ n : nat, n) 0 inner_loop_edges).

Lemma inner_loop_leaves i : leaves inner_loop DefaultPathTracingFilter i.
Proof.
  assert (leaves inner_loop DefaultPathTracingFilter 0) as H0 by (constructor; vm_compute; reflexivity).
  assert (leaves inner_loop DefaultPathTracingFilter 1) as H1 by (eapply leaves_step; [vm_compute; reflexivity|done]).
  assert (leaves inner_loop DefaultPathTracingFilter 2) as H2 by (eapply leaves_step; [vm_compute; reflexivity|done]).
  do 3 (destruct i as [|i]; [done|]).
  destruct i as [|[|i]]; [eapply leaves_step; [vm_compute; reflexivity|done]..|constructor].
  vm_compute. done.
Qed.

(** The loop is unrolled once. *)
Lemma paths_graph_returns_traces_witness :
  (∀ i, i < ExplodedSuperGraph.size inner_loop → leaves inner_loop DefaultPathTracingFilter i)
  ∧ (∀ Fact, Fact ∈ [0] → is_Some (ExplodedSuperGraph.getNodeOrNull inner_loop 4 Fact))
  ∧ DAGDepthThreshold default_path_config = SIZE_MAX
  ∧ (∃ k G Dag,
      (∀ fuel, k ≤ fuel →
        PathSensitivityManagerMixin.paths_graph inner_loop DefaultPathTracingFilter fuel fuel 4 [0] = Some G
        ∧ PathSensitivityManagerBase.assertIsDAG fuel G = Some true
        ∧ pathsDagToAll (U:=Log.classes) fuel inner_loop 4 [0] default_path_config DefaultPathTracingFilter = Some Dag
        ∧ PathSensitivityManagerBase.assertIsDAG fuel Dag = Some true)
      ∧ graph_wf Dag ∧ (∀ v, ¬ tc (edge_to Dag) v v)
      ∧ ∀ l, reads Dag l → ∃ Fact i, Fact ∈ [0] ∧ ExplodedSuperGraph.getNodeOrNull inner_loop 4 Fact = Some i
          ∧ (query_path inner_loop DefaultPathTracingFilter 4 i l ∨ l = [4]))
  ∧ pathsDagTo (U:=Log.classes) 20 inner_loop 4 0 default_path_config DefaultPathTracingFilter
    = Some {| Nodes := [[1; 0]; [2]; [3; 2]; [4]]; Adj := [[1; 2]; [3]; [1]; []]; Roots := [0] |}.
Proof.
  assert (∀ Fact, Fact ∈ [0] → is_Some (ExplodedSuperGraph.getNodeOrNull inner_loop 4 Fact)) as Hf.
  { intros Fact ->%list_elem_of_singleton. vm_compute. by eexists. }
  split; [intros i _; apply inner_loop_leaves|]. split; [exact Hf|]. split; [reflexivity|]. split; [|vm_compute; reflexivity].
  exact (paths_graph_returns_traces (U:=Log.classes) (λ n : nat, n) 0 inner_loop_edges 4 [0] default_path_config
    DefaultPathTracingFilter (λ i _, inner_loop_leaves i) Hf eq_refl).
Defined.

(** Two edges deep: what comes before the turn of the loop is cut off. *)
Lemma depth_limited_paths_witness :
  (∀ i, i < ExplodedSuperGraph.size inner_loop → leaves inner_loop DefaultPathTracingFilter i)
  ∧ (∀ Fact, Fact ∈ [0] → is_Some (ExplodedSuperGraph.getNodeOrNull inner_loop 4 Fact))
  ∧ (0 ≤ DAGDepthThreshold (withDAGDepthThreshold 2 default_path_config) < SIZE_MAX)%Z
  ∧ (∃ k G Dag,
      (∀ fuel, k ≤ fuel → PathSensitivityManagerMixin.paths_graph inner_loop DefaultPathTracingFilter fuel fuel 4 [0] = Some G
        ∧ pathsDagToAll (U:=Log.classes) fuel inner_loop 4 [0] (withDAGDepthThreshold 2 default_path_config)
            DefaultPathTracingFilter = Some Dag)
      ∧ (∀ l, reads Dag l ↔ ∃ r, r ∈ Roots G ∧ spells_within G
            (before G (Z.to_nat (DAGDepthThreshold (withDAGDepthThreshold 2 default_path_config)))) r l)
      ∧ (∀ l, reads Dag l → ∃ r l', r ∈ Roots G ∧ spells G r (l ++ l'))
      ∧ ((Z.of_nat (size G) ≤ DAGDepthThreshold (withDAGDepthThreshold 2 default_path_config))%Z →
          ∀ l, reads Dag l ↔ ∃ r, r ∈ Roots G ∧ spells G r l))
  ∧ pathsDagTo (U:=Log.classes) 20 inner_loop 4 0 (withDAGDepthThreshold 2 default_path_config) DefaultPathTracingFilter
    = Some {| Nodes := [[1; 0]; [3; 2]; [2]; [4]]; Adj := [[2]; [2]; [3]; []]; Roots := [0; 1] |}.
Proof.
  assert (∀ Fact, Fact ∈ [0] → is_Some (ExplodedSuperGraph.getNodeOrNull inner_loop 4 Fact)) as Hf.
  { intros Fact ->%list_elem_of_singleton. vm_compute. by eexists. }
  assert (0 ≤ DAGDepthThreshold (withDAGDepthThreshold 2 default_path_config) < SIZE_MAX)%Z as HD by (split; reflexivity || done).
  split; [intros i _; apply inner_loop_leaves|]. split; [exact Hf|]. split; [exact HD|]. split; [|vm_compute; reflexivity].
  exact (depth_limited_paths (U:=Log.classes) (λ n : nat, n) 0 inner_loop_edges 4 [0]
    (withDAGDepthThreshold 2 default_path_config) DefaultPathTracingFilter (λ i _, inner_loop_leaves i) Hf HD).
Defined.

(** * A loop at the start *)

(** C28: when the first recorded edge enters a statement [h] from another block, or
    with the zero fact, an edge from a statement [x] reached behind [h] comes back to
    [h], every other edge goes from a fact seen before to a fact not seen yet, and no
    edge passes around a call, then the start is overwritten by the edge that closes
    the loop, and no query for paths returns: for every statement and fact of the
    supergraph, no fuel is enough for the loop over the predecessors. *)
Theorem loop_entry_never_returns {N D B U : Type} `{Countable N} `{Countable D} `{!EqDecision B}
    `{!Inhabited N} `{!Inhabited D} `{!IntEqClasses U} (getParent : N → B) (Z : D)
    (s h : N) (d : D) (K0 : ESGEdgeKind) (mid : list (saved_edges N D)) (x : N) (K1 : ESGEdgeKind)
    (rest : list (saved_edges N D)) (Inst : N) (Fact : D) (Config : PathSensitivityConfig) (fuel : nat) :
  K0 ≠ ESG_CallToRet → K1 ≠ ESG_CallToRet → d = Z ∨ getParent s ≠ getParent h →
  fans_out [(s, d); (h, d)] (mid ++ rest) → (x, d) ∈ (h, d) :: targets mid →
  (Inst, Fact) ∈ [(s, d); (h, d)] ++ targets (mid ++ rest) →
  let E := getExplicitESG getParent Z (Saved s h d [d] K0 :: mid ++ Saved x h d [d] K1 :: rest) in
  is_Some (ExplodedSuperGraph.getNodeOrNull E Inst Fact)
  ∧ pathsDagTo (U:=U) fuel E Inst Fact Config DefaultPathTracingFilter = None.
Proof.
  intros HK0 HK1 Hd Hfan Hx Hin. cbv zeta.
  destruct (loop_entry_stuck getParent Z s h d K0 mid x K1 rest HK0 HK1 Hd Hfan Hx _ Hin) as (i & Hi & Hnb & Hl).
  split; [by eexists|]. by apply (pathsDagTo_stuck _ _ _ _ _ i).
Qed.

(** The statements 1, 2 and 3 are a loop that is entered from 0 and left from 2 to 4. *)
Lemma loop_entry_never_returns_witness :
  fans_out [(0, 0); (1, 0)] ([flow 1 2; flow 2 3] ++ [flow 2 4])
  ∧ (∀ fuel, let E := getExplicitESG (λ n : nat, n) 0 (flow 0 1 :: [flow 1 2; flow 2 3] ++ flow 3 1 :: [flow 2 4]) in
      is_Some (ExplodedSuperGraph.getNodeOrNull E 4 0)
      ∧ pathsDagTo (U:=Log.classes) fuel E 4 0 default_path_config DefaultPathTracingFilter = None).
Proof.
  assert (fans_out [(0, 0); (1, 0)] ([flow 1 2; flow 2 3] ++ [flow 2 4])) as Hfan.
  { simpl. split_and!; try done; try set_solver; apply NoDup_singleton. }
  split; [exact Hfan|]. intros fuel.
  apply (loop_entry_never_returns (λ n : nat, n) 0 0 1 0 ESG_Normal [flow 1 2; flow 2 3] 3 ESG_Normal [flow 2 4]);
    [done|done|by left|exact Hfan|set_solver..].
Defined.
