(* ===== verification/Z3PathSensitivity.v ===== *)
(** What the path filters use of Z3 (its C++ interface z3++.h) and of the
    instructions of LLVM, as classes of operations; the laws state the documented
    behaviour of Z3.

    The manager that keeps the feasible paths of the graph of paths
    (lib/PhasarLLVM/DataFlow/PathSensitivity/Z3BasedPathSensitivityManager.cpp,
    Z3BasedPathSensitvityManager.h, Z3BasedPathSensitivityConfig.h, FlowPath.h).
    Counters that are only logged are left out. *)
From S2P Require Import Prelude UnionFind Graph DFAMinimizer ExplodedSuperGraph PathSensitivity.
From stdpp Require Import sorting.
(** * Z3 *)

Inductive check_result := unsat | sat | unknown.

#[export] Instance check_result_eq_dec : EqDecision check_result.
Proof. solve_decision. Defined.

(** Conditions. *)
Class Z3Conditions (expr : Type) := {
  bool_val : bool → expr;
  and_ : expr → expr → expr;
  or_ : expr → expr → expr;
  simplify : expr → expr;
  is_false : expr → bool
}.

(** The incremental solver: [check] may change its state. *)
Class Z3 (expr model solver : Type) := {
  z3_conditions :: Z3Conditions expr;
  new_solver : solver;
  add : expr → solver → solver;
  push : solver → solver;
  pop : solver → solver;
  check : solver → check_result * solver;
  get_model : solver → model;
  assertions : solver → list expr
}.

(** [scopes] are the assertions at the calls of [push] that are still open.
    [check] may answer [unknown]; its other two answers can be relied on. *)
Class Z3Laws (expr model solver : Type) `{!Z3 expr model solver} := {
  holds : model → expr → Prop;
  holds_bool_val m b : holds m (bool_val b) ↔ b = true;
  holds_and m e f : holds m (and_ e f) ↔ holds m e ∧ holds m f;
  holds_or m e f : holds m (or_ e f) ↔ holds m e ∨ holds m f;
  holds_simplify m e : holds m (simplify e) ↔ holds m e;
  is_false_holds m e : is_false e = true → ¬ holds m e;
  scopes : solver → list (list expr);
  new_assertions : assertions new_solver = [];
  new_scopes : scopes new_solver = [];
  add_assertions e s : assertions (add e s) = assertions s ++ [e];
  add_scopes e s : scopes (add e s) = scopes s;
  push_assertions s : assertions (push s) = assertions s;
  push_scopes s : scopes (push s) = assertions s :: scopes s;
  pop_spec s es ss : scopes s = es :: ss → assertions (pop s) = es ∧ scopes (pop s) = ss;
  check_assertions s : assertions (check s).2 = assertions s;
  check_scopes s : scopes (check s).2 = scopes s;
  check_unsat s m : (check s).1 = unsat → ¬ ∀ e, e ∈ assertions s → holds m e;
  check_sat s e : (check s).1 = sat → e ∈ assertions s → holds (get_model (check s).2) e
}.

(** A solver that decides the constraints it is asked about. *)
Definition decisive {expr model solver : Type} `{!Z3 expr model solver} : Prop :=
  ∀ s, (check s).1 ≠ unknown.

(** * LLVM *)

(** [getNextNodes] are the results of [getNextNode], in turn: the instructions
    behind one in its block. [calls_definition] tells a call whose
    [getCalledFunction] is known and not a declaration; [succ_fronts] are the first
    instructions of the successors of a terminator. *)
Class LLVMInstruction (N : Type) := {
  isa_CallBase : N → bool;
  isa_ReturnInst : N → bool;
  isa_ResumeInst : N → bool;
  isTerminator : N → bool;
  calls_definition : N → bool;
  getNextNodes : N → list N;
  succ_fronts : N → list N
}.

(** The order of pointers. *)
Class Address (A : Type) := {
  address : A → Z;
  address_inj : Inj (=) (=) address
}.
#[export] Existing Instance address_inj.

(** * The constraints of the edges (LLVMPathConstraints) *)

(** A branch constraint and the variables it is about, if the edge has one. *)
Class PathConstraints (N V expr : Type) := {
  getConstraintAndVariablesFromEdge : N → N → option (expr * list V)
}.

Definition getConstraintFromEdge {N V expr} `{!PathConstraints N V expr} (Curr Succ : N) : option expr :=
  fst <$> getConstraintAndVariablesFromEdge Curr Succ.

Record Z3BasedPathSensitivityConfig (expr : Type) := {
  base_config : PathSensitivityConfig;
  AdditionalConstraint : option expr
}.
Arguments Build_Z3BasedPathSensitivityConfig {expr}.
Arguments base_config {expr}.
Arguments AdditionalConstraint {expr}.

Definition withAdditionalConstraint {expr : Type} `{!Z3Conditions expr} (Constr : expr)
    (C : Z3BasedPathSensitivityConfig expr) : Z3BasedPathSensitivityConfig expr := {|
  base_config := base_config C;
  AdditionalConstraint := Some (match AdditionalConstraint C with Some C => and_ C Constr | None => Constr end)
|}.

(** A path, its constraint, and a model of it. *)
Record FlowPath (N expr model : Type) := {
  Path : list N;
  Constraint : expr;
  Model : model
}.
Arguments Build_FlowPath {N expr model}.
Arguments Path {N expr model}.
Arguments Constraint {N expr model}.
Arguments Model {N expr model}.

(** * [CallStackPathFilter] *)

Module CallStackPathFilter.
Section filter.
Context {N : Type} `{!EqDecision N} `{!Inhabited N} `{!LLVMInstruction N}.

(** The loop over the instructions behind [Of], then the blocks behind it. *)
Fixpoint search_successor (Succ Of : N) (Nxts : list N) : bool :=
  match Nxts with
  | [] => bool_decide (Succ ∈ succ_fronts Of)
  | Nxt :: Nxts =>
    if decide (Nxt = Succ) then true
    else if isTerminator Nxt then bool_decide (Succ ∈ succ_fronts Nxt)
    else if calls_definition Nxt then false
    else search_successor Succ Nxt Nxts
  end.

Definition isDirectSuccessorOf (Succ Of : N) : bool := search_successor Succ Of (getNextNodes Of).

(** A node of the stack; the nodes below it are found through [Prev]. *)
Record CallStackNode := { Prev : option nat; CS : N }.

#[global] Instance CallStackNode_inhabited : Inhabited CallStackNode :=
  populate {| Prev := None; CS := inhabitant |}.

(** A pointer into [CallStackOwner] is an index; the top of [CallStackSafe] is its
    head. *)
Record t := Filter {
  CallStackOwner : list CallStackNode;
  CallStackSafe : list (nat * option nat);
  TOS : option nat;
  Valid : bool
}.

Definition initial : t := Filter [] [] None true.

Definition saveState (f : t) : t :=
  Filter (CallStackOwner f) ((length (CallStackOwner f), TOS f) :: CallStackSafe f) (TOS f) (Valid f).

Definition restoreState (f : t) : t :=
  match CallStackSafe f with
  | (SaveCallStackSize, CSSave) :: Safe => Filter (take SaveCallStackSize (CallStackOwner f)) Safe CSSave true
  | [] => f
  end.

Definition pushCS (C : N) (f : t) : t :=
  Filter (CallStackOwner f ++ [{| Prev := TOS f; CS := C |}]) (CallStackSafe f)
    (Some (length (CallStackOwner f))) (Valid f).

(** [None] if [emptyCS]. *)
Definition popCS (f : t) : option (N * t) :=
  Top ← TOS f;
  let Nod := CallStackOwner f !!! Top in
  Some (CS Nod, Filter (CallStackOwner f) (CallStackSafe f) (Prev Nod) (Valid f)).

Definition saveEdge (PrevInst Inst : N) (f : t) : t :=
  if negb (Valid f) then f
  else if isa_CallBase PrevInst && negb (isDirectSuccessorOf Inst PrevInst) then pushCS PrevInst f
  else if isa_ReturnInst PrevInst || isa_ResumeInst PrevInst then
    match popCS f with
    | Some (C, f) =>
      if negb (isDirectSuccessorOf Inst C) then Filter (CallStackOwner f) (CallStackSafe f) (TOS f) false else f
    | None => f
    end
  else f.

Definition saveFinalEdge (PrevInst FinalInst : N) (f : t) : bool * t :=
  if negb (Valid f) then (false, f)
  else if isa_ReturnInst PrevInst || isa_ResumeInst PrevInst then
    match popCS f with
    | Some (C, f) => (isDirectSuccessorOf FinalInst C, f)
    | None => (true, f)
    end
  else (true, f).
End filter.
Arguments t N : clear implicits.
Arguments CallStackNode N : clear implicits.
End CallStackPathFilter.

(** * [ConstraintPathFilter] *)

Module ConstraintPathFilter.
Section filter.
Context {N V expr model solver : Type} `{!EqDecision V} `{!Address V}.
Context `{!Z3 expr model solver} `{!PathConstraints N V expr}.

(** The top of [NumAtomsStack] is its head. *)
Record t := Filter {
  Solver : solver;
  SymbolicAtoms : list V;
  NumAtomsStack : list nat;
  LocalAtoms : list V;
  LastModel : option model;
  NeedSolverInvocation : bool
}.

Definition initial (AdditionalConstraint : expr) : t :=
  Filter (push (add AdditionalConstraint new_solver)) [] [0] [] None false.

Definition saveState (f : t) : t :=
  Filter (push (Solver f)) (SymbolicAtoms f) (default 0 (head (NumAtomsStack f)) :: NumAtomsStack f)
    (LocalAtoms f) (LastModel f) (NeedSolverInvocation f).

Definition restoreState (f : t) : t :=
  let NumAtoms := default 0 (head (NumAtomsStack f)) in
  let Stack := tail (NumAtomsStack f) in
  let Diff := NumAtoms - default 0 (head Stack) in
  Filter (pop (Solver f)) (take (length (SymbolicAtoms f) - Diff) (SymbolicAtoms f)) Stack [] None false.

Definition saveEdge (PrevInst Inst : N) (f : t) : t :=
  match getConstraintAndVariablesFromEdge PrevInst Inst with
  | Some (C, Variables) =>
    Filter (add C (Solver f)) (SymbolicAtoms f) (NumAtomsStack f) (LocalAtoms f ++ Variables) (LastModel f)
      (NeedSolverInvocation f)
  | None => f
  end.

(** The order of pointers, for [std::sort]. *)
Definition address_le (x y : V) : Prop := (address x ≤ address y)%Z.
#[global] Instance address_le_dec x y : Decision (address_le x y).
Proof. unfold address_le. apply _. Defined.

(** [insert] of a set that keeps the order of insertion. *)
Definition insert_atom (x : V) (Atoms : list V) : list V := if decide (x ∈ Atoms) then Atoms else Atoms ++ [x].

Definition checkLocalAtomsOverlap (f : t) : bool * t :=
  if NeedSolverInvocation f then (true, f)
  else
    let Local := GraphTraits.unique (merge_sort address_le (LocalAtoms f)) in
    let Atoms := for_each Local insert_atom (SymbolicAtoms f) in
    (negb (bool_decide (length Atoms - length (SymbolicAtoms f) = length Local)),
     Filter (Solver f) Atoms (NumAtomsStack f) [] (LastModel f) (NeedSolverInvocation f)).

Definition isValid (f : t) : bool * t :=
  if bool_decide (LocalAtoms f = []) && negb (NeedSolverInvocation f) then (true, f)
  else
    let '(Overlap, f) := checkLocalAtomsOverlap f in
    if negb Overlap then (true, f)
    else
      let '(Res, Solver) := check (Solver f) in
      let Ret := bool_decide (Res ≠ unsat) in
      (Ret, Filter Solver (SymbolicAtoms f) (NumAtomsStack f) (LocalAtoms f)
              (if Ret then Some (get_model Solver) else LastModel f) false).

Definition saveFinalEdge (PrevInst FinalInst : N) (f : t) : bool * t :=
  let f := saveEdge PrevInst FinalInst f in
  isValid (Filter (Solver f) (SymbolicAtoms f) (NumAtomsStack f) (LocalAtoms f) (LastModel f) true).

Definition getPathConstraints (f : t) : expr :=
  match assertions (Solver f) with
  | [] => bool_val true
  | C :: Vec => simplify (for_each Vec (λ C' Ret, and_ Ret C') C)
  end.

Definition getModel (f : t) : option model := LastModel f.
End filter.
Arguments t V model solver : clear implicits.
End ConstraintPathFilter.

(** * [PathFilterList] of the two *)

Module PathFilterList.
Section filters.
Context {N V expr model solver : Type} `{!EqDecision N} `{!Inhabited N} `{!EqDecision V} `{!Address V}.
Context `{!LLVMInstruction N} `{!Z3 expr model solver} `{!PathConstraints N V expr}.

Definition t : Type := CallStackPathFilter.t N * ConstraintPathFilter.t V model solver.

Definition saveState (f : t) : t := (CallStackPathFilter.saveState f.1, ConstraintPathFilter.saveState f.2).
Definition restoreState (f : t) : t :=
  (CallStackPathFilter.restoreState f.1, ConstraintPathFilter.restoreState f.2).
Definition saveEdge (PrevInst Inst : N) (f : t) : t :=
  (CallStackPathFilter.saveEdge PrevInst Inst f.1, ConstraintPathFilter.saveEdge PrevInst Inst f.2).

(** The second filter is asked if the first one agrees. *)
Definition isValid (f : t) : bool * t :=
  if CallStackPathFilter.Valid f.1 then
    let '(Ret, f2) := ConstraintPathFilter.isValid f.2 in (Ret, (f.1, f2))
  else (false, f).
Definition saveFinalEdge (PrevInst FinalInst : N) (f : t) : bool * t :=
  let '(Ret, f1) := CallStackPathFilter.saveFinalEdge PrevInst FinalInst f.1 in
  if Ret then let '(Ret, f2) := ConstraintPathFilter.saveFinalEdge PrevInst FinalInst f.2 in (Ret, (f1, f2))
  else (false, (f1, f.2)).
End filters.
Arguments t N V model solver : clear implicits.
End PathFilterList.

(** * [Z3BasedPathSensitivityManagerBase] *)

Module Z3BasedPathSensitivityManagerBase.
Import GraphTraits.
Section base.
Context {N V expr model solver : Type} `{!EqDecision N} `{!Inhabited N} `{!EqDecision V} `{!Address V} `{!Address N}.
Context `{!LLVMInstruction N} `{!Z3 expr model solver} `{!PathConstraints N V expr}.
Abbreviation graph_type := (AdjacencyList (list N) nat).

(** [FilterContext], and the graph that is filtered. *)
Record FilterContext := Ctx {
  Visited : gset nat;
  NodeConstraints : list expr;
  Solver : solver;
  RevDAG : graph_type
}.

Definition add_constraint (C : option expr) (X : expr) : expr :=
  match C with Some C => and_ X C | None => X end.

(** The constraints between the statements of a vertex; its first statement is the
    last of the list. *)
Definition partial_constraint (PartialPath : list N) : expr :=
  for_each (rev (seq 1 (length PartialPath - 1)))
    (λ I, add_constraint (getConstraintFromEdge (PartialPath !!! I) (PartialPath !!! (I - 1)))) (bool_val true).

(** The constraint of reaching the leaf through an edge. *)
Definition edge_constraint (PartialPath : list N) (Adj : nat) (c : FilterContext) : expr :=
  add_constraint
    (getConstraintFromEdge (default inhabitant (head PartialPath)) (default inhabitant (last (node (RevDAG c) Adj))))
    (default (bool_val true) (NodeConstraints c !! Adj)).

Section edges.
(** [doFilter] for the vertices behind. *)
Context (doFilter : nat → FilterContext → option FilterContext) (Vtx : nat) (PartialPath : list N) (X : expr).

(** The loop over the edges, from the [I]th on. *)
Fixpoint filter_edges (fuel I : nat) (Ys : list expr) (c : FilterContext) : option (list expr * FilterContext) :=
  match outEdges (RevDAG c) Vtx !! I with
  | None => Some (Ys, c)
  | Some Adj =>
    match fuel with
    | 0 => None
    | S fuel =>
      c ← (if decide (Adj ∈ Visited c) then Some c else doFilter Adj c);
      let Y := edge_constraint PartialPath Adj c in
      let '(Sat, Sol) := check (add Y (add X (push (Solver c)))) in
      if decide (Sat = unsat)
      then filter_edges fuel I Ys (Ctx (Visited c) (NodeConstraints c) (Z3PathSensitivity.pop Sol) (removeEdge (RevDAG c) Vtx I))
      else filter_edges fuel (I + 1) (Ys ++ [Y]) (Ctx (Visited c) (NodeConstraints c) (Z3PathSensitivity.pop Sol) (RevDAG c))
    end
  end.
End edges.

Definition set_NodeConstraint (Vtx : nat) (C : expr) (c : FilterContext) : FilterContext :=
  Ctx (Visited c) (<[Vtx := C]> (NodeConstraints c)) (Solver c) (RevDAG c).

(** [None] also where the code is not supposed to get: edges but no constraint. *)
Fixpoint doFilter (Leaf fuel : nat) (Vtx : nat) (c : FilterContext) : option FilterContext :=
  match fuel with
  | 0 => None
  | S fuel =>
    let c := Ctx ({[Vtx]} ∪ Visited c) (NodeConstraints c) (Solver c) (RevDAG c) in
    let PartialPath := node (RevDAG c) Vtx in
    let X := partial_constraint PartialPath in
    '(Ys, c) ← filter_edges (doFilter Leaf fuel) Vtx PartialPath X (outDegree (RevDAG c) Vtx) 0 [] c;
    if decide (outDegree (RevDAG c) Vtx = 0)
    then Some (set_NodeConstraint Vtx (if decide (Vtx = Leaf) then X else bool_val false) c)
    else match Ys with
    | [] => None
    | Y :: Ys => Some (set_NodeConstraint Vtx (simplify (and_ X (for_each Ys (λ C Y, or_ Y C) Y))) c)
    end
  end.

(** The loop over the roots, from the [I]th on. *)
Fixpoint filter_roots (Leaf depth fuel I : nat) (Ret : expr) (c : FilterContext) : option (expr * FilterContext) :=
  match Roots (RevDAG c) !! I with
  | None => Some (Ret, c)
  | Some Rt =>
    match fuel with
    | 0 => None
    | S fuel =>
      c ← doFilter Leaf depth Rt c;
      let Ret := or_ Ret (default (bool_val true) (NodeConstraints c !! Rt)) in
      if decide (Rt ≠ Leaf ∧ outEdges (RevDAG c) Rt = [])
      then filter_roots Leaf depth fuel I Ret (Ctx (Visited c) (NodeConstraints c) (Solver c) (removeRoot (RevDAG c) I))
      else filter_roots Leaf depth fuel (I + 1) Ret c
    end
  end.

(** The constraint, and the graph that is left. *)
Definition filterOutUnreachableNodes (fuel : nat) (G : graph_type) (Leaf : nat)
    (Config : Z3BasedPathSensitivityConfig expr) : option (expr * graph_type) :=
  let Sol := match AdditionalConstraint Config with Some C => add C new_solver | None => new_solver end in
  '(Ret, c) ← filter_roots Leaf fuel (roots_size G) 0 (bool_val false)
                (Ctx ∅ (replicate (size G) (bool_val true)) Sol G);
  Some (simplify Ret, RevDAG c).

(** The variables of the traversal in [filterAndFlattenRevDag]. *)
Record FlattenState := State {
  CurrPath : list N;
  Prev : option N;
  Filters : PathFilterList.t N V model solver;
  Ret : list (FlowPath N expr model);
  CompletedCtr : Z
}.

Definition save_inst (Inst : N) (s : FlattenState) : FlattenState :=
  State (CurrPath s ++ [Inst]) (Some Inst)
    (match Prev s with Some P => PathFilterList.saveEdge P Inst (Filters s) | None => Filters s end)
    (Ret s) (CompletedCtr s).

(** What the guards do when [doFilter] returns. *)
Definition restore (s0 s : FlattenState) : FlattenState :=
  State (take (length (CurrPath s0)) (CurrPath s)) (Prev s0) (PathFilterList.restoreState (Filters s)) (Ret s)
    (CompletedCtr s).

(** At the leaf. [None] where an assertion fails. *)
Definition report_path (FinalInst : N) (s : FlattenState) : option FlattenState :=
  P ← Prev s;
  let '(Passed, f) := PathFilterList.saveFinalEdge P FinalInst (Filters s) in
  if Passed : bool then
    M ← ConstraintPathFilter.getModel f.2;
    Some (State (CurrPath s) (Prev s) f
      (Ret s ++ [Build_FlowPath (CurrPath s) (ConstraintPathFilter.getPathConstraints f.2) M]) (CompletedCtr s + 1))
  else Some (State (CurrPath s) (Prev s) f (Ret s) (CompletedCtr s)).

Section flatten.
Context (G : graph_type) (Leaf : nat) (FinalInst : N) (MaxNumPaths : Z).

(** [None] also where the code aborts: at a vertex without successors that is not
    the leaf. *)
Fixpoint flatten (fuel : nat) (Vtx : nat) (s0 : FlattenState) : option FlattenState :=
  match fuel with
  | 0 => None
  | S fuel =>
    let s := State (CurrPath s0) (Prev s0) (PathFilterList.saveState (Filters s0)) (Ret s0) (CompletedCtr s0) in
    let s := for_each (rev (node G Vtx)) save_inst s in
    s ← (if decide (Vtx = Leaf) then report_path FinalInst s
         else if decide (outDegree G Vtx = 0) then None
         else if decide (MaxNumPaths ≤ CompletedCtr s)%Z then Some s
         else
           let '(Passed, f) := PathFilterList.isValid (Filters s) in
           let s := State (CurrPath s) (Prev s) f (Ret s) (CompletedCtr s) in
           if negb Passed then Some s
           else for_each (outEdges G Vtx) (λ Edge o, s ← o; flatten fuel Edge s) (Some s));
    Some (restore s0 s)
  end.
End flatten.

Definition filterAndFlattenRevDag (fuel : nat) (G : graph_type) (Leaf : nat) (FinalInst : N)
    (Config : Z3BasedPathSensitivityConfig expr) : option (list (FlowPath N expr model)) :=
  let f := (CallStackPathFilter.initial,
            ConstraintPathFilter.initial (default (bool_val true) (AdditionalConstraint Config))) in
  let MaxNumPaths := NumPathsThreshold (base_config Config) in
  s ← for_each (Roots G) (λ Rt o, s ← o; flatten G Leaf FinalInst MaxNumPaths fuel Rt s) (Some (State [] None f [] 0));
  Some (Ret s).

(** By length, then by the pointers. *)
Fixpoint lexicographical_less (l k : list N) : bool :=
  match l, k with
  | _, [] => false
  | [], _ :: _ => true
  | x :: l, y :: k =>
    if decide (address x < address y)%Z then true
    else if decide (address y < address x)%Z then false else lexicographical_less l k
  end.

Definition path_less (LHS RHS : FlowPath N expr model) : bool :=
  bool_decide (length (Path LHS) < length (Path RHS))
  || bool_decide (length (Path LHS) = length (Path RHS)) && lexicographical_less (Path LHS) (Path RHS).

Definition path_not_greater (p q : FlowPath N expr model) : Prop := path_less q p = false.
#[global] Instance path_not_greater_dec p q : Decision (path_not_greater p q).
Proof. unfold path_not_greater. apply _. Defined.

(** [std::unique]: paths are equal if their statements are. *)
Fixpoint unique_paths (Paths : list (FlowPath N expr model)) : list (FlowPath N expr model) :=
  match Paths with
  | [] => []
  | p :: Paths =>
    p :: match unique_paths Paths with
         | q :: Paths' => if decide (Path p = Path q) then Paths' else q :: Paths'
         | [] => []
         end
  end.

(** [std::sort] may leave equivalent paths in any order; here they stay in theirs. *)
Definition deduplicatePaths (Paths : list (FlowPath N expr model)) : list (FlowPath N expr model) :=
  unique_paths (merge_sort path_not_greater Paths).
End base.
End Z3BasedPathSensitivityManagerBase.

(** * [Z3BasedPathSensitivityManager] *)

Module Z3BasedPathSensitivityManager.
Import GraphTraits Z3BasedPathSensitivityManagerBase.
Section manager.
Context {N D V U expr model solver : Type} `{Countable N} `{Countable D} `{!Inhabited N} `{!Inhabited D}.
Context `{!EqDecision V} `{!Address V} `{!Address N} `{!IntEqClasses U}.
Context `{!LLVMInstruction N} `{!Z3 expr model solver} `{!PathConstraints N V expr}.

(** The first vertex without successors. *)
Definition find_leaf (Dag : AdjacencyList (list N) nat) : option nat :=
  head (filter (λ Vtx, outDegree Dag Vtx = 0) (vertices Dag)).

(** The paths that pass the filters, before [deduplicatePaths]. *)
Definition recordedPaths (fuel : nat) (E : ExplodedSuperGraph.t N D) (Inst : N) (Fact : D)
    (Config : Z3BasedPathSensitivityConfig expr) (PFilter : PathTracingFilter) :
    option (list (FlowPath N expr model)) :=
  Dag ← pathsDagTo (U:=U) fuel E Inst Fact (base_config Config) PFilter;
  Leaf ← find_leaf Dag;
  '(Constr, Dag) ← filterOutUnreachableNodes (V:=V) (model:=model) fuel Dag Leaf Config;
  if is_false Constr then Some [] else filterAndFlattenRevDag (V:=V) fuel Dag Leaf Inst Config.

Definition pathsTo (fuel : nat) (E : ExplodedSuperGraph.t N D) (Inst : N) (Fact : D)
    (Config : Z3BasedPathSensitivityConfig expr) (PFilter : PathTracingFilter) :
    option (list (FlowPath N expr model)) :=
  deduplicatePaths <$> recordedPaths fuel E Inst Fact Config PFilter.
End manager.
End Z3BasedPathSensitivityManager.
