(* ===== verification/Z3FilterCorrect.v ===== *)
(** The vertices of a graph of paths: labels are not empty, and when one fact is
    asked about there is one leaf after the graph was turned around.

    What [filterOutUnreachableNodes] computes: the constraint of the leaf being
    reached, and a graph that still has every feasible path. *)
From S2P Require Import Prelude UnionFind Graph DFAMinimizer EquivalentGraph ExplodedSuperGraph.
From S2P Require Import ExplodedSuperGraphCorrect PathSensitivity PathSensitivityCorrect PathsGraph.
From S2P Require Import PathsFinish Z3PathSensitivity.
From stdpp Require Import relations.
Import GraphTraits PathSensitivityManagerMixin.

(** * Labels *)

Section labels.
Context {N D : Type} `{Countable N} `{Countable D} `{!Inhabited N} `{!Inhabited D}.
Context (E : ExplodedSuperGraph.t N D) (F : PathTracingFilter).
Abbreviation graph_type := (AdjacencyList (list N) nat).
Implicit Types (s : state (N:=N)) (i v w : nat) (l : list N) (G : graph_type).

Definition full_labels G : Prop := ∀ v, v < size G → node G v ≠ [].

Lemma full_labels_same G G' : Nodes G' = Nodes G → size G' = size G → full_labels G → full_labels G'.
Proof. intros HN HS HG v. rewrite HS. unfold node. rewrite HN. apply HG. Qed.

Lemma full_labels_addEdge G v w : full_labels G → full_labels (addEdge G v w).
Proof. apply full_labels_same; [done|]. unfold size. simpl. by rewrite length_alter. Qed.

Lemma full_labels_dedup G v : full_labels G → full_labels (dedupOutEdges G v).
Proof. apply full_labels_same; [done|]. unfold size. simpl. by rewrite length_alter. Qed.

Lemma stretches_cons i l r : stretches E F i l r → l ≠ [].
Proof. by destruct 1. Qed.

Section invoke.
Context (LA : nat → state (N:=N) → option (option nat * state (N:=N))).
Context (LA_ok : ∀ O s i r s', state_ok E F O s → LA i s = Some (r, s') → la_result E F O s i r s').
Context (LA_full : ∀ O s i r s', state_ok E F O s → full_labels (RetDag s) → LA i s = Some (r, s') → full_labels (RetDag s')).

Lemma traverseNext_full O s n j s' :
  state_ok E F O s → full_labels (RetDag s) → traverseNext LA n j s = Some s' → full_labels (RetDag s').
Proof using LA_full.
  intros Hok Hs ([r s1] & HLA & Ht)%bind_Some. assert (full_labels (RetDag s1)) as H1 by by eapply LA_full.
  destruct r as [w|]; [case_decide|]; injection Ht as <-; [done| |done]. by apply full_labels_addEdge.
Qed.

Lemma traversals_full O s i lab Prev Vtx IsEnd IsError s1 IsEnd' s' :
  ExplodedSuperGraph.predecessor E Prev = Some Vtx → IsEnd = HasReachedEnd F Prev (Some Vtx) →
  IsError = negb IsEnd && IsErrorneousTransition F Prev (Some Vtx) →
  loop_ok E F O s i lab Prev IsEnd s1 → full_labels (RetDag s1) →
  traversals E F LA s1 Prev Vtx IsEnd IsError (size (RetDag s)) = Some (IsEnd', s') → full_labels (RetDag s').
Proof using LA_full LA_ok.
  intros Hp HE Her Hs Hfull (s2 & Hn & Hl)%bind_Some.
  assert (loop_ok E F O s i lab Prev IsEnd s2 ∧ full_labels (RetDag s2)) as [Hs2 Hfull2].
  { destruct (negb IsEnd && negb IsError) eqn:Hgo; [|by injection Hn as <-]. split.
    - apply andb_true_iff in Hgo as [->%negb_true_iff ->%negb_true_iff].
      eapply (traverseNext_ok E F LA LA_ok O s i); [exact Hs|exists Vtx; auto| |exact Hn]. split; [done|].
      by destruct (IsErrorneousTransition _ _ _).
    - eapply traverseNext_full; [apply Hs|done|exact Hn]. }
  revert IsEnd' s' Hl. assert (∀ b s', for_each (ExplodedSuperGraph.neighbors E Vtx) (traverse_neighbor F LA (size (RetDag s)) Prev)
    (Some (IsEnd, s2)) = Some (b, s') → full_labels (RetDag s') ∧ loop_ok E F O s i lab Prev b s') as Hall; [|naive_solver].
  apply (for_each_inv (λ o, ∀ b s', o = Some (b, s') → full_labels (RetDag s') ∧ loop_ok E F O s i lab Prev b s')).
  { by intros b s' [= <- <-]. }
  intros q o Hq IH b s3. destruct o as [[b1 s4]|]; [|done]. destruct (IH b1 s4 eq_refl) as [Hf Hl]. intros Hstep. split.
  - cbn in Hstep. destruct (IsErrorneousTransition F Prev (Some q)); [by injection Hstep as <- <-|].
    destruct (HasReachedEnd F Prev (Some q)); [by injection Hstep as <- <-|].
    apply bind_Some in Hstep as (s5 & Ht & [= <- <-]). eapply traverseNext_full; [apply Hl|done|exact Ht].
  - eapply (traverse_neighbor_ok E F LA LA_ok O s i lab Prev Vtx [q] b1 s4); [exact Hp| |exact Hl|exact Hstep].
    by intros x ->%list_elem_of_singleton.
Qed.

Lemma invoke_full fuel O s i valid s' :
  state_ok E F O s → Cache s !! i = None → full_labels (RetDag s) →
  pathsToImplLAInvoke E F LA fuel (size (RetDag s)) i (entry_state s i) = Some (valid, s') → full_labels (RetDag s').
Proof using LA_full LA_ok.
  intros Hok Hfresh Hs ([r G] & Hf & Hr)%bind_Some. set (n := size (RetDag s)) in *.
  apply follow_spec in Hf as (lab & Hst & Hlab).
  2: { simpl. rewrite length_app, (do_len _ _ (so_dag _ _ _ _ Hok)). simpl. unfold n. lia. }
  destruct (labelled_built E F O s i lab G Hok Hfresh Hlab) as (Hb & Hout & Hnode & HS). fold n in Hout, Hnode, HS.
  pose proof (stretches_cons _ _ _ Hst) as Hne.
  assert (full_labels G) as HG.
  { intros v Hv. destruct (decide (v = n)) as [->|Hvn]; [by rewrite Hnode|].
    rewrite (bu_node _ _ _ _ _ _ _ Hb) by (unfold n in *; lia). apply Hs. unfold n in *. lia. }
  destruct r as [b|Prev Vtx IsEnd IsError]; [by injection Hr as <- <-|].
  pose proof (stretches_traced _ _ _ _ _ Hst) as Htr.
  apply stretches_stopped in Hst as (Hp & HE & Her). cbv zeta in Hr.
  rewrite decide_False in Hr by (exact (not_on_path E F O s Hok)).
  apply bind_Some in Hr as (s2 & H2 & ([IsEnd' s3] & H3 & [= <- <-])%bind_Some).
  apply full_labels_dedup. eapply (traversals_full O s i lab Prev Vtx IsEnd IsError
    (State (Cache (entry_state s i)) (CurrPath s ++ [n]) G)); [exact Hp|exact HE|exact Her| |done|].
  - apply built_loop; [done..|]. intros ->. by eapply traced_end.
  - apply bind_Some. by exists s2.
Qed.
End invoke.

Lemma pathsToImplLA_full fuel depth O s i r s' :
  state_ok E F O s → full_labels (RetDag s) → pathsToImplLA E F fuel depth i s = Some (r, s') → full_labels (RetDag s').
Proof.
  revert O s i r s'. induction depth as [|depth IH]; intros O s i r s' Hok Hs HLA; [done|].
  destruct (lr_same _ _ _ _ _ _ _ (pathsToImplLA_ok E F _ _ _ _ _ _ _ Hok HLA)) as [->|[-> _]]; [done|].
  cbn [pathsToImplLA] in HLA. destruct (Cache s !! i) as [c|] eqn:Hc; [by injection HLA as _ <-|].
  unfold addNode in HLA. cbv zeta in HLA. rewrite (do_len _ _ (so_dag _ _ _ _ Hok)) in HLA.
  apply bind_Some in HLA as ([valid s1] & Hi & Hr). destruct valid.
  - injection Hr as <-. eapply invoke_full; [|exact IH|exact Hok|exact Hc|exact Hs|exact Hi].
    intros ?????. apply pathsToImplLA_ok.
  - destruct (decide _); [done|]. by destruct (pop _ _).
Qed.

(** * Roots *)

Lemma query_full fuel depth Inst Facts Fact s s' :
  graph_ok E F Inst Facts s → full_labels (RetDag s) → query E F fuel depth Inst Fact (Some s) = Some s' → full_labels (RetDag s').
Proof.
  intros Hgo Hs (i & Hi & ([r s1] & Hr & [= <-])%bind_Some)%bind_Some.
  assert (full_labels (RetDag s1)) as H1; [|by apply (full_labels_same (RetDag s1))].
  pose proof (go_ok _ _ _ _ _ Hgo) as Hok. pose proof (go_path _ _ _ _ _ Hgo) as Hp.
  unfold pathsToImpl, addNode in Hr. rewrite (do_len _ _ (so_dag _ _ _ _ Hok)) in Hr. cbv zeta in Hr.
  destruct (first_links E F _ s Inst Hok Hp) as (HL1 & _ & _).
  set (s2 := set_RetDag (push_node (size (RetDag s)) Inst (addNode (RetDag s) []).2) s) in *.
  apply bind_Some in Hr as (s3 & Hrun & [= <- <-]). apply full_labels_dedup.
  assert (full_labels (RetDag s2)) as Hs2.
  { intros v Hv. destruct (decide (v = size (RetDag s))) as [->|Hne]; [by rewrite (li_label _ _ _ _ _ _ _ HL1)|].
    assert (v < size (RetDag s)) as Hlt.
    { unfold s2, set_RetDag, push_node, size in *. simpl in *. rewrite length_app in Hv. simpl in Hv. lia. }
    rewrite (li_node _ _ _ _ _ _ _ HL1) by done. by apply Hs. }
  assert (∀ js s3, for_each js (link E F fuel depth (size (RetDag s))) (Some s2) = Some s3 →
    links_ok E F (Roots (RetDag s)) s Inst js s3 ∧ full_labels (RetDag s3)) as Hloop.
  { intros js. apply (for_each_ind (λ js o, ∀ s3, o = Some s3 → links_ok E F (Roots (RetDag s)) s Inst js s3 ∧ full_labels (RetDag s3))).
    - by intros s4 [= <-].
    - intros js' q o _ IH s4 Hl. destruct o as [s5|]; [|done]. destruct (IH s5 eq_refl) as [HL5 Hf5].
      split; [eapply (link_ok E F _ _ _ fuel depth js' q s5 s4 HL5 Hl)|].
      apply bind_Some in Hl as ([r s6] & HLA & Hr). assert (full_labels (RetDag s6)) as H6.
      { eapply pathsToImplLA_full; [apply HL5|exact Hf5|exact HLA]. }
      destruct r; injection Hr as <-; [by apply full_labels_addEdge|done]. }
  assert (for_each (ExplodedSuperGraph.neighbors E i ++ [i]) (link E F fuel depth (size (RetDag s))) (Some s2) = Some s3) as Hl
    by (rewrite for_each_app; exact Hrun).
  apply (Hloop _ _ Hl).
Qed.

Lemma paths_graph_full fuel depth Inst Facts G : paths_graph E F fuel depth Inst Facts = Some G → full_labels G.
Proof.
  intros (s & Hl & [= <-])%bind_Some. revert s Hl.
  assert (∀ s, for_each Facts (query E F fuel depth Inst) (Some initial_state) = Some s → graph_ok E F Inst Facts s ∧ full_labels (RetDag s))
    as Hall; [|naive_solver].
  apply (for_each_ind (λ Facts o, ∀ s, o = Some s → graph_ok E F Inst Facts s ∧ full_labels (RetDag s))).
  - intros s [= <-]. split; [apply initial_graph_ok|]. intros v Hv. unfold size in Hv. simpl in Hv. lia.
  - intros l Fact o _ IH s Hq. destruct o as [s1|]; [|done]. destruct (IH s1 eq_refl).
    split; [by eapply query_ok|by eapply query_full].
Qed.
End labels.

(** * The finished graph *)

Section shape.
Context {N U : Type} `{!EqDecision N} `{!IntEqClasses U} `{!IntEqClassesLaws U}.
Implicit Types (G Dag : AdjacencyList (list N) nat) (v w r : nat) (l : list N).

(** [Leaf] is the only vertex without successors. *)
Definition only_leaf G (Leaf : nat) : Prop :=
  Leaf < size G ∧ ∀ w, w < size G → outEdges G w = [] ↔ w = Leaf.

Lemma reversed_shape G r :
  graph_wf G → (∀ v, v < size G → v ∈ Roots G ∨ ∃ u, v ∈ outEdges G u) → (∀ r u, r ∈ Roots G → r ∉ outEdges G u) →
  Roots G = [r] → only_leaf (reverseGraph G) r ∧ (∀ v, node (reverseGraph G) v = node G v) ∧ size (reverseGraph G) = size G.
Proof.
  intros Hwf Hin Hroot HR. destruct (reverseGraph_spec G Hwf) as [HN HS _ _].
  split; [|split; [intros v; unfold node; by rewrite HN|done]]. unfold only_leaf. rewrite HS.
  assert (r ∈ Roots G) as Hr by (rewrite HR; by left). split; [by apply (gw_roots G Hwf)|]. intros w Hw. split.
  - intros Hnil. destruct (Hin w Hw) as [Hw'|[u Hu]]; [rewrite HR in Hw'; by apply list_elem_of_singleton in Hw'|].
    assert (u ∈ outEdges (reverseGraph G) w) as Hx by (apply Graph.elem_of_reverse; [done|]; split; [done|by exists u, w]).
    rewrite Hnil in Hx. by apply elem_of_nil in Hx.
  - intros ->. apply elem_of_nil_inv. intros e (_ & u & f & Hf & Ht & _)%Graph.elem_of_reverse; [|done].
    simpl in Ht. subst f. by apply (Hroot r u).
Qed.

(** Minimizing merges no other vertex with the leaf. *)
Lemma minimized_shape Config G r :
  graph_wf G → only_leaf G r → full_labels G →
  (∃ x, x ∈ Roots G ∧ rtc (edge_to G) x r) →
  ∃ k Dag Leaf, (∀ fuel, k ≤ fuel → (if MinimizeDAG Config then
        Equiv ← minimizeGraph (U:=U) fuel G; createEquivalentGraphFrom.create G Equiv fuel else Some G) = Some Dag)
    ∧ only_leaf Dag Leaf ∧ full_labels Dag ∧ node Dag Leaf = node G r.
Proof.
  intros Hwf [Hr Hleaf] Hfull (x & Hx & Hxr). destruct (MinimizeDAG Config); [|by exists 0, G, r].
  destruct (minimized_graph_spec (U:=U) G Hwf) as (k & u & G' & B & Hk & Hwf' & _ & HB & HB' & Hreach & HBr & Hfun & _).
  assert (∀ j, j < size G' → ∃ v, B v j ∧ v < size G) as Hrel.
  { intros j Hj. destruct (Hreach j Hj) as (r' & Hr' & Hrj). destruct (bi_roots _ _ _ HB' r' Hr') as (y & _ & Hyr).
    destruct (bisimulation_rtc _ _ _ _ _ _ HB' Hrj Hyr) as (v & _ & Hv). exists v. split; [done|].
    by apply reachable_lt, (HBr v j). }
  assert (∃ Leaf, B r Leaf ∧ Leaf < size G') as (Leaf & HL & HLlt).
  { destruct (bi_roots _ _ _ HB x Hx) as (x' & Hx' & Hxx). destruct (bisimulation_rtc _ _ _ _ _ _ HB Hxr Hxx) as (Leaf & Hp & HBL).
    exists Leaf. split; [done|]. by apply reachable_lt; [|exists x']. }
  exists k, G', Leaf. split_and!.
  - intros fuel Hf. destruct (Hk fuel Hf) as [-> Hc]. exact Hc.
  - split; [done|]. intros w Hw. destruct (Hrel w Hw) as (v & Hv & Hvlt). split.
    + intros Hnil. assert (v = r) as ->; [|by apply (Hfun r)]. apply Hleaf; [done|]. apply elem_of_nil_inv. intros e He.
      destruct (bi_edge _ _ _ HB v w e Hv He) as (e' & He' & _). rewrite Hnil in He'. by apply elem_of_nil in He'.
    + intros ->. apply elem_of_nil_inv. intros e He. destruct (bi_edge _ _ _ HB' Leaf r e HL He) as (e' & He' & _).
      rewrite (proj2 (Hleaf r Hr) eq_refl) in He'. by apply elem_of_nil in He'.
  - intros j Hj. destruct (Hrel j Hj) as (v & Hv & Hvlt). rewrite <-(bi_node _ _ _ HB v j Hv). by apply Hfull.
  - symmetry. apply (bi_node _ _ _ HB r Leaf HL).
Qed.

Lemma reversed_reach G r :
  graph_wf G → acyclic G → r < size G →
  ∃ x, x ∈ Roots (reverseGraph G) ∧ rtc (edge_to (reverseGraph G)) x r.
Proof.
  intros Hwf Hacc Hr. destruct (reverseGraph_spec G Hwf) as [_ _ _ HR].
  assert (∃ x, x < size G ∧ outEdges G x = [] ∧ rtc (edge_to (reverseGraph G)) x r) as (x & Hx & Hnil & Hxr).
  { induction (Hacc r) as [r _ IH]. destruct (outEdges G r) as [|w ws] eqn:Hw; [by exists r|].
    assert (w ∈ outEdges G r) as Hin by (rewrite Hw; by left). pose proof (gw_target G Hwf r w Hin : w < size G) as Hlt.
    destruct (IH w Hin Hlt) as (x & Hx & Hnil & Hxw). exists x. split_and!; [done..|].
    eapply rtc_r; [exact Hxw|]. exists r. split; [|done]. apply Graph.elem_of_reverse; [done|]. split; [done|by exists r, w]. }
  exists x. split; [|done]. rewrite HR. apply list_elem_of_filter. unfold outDegree, outEdges, vertices, size in *.
  rewrite elem_of_seq, length_zero_iff_nil. split; [done|lia].
Qed.

(** Turning around and minimizing the graph of a query for one fact. *)
Lemma finish_dag_shape Config G r :
  graph_wf G → acyclic G → (∀ v, v < size G → v ∈ Roots G ∨ ∃ u, v ∈ outEdges G u) →
  (∀ r u, r ∈ Roots G → r ∉ outEdges G u) → DAGDepthThreshold Config = SIZE_MAX →
  Roots G = [r] → full_labels G →
  ∃ k Dag Leaf, (∀ fuel, k ≤ fuel → finish_dag (U:=U) fuel Config G = Some Dag)
    ∧ graph_wf Dag ∧ acyclic Dag ∧ only_leaf Dag Leaf ∧ full_labels Dag ∧ node Dag Leaf = node G r
    ∧ ∀ l, reads Dag l ↔ spells G r l.
Proof.
  intros Hwf Hacc Hin Hroot Hmax HR Hfull.
  destruct (finish_dag_spec (U:=U) Config G Hwf Hacc Hin Hroot Hmax) as (k1 & Dag & Hk1 & Hwf' & Hacc' & Hreads).
  destruct (reversed_shape G r Hwf Hin Hroot HR) as (Hol & Hnode & HS).
  assert (r < size G) as Hr by (apply (gw_roots G Hwf); rewrite HR; by left).
  destruct (minimized_shape Config (reverseGraph G) r) as (k2 & Dag2 & Leaf & Hk2 & Hol2 & Hfull2 & HnL).
  { by apply reverse_wf. }
  { done. }
  { intros v. rewrite HS, Hnode. apply Hfull. }
  { by apply reversed_reach. }
  assert (Dag2 = Dag) as ->.
  { pose proof (Hk1 (k1 `max` k2) ltac:(lia)) as H1. pose proof (Hk2 (k1 `max` k2) ltac:(lia)) as H2.
    unfold finish_dag in H1. rewrite decide_False in H1 by (by intros []). cbn [mbind option_bind] in H1. congruence. }
  exists k1, Dag, Leaf. split_and!; try done; [by rewrite HnL, Hnode|]. intros l. rewrite Hreads, HR.
  split; [by intros (x & ->%list_elem_of_singleton & ?)|]. intros ?. exists r. split; [by left|done].
Qed.

Lemma path_rtc G v (tr : list (list N * unit)) w : path G v tr w → rtc (edge_to G) v w.
Proof. induction 1; [done|]. eapply rtc_l; [|done]. by eexists. Qed.
End shape.

Import GraphTraits Z3BasedPathSensitivityManagerBase.

(** * Constraints of statement sequences *)

Section holds.
Context {N V expr model solver : Type} `{!Inhabited N}.
Context `{!Z3 expr model solver} `{!Z3Laws expr model solver} `{!PathConstraints N V expr}.
Implicit Types (m : model) (l k : list N).

Definition step_holds m (a b : N) : Prop := ∀ C, getConstraintFromEdge (V:=V) a b = Some C → holds m C.

(** The constraints along a sequence of statements. *)
Fixpoint path_holds m l : Prop :=
  match l with
  | a :: (b :: _) as l => step_holds m a b ∧ path_holds m l
  | _ => True
  end.

Lemma path_holds_app m l a b k :
  path_holds m ((l ++ [a]) ++ b :: k) ↔ path_holds m (l ++ [a]) ∧ step_holds m a b ∧ path_holds m (b :: k).
Proof.
  induction l as [|x l IH]; [simpl; tauto|].
  destruct l as [|y l]; [simpl; tauto|]. simpl in IH |- *. rewrite IH. tauto.
Qed.

Lemma holds_add_constraint m a b X :
  holds m (add_constraint (getConstraintFromEdge (V:=V) a b) X) ↔ holds m X ∧ step_holds m a b.
Proof.
  unfold step_holds. destruct (getConstraintFromEdge a b) as [C|]; simpl.
  - rewrite holds_and. naive_solver.
  - naive_solver.
Qed.

Lemma holds_partial m l : holds m (partial_constraint (V:=V) l) ↔ path_holds m (rev l).
Proof.
  assert (∀ Is X, holds m (for_each Is (λ I, add_constraint (getConstraintFromEdge (V:=V) (l !!! I) (l !!! (I - 1)))) X)
    ↔ holds m X ∧ ∀ I, I ∈ Is → step_holds m (l !!! I) (l !!! (I - 1))) as Hall.
  { induction Is as [|I Is IH]; intros X; [split; [|tauto]; intros ?; split; [done|]; intros I []%elem_of_nil|].
    rewrite for_each_cons, IH, holds_add_constraint. setoid_rewrite elem_of_cons. naive_solver. }
  unfold partial_constraint. rewrite Hall, holds_bool_val. clear Hall.
  assert ((∀ I, I ∈ rev (seq 1 (length l - 1)) → step_holds m (l !!! I) (l !!! (I - 1)))
    ↔ ∀ i, S i < length l → step_holds m (l !!! S i) (l !!! i)) as ->.
  { split.
    - intros Hs i Hi. specialize (Hs (S i)). replace (S i - 1) with i in Hs by lia. apply Hs.
      apply list_elem_of_In. rewrite <-in_rev. apply list_elem_of_In, elem_of_seq. lia.
    - intros Hs I HI. apply list_elem_of_In in HI. rewrite <-in_rev in HI. apply list_elem_of_In, elem_of_seq in HI.
      destruct I as [|i]; [lia|]. replace (S i - 1) with i by lia. apply Hs. lia. }
  split; [intros [_ Hs]|intros Hs; split; [done|]].
  - induction l as [|a l IH]; [done|]. simpl. destruct l as [|b l]; [done|]. simpl. apply path_holds_app. split_and!.
    + apply IH. intros i Hi. apply (Hs (S i)). simpl in *. lia.
    + apply (Hs 0). simpl. lia.
    + done.
  - induction l as [|a l IH]; [intros i Hi; simpl in Hi; lia|]. simpl in Hs. destruct l as [|b l]; [intros i Hi; simpl in Hi; lia|].
    simpl in Hs. apply path_holds_app in Hs as (Hs & Hab & _). intros [|i] Hi; [done|]. apply IH; [done|]. simpl in *. lia.
Qed.
End holds.

(** * Removing by swapping *)

Section swap.
Context {A : Type}.
Implicit Types (l : list A) (x : A).

Lemma swap_remove_spec I l x :
  l !! I = Some x → take I (swap_remove I l) = take I l ∧ l ≡ₚ x :: swap_remove I l.
Proof.
  intros Hx. pose proof (lookup_lt_Some _ _ _ Hx) as Hlt. unfold swap_remove.
  destruct l as [|y l _] using rev_ind; [done|]. rewrite last_snoc. rewrite length_app in *. simpl in *.
  replace (length l + 1 - 1) with (length l) by lia. destruct (decide (I < length l)) as [Hi|Hi].
  - rewrite lookup_app_l in Hx by done. rewrite insert_app_l by done.
    rewrite take_app_le by (rewrite length_insert; lia). rewrite (take_ge (<[I:=y]> l)) by (rewrite length_insert; lia). split.
    + rewrite take_insert_ge by lia. by rewrite take_app_le by lia.
    + rewrite insert_take_drop by done. rewrite <-(take_drop_middle l I x Hx) at 1. rewrite <-app_assoc. simpl.
      rewrite <-Permutation_middle. constructor. f_equiv. symmetry. apply Permutation_cons_append.
  - assert (I = length l) as -> by lia. rewrite list_lookup_middle in Hx by done. injection Hx as <-.
    rewrite insert_app_r_alt by lia. rewrite !take_app_length, take_ge by lia. split; [done|].
    symmetry. apply Permutation_cons_append.
Qed.

Lemma swap_remove_length I l x : l !! I = Some x → S (length (swap_remove I l)) = length l.
Proof. intros (_ & Hp)%swap_remove_spec. by rewrite (Permutation_length Hp). Qed.

Lemma swap_remove_elem I l x y : l !! I = Some x → y ∈ swap_remove I l → y ∈ l.
Proof. intros (_ & Hp)%swap_remove_spec Hy. apply (elem_of_Permutation_proper y _ _ Hp). by right. Qed.

Lemma swap_remove_stays I l x y : l !! I = Some x → y ∈ l → y = x ∨ y ∈ swap_remove I l.
Proof. intros (_ & Hp)%swap_remove_spec Hy. apply elem_of_cons. by rewrite <-Hp. Qed.
End swap.

Lemma removeEdge_out {T} (G : AdjacencyList T nat) v I u :
  v < size G → outEdges (removeEdge G v I) u = if decide (v = u) then swap_remove I (outEdges G u) else outEdges G u.
Proof.
  intros Hv. unfold removeEdge, outEdges. simpl. by rewrite lookup_total_alter_cases.
Qed.

(** * Feasible vertices *)

Section filter.
Context {N V expr model solver : Type} `{!Inhabited N}.
Context `{!Z3 expr model solver} `{!Z3Laws expr model solver} `{!PathConstraints N V expr}.
Abbreviation graph := (AdjacencyList (list N) nat).
Abbreviation context := (FilterContext (N:=N) (expr:=expr) (solver:=solver)).
Implicit Types (m : model) (c : context) (v w : nat).
Context (G : graph) (Leaf : nat) (Sol : solver).
Context (Hwf : graph_wf G) (Hacyclic : acyclic G) (HLeaf : outEdges G Leaf = []).

(** What is assumed of all paths. *)
Definition allowed m : Prop := ∀ C, C ∈ assertions Sol → holds m C.

Definition within m v : Prop := path_holds m (rev (node G v)).
Definition across m v w : Prop :=
  step_holds m (default inhabitant (head (node G v))) (default inhabitant (last (node G w))).

(** The leaf can be reached from the vertex. *)
Inductive feasible m : nat → Prop :=
  | feasible_leaf : within m Leaf → feasible m Leaf
  | feasible_step v w : w ∈ outEdges G v → within m v → across m v w → feasible m w → feasible m v.

Lemma feasible_inv m v :
  feasible m v → within m v ∧ (v = Leaf ∨ ∃ w, w ∈ outEdges G v ∧ across m v w ∧ feasible m w).
Proof. destruct 1; naive_solver. Qed.

Definition constraint c v : expr := default (bool_val true) (NodeConstraints c !! v).

(** A vertex that was finished: what its constraint and its edges say. *)
Record finished c v : Prop := {
  fi_constraint m : allowed m → holds m (constraint c v) ↔ feasible m v;
  fi_closed w : w ∈ outEdges (RevDAG c) v → w ∈ Visited c;
  fi_alive w : decisive (expr:=expr) (model:=model) (solver:=solver) → w ∈ outEdges (RevDAG c) v →
    ∃ m, allowed m ∧ within m v ∧ across m v w ∧ feasible m w
}.

(** [O] are the vertices that are being visited. *)
Record context_ok (O : list nat) c : Prop := {
  co_nodes : Nodes (RevDAG c) = Nodes G;
  co_size : size (RevDAG c) = size G;
  co_len : length (NodeConstraints c) = size G;
  co_sub v w : w ∈ outEdges (RevDAG c) v → w ∈ outEdges G v;
  co_kept m v w : allowed m → w ∈ outEdges G v → within m v → across m v w → feasible m w → w ∈ outEdges (RevDAG c) v;
  co_assertions : assertions (Solver c) = assertions Sol;
  co_scopes : scopes (Solver c) = scopes Sol;
  co_done v : v ∈ Visited c → v ∈ O ∨ finished c v
}.

(** What a visit of [v] changes. *)
Record visited v c c' : Prop := {
  vi_visited : Visited c ⊆ Visited c';
  vi_self : v ∈ Visited c';
  vi_out u : ¬ rtc (edge_to G) v u → outEdges (RevDAG c') u = outEdges (RevDAG c) u;
  vi_roots : Roots (RevDAG c') = Roots (RevDAG c)
}.

Lemma co_node O c v : context_ok O c → node (RevDAG c) v = node G v.
Proof. intros Hc. unfold node. by rewrite (co_nodes O c Hc). Qed.

(** * One edge *)

Section edge.
Context (O : list nat) (v w I : nat) (c : context).
Context (Hc : context_ok (v :: O) c) (Hw : outEdges (RevDAG c) v !! I = Some w) (Hfin : finished c w).

Abbreviation X := (partial_constraint (V:=V) (node G v)).
Abbreviation Y := (edge_constraint (V:=V) (node G v) w c).
Abbreviation Asked := (add Y (add X (push (Solver c)))).

Lemma holds_edge m : allowed m → holds m Y ↔ across m v w ∧ feasible m w.
Proof using Hc Hfin.
  intros Hm. unfold edge_constraint. rewrite holds_add_constraint. rewrite (co_node _ _ _ Hc).
  change (default (bool_val true) (NodeConstraints c !! w)) with (constraint c w).
  rewrite (fi_constraint c w Hfin m Hm). unfold across. tauto.
Qed.

Lemma asked_assertions C : C ∈ assertions Asked ↔ C ∈ assertions Sol ∨ C = X ∨ C = Y.
Proof using Hc.
  rewrite !add_assertions, push_assertions, (co_assertions _ _ Hc), !elem_of_app, !list_elem_of_singleton. tauto.
Qed.

Lemma asked_pop :
  let s := Z3PathSensitivity.pop (check Asked).2 in assertions s = assertions Sol ∧ scopes s = scopes Sol.
Proof using Hc.
  cbv zeta. destruct (pop_spec (check Asked).2 (assertions Sol) (scopes Sol)) as [-> ->]; [|done].
  rewrite check_scopes, !add_scopes, push_scopes, (co_assertions _ _ Hc), (co_scopes _ _ Hc). done.
Qed.

Lemma refuted m :
  (check Asked).1 = unsat → allowed m → within m v → across m v w → feasible m w → False.
Proof using Hc Hfin.
  intros Hu Hm Hin Ha Hf. apply (check_unsat _ m Hu). intros C [HC|[->| ->]]%asked_assertions; [by apply Hm| |].
  - by apply holds_partial.
  - by apply holds_edge.
Qed.

Lemma not_refuted :
  decisive (expr:=expr) (model:=model) (solver:=solver) → (check Asked).1 ≠ unsat →
  ∃ m, allowed m ∧ within m v ∧ across m v w ∧ feasible m w.
Proof using Hc Hfin.
  intros Hd Hu. destruct ((check Asked).1) eqn:Hr; [done| |by destruct (Hd Asked)].
  exists (get_model (check Asked).2).
  assert (∀ C, C ∈ assertions Sol ∨ C = X ∨ C = Y → holds (get_model (check Asked).2) C) as Hall.
  { intros C HC%asked_assertions. by apply check_sat. }
  assert (allowed (get_model (check Asked).2)) as Hm by (intros C HC; apply Hall; tauto).
  split_and!; [done|apply holds_partial, Hall; tauto|..]; eapply holds_edge; try done; apply Hall; tauto.
Qed.
End edge.

(** * The edges of a vertex *)

Lemma finished_stays c c' v :
  constraint c' v = constraint c v → outEdges (RevDAG c') v = outEdges (RevDAG c) v → Visited c ⊆ Visited c' →
  finished c v → finished c' v.
Proof.
  intros HC HO HV [H1 H2 H3]. split.
  - intros m. rewrite HC. apply H1.
  - intros w. rewrite HO. intros Hw. by apply HV, H2.
  - intros w. rewrite HO. apply H3.
Qed.

Lemma no_way_back v w : w ∈ outEdges G v → ¬ rtc (edge_to G) w v.
Proof using Hacyclic.
  intros Hw Hb. apply (acyclic_no_circle G v Hacyclic). eapply tc_rtc_r; [|exact Hb]. apply tc_once. by exists w.
Qed.

Section loop.
Context (O : list nat) (v : nat) (c0 : context) (doF : nat → context → option context).
Context (Hv : v < size G) (HO : ∀ w, w ∈ outEdges G v → w ∉ v :: O).
Context (HF : ∀ w c, w ∈ outEdges G v → context_ok (v :: O) c →
  ∃ c', doF w c = Some c' ∧ context_ok (v :: O) c' ∧ visited w c c').

Record loop_ok (I : nat) (Ys : list expr) c : Prop := {
  lp_ok : context_ok (v :: O) c;
  lp_len : length Ys = I;
  lp_le : I ≤ length (outEdges (RevDAG c) v);
  lp_ys m : allowed m → (∃ Y, Y ∈ Ys ∧ holds m Y) ↔
    ∃ w, w ∈ take I (outEdges (RevDAG c) v) ∧ across m v w ∧ feasible m w;
  lp_closed w : w ∈ take I (outEdges (RevDAG c) v) → w ∈ Visited c;
  lp_alive w : decisive (expr:=expr) (model:=model) (solver:=solver) → w ∈ take I (outEdges (RevDAG c) v) →
    ∃ m, allowed m ∧ within m v ∧ across m v w ∧ feasible m w;
  lp_visited : visited v c0 c
}.

Lemma loop_visit I Ys c w :
  loop_ok I Ys c → outEdges (RevDAG c) v !! I = Some w →
  ∃ c', (if decide (w ∈ Visited c) then Some c else doF w c) = Some c' ∧ loop_ok I Ys c'
    ∧ outEdges (RevDAG c') v !! I = Some w ∧ finished c' w ∧ w ∈ Visited c'
    ∧ length (outEdges (RevDAG c') v) = length (outEdges (RevDAG c) v).
Proof using HF HO Hacyclic.
  intros Hl Hw. pose proof (lp_ok _ _ _ Hl) as Hc.
  assert (w ∈ outEdges G v) as Hin by (apply (co_sub _ _ Hc); by eapply list_elem_of_lookup_2).
  assert (∀ c, context_ok (v :: O) c → w ∈ Visited c → finished c w) as Hfin.
  { intros c' Hc' [?|?]%(co_done _ _ Hc'); [by destruct (HO w)|done]. }
  case_decide as Hd; [exists c; split_and!; by auto|].
  destruct (HF w c Hin Hc) as (c' & Heq & Hc' & Hvis). exists c'.
  assert (outEdges (RevDAG c') v = outEdges (RevDAG c) v) as Hout by (apply (vi_out _ _ _ Hvis), no_way_back; done).
  split_and!; [done| |by rewrite Hout|apply Hfin; [done|apply (vi_self _ _ _ Hvis)]|apply (vi_self _ _ _ Hvis)|by rewrite Hout].
  destruct Hl as [_ L2 L3 L4 L5 L6 [V1 V2 V3 V4]]. split; rewrite ?Hout; try done.
  - intros x Hx. by apply (vi_visited _ _ _ Hvis), L5.
  - split.
    + etrans; [exact V1|apply Hvis].
    + by apply (vi_visited _ _ _ Hvis).
    + intros u Hu. rewrite (vi_out _ _ _ Hvis); [by apply V3|]. intros Hwu. apply Hu. eapply rtc_l; [|exact Hwu]. by exists w.
    + by rewrite (vi_roots _ _ _ Hvis).
Qed.

(** The solver refuted the edge, or it did not. *)
Lemma loop_remove I Ys c w s :
  loop_ok I Ys c → outEdges (RevDAG c) v !! I = Some w →
  (∀ m, allowed m → within m v → across m v w → feasible m w → False) →
  assertions s = assertions Sol → scopes s = scopes Sol →
  loop_ok I Ys (Ctx (Visited c) (NodeConstraints c) s (removeEdge (RevDAG c) v I)).
Proof using Hv.
  intros [[C1 C2 C3 C4 C5 C6 C7 C8] L2 L3 L4 L5 L6 [V1 V2 V3 V4]] Hw Hno Hs1 Hs2.
  assert (∀ u, outEdges (removeEdge (RevDAG c) v I) u = if decide (v = u) then swap_remove I (outEdges (RevDAG c) u)
    else outEdges (RevDAG c) u) as Hout by (intros u; apply removeEdge_out; by rewrite C2).
  assert (outEdges (removeEdge (RevDAG c) v I) v = swap_remove I (outEdges (RevDAG c) v)) as Hv'
    by (rewrite Hout; by rewrite decide_True).
  destruct (swap_remove_spec I _ _ Hw) as [Htake _]. pose proof (swap_remove_length I _ _ Hw) as Hlen.
  pose proof (lookup_lt_Some _ _ _ Hw). split; cbn [Visited RevDAG]; rewrite ?Hv', ?Htake; try done; [|lia|].
  - split; cbn [Visited RevDAG NodeConstraints Solver]; try done.
    + unfold size, removeEdge in *. simpl. by rewrite length_alter.
    + intros u x. rewrite Hout. case_decide as Hd; [subst u; intros Hx; by apply C4, (swap_remove_elem I _ w)|apply C4].
    + intros m u x Hm Hx Hin Ha Hf. specialize (C5 m u x Hm Hx Hin Ha Hf). rewrite Hout. case_decide as Hd; [subst u|done].
      destruct (swap_remove_stays I _ w x Hw C5) as [->|?]; [by destruct (Hno m)|done].
    + intros u Hu. destruct (decide (u = v)) as [->|Hne]; [left; by left|]. destruct (C8 u Hu) as [?|Hf]; [by left|right].
      revert Hf. apply finished_stays; [done| |done]. cbn [RevDAG]. rewrite Hout. by rewrite decide_False.
  - split; try done. intros u Hu. cbn [RevDAG]. rewrite Hout. case_decide as Hd; [|by apply V3]. subst u. by destruct Hu.
Qed.

Lemma loop_keep I Ys c w s Y :
  loop_ok I Ys c → outEdges (RevDAG c) v !! I = Some w → w ∈ Visited c →
  (∀ m, allowed m → holds m Y ↔ across m v w ∧ feasible m w) →
  (decisive (expr:=expr) (model:=model) (solver:=solver) → ∃ m, allowed m ∧ within m v ∧ across m v w ∧ feasible m w) →
  assertions s = assertions Sol → scopes s = scopes Sol →
  loop_ok (I + 1) (Ys ++ [Y]) (Ctx (Visited c) (NodeConstraints c) s (RevDAG c)).
Proof.
  intros [[C1 C2 C3 C4 C5 C6 C7 C8] L2 L3 L4 L5 L6 [V1 V2 V3 V4]] Hw Hvis HY Halive Hs1 Hs2.
  pose proof (lookup_lt_Some _ _ _ Hw). replace (I + 1) with (S I) by lia.
  assert (∀ x, x ∈ take (S I) (outEdges (RevDAG c) v) ↔ x ∈ take I (outEdges (RevDAG c) v) ∨ x = w) as Htake.
  { intros x. rewrite (take_S_r _ _ _ Hw), elem_of_app, list_elem_of_singleton. done. }
  split; cbn [Visited RevDAG]; try done.
  - split; try done. intros u Hu. destruct (C8 u Hu) as [?|Hf]; [by left|right]. revert Hf. by apply finished_stays.
  - rewrite length_app. simpl. lia.
  - intros m Hm. setoid_rewrite elem_of_app. setoid_rewrite list_elem_of_singleton. setoid_rewrite Htake. split.
    + intros (Y' & [HY'| ->] & Hh); [destruct (proj1 (L4 m Hm)) as (x & ? & ? & ?); [by exists Y'|]; by eauto|].
      exists w. apply HY in Hh as []; auto.
    + intros (x & [Hx| ->] & Ha & Hf); [destruct (proj2 (L4 m Hm)) as (Y' & ? & ?); [by exists x|]; by eauto|].
      exists Y. split; [by right|]. by apply HY.
  - intros x [?| ->]%Htake; [by apply L5|done].
  - intros x Hd [?| ->]%Htake; [by apply L6|by apply Halive].
Qed.

Lemma filter_edges_spec fuel I Ys c :
  loop_ok I Ys c → length (outEdges (RevDAG c) v) - I ≤ fuel →
  ∃ Ys' c', filter_edges (V:=V) (model:=model) doF v (node G v) (partial_constraint (V:=V) (node G v)) fuel I Ys c = Some (Ys', c')
    ∧ loop_ok (length (outEdges (RevDAG c') v)) Ys' c'.
Proof using HF HO Hacyclic Hv.
  revert I Ys c. induction fuel as [|fuel IH]; intros I Ys c Hl Hf; cbn [filter_edges];
    destruct (outEdges (RevDAG c) v !! I) as [w|] eqn:Hw.
  1: { apply lookup_lt_Some in Hw. lia. }
  2: destruct (loop_visit I Ys c w Hl Hw) as (c1 & -> & Hl1 & Hw1 & Hfin & Hvis & Hlen); cbn [mbind option_bind];
     rewrite <-Hlen in Hf; clear Hlen Hl Hw c.
  1, 3: apply lookup_ge_None in Hw; pose proof (lp_le _ _ _ Hl); assert (I = length (outEdges (RevDAG c) v)) as -> by lia; by eauto.
  pose proof (lp_ok _ _ _ Hl1) as Hc1. destruct (asked_pop O v w c1 Hc1) as [Hs1 Hs2].
  pose proof (refuted O v w c1 Hc1 Hfin) as Href. pose proof (not_refuted O v w c1 Hc1 Hfin) as Hnot.
  destruct (check _) as [Res s]. cbn [fst snd] in *. pose proof (lookup_lt_Some _ _ _ Hw1).
  case_decide as Hr.
  - apply IH; [by eapply loop_remove; eauto|]. cbn [RevDAG]. rewrite removeEdge_out, decide_True by (rewrite ?(co_size _ _ Hc1); done).
    pose proof (swap_remove_length I _ _ Hw1). lia.
  - apply IH; [|cbn [RevDAG]; lia]. eapply loop_keep; eauto. intros m Hm. by apply (holds_edge O).
Qed.
End loop.

(** * A vertex *)

Lemma start_ok O v c :
  context_ok O c → v < size G →
  let c1 := Ctx ({[v]} ∪ Visited c) (NodeConstraints c) (Solver c) (RevDAG c) in
  loop_ok O v c1 0 [] c1.
Proof.
  intros [C1 C2 C3 C4 C5 C6 C7 C8] Hv c1. split; try done; try lia.
  - split; try done. intros u Hu. destruct (decide (u = v)) as [->|Hne]; [left; by left|].
    destruct (C8 u) as [?|Hf]; [set_solver|left; by right|right]. revert Hf. apply finished_stays; [done..|]. set_solver.
  - intros m _. split; [intros (Y & []%elem_of_nil & _)|intros (w & []%elem_of_nil & _)].
  - intros w []%elem_of_nil.
  - intros w _ []%elem_of_nil.
  - split; try done. set_solver.
Qed.

Lemma holds_disjunction m (Ys : list expr) X :
  holds m (for_each Ys (λ C Y, or_ Y C) X) ↔ holds m X ∨ ∃ Y, Y ∈ Ys ∧ holds m Y.
Proof.
  revert X. induction Ys as [|Y Ys IH]; intros X; [split; [tauto|]; intros [?|(Y & []%elem_of_nil & _)]; done|].
  rewrite for_each_cons, IH, holds_or. setoid_rewrite elem_of_cons. naive_solver.
Qed.

(** The vertex when its edges were tested. *)
Lemma finish_ok O v c0 c Ys C :
  loop_ok O v c0 (length (outEdges (RevDAG c) v)) Ys c → v < size G →
  (∀ m, allowed m → holds m C ↔ feasible m v) →
  context_ok O (set_NodeConstraint v C c).
Proof.
  intros [[C1 C2 C3 C4 C5 C6 C7 C8] L2 L3 L4 L5 L6 L7] Hv HC. rewrite firstn_all in *.
  split; cbn [set_NodeConstraint NodeConstraints RevDAG Solver Visited]; try done; [by rewrite length_insert|].
  intros u Hu. destruct (decide (u = v)) as [->|Hne].
  - right. split; cbn [RevDAG Visited set_NodeConstraint]; [|by auto..].
    intros m Hm. unfold constraint. cbn. rewrite list_lookup_insert_eq by lia. by apply HC.
  - destruct (C8 u Hu) as [[?|?]%elem_of_cons|Hf]; [done|by left|right]. revert Hf. apply finished_stays; [|done..].
    unfold constraint. cbn. by rewrite list_lookup_insert_ne.
Qed.

Lemma doFilter_spec v :
  v < size G →
  ∃ k, ∀ fuel, k ≤ fuel → ∀ O c, context_ok O c → (∀ u, u ∈ O → tc (edge_to G) u v) →
    ∃ c', doFilter (V:=V) (model:=model) Leaf fuel v c = Some c' ∧ context_ok O c' ∧ visited v c c'.
Proof using HLeaf Hacyclic Hwf.
  induction (Hacyclic v) as [v _ IH]. intros Hv.
  destruct (common_bound (λ w fuel, ∀ O c, context_ok O c → (∀ u, u ∈ O → tc (edge_to G) u w) →
    ∃ c', doFilter (V:=V) (model:=model) Leaf fuel w c = Some c' ∧ context_ok O c' ∧ visited w c c') (outEdges G v)) as [k Hk].
  { intros w Hw. apply (IH w Hw). by apply (gw_target G Hwf v w). }
  exists (S k). intros fuel Hf O c Hc HO. destruct fuel as [|fuel]; [lia|]. cbn [doFilter].
  pose proof (start_ok O v c Hc Hv) as Hstart. set (c1 := Ctx ({[v]} ∪ Visited c) _ _ _) in *. cbv zeta in Hstart.
  assert (∀ w, w ∈ outEdges G v → ∀ u, u ∈ v :: O → tc (edge_to G) u w) as Hbefore.
  { intros w Hw u [->|Hu]%elem_of_cons; [apply tc_once; by exists w|]. eapply tc_r; [by apply HO|by exists w]. }
  destruct (filter_edges_spec O v c1 (doFilter (V:=V) (model:=model) Leaf fuel) Hv) with
    (fuel := outDegree (RevDAG c1) v) (I := 0) (Ys := @nil expr) (c := c1) as (Ys & c2 & Heq & Hl); [..|done| |].
  { intros w Hw Hin. by apply (acyclic_no_circle G w Hacyclic), Hbefore. }
  { intros w c' Hw Hc'. apply Hk; [done|lia|done|by apply Hbefore]. }
  { unfold outDegree, outEdges. lia. }
  rewrite (co_node (v :: O)) by apply Hstart. rewrite Heq. cbn [mbind option_bind]. clear Heq.
  pose proof (lp_ok _ _ _ _ _ _ Hl) as Hc2.
  assert (∀ C, visited v c (set_NodeConstraint v C c2)) as Hvis.
  { intros C. destruct (lp_visited _ _ _ _ _ _ Hl) as [V1 V2 V3 V4]. split; try done. cbn [set_NodeConstraint Visited].
    etrans; [|exact V1]. subst c1. cbn. set_solver. }
  assert (∀ m, allowed m → feasible m v ↔ v = Leaf ∧ within m v ∨
    within m v ∧ ∃ w, w ∈ outEdges (RevDAG c2) v ∧ across m v w ∧ feasible m w) as Hfeas.
  { intros m Hm. split.
    - intros [Hin [->|(w & Hw & Ha & Hfw)]]%feasible_inv; [by left|right]. split; [done|]. exists w. split; [|done].
      by apply (co_kept _ _ Hc2 m).
    - intros [[-> ?]|(Hin & w & Hw & Ha & Hfw)]; [by constructor|]. eapply feasible_step; try done. by apply (co_sub _ _ Hc2). }
  case_decide as Hdeg.
  - eexists. split; [done|]. split; [|apply Hvis]. eapply finish_ok; [exact Hl|done|]. intros m Hm. rewrite Hfeas by done.
    apply length_zero_iff_nil in Hdeg. unfold outEdges. rewrite Hdeg. setoid_rewrite elem_of_nil. case_decide as HL.
    + rewrite holds_partial. unfold within. naive_solver.
    + rewrite holds_bool_val. naive_solver.
  - pose proof (lp_len _ _ _ _ _ _ Hl) as HY. destruct Ys as [|Y Ys]; [simpl in HY; unfold outDegree, outEdges in *; lia|].
    eexists. split; [done|]. split; [|apply Hvis]. eapply finish_ok; [exact Hl|done|]. intros m Hm. rewrite Hfeas by done.
    rewrite holds_simplify, holds_and, holds_partial, holds_disjunction.
    pose proof (lp_ys _ _ _ _ _ _ Hl m Hm) as Hys. rewrite firstn_all in Hys. rewrite <-Hys. setoid_rewrite elem_of_cons.
    assert (v ≠ Leaf) as HL.
    { intros ->. apply Hdeg. apply length_zero_iff_nil, elem_of_nil_inv. intros w Hw%(co_sub _ _ Hc2 Leaf). rewrite HLeaf in Hw.
      by apply elem_of_nil in Hw. }
    unfold within. naive_solver.
Qed.

(** * The roots *)

Record roots_ok (I : nat) (Ret : expr) c : Prop := {
  ro_ok : context_ok [] c;
  ro_le : I ≤ length (Roots (RevDAG c));
  ro_sub r : r ∈ Roots (RevDAG c) → r ∈ Roots G;
  ro_kept m r : allowed m → r ∈ Roots G → feasible m r → r ∈ Roots (RevDAG c);
  ro_ret m : allowed m → holds m Ret ↔ ∃ r, r ∈ take I (Roots (RevDAG c)) ∧ feasible m r;
  ro_visited r : r ∈ take I (Roots (RevDAG c)) → r ∈ Visited c;
  ro_alive r : decisive (expr:=expr) (model:=model) (solver:=solver) → r ∈ take I (Roots (RevDAG c)) →
    r = Leaf ∨ ∃ m, allowed m ∧ feasible m r
}.

Lemma done_finished c v : context_ok [] c → v ∈ Visited c → finished c v.
Proof. intros Hc [[]%elem_of_nil|?]%(co_done _ _ Hc); done. Qed.

Lemma roots_visit I Ret c c' r :
  roots_ok I Ret c → Roots (RevDAG c) !! I = Some r → context_ok [] c' → visited r c c' →
  let Ret' := or_ Ret (default (bool_val true) (NodeConstraints c' !! r)) in
  if decide (r ≠ Leaf ∧ outEdges (RevDAG c') r = [])
  then roots_ok I Ret' (Ctx (Visited c') (NodeConstraints c') (Solver c') (removeRoot (RevDAG c') I))
  else roots_ok (I + 1) Ret' c'.
Proof.
  intros [R1 R2 R3 R4 R5 R6 R7] Hr Hc' [V1 V2 V3 V4] Ret'. pose proof (lookup_lt_Some _ _ _ Hr) as Hlt.
  pose proof (done_finished c' r Hc' V2) as Hfin. pose proof Hc' as [C1 C2 C3 C4 C5 C6 C7 C8].
  assert (∀ m, allowed m → holds m Ret' ↔ (∃ x, x ∈ take I (Roots (RevDAG c)) ∧ feasible m x) ∨ feasible m r) as HRet'.
  { intros m Hm. unfold Ret'. rewrite holds_or, (R5 m Hm). by rewrite <-(fi_constraint _ _ Hfin m Hm). }
  case_decide as Hd.
  - destruct Hd as [HrL Hnil].
    assert (∀ m, allowed m → ¬ feasible m r) as Hno.
    { intros m Hm [Hin [?|(w & Hw & Ha & Hfw)]]%feasible_inv; [done|].
      pose proof (C5 m r w Hm Hw Hin Ha Hfw) as Hx. rewrite Hnil in Hx. by apply elem_of_nil in Hx. }
    destruct (swap_remove_spec I _ _ Hr) as [Htake _]. pose proof (swap_remove_length I _ _ Hr).
    split; cbn [RevDAG Visited removeRoot Roots]; rewrite ?V4, ?Htake; try done; [|lia|..].
    + split; try done. intros u Hu. right. by apply (finished_stays c'), done_finished.
    + intros x Hx. by apply R3, (swap_remove_elem I _ r).
    + intros m x Hm Hx Hf. destruct (swap_remove_stays I _ r x Hr (R4 m x Hm Hx Hf)) as [->|?]; [by destruct (Hno m)|done].
    + intros m Hm. rewrite HRet' by done. split; [|by left]. intros [?|?]; [done|by destruct (Hno m)].
    + intros x Hx. by apply V1, R6.
  - replace (I + 1) with (S I) by lia.
    assert (∀ x, x ∈ take (S I) (Roots (RevDAG c)) ↔ x ∈ take I (Roots (RevDAG c)) ∨ x = r) as Htake.
    { intros x. rewrite (take_S_r _ _ _ Hr), elem_of_app, list_elem_of_singleton. done. }
    split; rewrite ?V4; try done.
    + intros m Hm. rewrite HRet' by done. setoid_rewrite Htake. naive_solver.
    + intros x [?| ->]%Htake; [by apply V1, R6|done].
    + intros x Hdec [?| ->]%Htake; [by apply R7|]. destruct (decide (r = Leaf)) as [?|HL]; [by left|right].
      destruct (outEdges (RevDAG c') r) as [|w ws] eqn:Hw; [tauto|].
      destruct (fi_alive _ _ Hfin w Hdec) as (m & Hm & Hin & Ha & Hf); [rewrite Hw; by left|]. exists m. split; [done|].
      eapply feasible_step; try done. apply C4. rewrite Hw. by left.
Qed.

Lemma filter_roots_spec depth fuel I Ret c :
  (∀ r c, r ∈ Roots G → context_ok [] c →
    ∃ c', doFilter (V:=V) (model:=model) Leaf depth r c = Some c' ∧ context_ok [] c' ∧ visited r c c') →
  roots_ok I Ret c → length (Roots (RevDAG c)) - I ≤ fuel →
  ∃ Ret' c', filter_roots (V:=V) (model:=model) Leaf depth fuel I Ret c = Some (Ret', c')
    ∧ roots_ok (length (Roots (RevDAG c'))) Ret' c'.
Proof.
  intros HF. revert I Ret c. induction fuel as [|fuel IH]; intros I Ret c Hro Hf; cbn [filter_roots];
    destruct (Roots (RevDAG c) !! I) as [r|] eqn:Hr.
  1: { apply lookup_lt_Some in Hr. lia. }
  1, 3: apply lookup_ge_None in Hr; pose proof (ro_le _ _ _ Hro); assert (I = length (Roots (RevDAG c))) as -> by lia; by eauto.
  destruct (HF r c) as (c' & -> & Hc' & Hvis); [apply (ro_sub _ _ _ Hro); by eapply list_elem_of_lookup_2|apply Hro|].
  cbn [mbind option_bind]. pose proof (roots_visit I Ret c c' r Hro Hr Hc' Hvis) as Hnext. cbv zeta in Hnext.
  pose proof (lookup_lt_Some _ _ _ Hr). pose proof (vi_roots _ _ _ Hvis) as HR. case_decide.
  - apply IH; [done|]. cbn [RevDAG removeRoot Roots]. rewrite HR. pose proof (swap_remove_length I _ _ Hr). lia.
  - apply IH; [done|]. rewrite HR. lia.
Qed.

(** The whole traversal. *)
Lemma filter_all :
  scopes Sol = [] →
  ∃ k, ∀ fuel, k ≤ fuel → ∃ Ret c,
    filter_roots (V:=V) (model:=model) Leaf fuel (roots_size G) 0 (bool_val false) (Ctx ∅ (replicate (size G) (bool_val true)) Sol G)
    = Some (Ret, c) ∧ roots_ok (length (Roots (RevDAG c))) Ret c.
Proof using HLeaf Hacyclic Hwf.
  intros HS. destruct (common_bound (λ r fuel, ∀ c, context_ok [] c →
    ∃ c', doFilter (V:=V) (model:=model) Leaf fuel r c = Some c' ∧ context_ok [] c' ∧ visited r c c') (Roots G)) as [k Hk].
  { intros r Hr. destruct (doFilter_spec r) as [k Hk]; [by apply (gw_roots G Hwf)|]. exists k. intros fuel Hf c Hc.
    apply Hk; [done..|]. intros u []%elem_of_nil. }
  exists k. intros fuel Hf. apply filter_roots_spec; [intros r c Hr; by apply Hk|..|unfold roots_size; cbn [RevDAG]; lia].
  split; cbn [RevDAG Visited take]; try done; try lia.
  - split; cbn [RevDAG Visited NodeConstraints Solver]; try done. by rewrite length_replicate.
  - intros m _. rewrite holds_bool_val. split; [done|]. intros (r & []%elem_of_nil & _).
  - intros r []%elem_of_nil.
  - intros r _ []%elem_of_nil.
Qed.
End filter.

(** * Paths to the leaf *)

Section runs.
Context {N : Type}.
Implicit Types (G : AdjacencyList (list N) nat) (v w : nat) (l : list N).

(** The statements from a vertex to the leaf, in the order of execution. *)
Inductive run G (Leaf : nat) : nat → list N → Prop :=
  | run_leaf : run G Leaf Leaf (rev (node G Leaf))
  | run_step v w l : w ∈ outEdges G v → run G Leaf w l → run G Leaf v (rev (node G v) ++ l).

Definition labelled G : Prop := ∀ v, reachable G v → node G v ≠ [].

Lemma reachable_root G r : r ∈ Roots G → reachable G r.
Proof. intros Hr. by exists r. Qed.

Lemma reachable_step G v w : reachable G v → w ∈ outEdges G v → reachable G w.
Proof. intros (r & Hr & Hv) Hw. exists r. split; [done|]. eapply rtc_r; [done|]. by exists w. Qed.

Lemma run_front G Leaf v l : run G Leaf v l → ∃ l', l = rev (node G v) ++ l'.
Proof. destruct 1; [exists []; by rewrite app_nil_r|by eexists]. Qed.
End runs.

Section run_holds.
Context {N V expr model solver : Type} `{!Inhabited N}.
Context `{!Z3 expr model solver} `{!Z3Laws expr model solver} `{!PathConstraints N V expr}.
Implicit Types (G : AdjacencyList (list N) nat) (m : model) (v w : nat) (l : list N).

Lemma path_holds_glue G m Leaf v w l :
  node G v ≠ [] → node G w ≠ [] → run G Leaf w l →
  path_holds m (rev (node G v) ++ l) ↔ within G m v ∧ across G m v w ∧ path_holds m l.
Proof.
  intros Hv Hw [l' ->]%run_front. unfold within, across.
  destruct (node G v) as [|a p]; [done|]. destruct (node G w) as [|b q _] using rev_ind; [done|].
  rewrite rev_unit, last_snoc. simpl. apply path_holds_app.
Qed.

Lemma feasible_run G Leaf m v :
  labelled G → reachable G v → feasible G Leaf m v ↔ ∃ l, run G Leaf v l ∧ path_holds m l.
Proof.
  intros HL. split.
  - intros Hf. revert H. induction Hf as [Hin|v w Hw Hin Ha _ IH]; intros Hv; [eexists; split; [constructor|done]|].
    destruct IH as (l & Hl & Hh); [by eapply reachable_step|]. exists (rev (node G v) ++ l). split; [by econstructor|].
    eapply path_holds_glue; try done; apply HL; [done|by eapply reachable_step].
  - intros (l & Hl & Hh). revert H. induction Hl as [|v w l Hw Hl IH]; intros Hv; [by constructor|].
    assert (reachable G w) as Hrw by by eapply reachable_step.
    eapply path_holds_glue in Hh as (Hin & Ha & Hh); [|by apply HL..|done]. eapply feasible_step; try done. by apply IH.
Qed.

(** * [filterOutUnreachableNodes] *)

(** The models of the constraint of the configuration. *)
Definition permitted (Config : Z3BasedPathSensitivityConfig expr) m : Prop :=
  ∀ C, AdditionalConstraint Config = Some C → holds m C.

Definition subgraph G' G : Prop :=
  Nodes G' = Nodes G ∧ size G' = size G ∧ (∀ v w, w ∈ outEdges G' v → w ∈ outEdges G v) ∧ (∀ r, r ∈ Roots G' → r ∈ Roots G).

Lemma subgraph_run G' G Leaf v l : subgraph G' G → run G' Leaf v l → run G Leaf v l.
Proof.
  intros (HN & _ & Hsub & _). assert (∀ u, node G' u = node G u) as Hn by (intros u; unfold node; by rewrite HN).
  induction 1; rewrite Hn; [constructor|]. eapply run_step; [by apply Hsub|done].
Qed.

Lemma subgraph_reachable G' G v : subgraph G' G → reachable G' v → reachable G v.
Proof.
  intros (_ & _ & Hsub & HR) (r & Hr & Hv). exists r. split; [by apply HR|]. revert Hv. apply rtc_subrel.
  intros x y (e & He & <-). exists e. split; [by apply Hsub|done].
Qed.

Lemma filterOutUnreachableNodes_spec G Leaf Config :
  graph_wf G → acyclic G → outEdges G Leaf = [] → labelled G →
  ∃ k, ∀ fuel, k ≤ fuel → ∃ Ret G',
    filterOutUnreachableNodes (V:=V) (model:=model) (solver:=solver) fuel G Leaf Config = Some (Ret, G')
    ∧ subgraph G' G
    ∧ (∀ m, permitted Config m → holds m Ret ↔ ∃ r l, r ∈ Roots G ∧ run G Leaf r l ∧ path_holds m l)
    ∧ (∀ m r l, permitted Config m → r ∈ Roots G → run G Leaf r l → path_holds m l → r ∈ Roots G' ∧ run G' Leaf r l)
    ∧ (decisive (expr:=expr) (model:=model) (solver:=solver) →
        ∀ v, reachable G' v → v = Leaf ∨ ∃ m l, permitted Config m ∧ run G' Leaf v l ∧ path_holds m l).
Proof.
  intros Hwf Hacc HLeaf HL.
  set (Sol := match AdditionalConstraint Config with Some C => add C new_solver | None => new_solver end : solver).
  assert (scopes Sol = []) as HS by (subst Sol; case_match; by rewrite ?add_scopes, new_scopes).
  assert (∀ m, allowed Sol m ↔ permitted Config m) as Hperm.
  { intros m. subst Sol. unfold allowed, permitted. destruct (AdditionalConstraint Config) as [C|].
    - rewrite add_assertions, new_assertions. setoid_rewrite list_elem_of_singleton. naive_solver.
    - rewrite new_assertions. setoid_rewrite elem_of_nil. naive_solver. }
  destruct (filter_all (V:=V) (model:=model) G Leaf Sol Hwf Hacc HLeaf HS) as [k Hk]. exists k. intros fuel Hf.
  destruct (Hk fuel Hf) as (Ret & c & Heq & [Hc _ HRs HRk HRet HRv HRa]). clear Hk. rewrite firstn_all in *.
  exists (simplify Ret), (RevDAG c). unfold filterOutUnreachableNodes. fold Sol. rewrite Heq. cbn [mbind option_bind].
  assert (subgraph (RevDAG c) G) as Hsub by (split_and!; [apply Hc|apply Hc|apply (co_sub _ _ _ _ _ Hc)|done]).
  assert (∀ m v l, permitted Config m → reachable G v → run G Leaf v l → path_holds m l → run (RevDAG c) Leaf v l) as Hkeep.
  { intros m v l Hm Hv Hl Hh. induction Hl as [|v w l Hw Hl IH].
    - rewrite <-(co_node _ _ _ _ _ Leaf Hc). constructor.
    - assert (reachable G w) as Hrw by by eapply reachable_step.
      pose proof Hh as (Hin & Ha & Hh')%(path_holds_glue G m Leaf v w l); [|by apply HL..|done].
      rewrite <-(co_node _ _ _ _ _ v Hc). eapply run_step; [|by apply IH].
      apply (co_kept _ _ _ _ _ Hc m); [by apply Hperm|done..|]. apply feasible_run; [done..|]. by exists l. }
  split_and!; [done|done|..].
  - intros m Hm. rewrite holds_simplify, HRet by by apply Hperm. split.
    + intros (r & Hr & Hfr). pose proof (HRs r Hr) as Hr'. apply feasible_run in Hfr as (l & ? & ?); [by exists r, l|done|].
      by apply reachable_root.
    + intros (r & l & Hr & Hl & Hh). assert (feasible G Leaf m r) as Hfr.
      { apply feasible_run; [done|by apply reachable_root|by exists l]. }
      exists r. split; [|done]. apply (HRk m); [by apply Hperm|done..].
  - intros m r l Hm Hr Hl Hh. split.
    + apply (HRk m); [by apply Hperm|done|]. apply feasible_run; [done|by apply reachable_root|by exists l].
    + eapply Hkeep; eauto using reachable_root.
  - intros Hd v Hv.
    assert (v = Leaf ∨ ∃ m, allowed Sol m ∧ feasible G Leaf m v) as [?|(m & Hm & Hfv)]; [|by left|right].
    + assert (v ∈ Visited c ∧ (v = Leaf ∨ ∃ m, allowed Sol m ∧ feasible G Leaf m v)) as [_ ?]; [|done].
      destruct Hv as (r & Hr & Hv). apply rtc_inv_r in Hv as [->|(u & Hu & (e & He & <-))]; [split; [by apply HRv|by apply HRa]|].
      assert (u ∈ Visited c) as Hvis.
      { clear He. apply HRv in Hr. induction Hu as [u|x y z (f & Hfe & <-) _ IH]; [done|].
        apply IH. by apply (fi_closed _ _ _ _ _ (done_finished _ _ _ _ x Hc Hr)). }
      pose proof (done_finished _ _ _ _ u Hc Hvis) as Hfin. split; [by apply (fi_closed _ _ _ _ _ Hfin)|right].
      destruct (fi_alive _ _ _ _ _ Hfin e Hd He) as (m & ? & _ & _ & ?). by exists m.
    + apply Hperm in Hm. pose proof (subgraph_reachable _ _ _ Hsub Hv) as Hv'.
      apply feasible_run in Hfv as (l & Hl & Hh); [|done..]. exists m, l. split_and!; [done|by eapply Hkeep|done].
Qed.
End run_holds.
