(* ===== verification/Z3FlattenCorrect.v ===== *)
(** What [filterAndFlattenRevDag] reports: the paths to the leaf whose calls and
    returns match and whose constraints the solver does not refute. *)
From S2P Require Import Prelude Graph EquivalentGraph PathSensitivity PathSensitivityCorrect PathsFinish.
From S2P Require Import Z3PathSensitivity Z3FilterCorrect.
From stdpp Require Import relations sorting.
Import GraphTraits Z3BasedPathSensitivityManagerBase.

(** * Calls and returns *)

Section calls.
Context {N : Type} `{!EqDecision N} `{!Inhabited N} `{!LLVMInstruction N}.
Implicit Types (a b c : N) (l k : list N) (st : list N).
Import CallStackPathFilter.

Definition isa_exit a : bool := isa_ReturnInst a || isa_ResumeInst a.

(** The open calls after the step from [a] to [b]; [None] for a return to another
    place than behind the last open call. *)
Definition advance a b st : option (list N) :=
  if isa_CallBase a && negb (isDirectSuccessorOf b a) then Some (a :: st)
  else if isa_exit a then
    match st with
    | c :: st => if isDirectSuccessorOf b c then Some st else None
    | [] => Some []
    end
  else Some st.

Fixpoint stack_run st l : option (list N) :=
  match l with
  | a :: (b :: _) as l => st ← advance a b st; stack_run st l
  | _ => Some st
  end.

(** The test of the last statement. *)
Definition final_ok (FinalInst a : N) st : bool :=
  if isa_exit a then match st with c :: _ => isDirectSuccessorOf FinalInst c | [] => true end else true.

(** The calls and returns of a path match. *)
Definition accepted (FinalInst : N) l : Prop :=
  ∃ st a, stack_run [] l = Some st ∧ last l = Some a ∧ final_ok FinalInst a st = true.

Lemma stack_run_snoc st l a b : stack_run st ((l ++ [a]) ++ [b]) = st ← stack_run st (l ++ [a]); advance a b st.
Proof.
  revert st. induction l as [|x l IH]; intros st; [simpl; by destruct (advance a b st)|].
  destruct l as [|y l]; simpl in IH |- *; destruct (advance x _ st); simpl; auto.
Qed.

Lemma stack_run_prefix st l k : is_Some (stack_run st (l ++ k)) → is_Some (stack_run st l).
Proof.
  induction k as [|b k IH] using rev_ind; [by rewrite app_nil_r|]. rewrite app_assoc. intros Hs. apply IH.
  destruct (l ++ k) as [|a lk _] eqn:Heq using rev_ind; [by eexists|]. rewrite stack_run_snoc in Hs.
  destruct (stack_run st (lk ++ [a])); [by eexists|]. by destruct Hs.
Qed.

(** * The filter that keeps the open calls *)

(** [TOS] is the top of the list of open calls. *)
Fixpoint chain (Owner : list (CallStackNode N)) (Top : option nat) st : Prop :=
  match st with
  | [] => Top = None
  | c :: st => ∃ i, Top = Some i ∧ i < length Owner ∧ CS (Owner !!! i) = c ∧ chain Owner (CallStackPathFilter.Prev (Owner !!! i)) st
  end.

Lemma chain_grows Owner ext Top st : chain Owner Top st → chain (Owner ++ ext) Top st.
Proof.
  revert Top. induction st as [|c st IH]; intros Top; [done|]. intros (i & -> & Hi & Hc & Hst). exists i.
  rewrite lookup_total_app_l, length_app by done. split_and!; [done|lia|done|by apply IH].
Qed.

(** The filter after the statements [l]. *)
Definition calls_ok l (f : t N) : Prop :=
  if Valid f then ∃ st, stack_run [] l = Some st ∧ chain (CallStackOwner f) (TOS f) st else stack_run [] l = None.

(** The filter inside a visit that began with [f0]. *)
Record calls_inside (f0 f : t N) : Prop := {
  ci_safe : CallStackSafe f = (length (CallStackOwner f0), TOS f0) :: CallStackSafe f0;
  ci_owner : ∃ ext, CallStackOwner f = CallStackOwner f0 ++ ext
}.

Lemma saveState_inside f : calls_inside f (saveState f).
Proof. split; [done|]. exists []. by rewrite app_nil_r. Qed.

Lemma restoreState_inside f0 f : Valid f0 = true → calls_inside f0 f → restoreState f = f0.
Proof.
  intros HV [Hs [ext Ho]]. unfold restoreState. rewrite Hs, Ho, take_app_length. destruct f0. simpl in *. by subst.
Qed.

Lemma saveEdge_calls l a b f0 f :
  calls_ok (l ++ [a]) f → calls_inside f0 f →
  calls_ok ((l ++ [a]) ++ [b]) (saveEdge a b f) ∧ calls_inside f0 (saveEdge a b f).
Proof.
  intros Hok [Hs [ext Ho]]. unfold calls_ok in *. rewrite stack_run_snoc. unfold saveEdge.
  destruct (Valid f) eqn:HV; simpl; [|rewrite HV, Hok; split; [done|by split; [|exists ext]]].
  destruct Hok as (st & -> & Hch). simpl. unfold advance. destruct (isa_CallBase a && negb (isDirectSuccessorOf b a)).
  - simpl. rewrite HV. split.
    + eexists. split; [done|]. exists (length (CallStackOwner f)). rewrite length_app. simpl.
      rewrite list_lookup_total_middle by done. split_and!; [done|lia|done|]. by apply chain_grows.
    + split; [done|]. simpl. rewrite Ho. eexists. by rewrite <-app_assoc.
  - change (isa_exit a) with (isa_ReturnInst a || isa_ResumeInst a).
    destruct (isa_ReturnInst a || isa_ResumeInst a); [|rewrite HV; split; [by exists st|by split; [|exists ext]]].
    unfold popCS. destruct st as [|c st]; simpl in Hch.
    + rewrite Hch. simpl. rewrite HV. split; [by exists []|by split; [|exists ext]].
    + destruct Hch as (i & -> & Hi & <- & Hst). simpl. destruct (isDirectSuccessorOf b _); simpl; rewrite ?HV.
      * split; [by exists st|by split; [|exists ext]].
      * split; [done|by split; [|exists ext]].
Qed.

Lemma saveFinalEdge_calls FinalInst l a f0 f :
  calls_ok (l ++ [a]) f → calls_inside f0 f →
  ((saveFinalEdge a FinalInst f).1 = true ↔ accepted FinalInst (l ++ [a])) ∧ calls_inside f0 (saveFinalEdge a FinalInst f).2.
Proof.
  intros Hok [Hs [ext Ho]]. unfold calls_ok, accepted, saveFinalEdge in *. rewrite last_snoc.
  assert (calls_inside f0 f) as Hin by by split; [|exists ext]. destruct (Valid f) eqn:HV; simpl.
  2: { split; [|done]. rewrite Hok. split; [done|]. by intros (? & ? & ? & _). }
  destruct Hok as (st & -> & Hch). unfold final_ok, isa_exit, popCS.
  assert (∀ P : N → list N → Prop, (∃ st' a', Some st = Some st' ∧ Some a = Some a' ∧ P a' st') ↔ P a st) as HP.
  { intros P. split; [by intros (? & ? & [= ->] & [= ->] & ?)|]. intros ?. by exists st, a. }
  rewrite (HP (λ a' st', (if isa_ReturnInst a' || isa_ResumeInst a' then
    match st' with c :: _ => isDirectSuccessorOf FinalInst c | [] => true end else true) = true)). clear HP.
  destruct (isa_ReturnInst a || isa_ResumeInst a); [|done]. destruct st as [|c st]; simpl in Hch.
  - rewrite Hch. done.
  - destruct Hch as (i & -> & Hi & <- & Hst). simpl. split; [done|by split; [|exists ext]].
Qed.
End calls.

(** * The filter that asks the solver *)

Section constraints.
Context {N V expr model solver : Type} `{!Inhabited N} `{!EqDecision V} `{!Address V}.
Context `{!Z3 expr model solver} `{!Z3Laws expr model solver} `{!PathConstraints N V expr}.
Implicit Types (a b : N) (l : list N) (m : model) (A : expr).
Import ConstraintPathFilter.
Abbreviation filter := (ConstraintPathFilter.t V model solver).

(** The solver after the statements [l], given [A]. *)
Definition solver_ok A l (s : solver) : Prop := ∀ m, (∀ C, C ∈ assertions s → holds m C) ↔ holds m A ∧ path_holds m l.

Lemma solver_ok_same A l (s s' : solver) : assertions s' = assertions s → solver_ok A l s → solver_ok A l s'.
Proof. unfold solver_ok. by intros ->. Qed.

Lemma path_holds_snoc m l a b : path_holds m ((l ++ [a]) ++ [b]) ↔ path_holds m (l ++ [a]) ∧ step_holds m a b.
Proof. rewrite path_holds_app. simpl. tauto. Qed.

Lemma path_holds_prefix m l k : path_holds m (l ++ k) → path_holds m l.
Proof.
  induction k as [|b k IH] using rev_ind; [by rewrite app_nil_r|]. rewrite app_assoc. intros Hs. apply IH.
  destruct (l ++ k) as [|a lk _] using rev_ind; [done|]. by apply path_holds_snoc in Hs as [].
Qed.

Lemma saveEdge_solver A l a b (f : filter) :
  solver_ok A (l ++ [a]) (Solver f) → solver_ok A ((l ++ [a]) ++ [b]) (Solver (saveEdge a b f)).
Proof.
  intros Hok m. rewrite path_holds_snoc. specialize (Hok m). unfold step_holds, getConstraintFromEdge, saveEdge.
  destruct (getConstraintAndVariablesFromEdge a b) as [[C Vs]|]; simpl.
  - rewrite add_assertions. setoid_rewrite elem_of_app. setoid_rewrite list_elem_of_singleton. naive_solver.
  - naive_solver.
Qed.

Lemma saveEdge_scopes a b (f : filter) : scopes (Solver (saveEdge a b f)) = scopes (Solver f).
Proof. unfold saveEdge. destruct (getConstraintAndVariablesFromEdge a b) as [[C Vs]|]; [|done]. simpl. apply add_scopes. Qed.

Lemma isValid_solver (f : filter) :
  assertions (Solver (isValid f).2) = assertions (Solver f) ∧ scopes (Solver (isValid f).2) = scopes (Solver f).
Proof.
  unfold isValid, checkLocalAtomsOverlap. destruct (_ && _); [done|].
  destruct (NeedSolverInvocation f); simpl; [|destruct (bool_decide _); simpl; [done|]];
    destruct (check _) as [Res s] eqn:Hc; simpl; split;
    rewrite <- ?(check_assertions (Solver f)), <- ?(check_scopes (Solver f)), Hc; done.
Qed.

(** The filter only rejects what the solver refutes. *)
Lemma isValid_rejects (f : filter) m : (isValid f).1 = false → ¬ ∀ C, C ∈ assertions (Solver f) → holds m C.
Proof.
  unfold isValid, checkLocalAtomsOverlap. destruct (_ && _); [done|].
  destruct (NeedSolverInvocation f); simpl; [|destruct (bool_decide _); simpl; [done|]];
    destruct (check _) as [Res s] eqn:Hc; simpl; intros Hr%bool_decide_eq_false; apply check_unsat; rewrite Hc; simpl;
    by apply dec_stable.
Qed.

(** At the end of a path the solver is asked in any case. *)
Lemma saveFinalEdge_solver A l a FinalInst (f : filter) :
  solver_ok A (l ++ [a]) (Solver f) →
  let '(Ret, f') := saveFinalEdge a FinalInst f in
  solver_ok A ((l ++ [a]) ++ [FinalInst]) (Solver f') ∧ scopes (Solver f') = scopes (Solver f)
  ∧ (Ret = false → ∀ m, ¬ (holds m A ∧ path_holds m ((l ++ [a]) ++ [FinalInst])))
  ∧ (Ret = true → ∃ M, getModel f' = Some M
      ∧ (decisive (expr:=expr) (model:=model) (solver:=solver) → holds M A ∧ path_holds M ((l ++ [a]) ++ [FinalInst]))).
Proof.
  intros Hok%(saveEdge_solver _ _ _ FinalInst). unfold saveFinalEdge, isValid, checkLocalAtomsOverlap, getModel. simpl.
  rewrite andb_false_r. simpl. set (s := Solver (saveEdge a FinalInst f)) in *.
  pose proof (saveEdge_scopes a FinalInst f : scopes s = _) as Hsc.
  pose proof (check_assertions s) as Ha. pose proof (check_scopes s) as Hs.
  pose proof (λ m, check_unsat s m) as Hun. pose proof (λ C, check_sat s C) as Hsat.
  assert (decisive (expr:=expr) (model:=model) (solver:=solver) → (check s).1 ≠ unknown) as Hdec by (intros Hd; apply Hd).
  destruct (check s) as [Res s']; simpl in *. split_and!.
  - intros m. rewrite Ha. apply Hok.
  - by rewrite Hs.
  - intros Hr%bool_decide_eq_false m Hm. apply (Hun m); [by apply dec_stable|]. by apply Hok.
  - intros Hr. rewrite Hr. apply bool_decide_eq_true in Hr. eexists. split; [done|]. intros Hd. apply Hok. intros C HC.
    apply Hsat; [|done]. specialize (Hdec Hd). by destruct Res.
Qed.

Lemma getPathConstraints_holds (f : filter) m :
  holds m (getPathConstraints f) ↔ ∀ C, C ∈ assertions (Solver f) → holds m C.
Proof.
  unfold getPathConstraints. destruct (assertions (Solver f)) as [|C Cs].
  - rewrite holds_bool_val. setoid_rewrite elem_of_nil. naive_solver.
  - rewrite holds_simplify. revert C. induction Cs as [|C' Cs IH]; intros C; [setoid_rewrite list_elem_of_singleton; naive_solver|].
    rewrite for_each_cons, IH. setoid_rewrite elem_of_cons. setoid_rewrite elem_of_cons. split.
    + intros Hall. assert (holds m C ∧ holds m C') as [? ?] by (apply holds_and, Hall; by left). intros C'' [->|[->|HC]]; auto.
    + intros Hall C'' [->|HC]; [apply holds_and|]; auto.
Qed.
End constraints.

(** * The traversal *)

Section flatten.
Context {N V expr model solver : Type} `{!EqDecision N} `{!Inhabited N} `{!EqDecision V} `{!Address V}.
Context `{!LLVMInstruction N} `{!Z3 expr model solver} `{!Z3Laws expr model solver} `{!PathConstraints N V expr}.
Context (A : expr) (FinalInst : N) (Max : Z).
Abbreviation state := (FlattenState (N:=N) (V:=V) (expr:=expr) (model:=model) (solver:=solver)).
Abbreviation flow_path := (FlowPath N expr model).
Implicit Types (s : state) (G : AdjacencyList (list N) nat) (v w : nat) (pre l q : list N) (m : model).

Definition satisfies m q : Prop := holds m A ∧ path_holds m (q ++ [FinalInst]).

(** What a reported path says about itself. *)
Definition faithful (p : flow_path) : Prop :=
  (∀ m, holds m (Constraint p) ↔ satisfies m (Path p))
  ∧ (decisive (expr:=expr) (model:=model) (solver:=solver) → satisfies (Model p) (Path p)).

(** Of the paths [P], those are reported that pass the filters. *)
Definition reports (P : list N → Prop) s s' : Prop := ∃ new,
  Ret s' = Ret s ++ new ∧ CompletedCtr s' = (CompletedCtr s + Z.of_nat (length new))%Z
  ∧ (∀ p, p ∈ new → P (Path p) ∧ accepted FinalInst (Path p) ∧ faithful p)
  ∧ (∀ q m, P q → accepted FinalInst q → satisfies m q → (CompletedCtr s' < Max)%Z → ∃ p, p ∈ new ∧ Path p = q).

(** Nothing is reported, for a reason. *)
Lemma reports_none (P : list N → Prop) s s' :
  Ret s' = Ret s → CompletedCtr s' = CompletedCtr s →
  (∀ q m, P q → accepted FinalInst q → satisfies m q → (CompletedCtr s' < Max)%Z → False) → reports P s s'.
Proof.
  intros HR HC Hno. exists []. rewrite app_nil_r, HR, HC. split_and!; [done|simpl; lia|by intros p ?%elem_of_nil|].
  intros q m HP Ha Hm Hlt. destruct (Hno q m HP Ha Hm). by rewrite HC.
Qed.

Lemma reports_trans (P Q R : list N → Prop) s1 s2 s3 :
  reports P s1 s2 → reports Q s2 s3 → (∀ q, R q ↔ P q ∨ Q q) → reports R s1 s3.
Proof.
  intros (n1 & HR1 & HC1 & Hs1 & Hc1) (n2 & HR2 & HC2 & Hs2 & Hc2) HPQ. exists (n1 ++ n2).
  rewrite HR2, HR1, HC2, HC1, length_app, app_assoc. split_and!; [done|lia|..].
  - intros p [Hp|Hp]%elem_of_app; [apply Hs1 in Hp as (? & ? & ?)|apply Hs2 in Hp as (? & ? & ?)]; rewrite HPQ; tauto.
  - intros q m [HP|HQ]%HPQ Ha Hm Hlt; [destruct (Hc1 q m) as (p & ? & ?)|destruct (Hc2 q m) as (p & ? & ?)]; try done; try lia;
      exists p; rewrite elem_of_app; tauto.
Qed.

Lemma reports_iff (P Q : list N → Prop) s1 s1' s2 s2' :
  (∀ q, Q q ↔ P q) → Ret s1' = Ret s1 → CompletedCtr s1' = CompletedCtr s1 → Ret s2' = Ret s2 → CompletedCtr s2' = CompletedCtr s2 →
  reports P s1 s2 → reports Q s1' s2'.
Proof.
  intros HPQ HR1 HC1 HR2 HC2 (new & H1 & H2 & H3 & H4). exists new. rewrite HR1, HC1, HR2, HC2. split_and!; [done..| |].
  - intros p. rewrite HPQ. apply H3.
  - intros q m. rewrite HPQ. apply H4.
Qed.

(** The state when a vertex is visited after the statements [pre], and inside the
    visit, which began with the filters [f0]. *)
Record entry_ok pre s : Prop := {
  en_path : CurrPath s = pre;
  en_prev : Prev s = last pre;
  en_valid : CallStackPathFilter.Valid (Filters s).1 = true;
  en_calls : calls_ok pre (Filters s).1;
  en_solver : solver_ok A pre (ConstraintPathFilter.Solver (Filters s).2)
}.

Record visit_ok (f0 : PathFilterList.t N V model solver) pre s : Prop := {
  vo_path : CurrPath s = pre;
  vo_prev : Prev s = last pre;
  vo_calls : calls_ok pre (Filters s).1;
  vo_inside : calls_inside f0.1 (Filters s).1;
  vo_solver : solver_ok A pre (ConstraintPathFilter.Solver (Filters s).2);
  vo_scopes : scopes (ConstraintPathFilter.Solver (Filters s).2)
    = assertions (ConstraintPathFilter.Solver f0.2) :: scopes (ConstraintPathFilter.Solver f0.2)
}.

(** What a visit leaves as it was. *)
Record returned s0 s : Prop := {
  re_path : CurrPath s = CurrPath s0;
  re_prev : Prev s = Prev s0;
  re_calls : (Filters s).1 = (Filters s0).1;
  re_assertions : assertions (ConstraintPathFilter.Solver (Filters s).2) = assertions (ConstraintPathFilter.Solver (Filters s0).2);
  re_scopes : scopes (ConstraintPathFilter.Solver (Filters s).2) = scopes (ConstraintPathFilter.Solver (Filters s0).2)
}.

Lemma returned_entry pre s0 s : returned s0 s → entry_ok pre s0 → entry_ok pre s.
Proof.
  intros [R1 R2 R3 R4 R5] [E1 E2 E3 E4 E5]. split; [by rewrite R1|by rewrite R2|by rewrite R3|by rewrite R3|].
  eapply solver_ok_same; [|exact E5]. done.
Qed.

Lemma visit_start pre s :
  entry_ok pre s →
  visit_ok (Filters s) pre (State (CurrPath s) (Prev s) (PathFilterList.saveState (Filters s)) (Ret s) (CompletedCtr s)).
Proof.
  intros [E1 E2 E3 E4 E5]. split; cbn; try done.
  - apply saveState_inside.
  - eapply solver_ok_same; [|exact E5]. apply push_assertions.
  - apply push_scopes.
Qed.

Lemma visit_insts f0 pre s l :
  visit_ok f0 pre s → visit_ok f0 (pre ++ l) (for_each l save_inst s)
    ∧ Ret (for_each l save_inst s) = Ret s ∧ CompletedCtr (for_each l save_inst s) = CompletedCtr s.
Proof.
  revert pre s. induction l as [|x l IH]; intros pre s Hs; [by rewrite app_nil_r|].
  rewrite for_each_cons. change (x :: l) with ([x] ++ l). rewrite app_assoc.
  destruct (IH (pre ++ [x]) (save_inst x s)) as (? & -> & ->); [|done]. clear IH.
  destruct Hs as [V1 V2 V3 V4 V5 V6]. unfold save_inst. rewrite V2. destruct pre as [|a pre _] using rev_ind.
  - simpl. split; cbn; [by rewrite V1|done|done|done|done|done].
  - rewrite last_snoc. destruct (saveEdge_calls pre a x f0.1 (Filters s).1 V3 V4) as [? ?]. split; cbn; try done.
    + by rewrite V1.
    + by rewrite last_snoc.
    + by apply saveEdge_solver.
    + by rewrite saveEdge_scopes.
Qed.

(** All that is needed at the end of a visit. *)
Definition leavable (f0 : PathFilterList.t N V model solver) q s : Prop :=
  CurrPath s = q ∧ calls_inside f0.1 (Filters s).1
  ∧ scopes (ConstraintPathFilter.Solver (Filters s).2)
    = assertions (ConstraintPathFilter.Solver f0.2) :: scopes (ConstraintPathFilter.Solver f0.2).

Lemma visit_leavable f0 q s : visit_ok f0 q s → leavable f0 q s.
Proof. intros []. done. Qed.

Lemma visit_end pre l s0 s :
  entry_ok pre s0 → leavable (Filters s0) (pre ++ l) s → returned s0 (restore s0 s).
Proof.
  intros [E1 E2 E3 E4 E5] (V1 & V4 & V6). split; cbn; try done.
  - by rewrite V1, E1, take_app_length.
  - by apply restoreState_inside.
  - apply (pop_spec _ _ _ V6).
  - apply (pop_spec _ _ _ V6).
Qed.

(** The leaf. *)
Lemma report_path_spec f0 q s :
  visit_ok f0 q s → q ≠ [] →
  ∃ s', report_path FinalInst s = Some s' ∧ leavable f0 q s' ∧ reports (λ p, p = q) s s'.
Proof.
  intros [V1 V2 V3 V4 V5 V6] Hq. destruct q as [|a q _] using rev_ind; [done|]. clear Hq.
  unfold report_path, PathFilterList.saveFinalEdge. rewrite V2, last_snoc. cbn [mbind option_bind].
  destruct (saveFinalEdge_calls FinalInst q a f0.1 (Filters s).1 V3 V4) as [Hacc Hin].
  destruct (CallStackPathFilter.saveFinalEdge a FinalInst (Filters s).1) as [Ret1 f1]. simpl in Hacc, Hin.
  assert (∀ s', (Ret1 = false ∨ ∀ m, ¬ satisfies m (q ++ [a])) → Ret s' = Ret s → CompletedCtr s' = CompletedCtr s →
    reports (λ p, p = q ++ [a]) s s') as Hnone.
  { intros s' Hno HR HC. apply reports_none; [done..|]. intros p m -> Ha Hm _. destruct Hno as [->|Hno]; [|by apply (Hno m)].
    by apply Hacc in Ha. }
  destruct Ret1.
  2: { eexists. split; [done|]. split; [done|]. apply Hnone; [by left|done..]. }
  pose proof (saveFinalEdge_solver A q a FinalInst (Filters s).2 V5) as Hs.
  destruct (ConstraintPathFilter.saveFinalEdge a FinalInst (Filters s).2) as [Ret2 f2]. destruct Hs as (Hok & Hsc & Hno & Hyes).
  destruct Ret2; simpl.
  2: { eexists. split; [done|]. split; [by split_and!; [..|cbn; rewrite Hsc]|]. apply Hnone; [right; by apply Hno|done..]. }
  destruct Hyes as (M & -> & HM); [done|]. simpl. eexists. split; [done|]. split; [by split_and!; [..|cbn; rewrite Hsc]|].
  eexists [_]. simpl. rewrite V1. split_and!; [done|done|..].
  - intros p ->%list_elem_of_singleton. simpl. split_and!; [done|by apply Hacc|split; [|done]].
    intros m. simpl. rewrite getPathConstraints_holds. apply Hok.
  - intros p m -> _ _ _. eexists. split; [by left|done].
Qed.

(** * Every vertex *)

Context (G : AdjacencyList (list N) nat) (Leaf : nat) (Hwf : graph_wf G) (Hacyclic : acyclic G).

(** Of the vertices reached only the leaf has no successors, and labels are not empty. *)
Record flat_ok G' : Prop := {
  ft_sub : subgraph G' G;
  ft_leaf : outEdges G' Leaf = [];
  ft_alive v : reachable G' v → v = Leaf ∨ outEdges G' v ≠ [];
  ft_labels : labelled G'
}.

Definition flatten_ok G' v s0 (r : option state) : Prop := ∃ s,
  r = Some s ∧ returned s0 s ∧ reports (λ q, ∃ l, run G' Leaf v l ∧ q = CurrPath s0 ++ l) s0 s.

Lemma returned_trans s0 s1 s2 : returned s0 s1 → returned s1 s2 → returned s0 s2.
Proof. intros [] []. split; congruence. Qed.

Lemma flatten_edges G' pre (doF : nat → state → option state) vs s0 :
  (∀ w s, w ∈ vs → entry_ok pre s → flatten_ok G' w s (doF w s)) → entry_ok pre s0 →
  ∃ s, for_each vs (λ w o, s ← o; doF w s) (Some s0) = Some s ∧ returned s0 s
    ∧ reports (λ q, ∃ w l, w ∈ vs ∧ run G' Leaf w l ∧ q = pre ++ l) s0 s.
Proof.
  revert s0. induction vs as [|w vs IH]; intros s0 HF Hs0.
  - exists s0. split_and!; [done|by split|]. apply reports_none; [done..|]. intros q m (w & l & []%elem_of_nil & _).
  - rewrite for_each_cons. cbn [mbind option_bind]. destruct (HF w s0) as (s1 & -> & Hr1 & Hp1); [by left|done|].
    destruct (IH s1) as (s & -> & Hr & Hp); [intros w' s' Hw'; apply HF; by right|by eapply returned_entry|].
    exists s. split_and!; [done|by eapply returned_trans|]. eapply reports_trans; [exact Hp1|exact Hp|].
    rewrite (en_path _ _ Hs0). setoid_rewrite elem_of_cons. intros q. naive_solver.
Qed.

Lemma run_inv G' v l : outEdges G' Leaf = [] → run G' Leaf v l →
  v = Leaf ∧ l = rev (node G' Leaf) ∨ v ≠ Leaf ∧ ∃ w l', w ∈ outEdges G' v ∧ run G' Leaf w l' ∧ l = rev (node G' v) ++ l'.
Proof.
  intros HL. destruct 1 as [|v w l Hw Hl]; [by left|right]. split; [|by exists w, l].
  intros ->. rewrite HL in Hw. by apply elem_of_nil in Hw.
Qed.

(** A prefix that is rejected. *)
Lemma rejected_prefix f0 pre s :
  visit_ok f0 pre s → (PathFilterList.isValid (Filters s)).1 = false →
  ∀ l m, accepted FinalInst (pre ++ l) → satisfies m (pre ++ l) → False.
Proof.
  intros [V1 V2 V3 V4 V5 V6] Hi l m (st & a & Hst & _) [HA Hm]. unfold PathFilterList.isValid in Hi. unfold calls_ok in V3.
  destruct (CallStackPathFilter.Valid (Filters s).1).
  - pose proof (isValid_rejects (Filters s).2 m) as Hr. destruct (ConstraintPathFilter.isValid (Filters s).2) as [b f2].
    simpl in Hi, Hr. subst b. apply Hr; [done|]. apply V5. split; [done|]. rewrite <-app_assoc in Hm. by apply path_holds_prefix in Hm.
  - destruct (stack_run_prefix [] pre l) as [st' Hst']; [by rewrite Hst|]. by rewrite V3 in Hst'.
Qed.

Lemma isValid_entry f0 pre s :
  visit_ok f0 pre s → let '(Passed, f) := PathFilterList.isValid (Filters s) in
  let s' := State (CurrPath s) (Prev s) f (Ret s) (CompletedCtr s) in
  visit_ok f0 pre s' ∧ (Passed = true → entry_ok pre s').
Proof.
  intros [V1 V2 V3 V4 V5 V6]. unfold PathFilterList.isValid. destruct (CallStackPathFilter.Valid (Filters s).1) eqn:HV; [|done].
  pose proof (isValid_solver (Filters s).2) as [Ha Hs]. destruct (ConstraintPathFilter.isValid (Filters s).2) as [b f2].
  simpl in Ha, Hs. assert (solver_ok A pre (ConstraintPathFilter.Solver f2)) as Hok by (eapply solver_ok_same; [|exact V5]; done).
  cbn. split; [|done]. split; cbn; try done. by rewrite Hs, V6, ?Ha.
Qed.

Lemma flatten_spec v :
  v < size G →
  ∃ k, ∀ fuel, k ≤ fuel → ∀ G' pre s0, flat_ok G' → reachable G' v → entry_ok pre s0 →
    flatten_ok G' v s0 (flatten G' Leaf FinalInst Max fuel v s0).
Proof using Hwf Hacyclic.
  induction (Hacyclic v) as [v _ IH]. intros Hv.
  destruct (common_bound (λ w fuel, ∀ G' pre s0, flat_ok G' → reachable G' w → entry_ok pre s0 →
    flatten_ok G' w s0 (flatten G' Leaf FinalInst Max fuel w s0)) (outEdges G v)) as [k Hk].
  { intros w Hw. apply (IH w Hw). by apply (gw_target G Hwf v w). }
  exists (S k). intros fuel Hf G' pre s0 Hflat Hreach Hs0. destruct fuel as [|fuel]; [lia|]. cbn [flatten].
  pose proof (visit_start pre s0 Hs0) as Hvis. set (s1 := State (CurrPath s0) _ _ _ _) in *.
  destruct (visit_insts _ _ _ (rev (node G' v)) Hvis) as (Hvis' & HRet & HCtr).
  set (s2 := for_each (rev (node G' v)) save_inst s1) in *. clearbody s2.
  assert (∀ s3, leavable (Filters s0) (pre ++ rev (node G' v)) s3 →
    reports (λ q, ∃ l, run G' Leaf v l ∧ q = pre ++ l) s2 s3 →
    flatten_ok G' v s0 (Some (restore s0 s3))) as Hdone.
  { intros s3 Hl Hr. eexists. split; [done|]. split; [by eapply visit_end|].
    eapply (reports_iff _ _ s2); [..|exact Hr]; [by rewrite (en_path _ _ Hs0)|by rewrite HRet|by rewrite HCtr|done..]. }
  destruct (decide (v = Leaf)) as [->|HvL].
  - destruct (report_path_spec _ _ s2 Hvis') as (s3 & -> & Hl & Hr).
    { intros [_ Hnil]%app_eq_nil. apply (f_equal (@rev N)) in Hnil. rewrite rev_involutive in Hnil.
      by apply (ft_labels _ Hflat Leaf Hreach). }
    apply Hdone; [done|]. eapply (reports_iff _ _ s2 s2 s3 s3); [|done..|exact Hr]. intros q. split; [|intros ->; by eexists; split; [constructor|]].
    intros (l & [[_ ->]|[? _]]%run_inv & ->); [done..|apply Hflat].
  - destruct (ft_alive _ Hflat v Hreach) as [?|Hne]; [done|].
    rewrite decide_False by (unfold outDegree; rewrite length_zero_iff_nil; exact Hne).
    destruct (decide (Max ≤ CompletedCtr s2)%Z) as [HMax|HMax].
    { apply Hdone; [by apply visit_leavable|]. apply reports_none; [done..|]. lia. }
    pose proof (isValid_entry _ _ _ Hvis') as Hi. pose proof (rejected_prefix _ _ _ Hvis') as Hrej.
    destruct (PathFilterList.isValid (Filters s2)) as [Passed f]. destruct Hi as [Hvis3 Hent]. simpl in Hrej.
    assert (∀ l, run G' Leaf v l ↔ ∃ w l', w ∈ outEdges G' v ∧ run G' Leaf w l' ∧ l = rev (node G' v) ++ l') as Hrun.
    { intros l. split; [intros [[? _]|[_ ?]]%run_inv; [done..|apply Hflat]|].
      intros (w & l' & Hw & Hl & ->). by econstructor. }
    set (s3 := State (CurrPath s2) _ _ _ _) in *. destruct Passed; simpl.
    + destruct (flatten_edges G' (pre ++ rev (node G' v)) (flatten G' Leaf FinalInst Max fuel) (outEdges G' v) s3) as (s4 & -> & Hr4 & Hp4).
      { intros w s Hw Hs. eapply Hk; [by apply (ft_sub _ Hflat)|lia|done|by eapply reachable_step|exact Hs]. }
      { by apply Hent. }
      apply Hdone.
      * destruct Hvis3 as [V1 V2 V3 V4 V5 V6], Hr4 as [R1 R2 R3 R4 R5]. split_and!; [by rewrite R1|by rewrite R3|by rewrite R5].
      * eapply (reports_iff _ _ s3 s2 s4 s4); [|done..|exact Hp4]. intros q. setoid_rewrite Hrun. split.
        -- intros (l & (w & l' & ? & ? & ->) & ->). exists w, l'. by rewrite <-app_assoc.
        -- intros (w & l' & ? & ? & ->). rewrite <-app_assoc. eexists. split; [|done]. by exists w, l'.
    + apply Hdone; [by apply visit_leavable|]. apply reports_none; [done..|].
      intros q m (l & (w & l' & _ & _ & ->)%Hrun & ->) Ha Hm _. rewrite app_assoc in Ha, Hm. by apply (Hrej eq_refl l' m).
Qed.
End flatten.

(** * [filterAndFlattenRevDag] *)

Section reported.
Context {N V expr model solver : Type} `{!EqDecision N} `{!Inhabited N} `{!EqDecision V} `{!Address V}.
Context `{!LLVMInstruction N} `{!Z3 expr model solver} `{!Z3Laws expr model solver} `{!PathConstraints N V expr}.
Implicit Types (Config : Z3BasedPathSensitivityConfig expr) (G : AdjacencyList (list N) nat) (q : list N) (m : model).

(** The constraint of the configuration and those along the path hold, and the one
    of a step from the end of the path to [FinalInst]. *)
Definition fulfils Config (FinalInst : N) m q : Prop := permitted Config m ∧ path_holds m (q ++ [FinalInst]).

Lemma holds_additional Config m : holds m (default (bool_val true) (AdditionalConstraint Config)) ↔ permitted Config m.
Proof.
  unfold permitted. destruct (AdditionalConstraint Config) as [C|]; simpl; [naive_solver|]. rewrite holds_bool_val. naive_solver.
Qed.

Definition reported_ok Config (FinalInst : N) (p : FlowPath N expr model) : Prop :=
  accepted FinalInst (Path p) ∧ (∀ m, holds m (Constraint p) ↔ fulfils Config FinalInst m (Path p))
  ∧ (decisive (expr:=expr) (model:=model) (solver:=solver) → fulfils Config FinalInst (Model p) (Path p)).

Lemma filterAndFlattenRevDag_spec G Leaf FinalInst Config :
  graph_wf G → acyclic G →
  ∃ k, ∀ fuel, k ≤ fuel → ∀ G', flat_ok G Leaf G' → ∃ Paths,
    filterAndFlattenRevDag (V:=V) (model:=model) (solver:=solver) fuel G' Leaf FinalInst Config = Some Paths
    ∧ (∀ p, p ∈ Paths → (∃ r, r ∈ Roots G' ∧ run G' Leaf r (Path p)) ∧ reported_ok Config FinalInst p)
    ∧ (∀ r q m, (Z.of_nat (length Paths) < NumPathsThreshold (base_config Config))%Z → r ∈ Roots G' → run G' Leaf r q →
        accepted FinalInst q → fulfils Config FinalInst m q → ∃ p, p ∈ Paths ∧ Path p = q).
Proof.
  intros Hwf Hacc. set (A := default (bool_val true) (AdditionalConstraint Config)).
  set (Max := NumPathsThreshold (base_config Config)).
  destruct (common_bound (λ w fuel, ∀ G' pre s0, flat_ok G Leaf G' → reachable G' w →
    entry_ok (model:=model) (solver:=solver) (V:=V) A pre s0 →
    flatten_ok A FinalInst Max Leaf G' w s0 (flatten G' Leaf FinalInst Max fuel w s0)) (Roots G)) as [k Hk].
  { intros r Hr. apply flatten_spec; [done..|]. by apply (gw_roots G Hwf). }
  exists k. intros fuel Hf G' Hflat. unfold filterAndFlattenRevDag. fold A Max. set (s0 := State [] None _ [] 0%Z).
  assert (entry_ok A [] s0) as Hs0.
  { split; cbn; try done; [by exists []|]. intros m. rewrite push_assertions, add_assertions, new_assertions.
    setoid_rewrite list_elem_of_singleton. naive_solver. }
  destruct (flatten_edges A FinalInst Max Leaf G' [] (flatten G' Leaf FinalInst Max fuel) (Roots G') s0) as (s & -> & _ & Hrep).
  { intros w s Hw Hs. eapply Hk; [by apply (ft_sub _ _ _ Hflat)|done|done|by apply reachable_root|exact Hs]. }
  { done. }
  destruct Hrep as (new & HRet & HCtr & Hsound & Hcomplete). simpl in HRet, HCtr. exists new.
  cbn [mbind option_bind]. rewrite HRet. split_and!; [done|..].
  - intros p Hp. destruct (Hsound p Hp) as ((r & l & Hr & Hl & Heq) & Ha & Hc & Hd). simpl in Heq. rewrite Heq in *.
    split; [by exists r|]. unfold reported_ok. rewrite Heq. split_and!; [done|..].
    + intros m. rewrite Hc. unfold satisfies, fulfils. by rewrite <-holds_additional.
    + intros Hdec. destruct (Hd Hdec). split; [by apply holds_additional|done].
  - intros r q m Hlt Hr Hq Ha [Hp Hm]. apply (Hcomplete q m); [by exists r, q|done|split; [by apply holds_additional|done]|].
    rewrite HCtr. simpl. done.
Qed.
End reported.

(** * [deduplicatePaths] *)

Section dedup.
Context {N expr model : Type} `{!EqDecision N} `{!Address N}.
Abbreviation flow_path := (FlowPath N expr model).
Implicit Types (l k : list N) (p q : flow_path) (Ps : list flow_path).

Lemma lexicographical_trans l k j :
  lexicographical_less l k = true → lexicographical_less k j = true → lexicographical_less l j = true.
Proof.
  revert k j. induction l as [|x l IH]; intros [|y k] [|z j]; simpl; try done.
  repeat case_decide; try done; try lia. apply IH.
Qed.

Lemma lexicographical_total l k : l = k ∨ lexicographical_less l k = true ∨ lexicographical_less k l = true.
Proof.
  revert k. induction l as [|x l IH]; intros [|y k]; simpl; auto.
  repeat case_decide; auto; try lia. assert (address x = address y) as ->%(inj address) by lia.
  destruct (IH k) as [->|?]; auto.
Qed.

Lemma lexicographical_irrefl l : lexicographical_less l l = false.
Proof. induction l as [|x l IH]; [done|]. simpl. repeat case_decide; try lia. done. Qed.

Definition list_less l k : bool :=
  bool_decide (length l < length k) || bool_decide (length l = length k) && lexicographical_less l k.

Lemma list_less_trans l k j : list_less l k = true → list_less k j = true → list_less l j = true.
Proof.
  unfold list_less. rewrite !orb_true_iff, !andb_true_iff, !bool_decide_eq_true.
  intros [?|[? H1]] [?|[? H2]]; try (left; lia). right. split; [lia|by eapply lexicographical_trans].
Qed.

Lemma list_less_total l k : l = k ∨ list_less l k = true ∨ list_less k l = true.
Proof.
  unfold list_less. rewrite !orb_true_iff, !andb_true_iff, !bool_decide_eq_true.
  destruct (lexicographical_total l k) as [?|[?|?]]; [by left|..]; destruct (Nat.lt_trichotomy (length l) (length k)) as [?|[?|?]]; auto.
Qed.

Lemma list_less_irrefl l : list_less l l = false.
Proof. unfold list_less. rewrite lexicographical_irrefl, andb_false_r, orb_false_r. apply bool_decide_eq_false. lia. Qed.

Lemma list_less_negated l k j : list_less l j = true → list_less l k = true ∨ list_less k j = true.
Proof.
  intros H. destruct (list_less_total l k) as [->|[?|Hk]]; [by right|by left|right]. by eapply list_less_trans.
Qed.

Lemma path_less_list p q : path_less p q = list_less (Path p) (Path q).
Proof. done. Qed.

#[local] Instance not_greater_trans : Transitive (path_not_greater (N:=N) (expr:=expr) (model:=model)).
Proof.
  intros p q r. unfold path_not_greater. rewrite !path_less_list. intros H1 H2. destruct (list_less (Path r) (Path p)) eqn:H3; [|done].
  apply (list_less_negated _ (Path q)) in H3 as [H3|H3]; congruence.
Qed.

#[local] Instance not_greater_total : Total (path_not_greater (N:=N) (expr:=expr) (model:=model)).
Proof.
  intros p q. unfold path_not_greater. rewrite !path_less_list. destruct (list_less (Path q) (Path p)) eqn:H1; [right|by left]. destruct (list_less (Path p) (Path q)) eqn:H2; [|done].
  pose proof (list_less_trans _ _ _ H1 H2) as H3. by rewrite list_less_irrefl in H3.
Qed.

Lemma not_greater_antisym p q : path_not_greater p q → path_not_greater q p → Path p = Path q.
Proof.
  unfold path_not_greater. rewrite !path_less_list. intros H1 H2. destruct (list_less_total (Path p) (Path q)) as [?|[?|?]]; congruence.
Qed.

Lemma unique_paths_sub Ps p : p ∈ unique_paths Ps → p ∈ Ps.
Proof.
  revert p. induction Ps as [|q Ps IH]; intros p; [done|]. simpl. rewrite !elem_of_cons. intros [->|Hp]; [by left|right].
  destruct (unique_paths Ps) as [|x Qs]; [by apply elem_of_nil in Hp|]. case_decide; apply IH; [by right|done].
Qed.

Lemma unique_paths_all Ps p : p ∈ Ps → ∃ q, q ∈ unique_paths Ps ∧ Path q = Path p.
Proof.
  induction Ps as [|x Ps IH]; [by intros ?%elem_of_nil|]. simpl. intros [->|Hp]%elem_of_cons; [exists x; split; [by left|done]|].
  destruct (IH Hp) as (q & Hq & Heq). destruct (unique_paths Ps) as [|y Qs]; [by apply elem_of_nil in Hq|].
  case_decide as Hd; [|exists q; split; [by right|done]]. apply elem_of_cons in Hq as [->|Hq].
  - exists x. split; [by left|congruence].
  - exists q. split; [by right|done].
Qed.

Lemma unique_paths_NoDup Ps : StronglySorted path_not_greater Ps → NoDup (Path <$> unique_paths Ps).
Proof.
  induction Ps as [|p Ps IH]; intros Hs; [constructor|]. apply StronglySorted_inv in Hs as [Hs Hall]. specialize (IH Hs). simpl.
  destruct (unique_paths Ps) as [|x Qs] eqn:Hu; [simpl; apply NoDup_singleton|].
  assert (head Ps = Some x) as Hx by (destruct Ps; [done|]; injection Hu as -> _; done).
  simpl in IH. apply NoDup_cons in IH as [Hnx HQs].
  assert (∀ q, q ∈ x :: Qs → Path q = Path p → Path p = Path x) as Hfirst.
  { intros q Hq Heq. destruct Ps as [|y Ps]; [done|]. injection Hx as ->. rewrite Forall_forall in Hall.
    apply not_greater_antisym; [apply Hall; by left|]. assert (q ∈ x :: Ps) as Hq' by (rewrite <-Hu in Hq; by apply unique_paths_sub).
    apply StronglySorted_inv in Hs as [_ Hx]. rewrite Forall_forall in Hx. apply elem_of_cons in Hq' as [->|Hq'].
    - unfold path_not_greater, path_less. rewrite Heq. apply list_less_irrefl.
    - specialize (Hx q Hq'). unfold path_not_greater, path_less in *. by rewrite Heq in Hx. }
  case_decide as Hd; rewrite ?fmap_cons; apply NoDup_cons.
  - by rewrite Hd.
  - split; [|by apply NoDup_cons]. rewrite <-fmap_cons. intros Hp. apply Hd. apply list_elem_of_fmap in Hp as (q & Heq & Hq). by eapply Hfirst.
Qed.

Lemma deduplicatePaths_spec Ps :
  (∀ p, p ∈ deduplicatePaths Ps → p ∈ Ps) ∧ (∀ p, p ∈ Ps → ∃ q, q ∈ deduplicatePaths Ps ∧ Path q = Path p)
  ∧ NoDup (Path <$> deduplicatePaths Ps).
Proof.
  unfold deduplicatePaths. pose proof (merge_sort_Permutation path_not_greater Ps) as Hp. split_and!.
  - intros p Hin%unique_paths_sub. by rewrite <-Hp.
  - intros p Hin. apply unique_paths_all. by rewrite Hp.
  - apply unique_paths_NoDup, StronglySorted_merge_sort; apply _.
Qed.
End dedup.
