(* ===== verification/Z3PathProperties.v ===== *)
(** Which paths the filtering manager returns: the results, with examples. *)
From S2P Require Import Prelude IDESolver UnionFind Graph DFAMinimizer EquivalentGraph ExplodedSuperGraph ExplodedSuperGraphCorrect.
From S2P Require Import PathSensitivity PathSensitivityCorrect PathsGraph PathsFinish PathProperties Z3FilterCorrect.
From S2P Require Import Z3PathSensitivity Z3FilterCorrect Z3FlattenCorrect.
From stdpp Require Import relations.
Import GraphTraits Z3BasedPathSensitivityManagerBase Z3BasedPathSensitivityManager PathAwareIDESolver.

(** * From graphs to statements *)

Section compose.
Context {N : Type}.
Implicit Types (G : AdjacencyList (list N) nat) (v w : nat) (l : list N) (ls : list (list N)).

Lemma rev_concat_reverse ls : rev (concat (reverse ls)) = concat (map (@rev N) ls).
Proof.
  induction ls as [|l ls IH]; [done|]. rewrite reverse_cons, concat_app, rev_app_distr, IH. simpl. by rewrite app_nil_r.
Qed.

Lemma reads_run G Leaf l :
  graph_wf G → only_leaf G Leaf → reads G l ↔ ∃ r, r ∈ Roots G ∧ run G Leaf r (rev l).
Proof.
  intros Hwf [HLlt HL]. split.
  - intros (tr & last & (r & w & Hr & Hp & <- & Hw) & ->). exists r. split; [done|]. rewrite rev_concat_reverse.
    assert (w = Leaf) as ->.
    { apply HL; [|by apply Hw]. apply (reachable_lt G w Hwf). exists r. split; [done|by eapply path_rtc]. }
    clear -Hp. induction Hp as [v|v e tr w He _ IH].
    + simpl. rewrite app_nil_r. constructor.
    + exact (run_step G w v e _ He IH).
  - intros (r & Hr & Hrun).
    assert (∃ tr, path G r tr Leaf ∧ rev l = concat (map (@rev N) (tr.*1 ++ [node G Leaf]))) as (tr & Hp & Heq).
    { clear Hr. induction Hrun as [|v w k Hw _ (tr & Hp & ->)].
      - exists []. split; [constructor|]. simpl. by rewrite app_nil_r.
      - exists ((node G v, weight w) :: tr). split; [exact (path_step G v w tr Leaf Hw Hp)|done]. }
    exists tr, (node G Leaf). split.
    + exists r, Leaf. split_and!; [done..|]. split; [|done]. intros _. by apply HL.
    + rewrite <-rev_concat_reverse in Heq. by apply (f_equal (@rev N)) in Heq; rewrite !rev_involutive in Heq.
Qed.

Lemma find_leaf_only G Leaf : only_leaf G Leaf → find_leaf G = Some Leaf.
Proof.
  intros [HLlt HL]. unfold find_leaf.
  assert (∀ w, w ∈ filter (λ Vtx, outDegree G Vtx = 0) (vertices G) ↔ w = Leaf) as Hf.
  { intros w. rewrite list_elem_of_filter. unfold vertices, outDegree, outEdges, size in *. rewrite elem_of_seq, length_zero_iff_nil.
    split; [intros [? ?]; apply HL; [lia|done]|]. intros ->. split; [by apply HL|lia]. }
  destruct (filter _ _) as [|w ws]; [|simpl; f_equal; apply Hf; by left]. destruct (not_elem_of_nil Leaf). by apply Hf.
Qed.
End compose.

(** * [pathsTo] *)

Section answer.
Context {N D B V U expr model solver : Type} `{Countable N} `{Countable D} `{!EqDecision B} `{!Inhabited N} `{!Inhabited D}.
Context `{!EqDecision V} `{!Address V} `{!Address N} `{!IntEqClasses U} `{!IntEqClassesLaws U}.
Context `{!LLVMInstruction N} `{!Z3 expr model solver} `{!Z3Laws expr model solver} `{!PathConstraints N V expr}.
Context (getParent : N → B).

(** The graph of one query, ready to be filtered. *)
Lemma query_graph (Z : D) (es : list (saved_edges N D)) (Inst : N) (Fact : D) (i : nat) Config F :
  let E := getExplicitESG getParent Z es in
  no_cycles E F → ExplodedSuperGraph.getNodeOrNull E Inst Fact = Some i → DAGDepthThreshold Config = SIZE_MAX →
  ∃ k Dag Leaf, (∀ fuel, k ≤ fuel → pathsDagTo (U:=U) fuel E Inst Fact Config F = Some Dag)
    ∧ graph_wf Dag ∧ acyclic Dag ∧ only_leaf Dag Leaf ∧ full_labels Dag ∧ node Dag Leaf = [Inst]
    ∧ ∀ l, reads Dag l ↔ query_path E F Inst i l ∨ l = [Inst] ∧ ∀ l', ¬ query_path E F Inst i l'.
Proof.
  cbv zeta. intros Hnc Hi Hmax.
  assert (∀ d, d ∈ [Fact] → is_Some (ExplodedSuperGraph.getNodeOrNull (getExplicitESG getParent Z es) Inst d)) as Hfacts.
  { intros d ->%list_elem_of_singleton. by rewrite Hi. }
  destruct (run_graph getParent Z es Inst [Fact] F) as (k1 & G & Hk1 & s & -> & Hok); [|done|].
  { intros j _. destruct Hnc as (_ & rank & Hrank). by apply (no_cycles_leaves _ _ rank). }
  set (E := getExplicitESG getParent Z es) in *.
  destruct (graph_ok_wf _ _ _ _ _ Hok) as (Hwf & Hacc & Hin & Hroot).
  pose proof (paths_graph_full E F _ _ _ _ _ (Hk1 k1 ltac:(lia))) as Hfull.
  pose proof (go_answers _ _ _ _ _ Hok) as Hans. set (G := PathSensitivityManagerMixin.RetDag s) in *.
  destruct (Roots G) as [|r [|? ?]] eqn:HR; [by inversion Hans| |].
  2: { apply Forall2_length in Hans. done. }
  apply Forall2_cons in Hans as [(i' & Hi' & Hlab & _) _].
  destruct (finish_dag_shape (U:=U) Config G r) as (k2 & Dag & Leaf & Hk2 & Hwf' & Hacc' & Hol & Hfull' & HnL & Hreads);
    [done|done|by rewrite HR|by rewrite HR|done|done|done|].
  exists (k1 `max` k2), Dag, Leaf. split_and!; try done; [..|by rewrite HnL|].
  - intros fuel Hf. unfold pathsDagTo, pathsDagToAll. rewrite Hk1 by lia. apply Hk2. lia.
  - intros l. rewrite Hreads. assert (spells G r l ↔ ∃ x, x ∈ Roots G ∧ spells G x l) as ->.
    { rewrite HR. split; [intros ?; exists r; split; [by left|done]|]. by intros (x & ->%list_elem_of_singleton & ?). }
    split.
    + intros Hl. destruct (roots_answer _ _ _ _ _ l Hok Hl) as (d & j & ->%list_elem_of_singleton & Hj & Hq).
      assert (j = i) as -> by congruence. naive_solver.
    + intros Hq. eapply (answer_roots E F Inst [Fact]); [exact Hok|done|by left|exact Hi|done].
Qed.

(** What is left after filtering can be flattened. *)
Lemma filtered_flat_ok G Leaf Config G' :
  only_leaf G Leaf → labelled G → subgraph G' G →
  (∀ v, reachable G' v → v = Leaf ∨ ∃ m l, permitted (expr:=expr) (model:=model) Config m ∧ run G' Leaf v l ∧ path_holds (V:=V) m l) →
  flat_ok G Leaf G'.
Proof.
  intros [HL1 HL2] Hlab Hsub Hal. assert (outEdges G' Leaf = []) as HLeaf.
  { apply elem_of_nil_inv. intros w Hw. destruct Hsub as (_ & _ & Hsub & _). apply Hsub in Hw.
    rewrite (proj2 (HL2 Leaf HL1) eq_refl) in Hw. by apply elem_of_nil in Hw. }
  split; [done|done|..].
  - intros v Hv. destruct (Hal v Hv) as [?|(m & l & _ & Hl & _)]; [by left|].
    apply run_inv in Hl as [[-> _]|(_ & w & l' & Hw & _)]; [by left|right|done]. intros Hnil. rewrite Hnil in Hw.
    by apply elem_of_nil in Hw.
  - intros v Hv. destruct Hsub as (HN & HS & Hrest). unfold node. rewrite HN. apply Hlab.
    by apply (subgraph_reachable G' G v).
Qed.

Lemma pathsTo_spec (Z : D) (es : list (saved_edges N D)) (Inst : N) (Fact : D) (i : nat)
    (Config : Z3BasedPathSensitivityConfig expr) (F : PathTracingFilter) :
  let E := getExplicitESG getParent Z es in
  let flows q := query_path E F Inst i (rev q) ∨ q = [Inst] ∧ ∀ l, ¬ query_path E F Inst i l in
  no_cycles E F → ExplodedSuperGraph.getNodeOrNull E Inst Fact = Some i →
  DAGDepthThreshold (base_config Config) = SIZE_MAX → decisive (expr:=expr) (model:=model) (solver:=solver) →
  ∃ k, ∀ fuel, k ≤ fuel → ∃ Found Paths,
    recordedPaths (V:=V) (U:=U) (solver:=solver) fuel E Inst Fact Config F = Some Found
    ∧ pathsTo (V:=V) (U:=U) (solver:=solver) fuel E Inst Fact Config F = Some Paths
    ∧ NoDup (Path <$> Paths)
    ∧ (∀ p, p ∈ Paths → flows (Path p) ∧ accepted Inst (Path p)
        ∧ (∀ m, holds m (Constraint p) ↔ fulfils (V:=V) Config Inst m (Path p)) ∧ holds (Model p) (Constraint p))
    ∧ ((Z.of_nat (length Found) < NumPathsThreshold (base_config Config))%Z →
        ∀ q m, flows q → accepted Inst q → fulfils (V:=V) Config Inst m q → ∃ p, p ∈ Paths ∧ Path p = q).
Proof.
  cbv zeta. intros Hnc Hi Hmax Hdec.
  destruct (query_graph Z es Inst Fact i (base_config Config) F Hnc Hi Hmax) as (k1 & Dag & Leaf & Hk1 & Hwf & Hacc & Hol & Hfull & _ & Hreads).
  set (E := getExplicitESG getParent Z es) in *.
  assert (labelled Dag) as Hlab by (intros v Hv; by apply Hfull, reachable_lt).
  assert (outEdges Dag Leaf = []) as HLeaf by (destruct Hol as [? Hol]; by apply Hol).
  destruct (filterOutUnreachableNodes_spec (V:=V) (model:=model) (solver:=solver) Dag Leaf Config Hwf Hacc HLeaf Hlab) as [k2 Hk2].
  destruct (filterAndFlattenRevDag_spec (V:=V) (model:=model) (solver:=solver) Dag Leaf Inst Config Hwf Hacc) as [k3 Hk3].
  exists (k1 `max` k2 `max` k3). intros fuel Hf.
  destruct (Hk2 fuel) as (Constr & G' & Hfilter & Hsub & HC & Hkept & Halive); [lia|].
  destruct (Hk3 fuel ltac:(lia) G') as (Found & Hflat & Hsound & Hcomplete).
  { eapply filtered_flat_ok; [done..|by apply Halive]. }
  assert (∀ q, (query_path E F Inst i (rev q) ∨ q = [Inst] ∧ ∀ l, ¬ query_path E F Inst i l)
    ↔ ∃ r, r ∈ Roots Dag ∧ run Dag Leaf r q) as Hflows.
  { intros q. pose proof (Hreads (rev q)) as Hq. rewrite (reads_run Dag Leaf) in Hq by done. rewrite rev_involutive in Hq.
    rewrite Hq. split; intros [?|[Heq ?]]; auto; right; (split; [|done]); [by rewrite Heq|].
    apply (f_equal (@rev N)) in Heq. by rewrite rev_involutive in Heq. }
  assert (∃ Found', recordedPaths (V:=V) (U:=U) (solver:=solver) fuel E Inst Fact Config F = Some Found'
    ∧ (is_false Constr = true ∧ Found' = [] ∨ Found' = Found)) as (Found' & Hrec & Hcase).
  { unfold recordedPaths. rewrite Hk1 by lia. cbn [mbind option_bind]. rewrite (find_leaf_only Dag Leaf Hol). cbn [mbind option_bind].
    rewrite Hfilter. cbn [mbind option_bind]. destruct (is_false Constr); [by exists []; auto|by exists Found; auto]. }
  assert (∀ p, p ∈ Found' → p ∈ Found) as Hin by (destruct Hcase as [[_ ->]| ->]; [by intros p ?%elem_of_nil|done]).
  destruct (deduplicatePaths_spec Found') as (Hd1 & Hd2 & Hd3).
  exists Found', (deduplicatePaths Found'). split_and!; [done|unfold pathsTo; by rewrite Hrec|done|..].
  - intros p Hp. destruct (Hsound p) as [(r & Hr & Hrun) (Ha & HCp & HMp)]; [by apply Hin, Hd1|]. split_and!; [|done|done|].
    + apply Hflows. exists r. split; [by apply Hsub|by apply (subgraph_run G' Dag)].
    + apply HCp. by apply HMp.
  - intros Hlt q m (r & Hr & Hrun)%Hflows Ha Hm. pose proof Hm as [Hperm Hh%path_holds_prefix].
    destruct Hcase as [[Hfalse ->]| ->].
    + destruct (is_false_holds m Constr Hfalse). apply HC; [done|]. by exists r, q.
    + destruct (Hkept m r q Hperm Hr Hrun Hh) as [Hr' Hrun']. destruct (Hcomplete r q m Hlt Hr' Hrun' Ha Hm) as (p & Hp & <-).
      destruct (Hd2 p Hp) as (p' & ? & ?). by exists p'.
Qed.
(** C29: on a supergraph without cycles, with an SMT solver that decides the
    constraints it is asked about, [pathsTo] returns, without meeting a dead end,
    and no path twice. Each path it returns is a path of the supergraph to the fact
    asked about on which calls and returns match; its constraint is the conjunction
    of the branch conditions along it and the constraint of the configuration, and
    its model satisfies that. As long as fewer paths were recorded than the limit
    says, every feasible path is returned: every one on which calls and returns
    match and whose constraint has any model. *)
Theorem feasible_paths_reported (Z : D) (es : list (saved_edges N D)) (Inst : N) (Fact : D) (i : nat)
    (Config : Z3BasedPathSensitivityConfig expr) (F : PathTracingFilter) :
  let E := getExplicitESG getParent Z es in
  let flows q := query_path E F Inst i (rev q) ∨ q = [Inst] ∧ ∀ l, ¬ query_path E F Inst i l in
  no_cycles E F → ExplodedSuperGraph.getNodeOrNull E Inst Fact = Some i →
  DAGDepthThreshold (base_config Config) = SIZE_MAX → decisive (expr:=expr) (model:=model) (solver:=solver) →
  ∃ k, ∀ fuel, k ≤ fuel → ∃ Found Paths,
    recordedPaths (V:=V) (U:=U) (solver:=solver) fuel E Inst Fact Config F = Some Found
    ∧ pathsTo (V:=V) (U:=U) (solver:=solver) fuel E Inst Fact Config F = Some Paths
    ∧ NoDup (Path <$> Paths)
    ∧ (∀ p, p ∈ Paths → flows (Path p) ∧ accepted Inst (Path p)
        ∧ (∀ m, holds m (Constraint p) ↔ fulfils (V:=V) Config Inst m (Path p)) ∧ holds (Model p) (Constraint p))
    ∧ ((Z.of_nat (length Found) < NumPathsThreshold (base_config Config))%Z →
        ∀ q m, flows q → accepted Inst q → fulfils (V:=V) Config Inst m q → ∃ p, p ∈ Paths ∧ Path p = q).
Proof. apply pathsTo_spec. Qed.

(** C31: when the statement asked about is a return, the step from the end of the
    path to the statement asked about is tested like a step behind a return,
    although the path ends there: every path that is returned has no open call, or
    the statement stands directly behind the innermost one. A path that has just
    entered the function by a call is lost. *)
Theorem paths_into_callees_lost (Z : D) (es : list (saved_edges N D)) (Inst : N) (Fact : D) (i : nat)
    (Config : Z3BasedPathSensitivityConfig expr) (F : PathTracingFilter) :
  let E := getExplicitESG getParent Z es in
  no_cycles E F → ExplodedSuperGraph.getNodeOrNull E Inst Fact = Some i →
  DAGDepthThreshold (base_config Config) = SIZE_MAX → decisive (expr:=expr) (model:=model) (solver:=solver) →
  isa_exit Inst = true →
  ∃ k, ∀ fuel, k ≤ fuel → ∃ Paths,
    pathsTo (V:=V) (U:=U) (solver:=solver) fuel E Inst Fact Config F = Some Paths
    ∧ ∀ p, p ∈ Paths → ∃ st, stack_run [] (Path p) = Some st
        ∧ (st = [] ∨ ∃ c st', st = c :: st' ∧ CallStackPathFilter.isDirectSuccessorOf Inst c = true).
Proof.
  cbv zeta. intros Hnc Hi Hmax Hdec Hexit. destruct (pathsTo_spec Z es Inst Fact i Config F Hnc Hi Hmax Hdec) as [k Hk].
  exists k. intros fuel Hf. destruct (Hk fuel Hf) as (Found & Paths & _ & Hp & _ & Hsound & _). exists Paths. split; [done|].
  intros p Hin. destruct (Hsound p Hin) as (Hq & (st & a & Hst & Ha & Hfin) & _). exists st. split; [done|].
  assert (a = Inst) as ->.
  { destruct Hq as [(j & l' & _ & _ & Hq)|[Hq _]].
    - apply (f_equal (@rev N)) in Hq. rewrite rev_involutive in Hq. rewrite Hq in Ha. simpl in Ha. rewrite last_snoc in Ha. congruence.
    - rewrite Hq in Ha. simpl in Ha. congruence. }
  unfold final_ok in Hfin. rewrite Hexit in Hfin. destruct st as [|c st]; [by left|right]. by exists c, st.
Qed.
End answer.

(** * Filtering alone *)

(** C30: [filterOutUnreachableNodes] returns a subgraph with every path to the leaf
    that is feasible, and a constraint that holds in a model exactly if some path
    is feasible in it; if the solver decides, every vertex left is on a feasible
    path to the leaf. *)
Theorem unreachable_nodes_filtered {N V expr model solver : Type} `{!Inhabited N} `{!Z3 expr model solver}
    `{!Z3Laws expr model solver} `{!PathConstraints N V expr}
    (G : AdjacencyList (list N) nat) (Leaf : nat) (Config : Z3BasedPathSensitivityConfig expr) :
  graph_wf G → acyclic G → outEdges G Leaf = [] → labelled G →
  ∃ k, ∀ fuel, k ≤ fuel → ∃ Ret G',
    filterOutUnreachableNodes (V:=V) (model:=model) (solver:=solver) fuel G Leaf Config = Some (Ret, G')
    ∧ subgraph G' G
    ∧ (∀ m, permitted Config m → holds m Ret ↔ ∃ r l, r ∈ Roots G ∧ run G Leaf r l ∧ path_holds (V:=V) m l)
    ∧ (∀ m r l, permitted Config m → r ∈ Roots G → run G Leaf r l → path_holds (V:=V) m l →
        r ∈ Roots G' ∧ run G' Leaf r l)
    ∧ (decisive (expr:=expr) (model:=model) (solver:=solver) →
        ∀ v, reachable G' v → v = Leaf ∨ ∃ m l, permitted Config m ∧ run G' Leaf v l ∧ path_holds (V:=V) m l).
Proof. apply filterOutUnreachableNodes_spec. Qed.

(** * Examples *)

(** Constraints on one boolean, which the solver tries out. *)
Module Toy.
Definition expr : Type := bool → bool.
Record solver := { asserted : list expr; opened : list (list expr) }.

Definition all (es : list expr) : expr := λ m, forallb (λ e, e m) es.

#[export] Instance conditions : Z3Conditions expr := {
  bool_val b := λ _, b;
  and_ e f := λ m, e m && f m;
  or_ e f := λ m, e m || f m;
  simplify e := e;
  is_false e := negb (e false) && negb (e true)
}.

#[export] Instance z3 : Z3 expr bool solver := {
  z3_conditions := conditions;
  new_solver := {| asserted := []; opened := [] |};
  add e s := {| asserted := asserted s ++ [e]; opened := opened s |};
  push s := {| asserted := asserted s; opened := asserted s :: opened s |};
  pop s := match opened s with es :: ss => {| asserted := es; opened := ss |} | [] => s end;
  check s := (if all (asserted s) false || all (asserted s) true then sat else unsat, s);
  get_model s := all (asserted s) true;
  assertions := asserted
}.

Lemma all_true es m : all es m = true ↔ ∀ e, e ∈ es → e m = true.
Proof. unfold all. rewrite forallb_forall. by setoid_rewrite <-list_elem_of_In. Qed.

#[export, refine] Instance z3_laws : Z3Laws expr bool solver := {
  holds m e := e m = true;
  scopes := opened
}.
Proof.
  - done.
  - intros m e f. apply andb_true_iff.
  - intros m e f. apply orb_true_iff.
  - done.
  - intros m e. simpl. destruct m, (e false), (e true); done.
  - done.
  - done.
  - done.
  - done.
  - done.
  - done.
  - intros [es ss0] es' ss. simpl. by intros ->.
  - done.
  - done.
  - intros s m Hu Hm. apply all_true in Hm.
    change (all (asserted s) m = true) in Hm. simpl in Hu. destruct m; rewrite Hm in Hu; [by rewrite orb_true_r in Hu|done].
  - intros s e Hs. simpl in Hs |- *. change (assertions s) with (asserted s). intros He. destruct (all (asserted s) true) eqn:Ht; [by apply (proj1 (all_true _ _) Ht)|].
    rewrite orb_false_r in Hs. destruct (all (asserted s) false) eqn:Hf; [|done]. by apply (proj1 (all_true _ _) Hf).
Defined.

Lemma toy_decisive : decisive (expr:=expr) (model:=bool) (solver:=solver).
Proof. intros s. simpl. by destruct (_ || _). Qed.

(** Two branches on the variable, and a call (21) of a function that returns (31). *)
#[export] Instance program : LLVMInstruction nat := {
  isa_CallBase n := n =? 21;
  isa_ReturnInst n := n =? 31;
  isa_ResumeInst _ := false;
  isTerminator n := (n =? 22) || (n =? 31);
  calls_definition n := n =? 21;
  getNextNodes n := match n with 20 => [21; 22] | 21 => [22] | 30 => [31] | _ => [] end;
  succ_fronts n := match n with 0 => [1; 2] | 1 | 2 => [3] | 3 => [4; 5] | 4 | 5 => [6] | _ => [] end
}.

#[export] Instance branches : PathConstraints nat nat expr := {
  getConstraintAndVariablesFromEdge From To :=
    match From, To with
    | 0, 1 | 3, 4 => Some (λ m, m, [0])
    | 0, 2 | 3, 5 => Some (λ m, negb m, [0])
    | _, _ => None
    end
}.

#[export] Instance nat_address : Address nat := { address := Z.of_nat }.
End Toy.
Import Toy Log.

Definition two_branches : list (saved_edges nat nat) :=
  [flow 9 0; flow 0 1; flow 0 2; flow 1 3; flow 2 3; flow 3 4; flow 3 5; flow 4 6; flow 5 6].
Definition one_call : list (saved_edges nat nat) :=
  [Saved 20 21 7 [7] ESG_Normal; Saved 21 30 7 [7] ESG_Call; Saved 30 31 7 [7] ESG_Normal; Saved 31 22 7 [7] ESG_Ret].

Definition default_z3_config : Z3BasedPathSensitivityConfig expr :=
  {| base_config := withMinimizeDAG false default_path_config; AdditionalConstraint := None |}.

(** What is found for a fact at a statement of a program. *)
Definition statements_to (es : list (saved_edges nat nat)) (Inst Fact : nat) : option (list (list nat)) :=
  Paths ← pathsTo (V:=nat) (U:=Log.classes) (solver:=solver) (expr:=expr) (model:=bool) 12
    (getExplicitESG (λ n : nat, n) 0 es) Inst Fact default_z3_config DefaultPathTracingFilter;
  Some (map Path Paths).

(** A graph whose nodes are ranked has no cycles. *)
Lemma ranked_no_cycles (E : ExplodedSuperGraph.t nat nat) (rank : nat → nat) :
  owners_agree E →
  forallb (λ i, match ExplodedSuperGraph.predecessor E i with
    | Some p => forallb (λ j, rank j <? rank i) (p :: ExplodedSuperGraph.neighbors E p)
    | None => true
    end) (seq 0 (ExplodedSuperGraph.size E)) = true →
  no_cycles E DefaultPathTracingFilter.
Proof.
  intros Hok Hall. split; [done|]. exists rank. intros i j (p & Hp & Hj).
  destruct (decide (i < ExplodedSuperGraph.size E)) as [Hi|Hi].
  - rewrite forallb_forall in Hall. specialize (Hall i). rewrite Hp, forallb_forall in Hall.
    apply Nat.ltb_lt, Hall; [apply in_seq; lia|]. apply list_elem_of_In. by apply elem_of_cons.
  - destruct (access_out_of_range E i Hok) as [Hn _]; [lia|congruence].
Qed.

Lemma two_branches_no_cycles : no_cycles (getExplicitESG (λ n : nat, n) 0 two_branches) DefaultPathTracingFilter.
Proof.
  apply (ranked_no_cycles _ (λ i, [0; 1; 1; 2; 2; 3; 3; 4; 4] !!! i)); vm_compute; reflexivity.
Qed.

Lemma one_call_no_cycles : no_cycles (getExplicitESG (λ n : nat, n) 0 one_call) DefaultPathTracingFilter.
Proof. apply (ranked_no_cycles _ (λ i, i)); vm_compute; reflexivity. Qed.

(** Of the four paths two are feasible, one for each value of the variable. *)
Lemma feasible_paths_reported_witness :
  let E := getExplicitESG (λ n : nat, n) 0 two_branches in
  let flows q := query_path E DefaultPathTracingFilter 6 7 (rev q)
    ∨ q = [6] ∧ ∀ l, ¬ query_path E DefaultPathTracingFilter 6 7 l in
  no_cycles E DefaultPathTracingFilter ∧ ExplodedSuperGraph.getNodeOrNull E 6 0 = Some 7
  ∧ DAGDepthThreshold (base_config default_z3_config) = SIZE_MAX
  ∧ decisive (expr:=expr) (model:=bool) (solver:=solver)
  ∧ (∃ k, ∀ fuel, k ≤ fuel → ∃ Found Paths,
      recordedPaths (V:=nat) (U:=Log.classes) (solver:=solver) fuel E 6 0 default_z3_config DefaultPathTracingFilter = Some Found
      ∧ pathsTo (V:=nat) (U:=Log.classes) (solver:=solver) fuel E 6 0 default_z3_config DefaultPathTracingFilter = Some Paths
      ∧ NoDup (Path <$> Paths)
      ∧ (∀ p, p ∈ Paths → flows (Path p) ∧ accepted 6 (Path p)
          ∧ (∀ m, holds m (Constraint p) ↔ fulfils (V:=nat) default_z3_config 6 m (Path p)) ∧ holds (Model p) (Constraint p))
      ∧ ((Z.of_nat (length Found) < NumPathsThreshold (base_config default_z3_config))%Z →
          ∀ q m, flows q → accepted 6 q → fulfils (V:=nat) default_z3_config 6 m q → ∃ p, p ∈ Paths ∧ Path p = q))
  ∧ statements_to two_branches 6 0 = Some [[9; 0; 1; 3; 4; 6]; [9; 0; 2; 3; 5; 6]].
Proof.
  split; [exact two_branches_no_cycles|]. split; [vm_compute; reflexivity|]. split; [reflexivity|].
  split; [exact toy_decisive|]. split; [|vm_compute; reflexivity].
  exact (feasible_paths_reported (U:=Log.classes) (V:=nat) (λ n : nat, n) 0 two_branches 6 0 7 default_z3_config
    DefaultPathTracingFilter two_branches_no_cycles eq_refl eq_refl toy_decisive).
Defined.

(** 21 calls a function that returns at 31: nothing is found there, while the path
    to the statement before, and the one back to the caller, are. *)
Lemma paths_into_callees_lost_witness :
  let E := getExplicitESG (λ n : nat, n) 0 one_call in
  no_cycles E DefaultPathTracingFilter ∧ ExplodedSuperGraph.getNodeOrNull E 31 7 = Some 2
  ∧ DAGDepthThreshold (base_config default_z3_config) = SIZE_MAX
  ∧ decisive (expr:=expr) (model:=bool) (solver:=solver) ∧ isa_exit 31 = true
  ∧ (∃ k, ∀ fuel, k ≤ fuel → ∃ Paths,
      pathsTo (V:=nat) (U:=Log.classes) (solver:=solver) fuel E 31 7 default_z3_config DefaultPathTracingFilter = Some Paths
      ∧ ∀ p, p ∈ Paths → ∃ st, stack_run [] (Path p) = Some st
          ∧ (st = [] ∨ ∃ c st', st = c :: st' ∧ CallStackPathFilter.isDirectSuccessorOf 31 c = true))
  ∧ query_path E DefaultPathTracingFilter 31 2 [31; 30; 21; 20] ∧ stack_run [] [20; 21; 30; 31] = Some [21]
  ∧ statements_to one_call 31 7 = Some [] ∧ statements_to one_call 30 7 = Some [[20; 21; 30]]
  ∧ statements_to one_call 22 7 = Some [[20; 21; 30; 31; 22]].
Proof.
  split; [exact one_call_no_cycles|]. split; [vm_compute; reflexivity|]. split; [reflexivity|].
  split; [exact toy_decisive|]. split; [reflexivity|]. split; [|split; [|split_and!; vm_compute; reflexivity]].
  - exact (paths_into_callees_lost (U:=Log.classes) (V:=nat) (λ n : nat, n) 0 one_call 31 7 2 default_z3_config
      DefaultPathTracingFilter one_call_no_cycles eq_refl eq_refl toy_decisive eq_refl).
  - set (E := getExplicitESG (λ n : nat, n) 0 one_call).
    assert (ExplodedSuperGraph.source E 0 = 20 ∧ ExplodedSuperGraph.source E 1 = 21 ∧ ExplodedSuperGraph.source E 2 = 30)
      as (S0 & S1 & S2) by (vm_compute; split_and!; reflexivity).
    assert (ExplodedSuperGraph.predecessor E 0 = None ∧ ExplodedSuperGraph.predecessor E 1 = Some 0
      ∧ ExplodedSuperGraph.predecessor E 2 = Some 1) as (P0 & P1 & P2) by (vm_compute; split_and!; reflexivity).
    clearbody E.
    assert (traced E DefaultPathTracingFilter 2 (map (ExplodedSuperGraph.source E) [2; 1; 0])) as Ht.
    { apply (traced_step _ _ 2 1); [exists 1; auto|done|]. apply (traced_step _ _ 1 0); [exists 0; auto|done|].
      by apply traced_start. }
    simpl in Ht. rewrite S0, S1, S2 in Ht. exists 2, [30; 21; 20]. split; [by left|]. split; [exact Ht|reflexivity].
Defined.

(** The graph of paths of the program with two branches, without its first
    statement. *)
Definition diamonds : AdjacencyList (list nat) nat := {|
  Nodes := [[0]; [1]; [2]; [3]; [4]; [5]; [6]];
  Adj := [[1; 2]; [3]; [3]; [4; 5]; [6]; [6]; []];
  Roots := [0]
|}.

Lemma diamonds_edges v w : w ∈ outEdges diamonds v → v < w < 7.
Proof.
  unfold outEdges. cbn. do 7 (destruct v as [|v]; [cbn; rewrite ?elem_of_cons, ?elem_of_nil; lia|]).
  cbn. by intros ?%elem_of_nil.
Qed.

Lemma diamonds_ok : graph_wf diamonds ∧ acyclic diamonds ∧ labelled diamonds.
Proof.
  assert (graph_wf diamonds) as Hwf.
  { split; [done| |by intros v ->%list_elem_of_singleton; vm_compute; lia]. intros v e He%diamonds_edges.
    change (e < 7). lia. }
  split; [done|]. split.
  - intros v. remember (7 - v) as r eqn:Hr. revert v Hr. induction r as [r IH] using lt_wf_ind. intros v ->.
    constructor. intros w Hw%diamonds_edges. eapply IH; [|done]. lia.
  - intros v Hv%(reachable_lt diamonds v Hwf). unfold size in Hv. cbn in Hv. do 7 (destruct v as [|v]; [done|]). lia.
Qed.

(** Where the variable is known to be true, one way is left. *)
Lemma unreachable_nodes_filtered_witness :
  let Config := withAdditionalConstraint (λ m : bool, m) default_z3_config in
  graph_wf diamonds ∧ acyclic diamonds ∧ outEdges diamonds 6 = [] ∧ labelled diamonds
  ∧ (∃ k, ∀ fuel, k ≤ fuel → ∃ Ret G',
      filterOutUnreachableNodes (V:=nat) (model:=bool) (solver:=solver) fuel diamonds 6 Config = Some (Ret, G')
      ∧ subgraph G' diamonds
      ∧ (∀ m, permitted Config m → holds m Ret ↔ ∃ r l, r ∈ Roots diamonds ∧ run diamonds 6 r l ∧ path_holds (V:=nat) m l)
      ∧ (∀ m r l, permitted Config m → r ∈ Roots diamonds → run diamonds 6 r l → path_holds (V:=nat) m l →
          r ∈ Roots G' ∧ run G' 6 r l)
      ∧ (decisive (expr:=expr) (model:=bool) (solver:=solver) →
          ∀ v, reachable G' v → v = 6 ∨ ∃ m l, permitted Config m ∧ run G' 6 v l ∧ path_holds (V:=nat) m l))
  ∧ (Adj ∘ snd <$> filterOutUnreachableNodes (V:=nat) (model:=bool) (solver:=solver) 8 diamonds 6 Config)
    = Some [[1]; [3]; [3]; [4]; [6]; [6]; []].
Proof.
  split; [apply diamonds_ok|]. split; [apply diamonds_ok|]. split; [reflexivity|]. split; [apply diamonds_ok|].
  split; [|vm_compute; reflexivity].
  apply (unreachable_nodes_filtered (V:=nat) diamonds 6); [apply diamonds_ok|apply diamonds_ok|reflexivity|apply diamonds_ok].
Defined.
