(* ===== verification/LLVMPathConstraints.v ===== *)
(** The branch conditions along a path as Z3 expressions
    (lib/PhasarLLVM/DataFlow/PathSensitivity/LLVMPathConstraints.cpp), with the
    expressions that were already translated. What the code reads of a value of
    LLVM IR is its [ValueKind]; [None] is an abort by [report_fatal_error]. *)
From S2P Require Import Prelude Graph PathsGraph Z3PathSensitivity.
From stdpp Require Import strings sorting.

(** * Values *)

Inductive Ty :=
  | IntegerTy (BitWidth : Z) | FloatTy | DoubleTy | OtherFloatingPointTy | PointerTy | OtherTy.

Inductive Predicate :=
  | ICMP_EQ | ICMP_NE | ICMP_UGT | ICMP_UGE | ICMP_ULT | ICMP_ULE | ICMP_SGT | ICMP_SGE | ICMP_SLT | ICMP_SLE
  | OtherPredicate.

Inductive BinaryOps :=
  | Add | FAdd | Sub | FSub | Mul | FMul | UDiv | SDiv | FDiv | URem | SRem | FRem
  | Shl | LShr | AShr | And | Or | Xor.

(** A value, as far as the casts tell values apart. A [ConstantInt] has its bits as
    an unsigned number. The name of an [AllocaInst] is that of its debug variable
    or its own ([getVarName]); that of a [GetElementPtrInst] includes the metadata
    id of a nameless one. [TruncToBool] tells a [TruncInst] to [i1]. The callee of a
    call is its function, if it is known and has a name, with the demangled name and
    the return type. *)
Inductive ValueKind (V : Type) :=
  | ConstantInt (BitWidth Bits : Z)
  | ConstantFP (Bits : Z)
  | ConstantPointerNull
  | OtherConstantData
  | AllocaInst (Name : string) (AllocatedType : Ty)
  | LoadInst (PointerOperand : V)
  | GetElementPtrInst (Name : string) (ResultElementType : Ty) (OfPointer : bool)
  | CmpInst (Pred : Predicate) (Lhs Rhs : V)
  | BinaryOperator (Op : BinaryOps) (Lhs Rhs : V)
  | CallBase (Callee : option (V * string * Ty))
  | CastInst (TruncToBool : bool) (Operand : V)
  | PHINode (Type_ : Ty) (IncomingValues : list V)
  | OtherValue.
Arguments ConstantInt {V}.
Arguments ConstantFP {V}.
Arguments ConstantPointerNull {V}.
Arguments OtherConstantData {V}.
Arguments AllocaInst {V}.
Arguments LoadInst {V}.
Arguments GetElementPtrInst {V}.
Arguments CmpInst {V}.
Arguments BinaryOperator {V}.
Arguments CallBase {V}.
Arguments CastInst {V}.
Arguments PHINode {V}.
Arguments OtherValue {V}.

(** A conditional branch: its condition, and its operands 2 and 1, each as the first
    instruction of the block and the first one that [GetFirstInst] returns for it. *)
Record BranchInst (V : Type) := {
  Condition : V;
  IfTrue : V * V;
  IfFalse : V * V
}.
Arguments Condition {V}.
Arguments IfTrue {V}.
Arguments IfFalse {V}.

(** [operands] are those of an instruction; [getPrevNodes] the instructions before
    one in its block (without debug instructions, if these are ignored), the
    nearest first. *)
Class LLVMValues (V : Type) := {
  kind : V → ValueKind V;
  operands : V → option (list V);
  conditional_branch : V → option (BranchInst V);
  getPrevNodes : V → list V
}.

(** * Expressions *)

(** The constants and operators of z3++.h that are used. *)
Class Z3Terms (expr : Type) := {
  bool_const : string → expr;
  int_const : string → expr;
  real_const : string → expr;
  bv_const : string → Z → expr;
  int_val : Z → expr;
  fpa_val : Z → expr;
  bv_val : Z → Z → expr;
  not_ : expr → expr;
  eq_ : expr → expr → expr;
  neq_ : expr → expr → expr;
  gt_ : expr → expr → expr;
  ge_ : expr → expr → expr;
  lt_ : expr → expr → expr;
  le_ : expr → expr → expr;
  plus_ : expr → expr → expr;
  minus_ : expr → expr → expr;
  times_ : expr → expr → expr;
  div_ : expr → expr → expr;
  rem_ : expr → expr → expr;
  mod_ : expr → expr → expr;
  shl_ : expr → expr → expr;
  lshr_ : expr → expr → expr;
  ashr_ : expr → expr → expr;
  bit_and : expr → expr → expr;
  bit_or : expr → expr → expr;
  bit_xor : expr → expr → expr
}.

Module LLVMPathConstraints.
Section constraints.
Context {V expr : Type} `{Countable V} `{!Address V} `{!LLVMValues V} `{!Z3Conditions expr} `{!Z3Terms expr}.

Record ConstraintAndVariables := CAV { Constraint : expr; Variables : list V }.

(** The member [Z3Expr]: what was translated so far. *)
Abbreviation cache := (gmap V ConstraintAndVariables).
Abbreviation answer := (option (ConstraintAndVariables * cache)).

(** [Z3Expr.try_emplace(Key, Val).first->second]. *)
Definition try_emplace (Key : V) (Val : ConstraintAndVariables) (Z3Expr : cache) : ConstraintAndVariables * cache :=
  match Z3Expr !! Key with
  | Some Old => (Old, Z3Expr)
  | None => (Val, <[Key := Val]> Z3Expr)
  end.

(** A constant for a number; [Other] is for the remaining types. *)
Definition number_const (Name : string) (T : Ty) (Other : option expr) : option expr :=
  match T with
  | IntegerTy NumBits => Some (if decide (NumBits = 1)%Z then bool_const Name else int_const Name)
  | FloatTy | DoubleTy => Some (real_const Name)
  | _ => Other
  end.

Definition typed_const (Name : string) (T : Ty) : option expr :=
  number_const Name T (match T with PointerTy => Some (bv_const Name 64) | _ => None end).

Definition getAllocaInstAsZ3 (Alloca : V) (Name : string) (T : Ty) (Z3Expr : cache) : answer :=
  match Z3Expr !! Alloca with
  | Some CV => Some (CV, Z3Expr)
  | None => C ← typed_const Name T; Some (try_emplace Alloca (CAV C [Alloca]) Z3Expr)
  end.

Definition getGEPInstAsZ3 (GEP : V) (Name : string) (T : Ty) (OfPointer : bool) (Z3Expr : cache) : answer :=
  C ← number_const Name T (if OfPointer then Some (bv_const Name 64) else None);
  Some (try_emplace GEP (CAV C [GEP]) Z3Expr).

Definition getSExtValue (BitWidth Bits : Z) : Z :=
  if decide (Bits < 2 ^ (BitWidth - 1))%Z then Bits else Bits - 2 ^ BitWidth.

Definition getLiteralAsZ3 (v : V) : option ConstraintAndVariables :=
  match kind v with
  | ConstantInt BitWidth Bits => Some (CAV (int_val (getSExtValue BitWidth Bits)) [])
  | ConstantFP Bits => Some (CAV (fpa_val Bits) [])
  | ConstantPointerNull => Some (CAV (bv_val 0 64) [])
  | _ => None
  end.

Definition getFunctionCallAsZ3 (Callee : option (V * string * Ty)) : option ConstraintAndVariables :=
  '(Fun, DemangledName, ReturnTy) ← Callee;
  C ← (match ReturnTy with
       | OtherFloatingPointTy => Some (real_const DemangledName)
       | _ => typed_const DemangledName ReturnTy
       end);
  Some (CAV C [Fun]).

(** The work list of [getLoadInstAsZ3]; its back is the head. *)
Fixpoint track_down (fuel : nat) (Worklist : list V) (Z3Expr : cache) : answer :=
  match fuel, Worklist with
  | S fuel, WorkV :: Worklist =>
    match kind WorkV with
    | AllocaInst Name T => getAllocaInstAsZ3 WorkV Name T Z3Expr
    | GetElementPtrInst Name T OfPointer => getGEPInstAsZ3 WorkV Name T OfPointer Z3Expr
    | _ => track_down fuel (reverse (default [] (operands WorkV)) ++ Worklist) Z3Expr
    end
  | _, _ => None
  end.

Definition getLoadInstAsZ3 (fuel : nat) (Load PointerOperand : V) (Z3Expr : cache) : answer :=
  match Z3Expr !! Load with
  | Some CV => Some (CV, Z3Expr)
  | None =>
    match kind PointerOperand with
    | AllocaInst Name T => getAllocaInstAsZ3 PointerOperand Name T Z3Expr
    | GetElementPtrInst Name T OfPointer => getGEPInstAsZ3 PointerOperand Name T OfPointer Z3Expr
    | _ => track_down fuel [Load] Z3Expr
    end
  end.

(** The lambda [HandleOperand] of [handleBinaryOperator]; [handleCmpInst] also takes
    address computations. *)
Definition HandleOperand (Binary : V → cache → answer) (AllowGEP : bool) (fuel : nat) (Op : V) (Z3Expr : cache) : answer :=
  let Op := match kind Op with CastInst _ Operand => Operand | _ => Op end in
  match kind Op with
  | ConstantInt _ _ | ConstantFP _ | ConstantPointerNull | OtherConstantData =>
    CV ← getLiteralAsZ3 Op; Some (CV, Z3Expr)
  | LoadInst PointerOperand =>
    match kind PointerOperand with
    | AllocaInst Name T => getAllocaInstAsZ3 PointerOperand Name T Z3Expr
    | _ => getLoadInstAsZ3 fuel Op PointerOperand Z3Expr
    end
  | BinaryOperator _ _ _ => Binary Op Z3Expr
  | CallBase Callee => CV ← getFunctionCallAsZ3 Callee; Some (CV, Z3Expr)
  | GetElementPtrInst Name T OfPointer => if AllowGEP then getGEPInstAsZ3 Op Name T OfPointer Z3Expr else None
  | _ => None
  end.

Definition binary_expr (Op : BinaryOps) (Lhs Rhs : expr) : expr :=
  match Op with
  | Add | FAdd => plus_ Lhs Rhs
  | Sub | FSub => minus_ Lhs Rhs
  | Mul | FMul => times_ Lhs Rhs
  | UDiv | SDiv | FDiv => div_ Lhs Rhs
  | URem | SRem | FRem => rem_ Lhs Rhs
  | Shl => shl_ Lhs Rhs
  | LShr => lshr_ Lhs Rhs
  | AShr => ashr_ Lhs Rhs
  | And => bit_and Lhs Rhs
  | Or => bit_or Lhs Rhs
  | Xor => bit_xor Lhs Rhs
  end.

Fixpoint handleBinaryOperator (fuel : nat) (BinOp : V) (Z3Expr : cache) : answer :=
  match fuel with
  | 0 => None
  | S fuel =>
    match Z3Expr !! BinOp, kind BinOp with
    | Some CV, _ => Some (CV, Z3Expr)
    | None, BinaryOperator Op Lhs Rhs =>
      '(L, Z3Expr) ← HandleOperand (handleBinaryOperator fuel) false fuel Lhs Z3Expr;
      '(R, Z3Expr) ← HandleOperand (handleBinaryOperator fuel) false fuel Rhs Z3Expr;
      Some (try_emplace BinOp (CAV (binary_expr Op (Constraint L) (Constraint R)) (Variables L ++ Variables R)) Z3Expr)
    | None, _ => None
    end
  end.

Definition compare_expr (Pred : Predicate) (Lhs Rhs : expr) : option expr :=
  match Pred with
  | ICMP_EQ => Some (eq_ Lhs Rhs)
  | ICMP_NE => Some (neq_ Lhs Rhs)
  | ICMP_UGT | ICMP_SGT => Some (gt_ Lhs Rhs)
  | ICMP_UGE | ICMP_SGE => Some (ge_ Lhs Rhs)
  | ICMP_ULT | ICMP_SLT => Some (lt_ Lhs Rhs)
  | ICMP_ULE | ICMP_SLE => Some (le_ Lhs Rhs)
  | OtherPredicate => None
  end.

Definition handleCmpInst (fuel : nat) (Cmp : V) (Pred : Predicate) (Lhs Rhs : V) (Z3Expr : cache) : answer :=
  match Z3Expr !! Cmp with
  | Some CV => Some (CV, Z3Expr)
  | None =>
    '(L, Z3Expr) ← HandleOperand (handleBinaryOperator fuel) true fuel Lhs Z3Expr;
    '(R, Z3Expr) ← HandleOperand (handleBinaryOperator fuel) true fuel Rhs Z3Expr;
    C ← compare_expr Pred (Constraint L) (Constraint R);
    Some (CAV C (Variables L ++ Variables R), Z3Expr)
  end.

(** One incoming value. *)
Definition phi_incoming (fuel : nat) (TyConstraints : expr) (Incoming : V) (o : answer) : answer :=
  '(CV, Z3Expr) ← o;
  let or_with '(Ret, Z3Expr) :=
    (CAV (or_ (Constraint CV) (Constraint Ret)) (Variables CV ++ Variables Ret), Z3Expr) in
  match kind Incoming with
  | ConstantInt _ Bits =>
    let C := if decide (Bits = 1)%Z then bool_val true else if decide (Bits = 0)%Z then bool_val false else TyConstraints in
    Some (CAV (or_ (Constraint CV) C) (Variables CV), Z3Expr)
  | LoadInst PointerOperand => or_with <$> getLoadInstAsZ3 fuel Incoming PointerOperand Z3Expr
  | CallBase Callee => Ret ← getFunctionCallAsZ3 Callee; Some (or_with (Ret, Z3Expr))
  | CmpInst Pred Lhs Rhs => or_with <$> handleCmpInst fuel Incoming Pred Lhs Rhs Z3Expr
  | _ => None
  end.

Definition handlePhiInstruction (fuel : nat) (Phi : V) (T : Ty) (IncomingValues : list V) (Z3Expr : cache) : answer :=
  match Z3Expr !! Phi with
  | Some CV => Some (CV, Z3Expr)
  | None =>
    TyConstraints ← typed_const "PHI" T;
    '(CV, Z3Expr) ← for_each IncomingValues (phi_incoming fuel TyConstraints) (Some (CAV (bool_val true) [], Z3Expr));
    Some (try_emplace Phi CV Z3Expr)
  end.

Definition negate (CV : ConstraintAndVariables) : ConstraintAndVariables := CAV (not_ (Constraint CV)) (Variables CV).

(** The two [if]s behind a condition that was translated. *)
Definition for_successor (Br : BranchInst V) (Succ : V) (Cond : answer) : answer :=
  if decide ((IfTrue Br).2 = Succ) then Cond
  else if decide ((IfFalse Br).2 = Succ) then '(CV, Z3Expr) ← Cond; Some (negate CV, Z3Expr)
  else None.

Definition handleCondBrInst (fuel : nat) (From : V) (Br : BranchInst V) (Succ : V) (Z3Expr : cache) : answer :=
  match Z3Expr !! From with
  | Some CV => Some (CV, Z3Expr)
  | None =>
    let Cond := Condition Br in
    match kind Cond with
    | CmpInst Pred Lhs Rhs => for_successor Br Succ (handleCmpInst fuel Cond Pred Lhs Rhs Z3Expr)
    | BinaryOperator _ _ _ => for_successor Br Succ (handleBinaryOperator fuel Cond Z3Expr)
    | CallBase Callee => for_successor Br Succ (CV ← getFunctionCallAsZ3 Callee; Some (CV, Z3Expr))
    | CastInst true Operand =>
      match kind Operand with
      | LoadInst PointerOperand =>
        '(CV, Z3Expr) ← getLoadInstAsZ3 fuel Operand PointerOperand Z3Expr;
        Some (CAV (eq_ (mod_ (Constraint CV) (int_val 2)) (int_val 1)) (Variables CV), Z3Expr)
      | _ => None
      end
    | PHINode T IncomingValues => handlePhiInstruction fuel Cond T IncomingValues Z3Expr
    | _ => None
    end
  end.

(** [LLVMBasedCFG::isBranchTarget], for a conditional branch. *)
Definition isBranchTarget (Br : BranchInst V) (Succ : V) : bool :=
  bool_decide ((IfTrue Br).1 = Succ) || bool_decide ((IfFalse Br).1 = Succ).

Definition internalGetConstraintAndVariablesFromEdge (fuel : nat) (From To : V) (Z3Expr : cache) :
    option (option ConstraintAndVariables * cache) :=
  match conditional_branch From with
  | None => Some (None, Z3Expr)
  | Some BI =>
    let To := default To (last (getPrevNodes To)) in
    if isBranchTarget BI To then
      '(CV, Z3Expr) ← handleCondBrInst fuel From BI To Z3Expr; Some (Some CV, Z3Expr)
    else Some (None, Z3Expr)
  end.

Definition getConstraintFromEdge (fuel : nat) (Curr Succ : V) (Z3Expr : cache) : option (option expr * cache) :=
  '(CV, Z3Expr) ← internalGetConstraintAndVariablesFromEdge fuel Curr Succ Z3Expr;
  Some (option_map Constraint CV, Z3Expr).

(** The variables are sorted and equal ones removed. *)
Definition dedup_variables (CV : ConstraintAndVariables) : ConstraintAndVariables :=
  CAV (Constraint CV) (GraphTraits.unique (merge_sort ConstraintPathFilter.address_le (Variables CV))).

Definition getConstraintAndVariablesFromEdge (fuel : nat) (Curr Succ : V) (Z3Expr : cache) :
    option (option ConstraintAndVariables * cache) :=
  '(CV, Z3Expr) ← internalGetConstraintAndVariablesFromEdge fuel Curr Succ Z3Expr;
  Some (option_map dedup_variables CV, Z3Expr).
End constraints.
End LLVMPathConstraints.
