(* ===== verification/LLVMPathConstraintsCorrect.v ===== *)
(** The translation of branch conditions does not depend on what was translated
    before: [Fresh] is the translation without a memory, and the translation with
    one gives the same expressions. What the two successors of a branch get. *)
From S2P Require Import Prelude Graph PathsGraph Z3PathSensitivity LLVMPathConstraints.
From stdpp Require Import strings sorting pretty.

(** * The translation without a memory *)

Module Fresh.
Import LLVMPathConstraints.
Section fresh.
Context {V expr : Type} `{Countable V} `{!Address V} `{!LLVMValues V} `{!Z3Conditions expr} `{!Z3Terms expr}.
Abbreviation CV := (ConstraintAndVariables (V:=V) (expr:=expr)).

(** Variables and address computations stand for themselves. *)
Definition const_of (v : V) : option CV :=
  match kind v with
  | AllocaInst Name T => C ← typed_const Name T; Some (CAV C [v])
  | GetElementPtrInst Name T OfPointer =>
    C ← number_const Name T (if OfPointer : bool then Some (bv_const Name 64) else None); Some (CAV C [v])
  | _ => None
  end.

Definition is_root (v : V) : bool := match kind v with AllocaInst _ _ | GetElementPtrInst _ _ _ => true | _ => false end.

Fixpoint root_of (fuel : nat) (Worklist : list V) : option V :=
  match fuel, Worklist with
  | S fuel, v :: Worklist => if is_root v then Some v else root_of fuel (reverse (default [] (operands v)) ++ Worklist)
  | _, _ => None
  end.

Definition load_of (fuel : nat) (Load Pointer : V) : option CV :=
  if is_root Pointer then const_of Pointer else r ← root_of fuel [Load]; const_of r.

Definition operand_of (Binary : V → option CV) (AllowGEP : bool) (fuel : nat) (Op : V) : option CV :=
  let Op := match kind Op with CastInst _ Operand => Operand | _ => Op end in
  match kind Op with
  | ConstantInt _ _ | ConstantFP _ | ConstantPointerNull | OtherConstantData => getLiteralAsZ3 Op
  | LoadInst Pointer => load_of fuel Op Pointer
  | BinaryOperator _ _ _ => Binary Op
  | CallBase Callee => getFunctionCallAsZ3 Callee
  | GetElementPtrInst _ _ _ => if AllowGEP then const_of Op else None
  | _ => None
  end.

Fixpoint binary_of (fuel : nat) (v : V) : option CV :=
  match fuel with
  | 0 => None
  | S fuel =>
    match kind v with
    | BinaryOperator Op Lhs Rhs =>
      L ← operand_of (binary_of fuel) false fuel Lhs;
      R ← operand_of (binary_of fuel) false fuel Rhs;
      Some (CAV (binary_expr Op (Constraint L) (Constraint R)) (Variables L ++ Variables R))
    | _ => None
    end
  end.

Definition compare_of (fuel : nat) (Pred : Predicate) (Lhs Rhs : V) : option CV :=
  L ← operand_of (binary_of fuel) true fuel Lhs;
  R ← operand_of (binary_of fuel) true fuel Rhs;
  C ← compare_expr Pred (Constraint L) (Constraint R);
  Some (CAV C (Variables L ++ Variables R)).

(** The disjuncts of an incoming value. *)
Definition incoming_of (fuel : nat) (TyConstraints : expr) (v : V) : option CV :=
  match kind v with
  | ConstantInt _ Bits =>
    Some (CAV (if decide (Bits = 1)%Z then bool_val true else if decide (Bits = 0)%Z then bool_val false else TyConstraints) [])
  | LoadInst Pointer => load_of fuel v Pointer
  | CallBase Callee => getFunctionCallAsZ3 Callee
  | CmpInst Pred Lhs Rhs => compare_of fuel Pred Lhs Rhs
  | _ => None
  end.

Definition phi_of (fuel : nat) (T : Ty) (Incoming : list V) : option CV :=
  TyConstraints ← typed_const "PHI" T;
  for_each Incoming (λ v o, CV ← o; Ret ← incoming_of fuel TyConstraints v;
    Some (CAV (or_ (Constraint CV) (Constraint Ret)) (Variables CV ++ Variables Ret))) (Some (CAV (bool_val true) [])).

Definition successor_of (Br : BranchInst V) (Succ : V) (Cond : option CV) : option CV :=
  if decide ((IfTrue Br).2 = Succ) then Cond
  else if decide ((IfFalse Br).2 = Succ) then negate <$> Cond
  else None.

Definition branch_of (fuel : nat) (Br : BranchInst V) (Succ : V) : option CV :=
  match kind (Condition Br) with
  | CmpInst Pred Lhs Rhs => successor_of Br Succ (compare_of fuel Pred Lhs Rhs)
  | BinaryOperator _ _ _ => successor_of Br Succ (binary_of fuel (Condition Br))
  | CallBase Callee => successor_of Br Succ (getFunctionCallAsZ3 Callee)
  | CastInst true Operand =>
    match kind Operand with
    | LoadInst Pointer =>
      C ← load_of fuel Operand Pointer; Some (CAV (eq_ (mod_ (Constraint C) (int_val 2)) (int_val 1)) (Variables C))
    | _ => None
    end
  | PHINode T Incoming => phi_of fuel T Incoming
  | _ => None
  end.

Definition edge_of (fuel : nat) (From To : V) : option (option CV) :=
  match conditional_branch From with
  | None => Some None
  | Some BI =>
    let To := default To (last (getPrevNodes To)) in
    if isBranchTarget BI To then Some <$> branch_of fuel BI To else Some None
  end.

(** What is remembered for a value. *)
Definition value_of (fuel : nat) (v : V) : option CV :=
  match kind v with
  | AllocaInst _ _ | GetElementPtrInst _ _ _ => const_of v
  | BinaryOperator _ _ _ => binary_of fuel v
  | PHINode T Incoming => phi_of fuel T Incoming
  | _ => None
  end.

(** * More fuel *)

Lemma more_refl {A} (o : option A) : below o o.
Proof. by intros x. Qed.

Lemma root_more k k' l : k ≤ k' → below (root_of k l) (root_of k' l).
Proof.
  revert k' l. induction k as [|k IH]; intros k' l Hk r Hr; [done|]. destruct k' as [|k']; [lia|].
  destruct l as [|v l]; [done|]. simpl in *. destruct (is_root v); [done|]. eapply IH; [lia|done].
Qed.

Lemma load_more k k' Load P : k ≤ k' → below (load_of k Load P) (load_of k' Load P).
Proof.
  intros Hk. unfold load_of. destruct (is_root P); [apply more_refl|]. apply below_bind; [by apply root_more|intros; apply more_refl].
Qed.

Lemma operand_more B B' b k k' v :
  k ≤ k' → (∀ v, below (B v) (B' v)) → below (operand_of B b k v) (operand_of B' b k' v).
Proof.
  intros Hk HB. unfold operand_of. destruct (kind _); try (apply more_refl); [by apply load_more|apply HB].
Qed.

Lemma binary_more k k' v : k ≤ k' → below (binary_of k v) (binary_of k' v).
Proof.
  revert k' v. induction k as [|k IH]; intros k' v Hk; [by intros x|]. destruct k' as [|k']; [lia|]. simpl.
  destruct (kind v); try apply more_refl.
  apply below_bind; [apply operand_more; [lia|intros w; apply IH; lia]|]. intros L.
  apply below_bind; [apply operand_more; [lia|intros w; apply IH; lia]|]. intros R. apply more_refl.
Qed.

Lemma compare_more k k' P L R : k ≤ k' → below (compare_of k P L R) (compare_of k' P L R).
Proof.
  intros Hk. apply below_bind; [apply operand_more; [done|intros w; by apply binary_more]|]. intros CL.
  apply below_bind; [apply operand_more; [done|intros w; by apply binary_more]|]. intros CR. apply more_refl.
Qed.

Lemma incoming_more k k' C v : k ≤ k' → below (incoming_of k C v) (incoming_of k' C v).
Proof.
  intros Hk. unfold incoming_of. destruct (kind v); try (apply more_refl); [by apply load_more|by apply compare_more].
Qed.

Lemma phi_more k k' T vs : k ≤ k' → below (phi_of k T vs) (phi_of k' T vs).
Proof.
  intros Hk. apply below_bind; [apply more_refl|]. intros C. apply below_for_each; [|apply more_refl].
  intros v o o' Ho. apply below_bind; [done|]. intros CV0. apply below_bind; [by apply incoming_more|]. intros CV1. apply more_refl.
Qed.

Lemma value_more k k' v : k ≤ k' → below (value_of k v) (value_of k' v).
Proof.
  intros Hk. unfold value_of. destruct (kind v); try (apply more_refl); [by apply binary_more|by apply phi_more].
Qed.

Lemma value_unique k k' v a b : value_of k v = Some a → value_of k' v = Some b → a = b.
Proof.
  intros Ha%(value_more k (k `max` k')) Hb%(value_more k' (k `max` k')); [congruence|lia..].
Qed.
(** * Faithful translations *)

(** What is remembered is what the translation gives. *)
Definition ok (c : gmap V CV) : Prop := ∀ v r, c !! v = Some r → ∃ k, value_of k v = Some r.

Definition mono {A} (F : nat → option A) : Prop := ∀ k k', k ≤ k' → below (F k) (F k').

(** [f] is sound and, with the fuel [k], complete for [F]. *)
Definition faithful {A} (f : gmap V CV → option (A * gmap V CV)) (F : nat → option A) (k : nat) : Prop :=
  ∀ c, ok c →
  (∀ r c', f c = Some (r, c') → ok c' ∧ ∃ k', F k' = Some r) ∧
  (∀ r, F k = Some r → ∃ c', f c = Some (r, c')).

Lemma faithful_pure {A} (o : option A) k : faithful (λ c, r ← o; Some (r, c)) (λ _, o) k.
Proof. intros c Hc. destruct o as [a|]; split; simpl; intros; simplify_eq; eauto. Qed.

Lemma faithful_none {A} (F : nat → option A) k : F k = None → faithful (λ _, None) F k.
Proof. intros HF c Hc. split; [done|]. intros r Hr. congruence. Qed.

Lemma faithful_bind {A B} f F (g : A → gmap V CV → option (B * gmap V CV)) G k :
  mono F → (∀ r, mono (G r)) → faithful f F k → (∀ r, faithful (g r) (G r) k) →
  faithful (λ c, '(r, c) ← f c; g r c) (λ k, r ← F k; G r k) k.
Proof.
  intros MF MG Hf Hg c Hc. destruct (Hf c Hc) as [Hs Hd]. split.
  - intros b c' ([a c1] & Ha & Hb)%bind_Some. destruct (Hs a c1 Ha) as (Hc1 & k1 & Hk1).
    destruct (proj1 (Hg a c1 Hc1) b c' Hb) as (Hc' & k2 & Hk2). split; [done|]. exists (k1 `max` k2).
    rewrite (MF k1 (k1 `max` k2) ltac:(lia) a Hk1). exact (MG a k2 (k1 `max` k2) ltac:(lia) b Hk2).
  - intros b (a & Ha & Hb)%bind_Some. destruct (Hd a Ha) as [c1 Hc1]. rewrite Hc1. cbn.
    destruct (Hs a c1 Hc1) as [Ho _]. by apply (proj2 (Hg a c1 Ho)).
Qed.

Lemma faithful_ext {A} f f' (F F' : nat → option A) k :
  (∀ c, f c = f' c) → (∀ k, F k = F' k) → faithful f F k → faithful f' F' k.
Proof.
  intros Hf HF H1 c Hc. destruct (H1 c Hc) as [Hs Hd]. rewrite <- Hf, <- HF. split; [|done].
  intros r c' Hr. destruct (Hs r c' Hr) as (Ho & k' & Hk'). split; [done|]. exists k'. by rewrite <- HF.
Qed.

Lemma faithful_map {A B} (h : A → B) f F k :
  mono F → faithful f F k → faithful (λ c, '(r, c) ← f c; Some (h r, c)) (λ k, r ← F k; Some (h r)) k.
Proof.
  intros MF Hf. apply faithful_bind; [done| |done|].
  - intros r k1 k2 _. apply more_refl.
  - intros r. apply (faithful_pure (Some (h r))).
Qed.

Lemma faithful_shift {A} f (F F' : nat → option A) k :
  (∀ k, F' (S k) = F k) → faithful f F k → faithful f F' (S k).
Proof.
  intros HF Hf c Hc. destruct (Hf c Hc) as [Hs Hd]. split; [|intros r; rewrite HF; apply Hd].
  intros r c' Hr. destruct (Hs r c' Hr) as (Ho & k' & Hk'). split; [done|]. exists (S k'). by rewrite HF.
Qed.

Lemma ok_insert c v r k : ok c → value_of k v = Some r → ok (<[v := r]> c).
Proof.
  intros Hc Hr w r' [[<- <-]|[Hn Hw]]%lookup_insert_Some; [by exists k|]. by apply Hc.
Qed.

(** Remembering what the translation of [v] is. *)
Lemma faithful_emplace v f F k :
  mono F → (∀ k, value_of k v = F k) → faithful f F k →
  faithful (λ c, '(r, c) ← f c; Some (try_emplace v r c)) F k.
Proof.
  intros MF HF Hf c Hc. destruct (Hf c Hc) as [Hs Hd].
  assert (∀ r c1, f c = Some (r, c1) → ∃ c', try_emplace v r c1 = (r, c') ∧ ok c') as He.
  { intros r c1 Hr. destruct (Hs r c1 Hr) as (Ho & k' & Hk'). unfold try_emplace. destruct (c1 !! v) as [r'|] eqn:Hv.
    - destruct (Ho v r' Hv) as [k2 Hk2]. rewrite <- HF in Hk'. rewrite (value_unique _ _ _ _ _ Hk2 Hk'). by exists c1.
    - exists (<[v := r]> c1). split; [done|]. rewrite <- HF in Hk'. by eapply ok_insert. }
  split.
  - intros r c' ([r1 c1] & H1 & H2)%bind_Some. destruct (He r1 c1 H1) as (c2 & H3 & H4). rewrite H3 in H2. simplify_eq.
    split; [done|]. apply (Hs r c1 H1).
  - intros r Hr. destruct (Hd r Hr) as [c1 H1]. rewrite H1. cbn. destruct (He r c1 H1) as (c2 & -> & _). by exists c2.
Qed.

(** Looking up what is remembered of [v]. *)
Lemma faithful_lookup v f F k :
  (∀ k, value_of k v = F k) → faithful f F k →
  faithful (λ c, match c !! v with Some r => Some (r, c) | None => f c end) F k.
Proof.
  intros HF Hf c Hc. destruct (c !! v) as [r0|] eqn:Hv; [|by apply Hf].
  destruct (Hc v r0 Hv) as [k0 Hk0]. split.
  - intros r c' [= <- <-]. split; [done|]. exists k0. by rewrite <- HF.
  - intros r Hr. rewrite <- HF in Hr. rewrite (value_unique _ _ _ _ _ Hk0 Hr). by exists c.
Qed.

Lemma faithful_unknown {A} v f (g : CV → gmap V CV → option (A * gmap V CV)) F k :
  (∀ k, value_of k v = None) → faithful f F k →
  faithful (λ c, match c !! v with Some r => g r c | None => f c end) F k.
Proof.
  intros HF Hf c Hc. destruct (c !! v) as [r0|] eqn:Hv; [|by apply Hf].
  destruct (Hc v r0 Hv) as [k0 Hk0]. by rewrite HF in Hk0.
Qed.

(** * The handlers *)

Lemma mono_const {A} (o : option A) : mono (λ _, o).
Proof. intros k k' _. apply more_refl. Qed.

Lemma mono_bind {A B} (F : nat → option A) (G : A → nat → option B) :
  mono F → (∀ r, mono (G r)) → mono (λ k, r ← F k; G r k).
Proof. intros MF MG k k' Hk. apply below_bind; [by apply MF|]. intros r. by apply MG. Qed.

Lemma alloca_faithful v Name T k :
  kind v = AllocaInst Name T → faithful (getAllocaInstAsZ3 v Name T) (λ _, const_of v) k.
Proof.
  intros Hv. unfold getAllocaInstAsZ3. apply faithful_lookup; [intros k0; unfold value_of; by rewrite Hv|].
  eapply (faithful_ext _ _ (λ _, const_of v)); [|done|].
  2: { apply (faithful_emplace v (λ c, r ← const_of v; Some (r, c))).
    - apply mono_const.
    - intros k0. unfold value_of. by rewrite Hv.
    - apply faithful_pure. }
  intros c. unfold const_of. rewrite Hv. by destruct (typed_const Name T).
Qed.

Lemma gep_faithful v Name T P k :
  kind v = GetElementPtrInst Name T P → faithful (getGEPInstAsZ3 v Name T P) (λ _, const_of v) k.
Proof.
  intros Hv. eapply (faithful_ext _ _ (λ _, const_of v)); [|done|].
  2: { apply (faithful_emplace v (λ c, r ← const_of v; Some (r, c))).
    - apply mono_const.
    - intros k0. unfold value_of. by rewrite Hv.
    - apply faithful_pure. }
  intros c. unfold const_of, getGEPInstAsZ3. rewrite Hv. by destruct (number_const _ _ _).
Qed.

Lemma track_down_faithful k l : faithful (track_down k l) (λ k, r ← root_of k l; const_of r) k.
Proof.
  revert l. induction k as [|k IH]; intros l; [by apply faithful_none|]. destruct l as [|v l]; [by apply faithful_none|].
  cbn [track_down]. pose proof (IH (reverse (default [] (operands v)) ++ l)) as Hrec.
  destruct (kind v) eqn:Hv;
    try (eapply faithful_shift; [|exact Hrec]; intros k0; cbn [root_of]; unfold is_root; by rewrite Hv).
  - eapply faithful_shift; [|by apply alloca_faithful]. intros k0. cbn [root_of]. unfold is_root. by rewrite Hv.
  - eapply faithful_shift; [|by apply gep_faithful]. intros k0. cbn [root_of]. unfold is_root. by rewrite Hv.
Qed.

Lemma load_faithful Load P k :
  kind Load = LoadInst P → faithful (getLoadInstAsZ3 k Load P) (λ k, load_of k Load P) k.
Proof.
  intros HL. apply faithful_unknown; [intros k0; unfold value_of; by rewrite HL|]. unfold load_of, is_root.
  destruct (kind P) eqn:HP; try apply track_down_faithful; [by apply alloca_faithful|by apply gep_faithful].
Qed.

Lemma operand_mono b v : mono (λ k, operand_of (binary_of k) b k v).
Proof. intros k k' Hk. apply operand_more; [done|]. intros w. by apply binary_more. Qed.

Lemma operand_faithful k b v :
  (∀ v Op L R, kind v = BinaryOperator Op L R → faithful (handleBinaryOperator k v) (λ k, binary_of k v) k) →
  faithful (HandleOperand (handleBinaryOperator k) b k v) (λ k, operand_of (binary_of k) b k v) k.
Proof.
  intros HB. unfold HandleOperand, operand_of. cbv zeta. set (w := match kind v with CastInst _ o => o | _ => v end).
  destruct (kind w) eqn:Hw; try apply faithful_pure; try (by apply faithful_none); try (by eapply HB).
  - pose proof (load_faithful w PointerOperand k Hw) as HL. destruct (kind PointerOperand) eqn:HP; try exact HL.
    eapply faithful_ext; [done| |by apply alloca_faithful]. intros k0. unfold load_of, is_root. by rewrite HP.
  - destruct b; [by apply gep_faithful|by apply faithful_none].
Qed.

(** Both operands of an operation. *)
Lemma operands_faithful k b L R (h : CV → CV → option CV) :
  (∀ v Op L R, kind v = BinaryOperator Op L R → faithful (handleBinaryOperator k v) (λ k, binary_of k v) k) →
  faithful (λ c, '(l, c) ← HandleOperand (handleBinaryOperator k) b k L c;
                 '(r, c) ← HandleOperand (handleBinaryOperator k) b k R c; x ← h l r; Some (x, c))
    (λ k, l ← operand_of (binary_of k) b k L; r ← operand_of (binary_of k) b k R; h l r) k.
Proof.
  intros HB. apply (faithful_bind _ _ (λ l c, '(r, c) ← HandleOperand (handleBinaryOperator k) b k R c; x ← h l r; Some (x, c))).
  - apply operand_mono.
  - intros l. apply mono_bind; [apply operand_mono|]. intros r. apply mono_const.
  - by apply operand_faithful.
  - intros l. apply (faithful_bind _ _ (λ r c, x ← h l r; Some (x, c))); [apply operand_mono| |by apply operand_faithful|].
    + intros r. apply mono_const.
    + intros r. apply faithful_pure.
Qed.

Lemma binary_faithful k v Op L R :
  kind v = BinaryOperator Op L R → faithful (handleBinaryOperator k v) (λ k, binary_of k v) k.
Proof.
  revert v Op L R. induction k as [|k IH]; intros v Op L R Hv; [by apply faithful_none|]. cbn [handleBinaryOperator].
  pose (comb (l r : CV) := Some (CAV (binary_expr Op (Constraint l) (Constraint r)) (Variables l ++ Variables r))).
  pose (F k := l ← operand_of (binary_of k) false k L; r ← operand_of (binary_of k) false k R; comb l r).
  assert (∀ k, binary_of (S k) v = F k) as HF by (intros k0; cbn [binary_of]; by rewrite Hv).
  pose (f c := '(l, c) ← HandleOperand (handleBinaryOperator k) false k L c;
    '(r, c) ← HandleOperand (handleBinaryOperator k) false k R c; x ← comb l r; Some (x, c)).
  eapply (faithful_ext (λ c, match c !! v with Some r => Some (r, c) | None => '(r, c) ← f c; Some (try_emplace v r c) end));
    [|done|].
  2: { apply faithful_lookup; [intros k0; unfold value_of; by rewrite Hv|].
    apply faithful_emplace; [|intros k0; unfold value_of; by rewrite Hv|].
    - intros k1 k2 Hk. by apply binary_more.
    - eapply faithful_shift; [exact HF|]. by apply (operands_faithful k false L R comb). }
  intros c. rewrite Hv. destruct (c !! v); [done|]. unfold f.
  destruct (HandleOperand _ _ _ L c) as [[l c1]|]; [|done]. cbn. by destruct (HandleOperand _ _ _ R c1) as [[r c2]|].
Qed.

Lemma compare_mono P L R : mono (λ k, compare_of k P L R).
Proof. intros k k' Hk. by apply compare_more. Qed.

Lemma compare_faithful k v P L R :
  kind v = CmpInst P L R → faithful (handleCmpInst k v P L R) (λ k, compare_of k P L R) k.
Proof.
  intros Hv. apply faithful_unknown; [intros k0; unfold value_of; by rewrite Hv|].
  pose (comb (l r : CV) := C ← compare_expr P (Constraint l) (Constraint r); Some (CAV C (Variables l ++ Variables r))).
  eapply faithful_ext; [|done|apply (operands_faithful k true L R comb); intros; by eapply binary_faithful].
  intros c. cbn. destruct (HandleOperand _ _ _ L c) as [[l c1]|]; [|done]. cbn.
  destruct (HandleOperand _ _ _ R c1) as [[r c2]|]; [|done]. cbn. unfold comb. by destruct (compare_expr _ _ _).
Qed.

Lemma call_faithful Callee k :
  faithful (λ c, r ← getFunctionCallAsZ3 Callee; Some (r, c)) (λ _, getFunctionCallAsZ3 (V:=V) (expr:=expr) Callee) k.
Proof. apply faithful_pure. Qed.

Lemma load_mono Load P : mono (λ k, load_of k Load P).
Proof. intros k k' Hk. by apply load_more. Qed.

(** What an incoming value adds to the disjunction. *)
Definition disjoin (CV0 Ret : CV) : CV := CAV (or_ (Constraint CV0) (Constraint Ret)) (Variables CV0 ++ Variables Ret).

Lemma incoming_faithful k T v CV0 :
  faithful (λ c, phi_incoming k T v (Some (CV0, c))) (λ k, Ret ← incoming_of k T v; Some (disjoin CV0 Ret)) k.
Proof.
  unfold phi_incoming, incoming_of. cbn [mbind option_bind]. destruct (kind v) eqn:Hv; try (by apply faithful_none).
  - eapply faithful_ext; [intros c; reflexivity| |apply (faithful_pure (Some _))]. intros k0. cbn. unfold disjoin. cbn.
    by rewrite app_nil_r.
  - eapply faithful_ext; [|done|eapply (faithful_map (disjoin CV0)); [apply load_mono|by apply load_faithful]].
    intros c. cbn beta. by destruct (getLoadInstAsZ3 _ _ _ _) as [[r c']|].
  - eapply faithful_ext; [|done|eapply (faithful_map (disjoin CV0)); [apply compare_mono|by eapply compare_faithful]].
    intros c. cbn beta. by destruct (handleCmpInst _ _ _ _ _ _) as [[r c']|].
  - eapply faithful_ext; [|done|eapply (faithful_map (disjoin CV0)); [apply mono_const|apply call_faithful]].
    intros c. cbn beta. by destruct (getFunctionCallAsZ3 _) as [r|].
Qed.

Lemma incoming_mono T v : mono (λ k, incoming_of k T v).
Proof. intros k k' Hk. by apply incoming_more. Qed.

Lemma disjunction_mono T vs (o : option CV) :
  mono (λ k, for_each vs (λ v o, CV ← o; Ret ← incoming_of k T v; Some (disjoin CV Ret)) o).
Proof.
  intros k k' Hk. apply below_for_each; [|apply more_refl]. intros v o1 o2 Ho. apply below_bind; [done|]. intros CV0.
  apply below_bind; [by apply incoming_more|]. intros CV1. apply more_refl.
Qed.

(** A loop that stops at an abort. *)
Lemma for_each_bind {A S} (l : list A) (f : A → option S → option S) o :
  (∀ x, f x None = None) → for_each l f o = (s ← o; for_each l f (Some s)).
Proof.
  intros Hf. destruct o as [s|]; [done|]. cbn. induction l as [|x l IH]; [done|]. by rewrite for_each_cons, Hf.
Qed.

Lemma disjunction_faithful k T vs CV0 :
  faithful (λ c, for_each vs (phi_incoming k T) (Some (CV0, c)))
    (λ k, for_each vs (λ v o, CV ← o; Ret ← incoming_of k T v; Some (disjoin CV Ret)) (Some CV0)) k.
Proof.
  revert CV0. induction vs as [|v vs IH]; intros CV0; [apply (faithful_pure (Some CV0))|].
  eapply faithful_ext; [| |apply (faithful_bind (λ c, phi_incoming k T v (Some (CV0, c)))
    (λ k, Ret ← incoming_of k T v; Some (disjoin CV0 Ret)) (λ CV1 c, for_each vs (phi_incoming k T) (Some (CV1, c)))
    (λ CV1 k, for_each vs (λ v o, CV ← o; Ret ← incoming_of k T v; Some (disjoin CV Ret)) (Some CV1)))].
  - intros c. cbn beta. rewrite for_each_cons, (for_each_bind vs) by done. by destruct (phi_incoming _ _ _ _) as [[r c']|].
  - intros k0. cbn beta. rewrite for_each_cons, (for_each_bind vs) by done. done.
  - apply mono_bind; [apply incoming_mono|]. intros r. apply mono_const.
  - intros CV1. apply disjunction_mono.
  - apply incoming_faithful.
  - apply IH.
Qed.

Lemma phi_mono T vs : mono (λ k, phi_of k T vs).
Proof. intros k k' Hk. by apply phi_more. Qed.

Lemma phi_faithful k v T vs :
  kind v = PHINode T vs → faithful (handlePhiInstruction k v T vs) (λ k, phi_of k T vs) k.
Proof.
  intros Hv. apply faithful_lookup; [intros k0; unfold value_of; by rewrite Hv|].
  unfold phi_of. destruct (typed_const "PHI" T) as [TC|] eqn:HT; cbn; [|by apply faithful_none].
  apply faithful_emplace.
  - apply disjunction_mono.
  - intros k0. unfold value_of, phi_of. by rewrite Hv, HT.
  - apply disjunction_faithful.
Qed.

Lemma successor_mono Br Succ (F : nat → option CV) : mono F → mono (λ k, successor_of Br Succ (F k)).
Proof.
  intros MF k k' Hk. unfold successor_of. repeat case_decide; [by apply MF| |apply more_refl].
  intros x (y & Hy & ->)%fmap_Some. by rewrite (MF k k' Hk y Hy).
Qed.

Lemma successor_faithful Br Succ f F k :
  mono F → faithful f F k → faithful (λ c, for_successor Br Succ (f c)) (λ k, successor_of Br Succ (F k)) k.
Proof.
  intros MF Hf. unfold for_successor, successor_of. repeat case_decide; [done| |by apply faithful_none].
  by apply (faithful_map negate).
Qed.

Lemma branch_mono Br Succ : mono (λ k, branch_of k Br Succ).
Proof.
  unfold branch_of. destruct (kind (Condition Br)); try apply mono_const.
  - apply successor_mono, compare_mono.
  - apply successor_mono. intros k k' Hk. by apply binary_more.
  - destruct TruncToBool; [|apply mono_const]. destruct (kind Operand); try apply mono_const.
    apply mono_bind; [apply load_mono|]. intros r. apply mono_const.
  - apply phi_mono.
Qed.

Lemma branch_faithful k From Br Succ :
  kind From = OtherValue → faithful (handleCondBrInst k From Br Succ) (λ k, branch_of k Br Succ) k.
Proof.
  intros HF. apply faithful_unknown; [intros k0; unfold value_of; by rewrite HF|]. unfold branch_of.
  destruct (kind (Condition Br)) eqn:HC; try (by apply faithful_none).
  - apply successor_faithful; [apply compare_mono|by eapply compare_faithful].
  - apply successor_faithful; [intros k1 k2 Hk; by apply binary_more|by eapply binary_faithful].
  - apply successor_faithful; [apply mono_const|apply call_faithful].
  - destruct TruncToBool; [|by apply faithful_none]. destruct (kind Operand) eqn:HO; try (by apply faithful_none).
    eapply faithful_map; [apply load_mono|by apply load_faithful].
  - by apply phi_faithful.
Qed.

Lemma edge_faithful k From To :
  (conditional_branch From ≠ None → kind From = OtherValue) →
  faithful (internalGetConstraintAndVariablesFromEdge k From To) (λ k, edge_of k From To) k.
Proof.
  intros HF. unfold internalGetConstraintAndVariablesFromEdge, edge_of.
  destruct (conditional_branch From) as [BI|]; [|apply (faithful_pure (Some None))]. cbv zeta.
  destruct (isBranchTarget _ _); [|apply (faithful_pure (Some None))].
  eapply faithful_ext; [done| |apply (faithful_map Some); [apply branch_mono|apply branch_faithful; by apply HF]].
  intros k0. cbn beta. by destruct (branch_of _ _ _).
Qed.

(** * Queries *)

(** A conditional branch is no value that is remembered. *)
Context (branch_kind : ∀ v : V, conditional_branch v ≠ None → kind v = OtherValue).

(** What an object remembers after some queries. *)
Inductive queried : gmap V CV → Prop :=
  | queried_none : queried ∅
  | queried_more k c From To r c' :
    queried c → internalGetConstraintAndVariablesFromEdge k From To c = Some (r, c') → queried c'.

Lemma queried_ok c : queried c → ok c.
Proof.
  induction 1 as [|k c From To r c' _ IH Hq]; [intros v r Hv; by rewrite lookup_empty in Hv|].
  by apply (proj1 (edge_faithful k From To (branch_kind From) c IH) r c').
Qed.

Lemma edge_mono From To : mono (λ k, edge_of k From To).
Proof.
  unfold edge_of. destruct (conditional_branch From) as [BI|]; [|apply mono_const]. cbv zeta.
  destruct (isBranchTarget _ _); [|apply mono_const]. intros k k' Hk x (y & Hy & ->)%fmap_Some.
  by rewrite (branch_mono BI _ k k' Hk y Hy).
Qed.

(** An answer does not depend on what was asked before. *)
Lemma answer_spec k c From To r c' :
  queried c → internalGetConstraintAndVariablesFromEdge k From To c = Some (r, c') →
  ∃ k0, ∀ k', k0 ≤ k' → edge_of k' From To = Some r
    ∧ ∀ c1, queried c1 → ∃ c2, internalGetConstraintAndVariablesFromEdge k' From To c1 = Some (r, c2).
Proof.
  intros Hc%queried_ok Hr. destruct (proj1 (edge_faithful k From To (branch_kind From) c Hc) r c' Hr) as (_ & k0 & Hk0).
  exists k0. intros k' Hk. pose proof (edge_mono From To k0 k' Hk r Hk0) as Hr'. split; [done|].
  intros c1 Hc1%queried_ok. by apply (proj2 (edge_faithful k' From To (branch_kind From) c1 Hc1)).
Qed.

Lemma answer_from_fresh k c From To r :
  queried c → edge_of k From To = Some r → ∃ c', internalGetConstraintAndVariablesFromEdge k From To c = Some (r, c').
Proof. intros Hc%queried_ok Hr. by apply (proj2 (edge_faithful k From To (branch_kind From) c Hc)). Qed.
End fresh.

(** The constraints of the edges, as a function. *)
#[local] Instance edge_constraints {V expr : Type} `{Countable V} `{!Address V} `{!LLVMValues V} `{!Z3Conditions expr}
    `{!Z3Terms expr} (fuel : nat) : PathConstraints V V expr := {
  getConstraintAndVariablesFromEdge Curr Succ :=
    CV ← default None (edge_of fuel Curr Succ);
    Some (Constraint (dedup_variables CV), Variables (dedup_variables CV))
}.
End Fresh.
Import LLVMPathConstraints Fresh.

(** * Properties *)

Section properties.
Context {V expr : Type} `{Countable V} `{!Address V} `{!LLVMValues V} `{!Z3Conditions expr} `{!Z3Terms expr}.

(** C32: The memory of LLVMPathConstraints is invisible. Whatever an object was asked
    before, its answer for an edge, with the variables or without, is that of the
    function [edge_constraints] of the edge, and an object that was asked other
    questions (or none) gives it, too, instead of an abort. *)
Theorem edge_constraints_memoised (c : gmap V (ConstraintAndVariables (V:=V) (expr:=expr))) (From To : V) k r c' :
  (∀ v : V, conditional_branch v ≠ None → kind v = OtherValue) → queried c →
  LLVMPathConstraints.getConstraintAndVariablesFromEdge k From To c = Some (r, c') →
  ∃ k0, ∀ k', k0 ≤ k' →
    Z3PathSensitivity.getConstraintAndVariablesFromEdge (PathConstraints:=edge_constraints k') From To
      = option_map (λ CV, (Constraint CV, Variables CV)) r
    ∧ ∀ c1, queried c1 →
      (∃ c2, LLVMPathConstraints.getConstraintAndVariablesFromEdge k' From To c1 = Some (r, c2))
      ∧ (∃ c2, LLVMPathConstraints.getConstraintFromEdge k' From To c1 = Some (option_map Constraint r, c2)).
Proof.
  intros Hb Hc ([r0 c0] & H0 & [= <- <-])%bind_Some. destruct (answer_spec Hb k c From To r0 c0 Hc H0) as [k0 Hk0].
  exists k0. intros k' Hk. destruct (Hk0 k' Hk) as [He Ha]. split.
  - cbn. rewrite He. by destruct r0.
  - intros c1 Hc1. destruct (Ha c1 Hc1) as [c2 H2]. unfold LLVMPathConstraints.getConstraintAndVariablesFromEdge, getConstraintFromEdge.
    rewrite H2. split; exists c2; [done|]. cbn. by destruct r0.
Qed.

(** A branch whose successors start with [t] and [f]. *)
Record branches (From : V) (Br : BranchInst V) (t f : V) : Prop := {
  branches_br : conditional_branch From = Some Br;
  branches_true : IfTrue Br = (t, t);
  branches_false : IfFalse Br = (f, f);
  branches_t : getPrevNodes t = [];
  branches_f : getPrevNodes f = []
}.

(** The fresh constraints of the edges to the two successors. *)
Lemma branches_edges From Br t f k :
  branches From Br t f →
  edge_of k From t = Some <$> branch_of (expr:=expr) k Br t ∧ edge_of k From f = Some <$> branch_of (expr:=expr) k Br f.
Proof.
  intros [Hbr Ht Hf Hpt Hpf]. unfold edge_of, isBranchTarget. rewrite Hbr, Hpt, Hpf, Ht, Hf. simpl default. simpl fst.
  rewrite (bool_decide_true (t = t)), (bool_decide_true (f = f)) by done. by rewrite orb_true_r.
Qed.

(** What [f] gets of an object, with enough fuel. *)
Definition gets (c : gmap V (ConstraintAndVariables (V:=V) (expr:=expr))) (From To : V) (C : option expr) : Prop :=
  ∃ k0, ∀ k', k0 ≤ k' → ∃ c2, LLVMPathConstraints.getConstraintFromEdge k' From To c = Some (C, c2).

(** Comparisons, arithmetic results and calls: the other side is negated. *)
Lemma branch_sides_complementary (c c1 : gmap V (ConstraintAndVariables (V:=V) (expr:=expr))) From Br t f k e c' :
  (∀ v : V, conditional_branch v ≠ None → kind v = OtherValue) → queried c → queried c1 →
  branches From Br t f → t ≠ f →
  match kind (Condition Br) with CmpInst _ _ _ | BinaryOperator _ _ _ | CallBase _ => True | _ => False end →
  LLVMPathConstraints.getConstraintFromEdge k From t c = Some (e, c') →
  ∃ C, e = Some C ∧ gets c1 From f (Some (not_ C)).
Proof.
  intros Hb Hc Hc1 HB Hn Hk ([r0 c0] & H0 & [= <- <-])%bind_Some.
  destruct (answer_spec Hb k c From t r0 c0 Hc H0) as [k0 Hk0].
  assert (∃ CV0, r0 = Some CV0) as [CV0 ->].
  { destruct (Hk0 k0 ltac:(lia)) as [He _]. rewrite (proj1 (branches_edges From Br t f k0 HB)) in He.
    apply fmap_Some in He as (CV0 & _ & ->). by exists CV0. }
  exists (Constraint CV0). split; [done|]. exists k0. intros k' Hle. destruct (Hk0 k' Hle) as [He _].
  destruct (branches_edges From Br t f k' HB) as [Et Ef]. rewrite Et in He.
  apply fmap_Some in He as (CV1 & He & [= <-]).
  assert (edge_of k' From f = Some (Some (negate CV0))) as Hf.
  { rewrite Ef. unfold branch_of, successor_of in *. destruct HB as [_ Ht Hf _ _]. rewrite Ht, Hf in *. cbn in *.
    destruct (kind (Condition Br)); try done; rewrite (decide_True (P:=t = t)) in He by done;
      rewrite (decide_False (P:=t = f)), (decide_True (P:=f = f)), He by done; done. }
  destruct (answer_from_fresh Hb k' c1 From f _ Hc1 Hf) as [c2 H2]. exists c2. unfold LLVMPathConstraints.getConstraintFromEdge.
  by rewrite H2.
Qed.

(** A truncated load: both sides are the same. *)
Lemma truncated_condition_not_negated (c c1 : gmap V (ConstraintAndVariables (V:=V) (expr:=expr))) From Br t f k e c' O P :
  (∀ v : V, conditional_branch v ≠ None → kind v = OtherValue) → queried c → queried c1 →
  branches From Br t f → kind (Condition Br) = CastInst true O → kind O = LoadInst P →
  LLVMPathConstraints.getConstraintFromEdge k From t c = Some (e, c') →
  ∃ C, e = Some (eq_ (mod_ C (int_val 2)) (int_val 1)) ∧ gets c1 From f e.
Proof.
  intros Hb Hc Hc1 HB HC HO ([r0 c0] & H0 & [= <- <-])%bind_Some.
  destruct (answer_spec Hb k c From t r0 c0 Hc H0) as [k0 Hk0].
  assert (∀ k, branch_of (expr:=expr) k Br f = branch_of k Br t) as Hbf by (intros k1; unfold branch_of; by rewrite HC, HO).
  assert (∀ k', k0 ≤ k' → edge_of k' From f = Some r0) as Hf.
  { intros k' Hle. destruct (Hk0 k' Hle) as [He _]. destruct (branches_edges From Br t f k' HB) as [Et Ef].
    by rewrite Ef, Hbf, <- Et. }
  assert (∃ C, option_map Constraint r0 = Some (eq_ (mod_ C (int_val 2)) (int_val 1))) as [C HCe].
  { pose proof (Hf k0 ltac:(lia)) as He. rewrite (proj2 (branches_edges From Br t f k0 HB)) in He.
    apply fmap_Some in He as (CV1 & He & ->). unfold branch_of in He. rewrite HC, HO in He.
    apply bind_Some in He as (L & _ & [= <-]). by exists (Constraint L). }
  exists C. split; [done|]. exists k0. intros k' Hle.
  destruct (answer_from_fresh Hb k' c1 From f _ Hc1 (Hf k' Hle)) as [c2 H2]. exists c2.
  unfold LLVMPathConstraints.getConstraintFromEdge. by rewrite H2.
Qed.

(** C33: When an object answers for the true side of a branch on a comparison, an
    arithmetic result or a call, then any object gives the negated constraint for the
    false side. For a branch on a load that is truncated to a bit it gives the same
    constraint instead, that the loaded value is odd: a path along the false side is
    then checked, and reported, under the condition of the true side. *)
Theorem branch_sides (c c1 : gmap V (ConstraintAndVariables (V:=V) (expr:=expr))) From Br t f k e c' :
  (∀ v : V, conditional_branch v ≠ None → kind v = OtherValue) → queried c → queried c1 → branches From Br t f → t ≠ f →
  LLVMPathConstraints.getConstraintFromEdge k From t c = Some (e, c') →
  match kind (Condition Br) with
  | CmpInst _ _ _ | BinaryOperator _ _ _ | CallBase _ => ∃ C, e = Some C ∧ gets c1 From f (Some (not_ C))
  | CastInst true Load =>
    ∀ P, kind Load = LoadInst P → ∃ C, e = Some (eq_ (mod_ C (int_val 2)) (int_val 1)) ∧ gets c1 From f e
  | _ => True
  end.
Proof.
  intros Hb Hc Hc1 HB Hn He. destruct (kind (Condition Br)) eqn:HC; try done.
  - apply (branch_sides_complementary c c1 From Br t f k e c'); try done. by rewrite HC.
  - apply (branch_sides_complementary c c1 From Br t f k e c'); try done. by rewrite HC.
  - apply (branch_sides_complementary c c1 From Br t f k e c'); try done. by rewrite HC.
  - destruct TruncToBool; [|done]. intros P HP. by apply (truncated_condition_not_negated c c1 From Br t f k e c' Operand P).
Qed.
End properties.

(** * Example *)

(** Expressions in the syntax of SMT-LIB. *)
Module Smt.
#[local] Open Scope string_scope.

Definition app (f a b : string) : string := "(" ++ f ++ " " ++ a ++ " " ++ b ++ ")".

#[export] Instance conditions : Z3Conditions string := {
  bool_val b := if b : bool then "true" else "false";
  and_ := app "and";
  or_ := app "or";
  simplify e := e;
  is_false e := bool_decide (e = "false")
}.

#[export] Instance terms : Z3Terms string := {
  bool_const Name := Name;
  int_const Name := Name;
  real_const Name := Name;
  bv_const Name _ := Name;
  int_val := pretty;
  fpa_val := pretty;
  bv_val z _ := pretty z;
  not_ e := "(not " ++ e ++ ")";
  eq_ := app "=";
  neq_ := app "distinct";
  gt_ := app ">";
  ge_ := app ">=";
  lt_ := app "<";
  le_ := app "<=";
  plus_ := app "+";
  minus_ := app "-";
  times_ := app "*";
  div_ := app "/";
  rem_ := app "rem";
  mod_ := app "mod";
  shl_ := app "bvshl";
  lshr_ := app "bvlshr";
  ashr_ := app "bvashr";
  bit_and := app "bvand";
  bit_or := app "bvor";
  bit_xor := app "bvxor"
}.

#[export] Instance nat_address : Address nat := { address := Z.of_nat }.

(** [if (x - 5 > -1)] at 10 and [if (b)], for a [bool] that is loaded at 7, at 11. *)
#[export] Instance program : LLVMValues nat := {
  kind v :=
    match v with
    | 1 => AllocaInst "x" (IntegerTy 32)
    | 2 => LoadInst 1
    | 3 => ConstantInt 32 5
    | 4 => BinaryOperator Sub 2 3
    | 5 => CmpInst ICMP_SGT 4 6
    | 6 => ConstantInt 32 (2 ^ 32 - 1)
    | 7 => LoadInst 8
    | 8 => AllocaInst "b" (IntegerTy 8)
    | 9 => CastInst true 7
    | _ => OtherValue
    end;
  operands v := match v with 2 => Some [1] | 4 => Some [2; 3] | 5 => Some [4; 6] | 7 => Some [8] | 9 => Some [7] | _ => None end;
  conditional_branch v :=
    match v with
    | 10 => Some {| Condition := 5; IfTrue := (20, 20); IfFalse := (30, 30) |}
    | 11 => Some {| Condition := 9; IfTrue := (40, 40); IfFalse := (50, 50) |}
    | _ => None
    end;
  getPrevNodes v := []
}.

Lemma branch_kind (v : nat) : conditional_branch v ≠ None → kind v = OtherValue.
Proof. do 12 (destruct v as [|v]; [done|]). done. Qed.

Definition answer_of (From To : nat) (c : gmap nat (ConstraintAndVariables (V:=nat) (expr:=string))) :
    option (option (string * list nat)) :=
  option_map (λ CV, (Constraint CV, Variables CV)) ∘ fst <$> LLVMPathConstraints.getConstraintAndVariablesFromEdge 3 From To c.

(** What is remembered after the first query. *)
Definition once : gmap nat (ConstraintAndVariables (V:=nat) (expr:=string)) :=
  default ∅ (snd <$> LLVMPathConstraints.internalGetConstraintAndVariablesFromEdge 3 10 20 ∅).

Lemma once_queried : queried once.
Proof.
  assert (∃ r, LLVMPathConstraints.internalGetConstraintAndVariablesFromEdge 3 10 20 ∅ = Some (r, once)) as [r Hr]
    by (eexists; vm_compute; reflexivity).
  exact (queried_more 3 ∅ 10 20 r once queried_none Hr).
Qed.

Lemma at_10 : branches 10 {| Condition := 5; IfTrue := (20, 20); IfFalse := (30, 30) |} 20 30.
Proof. by constructor. Qed.

Lemma at_11 : branches 11 {| Condition := 9; IfTrue := (40, 40); IfFalse := (50, 50) |} 40 50.
Proof. by constructor. Qed.
End Smt.
Import Smt.

Lemma edge_constraints_memoised_witness :
  queried once ∧ size once = 2
  ∧ answer_of 10 30 once = Some (Some ("(not (> (- x 5) -1))"%string, [1]))
  ∧ (∃ k0, ∀ k', k0 ≤ k' →
      Z3PathSensitivity.getConstraintAndVariablesFromEdge (PathConstraints:=edge_constraints k') 10 30
        = Some ("(not (> (- x 5) -1))"%string, [1])
      ∧ ∀ c1, queried c1 →
        (∃ c2, LLVMPathConstraints.getConstraintAndVariablesFromEdge k' 10 30 c1 = Some (Some (CAV "(not (> (- x 5) -1))"%string [1]), c2))
        ∧ (∃ c2, LLVMPathConstraints.getConstraintFromEdge k' 10 30 c1 = Some (Some "(not (> (- x 5) -1))"%string, c2))).
Proof.
  split; [exact once_queried|]. split; [vm_compute; reflexivity|]. split; [vm_compute; reflexivity|].
  apply (edge_constraints_memoised once 10 30 3 (Some (CAV "(not (> (- x 5) -1))"%string [1])) once branch_kind once_queried).
  vm_compute. reflexivity.
Defined.

Lemma branch_sides_witness :
  answer_of 10 20 ∅ = Some (Some ("(> (- x 5) -1)"%string, [1]))
  ∧ (∃ C, Some "(> (- x 5) -1)"%string = Some C ∧ gets once 10 30 (Some (not_ C)))
  ∧ answer_of 11 40 ∅ = Some (Some ("(= (mod b 2) 1)"%string, [8])) ∧ answer_of 11 50 ∅ = answer_of 11 40 ∅
  ∧ (∀ P, kind 7 = LoadInst P → ∃ C,
      Some "(= (mod b 2) 1)"%string = Some (eq_ (mod_ C (int_val 2)) (int_val 1))
      ∧ gets once 11 50 (Some "(= (mod b 2) 1)"%string)).
Proof.
  split; [vm_compute; reflexivity|]. split; [|split; [vm_compute; reflexivity|split; [vm_compute; reflexivity|]]].
  - apply (branch_sides ∅ once 10 _ 20 30 3 (Some "(> (- x 5) -1)"%string) once branch_kind queried_none once_queried at_10);
      [lia|vm_compute; reflexivity].
  - eapply (branch_sides ∅ once 11 _ 40 50 3 (Some "(= (mod b 2) 1)"%string) _ branch_kind queried_none once_queried at_11);
      [lia|vm_compute; reflexivity].
Defined.
